(* ===== verification/_CoqProject ===== *)
-Q . S2P
Prelude.v
Domain.v
Segments.v
SegmentsInv.v
SegmentsRestore.v
SegmentsThm.v
JobMachine.v
JobInv.v
JobThm.v
Retry.v
ResumePolicy.v
Origin.v
OriginThm.v
Admission.v
AdmissionThm.v
Persistence.v
Transfer.v
PersistenceInv.v
TransferInv.v
PersistenceThm.v
TransferThm.v
Files.v
FilesInv.v
StorageFile.v
StorageInv.v
StorageSteps.v
StorageThm.v
Buffers.v
Writer.v
WriterThm.v
LifeCycle.v
Ports.v
Coordinator.v
StorageNames.v
SessionLane.v
SessionInv.v
SessionJob.v
SessionSteps.v
SessionCommands.v
SessionDisk.v
SessionCheckpoint.v
SessionWorkers.v
SessionPublish.v
SessionRun.v
CoordinatorThm.v
Scheduler.v
SchedulerInv.v
SchedulerSteps.v
SchedulerThm.v
SchedulerWake.v
SchedulerEngine.v
TransferStore.v
TransferStoreInv.v
TransferStoreOps.v
TransferStoreOpen.v
TransferStoreThm.v
TransferStoreMain.v
Protocol.v
ProtocolThm.v
Ipc.v
IpcThm.v
Options.v
OptionsThm.v
Requests.v
RequestsThm.v
Downloads.v
DownloadsThm.v
QueueStore.v
QueueStoreThm.v
QueueStoreType.v
Manager.v
ManagerCalls.v
ManagerInv.v
ManagerSteps.v
ManagerCommands.v
ManagerRows.v
ManagerTrace.v
ManagerGrowth.v
ManagerRuns.v
ManagerThm.v
