(* ===== verification/Prelude.v ===== *)
(** * A verification library for the FHD download engine

    FHD downloads files over HTTP and keeps what it downloaded through pauses, failures and
    crashes.  The repository holds two engines.  The second one (crates domain, application,
    runtime and adapters) splits a file into segments fetched by several connections; the
    first one (crates download-core, transfer-store, download-engine) downloads a file from
    front to back and runs many downloads from one durable queue.  The library models both,
    from their decision logic down to the files and the database rows they rest on.

    ** The parts and the files that model them

    The second engine, from the inside out.

    - [Domain.v], [Segments.v], [JobMachine.v], [Retry.v]: crates/domain.  [Segments.SegmentMap]
      is [SegmentMap] of segments.rs, one definition per method; [JobMachine.Job] is [Job] of
      job.rs with [execute], [decide], [apply] and [restore]; a method that takes [&mut self]
      is a state-and-error computation, so what a refused call leaves behind is part of it.
    - [ResumePolicy.v]: crates/resume-policy, headers as bytes and the decision on a response.
    - [Origin.v]: runtime/src/origin.rs, how many connections an origin may carry and when.
    - [Admission.v]: AddDownload of application/src/lib.rs as a program over the repository
      port, so that callers interleave between its calls.
    - [Persistence.v], [Transfer.v]: adapters/persistence.  Tables are finite maps with their
      CHECK constraints as decidable conditions, transactions are all or nothing, and a call
      may be lost before or after its commit.
    - [Files.v], [StorageFile.v]: adapters/storage over [std::fs].  Names point to inodes, every
      system call may fail with a part of its effect, and which calls fail is part of the state.
    - [Buffers.v], [Writer.v]: the memory budget and the writer lane of crates/runtime.
    - [Ports.v], [Coordinator.v]: runtime/src/coordinator.rs, one session of one job from its
      start to where it rests.  It calls the job machine, the writer lane over a part file, the
      repository of [Transfer.v] and the transport.  Its connections are tasks that advance one
      await at a time while the session waits.
    - [Scheduler.v]: runtime/src/scheduler.rs, the loop that starts sessions within the caps of
      the engine, of a job and of an origin.  It calls the coordinator through the class
      [Engine], which [SchedulerEngine.v] implements with the sessions of [Coordinator.v].
    - [Protocol.v], [Ipc.v]: crates/protocol and adapters/ipc, the wire contract and how one
      client is served on it.

    The first engine.

    - [LifeCycle.v]: crates/download-core, its ranges and its state machine.
    - [TransferStore.v]: crates/transfer-store, the directory of one download with its payload,
      its one-row database and its output.
    - [Options.v], [Requests.v]: what a download is asked (lib.rs, manager.rs and
      request_policy.rs of download-engine), and one request with its redirects.
    - [Downloads.v]: download_controlled of lib.rs with parallel.rs, unknown.rs, rate.rs and the
      space check of files.rs: one attempt, from taking the directory to the published output,
      on every branch.  [DownloadsThm.v] follows attempts that end anywhere and are begun again.
      It calls the directory of [TransferStore.v] and the requests of [Requests.v].
    - [QueueStore.v]: queue_store.rs, the bytes of the saved queue in every version, and the row.
    - [Manager.v], [ManagerCalls.v]: manager.rs, the actor that owns the queue and the calls that
      reach it.  A turn of the loop is one function of the actor and of what the outside decides
      in it; rows, answers and commands go to a trace, so that a crash is a point of the trace.
      [ManagerInv.v] to [ManagerCommands.v] show that the books (jobs, order, receipts, workers)
      are kept, [ManagerRows.v] what a row opens as, [ManagerTrace.v] that the row holds what was
      granted, [ManagerGrowth.v] where calls stand, and [ManagerRuns.v] and [ManagerThm.v] put the
      lives of the actor together.

    ** How the models read

    Integers are [Z] at the width the source gives them: [checked_add] and the saturating
    operations of [Prelude] are written out, and theorems say [u64 x] where a value must fit.
    Bytes are [Z]; strings are lists of bytes or of code points, as each file says.  A [HashMap]
    or a table is a [gmap], a [Vec] a list.  [?] is the bind of [result] or of [st].  What the
    outside decides - which calls fail, what the network brings, when the clock moves, where
    the program dies - is a script the definitions consume, and theorems hold for every script.
    SHA-256 and JSON are parameters; a theorem that needs more of them than that they are
    functions says so.

    Components meet through interfaces where the source has them: [JobRepository] and its laws
    in [Admission.v], [TransferRepository] in [Ports.v], both implemented by the SQLite files;
    [Engine] and [EngineLaws] of [Scheduler.v], discharged by the coordinator; [Codec] and
    [CodecLaws] of [Protocol.v].  The url crate and the data protection of the system are
    parameters with documented laws, on http and https links: [UrlLaws] of [OptionsThm.v], [UrlNormal] of
    [ManagerCommands.v], [SecretsLaws] of [QueueStoreThm.v].

    ** What the theorems show

    - Nothing durable is lost: [CoordinatorThm.session_survives] (wherever a session crashes, the
      database loads as a job that can go on with every durable byte),
      [TransferStoreMain.crash_loses_no_checkpoint], [PersistenceThm], and for the queue
      [accepted_downloads_survive_crashes] and [one_download_per_key].
    - What is published is what was downloaded: [published_is_what_was_planned],
      [publish_exposes_only_verified_bytes], [published_output_is_the_download],
      [publishing_spares_every_file].
    - State machines keep their invariants over every reachable state: the segment map is a
      partition, the job machine, the part file, the governor, the database, the scheduler's
      books; [commands_follow_the_lifecycle] and [decided_event_commits] are refinements.
    - A download of the first engine is one representation, over any history of interrupted
      attempts: [output_is_one_representation] (strong tags and an honest server are hypotheses),
      and no byte reported to the caller is taken back: [reported_bytes_stay].
    - Progress: [session_always_ends], [nobody_waits_in_vain], [no_startable_job_waits].
    - Round trips: [persisted_job_restores], [messages_arrive], [saved_queue_is_read_back];
      [decoded_queue_is_well_formed] types whatever a row may decode as.
    - Secrets: [credentials_stay_home], over all redirects of a request.
    - Callers agree and are answered: [concurrent_adds_agree], [every_job_comes_back_once],
      [frames_are_answered_in_order], [ask_gets_the_handlers_answer],
      [every_call_is_answered_once].
    - Bounds: connections, workers, clients and the time of a silent peer;
      [next_eligible_is_the_best] says whom the queue starts first.
    - Where the code does not do what it means to, a lemma exhibits it:
      [a_due_retry_can_be_missed], [a_second_admission_leaks_the_grant],
      [a_second_admission_exceeds_the_cap], [failed_second_publish_unseals_published_bytes],
      [torn_answers_follow_each_other], [grown_origin_is_lost], [long_refresh_is_lost].  Theorems
      that need such a case excluded say so: no command admits a job that is still here
      ([at_select], with no job admitted again), refreshed links and redirect origins stay within
      the limit in their normal form ([Sound], [Fits]).

    ** Fuel

    Loops over a buffer or a list of tasks take fuel that their callers compute from what is
    left to do.  A read loop over [n] bytes gets [n + 1] turns, each of which takes a byte or
    stops; draining frames gets one turn per byte held; a session gets the length of its control
    queue and of its script, to which joining adds its tasks.  The theorems that loops return
    ([session_always_ends], the [_Ok] and [_quiet] lemmas of the hashing loops,
    [frames_are_reassembled]) show that this is enough: no result depends on fuel running out.

    ** What is not modelled, and why

    - Power failure: a file holds what was written to it.  Synchronising is a call that may
      fail, and the order of synchronising, recording and acknowledging is kept, but the loss of
      unsynchronised pages is not represented.
    - Other processes touch files only where a step says so ([StorageThm.step_other], [Appears]
      of the session's script, [appeared] of [TransferStoreMain.Reached]).  Reads fill their
      buffer unless the file ends.
    - The writer lane serves commands in the order they were accepted; that its thread is a
      thread is not seen.  The scheduler and the sessions meet at whole turns.
    - Paths of the queue are those of Unix; the key of a directory (path_key of manager.rs) is
      an answer of the file system.  A worker of the queue is seen by what it reports.
    - The transport of the second engine (adapters/http) is glue around a client library; what
      it reports is a script.  The first engine's downloads are modelled over what the client
      library answers; their link, their answers and the moments of a cancellation are scripts,
      and a blocking worker that panics is left out.  Exporting a finished directory (files.rs),
      intake and the command line of download-engine, the platform crates and the service
      binaries are calls of the operating system.  Configuration and telemetry carry no state
      of the engine.  Test kits and tools are not part of it. *)

From stdpp Require Export base numbers list list_numbers option decidable sets gmap sorting.
From Stdlib Require Export ZArith Lia.
#[export] Set Default Goal Selector "!".
#[global] Open Scope Z_scope.

(** ** Machine integers

    A Rust [u64], [u32], [u8], [i64] or [usize] is a [Z]; the operations of
    [core::num] the code calls are written out below, and every theorem that
    needs a value to fit says so with [u64] and friends.  [usize] is 64 bits
    wide, as on every target the repository builds for. *)
Definition u8_max : Z := 255.
Definition u32_max : Z := 4294967295.
Definition u64_max : Z := 18446744073709551615.
Definition i64_max : Z := 9223372036854775807.
Definition usize_max : Z := u64_max.

Definition u64 (x : Z) : Prop := 0 ≤ x ≤ u64_max.
Definition u8 (x : Z) : Prop := 0 ≤ x ≤ u8_max.

(** [u64::checked_add] and [u64::checked_mul]. *)
Definition checked_add (a b : Z) : option Z :=
  if decide (a + b ≤ u64_max) then Some (a + b) else None.
Definition checked_mul (a b : Z) : option Z :=
  if decide (a * b ≤ u64_max) then Some (a * b) else None.
Definition checked_sub (a b : Z) : option Z := if decide (b ≤ a) then Some (a - b) else None.
(** [saturating_*] at a given maximum. *)
Definition saturating_add (max a b : Z) : Z := Z.min max (a + b).
Definition saturating_mul (max a b : Z) : Z := Z.min max (a * b).
Definition saturating_sub (a b : Z) : Z := Z.max 0 (a - b).
(** [u64::div_ceil]. *)
Definition div_ceil (a b : Z) : Z := (a + b - 1) / b.

(** ** Results and the state-and-error monad

    [result E A] is Rust's [Result<A, E>].  A method taking [&mut self] is a
    [st S E A]: it gives back the final state on the error path as well, so
    "a refused call changed nothing" is a theorem and not a convention. *)
Inductive result (E A : Type) : Type :=
| Ok (a : A)
| Err (e : E).
Arguments Ok {E A} a.
Arguments Err {E A} e.

#[global] Instance result_eq_dec {E A} `{EqDecision E, EqDecision A} :
  EqDecision (result E A).
Proof. solve_decision. Defined.

#[global] Instance result_ret {E} : MRet (result E) := λ A a, Ok a.
#[global] Instance result_bind {E} : MBind (result E) := λ A B k m,
  match m with Ok a => k a | Err e => Err e end.
#[global] Instance result_fmap {E} : FMap (result E) := λ A B f m,
  match m with Ok a => Ok (f a) | Err e => Err e end.

(** [Option::ok_or], [Result::map_err], [Result::ok] and a guard clause. *)
Definition ok_or {E A} (o : option A) (e : E) : result E A :=
  match o with Some a => Ok a | None => Err e end.
Definition map_err {E F A} (f : E → F) (r : result E A) : result F A :=
  match r with Ok a => Ok a | Err e => Err (f e) end.
Definition ok {E A} (r : result E A) : option A :=
  match r with Ok a => Some a | Err _ => None end.
Definition is_ok {E A} (r : result E A) : bool :=
  match r with Ok _ => true | Err _ => false end.
(** [Option::is_some_and]. *)
Definition is_some_and {A} (f : A → bool) (o : option A) : bool :=
  match o with Some a => f a | None => false end.
(** [if bad { return Err(e) }]. *)
Definition refuse_if {E} (bad : bool) (e : E) : result E unit :=
  if bad then Err e else Ok tt.

Definition st (S E A : Type) : Type := S → result E A * S.
#[global] Instance st_ret {S E} : MRet (st S E) := λ A a s, (Ok a, s).
#[global] Instance st_bind {S E} : MBind (st S E) := λ A B k m s,
  match m s with
  | (Ok a, s') => k a s'
  | (Err e, s') => (Err e, s')
  end.
(** The [?] operator on a pure result inside a method. *)
Definition lift {S E A} (r : result E A) : st S E A := λ s, (r, s).
Definition gets {S E A} (f : S → A) : st S E A := λ s, (Ok (f s), s).
Definition modify {S E} (f : S → S) : st S E unit := λ s, (Ok tt, f s).
Definition throw {S E A} (e : E) : st S E A := λ s, (Err e, s).
(** Runs a method on a part of the state, as [self.part.method()] does. *)
Definition zoom {S T E A} (get : S → T) (put : T → S → S) (m : st T E A) : st S E A :=
  λ s, let '(r, t) := m (get s) in (r, put t s).

(** [transpose] of an optional fallible computation. *)
Definition transpose {E A} (o : option (result E A)) : result E (option A) :=
  match o with
  | None => Ok None
  | Some (Ok a) => Ok (Some a)
  | Some (Err e) => Err e
  end.

(** [iter().map(f).collect::<Result<Vec<_>, _>>()]. *)
Fixpoint collect {E A B} (f : A → result E B) (l : list A) : result E (list B) :=
  match l with
  | [] => Ok []
  | x :: l => y ← f x; ys ← collect f l; Ok (y :: ys)
  end.

(** ** Iterator methods *)

(** [Iterator::max_by_key]: the last of the greatest elements. *)
Definition max_by_key {A} (key : A → Z) (l : list A) : option A :=
  foldl (λ best x,
    match best with
    | None => Some x
    | Some b => if decide (key b ≤ key x) then Some x else Some b
    end) None l.
(** [Iterator::min] over integers. *)
Definition min_opt (l : list Z) : option Z :=
  foldl (λ best x, match best with None => Some x | Some b => Some (Z.min b x) end)
    None l.
(** [sort_by_key], a stable sort. *)
Fixpoint insert_by_key {A} (key : A → Z) (x : A) (l : list A) : list A :=
  match l with
  | [] => [x]
  | y :: l' => if decide (key x < key y) then x :: l else y :: insert_by_key key x l'
  end.
Definition sort_by_key {A} (key : A → Z) (l : list A) : list A :=
  foldl (λ acc x, insert_by_key key x acc) [] l.
Definition sum_Z (l : list Z) : Z := foldr Z.add 0 l.
#[global] Arguments sum_Z : simpl never.
(** [Vec::insert]. *)
Definition vec_insert {A} (i : nat) (x : A) (l : list A) : list A :=
  take i l ++ x :: drop i l.
#[global] Arguments vec_insert : simpl never.

(** ** Automation *)

(** Opens a monadic computation: every bind becomes the match it stands for. *)
Ltac unfold_monad :=
  unfold mbind, mret, fmap, result_bind, result_ret, result_fmap, st_bind, st_ret,
    lift, gets, modify, throw, refuse_if, ok_or, map_err, zoom in *;
  cbn beta iota in *.

(** Splits every [match] and [decide] of the goal and the hypotheses. *)
Ltac split_cases :=
  repeat first
    [ progress simplify_eq/=
    | case_match
    | case_decide ].

(** Hypotheses on booleans become propositions; double negations go away. *)
Ltac open_bools :=
  repeat match goal with
  | H : bool_decide _ = false |- _ => apply bool_decide_eq_false in H
  | H : bool_decide _ = true |- _ => apply bool_decide_eq_true in H
  | H : _ || _ = false |- _ => apply orb_false_elim in H as [? ?]
  | H : _ && _ = true |- _ => apply andb_true_iff in H as [? ?]
  | H : negb _ = true |- _ => apply negb_true_iff in H
  | H : negb _ = false |- _ => apply negb_false_iff in H
  | H : ¬ (_ ≠ _) |- _ => apply dec_stable in H
  | H : ¬ is_Some _ |- _ => apply eq_None_not_Some in H
  | H : ¬ (_ ∨ _) |- _ => apply Decidable.not_or in H as [? ?]
  end.

(** Inverts a run of a monadic method: one goal per path through its guards. *)
Ltac open_run :=
  unfold_monad; try simplify_eq; repeat (case_match; simplify_eq); open_bools;
  cbn [fst snd] in *.

(** Integer side conditions with the bounds unfolded. *)
Ltac ints :=
  unfold u64, u8, usize_max, u64_max, i64_max, u32_max, u8_max,
    saturating_add, saturating_mul, saturating_sub in *; lia.

Create HintDb fhd discriminated.
Create Rewrite HintDb fhd.

(** ** Shared lemmas *)

Lemma checked_add_Some a b c :
  checked_add a b = Some c ↔ c = a + b ∧ a + b ≤ u64_max.
Proof.
  unfold checked_add. case_decide; split.
  - by intros [= <-].
  - by intros [-> _].
  - done.
  - lia.
Qed.

Lemma checked_add_None a b : checked_add a b = None ↔ u64_max < a + b.
Proof.
  unfold checked_add. case_decide; split; try done.
  - intros; exfalso; lia.
  - intros _; lia.
Qed.

(** A run that succeeds, taken apart. *)
Lemma bind_Ok {S E A B} (m : st S E A) (k : A → st S E B) σ b σ'' :
  mbind k m σ = (Ok b, σ'') → ∃ a σ', m σ = (Ok a, σ') ∧ k a σ' = (Ok b, σ'').
Proof. unfold mbind, st_bind. destruct (m σ) as [[a|e] σ'] eqn:Hm; [|done]. eauto. Qed.
Lemma lift_Ok {S E A} (x : result E A) (σ : S) a σ' : lift x σ = (Ok a, σ') → x = Ok a ∧ σ' = σ.
Proof. unfold lift. by intros [= -> ->]. Qed.
Lemma refuse_false {S E} b (e : E) (σ : S) a σ' : lift (refuse_if b e) σ = (Ok a, σ') → b = false ∧ σ' = σ.
Proof. intros [Hb ->]%lift_Ok. by destruct b. Qed.

Lemma ok_or_Ok {E A} (o : option A) (e : E) a : ok_or o e = Ok a ↔ o = Some a.
Proof. destruct o; naive_solver. Qed.

Lemma collect_Ok {E A B} (f : A → result E B) l ys :
  collect f l = Ok ys ↔ Forall2 (λ x y, f x = Ok y) l ys.
Proof.
  revert ys. induction l as [|x l IH]; intros ys; cbn.
  - split; [intros [= <-]; constructor|by inversion 1].
  - unfold mbind, result_bind, mret, result_ret. split.
    + destruct (f x) eqn:Hx; [|done]. destruct (collect f l) eqn:Hl; [|done].
      intros [= <-]. constructor; [done|]. by apply IH.
    + inversion 1 as [|? y ? ys' Hx Hl]; subst. rewrite Hx.
      apply IH in Hl. by rewrite Hl.
Qed.

Lemma sum_Z_app l k : sum_Z (l ++ k) = sum_Z l + sum_Z k.
Proof. unfold sum_Z. induction l as [|x l IH]; cbn in *; [done|]. rewrite IH; lia. Qed.

Lemma sum_Z_nil : sum_Z [] = 0.
Proof. done. Qed.
Lemma sum_Z_cons x l : sum_Z (x :: l) = x + sum_Z l.
Proof. done. Qed.

#[export] Hint Rewrite sum_Z_nil sum_Z_cons sum_Z_app : fhd.

Lemma sum_Z_nonneg l : Forall (λ x, 0 ≤ x) l → 0 ≤ sum_Z l.
Proof. unfold sum_Z. induction 1; cbn in *; lia. Qed.

(** [max_by_key] returns an element of the list, and none is greater. *)
Lemma max_by_key_spec {A} (key : A → Z) l :
  match max_by_key key l with
  | None => l = []
  | Some b => b ∈ l ∧ Forall (λ x, key x ≤ key b) l
  end.
Proof.
  unfold max_by_key. induction l as [|x l IH] using rev_ind; [done|].
  rewrite foldl_app; cbn. destruct (foldl _ None l) as [b|]; cbn in *.
  - destruct IH as [Hb Hl]. case_decide as Hk.
    + split; [set_solver|]. apply Forall_app; split; [|by repeat constructor].
      apply (Forall_impl _ _ _ Hl); intros; lia.
    + split; [set_solver|]. apply Forall_app; split; [done|].
      repeat constructor; lia.
  - subst l. split; [set_solver|]. by repeat constructor.
Qed.

Lemma NoDup_fmap_filter {A B} (f : A → B) (P : A → Prop) `{∀ x, Decision (P x)} l :
  NoDup (f <$> l) → NoDup (f <$> filter P l).
Proof.
  induction l as [|x l IH]; [done|]. rewrite fmap_cons, filter_cons. intros [Hx Hl]%NoDup_cons.
  case_decide; cbn; [|by apply IH].
  apply NoDup_cons. split; [|by apply IH].
  intros (y & Hy & [_ ?]%list_elem_of_filter)%list_elem_of_fmap.
  apply Hx, list_elem_of_fmap. eauto.
Qed.

Lemma alter_as_insert {A} (f : A → A) i (l : list A) x :
  l !! i = Some x → alter f i l = <[i := f x]> l.
Proof.
  intros Hi. apply list_eq. intros j. destruct (decide (i = j)) as [->|Hne].
  - rewrite list_lookup_alter_eq, Hi, list_lookup_insert_eq; [done|].
    by eapply lookup_lt_Some.
  - by rewrite list_lookup_alter_ne, list_lookup_insert_ne.
Qed.

Lemma insert_by_key_perm {A} (key : A → Z) x l : insert_by_key key x l ≡ₚ x :: l.
Proof.
  induction l as [|y l IH]; cbn; [done|]. case_decide; [done|]. rewrite IH. by constructor.
Qed.

Lemma sort_by_key_perm {A} (key : A → Z) l : sort_by_key key l ≡ₚ l.
Proof.
  unfold sort_by_key. assert (∀ acc, foldl (λ acc x, insert_by_key key x acc) acc l ≡ₚ acc ++ l) as Hf.
  { induction l as [|x l IH]; intros acc; cbn; [by rewrite app_nil_r|].
    rewrite IH, insert_by_key_perm. by rewrite <-Permutation_middle. }
  apply Hf.
Qed.

(** A stable sort is sorted, by the key. *)
Definition key_le {A} (key : A → Z) (x y : A) : Prop := key x ≤ key y.

Lemma insert_by_key_sorted {A} (key : A → Z) x l :
  StronglySorted (key_le key) l → StronglySorted (key_le key) (insert_by_key key x l).
Proof.
  unfold key_le. induction 1 as [|y l Hs IH Hy]; cbn; [by repeat constructor|]. case_decide.
  - constructor; [by constructor|]. constructor; [lia|].
    eapply Forall_impl; [exact Hy|]. cbn. lia.
  - constructor; [done|]. rewrite insert_by_key_perm. constructor; [lia|done].
Qed.

Lemma sort_by_key_sorted {A} (key : A → Z) l : StronglySorted (key_le key) (sort_by_key key l).
Proof.
  unfold sort_by_key. assert (∀ acc, StronglySorted (key_le key) acc →
    StronglySorted (key_le key) (foldl (λ acc x, insert_by_key key x acc) acc l)) as Hf.
  { induction l as [|x l IH]; intros acc Ha; cbn; [done|]. by apply IH, insert_by_key_sorted. }
  apply Hf. constructor.
Qed.

Lemma existsb_false {A} (f : A → bool) l : existsb f l = false ↔ ∀ x, x ∈ l → f x = false.
Proof.
  induction l as [|x l IH]; cbn; [set_solver|]. rewrite orb_false_iff, IH.
  split; [intros [? ?] y [->|?]%elem_of_cons; auto|]. intros Hall. split; [|intros]; apply Hall; set_solver.
Qed.
