(* ===== verification/Domain.v ===== *)
(** * The value types of the domain crate

    [src/crates/domain/src/lib.rs]: the error type, the four non-zero
    identifiers the macro [identifier!] makes, half-open byte ranges and the
    immutable part of a job. *)

From S2P Require Import Prelude.

Inductive DomainError : Type :=
| InvalidInput
| Overflow
| Capacity
| UnknownSegment
| InvalidTransition
| StaleToken
| CheckpointPending
| Incomplete
| StaleEvent
| PublishInProgress.

#[global] Instance DomainError_eq_dec : EqDecision DomainError.
Proof. solve_decision. Defined.

(** [identifier!]: a [u64] that is not zero. *)
Definition identifier_new {T} (wrap : Z → T) (value : Z) : result DomainError T :=
  if decide (value = 0) then Err InvalidInput else Ok (wrap value).

Module JobId.
Record t : Type := Make { get : Z }.
#[global] Instance t_eq_dec : EqDecision t.
Proof. solve_decision. Defined.
Definition new (value : Z) : result DomainError t := identifier_new Make value.
End JobId.

Module SourceRef.
Record t : Type := Make { get : Z }.
#[global] Instance t_eq_dec : EqDecision t.
Proof. solve_decision. Defined.
Definition new (value : Z) : result DomainError t := identifier_new Make value.
End SourceRef.

Module DestinationRef.
Record t : Type := Make { get : Z }.
#[global] Instance t_eq_dec : EqDecision t.
Proof. solve_decision. Defined.
Definition new (value : Z) : result DomainError t := identifier_new Make value.
End DestinationRef.

Module Generation.
Record t : Type := Make { get : Z }.
#[global] Instance t_eq_dec : EqDecision t.
Proof. solve_decision. Defined.
Definition new (value : Z) : result DomainError t := identifier_new Make value.
Definition initial : t := Make 1.
Definition next (g : t) : result DomainError t :=
  v ← ok_or (checked_add (get g) 1) Overflow; Ok (Make v).

(** A value [new] or [next] can have made. *)
Definition wf (g : t) : Prop := 1 ≤ get g ≤ u64_max.

Lemma initial_wf : wf initial.
Proof. unfold wf; cbn; ints. Qed.

Lemma next_Ok g g' : wf g → next g = Ok g' → wf g' ∧ get g' = get g + 1.
Proof.
  unfold next, wf. intros Hg. unfold_monad.
  destruct (checked_add _ _) eqn:He; [|done]. apply checked_add_Some in He.
  intros [= <-]; cbn. lia.
Qed.
End Generation.

Module ByteRange.
Record t : Type := Make { start : Z; end_ : Z }.
#[global] Instance t_eq_dec : EqDecision t.
Proof. solve_decision. Defined.
Definition new (start end_ : Z) : result DomainError t :=
  if decide (end_ ≤ start ∨ i64_max < end_) then Err InvalidInput
  else Ok (Make start end_).
Definition len (r : t) : Z := end_ r - start r.
Definition is_empty (_ : t) : bool := false.
Definition contains (r other : t) : bool :=
  bool_decide (start r ≤ start other ∧ end_ other ≤ end_ r).
Definition split (r : t) (at_ : Z) : result DomainError (t * t) :=
  left ← new (start r) at_;
  right ← new at_ (end_ r);
  Ok (left, right).

(** What [new] guarantees of every range in the program. *)
Definition wf (r : t) : Prop := 0 ≤ start r ∧ start r < end_ r ∧ end_ r ≤ i64_max.
(** The bytes a range stands for. *)
Definition covers (r : t) (b : Z) : Prop := start r ≤ b < end_ r.

#[global] Instance covers_dec r b : Decision (covers r b).
Proof. unfold covers; apply _. Defined.

Lemma new_Ok s e r : new s e = Ok r ↔ s < e ∧ e ≤ i64_max ∧ r = Make s e.
Proof.
  unfold new. case_decide; split.
  - done.
  - intros (? & ? & _); exfalso; lia.
  - intros [= <-]; split_and!; [lia|lia|done].
  - by intros (_ & _ & ->).
Qed.

Lemma new_eq s e : s < e → e ≤ i64_max → new s e = Ok (Make s e).
Proof. intros. by apply new_Ok. Qed.

Lemma split_Ok r at_ l r' :
  split r at_ = Ok (l, r') ↔
  start r < at_ ∧ at_ < end_ r ∧ end_ r ≤ i64_max ∧
  l = Make (start r) at_ ∧ r' = Make at_ (end_ r).
Proof.
  unfold split, mbind, result_bind. split.
  - destruct (new (start r) at_) eqn:H1; [|done]. destruct (new at_ _) eqn:H2; [|done].
    intros [= <- <-]. apply new_Ok in H1 as (? & ? & ->), H2 as (? & ? & ->). done.
  - intros (? & ? & ? & -> & ->). by rewrite !new_eq by lia.
Qed.

Lemma wf_len r : wf r → 0 < len r ≤ i64_max.
Proof. unfold wf, len. lia. Qed.
End ByteRange.

(** A byte of one of the ranges. *)
Definition covered (rs : list ByteRange.t) (b : Z) : Prop :=
  ∃ r, r ∈ rs ∧ ByteRange.covers r b.

Lemma covered_nil b : covered [] b ↔ False.
Proof. split; [|done]. intros (?&?%elem_of_nil&_). done. Qed.

Lemma covered_cons r rs b : covered (r :: rs) b ↔ ByteRange.covers r b ∨ covered rs b.
Proof.
  unfold covered. split.
  - intros (r'&[->|?]%elem_of_cons&?); eauto.
  - intros [?|(r'&?&?)]; eexists; (split; [|done]); set_solver.
Qed.

Lemma covered_app xs ys b : covered (xs ++ ys) b ↔ covered xs b ∨ covered ys b.
Proof. unfold covered. set_solver. Qed.

#[export] Hint Rewrite covered_nil covered_cons covered_app : fhd.

Inductive Priority : Type := Low | Normal | High.

#[global] Instance Priority_eq_dec : EqDecision Priority.
Proof. solve_decision. Defined.

(** A [[u8; 32]]: a SHA-256 digest, by its bytes. *)
Definition digest32 : Type := list Z.

#[global] Instance digest32_eq_dec : EqDecision digest32.
Proof. unfold digest32; apply _. Defined.

Module JobSpec.
Record t : Type := Make {
  source : SourceRef.t;
  destination : DestinationRef.t;
  expected_sha256 : option digest32;
  priority : Priority;
  max_bytes : Z }.
#[global] Instance t_eq_dec : EqDecision t.
Proof. solve_decision. Defined.
Definition new (source : SourceRef.t) (destination : DestinationRef.t)
    (expected_sha256 : option digest32) (priority : Priority) (max_bytes : Z) :
    result DomainError t :=
  if decide (max_bytes = 0 ∨ i64_max < max_bytes) then Err InvalidInput
  else Ok (Make source destination expected_sha256 priority max_bytes).
Definition wf (s : t) : Prop := 1 ≤ max_bytes s ≤ i64_max.
(** Every field in the range of its type and its constructor. *)
Definition typed (s : t) : Prop :=
  wf s ∧ 1 ≤ SourceRef.get (source s) ≤ u64_max ∧ 1 ≤ DestinationRef.get (destination s) ≤ u64_max ∧
  match expected_sha256 s with None => True | Some e => length e = 32%nat end.
End JobSpec.
