(* ===== verification/Segments.v ===== *)
(** * The segment map: which bytes are wanted, leased, written and durable

    [src/crates/domain/src/segments.rs].  [SegmentMap] partitions the bytes
    [0, total) of one generation of a job; workers lease pending segments, the
    coordinator turns written segments into durable ones through a checkpoint
    (prepare, sync, commit).  Every method is a [st] computation, so what a
    refused call leaves behind is part of its meaning. *)

From S2P Require Import Prelude Domain.

Module SegmentId.
Record t : Type := Make { get : Z }.
#[global] Instance t_eq_dec : EqDecision t.
Proof. solve_decision. Defined.
End SegmentId.

Inductive SegmentState : Type :=
| Pending
| InFlight (worker attempt : Z)
| Written (attempt : Z)
| Durable.

#[global] Instance SegmentState_eq_dec : EqDecision SegmentState.
Proof. solve_decision. Defined.

Definition is_written (s : SegmentState) : bool :=
  match s with Written _ => true | _ => false end.
Definition is_in_flight (s : SegmentState) : bool :=
  match s with InFlight _ _ => true | _ => false end.

Module Segment.
Record t : Type := Make { id : SegmentId.t; range : ByteRange.t; state : SegmentState }.
#[global] Instance t_eq_dec : EqDecision t.
Proof. solve_decision. Defined.
Definition set_state (st : SegmentState) (s : t) : t := Make (id s) (range s) st.
Definition set_range (r : ByteRange.t) (s : t) : t := Make (id s) r (state s).
End Segment.

Module Lease.
Record t : Type := Make {
  job : JobId.t;
  generation : Generation.t;
  segment : SegmentId.t;
  attempt : Z;
  worker : Z;
  range : ByteRange.t }.
#[global] Instance t_eq_dec : EqDecision t.
Proof. solve_decision. Defined.
End Lease.

(** One selected segment: its id, its range and the attempt that wrote it. *)
Definition Selection : Type := list (SegmentId.t * ByteRange.t * Z).

Module Checkpoint.
Record t : Type := Make {
  sequence : Z;
  ids : list SegmentId.t;
  selection : list (SegmentId.t * ByteRange.t * Z);
  synced : bool }.
End Checkpoint.

Module SyncTicket.
Record t : Type := Make {
  job : JobId.t;
  generation : Generation.t;
  sequence : Z;
  ranges : list ByteRange.t;
  selection : list (SegmentId.t * ByteRange.t * Z) }.
End SyncTicket.

Module CommitBatch.
Record t : Type := Make {
  job : JobId.t;
  generation : Generation.t;
  sequence : Z;
  ranges : list ByteRange.t;
  selection : list (SegmentId.t * ByteRange.t * Z) }.
End CommitBatch.

Module SegmentMap.
Record t : Type := Make {
  job : JobId.t;
  generation : Generation.t;
  total : Z;
  maximum : Z;
  segments : list Segment.t;
  next_id : Z;
  next_attempt : Z;
  next_checkpoint : Z;
  checkpoint : option Checkpoint.t }.

(** Assignments to single fields. *)
Definition set_segments (segs : list Segment.t) (m : t) : t :=
  Make (job m) (generation m) (total m) (maximum m) segs (next_id m)
    (next_attempt m) (next_checkpoint m) (checkpoint m).
Definition set_next_id (v : Z) (m : t) : t :=
  Make (job m) (generation m) (total m) (maximum m) (segments m) v
    (next_attempt m) (next_checkpoint m) (checkpoint m).
Definition set_next_attempt (v : Z) (m : t) : t :=
  Make (job m) (generation m) (total m) (maximum m) (segments m) (next_id m)
    v (next_checkpoint m) (checkpoint m).
Definition set_next_checkpoint (v : Z) (m : t) : t :=
  Make (job m) (generation m) (total m) (maximum m) (segments m) (next_id m)
    (next_attempt m) v (checkpoint m).
Definition set_checkpoint (c : option Checkpoint.t) (m : t) : t :=
  Make (job m) (generation m) (total m) (maximum m) (segments m) (next_id m)
    (next_attempt m) (next_checkpoint m) c.

Definition snapshot (m : t) : t :=
  Make (job m) (generation m) (total m) (maximum m) (segments m) (next_id m)
    (next_attempt m) (next_checkpoint m) (checkpoint m).

(** *** Queries *)
Definition has_pending_checkpoint (m : t) : bool := bool_decide (is_Some (checkpoint m)).
Definition has_unsynced (m : t) : bool :=
  existsb (λ s, is_written (Segment.state s)) (segments m).
Definition has_in_flight (m : t) : bool :=
  existsb (λ s, is_in_flight (Segment.state s)) (segments m).
Definition durable_bytes (m : t) : Z :=
  sum_Z (ByteRange.len ∘ Segment.range <$>
    filter (λ s, Segment.state s = Durable) (segments m)).
Definition all_durable (m : t) : bool :=
  forallb (λ s, bool_decide (Segment.state s = Durable)) (segments m).
Definition len (m : t) : Z := Z.of_nat (length (segments m)).

(** [self.index(id)?] together with the [self.segments[index]] it is used for. *)
Definition index (m : t) (id : SegmentId.t) : result DomainError (nat * Segment.t) :=
  ok_or (list_find (λ s, Segment.id s = id) (segments m)) UnknownSegment.

(** *** Construction *)
Definition new (job : JobId.t) (generation : Generation.t) (total maximum : Z) :
    result DomainError t :=
  _ ← refuse_if (bool_decide (i64_max < total ∨ maximum < 1 ∨ 262144 < maximum))
        InvalidInput;
  segments ← (if decide (total = 0) then Ok []
              else r ← ByteRange.new 0 total;
                   Ok [Segment.Make (SegmentId.Make 1) r Pending]);
  Ok (Make job generation total maximum segments 2 1 1 None).

(** The first loop of [restore]: touching ranges merge, overlapping or
    out-of-order ones are refused.  [merged] is the vector, last element first. *)
Fixpoint merge_durable (total : Z) (durable merged : list ByteRange.t) :
    result DomainError (list ByteRange.t) :=
  match durable with
  | [] => Ok (reverse merged)
  | range :: rest =>
      if decide (total < ByteRange.end_ range) then Err InvalidInput
      else match merged with
      | [] => merge_durable total rest [range]
      | last :: others =>
          if decide (ByteRange.start range < ByteRange.end_ last) then Err InvalidInput
          else if decide (ByteRange.start range = ByteRange.end_ last) then
            joined ← ByteRange.new (ByteRange.start last) (ByteRange.end_ range);
            merge_durable total rest (joined :: others)
          else merge_durable total rest (range :: merged)
      end
  end.

(** The [push] closure of [restore]: identifiers count the pushes. *)
Definition push (segs : list Segment.t) (range : ByteRange.t) (state : SegmentState) :
    list Segment.t :=
  segs ++ [Segment.Make (SegmentId.Make (Z.of_nat (length segs) + 1)) range state].

(** The second loop of [restore]: a pending segment for every gap. *)
Fixpoint fill_gaps (merged : list ByteRange.t) (cursor : Z) (segs : list Segment.t) :
    result DomainError (list Segment.t * Z) :=
  match merged with
  | [] => Ok (segs, cursor)
  | range :: rest =>
      segs ← (if decide (cursor < ByteRange.start range) then
                gap ← ByteRange.new cursor (ByteRange.start range);
                Ok (push segs gap Pending)
              else Ok segs);
      fill_gaps rest (ByteRange.end_ range) (push segs range Durable)
  end.

Definition restore (job : JobId.t) (generation : Generation.t) (total maximum : Z)
    (durable : list ByteRange.t) : result DomainError t :=
  m ← new job generation total maximum;
  merged ← merge_durable total durable [];
  filled ← fill_gaps merged 0 [];
  segs ← (if decide (filled.2 < total) then
            tail ← ByteRange.new filled.2 total;
            Ok (push filled.1 tail Pending)
          else Ok filled.1);
  _ ← refuse_if (bool_decide (maximum < Z.of_nat (length segs))) Capacity;
  Ok (set_segments segs (set_next_id (Z.of_nat (length segs) + 1) m)).

(** *** Splitting pending work *)
Definition split_pending (id : SegmentId.t) (at_ : Z) : st t DomainError SegmentId.t :=
  self ← gets (λ m, m);
  found ← lift (index self id);
  _ ← lift (refuse_if (bool_decide (Segment.state found.2 ≠ Pending)) InvalidTransition);
  _ ← lift (refuse_if (bool_decide (len self = maximum self)) Capacity);
  halves ← lift (ByteRange.split (Segment.range found.2) at_);
  next ← lift (ok_or (checked_add (next_id self) 1) Overflow);
  let right_id := SegmentId.Make (next_id self) in
  _ ← modify (λ m, set_segments
        (vec_insert (S found.1) (Segment.Make right_id halves.2 Pending)
          (<[found.1 := Segment.set_range halves.1 found.2]> (segments m))) m);
  _ ← modify (set_next_id next);
  mret right_id.

Definition steal_largest_pending (minimum : Z) : st t DomainError (option SegmentId.t) :=
  _ ← lift (refuse_if (bool_decide (minimum = 0)) InvalidInput);
  threshold ← lift (ok_or (checked_mul minimum 2) Overflow);
  self ← gets (λ m, m);
  let candidate := max_by_key (ByteRange.len ∘ Segment.range)
    (filter (λ s, Segment.state s = Pending ∧ threshold ≤ ByteRange.len (Segment.range s))
      (segments self)) in
  match candidate with
  | None => mret None
  | Some s =>
      let r := Segment.range s in
      new_id ← split_pending (Segment.id s) (ByteRange.start r + ByteRange.len r / 2);
      mret (Some new_id)
  end.

(** *** Leases *)
Definition lease (id : SegmentId.t) (worker : Z) : st t DomainError Lease.t :=
  _ ← lift (refuse_if (bool_decide (worker = 0)) InvalidInput);
  self ← gets (λ m, m);
  found ← lift (index self id);
  _ ← lift (refuse_if (bool_decide (Segment.state found.2 ≠ Pending)) InvalidTransition);
  next ← lift (ok_or (checked_add (next_attempt self) 1) Overflow);
  let attempt := next_attempt self in
  _ ← modify (set_next_attempt next);
  _ ← modify (λ m, set_segments
        (<[found.1 := Segment.set_state (InFlight worker attempt) found.2]> (segments m)) m);
  mret (Lease.Make (job self) (generation self) id attempt worker (Segment.range found.2)).

Definition lease_index (m : t) (l : Lease.t) : result DomainError (nat * Segment.t) :=
  _ ← refuse_if (bool_decide (Lease.job l ≠ job m ∨ Lease.generation l ≠ generation m))
        StaleToken;
  found ← map_err (λ _, StaleToken) (index m (Lease.segment l));
  _ ← refuse_if (bool_decide (Segment.range found.2 ≠ Lease.range l ∨
        Segment.state found.2 ≠ InFlight (Lease.worker l) (Lease.attempt l))) StaleToken;
  Ok found.

Definition mark_written (l : Lease.t) : st t DomainError unit :=
  self ← gets (λ m, m);
  found ← lift (lease_index self l);
  modify (λ m, set_segments
    (<[found.1 := Segment.set_state (Written (Lease.attempt l)) found.2]> (segments m)) m).

Definition release (l : Lease.t) : st t DomainError unit :=
  self ← gets (λ m, m);
  found ← lift (lease_index self l);
  modify (λ m, set_segments
    (<[found.1 := Segment.set_state Pending found.2]> (segments m)) m).

Definition discard_unsynced : st t DomainError unit :=
  self ← gets (λ m, m);
  _ ← lift (refuse_if (bool_decide (is_Some (checkpoint self))) CheckpointPending);
  modify (λ m, set_segments
    ((λ s, if is_written (Segment.state s) then Segment.set_state Pending s else s)
       <$> segments m) m).

(** *** Checkpoints *)
Definition written_attempt (s : SegmentState) : Z :=
  match s with Written a => a | _ => 0 end.

Definition prepare_sync : st t DomainError SyncTicket.t :=
  self ← gets (λ m, m);
  _ ← lift (refuse_if (bool_decide (is_Some (checkpoint self))) CheckpointPending);
  let selected := filter (λ s, is_written (Segment.state s) = true) (segments self) in
  _ ← lift (refuse_if (bool_decide (selected = [])) Incomplete);
  let selection := (λ s, (Segment.id s, Segment.range s, written_attempt (Segment.state s)))
                     <$> selected in
  let ids := Segment.id <$> selected in
  let ranges := Segment.range <$> selected in
  let sequence := next_checkpoint self in
  next ← lift (ok_or (checked_add (next_checkpoint self) 1) Overflow);
  _ ← modify (set_next_checkpoint next);
  _ ← modify (set_checkpoint (Some (Checkpoint.Make sequence ids selection false)));
  mret (SyncTicket.Make (job self) (generation self) sequence ranges selection).

Definition acknowledge_sync (ticket : SyncTicket.t) : st t DomainError CommitBatch.t :=
  self ← gets (λ m, m);
  c ← lift (ok_or (checkpoint self) StaleToken);
  _ ← lift (refuse_if (bool_decide (SyncTicket.job ticket ≠ job self
        ∨ SyncTicket.generation ticket ≠ generation self
        ∨ Checkpoint.sequence c ≠ SyncTicket.sequence ticket
        ∨ Checkpoint.selection c ≠ SyncTicket.selection ticket
        ∨ Checkpoint.synced c = true)) StaleToken);
  _ ← modify (set_checkpoint (Some (Checkpoint.Make (Checkpoint.sequence c)
        (Checkpoint.ids c) (Checkpoint.selection c) true)));
  mret (CommitBatch.Make (SyncTicket.job ticket) (SyncTicket.generation ticket)
    (SyncTicket.sequence ticket) (SyncTicket.ranges ticket) (SyncTicket.selection ticket)).

(** The assignments [self.segments[index].state = Durable]. *)
Definition make_durable (segs : list Segment.t) (indices : list (nat * Segment.t)) :
    list Segment.t :=
  foldl (λ segs found, alter (Segment.set_state Durable) found.1 segs) segs indices.

Definition acknowledge_commit (batch : CommitBatch.t) : st t DomainError unit :=
  self ← gets (λ m, m);
  c ← lift (ok_or (checkpoint self) StaleToken);
  _ ← lift (refuse_if (bool_decide (CommitBatch.job batch ≠ job self
        ∨ CommitBatch.generation batch ≠ generation self
        ∨ Checkpoint.sequence c ≠ CommitBatch.sequence batch
        ∨ Checkpoint.selection c ≠ CommitBatch.selection batch
        ∨ Checkpoint.synced c = false)) StaleToken);
  indices ← lift (collect (index self) (Checkpoint.ids c));
  _ ← lift (refuse_if
        (existsb (λ found, negb (is_written (Segment.state found.2))) indices)
        InvalidTransition);
  _ ← modify (λ m, set_segments (make_durable (segments m) indices) m);
  modify (set_checkpoint None).

Definition discard_checkpoint : st t DomainError unit := modify (set_checkpoint None).

Definition replace_generation (total : Z) : st t DomainError unit :=
  self ← gets (λ m, m);
  _ ← lift (refuse_if (has_pending_checkpoint self || has_in_flight self) InvalidTransition);
  next ← lift (Generation.next (generation self));
  fresh ← lift (new (job self) next total (maximum self));
  modify (λ _, fresh).
End SegmentMap.
