(* ===== verification/SegmentsInv.v ===== *)
(** * The invariant of the segment map

    The well-formedness invariant of [SegmentMap], the state machine its methods
    make, and the proof that every state of that machine is well formed. *)

From S2P Require Import Prelude Domain Segments.

(** ** Partitions of an interval *)

(** The ranges lie end to end and cover [a, b) exactly. *)
Fixpoint tiles (a b : Z) (rs : list ByteRange.t) : Prop :=
  match rs with
  | [] => a = b
  | r :: rs => ByteRange.start r = a ∧ a < ByteRange.end_ r ∧ tiles (ByteRange.end_ r) b rs
  end.

Lemma tiles_app a b rs1 rs2 :
  tiles a b (rs1 ++ rs2) ↔ ∃ c, tiles a c rs1 ∧ tiles c b rs2.
Proof.
  revert a. induction rs1 as [|r rs IH]; intros a; cbn.
  - naive_solver.
  - rewrite IH. naive_solver.
Qed.

Lemma tiles_le a b rs : tiles a b rs → a ≤ b.
Proof.
  revert a. induction rs as [|r rs IH]; intros a; cbn; [lia|].
  intros (_ & ? & ?%IH). lia.
Qed.

Lemma tiles_range a b rs r :
  tiles a b rs → r ∈ rs → a ≤ ByteRange.start r ∧ ByteRange.start r < ByteRange.end_ r
    ∧ ByteRange.end_ r ≤ b.
Proof.
  intros Ht [i Hi]%list_elem_of_lookup.
  rewrite <-(take_drop_middle _ _ _ Hi) in Ht.
  apply tiles_app in Ht as (c & Hc & ? & ? & ?). subst c.
  apply tiles_le in Hc. pose proof (tiles_le _ _ _ H1). lia.
Qed.

Lemma tiles_sum a b rs : tiles a b rs → sum_Z (ByteRange.len <$> rs) = b - a.
Proof.
  revert a. induction rs as [|r rs IH]; intros a; cbn; autorewrite with fhd; [lia|].
  intros (<- & ? & Hs%IH). rewrite Hs. unfold ByteRange.len. lia.
Qed.

(** Every byte is in exactly one range. *)
Lemma tiles_cover a b rs x : tiles a b rs → a ≤ x < b → ∃ r, r ∈ rs ∧ ByteRange.covers r x.
Proof.
  revert a. induction rs as [|r rs IH]; intros a; cbn; [lia|].
  intros (? & ? & Ht) Hx. destruct (decide (x < ByteRange.end_ r)).
  - exists r. split; [set_solver|]. unfold ByteRange.covers; lia.
  - destruct (IH _ Ht) as (r' & ? & ?); [lia|]. exists r'. set_solver.
Qed.

Lemma tiles_disjoint a b rs i j r r' x :
  tiles a b rs → rs !! i = Some r → rs !! j = Some r' →
  ByteRange.covers r x → ByteRange.covers r' x → i = j.
Proof.
  revert a i j. induction rs as [|r0 rs IH]; intros a i j; cbn; [done|].
  intros (H1 & H2 & Ht) Hi Hj. unfold ByteRange.covers in *.
  assert (Hin : ∀ k q, rs !! k = Some q → ByteRange.end_ r0 ≤ ByteRange.start q).
  { intros k q Hk%list_elem_of_lookup_2. by apply (tiles_range _ _ _ _ Ht) in Hk as []. }
  destruct i as [|i], j as [|j]; cbn in *; simplify_eq; intros.
  - done.
  - apply Hin in Hj. lia.
  - apply Hin in Hi. lia.
  - f_equal. eapply IH; eauto.
Qed.

(** Cutting one range of a partition in two gives a partition. *)
Lemma tiles_split a b rs i r p :
  tiles a b rs → rs !! i = Some r → ByteRange.start r < p < ByteRange.end_ r →
  tiles a b (vec_insert (S i) (ByteRange.Make p (ByteRange.end_ r))
               (<[i := ByteRange.Make (ByteRange.start r) p]> rs)).
Proof.
  intros Ht Hi Hp. pose proof (lookup_lt_Some _ _ _ Hi) as Hlt.
  rewrite <-(take_drop_middle _ _ _ Hi) in Ht.
  unfold vec_insert.
  rewrite (insert_take_drop rs i) by done.
  assert (Hlen : length (take i rs) = i) by (rewrite length_take; lia).
  rewrite take_app, Hlen, drop_app, Hlen.
  rewrite (take_ge (take i rs)), (drop_ge (take i rs)) by lia.
  replace (S i - i)%nat with 1%nat by lia. cbn.
  rewrite <-app_assoc; cbn. apply tiles_app in Ht as (c & Hc & ? & ? & ?).
  apply tiles_app. exists c. split; [done|]. split_and!; cbn; try lia.
  rewrite take_0, drop_0; cbn. split_and!; [done|lia|done].
Qed.

(** ** The invariant *)

Module SegmentMapInv.
Import SegmentMap.

Definition ranges (m : t) : list ByteRange.t := Segment.range <$> segments m.
Definition ids (m : t) : list SegmentId.t := Segment.id <$> segments m.

(** The attempts a state mentions were issued before [next]. *)
Definition state_before (next : Z) (s : SegmentState) : Prop :=
  match s with
  | InFlight w a => w ≠ 0 ∧ 1 ≤ a < next
  | Written a => 1 ≤ a < next
  | _ => True
  end.

(** A pending checkpoint selects written segments, each as it stands in the map. *)
Definition checkpoint_wf (segs : list Segment.t) (next : Z) (c : Checkpoint.t) : Prop :=
  1 ≤ Checkpoint.sequence c < next ∧
  Checkpoint.ids c = (λ e, e.1.1) <$> Checkpoint.selection c ∧
  Checkpoint.ids c ≠ [] ∧ NoDup (Checkpoint.ids c) ∧
  Forall (λ e, Segment.Make e.1.1 e.1.2 (Written e.2) ∈ segs) (Checkpoint.selection c).

Record wf (m : t) : Prop := {
  wf_generation : Generation.wf (generation m);
  wf_total : 0 ≤ total m ≤ i64_max;
  wf_maximum : 1 ≤ maximum m ≤ 262144;
  wf_len : len m ≤ maximum m;
  wf_tiles : tiles 0 (total m) (ranges m);
  wf_ids : NoDup (ids m);
  wf_id_bound : Forall (λ i, 1 ≤ SegmentId.get i < next_id m) (ids m);
  wf_next_id : next_id m ≤ u64_max;
  wf_next_attempt : 1 ≤ next_attempt m ≤ u64_max;
  wf_attempts : Forall (λ s, state_before (next_attempt m) (Segment.state s)) (segments m);
  wf_next_checkpoint : 1 ≤ next_checkpoint m ≤ u64_max;
  wf_checkpoint : ∀ c, checkpoint m = Some c →
    checkpoint_wf (segments m) (next_checkpoint m) c }.

(** ** The methods as one state machine *)

Inductive op : Type :=
| SplitPending (id : SegmentId.t) (at_ : Z)
| StealLargestPending (minimum : Z)
| TakeLease (id : SegmentId.t) (worker : Z)
| MarkWritten (l : Lease.t)
| Release (l : Lease.t)
| DiscardUnsynced
| PrepareSync
| AcknowledgeSync (ticket : SyncTicket.t)
| AcknowledgeCommit (batch : CommitBatch.t)
| DiscardCheckpoint
| ReplaceGeneration (new_total : Z).

(** Forgets the value a call returns, keeping whether it failed and the state. *)
Definition run {A} (m : st t DomainError A) (s : t) : result DomainError unit * t :=
  match m s with (Ok _, s') => (Ok tt, s') | (Err e, s') => (Err e, s') end.

Definition exec (o : op) : t → result DomainError unit * t :=
  match o with
  | SplitPending id at_ => run (split_pending id at_)
  | StealLargestPending minimum => run (steal_largest_pending minimum)
  | TakeLease id worker => run (lease id worker)
  | MarkWritten l => run (mark_written l)
  | Release l => run (release l)
  | DiscardUnsynced => run discard_unsynced
  | PrepareSync => run prepare_sync
  | AcknowledgeSync ticket => run (acknowledge_sync ticket)
  | AcknowledgeCommit batch => run (acknowledge_commit batch)
  | DiscardCheckpoint => run discard_checkpoint
  | ReplaceGeneration total => run (replace_generation total)
  end.

(** Arguments are what Rust's types allow: unsigned numbers. *)
Definition op_typed (o : op) : Prop :=
  match o with
  | SplitPending _ at_ => u64 at_
  | StealLargestPending minimum => u64 minimum
  | TakeLease _ worker => u64 worker
  | ReplaceGeneration total => u64 total
  | _ => True
  end.

Inductive reachable : t → Prop :=
| reachable_new job generation total maximum m :
    Generation.wf generation → u64 total →
    new job generation total maximum = Ok m → reachable m
| reachable_restore job generation total maximum durable m :
    Generation.wf generation → u64 total → Forall ByteRange.wf durable →
    restore job generation total maximum durable = Ok m → reachable m
| reachable_step o m : reachable m → op_typed o → reachable (exec o m).2.

(** ** What a successful call did

    One inversion lemma per method: the guards that passed, the value returned
    and the new map. *)

Lemma index_Ok m id i s :
  index m id = Ok (i, s) → segments m !! i = Some s ∧ Segment.id s = id.
Proof. unfold index. rewrite ok_or_Ok, list_find_Some. naive_solver. Qed.

(** Identifiers being distinct, [index] finds every segment of the map. *)
Lemma index_lookup m i s :
  NoDup (ids m) → segments m !! i = Some s → index m (Segment.id s) = Ok (i, s).
Proof.
  intros Hnd Hi. unfold index. apply ok_or_Ok, list_find_Some. split_and!; [done..|].
  intros j y Hj Hlt Heq.
  assert (i = j); [|lia]. eapply (NoDup_lookup (ids m)); [done|..];
    unfold ids; rewrite list_lookup_fmap.
  - by rewrite Hi.
  - by rewrite Hj; cbn; rewrite Heq.
Qed.

(** The names [open_run] leaves for an index found and an addition that fits. *)
Ltac open_found :=
  repeat match goal with
  | p : nat * Segment.t |- _ => destruct p
  | H : index _ _ = Ok _ |- _ => apply index_Ok in H as [??]
  | H : checked_add _ _ = Some _ |- _ => apply checked_add_Some in H as [-> ?]
  end; cbn in *.

Lemma lease_index_Ok m l i s :
  lease_index m l = Ok (i, s) →
  Lease.job l = job m ∧ Lease.generation l = generation m ∧
  segments m !! i = Some s ∧
  s = Segment.Make (Lease.segment l) (Lease.range l) (InFlight (Lease.worker l) (Lease.attempt l)).
Proof.
  unfold lease_index. intros H. open_run. open_found. destruct s; cbn in *. by subst.
Qed.

Lemma split_pending_Ok id at_ m r m' :
  split_pending id at_ m = (Ok r, m') →
  ∃ i s, segments m !! i = Some s ∧ Segment.id s = id ∧ Segment.state s = Pending ∧
    len m ≠ maximum m ∧ next_id m + 1 ≤ u64_max ∧ r = SegmentId.Make (next_id m) ∧
    ByteRange.start (Segment.range s) < at_ < ByteRange.end_ (Segment.range s) ∧
    ByteRange.end_ (Segment.range s) ≤ i64_max ∧
    m' = set_next_id (next_id m + 1) (set_segments
      (vec_insert (S i) (Segment.Make r (ByteRange.Make at_ (ByteRange.end_ (Segment.range s))) Pending)
        (<[i := Segment.set_range (ByteRange.Make (ByteRange.start (Segment.range s)) at_) s]>
          (segments m))) m).
Proof.
  unfold split_pending. intros H. open_run.
  match goal with H : ByteRange.split _ _ = Ok ?p |- _ =>
    destruct p; apply ByteRange.split_Ok in H as (?&?&?&->&->) end.
  open_found. eexists _, _. by split_and!.
Qed.

Lemma steal_largest_pending_Ok minimum m r m' :
  steal_largest_pending minimum m = (Ok r, m') →
  (r = None ∧ m' = m ∧
    Forall (λ s, Segment.state s = Pending → ByteRange.len (Segment.range s) < minimum * 2)
      (segments m)) ∨
  (∃ s new_id, r = Some new_id ∧ s ∈ segments m ∧ Segment.state s = Pending ∧
    minimum * 2 ≤ ByteRange.len (Segment.range s) ∧
    Forall (λ q, Segment.state q = Pending →
      ByteRange.len (Segment.range q) ≤ ByteRange.len (Segment.range s)) (segments m) ∧
    split_pending (Segment.id s) (ByteRange.start (Segment.range s) +
      ByteRange.len (Segment.range s) / 2) m = (Ok new_id, m')).
Proof.
  unfold steal_largest_pending. unfold mbind at 1 2 3, st_bind at 1 2 3, lift, gets.
  unfold refuse_if, ok_or. repeat (case_match; simplify_eq/=); intros H'; try done.
  - right. unfold mbind, st_bind in H'. repeat (case_match; simplify_eq/=).
    match goal with H : checked_mul _ _ = _ |- _ => unfold checked_mul in H end.
    match goal with H : max_by_key ?k ?l = _ |- _ =>
      pose proof (max_by_key_spec k l) as Hs; rewrite H in Hs end.
    destruct Hs as [Hin Hmax]. apply list_elem_of_filter in Hin as [[??] ?].
    case_decide; simplify_eq. injection H' as <- <-. eexists _, _. split_and!; eauto.
    apply Forall_forall. intros q Hq ?. rewrite Forall_forall in Hmax.
    destruct (decide (minimum * 2 ≤ ByteRange.len (Segment.range q))); [|lia].
    apply (Hmax q). apply list_elem_of_filter. done.
  - left. injection H' as <- <-. split_and!; [done..|].
    match goal with H : max_by_key ?k ?l = _ |- _ =>
      pose proof (max_by_key_spec k l) as Hs; rewrite H in Hs end.
    match goal with H : checked_mul _ _ = _ |- _ => unfold checked_mul in H end.
    case_decide; simplify_eq. apply Forall_forall. intros q Hq Hp.
    apply Z.nle_gt. intros Hge.
    assert (q ∈ @nil Segment.t) as Hin; [|by apply elem_of_nil in Hin].
    rewrite <-Hs. by apply list_elem_of_filter.
Qed.

Lemma lease_Ok id worker m l m' :
  lease id worker m = (Ok l, m') →
  ∃ i s, segments m !! i = Some s ∧ Segment.id s = id ∧ Segment.state s = Pending ∧
    worker ≠ 0 ∧ next_attempt m + 1 ≤ u64_max ∧
    l = Lease.Make (job m) (generation m) id (next_attempt m) worker (Segment.range s) ∧
    m' = set_segments (<[i := Segment.set_state (InFlight worker (next_attempt m)) s]>
           (segments m)) (set_next_attempt (next_attempt m + 1) m).
Proof.
  unfold lease. intros H. open_run. open_found. eexists _, _. by split_and!.
Qed.

Lemma mark_written_Ok l m u m' :
  mark_written l m = (Ok u, m') →
  ∃ i s, segments m !! i = Some s ∧ lease_index m l = Ok (i, s) ∧
    m' = set_segments (<[i := Segment.set_state (Written (Lease.attempt l)) s]> (segments m)) m.
Proof.
  unfold mark_written. intros H. open_run.
  match goal with H : lease_index _ _ = Ok ?p |- _ => destruct p as [i s]; rename H into Hl end.
  exists i, s. split_and!; [|done..]. by apply lease_index_Ok in Hl as (?&?&?&?).
Qed.

Lemma release_Ok l m u m' :
  release l m = (Ok u, m') →
  ∃ i s, segments m !! i = Some s ∧ lease_index m l = Ok (i, s) ∧
    m' = set_segments (<[i := Segment.set_state Pending s]> (segments m)) m.
Proof.
  unfold release. intros H. open_run.
  match goal with H : lease_index _ _ = Ok ?p |- _ => destruct p as [i s]; rename H into Hl end.
  exists i, s. split_and!; [|done..]. by apply lease_index_Ok in Hl as (?&?&?&?).
Qed.

(** The written segments and what a checkpoint records of them. *)
Definition written_segments (m : t) : list Segment.t :=
  filter (λ s, is_written (Segment.state s) = true) (segments m).
Definition selection_of (segs : list Segment.t) : Selection :=
  (λ s, (Segment.id s, Segment.range s, written_attempt (Segment.state s))) <$> segs.

Lemma prepare_sync_Ok m ticket m' :
  prepare_sync m = (Ok ticket, m') →
  checkpoint m = None ∧ written_segments m ≠ [] ∧ next_checkpoint m + 1 ≤ u64_max ∧
  ticket = SyncTicket.Make (job m) (generation m) (next_checkpoint m)
    (Segment.range <$> written_segments m) (selection_of (written_segments m)) ∧
  m' = set_checkpoint (Some (Checkpoint.Make (next_checkpoint m)
         (Segment.id <$> written_segments m) (selection_of (written_segments m)) false))
       (set_next_checkpoint (next_checkpoint m + 1) m).
Proof.
  unfold prepare_sync. intros H. open_run. open_found.
  by split_and!.
Qed.

Lemma acknowledge_sync_Ok ticket m batch m' :
  acknowledge_sync ticket m = (Ok batch, m') →
  ∃ c, checkpoint m = Some c ∧ Checkpoint.synced c = false ∧
    SyncTicket.job ticket = job m ∧ SyncTicket.generation ticket = generation m ∧
    SyncTicket.sequence ticket = Checkpoint.sequence c ∧
    SyncTicket.selection ticket = Checkpoint.selection c ∧
    batch = CommitBatch.Make (SyncTicket.job ticket) (SyncTicket.generation ticket)
      (SyncTicket.sequence ticket) (SyncTicket.ranges ticket) (SyncTicket.selection ticket) ∧
    m' = set_checkpoint (Some (Checkpoint.Make (Checkpoint.sequence c) (Checkpoint.ids c)
           (Checkpoint.selection c) true)) m.
Proof.
  unfold acknowledge_sync. intros H. open_run. eexists.
  split_and!; try done. by apply not_true_is_false.
Qed.

Lemma acknowledge_commit_Ok batch m u m' :
  acknowledge_commit batch m = (Ok u, m') →
  ∃ c found, checkpoint m = Some c ∧ Checkpoint.synced c = true ∧
    CommitBatch.job batch = job m ∧ CommitBatch.generation batch = generation m ∧
    CommitBatch.sequence batch = Checkpoint.sequence c ∧
    CommitBatch.selection batch = Checkpoint.selection c ∧
    collect (index m) (Checkpoint.ids c) = Ok found ∧
    Forall (λ f : nat * Segment.t, is_written (Segment.state f.2) = true) found ∧
    m' = set_checkpoint None (set_segments (make_durable (segments m) found) m).
Proof.
  unfold acknowledge_commit. intros H. open_run. eexists _, _.
  split_and!; try done.
  - by apply not_false_is_true.
  - apply Forall_forall. intros f Hf. apply not_false_iff_true. intros Hfalse.
    match goal with H : existsb _ _ = false |- _ =>
      rewrite <-not_true_iff_false, existsb_exists in H; apply H end.
    exists f. rewrite Hfalse. split; [|done]. by apply list_elem_of_In.
Qed.

Lemma discard_unsynced_Ok m u m' :
  discard_unsynced m = (Ok u, m') →
  checkpoint m = None ∧
  m' = set_segments ((λ s, if is_written (Segment.state s) then Segment.set_state Pending s else s)
         <$> segments m) m.
Proof.
  unfold discard_unsynced. intros H. open_run. by split.
Qed.

Lemma map_new_Ok job generation total maximum m :
  new job generation total maximum = Ok m →
  total ≤ i64_max ∧ 1 ≤ maximum ≤ 262144 ∧
  m = Make job generation total maximum
    (if decide (total = 0) then []
     else [Segment.Make (SegmentId.Make 1) (ByteRange.Make 0 total) Pending]) 2 1 1 None.
Proof.
  unfold new. intros H. open_run.
  - split_and!; (done || lia).
  - match goal with H : ByteRange.new _ _ = _ |- _ => apply ByteRange.new_Ok in H as (?&?&->) end.
    split_and!; (done || lia).
Qed.

Lemma replace_generation_Ok total m u m' :
  replace_generation total m = (Ok u, m') →
  ∃ g, Generation.next (generation m) = Ok g ∧ checkpoint m = None ∧ has_in_flight m = false ∧
    new (job m) g total (maximum m) = Ok m'.
Proof.
  unfold replace_generation, has_pending_checkpoint. intros H. open_run. eexists.
  by split_and!.
Qed.

(** Every refused call leaves the map as it was. *)
Lemma exec_atomic o m e m' : exec o m = (Err e, m') → m' = m.
Proof.
  destruct o; unfold exec, run;
    unfold steal_largest_pending, split_pending, lease, mark_written, release,
      discard_unsynced, prepare_sync, acknowledge_sync, acknowledge_commit,
      discard_checkpoint, replace_generation; intros H; by open_run.
Qed.

(** ** Preservation *)

Lemma state_before_mono n n' s : n ≤ n' → state_before n s → state_before n' s.
Proof. destruct s; cbn; lia. Qed.

Lemma wf_raise_attempt n m : wf m → next_attempt m ≤ n ≤ u64_max → wf (set_next_attempt n m).
Proof.
  intros [] ?. constructor; cbn; try done; [lia|].
  eapply Forall_impl; [done|]. intros s. cbn. apply state_before_mono. lia.
Qed.

(** New states for the same segments. *)
Lemma wf_states m segs :
  wf m → Segment.range <$> segs = ranges m → Segment.id <$> segs = ids m →
  Forall (λ s, state_before (next_attempt m) (Segment.state s)) segs →
  (∀ c, checkpoint m = Some c →
    Forall (λ e, Segment.Make e.1.1 e.1.2 (Written e.2) ∈ segs) (Checkpoint.selection c)) →
  wf (set_segments segs m).
Proof.
  intros [] Hr Hi Hs Hc. constructor; unfold ranges, ids, len in *; cbn; try done.
  - by rewrite <-(length_fmap Segment.id), Hi, length_fmap.
  - by rewrite Hr.
  - by rewrite Hi.
  - by rewrite Hi.
  - intros c Hck. destruct (wf_checkpoint0 c Hck) as (?&?&?&?&?). split; [done|]. split_and!; eauto.
Qed.

Lemma fmap_set_state {A} (f : Segment.t → A) (segs : list Segment.t) i s st' :
  segs !! i = Some s → f (Segment.set_state st' s) = f s →
  f <$> <[i := Segment.set_state st' s]> segs = f <$> segs.
Proof.
  intros Hi Hf. rewrite list_fmap_insert, Hf. apply list_insert_id.
  by rewrite list_lookup_fmap, Hi.
Qed.

(** One segment that no checkpoint can have selected changes state. *)
Lemma wf_set_state m i s st' :
  wf m → segments m !! i = Some s → is_written (Segment.state s) = false →
  state_before (next_attempt m) st' →
  wf (set_segments (<[i := Segment.set_state st' s]> (segments m)) m).
Proof.
  intros Hwf Hi Hs Hst. apply wf_states; [done|..].
  - by apply fmap_set_state.
  - by apply fmap_set_state.
  - apply Forall_insert; [apply Hwf|done].
  - intros c Hc. destruct (wf_checkpoint m Hwf c Hc) as (_&_&_&_&Hsel).
    apply (Forall_impl _ _ _ Hsel). intros e [j Hj]%list_elem_of_lookup.
    apply list_elem_of_lookup. exists j. rewrite list_lookup_insert_ne; [done|].
    intros ->. naive_solver.
Qed.

(** A new segment next to a split one. *)
Lemma vec_insert_Permutation {A} i (x : A) l : vec_insert i x l ≡ₚ x :: l.
Proof. unfold vec_insert. by rewrite <-Permutation_middle, take_drop. Qed.

Lemma fmap_vec_insert {A B} (f : A → B) i x l :
  f <$> vec_insert i x l = vec_insert i (f x) (f <$> l).
Proof. unfold vec_insert. by rewrite fmap_app, fmap_take, fmap_cons, fmap_drop. Qed.

Lemma wf_split m i s r at_ :
  wf m → segments m !! i = Some s → Segment.state s = Pending →
  len m ≠ maximum m → next_id m + 1 ≤ u64_max → r = SegmentId.Make (next_id m) →
  ByteRange.start (Segment.range s) < at_ < ByteRange.end_ (Segment.range s) →
  wf (set_next_id (next_id m + 1) (set_segments
    (vec_insert (S i) (Segment.Make r (ByteRange.Make at_ (ByteRange.end_ (Segment.range s))) Pending)
      (<[i := Segment.set_range (ByteRange.Make (ByteRange.start (Segment.range s)) at_) s]>
        (segments m))) m)).
Proof.
  intros Hwf Hi Hs Hlen Hid -> Hat.
  assert (Hids : Segment.id <$> <[i := Segment.set_range
      (ByteRange.Make (ByteRange.start (Segment.range s)) at_) s]> (segments m) = ids m).
  { unfold ids. rewrite list_fmap_insert. apply list_insert_id. by rewrite list_lookup_fmap, Hi. }
  destruct Hwf. constructor; unfold ranges, ids, len in *; cbn; try done; try lia.
  - rewrite vec_insert_Permutation; cbn. rewrite length_insert. lia.
  - rewrite fmap_vec_insert, list_fmap_insert; cbn. apply tiles_split; [done| |done].
    by rewrite list_lookup_fmap, Hi.
  - rewrite fmap_vec_insert, vec_insert_Permutation, Hids; cbn.
    apply NoDup_cons. split; [|done]. rewrite Forall_forall in wf_id_bound0.
    intros Hin%wf_id_bound0. cbn in Hin. lia.
  - rewrite fmap_vec_insert, vec_insert_Permutation, Hids; cbn.
    constructor; cbn; [rewrite Forall_forall in wf_id_bound0|].
    + assert (Segment.id s ∈ Segment.id <$> segments m) as Hin%wf_id_bound0; [|lia].
      apply list_elem_of_fmap_2, list_elem_of_lookup. eauto.
    + eapply Forall_impl; [done|]. cbn. lia.
  - rewrite vec_insert_Permutation. constructor; [done|]. apply Forall_insert; [done|].
    cbn. by rewrite Hs.
  - intros c Hc. destruct (wf_checkpoint0 c Hc) as (?&?&?&?&Hsel). split; [done|]. split_and!; try done.
    apply (Forall_impl _ _ _ Hsel). intros e [j Hj]%list_elem_of_lookup.
    rewrite vec_insert_Permutation. apply elem_of_cons; right.
    apply list_elem_of_lookup. exists j. rewrite list_lookup_insert_ne; [done|].
    intros ->. rewrite Hi in Hj. injection Hj as ->. done.
Qed.

Lemma wf_drop_checkpoint m : wf m → wf (set_checkpoint None m).
Proof. intros []. by constructor. Qed.

Lemma wf_prepare m :
  wf m → written_segments m ≠ [] → next_checkpoint m + 1 ≤ u64_max →
  wf (set_checkpoint (Some (Checkpoint.Make (next_checkpoint m)
        (Segment.id <$> written_segments m) (selection_of (written_segments m)) false))
      (set_next_checkpoint (next_checkpoint m + 1) m)).
Proof.
  intros [] Hne Hov. constructor; unfold ids, ranges, len in *; cbn; try done; [lia|].
  intros c [= <-]. split; cbn; [lia|]. unfold selection_of. split_and!.
  - by rewrite <-list_fmap_compose.
  - by intros Hnil%fmap_nil_inv.
  - by apply NoDup_fmap_filter.
  - apply Forall_fmap, Forall_forall. intros s [Hw Hs]%list_elem_of_filter; cbn.
    by destruct s as [? ? []].
Qed.

(** [make_durable] at the indices of distinct segments changes those states only. *)
Lemma make_durable_fmap {A} (f : Segment.t → A) found segs :
  (∀ s st', f (Segment.set_state st' s) = f s) →
  f <$> make_durable segs found = f <$> segs.
Proof.
  intros Hf. unfold make_durable. revert segs.
  induction found as [|[i s] found IH]; intros segs; cbn; [done|].
  rewrite IH. apply list_eq. intros j. rewrite !list_lookup_fmap.
  destruct (decide (i = j)) as [->|]; [|by rewrite list_lookup_alter_ne].
  rewrite list_lookup_alter_eq. destruct (segs !! j); cbn; by rewrite ?Hf.
Qed.

Lemma make_durable_lookup found segs j :
  make_durable segs found !! j =
  (if decide (j ∈ found.*1) then Segment.set_state Durable <$> segs !! j else segs !! j).
Proof.
  unfold make_durable. revert segs.
  induction found as [|[i s] found IH]; intros segs; cbn; [done|].
  rewrite IH. destruct (decide (i = j)) as [->|Hne].
  - rewrite list_lookup_alter_eq. rewrite (decide_True (P := j ∈ j :: _)) by set_solver.
    case_decide; [|done]. by destruct (segs !! j).
  - rewrite list_lookup_alter_ne by done. repeat case_decide; set_solver.
Qed.

Lemma wf_commit m found :
  wf m → wf (set_checkpoint None (set_segments (make_durable (segments m) found) m)).
Proof.
  intros Hwf%wf_drop_checkpoint.
  change (wf (set_segments (make_durable (segments (set_checkpoint None m)) found)
    (set_checkpoint None m))).
  apply wf_states; [done|by apply make_durable_fmap..| |done].
  apply Forall_lookup. intros j s. rewrite make_durable_lookup; cbn.
  pose proof (wf_attempts _ Hwf) as Hat. rewrite Forall_lookup in Hat; cbn in Hat.
  case_decide; [|by apply Hat]. by intros (s' & ? & ->)%fmap_Some.
Qed.

Lemma wf_new job generation total maximum m :
  Generation.wf generation → u64 total → new job generation total maximum = Ok m → wf m.
Proof.
  intros Hg Ht (?&?&->)%map_new_Ok. unfold u64 in Ht.
  destruct (decide (total = 0)); constructor; unfold ranges, ids, len; cbn; try (done || lia).
  - constructor.
  - apply NoDup_singleton.
  - by repeat constructor.
  - by repeat constructor.
Qed.

Lemma exec_wf o m : wf m → op_typed o → wf (exec o m).2.
Proof.
  intros Hwf Hty.
  destruct (exec o m) as [[u|e] m'] eqn:He; [|by apply exec_atomic in He as ->].
  cbn. destruct o; unfold exec, run in He; repeat case_match; simplify_eq.
  - apply split_pending_Ok in H as (?&?&?&?&?&?&?&->&?&?&->). by eapply wf_split.
  - apply steal_largest_pending_Ok in H as [(?&->&?)|(?&?&?&?&?&?&?&H)]; [done|].
    apply split_pending_Ok in H as (?&?&?&?&?&?&?&->&?&?&->). by eapply wf_split.
  - apply lease_Ok in H as (i&s&Hi&?&Hs&?&?&->&->).
    apply (wf_set_state (set_next_attempt (next_attempt m + 1) m)); cbn; [|done|by rewrite Hs|].
    + apply wf_raise_attempt; [done|lia].
    + cbn. pose proof (wf_next_attempt m Hwf). split_and!; (done || lia).
  - apply mark_written_Ok in H as (i&s&Hi&(_&_&_&->)%lease_index_Ok&->).
    apply wf_set_state; cbn; try done.
    pose proof (wf_attempts m Hwf) as Hat. rewrite Forall_lookup in Hat.
    by destruct (Hat _ _ Hi) as [_ ?].
  - apply release_Ok in H as (i&s&Hi&(_&_&_&->)%lease_index_Ok&->). by apply wf_set_state.
  - apply discard_unsynced_Ok in H as [Hck ->].
    apply wf_states; [done|..].
    + rewrite <-list_fmap_compose. apply list_fmap_ext. intros ? s ?; cbn. by case_match.
    + rewrite <-list_fmap_compose. apply list_fmap_ext. intros ? s ?; cbn. by case_match.
    + apply Forall_fmap. eapply Forall_impl; [by apply wf_attempts|]. cbn.
      intros s. by destruct s as [? ? []].
    + by rewrite Hck.
  - apply prepare_sync_Ok in H as (?&?&?&->&->). by apply wf_prepare.
  - apply acknowledge_sync_Ok in H as (c&Hc&?&?&?&?&?&->&->).
    destruct Hwf. constructor; unfold ids, ranges, len in *; cbn; try done.
    intros c' [= <-]. exact (wf_checkpoint0 c Hc).
  - apply acknowledge_commit_Ok in H as (c&found&?&?&?&?&?&?&?&?&->). by apply wf_commit.
  - unfold discard_checkpoint in H. injection H as <- <-. by apply wf_drop_checkpoint.
  - apply replace_generation_Ok in H as (g&Hg&?&?&Hn).
    apply Generation.next_Ok in Hg as [? ?]; [|by apply Hwf].
    eapply wf_new; [..|exact Hn]; done.
Qed.

(** Only a new generation changes what the map is a map of. *)
Lemma exec_header o m :
  (∀ total, o ≠ ReplaceGeneration total) →
  job (exec o m).2 = job m ∧ generation (exec o m).2 = generation m ∧
  total (exec o m).2 = total m ∧ maximum (exec o m).2 = maximum m.
Proof.
  intros Hnr.
  destruct (exec o m) as [[u|e] m'] eqn:He; [|by apply exec_atomic in He as ->].
  cbn. destruct o; unfold exec, run in He; repeat case_match; simplify_eq.
  - by apply split_pending_Ok in H as (?&?&?&?&?&?&?&->&?&?&->).
  - apply steal_largest_pending_Ok in H as [(?&->&?)|(?&?&?&?&?&?&?&H)]; [done|].
    by apply split_pending_Ok in H as (?&?&?&?&?&?&?&->&?&?&->).
  - by apply lease_Ok in H as (?&?&?&?&?&?&?&->&->).
  - by apply mark_written_Ok in H as (?&?&?&?&->).
  - by apply release_Ok in H as (?&?&?&?&->).
  - by apply discard_unsynced_Ok in H as [? ->].
  - by apply prepare_sync_Ok in H as (?&?&?&->&->).
  - by apply acknowledge_sync_Ok in H as (?&?&?&?&?&?&?&->&->).
  - by apply acknowledge_commit_Ok in H as (?&?&?&?&?&?&?&?&?&?&->).
  - unfold discard_checkpoint in H. by injection H as <- <-.
  - by destruct (Hnr new_total).
Qed.

End SegmentMapInv.
