(* ===== verification/SegmentsRestore.v ===== *)
(** * Rebuilding a segment map from persisted ranges

    The proof that [SegmentMap.restore] accepts exactly the ascending,
    non-overlapping range lists inside the object, and rebuilds a partition whose
    durable bytes are the union of those ranges. *)

From S2P Require Import Prelude Domain Segments SegmentsInv.

(** ** Ascending range lists *)

(** Every range starts at or after the end of the one before it. *)
Fixpoint ascending (lo : Z) (rs : list ByteRange.t) : Prop :=
  match rs with
  | [] => True
  | r :: rs => lo ≤ ByteRange.start r ∧ ByteRange.start r < ByteRange.end_ r
               ∧ ascending (ByteRange.end_ r) rs
  end.

#[global] Instance ascending_dec lo rs : Decision (ascending lo rs).
Proof. revert lo. induction rs as [|r rs IH]; intros lo; cbn; apply _. Defined.

(** Where the last range ends. *)
Fixpoint end_of (lo : Z) (rs : list ByteRange.t) : Z :=
  match rs with [] => lo | r :: rs => end_of (ByteRange.end_ r) rs end.

Definition within (total : Z) (rs : list ByteRange.t) : Prop :=
  Forall (λ r, ByteRange.end_ r ≤ total) rs.

Lemma ascending_app lo xs ys :
  ascending lo (xs ++ ys) ↔ ascending lo xs ∧ ascending (end_of lo xs) ys.
Proof. revert lo. induction xs as [|x xs IH]; intros lo; cbn; [tauto|]. rewrite IH. tauto. Qed.

Lemma end_of_app lo xs ys : end_of lo (xs ++ ys) = end_of (end_of lo xs) ys.
Proof. revert lo. induction xs as [|x xs IH]; intros lo; cbn; [done|]. apply IH. Qed.

Lemma end_of_le lo xs total : lo ≤ total → within total xs → end_of lo xs ≤ total.
Proof. intros Hlo Hw. revert lo Hlo. induction Hw; intros; cbn; auto. Qed.

Lemma ascending_end lo xs : ascending lo xs → lo ≤ end_of lo xs.
Proof.
  revert lo. induction xs as [|x xs IH]; intros lo; cbn; [lia|]. intros (?&?&?%IH). lia.
Qed.

(** ** The merging loop *)

Import SegmentMap.

(** What [merge_durable] keeps of the ranges seen so far, last first. *)
Record merged_ok (total : Z) (merged : list ByteRange.t) : Prop := {
  merged_ascending : ascending 0 (reverse merged);
  merged_within : within total merged }.

Definition last_end (merged : list ByteRange.t) : Z := end_of 0 (reverse merged).

Lemma last_end_cons r merged : last_end (r :: merged) = ByteRange.end_ r.
Proof. unfold last_end. by rewrite reverse_cons, end_of_app. Qed.

(** Joining a touching range to the last one keeps the list ascending. *)
Lemma merged_ok_join total r last merged :
  merged_ok total (last :: merged) → ByteRange.start r = ByteRange.end_ last →
  ByteRange.start r < ByteRange.end_ r → ByteRange.end_ r ≤ total →
  merged_ok total (ByteRange.Make (ByteRange.start last) (ByteRange.end_ r) :: merged).
Proof.
  intros [Ha Hw] ???. rewrite reverse_cons, ascending_app in Ha. cbn in Ha.
  destruct Ha as (?&?&?&_). inversion Hw; subst. split.
  - rewrite reverse_cons, ascending_app; cbn. split_and!; (done || lia).
  - by constructor.
Qed.

Lemma merged_ok_push total r merged :
  merged_ok total merged → last_end merged ≤ ByteRange.start r →
  ByteRange.start r < ByteRange.end_ r → ByteRange.end_ r ≤ total →
  merged_ok total (r :: merged).
Proof.
  intros [Ha Hw] ???. split; [|by constructor].
  rewrite reverse_cons, ascending_app; cbn. split_and!; (done || lia).
Qed.

Lemma merged_ok_nil total : merged_ok total [].
Proof. by split; [|constructor]. Qed.

(** The loop accepts exactly the ranges that continue the ascending list. *)
Lemma merge_durable_is_ok total durable merged :
  total ≤ i64_max → Forall ByteRange.wf durable → merged_ok total merged →
  is_ok (merge_durable total durable merged) = true ↔
  ascending (last_end merged) durable ∧ within total durable.
Proof.
  intros Ht Hd. revert merged. induction Hd as [|r rest Hr Hrest IH]; intros merged Hm; cbn.
  { split; [|done]. split; [done|constructor]. }
  unfold within in *. rewrite Forall_cons. destruct Hr as (?&?&?).
  case_decide as Hend; [cbn; intuition (done || lia)|].
  destruct merged as [|last merged].
  { rewrite IH by (apply merged_ok_push; [done|cbn; lia..]).
    rewrite last_end_cons. cbn. intuition lia. }
  rewrite last_end_cons. case_decide as Hov; [cbn; intuition (done || lia)|].
  pose proof (merged_within _ _ Hm) as [??]%Forall_cons. case_decide as Htouch.
  - pose proof (merged_ascending _ _ Hm) as Ha.
    rewrite reverse_cons, ascending_app in Ha. destruct Ha as (_&?&?&_).
    rewrite ByteRange.new_eq by lia. unfold mbind, result_bind.
    rewrite IH by (apply merged_ok_join; (done || lia)).
    rewrite last_end_cons. cbn. intuition lia.
  - rewrite IH by (apply merged_ok_push; rewrite ?last_end_cons; (done || lia)).
    rewrite last_end_cons. intuition lia.
Qed.

Lemma merge_durable_Ok total durable merged out :
  total ≤ i64_max → Forall ByteRange.wf durable → merged_ok total merged →
  merge_durable total durable merged = Ok out →
  ascending 0 out ∧ within total out ∧
  ∀ b, covered out b ↔ covered merged b ∨ covered durable b.
Proof.
  intros Ht Hd. revert merged. induction Hd as [|r rest Hr Hrest IH]; intros merged Hm; cbn.
  { intros [= <-]. destruct Hm. split_and!; [done|by apply Forall_reverse|].
    intros b. autorewrite with fhd. unfold covered. set_solver. }
  destruct Hr as (?&?&?). case_decide as Hend; [done|].
  destruct merged as [|last merged].
  { intros (?&?&Hc)%IH; [|apply merged_ok_push; [done|cbn; lia..]].
    split_and!; [done..|]. intros b. rewrite Hc. autorewrite with fhd. tauto. }
  case_decide as Hov; [done|]. pose proof (merged_within _ _ Hm) as [??]%Forall_cons.
  case_decide as Htouch.
  - pose proof (merged_ascending _ _ Hm) as Ha.
    rewrite reverse_cons, ascending_app in Ha. destruct Ha as (_&?&?&_).
    rewrite ByteRange.new_eq by lia. unfold mbind, result_bind.
    intros (?&?&Hc)%IH; [|apply merged_ok_join; (done || lia)].
    split_and!; [done..|]. intros b. rewrite Hc. autorewrite with fhd.
    unfold ByteRange.covers; cbn. intuition lia.
  - intros (?&?&Hc)%IH; [|apply merged_ok_push; rewrite ?last_end_cons; (done || lia)].
    split_and!; [done..|]. intros b. rewrite Hc. autorewrite with fhd. tauto.
Qed.

(** Merging keeps the number of bytes. *)
Definition bytes (rs : list ByteRange.t) : Z := sum_Z (ByteRange.len <$> rs).

Lemma bytes_app xs ys : bytes (xs ++ ys) = bytes xs + bytes ys.
Proof. unfold bytes. by rewrite fmap_app, sum_Z_app. Qed.

Lemma merge_durable_bytes total durable merged out :
  merge_durable total durable merged = Ok out →
  bytes out = bytes (reverse merged) + bytes durable.
Proof.
  revert merged. induction durable as [|r rest IH]; intros merged; cbn [merge_durable].
  { intros [= <-]. unfold bytes. cbn. autorewrite with fhd. lia. }
  case_decide; [done|]. unfold bytes in *. destruct merged as [|last merged].
  { intros Hm%IH. rewrite Hm, reverse_singleton, reverse_nil. cbn. autorewrite with fhd. lia. }
  case_decide; [done|]. case_decide.
  - destruct (ByteRange.new _ _) eqn:Hj; [|done]. apply ByteRange.new_Ok in Hj as (?&?&->).
    intros ->%IH. rewrite !reverse_cons, !fmap_app. cbn. autorewrite with fhd.
    unfold ByteRange.len; cbn. lia.
  - intros ->%IH. rewrite !reverse_cons, !fmap_app. cbn. autorewrite with fhd. lia.
Qed.

(** ** The gap-filling loop *)

Definition durable_ranges (segs : list Segment.t) : list ByteRange.t :=
  Segment.range <$> filter (λ s, Segment.state s = Durable) segs.
#[global] Arguments durable_ranges : simpl never.

(** The segment list built so far: numbered from one, covering [0, cursor), the
    durable ones being exactly [done_]. *)
Record built (cursor : Z) (done_ : list ByteRange.t) (segs : list Segment.t) : Prop := {
  built_ids : Segment.id <$> segs = (λ k, SegmentId.Make (Z.of_nat k)) <$> seq 1 (length segs);
  built_tiles : tiles 0 cursor (Segment.range <$> segs);
  built_durable : durable_ranges segs = done_;
  built_states : Forall (λ s, Segment.state s = Pending ∨ Segment.state s = Durable) segs }.

Lemma built_nil : built 0 [] [].
Proof. by split. Qed.

Lemma built_push cursor done_ segs e st :
  built cursor done_ segs → cursor < e → st = Pending ∨ st = Durable →
  built e (done_ ++ if decide (st = Durable) then [ByteRange.Make cursor e] else [])
    (push segs (ByteRange.Make cursor e) st).
Proof.
  intros [Hi Ht Hd Hs] He Hst. unfold push. split.
  - rewrite fmap_app, length_app, seq_app, fmap_app, Hi; cbn.
    by rewrite Nat2Z.inj_succ, Z.add_1_r.
  - rewrite fmap_app, tiles_app. exists cursor. done.
  - unfold durable_ranges in *. rewrite filter_app, fmap_app, Hd, filter_cons; cbn.
    by case_decide.
  - apply Forall_app. split; [done|]. by apply Forall_singleton.
Qed.

Lemma fill_gaps_Ok merged total cursor done_ segs :
  total ≤ i64_max → 0 ≤ cursor → ascending cursor merged → within total merged →
  built cursor done_ segs →
  ∃ segs', fill_gaps merged cursor segs = Ok (segs', end_of cursor merged) ∧
    built (end_of cursor merged) (done_ ++ merged) segs'.
Proof.
  intros Ht. revert cursor done_ segs.
  induction merged as [|r rest IH]; intros cursor done_ segs Hc; cbn.
  { rewrite app_nil_r. eauto. }
  intros (?&?&?) [??]%Forall_cons Hb.
  assert (∃ segs', (if decide (cursor < ByteRange.start r) then
      gap ← ByteRange.new cursor (ByteRange.start r); Ok (push segs gap Pending)
    else Ok segs) = Ok segs' ∧ built (ByteRange.start r) done_ segs') as (segs'&Hgap&Hb').
  { case_decide.
    - rewrite ByteRange.new_eq by lia. eexists. split; [done|].
      pose proof (built_push _ _ _ (ByteRange.start r) Pending Hb) as Hp.
      rewrite decide_False, app_nil_r in Hp by done. apply Hp; auto.
    - exists segs. split; [done|]. by replace (ByteRange.start r) with cursor by lia. }
  rewrite Hgap. unfold mbind, result_bind.
  pose proof (built_push _ _ _ (ByteRange.end_ r) Durable Hb') as Hp.
  rewrite decide_True in Hp by done. destruct r as [s e]; cbn in *.
  destruct (IH e (done_ ++ [ByteRange.Make s e]) _ ltac:(lia) ltac:(done) ltac:(done)
    (Hp ltac:(lia) ltac:(auto))) as (out&->&Hout).
  exists out. by rewrite <-app_assoc in Hout.
Qed.

(** ** The whole function *)

(** What [restore] promises of the map it returns. *)
Record restored (job : JobId.t) (generation : Generation.t) (total maximum : Z)
    (durable : list ByteRange.t) (m : SegmentMap.t) : Prop := {
  restored_header : SegmentMap.job m = job ∧ SegmentMap.generation m = generation ∧
    SegmentMap.total m = total ∧ SegmentMap.maximum m = maximum ∧
    next_attempt m = 1 ∧ next_checkpoint m = 1 ∧ checkpoint m = None;
  restored_ids : Segment.id <$> segments m
    = (λ k, SegmentId.Make (Z.of_nat k)) <$> seq 1 (length (segments m));
  restored_next_id : next_id m = len m + 1;
  restored_len : len m ≤ maximum;
  restored_tiles : tiles 0 total (Segment.range <$> segments m);
  restored_states :
    Forall (λ s, Segment.state s = Pending ∨ Segment.state s = Durable) (segments m);
  restored_durable : ∀ b, covered (durable_ranges (segments m)) b ↔ covered durable b;
  restored_bytes : durable_bytes m = bytes durable }.

Lemma restore_inv job generation total maximum durable m :
  0 ≤ total → Forall ByteRange.wf durable →
  restore job generation total maximum durable = Ok m →
  total ≤ i64_max ∧ 1 ≤ maximum ≤ 262144 ∧ ascending 0 durable ∧ within total durable ∧
  restored job generation total maximum durable m.
Proof.
  intros Ht Hd. unfold restore, mbind at 1, result_bind at 1.
  destruct (new _ _ _ _) as [m0|] eqn:Hn; [|done].
  apply SegmentMapInv.map_new_Ok in Hn as (Hle&Hmax&->). unfold mbind at 1, result_bind at 1.
  pose proof (merge_durable_is_ok total durable [] Hle Hd (merged_ok_nil _)) as Hiff.
  destruct (merge_durable _ _ _) as [merged|] eqn:Hmd; [|done].
  destruct Hiff as [Hasc _]. destruct (Hasc eq_refl) as [Ha Hw].
  pose proof (merge_durable_bytes _ _ _ _ Hmd) as Hbytes.
  apply merge_durable_Ok in Hmd as (Ham&Hwm&Hcov); [|done..|apply merged_ok_nil].
  destruct (fill_gaps_Ok merged total 0 [] [] Hle ltac:(done) Ham Hwm built_nil)
    as (segs&->&Hb). unfold mbind at 1, result_bind at 1. cbn [fst snd app] in *.
  set (tail := if decide (_ < total) then _ else _).
  assert (∃ segs', tail = Ok segs' ∧ built total merged segs') as (segs'&->&Hb').
  { unfold tail. case_decide.
    - pose proof (ascending_end _ _ Ham). rewrite ByteRange.new_eq by lia.
      eexists. split; [done|]. pose proof (built_push _ _ _ total Pending Hb) as Hp.
      rewrite decide_False, app_nil_r in Hp by done. apply Hp; auto.
    - exists segs. split; [done|]. pose proof (end_of_le 0 merged total Ht Hwm).
      by replace total with (end_of 0 merged) by lia. }
  unfold mbind, result_bind, refuse_if. case_bool_decide; [done|]. intros [= <-].
  destruct Hb'. do 4 (split; [done|]). split; cbn; try done.
  - unfold len; cbn. lia.
  - intros b. specialize (Hcov b). rewrite <-built_durable0 in Hcov. etrans; [exact Hcov|].
    autorewrite with fhd. tauto.
  - rewrite <-built_durable0 in Hbytes. unfold bytes, durable_ranges in Hbytes.
    rewrite <-list_fmap_compose in Hbytes. exact Hbytes.
Qed.

(** The map it builds is well formed. *)
Lemma restored_wf job generation total maximum durable m :
  0 ≤ total ≤ i64_max → 1 ≤ maximum ≤ 262144 → Generation.wf generation →
  restored job generation total maximum durable m → SegmentMapInv.wf m.
Proof.
  intros ??? [(<-&<-&<-&<-&Ha&Hck&Hc) Hi Hn Hl Ht Hs _ _].
  unfold len in *. constructor; unfold SegmentMapInv.ids, SegmentMapInv.ranges, len in *;
    try (done || ints).
  - rewrite Hi. apply NoDup_fmap; [|apply NoDup_seq].
    intros x y [= ?%Nat2Z.inj]. done.
  - rewrite Hi. apply Forall_fmap, Forall_forall. intros k Hk%elem_of_seq. cbn. lia.
  - eapply Forall_impl; [exact Hs|]. by intros s [->| ->].
  - by rewrite Hc.
Qed.

(** ** How many segments it takes *)

(** One segment per maximal run of touching ranges, one per gap.  [opened] says
    that the last range seen can still be extended. *)
Fixpoint pieces (opened : bool) (cursor total : Z) (rs : list ByteRange.t) : nat :=
  match rs with
  | [] => if decide (cursor < total)%Z then 1 else 0
  | r :: rs =>
      if opened && bool_decide (ByteRange.start r = cursor)%Z
      then pieces true (ByteRange.end_ r) total rs
      else (if decide (cursor < ByteRange.start r)%Z then 2 else 1)
           + pieces true (ByteRange.end_ r) total rs
  end%nat.

(** The same count for ranges that do not touch, without the last gap. *)
Fixpoint gap_count (cursor : Z) (rs : list ByteRange.t) : nat :=
  match rs with
  | [] => 0
  | r :: rs => (if decide (cursor < ByteRange.start r)%Z then 2 else 1)
               + gap_count (ByteRange.end_ r) rs
  end%nat.

Lemma gap_count_app lo xs ys :
  gap_count lo (xs ++ ys) = (gap_count lo xs + gap_count (end_of lo xs) ys)%nat.
Proof. revert lo. induction xs as [|x xs IH]; intros lo; cbn; [done|]. rewrite IH. lia. Qed.

Lemma merge_durable_pieces total durable merged out :
  merge_durable total durable merged = Ok out →
  (gap_count 0 out + (if decide (end_of 0 out < total)%Z then 1 else 0) =
   gap_count 0 (reverse merged)
     + pieces (bool_decide (merged ≠ [])) (last_end merged) total durable)%nat.
Proof.
  revert merged. induction durable as [|r rest IH]; intros merged; cbn [merge_durable pieces].
  { intros [= <-]. done. }
  destruct (decide (total < ByteRange.end_ r)); [done|]. destruct merged as [|last merged].
  { intros ->%IH. rewrite last_end_cons. cbn. lia. }
  destruct (decide (ByteRange.start r < ByteRange.end_ last)); [done|]. rewrite last_end_cons. cbn [bool_decide decide andb].
  rewrite (bool_decide_eq_true_2 (last :: merged ≠ [])) by done. cbn [andb].
  destruct (decide (ByteRange.start r = ByteRange.end_ last)).
  - rewrite bool_decide_eq_true_2 by done.
    destruct (ByteRange.new _ _) as [joined|] eqn:Hj; [|done].
    apply ByteRange.new_Ok in Hj as (?&?&->). intros ->%IH.
    rewrite last_end_cons, !reverse_cons, !gap_count_app.
    rewrite bool_decide_eq_true_2 by done. cbn. lia.
  - rewrite bool_decide_eq_false_2 by done. intros ->%IH.
    rewrite last_end_cons, reverse_cons, gap_count_app.
    change (end_of 0 (reverse (last :: merged))) with (last_end (last :: merged)).
    rewrite last_end_cons, bool_decide_eq_true_2 by done. cbn. lia.
Qed.

Lemma fill_gaps_length merged cursor segs segs' c :
  fill_gaps merged cursor segs = Ok (segs', c) →
  c = end_of cursor merged ∧ length segs' = (length segs + gap_count cursor merged)%nat.
Proof.
  revert cursor segs. induction merged as [|r rest IH]; intros cursor segs; cbn.
  { intros [= <- <-]. split; [done|lia]. }
  unfold mbind, result_bind. case_decide.
  - destruct (ByteRange.new _ _) eqn:Hn; [|done]. intros [-> ->]%IH.
    unfold push. rewrite !length_app; cbn. lia.
  - intros [-> ->]%IH. unfold push. rewrite !length_app; cbn. lia.
Qed.

(** The whole function once the ranges are known to be good: only [maximum] can
    refuse them. *)
Lemma restore_run job generation total maximum durable :
  0 ≤ total ≤ i64_max → 1 ≤ maximum ≤ 262144 → Forall ByteRange.wf durable →
  ascending 0 durable → within total durable →
  ∃ m, length (segments m) = pieces false 0 total durable ∧
    restore job generation total maximum durable =
      if decide (maximum < Z.of_nat (pieces false 0 total durable)) then Err Capacity else Ok m.
Proof.
  intros Ht Hm Hd Ha Hw. unfold restore, new.
  rewrite bool_decide_eq_false_2 by lia. unfold refuse_if.
  assert (∃ segs, (if decide (total = 0) then Ok []
    else r ← ByteRange.new 0 total; Ok [Segment.Make (SegmentId.Make 1) r Pending])
      = @Ok DomainError _ segs) as [segs0 Hs0].
  { case_decide; [eauto|]. rewrite ByteRange.new_eq by lia. eexists. done. }
  cbn. unfold mbind, result_bind in *. rewrite Hs0.
  pose proof (merge_durable_is_ok total durable [] ltac:(lia) Hd (merged_ok_nil _)) as [_ Hok].
  destruct (merge_durable _ _ _) as [merged|] eqn:Hmd; [|discriminate (Hok (conj Ha Hw))].
  pose proof (merge_durable_pieces _ _ _ _ Hmd) as Hp. cbn in Hp.
  apply merge_durable_Ok in Hmd as (Ham&Hwm&Hcov); [|lia|done|apply merged_ok_nil].
  destruct (fill_gaps_Ok merged total 0 [] [] ltac:(lia) ltac:(done) Ham Hwm built_nil)
    as (segs&Hf&_). rewrite Hf. apply fill_gaps_length in Hf as [_ Hlen]. cbn in *.
  pose proof (ascending_end _ _ Ham). case_decide.
  - rewrite ByteRange.new_eq by lia.
    set (m := set_segments _ _). exists m.
    assert (length (segments m) = pieces false 0 total durable) as Hl.
    { cbn. unfold push. rewrite length_app; cbn. unfold last_end in Hp; cbn in Hp. lia. }
    split; [done|].
    match goal with |- context [bool_decide (maximum < Z.of_nat ?n)] =>
      change n with (length (segments m)) end.
    rewrite Hl. by case_bool_decide; destruct (decide (maximum < _)).
  - set (m := set_segments _ _). exists m.
    assert (length (segments m) = pieces false 0 total durable) as Hl.
    { cbn. unfold last_end in Hp; cbn in Hp. lia. }
    split; [done|].
    match goal with |- context [bool_decide (maximum < Z.of_nat ?n)] =>
      change n with (length (segments m)) end.
    rewrite Hl. by case_bool_decide; destruct (decide (maximum < _)).
Qed.
