(* ===== verification/SegmentsThm.v ===== *)
(** * What the segment map promises

    The theorems about [SegmentMap]: the partition invariant over every reachable
    map, which calls make bytes durable, tokens that are rejected for ever once
    consumed, and the crash-restart round trip of [restore]. *)

From S2P Require Import Prelude Domain Segments SegmentsInv SegmentsRestore.
Import SegmentMap SegmentMapInv.

(** ** Durable ranges under updates *)

Lemma durable_ranges_insert segs i s s' :
  segs !! i = Some s → Segment.state s ≠ Durable → Segment.state s' ≠ Durable →
  durable_ranges (<[i := s']> segs) = durable_ranges segs.
Proof.
  intros Hi Hs Hs'. pose proof (lookup_lt_Some _ _ _ Hi).
  rewrite insert_take_drop by done. rewrite <-(take_drop_middle _ _ _ Hi) at 3.
  unfold durable_ranges. by rewrite !filter_app, !filter_cons, !decide_False.
Qed.

Lemma durable_ranges_vec_insert segs i s :
  Segment.state s ≠ Durable → durable_ranges (vec_insert i s segs) = durable_ranges segs.
Proof.
  intros Hs. unfold vec_insert, durable_ranges.
  rewrite filter_app, filter_cons, decide_False by done.
  by rewrite <-filter_app, take_drop.
Qed.

Lemma durable_bytes_alt m : durable_bytes m = bytes (durable_ranges (segments m)).
Proof. unfold durable_bytes, bytes, durable_ranges. by rewrite <-list_fmap_compose. Qed.

Lemma durable_ranges_discard segs :
  durable_ranges ((λ s, if is_written (Segment.state s) then Segment.set_state Pending s else s)
    <$> segs) = durable_ranges segs.
Proof.
  unfold durable_ranges. induction segs as [|s segs IH]; [done|].
  rewrite fmap_cons, !filter_cons. destruct s as [i r st].
  destruct st; cbn; repeat case_decide; try done; cbn; by rewrite ?IH.
Qed.

(** The durable ranges of a map are disjoint parts of the object. *)
Lemma durable_bytes_bounds m : wf m → 0 ≤ durable_bytes m ≤ total m.
Proof.
  intros Hwf. pose proof (wf_tiles m Hwf) as Ht. unfold ranges in Ht.
  rewrite durable_bytes_alt. unfold bytes, durable_ranges.
  pose proof (tiles_sum _ _ _ Ht) as Hs. revert Hs. generalize (total m).
  assert (Forall (λ s, 0 ≤ ByteRange.len (Segment.range s)) (segments m)) as Hall.
  { apply Forall_forall. intros s Hs.
    apply (tiles_range _ _ _ (Segment.range s)) in Ht; [unfold ByteRange.len; lia|].
    by apply list_elem_of_fmap_2. }
  clear Ht Hwf. induction Hall as [|s segs Hs Hall IH]; intros t.
  - cbn. autorewrite with fhd. lia.
  - rewrite filter_cons. cbn. autorewrite with fhd. intros Ht.
    specialize (IH (t - 0 - ByteRange.len (Segment.range s)) ltac:(lia)).
    case_decide; cbn; autorewrite with fhd; lia.
Qed.

(** ** Committing *)

(** [make_durable] at distinct written segments adds exactly their ranges. *)
Lemma make_durable_ranges found segs :
  NoDup found.*1 →
  Forall (λ f, segs !! f.1 = Some f.2 ∧ Segment.state f.2 ≠ Durable) found →
  durable_ranges (make_durable segs found)
    ≡ₚ (Segment.range ∘ snd <$> found) ++ durable_ranges segs.
Proof.
  unfold make_durable. revert segs.
  induction found as [|[i s] found IH]; intros segs; [done|].
  rewrite fmap_cons, NoDup_cons, Forall_cons. cbn [foldl fst snd]. intros [Hni Hnd] [[Hi Hs] Hf].
  rewrite IH; [|done|].
  - assert (durable_ranges (alter (Segment.set_state Durable) i segs)
      ≡ₚ Segment.range s :: durable_ranges segs) as ->.
    { pose proof (lookup_lt_Some _ _ _ Hi). cbn in *.
      rewrite (alter_as_insert _ _ _ _ Hi), insert_take_drop by done.
      rewrite <-(take_drop_middle _ _ _ Hi) at 3. unfold durable_ranges.
      rewrite !filter_app, !filter_cons, decide_True, (decide_False (P := _ = Durable)) by done.
      rewrite !fmap_app; cbn. by rewrite <-Permutation_middle. }
    cbn. by rewrite <-Permutation_middle.
  - apply Forall_forall. intros [j s2] Hj. rewrite Forall_forall in Hf.
    rewrite list_lookup_alter_ne; [by apply Hf|]. cbn. intros ->.
    apply Hni. by apply (list_elem_of_fmap_2 fst) in Hj.
Qed.

(** The segments a pending checkpoint names are where the map says, still written. *)
Lemma checkpoint_found m c :
  wf m → checkpoint m = Some c →
  ∃ found, collect (index m) (Checkpoint.ids c) = Ok found ∧ NoDup found.*1 ∧
    Forall (λ f, segments m !! f.1 = Some f.2 ∧ is_written (Segment.state f.2) = true) found ∧
    Segment.range ∘ snd <$> found = (λ e, e.1.2) <$> Checkpoint.selection c.
Proof.
  intros Hwf Hc. destruct (wf_checkpoint m Hwf c Hc) as (_&->&_&Hnd&Hsel).
  revert Hnd. induction Hsel as [|e sel He Hsel IH]; intros Hnd.
  { exists []. split_and!; (done || constructor). }
  rewrite fmap_cons in Hnd. apply NoDup_cons in Hnd as [Hni Hnd].
  destruct (IH Hnd) as (found&Hcol&Hndf&Hall&Hr).
  apply list_elem_of_lookup in He as [i Hi].
  pose proof (index_lookup m i _ (wf_ids m Hwf) Hi) as Hix; cbn in Hix.
  exists ((i, Segment.Make e.1.1 e.1.2 (Written e.2)) :: found).
  rewrite fmap_cons. cbn [collect]. unfold mbind, result_bind in *. rewrite Hix, Hcol.
  split_and!; try done.
  - rewrite fmap_cons. apply NoDup_cons. split; [|done].
    intros ([j s]&Hj&Hin)%list_elem_of_fmap. cbn in Hj; subst j.
    rewrite Forall_forall in Hall. destruct (Hall _ Hin) as [Hs _]. cbn in Hs.
    rewrite Hi in Hs. injection Hs as <-.
    apply collect_Ok in Hcol. apply list_elem_of_lookup in Hin as [k Hk].
    destruct (Forall2_lookup_r _ _ _ _ _ Hcol Hk) as (id&Hid&Hx).
    apply index_Ok in Hx as [_ <-]. apply Hni. cbn in Hid. by eapply list_elem_of_lookup_2.
  - by constructor.
  - cbn. by rewrite Hr.
Qed.

Lemma prepare_sync_run m :
  checkpoint m = None → written_segments m ≠ [] → next_checkpoint m < u64_max →
  prepare_sync m =
    (Ok (SyncTicket.Make (job m) (generation m) (next_checkpoint m)
          (Segment.range <$> written_segments m) (selection_of (written_segments m))),
     set_checkpoint (Some (Checkpoint.Make (next_checkpoint m)
       (Segment.id <$> written_segments m) (selection_of (written_segments m)) false))
       (set_next_checkpoint (next_checkpoint m + 1) m)).
Proof.
  intros Hck Hne Hn. unfold prepare_sync. unfold_monad. rewrite Hck. cbn.
  rewrite bool_decide_eq_false_2 by done. unfold checked_add.
  by rewrite decide_True by lia.
Qed.

Lemma acknowledge_sync_run m c ticket :
  checkpoint m = Some c → Checkpoint.synced c = false →
  SyncTicket.job ticket = job m → SyncTicket.generation ticket = generation m →
  SyncTicket.sequence ticket = Checkpoint.sequence c →
  SyncTicket.selection ticket = Checkpoint.selection c →
  acknowledge_sync ticket m =
    (Ok (CommitBatch.Make (SyncTicket.job ticket) (SyncTicket.generation ticket)
          (SyncTicket.sequence ticket) (SyncTicket.ranges ticket) (SyncTicket.selection ticket)),
     set_checkpoint (Some (Checkpoint.Make (Checkpoint.sequence c) (Checkpoint.ids c)
       (Checkpoint.selection c) true)) m).
Proof.
  intros Hc Hs ????. unfold acknowledge_sync. unfold_monad. rewrite Hc. cbn.
  rewrite bool_decide_eq_false_2; [done|]. intros [?|[?|[?|[?|?]]]]; congruence.
Qed.

Lemma acknowledge_commit_run m c batch :
  wf m → checkpoint m = Some c → Checkpoint.synced c = true →
  CommitBatch.job batch = job m → CommitBatch.generation batch = generation m →
  CommitBatch.sequence batch = Checkpoint.sequence c →
  CommitBatch.selection batch = Checkpoint.selection c →
  ∃ m', acknowledge_commit batch m = (Ok tt, m').
Proof.
  intros Hwf Hc Hsy ????. destruct (checkpoint_found m c Hwf Hc) as (found&Hcol&_&Hall&_).
  unfold acknowledge_commit. unfold_monad. rewrite Hc. cbn.
  rewrite bool_decide_eq_false_2.
  2:{ intros [?|[?|[?|[?|?]]]]; congruence. }
  rewrite Hcol. destruct (existsb _ found) eqn:Hex; [|eauto].
  apply existsb_exists in Hex as (f&Hf%list_elem_of_In&Hw).
  rewrite Forall_forall in Hall. destruct (Hall f Hf) as [_ Hw']. by rewrite Hw' in Hw.
Qed.

Lemma acknowledge_commit_ranges m batch u m' :
  wf m → acknowledge_commit batch m = (Ok u, m') →
  durable_ranges (segments m') ≡ₚ
    ((λ e, e.1.2) <$> CommitBatch.selection batch) ++ durable_ranges (segments m).
Proof.
  intros Hwf Hac. apply acknowledge_commit_Ok in Hac as (c&found&Hc&_&_&_&_&->&Hcol&_&->).
  destruct (checkpoint_found m c Hwf Hc) as (found'&Hcol'&Hnd&Hall&<-).
  rewrite Hcol in Hcol'. injection Hcol' as <-. cbn. apply make_durable_ranges; [done|].
  eapply Forall_impl; [exact Hall|]. cbn. intros f [? Hw]. split; [done|].
  intros Hd. by rewrite Hd in Hw.
Qed.

(** ** Calls that do not commit *)

Lemma exec_durable_ranges o m :
  (∀ batch, o ≠ AcknowledgeCommit batch) → (∀ total, o ≠ ReplaceGeneration total) →
  durable_ranges (segments (exec o m).2) = durable_ranges (segments m).
Proof.
  intros Hnc Hnr. destruct (exec o m) as [[u|e] m'] eqn:He; [|by apply exec_atomic in He as ->].
  cbn. destruct o; unfold exec, run in He; repeat case_match; simplify_eq.
  - apply split_pending_Ok in H as (?&?&?&?&Hs&?&?&->&?&?&->). cbn.
    rewrite durable_ranges_vec_insert by done.
    eapply durable_ranges_insert; [done|..]; cbn; by rewrite Hs.
  - apply steal_largest_pending_Ok in H as [(?&->&?)|(?&?&?&?&?&?&?&H)]; [done|].
    apply split_pending_Ok in H as (?&?&?&?&Hs&?&?&->&?&?&->). cbn.
    rewrite durable_ranges_vec_insert by done.
    eapply durable_ranges_insert; [done|..]; cbn; by rewrite Hs.
  - apply lease_Ok in H as (i&s&Hi&?&Hs&?&?&->&->). cbn.
    eapply durable_ranges_insert; [done|..]; cbn; by rewrite ?Hs.
  - apply mark_written_Ok in H as (i&s&Hi&(_&_&_&->)%lease_index_Ok&->).
    by eapply durable_ranges_insert.
  - apply release_Ok in H as (i&s&Hi&(_&_&_&->)%lease_index_Ok&->).
    by eapply durable_ranges_insert.
  - apply discard_unsynced_Ok in H as [Hck ->]. apply durable_ranges_discard.
  - by apply prepare_sync_Ok in H as (?&?&?&->&->).
  - by apply acknowledge_sync_Ok in H as (c&Hc&?&?&?&?&?&->&->).
  - by destruct (Hnc batch).
  - unfold discard_checkpoint in H. by injection H as <- <-.
  - by destruct (Hnr new_total).
Qed.

(** ** Tokens that can never be accepted again *)

(** Histories: any number of calls, whatever each returned. *)
Definition exec_all (ops : list op) (m : t) : t := foldl (λ m o, (exec o m).2) m ops.

(** A lease of an older generation, or whose segment is no longer held by it. *)
Definition dead_lease (l : Lease.t) (m : t) : Prop :=
  Generation.get (Lease.generation l) < Generation.get (generation m) ∨
  (Lease.generation l = generation m ∧ Lease.attempt l < next_attempt m ∧
    Forall (λ s, Segment.id s = Lease.segment l →
      Segment.state s ≠ InFlight (Lease.worker l) (Lease.attempt l)) (segments m)).

(** A checkpoint token of an older generation or of a checkpoint that is gone. *)
Definition dead_ticket (g : Generation.t) (sequence : Z) (m : t) : Prop :=
  Generation.get g < Generation.get (generation m) ∨
  (g = generation m ∧ sequence < next_checkpoint m ∧
    ∀ c, checkpoint m = Some c → Checkpoint.sequence c ≠ sequence).

Lemma dead_lease_refused l m : dead_lease l m → lease_index m l = Err StaleToken.
Proof.
  intros Hd. unfold lease_index. unfold_monad. case_bool_decide as Hg; [done|].
  apply Decidable.not_or in Hg as [_ Hg]. apply dec_stable in Hg.
  destruct (index _ _) as [[i s]|] eqn:Hi; [|done]. cbn.
  rewrite bool_decide_eq_true_2; [done|]. right.
  apply index_Ok in Hi as [Hi Hid]. destruct Hd as [Hlt|(_&_&Hall)].
  - rewrite Hg in Hlt. lia.
  - rewrite Forall_lookup in Hall. by apply (Hall i).
Qed.

(** The condition on the segments survives every change a call can make to them. *)
Lemma dead_segments_exec l o m :
  wf m → Lease.attempt l < next_attempt m →
  (∀ total, o ≠ ReplaceGeneration total) →
  let P s := Segment.id s = Lease.segment l →
    Segment.state s ≠ InFlight (Lease.worker l) (Lease.attempt l) in
  Forall P (segments m) → Forall P (segments (exec o m).2).
Proof.
  intros Hwf Ha Hnr P Hall.
  destruct (exec o m) as [[u|e] m'] eqn:He; [|by apply exec_atomic in He as ->].
  assert (Hsplit : ∀ id at_ r m', split_pending id at_ m = (Ok r, m') → Forall P (segments m')).
  { intros id at_ r m'' (i&s&Hi&_&Hs&_&_&->&_&_&->)%split_pending_Ok. cbn.
    rewrite vec_insert_Permutation. constructor; [by intros ?|].
    apply Forall_insert; [done|]. unfold P; cbn. by rewrite Hs. }
  cbn. destruct o; unfold exec, run in He; repeat case_match; simplify_eq.
  - eauto.
  - apply steal_largest_pending_Ok in H as [(?&->&?)|(?&?&?&?&?&?&?&H)]; eauto.
  - apply lease_Ok in H as (i&s&Hi&?&Hs&?&?&->&->). cbn.
    apply Forall_insert; [done|]. intros _ [= ? ?]. lia.
  - apply mark_written_Ok in H as (i&s&Hi&_&->). by apply Forall_insert.
  - apply release_Ok in H as (i&s&Hi&_&->). by apply Forall_insert.
  - apply discard_unsynced_Ok in H as [Hck ->]. cbn. apply Forall_fmap.
    apply (Forall_impl _ _ _ Hall). intros [i r []] Hs; cbn in *; try apply Hs. by intros _.
  - by apply prepare_sync_Ok in H as (?&?&?&->&->).
  - by apply acknowledge_sync_Ok in H as (c&Hc&?&?&?&?&?&->&->).
  - apply acknowledge_commit_Ok in H as (c&found&?&?&?&?&?&?&?&?&->). cbn.
    apply Forall_lookup. intros j s. rewrite make_durable_lookup. rewrite Forall_lookup in Hall.
    case_decide; [|by apply Hall]. by intros (s'&?&->)%fmap_Some.
  - unfold discard_checkpoint in H. by injection H as <- <-.
  - by destruct (Hnr new_total).
Qed.

(** Counters never go back within a generation, and a generation only by one up. *)
Lemma exec_counters o m :
  wf m →
  ((∀ total, o ≠ ReplaceGeneration total) ∧ generation (exec o m).2 = generation m ∧
     next_attempt m ≤ next_attempt (exec o m).2 ∧
     next_checkpoint m ≤ next_checkpoint (exec o m).2 ∧
     ∀ c, checkpoint (exec o m).2 = Some c →
       (∃ c0, checkpoint m = Some c0 ∧ Checkpoint.sequence c0 = Checkpoint.sequence c)
       ∨ Checkpoint.sequence c = next_checkpoint m) ∨
  (exec o m).2 = m ∨ Generation.get (generation (exec o m).2) = Generation.get (generation m) + 1.
Proof.
  intros Hwf.
  destruct (exec o m) as [[u|e] m'] eqn:He; [|apply exec_atomic in He as ->; auto].
  cbn. destruct o; unfold exec, run in He; repeat case_match; simplify_eq;
    try (left; split; [done|]).
  - apply split_pending_Ok in H as (?&?&?&?&?&?&?&->&?&?&->). cbn. naive_solver lia.
  - apply steal_largest_pending_Ok in H as [(?&->&?)|(?&?&?&?&?&?&?&H)]; [naive_solver lia|].
    apply split_pending_Ok in H as (?&?&?&?&?&?&?&->&?&?&->). cbn. naive_solver lia.
  - apply lease_Ok in H as (i&s&Hi&?&Hs&?&?&->&->). cbn. naive_solver lia.
  - apply mark_written_Ok in H as (i&s&Hi&_&->). cbn. naive_solver lia.
  - apply release_Ok in H as (i&s&Hi&_&->). cbn. naive_solver lia.
  - apply discard_unsynced_Ok in H as [Hck ->]. cbn. naive_solver lia.
  - apply prepare_sync_Ok in H as (?&?&?&->&->). cbn. naive_solver lia.
  - apply acknowledge_sync_Ok in H as (c&Hc&?&?&?&?&?&->&->). cbn. naive_solver lia.
  - apply acknowledge_commit_Ok in H as (c&found&?&?&?&?&?&?&?&?&->). cbn. naive_solver lia.
  - unfold discard_checkpoint in H. injection H as <- <-. cbn. naive_solver lia.
  - right; right. apply replace_generation_Ok in H as (g&Hg&?&?&Hn).
    apply Generation.next_Ok in Hg as [_ <-]; [|apply Hwf].
    by apply map_new_Ok in Hn as (_&_&->).
Qed.

Lemma dead_lease_exec l o m : wf m → dead_lease l m → dead_lease l (exec o m).2.
Proof.
  intros Hwf Hd. destruct (exec_counters o m Hwf) as [(Hnr&Hg&Ha&_)|[->|Hg]]; [|done|].
  - unfold dead_lease. rewrite Hg. destruct Hd as [?|(?&?&Hall)]; [by left|right].
    split_and!; [done|lia|]. by apply dead_segments_exec.
  - left. rewrite Hg. destruct Hd as [?|(->&_)]; lia.
Qed.

Lemma dead_ticket_exec g q o m : wf m → dead_ticket g q m → dead_ticket g q (exec o m).2.
Proof.
  intros Hwf Hd. destruct (exec_counters o m Hwf) as [(Hnr&Hg&Ha&Hn&Hc)|[->|Hg]]; [|done|].
  - unfold dead_ticket. rewrite Hg. destruct Hd as [?|(?&?&Hck)]; [by left|right].
    split_and!; [done|lia|]. intros c [(c0&Hc0&<-)| ->]%Hc; [by apply Hck|lia].
  - left. rewrite Hg. destruct Hd as [?|(->&_)]; lia.
Qed.

(** Anything each call keeps, every history keeps. *)
Lemma exec_all_ind (P : t → Prop) ops m :
  (∀ o m, wf m → P m → P (exec o m).2) →
  wf m → Forall op_typed ops → P m → wf (exec_all ops m) ∧ P (exec_all ops m).
Proof.
  intros Hstep Hwf Hops. revert m Hwf. unfold exec_all.
  induction Hops as [|o ops Ho Hops IH]; intros m Hwf HP; cbn; [done|].
  apply IH; [by apply exec_wf|by apply Hstep].
Qed.

(** ** Restart *)

Lemma pieces_le_segments opened c a total segs :
  c ≤ a → tiles a total (Segment.range <$> segs) →
  (pieces opened c total (durable_ranges segs) ≤ length segs + if decide (c < a)%Z then 1 else 0)%nat.
Proof.
  revert opened c a. induction segs as [|s segs IH]; intros opened c a Hc.
  { unfold durable_ranges. cbn. intros ->. repeat case_decide; lia. }
  rewrite fmap_cons. cbn [tiles length]. intros (<-&?&Ht).
  unfold durable_ranges in *. rewrite filter_cons.
  destruct (decide (Segment.state s = Durable)).
  - rewrite fmap_cons. cbn [pieces].
    pose proof (IH true (ByteRange.end_ (Segment.range s)) (ByteRange.end_ (Segment.range s)) ltac:(done) Ht) as Hi.
    rewrite decide_False in Hi by lia. repeat case_match; lia.
  - pose proof (IH opened c (ByteRange.end_ (Segment.range s)) ltac:(lia) Ht) as Hi. repeat case_match; lia.
Qed.

Lemma tiles_ascending a b rs lo :
  lo ≤ a → tiles a b rs → ascending lo rs ∧ within b rs.
Proof.
  revert a lo. induction rs as [|r rs IH]; intros a lo Hlo; cbn; [by split; [|constructor]|].
  intros (<-&?&Ht). destruct (IH _ (ByteRange.end_ r) ltac:(done) Ht) as [??].
  split_and!; try done. constructor; [by eapply tiles_le|done].
Qed.

Lemma ascending_sublist lo xs ys : sublist xs ys → ascending lo ys → ascending lo xs.
Proof.
  intros Hs. revert lo. induction Hs as [|x xs ys Hs IH|x xs ys Hs IH]; intros lo; cbn; [done|..].
  - naive_solver.
  - intros (?&?&Ha). apply IH. clear -H H0 Ha.
    destruct ys; cbn in *; [done|]. naive_solver lia.
Qed.

Lemma Forall_sublist (P : ByteRange.t → Prop) xs ys : sublist xs ys → Forall P ys → Forall P xs.
Proof. induction 1; inversion 1; subst; auto. Qed.

Lemma durable_ranges_sublist segs : sublist (durable_ranges segs) (Segment.range <$> segs).
Proof.
  unfold durable_ranges. induction segs as [|s segs IH]; [constructor|].
  rewrite filter_cons. case_decide; cbn; by constructor.
Qed.

Lemma durable_ranges_good m :
  wf m → Forall ByteRange.wf (durable_ranges (segments m)) ∧
    ascending 0 (durable_ranges (segments m)) ∧ within (total m) (durable_ranges (segments m)).
Proof.
  intros Hwf. pose proof (wf_tiles m Hwf) as Ht. unfold ranges in Ht.
  pose proof (durable_ranges_sublist (segments m)) as Hsub.
  destruct (tiles_ascending 0 _ _ 0 ltac:(done) Ht) as [Ha Hw]. split_and!.
  - eapply Forall_sublist; [exact Hsub|]. apply Forall_forall. intros r Hr.
    apply (tiles_range _ _ _ r) in Ht as (?&?&?); [|done].
    pose proof (wf_total m Hwf). unfold ByteRange.wf. lia.
  - by eapply ascending_sublist.
  - by eapply Forall_sublist.
Qed.

(** The map [restore] builds from the durable ranges of a well-formed one. *)
Lemma restart_map m :
  wf m → ∃ m',
    restore (job m) (generation m) (total m) (maximum m) (durable_ranges (segments m)) = Ok m' ∧
    restored (job m) (generation m) (total m) (maximum m) (durable_ranges (segments m)) m' ∧
    len m' ≤ len m.
Proof.
  intros Hwf. destruct (durable_ranges_good m Hwf) as (Hd&Ha&Hw).
  pose proof (wf_total m Hwf). pose proof (wf_maximum m Hwf). pose proof (wf_len m Hwf) as Hl.
  pose proof (pieces_le_segments false 0 0 _ _ ltac:(done) (wf_tiles m Hwf)) as Hp.
  rewrite decide_False in Hp by lia. unfold len in *.
  destruct (restore_run (job m) (generation m) (total m) (maximum m)
    (durable_ranges (segments m))) as (m'&Hlen&He); [done..|].
  rewrite decide_False in He by lia. exists m'. split; [done|].
  apply restore_inv in He as (_&_&_&_&?); [|lia|done]. split; [done|lia].
Qed.

(** Everything is durable exactly when the durable bytes are the whole object. *)
Lemma all_durable_bytes m : wf m → all_durable m = true ↔ durable_bytes m = total m.
Proof.
  intros Hwf. pose proof (wf_tiles m Hwf) as Ht. unfold ranges in Ht.
  rewrite durable_bytes_alt. unfold bytes, durable_ranges, all_durable.
  pose proof (tiles_sum _ _ _ Ht) as Hs. rewrite Z.sub_0_r in Hs. rewrite <-Hs.
  assert (Forall (λ s, 0 < ByteRange.len (Segment.range s)) (segments m)) as Hall.
  { apply Forall_forall. intros s Hin.
    apply (tiles_range _ _ _ (Segment.range s)) in Ht; [unfold ByteRange.len; lia|].
    by apply list_elem_of_fmap_2. }
  clear Hs Ht Hwf. induction Hall as [|s segs Hs Hall IH]; [done|].
  rewrite filter_cons. cbn [forallb]. rewrite andb_true_iff, bool_decide_eq_true, IH.
  assert (sum_Z (ByteRange.len <$> (Segment.range <$> filter (λ s, Segment.state s = Durable) segs))
    ≤ sum_Z (ByteRange.len <$> (Segment.range <$> segs))) as Hle.
  { clear -Hall. induction Hall as [|q segs Hq Hall IH]; [done|].
    rewrite filter_cons. case_decide; cbn; autorewrite with fhd; lia. }
  case_decide; cbn; autorewrite with fhd; [intuition lia|].
  split; [by intros []|]. intros; lia.
Qed.

(** ** The theorems *)

(** C19: every map the program can reach, by construction, restore or any sequence of calls,
    partitions [0, total) exactly and keeps its counters, identifiers and pending
    checkpoint consistent; so the durable bytes never exceed the total. *)
Theorem reachable_map_is_partition m :
  reachable m → wf m ∧ 0 ≤ durable_bytes m ≤ total m ∧ len m ≤ maximum m.
Proof.
  intros Hr. assert (wf m) as Hwf.
  { induction Hr as [job g tot mx m Hg Ht Hn|job g tot mx d m Hg Ht Hd Hn|o m Hr IH Ho].
    - by eapply wf_new.
    - apply restore_inv in Hn as (?&?&_&_&Hres); [|unfold u64 in Ht; lia|done].
      unfold u64 in Ht. eapply restored_wf; [..|exact Hres]; done || lia.
    - by apply exec_wf. }
  split_and!; try apply durable_bytes_bounds; try apply Hwf; done.
Qed.

(** C20: a commit that is accepted makes durable exactly the ranges of the synced
    selection the batch carries, on top of what was durable, byte for byte. *)
Theorem commit_adds_exactly_the_selection m batch m' :
  wf m → acknowledge_commit batch m = (Ok tt, m') →
  durable_ranges (segments m') ≡ₚ
    ((λ e, e.1.2) <$> CommitBatch.selection batch) ++ durable_ranges (segments m) ∧
  durable_bytes m' = durable_bytes m + bytes ((λ e, e.1.2) <$> CommitBatch.selection batch) ∧
  checkpoint m' = None.
Proof.
  intros Hwf Hc. pose proof (acknowledge_commit_ranges m batch _ m' Hwf Hc) as Hp.
  split_and!; [done| |].
  - rewrite !durable_bytes_alt, Z.add_comm, <-bytes_app. unfold bytes, sum_Z.
    apply foldr_permutation; try apply _; [intros; lia|]. by rewrite Hp.
  - by apply acknowledge_commit_Ok in Hc as (?&?&?&?&?&?&?&?&?&?&->).
Qed.

(** C21: no other call changes which bytes are durable, accepted or refused. *)
Theorem only_commit_makes_durable o m :
  (∀ batch, o ≠ AcknowledgeCommit batch) → (∀ total, o ≠ ReplaceGeneration total) →
  durable_ranges (segments (exec o m).2) = durable_ranges (segments m).
Proof. apply exec_durable_ranges. Qed.

(** A refused call leaves the map exactly as it was, whichever method refused. *)
Theorem refused_call_changes_nothing o m e m' : exec o m = (Err e, m') → m' = m.
Proof. apply exec_atomic. Qed.

(** Once a lease has been used, by [mark_written] or by [release], no later history
    makes any method accept it again. *)
Theorem consumed_lease_is_dead m l u m' ops :
  wf m → mark_written l m = (Ok u, m') ∨ release l m = (Ok u, m') →
  Forall op_typed ops →
  mark_written l (exec_all ops m') = (Err StaleToken, exec_all ops m') ∧
  release l (exec_all ops m') = (Err StaleToken, exec_all ops m').
Proof.
  intros Hwf Hcall Hops.
  assert (∃ st i s, m' = set_segments (<[i := Segment.set_state st s]> (segments m)) m ∧
    lease_index m l = Ok (i, s) ∧ ∀ w, st ≠ InFlight w (Lease.attempt l)) as
    (st&i&s&Hm'&Hix&Hst).
  { destruct Hcall as [Hc|Hc].
    - apply mark_written_Ok in Hc as (i&s&?&?&->). by eexists _, _, _.
    - apply release_Ok in Hc as (i&s&?&?&->). by eexists _, _, _. }
  assert (wf m') as Hwf'.
  { destruct Hcall as [Hc|Hc].
    - pose proof (exec_wf (MarkWritten l) m Hwf I) as H. cbn in H. unfold run in H. by rewrite Hc in H.
    - pose proof (exec_wf (Release l) m Hwf I) as H. cbn in H. unfold run in H. by rewrite Hc in H. }
  assert (dead_lease l m') as Hdead.
  { apply lease_index_Ok in Hix as (_&Hg&Hi&Hs). right. subst m'; cbn. split_and!; [done|..].
    - pose proof (wf_attempts m Hwf) as Hat. rewrite Forall_lookup in Hat.
      specialize (Hat _ _ Hi). subst s. cbn in Hat. lia.
    - apply Forall_lookup. intros j s' Hj Hid.
      destruct (decide (i = j)) as [->|Hne].
      + rewrite list_lookup_insert_eq in Hj by (by eapply lookup_lt_Some).
        injection Hj as <-. cbn. apply Hst.
      + rewrite list_lookup_insert_ne in Hj by done. exfalso. apply Hne.
        eapply (NoDup_lookup (ids m)); [apply Hwf|..]; unfold ids; rewrite list_lookup_fmap.
        * by rewrite Hi.
        * rewrite Hj. cbn. by rewrite Hid, Hs. }
  destruct (exec_all_ind (dead_lease l) ops m' (dead_lease_exec l) Hwf' Hops Hdead) as [_ Hd].
  apply dead_lease_refused in Hd. unfold mark_written, release. unfold_monad. by rewrite Hd.
Qed.

(** Once a checkpoint has been committed or given up, its sync ticket and its commit
    batch are refused in every later state, whatever happened in between. *)
Theorem finished_checkpoint_is_dead m c m' ops ticket batch :
  wf m → checkpoint m = Some c →
  (∃ b, acknowledge_commit b m = (Ok tt, m')) ∨ discard_checkpoint m = (Ok tt, m') →
  Forall op_typed ops →
  SyncTicket.generation ticket = generation m → SyncTicket.sequence ticket = Checkpoint.sequence c →
  CommitBatch.generation batch = generation m → CommitBatch.sequence batch = Checkpoint.sequence c →
  acknowledge_sync ticket (exec_all ops m') = (Err StaleToken, exec_all ops m') ∧
  acknowledge_commit batch (exec_all ops m') = (Err StaleToken, exec_all ops m').
Proof.
  intros Hwf Hc Hend Hops Htg Hts Hbg Hbs.
  assert (wf m' ∧ checkpoint m' = None ∧ generation m' = generation m
    ∧ next_checkpoint m' = next_checkpoint m) as (Hwf'&Hn&Hg&Hnc).
  { destruct Hend as [[b Hb]|Hd].
    - apply acknowledge_commit_Ok in Hb as (?&?&?&?&?&?&?&?&?&?&->).
      split_and!; try done. by apply wf_commit.
    - injection Hd as <-. split_and!; try done. by apply wf_drop_checkpoint. }
  pose proof (wf_checkpoint m Hwf c Hc) as ([_ Hlt]&_).
  assert (dead_ticket (generation m) (Checkpoint.sequence c) m') as Hdead.
  { right. rewrite Hg, Hnc, Hn. split_and!; done. }
  destruct (exec_all_ind _ ops m' (dead_ticket_exec _ _) Hwf' Hops Hdead) as [_ Hd].
  generalize dependent (exec_all ops m'). intros mm Hd.
  assert (∀ c', checkpoint mm = Some c' → generation m = generation mm →
    Checkpoint.sequence c' ≠ Checkpoint.sequence c) as Hne.
  { intros c' Hc' Hgen. destruct Hd as [?|(_&_&H)]; [rewrite Hgen in *; lia|by apply H]. }
  unfold acknowledge_sync, acknowledge_commit. unfold_monad.
  destruct (checkpoint mm) as [c'|] eqn:Hck; cbn; [|done].
  rewrite Htg, Hts, Hbg, Hbs.
  destruct (decide (generation m = generation mm)) as [He|He].
  - specialize (Hne c' eq_refl He). rewrite !bool_decide_eq_true_2 by tauto. done.
  - rewrite !bool_decide_eq_true_2 by tauto. done.
Qed.

(** [restore] accepts a list of persisted ranges exactly when it is ascending, without
    overlap, inside the object and small enough once touching ranges merge; the map
    it then builds is a partition whose durable bytes are the union of the ranges
    and where everything else is pending. *)
Theorem restore_accepts_exactly job generation total maximum durable :
  u64 total → Forall ByteRange.wf durable →
  (is_ok (restore job generation total maximum durable) = true ↔
    total ≤ i64_max ∧ 1 ≤ maximum ≤ 262144 ∧ ascending 0 durable ∧ within total durable ∧
    Z.of_nat (pieces false 0 total durable) ≤ maximum) ∧
  ∀ m, restore job generation total maximum durable = Ok m →
    restored job generation total maximum durable m ∧
    length (segments m) = pieces false 0 total durable.
Proof.
  intros Ht Hd. unfold u64 in Ht. split.
  - split.
    + destruct (restore _ _ _ _ _) as [m|] eqn:Hr; [|done]. intros _.
      pose proof (restore_inv _ _ _ _ _ _ (proj1 Ht) Hd Hr) as (?&?&?&?&_).
      destruct (restore_run job generation total maximum durable) as (m'&_&He); [lia|done..|].
      rewrite He in Hr. case_decide; [done|]. split_and!; (done || lia).
    + intros (?&?&?&?&?).
      destruct (restore_run job generation total maximum durable) as (m'&_&He); [lia|done..|].
      rewrite He, decide_False by lia. done.
  - intros m Hr. pose proof (restore_inv _ _ _ _ _ _ (proj1 Ht) Hd Hr) as (?&?&?&?&Hres).
    split; [done|].
    destruct (restore_run job generation total maximum durable) as (m'&Hl&He); [lia|done..|].
    rewrite He in Hr. case_decide; [done|]. by injection Hr as <-.
Qed.

(** Restarting from the durable ranges of any well-formed map always succeeds and
    loses nothing durable: the same bytes, the same count, everything else pending. *)
Theorem restart_keeps_what_was_durable m :
  wf m → ∃ m',
    restore (job m) (generation m) (total m) (maximum m) (durable_ranges (segments m)) = Ok m' ∧
    (∀ b, covered (durable_ranges (segments m')) b ↔ covered (durable_ranges (segments m)) b) ∧
    durable_bytes m' = durable_bytes m ∧
    Forall (λ s, Segment.state s = Pending ∨ Segment.state s = Durable) (segments m') ∧
    len m' ≤ len m.
Proof.
  intros Hwf. destruct (restart_map m Hwf) as (m'&Hr&[_ _ _ _ _ Hst Hdur Hb]&Hl).
  exists m'. split_and!; [done..| |done|done]. by rewrite Hb, durable_bytes_alt.
Qed.

(** With no checkpoint pending, a full checkpoint round (prepare, sync, commit) never
    fails on the map's account, and leaves no written segment behind. *)
Theorem checkpoint_round_succeeds m :
  wf m → checkpoint m = None → has_unsynced m = true → next_checkpoint m < u64_max →
  ∃ ticket m1 batch m2 m3,
    prepare_sync m = (Ok ticket, m1) ∧ acknowledge_sync ticket m1 = (Ok batch, m2) ∧
    acknowledge_commit batch m2 = (Ok tt, m3) ∧
    durable_ranges (segments m3) ≡ₚ SyncTicket.ranges ticket ++ durable_ranges (segments m) ∧
    wf m3.
Proof.
  intros Hwf Hck Hun Hn.
  assert (written_segments m ≠ []) as Hne.
  { apply existsb_exists in Hun as (s&Hs%list_elem_of_In&Hw). intros Hnil.
    assert (s ∈ written_segments m) as Hin by (by apply list_elem_of_filter).
    rewrite Hnil in Hin. by apply elem_of_nil in Hin. }
  pose proof (wf_prepare m Hwf Hne ltac:(lia)) as Hwf1.
  pose proof (prepare_sync_run m Hck Hne Hn) as H1.
  set (m1 := set_checkpoint _ _) in H1, Hwf1. set (ticket := SyncTicket.Make _ _ _ _ _) in H1.
  pose proof (acknowledge_sync_run m1 _ ticket eq_refl eq_refl eq_refl eq_refl eq_refl eq_refl)
    as H2. set (batch := CommitBatch.Make _ _ _ _ _) in H2. set (m2 := set_checkpoint _ m1) in H2.
  assert (wf m2) as Hwf2.
  { pose proof (exec_wf (AcknowledgeSync ticket) m1 Hwf1 I) as Hwf2.
    unfold exec, run in Hwf2. by rewrite H2 in Hwf2. }
  destruct (acknowledge_commit_run m2 _ batch Hwf2 eq_refl eq_refl eq_refl eq_refl eq_refl eq_refl)
    as [m3 H3].
  exists ticket, m1, batch, m2, m3. split_and!; [done..| |].
  - rewrite (acknowledge_commit_ranges _ _ _ _ Hwf2 H3). cbn. unfold selection_of.
    by rewrite <-list_fmap_compose.
  - apply acknowledge_commit_Ok in H3 as (?&?&?&?&?&?&?&?&?&?&->). by apply wf_commit.
Qed.

(** Stealing splits the largest pending segment into two halves of at least [minimum]
    bytes each, adding one segment and moving no byte; it answers [None] only when
    no pending segment is twice the minimum. *)
Theorem steal_halves_the_largest m minimum r m' :
  wf m → 1 ≤ minimum → steal_largest_pending minimum m = (Ok r, m') →
  match r with
  | None => m' = m ∧ Forall (λ s, Segment.state s = Pending →
      ByteRange.len (Segment.range s) < minimum * 2) (segments m)
  | Some new_id => len m' = len m + 1 ∧ ∃ s,
      s ∈ segments m ∧ Segment.state s = Pending ∧
      Forall (λ q, Segment.state q = Pending →
        ByteRange.len (Segment.range q) ≤ ByteRange.len (Segment.range s)) (segments m) ∧
      ∃ left right,
        Segment.Make (Segment.id s) left Pending ∈ segments m' ∧
        Segment.Make new_id right Pending ∈ segments m' ∧
        ByteRange.split (Segment.range s) (ByteRange.start right) = Ok (left, right) ∧
        minimum ≤ ByteRange.len left ∧ minimum ≤ ByteRange.len right ∧
        ByteRange.len right - ByteRange.len left ∈ [0; 1]
  end.
Proof.
  intros Hwf Hmin [(->&->&?)|(s&new_id&->&Hs&Hp&Hl&Hmax&Hsp)]%steal_largest_pending_Ok; [done|].
  apply split_pending_Ok in Hsp as (i&s'&Hi&Hid&Hs'&_&_&->&Hat&Hend&->).
  assert (s' = s) as ->.
  { apply list_elem_of_lookup in Hs as [j Hj].
    assert (i = j); [|naive_solver].
    eapply (NoDup_lookup (ids m)); [apply Hwf|..]; unfold ids; rewrite list_lookup_fmap.
    - by rewrite Hi.
    - rewrite Hj. cbn. by rewrite Hid. }
  pose proof (lookup_lt_Some _ _ _ Hi). cbn. split.
  { unfold len. cbn. rewrite vec_insert_Permutation. cbn. rewrite length_insert. lia. }
  exists s. split_and!; [done..|]. eexists _, (ByteRange.Make _ _). split_and!.
  - rewrite vec_insert_Permutation. apply elem_of_cons; right.
    apply list_elem_of_lookup. exists i. rewrite list_lookup_insert_eq by done.
    unfold Segment.set_range. by rewrite Hp.
  - rewrite vec_insert_Permutation. by apply list_elem_of_here.
  - apply ByteRange.split_Ok. split_and!; cbn; (done || lia).
  - unfold ByteRange.len in *; cbn. Z.to_euclidean_division_equations. lia.
  - unfold ByteRange.len in *; cbn. Z.to_euclidean_division_equations. lia.
  - unfold ByteRange.len in *; cbn. set_unfold. Z.to_euclidean_division_equations. lia.
Qed.

(** ** Witnesses

    One object of 100 bytes, cut at 50, its first half fetched by worker 7. *)
Definition example_new : t :=
  Make (JobId.Make 1) Generation.initial 100 8
    [Segment.Make (SegmentId.Make 1) (ByteRange.Make 0 100) Pending] 2 1 1 None.
Definition example_lease : Lease.t :=
  Lease.Make (JobId.Make 1) Generation.initial (SegmentId.Make 1) 1 7 (ByteRange.Make 0 50).
Definition example_selection : Selection := [(SegmentId.Make 1, ByteRange.Make 0 50, 1)].
Definition example_ticket : SyncTicket.t :=
  SyncTicket.Make (JobId.Make 1) Generation.initial 1 [ByteRange.Make 0 50] example_selection.
Definition example_batch : CommitBatch.t :=
  CommitBatch.Make (JobId.Make 1) Generation.initial 1 [ByteRange.Make 0 50] example_selection.
Definition example_leased : t :=
  exec_all [SplitPending (SegmentId.Make 1) 50; TakeLease (SegmentId.Make 1) 7] example_new.
Definition example_written : t := exec_all [MarkWritten example_lease] example_leased.
Definition example_synced : t :=
  exec_all [PrepareSync; AcknowledgeSync example_ticket] example_written.

Lemma example_new_wf : wf example_new.
Proof. apply (wf_new (JobId.Make 1) Generation.initial 100 8); [split; cbn; ints|unfold u64; ints|done]. Qed.

Lemma example_exec_wf ops m : wf m → Forall op_typed ops → wf (exec_all ops m).
Proof. intros. by apply (exec_all_ind (λ _, True)). Qed.

Ltac typed_ops := repeat constructor; cbn; unfold u64; ints.

Lemma example_leased_wf : wf example_leased.
Proof. apply example_exec_wf; [apply example_new_wf|typed_ops]. Qed.
Lemma example_written_wf : wf example_written.
Proof. apply example_exec_wf; [apply example_leased_wf|typed_ops]. Qed.
Lemma example_synced_wf : wf example_synced.
Proof. apply example_exec_wf; [apply example_written_wf|typed_ops]. Qed.

Lemma reachable_map_is_partition_witness :
  wf example_leased ∧ 0 ≤ durable_bytes example_leased ≤ total example_leased
    ∧ len example_leased ≤ maximum example_leased.
Proof.
  apply reachable_map_is_partition. unfold example_leased, exec_all; cbn [foldl].
  repeat (apply reachable_step; [|cbn; unfold u64; ints]).
  apply (reachable_new (JobId.Make 1) Generation.initial 100 8);
    [split; cbn; ints|unfold u64; ints|reflexivity].
Defined.

Lemma commit_adds_exactly_the_selection_witness :
  durable_bytes (acknowledge_commit example_batch example_synced).2 =
    durable_bytes example_synced + 50.
Proof.
  apply (commit_adds_exactly_the_selection example_synced example_batch
    (acknowledge_commit example_batch example_synced).2); [apply example_synced_wf|reflexivity].
Defined.

Lemma only_commit_makes_durable_witness :
  durable_ranges (segments (exec PrepareSync example_written).2)
    = durable_ranges (segments example_written).
Proof. apply only_commit_makes_durable; intros ? [=]. Defined.

Lemma refused_call_changes_nothing_witness :
  exec (MarkWritten example_lease) example_written = (Err StaleToken, example_written)
  ∧ example_written = example_written.
Proof.
  split; [reflexivity|].
  apply (refused_call_changes_nothing (MarkWritten example_lease) _ StaleToken). reflexivity.
Defined.

Lemma consumed_lease_is_dead_witness :
  mark_written example_lease (exec_all [DiscardUnsynced; TakeLease (SegmentId.Make 1) 7]
    (mark_written example_lease example_leased).2)
  = (Err StaleToken, exec_all [DiscardUnsynced; TakeLease (SegmentId.Make 1) 7]
    (mark_written example_lease example_leased).2).
Proof.
  apply (consumed_lease_is_dead example_leased example_lease tt); [apply example_leased_wf| |typed_ops].
  left. reflexivity.
Defined.

Lemma finished_checkpoint_is_dead_witness :
  acknowledge_commit example_batch (exec_all [PrepareSync]
    (acknowledge_commit example_batch example_synced).2)
  = (Err StaleToken, exec_all [PrepareSync] (acknowledge_commit example_batch example_synced).2).
Proof.
  refine (proj2 (finished_checkpoint_is_dead example_synced
    (Checkpoint.Make 1 [SegmentId.Make 1] example_selection true) _ _ example_ticket example_batch
    example_synced_wf _ _ _ _ _ _ _)); try reflexivity.
  - left. exists example_batch. reflexivity.
  - typed_ops.
Defined.

Lemma restore_accepts_exactly_witness :
  is_ok (restore (JobId.Make 1) Generation.initial 100 8
    [ByteRange.Make 0 20; ByteRange.Make 20 50]) = true.
Proof.
  apply restore_accepts_exactly; [unfold u64; ints| |].
  - repeat constructor; cbn; ints.
  - split_and!; try (cbn; lia); try (vm_compute; congruence).
    repeat constructor; cbn; ints.
Defined.

Lemma restart_keeps_what_was_durable_witness :
  ∃ m', restore (JobId.Make 1) Generation.initial 100 8 [] = Ok m'
    ∧ durable_bytes m' = 0.
Proof.
  destruct (restart_keeps_what_was_durable example_written example_written_wf)
    as (m'&Hr&_&Hb&_). exists m'. split; [exact Hr|exact Hb].
Defined.

Lemma checkpoint_round_succeeds_witness :
  ∃ ticket m1, prepare_sync example_written = (Ok ticket, m1).
Proof.
  destruct (checkpoint_round_succeeds example_written example_written_wf)
    as (ticket&m1&_&_&_&H&_); [reflexivity|reflexivity|reflexivity|].
  exists ticket, m1. exact H.
Defined.

Lemma steal_halves_the_largest_witness :
  len (steal_largest_pending 1 example_new).2 = len example_new + 1.
Proof.
  apply (steal_halves_the_largest example_new 1 (Some (SegmentId.Make 2))
    (steal_largest_pending 1 example_new).2); [apply example_new_wf|lia|reflexivity].
Defined.
