(* ===== verification/JobMachine.v ===== *)
(** * The job state machine

    [src/crates/domain/src/job.rs]: a job's lifecycle, the events that record its
    decisions, and its access to the segment map.  [execute] is the one transition
    function; [decide] runs it on a snapshot and returns an event, [apply] replays
    an event and rejects any drift, [restore] rebuilds a persisted job. *)

From S2P Require Import Prelude Domain Segments.

Module JobState.
Inductive t : Type :=
| Queued | Probing | Transferring | Stopping | Paused | RetryWait | NeedsAction
| Verifying | Publishing | Cancelling | Failed | Completed | Cancelled.
#[global] Instance t_eq_dec : EqDecision t.
Proof. solve_decision. Defined.
End JobState.

Module StopReason.
Inductive t : Type :=
| SourceChanged | Authentication | Storage | Integrity | Network | Policy | Unknown
| Destination.
#[global] Instance t_eq_dec : EqDecision t.
Proof. solve_decision. Defined.
End StopReason.

Module StopTarget.
Inductive t : Type :=
| Verifying | Queued | Paused | RetryWait (at_tick : Z)
| NeedsAction (reason : StopReason.t) | Failed (reason : StopReason.t).
#[global] Instance t_eq_dec : EqDecision t.
Proof. solve_decision. Defined.
Definition rank (s : t) : Z :=
  match s with
  | Verifying => 0
  | Queued => 1
  | Paused => 2
  | RetryWait _ => 3
  | NeedsAction _ => 4
  | Failed _ => 5
  end.
Definition raise (self other : t) : t :=
  match self, other with
  | RetryWait a, RetryWait b => RetryWait (Z.max a b)
  | _, _ => if decide (rank self < rank other) then other else self
  end.
End StopTarget.

Module JobCommand.
Inductive t : Type :=
| Start
| ProbeSucceeded (total max_segments : Z) (validator : option digest32)
| Pause
| Resume
| Cancel
| Preempt
| AllSegmentsDurable
| Retry (at_tick : Z)
| RequireAction (reason : StopReason.t)
| Fail (reason : StopReason.t)
| RepresentationChanged
| WorkersDrained
| RetryDue (now_tick : Z)
| VerificationPassed
| PublishCommitted
| CleanupFinished
| ReplaceRepresentation.
#[global] Instance t_eq_dec : EqDecision t.
Proof. solve_decision. Defined.
End JobCommand.

Module JobProjection.
Record t : Type := Make {
  state : JobState.t;
  generation : Generation.t;
  reason : option StopReason.t;
  retry_at : option Z;
  stop : option StopTarget.t;
  replace_on_drain : bool;
  attempts : Z;
  durable_bytes : Z;
  validator : option digest32 }.
#[global] Instance t_eq_dec : EqDecision t.
Proof. solve_decision. Defined.
End JobProjection.

Module JobEvent.
Record t : Type := Make {
  job : JobId.t;
  version : Z;
  from : JobState.t;
  to : JobState.t;
  generation : Generation.t;
  command : JobCommand.t;
  outcome : JobProjection.t }.
#[global] Instance t_eq_dec : EqDecision t.
Proof. solve_decision. Defined.
End JobEvent.

Module JobRecord.
Record t : Type := Make {
  id : JobId.t;
  spec : JobSpec.t;
  version : Z;
  state : JobState.t;
  generation : Generation.t;
  reason : option StopReason.t;
  retry_at : option Z;
  stop : option StopTarget.t;
  replace_on_drain : bool;
  attempts : Z;
  plan : option (Z * Z);
  validator : option digest32;
  durable : list ByteRange.t }.
#[global] Instance t_eq_dec : EqDecision t.
Proof. solve_decision. Defined.
End JobRecord.

Module Job.
Import JobState.

Record t : Type := Make {
  id : JobId.t;
  spec : JobSpec.t;
  state : JobState.t;
  generation : Generation.t;
  version : Z;
  reason : option StopReason.t;
  retry_at : option Z;
  stop : option StopTarget.t;
  replace_on_drain : bool;
  attempts : Z;
  validator : option digest32;
  segments : option SegmentMap.t }.

(** Assignments to single fields. *)
Definition set_state v j := Make (id j) (spec j) v (generation j) (version j) (reason j)
  (retry_at j) (stop j) (replace_on_drain j) (attempts j) (validator j) (segments j).
Definition set_generation v j := Make (id j) (spec j) (state j) v (version j) (reason j)
  (retry_at j) (stop j) (replace_on_drain j) (attempts j) (validator j) (segments j).
Definition set_version v j := Make (id j) (spec j) (state j) (generation j) v (reason j)
  (retry_at j) (stop j) (replace_on_drain j) (attempts j) (validator j) (segments j).
Definition set_reason v j := Make (id j) (spec j) (state j) (generation j) (version j) v
  (retry_at j) (stop j) (replace_on_drain j) (attempts j) (validator j) (segments j).
Definition set_retry_at v j := Make (id j) (spec j) (state j) (generation j) (version j) (reason j)
  v (stop j) (replace_on_drain j) (attempts j) (validator j) (segments j).
Definition set_stop v j := Make (id j) (spec j) (state j) (generation j) (version j) (reason j)
  (retry_at j) v (replace_on_drain j) (attempts j) (validator j) (segments j).
Definition set_replace_on_drain v j := Make (id j) (spec j) (state j) (generation j) (version j)
  (reason j) (retry_at j) (stop j) v (attempts j) (validator j) (segments j).
Definition set_attempts v j := Make (id j) (spec j) (state j) (generation j) (version j) (reason j)
  (retry_at j) (stop j) (replace_on_drain j) v (validator j) (segments j).
Definition set_validator v j := Make (id j) (spec j) (state j) (generation j) (version j) (reason j)
  (retry_at j) (stop j) (replace_on_drain j) (attempts j) v (segments j).
Definition set_segments v j := Make (id j) (spec j) (state j) (generation j) (version j) (reason j)
  (retry_at j) (stop j) (replace_on_drain j) (attempts j) (validator j) v.

Definition snapshot (j : t) : t :=
  Make (id j) (spec j) (state j) (generation j) (version j) (reason j) (retry_at j) (stop j)
    (replace_on_drain j) (attempts j) (validator j) (SegmentMap.snapshot <$> segments j).

Definition new (id : JobId.t) (spec : JobSpec.t) : t :=
  Make id spec Queued Generation.initial 0 None None None false 0 None None.

(** [Option::is_some_and] of a segment-map query. *)
Definition map_is (f : SegmentMap.t → bool) (j : t) : bool :=
  match segments j with Some m => f m | None => false end.

Definition consistent (r : JobRecord.t) : bool :=
  let st := JobRecord.state r in
  let planned := bool_decide (is_Some (JobRecord.plan r)) in
  eqb (bool_decide (is_Some (JobRecord.stop r))) (bool_decide (st = Stopping))
  && (negb (JobRecord.replace_on_drain r) || bool_decide (st = Stopping))
  && eqb (bool_decide (is_Some (JobRecord.retry_at r))) (bool_decide (st = RetryWait))
  && (bool_decide (is_Some (JobRecord.reason r)) || negb (bool_decide (st ∈ [NeedsAction; Failed])))
  && (planned || negb (bool_decide (st ∈ [Transferring; Verifying; Publishing; Completed])))
  && (planned || (bool_decide (JobRecord.durable r = [])
                  && bool_decide (JobRecord.validator r = None)))
  && match JobRecord.plan r with
     | None => true
     | Some (total, _) => bool_decide (total ≤ JobSpec.max_bytes (JobRecord.spec r))
     end.

Definition restore (r : JobRecord.t) : result DomainError t :=
  _ ← refuse_if (negb (consistent r)) InvalidInput;
  segs ← transpose ((λ p, SegmentMap.restore (JobRecord.id r) (JobRecord.generation r) p.1 p.2
                        (JobRecord.durable r)) <$> JobRecord.plan r);
  _ ← refuse_if (bool_decide (JobRecord.state r ∈ [Verifying; Publishing; Completed])
        && negb (match segs with Some m => SegmentMap.all_durable m | None => false end))
        InvalidInput;
  Ok (Make (JobRecord.id r) (JobRecord.spec r) (JobRecord.state r) (JobRecord.generation r)
    (JobRecord.version r) (JobRecord.reason r) (JobRecord.retry_at r) (JobRecord.stop r)
    (JobRecord.replace_on_drain r) (JobRecord.attempts r) (JobRecord.validator r) segs).

Definition plan (j : t) : option (Z * Z) :=
  (λ m, (SegmentMap.total m, SegmentMap.maximum m)) <$> segments j.

Definition projection (j : t) : JobProjection.t :=
  JobProjection.Make (state j) (generation j) (reason j) (retry_at j) (stop j)
    (replace_on_drain j) (attempts j)
    (match segments j with Some m => SegmentMap.durable_bytes m | None => 0 end)
    (validator j).

Definition has_active_leases (j : t) : bool := map_is SegmentMap.has_in_flight j.
Definition quiescent (j : t) : bool :=
  negb (has_active_leases j) && negb (map_is SegmentMap.has_pending_checkpoint j).
Definition settled (j : t) : bool :=
  quiescent j && (replace_on_drain j || negb (map_is SegmentMap.has_unsynced j)).
Definition all_durable (j : t) : bool := map_is SegmentMap.all_durable j.
Definition cleanup_ready (j : t) : bool := bool_decide (state j = Cancelling) && quiescent j.
Definition removable (j : t) : bool :=
  bool_decide (state j ∈ [Queued; Paused; RetryWait; NeedsAction; Failed; Completed; Cancelled]).

(** *** Transitions *)

Definition begin_stop (target : StopTarget.t) : st t DomainError (option JobState.t) :=
  _ ← modify (set_stop (Some target)); mret (Some Stopping).

(** An accepted no-op, [return Ok(false)]. *)
Definition no_op : st t DomainError (option JobState.t) := mret None.
Definition to (s : JobState.t) : st t DomainError (option JobState.t) := mret (Some s).

(** The cause a command raises a stopping job to. *)
Definition stop_cause (command : JobCommand.t) : result DomainError StopTarget.t :=
  match command with
  | JobCommand.Pause => Ok StopTarget.Paused
  | JobCommand.Preempt => Ok StopTarget.Queued
  | JobCommand.Retry at_tick => Ok (StopTarget.RetryWait at_tick)
  | JobCommand.RequireAction reason => Ok (StopTarget.NeedsAction reason)
  | JobCommand.Fail reason => Ok (StopTarget.Failed reason)
  | _ => Err InvalidTransition
  end.

(** [(Probing, ProbeSucceeded)]: adopt the plan, or check it against the bytes kept. *)
Definition probe_succeeded (total max_segments : Z) (validator_ : option digest32) :
    st t DomainError (option JobState.t) :=
  self ← gets (λ j, j);
  _ ← lift (refuse_if (bool_decide (JobSpec.max_bytes (spec self) < total
        ∨ max_segments < 1 ∨ 262144 < max_segments)) InvalidInput);
  match segments self with
  | Some map =>
      _ ← lift (refuse_if (bool_decide (SegmentMap.total map ≠ total
            ∨ SegmentMap.generation map ≠ generation self
            ∨ validator_ = None ∨ validator_ ≠ validator self)) InvalidInput);
      to Transferring
  | None =>
      _ ← modify (set_validator validator_);
      map ← lift (SegmentMap.new (id self) (generation self) total max_segments);
      _ ← modify (set_segments (Some map));
      to Transferring
  end.

(** [(Stopping, WorkersDrained)]: where a drained job lands. *)
Definition workers_drained : st t DomainError (option JobState.t) :=
  self ← gets (λ j, j);
  _ ← lift (refuse_if (negb (settled self)) Incomplete);
  _ ← modify (set_stop None);
  target ← lift (ok_or (stop self) InvalidTransition);
  _ ← (if replace_on_drain self then
         _ ← modify (set_replace_on_drain false);
         next ← lift (Generation.next (generation self));
         _ ← modify (set_generation next);
         _ ← modify (set_segments None);
         modify (set_validator None)
       else mret tt);
  self ← gets (λ j, j);
  match target with
  | StopTarget.Verifying => to (if all_durable self then Verifying else Paused)
  | StopTarget.Paused => to Paused
  | StopTarget.Queued => to Queued
  | StopTarget.RetryWait at_tick => _ ← modify (set_retry_at (Some at_tick)); to RetryWait
  | StopTarget.NeedsAction reason => _ ← modify (set_reason (Some reason)); to NeedsAction
  | StopTarget.Failed reason => _ ← modify (set_reason (Some reason)); to Failed
  end.

(** Back to work after a rest: verification when every byte is already durable. *)
Definition resume_to (j : t) : JobState.t := if all_durable j then Verifying else Queued.

(** The match of [execute]; [None] is an accepted no-op. *)
Definition transition (command : JobCommand.t) : st t DomainError (option JobState.t) :=
  self ← gets (λ j, j);
  match state self, command with
  | Queued, JobCommand.Start =>
      _ ← modify (set_attempts (saturating_add u8_max (attempts self) 1)); to Probing
  | Probing, JobCommand.ProbeSucceeded total max_segments validator =>
      probe_succeeded total max_segments validator
  | (Probing | Transferring), JobCommand.Pause => begin_stop StopTarget.Paused
  | (Probing | Transferring), JobCommand.Preempt => begin_stop StopTarget.Queued
  | (Probing | Transferring), JobCommand.Retry at_tick => begin_stop (StopTarget.RetryWait at_tick)
  | (Probing | Transferring), JobCommand.RequireAction reason =>
      begin_stop (StopTarget.NeedsAction reason)
  | (Probing | Transferring), JobCommand.Fail reason => begin_stop (StopTarget.Failed reason)
  | (Probing | Transferring), JobCommand.RepresentationChanged =>
      _ ← modify (set_replace_on_drain true); begin_stop StopTarget.Queued
  | Transferring, JobCommand.AllSegmentsDurable =>
      _ ← lift (refuse_if (negb (all_durable self)) Incomplete); begin_stop StopTarget.Verifying
  | Stopping, JobCommand.Resume =>
      if decide (stop self ≠ Some StopTarget.Paused) then no_op else
      _ ← modify (set_stop (Some (if all_durable self && negb (replace_on_drain self)
                                  then StopTarget.Verifying else StopTarget.Queued)));
      _ ← modify (set_attempts 0);
      to Stopping
  | Stopping, JobCommand.RepresentationChanged =>
      if replace_on_drain self then no_op else
      current ← lift (ok_or (stop self) InvalidTransition);
      _ ← modify (set_replace_on_drain true);
      _ ← modify (set_stop (Some (StopTarget.raise current StopTarget.Queued)));
      to Stopping
  | Stopping, (JobCommand.Pause | JobCommand.Preempt | JobCommand.Retry _
              | JobCommand.RequireAction _ | JobCommand.Fail _) =>
      cause ← lift (stop_cause command);
      current ← lift (ok_or (stop self) InvalidTransition);
      let raised := StopTarget.raise current cause in
      if decide (raised = current) then no_op else
      _ ← modify (set_stop (Some raised)); to Stopping
  | Stopping, JobCommand.WorkersDrained => workers_drained
  | (Queued | Verifying), JobCommand.Pause => to Paused
  | RetryWait, JobCommand.Pause => _ ← modify (set_retry_at None); to Paused
  | (Paused | NeedsAction | Failed | Cancelling), JobCommand.Pause => no_op
  | Paused, JobCommand.Resume => _ ← modify (set_attempts 0); to (resume_to self)
  | RetryWait, JobCommand.Resume =>
      _ ← modify (set_retry_at None); _ ← modify (set_attempts 0); to Queued
  | NeedsAction, JobCommand.Resume =>
      _ ← lift (refuse_if (bool_decide (reason self ∈
            [Some StopReason.SourceChanged; Some StopReason.Integrity])) InvalidTransition);
      _ ← modify (set_reason None); _ ← modify (set_attempts 0); to (resume_to self)
  | Failed, JobCommand.Resume =>
      _ ← modify (set_reason None); _ ← modify (set_attempts 0); to (resume_to self)
  | (Queued | Probing | Transferring | Verifying | Publishing), JobCommand.Resume => no_op
  | RetryWait, JobCommand.RetryDue now_tick =>
      _ ← lift (refuse_if (match retry_at self with
                           | None => true
                           | Some at_ => bool_decide (now_tick < at_)
                           end) InvalidTransition);
      _ ← modify (set_retry_at None); to Queued
  | (Verifying | Publishing), JobCommand.RequireAction reason =>
      _ ← modify (set_reason (Some reason)); to NeedsAction
  | Verifying, JobCommand.Fail reason => _ ← modify (set_reason (Some reason)); to Failed
  | Verifying, JobCommand.VerificationPassed => to Publishing
  | Publishing, JobCommand.PublishCommitted => to Completed
  | (Queued | Probing | Transferring | Stopping | Paused | RetryWait | NeedsAction | Verifying
    | Failed), JobCommand.Cancel =>
      _ ← modify (set_stop None); _ ← modify (set_replace_on_drain false);
      _ ← modify (set_retry_at None); to Cancelling
  | Cancelling, JobCommand.Cancel => no_op
  | Publishing, (JobCommand.Pause | JobCommand.Cancel) => throw PublishInProgress
  | Cancelling, JobCommand.CleanupFinished =>
      _ ← lift (refuse_if (negb (quiescent self)) Incomplete); to Cancelled
  | (NeedsAction | Paused | Failed), JobCommand.ReplaceRepresentation =>
      next ← lift (Generation.next (generation self));
      _ ← modify (set_generation next); _ ← modify (set_segments None);
      _ ← modify (set_validator None); _ ← modify (set_reason None);
      _ ← modify (set_retry_at None); _ ← modify (set_attempts 0); to Queued
  | _, _ => throw InvalidTransition
  end.

Definition execute (command : JobCommand.t) : st t DomainError bool :=
  next ← transition command;
  match next with
  | None => mret false
  | Some s => _ ← modify (set_state s); mret true
  end.

(** *** Events *)

Definition decide_ (self : t) (command : JobCommand.t) : result DomainError (list JobEvent.t) :=
  match execute command (snapshot self) with
  | (Err e, _) => Err e
  | (Ok false, _) => Ok []
  | (Ok true, next) =>
      v ← ok_or (checked_add (version self) 1) Overflow;
      Ok [JobEvent.Make (id self) v (state self) (state next) (generation self) command
            (projection next)]
  end.

Definition apply_ (event : JobEvent.t) : st t DomainError unit := λ self,
  if decide (JobEvent.job event ≠ id self ∨ JobEvent.from event ≠ state self
      ∨ JobEvent.generation event ≠ generation self
      ∨ checked_add (version self) 1 ≠ Some (JobEvent.version event))
  then (Err StaleEvent, self)
  else match execute (JobEvent.command event) (snapshot self) with
  | (Err e, _) => (Err e, self)
  | (Ok changed, next) =>
      if decide (changed = false ∨ state next ≠ JobEvent.to event
          ∨ projection next ≠ JobEvent.outcome event)
      then (Err StaleEvent, self)
      else (Ok tt, set_version (JobEvent.version event) next)
  end.

Fixpoint apply_all (events : list JobEvent.t) : st t DomainError unit :=
  match events with
  | [] => mret tt
  | event :: events => _ ← apply_ event; apply_all events
  end.

Definition handle (command : JobCommand.t) : st t DomainError (list JobEvent.t) :=
  self ← gets (λ j, j);
  events ← lift (decide_ self command);
  _ ← apply_all events;
  mret events.

(** *** Access to the segment map *)

(** [self.map_mut()?.method()]. *)
Definition map_mut {A} (method : st SegmentMap.t DomainError A) : st t DomainError A :=
  self ← gets (λ j, j);
  _ ← lift (refuse_if (negb (bool_decide (state self ∈ [Transferring; Stopping; Cancelling])))
        InvalidTransition);
  map ← lift (ok_or (segments self) Incomplete);
  zoom (λ _, map) (λ m, set_segments (Some m)) method.

(** The guard of the calls only a transferring, or only a stopping, job takes. *)
Definition only_in (s : JobState.t) : st t DomainError unit :=
  self ← gets (λ j, j);
  lift (refuse_if (bool_decide (state self ≠ s)) InvalidTransition).

Definition lease_segment (id : SegmentId.t) (worker : Z) : st t DomainError Lease.t :=
  _ ← only_in Transferring; map_mut (SegmentMap.lease id worker).
Definition split_pending (id : SegmentId.t) (at_ : Z) : st t DomainError SegmentId.t :=
  _ ← only_in Transferring; map_mut (SegmentMap.split_pending id at_).
Definition mark_written (l : Lease.t) : st t DomainError unit :=
  map_mut (SegmentMap.mark_written l).
Definition release (l : Lease.t) : st t DomainError unit := map_mut (SegmentMap.release l).
Definition abandon_checkpoint : st t DomainError unit := map_mut SegmentMap.discard_checkpoint.
Definition discard_unsynced : st t DomainError unit :=
  _ ← only_in Stopping; map_mut SegmentMap.discard_unsynced.
Definition prepare_sync : st t DomainError SyncTicket.t := map_mut SegmentMap.prepare_sync.
Definition acknowledge_sync (ticket : SyncTicket.t) : st t DomainError CommitBatch.t :=
  map_mut (SegmentMap.acknowledge_sync ticket).
Definition acknowledge_commit (batch : CommitBatch.t) : st t DomainError unit :=
  map_mut (SegmentMap.acknowledge_commit batch).
End Job.
