(* ===== verification/JobInv.v ===== *)
(** * The invariant of the job state machine

    What holds of a job in every state the program can bring it to, the state
    machine its commands and segment calls make, and the proof that each of them
    keeps the invariant. *)

From S2P Require Import Prelude Domain Segments SegmentsInv SegmentsRestore SegmentsThm JobMachine.
Import JobState.

Module JobInv.
Import Job.

(** Which states need a reason, a plan, every byte, or quiet segments. *)
Definition needs_reason (s : JobState.t) : bool :=
  match s with NeedsAction | Failed => true | _ => false end.
Definition needs_plan (s : JobState.t) : bool :=
  match s with Transferring | Verifying | Publishing | Completed => true | _ => false end.
Definition needs_every_byte (s : JobState.t) : bool :=
  match s with Verifying | Publishing | Completed => true | _ => false end.
Definition may_work (s : JobState.t) : bool :=
  match s with Transferring | Stopping | Cancelling => true | _ => false end.
Definition may_be_unsynced (s : JobState.t) : bool :=
  match s with Transferring | Stopping | Cancelling | Cancelled => true | _ => false end.

Definition map_wf (j : t) (m : SegmentMap.t) : Prop :=
  SegmentMapInv.wf m ∧ SegmentMap.job m = id j ∧ SegmentMap.generation m = generation j ∧
  SegmentMap.total m ≤ JobSpec.max_bytes (spec j).

Record wf (j : t) : Prop := {
  wf_generation : Generation.wf (generation j);
  wf_spec : JobSpec.wf (spec j);
  wf_version : u64 (version j);
  wf_attempts : u8 (attempts j);
  wf_stop : is_Some (stop j) ↔ state j = Stopping;
  wf_replace : replace_on_drain j = true → state j = Stopping;
  wf_retry : is_Some (retry_at j) ↔ state j = RetryWait;
  wf_reason : needs_reason (state j) = true → is_Some (reason j);
  wf_planned : needs_plan (state j) = true → is_Some (segments j);
  wf_validator : segments j = None → validator j = None;
  wf_map : ∀ m, segments j = Some m → map_wf j m;
  wf_done : needs_every_byte (state j) = true → all_durable j = true;
  wf_quiet : may_work (state j) = false → quiescent j = true;
  wf_synced : may_be_unsynced (state j) = false → map_is SegmentMap.has_unsynced j = false }.

(** Arguments are what Rust's types allow. *)
Definition command_typed (c : JobCommand.t) : Prop :=
  match c with
  | JobCommand.ProbeSucceeded total max_segments _ => u64 total ∧ u64 max_segments
  | JobCommand.Retry at_tick => u64 at_tick
  | JobCommand.RetryDue now_tick => u64 now_tick
  | _ => True
  end.

Lemma snapshot_id j : snapshot j = j.
Proof. unfold snapshot. destruct j as [? ? ? ? ? ? ? ? ? ? ? [[]|]]; done. Qed.

Lemma all_durable_quiet m :
  SegmentMap.all_durable m = true →
  SegmentMap.has_in_flight m = false ∧ SegmentMap.has_unsynced m = false.
Proof.
  unfold SegmentMap.all_durable, SegmentMap.has_in_flight, SegmentMap.has_unsynced.
  induction (SegmentMap.segments m) as [|s segs IH]; cbn; [done|].
  rewrite andb_true_iff, bool_decide_eq_true. intros [Hs Ha].
  rewrite Hs. cbn. by apply IH.
Qed.

Lemma fresh_map_quiet job g total maximum m :
  SegmentMap.new job g total maximum = Ok m →
  SegmentMap.has_in_flight m = false ∧ SegmentMap.has_pending_checkpoint m = false ∧
  SegmentMap.has_unsynced m = false.
Proof.
  intros (_&_&->)%SegmentMapInv.map_new_Ok.
  unfold SegmentMap.has_in_flight, SegmentMap.has_pending_checkpoint, SegmentMap.has_unsynced.
  cbn. by case_decide.
Qed.

(** [new] *)
Lemma new_wf id spec : JobSpec.wf spec → wf (new id spec).
Proof. intros. constructor; cbn; try done; try (split; [by intros []|done]). Qed.

(** ** Transitions *)

(** The parts of a job a settled stop leaves behind. *)
Lemma settled_parts j :
  settled j = true →
  quiescent j = true ∧ (replace_on_drain j = true ∨ map_is SegmentMap.has_unsynced j = false).
Proof.
  unfold settled. rewrite andb_true_iff, orb_true_iff, negb_true_iff. naive_solver.
Qed.

(** The fields of the invariant that a transition rewrites or leaves alone. *)
Ltac job_fields :=
  cbn in *; try done;
  try match goal with
  | |- is_Some _ ↔ _ => clear; split; [by intros []|done]
  | |- is_Some (Some _) ↔ _ => split; [done|by eexists]
  | H : is_Some ?x ↔ _ |- is_Some ?x ↔ _ =>
      rewrite H; clear; split; intros ?; discriminate
  | H : ?x = true → ?a = ?b |- ?x = true → ?a' = ?b' =>
      let E := fresh in intros E; apply H in E; discriminate
  end; eauto.

Lemma probe_succeeded_wf total max_segments v j r j' :
  wf j → state j = Probing → u64 total →
  probe_succeeded total max_segments v j = (Ok r, j') →
  ∃ s, r = Some s ∧ wf (set_state s j').
Proof.
  intros Hwf Hst Ht H. unfold probe_succeeded, to in H.
  open_run; eexists; (split; [done|]); destruct Hwf; rewrite Hst in *; constructor; job_fields.
  intros m [= <-].
  match goal with H : SegmentMap.new _ _ _ _ = _ |- _ => rename H into Hn end.
  split; [by eapply SegmentMapInv.wf_new|].
  apply SegmentMapInv.map_new_Ok in Hn as (_&_&->). cbn. split_and!; (done || lia).
Qed.

Lemma workers_drained_wf j r j' :
  wf j → state j = Stopping → workers_drained j = (Ok r, j') →
  ∃ s, r = Some s ∧ wf (set_state s j').
Proof.
  intros Hwf Hst H. unfold workers_drained, to in H. revert H. unfold_monad.
  destruct (settled j) eqn:Hset; cbn; [|done]. destruct (stop j) as [target|]; cbn; [|done].
  apply settled_parts in Hset as [Hq Hs]. pose proof Hwf as Hwf'. destruct Hwf'.
  rewrite Hst in *. destruct (replace_on_drain j) eqn:Hr; cbn.
  - destruct (Generation.next (generation j)) as [g|] eqn:Hg; [|done].
    apply Generation.next_Ok in Hg as [? _]; [|done].
    destruct target; cbn; intros [= <- <-]; eexists; (split; [done|]); constructor; job_fields.
  - destruct Hs as [?|Hs]; [done|].
    assert (all_durable j = true → is_Some (segments j)) as Had.
    { unfold all_durable, map_is. destruct (segments j); [by eexists|done]. }
    destruct target; cbn; intros [= <- <-]; eexists; (split; [done|]); constructor; job_fields.
    all: change (all_durable (set_stop None j)) with (all_durable j).
    all: destruct (all_durable j) eqn:Ha; job_fields.
    all: by rewrite Hr.
Qed.

Lemma resume_to_wf j k a :
  wf j → may_be_unsynced (state j) = false → state j ≠ RetryWait → u8 a →
  k = j ∨ k = set_reason None j →
  wf (set_state (resume_to j) (set_attempts a k)).
Proof.
  intros Hwf Hs Hr Ha Hk. unfold resume_to.
  assert (state j ≠ Stopping) as Hns by (by intros E; rewrite E in Hs).
  assert (may_work (state j) = false) as Hw by (by destruct (state j)).
  destruct Hwf.
  assert (all_durable j = true → is_Some (segments j)) as Had.
  { unfold all_durable, map_is. destruct (segments j); [by eexists|done]. }
  destruct (all_durable j) eqn:He, Hk as [->| ->]; constructor; job_fields.
  all: try (intros E; by destruct Hns; apply wf_replace0).
  all: try (rewrite ?wf_stop0, ?wf_retry0; split; [by intros|by intros ?]).
Qed.

(** Every accepted transition keeps the invariant; an accepted no-op changes nothing. *)
Lemma transition_wf c j r j' :
  wf j → command_typed c → transition c j = (Ok r, j') →
  match r with None => j' = j | Some s => wf (set_state s j') end.
Proof.
  intros Hwf Hty. unfold transition. unfold mbind at 1, st_bind at 1, gets at 1.
  destruct (state j) eqn:Hst, c; try (by intros [=]).
  all: intros H.
  all: try (apply probe_succeeded_wf in H as (s&->&?); [done|done|done|by destruct Hty]).
  all: try (apply workers_drained_wf in H as (s&->&?); done).
  all: unfold begin_stop, no_op, to, stop_cause in H; open_run; try done.
  all: try (apply resume_to_wf; [done|by rewrite Hst|by rewrite Hst|by split|by auto]).
  all: destruct Hwf; rewrite Hst in *; constructor; job_fields.
  all: try (unfold u8 in *; ints).
  all: match goal with H : Generation.next _ = Ok _ |- _ => by apply Generation.next_Ok in H as [? _] end.
Qed.

Lemma execute_wf c j b j' :
  wf j → command_typed c → execute c j = (Ok b, j') → wf j' ∧ (b = false → j' = j).
Proof.
  intros Hwf Hty. unfold execute, mbind, st_bind.
  destruct (transition c j) as [[[s|]|e] j1] eqn:Ht; [..|done];
    apply transition_wf in Ht; try done; unfold_monad; intros [= <- <-]; [done|by subst].
Qed.

(** What [execute] never touches. *)
Definition same_header (j j' : t) : Prop :=
  id j' = id j ∧ spec j' = spec j ∧ version j' = version j.

Lemma workers_drained_frame j r j' : workers_drained j = (r, j') → same_header j j'.
Proof.
  unfold workers_drained, to. intros H. unfold_monad.
  destruct (settled j), (stop j) as [target|], (replace_on_drain j); cbn in H; try by simplify_eq.
  - destruct (Generation.next _); [|by simplify_eq]. by destruct target; simplify_eq.
  - by destruct target; simplify_eq.
Qed.

Lemma transition_frame c j r j' : transition c j = (r, j') → same_header j j'.
Proof.
  unfold transition. unfold mbind at 1, st_bind at 1, gets at 1.
  destruct (state j) eqn:Hst, c; try (by intros [= <- <-]); intros H;
    try (by eapply workers_drained_frame).
  all: unfold probe_succeeded, begin_stop, no_op, to, stop_cause in H; by open_run.
Qed.

Lemma execute_frame c j r j' : execute c j = (r, j') → same_header j j'.
Proof.
  unfold execute, mbind, st_bind.
  destruct (transition c j) as [[[s|]|e] j1] eqn:Ht; apply transition_frame in Ht;
    unfold_monad; intros [= <- <-]; done.
Qed.

Lemma set_version_wf v j : wf j → u64 v → wf (set_version v j).
Proof. intros [] ?. by constructor. Qed.

(** ** Events *)

Lemma decide_inv j c events :
  decide_ j c = Ok events →
  (events = [] ∧ ∃ next, execute c j = (Ok false, next)) ∨
  (∃ next, execute c j = (Ok true, next) ∧ version j + 1 ≤ u64_max ∧
    events = [JobEvent.Make (id j) (version j + 1) (state j) (state next) (generation j) c
                (projection next)]).
Proof.
  unfold decide_. rewrite snapshot_id. destruct (execute c j) as [[[]|e] next] eqn:He; [..|done].
  - unfold_monad. destruct (checked_add _ _) as [v|] eqn:Hv; cbn; [|done].
    apply checked_add_Some in Hv as [-> ?]. intros [= <-]. right. by eexists.
  - intros [= <-]. left. split; [done|by eexists].
Qed.

Lemma apply_inv e j u j' :
  apply_ e j = (Ok u, j') →
  JobEvent.job e = id j ∧ JobEvent.from e = state j ∧ JobEvent.generation e = generation j ∧
  JobEvent.version e = version j + 1 ∧ version j + 1 ≤ u64_max ∧
  ∃ next, execute (JobEvent.command e) j = (Ok true, next) ∧ state next = JobEvent.to e ∧
    projection next = JobEvent.outcome e ∧ j' = set_version (JobEvent.version e) next.
Proof.
  unfold apply_. case_decide as Hs; [done|]. rewrite snapshot_id.
  destruct (execute _ j) as [[[]|e'] next] eqn:He; [..|done]; (case_decide as Hc; [done|]);
    intros [= <- <-].
  - open_bools.
    match goal with H : checked_add _ _ = _ |- _ => apply checked_add_Some in H as [? ?] end.
    split_and!; try done. by eexists.
  - exfalso. apply Hc. by left.
Qed.

Lemma apply_atomic e j err j' : apply_ e j = (Err err, j') → j' = j.
Proof. unfold apply_. repeat case_match; by intros [=]. Qed.

Lemma apply_wf e j : wf j → command_typed (JobEvent.command e) → wf (apply_ e j).2.
Proof.
  intros Hwf Hty. destruct (apply_ e j) as [[u|err] j'] eqn:Ha; cbn.
  - apply apply_inv in Ha as (_&_&_&->&?&next&Hx&_&_&->).
    apply execute_wf in Hx as [? _]; [|done..]. apply set_version_wf; [done|].
    pose proof (wf_version j Hwf). unfold u64 in *. lia.
  - by apply apply_atomic in Ha as ->.
Qed.

(** The event [decide] returns is the one [apply] accepts at the same job. *)
Lemma apply_decided j c next :
  execute c j = (Ok true, next) → version j + 1 ≤ u64_max →
  apply_ (JobEvent.Make (id j) (version j + 1) (state j) (state next) (generation j) c
    (projection next)) j = (Ok tt, set_version (version j + 1) next).
Proof.
  intros Hx Hv. unfold apply_; cbn. rewrite snapshot_id, Hx. rewrite !decide_False.
  - done.
  - naive_solver.
  - unfold checked_add. rewrite decide_True by done. naive_solver.
Qed.
End JobInv.
