(* ===== verification/JobThm.v ===== *)
(** * What a job promises

    The theorems about the job state machine: its invariant over every reachable
    state, the life-cycle graph it refines, the decide / persist / apply protocol,
    stopping and draining, and the persistence round trip. *)

From S2P Require Import Prelude Domain Segments SegmentsInv SegmentsRestore SegmentsThm JobMachine JobInv.
Import JobState Job JobInv.

(** ** Segment calls *)

Lemma set_map_wf j m m' :
  wf j → segments j = Some m → may_work (state j) = true → map_wf j m' →
  wf (set_segments (Some m') j).
Proof.
  intros [] Hm Hw Hm'. constructor; cbn; try done.
  - intros m0 [= <-]. exact Hm'.
  - intros Hd. by destruct (state j).
  - by rewrite Hw.
  - intros Hd. by destruct (state j).
Qed.

(** A call through [map_mut] is a step of the segment map's own machine. *)
Lemma map_mut_wf {A} (method : st SegmentMap.t DomainError A) o j :
  (∀ m, (method m).2 = (SegmentMapInv.exec o m).2) → SegmentMapInv.op_typed o →
  (∀ total, o ≠ SegmentMapInv.ReplaceGeneration total) →
  wf j → wf (map_mut method j).2.
Proof.
  intros Hexec Hty Hnr Hwf. unfold map_mut. unfold_monad.
  case_bool_decide as Hst; cbn; [|done]. destruct (segments j) as [m|] eqn:Hm; cbn; [|done].
  specialize (Hexec m). destruct (method m) as [r m'] eqn:Hx; cbn in *. rewrite Hexec.
  destruct (wf_map j Hwf m Hm) as (Hw&Hj&Hg&Ht).
  destruct (SegmentMapInv.exec_header o m Hnr) as (?&?&?&?).
  eapply set_map_wf; [done|done|by destruct (state j); set_unfold; naive_solver|].
  split_and!; [by apply SegmentMapInv.exec_wf|congruence..|].
  etrans; [|exact Ht]. by apply Z.eq_le_incl.
Qed.

Lemma only_in_wf {A} s (method : st t DomainError A) j :
  wf j → wf (method j).2 → wf ((_ ← only_in s; method) j).2.
Proof. intros ??. unfold only_in. unfold_monad. by case_bool_decide. Qed.

(** ** The job as one state machine *)

Inductive op : Type :=
| Handle (c : JobCommand.t)
| Apply (e : JobEvent.t)
| LeaseSegment (id : SegmentId.t) (worker : Z)
| SplitPending (id : SegmentId.t) (at_ : Z)
| MarkWritten (l : Lease.t)
| Release (l : Lease.t)
| AbandonCheckpoint
| DiscardUnsynced
| PrepareSync
| AcknowledgeSync (ticket : SyncTicket.t)
| AcknowledgeCommit (batch : CommitBatch.t).

Definition after (o : op) (j : t) : t :=
  match o with
  | Handle c => (handle c j).2
  | Apply e => (apply_ e j).2
  | LeaseSegment id worker => (lease_segment id worker j).2
  | SplitPending id at_ => (split_pending id at_ j).2
  | MarkWritten l => (mark_written l j).2
  | Release l => (release l j).2
  | AbandonCheckpoint => (abandon_checkpoint j).2
  | DiscardUnsynced => (discard_unsynced j).2
  | PrepareSync => (prepare_sync j).2
  | AcknowledgeSync ticket => (acknowledge_sync ticket j).2
  | AcknowledgeCommit batch => (acknowledge_commit batch j).2
  end.

Definition op_typed (o : op) : Prop :=
  match o with
  | Handle c => command_typed c
  | Apply e => command_typed (JobEvent.command e)
  | LeaseSegment _ worker => u64 worker
  | SplitPending _ at_ => u64 at_
  | _ => True
  end.

(** A record as a repository can hold it: every field in its type's range. *)
Definition record_typed (r : JobRecord.t) : Prop :=
  JobSpec.wf (JobRecord.spec r) ∧ Generation.wf (JobRecord.generation r) ∧
  u64 (JobRecord.version r) ∧ u8 (JobRecord.attempts r) ∧
  (∀ total maximum, JobRecord.plan r = Some (total, maximum) → u64 total ∧ u64 maximum) ∧
  Forall ByteRange.wf (JobRecord.durable r).

Inductive reachable : t → Prop :=
| reachable_new id spec : JobSpec.wf spec → reachable (new id spec)
| reachable_restore r j : record_typed r → restore r = Ok j → reachable j
| reachable_step o j : reachable j → op_typed o → reachable (after o j).

Lemma run_snd {A} (m : st SegmentMap.t DomainError A) s : (m s).2 = (SegmentMapInv.run m s).2.
Proof. unfold SegmentMapInv.run. by destruct (m s) as [[]]. Qed.

Lemma handle_wf c j : wf j → command_typed c → wf (handle c j).2.
Proof.
  intros Hwf Hty. unfold handle. unfold_monad.
  destruct (decide_ j c) as [events|] eqn:Hd; [|done].
  apply decide_inv in Hd as [(->&_)|(next&Hx&Hv&->)]; [done|].
  cbn [apply_all]. unfold_monad. rewrite (apply_decided j c next Hx Hv). cbn.
  apply set_version_wf; [by apply execute_wf in Hx as [? _]|].
  pose proof (wf_version j Hwf). unfold u64 in *. lia.
Qed.

Lemma after_wf o j : wf j → op_typed o → wf (after o j).
Proof.
  intros Hwf Hty. destruct o; cbn [after]; cbn in Hty.
  - by apply handle_wf.
  - by apply apply_wf.
  - apply only_in_wf; [done|].
    by apply (map_mut_wf _ (SegmentMapInv.TakeLease id0 worker)); [intros; apply run_snd|..].
  - apply only_in_wf; [done|].
    by apply (map_mut_wf _ (SegmentMapInv.SplitPending id0 at_)); [intros; apply run_snd|..].
  - by apply (map_mut_wf _ (SegmentMapInv.MarkWritten l)); [intros; apply run_snd|..].
  - by apply (map_mut_wf _ (SegmentMapInv.Release l)); [intros; apply run_snd|..].
  - by apply (map_mut_wf _ SegmentMapInv.DiscardCheckpoint); [intros; apply run_snd|..].
  - apply only_in_wf; [done|].
    by apply (map_mut_wf _ SegmentMapInv.DiscardUnsynced); [intros; apply run_snd|..].
  - by apply (map_mut_wf _ SegmentMapInv.PrepareSync); [intros; apply run_snd|..].
  - by apply (map_mut_wf _ (SegmentMapInv.AcknowledgeSync ticket)); [intros; apply run_snd|..].
  - by apply (map_mut_wf _ (SegmentMapInv.AcknowledgeCommit batch)); [intros; apply run_snd|..].
Qed.

(** ** Restoring *)

(** A restored map is at rest: nothing leased, written or pending. *)
Lemma restored_quiet job g total maximum durable m :
  restored job g total maximum durable m →
  SegmentMap.has_in_flight m = false ∧ SegmentMap.has_pending_checkpoint m = false ∧
  SegmentMap.has_unsynced m = false.
Proof.
  intros [(_&_&_&_&_&_&Hc) _ _ _ _ Hs _ _].
  unfold SegmentMap.has_in_flight, SegmentMap.has_pending_checkpoint, SegmentMap.has_unsynced.
  rewrite Hc. cbn. clear Hc. induction Hs as [|s segs Hs _ IH]; [done|]. cbn.
  by destruct Hs as [->| ->].
Qed.

(** The fields of a consistent record, as propositions. *)
Lemma consistent_inv r :
  consistent r = true →
  (is_Some (JobRecord.stop r) ↔ JobRecord.state r = Stopping) ∧
  (JobRecord.replace_on_drain r = true → JobRecord.state r = Stopping) ∧
  (is_Some (JobRecord.retry_at r) ↔ JobRecord.state r = RetryWait) ∧
  (needs_reason (JobRecord.state r) = true → is_Some (JobRecord.reason r)) ∧
  (needs_plan (JobRecord.state r) = true → is_Some (JobRecord.plan r)) ∧
  (JobRecord.plan r = None → JobRecord.durable r = [] ∧ JobRecord.validator r = None) ∧
  (∀ p, JobRecord.plan r = Some p → p.1 ≤ JobSpec.max_bytes (JobRecord.spec r)).
Proof.
  unfold consistent. rewrite !andb_true_iff. intros ((((((H1&H2)&H3)&H4)&H5)&H6)&H7).
  apply eqb_true_iff in H1, H3. rewrite orb_true_iff in H2, H4, H5, H6.
  destruct r as [rid rspec rver rst rgen rreason rretry rstop rrep ratt rplan rval rdur]; cbn in *.
  split_and!.
  - destruct rstop, rst; cbn in *; split; (done || (by intros []) || by eexists).
  - intros ->. destruct H2 as [?|?%bool_decide_eq_true]; done.
  - destruct rretry, rst; cbn in *; split; (done || (by intros []) || by eexists).
  - intros Hn. destruct H4 as [?%bool_decide_eq_true|H4]; [done|]. by destruct rst.
  - intros Hn. destruct H5 as [?%bool_decide_eq_true|H5]; [done|]. by destruct rst.
  - intros ->. destruct H6 as [?|H6]; [done|]. apply andb_true_iff in H6 as [? ?].
    by open_bools.
  - intros p ->. destruct p. by apply bool_decide_eq_true in H7.
Qed.

Lemma restore_wf r j : record_typed r → restore r = Ok j → wf j.
Proof.
  intros (Hspec&Hgen&Hver&Hatt&Hplan&Hdur). unfold restore. unfold_monad.
  destruct (consistent r) eqn:Hcons; cbn; [|done].
  apply consistent_inv in Hcons as (H1&H2&H3&H4&H5&H6&H7).
  destruct (JobRecord.plan r) as [[total maximum]|] eqn:Hpl; cbn [fmap option_fmap option_map transpose].
  - destruct (Hplan _ _ eq_refl) as [Ht Hm]. cbn.
    destruct (SegmentMap.restore _ _ _ _ _) as [m|] eqn:Hr; [|done].
    apply restore_inv in Hr as (?&?&_&_&Hres); [|by destruct Ht|done].
    destruct (bool_decide _ && negb _) eqn:Hd; cbn; [done|]. intros [= <-].
    pose proof (restored_quiet _ _ _ _ _ _ Hres) as (Hq1&Hq2&Hq3).
    constructor; cbn; try done.
    + intros m0 [= <-]. split; [eapply restored_wf; [..|exact Hres]; (done || by destruct Ht)|].
      destruct Hres as [(?&?&->&_) _ _ _ _ _ _ _]. by specialize (H7 _ eq_refl).
    + intros Hn. apply andb_false_iff in Hd as [Hd|Hd]; [|by apply negb_false_iff in Hd].
      apply bool_decide_eq_false in Hd. destruct (JobRecord.state r); try done; exfalso; apply Hd; set_solver.
    + intros _. unfold quiescent, has_active_leases, map_is; cbn. by rewrite Hq1, Hq2.
  - destruct (H6 eq_refl) as [Hd0 Hv0]. destruct (bool_decide _ && negb _) eqn:Hd; cbn; [done|]. intros [= <-].
    constructor; cbn; try done.
    + intros Hn. destruct (H5 Hn) as [? [=]].
    + intros Hn. destruct (JobRecord.state r); try done; by destruct (H5 eq_refl).
Qed.

Lemma reachable_wf j : reachable j → wf j.
Proof.
  induction 1; [by apply new_wf|by eapply restore_wf|by apply after_wf].
Qed.

(** ** Persistence *)

(** What a repository keeps of a job: its fields, its plan and its durable ranges. *)
Definition record_of (j : t) : JobRecord.t :=
  JobRecord.Make (id j) (spec j) (version j) (state j) (generation j) (reason j) (retry_at j)
    (stop j) (replace_on_drain j) (attempts j) (plan j) (validator j)
    (match segments j with
     | Some m => durable_ranges (SegmentMap.segments m)
     | None => []
     end).

Lemma consistent_record_of j : wf j → consistent (record_of j) = true.
Proof.
  intros []. unfold consistent, record_of, plan; cbn.
  rewrite !andb_true_iff. split_and!.
  - by apply eqb_true_iff, bool_decide_ext.
  - destruct (replace_on_drain j); [|done]. by rewrite wf_replace0 by done.
  - by apply eqb_true_iff, bool_decide_ext.
  - destruct (state j); cbn in *; try (by rewrite orb_true_r);
      rewrite bool_decide_eq_true_2; [done|auto|done|auto].
  - destruct (segments j); [done|]. destruct (state j); cbn in *; try done;
      by destruct (wf_planned0 eq_refl).
  - destruct (segments j); [done|]. cbn. by rewrite wf_validator0.
  - destruct (segments j) as [m|]; [|done]. cbn. apply bool_decide_eq_true.
    by destruct (wf_map0 m eq_refl) as (_&_&_&?).
Qed.

(** ** The life cycle as a table *)

(** The states a command may lead to from each state: the abstract machine. *)
Definition lifecycle (s : JobState.t) (c : JobCommand.t) : list JobState.t :=
  match s, c with
  | Queued, JobCommand.Start => [Probing]
  | Queued, JobCommand.Pause => [Paused]
  | Probing, JobCommand.ProbeSucceeded _ _ _ => [Transferring]
  | (Probing | Transferring),
    (JobCommand.Pause | JobCommand.Preempt | JobCommand.Retry _ | JobCommand.RequireAction _
    | JobCommand.Fail _ | JobCommand.RepresentationChanged) => [Stopping]
  | Transferring, JobCommand.AllSegmentsDurable => [Stopping]
  | Stopping,
    (JobCommand.Pause | JobCommand.Preempt | JobCommand.Retry _ | JobCommand.RequireAction _
    | JobCommand.Fail _ | JobCommand.RepresentationChanged | JobCommand.Resume) => [Stopping]
  | Stopping, JobCommand.WorkersDrained =>
      [Verifying; Queued; Paused; RetryWait; NeedsAction; Failed]
  | RetryWait, JobCommand.Pause => [Paused]
  | RetryWait, (JobCommand.Resume | JobCommand.RetryDue _) => [Queued]
  | (Paused | NeedsAction | Failed), JobCommand.Resume => [Queued; Verifying]
  | (Paused | NeedsAction | Failed), JobCommand.ReplaceRepresentation => [Queued]
  | Verifying, JobCommand.Pause => [Paused]
  | Verifying, JobCommand.VerificationPassed => [Publishing]
  | Verifying, JobCommand.Fail _ => [Failed]
  | (Verifying | Publishing), JobCommand.RequireAction _ => [NeedsAction]
  | Publishing, JobCommand.PublishCommitted => [Completed]
  | Cancelling, JobCommand.CleanupFinished => [Cancelled]
  | (Queued | Probing | Transferring | Stopping | Paused | RetryWait | NeedsAction | Verifying
    | Failed), JobCommand.Cancel => [Cancelling]
  | _, _ => []
  end.

Lemma workers_drained_to j r j' :
  workers_drained j = (Ok r, j') →
  settled j = true ∧ ∃ target s, stop j = Some target ∧ r = Some s ∧
    s = match target with
        | StopTarget.Verifying =>
            if all_durable j && negb (replace_on_drain j) then Verifying else Paused
        | StopTarget.Paused => Paused
        | StopTarget.Queued => Queued
        | StopTarget.RetryWait _ => RetryWait
        | StopTarget.NeedsAction _ => NeedsAction
        | StopTarget.Failed _ => Failed
        end ∧
    (if replace_on_drain j
     then segments j' = None ∧ validator j' = None ∧ Generation.next (generation j) = Ok (generation j')
     else segments j' = segments j ∧ validator j' = validator j ∧ generation j' = generation j).
Proof.
  unfold workers_drained, to. intros H. unfold_monad.
  destruct (settled j), (stop j) as [target|]; cbn in H; try done. split; [done|].
  destruct (replace_on_drain j) eqn:Hr; cbn in H.
  - destruct (Generation.next _) as [g|] eqn:Hg; cbn in H; [|done].
    destruct target; simplify_eq; cbn; rewrite ?andb_false_r; by eexists _, _.
  - destruct target; simplify_eq; cbn; rewrite ?andb_true_r; by eexists _, _.
Qed.

Lemma transition_lifecycle c j s j' :
  transition c j = (Ok (Some s), j') → s ∈ lifecycle (state j) c.
Proof.
  unfold transition. unfold mbind at 1, st_bind at 1, gets at 1.
  destruct (state j) eqn:Hst, c; try (by intros [=]); intros H;
    try (apply workers_drained_to in H as (_&target&?&_&[= ->]&->&_); destruct target;
         try case_match; cbn; set_solver);
    unfold probe_succeeded, begin_stop, no_op, to, stop_cause, resume_to in H; open_run;
    cbn; set_solver.
Qed.

Lemma execute_true c j j' :
  execute c j = (Ok true, j') ↔ ∃ j0 s, transition c j = (Ok (Some s), j0) ∧ j' = set_state s j0.
Proof.
  unfold execute, mbind, st_bind. split.
  - destruct (transition c j) as [[[s|]|e] j1] eqn:Ht; unfold_monad; intros [= <-]. eauto.
  - intros (j0&s&->&->). done.
Qed.

(** Generations only go up, and a new one starts with nothing. *)
Lemma transition_generation c j r j' :
  transition c j = (Ok r, j') →
  (generation j' = generation j) ∨
  (Generation.next (generation j) = Ok (generation j') ∧ segments j' = None ∧ validator j' = None).
Proof.
  unfold transition. unfold mbind at 1, st_bind at 1, gets at 1.
  destruct (state j) eqn:Hst, c; try (by intros [=]); intros H;
    try (apply workers_drained_to in H as (_&target&?&_&_&_&H); destruct (replace_on_drain j);
         naive_solver);
    unfold probe_succeeded, begin_stop, no_op, to, stop_cause, resume_to in H; open_run; cbn; auto.
Qed.

(** While stopping, only [Resume] may lower the severity of the stop. *)
Lemma raise_rank a b : StopTarget.rank (StopTarget.raise a b)
  = Z.max (StopTarget.rank a) (StopTarget.rank b).
Proof. destruct a, b; done. Qed.

Lemma raise_assoc a b c :
  StopTarget.raise a (StopTarget.raise b c) = StopTarget.raise (StopTarget.raise a b) c.
Proof. destruct a, b, c; cbn; try done; by rewrite Z.max_assoc. Qed.

(** What stays while a job is stopping. *)
Lemma transition_stopping c j s j' :
  state j = Stopping → transition c j = (Ok (Some s), j') →
  (c = JobCommand.WorkersDrained ∧ workers_drained j = (Ok (Some s), j')) ∨
  (c = JobCommand.Cancel ∧ s = Cancelling ∧ segments j' = segments j) ∨
  (c = JobCommand.Resume ∧ s = Stopping ∧ stop j = Some StopTarget.Paused) ∨
  (c ≠ JobCommand.Resume ∧ s = Stopping ∧ ∃ a b, stop j = Some a ∧ stop j' = Some b ∧
    StopTarget.rank a ≤ StopTarget.rank b).
Proof.
  intros Hst. unfold transition. unfold mbind at 1, st_bind at 1, gets at 1. rewrite Hst.
  destruct c; try (by intros [=]); intros H; try (left; by split);
    unfold no_op, to, stop_cause in H; open_run; auto 6.
  all: try (right; right; left; split_and!; [done|done|]; by apply dec_stable).
  all: right; right; right; split; [done|]; split; [done|]; eexists _, _;
    split; [done|]; split; [done|]; rewrite raise_rank; lia.
Qed.

(** ** The theorems *)

(** C22: every job the program can reach (created, restored, then driven by any commands,
    events and segment calls) keeps the job invariant; in particular a job that is
    verifying, publishing or completed has every byte durable, and a job at rest
    has nothing leased, nothing uncommitted and no checkpoint pending. *)
Theorem reachable_job_invariant j :
  reachable j →
  wf j ∧
  (needs_every_byte (state j) = true →
    ∃ m, segments j = Some m ∧ SegmentMap.durable_bytes m = SegmentMap.total m) ∧
  (may_be_unsynced (state j) = false → settled j = true).
Proof.
  intros Hr. pose proof (reachable_wf j Hr) as Hwf. split_and!; [done|..].
  - intros Hd. pose proof (wf_done j Hwf Hd) as Ha. unfold all_durable, map_is in Ha.
    destruct (segments j) as [m|] eqn:Hm; [|done]. exists m. split; [done|].
    apply all_durable_bytes; [|done]. by apply (wf_map j Hwf m Hm).
  - intros Hs. unfold settled. rewrite (wf_synced j Hwf Hs), orb_true_r, andb_true_r.
    apply (wf_quiet j Hwf). by destruct (state j).
Qed.

(** C23: a job stored by its record restores to itself: every field, the plan, the durable
    bytes and the projection are the same, and only leases, written bytes and pending
    checkpoints are gone. *)
Theorem persisted_job_restores j :
  wf j → ∃ j', restore (record_of j) = Ok j' ∧ projection j' = projection j ∧
    id j' = id j ∧ spec j' = spec j ∧ version j' = version j ∧ plan j' = plan j ∧
    settled j' = true ∧
    ∀ m m', segments j = Some m → segments j' = Some m' →
      ∀ b, covered (durable_ranges (SegmentMap.segments m')) b
           ↔ covered (durable_ranges (SegmentMap.segments m)) b.
Proof.
  intros Hwf. pose proof (consistent_record_of j Hwf) as Hcons.
  unfold restore. unfold_monad. rewrite Hcons. cbn [negb].
  unfold record_of, plan in *; cbn in *. destruct (segments j) as [m|] eqn:Hm; cbn.
  - destruct (wf_map j Hwf m Hm) as (Hmw&Hj&Hg&Ht).
    destruct (restart_map m Hmw) as (m'&Hr&Hres&_). rewrite <-Hj, <-Hg, Hr. cbn.
    pose proof (restored_quiet _ _ _ _ _ _ Hres) as (Hq1&Hq2&Hq3).
    pose proof Hres as [(?&?&?&?&_) _ _ _ _ _ Hcov Hb]. rewrite <-durable_bytes_alt in Hb.
    pose proof (restored_wf _ _ _ _ _ _ (SegmentMapInv.wf_total m Hmw)
      (SegmentMapInv.wf_maximum m Hmw) (SegmentMapInv.wf_generation m Hmw) Hres) as Hmw'.
    assert (bool_decide (state j ∈ [Verifying; Publishing; Completed])
      && negb (SegmentMap.all_durable m') = false) as ->.
    { apply andb_false_iff. destruct (needs_every_byte (state j)) eqn:Hn.
      - right. apply negb_false_iff. apply all_durable_bytes; [done|]. rewrite Hb.
        pose proof (wf_done j Hwf Hn) as Ha. unfold all_durable, map_is in Ha. rewrite Hm in Ha.
        apply all_durable_bytes in Ha; [congruence|done].
      - left. by destruct (state j). }
    eexists. split; [done|]. unfold projection, settled, quiescent, has_active_leases, map_is; cbn.
    rewrite Hm, Hq1, Hq2, Hq3, Hb, orb_true_r. split_and!; try done.
    + congruence.
    + congruence.
    + intros m0 m1 [= <-] [= <-]. done.
  - assert (bool_decide (state j ∈ [Verifying; Publishing; Completed]) && true = false) as ->.
    { pose proof (wf_planned j Hwf) as Hp. rewrite Hm in Hp.
      destruct (state j); try done; by destruct (Hp eq_refl). }
    eexists. split; [done|]. unfold projection, settled, quiescent, has_active_leases, map_is; cbn.
    rewrite Hm, orb_true_r. done.
Qed.

(** C24: an event [decide] returned and the repository stored is accepted by [apply] at the
    same job, yields exactly the outcome the event records, one version on; a second
    delivery is refused as stale and changes nothing. *)
Theorem decided_event_applies_once j c e events :
  decide_ j c = Ok (e :: events) →
  events = [] ∧ JobEvent.job e = id j ∧ JobEvent.command e = c ∧ JobEvent.from e = state j ∧
  ∃ j', apply_ e j = (Ok tt, j') ∧ handle c j = (Ok [e], j') ∧
    projection j' = JobEvent.outcome e ∧ state j' = JobEvent.to e ∧
    version j' = version j + 1 ∧ version j' = JobEvent.version e ∧
    apply_ e j' = (Err StaleEvent, j').
Proof.
  intros Hd. pose proof Hd as Hd'. apply decide_inv in Hd as [([=]&_)|(next&Hx&Hv&[= -> ->])].
  split_and!; [done..|]. pose proof (apply_decided j c next Hx Hv) as Ha.
  eexists. split; [exact Ha|]. split.
  { unfold handle. unfold_monad. rewrite Hd'. cbn [apply_all]. unfold_monad. by rewrite Ha. }
  split_and!; try done. unfold apply_. rewrite decide_True; [done|].
  right; right; right. cbn. intros Hs%checked_add_Some. lia.
Qed.

(** Whatever event is delivered, [apply] either refuses it and leaves the job as it
    was, or the event was for this job, state, generation and version and the job now
    is exactly the recorded outcome. *)
Theorem apply_is_checked e j r j' :
  apply_ e j = (r, j') →
  match r with
  | Err _ => j' = j
  | Ok _ => JobEvent.job e = id j ∧ JobEvent.from e = state j ∧
      JobEvent.generation e = generation j ∧ JobEvent.version e = version j + 1 ∧
      version j' = JobEvent.version e ∧ state j' = JobEvent.to e ∧
      projection j' = JobEvent.outcome e ∧ state j' ∈ lifecycle (state j) (JobEvent.command e)
  end.
Proof.
  intros Ha. destruct r as [u|err]; [|by eapply apply_atomic].
  apply apply_inv in Ha as (?&?&?&?&?&next&Hx&?&?&->). split_and!; try done.
  apply execute_true in Hx as (j0&s&Ht&->). by apply transition_lifecycle in Ht.
Qed.

(** C25: every accepted command moves the job along an edge of the life-cycle table, so
    completed and cancelled jobs accept nothing, and publishing leads only to completed
    or needs-action, refusing pause and cancel with [PublishInProgress]. *)
Theorem commands_follow_the_lifecycle c j :
  (∀ j', execute c j = (Ok true, j') → state j' ∈ lifecycle (state j) c) ∧
  (state j = Completed ∨ state j = Cancelled → execute c j = (Err InvalidTransition, j)) ∧
  (state j = Publishing → c = JobCommand.Pause ∨ c = JobCommand.Cancel →
    execute c j = (Err PublishInProgress, j)).
Proof.
  split_and!.
  - intros j' (j0&s&Ht&->)%execute_true. by apply transition_lifecycle in Ht.
  - intros Hs. unfold execute, transition. unfold_monad. by destruct Hs as [->| ->], c.
  - intros Hs Hc. unfold execute, transition. unfold_monad. by rewrite Hs; destruct Hc as [->| ->].
Qed.

(** A stopping job stays stopping, never at a lower severity except by the user's
    [Resume] of a pause, until it is cancelled or its workers have drained: then nothing
    is leased or pending, every written byte is committed or belongs to a representation
    being replaced, and the job lands where the stop target says. *)
Theorem stopping_lands_only_when_settled c j j' :
  wf j → state j = Stopping → execute c j = (Ok true, j') →
  (state j' = Stopping ∧ (c ≠ JobCommand.Resume → ∃ a b, stop j = Some a ∧ stop j' = Some b ∧
     StopTarget.rank a ≤ StopTarget.rank b)) ∨
  (c = JobCommand.Cancel ∧ state j' = Cancelling) ∨
  (c = JobCommand.WorkersDrained ∧ settled j = true ∧ stop j' = None ∧
   ∃ target, stop j = Some target ∧
     state j' = match target with
                | StopTarget.Verifying =>
                    if all_durable j && negb (replace_on_drain j) then Verifying else Paused
                | StopTarget.Paused => Paused
                | StopTarget.Queued => Queued
                | StopTarget.RetryWait _ => RetryWait
                | StopTarget.NeedsAction _ => NeedsAction
                | StopTarget.Failed _ => Failed
                end).
Proof.
  intros Hwf Hst Hx. pose proof Hx as (j0&s&Ht&->)%execute_true.
  assert (∀ j1, wf j1 → state j1 ≠ Stopping → stop j1 = None) as Hns.
  { intros j1 Hw Hne. apply eq_None_not_Some. by rewrite (wf_stop j1 Hw). }
  apply transition_stopping in Ht as [(->&Hd)|[(->&->&_)|[(->&->&?)|(?&->&a&b&?&?&?)]]]; [|..|done].
  - right; right. assert (wf (set_state s j0)) as Hw by (by apply execute_wf in Hx as [? _]).
    apply workers_drained_to in Hd as (Hs&target&s'&Hta&[= <-]&->&_). split_and!; [done..| |eauto].
    apply Hns; [done|]. cbn. destruct target; try done. by case_match.
  - right; left. done.
  - left. split; [done|]. by intros [].
  - left. split; [done|]. intros _. by exists a, b.
Qed.

(** Raising a stop is associative and takes the greater severity, so the target a
    sequence of concurrent causes ends at does not depend on how they are grouped. *)
Theorem raise_is_a_join a b c :
  StopTarget.rank (StopTarget.raise a b) = Z.max (StopTarget.rank a) (StopTarget.rank b) ∧
  StopTarget.raise a (StopTarget.raise b c) = StopTarget.raise (StopTarget.raise a b) c ∧
  StopTarget.raise a a = a.
Proof. split_and!; [apply raise_rank|apply raise_assoc|]. destruct a; cbn; by rewrite ?Z.max_id. Qed.

(** Bytes of different representations never mix: a command either keeps the
    generation or moves to the next one with no segment map and no validator. *)
Theorem new_generation_starts_empty c j j' :
  wf j → command_typed c → execute c j = (Ok true, j') →
  generation j' = generation j ∨
  (Generation.get (generation j') = Generation.get (generation j) + 1 ∧
   segments j' = None ∧ validator j' = None).
Proof.
  intros Hwf Hty (j0&s&Ht&->)%execute_true. cbn.
  apply transition_generation in Ht as [?|(Hg&?&?)]; [by left|right].
  apply Generation.next_Ok in Hg as [_ ?]; [done|]. apply Hwf.
Qed.

(** ** Witnesses: one download of 100 bytes, started, probed and paused *)

Definition after_all (ops : list op) (j : t) : t := foldl (λ j o, after o j) j ops.

Lemma after_all_wf ops j : wf j → Forall op_typed ops → wf (after_all ops j).
Proof.
  intros Hwf Hops. revert j Hwf. unfold after_all.
  induction Hops as [|o ops Ho Hops IH]; intros j Hwf; cbn; [done|]. by apply IH, after_wf.
Qed.

Definition example_spec : JobSpec.t :=
  JobSpec.Make (SourceRef.Make 1) (DestinationRef.Make 1) None Normal 1024.
Definition example_job : t := new (JobId.Make 1) example_spec.
Definition example_transferring : t :=
  after_all [Handle JobCommand.Start; Handle (JobCommand.ProbeSucceeded 100 8 None)] example_job.
Definition example_stopping : t := after_all [Handle JobCommand.Pause] example_transferring.
Definition example_drained : t := (execute JobCommand.WorkersDrained example_stopping).2.

Lemma example_job_wf : wf example_job.
Proof. apply new_wf. unfold JobSpec.wf; cbn. ints. Qed.
Lemma example_transferring_wf : wf example_transferring.
Proof. apply after_all_wf; [apply example_job_wf|]. repeat constructor; cbn; ints. Qed.
Lemma example_stopping_wf : wf example_stopping.
Proof. apply after_all_wf; [apply example_transferring_wf|]. by repeat constructor. Qed.

Lemma reachable_job_invariant_witness : wf example_stopping.
Proof.
  apply (reachable_job_invariant example_stopping).
  unfold example_stopping, example_transferring, after_all; cbn [foldl].
  repeat (apply reachable_step; [|cbn; unfold u64; ints]).
  apply reachable_new. unfold JobSpec.wf; cbn. ints.
Defined.

Lemma persisted_job_restores_witness :
  ∃ j', restore (record_of example_stopping) = Ok j' ∧ plan j' = Some (100, 8).
Proof.
  destruct (persisted_job_restores example_stopping example_stopping_wf)
    as (j'&Hr&_&_&_&_&Hp&_). exists j'. split; [exact Hr|]. rewrite Hp. reflexivity.
Defined.

Lemma decided_event_applies_once_witness :
  ∃ e j', decide_ example_job JobCommand.Start = Ok [e] ∧ apply_ e example_job = (Ok tt, j') ∧
    apply_ e j' = (Err StaleEvent, j').
Proof.
  eexists. destruct (decided_event_applies_once example_job JobCommand.Start
    (JobEvent.Make (JobId.Make 1) 1 Queued Probing Generation.initial JobCommand.Start
      (JobProjection.Make Probing Generation.initial None None None false 1 0 None)) [])
    as (_&_&_&_&j'&Ha&_&_&_&_&_&Hs); [reflexivity|].
  exists j'. split; [reflexivity|]. split; [exact Ha|exact Hs].
Defined.

Lemma apply_is_checked_witness :
  (apply_ (JobEvent.Make (JobId.Make 1) 7 Queued Probing Generation.initial JobCommand.Start
     (projection example_job)) example_job).2 = example_job.
Proof.
  apply (apply_is_checked (JobEvent.Make (JobId.Make 1) 7 Queued Probing Generation.initial
    JobCommand.Start (projection example_job)) example_job (Err StaleEvent)). reflexivity.
Defined.

Lemma commands_follow_the_lifecycle_witness :
  execute JobCommand.Resume (set_state Completed example_job)
  = (Err InvalidTransition, set_state Completed example_job).
Proof. apply commands_follow_the_lifecycle. left. reflexivity. Defined.

Lemma stopping_lands_only_when_settled_witness :
  (state example_drained = Stopping ∧ (JobCommand.WorkersDrained ≠ JobCommand.Resume →
    ∃ a b, stop example_stopping = Some a ∧ stop example_drained = Some b ∧
      StopTarget.rank a ≤ StopTarget.rank b)) ∨ state example_drained = Paused.
Proof.
  destruct (stopping_lands_only_when_settled JobCommand.WorkersDrained example_stopping
    example_drained example_stopping_wf eq_refl eq_refl)
    as [H|[[H _]|(_&_&_&target&Ht&Hs)]].
  - left. exact H.
  - discriminate H.
  - right. vm_compute in Ht. injection Ht as <-. exact Hs.
Defined.

Definition example_paused : t := after_all [Handle JobCommand.Pause] example_job.

Lemma example_paused_wf : wf example_paused.
Proof. apply after_all_wf; [apply example_job_wf|by repeat constructor]. Qed.

Lemma new_generation_starts_empty_witness :
  let j := (execute JobCommand.ReplaceRepresentation example_paused).2 in
  generation j = Generation.initial ∨
  (Generation.get (generation j) = 2 ∧ segments j = None ∧ validator j = None).
Proof.
  cbn zeta. apply (new_generation_starts_empty JobCommand.ReplaceRepresentation example_paused);
    [apply example_paused_wf|exact I|vm_compute; reflexivity].
Defined.
