(* ===== verification/Retry.v ===== *)
(** * Retry decisions

    [src/crates/domain/src/retry.rs]: bounded exponential backoff with caller-supplied
    jitter, on a monotonic millisecond clock the caller reads. *)

From S2P Require Import Prelude Domain.

Inductive ErrorClass : Type := Transient | Throttled | UserAction | Integrity | Fatal.

#[global] Instance ErrorClass_eq_dec : EqDecision ErrorClass.
Proof. solve_decision. Defined.

Inductive RetryDecision : Type := RetryAt (at_ : Z) | NeedsAction | Exhausted.

#[global] Instance RetryDecision_eq_dec : EqDecision RetryDecision.
Proof. solve_decision. Defined.

Module RetryPolicy.
Record t : Type := Make { maximum_attempts : Z; base_delay : Z; maximum_delay : Z }.

Definition new (maximum_attempts base_delay maximum_delay : Z) : result DomainError t :=
  if decide (maximum_attempts < 1 ∨ 32 < maximum_attempts ∨ base_delay = 0
             ∨ maximum_delay < base_delay ∨ 86400000 < maximum_delay)
  then Err InvalidInput
  else Ok (Make maximum_attempts base_delay maximum_delay).

(** The cap on the delay after this many attempts. *)
Definition cap (p : t) (attempts : Z) : Z :=
  Z.min (saturating_mul u64_max (base_delay p)
           (Z.shiftl 1 (Z.min (saturating_sub attempts 1) 31)))
        (maximum_delay p).

Definition decide_ (p : t) (class : ErrorClass) (attempts now : Z)
    (retry_after_deadline : option Z) (jitter : Z) : result DomainError RetryDecision :=
  if decide (attempts = 0) then Err InvalidInput
  else if decide (class ∈ [UserAction; Integrity; Fatal]) then Ok NeedsAction
  else if decide (maximum_attempts p ≤ attempts) then Ok Exhausted
  else
    let delay := jitter mod (cap p attempts + 1) in
    at_ ← ok_or (checked_add now delay) Overflow;
    Ok (RetryAt (Z.max at_ (default now retry_after_deadline))).

(** What [new] guarantees. *)
Definition wf (p : t) : Prop :=
  1 ≤ maximum_attempts p ≤ 32 ∧ 1 ≤ base_delay p ≤ maximum_delay p ∧ maximum_delay p ≤ 86400000.

Lemma policy_new_wf a b m p : u8 a → u64 b → u64 m → new a b m = Ok p → wf p.
Proof. unfold new, u8, u64. case_decide; [done|]. intros ??? [= <-]. unfold wf; cbn. lia. Qed.

(** The saturation and the shift limit never bite: the cap is the doubled delay. *)
Lemma cap_eq p attempts :
  wf p → 1 ≤ attempts < maximum_attempts p →
  cap p attempts = Z.min (base_delay p * 2 ^ (attempts - 1)) (maximum_delay p) ∧
  1 ≤ cap p attempts ≤ maximum_delay p.
Proof.
  intros (?&?&?) ?. unfold cap, saturating_sub.
  rewrite Z.max_r, (Z.min_l (attempts - 1) 31) by lia. rewrite Z.shiftl_1_l.
  pose proof (Z.pow_pos_nonneg 2 (attempts - 1) ltac:(lia) ltac:(lia)).
  pose proof (Z.pow_le_mono_r 2 (attempts - 1) 31 ltac:(lia) ltac:(lia)) as Hp.
  change (2 ^ 31) with 2147483648 in Hp.
  assert (base_delay p * 2 ^ (attempts - 1) ≤ 86400000 * 2147483648) by nia.
  assert (1 ≤ base_delay p * 2 ^ (attempts - 1)) by nia.
  unfold saturating_mul. rewrite (Z.min_r u64_max) by ints. lia.
Qed.

(** A retry decision is made on every branch as the policy promises: user action for
    the three classes a retry cannot help, exhaustion at the attempt limit, and otherwise
    a time that is not before now nor before the server's deadline and not later than the
    doubled, capped delay allows, refusing only when the clock itself would overflow. *)
Theorem retry_within_bounds p class attempts now deadline jitter :
  wf p → 1 ≤ attempts ≤ u8_max → u64 now → u64 jitter →
  let c := Z.min (base_delay p * 2 ^ (attempts - 1)) (maximum_delay p) in
  match decide_ p class attempts now deadline jitter with
  | Ok NeedsAction => class ∈ [UserAction; Integrity; Fatal]
  | Ok Exhausted => class ∈ [Transient; Throttled] ∧ maximum_attempts p ≤ attempts
  | Ok (RetryAt t) => class ∈ [Transient; Throttled] ∧ attempts < maximum_attempts p ∧
      now ≤ t ∧ default now deadline ≤ t ∧ t ≤ Z.max (now + c) (default now deadline)
  | Err e => e = Overflow ∧ class ∈ [Transient; Throttled] ∧ u64_max < now + c
  end.
Proof.
  intros Hwf Ha Hn Hj. cbn zeta. unfold decide_. rewrite decide_False by lia.
  case_decide as Hc; [done|]. assert (class ∈ [Transient; Throttled]) as Hcl.
  { destruct class; set_solver. }
  case_decide; [done|]. destruct (cap_eq p attempts Hwf ltac:(lia)) as [<- ?].
  pose proof (Z.mod_pos_bound jitter (cap p attempts + 1) ltac:(lia)).
  unfold_monad. destruct (checked_add _ _) as [t|] eqn:Ht.
  - apply checked_add_Some in Ht as [-> ?]. split_and!; (done || lia).
  - apply checked_add_None in Ht. split_and!; (done || lia).
Qed.

(** Each further attempt at least keeps the longest possible wait, and it never passes
    the configured maximum. *)
Theorem backoff_cap_grows p a b :
  wf p → 1 ≤ a ≤ b → b < maximum_attempts p →
  cap p a ≤ cap p b ≤ maximum_delay p.
Proof.
  intros Hwf Ha Hb. destruct (cap_eq p a Hwf ltac:(lia)) as [-> ?].
  destruct (cap_eq p b Hwf ltac:(lia)) as [-> ?]. destruct Hwf as (?&?&?).
  assert (2 ^ (a - 1) ≤ 2 ^ (b - 1)) by (apply Z.pow_le_mono_r; lia).
  nia.
Qed.

Definition example_policy : t := Make 5 100 800.

Lemma example_policy_wf : wf example_policy.
Proof. unfold wf; cbn. lia. Qed.

Lemma retry_within_bounds_witness :
  1000 ≤ 5000 ≤ Z.max (1000 + Z.min (100 * 2 ^ (2 - 1)) 800) 5000.
Proof.
  pose proof (retry_within_bounds example_policy Throttled 2 1000 (Some 5000) 37
    example_policy_wf ltac:(ints) ltac:(ints) ltac:(ints)) as H.
  change (Throttled ∈ [Transient; Throttled] ∧ 2 < 5 ∧ 1000 ≤ 5000 ∧ 5000 ≤ 5000 ∧
    5000 ≤ Z.max (1000 + Z.min (100 * 2 ^ (2 - 1)) 800) 5000) in H.
  split; apply H.
Defined.

Lemma backoff_cap_grows_witness : cap example_policy 1 ≤ cap example_policy 4 ≤ 800.
Proof. apply (backoff_cap_grows example_policy 1 4 example_policy_wf); cbn; lia. Defined.
End RetryPolicy.
