(* ===== verification/ResumePolicy.v ===== *)
(** * The policy for one HTTP resume range

    [src/crates/resume-policy/src/lib.rs]: header fields as raw bytes, the parsers of
    decimal numbers, strong entity tags and Content-Range, and the decision on a
    response.  Bytes are [Z] in 0..255, [b' '] and friends their values. *)

From S2P Require Import Prelude.

Definition bytes_ : Type := list Z.
Definition MAX_FIELD_BYTES : Z := 8192.

Inductive Error : Type :=
| MissingHeader | RepeatedHeader | FieldTooLarge | InvalidNumber | InvalidContentRange
| InvalidStrongEtag | InvalidRequestRange | RepresentationChanged | RangeMismatch
| LengthMismatch | NonIdentityEncoding | UnexpectedStatus.

#[global] Instance Error_eq_dec : EqDecision Error.
Proof. solve_decision. Defined.

Inductive Field : Type := Missing | Single (value : list Z) | Repeated.

(** *** Optional white space, numbers *)

Definition is_ows (b : Z) : bool := bool_decide (b = 32 ∨ b = 9).
Fixpoint trim_start_ows (l : list Z) : list Z :=
  match l with [] => [] | b :: l' => if is_ows b then trim_start_ows l' else l end.
Definition trim_end_ows (l : list Z) : list Z := reverse (trim_start_ows (reverse l)).

Definition bounded (value : list Z) : result Error (list Z) :=
  if decide (MAX_FIELD_BYTES < Z.of_nat (length value)) then Err FieldTooLarge
  else Ok (trim_end_ows (trim_start_ows value)).

Definition required (f : Field) : result Error (list Z) :=
  match f with
  | Missing => Err MissingHeader
  | Repeated => Err RepeatedHeader
  | Single value => bounded value
  end.

Definition is_digit (b : Z) : bool := bool_decide (48 ≤ b ≤ 57).

(** The [try_fold] of [decimal]. *)
Fixpoint decimal_from (number : Z) (value : list Z) : result Error Z :=
  match value with
  | [] => Ok number
  | digit :: rest =>
      if is_digit digit then
        n ← ok_or (n ← checked_mul number 10; checked_add n (digit - 48)) InvalidNumber;
        decimal_from n rest
      else Err InvalidNumber
  end.
Definition decimal (value : list Z) : result Error Z :=
  if decide (value = []) then Err InvalidNumber else decimal_from 0 value.

(** [eq_ignore_ascii_case]. *)
Definition to_lower (b : Z) : Z := if decide (65 ≤ b ≤ 90) then b + 32 else b.
Definition eq_ignore_ascii_case (a b : list Z) : bool :=
  bool_decide (to_lower <$> a = to_lower <$> b).

(** [slice::split] on one byte: always at least one part. *)
Fixpoint split_on (sep : Z) (l : list Z) : list (list Z) :=
  match l with
  | [] => [[]]
  | b :: l =>
      if decide (b = sep) then [] :: split_on sep l
      else match split_on sep l with
           | [] => [[b]]
           | part :: parts => (b :: part) :: parts
           end
  end.

(** *** Strong entity tags *)

Module StrongEtag.
Record t : Type := Make { tag : list Z }.
#[global] Instance t_eq_dec : EqDecision t.
Proof. solve_decision. Defined.
Definition etag_char (b : Z) : bool :=
  bool_decide (b = 33 ∨ 35 ≤ b ≤ 126 ∨ 128 ≤ b).
Definition parse (value : list Z) : result Error t :=
  value ← bounded value;
  _ ← refuse_if (bool_decide ((length value < 2)%nat ∨ head value ≠ Some 34 ∨ last value ≠ Some 34))
        InvalidStrongEtag;
  _ ← refuse_if (negb (forallb etag_char (take (length value - 2) (drop 1 value))))
        InvalidStrongEtag;
  Ok (Make value).
End StrongEtag.

(** *** Content-Range *)

Module ContentRange.
Inductive t : Type :=
| Satisfied (start end_exclusive : Z) (total : option Z)
| Unsatisfied (total : Z).
#[global] Instance t_eq_dec : EqDecision t.
Proof. solve_decision. Defined.

(** [b"bytes "], [b"*"]. *)
Definition unit_ : list Z := [98; 121; 116; 101; 115; 32].
Definition star : list Z := [42].

(** The bounds [start-end] in front of the slash. *)
Definition parse_bounds (range : list Z) (total : option Z) : result Error t :=
  match split_on 45 range with
  | [] => Err InvalidContentRange
  | first :: more =>
      start ← decimal first;
      match more with
      | [] => Err InvalidContentRange
      | second :: rest =>
          end_ ← decimal second;
          _ ← refuse_if (bool_decide (rest ≠ [] ∨ end_ < start)
                || is_some_and (λ size, bool_decide (size ≤ end_)) total) InvalidContentRange;
          end_exclusive ← ok_or (checked_add end_ 1) InvalidContentRange;
          Ok (Satisfied start end_exclusive total)
      end
  end.

Definition parse (value : list Z) : result Error t :=
  value ← bounded value;
  _ ← refuse_if (bool_decide (length value < 7)%nat
        || negb (eq_ignore_ascii_case (take 6 value) unit_)) InvalidContentRange;
  match split_on 47 (drop 6 value) with
  | [range; total] =>
      if decide (range = star) then
        total ← decimal total; Ok (Unsatisfied total)
      else
        total ← (if decide (total = star) then Ok None
                 else n ← decimal total; Ok (Some n));
        parse_bounds range total
  | _ => Err InvalidContentRange
  end.
End ContentRange.

(** *** The decision on a response *)

Module ResumeRequest.
Record t : Type := Make { start : Z; end_exclusive : Z; total : Z; etag : StrongEtag.t }.
Definition new (start end_exclusive total : Z) (etag : StrongEtag.t) : result Error t :=
  if decide (end_exclusive ≤ start ∨ total < end_exclusive) then Err InvalidRequestRange
  else Ok (Make start end_exclusive total etag).
End ResumeRequest.

Module ResponseHeaders.
Record t : Type := Make {
  content_range : Field; content_length : Field; etag : Field; content_encoding : Field }.
End ResponseHeaders.

Module BodyPermit.
Record t : Type := Make { expected_bytes : Z }.
Definition verify_received_length (p : t) (received : Z) : result Error unit :=
  if decide (received = expected_bytes p) then Ok tt else Err LengthMismatch.
End BodyPermit.

Inductive Decision : Type :=
| ReadRange (permit : BodyPermit.t)
| RestartSeparately
| Revalidate
| Reject (error : Error).

(** [b"identity"]. *)
Definition identity_ : list Z := [105; 100; 101; 110; 116; 105; 116; 121].

(** The first match of [check_partial]. *)
Definition check_encoding (content_encoding : Field) : result Error unit :=
  match content_encoding with
  | Missing => Ok tt
  | field => v ← required field;
             refuse_if (negb (eq_ignore_ascii_case v identity_)) NonIdentityEncoding
  end.

Definition check_partial (request : ResumeRequest.t) (headers : ResponseHeaders.t) :
    result Error BodyPermit.t :=
  _ ← check_encoding (ResponseHeaders.content_encoding headers);
  raw ← required (ResponseHeaders.etag headers);
  tag ← StrongEtag.parse raw;
  _ ← refuse_if (bool_decide (tag ≠ ResumeRequest.etag request)) RepresentationChanged;
  raw ← required (ResponseHeaders.content_range headers);
  range ← ContentRange.parse raw;
  _ ← refuse_if (bool_decide (range ≠ ContentRange.Satisfied (ResumeRequest.start request)
        (ResumeRequest.end_exclusive request) (Some (ResumeRequest.total request)))) RangeMismatch;
  expected_bytes ← ok_or (checked_sub (ResumeRequest.end_exclusive request)
                            (ResumeRequest.start request)) InvalidRequestRange;
  raw ← required (ResponseHeaders.content_length headers);
  n ← decimal raw;
  _ ← refuse_if (bool_decide (n ≠ expected_bytes)) LengthMismatch;
  Ok (BodyPermit.Make expected_bytes).

Definition evaluate (request : ResumeRequest.t) (status : Z) (headers : ResponseHeaders.t) :
    Decision :=
  if decide (status = 200) then RestartSeparately
  else if decide (status = 416) then Revalidate
  else if decide (status = 206) then
    match check_partial request headers with
    | Ok permit => ReadRange permit
    | Err error => Reject error
    end
  else Reject UnexpectedStatus.

(** ** Reference definitions

    What the parsers are meant to accept: the value of a digit string, and the
    rendering of a number and of a satisfied Content-Range. *)

Definition digits_value (ds : list Z) : Z := foldl (λ n d, n * 10 + (d - 48)) 0 ds.

(** Decimal digits, most significant first, with enough fuel for 64 bits. *)
Fixpoint render_from (fuel : nat) (n : Z) (acc : list Z) : list Z :=
  match fuel with
  | O => acc
  | S fuel =>
      let acc := (48 + n mod 10) :: acc in
      if decide (n < 10) then acc else render_from fuel (n / 10) acc
  end.
Definition render (n : Z) : list Z := render_from 20 n [].

Definition render_content_range (start end_exclusive : Z) (total : option Z) : list Z :=
  ContentRange.unit_ ++ (render start ++ 45 :: render (end_exclusive - 1)) ++
    47 :: match total with Some n => render n | None => ContentRange.star end.

(** ** Numbers *)

Lemma foldl_digits_ge n ds :
  0 ≤ n → Forall (λ d, is_digit d = true) ds → n ≤ foldl (λ n d, n * 10 + (d - 48)) n ds.
Proof.
  intros Hn Hds. revert n Hn. induction Hds as [|d ds Hd Hds IH]; intros n Hn; cbn; [lia|].
  unfold is_digit in Hd. apply bool_decide_eq_true in Hd. etrans; [|apply IH]; lia.
Qed.

Lemma decimal_from_Ok n ds v :
  0 ≤ n → decimal_from n ds = Ok v ↔
  Forall (λ d, is_digit d = true) ds ∧ v = foldl (λ n d, n * 10 + (d - 48)) n ds ∧
  (ds = [] ∨ v ≤ u64_max).
Proof.
  revert n. induction ds as [|d ds IH]; intros n Hn; cbn.
  { split; [intros [= <-]; auto|]. by intros (_&->&_). }
  destruct (is_digit d) eqn:Hd.
  2:{ split; [done|]. intros (Hf&_). inversion Hf; subst. congruence. }
  assert (0 ≤ d - 48 ≤ 9) as Hd' by (unfold is_digit in Hd; apply bool_decide_eq_true in Hd; lia).
  unfold_monad. unfold checked_mul. case_decide as Hm; cbn; [unfold checked_add; case_decide as Ha; cbn|].
  - rewrite IH by lia. rewrite Forall_cons. split; [|naive_solver].
    intros (H1&H2&H3). split_and!; [done..|]. right.
    destruct H3 as [->|?]; [cbn in H2; lia|done].
  - split; [done|]. intros (Hf&->&[[=]|Hle]). inversion Hf; subst.
    pose proof (foldl_digits_ge (n * 10 + (d - 48)) ds ltac:(lia) ltac:(done)). lia.
  - split; [done|]. intros (Hf&->&[[=]|Hle]). inversion Hf; subst.
    pose proof (foldl_digits_ge (n * 10 + (d - 48)) ds ltac:(lia) ltac:(done)). lia.
Qed.

Lemma render_from_app fuel n acc : render_from fuel n acc = render_from fuel n [] ++ acc.
Proof.
  revert n acc. induction fuel as [|fuel IH]; intros n acc; cbn; [done|].
  case_decide; [done|]. rewrite IH, (IH _ [_]). by rewrite <-app_assoc.
Qed.

(** With fuel for the number of digits, rendering is exact. *)
Lemma render_from_ok fuel n :
  0 ≤ n < 10 ^ Z.of_nat fuel → (0 < fuel)%nat →
  render_from fuel n [] ≠ [] ∧ Forall (λ d, is_digit d = true) (render_from fuel n []) ∧
  digits_value (render_from fuel n []) = n.
Proof.
  revert n. induction fuel as [|fuel IH]; intros n Hn Hf; [lia|]. cbn [render_from].
  pose proof (Z.mod_pos_bound n 10 ltac:(lia)).
  assert (is_digit (48 + n mod 10) = true) as Hd by (unfold is_digit; apply bool_decide_eq_true; lia).
  case_decide as Hs.
  - split_and!; [done|by repeat constructor|]. unfold digits_value; cbn.
    rewrite Z.mod_small by lia. lia.
  - rewrite render_from_app.
    rewrite Nat2Z.inj_succ, Z.pow_succ_r in Hn by lia.
    destruct (IH (n / 10)) as (Hne&Hdig&Hval).
    { Z.to_euclidean_division_equations. lia. }
    { destruct fuel; [|lia]. cbn in Hn. lia. }
    split_and!; [by destruct (render_from fuel _ _)|by apply Forall_app; split; [|constructor]|].
    unfold digits_value in *. rewrite foldl_app, Hval; cbn.
    Z.to_euclidean_division_equations. lia.
Qed.

Lemma render_ok n :
  u64 n → render n ≠ [] ∧ Forall (λ d, is_digit d = true) (render n) ∧ digits_value (render n) = n.
Proof. intros Hn. apply render_from_ok; [|lia]. unfold u64 in Hn. cbn. ints. Qed.

Lemma decimal_render n : u64 n → decimal (render n) = Ok n.
Proof.
  intros Hn. destruct (render_ok n Hn) as (Hne&Hd&Hv). unfold decimal. rewrite decide_False by done.
  apply decimal_from_Ok; [done|]. unfold digits_value in Hv. rewrite Hv.
  split_and!; [done..|]. right. apply Hn.
Qed.

(** ** Splitting and trimming *)

Lemma split_on_app sep a b : sep ∉ a → split_on sep (a ++ sep :: b) = a :: split_on sep b.
Proof.
  induction a as [|x a IH]; cbn; intros Hs; [by rewrite decide_True|].
  rewrite decide_False by set_solver. rewrite IH by set_solver. done.
Qed.

Lemma split_on_none sep a : sep ∉ a → split_on sep a = [a].
Proof.
  induction a as [|x a IH]; cbn; intros Hs; [done|].
  rewrite decide_False by set_solver. by rewrite IH by set_solver.
Qed.

Lemma trim_start_noop l :
  (∀ b, head l = Some b → is_ows b = false) → trim_start_ows l = l.
Proof. destruct l as [|b l]; cbn; intros Hb; [done|]. by rewrite (Hb b). Qed.

Lemma bounded_noop l :
  Z.of_nat (length l) ≤ MAX_FIELD_BYTES →
  (∀ b, head l = Some b → is_ows b = false) → (∀ b, last l = Some b → is_ows b = false) →
  bounded l = Ok l.
Proof.
  intros Hl Hh Ht. unfold bounded. rewrite decide_False by lia.
  rewrite trim_start_noop by done. unfold trim_end_ows. rewrite trim_start_noop.
  - by rewrite reverse_involutive.
  - intros b. rewrite head_reverse. apply Ht.
Qed.

Lemma digit_not sep ds :
  Forall (λ d, is_digit d = true) ds → is_digit sep = false → sep ∉ ds.
Proof. intros Hds Hs Hin. rewrite Forall_forall in Hds. apply Hds in Hin. congruence. Qed.

Lemma render_from_length fuel n acc :
  (length (render_from fuel n acc) ≤ fuel + length acc)%nat.
Proof.
  revert n acc. induction fuel as [|fuel IH]; intros n acc; cbn; [lia|].
  case_decide; cbn; [lia|]. etrans; [apply IH|]. cbn. lia.
Qed.

Lemma digit_not_ows b : is_digit b = true → is_ows b = false.
Proof.
  unfold is_digit, is_ows. rewrite bool_decide_eq_true, bool_decide_eq_false. lia.
Qed.

Lemma required_bounded_render start end_ total :
  u64 start → u64 (end_ - 1) → (∀ n, total = Some n → u64 n) →
  bounded (render_content_range start end_ total) = Ok (render_content_range start end_ total).
Proof.
  intros Hs He Ht. unfold render_content_range. apply bounded_noop.
  - rewrite !length_app; cbn.
    pose proof (render_from_length 20 start []). pose proof (render_from_length 20 (end_ - 1) []).
    assert (length (match total with Some n => render n | None => ContentRange.star end) ≤ 20)%nat.
    { destruct total; [apply (render_from_length 20 z [])|cbn; lia]. }
    unfold render, MAX_FIELD_BYTES in *. cbn in *. lia.
  - by intros b [= <-].
  - intros b. rewrite app_assoc, last_app_cons, last_cons. destruct total as [n|]; [|by intros [= <-]].
    destruct (render_ok n (Ht n eq_refl)) as (Hne&Hd&_).
    destruct (last (render n)) as [d|] eqn:Hl; [|by apply last_None in Hl].
    intros [= <-]. apply digit_not_ows. rewrite Forall_forall in Hd.
    apply Hd, list_elem_of_lookup. rewrite last_lookup in Hl. eauto.
Qed.

(** ** The theorems *)

(** [decimal] accepts exactly the non-empty digit strings whose value fits 64 bits, and
    returns that value. *)
Theorem decimal_accepts_exactly value n :
  decimal value = Ok n ↔
  value ≠ [] ∧ Forall (λ d, is_digit d = true) value ∧ n = digits_value value ∧ n ≤ u64_max.
Proof.
  unfold decimal. case_decide as He; [naive_solver|].
  rewrite decimal_from_Ok by done. unfold digits_value. naive_solver.
Qed.

(** A satisfied Content-Range written in the standard form parses back to the range it
    states, for every 64-bit range inside its representation. *)
Theorem content_range_roundtrip start end_ total :
  0 ≤ start < end_ → u64 end_ → (∀ n, total = Some n → end_ ≤ n ∧ u64 n) →
  ContentRange.parse (render_content_range start end_ total)
  = Ok (ContentRange.Satisfied start end_ total).
Proof.
  intros Hs He Ht. unfold ContentRange.parse.
  rewrite required_bounded_render by (unfold u64 in *; try intros n Hn%Ht; intuition lia).
  destruct (render_ok start) as (Hne1&Hd1&_); [unfold u64 in *; lia|].
  destruct (render_ok (end_ - 1)) as (_&Hd2&_); [unfold u64 in *; lia|].
  assert (47 ∉ (render start ++ 45 :: render (end_ - 1))) as H47.
  { apply not_elem_of_app. split; [by apply digit_not|].
    apply not_elem_of_cons. split; [lia|]. by apply digit_not. }
  unfold render_content_range, ContentRange.unit_. cbn [app take drop].
  set (rest := (render start ++ _) ++ _). unfold_monad.
  rewrite bool_decide_eq_false_2.
  2:{ cbn. subst rest. rewrite !length_app; cbn. lia. }
  cbn [orb]. change (eq_ignore_ascii_case _ _) with true. cbn [negb]. subst rest.
  unfold drop. rewrite split_on_app by done. rewrite split_on_none.
  2:{ destruct total as [n|]; [|set_solver]. apply digit_not; [|done]. by apply render_ok, Ht. }
  rewrite decide_False.
  2:{ intros Heq. destruct (render start) as [|d [|]]; [done|discriminate Heq|discriminate Heq]. }
  assert ((if decide (match total with Some n => render n | None => ContentRange.star end
      = ContentRange.star) then Ok None
    else match decimal (match total with Some n => render n | None => ContentRange.star end) with
         | Ok n => Ok (Some n) | Err e => Err e end) = @Ok Error _ total) as Htot.
  { destruct total as [n|]; [|done]. destruct (Ht n eq_refl) as [_ Hn].
    destruct (render_ok n Hn) as (_&Hd&_). rewrite decide_False.
    - by rewrite decimal_render.
    - intros E. rewrite E in Hd. by inversion Hd. }
  rewrite Htot. unfold ContentRange.parse_bounds.
  rewrite split_on_app by (by apply digit_not). rewrite split_on_none by (by apply digit_not).
  unfold_monad. rewrite !decimal_render by (unfold u64 in *; lia).
  rewrite bool_decide_eq_false_2 by (intros [?|?]; [done|lia]).
  replace (is_some_and _ total) with false.
  2:{ destruct total as [n|]; [|done]. cbn. destruct (Ht n eq_refl) as [? _].
      symmetry. apply bool_decide_eq_false. lia. }
  cbn. unfold checked_add. rewrite decide_True by (unfold u64 in *; lia).
  by replace (end_ - 1 + 1) with end_ by lia.
Qed.

(** The body is identity-encoded: the field is missing or says so. *)
Definition identity_encoded (f : Field) : Prop :=
  f = Missing ∨ ∃ v, required f = Ok v ∧ eq_ignore_ascii_case v identity_ = true.

Lemma check_encoding_Ok f : check_encoding f = Ok tt ↔ identity_encoded f.
Proof.
  unfold check_encoding, identity_encoded. destruct f as [|value|]; unfold_monad.
  - split; [by left|done].
  - destruct (required _) as [v|]; [destruct (eq_ignore_ascii_case v identity_) eqn:E; cbn|].
    + split; [|done]. intros _. right. eauto.
    + split; [done|]. intros [[=]|(?&[= <-]&?)]. congruence.
    + split; [done|]. by intros [[=]|(?&[=]&?)].
  - split; [done|]. by intros [[=]|(?&[=]&?)].
Qed.

Lemma check_partial_Ok request headers permit :
  ResumeRequest.start request ≤ ResumeRequest.end_exclusive request →
  check_partial request headers = Ok permit ↔
  permit = BodyPermit.Make (ResumeRequest.end_exclusive request - ResumeRequest.start request) ∧
  identity_encoded (ResponseHeaders.content_encoding headers) ∧
  (∃ raw, required (ResponseHeaders.etag headers) = Ok raw ∧
     StrongEtag.parse raw = Ok (ResumeRequest.etag request)) ∧
  (∃ raw, required (ResponseHeaders.content_range headers) = Ok raw ∧
     ContentRange.parse raw = Ok (ContentRange.Satisfied (ResumeRequest.start request)
       (ResumeRequest.end_exclusive request) (Some (ResumeRequest.total request)))) ∧
  (∃ raw, required (ResponseHeaders.content_length headers) = Ok raw ∧
     decimal raw = Ok (ResumeRequest.end_exclusive request - ResumeRequest.start request)).
Proof.
  intros Hle. unfold check_partial, checked_sub. rewrite decide_True by done.
  rewrite <-check_encoding_Ok. split.
  - unfold_monad. intros H. repeat (case_match; simplify_eq); open_bools; subst.
    destruct a. naive_solver.
  - intros (->&He&(r1&H1&H2)&(r2&H3&H4)&(r3&H5&H6)). unfold_monad. rewrite He.
    rewrite H1, H2, bool_decide_eq_false_2 by naive_solver.
    rewrite H3, H4, bool_decide_eq_false_2 by naive_solver.
    by rewrite H5, H6, bool_decide_eq_false_2 by naive_solver.
Qed.

(** A response is read into the partial file exactly when it is a 206 for this very
    representation (same strong tag, identity encoding), this very range and this very
    length; the permit is then for end minus start bytes and no other number. *)
Theorem reads_only_the_exact_range request status headers permit :
  ResumeRequest.start request ≤ ResumeRequest.end_exclusive request →
  let expected := ResumeRequest.end_exclusive request - ResumeRequest.start request in
  evaluate request status headers = ReadRange permit ↔
  status = 206 ∧ permit = BodyPermit.Make expected ∧
  identity_encoded (ResponseHeaders.content_encoding headers) ∧
  (∃ raw, required (ResponseHeaders.etag headers) = Ok raw ∧
     StrongEtag.parse raw = Ok (ResumeRequest.etag request)) ∧
  (∃ raw, required (ResponseHeaders.content_range headers) = Ok raw ∧
     ContentRange.parse raw = Ok (ContentRange.Satisfied (ResumeRequest.start request)
       (ResumeRequest.end_exclusive request) (Some (ResumeRequest.total request)))) ∧
  (∃ raw, required (ResponseHeaders.content_length headers) = Ok raw ∧ decimal raw = Ok expected).
Proof.
  intros Hle expected. subst expected. rewrite <-(check_partial_Ok request headers permit Hle). unfold evaluate.
  repeat (case_decide; [naive_solver|]). case_decide; [|naive_solver].
  destruct (check_partial _ _); naive_solver.
Qed.

(** Only a body of exactly the permitted length passes, and a request can only be made
    for a non-empty range inside its representation. *)
Theorem permit_is_exact start end_exclusive total etag request permit status headers received :
  ResumeRequest.new start end_exclusive total etag = Ok request →
  evaluate request status headers = ReadRange permit →
  start < end_exclusive ≤ total ∧
  (BodyPermit.verify_received_length permit received = Ok tt ↔ received = end_exclusive - start).
Proof.
  unfold ResumeRequest.new. case_decide; [done|]. intros [= <-] He.
  split; [lia|]. unfold evaluate in He. repeat (case_decide; [done|]).
  case_decide; [|done]. destruct (check_partial _ _) eqn:Hc; [|done]. injection He as <-.
  apply check_partial_Ok in Hc as (->&_); [|cbn; lia]. cbn.
  unfold BodyPermit.verify_received_length; cbn. case_decide; naive_solver.
Qed.

(** ** Witnesses: bytes 4-7 of 12, tagged quote v quote *)

Definition example_tag : list Z := [34; 118; 34].
Definition example_request : ResumeRequest.t :=
  ResumeRequest.Make 4 8 12 (StrongEtag.Make example_tag).
Definition example_headers : ResponseHeaders.t :=
  ResponseHeaders.Make (Single (render_content_range 4 8 (Some 12))) (Single (render 4))
    (Single example_tag) Missing.

Lemma content_range_roundtrip_witness :
  ContentRange.parse (render_content_range 4 8 (Some 12))
  = Ok (ContentRange.Satisfied 4 8 (Some 12)).
Proof.
  apply content_range_roundtrip; [lia|unfold u64; ints|].
  intros n [= <-]. split; [lia|unfold u64; ints].
Defined.

Lemma reads_only_the_exact_range_witness :
  evaluate example_request 206 example_headers = ReadRange (BodyPermit.Make 4).
Proof.
  assert (ResumeRequest.start example_request ≤ ResumeRequest.end_exclusive example_request) as Hle
    by (cbn; lia).
  refine (proj2 (reads_only_the_exact_range example_request 206 example_headers
    (BodyPermit.Make 4) Hle) _).
  split; [reflexivity|]. split; [reflexivity|]. split; [left; reflexivity|]. split; [|split].
  - exists example_tag. split; vm_compute; reflexivity.
  - exists (render_content_range 4 8 (Some 12)). split; vm_compute; reflexivity.
  - exists (render 4). split; vm_compute; reflexivity.
Defined.

Lemma permit_is_exact_witness :
  BodyPermit.verify_received_length (BodyPermit.Make 4) 4 = Ok tt.
Proof.
  refine (proj2 (proj2 (permit_is_exact 4 8 12 (StrongEtag.Make example_tag) example_request
    (BodyPermit.Make 4) 206 example_headers 4 _ _)) _); vm_compute; reflexivity.
Defined.
