(* ===== verification/Origin.v ===== *)
(** * The origin governor

    [src/crates/runtime/src/origin.rs]: how many connections one origin may carry
    across all jobs, and when it may be approached again.  The map behind the mutex
    is a [gmap]; every method runs under the lock, so it is one atomic step. *)

From S2P Require Import Prelude.

(** An [OriginId] is an opaque digest. *)
Definition OriginId : Type := list Z.

Module OriginLimits.
Record t : Type := Make {
  connections : Z;
  failures_before_pause : Z;
  pause_ms : Z;
  maximum_pause_ms : Z }.
Definition default_ : t := Make 8 3 1000 300000.
Definition valid (l : t) : bool :=
  bool_decide (1 ≤ connections l ≤ 64) && bool_decide (1 ≤ failures_before_pause l)
  && bool_decide (0 < pause_ms l)
  && bool_decide (pause_ms l ≤ maximum_pause_ms l ≤ 86400000).
End OriginLimits.

Module State.
Record t : Type := Make {
  in_flight : Z;
  failures : Z;
  backoff_until : Z;
  floor_until : Z }.
#[global] Instance t_eq_dec : EqDecision t.
Proof. solve_decision. Defined.
Definition default_ : t := Make 0 0 0 0.
Definition ready_at (s : t) : Z := Z.max (backoff_until s) (floor_until s).
Definition settled (s : t) (now_ms : Z) : bool :=
  bool_decide (in_flight s = 0) && bool_decide (failures s = 0) && bool_decide (ready_at s ≤ now_ms).
Definition set_in_flight (v : Z) (s : t) : t := Make v (failures s) (backoff_until s) (floor_until s).
End State.

Module OriginGovernor.
Record t : Type := Make { limits : OriginLimits.t; origins : gmap OriginId State.t }.

Definition new (limits : OriginLimits.t) : option t :=
  if OriginLimits.valid limits then Some (Make limits ∅) else None.

(** [origins.entry(origin).or_default()]. *)
Definition entry (g : t) (origin : OriginId) : State.t :=
  default State.default_ (origins g !! origin).
Definition put (g : t) (origin : OriginId) (s : State.t) : t :=
  Make (limits g) (<[origin := s]> (origins g)).
(** Writes the row back, or forgets it once it is settled. *)
Definition put_or_forget (g : t) (origin : OriginId) (s : State.t) (now_ms : Z) : t :=
  if State.settled s now_ms then Make (limits g) (delete origin (origins g)) else put g origin s.

Definition admit_ (g : t) (origin : OriginId) (want now_ms : Z) : Z * t :=
  let s := entry g origin in
  if decide (now_ms < State.ready_at s) then (0, put g origin s)
  else
    let grant := Z.min want
      (saturating_sub (OriginLimits.connections (limits g)) (State.in_flight s)) in
    (grant, put g origin (State.set_in_flight (State.in_flight s + grant) s)).

Definition release (g : t) (origin : OriginId) (granted now_ms : Z) : t :=
  match origins g !! origin with
  | None => g
  | Some s =>
      put_or_forget g origin
        (State.set_in_flight (saturating_sub (State.in_flight s) granted) s) now_ms
  end.

Definition succeeded (g : t) (origin : OriginId) (now_ms : Z) : t :=
  match origins g !! origin with
  | None => g
  | Some s =>
      put_or_forget g origin (State.Make (State.in_flight s) 0 0 (State.floor_until s)) now_ms
  end.

Definition pause_for (g : t) (failures : Z) : Z :=
  let shift := Z.min (saturating_sub failures 1) 31 in
  Z.min (saturating_mul u64_max (OriginLimits.pause_ms (limits g)) (Z.shiftl 1 shift))
    (OriginLimits.maximum_pause_ms (limits g)).

Definition throttled (g : t) (origin : OriginId) (retry_after_ms : option Z) (now_ms : Z) : t :=
  let s := entry g origin in
  let failures := saturating_add u32_max (State.failures s) 1 in
  let floor := match retry_after_ms with
    | Some asked =>
        let asked := Z.min asked (OriginLimits.maximum_pause_ms (limits g)) in
        Z.max (State.floor_until s) (saturating_add u64_max now_ms asked)
    | None => State.floor_until s
    end in
  let ours := saturating_add u64_max now_ms (pause_for g failures) in
  put g origin (State.Make (State.in_flight s) failures (Z.max (State.backoff_until s) ours) floor).

Definition failed (g : t) (origin : OriginId) (now_ms : Z) : t :=
  let s := entry g origin in
  let failures := saturating_add u32_max (State.failures s) 1 in
  let threshold := OriginLimits.failures_before_pause (limits g) in
  let backoff := if decide (threshold ≤ failures) then
      let pause := pause_for g (failures - threshold + 1) in
      Z.max (State.backoff_until s) (saturating_add u64_max now_ms pause)
    else State.backoff_until s in
  put g origin (State.Make (State.in_flight s) failures backoff (State.floor_until s)).

Definition ready_at (g : t) (origin : OriginId) (now_ms : Z) : option Z :=
  match origins g !! origin with
  | Some s => if decide (now_ms < State.ready_at s) then Some (State.ready_at s) else None
  | None => None
  end.
End OriginGovernor.
