(* ===== verification/OriginThm.v ===== *)
(** * What the origin governor promises

    Connections are capped and exactly accounted for, a server's own delay is
    honoured until it expires, no stand-down outlasts the configured maximum, and
    forgetting settled rows cannot be observed. *)

From S2P Require Import Prelude.
From S2P Require Import Origin.
Import OriginGovernor.

(** ** One call at one time *)

Inductive op : Type :=
| Admit (origin : OriginId) (want : Z)
| Release (origin : OriginId) (granted : Z)
| Succeeded (origin : OriginId)
| Throttled (origin : OriginId) (retry_after_ms : option Z)
| Failed (origin : OriginId).

Definition origin_of (o : op) : OriginId :=
  match o with
  | Admit origin _ | Release origin _ | Succeeded origin | Throttled origin _ | Failed origin =>
      origin
  end.

(** The grant, zero for the calls that return nothing, and the governor after it. *)
Definition step (o : op) (now_ms : Z) (g : t) : Z * t :=
  match o with
  | Admit origin want => admit_ g origin want now_ms
  | Release origin granted => (0, release g origin granted now_ms)
  | Succeeded origin => (0, succeeded g origin now_ms)
  | Throttled origin retry_after_ms => (0, throttled g origin retry_after_ms now_ms)
  | Failed origin => (0, failed g origin now_ms)
  end.

Definition op_typed (o : op) : Prop :=
  match o with
  | Admit _ want => 0 ≤ want
  | Release _ granted => 0 ≤ granted
  | Throttled _ (Some asked) => 0 ≤ asked
  | _ => True
  end.

(** ** Rows that cannot be told apart *)

(** Two rows no caller can tell apart from this moment on. *)
Definition same_row (now_ms : Z) (s r : State.t) : Prop :=
  State.in_flight s = State.in_flight r ∧ State.failures s = State.failures r ∧
  (State.backoff_until s = State.backoff_until r
   ∨ State.backoff_until s ≤ now_ms ∧ State.backoff_until r ≤ now_ms) ∧
  (State.floor_until s = State.floor_until r
   ∨ State.floor_until s ≤ now_ms ∧ State.floor_until r ≤ now_ms).

#[global] Instance same_row_equivalence now_ms : Equivalence (same_row now_ms).
Proof.
  unfold same_row. split.
  - intros s. auto.
  - intros s r ?. intuition lia.
  - intros s r q ??. intuition lia.
Qed.

Lemma same_row_later now now' s r : now ≤ now' → same_row now s r → same_row now' s r.
Proof. unfold same_row. intuition lia. Qed.

Lemma saturating_add_ge now x : u64 now → 0 ≤ x → now ≤ saturating_add u64_max now x.
Proof. unfold u64, saturating_add. lia. Qed.

(** A stand-down starting now overrides anything that has already expired. *)
Lemma max_expired now a b x :
  a = b ∨ a ≤ now ∧ b ≤ now → now ≤ x → Z.max a x = Z.max b x.
Proof. lia. Qed.

(** A settled row is the same as no row. *)
Lemma settled_same_row s now_ms :
  State.settled s now_ms = true → 0 ≤ now_ms → same_row now_ms s State.default_.
Proof.
  unfold State.settled, State.ready_at. intros Hs ?. open_bools. unfold same_row; cbn. lia.
Qed.
(** ** The reference: the same rows, never forgotten *)

Section Rows.
Variable l : OriginLimits.t.

Let pause (failures : Z) : Z := pause_for (Make l ∅) failures.

Definition row_step (o : op) (now_ms : Z) (s : State.t) : Z * State.t :=
  match o with
  | Admit _ want =>
      if decide (now_ms < State.ready_at s) then (0, s)
      else let grant := Z.min want
             (saturating_sub (OriginLimits.connections l) (State.in_flight s)) in
           (grant, State.set_in_flight (State.in_flight s + grant) s)
  | Release _ granted => (0, State.set_in_flight (saturating_sub (State.in_flight s) granted) s)
  | Succeeded _ => (0, State.Make (State.in_flight s) 0 0 (State.floor_until s))
  | Throttled _ retry_after_ms =>
      let failures := saturating_add u32_max (State.failures s) 1 in
      (0, State.Make (State.in_flight s) failures
            (Z.max (State.backoff_until s) (saturating_add u64_max now_ms (pause failures)))
            (match retry_after_ms with
             | Some asked => Z.max (State.floor_until s) (saturating_add u64_max now_ms
                               (Z.min asked (OriginLimits.maximum_pause_ms l)))
             | None => State.floor_until s
             end))
  | Failed _ =>
      let failures := saturating_add u32_max (State.failures s) 1 in
      let threshold := OriginLimits.failures_before_pause l in
      (0, State.Make (State.in_flight s) failures
            (if decide (threshold ≤ failures)
             then Z.max (State.backoff_until s)
                    (saturating_add u64_max now_ms (pause (failures - threshold + 1)))
             else State.backoff_until s)
            (State.floor_until s))
  end.

(** The reference governor: a row for every origin, and nothing is ever dropped. *)
Definition ref_step (o : op) (now_ms : Z) (r : OriginId → State.t) : Z * (OriginId → State.t) :=
  let '(grant, s) := row_step o now_ms (r (origin_of o)) in
  (grant, λ origin, if decide (origin = origin_of o) then s else r origin).

Lemma pause_pos failures : OriginLimits.valid l = true → 0 < pause failures ≤ OriginLimits.maximum_pause_ms l.
Proof.
  unfold OriginLimits.valid. intros Hv. open_bools. unfold pause, pause_for; cbn.
  set (shift := Z.min _ 31). assert (0 ≤ shift) by (unfold shift, saturating_sub; lia).
  rewrite Z.shiftl_1_l. pose proof (Z.pow_pos_nonneg 2 shift ltac:(lia) ltac:(lia)).
  unfold saturating_mul. assert (0 < OriginLimits.pause_ms l * 2 ^ shift) by nia. ints.
Qed.

#[global] Instance row_step_proper o now_ms :
  OriginLimits.valid l = true → u64 now_ms → op_typed o →
  Proper (same_row now_ms ==> λ x y, x.1 = y.1 ∧ same_row now_ms x.2 y.2) (row_step o now_ms).
Proof.
  intros Hv Hn Hty s r (Hi&Hf&Hb&Hfl). destruct o as [? want|? granted|?|? asked|?]; cbn.
  - unfold State.ready_at. rewrite <-Hi.
    destruct (decide (now_ms < Z.max (State.backoff_until s) (State.floor_until s))) as [H1|H1],
      (decide (now_ms < Z.max (State.backoff_until r) (State.floor_until r))) as [H2|H2];
      try (exfalso; lia); cbn; split; try done; unfold same_row; cbn; rewrite <-?Hi; auto 10.
  - unfold same_row; cbn. rewrite <-Hi. auto 10.
  - unfold same_row; cbn. rewrite <-Hi. auto 10.
  - rewrite <-Hf. set (f := saturating_add u32_max _ _).
    split; [done|]. unfold same_row; cbn. split_and!; [done|done|..].
    + left. apply (max_expired now_ms); [done|]. apply saturating_add_ge; [done|].
      pose proof (pause_pos f Hv). lia.
    + destruct asked as [asked|]; [|done]. left. apply (max_expired now_ms); [done|].
      apply saturating_add_ge; [done|]. unfold OriginLimits.valid in Hv. open_bools.
      cbn in Hty. lia.
  - rewrite <-Hf. set (f := saturating_add u32_max _ _).
    split; [done|]. unfold same_row; cbn. split_and!; [done|done| |done].
    case_decide; [|done]. left. apply (max_expired now_ms); [done|].
    apply saturating_add_ge; [done|]. pose proof (pause_pos (f - OriginLimits.failures_before_pause l + 1) Hv). lia.
Qed.

End Rows.

(** ** The governor follows its rows *)

(** What a call does to the row of one origin: what [row_step] says, or, when that is
    settled, nothing at all is kept. *)
Lemma entry_put g o s o' : entry (put g o s) o' = if decide (o' = o) then s else entry g o'.
Proof.
  unfold entry, put; cbn. case_decide as Ho.
  - subst. by rewrite lookup_insert_eq.
  - by rewrite lookup_insert_ne.
Qed.

Lemma entry_put_or_forget g o s now_ms o' :
  entry (put_or_forget g o s now_ms) o' =
    if decide (o' = o) then (if State.settled s now_ms then State.default_ else s) else entry g o'.
Proof.
  unfold put_or_forget. destruct (State.settled s now_ms); [|by rewrite entry_put].
  unfold entry; cbn. case_decide as Ho.
  - subst. by rewrite lookup_delete_eq.
  - by rewrite lookup_delete_ne.
Qed.

Lemma entry_missing g o : origins g !! o = None → entry g o = State.default_.
Proof. unfold entry. by intros ->. Qed.
Lemma entry_present g o s : origins g !! o = Some s → entry g o = s.
Proof. unfold entry. by intros ->. Qed.

Lemma pause_for_limits g f : pause_for g f = pause_for (Make (limits g) ∅) f.
Proof. done. Qed.

Lemma step_limits o now_ms g : limits (step o now_ms g).2 = limits g.
Proof.
  destruct o as [origin want|origin granted|origin|origin asked|origin]; cbn.
  - unfold admit_. by case_decide.
  - unfold release. destruct (origins g !! origin); [|done].
    unfold put_or_forget. by case_match.
  - unfold succeeded. destruct (origins g !! origin); [|done].
    unfold put_or_forget. by case_match.
  - done.
  - done.
Qed.

Lemma step_entry o now_ms g o' :
  op_typed o →
  (step o now_ms g).1 = (row_step (limits g) o now_ms (entry g (origin_of o))).1 ∧
  (o' ≠ origin_of o → entry (step o now_ms g).2 o' = entry g o') ∧
  (let s := (row_step (limits g) o now_ms (entry g (origin_of o))).2 in
   entry (step o now_ms g).2 (origin_of o) = s ∨
   State.settled s now_ms = true ∧ entry (step o now_ms g).2 (origin_of o) = State.default_).
Proof.
  intros Hty. destruct o as [origin want|origin granted|origin|origin asked|origin]; cbn.
  - unfold admit_. case_decide; cbn; rewrite !entry_put, (decide_True (P := origin = origin)) by done;
      (split; [done|]; split; [|by left]; intros ?; by rewrite decide_False).
  - split; [done|]. unfold release. destruct (origins g !! origin) as [s|] eqn:Ho; cbn.
    + rewrite (entry_present _ _ _ Ho). rewrite !entry_put_or_forget, (decide_True (P := origin = origin)) by done.
      split; [intros ?; by rewrite decide_False|]. case_match; auto.
    + split; [done|]. rewrite (entry_missing _ _ Ho). left. cbn in Hty.
      unfold State.set_in_flight, saturating_sub, State.default_; cbn. f_equal. lia.
  - split; [done|]. unfold succeeded. destruct (origins g !! origin) as [s|] eqn:Ho; cbn.
    + rewrite (entry_present _ _ _ Ho). rewrite !entry_put_or_forget, (decide_True (P := origin = origin)) by done.
      split; [intros ?; by rewrite decide_False|]. case_match; auto.
    + split; [done|]. rewrite (entry_missing _ _ Ho). by left.
  - split; [done|]. unfold throttled. rewrite !entry_put, (decide_True (P := origin = origin)) by done.
    split; [intros ?; by rewrite decide_False|by left].
  - split; [done|]. unfold failed. rewrite !entry_put, (decide_True (P := origin = origin)) by done.
    split; [intros ?; by rewrite decide_False|by left].
Qed.

(** ** Histories on a clock that does not go back *)

Definition history : Type := list (Z * op).

Fixpoint timed (now_ms : Z) (h : history) : Prop :=
  match h with
  | [] => True
  | (at_, o) :: h => now_ms ≤ at_ ∧ u64 at_ ∧ op_typed o ∧ timed at_ h
  end.

(** The time of the last call. *)
Fixpoint last_time (now_ms : Z) (h : history) : Z :=
  match h with [] => now_ms | (at_, _) :: h => last_time at_ h end.

Lemma timed_last now_ms h : timed now_ms h → now_ms ≤ last_time now_ms h.
Proof.
  revert now_ms. induction h as [|[at_ o] h IH]; intros now_ms; cbn; [lia|].
  intros (?&_&_&?%IH). lia.
Qed.

Fixpoint run (h : history) (g : t) : list Z * t :=
  match h with
  | [] => ([], g)
  | (at_, o) :: h =>
      let '(grant, g) := step o at_ g in
      let '(grants, g) := run h g in (grant :: grants, g)
  end.

Fixpoint ref_run (l : OriginLimits.t) (h : history) (r : OriginId → State.t) :
    list Z * (OriginId → State.t) :=
  match h with
  | [] => ([], r)
  | (at_, o) :: h =>
      let '(grant, r) := ref_step l o at_ r in
      let '(grants, r) := ref_run l h r in (grant :: grants, r)
  end.

Lemma step_simulates l o now_ms g r :
  OriginLimits.valid l = true → limits g = l → u64 now_ms → op_typed o →
  (∀ origin, same_row now_ms (entry g origin) (r origin)) →
  (step o now_ms g).1 = (ref_step l o now_ms r).1 ∧
  ∀ origin, same_row now_ms (entry (step o now_ms g).2 origin) ((ref_step l o now_ms r).2 origin).
Proof.
  intros Hv <- Hn Hty Hsame. unfold ref_step.
  pose proof (row_step_proper (limits g) o now_ms Hv Hn Hty _ _ (Hsame (origin_of o))) as [H1 H2].
  destruct (row_step (limits g) o now_ms (r (origin_of o))) as [grant s] eqn:Hr; cbn in *.
  destruct (step_entry o now_ms g (origin_of o) Hty) as (Hg&_&He). cbn in He.
  split; [congruence|]. intros origin. destruct (decide (origin = origin_of o)) as [->|Hne].
  - destruct He as [->|[Hs ->]]; [done|]. etrans; [|exact H2]. symmetry.
    apply settled_same_row; [done|apply Hn].
  - destruct (step_entry o now_ms g origin Hty) as (_&Ho&_). by rewrite Ho.
Qed.

Lemma run_simulates l h now_ms g r :
  OriginLimits.valid l = true → limits g = l → timed now_ms h →
  (∀ origin, same_row now_ms (entry g origin) (r origin)) →
  (run h g).1 = (ref_run l h r).1 ∧
  ∀ origin, same_row (last_time now_ms h) (entry (run h g).2 origin) ((ref_run l h r).2 origin).
Proof.
  intros Hv. revert now_ms g r. induction h as [|[at_ o] h IH]; intros now_ms g r Hl Ht Hs; cbn; [done|].
  cbn in Ht. destruct Ht as (Hle&Hat&Hty&Ht).
  destruct (step_simulates l o at_ g r Hv Hl Hat Hty) as [Hg Hs'].
  { intros origin. by eapply same_row_later. }
  pose proof (step_limits o at_ g) as Hl'. destruct (step o at_ g) as [grant g'].
  destruct (ref_step l o at_ r) as [grant' r']. cbn in *. subst grant'.
  destruct (IH at_ g' r' ltac:(congruence) Ht Hs') as [Hgs Hs''].
  destruct (run h g') as [grants g'']. destruct (ref_run l h r') as [grants' r'']. cbn in *.
  by subst.
Qed.

(** ** Accounting *)

(** What callers hold: grants taken and not yet given back.  A caller gives back only
    what it holds. *)
Definition ledger : Type := OriginId → Z.
Definition book (o : op) (grant : Z) (held : ledger) : ledger := λ origin,
  if decide (origin = origin_of o) then
    match o with
    | Admit _ _ => held origin + grant
    | Release _ granted => held origin - granted
    | _ => held origin
    end
  else held origin.
Definition honest (o : op) (held : ledger) : Prop :=
  match o with Release origin granted => granted ≤ held origin | _ => True end.

Inductive reachable : Z → t → ledger → Prop :=
| reachable_new l g now_ms : new l = Some g → 0 ≤ now_ms → reachable now_ms g (λ _, 0)
| reachable_step o now_ms now' g held :
    reachable now_ms g held → now_ms ≤ now' → u64 now' → op_typed o → honest o held →
    reachable now' (step o now' g).2 (book o (step o now' g).1 held).

Record row_wf (l : OriginLimits.t) (now_ms held : Z) (s : State.t) : Prop := {
  row_held : State.in_flight s = held;
  row_cap : 0 ≤ held ≤ OriginLimits.connections l;
  row_failures : 0 ≤ State.failures s ≤ u32_max;
  row_ready : State.ready_at s ≤ now_ms + OriginLimits.maximum_pause_ms l }.

Lemma row_step_wf l o now_ms now' held s :
  OriginLimits.valid l = true → now_ms ≤ now' → u64 now' → op_typed o →
  (match o with Release _ granted => granted ≤ held | _ => True end) →
  row_wf l now_ms held s →
  let '(grant, s') := row_step l o now' s in
  row_wf l now' (match o with
                 | Admit _ _ => held + grant
                 | Release _ granted => held - granted
                 | _ => held
                 end) s'.
Proof.
  intros Hv Hle Hn Hty Hh [Hi Hc Hf Hr]. unfold u64 in Hn.
  assert (∀ f, 0 < pause_for (Make l ∅) f ≤ OriginLimits.maximum_pause_ms l) as Hp
    by (intros; by apply pause_pos).
  unfold OriginLimits.valid in Hv. open_bools. unfold State.ready_at in Hr.
  destruct o as [? want|? granted|?|? [asked|]|?]; cbn in *.
  - case_decide; constructor; unfold State.ready_at; cbn; unfold saturating_sub; lia.
  - constructor; unfold State.ready_at; cbn; unfold saturating_sub; lia.
  - constructor; unfold State.ready_at; cbn; unfold u32_max; lia.
  - set (f := saturating_add u32_max _ _). specialize (Hp f).
    constructor; unfold State.ready_at; cbn; subst f; ints.
  - set (f := saturating_add u32_max _ _). specialize (Hp f).
    constructor; unfold State.ready_at; cbn; subst f; ints.
  - set (f := saturating_add u32_max _ _).
    specialize (Hp (f - OriginLimits.failures_before_pause l + 1)).
    constructor; unfold State.ready_at; cbn; try case_decide; subst f;
      ints.
Qed.

(** A forgotten row satisfies what its settled predecessor did. *)
Lemma settled_wf l now_ms held s :
  row_wf l now_ms held s → State.settled s now_ms = true → 0 ≤ now_ms →
  0 ≤ OriginLimits.maximum_pause_ms l → row_wf l now_ms held State.default_.
Proof.
  unfold State.settled. intros [<- ? ? ?] Hs ??. open_bools.
  constructor; unfold State.ready_at; cbn; unfold u32_max; lia.
Qed.

Lemma reachable_rows now_ms g held :
  reachable now_ms g held →
  OriginLimits.valid (limits g) = true ∧ ∀ origin, row_wf (limits g) now_ms (held origin) (entry g origin).
Proof.
  induction 1 as [l g now_ms Hn H0|o now_ms now' g held Hr [Hv IH] Hle Hn Hty Hh].
  - unfold new in Hn. destruct (OriginLimits.valid l) eqn:Hv; [|done]. injection Hn as <-.
    split; [done|]. intros origin. unfold OriginLimits.valid in Hv. open_bools.
    unfold entry; cbn. rewrite lookup_empty; cbn. constructor; unfold State.ready_at; cbn; unfold u32_max; lia.
  - rewrite step_limits. split; [done|]. intros origin. unfold book.
    destruct (step_entry o now' g origin Hty) as (Hg&Ho&_). case_decide as Hor.
    + subst origin. destruct (step_entry o now' g (origin_of o) Hty) as (_&_&He). cbn in He.
      pose proof (row_step_wf (limits g) o now_ms now' (held (origin_of o)) _ Hv Hle Hn Hty
        ltac:(by destruct o) (IH (origin_of o))) as Hw.
      destruct (row_step _ _ _ _) as [grant s]; cbn in *. subst grant.
      destruct He as [->|[Hs ->]]; [by destruct o|].
      eapply settled_wf; [by destruct o|done|by destruct Hn|].
      unfold OriginLimits.valid in Hv. open_bools. lia.
    + rewrite Ho by done. destruct (IH origin). constructor; try done. lia.
Qed.

(** ** The theorems *)

(** C31: whatever callers do, an origin never carries more connections than its cap, the
    governor's count is exactly what the callers hold, and no origin stands down for
    longer than the configured maximum after the latest call. *)
Theorem connections_are_capped_and_exact now_ms g held origin :
  reachable now_ms g held →
  State.in_flight (entry g origin) = held origin ∧
  0 ≤ held origin ≤ OriginLimits.connections (limits g) ∧
  State.ready_at (entry g origin) ≤ now_ms + OriginLimits.maximum_pause_ms (limits g).
Proof. intros [_ Hr]%reachable_rows. by destruct (Hr origin). Qed.

(** A grant is never more than was asked nor than the cap leaves free, and nothing is
    granted while the origin stands down. *)
Theorem admit_grants_within_the_cap now_ms g held origin want now' :
  reachable now_ms g held → 0 ≤ want →
  let grant := (admit_ g origin want now').1 in
  0 ≤ grant ≤ want ∧ held origin + grant ≤ OriginLimits.connections (limits g) ∧
  (now' < State.ready_at (entry g origin) → grant = 0) ∧
  (State.ready_at (entry g origin) ≤ now' →
   grant = Z.min want (OriginLimits.connections (limits g) - held origin)).
Proof.
  intros [_ Hr]%reachable_rows Hw. destruct (Hr origin) as [Hi Hc _ _].
  unfold admit_, saturating_sub. rewrite Hi. case_decide; cbn; lia.
Qed.

(** Forgetting settled rows cannot be observed: along any history on a clock that does
    not go back, the governor grants what a governor that never forgets grants, and
    afterwards gives the same answer on when each origin is ready. *)
Theorem forgetting_is_unobservable l g now_ms h origin now' :
  new l = Some g → 0 ≤ now_ms → timed now_ms h → last_time now_ms h ≤ now' →
  let r := (ref_run l h (λ _, State.default_)).2 in
  (run h g).1 = (ref_run l h (λ _, State.default_)).1 ∧
  ready_at (run h g).2 origin now' =
    if decide (now' < State.ready_at (r origin)) then Some (State.ready_at (r origin)) else None.
Proof.
  unfold new. intros Hn Hpos Ht Hle. destruct (OriginLimits.valid l) eqn:Hv; [|done].
  injection Hn as <-. pose proof (timed_last now_ms h Ht).
  destruct (run_simulates l h now_ms (Make l ∅) (λ _, State.default_) Hv eq_refl Ht) as [Hg Hs].
  { intros o. unfold entry; cbn. by rewrite lookup_empty. }
  split; [done|]. specialize (Hs origin). destruct Hs as (_&_&Hb&Hf).
  unfold ready_at, State.ready_at in *. unfold entry in *.
  destruct (origins _ !! origin) as [s|]; cbn in *; repeat case_decide; try (f_equal; lia); lia.
Qed.

Lemma floor_kept o at_ g origin floor :
  at_ < floor → op_typed o → floor ≤ State.floor_until (entry g origin) →
  floor ≤ State.floor_until (entry (step o at_ g).2 origin).
Proof.
  intros Hlt Hty Hf. destruct (step_entry o at_ g origin Hty) as (_&Ho&_).
  destruct (decide (origin = origin_of o)) as [->|Hne]; [|by rewrite Ho].
  destruct (step_entry o at_ g (origin_of o) Hty) as (_&_&He). cbn in He.
  assert (floor ≤ State.floor_until (row_step (limits g) o at_ (entry g (origin_of o))).2) as Hr.
  { destruct o as [? want|? granted|?|? [asked|]|?]; cbn in *; try case_decide; cbn; lia. }
  destruct He as [->|[Hs _]]; [done|]. exfalso. unfold State.settled, State.ready_at in Hs.
  open_bools. lia.
Qed.

(** A delay the server asked for is honoured, capped at the maximum, until it has
    passed: no history of other calls before that moment, successes included, makes the
    governor grant a connection to that origin. *)
Theorem server_delay_is_a_floor g origin asked now_ms h want now' :
  Forall (λ e : Z * op, e.1 < saturating_add u64_max now_ms
      (Z.min asked (OriginLimits.maximum_pause_ms (limits g))) ∧ op_typed e.2) h →
  now' < saturating_add u64_max now_ms (Z.min asked (OriginLimits.maximum_pause_ms (limits g))) →
  (admit_ (run h (throttled g origin (Some asked) now_ms)).2 origin want now').1 = 0.
Proof.
  set (floor := saturating_add _ _ _). intros Hh Hn.
  assert (floor ≤ State.floor_until (entry (throttled g origin (Some asked) now_ms) origin)) as Hf.
  { unfold throttled. rewrite entry_put, decide_True by done. cbn. lia. }
  revert Hf. generalize (throttled g origin (Some asked) now_ms).
  induction Hh as [|[at_ o] h [Hat Hty] _ IH]; intros g' Hf; cbn [run snd].
  - unfold admit_. rewrite decide_True; [done|]. unfold State.ready_at. lia.
  - pose proof (floor_kept o at_ g' origin floor Hat Hty Hf) as Hf'.
    destruct (step o at_ g') as [grant g'']. specialize (IH g'' Hf').
    destruct (run h g'') as [grants g3]. exact IH.
Qed.

(** ** Witnesses: two jobs share one origin under the default limits *)

Definition example_origin : OriginId := [1].
Definition example_governor : t := Make OriginLimits.default_ ∅.
Definition example_history : history :=
  [(10, Admit example_origin 5); (20, Admit example_origin 5); (30, Throttled example_origin (Some 500));
   (40, Admit example_origin 1); (50, Succeeded example_origin); (60, Release example_origin 5)].

Lemma example_reachable :
  reachable 20 (step (Admit example_origin 5) 20 example_governor).2
    (book (Admit example_origin 5) (step (Admit example_origin 5) 20 example_governor).1 (λ _, 0)).
Proof.
  apply (reachable_step _ 0); [|lia|split; ints|cbn; lia|exact I].
  apply (reachable_new OriginLimits.default_); [reflexivity|lia].
Qed.

Lemma connections_are_capped_and_exact_witness :
  State.in_flight (entry (step (Admit example_origin 5) 20 example_governor).2 example_origin) = 5.
Proof.
  rewrite (proj1 (connections_are_capped_and_exact _ _ _ example_origin example_reachable)).
  vm_compute. reflexivity.
Defined.

Lemma admit_grants_within_the_cap_witness :
  (admit_ (step (Admit example_origin 5) 20 example_governor).2 example_origin 5 30).1 = 3.
Proof.
  destruct (admit_grants_within_the_cap _ _ _ example_origin 5 30 example_reachable ltac:(lia))
    as (_&_&_&H).
  rewrite H; [vm_compute; reflexivity|vm_compute; discriminate].
Defined.

Lemma forgetting_is_unobservable_witness :
  (run example_history example_governor).1 = [5; 3; 0; 0; 0; 0].
Proof.
  rewrite (proj1 (forgetting_is_unobservable OriginLimits.default_ example_governor 0
    example_history example_origin 100 eq_refl ltac:(lia)
    ltac:(cbn; unfold u64; ints) ltac:(cbn; lia))).
  vm_compute. reflexivity.
Defined.

Lemma server_delay_is_a_floor_witness :
  (admit_ (run [(50, Succeeded example_origin)]
    (throttled example_governor example_origin (Some 500) 30)).2 example_origin 1 529).1 = 0.
Proof.
  apply (server_delay_is_a_floor example_governor example_origin 500 30); [|vm_compute; reflexivity].
  constructor; [|constructor]. split; [vm_compute; reflexivity|exact I].
Defined.
