(* ===== verification/Admission.v ===== *)
(** * Admitting a download

    [src/crates/application/src/lib.rs]: receipts, the repository port and
    [AddDownload.execute].  The repository is an interface; [execute] is a program
    over its calls, so that any number of callers can be interleaved between them. *)

From S2P Require Import Prelude.
From S2P Require Import Domain.
From S2P Require Import JobMachine.

Module AppError.
Inductive t : Type :=
| InvalidInput | Forbidden | EntitlementDenied | PersistenceUnavailable | IdempotencyConflict
| PreviouslyRemoved | Capacity | CorruptRepository.
#[global] Instance t_eq_dec : EqDecision t.
Proof. solve_decision. Defined.
End AppError.

Module CommitError.
Inductive t : Type := Conflict | Unavailable | Capacity.
#[global] Instance t_eq_dec : EqDecision t.
Proof. solve_decision. Defined.
End CommitError.

Module Principal.
Record t : Type := Make { get : Z }.
#[global] Instance t_eq_dec : EqDecision t.
Proof. solve_decision. Defined.
#[global] Instance t_countable : Countable t.
Proof. apply (inj_countable' get Make). by intros []. Defined.
Definition new (value : Z) : result AppError.t t :=
  if decide (value = 0) then Err AppError.InvalidInput else Ok (Make value).
End Principal.

Module ReceiptKey.
Record t : Type := Make { principal : Principal.t; digest : digest32 }.
#[global] Instance t_eq_dec : EqDecision t.
Proof. solve_decision. Defined.
#[global] Instance t_countable : Countable t.
Proof.
  unshelve eapply (inj_countable' (A := Principal.t * list Z)
    (λ k, (principal k, digest k)) (λ p, Make p.1 p.2)). by intros [].
Defined.
Definition typed (k : t) : Prop :=
  1 ≤ Principal.get (principal k) ≤ u64_max ∧ length (digest k) = 32%nat.
End ReceiptKey.

Module Receipt.
Record t : Type := Make {
  key : ReceiptKey.t; original : JobSpec.t; job : JobId.t; removed : bool }.
#[global] Instance t_eq_dec : EqDecision t.
Proof. solve_decision. Defined.
Definition new (key : ReceiptKey.t) (original : JobSpec.t) (job : JobId.t) : t :=
  Make key original job false.
Definition tombstone (r : t) : t := Make (key r) (original r) (job r) true.
Definition replay (r : t) (key_ : ReceiptKey.t) (spec : JobSpec.t) : result AppError.t JobId.t :=
  _ ← refuse_if (bool_decide (key r ≠ key_)) AppError.CorruptRepository;
  _ ← refuse_if (bool_decide (original r ≠ spec)) AppError.IdempotencyConflict;
  _ ← refuse_if (removed r) AppError.PreviouslyRemoved;
  Ok (job r).
End Receipt.

Module AddUnitOfWork.
Record t : Type := Make { job : Job.t; receipt : Receipt.t }.
Definition typed (u : t) : Prop :=
  ReceiptKey.typed (Receipt.key (receipt u)) ∧ JobSpec.typed (Receipt.original (receipt u)).
End AddUnitOfWork.

(** ** The ports *)

(** [Authorizer] and [EntitlementGate]. *)
Definition Gate : Type := Principal.t → JobSpec.t → result AppError.t unit.

(** [JobRepository]: each call is one transaction on the repository's state. *)
Class JobRepository (R : Type) : Type := {
  receipt : ReceiptKey.t → st R AppError.t (option Receipt.t);
  reserve_id : st R AppError.t JobId.t;
  commit_add : AddUnitOfWork.t → st R CommitError.t unit }.

(** A program over the port: the repository calls a caller makes, in order, each with
    what the caller does with the answer. *)
Inductive prog (A : Type) : Type :=
| Return (a : A)
| CallReceipt (key : ReceiptKey.t) (k : result AppError.t (option Receipt.t) → prog A)
| CallReserveId (k : result AppError.t JobId.t → prog A)
| CallCommitAdd (unit_ : AddUnitOfWork.t) (k : result CommitError.t unit → prog A).
Arguments Return {A} a.
Arguments CallReceipt {A} key k.
Arguments CallReserveId {A} k.
Arguments CallCommitAdd {A} unit_ k.

(** [await?]: an error ends the program. *)
Definition app (A : Type) : Type := prog (result AppError.t A).
Fixpoint app_bind {A B} (k : A → app B) (p : app A) : app B :=
  match p with
  | Return (Ok a) => k a
  | Return (Err e) => Return (Err e)
  | CallReceipt key c => CallReceipt key (λ x, app_bind k (c x))
  | CallReserveId c => CallReserveId (λ x, app_bind k (c x))
  | CallCommitAdd u c => CallCommitAdd u (λ x, app_bind k (c x))
  end.
#[global] Instance app_mbind : MBind app := @app_bind.
Definition pure {A} (r : result AppError.t A) : app A := Return r.

Definition repository_receipt (key : ReceiptKey.t) : app (option Receipt.t) :=
  CallReceipt key Return.
Definition repository_reserve_id : app JobId.t := CallReserveId Return.
Definition repository_commit_add (u : AddUnitOfWork.t) : app (result CommitError.t unit) :=
  CallCommitAdd u (λ r, Return (Ok r)).

Definition execute (authorizer entitlement : Gate) (key : ReceiptKey.t) (spec : JobSpec.t) :
    app JobId.t :=
  _ ← pure (authorizer (ReceiptKey.principal key) spec);
  existing ← repository_receipt key;
  match existing with
  | Some receipt => pure (Receipt.replay receipt key spec)
  | None =>
      _ ← pure (entitlement (ReceiptKey.principal key) spec);
      id ← repository_reserve_id;
      let unit_ := AddUnitOfWork.Make (Job.new id spec) (Receipt.new key spec id) in
      committed ← repository_commit_add unit_;
      match committed with
      | Ok _ => pure (Ok id)
      | Err CommitError.Conflict =>
          existing ← repository_receipt key;
          receipt ← pure (ok_or existing AppError.CorruptRepository);
          pure (Receipt.replay receipt key spec)
      | Err CommitError.Unavailable => pure (Err AppError.PersistenceUnavailable)
      | Err CommitError.Capacity => pure (Err AppError.Capacity)
      end
  end.

(** ** Running programs *)

Section Run.
Context {R : Type} `{JobRepository R}.

(** One repository call of a program. *)
Definition call {A} (p : prog A) (r : R) : option (R * prog A) :=
  match p with
  | Return _ => None
  | CallReceipt key k => let '(x, r') := receipt key r in Some (r', k x)
  | CallReserveId k => let '(x, r') := reserve_id r in Some (r', k x)
  | CallCommitAdd u k => let '(x, r') := commit_add u r in Some (r', k x)
  end.

(** A program alone, for at most [fuel] calls. *)
Fixpoint run {A} (fuel : nat) (p : prog A) (r : R) : option (A * R) :=
  match p, fuel with
  | Return a, _ => Some (a, r)
  | _, O => None
  | _, S fuel =>
      match call p r with
      | None => None
      | Some (r', p') => run fuel p' r'
      end
  end.
End Run.

(** ** What the port promises *)

(** [receipts] is the durable table; [issued] the identifiers ever handed out.  A call
    whose answer is [Unavailable] may or may not have taken effect. *)
Class LawfulRepository (R : Type) `{JobRepository R} : Type := {
  receipts : R → gmap ReceiptKey.t Receipt.t;
  issued : R → JobId.t → Prop;
  repository_ok : R → Prop;
  receipt_reads key r x r' : ReceiptKey.typed key → repository_ok r → receipt key r = (x, r') →
    repository_ok r' ∧ receipts r' = receipts r ∧ (∀ id, issued r' id ↔ issued r id) ∧
    (∀ o, x = Ok o → o = receipts r !! key);
  reserve_fresh r x r' : repository_ok r → reserve_id r = (x, r') →
    repository_ok r' ∧ receipts r' = receipts r ∧ (∀ id, issued r id → issued r' id) ∧
    (∀ id, x = Ok id → ¬ issued r id ∧ issued r' id);
  commit_inserts u r x r' : AddUnitOfWork.typed u → repository_ok r → commit_add u r = (x, r') →
    repository_ok r' ∧ (∀ id, issued r id → issued r' id) ∧
    let rc := AddUnitOfWork.receipt u in
    let added := receipts r !! Receipt.key rc = None ∧
      (∀ k rc', receipts r !! k = Some rc' → Receipt.job rc' ≠ Receipt.job rc) ∧
      receipts r' = <[Receipt.key rc := rc]> (receipts r) in
    match x with
    | Ok _ => added
    | Err CommitError.Unavailable => receipts r' = receipts r ∨ added
    | Err _ => receipts r' = receipts r
    end }.
