(* ===== verification/AdmissionThm.v ===== *)
(** * What admission promises

    Any number of callers, interleaved at every repository call and with any other
    work on the repository, agree on one job per request key; a replay changes
    nothing; and every request finishes within four repository calls. *)

From S2P Require Import Prelude.
From S2P Require Import Domain.
From S2P Require Import JobMachine.
From S2P Require Import Admission.

Section Callers.
Context {R : Type} `{LR : LawfulRepository R}.

(** ** How the repository may move under a caller *)

(** The table is keyed by its receipts, one job each. *)
Definition receipts_wf (r : R) : Prop :=
  (∀ k rc, receipts r !! k = Some rc → Receipt.key rc = k) ∧
  (∀ k1 k2 rc1 rc2, receipts r !! k1 = Some rc1 → receipts r !! k2 = Some rc2 →
    Receipt.job rc1 = Receipt.job rc2 → k1 = k2).

(** Receipts are never dropped or changed, except that a removed job leaves a tombstone. *)
Definition grows (r r' : R) : Prop :=
  ∀ k rc, receipts r !! k = Some rc → ∃ rc', receipts r' !! k = Some rc' ∧
    Receipt.original rc' = Receipt.original rc ∧ Receipt.job rc' = Receipt.job rc.

Definition future (r r' : R) : Prop :=
  repository_ok r' ∧ receipts_wf r' ∧ grows r r'.

#[global] Instance grows_preorder : PreOrder grows.
Proof.
  split.
  - intros r k rc Hk. eauto.
  - intros r1 r2 r3 H12 H23 k rc (rc2&H2&?&?)%H12. apply H23 in H2 as (rc3&?&?&?).
    exists rc3. split_and!; [done|congruence..].
Qed.

(** The request is backed by a receipt that names this job. *)
Definition backs (r : R) (key : ReceiptKey.t) (spec : JobSpec.t) (id : JobId.t) : Prop :=
  ∃ rc, receipts r !! key = Some rc ∧ Receipt.original rc = spec ∧ Receipt.job rc = id.

Lemma backs_grows r r' key spec id : grows r r' → backs r key spec id → backs r' key spec id.
Proof.
  intros Hg (rc&Hrc&Ho&Hj). apply Hg in Hrc as (rc'&?&?&?).
  exists rc'. split_and!; [done|congruence..].
Qed.

(** ** The guarantee of one program, whatever happens between its calls *)

Fixpoint safe (key : ReceiptKey.t) (spec : JobSpec.t) (p : app JobId.t) (r : R) : Prop :=
  match p with
  | Return (Ok id) => backs r key spec id
  | Return (Err _) => True
  | CallReceipt k c => ReceiptKey.typed k ∧
      ∀ r' x r'', future r r' → receipt k r' = (x, r'') → safe key spec (c x) r''
  | CallReserveId c => ∀ r' x r'', future r r' → reserve_id r' = (x, r'') → safe key spec (c x) r''
  | CallCommitAdd u c => AddUnitOfWork.typed u ∧
      ∀ r' x r'', future r r' → commit_add u r' = (x, r'') → safe key spec (c x) r''
  end.

Lemma future_grows r r' r'' : grows r r' → future r' r'' → future r r''.
Proof. intros ? (?&?&?). split_and!; [done..|]. by etrans. Qed.

Lemma safe_grows key spec p r r' : grows r r' → safe key spec p r → safe key spec p r'.
Proof.
  intros Hg. destruct p as [[id|e]|k c|c|u c]; cbn.
  - by apply backs_grows.
  - done.
  - intros [? Hs]. split; [done|]. intros r1 x r2 Hf. apply Hs. by eapply future_grows.
  - intros Hs r1 x r2 Hf. apply Hs. by eapply future_grows.
  - intros [? Hs]. split; [done|]. intros r1 x r2 Hf. apply Hs. by eapply future_grows.
Qed.

Lemma reserve_future r x r' :
  repository_ok r → receipts_wf r → reserve_id r = (x, r') → future r r'.
Proof.
  intros Hok Hwf Hr. apply reserve_fresh in Hr as (?&Heq&_); [|done].
  split_and!; [done|unfold receipts_wf; by rewrite Heq|].
  intros k rc Hk. rewrite Heq. eauto.
Qed.

Lemma receipt_future r key x r' :
  ReceiptKey.typed key → repository_ok r → receipts_wf r → receipt key r = (x, r') → future r r'.
Proof.
  intros Hty Hok Hwf Hr. apply receipt_reads in Hr as (?&Heq&_); [|done..].
  split_and!; [done|unfold receipts_wf; by rewrite Heq|].
  intros k rc Hk. rewrite Heq. eauto.
Qed.

(** The insertion a successful or an ambiguous commit makes. *)
Lemma insert_future r r' rc :
  repository_ok r' → receipts_wf r → receipts r !! Receipt.key rc = None →
  (∀ k rc', receipts r !! k = Some rc' → Receipt.job rc' ≠ Receipt.job rc) →
  receipts r' = <[Receipt.key rc := rc]> (receipts r) → future r r'.
Proof.
  intros Hok [Hk Hj] Hn Hu Heq. split_and!; [done|split|].
  - intros k rc'. rewrite Heq, lookup_insert_Some. intros [[<- <-]|[_ ?]]; eauto.
  - intros k1 k2 rc1 rc2. rewrite Heq, !lookup_insert_Some.
    intros [[<- <-]|[? H1]] [[<- <-]|[? H2]] He; [done|..|by eapply Hj].
    + by destruct (Hu _ _ H2).
    + by destruct (Hu _ _ H1).
  - intros k rc' Hrc'. exists rc'. split; [|done]. rewrite Heq.
    rewrite lookup_insert_ne; [done|]. intros E. rewrite <-E in Hrc'. congruence.
Qed.

Lemma commit_future r u x r' :
  AddUnitOfWork.typed u → repository_ok r → receipts_wf r → commit_add u r = (x, r') → future r r'.
Proof.
  intros Hty Hok Hwf Hc. apply commit_inserts in Hc as (Hok'&_&Hx); [|done..].
  assert (receipts r' = receipts r → future r r') as Hsame.
  { intros Heq. split_and!; [done|unfold receipts_wf; by rewrite Heq|].
    intros k rc Hk. rewrite Heq. eauto. }
  destruct x as [[]|[]]; [|auto|destruct Hx as [?|Hx]; [auto|]|auto];
    destruct Hx as (?&?&?); by eapply insert_future.
Qed.

Lemma replay_backs r key spec rc id :
  receipts r !! key = Some rc → Receipt.replay rc key spec = Ok id → backs r key spec id.
Proof.
  intros Hrc Hre. unfold Receipt.replay in Hre. exists rc.
  revert Hre. unfold_monad. repeat case_match; intros; simplify_eq; open_bools; done.
Qed.

Lemma replay_safe r key spec rc :
  receipts r !! key = Some rc → safe key spec (pure (Receipt.replay rc key spec)) r.
Proof.
  intros Hrc. cbn. destruct (Receipt.replay rc key spec) eqn:Hre; [|done].
  by eapply replay_backs.
Qed.

(** [execute] gives that guarantee from any state of a lawful repository. *)
Lemma execute_safe authorizer entitlement key spec r :
  ReceiptKey.typed key → JobSpec.typed spec → repository_ok r → receipts_wf r → safe key spec (execute authorizer entitlement key spec) r.
Proof.
  intros Hkey Hspec Hok Hwf. unfold execute, pure, repository_receipt, repository_reserve_id,
    repository_commit_add, mbind, app_mbind. cbn [app_bind].
  destruct (authorizer _ spec) as [[]|]; [|done]. cbn.
  split; [done|]. intros r0 x0 r1 (Hok0&Hwf0&_) Hre.
  pose proof (receipt_future _ _ _ _ Hkey Hok0 Hwf0 Hre) as (Hok1&Hwf1&_).
  apply receipt_reads in Hre as (_&Heq1&_&Ho); [|done..].
  destruct x0 as [o|]; [|done]. specialize (Ho o eq_refl). rewrite <-Heq1 in Ho.
  destruct o as [rc|]; [by apply replay_safe|].
  destruct (entitlement _ spec) as [[]|]; [|done]. cbn.
  intros r2 x r3 (Hok2&Hwf2&_) Hres. destruct x as [id|]; [|done]. cbn.
  split; [done|]. intros r4 x r5 (Hok4&Hwf4&_) Hc.
  assert (AddUnitOfWork.typed (AddUnitOfWork.Make (Job.new id spec) (Receipt.new key spec id)))
    as Hunit by done.
  pose proof (commit_future _ _ _ _ Hunit Hok4 Hwf4 Hc) as (Hok5&Hwf5&_).
  apply commit_inserts in Hc as (_&_&Hx); [|done..]. cbn in Hx.
  destruct x as [[]|[]]; cbn; [|split; [done|]; intros r6 x6 r7 (Hok6&Hwf6&_) Hre|done|done].
  - destruct Hx as (_&_&Heq). exists (Receipt.new key spec id).
    by rewrite Heq, lookup_insert_eq.
  - apply receipt_reads in Hre as (_&Heq7&_&Ho7); [|done..].
    destruct x6 as [[rc|]|]; [|done|done]. specialize (Ho7 _ eq_refl). rewrite <-Heq7 in Ho7.
    by apply replay_safe.
Qed.

(** ** Many callers *)

Record client : Type := Client {
  c_key : ReceiptKey.t; c_spec : JobSpec.t; c_prog : app JobId.t }.

(** A repository and its callers: anybody may join with any gates, take one of its
    calls, or change the repository in a way that keeps its receipts. *)
Inductive system : R → list client → Prop :=
| system_init r : repository_ok r → receipts_wf r → system r []
| system_join r cs authorizer entitlement key spec :
    system r cs → ReceiptKey.typed key → JobSpec.typed spec → system r (cs ++ [Client key spec (execute authorizer entitlement key spec)])
| system_call r cs i c r' p' :
    system r cs → cs !! i = Some c → call (c_prog c) r = Some (r', p') →
    system r' (<[i := Client (c_key c) (c_spec c) p']> cs)
| system_other r cs r' : system r cs → future r r' → system r' cs.

Lemma call_safe key spec p r r' p' :
  repository_ok r → receipts_wf r → safe key spec p r → call p r = Some (r', p') →
  future r r' ∧ safe key spec p' r'.
Proof.
  intros Hok Hwf Hs Hc. assert (future r r) as Hf by (split_and!; done).
  destruct p as [a|k c|c|u c]; cbn in *; [done|..].
  - destruct (receipt k r) as [x r1] eqn:Hr. injection Hc as <- <-.
    destruct Hs as [? Hs]. split; [by eapply receipt_future|by eapply Hs].
  - destruct (reserve_id r) as [x r1] eqn:Hr. injection Hc as <- <-.
    split; [by eapply reserve_future|by eapply Hs].
  - destruct (commit_add u r) as [x r1] eqn:Hr. injection Hc as <- <-.
    destruct Hs as [? Hs]. split; [by eapply commit_future|by eapply Hs].
Qed.

Lemma system_safe r cs :
  system r cs → repository_ok r ∧ receipts_wf r ∧
    Forall (λ c, safe (c_key c) (c_spec c) (c_prog c) r) cs.
Proof.
  induction 1 as [r Hok Hwf|r cs a e key spec _ (Hok&Hwf&IH) Hkey Hspec
    |r cs i c r' p' _ (Hok&Hwf&IH) Hi Hc|r cs r' _ (Hok&Hwf&IH) Hf].
  - done.
  - split_and!; [done..|]. apply Forall_app. split; [done|].
    apply Forall_singleton. by apply execute_safe.
  - rewrite Forall_lookup in IH. pose proof (IH i c Hi) as Hs.
    destruct (call_safe _ _ _ _ _ _ Hok Hwf Hs Hc) as [Hf Hs']. pose proof Hf as (?&?&Hg).
    split_and!; [done..|]. apply Forall_insert; [|done].
    apply Forall_lookup. intros j q Hj. eapply safe_grows; [exact Hg|by apply (IH j)].
  - pose proof Hf as (?&?&Hg). split_and!; [done..|].
    eapply Forall_impl; [exact IH|]. intros q. by apply safe_grows.
Qed.

Lemma clients_agree r cs i j ci cj idi idj :
  system r cs → cs !! i = Some ci → cs !! j = Some cj →
  c_prog ci = Return (Ok idi) → c_prog cj = Return (Ok idj) →
  backs r (c_key ci) (c_spec ci) idi ∧
  (idi = idj ↔ c_key ci = c_key cj) ∧ (c_key ci = c_key cj → c_spec ci = c_spec cj).
Proof.
  intros (_&[_ Hj]&Hs)%system_safe Hi Hjj Hpi Hpj. rewrite Forall_lookup in Hs.
  pose proof (Hs i ci Hi) as H1. pose proof (Hs j cj Hjj) as H2.
  rewrite Hpi in H1. rewrite Hpj in H2. cbn in *.
  destruct H1 as (rc1&Hr1&?&?), H2 as (rc2&Hr2&?&?).
  split; [by exists rc1|]. split; [split|].
  - intros ->. eapply Hj; [done..|congruence].
  - intros He. rewrite He in Hr1. congruence.
  - intros He. rewrite He in Hr1. congruence.
Qed.

(** C30: however the repository calls of concurrent requests interleave, with each other and
    with anything else done to the repository, two requests that succeed got the same job
    exactly when they used the same key, then for the same specification, and that job is
    the one the stored receipt names. *)
Theorem concurrent_adds_agree r cs i j ci cj idi idj :
  system r cs → cs !! i = Some ci → cs !! j = Some cj →
  c_prog ci = Return (Ok idi) → c_prog cj = Return (Ok idj) →
  backs r (c_key ci) (c_spec ci) idi ∧
  (idi = idj ↔ c_key ci = c_key cj) ∧ (c_key ci = c_key cj → c_spec ci = c_spec cj).
Proof. apply clients_agree. Qed.

(** A request whose key is already recorded is answered from its receipt with one read:
    the first job for the same specification, a conflict for another one, and
    previously-removed for a tombstone, with nothing reserved or written whatever the
    entitlement gate now says; a request that is not authorised reaches no repository. *)
Theorem replay_changes_nothing authorizer entitlement key spec r rc :
  ReceiptKey.typed key → repository_ok r → receipts r !! key = Some rc → Receipt.key rc = key →
  ∃ r', receipts r' = receipts r ∧ (∀ id, issued r' id ↔ issued r id) ∧
  run 1 (execute authorizer entitlement key spec) r =
    Some (match authorizer (ReceiptKey.principal key) spec with
          | Err e => Err e
          | Ok _ =>
              match (receipt key r).1 with
              | Err e => Err e
              | Ok _ => if decide (Receipt.original rc ≠ spec) then Err AppError.IdempotencyConflict
                        else if Receipt.removed rc then Err AppError.PreviouslyRemoved
                        else Ok (Receipt.job rc)
              end
          end, r').
Proof.
  intros Hty Hok Hrc Hkey. unfold execute, pure, repository_receipt, mbind, app_mbind.
  destruct (authorizer _ spec) as [[]|]; [|by exists r]. cbn.
  destruct (receipt key r) as [x r'] eqn:Hre.
  apply receipt_reads in Hre as (_&Heq&His&Ho); [|done..]. exists r'. split_and!; [done..|].
  cbn. destruct x as [o|]; [|done]. rewrite (Ho o eq_refl), Hrc. cbn.
  unfold Receipt.replay, pure. unfold_monad. rewrite bool_decide_eq_false_2 by auto.
  destruct (decide (Receipt.original rc = spec)).
  - rewrite bool_decide_eq_false_2, decide_False by auto. by destruct (Receipt.removed rc).
  - by rewrite bool_decide_eq_true_2, decide_True by done.
Qed.

(** A request ends after at most four repository calls, whatever they answer. *)
Theorem execute_terminates authorizer entitlement key spec (r : R) :
  is_Some (run 4 (execute authorizer entitlement key spec) r).
Proof.
  unfold execute, pure, repository_receipt, repository_reserve_id, repository_commit_add,
    mbind, app_mbind.
  destruct (authorizer _ spec) as [[]|]; [|by eexists]. cbn.
  destruct (receipt key r) as [[[rc|]|] r0]; cbn;
    [destruct (Receipt.replay _ _ _); by eexists| |by eexists].
  destruct (entitlement _ spec) as [[]|]; cbn; [|by eexists].
  destruct (reserve_id r0) as [[id|] r1]; cbn; [|by eexists].
  destruct (commit_add _ r1) as [[[]|[]] r2]; cbn; [by eexists| |by eexists..].
  destruct (receipt key r2) as [[[rc|]|] r3]; cbn; [|by eexists..].
  destruct (Receipt.replay _ _ _); by eexists.
Qed.
End Callers.

(** ** Witnesses: a repository in memory *)

Record Memory : Type := MakeMemory { table : gmap ReceiptKey.t Receipt.t; next_job : Z }.

#[global] Instance memory_repository : JobRepository Memory := {
  receipt key m := (Ok (table m !! key), m);
  reserve_id m := (Ok (JobId.Make (next_job m)), MakeMemory (table m) (next_job m + 1));
  commit_add u m :=
    let rc := AddUnitOfWork.receipt u in
    if decide (is_Some (table m !! Receipt.key rc) ∨
               Exists (λ p, Receipt.job p.2 = Receipt.job rc) (map_to_list (table m)))
    then (Err CommitError.Conflict, m)
    else (Ok tt, MakeMemory (<[Receipt.key rc := rc]> (table m)) (next_job m)) }.

#[global] Program Instance memory_lawful : LawfulRepository Memory := {
  receipts := table;
  issued m id := JobId.get id < next_job m;
  repository_ok _ := True }.
Next Obligation. cbn. intros key m x m' _ _ [= <- <-]. split_and!; [done..|]. by intros o [= <-]. Qed.
Next Obligation.
  cbn. intros m x m' _ [= <- <-]. cbn. split_and!; [done|done|intros; lia|].
  intros id [= <-]. cbn. lia.
Qed.
Next Obligation.
  intros u m x m' _ _. cbn. case_decide as Hd; intros [= <- <-]; [done|]. cbn.
  apply Decidable.not_or in Hd as [Hn Hu]. split_and!; [done..|by apply eq_None_not_Some| |done].
  intros k rc' Hk He. apply Hu, Exists_exists. exists (k, rc'). split; [|done].
  by apply elem_of_map_to_list.
Qed.

Definition example_key : ReceiptKey.t := ReceiptKey.Make (Principal.Make 1) (replicate 32 7).
Definition example_add_spec : JobSpec.t :=
  JobSpec.Make (SourceRef.Make 1) (DestinationRef.Make 1) None Normal 1024.
Definition open_gate : Gate := λ _ _, Ok tt.
Definition example_receipt : Receipt.t := Receipt.new example_key example_add_spec (JobId.Make 1).
Definition example_memory : Memory := MakeMemory (<[example_key := example_receipt]> ∅) 2.

(** Two callers with the same request: the second finds the first one's receipt. *)
Lemma concurrent_adds_agree_witness :
  backs (MakeMemory {[example_key := example_receipt]} 2) example_key example_add_spec (JobId.Make 1).
Proof.
  set (p := execute open_gate open_gate example_key example_add_spec).
  assert (system (MakeMemory ∅ 1) [Client example_key example_add_spec p]) as H0.
  { apply (system_join _ []); [apply system_init; [exact I|]|split; [vm_compute; split; discriminate|reflexivity]
    |vm_compute; repeat split; discriminate].
    split; [intros k rc Hk|intros k1 k2 rc1 rc2 Hk]; cbn in Hk; rewrite lookup_empty in Hk; discriminate. }
  eapply (system_call _ _ 0) in H0; [|reflexivity|reflexivity]. cbn in H0.
  eapply (system_call _ _ 0) in H0; [|reflexivity|reflexivity]. cbn in H0.
  eapply (system_call _ _ 0) in H0; [|reflexivity|reflexivity]. cbn in H0.
  refine (proj1 (concurrent_adds_agree _ _ 0 0 _ _ _ _ H0 eq_refl eq_refl eq_refl eq_refl)).
Defined.

Lemma replay_changes_nothing_witness :
  ∃ m, run 1 (execute open_gate (λ _ _, Err AppError.EntitlementDenied) example_key example_add_spec)
    example_memory = Some (Ok (JobId.Make 1), m) ∧ table m = table example_memory.
Proof.
  destruct (replay_changes_nothing (LR := memory_lawful) open_gate
    (λ _ _, Err AppError.EntitlementDenied) example_key example_add_spec example_memory
    example_receipt ltac:(split; [vm_compute; split; discriminate|reflexivity]) I ltac:(reflexivity) eq_refl) as (m&Ht&_&Hr).
  exists m. split; [exact Hr|exact Ht].
Defined.
