(* ===== verification/Persistence.v ===== *)
(** * The SQLite repository: rows, codecs and admission

    [src/crates/adapters/persistence/src/lib.rs] and its migrations: the tables, the
    encodings of a specification and of an identifier, and the admission
    transactions.  A table is a finite map on its primary key, a [CHECK] constraint
    is a decidable condition on the row written, and a transaction that fails leaves
    the database as it was. *)

From S2P Require Import Prelude.
From S2P Require Import Domain.
From S2P Require Import JobMachine.
From S2P Require Import Admission.

Module PersistenceError.
Inductive t : Type :=
| InvalidPath | InvalidLimits | Locked | Unavailable | UnsupportedVersion | Corrupt | Capacity
| Conflict | Missing | Removed.
#[global] Instance t_eq_dec : EqDecision t.
Proof. solve_decision. Defined.
End PersistenceError.

Module Limits.
Record t : Type := Make { jobs : Z; receipts : Z }.
Definition new (jobs receipts : Z) : result PersistenceError.t t :=
  if decide (1 ≤ jobs ≤ 10000 ∧ jobs ≤ receipts ≤ 100000) then Ok (Make jobs receipts)
  else Err PersistenceError.InvalidLimits.
Definition default_ : t := Make 10000 40000.
End Limits.

(** ** Machine representations *)

(** [u64::to_le_bytes] and [from_le_bytes]. *)
Fixpoint le_bytes (n : nat) (v : Z) : list Z :=
  match n with O => [] | S n => v mod 256 :: le_bytes n (v / 256) end.
Fixpoint le_value (bs : list Z) : Z :=
  match bs with [] => 0 | b :: bs => b + 256 * le_value bs end.
Definition to_le_bytes (v : Z) : list Z := le_bytes 8 v.
#[global] Arguments to_le_bytes : simpl never.
(** [<[u8; n]>::try_from]. *)
Definition array (n : nat) (bs : list Z) : result PersistenceError.t (list Z) :=
  if decide (length bs = n) then Ok bs else Err PersistenceError.Corrupt.

(** [i64::try_from] of a [u64], and back. *)
Definition stored (value : Z) : result PersistenceError.t Z :=
  if decide (value ≤ i64_max) then Ok value else Err PersistenceError.Corrupt.
Definition loaded (value : Z) : result PersistenceError.t Z :=
  if decide (0 ≤ value) then Ok value else Err PersistenceError.Corrupt.
Definition signed_id (id : JobId.t) : result PersistenceError.t Z := stored (JobId.get id).
Definition corrupt {E A} (r : result E A) : result PersistenceError.t A :=
  map_err (λ _, PersistenceError.Corrupt) r.

(** ** Rows *)

Module SpecRow.
Record t : Type := Make {
  source : list Z; destination : list Z; expected : option (list Z);
  priority : Z; max_bytes : Z }.
#[global] Instance t_eq_dec : EqDecision t.
Proof. solve_decision. Defined.
(** The constraints the [jobs] and [command_receipts] tables share. *)
Definition check (r : t) : bool :=
  bool_decide (length (source r) = 8%nat) && bool_decide (length (destination r) = 8%nat)
  && match expected r with None => true | Some e => bool_decide (length e = 32%nat) end
  && bool_decide (0 ≤ priority r ≤ 2) && bool_decide (0 < max_bytes r).
End SpecRow.

Module JobRow.
Record t : Type := Make { spec : SpecRow.t; version : Z }.
#[global] Instance t_eq_dec : EqDecision t.
Proof. solve_decision. Defined.
Definition check (id : Z) (r : t) : bool :=
  bool_decide (0 < id) && SpecRow.check (spec r) && bool_decide (0 ≤ version r).
End JobRow.

Module ReceiptRow.
Record t : Type := Make { job_id : Z; spec : SpecRow.t; removed : Z }.
#[global] Instance t_eq_dec : EqDecision t.
Proof. solve_decision. Defined.
Definition check (k : list Z * list Z) (r : t) : bool :=
  bool_decide (length k.1 = 8%nat) && bool_decide (length k.2 = 32%nat)
  && bool_decide (0 < job_id r) && SpecRow.check (spec r) && bool_decide (removed r ∈ [0; 1]).
End ReceiptRow.

Module StateRow.
Record t : Type := Make {
  state : Z; generation : Z; reason : option Z; retry_at : option Z;
  stop_kind : option Z; stop_value : option Z; replace_on_drain : Z; attempts : Z;
  total : option Z; max_segments : option Z; validator : option (list Z) }.
#[global] Instance t_eq_dec : EqDecision t.
Proof. solve_decision. Defined.
Definition within (lo hi : Z) (o : option Z) : bool :=
  match o with None => true | Some v => bool_decide (lo ≤ v ≤ hi) end.
Definition check (r : t) : bool :=
  bool_decide (0 ≤ state r ≤ 12) && bool_decide (0 < generation r)
  && within 0 7 (reason r) && within 0 i64_max (retry_at r)
  && within 0 5 (stop_kind r) && within 0 i64_max (stop_value r)
  && bool_decide (replace_on_drain r ∈ [0; 1]) && bool_decide (0 ≤ attempts r ≤ 255)
  && within 0 i64_max (total r) && within 1 262144 (max_segments r)
  && match validator r with None => true | Some v => bool_decide (length v = 32%nat) end
  && eqb (bool_decide (total r = None)) (bool_decide (max_segments r = None))
  && (bool_decide (validator r = None) || negb (bool_decide (total r = None))).
End StateRow.

Module ExtentRow.
Record t : Type := Make {
  job_id : Z; generation : Z; start : Z; end_excl : Z; digest : list Z }.
#[global] Instance t_eq_dec : EqDecision t.
Proof. solve_decision. Defined.
Definition check (r : t) : bool :=
  bool_decide (0 < generation r) && bool_decide (0 ≤ start r)
  && bool_decide (start r < end_excl r) && bool_decide (length (digest r) = 32%nat).
(** The primary key, in the order the table is stored. *)
Definition key (r : t) : Z * Z * Z := (job_id r, generation r, start r).
Definition key_lt (a b : Z * Z * Z) : bool :=
  bool_decide (a.1.1 < b.1.1) ||
  bool_decide (a.1.1 = b.1.1) && (bool_decide (a.1.2 < b.1.2) ||
    bool_decide (a.1.2 = b.1.2) && bool_decide (a.2 < b.2)).
End ExtentRow.

Module IntentRow.
Record t : Type := Make { generation : Z; attempt : Z; size : Z; digest : list Z }.
#[global] Instance t_eq_dec : EqDecision t.
Proof. solve_decision. Defined.
Definition check (r : t) : bool :=
  bool_decide (0 < generation r) && bool_decide (0 < attempt r) && bool_decide (0 ≤ size r)
  && bool_decide (length (digest r) = 32%nat).
End IntentRow.

(** ** The database *)

Module Db.
Record t : Type := Make {
  jobs : gmap Z JobRow.t;
  receipts : gmap (list Z * list Z) ReceiptRow.t;
  last_id : Z;
  job_state : gmap Z StateRow.t;
  extents : list ExtentRow.t;
  publish_intents : gmap Z IntentRow.t }.

(** After the migrations. *)
Definition empty : t := Make ∅ ∅ 0 ∅ [] ∅.

Definition set_jobs v d := Make v (receipts d) (last_id d) (job_state d) (extents d) (publish_intents d).
Definition set_receipts v d := Make (jobs d) v (last_id d) (job_state d) (extents d) (publish_intents d).
Definition set_last_id v d := Make (jobs d) (receipts d) v (job_state d) (extents d) (publish_intents d).
Definition set_job_state v d := Make (jobs d) (receipts d) (last_id d) v (extents d) (publish_intents d).
Definition set_extents v d := Make (jobs d) (receipts d) (last_id d) (job_state d) v (publish_intents d).
Definition set_publish_intents v d :=
  Make (jobs d) (receipts d) (last_id d) (job_state d) (extents d) v.

(** [DELETE FROM jobs WHERE id=?1], with the [ON DELETE CASCADE] of the other tables. *)
Definition delete_job (id : Z) (d : t) : t :=
  Make (delete id (jobs d)) (receipts d) (last_id d) (delete id (job_state d))
    (filter (λ e, ExtentRow.job_id e ≠ id) (extents d)) (delete id (publish_intents d)).
End Db.

Definition db_st (A : Type) : Type := st Db.t PersistenceError.t A.

(** A write whose constraints fail is an SQLite error, which the adapter calls
    [Unavailable]. *)
Definition constrained (ok_ : bool) : st Db.t PersistenceError.t unit :=
  lift (refuse_if (negb ok_) PersistenceError.Unavailable).

(** [transaction_with_behavior(Immediate)] up to [commit]: an error rolls back. *)
Definition transaction {A} (work : st Db.t PersistenceError.t A) : st Db.t PersistenceError.t A :=
  λ d, match work d with (Ok a, d') => (Ok a, d') | (Err e, _) => (Err e, d) end.

(** ** Specifications *)

Definition priority (value : Priority) : Z :=
  match value with Low => 0 | Normal => 1 | High => 2 end.

Definition encode_spec (spec : JobSpec.t) : SpecRow.t :=
  SpecRow.Make (to_le_bytes (SourceRef.get (JobSpec.source spec)))
    (to_le_bytes (DestinationRef.get (JobSpec.destination spec)))
    (JobSpec.expected_sha256 spec) (priority (JobSpec.priority spec)) (JobSpec.max_bytes spec).

Definition decode_spec (row : SpecRow.t) : result PersistenceError.t JobSpec.t :=
  source ← array 8 (SpecRow.source row);
  destination ← array 8 (SpecRow.destination row);
  importance ← match SpecRow.priority row with
    | 0 => Ok Low
    | 1 => Ok Normal
    | 2 => Ok High
    | _ => Err PersistenceError.Corrupt
    end;
  source ← corrupt (SourceRef.new (le_value source));
  destination ← corrupt (DestinationRef.new (le_value destination));
  expected ← transpose (array 32 <$> SpecRow.expected row);
  max ← loaded (SpecRow.max_bytes row);
  corrupt (JobSpec.new source destination expected importance max).

(** ** Admission *)

Definition receipt_key (key : ReceiptKey.t) : list Z * list Z :=
  (to_le_bytes (Principal.get (ReceiptKey.principal key)), ReceiptKey.digest key).

Definition load_receipt (d : Db.t) (key : ReceiptKey.t) :
    result PersistenceError.t (option Receipt.t) :=
  match Db.receipts d !! receipt_key key with
  | None => Ok None
  | Some row =>
      spec ← decode_spec (ReceiptRow.spec row);
      id_value ← loaded (ReceiptRow.job_id row);
      job ← corrupt (JobId.new id_value);
      _ ← match ReceiptRow.removed row, Db.jobs d !! ReceiptRow.job_id row with
          | 0, Some saved =>
              saved_spec ← decode_spec (JobRow.spec saved);
              refuse_if (bool_decide (saved_spec ≠ spec)) PersistenceError.Corrupt
          | 1, None => Ok tt
          | _, _ => Err PersistenceError.Corrupt
          end;
      let receipt := Receipt.new key spec job in
      Ok (Some (if decide (ReceiptRow.removed row = 1) then Receipt.tombstone receipt else receipt))
  end.

Definition reserve_id : st Db.t PersistenceError.t JobId.t := transaction (
  last ← gets Db.last_id;
  _ ← lift (refuse_if (bool_decide (last < 0)) PersistenceError.Corrupt);
  next ← lift (if decide (last + 1 ≤ i64_max) then Ok (last + 1) else Err PersistenceError.Capacity);
  _ ← modify (Db.set_last_id next);
  lift (corrupt (JobId.new next))).

Definition commit_add (limits : Limits.t) (u : AddUnitOfWork.t) : st Db.t PersistenceError.t unit :=
  let job := AddUnitOfWork.job u in
  let receipt := AddUnitOfWork.receipt u in
  let key := receipt_key (Receipt.key receipt) in
  _ ← lift (refuse_if (bool_decide (Job.id job ≠ Receipt.job receipt
        ∨ Job.spec job ≠ Receipt.original receipt ∨ Receipt.removed receipt = true
        ∨ Job.version job ≠ 0 ∨ Job.state job ≠ JobState.Queued
        ∨ Generation.get (Job.generation job) ≠ 1)) PersistenceError.Corrupt);
  id ← lift (signed_id (Job.id job));
  transaction (
    d ← gets (λ d, d);
    _ ← lift (refuse_if (bool_decide (is_Some (Db.receipts d !! key) ∨ is_Some (Db.jobs d !! id)
          ∨ map_Exists (λ _ r, ReceiptRow.job_id r = id) (Db.receipts d))) PersistenceError.Conflict);
    _ ← lift (refuse_if (bool_decide (Db.last_id d < id)) PersistenceError.Corrupt);
    _ ← lift (refuse_if (bool_decide (Limits.jobs limits ≤ Z.of_nat (size (Db.jobs d))
          ∨ Limits.receipts limits ≤ Z.of_nat (size (Db.receipts d)))) PersistenceError.Capacity);
    let spec := encode_spec (Receipt.original receipt) in
    let job_row := JobRow.Make spec 0 in
    let receipt_row := ReceiptRow.Make id spec 0 in
    _ ← constrained (JobRow.check id job_row);
    _ ← modify (λ d, Db.set_jobs (<[id := job_row]> (Db.jobs d)) d);
    _ ← constrained (ReceiptRow.check key receipt_row);
    modify (λ d, Db.set_receipts (<[key := receipt_row]> (Db.receipts d)) d)).

(** The states from which a job may be removed, by their codes. *)
Definition REMOVABLE_CODES : list Z := [0; 4; 5; 6; 10; 11; 12].

Definition remove (key : ReceiptKey.t) (expected_version : Z) : st Db.t PersistenceError.t unit :=
  version ← lift (if decide (expected_version ≤ i64_max) then Ok expected_version
                  else Err PersistenceError.Conflict);
  transaction (
    d ← gets (λ d, d);
    found ← lift (load_receipt d key);
    receipt ← lift (ok_or found PersistenceError.Missing);
    _ ← lift (refuse_if (Receipt.removed receipt) PersistenceError.Removed);
    id ← lift (signed_id (Receipt.job receipt));
    _ ← lift (refuse_if (is_some_and (λ s, negb (bool_decide (StateRow.state s ∈ REMOVABLE_CODES)))
          (Db.job_state d !! id)) PersistenceError.Conflict);
    _ ← lift (refuse_if (negb (is_some_and (λ j, bool_decide (JobRow.version j = version))
          (Db.jobs d !! id))) PersistenceError.Conflict);
    _ ← modify (Db.delete_job id);
    row ← lift (ok_or (Db.receipts d !! receipt_key key) PersistenceError.Corrupt);
    _ ← lift (refuse_if (bool_decide (ReceiptRow.removed row ≠ 0)) PersistenceError.Corrupt);
    modify (λ d, Db.set_receipts (<[receipt_key key :=
      ReceiptRow.Make (ReceiptRow.job_id row) (ReceiptRow.spec row) 1]> (Db.receipts d)) d)).

Definition counts (d : Db.t) : Z * Z :=
  (Z.of_nat (size (Db.jobs d)), Z.of_nat (size (Db.receipts d))).

(** ** Errors at the port *)

Definition app_error (error : PersistenceError.t) : AppError.t :=
  match error with
  | PersistenceError.Capacity => AppError.Capacity
  | PersistenceError.Corrupt | PersistenceError.UnsupportedVersion => AppError.CorruptRepository
  | _ => AppError.PersistenceUnavailable
  end.
Definition commit_error (error : PersistenceError.t) : CommitError.t :=
  match error with
  | PersistenceError.Conflict => CommitError.Conflict
  | PersistenceError.Capacity => CommitError.Capacity
  | _ => CommitError.Unavailable
  end.

(** *** The repository as its callers see it

    A call runs to its answer, or fails before or after its commit: which of these is
    up to the machine, so the repository carries the fates of the calls to come. *)
Inductive Fate : Type := Completes | FailsBefore | FailsAfter.

Module SqliteRepository.
Record t : Type := Make { db : Db.t; limits : Limits.t; fates : list Fate }.

Definition run {A} (work : st Db.t PersistenceError.t A) : st t PersistenceError.t A := λ r,
  let rest := tail (fates r) in
  match head (fates r) with
  | Some FailsBefore => (Err PersistenceError.Unavailable, Make (db r) (limits r) rest)
  | Some FailsAfter =>
      match work (db r) with
      | (Ok _, d) => (Err PersistenceError.Unavailable, Make d (limits r) rest)
      | (Err e, d) => (Err e, Make d (limits r) rest)
      end
  | _ => let '(x, d) := work (db r) in (x, Make d (limits r) rest)
  end.

(** The answer a port method gives for [self.run(work).await.map_err(f)]. *)
Definition port {E A} (f : PersistenceError.t → E) (work : t → st Db.t PersistenceError.t A) :
    st t E A :=
  λ r, let '(x, r') := run (work r) r in (map_err f x, r').
End SqliteRepository.

#[global] Instance sqlite_repository : JobRepository SqliteRepository.t := {
  receipt key := SqliteRepository.port app_error (λ _ d, (load_receipt d key, d));
  Admission.reserve_id := SqliteRepository.port app_error (λ _, reserve_id);
  Admission.commit_add u :=
    SqliteRepository.port commit_error (λ r, commit_add (SqliteRepository.limits r) u) }.
