(* ===== verification/Transfer.v ===== *)
(** * The SQLite repository: transfer state

    [src/crates/adapters/persistence/src/transfer.rs]: the codes of states, reasons
    and stops, the row of a job's projection, its durable extents and its publish
    intent, and the transactions that move them. *)

From S2P Require Import Prelude.
From S2P Require Import Domain.
From S2P Require Import JobMachine.
From S2P Require Import Admission.
From S2P Require Import Persistence.
Import JobState.

(** ** Codes *)

Definition STATES : list JobState.t :=
  [Queued; Probing; Transferring; Stopping; Paused; RetryWait; NeedsAction; Verifying; Publishing;
   Cancelling; Failed; Completed; Cancelled].
Definition REASONS : list StopReason.t :=
  [StopReason.SourceChanged; StopReason.Authentication; StopReason.Storage; StopReason.Integrity;
   StopReason.Network; StopReason.Policy; StopReason.Unknown; StopReason.Destination].

Definition state_code (s : JobState.t) : Z :=
  match s with
  | Queued => 0 | Probing => 1 | Transferring => 2 | Stopping => 3 | Paused => 4 | RetryWait => 5
  | NeedsAction => 6 | Verifying => 7 | Publishing => 8 | Cancelling => 9 | Failed => 10
  | Completed => 11 | Cancelled => 12
  end.
(** [usize::try_from(code).ok().and_then(|i| TABLE.get(i))]. *)
Definition table_get {A} (table : list A) (code : Z) : result PersistenceError.t A :=
  ok_or (if decide (0 ≤ code) then table !! Z.to_nat code else None) PersistenceError.Corrupt.
Definition state_of (code : Z) : result PersistenceError.t JobState.t := table_get STATES code.
Definition reason_code (r : StopReason.t) : Z :=
  match r with
  | StopReason.SourceChanged => 0 | StopReason.Authentication => 1 | StopReason.Storage => 2
  | StopReason.Integrity => 3 | StopReason.Network => 4 | StopReason.Policy => 5
  | StopReason.Unknown => 6 | StopReason.Destination => 7
  end.
Definition reason_of (code : Z) : result PersistenceError.t StopReason.t := table_get REASONS code.

Definition stop_columns (stop : option StopTarget.t) :
    result PersistenceError.t (option Z * option Z) :=
  match stop with
  | None => Ok (None, None)
  | Some StopTarget.Verifying => Ok (Some 0, None)
  | Some StopTarget.Queued => Ok (Some 1, None)
  | Some StopTarget.Paused => Ok (Some 2, None)
  | Some (StopTarget.RetryWait at_tick) => v ← stored at_tick; Ok (Some 3, Some v)
  | Some (StopTarget.NeedsAction reason) => Ok (Some 4, Some (reason_code reason))
  | Some (StopTarget.Failed reason) => Ok (Some 5, Some (reason_code reason))
  end.
Definition stop_of (kind value : option Z) : result PersistenceError.t (option StopTarget.t) :=
  match kind, value with
  | None, None => Ok None
  | Some 0, None => Ok (Some StopTarget.Verifying)
  | Some 1, None => Ok (Some StopTarget.Queued)
  | Some 2, None => Ok (Some StopTarget.Paused)
  | Some 3, Some v => at_tick ← loaded v; Ok (Some (StopTarget.RetryWait at_tick))
  | Some 4, Some v => reason ← reason_of v; Ok (Some (StopTarget.NeedsAction reason))
  | Some 5, Some v => reason ← reason_of v; Ok (Some (StopTarget.Failed reason))
  | _, _ => Err PersistenceError.Corrupt
  end.

(** ** What the tables say of one job *)

Module Current.
Record t : Type := Make {
  state : JobState.t; generation : Z; plan : option (Z * Z); validator : option (list Z) }.
End Current.

(** [total.zip(maximum)]. *)
Definition zip (a b : option Z) : option (Z * Z) :=
  match a, b with Some a, Some b => Some (a, b) | _, _ => None end.

Definition current (d : Db.t) (id : Z) : result PersistenceError.t Current.t :=
  match Db.job_state d !! id with
  | None => Ok (Current.Make Queued 1 None None)
  | Some row =>
      s ← state_of (StateRow.state row);
      Ok (Current.Make s (StateRow.generation row)
            (zip (StateRow.total row) (StateRow.max_segments row)) (StateRow.validator row))
  end.

Module DurableExtent.
Record t : Type := Make { range : ByteRange.t; digest : digest32 }.
#[global] Instance t_eq_dec : EqDecision t.
Proof. solve_decision. Defined.
End DurableExtent.

Module PublishIntent.
Record t : Type := Make {
  job : JobId.t; generation : Generation.t; attempt : Z; size : Z; digest : digest32 }.
#[global] Instance t_eq_dec : EqDecision t.
Proof. solve_decision. Defined.
End PublishIntent.

(** The rows of one job and generation; the table is stored in the order of its
    primary key, so this is [ORDER BY start]. *)
Definition select_extents (d : Db.t) (id generation : Z) : list ExtentRow.t :=
  filter (λ e, ExtentRow.job_id e = id ∧ ExtentRow.generation e = generation) (Db.extents d).

Definition extent_of (row : ExtentRow.t) : result PersistenceError.t DurableExtent.t :=
  start ← loaded (ExtentRow.start row);
  end_ ← loaded (ExtentRow.end_excl row);
  range ← corrupt (ByteRange.new start end_);
  digest ← array 32 (ExtentRow.digest row);
  Ok (DurableExtent.Make range digest).

Definition extents (d : Db.t) (id generation : Z) :
    result PersistenceError.t (list DurableExtent.t) :=
  collect extent_of (select_extents d id generation).
Definition ranges (es : list DurableExtent.t) : list ByteRange.t := DurableExtent.range <$> es.

Definition overlaps (a b : ByteRange.t) : bool :=
  bool_decide (ByteRange.start a < ByteRange.end_ b) && bool_decide (ByteRange.start b < ByteRange.end_ a).

(** The loop of [admit], over the extents accepted so far. *)
Fixpoint admit_loop (existing fresh incoming : list DurableExtent.t) :
    option (list DurableExtent.t) :=
  match incoming with
  | [] => Some fresh
  | extent :: rest =>
      if decide (extent ∈ existing ∨ extent ∈ fresh) then admit_loop existing fresh rest
      else if existsb (λ e, overlaps (DurableExtent.range e) (DurableExtent.range extent))
                (existing ++ fresh) then None
      else admit_loop existing (fresh ++ [extent]) rest
  end.
Definition admit_ (existing incoming : list DurableExtent.t) : option (list DurableExtent.t) :=
  admit_loop existing [] incoming.

(** [sort_by_key(|r| r.start())]. *)
Definition sort_by_start (rs : list ByteRange.t) : list ByteRange.t := sort_by_key ByteRange.start rs.

(** The loop of [restored_segments]: the count and the cursor. *)
Fixpoint count_segments (count : nat) (cursor : Z) (durable : list ByteRange.t) : nat * Z :=
  match durable with
  | [] => (count, cursor)
  | range :: rest =>
      if bool_decide (0 < count)%nat && bool_decide (ByteRange.start range = cursor)
      then count_segments count (ByteRange.end_ range) rest
      else count_segments (count + ((if decide (cursor < ByteRange.start range)%Z then 1 else 0) + 1))%nat
             (ByteRange.end_ range) rest
  end.
Definition restored_segments (durable : list ByteRange.t) (total : Z) : nat :=
  let '(count, cursor) := count_segments 0 0 (sort_by_start durable) in
  (count + if decide (cursor < total)%Z then 1 else 0)%nat.

(** Open-time check: extents belong to the job's current, planned generation. *)
Definition consistent (d : Db.t) : bool :=
  forallb (λ e,
    match Db.job_state d !! ExtentRow.job_id e with
    | None => false
    | Some s => bool_decide (ExtentRow.generation e = StateRow.generation s)
                && is_some_and (λ total, bool_decide (ExtentRow.end_excl e ≤ total)) (StateRow.total s)
    end) (Db.extents d).

(** ** Transitions *)

(** The plan and the validator after an event, [replaced] telling a new generation. *)
Definition next_plan (command : JobCommand.t) (replaced : bool) (plan : option (Z * Z)) :
    result PersistenceError.t (option (Z * Z)) :=
  if replaced then Ok None else
  match command, plan with
  | JobCommand.ProbeSucceeded total _ _, Some plan =>
      t ← stored total;
      _ ← refuse_if (bool_decide (plan.1 ≠ t)) PersistenceError.Conflict;
      Ok (Some plan)
  | JobCommand.ProbeSucceeded total max_segments _, None =>
      t ← stored total; m ← stored max_segments; Ok (Some (t, m))
  | _, plan => Ok plan
  end.

Definition next_validator (command : JobCommand.t) (replaced planned : bool)
    (stored_ : option (list Z)) : result PersistenceError.t (option (list Z)) :=
  if replaced then Ok None else
  match command with
  | JobCommand.ProbeSucceeded _ _ validator =>
      if planned then
        _ ← refuse_if (bool_decide (validator = None ∨ validator ≠ stored_)) PersistenceError.Conflict;
        Ok stored_
      else Ok validator
  | _ => Ok stored_
  end.

Definition delete_extents (id : Z) : st Db.t PersistenceError.t unit :=
  modify (λ d, Db.set_extents (filter (λ e, ExtentRow.job_id e ≠ id) (Db.extents d)) d).
Definition delete_intent (id : Z) : st Db.t PersistenceError.t unit :=
  modify (λ d, Db.set_publish_intents (delete id (Db.publish_intents d)) d).

(** [INSERT INTO job_state ... ON CONFLICT DO UPDATE]: the parent job must exist. *)
Definition upsert_state (id : Z) (row : StateRow.t) : st Db.t PersistenceError.t unit :=
  d ← gets (λ d, d);
  _ ← constrained (StateRow.check row && bool_decide (is_Some (Db.jobs d !! id)));
  modify (λ d, Db.set_job_state (<[id := row]> (Db.job_state d)) d).

Definition transition (event : JobEvent.t) : st Db.t PersistenceError.t unit :=
  id ← lift (signed_id (JobEvent.job event));
  transaction (
    d ← gets (λ d, d);
    row ← lift (ok_or (Db.jobs d !! id) PersistenceError.Conflict);
    let version := JobRow.version row in
    now ← lift (current d id);
    v ← lift (loaded version);
    event_generation ← (if decide (checked_add v 1 ≠ Some (JobEvent.version event)
                                   ∨ Current.state now ≠ JobEvent.from event)
                        then throw PersistenceError.Conflict
                        else lift (stored (Generation.get (JobEvent.generation event))));
    _ ← lift (refuse_if (bool_decide (Current.generation now ≠ event_generation))
          PersistenceError.Conflict);
    let outcome := JobEvent.outcome event in
    generation ← lift (stored (Generation.get (JobProjection.generation outcome)));
    let replaced := bool_decide (generation ≠ Current.generation now) in
    plan ← lift (next_plan (JobEvent.command event) replaced (Current.plan now));
    validator ← lift (next_validator (JobEvent.command event) replaced
                        (bool_decide (is_Some (Current.plan now))) (Current.validator now));
    _ ← lift (refuse_if (bool_decide (validator ≠ JobProjection.validator outcome))
          PersistenceError.Conflict);
    _ ← (if replaced then _ ← delete_extents id; delete_intent id else mret tt);
    _ ← (if decide (JobEvent.command event = JobCommand.PublishCommitted)
         then delete_intent id else mret tt);
    d ← gets (λ d, d);
    es ← lift (extents d id generation);
    let durable := sum_Z (ByteRange.len ∘ DurableExtent.range <$> es) in
    _ ← lift (refuse_if (bool_decide (durable < JobProjection.durable_bytes outcome))
          PersistenceError.Conflict);
    stop ← lift (stop_columns (JobProjection.stop outcome));
    retry_at ← lift (transpose (stored <$> JobProjection.retry_at outcome));
    _ ← upsert_state id (StateRow.Make (state_code (JobProjection.state outcome)) generation
          (reason_code <$> JobProjection.reason outcome) retry_at stop.1 stop.2
          (if JobProjection.replace_on_drain outcome then 1 else 0) (JobProjection.attempts outcome)
          (fst <$> plan) (snd <$> plan) validator);
    v ← lift (stored (JobEvent.version event));
    modify (λ d, Db.set_jobs (<[id := JobRow.Make (JobRow.spec row) v]> (Db.jobs d)) d)).

(** ** Extents *)

(** [INSERT INTO extents]: in primary-key order, a duplicate key being refused. *)
Fixpoint insert_extent (row : ExtentRow.t) (rows : list ExtentRow.t) : option (list ExtentRow.t) :=
  match rows with
  | [] => Some [row]
  | q :: qs =>
      if ExtentRow.key_lt (ExtentRow.key row) (ExtentRow.key q) then Some (row :: rows)
      else if decide (ExtentRow.key row = ExtentRow.key q) then None
      else cons q <$> insert_extent row qs
  end.

Definition insert_row (id generation : Z) (extent : DurableExtent.t) :
    st Db.t PersistenceError.t unit :=
  start ← lift (stored (ByteRange.start (DurableExtent.range extent)));
  end_ ← lift (stored (ByteRange.end_ (DurableExtent.range extent)));
  let row := ExtentRow.Make id generation start end_ (DurableExtent.digest extent) in
  _ ← constrained (ExtentRow.check row);
  d ← gets (λ d, d);
  rows ← lift (ok_or (insert_extent row (Db.extents d)) PersistenceError.Unavailable);
  modify (Db.set_extents rows).

Fixpoint insert_all (id generation : Z) (fresh : list DurableExtent.t) :
    st Db.t PersistenceError.t unit :=
  match fresh with
  | [] => mret tt
  | extent :: rest => _ ← insert_row id generation extent; insert_all id generation rest
  end.

Definition durable (job : JobId.t) (generation : Generation.t) (incoming : list DurableExtent.t) :
    st Db.t PersistenceError.t unit :=
  id ← lift (signed_id job);
  transaction (
    d ← gets (λ d, d);
    _ ← lift (refuse_if (bool_decide (Db.jobs d !! id = None)) PersistenceError.Conflict);
    now ← lift (current d id);
    generation ← lift (stored (Generation.get generation));
    plan ← lift (ok_or (Current.plan now) PersistenceError.Conflict);
    _ ← lift (refuse_if (bool_decide (generation ≠ Current.generation now
          ∨ Current.state now ∉ [Transferring; Stopping; Cancelling])) PersistenceError.Conflict);
    total ← lift (loaded plan.1);
    _ ← lift (refuse_if (existsb (λ e, bool_decide (total < ByteRange.end_ (DurableExtent.range e)))
          incoming) PersistenceError.Corrupt);
    existing ← lift (extents d id generation);
    fresh ← lift (ok_or (admit_ existing incoming) PersistenceError.Conflict);
    maximum ← lift (loaded plan.2);
    _ ← lift (refuse_if (bool_decide (maximum <
          Z.of_nat (restored_segments (ranges existing ++ ranges fresh) total)))
          PersistenceError.Conflict);
    insert_all id generation fresh).

Definition current_extents (job : JobId.t) (d : Db.t) :
    result PersistenceError.t (list DurableExtent.t) :=
  id ← signed_id job;
  extents d id (default 1 (StateRow.generation <$> Db.job_state d !! id)).

(** ** Publish intents *)

Definition intent (job : JobId.t) (d : Db.t) : result PersistenceError.t (option PublishIntent.t) :=
  id ← signed_id job;
  match Db.publish_intents d !! id with
  | None => Ok None
  | Some row =>
      g ← loaded (IntentRow.generation row);
      g ← corrupt (Generation.new g);
      attempt ← (if decide (0 ≤ IntentRow.attempt row ≤ u32_max) then Ok (IntentRow.attempt row)
                 else Err PersistenceError.Corrupt);
      size ← loaded (IntentRow.size row);
      digest ← array 32 (IntentRow.digest row);
      Ok (Some (PublishIntent.Make job g attempt size digest))
  end.

Definition intend_publish (i : PublishIntent.t) : st Db.t PersistenceError.t unit :=
  id ← lift (signed_id (PublishIntent.job i));
  transaction (
    d ← gets (λ d, d);
    now ← lift (current d id);
    _ ← lift (refuse_if (bool_decide (Current.state now ≠ Verifying)) PersistenceError.Conflict);
    g ← lift (stored (Generation.get (PublishIntent.generation i)));
    _ ← lift (refuse_if (bool_decide (Current.generation now ≠ g)
          || negb (is_some_and (λ p, bool_decide (loaded p.1 = Ok (PublishIntent.size i)))
                     (Current.plan now))) PersistenceError.Conflict);
    size ← lift (stored (PublishIntent.size i));
    let row := IntentRow.Make g (PublishIntent.attempt i) size (PublishIntent.digest i) in
    _ ← constrained (IntentRow.check row && bool_decide (is_Some (Db.jobs d !! id)));
    modify (λ d, Db.set_publish_intents (<[id := row]> (Db.publish_intents d)) d)).

(** ** Loading *)

(** The record of one row of the join of [jobs] and [job_state]. *)
Definition load_record (d : Db.t) (id : Z) (row : JobRow.t) : result PersistenceError.t JobRecord.t :=
  let state := Db.job_state d !! id in
  validator ← transpose (array 32 <$> (s ← state; StateRow.validator s));
  job_id ← (v ← loaded id; corrupt (JobId.new v));
  spec ← decode_spec (JobRow.spec row);
  version ← loaded (JobRow.version row);
  match state with
  | None => Ok (JobRecord.Make job_id spec version Queued Generation.initial None None None false 0
                  None None [])
  | Some s =>
      plan ← transpose ((λ p, t ← loaded p.1; m ← loaded p.2; Ok (t, m)) <$>
                          zip (StateRow.total s) (StateRow.max_segments s));
      st ← state_of (StateRow.state s);
      generation ← (v ← loaded (StateRow.generation s); corrupt (Generation.new v));
      reason ← transpose (reason_of <$> StateRow.reason s);
      retry_at ← transpose (loaded <$> StateRow.retry_at s);
      stop ← stop_of (StateRow.stop_kind s) (StateRow.stop_value s);
      attempts ← (if decide (0 ≤ StateRow.attempts s ≤ u8_max) then Ok (StateRow.attempts s)
                  else Err PersistenceError.Corrupt);
      es ← extents d id (StateRow.generation s);
      Ok (JobRecord.Make job_id spec version st generation reason retry_at stop
            (bool_decide (StateRow.replace_on_drain s = 1)) attempts plan validator (ranges es))
  end.

Definition load_job (d : Db.t) (id : Z) (row : JobRow.t) : result PersistenceError.t Job.t :=
  record ← load_record d id row;
  corrupt (Job.restore record).

(** [load_jobs]: every row of [jobs], [ORDER BY j.id]. *)
Definition row_le (p q : Z * JobRow.t) : Prop := p.1 ≤ q.1.
#[global] Instance row_le_dec : RelDecision row_le.
Proof. unfold RelDecision, row_le. apply _. Defined.
Definition jobs_by_id (d : Db.t) : list (Z * JobRow.t) := merge_sort row_le (map_to_list (Db.jobs d)).
Definition load_jobs (d : Db.t) : result PersistenceError.t (list Job.t) :=
  collect (λ p, load_job d p.1 p.2) (jobs_by_id d).

(** ** Opening *)

(** What [open_blocking] checks of the rows of a migrated database. *)
Definition invalid_receipt (d : Db.t) (r : ReceiptRow.t) : bool :=
  let saved := Db.jobs d !! ReceiptRow.job_id r in
  bool_decide (ReceiptRow.removed r = 0 ∧ saved = None) ||
  bool_decide (ReceiptRow.removed r = 1 ∧ is_Some saved) ||
  bool_decide (Db.last_id d < ReceiptRow.job_id r).
Definition orphan_job (d : Db.t) (id : Z) : bool :=
  negb (existsb (λ p, bool_decide (ReceiptRow.job_id p.2 = id)) (map_to_list (Db.receipts d))).
Definition open_checks (limits : Limits.t) (d : Db.t) : result PersistenceError.t unit :=
  _ ← refuse_if (bool_decide (Limits.jobs limits < Z.of_nat (size (Db.jobs d))
        ∨ Limits.receipts limits < Z.of_nat (size (Db.receipts d)))) PersistenceError.Capacity;
  refuse_if (existsb (λ p, invalid_receipt d p.2) (map_to_list (Db.receipts d))
    || existsb (λ p, orphan_job d p.1) (map_to_list (Db.jobs d))
    || bool_decide (Db.last_id d < 0) || negb (consistent d)) PersistenceError.Corrupt.
