(* ===== verification/PersistenceInv.v ===== *)
(** * The database invariant

    The codecs invert each other on every value the program can hold, and every
    committed transaction leaves a database that satisfies [db_wf]. *)

From S2P Require Import Prelude.
From S2P Require Import Domain.
From S2P Require Import Segments.
From S2P Require Import SegmentsInv.
From S2P Require Import SegmentsRestore.
From S2P Require Import JobMachine.
From S2P Require Import Admission.
From S2P Require Import Persistence.
From S2P Require Import Transfer.

(** ** Codecs *)

Lemma le_bytes_length n v : length (le_bytes n v) = n.
Proof. revert v. induction n; intros v; cbn; [done|by rewrite IHn]. Qed.

Lemma le_value_le_bytes n v : 0 ≤ v < 256 ^ Z.of_nat n → le_value (le_bytes n v) = v.
Proof.
  revert v. induction n as [|n IH]; intros v Hv.
  { cbn in *. lia. }
  cbn [le_bytes le_value]. rewrite IH.
  - pose proof (Z.div_mod v 256 ltac:(lia)). lia.
  - rewrite Nat2Z.inj_succ, Z.pow_succ_r in Hv by lia.
    split; [apply Z.div_pos; lia|apply Z.div_lt_upper_bound; lia].
Qed.

Lemma le_value_u64 v : 0 ≤ v ≤ u64_max → le_value (to_le_bytes v) = v.
Proof. intros. apply le_value_le_bytes. cbn. ints. Qed.

Lemma to_le_bytes_length v : length (to_le_bytes v) = 8%nat.
Proof. apply le_bytes_length. Qed.

Lemma to_le_bytes_inj v w : 0 ≤ v ≤ u64_max → 0 ≤ w ≤ u64_max → to_le_bytes v = to_le_bytes w → v = w.
Proof. intros Hv Hw He. by rewrite <-(le_value_u64 v), <-(le_value_u64 w), He. Qed.

Lemma array_Ok n bs r : array n bs = Ok r ↔ length bs = n ∧ r = bs.
Proof. unfold array. case_decide; naive_solver. Qed.

Lemma stored_Ok v r : stored v = Ok r ↔ v ≤ i64_max ∧ r = v.
Proof. unfold stored. case_decide; naive_solver. Qed.
Lemma loaded_Ok v r : loaded v = Ok r ↔ 0 ≤ v ∧ r = v.
Proof. unfold loaded. case_decide; naive_solver. Qed.
Lemma loaded_eq v : 0 ≤ v → loaded v = Ok v.
Proof. intros. by apply loaded_Ok. Qed.
Lemma stored_eq v : v ≤ i64_max → stored v = Ok v.
Proof. intros. by apply stored_Ok. Qed.

Lemma identifier_Ok {T} (wrap : Z → T) v r :
  identifier_new wrap v = Ok r ↔ v ≠ 0 ∧ r = wrap v.
Proof. unfold identifier_new. case_decide; naive_solver. Qed.

Lemma decode_encode_spec s : JobSpec.typed s → decode_spec (encode_spec s) = Ok s.
Proof.
  destruct s as [[src] [dst] e p m]. unfold JobSpec.typed, JobSpec.wf; cbn.
  intros (Hm&Hs&Hd&He). unfold decode_spec, encode_spec; cbn.
  unfold array. rewrite !decide_True by apply to_le_bytes_length.
  unfold_monad.
  assert (match priority p with 0 => Ok Low | 1 => Ok Normal | 2 => Ok High
          | _ => Err PersistenceError.Corrupt end = @Ok PersistenceError.t _ p) as -> by by destruct p.
  unfold SourceRef.new, DestinationRef.new, identifier_new, corrupt.
  rewrite !le_value_u64, !decide_False by lia. cbn.
  destruct e as [e|]; cbn; rewrite ?(decide_True (P := length e = 32%nat)) by done;
    rewrite loaded_eq by lia; cbn; unfold JobSpec.new; by rewrite decide_False by lia.
Qed.

Lemma check_encode_spec s : JobSpec.typed s → SpecRow.check (encode_spec s) = true.
Proof.
  intros (Hm&Hs&Hd&He). unfold JobSpec.wf in Hm. unfold SpecRow.check, encode_spec; cbn.
  rewrite !to_le_bytes_length.
  rewrite !bool_decide_eq_true_2; cbn; try done; try lia.
  - destruct (JobSpec.expected_sha256 s); [|done]. by rewrite bool_decide_eq_true_2.
  - destruct (JobSpec.priority s); done.
Qed.

Lemma table_get_Ok {A} (table : list A) code x :
  table_get table code = Ok x ↔ 0 ≤ code ∧ table !! Z.to_nat code = Some x.
Proof. unfold table_get. rewrite ok_or_Ok. case_decide; naive_solver. Qed.

Lemma state_of_code s : state_of (state_code s) = Ok s.
Proof. by destruct s. Qed.
Lemma reason_of_code r : reason_of (reason_code r) = Ok r.
Proof. by destruct r. Qed.

Lemma states_code n s : STATES !! n = Some s → Z.of_nat n = state_code s.
Proof. do 13 (destruct n as [|n]; [by intros [= <-]|]). done. Qed.
Lemma state_code_of c s : state_of c = Ok s → c = state_code s.
Proof. intros [H0 Hs]%table_get_Ok. apply states_code in Hs. lia. Qed.

Lemma stop_of_columns stop k v : stop_columns stop = Ok (k, v) →
  match stop with Some (StopTarget.RetryWait t) => 0 ≤ t | _ => True end →
  stop_of k v = Ok stop.
Proof.
  destruct stop as [[]|]; cbn; unfold_monad; try by intros [= <- <-].
  - unfold stored. case_decide; [|done]. intros [= <- <-] Ht. cbn. by rewrite loaded_eq.
  - intros [= <- <-] _. cbn. rewrite reason_of_code. done.
  - intros [= <- <-] _. cbn. rewrite reason_of_code. done.
Qed.

Lemma stop_columns_bounds stop k v : stop_columns stop = Ok (k, v) →
  match stop with Some (StopTarget.RetryWait t) => 0 ≤ t | _ => True end →
  StateRow.within 0 5 k = true ∧ StateRow.within 0 i64_max v = true.
Proof.
  destruct stop as [[]|]; cbn; unfold_monad; try by intros [= <- <-].
  - unfold stored. case_decide; [|done]. intros [= <- <-] Ht. cbn. split; [done|].
    apply bool_decide_eq_true. lia.
  - intros [= <- <-] _. cbn. by destruct reason.
  - intros [= <- <-] _. cbn. by destruct reason.
Qed.

(** ** The invariant *)

Definition row_range (e : ExtentRow.t) : ByteRange.t :=
  ByteRange.Make (ExtentRow.start e) (ExtentRow.end_excl e).
(** The extents of a job, in the order of their starts. *)
Definition job_rows (d : Db.t) (id : Z) : list ExtentRow.t :=
  filter (λ e, ExtentRow.job_id e = id) (Db.extents d).
Definition row_ranges (d : Db.t) (id : Z) : list ByteRange.t := row_range <$> job_rows d id.

Definition row_before (a b : ExtentRow.t) : Prop := ExtentRow.key_lt (ExtentRow.key a) (ExtentRow.key b) = true.
Definition disjoint_rows (a b : ExtentRow.t) : Prop :=
  ExtentRow.end_excl a ≤ ExtentRow.start b ∨ ExtentRow.end_excl b ≤ ExtentRow.start a.

(** A row belongs to the planned, current generation of its job. *)
Definition row_current (states : gmap Z StateRow.t) (e : ExtentRow.t) : Prop :=
  ∃ s t, states !! ExtentRow.job_id e = Some s ∧ ExtentRow.generation e = StateRow.generation s ∧
    StateRow.total s = Some t ∧ ExtentRow.end_excl e ≤ t.

Definition spec_row (r : SpecRow.t) : Prop := ∃ s, JobSpec.typed s ∧ r = encode_spec s.

(** A receipt either names a saved job with the same specification, or is a tombstone. *)
Definition receipt_backed (jobs : gmap Z JobRow.t) (r : ReceiptRow.t) : Prop :=
  (ReceiptRow.removed r = 0 ∧
     ∃ row, jobs !! ReceiptRow.job_id r = Some row ∧ JobRow.spec row = ReceiptRow.spec r) ∨
  (ReceiptRow.removed r = 1 ∧ jobs !! ReceiptRow.job_id r = None).

Record db_wf (d : Db.t) : Prop := {
  db_last : 0 ≤ Db.last_id d ≤ i64_max;
  db_jobs : ∀ id row, Db.jobs d !! id = Some row →
    0 < id ≤ Db.last_id d ∧ 0 ≤ JobRow.version row ≤ i64_max ∧ spec_row (JobRow.spec row) ∧
    ∃ k r, Db.receipts d !! k = Some r ∧ ReceiptRow.job_id r = id;
  db_receipts : ∀ k r, Db.receipts d !! k = Some r →
    (∃ key, ReceiptKey.typed key ∧ k = receipt_key key) ∧
    0 < ReceiptRow.job_id r ≤ Db.last_id d ∧ spec_row (ReceiptRow.spec r) ∧
    receipt_backed (Db.jobs d) r;
  db_unique : ∀ k1 k2 r1 r2, Db.receipts d !! k1 = Some r1 → Db.receipts d !! k2 = Some r2 →
    ReceiptRow.job_id r1 = ReceiptRow.job_id r2 → k1 = k2;
  db_states : ∀ id s, Db.job_state d !! id = Some s →
    StateRow.check s = true ∧ StateRow.generation s ≤ i64_max ∧ is_Some (Db.jobs d !! id);
  db_sorted : StronglySorted row_before (Db.extents d);
  db_extents : Forall (λ e, ExtentRow.check e = true ∧ row_current (Db.job_state d) e) (Db.extents d);
  db_disjoint : ∀ a b, a ∈ Db.extents d → b ∈ Db.extents d →
    ExtentRow.job_id a = ExtentRow.job_id b → a = b ∨ disjoint_rows a b;
  db_segments : ∀ id s t m, Db.job_state d !! id = Some s → StateRow.total s = Some t →
    StateRow.max_segments s = Some m → Z.of_nat (pieces false 0 t (row_ranges d id)) ≤ m;
  db_intents : ∀ id i, Db.publish_intents d !! id = Some i →
    IntentRow.check i = true ∧ is_Some (Db.jobs d !! id) }.

Lemma empty_wf : db_wf Db.empty.
Proof.
  constructor; cbn; try (intros *; rewrite !lookup_empty; done).
  - ints.
  - constructor.
  - constructor.
  - intros a b []%elem_of_nil.
Qed.

(** A failed transaction is no transaction. *)
Lemma transaction_run {A} (work : st Db.t PersistenceError.t A) d r d' :
  transaction work d = (r, d') →
  (∃ a, r = Ok a ∧ work d = (Ok a, d')) ∨ (∃ e, r = Err e ∧ d' = d).
Proof.
  unfold transaction. destruct (work d) as [[a|e] d1]; intros [= <- <-]; [left|right]; eauto.
Qed.

Lemma reserve_id_run d r d' :
  reserve_id d = (r, d') →
  (∃ e, r = Err e ∧ d' = d) ∨
  (Db.last_id d + 1 ≤ i64_max ∧ 0 ≤ Db.last_id d ∧ r = Ok (JobId.Make (Db.last_id d + 1)) ∧
   d' = Db.set_last_id (Db.last_id d + 1) d).
Proof.
  unfold reserve_id. intros [(id&->&Hw)|(e&->&->)]%transaction_run; [right|left; eauto].
  revert Hw. unfold_monad. case_bool_decide; cbn; [done|]. case_decide; [|done].
  unfold corrupt, JobId.new, identifier_new. case_decide; [done|]. cbn.
  intros [= <- <-]. split_and!; (done || lia).
Qed.

Lemma commit_add_run limits u d r d' :
  commit_add limits u d = (r, d') →
  (∃ e, r = Err e ∧ d' = d) ∨
  let rc := AddUnitOfWork.receipt u in
  let key := receipt_key (Receipt.key rc) in
  let id := JobId.get (Receipt.job rc) in
  let spec := encode_spec (Receipt.original rc) in
  r = Ok tt ∧ Receipt.removed rc = false ∧
  0 < id ≤ Db.last_id d ∧ length key.1 = 8%nat ∧ length key.2 = 32%nat ∧
  Db.receipts d !! key = None ∧ Db.jobs d !! id = None ∧
  (∀ k r, Db.receipts d !! k = Some r → ReceiptRow.job_id r ≠ id) ∧
  Z.of_nat (size (Db.jobs d)) < Limits.jobs limits ∧
  Z.of_nat (size (Db.receipts d)) < Limits.receipts limits ∧
  d' = Db.set_receipts (<[key := ReceiptRow.Make id spec 0]> (Db.receipts d))
         (Db.set_jobs (<[id := JobRow.Make spec 0]> (Db.jobs d)) d).
Proof.
  unfold commit_add. unfold mbind at 1, st_bind at 1, lift at 1, refuse_if at 1.
  case_bool_decide as Hfit; [intros [= <- <-]; left; eauto|]. cbn.
  unfold mbind at 1, st_bind at 1, lift at 1, signed_id, stored.
  case_decide as Hid; [|intros [= <- <-]; left; eauto].
  intros [([]&->&Hw)|(e&->&->)]%transaction_run; [right|left; eauto].
  revert Hw. unfold constrained. unfold_monad. case_bool_decide as Hex; cbn; [done|].
  case_bool_decide as Hlast; cbn; [done|]. case_bool_decide as Hcap; cbn; [done|].
  destruct (JobRow.check _ _) eqn:Hj; cbn; [|done].
  destruct (ReceiptRow.check _ _) eqn:Hr; cbn; [|done]. intros [= <-].
  repeat (apply Decidable.not_or in Hfit as [? Hfit]).
  repeat (apply Decidable.not_or in Hex as [? Hex]). apply Decidable.not_or in Hcap as [??].
  assert (Job.id (AddUnitOfWork.job u) = Receipt.job (AddUnitOfWork.receipt u)) as Heq by by apply dec_stable.
  rewrite Heq in *. unfold JobRow.check, ReceiptRow.check in *. cbn in *. open_bools.
  split_and!; try (done || lia).
  - by destruct (Receipt.removed _).
  - intros k r Hk He. apply Hex. by exists k, r.
Qed.

Lemma app_wf_receipt_backed jobs id row r :
  jobs !! id = None → ReceiptRow.job_id r ≠ id →
  receipt_backed jobs r → receipt_backed (<[id := row]> jobs) r.
Proof.
  intros Hn Hne [(?&row'&?&?)|[??]]; [left; split; [done|]; exists row'|right; split; [done|]];
    by rewrite lookup_insert_ne by auto.
Qed.

Lemma set_last_id_wf v d : db_wf d → Db.last_id d ≤ v ≤ i64_max → db_wf (Db.set_last_id v d).
Proof.
  intros [] Hv. constructor; cbn; try done.
  - lia.
  - intros id row H. destruct (db_jobs0 id row H) as (?&?&?&?). split_and!; (done || lia).
  - intros k r H. destruct (db_receipts0 k r H) as (?&?&?&?). split_and!; (done || lia).
Qed.

Lemma reserve_id_wf d : db_wf d → db_wf (reserve_id d).2.
Proof.
  intros Hwf. destruct (reserve_id d) as [r d'] eqn:Hr.
  apply reserve_id_run in Hr as [(e&->&->)|(?&?&->&->)]; [done|].
  apply set_last_id_wf; [done|]. cbn. lia.
Qed.

Lemma commit_add_wf limits u d : AddUnitOfWork.typed u → db_wf d → db_wf (commit_add limits u d).2.
Proof.
  intros [Hkey Hspec] Hwf. destruct (commit_add limits u d) as [r d'] eqn:Hr.
  apply commit_add_run in Hr as [(e&->&->)|(->&Hrem&Hid&Hk1&Hk2&Hrn&Hjn&Hu&_&_&->)]; [done|].
  set (rc := AddUnitOfWork.receipt u) in *. set (id := JobId.get (Receipt.job rc)) in *.
  destruct Hwf. constructor; cbn; try done.
  - intros id' row. rewrite lookup_insert_Some. intros [[<- <-]|[Hne Hrow]]; cbn.
    + split_and!; [lia..|ints|by exists (Receipt.original rc)|].
      eexists _, _. by rewrite lookup_insert_eq.
    + destruct (db_jobs0 id' row Hrow) as (?&?&?&k&r&Hk&?). split_and!; [lia..|done|].
      exists k, r. split; [|done]. rewrite lookup_insert_ne; [done|]. intros <-. congruence.
  - intros k r. rewrite lookup_insert_Some. intros [[<- <-]|[Hne Hrow]]; cbn.
    + split_and!; [by eexists|lia..|by eexists|]. left. split; [done|].
      eexists. by rewrite lookup_insert_eq.
    + destruct (db_receipts0 k r Hrow) as (?&?&?&?). split_and!; [done|lia..|done|].
      apply app_wf_receipt_backed; [done|by eapply Hu|done].
  - intros k1 k2 r1 r2. rewrite !lookup_insert_Some.
    intros [[<- <-]|[? H1]] [[<- <-]|[? H2]] He; cbn in *; [done|..|by eapply db_unique0].
    + by destruct (Hu _ _ H2).
    + by destruct (Hu _ _ H1).
  - intros id' s H. destruct (db_states0 id' s H) as (?&?&?). split_and!; [done..|].
    apply lookup_insert_is_Some'. by right.
  - intros id' i H. destruct (db_intents0 id' i H) as (?&?). split; [done|].
    apply lookup_insert_is_Some'. by right.
Qed.

(** ** Receipts *)

(** The receipt a row stands for. *)
Definition receipt_of (key : ReceiptKey.t) (row : ReceiptRow.t) : option Receipt.t :=
  (λ s, Receipt.Make key s (JobId.Make (ReceiptRow.job_id row)) (bool_decide (ReceiptRow.removed row = 1)))
    <$> ok (decode_spec (ReceiptRow.spec row)).

Lemma receipt_of_encode key s id rem :
  JobSpec.typed s →
  receipt_of key (ReceiptRow.Make id (encode_spec s) rem)
    = Some (Receipt.Make key s (JobId.Make id) (bool_decide (rem = 1))).
Proof. intros. unfold receipt_of; cbn. by rewrite decode_encode_spec. Qed.

(** A well-formed database never misreads a receipt. *)
Lemma load_receipt_run d key :
  db_wf d → load_receipt d key = Ok (Db.receipts d !! receipt_key key ≫= receipt_of key).
Proof.
  intros Hwf. unfold load_receipt. destruct (Db.receipts d !! receipt_key key) as [row|] eqn:Hrow; [|done].
  destruct (db_receipts d Hwf _ _ Hrow) as (_&Hid&(s&Hs&Hrs)&Hb).
  unfold receipt_backed in Hb. destruct row as [id spec rem]; cbn in *. subst spec.
  rewrite receipt_of_encode by done. rewrite decode_encode_spec by done. unfold_monad. rewrite loaded_eq by lia.
  unfold JobId.new, identifier_new. rewrite decide_False by lia. cbn.
  destruct Hb as [(->&jr&->&Hjr)|[-> ->]]; cbn in *; [|done].
  by rewrite Hjr, decode_encode_spec, bool_decide_eq_false_2 by (done || auto).
Qed.

Lemma remove_run key v d r d' :
  db_wf d → remove key v d = (r, d') →
  (∃ e, r = Err e ∧ d' = d) ∨
  ∃ row job, r = Ok tt ∧ Db.receipts d !! receipt_key key = Some row ∧ ReceiptRow.removed row = 0 ∧
    let id := ReceiptRow.job_id row in
    Db.jobs d !! id = Some job ∧ JobRow.version job = v ∧
    (∀ s, Db.job_state d !! id = Some s → StateRow.state s ∈ REMOVABLE_CODES) ∧
    d' = Db.set_receipts (<[receipt_key key := ReceiptRow.Make id (ReceiptRow.spec row) 1]> (Db.receipts d))
           (Db.delete_job id d).
Proof.
  intros Hwf. unfold remove. unfold mbind at 1, st_bind at 1, lift at 1.
  case_decide; [|intros [= <- <-]; left; eauto].
  intros [([]&->&Hw)|(e&->&->)]%transaction_run; [right|left; eauto].
  revert Hw. unfold_monad. rewrite load_receipt_run by done.
  destruct (Db.receipts d !! receipt_key key) as [row|] eqn:Hrow; [|done]. cbn.
  destruct (db_receipts d Hwf _ _ Hrow) as (_&Hid&(s&Hs&Hrs)&Hb). pose proof (db_last d Hwf).
  destruct row as [id spec rem]; cbn in *. subst spec. rewrite receipt_of_encode by done. cbn.
  case_bool_decide; cbn; [done|].
  unfold signed_id; cbn. rewrite stored_eq by lia. cbn.
  destruct (is_some_and _ (Db.job_state d !! id)) eqn:Hstate; cbn; [done|].
  destruct (is_some_and _ (Db.jobs d !! id)) eqn:Hjob; cbn; [|done].
  case_bool_decide as Hrem; cbn; [done|]. intros [= <-].
  destruct (Db.jobs d !! id) as [job|] eqn:Hj; [|done]. cbn in Hjob.
  exists (ReceiptRow.Make id (encode_spec s) rem), job. cbn. split_and!; try done.
  - by apply bool_decide_eq_true in Hjob.
  - intros st Hst. rewrite Hst in Hstate.
    by apply negb_false_iff, bool_decide_eq_true in Hstate.
Qed.

Lemma job_rows_delete d id id' :
  id' ≠ id → job_rows (Db.delete_job id d) id' = job_rows d id'.
Proof.
  intros Hne. unfold job_rows, Db.delete_job; cbn. rewrite list_filter_filter.
  apply list_filter_iff. naive_solver.
Qed.

Lemma StronglySorted_filter {A} (R : A → A → Prop) (P : A → Prop) `{∀ x, Decision (P x)} l :
  StronglySorted R l → StronglySorted R (filter P l).
Proof.
  induction 1 as [|x l Hl IH Hx]; [constructor|]. rewrite filter_cons. case_decide; [|done].
  constructor; [done|]. apply Forall_forall. intros y [_ Hy]%list_elem_of_filter.
  by rewrite Forall_forall in Hx; apply Hx.
Qed.

Lemma remove_wf key v d : db_wf d → db_wf (remove key v d).2.
Proof.
  intros Hwf. destruct (remove key v d) as [r d'] eqn:Hr.
  apply (remove_run _ _ _ _ _ Hwf) in Hr
    as [(e&->&->)|(row&job&->&Hrow&H0&Hjob&Hv&_&->)]; [done|].
  set (id := ReceiptRow.job_id row) in *. pose proof Hwf as [].
  destruct (db_receipts0 _ _ Hrow) as (Hkey&Hid&Hspec&_).
  constructor; cbn; try done.
  - intros id' row'. rewrite lookup_delete_Some. intros [Hne Hrow'].
    destruct (db_jobs0 _ _ Hrow') as (?&?&?&k&r&Hk&Hr). split_and!; [lia..|done|].
    exists k, r. split; [|done]. rewrite lookup_insert_ne; [done|]. intros <-.
    rewrite Hrow in Hk. injection Hk as <-. by destruct Hne.
  - intros k r. rewrite lookup_insert_Some. intros [[<- <-]|[Hne Hr]]; cbn.
    + split_and!; [done|lia..|done|]. right. split; [done|]. apply lookup_delete_eq.
    + destruct (db_receipts0 _ _ Hr) as (?&?&?&Hb). split_and!; [done|lia..|done|].
      assert (ReceiptRow.job_id r ≠ id) as Hni by (intros E; apply Hne; by eapply db_unique0).
      destruct Hb as [(?&row'&?&?)|[??]]; [left; split; [done|]; exists row'|right; split; [done|]];
        by rewrite lookup_delete_ne by auto.
  - intros k1 k2 r1 r2. rewrite !lookup_insert_Some.
    intros [[<- <-]|[? H1]] [[<- <-]|[? H2]] He; cbn in *; by eapply db_unique0.
  - intros id' s. rewrite lookup_delete_Some. intros [Hne Hs].
    destruct (db_states0 _ _ Hs) as (?&?&?). split_and!; [done..|]. by rewrite lookup_delete_ne.
  - by apply StronglySorted_filter.
  - apply Forall_forall. intros e [Hne He]%list_elem_of_filter.
    rewrite Forall_forall in db_extents0. destruct (db_extents0 e He) as (?&s&t&?&?&?&?).
    split; [done|]. exists s, t. split_and!; [by rewrite lookup_delete_ne by auto|done..].
  - intros a b [_ ?]%list_elem_of_filter [_ ?]%list_elem_of_filter. by apply db_disjoint0.
  - intros id' s t m. rewrite lookup_delete_Some. intros [Hne Hs] ??.
    pose proof (job_rows_delete d id id' ltac:(auto)) as Hrows.
    unfold row_ranges, job_rows in *. cbn in *. rewrite Hrows. by eapply db_segments0.
  - intros id' i. rewrite lookup_delete_Some. intros [Hne Hi].
    destruct (db_intents0 _ _ Hi). split; [done|]. by rewrite lookup_delete_ne.
Qed.
