(* ===== verification/TransferInv.v ===== *)
(** * Transfer transactions keep the database invariant

    What each transaction of [Transfer] does when it commits, and that it leaves
    [db_wf] behind. *)

From S2P Require Import Prelude.
From S2P Require Import Domain.
From S2P Require Import Segments.
From S2P Require Import SegmentsInv.
From S2P Require Import SegmentsRestore.
From S2P Require Import JobMachine.
From S2P Require Import Admission.
From S2P Require Import Persistence.
From S2P Require Import Transfer.
From S2P Require Import PersistenceInv.
Import JobState.

(** ** Reading extents *)

Definition extent_at (e : ExtentRow.t) : DurableExtent.t :=
  DurableExtent.Make (row_range e) (ExtentRow.digest e).

Lemma row_check_inv e :
  ExtentRow.check e = true → 0 < ExtentRow.generation e ∧ 0 ≤ ExtentRow.start e ∧
    ExtentRow.start e < ExtentRow.end_excl e ∧ length (ExtentRow.digest e) = 32%nat.
Proof. unfold ExtentRow.check. intros. by open_bools. Qed.

Lemma within_Some lo hi v : StateRow.within lo hi (Some v) = true ↔ lo ≤ v ≤ hi.
Proof. cbn. by rewrite bool_decide_eq_true. Qed.

Lemma state_check_total s t :
  StateRow.check s = true → StateRow.total s = Some t →
  0 ≤ t ≤ i64_max ∧ ∃ m, StateRow.max_segments s = Some m ∧ 1 ≤ m ≤ 262144.
Proof.
  unfold StateRow.check. intros Hc Ht. rewrite Ht in Hc. open_bools. rewrite within_Some in *.
  split; [done|]. destruct (StateRow.max_segments s) as [m|]; [|done].
  exists m. by rewrite within_Some in *.
Qed.

Lemma select_none d id g : job_rows d id = [] → select_extents d id g = [].
Proof.
  unfold job_rows, select_extents. induction (Db.extents d) as [|e es IH]; [done|].
  rewrite !filter_cons. case_decide; [done|]. rewrite decide_False by naive_solver. done.
Qed.

Section Rows.
Context (d : Db.t) (Hwf : db_wf d).

Lemma row_of_job id e : e ∈ job_rows d id →
  ExtentRow.job_id e = id ∧ ExtentRow.check e = true ∧ row_current (Db.job_state d) e ∧
  ByteRange.wf (row_range e).
Proof.
  intros [Hid He]%list_elem_of_filter. pose proof (db_extents d Hwf) as Hall.
  rewrite Forall_forall in Hall. destruct (Hall e He) as [Hc Hcur]. split_and!; [done..|].
  destruct Hcur as (s&t&Hs&_&Ht&Hle). apply (db_states d Hwf) in Hs as (Hsc&_).
  apply state_check_total in Ht as [? _]; [|done]. apply row_check_inv in Hc.
  unfold ByteRange.wf; cbn. lia.
Qed.

Lemma no_state_no_rows id : Db.job_state d !! id = None → job_rows d id = [].
Proof.
  intros Hn. destruct (job_rows d id) as [|e es] eqn:He; [done|].
  destruct (row_of_job id e) as (Hid&_&(s&_&Hs&_)&_); [rewrite He; set_solver|]. congruence.
Qed.

Lemma no_plan_no_rows id s : Db.job_state d !! id = Some s → StateRow.total s = None → job_rows d id = [].
Proof.
  intros Hs Ht. destruct (job_rows d id) as [|e es] eqn:He; [done|].
  destruct (row_of_job id e) as (Hid&_&(s'&t&Hs'&_&Ht'&_)&_); [rewrite He; set_solver|]. congruence.
Qed.

Lemma select_current id s : Db.job_state d !! id = Some s →
  select_extents d id (StateRow.generation s) = job_rows d id.
Proof.
  intros Hs. unfold select_extents, job_rows.
  assert (∀ e, e ∈ Db.extents d → ExtentRow.job_id e = id → ExtentRow.generation e = StateRow.generation s)
    as Hg.
  { intros e He Hid. destruct (row_of_job id e) as (_&_&(s'&t&Hs'&Hg&_)&_); [by apply list_elem_of_filter|].
    congruence. }
  induction (Db.extents d) as [|e es IH]; [done|]. rewrite !filter_cons.
  rewrite IH by (intros; apply Hg; set_solver).
  destruct (decide (ExtentRow.job_id e = id)) as [Hid|Hid].
  - rewrite decide_True; [done|]. split; [done|]. apply Hg; [set_solver|done].
  - rewrite decide_False; [done|]. naive_solver.
Qed.
End Rows.

Lemma extents_rows rows :
  Forall (λ e, ExtentRow.check e = true ∧ ByteRange.wf (row_range e)) rows →
  collect extent_of rows = Ok (extent_at <$> rows).
Proof.
  intros Hall. apply collect_Ok. induction Hall as [|e rows [Hc Hr] Hall IH]; [constructor|].
  constructor; [|done]. apply row_check_inv in Hc as (?&?&?&?). unfold ByteRange.wf in Hr; cbn in Hr.
  unfold extent_of. unfold_monad. rewrite !loaded_eq by lia. unfold corrupt.
  rewrite ByteRange.new_eq by lia. cbn. unfold array. by rewrite decide_True.
Qed.

Lemma extents_current d id s : db_wf d → Db.job_state d !! id = Some s →
  extents d id (StateRow.generation s) = Ok (extent_at <$> job_rows d id).
Proof.
  intros Hwf Hs. unfold extents. rewrite select_current by done. apply extents_rows.
  apply Forall_forall. intros e (_&?&_&?)%row_of_job; done.
Qed.

Lemma ranges_extent_at rows : ranges (extent_at <$> rows) = row_range <$> rows.
Proof. unfold ranges. rewrite <-list_fmap_compose. by apply list_fmap_ext. Qed.

(** The extents of one job are in ascending order. *)
Lemma rows_ascending rows lo :
  StronglySorted row_before rows →
  (∃ id g, Forall (λ e, ExtentRow.job_id e = id ∧ ExtentRow.generation e = g) rows) →
  Forall (λ e, lo ≤ ExtentRow.start e ∧ ExtentRow.start e < ExtentRow.end_excl e) rows →
  (∀ a b, a ∈ rows → b ∈ rows → a = b ∨ disjoint_rows a b) →
  ascending lo (row_range <$> rows).
Proof.
  intros Hs (id&g&Hk). revert lo. induction Hs as [|e rows Hs IH He]; intros lo Hr Hd; [done|].
  apply Forall_cons in Hr as [[??] Hr], Hk as [[Hid Hg] Hk].
  cbn. split_and!; [done..|]. apply IH; [done| |].
  - apply Forall_forall. intros q Hq. rewrite !Forall_forall in *.
    destruct (Hr q Hq), (Hk q Hq) as [Hqi Hqg]. specialize (He q Hq). split; [|done].
    unfold row_before, ExtentRow.key_lt, ExtentRow.key in He. cbn in He. rewrite Hid, Hg, Hqi, Hqg in He.
    rewrite !orb_true_iff, !andb_true_iff, !orb_true_iff, !andb_true_iff, !bool_decide_eq_true in He.
    unfold disjoint_rows in Hd. destruct (Hd e q) as [->|[?|?]]; [set_solver..|lia|done|lia].
  - intros a b Ha Hb. apply Hd; set_solver.
Qed.

Lemma row_ranges_ascending d id : db_wf d → ascending 0 (row_ranges d id).
Proof.
  intros Hwf. destruct (Db.job_state d !! id) as [s|] eqn:Hs.
  2: { unfold row_ranges. by rewrite no_state_no_rows. }
  apply rows_ascending.
  - apply StronglySorted_filter, db_sorted, Hwf.
  - exists id, (StateRow.generation s). apply Forall_forall.
    intros e (?&_&(s'&t&Hs'&?&_)&_)%row_of_job; [|done]. split; [done|congruence].
  - apply Forall_forall. intros e (_&?%row_check_inv&_)%row_of_job; [lia|done].
  - intros a b [? Ha]%list_elem_of_filter [? Hb]%list_elem_of_filter.
    apply (db_disjoint d Hwf); [done..|congruence].
Qed.

Lemma row_ranges_wf d id : db_wf d → Forall ByteRange.wf (row_ranges d id).
Proof.
  intros Hwf. apply Forall_fmap, Forall_forall. by intros e (_&_&_&?)%row_of_job.
Qed.

Lemma row_ranges_within d id s t :
  db_wf d → Db.job_state d !! id = Some s → StateRow.total s = Some t → within t (row_ranges d id).
Proof.
  intros Hwf Hs Ht. apply Forall_fmap, Forall_forall.
  intros e (?&_&(s'&t'&?&_&?&?)&_)%row_of_job; [|done]. cbn. congruence.
Qed.

(** ** Counting segments *)

Lemma sort_by_start_perm rs : sort_by_start rs ≡ₚ rs.
Proof. apply sort_by_key_perm. Qed.

Definition start_le (a b : ByteRange.t) : Prop := ByteRange.start a ≤ ByteRange.start b.

Lemma sort_by_start_sorted rs : StronglySorted start_le (sort_by_start rs).
Proof. apply sort_by_key_sorted. Qed.

Lemma ascending_starts lo rs : ascending lo rs →
  StronglySorted start_le rs ∧ Forall (λ r, lo ≤ ByteRange.start r) rs ∧
  NoDup (ByteRange.start <$> rs).
Proof.
  revert lo. induction rs as [|r rs IH]; intros lo; cbn.
  { intros _. split_and!; constructor. }
  intros (?&?&(Hs&Hf&Hn)%IH). split_and!.
  - constructor; [done|]. eapply Forall_impl; [exact Hf|]. unfold start_le. lia.
  - constructor; [done|]. eapply Forall_impl; [exact Hf|]. cbn. lia.
  - apply NoDup_cons. split; [|done]. intros (q&Hq&Hin)%list_elem_of_fmap.
    rewrite Forall_forall in Hf. specialize (Hf q Hin). cbn in Hf. lia.
Qed.

(** Sorting by start finds the one ascending arrangement. *)
Lemma sort_by_start_unique rs rs' : ascending 0 rs' → rs ≡ₚ rs' → sort_by_start rs = rs'.
Proof.
  intros (Hs&_&Hn)%ascending_starts Hp.
  pose proof (sort_by_start_sorted rs) as Hss.
  assert (sort_by_start rs ≡ₚ rs') as Hsp by (etrans; [apply sort_by_start_perm|exact Hp]).
  revert Hss Hsp. generalize (sort_by_start rs). clear Hp rs.
  revert Hn. induction Hs as [|r rs Hs IH Hr]; intros Hn l Hl Hperm.
  { by apply Permutation_nil_r in Hperm. }
  cbn in Hn. apply NoDup_cons in Hn as [Hni Hn].
  destruct Hl as [|q l Hl Hq]; [by apply Permutation_nil_l in Hperm|].
  assert (q = r) as ->.
  { assert (q ∈ r :: rs) as [->|Hin]%elem_of_cons by (rewrite <-Hperm; set_solver); [done|].
    assert (r ∈ q :: l) as [->|Hin']%elem_of_cons by (rewrite Hperm; set_solver); [done|].
    rewrite Forall_forall in Hr, Hq. specialize (Hr q Hin). specialize (Hq r Hin').
    unfold start_le in *. exfalso. apply Hni, list_elem_of_fmap. exists q. split; [lia|done]. }
  f_equal. apply IH; [done..|]. by eapply Permutation_cons_inv.
Qed.

(** The repository's count is the number of segments [SegmentMap::restore] builds. *)
Lemma count_segments_pieces count cursor rs total :
  (let '(c, e) := count_segments count cursor rs in c + if decide (e < total)%Z then 1 else 0)%nat =
  (count + pieces (bool_decide (0 < count)%nat) cursor total rs)%nat.
Proof.
  revert count cursor. induction rs as [|r rs IH]; intros count cursor; cbn; [done|].
  destruct (_ && _) eqn:Hb; rewrite IH.
  - apply andb_true_iff in Hb as [-> _]. done.
  - rewrite bool_decide_eq_true_2 by (clear; case_decide; lia).
    clear. destruct (decide (cursor < ByteRange.start r)%Z); lia.
Qed.

Lemma restored_segments_pieces rs rs' total :
  ascending 0 rs' → rs ≡ₚ rs' → restored_segments rs total = pieces false 0 total rs'.
Proof.
  intros Ha Hp. unfold restored_segments. rewrite (sort_by_start_unique rs rs') by done.
  pose proof (count_segments_pieces 0 0 rs' total) as Hc. revert Hc.
  destruct (count_segments 0 0 rs') as [c e]. intros ->. done.
Qed.

Lemma transaction_err {A} (work : st Db.t PersistenceError.t A) d e d' :
  transaction work d = (Err e, d') → ∃ d1, work d = (Err e, d1).
Proof. unfold transaction. destruct (work d) as [[a|e'] d1]; intros [= <- <-]. eauto. Qed.

(** ** Transitions *)

(** The rows a transition drops: everything of a replaced generation, and the intent
    of a published one. *)
Definition dropped (id : Z) (replaced published : bool) (d : Db.t) : Db.t :=
  let d := if replaced then
      Db.set_publish_intents (delete id (Db.publish_intents d))
        (Db.set_extents (filter (λ e, ExtentRow.job_id e ≠ id) (Db.extents d)) d)
    else d in
  if published then Db.set_publish_intents (delete id (Db.publish_intents d)) d else d.

Definition state_row (o : JobProjection.t) (generation : Z) (stop : option Z * option Z)
    (plan : option (Z * Z)) : StateRow.t :=
  StateRow.Make (state_code (JobProjection.state o)) generation (reason_code <$> JobProjection.reason o)
    (JobProjection.retry_at o) stop.1 stop.2 (if JobProjection.replace_on_drain o then 1 else 0)
    (JobProjection.attempts o) (fst <$> plan) (snd <$> plan) (JobProjection.validator o).


Lemma stored_all o r : transpose (stored <$> o) = Ok r → r = o ∧ ∀ v, o = Some v → v ≤ i64_max.
Proof.
  destruct o as [v|]; cbn.
  - unfold stored. case_decide; [|done]. intros [= <-]. split; [done|]. by intros ? [= <-].
  - by intros [= <-].
Qed.

(** Runs the deletions of a transition, with the monad open, down to [dropped]. *)
Ltac run_deletes event id replaced d :=
  let r1 := fresh "r" in let d1 := fresh "d" in let H1 := fresh "H" in
  match goal with |- match ?x with _ => _ end = _ → _ => destruct x as [r1 d1] eqn:H1 end;
  assert (r1 = Ok tt ∧ d1 = dropped id replaced false d) as [-> ->];
  [revert H1; unfold dropped, delete_extents, delete_intent, modify, mret, st_ret;
   destruct replaced; by intros [= <- <-]|];
  cbn beta iota; clear H1;
  let pub := constr:(JobEvent.command event = JobCommand.PublishCommitted) in
  match goal with |- match ?x with _ => _ end = _ → _ => destruct x as [r1 d1] eqn:H1 end;
  assert (r1 = Ok tt ∧ d1 = dropped id replaced (bool_decide pub) d) as [-> ->];
  [revert H1; unfold delete_intent, modify, mret, st_ret;
   let E := fresh in destruct (decide pub) as [E|E];
   [rewrite (bool_decide_eq_true_2 pub) by done|rewrite (bool_decide_eq_false_2 pub) by done];
   by intros [= <- <-]|];
  cbn beta iota; clear H1.

Lemma transition_run event d r d' :
  transition event d = (r, d') →
  (∃ e, r = Err e ∧ d' = d) ∨
  ∃ row now stop plan es,
    let id := JobId.get (JobEvent.job event) in
    let o := JobEvent.outcome event in
    let g := Generation.get (JobProjection.generation o) in
    let replaced := bool_decide (g ≠ Current.generation now) in
    let d1 := dropped id replaced (bool_decide (JobEvent.command event = JobCommand.PublishCommitted)) d in
    r = Ok tt ∧ id ≤ i64_max ∧ Db.jobs d !! id = Some row ∧ current d id = Ok now ∧
    0 ≤ JobRow.version row ∧ JobEvent.version event = JobRow.version row + 1 ∧
    JobEvent.version event ≤ i64_max ∧
    Current.state now = JobEvent.from event ∧
    Current.generation now = Generation.get (JobEvent.generation event) ∧ g ≤ i64_max ∧
    next_plan (JobEvent.command event) replaced (Current.plan now) = Ok plan ∧
    next_validator (JobEvent.command event) replaced (bool_decide (is_Some (Current.plan now)))
      (Current.validator now) = Ok (JobProjection.validator o) ∧
    extents d1 id g = Ok es ∧
    JobProjection.durable_bytes o ≤ bytes (ranges es) ∧
    stop_columns (JobProjection.stop o) = Ok stop ∧
    (∀ v, JobProjection.retry_at o = Some v → v ≤ i64_max) ∧
    StateRow.check (state_row o g stop plan) = true ∧
    d' = Db.set_jobs (<[id := JobRow.Make (JobRow.spec row) (JobEvent.version event)]> (Db.jobs d1))
           (Db.set_job_state (<[id := state_row o g stop plan]> (Db.job_state d1)) d1).
Proof.
  unfold transition. unfold mbind at 1, st_bind at 1, lift at 1, signed_id, stored at 1.
  case_decide as Hid; [|intros [= <- <-]; left; eauto].
  intros [([]&->&Hw)|(e&->&->)]%transaction_run; [right|left; eauto].
  set (id := JobId.get (JobEvent.job event)) in *. set (o := JobEvent.outcome event) in *.
  revert Hw. unfold mbind, st_bind, lift, gets, ok_or.
  destruct (Db.jobs d !! id) as [row|] eqn:Hrow; [|done].
  destruct (current d id) as [now|] eqn:Hnow; [|done].
  destruct (loaded (JobRow.version row)) as [v|] eqn:Hv; [|done].
  case_decide as Hgate; [done|]. apply Decidable.not_or in Hgate as [Hver Hfrom].
  apply dec_stable in Hver, Hfrom. apply checked_add_Some in Hver as [Hver _].
  destruct (stored (Generation.get (JobEvent.generation event))) as [eg|] eqn:Heg; [|done].
  unfold refuse_if. case_bool_decide as Hgen; [done|].
  destruct (stored (Generation.get (JobProjection.generation o))) as [g|] eqn:Hg; [|done].
  apply stored_Ok in Heg as [_ ->], Hg as [Hgle ->].
  apply loaded_Ok in Hv as [Hv0 ->].
  destruct (next_plan _ _ _) as [plan|] eqn:Hplan; [|done].
  destruct (next_validator _ _ _ _) as [validator|] eqn:Hval; [|done].
  destruct (bool_decide (validator ≠ _)) eqn:Hvo; [done|].
  apply bool_decide_eq_false, dec_stable in Hvo. subst validator.
  set (replaced := bool_decide _) in *.
  run_deletes event id replaced d.
  set (d1 := dropped id _ _ d).
  destruct (extents d1 id _) as [es|] eqn:Hes; [|done].
  destruct (bool_decide (sum_Z _ < _)) eqn:Hsum; [done|]. apply bool_decide_eq_false in Hsum.
  destruct (stop_columns _) as [stop|] eqn:Hstop; [|done].
  destruct (transpose _) as [retry|] eqn:Hretry; [|done]. apply stored_all in Hretry as [-> Hretry].
  fold (state_row o (Generation.get (JobProjection.generation o)) stop plan).
  unfold upsert_state, constrained, refuse_if. unfold mbind, st_bind, lift, gets.
  destruct (_ && _) eqn:Hcheck; cbn [negb]; [|done]. apply andb_true_iff in Hcheck as [Hcheck _].
  unfold modify. destruct (stored (JobEvent.version event)) as [v|] eqn:Hv; [|done].
  apply stored_Ok in Hv as [Hvle ->]. intros [= <-].
  exists row, now, stop, plan, es. split_and!; try done.
  unfold bytes, ranges. rewrite <-list_fmap_compose. lia.
Qed.

Lemma next_plan_keeps c p q x : next_plan c false p = Ok q → p = Some x → q = Some x.
Proof.
  intros Hn ->. revert Hn. unfold next_plan. unfold_monad.
  destruct c; try (by intros [= <-]). destruct (stored total); [|done].
  case_bool_decide; [done|]. by intros [= <-].
Qed.

Lemma next_plan_replaced c p q : next_plan c true p = Ok q → q = None.
Proof. by intros [= <-]. Qed.

Lemma current_inv d id now : current d id = Ok now →
  (Db.job_state d !! id = None ∧ now = Current.Make Queued 1 None None) ∨
  ∃ s st, Db.job_state d !! id = Some s ∧ StateRow.state s = state_code st ∧
    now = Current.Make st (StateRow.generation s)
      (zip (StateRow.total s) (StateRow.max_segments s)) (StateRow.validator s).
Proof.
  unfold current. destruct (Db.job_state d !! id) as [s|]; [|intros [= <-]; by left].
  unfold_monad. destruct (state_of _) as [st|] eqn:Hst; [|done]. intros [= <-]. right.
  apply state_code_of in Hst. eauto.
Qed.

Lemma dropped_jobs id a b d : Db.jobs (dropped id a b d) = Db.jobs d.
Proof. by destruct a, b. Qed.
Lemma dropped_states id a b d : Db.job_state (dropped id a b d) = Db.job_state d.
Proof. by destruct a, b. Qed.
Lemma dropped_receipts id a b d :
  Db.receipts (dropped id a b d) = Db.receipts d ∧ Db.last_id (dropped id a b d) = Db.last_id d.
Proof. by destruct a, b. Qed.
Lemma dropped_intents id a b d i x :
  Db.publish_intents (dropped id a b d) !! i = Some x → Db.publish_intents d !! i = Some x.
Proof. destruct a, b; cbn; rewrite ?lookup_delete_Some; naive_solver. Qed.
Lemma dropped_extents id a b d :
  Db.extents (dropped id a b d) =
    if a then filter (λ e, ExtentRow.job_id e ≠ id) (Db.extents d) else Db.extents d.
Proof. by destruct a, b. Qed.
Lemma dropped_extents_in id a b d e :
  e ∈ Db.extents (dropped id a b d) → e ∈ Db.extents d ∧ (a = true → ExtentRow.job_id e ≠ id).
Proof. rewrite dropped_extents. destruct a; [intros [??]%list_elem_of_filter|]; naive_solver. Qed.
Lemma dropped_sorted id a b d :
  StronglySorted row_before (Db.extents d) → StronglySorted row_before (Db.extents (dropped id a b d)).
Proof. rewrite dropped_extents. destruct a; [apply StronglySorted_filter|done]. Qed.
Lemma dropped_other id a b d id' : id' ≠ id → row_ranges (dropped id a b d) id' = row_ranges d id'.
Proof.
  intros. unfold row_ranges, job_rows. rewrite dropped_extents. destruct a; [|done].
  f_equal. rewrite list_filter_filter. apply list_filter_iff. naive_solver.
Qed.
Lemma kept_rows id b d : row_ranges (dropped id false b d) id = row_ranges d id.
Proof. unfold row_ranges, job_rows. by rewrite dropped_extents. Qed.
Lemma dropped_rows id b d : job_rows (dropped id true b d) id = [].
Proof.
  unfold job_rows. rewrite dropped_extents, list_filter_filter.
  induction (Db.extents d) as [|e es IH]; [done|]. rewrite filter_cons, decide_False; [done|]. naive_solver.
Qed.

(** The plan a transition writes is the one the extents that stay were admitted under. *)
Lemma plan_kept d id now c plan s :
  db_wf d → current d id = Ok now → Db.job_state d !! id = Some s →
  next_plan c false (Current.plan now) = Ok plan →
  ∀ t, StateRow.total s = Some t → (fst <$> plan) = Some t ∧ (snd <$> plan) = StateRow.max_segments s.
Proof.
  intros Hwf Hnow Hs Hp t Ht. pose proof (db_states d Hwf id s Hs) as (Hc&_&_).
  destruct (state_check_total s t Hc Ht) as (_&m&Hm&_).
  apply current_inv in Hnow as [[? _]|(s'&st&Hs'&_&->)]; [congruence|]. cbn in Hp.
  rewrite Hs in Hs'. injection Hs' as <-. rewrite Ht, Hm in Hp. cbn in Hp.
  by rewrite (next_plan_keeps _ _ _ (t, m) Hp eq_refl), Hm.
Qed.

Lemma state_row_plan o g stop p t m :
  StateRow.total (state_row o g stop p) = Some t → StateRow.max_segments (state_row o g stop p) = Some m →
  p = Some (t, m).
Proof. cbn. destruct p as [[]|]; [|done]. cbn. by intros [= ->] [= ->]. Qed.

(** Installing a projection over the rows its transition leaves. *)
Lemma install_wf d id replaced pub row v srow :
  db_wf d → Db.jobs d !! id = Some row → 0 ≤ v ≤ i64_max →
  StateRow.check srow = true → StateRow.generation srow ≤ i64_max →
  (replaced = false → ∀ s, Db.job_state d !! id = Some s → StateRow.generation srow = StateRow.generation s ∧
     ∀ t, StateRow.total s = Some t → StateRow.total srow = Some t ∧
       StateRow.max_segments srow = StateRow.max_segments s) →
  let d1 := dropped id replaced pub d in
  db_wf (Db.set_jobs (<[id := JobRow.Make (JobRow.spec row) v]> (Db.jobs d1))
    (Db.set_job_state (<[id := srow]> (Db.job_state d1)) d1)).
Proof.
  intros Hwf Hrow Hv Hc Hg Hkeep d1. pose proof Hwf as [].
  assert (Db.jobs d1 = Db.jobs d) as Hj by apply dropped_jobs.
  assert (Db.job_state d1 = Db.job_state d) as Hst by apply dropped_states.
  destruct (dropped_receipts id replaced pub d) as [Hr Hl].
  constructor; cbn; rewrite ?Hj, ?Hst; fold d1 in Hr, Hl; rewrite ?Hr, ?Hl; try done.
  - intros id' row'. rewrite lookup_insert_Some. intros [[<- <-]|[Hne Hrow']]; [|by apply db_jobs].
    destruct (db_jobs _ _ Hrow) as (?&?&?&?). done.
  - intros k r Hk. destruct (db_receipts k r Hk) as (?&?&?&Hb). split_and!; [done|lia..|done|].
    destruct Hb as [(?&row'&Hrow'&?)|[??]]; [left|right]; (split; [done|]).
    + destruct (decide (ReceiptRow.job_id r = id)) as [E|].
      * rewrite E in *. exists (JobRow.Make (JobRow.spec row) v). rewrite lookup_insert_eq. split; [done|]. cbn. congruence.
      * exists row'. by rewrite lookup_insert_ne by auto.
    + rewrite lookup_insert_ne; [done|]. intros ->. congruence.
  - intros id' s. rewrite lookup_insert_Some. intros [[<- <-]|[Hne Hs]].
    + split_and!; [done..|]. by rewrite lookup_insert_eq.
    + destruct (db_states _ _ Hs) as (?&?&?). split_and!; [done..|]. apply lookup_insert_is_Some'. by right.
  - by apply dropped_sorted.
  - apply Forall_forall. intros e [He Hne]%dropped_extents_in. rewrite Forall_forall in db_extents.
    destruct (db_extents e He) as (Hce&s&t&Hs&Hge&Ht&Hle). split; [done|].
    destruct (decide (ExtentRow.job_id e = id)) as [E|E].
    + destruct replaced; [by destruct (Hne eq_refl)|]. rewrite E in Hs.
      destruct (Hkeep eq_refl s Hs) as [Hgs Ht']. destruct (Ht' t Ht) as [Ht'' _].
      exists srow, t. rewrite E, lookup_insert_eq. split_and!; [done|congruence|done..].
    + exists s, t. by rewrite lookup_insert_ne by auto.
  - intros a b [Ha _]%dropped_extents_in [Hb _]%dropped_extents_in. by apply db_disjoint.
  - intros id' s t m. rewrite lookup_insert_Some. intros [[<- <-]|[Hne Hs]] Ht Hm.
    2: { unfold row_ranges, job_rows. cbn. fold (job_rows d1 id') (row_ranges d1 id').
         unfold d1. rewrite dropped_other by auto. by eapply db_segments. }
    unfold row_ranges, job_rows. cbn. fold (job_rows d1 id) (row_ranges d1 id).
    destruct (state_check_total _ _ Hc Ht) as (?&m'&Hm'&?). rewrite Hm in Hm'. injection Hm' as <-.
    assert (job_rows d1 id = [] → Z.of_nat (pieces false 0 t (row_ranges d1 id)) ≤ m) as Hempty.
    { intros He. unfold row_ranges. rewrite He. cbn. case_decide; lia. }
    destruct replaced; [apply Hempty, dropped_rows|]. unfold d1 in *.
    destruct (Db.job_state d !! id) as [s|] eqn:Hs.
    2: { apply Hempty. unfold job_rows. rewrite dropped_extents. by apply no_state_no_rows. }
    destruct (StateRow.total s) as [t0|] eqn:Ht0.
    2: { apply Hempty. unfold job_rows. rewrite dropped_extents. by eapply no_plan_no_rows. }
    destruct (Hkeep eq_refl s eq_refl) as [_ Hk]. destruct (Hk t0 Ht0) as [Htt Hmm].
    rewrite kept_rows. eapply db_segments; [done|congruence..].
  - intros id' i Hi%dropped_intents. destruct (db_intents _ _ Hi). split; [done|].
    apply lookup_insert_is_Some'. by right.
Qed.

Lemma transition_db_wf event d : db_wf d → db_wf (transition event d).2.
Proof.
  intros Hwf. destruct (transition event d) as [r d'] eqn:Hr.
  apply transition_run in Hr as [(e&->&->)|
    (row&now&stop&plan&es&->&_&Hrow&Hnow&Hv0&Hv&Hvle&_&Hgen&Hg&Hplan&_&_&_&_&_&Hcheck&->)]; [done|].
  apply install_wf; [done|done|lia|done|done|]. intros Hre s Hs.
  rewrite Hre in Hplan. apply bool_decide_eq_false, dec_stable in Hre.
  pose proof Hnow as Hnow'. apply current_inv in Hnow' as [[? _]|(s'&st&Hs'&_&Heq)]; [congruence|].
  rewrite Hs in Hs'. injection Hs' as <-. split; [by rewrite Heq in Hre|].
  cbn. eapply plan_kept; eauto.
Qed.

(** ** Extents *)

Definition apart (a b : DurableExtent.t) : Prop :=
  a = b ∨ overlaps (DurableExtent.range a) (DurableExtent.range b) = false.
Definition all_apart (es : list DurableExtent.t) : Prop := ∀ a b, a ∈ es → b ∈ es → apart a b.

Lemma overlaps_sym a b : overlaps a b = overlaps b a.
Proof. unfold overlaps. apply andb_comm. Qed.

Lemma overlaps_false a b :
  overlaps a b = false ↔ ByteRange.end_ b ≤ ByteRange.start a ∨ ByteRange.end_ a ≤ ByteRange.start b.
Proof. unfold overlaps. rewrite andb_false_iff, !bool_decide_eq_false. lia. Qed.

Lemma admit_loop_Some existing fresh incoming out :
  all_apart (existing ++ fresh) → NoDup (existing ++ fresh) →
  admit_loop existing fresh incoming = Some out →
  all_apart (existing ++ out) ∧ NoDup (existing ++ out) ∧
  (∀ e, e ∈ out → e ∈ fresh ∨ e ∈ incoming) ∧ (∀ e, e ∈ fresh ∨ e ∈ incoming → e ∈ existing ++ out).
Proof.
  revert fresh. induction incoming as [|x rest IH]; intros fresh Ha Hn; cbn.
  { intros [= <-]. split_and!; set_solver. }
  case_decide as Hin; [|destruct (existsb _ _) eqn:He; [done|]].
  - intros (?&?&H1&H2)%IH; [|done..]. split_and!; [done..|set_solver|].
    intros e [?|[->|?]%elem_of_cons]; [set_solver| |set_solver].
    destruct Hin; [set_solver|]. apply H2. by left.
  - rewrite existsb_false in He. apply Decidable.not_or in Hin as [Hne Hnf].
    intros (?&?&H1&H2)%IH.
    + split_and!; [done..|set_solver|]. intros e [?|[->|?]%elem_of_cons]; apply H2; set_solver.
    + rewrite app_assoc. intros a b Hina Hinb. rewrite elem_of_app, list_elem_of_singleton in Hina, Hinb.
      destruct Hina as [Hina| ->], Hinb as [Hinb| ->]; [by apply Ha| | |by left]; right.
      * by apply He.
      * rewrite overlaps_sym. by apply He.
    + rewrite app_assoc. apply NoDup_app. split_and!; [done| |apply NoDup_singleton].
      intros a Hina ->%list_elem_of_singleton. set_solver.
Qed.

Lemma insert_extent_sorted row rows rows' :
  StronglySorted row_before rows → insert_extent row rows = Some rows' →
  StronglySorted row_before rows' ∧ rows' ≡ₚ row :: rows.
Proof.
  intros Hs. revert rows'. induction Hs as [|q rows Hs IH Hq]; intros rows'; cbn.
  { intros [= <-]. split; [by repeat constructor|done]. }
  destruct (ExtentRow.key_lt (ExtentRow.key row) (ExtentRow.key q)) eqn:Hlt.
  - intros [= <-]. split; [|done]. constructor; [by constructor|]. constructor; [done|].
    eapply Forall_impl; [exact Hq|]. cbn. intros x Hx. revert Hlt Hx. unfold row_before, ExtentRow.key_lt.
    rewrite !orb_true_iff, !andb_true_iff, !orb_true_iff, !andb_true_iff, !bool_decide_eq_true. lia.
  - case_decide as Hk; [done|]. destruct (insert_extent row rows) as [rest|] eqn:Hi; [|done].
    intros [= <-]. destruct (IH rest eq_refl) as [Hrs Hrp]. split.
    + constructor; [done|]. rewrite Hrp. constructor; [|done].
      unfold row_before. revert Hlt Hk. unfold ExtentRow.key_lt, ExtentRow.key; cbn.
      rewrite <-not_true_iff_false.
      rewrite !orb_true_iff, !andb_true_iff, !orb_true_iff, !andb_true_iff, !bool_decide_eq_true.
      intros Hn Hk. assert (¬ (ExtentRow.job_id row = ExtentRow.job_id q ∧
        ExtentRow.generation row = ExtentRow.generation q ∧ ExtentRow.start row = ExtentRow.start q)).
      { intros (E1&E2&E3). apply Hk. by rewrite E1, E2, E3. }
      lia.
    + rewrite Hrp. by constructor.
Qed.

Lemma insert_extent_is_Some row rows :
  (∀ q, q ∈ rows → ExtentRow.key q ≠ ExtentRow.key row) → is_Some (insert_extent row rows).
Proof.
  induction rows as [|q rows IH]; cbn; intros Hne; [by eexists|].
  destruct (ExtentRow.key_lt _ _); [by eexists|]. rewrite decide_False.
  - assert (is_Some (insert_extent row rows)) as [rest ->] by (apply IH; intros; apply Hne; by right).
    by eexists.
  - intros E. symmetry in E. revert E. apply Hne. by left.
Qed.

Definition row_of (id g : Z) (e : DurableExtent.t) : ExtentRow.t :=
  ExtentRow.Make id g (ByteRange.start (DurableExtent.range e)) (ByteRange.end_ (DurableExtent.range e))
    (DurableExtent.digest e).

Lemma insert_all_run id g fresh d d' :
  StronglySorted row_before (Db.extents d) → insert_all id g fresh d = (Ok tt, d') →
  ∃ rows, d' = Db.set_extents rows d ∧ StronglySorted row_before rows ∧
    rows ≡ₚ (row_of id g <$> fresh) ++ Db.extents d ∧
    Forall (λ e, ExtentRow.check (row_of id g e) = true) fresh.
Proof.
  revert d. induction fresh as [|e rest IH]; intros d Hs; cbn.
  { intros [= <-]. exists (Db.extents d). by destruct d. }
  unfold insert_row, constrained. unfold_monad.
  destruct (stored (ByteRange.start _)) as [s|] eqn:H1; [|done].
  destruct (stored (ByteRange.end_ _)) as [t|] eqn:H2; [|done].
  apply stored_Ok in H1 as [_ ->], H2 as [_ ->]. fold (row_of id g e).
  destruct (ExtentRow.check (row_of id g e)) eqn:Hc; cbn [negb]; [|done].
  destruct (insert_extent _ _) as [rows|] eqn:Hi; [|done].
  apply insert_extent_sorted in Hi as [Hs' Hp]; [|done].
  intros (rows'&->&?&Hp'&?)%IH; [|done]. exists rows'. split_and!; [done..| |by constructor].
  rewrite Hp'. cbn. rewrite Hp. symmetry. apply Permutation_middle.
Qed.

Lemma insert_all_succeeds id g fresh d :
  StronglySorted row_before (Db.extents d) →
  Forall (λ e, ExtentRow.check (row_of id g e) = true ∧ ByteRange.wf (DurableExtent.range e)) fresh →
  NoDup (ExtentRow.key <$> (row_of id g <$> fresh)) →
  (∀ q e, q ∈ Db.extents d → e ∈ fresh → ExtentRow.key q ≠ ExtentRow.key (row_of id g e)) →
  ∃ d', insert_all id g fresh d = (Ok tt, d').
Proof.
  revert d. induction fresh as [|e rest IH]; intros d Hs Hc Hn Hk; cbn; [by eexists|].
  apply Forall_cons in Hc as [[Hce (?&?&?)] Hc]. cbn in Hn. apply NoDup_cons in Hn as [Hni Hn].
  unfold insert_row, constrained. unfold_monad. rewrite !stored_eq by lia. fold (row_of id g e).
  rewrite Hce. cbn [negb].
  destruct (insert_extent_is_Some (row_of id g e) (Db.extents d)) as [rows Hi].
  { intros q Hq. apply Hk; [done|set_solver]. }
  rewrite Hi. apply insert_extent_sorted in Hi as [Hs' Hp]; [|done].
  apply IH; [done..|]. cbn. intros q x Hq Hx. rewrite Hp in Hq.
  apply elem_of_cons in Hq as [->|Hq]; [|apply Hk; [done|set_solver]].
  intros E. apply Hni. rewrite E. by do 2 apply list_elem_of_fmap_2.
Qed.

Lemma durable_run job g incoming d r d' :
  durable job g incoming d = (r, d') →
  (∃ e, r = Err e ∧ d' = d) ∨
  ∃ now total maximum existing fresh,
    let id := JobId.get job in
    let gen := Generation.get g in
    r = Ok tt ∧ id ≤ i64_max ∧ is_Some (Db.jobs d !! id) ∧ current d id = Ok now ∧
    Current.plan now = Some (total, maximum) ∧ gen = Current.generation now ∧
    Current.state now ∈ [Transferring; Stopping; Cancelling] ∧
    (∀ e, e ∈ incoming → ByteRange.end_ (DurableExtent.range e) ≤ total) ∧
    extents d id gen = Ok existing ∧ admit_ existing incoming = Some fresh ∧
    Z.of_nat (restored_segments (ranges existing ++ ranges fresh) total) ≤ maximum ∧
    insert_all id gen fresh d = (Ok tt, d').
Proof.
  unfold durable. unfold mbind at 1, st_bind at 1, lift at 1, signed_id, stored at 1.
  case_decide as Hid; [|intros [= <- <-]; left; eauto].
  intros [([]&->&Hw)|(e&->&->)]%transaction_run; [right|left; eauto].
  revert Hw. unfold mbind, st_bind, lift, gets, ok_or, refuse_if.
  case_bool_decide as Hj; [done|]. destruct (current d _) as [now|] eqn:Hnow; [|done].
  destruct (stored (Generation.get g)) as [gen|] eqn:Hg; [|done]. apply stored_Ok in Hg as [_ ->].
  destruct (Current.plan now) as [[total maximum]|] eqn:Hplan; [|done].
  case_bool_decide as Hgate; [done|]. apply Decidable.not_or in Hgate as [Hgen Hst].
  apply dec_stable in Hgen, Hst. destruct (loaded (total, maximum).1) as [t|] eqn:Ht; [|done].
  apply loaded_Ok in Ht as [_ ->]. destruct (existsb _ _) eqn:Hend; [done|].
  rewrite existsb_false in Hend. destruct (extents d _ _) as [existing|] eqn:Hex; [|done].
  destruct (admit_ existing incoming) as [fresh|] eqn:Had; [|done].
  destruct (loaded (total, maximum).2) as [m|] eqn:Hm; [|done]. apply loaded_Ok in Hm as [_ ->].
  case_bool_decide as Hseg; [done|]. cbn in *. intros Hi.
  exists now, total, maximum, existing, fresh. split_and!; try done.
  - by apply not_eq_None_Some.
  - intros e He. apply Hend in He. apply bool_decide_eq_false in He. lia.
  - lia.
Qed.

(** What inserting fresh extents of one job does to the rows of each job. *)
Lemma inserted_same d id g fresh rows :
  rows ≡ₚ (row_of id g <$> fresh) ++ Db.extents d →
  row_ranges (Db.set_extents rows d) id ≡ₚ row_ranges d id ++ ranges fresh.
Proof.
  intros Hp. unfold row_ranges, job_rows; cbn. rewrite Hp, filter_app, fmap_app, (Permutation_app_comm).
  apply Permutation_app; [done|]. unfold ranges. clear.
  induction fresh as [|x fresh IH]; [done|]. rewrite fmap_cons, filter_cons_True by done. cbn.
  rewrite IH. unfold row_range; cbn. by destruct x as [[]].
Qed.

Lemma inserted_other d id g fresh rows id' :
  rows ≡ₚ (row_of id g <$> fresh) ++ Db.extents d → id' ≠ id →
  row_ranges (Db.set_extents rows d) id' ≡ₚ row_ranges d id'.
Proof.
  intros Hp Hne. unfold row_ranges, job_rows; cbn. rewrite Hp, filter_app, fmap_app.
  assert (filter (λ e, ExtentRow.job_id e = id') (row_of id g <$> fresh) = []) as ->; [|done].
  clear -Hne. induction fresh as [|x fresh IH]; [done|].
  rewrite fmap_cons, filter_cons_False; [done|]. cbn. auto.
Qed.

Lemma inserted_disjoint d id s fresh rows :
  db_wf d → Db.job_state d !! id = Some s → all_apart ((extent_at <$> job_rows d id) ++ fresh) →
  rows ≡ₚ (row_of id (StateRow.generation s) <$> fresh) ++ Db.extents d →
  ∀ a b, a ∈ rows → b ∈ rows → ExtentRow.job_id a = ExtentRow.job_id b → a = b ∨ disjoint_rows a b.
Proof.
  intros Hwf Hs Hap Hp.
  assert (∀ e, e ∈ rows → ExtentRow.job_id e = id → ∃ x, e = row_of id (StateRow.generation s) x ∧
    x ∈ (extent_at <$> job_rows d id) ++ fresh) as Hx.
  { intros e He Hid. rewrite Hp in He. apply elem_of_app in He as [(x&->&?)%list_elem_of_fmap|He];
      [exists x; set_solver|].
    assert (e ∈ job_rows d id) as Hr by by apply list_elem_of_filter.
    exists (extent_at e). split; [|rewrite elem_of_app; left; by apply list_elem_of_fmap_2].
    destruct (row_of_job d Hwf id e Hr) as (_&_&(s'&?&Hs'&Hg&_)&_).
    rewrite Hid in Hs'. assert (s' = s) as -> by congruence. rewrite <-Hg, <-Hid. by destruct e. }
  intros a b Ha Hb Hab. destruct (decide (ExtentRow.job_id a = id)) as [E|E].
  - destruct (Hx a Ha E) as (x&->&Hxa), (Hx b Hb ltac:(congruence)) as (y&->&Hyb).
    destruct (Hap x y Hxa Hyb) as [->|Ho%overlaps_false]; [by left|right].
    unfold disjoint_rows; cbn. lia.
  - rewrite Hp in Ha, Hb. apply elem_of_app in Ha as [(x&->&?)%list_elem_of_fmap|Ha]; [done|].
    apply elem_of_app in Hb as [(x&->&?)%list_elem_of_fmap|Hb]; [done|]. by apply (db_disjoint d).
Qed.

(** Adding extents that are apart from every durable one. *)
Lemma insert_rows_wf d id s t m fresh rows :
  db_wf d → Db.job_state d !! id = Some s → StateRow.total s = Some t → StateRow.max_segments s = Some m →
  all_apart ((extent_at <$> job_rows d id) ++ fresh) → 
  (∀ e, e ∈ fresh → ByteRange.end_ (DurableExtent.range e) ≤ t) →
  Forall (λ e, ExtentRow.check (row_of id (StateRow.generation s) e) = true) fresh →
  Z.of_nat (restored_segments (row_ranges d id ++ ranges fresh) t) ≤ m →
  StronglySorted row_before rows → 
  rows ≡ₚ (row_of id (StateRow.generation s) <$> fresh) ++ Db.extents d →
  db_wf (Db.set_extents rows d) ∧
  row_ranges (Db.set_extents rows d) id ≡ₚ row_ranges d id ++ ranges fresh.
Proof.
  intros Hwf Hs Ht Hm Hap Hend Hchk Hseg Hsort Hp. set (d' := Db.set_extents rows d).
  pose proof Hwf as [].
  assert (∀ e, e ∈ rows ↔ e ∈ row_of id (StateRow.generation s) <$> fresh ∨ e ∈ Db.extents d) as Hin.
  { intros e. rewrite Hp. apply elem_of_app. }
  pose proof (inserted_disjoint _ _ _ _ _ Hwf Hs Hap Hp) as Hdis.
  assert (Forall (λ e, ExtentRow.check e = true ∧ row_current (Db.job_state d) e) rows) as Hall.
  { apply Forall_forall. intros e [(x&->&Hf)%list_elem_of_fmap|He]%Hin.
    - rewrite Forall_forall in Hchk. split; [by apply Hchk|]. exists s, t. cbn. auto.
    - rewrite Forall_forall in db_extents. by apply db_extents. }
  pose proof (inserted_same _ _ _ _ _ Hp) as Hperm. fold d' in Hperm.
  pose proof (λ id', inserted_other _ _ _ _ _ id' Hp) as Hother. fold d' in Hother.
  assert (∀ id', ascending 0 (row_ranges d' id')) as Hasc.
  { intros id'. destruct (Db.job_state d !! id') as [s'|] eqn:Hs'.
    - apply rows_ascending; [by apply StronglySorted_filter| | |].
      + exists id', (StateRow.generation s'). apply Forall_forall.
        intros e [Hid He]%list_elem_of_filter. rewrite Forall_forall in Hall.
        destruct (Hall e He) as (_&s''&?&Hs''&?&_). split; [done|congruence].
      + apply Forall_forall. intros e [Hid He]%list_elem_of_filter. rewrite Forall_forall in Hall.
        destruct (Hall e He) as (?%row_check_inv&_). lia.
      + intros a b [? ?]%list_elem_of_filter [? ?]%list_elem_of_filter. apply Hdis; [done..|congruence].
    - assert (row_ranges d' id' = []) as ->; [|done].
      assert (id' ≠ id) as Hne by congruence. apply Permutation_nil_r. rewrite (Hother id' Hne).
      unfold row_ranges. by rewrite no_state_no_rows. }
  split; [|done]. constructor; cbn; try done. 
  intros id' s' t' m' Hs' Ht' Hm'. destruct (decide (id' = id)) as [->|Hne].
  - assert (t' = t ∧ m' = m) as [-> ->] by (split; congruence). etrans; [|exact Hseg].
    erewrite restored_segments_pieces; [|by apply Hasc|by symmetry]. done.
  - assert (row_ranges d' id' = row_ranges d id') as Hsame.
    { rewrite <-(sort_by_start_unique (row_ranges d' id') (row_ranges d' id')) by auto.
      apply sort_by_start_unique; [by apply row_ranges_ascending|by apply Hother]. }
    unfold row_ranges at 1, job_rows at 1 in Hsame. cbn in Hsame. rewrite Hsame.
    by eapply db_segments.
Qed.

Lemma plan_inv d id now t m :
  current d id = Ok now → Current.plan now = Some (t, m) →
  ∃ s st, Db.job_state d !! id = Some s ∧ StateRow.state s = state_code st ∧ Current.state now = st ∧
    Current.generation now = StateRow.generation s ∧
    StateRow.total s = Some t ∧ StateRow.max_segments s = Some m.
Proof.
  intros [[_ ->]|(s&st&Hs&Hst&->)]%current_inv; [done|]. cbn.
  destruct (StateRow.total s) eqn:?, (StateRow.max_segments s) eqn:?; try done. intros [= -> ->].
  exists s, st. done.
Qed.

Lemma rows_apart d id : db_wf d → all_apart (extent_at <$> job_rows d id).
Proof.
  intros Hwf a b (x&->&[? Hx]%list_elem_of_filter)%list_elem_of_fmap
    (y&->&[? Hy]%list_elem_of_filter)%list_elem_of_fmap.
  destruct (db_disjoint d Hwf x y Hx Hy ltac:(congruence)) as [->|Hd]; [by left|right].
  apply overlaps_false. unfold disjoint_rows in Hd. cbn. lia.
Qed.

Lemma rows_NoDup d id : db_wf d → NoDup (extent_at <$> job_rows d id).
Proof.
  intros Hwf. pose proof (row_ranges_ascending d id Hwf) as (_&_&Hn)%ascending_starts.
  unfold row_ranges in Hn. rewrite <-list_fmap_compose in Hn.
  apply (NoDup_fmap_1 (ByteRange.start ∘ DurableExtent.range)). by rewrite <-list_fmap_compose.
Qed.

(** Everything a committed batch of extents did. *)
Lemma durable_effect job g incoming d d' :
  db_wf d → durable job g incoming d = (Ok tt, d') →
  ∃ s t fresh rows,
    let id := JobId.get job in
    db_wf d' ∧ Db.job_state d !! id = Some s ∧ StateRow.total s = Some t ∧
    Generation.get g = StateRow.generation s ∧
    StateRow.state s ∈ state_code <$> [Transferring; Stopping; Cancelling] ∧
    all_apart ((extent_at <$> job_rows d id) ++ fresh) ∧
    (∀ e, e ∈ incoming → e ∈ (extent_at <$> job_rows d id) ++ fresh) ∧
    (∀ e, e ∈ fresh → e ∈ incoming) ∧ NoDup ((extent_at <$> job_rows d id) ++ fresh) ∧
    d' = Db.set_extents rows d ∧ rows ≡ₚ (row_of id (StateRow.generation s) <$> fresh) ++ Db.extents d.
Proof.
  intros Hwf [(?&?&_)|(now&t&m&existing&fresh&_&_&_&Hnow&Hplan&Hg&Hst&Hend&Hex&Had&Hseg&Hins)]%durable_run;
    [done|].
  destruct (plan_inv _ _ _ _ _ Hnow Hplan) as (s&st&Hs&Hsc&Hst'&Hg'&Ht&Hm).
  rewrite Hg, Hg', (extents_current _ _ _ Hwf Hs) in Hex. injection Hex as <-.
  apply admit_loop_Some in Had as (Hap&Hn&H1&H2);
    [|rewrite app_nil_r; by apply rows_apart|rewrite app_nil_r; by apply rows_NoDup].
  rewrite Hg, Hg' in Hins.
  apply insert_all_run in Hins as (rows&->&Hsort&Hp&Hc); [|apply db_sorted, Hwf].
  rewrite ranges_extent_at in Hseg.
  assert (∀ e, e ∈ fresh → e ∈ incoming) as Hfi by set_solver.
  destruct (insert_rows_wf d (JobId.get job) s t m fresh rows) as [? _]; [try done; auto..|].
  exists s, t, fresh, rows. split_and!; try done.
  - congruence.
  - rewrite Hsc, <-Hst'. by apply list_elem_of_fmap_2.
  - set_solver.
Qed.

Lemma durable_wf job g incoming d : db_wf d → db_wf (durable job g incoming d).2.
Proof.
  intros Hwf. destruct (durable job g incoming d) as [r d'] eqn:Hr.
  pose proof Hr as [(e&->&->)|(?&?&?&?&?&->&_)]%durable_run; [done|].
  by apply durable_effect in Hr as (?&?&?&?&?&_).
Qed.

(** ** Publish intents *)

Lemma intend_publish_run i d r d' :
  intend_publish i d = (r, d') →
  (∃ e, r = Err e ∧ d' = d) ∨
  ∃ now t m,
    let id := JobId.get (PublishIntent.job i) in
    let g := Generation.get (PublishIntent.generation i) in
    let row := IntentRow.Make g (PublishIntent.attempt i) (PublishIntent.size i) (PublishIntent.digest i) in
    r = Ok tt ∧ current d id = Ok now ∧ Current.state now = Verifying ∧ Current.generation now = g ∧
    Current.plan now = Some (t, m) ∧ PublishIntent.size i = t ∧
    IntentRow.check row = true ∧ is_Some (Db.jobs d !! id) ∧
    d' = Db.set_publish_intents (<[id := row]> (Db.publish_intents d)) d.
Proof.
  unfold intend_publish. unfold mbind at 1, st_bind at 1, lift at 1, signed_id, stored at 1.
  case_decide as Hid; [|intros [= <- <-]; left; eauto].
  intros [([]&->&Hw)|(e&->&->)]%transaction_run; [right|left; eauto].
  revert Hw. unfold constrained, mbind, st_bind, lift, gets, refuse_if.
  destruct (current d _) as [now|] eqn:Hnow; [|done]. case_bool_decide as Hst; [done|].
  destruct (stored (Generation.get _)) as [g|] eqn:Hg; [|done]. apply stored_Ok in Hg as [_ ->].
  destruct (_ || _) eqn:Hgate; [done|]. open_bools.
  destruct (stored (PublishIntent.size i)) as [sz|] eqn:Hsz; [|done]. apply stored_Ok in Hsz as [_ ->].
  destruct (negb (_ && _)) eqn:Hc; [done|]. open_bools. intros [= <-].
  destruct (Current.plan now) as [[t m]|] eqn:Hplan; [|done]. cbn in *. open_bools.
  match goal with H : loaded t = _ |- _ => apply loaded_Ok in H as [_ ?] end.
  exists now, t, m. split_and!; try done.
Qed.

Lemma intend_publish_wf i d : db_wf d → db_wf (intend_publish i d).2.
Proof.
  intros Hwf. destruct (intend_publish i d) as [r d'] eqn:Hr.
  apply intend_publish_run in Hr as [(e&->&->)|(?&?&?&_&_&_&_&_&_&Hc&Hj&->)]; [done|].
  destruct Hwf. constructor; cbn; try done.
  intros id' i'. rewrite lookup_insert_Some. intros [[<- <-]|[_ Hi]]; [done|by apply db_intents].
Qed.
