(* ===== verification/PersistenceThm.v ===== *)
(** * What the SQLite repository promises

    Every database the transactions can reach passes the checks made when it is
    opened; the repository keeps the contract admission relies on; and a batch of
    extents is recorded exactly once. *)

From S2P Require Import Prelude.
From S2P Require Import Domain.
From S2P Require Import Segments.
From S2P Require Import SegmentsRestore.
From S2P Require Import JobMachine.
From S2P Require Import Admission.
From S2P Require Import AdmissionThm.
From S2P Require Import Persistence.
From S2P Require Import Transfer.
From S2P Require Import PersistenceInv.
From S2P Require Import TransferInv.
Import JobState.

(** ** The repository as one machine *)

Inductive db_op : Type :=
| ReserveId
| CommitAdd (u : AddUnitOfWork.t)
| Remove (key : ReceiptKey.t) (version : Z)
| Transition (event : JobEvent.t)
| DurableExtents (job : JobId.t) (generation : Generation.t) (incoming : list DurableExtent.t)
| IntendPublish (i : PublishIntent.t).

Definition db_after (limits : Limits.t) (o : db_op) (d : Db.t) : Db.t :=
  match o with
  | ReserveId => (reserve_id d).2
  | CommitAdd u => (commit_add limits u d).2
  | Remove key version => (remove key version d).2
  | Transition event => (transition event d).2
  | DurableExtents job generation incoming => (durable job generation incoming d).2
  | IntendPublish i => (intend_publish i d).2
  end.

Definition db_op_typed (o : db_op) : Prop :=
  match o with CommitAdd u => AddUnitOfWork.typed u | _ => True end.

Inductive db_reachable (limits : Limits.t) : Db.t → Prop :=
| db_reachable_empty : db_reachable limits Db.empty
| db_reachable_step o d :
    db_reachable limits d → db_op_typed o → db_reachable limits (db_after limits o d).

Lemma db_after_wf limits o d : db_op_typed o → db_wf d → db_wf (db_after limits o d).
Proof.
  destruct o; cbn; intros.
  - by apply reserve_id_wf.
  - by apply commit_add_wf.
  - by apply remove_wf.
  - by apply transition_db_wf.
  - by apply durable_wf.
  - by apply intend_publish_wf.
Qed.

(** The tables never outgrow the limits admission is given. *)
Definition fits (limits : Limits.t) (d : Db.t) : Prop :=
  Z.of_nat (size (Db.jobs d)) ≤ Limits.jobs limits ∧
  Z.of_nat (size (Db.receipts d)) ≤ Limits.receipts limits.

Lemma size_insert_le {K V} `{Countable K} (m : gmap K V) k v :
  (size (<[k := v]> m) ≤ S (size m))%nat.
Proof.
  destruct (m !! k) eqn:Hk; [rewrite map_size_insert_Some by (by eexists)|rewrite map_size_insert_None by done]; lia.
Qed.

Lemma db_after_fits limits o d : db_wf d → fits limits d → fits limits (db_after limits o d).
Proof.
  intros Hwf [Hj Hr]. destruct o; cbn.
  - destruct (reserve_id d) as [r d'] eqn:Hd.
    by apply reserve_id_run in Hd as [(e&->&->)|(?&?&->&->)].
  - destruct (commit_add limits u d) as [r d'] eqn:Hd.
    apply commit_add_run in Hd as [(e&->&->)|(_&_&_&_&_&_&_&_&?&?&->)]; [done|]. unfold fits; cbn.
    pose proof (size_insert_le (Db.jobs d) (JobId.get (Receipt.job (AddUnitOfWork.receipt u)))
      (JobRow.Make (encode_spec (Receipt.original (AddUnitOfWork.receipt u))) 0)).
    split; [lia|]. etrans; [apply Nat2Z.inj_le, size_insert_le|]. lia.
  - destruct (remove key version d) as [r d'] eqn:Hd.
    apply (remove_run _ _ _ _ _ Hwf) in Hd as [(e&->&->)|(row&job&->&Hrow&_&Hjob&_&_&->)]; [done|].
    unfold fits; cbn. rewrite map_size_insert_Some by (by eexists). split; [|done].
    etrans; [|exact Hj]. apply Nat2Z.inj_le.
    rewrite map_size_delete_Some by (by eexists). lia.
  - destruct (transition event d) as [r d'] eqn:Hd.
    apply transition_run in Hd as [(e&->&->)|(row&now&stop&plan&es&->&_&Hrow&_&_&_&_&_&_&_&_&_&_&_&_&_&_&->)];
      [done|].
    unfold fits; cbn. rewrite dropped_jobs. destruct (dropped_receipts (JobId.get (JobEvent.job event))
      (bool_decide (Generation.get (JobProjection.generation (JobEvent.outcome event)) ≠ Current.generation now))
      (bool_decide (JobEvent.command event = JobCommand.PublishCommitted)) d) as [-> _].
    by rewrite map_size_insert_Some by (by eexists).
  - destruct (durable job generation incoming d) as [r d'] eqn:Hd.
    pose proof Hd as [(e&->&->)|(?&?&?&?&?&->&_)]%durable_run; [done|].
    by apply durable_effect in Hd as (?&?&?&?&_&_&_&_&_&_&_&_&_&->&_).
  - destruct (intend_publish i d) as [r d'] eqn:Hd.
    by apply intend_publish_run in Hd as [(e&->&->)|(?&?&?&_&_&_&_&_&_&_&_&->)].
Qed.

Lemma reachable_db limits d : 0 ≤ Limits.jobs limits → 0 ≤ Limits.receipts limits →
  db_reachable limits d → db_wf d ∧ fits limits d.
Proof.
  intros ??. induction 1 as [|o d _ [Hwf Hf] Ho].
  - split; [apply empty_wf|]. unfold fits; cbn. by rewrite !map_size_empty.
  - split; [by apply db_after_wf|by apply db_after_fits].
Qed.

Lemma wf_consistent d : db_wf d → consistent d = true.
Proof.
  intros Hwf. unfold consistent. apply forallb_forall. intros e He%list_elem_of_In.
  pose proof (db_extents d Hwf) as Hall. rewrite Forall_forall in Hall.
  destruct (Hall e He) as (_&s&t&->&->&->&Hle). cbn. rewrite !bool_decide_eq_true_2 by done. done.
Qed.

Lemma existsb_map_false {K V} `{Countable K} (f : K * V → bool) (m : gmap K V) :
  (∀ k v, m !! k = Some v → f (k, v) = false) → existsb f (map_to_list m) = false.
Proof.
  intros Hall. apply existsb_false. intros [k v] Hin. apply Hall. by apply elem_of_map_to_list.
Qed.

(** C27: every database the transactions can reach, in any order and with any arguments, is well
    formed and passes the checks its next opening makes: receipts and jobs match one to one,
    identifiers stay below the sequence, the tables fit the limits, and every extent lies inside
    the planned, current generation of its job. *)
Theorem reachable_database_reopens limits max_jobs max_receipts d :
  Limits.new max_jobs max_receipts = Ok limits → db_reachable limits d →
  db_wf d ∧ open_checks limits d = Ok tt.
Proof.
  unfold Limits.new. case_decide as Hl; [intros [= <-]|done].
  intros [Hwf [Hj Hr]]%reachable_db; [|cbn; lia..]. split; [done|].
  unfold open_checks. unfold_monad. rewrite bool_decide_eq_false_2 by lia.
  rewrite !existsb_map_false, bool_decide_eq_false_2, wf_consistent; [done..| | |].
  - pose proof (db_last d Hwf). lia.
  - intros id row Hrow. unfold orphan_job. destruct (db_jobs d Hwf _ _ Hrow) as (_&_&_&k&r&Hk&Hid).
    apply negb_false_iff, existsb_exists. exists (k, r). split; [|by apply bool_decide_eq_true].
    apply list_elem_of_In. by apply elem_of_map_to_list.
  - intros k r Hk. unfold invalid_receipt. cbn.
    destruct (db_receipts d Hwf _ _ Hk) as (_&Hid&_&[(->&row&->&_)|[-> ->]]).
    + rewrite !bool_decide_eq_false_2; [done|lia|naive_solver..].
    + rewrite !bool_decide_eq_false_2; [done|lia| |naive_solver]. intros [_ [? ?]]. done.
Qed.

(** ** The contract of admission *)

Definition key_of (k : list Z * list Z) : ReceiptKey.t :=
  ReceiptKey.Make (Principal.Make (le_value k.1)) k.2.

Lemma key_of_receipt_key key : ReceiptKey.typed key → key_of (receipt_key key) = key.
Proof.
  destruct key as [[p] digest]. intros [Hp _]. unfold key_of, receipt_key; cbn in *.
  by rewrite le_value_u64 by lia.
Qed.

(** The durable receipts, by the key a caller uses. *)
Definition receipt_table (d : Db.t) : gmap ReceiptKey.t Receipt.t :=
  list_to_map (omap (λ p, (λ rc, (key_of p.1, rc)) <$> receipt_of (key_of p.1) p.2)
    (map_to_list (Db.receipts d))).

Lemma receipt_table_lookup d key rc :
  db_wf d → receipt_table d !! key = Some rc ↔
  ReceiptKey.typed key ∧ ∃ row, Db.receipts d !! receipt_key key = Some row ∧ receipt_of key row = Some rc.
Proof.
  intros Hwf. unfold receipt_table. set (f := λ p : _ * ReceiptRow.t, _).
  assert (∀ p, p ∈ map_to_list (Db.receipts d) → ∃ k, ReceiptKey.typed k ∧ p.1 = receipt_key k) as Hkeys.
  { intros [k row] Hk%elem_of_map_to_list. by destruct (db_receipts d Hwf _ _ Hk) as (?&_). }
  assert (NoDup (omap f (map_to_list (Db.receipts d))).*1) as Hnd.
  { pose proof (NoDup_fst_map_to_list (Db.receipts d)) as Hn. revert Hn Hkeys.
    induction (map_to_list (Db.receipts d)) as [|p L IH]; intros Hn Hkeys; cbn; [constructor|].
    cbn in Hn. apply NoDup_cons in Hn as [Hp Hn].
    destruct (f p) as [q|] eqn:Hf; [|apply IH; [done|set_solver]]. cbn. apply NoDup_cons.
    split; [|apply IH; [done|set_solver]]. intros (x&Hx&(y&Hy&Hfy)%list_elem_of_omap)%list_elem_of_fmap.
    apply Hp, list_elem_of_fmap. exists y. split; [|done].
    assert (q.1 = key_of p.1) as Hq1 by (revert Hf; unfold f; destruct (receipt_of _ p.2); by intros [= <-]).
    assert (x.1 = key_of y.1) as Hx1 by (revert Hfy; unfold f; destruct (receipt_of _ y.2); by intros [= <-]).
    destruct (Hkeys p) as (kp&?&Hkp), (Hkeys y) as (ky&?&Hky); [set_solver..|].
    rewrite Hkp, Hky in *. rewrite key_of_receipt_key in Hq1, Hx1 by done. congruence. }
  rewrite <-elem_of_list_to_map by done. rewrite list_elem_of_omap. split.
  - intros ([k row]&Hin&Hf). destruct (Hkeys _ Hin) as (key'&Hty&Hk). cbn in Hk. subst k.
    apply elem_of_map_to_list in Hin. unfold f in Hf. cbn in Hf.
    rewrite key_of_receipt_key in Hf by done. destruct (receipt_of key' row) as [rc'|] eqn:Hrc; [|done].
    injection Hf as <- <-. eauto.
  - intros (Hty&row&Hrow&Hrc). exists (receipt_key key, row). split; [by apply elem_of_map_to_list|].
    unfold f; cbn. by rewrite key_of_receipt_key, Hrc by done.
Qed.

Lemma receipt_of_Some d key row :
  db_wf d → Db.receipts d !! receipt_key key = Some row →
  ∃ s, JobSpec.typed s ∧ ReceiptRow.spec row = encode_spec s ∧
    receipt_of key row = Some (Receipt.Make key s (JobId.Make (ReceiptRow.job_id row))
      (bool_decide (ReceiptRow.removed row = 1))).
Proof.
  intros Hwf Hrow. destruct (db_receipts d Hwf _ _ Hrow) as (_&_&(s&Hs&Hrs)&_).
  exists s. split_and!; [done..|]. destruct row as [id spec rem]; cbn in *. subst spec.
  by apply receipt_of_encode.
Qed.

(** A table that reads the same under every key is the same table. *)
Lemma receipt_table_same d d' :
  db_wf d → db_wf d' → Db.receipts d' = Db.receipts d → receipt_table d' = receipt_table d.
Proof. intros _ _ He. unfold receipt_table. by rewrite He. Qed.

Lemma receipt_table_insert d d' key s id rem :
  db_wf d → db_wf d' → ReceiptKey.typed key → JobSpec.typed s →
  Db.receipts d' = <[receipt_key key := ReceiptRow.Make id (encode_spec s) rem]> (Db.receipts d) →
  receipt_table d' =
    <[key := Receipt.Make key s (JobId.Make id) (bool_decide (rem = 1))]> (receipt_table d).
Proof.
  intros Hwf Hwf' Hkey Hs He. apply map_eq. intros key'. apply option_eq. intros rc.
  rewrite receipt_table_lookup by done. destruct (decide (key' = key)) as [->|Hne].
  - rewrite lookup_insert_eq, He. setoid_rewrite lookup_insert_eq. split.
    + intros (_&row&[= <-]&Hrc). by rewrite receipt_of_encode in Hrc.
    + intros [= <-]. split; [done|]. eexists. split; [done|]. by apply receipt_of_encode.
  - rewrite lookup_insert_ne by auto. rewrite receipt_table_lookup, He by done.
    split; intros (Hty&row&Hrow&Hrc); (split; [done|]); exists row; (split; [|done]);
      [rewrite lookup_insert_ne in Hrow|rewrite lookup_insert_ne]; try done;
      intros E; apply (f_equal key_of) in E; rewrite !key_of_receipt_key in E by done; by destruct Hne.
Qed.

Lemma load_receipt_table d key :
  db_wf d → ReceiptKey.typed key → load_receipt d key = Ok (receipt_table d !! key).
Proof.
  intros Hwf Hty. rewrite load_receipt_run by done. f_equal. apply option_eq. intros rc.
  rewrite receipt_table_lookup by done. rewrite bind_Some. naive_solver.
Qed.

(** A call runs its transaction, or does not; its answer may be lost after the commit. *)
Lemma run_cases {A} (work : st Db.t PersistenceError.t A) r x r' :
  SqliteRepository.run work r = (x, r') →
  SqliteRepository.limits r' = SqliteRepository.limits r ∧
  ((x = Err PersistenceError.Unavailable ∧ SqliteRepository.db r' = SqliteRepository.db r) ∨
   ∃ y, work (SqliteRepository.db r) = (y, SqliteRepository.db r') ∧
     (x = y ∨ is_Some (ok y) ∧ x = Err PersistenceError.Unavailable)).
Proof.
  unfold SqliteRepository.run. destruct (head _) as [[]|].
  1, 4: destruct (work _) as [y d] eqn:Hw; intros [= <- <-]; split; [done|right; exists y; auto].
  - intros [= <- <-]. split; [done|by left].
  - destruct (work _) as [[a|e] d] eqn:Hw; intros [= <- <-]; (split; [done|right; eexists; split; [done|]]).
    + right. split; [by eexists|done].
    + by left.
Qed.

Lemma port_cases {E A} (f : PersistenceError.t → E) work r (x : result E A) r' :
  SqliteRepository.port f work r = (x, r') →
  SqliteRepository.limits r' = SqliteRepository.limits r ∧
  ((x = Err (f PersistenceError.Unavailable) ∧ SqliteRepository.db r' = SqliteRepository.db r) ∨
   ∃ y, work r (SqliteRepository.db r) = (y, SqliteRepository.db r') ∧
     (x = map_err f y ∨ is_Some (ok y) ∧ x = Err (f PersistenceError.Unavailable))).
Proof.
  unfold SqliteRepository.port. destruct (SqliteRepository.run _ r) as [z r1] eqn:Hr.
  intros [= <- <-]. apply run_cases in Hr as [? [[-> ?]|(y&?&[->|[? ->]])]]; (split; [done|]).
  - by left.
  - right. exists y. auto.
  - right. exists y. auto.
Qed.

(** What a committed admission adds to the receipts. *)
Lemma commit_add_table limits u d y d' :
  AddUnitOfWork.typed u → db_wf d → commit_add limits u d = (y, d') →
  let rc := AddUnitOfWork.receipt u in
  db_wf d' ∧ Db.last_id d' = Db.last_id d ∧
  ((∃ e, y = Err e ∧ d' = d) ∨
   (y = Ok tt ∧ receipt_table d !! Receipt.key rc = None ∧
    (∀ k rc', receipt_table d !! k = Some rc' → Receipt.job rc' ≠ Receipt.job rc) ∧
    receipt_table d' = <[Receipt.key rc := rc]> (receipt_table d))).
Proof.
  intros [Hkey Hspec] Hwf Hy rc.
  pose proof (commit_add_wf limits u _ (conj Hkey Hspec) Hwf) as Hwf'. rewrite Hy in Hwf'. cbn in Hwf'.
  apply commit_add_run in Hy as [(e&->&->)|(->&Hrem&_&_&_&Hrn&_&Hu&_&_&Hd)].
  { split_and!; [done..|]. left. eauto. }
  split_and!; [done|by rewrite Hd|]. right. split_and!; [done|..].
  - apply eq_None_not_Some. intros [rc' (_&row&Hrow&_)%receipt_table_lookup]; [|done]. unfold rc in Hrow. congruence.
  - intros k rc' (_&row&Hrow&Hrc)%receipt_table_lookup; [|done].
    destruct (receipt_of_Some _ _ _ Hwf Hrow) as (s&_&_&Hof). rewrite Hof in Hrc. injection Hrc as <-.
    cbn. intros E. apply (Hu _ _ Hrow). fold rc. by rewrite <-E.
  - rewrite (receipt_table_insert d d' (Receipt.key rc) (Receipt.original rc) (JobId.get (Receipt.job rc)) 0);
      [|done..|by rewrite Hd].
    f_equal. fold rc in Hrem. destruct rc as [? ? [] []]; cbn in *; done.
Qed.

#[global] Program Instance sqlite_lawful : LawfulRepository SqliteRepository.t := {
  receipts r := receipt_table (SqliteRepository.db r);
  issued r id := JobId.get id ≤ Db.last_id (SqliteRepository.db r);
  repository_ok r := db_wf (SqliteRepository.db r) }.
Next Obligation.
  cbn. intros key r x r' Hty Hwf [_ [[-> ->]|(y&[= <- <-]&Hx)]]%port_cases.
  { by split_and!. }
  rewrite load_receipt_table in Hx by done. split_and!; try done.
  intros o ->. by destruct Hx as [[= ->]|[_ ?]].
Qed.
Next Obligation.
  cbn. intros r x r' Hwf [_ [[-> ->]|(y&Hy&Hx)]]%port_cases.
  { by split_and!. }
  pose proof (reserve_id_wf _ Hwf) as Hwf'. rewrite Hy in Hwf'. cbn in Hwf'.
  apply reserve_id_run in Hy as [(e&->&->)|(?&?&->&Hd)].
  - destruct Hx as [->|[[? [=]] _]]. by split_and!.
  - rewrite Hd in *. split_and!; [done|done|cbn; lia|]. intros id ->.
    destruct Hx as [[= ->]|[_ ?]]; [|done]. cbn. lia.
Qed.
Next Obligation.
  cbn. intros u r x r' [Hkey Hspec] Hwf [_ [[-> ->]|(y&Hy&Hx)]]%port_cases.
  { split_and!; [done..|by left]. }
  apply commit_add_table in Hy as (?&Hl&[(e&->&Heq)|(->&Hadd)]); [..|done|done].
  - rewrite Heq in *. split_and!; [done..|]. destruct Hx as [->|[[? [=]] _]]. destruct e; cbn; auto.
  - split_and!; [done|by rewrite Hl|]. destruct Hx as [->|[_ ->]]; cbn; auto.
Qed.

(** *** Callers of the SQLite repository *)

(** A receipt turned into a tombstone still answers for its key. *)
Lemma tombstone_future r r' key row :
  db_wf (SqliteRepository.db r) → db_wf (SqliteRepository.db r') → receipts_wf r →
  Db.receipts (SqliteRepository.db r) !! receipt_key key = Some row →
  Db.receipts (SqliteRepository.db r') = <[receipt_key key :=
    ReceiptRow.Make (ReceiptRow.job_id row) (ReceiptRow.spec row) 1]> (Db.receipts (SqliteRepository.db r)) →
  future r r'.
Proof.
  intros Hwf Hwf' [Hk Hj] Hrow Heq.
  destruct (db_receipts _ Hwf _ _ Hrow) as ((key'&Hty&Hkk)&_&(s&Hs&Hrs)&_).
  rewrite Hkk, Hrs in *. pose proof (receipt_table_insert _ _ _ _ _ _ Hwf Hwf' Hty Hs Heq) as Ht.
  assert (∃ rem, receipt_table (SqliteRepository.db r) !! key' =
    Some (Receipt.Make key' s (JobId.Make (ReceiptRow.job_id row)) rem)) as [rem Hold].
  { exists (bool_decide (ReceiptRow.removed row = 1)). apply receipt_table_lookup; [done|]. split; [done|]. exists row. split; [done|].
    destruct row as [id spec rem]; cbn in *. subst spec. by apply receipt_of_encode. }
  cbn in *. split_and!; [done|split|]; cbn; rewrite ?Ht.
  - intros k rc. rewrite lookup_insert_Some. intros [[<- <-]|[_ ?]]; [done|by apply Hk].
  - intros k1 k2 rc1 rc2. rewrite !lookup_insert_Some.
    intros [[<- <-]|[? H1]] [[<- <-]|[? H2]] He; cbn in *; [done|by eapply Hj..|by eapply Hj].
  - intros k rc Hrc. cbn. rewrite Ht. destruct (decide (k = key')) as [->|].
    + rewrite lookup_insert_eq. eexists. split; [done|]. cbn in *. by simplify_eq.
    + exists rc. by rewrite lookup_insert_ne by auto.
Qed.

(** The other transactions keep every receipt; removing a job only marks its receipt. *)
Lemma other_future o r :
  db_wf (SqliteRepository.db r) → receipts_wf r → db_op_typed o →
  future r (SqliteRepository.Make (db_after (SqliteRepository.limits r) o (SqliteRepository.db r))
    (SqliteRepository.limits r) (SqliteRepository.fates r)).
Proof.
  intros Hwf Hrwf Ho. pose proof (db_after_wf (SqliteRepository.limits r) o _ Ho Hwf) as Hwf'.
  set (r' := SqliteRepository.Make _ _ _). assert (repository_ok r') as Hok by done.
  assert (∀ d', SqliteRepository.db r' = d' → Db.receipts d' = Db.receipts (SqliteRepository.db r) →
    future r r') as Hsame.
  { intros d' <- Heq. pose proof (receipt_table_same _ _ Hwf Hwf' Heq) as Ht.
    split_and!; [done|unfold receipts_wf; cbn in *; by rewrite Ht|].
    intros k rc Hk. exists rc. cbn in *. by rewrite Ht. }
  destruct o as [|u|key v|e|job g incoming|i]; cbn in *.
  - destruct (reserve_id _) as [x d'] eqn:Hd. apply (Hsame d'); [done|].
    by apply reserve_id_run in Hd as [(e&->&->)|(?&?&->&->)].
  - destruct (commit_add _ u _) as [x d'] eqn:Hd.
    apply commit_add_table in Hd as (_&_&[(?&->&->)|(_&?&?&?)]); [by eapply Hsame| |done..].
    by eapply (insert_future r r' (AddUnitOfWork.receipt u)).
  - destruct (remove key v _) as [x d'] eqn:Hd.
    apply (remove_run _ _ _ _ _ Hwf) in Hd as [(e&->&->)|(row&job&->&Hrow&H0&Hjob&_&_&->)];
      [by eapply Hsame|].
    eapply (tombstone_future r r' key row); cbn; [done..|]. done.
  - destruct (transition e _) as [x d'] eqn:Hd. apply (Hsame d'); [done|].
    apply transition_run in Hd as [(?&->&->)|(row&now&stop&plan&es&->&_&_&_&_&_&_&_&_&_&_&_&_&_&_&_&_&->)];
      [done|]. by destruct (dropped_receipts (JobId.get (JobEvent.job e))
      (bool_decide (Generation.get (JobProjection.generation (JobEvent.outcome e)) ≠ Current.generation now))
      (bool_decide (JobEvent.command e = JobCommand.PublishCommitted)) (SqliteRepository.db r)) as [? _].
  - destruct (durable job g incoming _) as [x d'] eqn:Hd. apply (Hsame d'); [done|].
    pose proof Hd as [(e&->&->)|(?&?&?&?&?&->&_)]%durable_run; [done|].
    by apply durable_effect in Hd as (?&?&?&?&_&_&_&_&_&_&_&_&_&->&_).
  - destruct (intend_publish i _) as [x d'] eqn:Hd. apply (Hsame d'); [done|].
    by apply intend_publish_run in Hd as [(e&->&->)|(?&?&?&_&_&_&_&_&_&_&_&->)].
Qed.

(** The SQLite repository with its callers: a fresh database, requests that arrive and
    proceed one repository call at a time, and any other transactions in between. *)
Inductive sqlite_system : SqliteRepository.t → list client → Prop :=
| sqlite_init limits fates : sqlite_system (SqliteRepository.Make Db.empty limits fates) []
| sqlite_join r cs authorizer entitlement key spec :
    sqlite_system r cs → ReceiptKey.typed key → JobSpec.typed spec →
    sqlite_system r (cs ++ [Client key spec (execute authorizer entitlement key spec)])
| sqlite_call r cs i c r' p' :
    sqlite_system r cs → cs !! i = Some c → call (c_prog c) r = Some (r', p') →
    sqlite_system r' (<[i := Client (c_key c) (c_spec c) p']> cs)
| sqlite_other r cs o :
    sqlite_system r cs → db_op_typed o →
    sqlite_system (SqliteRepository.Make (db_after (SqliteRepository.limits r) o (SqliteRepository.db r))
      (SqliteRepository.limits r) (SqliteRepository.fates r)) cs.

Lemma sqlite_is_system r cs : sqlite_system r cs → system r cs.
Proof.
  induction 1 as [limits fates|r cs a e key spec _ IH ??|r cs i c r' p' _ IH ??|r cs o _ IH Ho].
  - assert (receipt_table Db.empty = ∅) as Hempty.
    { unfold receipt_table; cbn. by rewrite map_to_list_empty. }
    apply system_init; [apply empty_wf|].
    split; cbn; rewrite Hempty; intros *; by rewrite !lookup_empty.
  - by apply system_join.
  - by eapply system_call.
  - eapply system_other; [done|]. pose proof (system_safe _ _ IH) as (?&?&_). by apply other_future.
Qed.

(** On the SQLite repository, from an empty database and through any interleaving of requests,
    lost answers, removals, transitions, extents and publications, every request that succeeded
    reads back as a receipt for its own specification and job; two requests got the same job
    exactly when they used the same key; and unless it was removed the job is in the table of jobs
    under that specification. *)
Theorem stored_requests_agree r cs i j ci cj idi idj :
  sqlite_system r cs → cs !! i = Some ci → cs !! j = Some cj →
  c_prog ci = Return (Ok idi) → c_prog cj = Return (Ok idj) →
  (idi = idj ↔ c_key ci = c_key cj) ∧
  ∃ rc, load_receipt (SqliteRepository.db r) (c_key ci) = Ok (Some rc) ∧
    Receipt.original rc = c_spec ci ∧ Receipt.job rc = idi ∧
    (Receipt.removed rc = false → ∃ row, Db.jobs (SqliteRepository.db r) !! JobId.get idi = Some row ∧
      decode_spec (JobRow.spec row) = Ok (c_spec ci)).
Proof.
  intros Hs%sqlite_is_system Hi Hj Hpi Hpj.
  pose proof (system_safe _ _ Hs) as (Hwf&_&_). cbn in Hwf.
  destruct (clients_agree _ _ _ _ _ _ _ _ Hs Hi Hj Hpi Hpj) as ((rc&Hrc&Ho&Hjob)&Hiff&_).
  split; [done|]. exists rc. cbn in Hrc.
  pose proof Hrc as (Hty&row&Hrow&Hof)%receipt_table_lookup; [|done].
  split_and!; [by rewrite load_receipt_table, Hrc|done..|]. intros Hrem.
  destruct (receipt_of_Some _ _ _ Hwf Hrow) as (s&Hts&Hrs&Hof'). rewrite Hof' in Hof.
  injection Hof as <-. cbn in *. subst idi s.
  destruct (db_receipts _ Hwf _ _ Hrow) as (_&_&_&[(_&jr&Hjr&Hsp)|[E _]]).
  - exists jr. split; [done|]. rewrite Hsp, Hrs. by apply decode_encode_spec.
  - by rewrite bool_decide_eq_true_2 in Hrem.
Qed.

(** ** Extents *)

Lemma current_extents_run d job : db_wf d → JobId.get job ≤ i64_max →
  current_extents job d = Ok (extent_at <$> job_rows d (JobId.get job)).
Proof.
  intros Hwf Hid. unfold current_extents, signed_id. unfold_monad. rewrite stored_eq by done.
  destruct (Db.job_state d !! JobId.get job) as [s|] eqn:Hs; cbn.
  - by rewrite (extents_current d _ s).
  - rewrite no_state_no_rows by done. unfold extents.
    by rewrite select_none by by apply no_state_no_rows.
Qed.

Lemma rows_unique d d' id : db_wf d → db_wf d' →
  job_rows d' id ≡ₚ job_rows d id → job_rows d' id = job_rows d id.
Proof.
  intros Hwf Hwf' Hp. eapply (StronglySorted_unique_strong row_before); [|by apply StronglySorted_filter, db_sorted..|done].
  intros a b _ _. unfold row_before, ExtentRow.key_lt.
  rewrite !orb_true_iff, !andb_true_iff, !orb_true_iff, !andb_true_iff, !bool_decide_eq_true. intros ??. exfalso. lia.
Qed.

Lemma admit_known existing fresh incoming :
  (∀ e, e ∈ incoming → e ∈ existing) → admit_loop existing fresh incoming = Some fresh.
Proof.
  revert fresh. induction incoming as [|x rest IH]; intros fresh Hall; [done|]. cbn.
  rewrite decide_True by (left; apply Hall; by left). apply IH. intros. apply Hall. by right.
Qed.

(** A batch the table already holds is accepted and changes nothing. *)
Lemma durable_known job g incoming d now t m :
  let id := JobId.get job in
  db_wf d → id ≤ i64_max → is_Some (Db.jobs d !! id) → current d id = Ok now →
  Current.plan now = Some (t, m) → Generation.get g = Current.generation now →
  Current.state now ∈ [Transferring; Stopping; Cancelling] →
  (∀ e, e ∈ incoming → e ∈ extent_at <$> job_rows d id) →
  durable job g incoming d = (Ok tt, d).
Proof.
  intros id Hwf Hid Hj Hnow Hplan Hg Hst Hall.
  destruct (plan_inv _ _ _ _ _ Hnow Hplan) as (s&st&Hs&_&_&Hg'&Ht&Hm).
  pose proof (db_states d Hwf _ _ Hs) as (Hc&Hgle&_).
  destruct (state_check_total s t Hc Ht) as (?&m'&Hm'&?). assert (m' = m) as -> by congruence.
  unfold durable, transaction, signed_id, admit_. fold id. unfold mbind, st_bind, lift, gets, refuse_if, ok_or.
  rewrite stored_eq by done. rewrite bool_decide_eq_false_2 by (by apply not_eq_None_Some).
  rewrite Hnow, stored_eq by congruence. rewrite Hplan, bool_decide_eq_false_2 by naive_solver.
  rewrite loaded_eq by (cbn; lia). cbn [fst snd].
  rewrite (proj2 (existsb_false _ _)).
  2: { intros e (x&->&Hx)%Hall%list_elem_of_fmap. apply bool_decide_eq_false. cbn.
       destruct (row_of_job d Hwf id x Hx) as (?&_&(s'&t'&?&_&?&?)&_). assert (t' = t) as -> by congruence. lia. }
  rewrite Hg, Hg', (extents_current _ _ _ Hwf Hs), admit_known by done.
  rewrite loaded_eq by lia. rewrite bool_decide_eq_false_2; [done|].
  rewrite ranges_extent_at, app_nil_r, (restored_segments_pieces _ (row_ranges d id));
    [|by apply row_ranges_ascending|done].
  pose proof (db_segments d Hwf id s t m Hs Ht Hm). lia.
Qed.

(** A batch of extents the repository accepts is recorded exactly once: afterwards the job has
    its earlier extents and the batch, each with its own digest, no two of them overlapping and in
    ascending order; other jobs keep theirs; and sending the same batch again is accepted and
    changes nothing. *)
Theorem extents_are_recorded_once job g incoming d d' :
  db_wf d → durable job g incoming d = (Ok tt, d') →
  ∃ before after, current_extents job d = Ok before ∧ current_extents job d' = Ok after ∧
    (∀ e, e ∈ after ↔ e ∈ before ∨ e ∈ incoming) ∧ NoDup after ∧ ascending 0 (ranges after) ∧
    (∀ other, other ≠ job → JobId.get other ≤ i64_max → current_extents other d' = current_extents other d) ∧
    durable job g incoming d' = (Ok tt, d').
Proof.
  intros Hwf Hd. set (id := JobId.get job).
  pose proof Hd as [(?&?&_)|(now&t&m&_&_&_&Hid&Hj&Hnow&Hplan&Hg&Hst&_)]%durable_run; [done|].
  pose proof Hd as (s&t'&fresh&rows&Hwf'&Hs&Ht&Hgs&_&Hap&Hin&Hfi&_&->&Hp)%durable_effect; [|done].
  fold id in Hid, Hj, Hnow, Hs, Hap, Hin, Hp. set (d' := Db.set_extents rows d) in *.
  assert (extent_at <$> job_rows d' id ≡ₚ (extent_at <$> job_rows d id) ++ fresh) as Hrows.
  { unfold job_rows, d'; cbn. rewrite Hp, filter_app, fmap_app, Permutation_app_comm.
    apply Permutation_app; [done|]. clear. induction fresh as [|x fresh IH]; [done|].
    rewrite fmap_cons, filter_cons_True by done. cbn. rewrite IH. by destruct x as [[]]. }
  exists (extent_at <$> job_rows d id), (extent_at <$> job_rows d' id).
  split_and!.
  - by apply current_extents_run.
  - by apply current_extents_run.
  - intros e. rewrite Hrows, elem_of_app. split; [naive_solver|]. intros [?|?]; [by left|].
    apply elem_of_app. by apply Hin.
  - by apply rows_NoDup.
  - rewrite ranges_extent_at. by apply row_ranges_ascending.
  - intros other Hne Hother. rewrite !current_extents_run by done. do 2 f_equal.
    apply rows_unique; [done..|]. unfold job_rows, d'; cbn. rewrite Hp, filter_app.
    assert (filter (λ e, ExtentRow.job_id e = JobId.get other) (row_of id (StateRow.generation s) <$> fresh) = [])
      as ->; [|done].
    assert (JobId.get other ≠ id) as Hni by (unfold id; destruct other, job; cbn; congruence).
    clear -Hni. induction fresh as [|x fresh IH]; [done|]. rewrite fmap_cons, filter_cons_False; [done|].
    cbn. auto.
  - eapply durable_known; try done. intros e He. fold id. rewrite Hrows. by apply Hin.
Qed.

(** The number of segments the repository counts before it accepts extents is the number
    [SegmentMap::restore] builds from them, in whatever order the ranges are listed: within the
    maximum, restoring succeeds. *)
Theorem counted_segments_restore job g total maximum listed sorted :
  0 ≤ total ≤ i64_max → 1 ≤ maximum ≤ 262144 → Forall ByteRange.wf sorted →
  ascending 0 sorted → within total sorted → listed ≡ₚ sorted →
  ∃ m, length (SegmentMap.segments m) = restored_segments listed total ∧
    SegmentMap.restore job g total maximum sorted =
      if decide (maximum < Z.of_nat (restored_segments listed total)) then Err Capacity else Ok m.
Proof.
  intros. rewrite (restored_segments_pieces listed sorted) by done. by apply restore_run.
Qed.

(** ** Witnesses *)

Definition db_after_all (limits : Limits.t) (ops : list db_op) (d : Db.t) : Db.t :=
  foldl (λ d o, db_after limits o d) d ops.

Lemma db_after_all_reachable limits ops d :
  Forall db_op_typed ops → db_reachable limits d → db_reachable limits (db_after_all limits ops d).
Proof.
  revert d. induction ops as [|o ops IH]; intros d Hty Hd; [done|]. inversion Hty; subst.
  apply IH; [done|]. by apply db_reachable_step.
Qed.

Definition example_added : Job.t := Job.new (JobId.Make 1) example_add_spec.
(** The events of a job that starts and learns it is 1000 bytes long. *)
Definition example_start : JobEvent.t :=
  JobEvent.Make (JobId.Make 1) 1 Queued Probing Generation.initial JobCommand.Start
    (JobProjection.Make Probing Generation.initial None None None false 1 0 None).
Definition example_probe : JobEvent.t :=
  JobEvent.Make (JobId.Make 1) 2 Probing Transferring Generation.initial
    (JobCommand.ProbeSucceeded 1000 8 None)
    (JobProjection.Make Transferring Generation.initial None None None false 1 0 None).
Definition example_db : Db.t := db_after_all Limits.default_
  [ReserveId; CommitAdd (AddUnitOfWork.Make example_added example_receipt);
   Transition example_start; Transition example_probe] Db.empty.
Definition example_batch : list DurableExtent.t :=
  [DurableExtent.Make (ByteRange.Make 500 1000) (replicate 32 2);
   DurableExtent.Make (ByteRange.Make 0 400) (replicate 32 1)].

Lemma example_key_typed : ReceiptKey.typed example_key.
Proof. split; [vm_compute; split; discriminate|reflexivity]. Qed.
Lemma example_add_spec_typed : JobSpec.typed example_add_spec.
Proof. vm_compute; repeat split; discriminate. Qed.

Lemma example_db_reachable : db_reachable Limits.default_ example_db.
Proof.
  apply db_after_all_reachable; [|constructor].
  constructor; [exact I|]. constructor; [|repeat (constructor; [exact I|]); constructor].
  split; [apply example_key_typed|apply example_add_spec_typed].
Qed.

Lemma example_db_wf : db_wf example_db.
Proof. by apply (reachable_db Limits.default_); [done..|apply example_db_reachable]. Qed.

Lemma reachable_database_reopens_witness :
  size (Db.jobs example_db) = 1%nat ∧ open_checks Limits.default_ example_db = Ok tt.
Proof.
  split; [vm_compute; reflexivity|].
  refine (proj2 (reachable_database_reopens Limits.default_ 10000 40000 example_db _ example_db_reachable)).
  reflexivity.
Defined.

(** The callers move in the order of the list. *)
Fixpoint schedule (order : list nat) (r : SqliteRepository.t) (cs : list client) :
    SqliteRepository.t * list client :=
  match order with
  | [] => (r, cs)
  | i :: order =>
      match cs !! i with
      | None => (r, cs)
      | Some c =>
          match call (c_prog c) r with
          | None => (r, cs)
          | Some (r', p') => schedule order r' (<[i := Client (c_key c) (c_spec c) p']> cs)
          end
      end
  end.

Lemma schedule_system order r cs :
  sqlite_system r cs → sqlite_system (schedule order r cs).1 (schedule order r cs).2.
Proof.
  revert r cs. induction order as [|i order IH]; intros r cs Hs; cbn; [done|].
  destruct (cs !! i) as [c|] eqn:Hi; [|done]. destruct (call (c_prog c) r) as [[r' p']|] eqn:Hc; [|done].
  apply IH. by eapply sqlite_call.
Qed.

Definition example_request : client :=
  Client example_key example_add_spec (execute open_gate open_gate example_key example_add_spec).
(** A request on a fresh database whose commit is answered as lost, then its retry. *)
Definition example_retry : SqliteRepository.t * list client :=
  schedule [0; 0; 0; 1]%nat
    (SqliteRepository.Make Db.empty Limits.default_ [Completes; Completes; FailsAfter; Completes])
    [example_request; example_request].

Lemma example_retry_system : sqlite_system example_retry.1 example_retry.2.
Proof.
  apply schedule_system. do 2 (apply (sqlite_join _ [_]) || apply (sqlite_join _ []);
    [|apply example_key_typed|apply example_add_spec_typed]). apply sqlite_init.
Qed.

Lemma stored_requests_agree_witness :
  c_prog <$> example_retry.2 !! 0%nat = Some (Return (Err AppError.PersistenceUnavailable)) ∧
  ∃ rc, load_receipt (SqliteRepository.db example_retry.1) example_key = Ok (Some rc) ∧
    Receipt.job rc = JobId.Make 1.
Proof.
  split; [vm_compute; reflexivity|].
  set (c := Client example_key example_add_spec (Return (Ok (JobId.Make 1)))).
  assert (example_retry.2 !! 1%nat = Some c) as Hc by (vm_compute; reflexivity).
  pose proof (stored_requests_agree _ _ 1 1 c c (JobId.Make 1) (JobId.Make 1) example_retry_system Hc Hc
    eq_refl eq_refl) as [_ (rc&Hl&_&Hj&_)].
  exists rc. split; [exact Hl|exact Hj].
Defined.

Lemma extents_are_recorded_once_witness :
  ∃ after, current_extents (JobId.Make 1) (durable (JobId.Make 1) Generation.initial example_batch example_db).2
    = Ok after ∧ ascending 0 (ranges after) ∧ length after = 2%nat.
Proof.
  assert ((durable (JobId.Make 1) Generation.initial example_batch example_db).1 = Ok tt) as Hok
    by (vm_compute; reflexivity).
  destruct (durable (JobId.Make 1) Generation.initial example_batch example_db) as [r d'] eqn:Hd.
  cbn in Hok. subst r.
  destruct (extents_are_recorded_once _ _ _ _ _ example_db_wf Hd) as (before&after&Hb&Ha&_&_&Hasc&_).
  exists after. split; [exact Ha|split; [exact Hasc|]].
  assert (current_extents (JobId.Make 1)
    (durable (JobId.Make 1) Generation.initial example_batch example_db).2 = Ok (reverse example_batch)) as He
    by (vm_compute; reflexivity).
  rewrite Hd in He. cbn [snd] in He. rewrite Ha in He. injection He as ->. reflexivity.
Defined.

Lemma counted_segments_restore_witness :
  restored_segments [ByteRange.Make 50 100; ByteRange.Make 0 20; ByteRange.Make 20 30] 120 = 4%nat ∧
  is_ok (SegmentMap.restore (JobId.Make 1) Generation.initial 120 4
    [ByteRange.Make 0 20; ByteRange.Make 20 30; ByteRange.Make 50 100]) = true.
Proof.
  split; [reflexivity|].
  destruct (counted_segments_restore (JobId.Make 1) Generation.initial 120 4
    [ByteRange.Make 50 100; ByteRange.Make 0 20; ByteRange.Make 20 30]
    [ByteRange.Make 0 20; ByteRange.Make 20 30; ByteRange.Make 50 100]) as (m&_&Hr).
  - vm_compute; split; discriminate.
  - vm_compute; split; discriminate.
  - repeat constructor; vm_compute; discriminate.
  - vm_compute; repeat split; discriminate.
  - repeat constructor; vm_compute; discriminate.
  - apply (Permutation_cons_append [ByteRange.Make 0 20; ByteRange.Make 20 30]).
  - rewrite Hr. reflexivity.
Defined.
