(* ===== verification/TransferThm.v ===== *)
(** * The repository stores what the state machine decided

    [saved d j] relates a database to a job in memory.  A decided event commits and
    leaves the database in that relation with the job the event leads to; extents
    recorded before their acknowledgement keep it; and from it the job can be
    rebuilt after a crash with nothing durable lost. *)

From S2P Require Import Prelude.
From S2P Require Import Domain.
From S2P Require Import Segments.
From S2P Require Import SegmentsInv.
From S2P Require Import SegmentsRestore.
From S2P Require Import SegmentsThm.
From S2P Require Import JobMachine.
From S2P Require Import JobInv.
From S2P Require Import JobThm.
From S2P Require Import Admission.
From S2P Require Import AdmissionThm.
From S2P Require Import Persistence.
From S2P Require Import Transfer.
From S2P Require Import PersistenceInv.
From S2P Require Import TransferInv.
From S2P Require Import PersistenceThm.
Import JobState.

(** ** Covering fewer bytes *)

Definition points (rs : list ByteRange.t) : list Z :=
  rs ≫= λ r, seqZ (ByteRange.start r) (ByteRange.len r).

Lemma points_covered rs b : b ∈ points rs ↔ covered rs b.
Proof.
  unfold points, covered. rewrite list_elem_of_bind. split.
  - intros (r&Hb%elem_of_seqZ&Hr). exists r. split; [done|]. unfold ByteRange.covers, ByteRange.len in *. lia.
  - intros (r&Hr&Hb). exists r. split; [|done]. apply elem_of_seqZ.
    unfold ByteRange.covers, ByteRange.len in *. lia.
Qed.

Lemma points_ascending lo rs : ascending lo rs →
  NoDup (points rs) ∧ Z.of_nat (length (points rs)) = bytes rs ∧ (∀ b, b ∈ points rs → lo ≤ b).
Proof.
  revert lo. induction rs as [|r rs IH]; intros lo; cbn.
  { intros _. split_and!; [constructor|done|intros b []%elem_of_nil]. }
  intros (?&?&(Hn&Hl&Hb)%IH). unfold points in *. split_and!.
  - apply NoDup_app. split_and!; [apply NoDup_seqZ| |done].
    intros b Hin%elem_of_seqZ Hin'%Hb. unfold ByteRange.len in *. lia.
  - rewrite length_app, length_seqZ, Nat2Z.inj_add, Hl. unfold bytes. cbn. autorewrite with fhd.
    unfold ByteRange.len in *. lia.
  - intros b [Hin%elem_of_seqZ|Hin%Hb]%elem_of_app; lia.
Qed.

Lemma covered_bytes xs ys lo :
  ascending lo xs → ascending lo ys → (∀ b, covered xs b → covered ys b) → bytes xs ≤ bytes ys.
Proof.
  intros (Hx&<-&_)%points_ascending (Hy&<-&_)%points_ascending Hc.
  apply Nat2Z.inj_le, submseteq_length, NoDup_submseteq; [done|].
  intros b. rewrite !points_covered. apply Hc.
Qed.

(** ** What a command does to the plan *)

Lemma next_differs g : Generation.next g ≠ Ok g.
Proof.
  unfold Generation.next. unfold_monad. destruct (checked_add _ _) eqn:Ha; [|done].
  apply checked_add_Some in Ha as [-> _]. destruct g; cbn. intros [=]. lia.
Qed.

(** The map and the validator stay, unless a first probe adopts them. *)
Definition plan_step (c : JobCommand.t) (j j' : Job.t) : Prop :=
  match c with
  | JobCommand.ProbeSucceeded total max_segments v =>
      (∃ m, Job.segments j = Some m ∧ SegmentMap.total m = total ∧ v ≠ None ∧ v = Job.validator j ∧
        Job.segments j' = Some m ∧ Job.validator j' = v) ∨
      (∃ m, Job.segments j = None ∧
        SegmentMap.new (Job.id j) (Job.generation j) total max_segments = Ok m ∧
        Job.segments j' = Some m ∧ Job.validator j' = v)
  | _ => Job.segments j' = Job.segments j ∧ Job.validator j' = Job.validator j
  end.

Lemma probe_plan total max_segments v j r j' :
  Job.probe_succeeded total max_segments v j = (Ok r, j') →
  plan_step (JobCommand.ProbeSucceeded total max_segments v) j j'.
Proof.
  unfold Job.probe_succeeded, Job.to, plan_step. intros H. open_run.
  - left. eexists. split_and!; try done; naive_solver.
  - right. eexists. by split_and!.
Qed.

Lemma drained_plan j r j' :
  Job.workers_drained j = (Ok r, j') → Job.generation j' = Job.generation j →
  Job.segments j' = Job.segments j ∧ Job.validator j' = Job.validator j.
Proof.
  intros (_&target&s&_&_&_&H)%workers_drained_to Hg.
  destruct (Job.replace_on_drain j); [|naive_solver].
  destruct H as (_&_&Hn). rewrite Hg in Hn. by apply next_differs in Hn.
Qed.

Lemma transition_plan c j r j' :
  Job.transition c j = (Ok (Some r), j') → Job.generation j' = Job.generation j → plan_step c j j'.
Proof.
  unfold Job.transition. unfold mbind at 1, st_bind at 1, gets at 1.
  destruct (Job.state j) eqn:Hst, c; try (by intros [=]); intros H Hg;
    try (by apply probe_plan in H); try (by eapply drained_plan);
    unfold Job.begin_stop, Job.no_op, Job.to, Job.stop_cause in H; open_run; try done.
  all: cbn in Hg; subst; by destruct (next_differs (Job.generation j)).
Qed.

Lemma execute_plan c j j' :
  Job.execute c j = (Ok true, j') →
  (Job.generation j' = Job.generation j ∧ plan_step c j j') ∨
  (Generation.next (Job.generation j) = Ok (Job.generation j') ∧ Job.segments j' = None ∧
   Job.validator j' = None).
Proof.
  intros (j0&s&Ht&->)%execute_true. cbn.
  pose proof (transition_generation _ _ _ _ Ht) as [Hg|?]; [left|by right].
  split; [done|]. pose proof (transition_plan _ _ _ _ Ht Hg) as Hp. by destruct c.
Qed.

(** ** The relation *)

(** The bytes a job holds as durable. *)
Definition durable_of (j : Job.t) : list ByteRange.t :=
  match Job.segments j with
  | Some m => durable_ranges (SegmentMap.segments m)
  | None => []
  end.

(** The state row is the job's projection and plan; a job without one is as it was added. *)
Definition state_saved (row : option StateRow.t) (j : Job.t) : Prop :=
  match row with
  | None => j = Job.new (Job.id j) (Job.spec j)
  | Some s => ∃ stop, stop_columns (Job.stop j) = Ok stop ∧
      s = state_row (Job.projection j) (Generation.get (Job.generation j)) stop (Job.plan j)
  end.

(** The tables describe this job: its row and its state row exactly, and every byte it
    holds as durable is in an extent of the repository. *)
Record saved (d : Db.t) (j : Job.t) : Prop := {
  saved_spec : JobSpec.typed (Job.spec j);
  saved_row : Db.jobs d !! JobId.get (Job.id j) =
    Some (JobRow.Make (encode_spec (Job.spec j)) (Job.version j));
  saved_state : state_saved (Db.job_state d !! JobId.get (Job.id j)) j;
  saved_bytes : ∀ b, covered (durable_of j) b → covered (row_ranges d (JobId.get (Job.id j))) b }.

(** What SQLite's signed columns can hold of an outcome. *)
Definition storable (e : JobEvent.t) : Prop :=
  let o := JobEvent.outcome e in
  JobEvent.version e ≤ i64_max ∧ Generation.get (JobProjection.generation o) ≤ i64_max ∧
  (∀ t, JobProjection.retry_at o = Some t → 0 ≤ t ≤ i64_max) ∧
  (∀ t, JobProjection.stop o = Some (StopTarget.RetryWait t) → 0 ≤ t ≤ i64_max) ∧
  (∀ v, JobProjection.validator o = Some v → length v = 32%nat).

Section Saved.
Context (d : Db.t) (j : Job.t) (Hdb : db_wf d) (Hj : JobInv.wf j) (Hs : saved d j).
Let id := JobId.get (Job.id j).

Lemma saved_id : 0 < id ≤ i64_max.
Proof.
  pose proof (saved_row d j Hs) as Hrow. apply (db_jobs d Hdb) in Hrow as (?&_). fold id in H.
  pose proof (db_last d Hdb). lia.
Qed.

(** The repository reads the job's own state, generation, plan and validator. *)
Lemma saved_current : current d id =
  Ok (Current.Make (Job.state j) (Generation.get (Job.generation j)) (Job.plan j) (Job.validator j)).
Proof.
  pose proof (saved_state d j Hs) as Hst. fold id in Hst. unfold current.
  destruct (Db.job_state d !! id) as [s|]; cbn in Hst.
  - destruct Hst as (stop&_&->). cbn. unfold_monad. rewrite state_of_code.
    by destruct (Job.plan j) as [[]|].
  - by rewrite Hst.
Qed.

Lemma saved_plan_bytes : bytes (durable_of j) ≤ bytes (row_ranges d id).
Proof.
  apply (covered_bytes _ _ 0).
  - unfold durable_of. destruct (Job.segments j) as [m|] eqn:Hm; [|done].
    destruct (JobInv.wf_map j Hj m Hm) as (Hw&_). by apply durable_ranges_good.
  - by apply row_ranges_ascending.
  - apply (saved_bytes d j Hs).
Qed.

(** The extents of the job's own generation. *)
Lemma saved_extents : extents d id (Generation.get (Job.generation j)) = Ok (extent_at <$> job_rows d id).
Proof.
  pose proof (saved_state d j Hs) as Hst. fold id in Hst.
  destruct (Db.job_state d !! id) as [s|] eqn:Hrow; cbn in Hst.
  - destruct Hst as (stop&_&->). by rewrite <-(extents_current d id _ Hdb Hrow).
  - rewrite no_state_no_rows by done. unfold extents.
    by rewrite select_none by by apply no_state_no_rows.
Qed.
End Saved.

(** ** Committing a decided event *)

(** The checks of [transition], passed. *)
Lemma transition_commits event d row now stop plan es :
  let id := JobId.get (JobEvent.job event) in
  let o := JobEvent.outcome event in
  let g := Generation.get (JobProjection.generation o) in
  let replaced := bool_decide (g ≠ Current.generation now) in
  let d1 := dropped id replaced (bool_decide (JobEvent.command event = JobCommand.PublishCommitted)) d in
  id ≤ i64_max → Db.jobs d !! id = Some row → current d id = Ok now →
  0 ≤ JobRow.version row → JobEvent.version event = JobRow.version row + 1 →
  JobEvent.version event ≤ i64_max → Current.state now = JobEvent.from event →
  Current.generation now = Generation.get (JobEvent.generation event) → Current.generation now ≤ i64_max →
  g ≤ i64_max →
  next_plan (JobEvent.command event) replaced (Current.plan now) = Ok plan →
  next_validator (JobEvent.command event) replaced (bool_decide (is_Some (Current.plan now)))
    (Current.validator now) = Ok (JobProjection.validator o) →
  extents d1 id g = Ok es → JobProjection.durable_bytes o ≤ bytes (ranges es) →
  stop_columns (JobProjection.stop o) = Ok stop →
  (∀ v, JobProjection.retry_at o = Some v → v ≤ i64_max) →
  StateRow.check (state_row o g stop plan) = true →
  transition event d = (Ok tt,
    Db.set_jobs (<[id := JobRow.Make (JobRow.spec row) (JobEvent.version event)]> (Db.jobs d1))
      (Db.set_job_state (<[id := state_row o g stop plan]> (Db.job_state d1)) d1)).
Proof.
  intros id o g replaced d1 Hid Hrow Hnow Hv0 Hv Hvle Hfrom Hgen Hgenle Hgle Hplan Hval Hes Hbytes Hstop
    Hretry Hcheck.
  destruct (transition event d) as [[u|err] d'] eqn:Ht.
  - pose proof Ht as [(?&?&_)|(row'&now'&stop'&plan'&es'&_&_&Hrow'&Hnow'&_&_&_&_&_&_&Hplan'&_&_&_&Hstop'&_&_&->)]%transition_run;
      [done|].
    fold id o in Hrow', Hnow', Hplan', Hstop' |- *. rewrite Hrow in Hrow'. injection Hrow' as <-.
    rewrite Hnow in Hnow'. injection Hnow' as <-. fold g in Hplan' |- *. fold replaced in Hplan' |- *.
    rewrite Hplan in Hplan'. injection Hplan' as <-. rewrite Hstop in Hstop'. injection Hstop' as <-.
    by destruct u.
  - exfalso. revert Ht. unfold transition. unfold mbind at 1, st_bind at 1, lift at 1, signed_id.
    fold id o g. rewrite stored_eq by done. intros [d2 Ht]%transaction_err. revert Ht.
    unfold mbind, st_bind, lift, gets, ok_or, refuse_if. rewrite Hrow, Hnow.
    rewrite loaded_eq by done. rewrite decide_False.
    2: { intros [Hc|?]; [|congruence]. apply Hc. apply checked_add_Some. split; [done|]. ints. }
    rewrite stored_eq by congruence. rewrite bool_decide_eq_false_2 by auto.
    rewrite stored_eq by done. fold replaced. rewrite Hplan, Hval.
    rewrite bool_decide_eq_false_2 by auto. run_deletes event id replaced d. fold d1. rewrite Hes.
    rewrite bool_decide_eq_false_2.
    2: { unfold bytes, ranges in Hbytes. rewrite <-list_fmap_compose in Hbytes. lia. }
    rewrite Hstop. destruct (transpose _) as [retry|] eqn:Hr.
    2: { destruct (JobProjection.retry_at o) as [v|]; [|done]. cbn in Hr. by rewrite stored_eq in Hr by auto. }
    apply stored_all in Hr as [-> _]. fold (state_row o g stop plan).
    unfold upsert_state, constrained, refuse_if. unfold mbind, st_bind, lift, gets.
    rewrite Hcheck, bool_decide_eq_true_2.
    2: { unfold d1. rewrite dropped_jobs. by eexists. }
    cbn [negb andb]. unfold modify. by rewrite stored_eq.
Qed.

(** The row of a well-formed job satisfies the constraints of its table. *)
Lemma state_row_check j stop :
  JobInv.wf j → stop_columns (Job.stop j) = Ok stop →
  (∀ t, Job.retry_at j = Some t → 0 ≤ t ≤ i64_max) →
  (∀ t, Job.stop j = Some (StopTarget.RetryWait t) → 0 ≤ t ≤ i64_max) →
  (∀ v, Job.validator j = Some v → length v = 32%nat) →
  StateRow.check (state_row (Job.projection j) (Generation.get (Job.generation j)) stop (Job.plan j)) = true.
Proof.
  intros Hj Hstop Hretry Hst Hval. destruct stop as [k v].
  apply stop_columns_bounds in Hstop as [Hk Hv].
  2: { destruct (Job.stop j) as [[]|]; try done. by apply Hst. }
  pose proof Hj as [Hg _ _ Ha _ _ _ _ _ Hnv Hmap _ _ _].
  unfold StateRow.check, state_row; cbn [StateRow.state StateRow.generation StateRow.reason StateRow.retry_at
    StateRow.stop_kind StateRow.stop_value StateRow.replace_on_drain StateRow.attempts StateRow.total
    StateRow.max_segments StateRow.validator fst snd Job.projection JobProjection.state
    JobProjection.reason JobProjection.retry_at JobProjection.replace_on_drain JobProjection.attempts
    JobProjection.validator].
  rewrite Hk, Hv. unfold Generation.wf, u8 in *. rewrite !andb_true_r.
  rewrite !andb_true_iff. split_and!.
  - apply bool_decide_eq_true. destruct (Job.state j); cbn; lia.
  - apply bool_decide_eq_true. lia.
  - destruct (Job.reason j) as [[]|]; done.
  - destruct (Job.retry_at j); [|done]. by apply within_Some, Hretry.
  - apply bool_decide_eq_true. destruct (Job.replace_on_drain j); set_solver.
  - apply bool_decide_eq_true. ints.
  - unfold Job.plan. destruct (Job.segments j) as [m|] eqn:Hm; [|done]. apply within_Some.
    destruct (Hmap m eq_refl) as (Hw&_). by apply SegmentMapInv.wf_total.
  - unfold Job.plan. destruct (Job.segments j) as [m|] eqn:Hm; [|done]. apply within_Some.
    destruct (Hmap m eq_refl) as (Hw&_). by apply SegmentMapInv.wf_maximum.
  - destruct (Job.validator j); [|done]. by apply bool_decide_eq_true, Hval.
  - unfold Job.plan. by destruct (Job.segments j).
  - unfold Job.plan. destruct (Job.segments j); [by rewrite orb_true_r|]. by rewrite Hnv.
Qed.

(** The plan and the validator the repository computes are the next job's. *)
Lemma next_plan_validator c j j' :
  JobInv.wf j → Job.execute c j = (Ok true, j') →
  let replaced := bool_decide (Generation.get (Job.generation j') ≠ Generation.get (Job.generation j)) in
  next_plan c replaced (Job.plan j) = Ok (Job.plan j') ∧
  next_validator c replaced (bool_decide (is_Some (Job.plan j))) (Job.validator j) = Ok (Job.validator j') ∧
  (replaced = true → Job.segments j' = None) ∧
  (replaced = false → durable_of j' = durable_of j ∨ durable_of j' = []).
Proof.
  intros Hj [[Hg Hp]|(Hn&Hsg&Hv)]%execute_plan replaced.
  - assert (replaced = false) as -> by (apply bool_decide_eq_false; rewrite Hg; auto).
    assert (∀ m, Job.segments j = Some m → SegmentMap.total m ≤ i64_max ∧ SegmentMap.maximum m ≤ i64_max) as Hm.
    { intros m Hm. destruct (JobInv.wf_map j Hj m Hm) as (Hw&_).
      pose proof (SegmentMapInv.wf_total m Hw). pose proof (SegmentMapInv.wf_maximum m Hw). ints. }
    unfold next_plan, next_validator, Job.plan, durable_of.
    destruct c; try (destruct Hp as [-> ->]; destruct (Job.segments j) as [m|]; cbn; split_and!; (done || auto)).
    destruct Hp as [(m&Hs&Ht&Hv&Hjv&->&->)|(m&Hs&Hnew&->&->)]; rewrite Hs; cbn.
    + destruct (Hm m Hs) as [??]. subst total. rewrite stored_eq by done. unfold_monad. cbn.
      rewrite bool_decide_eq_false_2 by auto. rewrite bool_decide_eq_false_2 by naive_solver.
      rewrite Hjv. split_and!; (done || auto).
    + apply SegmentMapInv.map_new_Ok in Hnew as (?&?&->). unfold_monad.
      rewrite !stored_eq by ints. cbn. split_and!; [done..|]. intros _. right.
      case_decide; done.
  - pose proof (JobInv.wf_generation j Hj) as Hgw. apply Generation.next_Ok in Hn as [_ Hn]; [|done].
    assert (replaced = true) as -> by (apply bool_decide_eq_true; lia).
    unfold Job.plan. rewrite Hsg. cbn. rewrite Hv. split_and!; done.
Qed.

Lemma projection_bytes j : JobProjection.durable_bytes (Job.projection j) = bytes (durable_of j).
Proof. unfold Job.projection, durable_of; cbn. destruct (Job.segments j); [apply durable_bytes_alt|done]. Qed.

(** The extents and bytes a transition leaves to the next job. *)
Lemma kept_extents d j j' replaced pub :
  db_wf d → JobInv.wf j → saved d j →
  replaced = bool_decide (Generation.get (Job.generation j') ≠ Generation.get (Job.generation j)) →
  (replaced = true → Job.segments j' = None) →
  (replaced = false → durable_of j' = durable_of j ∨ durable_of j' = []) →
  let id := JobId.get (Job.id j) in
  let d1 := dropped id replaced pub d in
  ∃ es, extents d1 id (Generation.get (Job.generation j')) = Ok es ∧
    bytes (durable_of j') ≤ bytes (ranges es) ∧
    (∀ b, covered (durable_of j') b → covered (row_ranges d1 id) b).
Proof.
  intros Hdb Hj Hs Hre Htrue Hfalse id d1. destruct replaced.
  - unfold durable_of. rewrite (Htrue eq_refl). exists []. split_and!; [|done|].
    + unfold extents. rewrite select_none; [done|]. apply dropped_rows.
    + by intros b Hb%covered_nil.
  - symmetry in Hre. apply bool_decide_eq_false, dec_stable in Hre.
    exists (extent_at <$> job_rows d id). split_and!.
    + unfold d1, extents, select_extents. rewrite dropped_extents, Hre. by apply saved_extents.
    + rewrite ranges_extent_at. pose proof (saved_plan_bytes d j Hdb Hj Hs) as Hle.
      destruct (Hfalse eq_refl) as [->| ->]; [done|]. etrans; [|exact Hle]. unfold durable_of.
      destruct (Job.segments j) as [m|] eqn:Hm; [|done]. rewrite <-durable_bytes_alt.
      destruct (JobInv.wf_map j Hj m Hm) as (Hw&_). by apply durable_bytes_bounds.
    + unfold d1. rewrite kept_rows. destruct (Hfalse eq_refl) as [->| ->].
      * apply (saved_bytes d j Hs).
      * by intros b Hb%covered_nil.
Qed.

(** The event [decide_] makes of a transition of the machine. *)
Definition decided (j : Job.t) (c : JobCommand.t) (next : Job.t) : JobEvent.t :=
  JobEvent.Make (Job.id j) (Job.version j + 1) (Job.state j) (Job.state next) (Job.generation j) c
    (Job.projection next).

(** A commit that succeeded left the tables describing the job the event leads to, with
    the extents of its generation. *)
Lemma transition_saved d j c next d' :
  db_wf d → JobInv.wf j → saved d j → JobInv.command_typed c →
  Job.execute c j = (Ok true, next) → transition (decided j c next) d = (Ok tt, d') →
  saved d' (Job.set_version (Job.version j + 1) next) ∧
  job_rows d' (JobId.get (Job.id j)) =
    if decide (Job.generation next = Job.generation j) then job_rows d (JobId.get (Job.id j)) else [].
Proof.
  intros Hdb Hj Hs Hty Hx Htr. pose proof (JobInv.execute_frame _ _ _ _ Hx) as (Hid&Hspec&_).
  destruct (next_plan_validator c j next Hj Hx) as (Hplan&Hvalid&Htrue&Hfalse).
  apply transition_run in Htr as [(?&?&_)|(row&now&stop&plan&es&_&_&Hrow&Hnow&_&_&_&_&_&_&Hnp&_&_&_&Hstop&_&_&->)];
    [done|].
  cbn in *. rewrite (saved_current d j Hs) in Hnow. injection Hnow as <-. cbn in *.
  rewrite (saved_row d j Hs) in Hrow. injection Hrow as <-. cbn.
  rewrite Hplan in Hnp. injection Hnp as <-.
  set (replaced := bool_decide _) in *.
  destruct (kept_extents d j next replaced (bool_decide (c = JobCommand.PublishCommitted))
    Hdb Hj Hs eq_refl Htrue Hfalse) as (_&_&_&Hcov).
  split.
  - constructor; cbn; rewrite ?Hid.
    + rewrite Hspec. apply (saved_spec d j Hs).
    + rewrite lookup_insert_eq, Hspec. done.
    + rewrite lookup_insert_eq. exists stop. done.
    + exact Hcov.
  - unfold job_rows. cbn. rewrite dropped_extents. unfold replaced.
    destruct (bool_decide_reflect (Generation.get (Job.generation next) ≠ Generation.get (Job.generation j))) as [Hb|Hb];
      destruct (decide (Job.generation next = Job.generation j)) as [Hg|Hg]; [by rewrite Hg in Hb|by apply (dropped_rows _ false d)|done|].
    destruct Hb. intros E. apply Hg. destruct (Job.generation next), (Job.generation j). cbn in E. congruence.
Qed.

(** C26: an event the state machine decided, whose numbers fit SQLite's columns, is accepted by the
    repository and by the job, and afterwards the tables hold the job the event leads to: the
    repository refines the state machine, one transaction per event. *)
Theorem decided_event_commits d j c e events :
  db_wf d → JobInv.wf j → saved d j → JobInv.command_typed c →
  Job.decide_ j c = Ok (e :: events) → storable e →
  ∃ d' j', transition e d = (Ok tt, d') ∧ Job.apply_ e j = (Ok tt, j') ∧
    db_wf d' ∧ JobInv.wf j' ∧ saved d' j'.
Proof.
  intros Hdb Hj Hs Hty [(?&_)|(next&Hx&Hv&[= -> ->])]%JobInv.decide_inv (Hver&Hgen&Hretry&Hst&Hval); [done|].
  cbn in Hver, Hgen, Hretry, Hst, Hval. set (e := JobEvent.Make _ _ _ _ _ _ _) in *.
  pose proof (JobInv.apply_decided j c next Hx Hv) as Hap. fold e in Hap.
  pose proof (JobInv.execute_frame _ _ _ _ Hx) as (Hid&Hspec&_).
  pose proof (JobInv.execute_wf c j true next Hj Hty Hx) as [Hnext _].
  pose proof (saved_id d j Hdb Hs) as Hidb.
  destruct (next_plan_validator c j next Hj Hx) as (Hplan&Hvalid&Htrue&Hfalse).
  set (replaced := bool_decide _) in *.
  destruct (kept_extents d j next replaced (bool_decide (c = JobCommand.PublishCommitted))
    Hdb Hj Hs eq_refl Htrue Hfalse) as (es&Hes&Hle&Hcov).
  assert (is_Some (ok (stop_columns (Job.stop next)))) as [stop Hstop].
  { destruct (Job.stop next) as [[]|] eqn:E; cbn; try by eexists.
    rewrite stored_eq by (by apply Hst). by eexists. }
  assert (stop_columns (Job.stop next) = Ok stop) as Hstop'.
  { destruct (stop_columns _); [|done]. cbn in Hstop. congruence. }
  pose proof (saved_row d j Hs) as Hrow. pose proof (JobInv.wf_version j Hj) as [Hv0 _].
  assert (Generation.get (Job.generation j) ≤ i64_max) as Hgj.
  { pose proof (saved_state d j Hs) as Hss. destruct (Db.job_state d !! _) as [s|] eqn:Hsr; cbn in Hss.
    - destruct Hss as (?&_&->). by apply (db_states d Hdb) in Hsr as (_&?&_).
    - rewrite Hss. cbn. ints. }
  rewrite <-projection_bytes in Hle.
  pose proof (transition_commits e d _ _ stop _ es ltac:(cbn; lia) Hrow (saved_current d j Hs) Hv0 eq_refl
    Hver eq_refl eq_refl Hgj Hgen Hplan Hvalid Hes Hle Hstop'
    ltac:(intros v Hv'; by apply Hretry) ltac:(by apply state_row_check)) as Htr.
  eexists _, _. split; [exact Htr|]. split; [exact Hap|]. split_and!.
  - pose proof (transition_db_wf e d Hdb) as Hw. by rewrite Htr in Hw.
  - apply JobInv.set_version_wf; [done|]. unfold u64. lia.
  - apply (transition_saved d j c next); [done..|exact Htr].
Qed.

(** ** Extents before their acknowledgement *)

Lemma durable_saved d d' j job g incoming :
  db_wf d → durable job g incoming d = (Ok tt, d') → saved d j → saved d' j.
Proof.
  intros Hdb Hd Hs. apply durable_effect in Hd as (s&t&fresh&rows&_&Hst&_&_&_&_&_&_&_&->&Hp); [|done].
  destruct Hs as [Hsp Hr Hss Hb]. constructor; cbn; [done..|]. intros b Hc%Hb.
  destruct (decide (JobId.get (Job.id j) = JobId.get job)) as [E|E].
  - rewrite E in *. pose proof (inserted_same _ _ _ _ _ Hp) as Hperm.
    destruct Hc as (r&Hin&?). exists r. split; [|done]. rewrite Hperm. apply elem_of_app. by left.
  - pose proof (inserted_other _ _ _ _ _ _ Hp E) as Hperm.
    destruct Hc as (r&Hin&?). exists r. split; [|done]. by rewrite Hperm.
Qed.

Lemma acknowledged_map batch j j' :
  Job.acknowledge_commit batch j = (Ok tt, j') →
  ∃ m m', Job.segments j = Some m ∧ SegmentMap.acknowledge_commit batch m = (Ok tt, m') ∧
    JobInv.may_work (Job.state j) = true ∧ j' = Job.set_segments (Some m') j.
Proof.
  unfold Job.acknowledge_commit, Job.map_mut. unfold_monad.
  case_bool_decide as Hst; cbn; [|done]. destruct (Job.segments j) as [m|]; cbn; [|done].
  destruct (SegmentMap.acknowledge_commit batch m) as [[[]|] m'] eqn:Ha; [|done]. intros [= <-].
  exists m, m'. split_and!; try done. destruct (Job.state j); set_unfold; naive_solver.
Qed.

(** Another map of the same object, whose durable bytes are recorded. *)
Lemma saved_segments d j m m' :
  saved d j → Job.segments j = Some m → SegmentMap.total m' = SegmentMap.total m →
  SegmentMap.maximum m' = SegmentMap.maximum m →
  (∀ b, covered (durable_ranges (SegmentMap.segments m')) b → covered (row_ranges d (JobId.get (Job.id j))) b) →
  saved d (Job.set_segments (Some m') j).
Proof.
  intros [Hsp Hr Hss Hb] Hm Ht Hmx Hcov. constructor; cbn; [done|done| |done].
  destruct (Db.job_state d !! JobId.get (Job.id j)) as [s|]; cbn in *; [|rewrite Hss in Hm; done].
  destruct Hss as (stop&?&->). exists stop. split; [done|]. unfold Job.plan; cbn. by rewrite Hm, Ht, Hmx.
Qed.

(** The rows a committed batch leaves: the old ones, and exactly the incoming extents. *)
Lemma durable_rows job g incoming d d' :
  db_wf d → durable job g incoming d = (Ok tt, d') →
  let id := JobId.get job in
  (∀ row, row ∈ job_rows d' id → row ∈ job_rows d id ∨
    ExtentRow.generation row = Generation.get g ∧ extent_at row ∈ incoming) ∧
  (∀ row, row ∈ job_rows d id → row ∈ job_rows d' id) ∧
  (∀ b, covered (row_ranges d id) b ∨ covered (ranges incoming) b → covered (row_ranges d' id) b).
Proof.
  intros Hdb Hd id. apply durable_effect in Hd as (s&t&fresh&rows&_&_&_&Hg&_&_&Hall&Hin&_&->&Hp); [|done].
  assert (∀ row, row ∈ job_rows (Db.set_extents rows d) id → row ∈ job_rows d id ∨
    ∃ e, e ∈ fresh ∧ row = row_of id (StateRow.generation s) e) as H1.
  { intros row [Hid Hrow]%list_elem_of_filter. cbn in Hrow. rewrite Hp in Hrow.
    apply elem_of_app in Hrow as [(e&->&He)%list_elem_of_fmap|Hrow]; [right; eauto|left].
    by apply list_elem_of_filter. }
  pose proof (inserted_same d id (StateRow.generation s) fresh rows Hp) as Hperm. split_and!.
  - intros row [?|(e&He&->)]%H1; [by left|right]. split; [done|]. apply Hin in He. by destruct e as [[] ?].
  - intros row [Hid Hrow]%list_elem_of_filter. apply list_elem_of_filter. split; [done|]. cbn. rewrite Hp.
    apply elem_of_app. by right.
  - intros b Hb. assert (covered (row_ranges d id ++ ranges fresh) b) as (r&Hr&?).
    { apply covered_app. destruct Hb as [|(r&(e&->&He)%list_elem_of_fmap&?)]; [by left|].
      apply Hall, elem_of_app in He as [He|He]; [left|right]; (exists (DurableExtent.range e); split; [|done]).
      - unfold row_ranges. rewrite <-ranges_extent_at. by apply list_elem_of_fmap_2.
      - by apply list_elem_of_fmap_2. }
    exists r. split; [|done]. by rewrite Hperm.
Qed.

(** The coordinator's order is safe: once the repository recorded extents that cover a synced
    batch, the tables describe the job both before its map acknowledges the batch, should the
    program stop in between, and after. *)
Theorem recorded_then_acknowledged d d' j j' batch incoming :
  db_wf d → JobInv.wf j → saved d j →
  durable (Job.id j) (Job.generation j) incoming d = (Ok tt, d') →
  (∀ s b, s ∈ CommitBatch.selection batch → ByteRange.covers s.1.2 b → covered (ranges incoming) b) →
  Job.acknowledge_commit batch j = (Ok tt, j') →
  db_wf d' ∧ saved d' j ∧ saved d' j' ∧ ∀ b, covered (durable_of j) b → covered (durable_of j') b.
Proof.
  intros Hdb Hj Hs Hd Hcov (m&m'&Hm&Hack&_&->)%acknowledged_map.
  pose proof (durable_saved _ _ j _ _ _ Hdb Hd Hs) as Hs1.
  pose proof (durable_wf (Job.id j) (Job.generation j) incoming d Hdb) as Hdb'. rewrite Hd in Hdb'.
  destruct (JobInv.wf_map j Hj m Hm) as (Hw&_).
  pose proof (acknowledge_commit_ranges _ _ _ _ Hw Hack) as Hperm.
  assert (SegmentMap.total m' = SegmentMap.total m ∧ SegmentMap.maximum m' = SegmentMap.maximum m) as [Ht Hmx].
  { pose proof (SegmentMapInv.exec_header (SegmentMapInv.AcknowledgeCommit batch) m ltac:(done)) as Hh.
    unfold SegmentMapInv.exec, SegmentMapInv.run in Hh. rewrite Hack in Hh. cbn in Hh. by destruct Hh as (?&?&?&?). }
  assert (durable_of (Job.set_segments (Some m') j) ≡ₚ
    ((λ e, e.1.2) <$> CommitBatch.selection batch) ++ durable_of j) as Hdur.
  { unfold durable_of; cbn. by rewrite Hm. }
  split_and!; [done..| |].
  - eapply saved_segments; [done..|]. destruct (durable_rows _ _ _ _ _ Hdb Hd) as (_&_&Hrows).
    intros b (r&Hin&Hb). apply Hrows. rewrite Hperm in Hin.
    apply elem_of_app in Hin as [(s&->&Hin)%list_elem_of_fmap|Hin]; [right; by eapply Hcov|left].
    apply (saved_bytes d j Hs). exists r. unfold durable_of. by rewrite Hm.
  - intros b (r&Hin&?). exists r. split; [|done]. rewrite Hdur. apply elem_of_app. by right.
Qed.

(** ** Recovery *)

(** The record of a job over the repository's extents. *)
Definition record_over (j : Job.t) (rs : list ByteRange.t) : JobRecord.t :=
  JobRecord.Make (Job.id j) (Job.spec j) (Job.version j) (Job.state j) (Job.generation j) (Job.reason j)
    (Job.retry_at j) (Job.stop j) (Job.replace_on_drain j) (Job.attempts j) (Job.plan j) (Job.validator j) rs.

Lemma digest_back o n : (∀ v, o = Some v → length v = n) → transpose (array n <$> o) = Ok o.
Proof. destruct o as [v|]; cbn; [|done]. intros Hl. unfold array. by rewrite decide_True by auto. Qed.

Lemma loaded_all o : (∀ v, o = Some v → 0 ≤ v) → transpose (loaded <$> o) = Ok o.
Proof. destruct o as [v|]; cbn; [|done]. intros Hl. by rewrite loaded_eq by auto. Qed.

Lemma plan_back j :
  JobInv.wf j →
  transpose ((λ p, t ← loaded p.1; m ← loaded p.2; @Ok PersistenceError.t _ (t, m)) <$>
    zip (fst <$> Job.plan j) (snd <$> Job.plan j)) = Ok (Job.plan j).
Proof.
  intros Hj. unfold Job.plan. destruct (Job.segments j) as [m|] eqn:Hm; cbn; [|done].
  destruct (JobInv.wf_map j Hj m Hm) as (Hw&_).
  pose proof (SegmentMapInv.wf_total m Hw). pose proof (SegmentMapInv.wf_maximum m Hw).
  unfold_monad. by rewrite !loaded_eq by lia.
Qed.

(** What the constraints of the state table say of the job it holds. *)
Lemma checked_row j g stop p :
  StateRow.check (state_row (Job.projection j) g stop p) = true → stop_columns (Job.stop j) = Ok stop →
  (∀ v, Job.validator j = Some v → length v = 32%nat) ∧ (∀ t, Job.retry_at j = Some t → 0 ≤ t) ∧
  stop_of stop.1 stop.2 = Ok (Job.stop j).
Proof.
  intros Hc Hstop. unfold StateRow.check in Hc. cbn in Hc. open_bools. split_and!.
  - intros v E. rewrite E in *. by open_bools.
  - intros t E. rewrite E in *. cbn in *. open_bools. lia.
  - destruct stop as [k v]. apply stop_of_columns; [done|]. cbn in *.
    destruct (Job.stop j) as [[]|]; try done. cbn in Hstop. revert Hstop. unfold_monad.
    destruct (stored at_tick) eqn:E; [|done]. apply stored_Ok in E as [_ ->]. intros [= <- <-].
    cbn in *. open_bools. lia.
Qed.

Lemma load_record_run d j :
  db_wf d → JobInv.wf j → saved d j →
  load_record d (JobId.get (Job.id j)) (JobRow.Make (encode_spec (Job.spec j)) (Job.version j))
    = Ok (record_over j (row_ranges d (JobId.get (Job.id j)))).
Proof.
  intros Hdb Hj Hs. set (id := JobId.get (Job.id j)). pose proof (saved_id d j Hdb Hs) as Hid. fold id in Hid.
  pose proof (saved_state d j Hs) as Hst. fold id in Hst. pose proof (JobInv.wf_version j Hj) as [Hv _].
  unfold load_record. cbn [JobRow.spec JobRow.version].
  rewrite decode_encode_spec by apply (saved_spec d j Hs).
  assert ((v ← loaded id; corrupt (JobId.new v)) = Ok (Job.id j)) as Hnew.
  { unfold_monad. rewrite loaded_eq by lia. unfold JobId.new, identifier_new. rewrite decide_False by lia.
    unfold id, corrupt. cbn. by destruct (Job.id j). }
  destruct (Db.job_state d !! id) as [s|] eqn:Hrow; cbn [state_saved] in Hst.
  2: { cbn -[loaded]. rewrite Hnew. unfold_monad. rewrite loaded_eq by done.
       unfold record_over, row_ranges. rewrite no_state_no_rows by done.
       rewrite Hst. unfold Job.plan; cbn. done. }
  destruct Hst as (stop&Hstop&Hsrow). pose proof (db_states d Hdb _ _ Hrow) as (Hc&_&_).
  pose proof (saved_extents d j Hdb Hs) as Hes. fold id in Hes.
  pose proof (JobInv.wf_generation j Hj) as Hg. pose proof (JobInv.wf_attempts j Hj) as Ha.
  subst s. destruct (checked_row j _ stop _ Hc Hstop) as (Hval&Hretry&Hsb).
  cbn -[loaded stop_of]. rewrite digest_back by done. unfold mbind, result_bind in Hnew |- *.
  rewrite Hnew, loaded_eq by done. pose proof (plan_back j Hj) as Hplan. unfold mbind, result_bind in Hplan.
  rewrite Hplan, state_of_code. unfold Generation.wf, u8 in *. rewrite loaded_eq by lia.
  unfold Generation.new, identifier_new. rewrite decide_False by lia. cbn [corrupt map_err].
  assert (transpose (reason_of <$> (reason_code <$> Job.reason j)) = Ok (Job.reason j)) as ->
    by by destruct (Job.reason j) as [[]|].
  rewrite loaded_all, Hsb, decide_True, Hes, ranges_extent_at by (done || ints).
  unfold record_over. do 2 f_equal; [by destruct (Job.generation j)|by destruct (Job.replace_on_drain j)].
Qed.

Lemma consistent_over j rs :
  JobInv.wf j → (Job.plan j = None → rs = []) → Job.consistent (record_over j rs) = true.
Proof.
  intros Hj Hrs. pose proof (consistent_record_of j Hj) as Hc. revert Hc.
  unfold Job.consistent, record_over, record_of; cbn. destruct (Job.plan j) as [p|] eqn:Hp; [done|].
  rewrite Hrs by done. rewrite !andb_true_iff. unfold Job.plan in Hp.
  destruct (Job.segments j); [done|]. tauto.
Qed.

(** Restoring over any extents that cover what the job holds. *)
Lemma restore_over j rs :
  JobInv.wf j → Forall ByteRange.wf rs → ascending 0 rs → (Job.plan j = None → rs = []) →
  (∀ t m, Job.plan j = Some (t, m) → within t rs ∧ Z.of_nat (pieces false 0 t rs) ≤ m) →
  (∀ b, covered (durable_of j) b → covered rs b) →
  ∃ segs, Job.restore (record_over j rs) = Ok (Job.set_segments segs j) ∧
    Job.plan (Job.set_segments segs j) = Job.plan j ∧
    Job.settled (Job.set_segments segs j) = true ∧
    (∀ b, covered (durable_of (Job.set_segments segs j)) b ↔ covered rs b).
Proof.
  intros Hj Hrw Ha Hnone Hsome Hcov. unfold Job.restore. unfold_monad.
  rewrite consistent_over by done. cbn [negb]. unfold record_over; cbn. unfold Job.plan in *.
  destruct (Job.segments j) as [m|] eqn:Hm; cbn.
  2: { exists None. assert (bool_decide (Job.state j ∈ [Verifying; Publishing; Completed]) && true = false) as ->.
       { pose proof (JobInv.wf_planned j Hj) as Hp. rewrite Hm in Hp.
         destruct (Job.state j); try done; by destruct (Hp eq_refl). }
       rewrite Hnone by done. unfold Job.settled, Job.quiescent, Job.has_active_leases, Job.map_is, durable_of; cbn.
       by rewrite orb_true_r. }
  destruct (JobInv.wf_map j Hj m Hm) as (Hw&_&_&_). destruct (Hsome _ _ eq_refl) as [Hin Hle].
  pose proof (SegmentMapInv.wf_total m Hw). pose proof (SegmentMapInv.wf_maximum m Hw).
  destruct (restore_run (Job.id j) (Job.generation j) (SegmentMap.total m) (SegmentMap.maximum m) rs)
    as (m'&_&Hr); [done..|]. rewrite decide_False in Hr by lia. rewrite Hr. cbn.
  pose proof Hr as (_&_&_&_&Hres)%restore_inv; [|lia|done].
  pose proof (restored_quiet _ _ _ _ _ _ Hres) as (Hq1&Hq2&Hq3).
  pose proof (restored_wf _ _ _ _ _ _ ltac:(done) ltac:(done) (JobInv.wf_generation j Hj) Hres) as Hw'.
  pose proof Hres as [(_&_&Ht'&Hm'&_) _ _ _ _ _ Hc Hb].
  assert (bool_decide (Job.state j ∈ [Verifying; Publishing; Completed])
    && negb (SegmentMap.all_durable m') = false) as ->.
  { apply andb_false_iff. destruct (JobInv.needs_every_byte (Job.state j)) eqn:Hn.
    - right. apply negb_false_iff. apply all_durable_bytes; [done|].
      pose proof (JobInv.wf_done j Hj Hn) as Hd. unfold Job.all_durable, Job.map_is in Hd. rewrite Hm in Hd.
      apply all_durable_bytes in Hd; [|done]. pose proof (durable_bytes_bounds m' Hw') as [_ Hle'].
      rewrite durable_bytes_alt in Hd. unfold durable_of in Hcov. rewrite Hm in Hcov.
      pose proof (covered_bytes _ _ 0 (proj1 (proj2 (durable_ranges_good m Hw))) Ha Hcov). lia.
    - left. by destruct (Job.state j). }
  exists (Some m'). unfold Job.settled, Job.quiescent, Job.has_active_leases, Job.map_is, durable_of; cbn.
  rewrite Hq1, Hq2, Hq3, Ht', Hm', orb_true_r. split_and!; done.
Qed.

(** After a crash the job comes back: from the tables that describe it [load_job] rebuilds a job
    with every field, the plan and the projection's state as they were, settled, whose durable
    bytes are exactly the recorded extents, so none the job held is lost; and the tables describe
    the rebuilt job. *)
Theorem saved_job_recovers d j :
  db_wf d → JobInv.wf j → saved d j →
  ∃ segs row, Db.jobs d !! JobId.get (Job.id j) = Some row ∧
    let j' := Job.set_segments segs j in
    load_job d (JobId.get (Job.id j)) row = Ok j' ∧ Job.plan j' = Job.plan j ∧ Job.settled j' = true ∧
    (∀ b, covered (durable_of j') b ↔ covered (row_ranges d (JobId.get (Job.id j))) b) ∧
    (∀ b, covered (durable_of j) b → covered (durable_of j') b) ∧
    JobInv.wf j' ∧ saved d j'.
Proof.
  intros Hdb Hj Hs. set (id := JobId.get (Job.id j)).
  pose proof (saved_state d j Hs) as Hst. fold id in Hst.
  assert (Job.plan j = None → row_ranges d id = []) as Hnone.
  { intros Hp. unfold row_ranges. destruct (Db.job_state d !! id) as [s|] eqn:Hrow; [|by rewrite no_state_no_rows].
    destruct Hst as (stop&_&Hsr). rewrite (no_plan_no_rows d Hdb id s); [done..|]. rewrite Hsr, Hp. done. }
  assert (∀ t m, Job.plan j = Some (t, m) → within t (row_ranges d id) ∧
    Z.of_nat (pieces false 0 t (row_ranges d id)) ≤ m) as Hsome.
  { intros t m Hp. destruct (Db.job_state d !! id) as [s|] eqn:Hrow.
    - destruct Hst as (stop&_&Hsr).
      assert (StateRow.total s = Some t ∧ StateRow.max_segments s = Some m) as [Ht Hm] by by rewrite Hsr, Hp.
      split; [by eapply row_ranges_within|by eapply db_segments].
    - cbn in Hst. by rewrite Hst in Hp. }
  destruct (restore_over j (row_ranges d id) Hj (row_ranges_wf d id Hdb) (row_ranges_ascending d id Hdb)
    Hnone Hsome (saved_bytes d j Hs)) as (segs&Hr&Hplan&Hset&Hcov).
  exists segs, (JobRow.Make (encode_spec (Job.spec j)) (Job.version j)).
  split; [apply (saved_row d j Hs)|]. cbn zeta. split_and!; try done.
  - unfold load_job, id. rewrite load_record_run by done. fold id. unfold mbind, result_bind. by rewrite Hr.
  - intros b Hb. apply Hcov. by apply (saved_bytes d j Hs).
  - eapply restore_wf; [|exact Hr]. unfold record_over, record_typed; cbn.
    split_and!; try apply Hj; [|by apply row_ranges_wf].
    intros t m Hp. unfold Job.plan in Hp. destruct (Job.segments j) as [m0|] eqn:Hm0; [|done]. injection Hp as <- <-.
    destruct (JobInv.wf_map j Hj m0 Hm0) as (Hw&_).
    pose proof (SegmentMapInv.wf_total m0 Hw). pose proof (SegmentMapInv.wf_maximum m0 Hw). split; ints.
  - destruct Hs as [Hsp Hrow Hss Hb]. constructor; cbn; [done..| |].
    + destruct (Db.job_state d !! JobId.get (Job.id j)) as [s|] eqn:E; cbn in *.
      * destruct Hss as (stop&?&->). exists stop. split; [done|]. by rewrite Hplan.
      * unfold Job.plan in Hplan. rewrite Hss in Hplan |- *. cbn in *. by destruct segs.
    + intros b Hc. by apply Hcov.
Qed.

(** ** Witnesses *)

(** The job [example_db] holds: added, started and probed. *)
Definition example_live : Job.t :=
  after_all [Handle JobCommand.Start; Handle (JobCommand.ProbeSucceeded 1000 8 None)] example_added.
Definition example_written_lease : Lease.t :=
  Lease.Make (JobId.Make 1) Generation.initial (SegmentId.Make 1) 1 9 (ByteRange.Make 0 1000).
Definition example_commit : CommitBatch.t :=
  CommitBatch.Make (JobId.Make 1) Generation.initial 1 [ByteRange.Make 0 1000]
    [(SegmentId.Make 1, ByteRange.Make 0 1000, 1)].
(** The same job with its one segment written and synced. *)
Definition example_flushed : Job.t :=
  after_all [LeaseSegment (SegmentId.Make 1) 9; MarkWritten example_written_lease; PrepareSync;
    AcknowledgeSync (SyncTicket.Make (JobId.Make 1) Generation.initial 1 [ByteRange.Make 0 1000]
      [(SegmentId.Make 1, ByteRange.Make 0 1000, 1)])] example_live.
Definition example_whole : list DurableExtent.t :=
  [DurableExtent.Make (ByteRange.Make 0 1000) (replicate 32 3)].

Lemma example_live_wf : JobInv.wf example_live.
Proof.
  apply after_all_wf; [apply JobInv.new_wf; vm_compute; split; discriminate|].
  repeat constructor; vm_compute; discriminate.
Qed.

Lemma example_flushed_wf : JobInv.wf example_flushed.
Proof. apply after_all_wf; [apply example_live_wf|]. repeat constructor; vm_compute; discriminate. Qed.

Lemma example_live_saved : saved example_db example_live.
Proof.
  constructor.
  - apply example_add_spec_typed.
  - vm_compute; reflexivity.
  - vm_compute. eexists. split; reflexivity.
  - intros b Hb. vm_compute in Hb. destruct Hb as (?&[]%elem_of_nil&_).
Qed.

Lemma example_flushed_saved : saved example_db example_flushed.
Proof.
  constructor.
  - apply example_add_spec_typed.
  - vm_compute; reflexivity.
  - vm_compute. eexists. split; reflexivity.
  - intros b Hb. vm_compute in Hb. destruct Hb as (?&[]%elem_of_nil&_).
Qed.

Lemma decided_event_commits_witness :
  ∃ e d' j', Job.decide_ example_live (JobCommand.Retry 70) = Ok [e] ∧
    transition e example_db = (Ok tt, d') ∧ saved d' j'.
Proof.
  destruct (Job.decide_ example_live (JobCommand.Retry 70)) as [[|e es]|] eqn:Hd;
    vm_compute in Hd; try discriminate.
  destruct (decided_event_commits example_db example_live (JobCommand.Retry 70) e es
    example_db_wf example_live_wf example_live_saved) as (d'&j'&Ht&_&_&_&Hs).
  - vm_compute; split; discriminate.
  - injection Hd as <- <-. vm_compute; reflexivity.
  - injection Hd as <- _. unfold storable. cbn.
    split; [vm_compute; discriminate|]. split; [vm_compute; discriminate|].
    split; [discriminate|]. split; [|discriminate].
    intros t [= <-]. vm_compute; split; discriminate.
  - exists e, d', j'. injection Hd as <- <-. split; [reflexivity|]. split; [exact Ht|exact Hs].
Defined.

Lemma recorded_then_acknowledged_witness :
  ∃ d' j', durable (JobId.Make 1) Generation.initial example_whole example_db = (Ok tt, d') ∧
    Job.acknowledge_commit example_commit example_flushed = (Ok tt, j') ∧
    saved d' example_flushed ∧ saved d' j'.
Proof.
  destruct (durable (JobId.Make 1) Generation.initial example_whole example_db) as [r d'] eqn:Hd.
  assert (r = Ok tt) as -> by (apply (f_equal fst) in Hd; vm_compute in Hd; symmetry; exact Hd).
  destruct (Job.acknowledge_commit example_commit example_flushed) as [r j'] eqn:Ha.
  assert (r = Ok tt) as -> by (apply (f_equal fst) in Ha; vm_compute in Ha; symmetry; exact Ha).
  exists d', j'. split; [reflexivity|]. split; [reflexivity|].
  destruct (recorded_then_acknowledged example_db d' example_flushed j' example_commit example_whole
    example_db_wf example_flushed_wf example_flushed_saved Hd) as (_&H1&H2&_).
  - intros s b Hs Hb. cbn in Hs. apply list_elem_of_singleton in Hs as ->.
    exists (ByteRange.Make 0 1000). split; [apply list_elem_of_singleton; reflexivity|exact Hb].
  - exact Ha.
  - split; [exact H1|exact H2].
Defined.

Lemma saved_job_recovers_witness :
  ∃ segs row, load_job example_db 1 row = Ok (Job.set_segments segs example_flushed) ∧
    Job.settled (Job.set_segments segs example_flushed) = true.
Proof.
  destruct (saved_job_recovers example_db example_flushed example_db_wf example_flushed_wf
    example_flushed_saved) as (segs&row&_&Hl&_&Hset&_).
  exists segs, row. split; [exact Hl|exact Hset].
Defined.
