(* ===== verification/Files.v ===== *)
(** * Files

    What the storage adapter uses of [std::fs]: names, inodes, handles and system
    calls that may fail.  A handle is an inode, so it keeps naming its file when the
    name is gone; two hard links name one inode.  Which calls fail, and after how many
    bytes, is up to the machine: the file system carries the fates of the calls to
    come.  Whether contents survive a power failure is not modelled. *)

From S2P Require Import Prelude.

Module ErrorKind.
Inductive t : Type :=
| NotFound | AlreadyExists | Unsupported | CrossesDevices | StorageFull | UnexpectedEof
| PermissionDenied | Other.
#[global] Instance t_eq_dec : EqDecision t.
Proof. solve_decision. Defined.
End ErrorKind.

(** The canonical names the adapter touches: its own three per generation, and any
    other, by its characters. *)
Inductive Name : Type :=
| Part (job generation : Z)
| Meta (job generation : Z)
| Staged (job generation : Z)
| Leaf (name : list Z).
#[global] Instance Name_eq_dec : EqDecision Name.
Proof. solve_decision. Defined.
#[global] Instance Name_countable : Countable Name.
Proof.
  apply (inj_countable'
    (λ n, match n with
          | Part j g => inl (inl (j, g)) | Meta j g => inl (inr (j, g))
          | Staged j g => inr (inl (j, g)) | Leaf l => inr (inr l) end)
    (λ s, match s with
          | inl (inl p) => Part p.1 p.2 | inl (inr p) => Meta p.1 p.2
          | inr (inl p) => Staged p.1 p.2 | inr (inr l) => Leaf l end)).
  by intros [].
Defined.

Inductive Node : Type := File (inode : nat) | Link | Dir.
#[global] Instance Node_eq_dec : EqDecision Node.
Proof. solve_decision. Defined.

Module Fs.
Record t : Type := Make {
  nodes : gmap Name Node;
  data : gmap nat (list Z);
  next : nat;
  faults : list (option (ErrorKind.t * nat)) }.
Definition set_nodes v s := Make v (data s) (next s) (faults s).
Definition set_data v s := Make (nodes s) v (next s) (faults s).
Definition set_faults v s := Make (nodes s) (data s) (next s) v.
Definition empty : t := Make ∅ ∅ 0 [].
Definition content (s : t) (ino : nat) : list Z := default [] (data s !! ino).
Definition put (ino : nat) (bytes : list Z) (s : t) : t := set_data (<[ino := bytes]> (data s)) s.
End Fs.

Definition fs_st (A : Type) : Type := st Fs.t ErrorKind.t A.

(** A system call: it succeeds as [op] says, or fails with [partial] of its effect. *)
Definition syscall {A} (partial : nat → Fs.t → Fs.t) (op : fs_st A) : fs_st A := λ s,
  let rest := Fs.set_faults (tail (Fs.faults s)) s in
  match head (Fs.faults s) with
  | Some (Some (kind, n)) => (Err kind, partial n rest)
  | _ => op rest
  end.
Definition no_effect (_ : nat) (s : Fs.t) : Fs.t := s.

(** Calls without an effect on names or contents: [seek], [sync_all], resolving a path. *)
Definition access : fs_st unit := syscall no_effect (mret tt).

Definition symlink_metadata (name : Name) : fs_st Node :=
  syscall no_effect (λ s, (ok_or (Fs.nodes s !! name) ErrorKind.NotFound, s)).

Definition open (name : Name) : fs_st nat :=
  syscall no_effect (λ s, (match Fs.nodes s !! name with
    | None => Err ErrorKind.NotFound
    | Some (File ino) => Ok ino
    | Some _ => Err ErrorKind.Other
    end, s)).

(** [create_new(true)]: never an existing name. *)
Definition create_new (name : Name) : fs_st nat := syscall no_effect (λ s,
  match Fs.nodes s !! name with
  | Some _ => (Err ErrorKind.AlreadyExists, s)
  | None => (Ok (Fs.next s),
      Fs.Make (<[name := File (Fs.next s)]> (Fs.nodes s)) (<[Fs.next s := []]> (Fs.data s))
        (S (Fs.next s)) (Fs.faults s))
  end).

Definition hard_link (source target : Name) : fs_st unit := syscall no_effect (λ s,
  match Fs.nodes s !! source, Fs.nodes s !! target with
  | None, _ => (Err ErrorKind.NotFound, s)
  | Some _, Some _ => (Err ErrorKind.AlreadyExists, s)
  | Some (File ino), None => (Ok tt, Fs.set_nodes (<[target := File ino]> (Fs.nodes s)) s)
  | Some _, None => (Err ErrorKind.Other, s)
  end).

Definition remove_file (name : Name) : fs_st unit := syscall no_effect (λ s,
  match Fs.nodes s !! name with
  | None => (Err ErrorKind.NotFound, s)
  | Some Dir => (Err ErrorKind.Other, s)
  | Some _ => (Ok tt, Fs.set_nodes (delete name (Fs.nodes s)) s)
  end).

Definition file_len (ino : nat) : fs_st Z :=
  syscall no_effect (λ s, (Ok (Z.of_nat (length (Fs.content s ino))), s)).

Definition set_len (ino : nat) (size : Z) : fs_st unit := syscall no_effect (λ s,
  (Ok tt, Fs.put ino (resize (Z.to_nat size) 0 (Fs.content s ino)) s)).

(** The [len] bytes at [off]. *)
Definition slice {A} (off len : Z) (bytes : list A) : list A :=
  take (Z.to_nat len) (drop (Z.to_nat off) bytes).
(** Contents after writing [bytes] at [off]; a gap reads as zeros. *)
Definition overwrite (off : Z) (bytes old : list Z) : list Z :=
  resize (Z.to_nat off) 0 old ++ bytes ++ drop (Z.to_nat off + length bytes) old.

(** [seek] then [write_all]; a failure may leave a prefix. *)
Definition write_all (ino : nat) (off : Z) (bytes : list Z) : fs_st unit :=
  syscall (λ n s, Fs.put ino (overwrite off (take n bytes) (Fs.content s ino)) s)
    (λ s, (Ok tt, Fs.put ino (overwrite off bytes (Fs.content s ino)) s)).

Definition read_exact (ino : nat) (off len : Z) : fs_st (list Z) := syscall no_effect (λ s,
  let bytes := slice off len (Fs.content s ino) in
  (if decide (Z.of_nat (length bytes) = len) then Ok bytes else Err ErrorKind.UnexpectedEof, s)).

(** [read] into a buffer: empty at the end of the file. *)
Definition read_some (ino : nat) (off len : Z) : fs_st (list Z) :=
  syscall no_effect (λ s, (Ok (slice off len (Fs.content s ino)), s)).

(** [let _ = call]. *)
Definition ignore {A E} (m : fs_st A) : st Fs.t E unit := λ s, (Ok tt, (m s).2).
