(* ===== verification/FilesInv.v ===== *)
(** * Lemmas on the file system

    Calls that leave names and contents alone, what [overwrite] changes, and what a
    successful call did.  [same] compares file systems up to the fates of the calls
    to come. *)

From S2P Require Import Prelude.
From S2P Require Import Files.

Definition same (s s' : Fs.t) : Prop :=
  Fs.nodes s' = Fs.nodes s ∧ Fs.data s' = Fs.data s ∧ Fs.next s' = Fs.next s.

#[global] Instance same_preorder : PreOrder same.
Proof. split; [by intros ?|]. intros ??? (?&?&?) (?&?&?). repeat split; congruence. Qed.

Lemma same_content s s' ino : same s s' → Fs.content s' ino = Fs.content s ino.
Proof. unfold Fs.content. by intros (_&->&_). Qed.

(** A computation that reads. *)
Definition keeps {E A} (m : st Fs.t E A) : Prop := ∀ s, same s (m s).2.

Lemma keeps_bind {E A B} (m : st Fs.t E A) (k : A → st Fs.t E B) :
  keeps m → (∀ a, keeps (k a)) → keeps (m ≫= k).
Proof.
  intros Hm Hk s. unfold mbind, st_bind. specialize (Hm s). destruct (m s) as [[a|e] s']; cbn in *.
  - etrans; [done|]. apply Hk.
  - done.
Qed.
Lemma keeps_ret {E A} (a : A) : keeps (E:=E) (mret a).
Proof. done. Qed.
Lemma keeps_lift {E A} (r : result E A) : keeps (lift r).
Proof. done. Qed.

Lemma keeps_syscall {A} (op : fs_st A) : keeps op → keeps (syscall no_effect op).
Proof.
  intros Hop s. unfold syscall. destruct (head _) as [[[]|]|]; cbn; [done| |];
    (etrans; [|apply Hop]; done).
Qed.
Lemma keeps_access : keeps access.
Proof. by apply keeps_syscall. Qed.
Lemma keeps_symlink_metadata n : keeps (symlink_metadata n).
Proof. by apply keeps_syscall. Qed.
Lemma keeps_open n : keeps (open n).
Proof. apply keeps_syscall. by intros s. Qed.
Lemma keeps_file_len i : keeps (file_len i).
Proof. by apply keeps_syscall. Qed.
Lemma keeps_read_exact i o l : keeps (read_exact i o l).
Proof. apply keeps_syscall. by intros s. Qed.
Lemma keeps_read_some i o l : keeps (read_some i o l).
Proof. by apply keeps_syscall. Qed.

Create HintDb keeps discriminated.
#[export] Hint Resolve keeps_bind keeps_ret keeps_lift keeps_access keeps_symlink_metadata keeps_open
  keeps_file_len keeps_read_exact keeps_read_some : keeps.

(** A run of a computation that reads, in a hypothesis. *)
Lemma keeps_run {E A} (m : st Fs.t E A) s r s' : keeps m → m s = (r, s') → same s s'.
Proof. intros Hm Hr. specialize (Hm s). by rewrite Hr in Hm. Qed.

(** ** Slices and overwritten contents *)

Lemma slice_length {A} off len (l : list A) :
  0 ≤ off → 0 ≤ len → off + len ≤ Z.of_nat (length l) → Z.of_nat (length (slice off len l)) = len.
Proof. intros. unfold slice. rewrite length_take, length_drop. lia. Qed.

Lemma slice_whole {A} (l : list A) : slice 0 (Z.of_nat (length l)) l = l.
Proof. unfold slice. rewrite Nat2Z.id. cbn. by rewrite firstn_all. Qed.

Lemma slice_app {A} off a b (l : list A) :
  0 ≤ off → 0 ≤ a → 0 ≤ b → slice off a l ++ slice (off + a) b l = slice off (a + b) l.
Proof.
  intros. unfold slice. rewrite !Z2Nat.inj_add by lia.
  by rewrite <-(take_take_drop (drop _ _)), drop_drop.
Qed.

Lemma lookup_slice {A} off len (l : list A) i :
  0 ≤ off → 0 ≤ Z.of_nat i < len → slice off len l !! i = l !! Z.to_nat (off + Z.of_nat i).
Proof.
  intros. unfold slice. rewrite lookup_take_lt by lia. rewrite lookup_drop. f_equal. lia.
Qed.

Lemma overwrite_after off bytes old j :
  overwrite off bytes old !! (Z.to_nat off + j)%nat =
  (bytes ++ drop (Z.to_nat off + length bytes) old) !! j.
Proof.
  unfold overwrite. set (pre := resize _ 0 old).
  assert (length pre = Z.to_nat off) as Hl by apply length_resize.
  rewrite lookup_app_r by lia. f_equal. lia.
Qed.

(** Outside of the bytes written, what was in the file is still there. *)
Lemma overwrite_outside off bytes old i :
  0 ≤ off → (i < length old)%nat → ¬ (off ≤ Z.of_nat i < off + Z.of_nat (length bytes)) →
  overwrite off bytes old !! i = old !! i.
Proof.
  intros Ho Hi Hout. destruct (decide (Z.of_nat i < off)).
  - unfold overwrite. rewrite lookup_app_l; [by rewrite lookup_resize by lia|]. rewrite length_resize. lia.
  - replace i with (Z.to_nat off + (i - Z.to_nat off))%nat at 1 by lia.
    rewrite overwrite_after, lookup_app_r by lia. rewrite lookup_drop. f_equal. lia.
Qed.

Lemma overwrite_inside off bytes old i :
  (i < length bytes)%nat → overwrite off bytes old !! (Z.to_nat off + i)%nat = bytes !! i.
Proof. intros Hi. by rewrite overwrite_after, lookup_app_l. Qed.

Lemma overwrite_length off bytes old :
  0 ≤ off → off + Z.of_nat (length bytes) ≤ Z.of_nat (length old) →
  length (overwrite off bytes old) = length old.
Proof. intros. unfold overwrite. rewrite !length_app, length_resize, length_drop. lia. Qed.

Lemma overwrite_nil off old : 0 ≤ off ≤ Z.of_nat (length old) → overwrite off [] old = old.
Proof.
  intros. unfold overwrite. rewrite resize_le by lia. cbn. rewrite Nat.add_0_r. apply take_drop.
Qed.

Lemma content_put_eq ino l s : Fs.content (Fs.put ino l s) ino = l.
Proof. unfold Fs.content; cbn. by rewrite lookup_insert_eq. Qed.
Lemma content_put_ne ino j l s : j ≠ ino → Fs.content (Fs.put ino l s) j = Fs.content s j.
Proof. intros. unfold Fs.content; cbn. by rewrite lookup_insert_ne. Qed.

(** ** What a call did *)

Ltac open_syscall :=
  match goal with
  | H : syscall _ _ ?s = (_, _) |- _ =>
      unfold syscall in H; destruct (head (Fs.faults s)) as [[[]|]|]; simplify_eq/=
  end.

(** [write_all] leaves some prefix of its bytes, all of them on success. *)
Lemma write_all_run ino off bytes s r s' :
  write_all ino off bytes s = (r, s') →
  ∃ n, Fs.nodes s' = Fs.nodes s ∧ Fs.next s' = Fs.next s ∧
    Fs.data s' = <[ino := overwrite off (take n bytes) (Fs.content s ino)]> (Fs.data s) ∧
    (r = Ok tt → take n bytes = bytes).
Proof.
  intros Hr. unfold write_all in Hr. open_syscall.
  1: by eexists _.
  all: exists (length bytes); split_and!; [done|done|cbn; by rewrite firstn_all|by rewrite firstn_all].
Qed.

Lemma remove_file_run n s r s' :
  remove_file n s = (r, s') →
  Fs.data s' = Fs.data s ∧ Fs.next s' = Fs.next s ∧
  (Fs.nodes s' = Fs.nodes s ∨ Fs.nodes s' = delete n (Fs.nodes s)).
Proof.
  intros Hr. unfold remove_file in Hr. open_syscall; [by auto|..];
    destruct (Fs.nodes s !! n) as [[]|]; simplify_eq/=; auto.
Qed.

Lemma hard_link_Ok a b s s' :
  hard_link a b s = (Ok tt, s') →
  ∃ ino, Fs.nodes s !! a = Some (File ino) ∧ Fs.nodes s !! b = None ∧
    Fs.nodes s' = <[b := File ino]> (Fs.nodes s) ∧ Fs.data s' = Fs.data s ∧ Fs.next s' = Fs.next s.
Proof.
  intros Hr. unfold hard_link in Hr. open_syscall;
    destruct (Fs.nodes s !! a) as [[]|] eqn:?, (Fs.nodes s !! b) as [[]|] eqn:?; simplify_eq/=; eauto 10.
Qed.

Lemma hard_link_Err a b s e s' : hard_link a b s = (Err e, s') → same s s'.
Proof.
  intros Hr. unfold hard_link in Hr. open_syscall; [done|..];
    destruct (Fs.nodes s !! a) as [[]|] eqn:?, (Fs.nodes s !! b) as [[]|] eqn:?; by simplify_eq/=.
Qed.

Lemma open_Ok n s i s' : open n s = (Ok i, s') → Fs.nodes s !! n = Some (File i) ∧ same s s'.
Proof.
  intros Hr. split; [|by eapply keeps_run; [apply keeps_open|]].
  unfold open in Hr. open_syscall; destruct (Fs.nodes s !! n) as [[]|]; by simplify_eq/=.
Qed.

Lemma create_new_Ok n s i s' :
  create_new n s = (Ok i, s') →
  i = Fs.next s ∧ Fs.nodes s !! n = None ∧ Fs.nodes s' = <[n := File i]> (Fs.nodes s) ∧
  Fs.data s' = <[i := []]> (Fs.data s) ∧ Fs.next s' = S (Fs.next s).
Proof.
  intros Hr. unfold create_new in Hr. open_syscall; destruct (Fs.nodes s !! n) as [[]|] eqn:?; by simplify_eq/=.
Qed.

Lemma set_len_Ok i n s s' :
  set_len i n s = (Ok tt, s') → Fs.nodes s' = Fs.nodes s ∧ Fs.next s' = Fs.next s ∧
  Fs.data s' = <[i := resize (Z.to_nat n) 0 (Fs.content s i)]> (Fs.data s).
Proof. intros Hr. unfold set_len in Hr. by open_syscall. Qed.

Lemma file_len_Ok i s n s' :
  file_len i s = (Ok n, s') → n = Z.of_nat (length (Fs.content s i)) ∧ same s s'.
Proof. intros Hr. unfold file_len in Hr. by open_syscall. Qed.

Lemma read_exact_Ok i off len s bytes s' :
  read_exact i off len s = (Ok bytes, s') →
  bytes = slice off len (Fs.content s i) ∧ Z.of_nat (length bytes) = len ∧ same s s'.
Proof.
  intros Hr. assert (same s s') by (by eapply keeps_run; [apply keeps_read_exact|]).
  unfold read_exact in Hr. open_syscall; case_decide; by simplify_eq/=.
Qed.

(** ** Runs without failures *)

Definition quiet (s : Fs.t) : Prop := Fs.faults s = [].

Lemma syscall_quiet {A} p (op : fs_st A) s : quiet s → syscall p op s = op s.
Proof. unfold quiet, syscall. destruct s; cbn. by intros ->. Qed.
