(* ===== verification/StorageFile.v ===== *)
(** * The part file

    [src/crates/adapters/storage/src/lib.rs] and the types of its port
    ([src/crates/application/src/storage.rs]): one generation's bytes, what of them
    was written, proving them against the record and publishing them under their
    final name.  [sha256] is the digest of the sha2 crate over all the bytes fed to it. *)

From S2P Require Import Prelude.
From S2P Require Import Domain.
From S2P Require Import Persistence.
From S2P Require Import Files.

Module PartSpec.
Record t : Type := Make { job : JobId.t; generation : Generation.t; size : Z }.
#[global] Instance t_eq_dec : EqDecision t.
Proof. solve_decision. Defined.
Definition new (job : JobId.t) (generation : Generation.t) (size : Z) : result DomainError t :=
  if decide (i64_max < size) then Err InvalidInput else Ok (Make job generation size).
End PartSpec.

Module StorageError.
Inductive t : Type :=
| InvalidInput | InvalidState | Bounds | Locked | Io (kind : ErrorKind.t) | Integrity | Conflict
| Unsupported.
#[global] Instance t_eq_dec : EqDecision t.
Proof. solve_decision. Defined.
End StorageError.

Module Occupant.
Inductive t : Type := File (size : Z) (digest : digest32) | OtherSize | NotAFile.
#[global] Instance t_eq_dec : EqDecision t.
Proof. solve_decision. Defined.
End Occupant.

(** The bytes of [b"FHDPART\0\x01"]. *)
Definition MAGIC : list Z := [70; 72; 68; 80; 65; 82; 84; 0; 1].
Definition META_LEN : Z := 34.
Definition MAX_EXTENTS : Z := 262144.
Definition BUFFER : Z := 65536.

(** [map_err(io)]. *)
Definition io {A} (m : fs_st A) : st Fs.t StorageError.t A := λ s,
  let '(r, s') := m s in (map_err StorageError.Io r, s').

(** ** Destination names

    A leaf is its Unicode scalar values. *)

Definition utf8_len (c : Z) : Z :=
  if decide (c < 128) then 1 else if decide (c < 2048) then 2 else if decide (c < 65536) then 3 else 4.
Definition is_control (c : Z) : bool := bool_decide (0 ≤ c ≤ 31) || bool_decide (127 ≤ c ≤ 159).
(** The characters less-than, greater-than, colon, double quote, slash, backslash, bar,
    question mark and star. *)
Definition FORBIDDEN : list Z := [60; 62; 58; 34; 47; 92; 124; 63; 42].
Definition to_ascii_lowercase (c : Z) : Z := if decide (65 ≤ c ≤ 90) then c + 32 else c.
(** [name.split('.').next()]. *)
Fixpoint before_dot (name : list Z) : list Z :=
  match name with
  | [] => []
  | c :: rest => if decide (c = 46) then [] else c :: before_dot rest
  end.
(** con, prn, aux, nul, conin$ and conout$. *)
Definition DEVICES : list (list Z) :=
  [[99; 111; 110]; [112; 114; 110]; [97; 117; 120]; [110; 117; 108];
   [99; 111; 110; 105; 110; 36]; [99; 111; 110; 111; 117; 116; 36]].
(** com and lpt, followed by one of the digits or of the superscripts one, two, three. *)
Definition PORTS : list (list Z) := [[99; 111; 109]; [108; 112; 116]].
Definition PORT_NUMBERS : list (list Z) :=
  [[49]; [50]; [51]; [52]; [53]; [54]; [55]; [56]; [57]; [185]; [178]; [179]].
Definition reserved (stem : list Z) : bool :=
  bool_decide (stem ∈ DEVICES) ||
  existsb (λ prefix, bool_decide (take 3 stem = prefix) && bool_decide (drop 3 stem ∈ PORT_NUMBERS)) PORTS.

Definition validate_leaf (name : list Z) : result StorageError.t unit :=
  _ ← refuse_if (bool_decide (name = []) || bool_decide (255 < sum_Z (utf8_len <$> name))
        || bool_decide (name ∈ [[46]; [46; 46]]) || is_some_and (λ c, bool_decide (c ∈ [46; 32])) (last name)
        || existsb is_control name || existsb (λ c, bool_decide (c ∈ FORBIDDEN)) name)
      StorageError.InvalidInput;
  refuse_if (reserved (to_ascii_lowercase <$> before_dot name)) StorageError.InvalidInput.

(** A destination: the leaf asked for, and the name its canonical path is. *)
Module Destination.
Record t : Type := Make { leaf : list Z; resolved : Name }.
End Destination.
Definition resolve_destination (d : Destination.t) : st Fs.t StorageError.t Name :=
  _ ← io access;
  _ ← lift (validate_leaf (Destination.leaf d));
  mret (Destination.resolved d).

(** [ordinary(path, false)] and [check_optional]. *)
Definition ordinary (name : Name) : st Fs.t StorageError.t unit :=
  node ← io (symlink_metadata name);
  lift (match node with File _ => Ok tt | _ => Err StorageError.InvalidInput end).
Definition check_optional (name : Name) : st Fs.t StorageError.t unit := λ s,
  match symlink_metadata name s with
  | (Ok _, s') => ordinary name s'
  | (Err ErrorKind.NotFound, s') => (Ok tt, s')
  | (Err e, s') => (Err (StorageError.Io e), s')
  end.

Definition identity (spec : PartSpec.t) (sealed : bool) : list Z :=
  MAGIC ++ to_le_bytes (JobId.get (PartSpec.job spec))
    ++ to_le_bytes (Generation.get (PartSpec.generation spec))
    ++ to_le_bytes (PartSpec.size spec) ++ [if sealed then 1 else 0].
#[global] Arguments identity : simpl never.

Definition part_name (spec : PartSpec.t) : Name :=
  Part (JobId.get (PartSpec.job spec)) (Generation.get (PartSpec.generation spec)).
Definition meta_name (spec : PartSpec.t) : Name :=
  Meta (JobId.get (PartSpec.job spec)) (Generation.get (PartSpec.generation spec)).
Definition staged_name (spec : PartSpec.t) : Name :=
  Staged (JobId.get (PartSpec.job spec)) (Generation.get (PartSpec.generation spec)).

(** The reading loop of [hash] and [hash_whole], a buffer at a time. *)
Fixpoint read_loop (fuel : nat) (ino : nat) (off left : Z) : fs_st (list Z) :=
  match fuel with
  | O => mret []
  | S fuel =>
      if decide (left ≤ 0) then mret [] else
      let take := Z.min left BUFFER in
      bytes ← read_exact ino off take;
      rest ← read_loop fuel ino (off + take) (left - take);
      mret (bytes ++ rest)
  end.
Definition chunks (length : Z) : nat := S (Z.to_nat (length / BUFFER)).
#[global] Arguments chunks : simpl never.

Section Storage.
Context (sha256 : list Z → digest32).

Definition hash_bytes (ino : nat) (off length : Z) : st Fs.t StorageError.t digest32 :=
  _ ← io access;
  bytes ← io (read_loop (chunks length) ino off length);
  mret (sha256 bytes).
Definition hash_whole (ino : nat) (length : Z) : st Fs.t StorageError.t digest32 :=
  hash_bytes ino 0 length.

(** The loop of [inspect]: reads to the end of the file. *)
Fixpoint read_to_end (fuel : nat) (ino : nat) (off : Z) : fs_st (list Z) :=
  match fuel with
  | O => mret []
  | S fuel =>
      bytes ← read_some ino off BUFFER;
      if decide (bytes = []) then mret [] else
      rest ← read_to_end fuel ino (off + Z.of_nat (length bytes));
      mret (bytes ++ rest)
  end.

(** [inspect] once its destination is resolved. *)
Definition inspect_name (name : Name) (expected_size : Z) :
    st Fs.t StorageError.t (option Occupant.t) := λ s,
  match symlink_metadata name s with
  | (Err ErrorKind.NotFound, s') => (Ok None, s')
  | (Err e, s') => (Err (StorageError.Io e), s')
  | (Ok (File ino), s') =>
      if decide (Z.of_nat (length (Fs.content s' ino)) ≠ expected_size)
      then (Ok (Some Occupant.OtherSize), s')
      else
        (ino ← io (open name);
         bytes ← io (read_to_end (S (chunks expected_size)) ino 0);
         if decide (Z.of_nat (length bytes) ≠ expected_size) then mret (Some Occupant.OtherSize)
         else mret (Some (Occupant.File (Z.of_nat (length bytes)) (sha256 bytes)))) s'
  | (Ok _, s') => (Ok (Some Occupant.NotAFile), s')
  end.
Definition inspect (destination : Destination.t) (expected_size : Z) :
    st Fs.t StorageError.t (option Occupant.t) :=
  name ← resolve_destination destination; inspect_name name expected_size.
End Storage.

Module FilePart.
Record t : Type := Make {
  file : nat;
  metadata : nat;
  path : Name;
  spec : PartSpec.t;
  coverage : list ByteRange.t;
  protected : list ByteRange.t;
  synchronized : bool;
  verified : option digest32;
  sealed : bool;
  published : bool;
  cancelled : bool;
  poisoned : bool }.

(** Assignments to single fields. *)
Definition set_coverage v p := Make (file p) (metadata p) (path p) (spec p) v (protected p)
  (synchronized p) (verified p) (sealed p) (published p) (cancelled p) (poisoned p).
Definition set_protected v p := Make (file p) (metadata p) (path p) (spec p) (coverage p) v
  (synchronized p) (verified p) (sealed p) (published p) (cancelled p) (poisoned p).
Definition set_synchronized v p := Make (file p) (metadata p) (path p) (spec p) (coverage p)
  (protected p) v (verified p) (sealed p) (published p) (cancelled p) (poisoned p).
Definition set_verified v p := Make (file p) (metadata p) (path p) (spec p) (coverage p)
  (protected p) (synchronized p) v (sealed p) (published p) (cancelled p) (poisoned p).
Definition set_sealed v p := Make (file p) (metadata p) (path p) (spec p) (coverage p)
  (protected p) (synchronized p) (verified p) v (published p) (cancelled p) (poisoned p).
Definition set_published v p := Make (file p) (metadata p) (path p) (spec p) (coverage p)
  (protected p) (synchronized p) (verified p) (sealed p) v (cancelled p) (poisoned p).
Definition set_cancelled v p := Make (file p) (metadata p) (path p) (spec p) (coverage p)
  (protected p) (synchronized p) (verified p) (sealed p) (published p) v (poisoned p).
Definition set_poisoned v p := Make (file p) (metadata p) (path p) (spec p) (coverage p)
  (protected p) (synchronized p) (verified p) (sealed p) (published p) (cancelled p) v.

Definition open_inner (spec : PartSpec.t) (create : bool) : st Fs.t StorageError.t t :=
  let part_path := part_name spec in
  let metadata_path := meta_name spec in
  _ ← io access;
  _ ← check_optional part_path;
  _ ← check_optional metadata_path;
  file ← (λ s, let '(r, s') := (if create then create_new part_path else Files.open part_path) s in
               (map_err (λ e, if decide (e = ErrorKind.AlreadyExists) then StorageError.Conflict
                              else StorageError.Io e) r, s'));
  metadata ← io (if create then create_new metadata_path else Files.open metadata_path);
  sealed ← (if create then
      _ ← io (set_len file (PartSpec.size spec));
      _ ← io access;
      _ ← io (write_all metadata 0 (identity spec false));
      _ ← io access;
      _ ← io access;
      mret false
    else
      meta_len ← io (file_len metadata);
      _ ← lift (refuse_if (bool_decide (meta_len ≠ META_LEN)) StorageError.Integrity);
      part_len ← io (file_len file);
      _ ← lift (refuse_if (bool_decide (part_len ≠ PartSpec.size spec)) StorageError.Integrity);
      data ← io (read_exact metadata 0 META_LEN);
      let flag := default 0 (data !! 33%nat) in
      _ ← lift (refuse_if (bool_decide (take 33 data ≠ take 33 (identity spec false) ∨ 1 < flag))
            StorageError.Integrity);
      mret (bool_decide (flag = 1)));
  _ ← io access;
  mret (Make file metadata part_path spec [] [] create None sealed false false false).

(** *** Queries *)

Definition healthy (p : t) : result StorageError.t unit := refuse_if (poisoned p) StorageError.InvalidState.

Definition range (p : t) (offset length : Z) : result StorageError.t ByteRange.t :=
  end_ ← ok_or (checked_add offset length) StorageError.Bounds;
  _ ← refuse_if (bool_decide (PartSpec.size (spec p) < end_)) StorageError.Bounds;
  map_err (λ _, StorageError.Bounds) (ByteRange.new offset end_).

(** [partition_point]: how many entries end before [start]. *)
Fixpoint before (start : Z) (entries : list ByteRange.t) : nat :=
  match entries with
  | [] => 0
  | e :: rest => if decide (ByteRange.end_ e < start) then S (before start rest) else 0
  end.
(** The [while] of [coverage_plan]: the entries absorbed, and the range they grow to. *)
Fixpoint absorb (entries : list ByteRange.t) (start end_ : Z) : nat * Z * Z :=
  match entries with
  | [] => (0%nat, start, end_)
  | e :: rest =>
      if decide (end_ < ByteRange.start e) then (0%nat, start, end_)
      else let '(n, s, t) := absorb rest (Z.min start (ByteRange.start e)) (Z.max end_ (ByteRange.end_ e)) in
           (S n, s, t)
  end.
Definition coverage_plan (p : t) (r : ByteRange.t) : result StorageError.t (nat * nat * ByteRange.t) :=
  let first := before (ByteRange.start r) (coverage p) in
  let '(n, start, end_) := absorb (drop first (coverage p)) (ByteRange.start r) (ByteRange.end_ r) in
  let last := (first + n)%nat in
  _ ← refuse_if (bool_decide (MAX_EXTENTS < Z.of_nat (length (coverage p) - (last - first) + 1)))
        StorageError.Bounds;
  merged ← map_err (λ _, StorageError.Bounds) (ByteRange.new start end_);
  Ok (first, last, merged).
(** [splice(first..last, [range])]. *)
Definition add_coverage (plan : nat * nat * ByteRange.t) (p : t) : t :=
  let '(first, last, r) := plan in
  set_coverage (take first (coverage p) ++ [r] ++ drop last (coverage p)) p.

Definition complete (p : t) : bool :=
  bool_decide (PartSpec.size (spec p) = 0) ||
  match coverage p with
  | [r] => bool_decide (ByteRange.start r = 0) && bool_decide (ByteRange.end_ r = PartSpec.size (spec p))
  | _ => false
  end.

(** *** The methods, on the handle and the file system *)

Record world : Type := World { part : t; fs : Fs.t }.
Definition part_st (A : Type) : Type := st world StorageError.t A.
Definition on_fs {A} (m : st Fs.t StorageError.t A) : part_st A := zoom fs (λ v w, World (part w) v) m.
Definition update (f : t → t) : part_st unit := modify (λ w, World (f (part w)) (fs w)).
Definition self : part_st t := gets part.

Section Methods.
Context (sha256 : list Z → digest32).

Definition hash (start length : Z) : part_st digest32 :=
  p ← self; on_fs (hash_bytes sha256 (file p) start length).

Definition write_at (offset : Z) (bytes : list Z) : part_st unit :=
  p ← self;
  _ ← lift (healthy p);
  _ ← lift (refuse_if (sealed p) StorageError.InvalidState);
  if decide (bytes = []) then
    lift (refuse_if (bool_decide (PartSpec.size (spec p) < offset)) StorageError.Bounds)
  else
  r ← lift (range p offset (Z.of_nat (length bytes)));
  _ ← lift (refuse_if (existsb (λ e, bool_decide (ByteRange.start e < ByteRange.end_ r)
        && bool_decide (ByteRange.start r < ByteRange.end_ e)) (protected p)) StorageError.InvalidState);
  plan ← lift (coverage_plan p r);
  _ ← update (set_poisoned true);
  _ ← update (set_synchronized false);
  _ ← update (set_verified None);
  _ ← on_fs (io access);
  _ ← on_fs (io (write_all (file p) offset bytes));
  _ ← update (add_coverage plan);
  update (set_poisoned false).

Definition sync : part_st unit :=
  p ← self;
  _ ← lift (healthy p);
  _ ← update (set_poisoned true);
  _ ← on_fs (io access);
  _ ← update (set_synchronized true);
  update (set_poisoned false).

Definition hash_range (r : ByteRange.t) : part_st digest32 :=
  p ← self;
  _ ← lift (healthy p);
  _ ← lift (refuse_if (bool_decide (PartSpec.size (spec p) < ByteRange.end_ r)) StorageError.Bounds);
  hash (ByteRange.start r) (ByteRange.len r).

Definition recover_extent (r : ByteRange.t) (digest : digest32) : part_st unit :=
  p ← self;
  _ ← lift (healthy p);
  _ ← lift (refuse_if (bool_decide (PartSpec.size (spec p) < ByteRange.end_ r)) StorageError.Bounds);
  plan ← lift (coverage_plan p r);
  found ← hash (ByteRange.start r) (ByteRange.len r);
  _ ← lift (refuse_if (bool_decide (found ≠ digest)) StorageError.Integrity);
  _ ← lift (refuse_if (bool_decide (MAX_EXTENTS ≤ Z.of_nat (length (protected p)))) StorageError.Bounds);
  _ ← update (λ p, set_protected (protected p ++ [r]) p);
  update (add_coverage plan).

(** The two loops of [verify] over the record. *)
Fixpoint reach (ranges : list ByteRange.t) (reached : Z) : result StorageError.t Z :=
  match ranges with
  | [] => Ok reached
  | r :: rest =>
      _ ← refuse_if (bool_decide (reached < ByteRange.start r)) StorageError.Integrity;
      reach rest (Z.max reached (ByteRange.end_ r))
  end.
Fixpoint rehash (size : Z) (record : list (ByteRange.t * digest32)) : part_st unit :=
  match record with
  | [] => mret tt
  | (r, digest) :: rest =>
      _ ← lift (refuse_if (bool_decide (size < ByteRange.end_ r)) StorageError.Bounds);
      found ← hash (ByteRange.start r) (ByteRange.len r);
      _ ← lift (refuse_if (bool_decide (found ≠ digest)) StorageError.Integrity);
      rehash size rest
  end.

Definition verify (expected : option digest32) (record : list (ByteRange.t * digest32)) : part_st digest32 :=
  p ← self;
  _ ← lift (healthy p);
  _ ← update (set_verified None);
  let size := PartSpec.size (spec p) in
  _ ← lift (refuse_if (negb (complete p) || negb (synchronized p)) StorageError.InvalidState);
  len ← on_fs (io (file_len (file p)));
  _ ← lift (refuse_if (bool_decide (len ≠ size)) StorageError.Integrity);
  reached ← lift (reach (sort_by_key ByteRange.start record.*1) 0);
  _ ← lift (refuse_if (bool_decide (reached ≠ size)) StorageError.Integrity);
  _ ← rehash size record;
  digest ← hash 0 size;
  _ ← lift (refuse_if (is_some_and (λ e, bool_decide (e ≠ digest)) expected) StorageError.Integrity);
  _ ← update (set_verified (Some digest));
  mret digest.

(** Removing one of the names of [discard]; one already gone is as good. *)
Definition discard_name (name : Name) : part_st unit := on_fs (λ s,
  match remove_file name s with
  | (Ok _, s') => (Ok tt, s')
  | (Err ErrorKind.NotFound, s') => (Ok tt, s')
  | (Err e, s') => (Err (StorageError.Io e), s')
  end).
Definition discard : part_st unit :=
  p ← self;
  _ ← lift (refuse_if (negb (published p) && negb (cancelled p)) StorageError.InvalidState);
  _ ← update (set_poisoned true);
  _ ← discard_name (path p);
  _ ← discard_name (meta_name (spec p));
  on_fs (io access).

Definition abandon : part_st unit := update (set_cancelled true).

(** [fs::symlink_metadata(&destination)] of [publish]: the name must be free. *)
Definition destination_free (name : Name) : part_st unit := on_fs (λ s,
  match symlink_metadata name s with
  | (Ok _, s') => (Err StorageError.Conflict, s')
  | (Err ErrorKind.NotFound, s') => (Ok tt, s')
  | (Err e, s') => (Err (StorageError.Io e), s')
  end).

(** The file's own sealed byte, then the handle's. *)
Definition seal : part_st unit :=
  p ← self;
  _ ← update (set_poisoned true);
  _ ← on_fs (io access);
  _ ← on_fs (io (write_all (metadata p) 33 [1]));
  _ ← on_fs (io access);
  update (set_sealed true).

(** The staged link, proved through a handle on it. *)
Definition stage (expected : digest32) : part_st unit := λ w,
  let p := part w in
  let staged := staged_name (spec p) in
  match hard_link (path p) staged (remove_file staged (fs w)).2 with
  | (Err e, s) => (Err (StorageError.Io e), World (set_sealed false (set_poisoned false p)) s)
  | (Ok _, s) =>
      match (ino ← io (Files.open staged); hash_whole sha256 ino (PartSpec.size (spec p))) s with
      | (proved, s) =>
          if decide (proved = Ok expected) then (Ok tt, World p s)
          else (Err StorageError.Integrity,
                World (set_verified None (set_sealed false (set_poisoned false p)))
                  (remove_file staged s).2)
      end
  end.

(** The destination's own link. *)
Definition link_destination (destination : Name) : part_st unit := λ w,
  let p := part w in
  let staged := staged_name (spec p) in
  match hard_link staged destination (fs w) with
  | (Ok _, s) => (Ok tt, World p s)
  | (Err e, s) =>
      (Err match e with
           | ErrorKind.AlreadyExists => StorageError.Conflict
           | ErrorKind.Unsupported | ErrorKind.CrossesDevices => StorageError.Unsupported
           | e => StorageError.Io e
           end, World (set_poisoned false p) (remove_file staged s).2)
  end.

Definition publish (destination : Destination.t) : part_st Name :=
  p ← self;
  _ ← lift (healthy p);
  expected ← lift (ok_or (verified p) StorageError.InvalidState);
  _ ← lift (refuse_if (negb (synchronized p) || negb (complete p)) StorageError.InvalidState);
  destination ← on_fs (resolve_destination destination);
  _ ← destination_free destination;
  _ ← on_fs (ordinary (path p));
  len ← on_fs (io (file_len (file p)));
  _ ← (if decide (len ≠ PartSpec.size (spec p)) then
         _ ← update (set_verified None); throw StorageError.Integrity
       else mret tt);
  _ ← seal;
  _ ← stage expected;
  _ ← link_destination destination;
  _ ← on_fs (ignore (remove_file (staged_name (spec p))));
  _ ← on_fs (io access);
  _ ← on_fs (io access);
  _ ← on_fs (io access);
  _ ← update (set_published true);
  _ ← update (set_poisoned false);
  mret destination.
End Methods.
End FilePart.
