(* ===== verification/StorageInv.v ===== *)
(** * Lemmas on the part file

    The coverage of a part as the set of bytes it stands for, what the hashing loops
    compute, and what every method leaves alone. *)

From S2P Require Import Prelude.
From S2P Require Import Domain.
From S2P Require Import Persistence.
From S2P Require Import PersistenceInv.
From S2P Require Import Files.
From S2P Require Import FilesInv.
From S2P Require Import StorageFile.

(** ** Coverage *)

(** Ascending after [lo], inside the object, with a gap between any two. *)
Fixpoint coverage_wf (lo size : Z) (l : list ByteRange.t) : Prop :=
  match l with
  | [] => True
  | r :: rest => lo < ByteRange.start r ∧ ByteRange.start r < ByteRange.end_ r ∧
      ByteRange.end_ r ≤ size ∧ coverage_wf (ByteRange.end_ r) size rest
  end.

Lemma coverage_wf_le lo lo' size l : lo' ≤ lo → coverage_wf lo size l → coverage_wf lo' size l.
Proof. destruct l; cbn; [done|]. intros ? (?&?&?&?). split_and!; [lia|done..]. Qed.

Lemma coverage_wf_covered lo size l x : coverage_wf lo size l → covered l x → lo < x < size.
Proof.
  revert lo. induction l as [|r l IH]; intros lo; cbn; [by rewrite covered_nil|].
  intros (?&?&?&Hl) [Hr|Hx]%covered_cons.
  - unfold ByteRange.covers in Hr. lia.
  - specialize (IH _ Hl Hx). lia.
Qed.

Lemma coverage_wf_starts lo size l : coverage_wf lo size l → Forall (λ e, lo < ByteRange.start e) l.
Proof.
  revert lo. induction l as [|r l IH]; intros lo; cbn; [constructor|].
  intros (?&?&?&Hl). constructor; [done|]. apply (Forall_impl _ _ _ (IH _ Hl)). cbn; intros; lia.
Qed.

Lemma coverage_wf_ends lo size l : coverage_wf lo size l → Forall (λ e, lo < ByteRange.end_ e) l.
Proof.
  revert lo. induction l as [|r l IH]; intros lo; cbn; [constructor|].
  intros (?&?&?&Hl). constructor; [lia|]. apply (Forall_impl _ _ _ (IH _ Hl)). cbn; intros; lia.
Qed.

(** What [absorb] makes of the entries that end at or after its start. *)
Lemma absorb_spec lo size l s t n s' t' :
  coverage_wf lo size l → Forall (λ e, s ≤ ByteRange.end_ e) l → s < t → t ≤ size →
  FilePart.absorb l s t = (n, s', t') →
  s' ≤ s ∧ t ≤ t' ≤ size ∧ coverage_wf t' size (drop n l) ∧
  (∀ b, b < s → Forall (λ e, b < ByteRange.start e) l → b < s') ∧
  (∀ x, s' ≤ x < t' ↔ s ≤ x < t ∨ covered (take n l) x).
Proof.
  revert lo s t n s' t'. induction l as [|e l IH]; intros lo s t n s' t' Hl Hends Hst Ht; cbn.
  { intros [= <- <- <-]. setoid_rewrite covered_nil. split_and!; [lia|lia|lia|done|naive_solver|naive_solver]. }
  destruct Hl as (?&?&?&Hl). apply Forall_cons in Hends as [He Hends]. case_decide.
  - intros [= <- <- <-]. setoid_rewrite covered_nil. cbn.
    split_and!; [lia|lia|lia|lia|lia|lia|done|naive_solver|naive_solver].
  - destruct (FilePart.absorb l _ _) as [[n1 s1] t1] eqn:Ha. intros [= <- <- <-].
    eapply IH in Ha as (?&?&?&Hlo&Hx); [|done| |lia|lia].
    2:{ apply (Forall_impl _ _ _ Hends). cbn; intros; lia. }
    cbn. split_and!; [lia|lia|lia|done| |].
    + intros b ? [? ?]%Forall_cons. apply Hlo; [lia|done].
    + intros x. rewrite Hx, covered_cons. unfold ByteRange.covers.
      assert (Z.min s (ByteRange.start e) ≤ x < Z.max t (ByteRange.end_ e) ↔
              s ≤ x < t ∨ ByteRange.start e ≤ x < ByteRange.end_ e) as -> by lia.
      tauto.
Qed.

(** The coverage after a plan: still ascending with gaps, larger by exactly the range. *)
Lemma plan_spec lo size l s t n s' t' :
  coverage_wf lo size l → lo < s < t → t ≤ size →
  FilePart.absorb (drop (FilePart.before s l) l) s t = (n, s', t') →
  let l' := take (FilePart.before s l) l ++ [ByteRange.Make s' t'] ++ drop (FilePart.before s l + n) l in
  coverage_wf lo size l' ∧ ∀ x, covered l' x ↔ covered l x ∨ s ≤ x < t.
Proof.
  revert lo. induction l as [|e l IH]; intros lo Hl Hs Ht; cbn.
  { intros [= <- <- <-]. split; [cbn; split_and!; lia || done|]. intros x.
    autorewrite with fhd. unfold ByteRange.covers; cbn. tauto. }
  pose proof Hl as (?&?&?&Hrest). case_decide.
  - intros Ha. destruct (IH (ByteRange.end_ e)) as [Hwf Hc]; [done|lia|done|done|].
    split; [cbn; by split_and!|]. intros x. cbn. rewrite !covered_cons. setoid_rewrite Hc. tauto.
  - intros Ha. eapply absorb_spec in Ha as (?&?&?&Hlo&Hx); [|done| |lia|lia].
    2:{ constructor; [lia|]. apply coverage_wf_ends in Hrest. apply (Forall_impl _ _ _ Hrest).
        cbn; intros; lia. }
    split.
    + cbn. split_and!; [|lia|lia|done]. apply Hlo; [lia|]. by apply (coverage_wf_starts _ size).
    + intros x. cbn [take Nat.add app]. rewrite covered_cons. unfold ByteRange.covers at 1; cbn [ByteRange.start ByteRange.end_].
      rewrite Hx. rewrite <-(take_drop n (e :: l)) at 3. rewrite covered_app. tauto.
Qed.

(** One entry from zero to the size is the only way to cover every byte. *)
Lemma covers_all size l :
  0 < size → coverage_wf (-1) size l →
  ((∀ x, 0 ≤ x < size → covered l x) ↔ l = [ByteRange.Make 0 size]).
Proof.
  intros Hsize Hl. split.
  2:{ intros -> x Hx. apply covered_cons. left. done. }
  intros Hall. destruct l as [|[s e] l]; cbn in *; [exfalso; apply (covered_nil 0), Hall; lia|].
  destruct Hl as (?&?&?&Hl).
  assert (s = 0) as ->.
  { destruct (proj1 (covered_cons _ _ _) (Hall 0 ltac:(lia))) as [[? ?]|Hc]; cbn in *; [lia|].
    apply (coverage_wf_covered _ _ _ _ Hl) in Hc. lia. }
  assert (e = size) as ->.
  { destruct (decide (e = size)); [done|].
    destruct (proj1 (covered_cons _ _ _) (Hall e ltac:(lia))) as [[? ?]|Hc]; cbn in *; [lia|].
    apply (coverage_wf_covered _ _ _ _ Hl) in Hc. lia. }
  destruct l as [|r l]; [done|]. destruct Hl as (?&?&?&?). lia.
Qed.

(** ** Hashing *)

Lemma read_loop_Ok fuel ino off left s bytes s' :
  0 ≤ off → 0 ≤ left ≤ Z.of_nat fuel * BUFFER → read_loop fuel ino off left s = (Ok bytes, s') →
  bytes = slice off left (Fs.content s ino) ∧ Z.of_nat (length bytes) = left ∧ same s s'.
Proof.
  revert off left s bytes s'. induction fuel as [|fuel IH]; intros off left s bytes s' Ho Hl Hr; cbn in Hr.
  { unfold_monad. simplify_eq. assert (left = 0) as -> by lia. by split_and!. }
  case_decide; [unfold_monad; simplify_eq; assert (left = 0) as -> by lia; by split_and!|].
  unfold_monad. destruct (read_exact _ _ _ s) as [[b1|] s1] eqn:Hb; simplify_eq/=.
  apply read_exact_Ok in Hb as (Hb & Hlen & Hs1).
  destruct (read_loop _ _ _ _ s1) as [[b2|] s2] eqn:Hb2; simplify_eq/=.
  apply IH in Hb2 as (-> & Hlen2 & Hs2); [|unfold BUFFER in *; lia|unfold BUFFER in *; lia].
  rewrite (same_content _ _ _ Hs1) in *.
  split_and!.
  - rewrite slice_app by (unfold BUFFER; lia). f_equal. lia.
  - rewrite length_app. lia.
  - by etrans.
Qed.

Lemma chunks_enough n : 0 ≤ n → n ≤ Z.of_nat (chunks n) * BUFFER.
Proof.
  intros. unfold chunks. assert (0 ≤ n / BUFFER) by (apply Z.div_pos; unfold BUFFER; lia).
  pose proof (Z.mod_pos_bound n BUFFER ltac:(unfold BUFFER; lia)).
  pose proof (Z.div_mod n BUFFER ltac:(unfold BUFFER; lia)). unfold BUFFER in *. lia.
Qed.

Lemma keeps_read_loop fuel ino off left : keeps (read_loop fuel ino off left).
Proof.
  revert off left. induction fuel as [|fuel IH]; intros off left; cbn; [apply keeps_ret|].
  case_decide; [apply keeps_ret|]. auto 10 with keeps.
Qed.
#[export] Hint Resolve keeps_read_loop : keeps.

Lemma keeps_io {A} (m : fs_st A) : keeps m → keeps (io m).
Proof. intros Hm s. unfold io. specialize (Hm s). by destruct (m s). Qed.
#[export] Hint Resolve keeps_io : keeps.

Lemma io_Ok {A} (m : fs_st A) s a s' : io m s = (Ok a, s') → m s = (Ok a, s').
Proof. unfold io. destruct (m s) as [[]]; cbn; naive_solver. Qed.
Lemma io_Err {A} (m : fs_st A) s e s' : io m s = (Err e, s') → ∃ k, e = StorageError.Io k ∧ m s = (Err k, s').
Proof. unfold io. destruct (m s) as [[]]; cbn; naive_solver. Qed.

Lemma read_loop_quiet fuel ino off left s :
  quiet s → 0 ≤ off → 0 ≤ left ≤ Z.of_nat fuel * BUFFER →
  off + left ≤ Z.of_nat (length (Fs.content s ino)) →
  ∃ s', read_loop fuel ino off left s = (Ok (slice off left (Fs.content s ino)), s') ∧ same s s' ∧ quiet s'.
Proof.
  revert off left s. induction fuel as [|fuel IH]; intros off left s Hq Ho Hl Hlen; cbn.
  { exists s. assert (left = 0) as -> by lia. by split_and!. }
  case_decide; [exists s; assert (left = 0) as -> by lia; by split_and!|].
  unfold_monad. unfold read_exact. rewrite syscall_quiet by done. cbn.
  rewrite decide_True by (apply slice_length; unfold BUFFER; lia).
  destruct (IH (off + Z.min left BUFFER) (left - Z.min left BUFFER) s) as (s2 & -> & Hs & Hq2);
    [done|unfold BUFFER in *; lia..|].
  exists s2. split_and!; [|done|done]. rewrite slice_app by (unfold BUFFER; lia).
  do 3 f_equal. lia.
Qed.

Section Hashing.
Context (sha256 : list Z → digest32).

Lemma hash_bytes_Ok ino off len s d s' :
  0 ≤ off → 0 ≤ len → hash_bytes sha256 ino off len s = (Ok d, s') →
  d = sha256 (slice off len (Fs.content s ino)) ∧ Z.of_nat (length (slice off len (Fs.content s ino))) = len ∧
  same s s'.
Proof.
  intros Ho Hl Hr. unfold hash_bytes in Hr. unfold_monad.
  destruct (io access s) as [[[]|] s1] eqn:Ha; simplify_eq.
  apply io_Ok, keeps_run in Ha; [|apply keeps_access].
  destruct (io _ s1) as [[b|] s2] eqn:Hb; simplify_eq.
  apply io_Ok, read_loop_Ok in Hb as (-> & Hlen & Hs); [|done|by auto using chunks_enough].
  rewrite (same_content _ _ _ Ha) in *. split_and!; [done|done|by etrans].
Qed.

Lemma keeps_hash_bytes ino off len : keeps (hash_bytes sha256 ino off len).
Proof. unfold hash_bytes. auto 10 with keeps. Qed.

Lemma hash_bytes_quiet ino off len s :
  quiet s → 0 ≤ off → 0 ≤ len → off + len ≤ Z.of_nat (length (Fs.content s ino)) →
  ∃ s', hash_bytes sha256 ino off len s = (Ok (sha256 (slice off len (Fs.content s ino))), s') ∧
    same s s' ∧ quiet s'.
Proof.
  intros Hq Ho Hl Hlen. unfold hash_bytes. unfold_monad. unfold io at 1, access. rewrite syscall_quiet by done.
  cbn. unfold io. destruct (read_loop_quiet (chunks len) ino off len s) as (s' & -> & ? & ?);
    [done|done|by auto using chunks_enough|done|]. by exists s'.
Qed.
End Hashing.
#[export] Hint Resolve keeps_hash_bytes : keeps.
