(* ===== verification/StorageSteps.v ===== *)
(** * What each method of a part did

    One lemma per method of [SegmentFile]: from the result and the final state, the
    guards that held, what happened to the handle and what to the files. *)

From S2P Require Import Prelude.
From S2P Require Import Domain.
From S2P Require Import Persistence.
From S2P Require Import PersistenceInv.
From S2P Require Import Files.
From S2P Require Import FilesInv.
From S2P Require Import StorageFile.
From S2P Require Import StorageInv.
Import FilePart.

Ltac open_part :=
  unfold self, update, on_fs in *; unfold_monad; cbn beta iota zeta delta [part fs] in *.

(** The contents of [ino] are the only ones that may differ, and no name does. *)
Definition rewritten (ino : nat) (new : list Z) (s s' : Fs.t) : Prop :=
  Fs.nodes s' = Fs.nodes s ∧ Fs.content s' ino = new ∧
  ∀ i, i ≠ ino → Fs.content s' i = Fs.content s i.

Lemma same_rewritten ino s s' : same s s' → rewritten ino (Fs.content s ino) s s'.
Proof. intros Hs. split_and!; [by destruct Hs|by apply same_content|intros; by apply same_content]. Qed.

Lemma write_all_rewritten ino off bytes s r s' :
  write_all ino off bytes s = (r, s') →
  ∃ n, rewritten ino (overwrite off (take n bytes) (Fs.content s ino)) s s' ∧ (r = Ok tt → take n bytes = bytes).
Proof.
  intros (n & Hn & _ & Hd & Hok)%write_all_run. exists n. split; [|done].
  unfold rewritten, Fs.content at 1 3. rewrite Hd. split_and!; [done|by rewrite lookup_insert_eq|].
  intros. by rewrite lookup_insert_ne.
Qed.

(** The handle while a write is under way, and after it. *)
Definition dirty (p : t) : t := set_verified None (set_synchronized false (set_poisoned true p)).

Section Runs.
Context (sha256 : list Z → digest32).

Lemma write_at_run off bytes w r w' :
  write_at off bytes w = (r, w') →
  (w' = w ∧ (r = Ok tt → bytes = [] ∧ off ≤ PartSpec.size (spec (part w)))) ∨
  ∃ rng plan, bytes ≠ [] ∧ poisoned (part w) = false ∧ sealed (part w) = false ∧
    range (part w) off (Z.of_nat (length bytes)) = Ok rng ∧
    existsb (λ e, bool_decide (ByteRange.start e < ByteRange.end_ rng)
        && bool_decide (ByteRange.start rng < ByteRange.end_ e)) (protected (part w)) = false ∧
    coverage_plan (part w) rng = Ok plan ∧
    ((∃ k, r = Err (StorageError.Io k) ∧ part w' = dirty (part w) ∧
        (same (fs w) (fs w') ∨ ∃ n, rewritten (file (part w))
          (overwrite off (take n bytes) (Fs.content (fs w) (file (part w)))) (fs w) (fs w'))) ∨
     (r = Ok tt ∧ part w' = set_poisoned false (add_coverage plan (dirty (part w))) ∧
        rewritten (file (part w)) (overwrite off bytes (Fs.content (fs w) (file (part w)))) (fs w) (fs w'))).
Proof.
  destruct w as [p s]. unfold write_at, healthy. intros Hr. open_part.
  destruct (poisoned p) eqn:Hp; cbn in Hr; [simplify_eq; by left|].
  destruct (sealed p) eqn:Hse; cbn in Hr; [simplify_eq; by left|].
  destruct (decide (bytes = [])) as [->|Hne].
  { left. case_bool_decide; simplify_eq; split; [done|done|done|]. intros _; split; [done|lia]. }
  destruct (range p off _) as [rng|] eqn:Hrng; [|simplify_eq; by left].
  destruct (existsb _ _) eqn:Hex; [simplify_eq; by left|].
  destruct (coverage_plan p rng) as [plan|] eqn:Hplan; [|simplify_eq; by left].
  right. exists rng, plan. split_and!; [done..|]. cbn in Hr.
  destruct (io access s) as [[[]|] s1] eqn:Ha; cbn in Hr.
  2:{ pose proof (keeps_run _ _ _ _ (keeps_io _ keeps_access) Ha).
      apply io_Err in Ha as (k & -> & _). simplify_eq. left. exists k. by auto. }
  apply keeps_run in Ha; [|auto with keeps].
  destruct (io (write_all _ _ _) s1) as [[[]|] s2] eqn:Hw; cbn in Hr; simplify_eq.
  - right. apply io_Ok, write_all_rewritten in Hw as (n & (?&?&?) & Htake). rewrite Htake in * by done.
    split_and!; [done|done|]. cbn. rewrite (same_content _ _ _ Ha) in *.
    destruct Ha as (?&?&?). split_and!; [congruence|done|]. intros. rewrite <-(same_content s s1) by done. auto.
  - left. apply io_Err in Hw as (k & -> & Hw). apply write_all_rewritten in Hw as (n & (?&?&?) & _).
    exists k. split_and!; [done|done|]. right. exists n. cbn. rewrite (same_content _ _ _ Ha) in *.
    pose proof Ha as (?&?&?). split_and!; [congruence|done|]. intros. rewrite <-(same_content s s1) by done. auto.
Qed.

Lemma sync_run w r w' :
  sync w = (r, w') → same (fs w) (fs w') ∧
  (w' = w ∧ is_ok r = false ∨
   poisoned (part w) = false ∧
   (part w' = set_poisoned true (part w) ∧ (∃ k, r = Err (StorageError.Io k)) ∨
    part w' = set_poisoned false (set_synchronized true (set_poisoned true (part w))) ∧ r = Ok tt)).
Proof.
  destruct w as [p s]. unfold sync, healthy. intros Hr. open_part.
  destruct (poisoned p) eqn:Hp; cbn in Hr; [simplify_eq; split; [done|by left]|].
  destruct (io access s) as [r1 s1] eqn:Ha. pose proof (keeps_run _ _ _ _ (keeps_io _ keeps_access) Ha).
  destruct r1 as [[]|e]; cbn in Hr; simplify_eq; (split; [done|]); right; (split; [done|]).
  - by right.
  - apply io_Err in Ha as (?&->&_). left. eauto.
Qed.

(** *** Reading methods *)

Definition reads {A} (m : part_st A) : Prop := ∀ w, part (m w).2 = part w ∧ same (fs w) (fs (m w).2).

Lemma reads_bind {A B} (m : part_st A) (k : A → part_st B) :
  reads m → (∀ a, reads (k a)) → reads (m ≫= k).
Proof.
  intros Hm Hk w. unfold mbind, st_bind. specialize (Hm w). destruct (m w) as [[a|e] w']; cbn in *; [|done].
  destruct Hm, (Hk a w'). split; [congruence|by etrans].
Qed.
Lemma reads_ret {A} (a : A) : reads (mret a).
Proof. done. Qed.
Lemma reads_lift {A} (r : result StorageError.t A) : reads (lift r).
Proof. done. Qed.
Lemma reads_on_fs {A} (m : st Fs.t StorageError.t A) : keeps m → reads (on_fs m).
Proof. intros Hm [p s]. unfold on_fs, zoom; cbn. specialize (Hm s). by destruct (m s). Qed.
Lemma reads_self : reads self.
Proof. done. Qed.
#[local] Hint Resolve reads_bind reads_ret reads_lift reads_on_fs reads_self : keeps.

Lemma reads_hash start len : reads (hash sha256 start len).
Proof. unfold hash. auto 10 with keeps. Qed.
#[local] Hint Resolve reads_hash : keeps.
Lemma reads_hash_range r : reads (hash_range sha256 r).
Proof. unfold hash_range. auto 10 with keeps. Qed.
Lemma reads_rehash size record : reads (rehash sha256 size record).
Proof. induction record as [|[r d] record IH]; cbn; auto 10 with keeps. Qed.

Lemma reads_run {A} (m : part_st A) w r w' : reads m → m w = (r, w') → part w' = part w ∧ same (fs w) (fs w').
Proof. intros Hm Hr. specialize (Hm w). by rewrite Hr in Hm. Qed.

Lemma hash_Ok start len w d w' :
  0 ≤ start → 0 ≤ len → hash sha256 start len w = (Ok d, w') →
  d = sha256 (slice start len (Fs.content (fs w) (file (part w)))) ∧
  part w' = part w ∧ same (fs w) (fs w').
Proof.
  destruct w as [p s]. intros ?? Hr. pose proof (reads_run _ _ _ _ (reads_hash _ _) Hr) as [? ?].
  unfold hash in Hr. open_part. destruct (hash_bytes _ _ _ _ s) as [[d'|] s'] eqn:Hh; simplify_eq/=.
  apply hash_bytes_Ok in Hh as (->&_&_); [|done|done]. by split_and!.
Qed.

Lemma hash_quiet start len w :
  quiet (fs w) → 0 ≤ start → 0 ≤ len → start + len ≤ Z.of_nat (length (Fs.content (fs w) (file (part w)))) →
  ∃ s', hash sha256 start len w =
      (Ok (sha256 (slice start len (Fs.content (fs w) (file (part w))))), World (part w) s') ∧
    same (fs w) s' ∧ quiet s'.
Proof.
  destruct w as [p s]; cbn. intros Hq ???. destruct (hash_bytes_quiet sha256 (file p) start len s) as (s'&Hh&?&?); [done..|].
  exists s'. split; [|done]. unfold hash. open_part. by rewrite Hh.
Qed.

Lemma recover_extent_run rng digest w r w' :
  ByteRange.wf rng → recover_extent sha256 rng digest w = (r, w') →
  same (fs w) (fs w') ∧
  (part w' = part w ∧ is_ok r = false ∨
   r = Ok tt ∧ poisoned (part w) = false ∧ ByteRange.end_ rng ≤ PartSpec.size (spec (part w)) ∧
   digest = sha256 (slice (ByteRange.start rng) (ByteRange.len rng) (Fs.content (fs w) (file (part w)))) ∧
   ∃ plan, coverage_plan (part w) rng = Ok plan ∧
     part w' = add_coverage plan (set_protected (protected (part w) ++ [rng]) (part w))).
Proof.
  intros Hwf. destruct w as [p s]. unfold recover_extent, healthy. intros Hr. open_part.
  destruct (poisoned p) eqn:Hp; [simplify_eq; split; [done|by left]|]. case_bool_decide; [simplify_eq; split; [done|by left]|].
  destruct (coverage_plan p rng) as [plan|] eqn:Hplan; [|simplify_eq; split; [done|by left]].
  destruct (hash _ _ _ _) as [rh wh] eqn:Hh. pose proof (reads_run _ _ _ _ (reads_hash _ _) Hh) as [Hpart ?]. cbn in *.
  destruct rh as [found|]; [|simplify_eq; split; [done|by left]].
  apply hash_Ok in Hh as (Hf&_&_); [|unfold ByteRange.wf, ByteRange.len in *; lia..]. cbn in Hf.
  case_bool_decide; [simplify_eq; split; [done|by left]|].
  case_bool_decide; [simplify_eq; split; [done|by left]|]. simplify_eq/=. split; [done|]. right.
  split_and!; [done|done|lia|done|]. by exists plan.
Qed.

(** *** Verification *)

Lemma reach_covers l from to x : reach l from = Ok to → from ≤ x < to → covered l x.
Proof.
  revert from. induction l as [|r l IH]; intros from; cbn; unfold_monad; [naive_solver lia|].
  case_bool_decide; [done|]. intros Hl Hx. apply covered_cons. unfold ByteRange.covers.
  destruct (decide (x < ByteRange.end_ r)); [left; lia|]. right. apply (IH _ Hl). lia.
Qed.

Lemma reach_complete size l from :
  StronglySorted (key_le ByteRange.start) l →
  Forall (λ r, ByteRange.wf r ∧ ByteRange.end_ r ≤ size) l → from ≤ size →
  (∀ x, from ≤ x < size → covered l x) → reach l from = Ok size.
Proof.
  intros Hs. revert from. induction Hs as [|r l Hs IH Hr]; intros from Hall Hfrom Hc; cbn.
  { destruct (decide (from = size)) as [->|]; [done|]. exfalso. apply (covered_nil from), Hc. lia. }
  apply Forall_cons in Hall as [[Hwf Hend] Hall]. unfold ByteRange.wf in Hwf. unfold_monad.
  case_bool_decide as Hgap.
  - exfalso. destruct (proj1 (covered_cons _ _ _) (Hc from ltac:(lia))) as [[? ?]|Hx]; [lia|].
    destruct Hx as (q & Hq & ? & ?). rewrite Forall_forall in Hr.
    specialize (Hr _ Hq). unfold key_le in Hr. lia.
  - apply IH; [done|lia|]. intros x Hx.
    destruct (proj1 (covered_cons _ _ _) (Hc x ltac:(lia))) as [[? ?]|?]; [lia|done].
Qed.

Lemma covered_perm l k x : l ≡ₚ k → covered l x ↔ covered k x.
Proof. intros Hp. unfold covered. by setoid_rewrite Hp. Qed.

(** The bytes agree with a record of ranges and digests. *)
Definition agrees (size : Z) (content : list Z) (record : list (ByteRange.t * digest32)) : Prop :=
  Forall (λ e, ByteRange.end_ e.1 ≤ size ∧
    e.2 = sha256 (slice (ByteRange.start e.1) (ByteRange.len e.1) content)) record.

Lemma rehash_Ok size record w w' :
  Forall (λ e, ByteRange.wf e.1) record → rehash sha256 size record w = (Ok tt, w') →
  agrees size (Fs.content (fs w) (file (part w))) record.
Proof.
  revert w. induction record as [|[r d] record IH]; intros w Hwf; cbn; unfold agrees; [constructor|].
  unfold_monad. apply Forall_cons in Hwf as [Hr Hwf]. case_bool_decide; [done|].
  destruct (hash _ _ _ w) as [[found|] w1] eqn:Hh; [|done].
  apply hash_Ok in Hh as (Hf & Hp & Hs); [|unfold ByteRange.wf, ByteRange.len in *; cbn in *; lia..].
  case_bool_decide as Hd; [done|]. intros Hrec. constructor; [cbn; split; [lia|congruence]|].
  specialize (IH w1 Hwf Hrec). by rewrite Hp, (same_content _ _ _ Hs) in IH.
Qed.

Lemma rehash_quiet size record w :
  quiet (fs w) → Forall (λ e, ByteRange.wf e.1) record →
  size ≤ Z.of_nat (length (Fs.content (fs w) (file (part w)))) →
  agrees size (Fs.content (fs w) (file (part w))) record →
  ∃ s', rehash sha256 size record w = (Ok tt, World (part w) s') ∧ same (fs w) s' ∧ quiet s'.
Proof.
  destruct w as [p s]; cbn. revert s. induction record as [|[r d] record IH]; intros s Hq Hwf Hlen Ha; cbn.
  { by exists s. }
  apply Forall_cons in Hwf as [Hr Hwf]. apply Forall_cons in Ha as [[Hend Hd] Ha]. cbn in *. unfold_monad.
  rewrite bool_decide_eq_false_2 by lia.
  unfold ByteRange.wf in Hr. destruct (hash_quiet (ByteRange.start r) (ByteRange.len r) (World p s)) as (s1&->&Hs1&Hq1);
    cbn in *; [done|unfold ByteRange.len; lia..|].
  rewrite bool_decide_eq_false_2 by (rewrite Hd; tauto).
  destruct (IH s1) as (s2&->&Hs2&Hq2); [done|done|by rewrite (same_content _ _ _ Hs1)..|].
  exists s2. split_and!; [done|by etrans|done].
Qed.

(** What a digest is worth: the record attests every byte of a complete, synchronized
    part of the right length, and the digest is that of the bytes. *)
Record attested (p : t) (content : list Z) (expected : option digest32)
    (record : list (ByteRange.t * digest32)) (digest : digest32) : Prop := {
  at_complete : complete p = true;
  at_synchronized : synchronized p = true;
  at_length : Z.of_nat (length content) = PartSpec.size (spec p);
  at_recorded : ∀ x, 0 ≤ x < PartSpec.size (spec p) → covered record.*1 x;
  at_agrees : agrees (PartSpec.size (spec p)) content record;
  at_digest : digest = sha256 content;
  at_expected : expected = None ∨ expected = Some digest }.

Lemma verify_run expected record w r w' :
  Forall (λ e, ByteRange.wf e.1) record → verify sha256 expected record w = (r, w') →
  same (fs w) (fs w') ∧
  (w' = w ∧ poisoned (part w) = true ∧ is_ok r = false ∨
   poisoned (part w) = false ∧
   (part w' = set_verified None (part w) ∧ is_ok r = false ∨
    ∃ d, r = Ok d ∧ part w' = set_verified (Some d) (part w) ∧
      attested (part w) (Fs.content (fs w) (file (part w))) expected record d)).
Proof.
  intros Hwf. destruct w as [p s]. unfold verify, healthy. intros Hr. open_part.
  destruct (poisoned p) eqn:Hp; [simplify_eq; split; [done|by left]|]. cbn in Hr.
  assert (∀ e (s' : Fs.t), same s s' → (Err e, World (set_verified None p) s') = (r, w') →
    same s (fs w') ∧ (w' = World p s ∧ false = true ∧ is_ok r = false ∨ false = false ∧
      (part w' = set_verified None p ∧ is_ok r = false ∨ ∃ d, r = Ok d ∧ part w' = set_verified (Some d) p ∧
        attested p (Fs.content s (file p)) expected record d))) as Hfail.
  { intros e s' Hs [= <- <-]. split; [done|]. right. split; [done|]. by left. }
  destruct (complete p) eqn:Hc, (synchronized p) eqn:Hsy; cbn in Hr; try by eapply (Hfail _ s).
  destruct (io (file_len _) s) as [rl s1] eqn:Hl. cbn in Hr.
  assert (same s s1) as Hs1 by (eapply keeps_run; [|exact Hl]; auto with keeps).
  destruct rl as [len|]; [|by eapply Hfail]. apply io_Ok, file_len_Ok in Hl as [Hlen _].
  case_bool_decide as Hlens; [by eapply Hfail|]. cbn in Hr, Hlens.
  destruct (reach _ 0) as [reached|] eqn:Hreach; [|by eapply Hfail].
  case_bool_decide as Hrd; [by eapply Hfail|]. cbn in Hrd.
  destruct (rehash _ _ _ _) as [rr w2] eqn:Hre. pose proof (reads_run _ _ _ _ (reads_rehash _ _) Hre) as [Hp2 Hs2].
  destruct w2 as [p2 s2]. cbn in Hp2, Hs2. subst p2. assert (same s s2) as Hs by by etrans.
  destruct rr as [[]|]; [|by eapply Hfail]. apply rehash_Ok in Hre; [|done]. cbn in Hre.
  destruct (hash _ _ _ _) as [rh w3] eqn:Hh. pose proof (reads_run _ _ _ _ (reads_hash _ _) Hh) as [Hp3 Hs3].
  destruct w3 as [p3 s3]. cbn in Hp3, Hs3. subst p3. assert (same s s3) as Hs' by by etrans.
  destruct rh as [d|]; [|by eapply Hfail]. cbn in Hh.
  apply hash_Ok in Hh as (Hd & _ & _); [|lia..]. cbn in Hd.
  destruct (is_some_and _ _) eqn:Hex; [by eapply Hfail|].
  rewrite (same_content _ _ _ Hs1) in Hre. rewrite (same_content _ _ _ Hs) in Hd.
  simplify_eq/=. split; [done|]. right. split; [done|]. right. eexists. split_and!; [done|done|].
  constructor; [done|done|done| |done| |].
  - intros x Hx. eapply covered_perm; [symmetry; apply (sort_by_key_perm ByteRange.start)|].
    eapply reach_covers; [done|]. lia.
  - rewrite <-Hlens. by rewrite slice_whole.
  - destruct expected as [e|]; [|by left]. right. cbn in Hex. case_bool_decide as He; [done|].
    by rewrite He.
Qed.

(** Without I/O failures, evidence is all [verify] asks for. *)
Lemma verify_quiet expected record w d :
  quiet (fs w) → poisoned (part w) = false → 0 ≤ PartSpec.size (spec (part w)) →
  Forall (λ e, ByteRange.wf e.1) record →
  attested (part w) (Fs.content (fs w) (file (part w))) expected record d →
  ∃ s', verify sha256 expected record w = (Ok d, World (set_verified (Some d) (part w)) s') ∧ same (fs w) s'.
Proof.
  destruct w as [p s]; cbn. intros Hq Hp Hsize Hwf [Hc Hsy Hlen Hrec Ha -> Hex].
  unfold verify, healthy. open_part. rewrite Hp. cbn. rewrite Hc, Hsy. cbn.
  unfold io, file_len. rewrite syscall_quiet by done. cbn.
  rewrite bool_decide_eq_false_2 by (cbn; lia).
  rewrite (reach_complete (PartSpec.size (spec p))).
  2:{ apply sort_by_key_sorted. }
  2:{ rewrite sort_by_key_perm. apply Forall_fmap. unfold agrees in Ha.
      eapply Forall_impl; [apply Forall_and; split; [exact Hwf|exact Ha]|]. cbn. tauto. }
  2:{ lia. }
  2:{ intros x Hx. eapply covered_perm; [apply sort_by_key_perm|]. by apply Hrec. }
  rewrite bool_decide_eq_false_2 by tauto.
  destruct (rehash_quiet (PartSpec.size (spec p)) record (World (set_verified None p) s)) as (s2&->&Hs2&Hq2);
    [done|done|cbn; lia|done|]. cbn in *.
  destruct (hash_quiet 0 (PartSpec.size (spec p)) (World (set_verified None p) s2)) as (s3&->&Hs3&_); cbn;
    [done|lia|lia|rewrite (same_content _ _ _ Hs2); lia|].
  rewrite (same_content _ _ _ Hs2), <-Hlen, slice_whole.
  destruct Hex as [-> | ->]; cbn; [|rewrite bool_decide_eq_false_2 by tauto];
    (exists s3; split; [done|by etrans]).
Qed.

(** *** Publishing *)

(** Only the name [n] may differ, and no content does. *)
Definition touches (n : Name) (s s' : Fs.t) : Prop :=
  (∀ m, m ≠ n → Fs.nodes s' !! m = Fs.nodes s !! m) ∧ Fs.data s' = Fs.data s.

#[global] Instance touches_preorder n : PreOrder (touches n).
Proof. split; [by split|]. intros ??? [H1 ?] [H2 ?]. split; [|congruence]. intros. by rewrite H2, H1. Qed.

Lemma same_touches n s s' : same s s' → touches n s s'.
Proof. intros (Hn&?&_). split; [|done]. intros. by rewrite Hn. Qed.

Lemma touches_content n s s' i : touches n s s' → Fs.content s' i = Fs.content s i.
Proof. unfold Fs.content. by intros [_ ->]. Qed.

Lemma remove_file_touches n s : touches n s (remove_file n s).2.
Proof.
  destruct (remove_file n s) as [r s'] eqn:Hr. apply remove_file_run in Hr as (Hd & _ & [Hn|Hn]); cbn;
    (split; [intros m Hm; rewrite Hn|done]); [done|by rewrite lookup_delete_ne].
Qed.

Lemma rewritten_trans ino a b s1 s2 s3 :
  rewritten ino a s1 s2 → rewritten ino b s2 s3 → rewritten ino b s1 s3.
Proof. intros (?&?&H1) (?&?&H2). split_and!; [congruence|done|]. intros. by rewrite H2, H1. Qed.

Lemma access_run s r s' : io access s = (r, s') → same s s'.
Proof. apply keeps_run; auto with keeps. Qed.

Lemma seal_run w r w' :
  seal w = (r, w') → ∃ new,
    rewritten (metadata (part w)) new (fs w) (fs w') ∧
    (new = Fs.content (fs w) (metadata (part w)) ∨
     ∃ n, new = overwrite 33 (take n [1]) (Fs.content (fs w) (metadata (part w)))) ∧
    (is_ok r = true → new = overwrite 33 [1] (Fs.content (fs w) (metadata (part w)))) ∧
    part w' = (if is_ok r then set_sealed true (set_poisoned true (part w)) else set_poisoned true (part w)).
Proof.
  destruct w as [p s]. unfold seal. intros Hr. open_part. cbn in Hr.
  destruct (io access s) as [[[]|] s1] eqn:H1; apply access_run in H1.
  2:{ simplify_eq/=. eexists. split_and!; [by apply same_rewritten|by left|done|done]. }
  cbn in Hr. destruct (io (write_all _ _ _) s1) as [r2 s2] eqn:H2.
  assert (∃ r2', write_all (metadata p) 33 [1] s1 = (r2', s2) ∧ is_ok r2 = is_ok r2') as (r2'&Hw&Hok).
  { unfold io in H2. destruct (write_all _ _ _ s1) as [[] ?]; simplify_eq/=; eauto. }
  apply write_all_rewritten in Hw as (n & Hw & Hn). rewrite (same_content _ _ _ H1) in Hw.
  pose proof (rewritten_trans _ _ _ _ _ _ (same_rewritten _ _ _ H1) Hw) as Hs2.
  destruct r2 as [[]|].
  2:{ simplify_eq/=. eexists. split_and!; [done|by eauto|done|done]. }
  destruct r2' as [[]|]; [|done]. rewrite Hn in * by done. cbn in Hr.
  destruct (io access s2) as [[[]|] s3] eqn:H3; apply access_run in H3; simplify_eq/=;
    (exists (overwrite 33 [1] (Fs.content s (metadata p))); split_and!; [|right; by exists 1%nat|done|done]);
    (eapply rewritten_trans; [done|]; pose proof Hs2 as (_&<-&_); by apply same_rewritten).
Qed.

Lemma stage_run expected w r w' :
  0 ≤ PartSpec.size (spec (part w)) → path (part w) ≠ staged_name (spec (part w)) →
  stage sha256 expected w = (r, w') →
  touches (staged_name (spec (part w))) (fs w) (fs w') ∧
  (r = Ok tt ∧ part w' = part w ∧ (∃ ino,
     Fs.nodes (fs w) !! path (part w) = Some (File ino) ∧
     Fs.nodes (fs w') !! staged_name (spec (part w)) = Some (File ino) ∧
     expected = sha256 (slice 0 (PartSpec.size (spec (part w))) (Fs.content (fs w') ino))) ∨
   is_ok r = false ∧
     (part w' = set_sealed false (set_poisoned false (part w)) ∨
      part w' = set_verified None (set_sealed false (set_poisoned false (part w))))).
Proof.
  destruct w as [p s]; cbn. intros Hsize Hne. unfold stage; cbn [part fs].
  set (staged := staged_name (spec p)) in *.
  pose proof (remove_file_touches staged s) as Ht0. set (s0 := (remove_file staged s).2) in *.
  destruct (hard_link (path p) staged s0) as [[[]|] s1] eqn:Hl.
  2:{ intros [= <- <-]. apply hard_link_Err in Hl. split; [etrans; [done|by apply same_touches]|]. right. by auto. }
  apply hard_link_Ok in Hl as (ino & Hino & _ & Hn1 & Hd1 & _).
  assert (touches staged s s1) as Ht1.
  { etrans; [done|]. split; [|done]. intros m Hm. by rewrite Hn1, lookup_insert_ne. }
  destruct ((ino ← io (open staged); _) s1) as [proved s2] eqn:Hp. unfold_monad.
  assert (same s1 s2) as Hs2.
  { destruct (io (open staged) s1) as [[i|] s1'] eqn:Ho; simplify_eq;
      (etrans; [eapply keeps_run; [|exact Ho]; auto with keeps|]); [|done].
    eapply keeps_run; [|exact Hp]. unfold hash_whole. auto with keeps. }
  case_decide as Hpe; intros [= <- <-]; cbn.
  - subst proved. split; [etrans; [done|by apply same_touches]|]. left. split_and!; [done|done|].
    destruct (io (open staged) s1) as [[i|] s1'] eqn:Ho; [|by simplify_eq].
    apply io_Ok, open_Ok in Ho as [Hi Hs1']. apply hash_bytes_Ok in Hp as (He & _ & _); [|lia..].
    rewrite Hn1, lookup_insert_eq in Hi. simplify_eq. exists i. split_and!.
    + destruct Ht0 as [Ht0 _]. by rewrite <-Ht0.
    + destruct Hs2 as (->&_&_). by rewrite Hn1, lookup_insert_eq.
    + by rewrite (same_content _ _ _ Hs2), <-(same_content s1 s1').
  - split; [|by auto]. etrans; [done|]. etrans; [by apply same_touches|apply remove_file_touches].
Qed.

Lemma link_destination_run name w r w' :
  link_destination name w = (r, w') →
  r = Ok tt ∧ part w' = part w ∧ (∃ ino, Fs.nodes (fs w) !! staged_name (spec (part w)) = Some (File ino) ∧
    Fs.nodes (fs w) !! name = None ∧ Fs.nodes (fs w') = <[name := File ino]> (Fs.nodes (fs w))) ∧
    Fs.data (fs w') = Fs.data (fs w) ∨
  is_ok r = false ∧ part w' = set_poisoned false (part w) ∧
    touches (staged_name (spec (part w))) (fs w) (fs w').
Proof.
  destruct w as [p s]. unfold link_destination. cbn [part fs].
  destruct (hard_link _ name s) as [[[]|e] s1] eqn:Hl; intros [= <- <-]; cbn.
  - apply hard_link_Ok in Hl as (ino & ? & ? & ? & ? & _). left. eauto 10.
  - apply hard_link_Err in Hl. right. split_and!; [done|done|].
    etrans; [by apply same_touches|apply remove_file_touches].
Qed.

Lemma keeps_resolve_destination d : keeps (resolve_destination d).
Proof. unfold resolve_destination. auto 10 with keeps. Qed.
Lemma keeps_ordinary n : keeps (ordinary n).
Proof. unfold ordinary. auto 10 with keeps. Qed.
#[local] Hint Resolve keeps_resolve_destination keeps_ordinary : keeps.

Lemma resolve_destination_Ok d s n s' : resolve_destination d s = (Ok n, s') → n = Destination.resolved d.
Proof.
  unfold resolve_destination. unfold_monad. destruct (io access s) as [[[]|] s1]; [|done].
  destruct (validate_leaf _); naive_solver.
Qed.

Lemma reads_destination_free name : reads (destination_free name).
Proof.
  apply reads_on_fs. intros s. pose proof (keeps_symlink_metadata name s) as Hs.
  destruct (symlink_metadata name s) as [[?|[]] ?]; exact Hs.
Qed.

(** What follows the checks of [publish]. *)
Definition expose (sp : PartSpec.t) (expected : digest32) (name : Name) : part_st Name :=
  _ ← seal;
  _ ← stage sha256 expected;
  _ ← link_destination name;
  _ ← on_fs (ignore (remove_file (staged_name sp)));
  _ ← on_fs (io access);
  _ ← on_fs (io access);
  _ ← on_fs (io access);
  _ ← update (set_published true);
  _ ← update (set_poisoned false);
  mret name.

(** [publish] refuses before it changed a file, or goes on to expose verified bytes. *)
Lemma publish_run d w r w' :
  publish sha256 d w = (r, w') →
  same (fs w) (fs w') ∧ is_ok r = false ∧ (part w' = part w ∨ part w' = set_verified None (part w)) ∨
  ∃ expected s1, poisoned (part w) = false ∧ verified (part w) = Some expected ∧
    synchronized (part w) = true ∧ complete (part w) = true ∧
    Z.of_nat (length (Fs.content (fs w) (file (part w)))) = PartSpec.size (spec (part w)) ∧
    same (fs w) s1 ∧ expose (spec (part w)) expected (Destination.resolved d) (World (part w) s1) = (r, w').
Proof.
  destruct w as [p s]. unfold publish, healthy. intros Hr. open_part.
  assert (∀ e s', same s s' → (Err e, World p s') = (r, w') →
    same s (fs w') ∧ is_ok r = false ∧ (part w' = p ∨ part w' = set_verified None p)) as Hfail.
  { intros e s' Hs [= <- <-]. by auto. }
  destruct (poisoned p) eqn:Hp; [left; by eapply (Hfail _ s)|]. cbn in Hr.
  destruct (verified p) as [expected|] eqn:Hv; [|left; by eapply (Hfail _ s)].
  destruct (synchronized p) eqn:Hsy, (complete p) eqn:Hc; cbn in Hr; try (left; by eapply (Hfail _ s)).
  destruct (resolve_destination d s) as [rd s1] eqn:Hd. cbn in Hr.
  assert (same s s1) as Hs1 by (eapply keeps_run; [|exact Hd]; auto with keeps).
  destruct rd as [name|]; [|left; by eapply Hfail]. apply resolve_destination_Ok in Hd as ->.
  destruct (destination_free _ _) as [rf [p2 s2]] eqn:Hf. cbn in Hr.
  pose proof (reads_run _ _ _ _ (reads_destination_free _) Hf) as [Hp2 Hs2]. cbn in Hp2, Hs2. subst p2.
  assert (same s s2) by by etrans. destruct rf as [[]|]; [|left; by eapply Hfail].
  destruct (ordinary _ s2) as [ro s3] eqn:Ho. cbn in Hr.
  assert (same s s3) by (etrans; [done|]; eapply keeps_run; [|exact Ho]; auto with keeps).
  destruct ro as [[]|]; [|left; by eapply Hfail].
  destruct (io (file_len _) s3) as [rl s4] eqn:Hl. cbn in Hr.
  assert (same s s4) by (etrans; [done|]; eapply keeps_run; [|exact Hl]; auto with keeps).
  destruct rl as [len|]; [|left; by eapply Hfail]. apply io_Ok, file_len_Ok in Hl as [Hlen _].
  case_decide as Hsz; cbn in Hr.
  { left. simplify_eq/=. by auto. }
  right. exists expected, s4. rewrite (same_content s s3) in Hlen by done.
  split_and!; [done..|lia|done|]. unfold expose. open_part. exact Hr.
Qed.

(** The calls after the destination exists: the staged name goes, nothing else does. *)
Lemma tail_run sp name w r w' :
  (_ ← on_fs (ignore (remove_file (staged_name sp)));
   _ ← on_fs (io access); _ ← on_fs (io access); _ ← on_fs (io access);
   _ ← update (set_published true); _ ← update (set_poisoned false); mret name : part_st Name) w = (r, w') →
  touches (staged_name sp) (fs w) (fs w') ∧
  (r = Ok name ∧ part w' = set_poisoned false (set_published true (part w)) ∨
   is_ok r = false ∧ part w' = part w).
Proof.
  destruct w as [p s]. open_part. intros Hr. unfold ignore in Hr. cbn in Hr.
  pose proof (remove_file_touches (staged_name sp) s) as Ht. set (s0 := (remove_file _ s).2) in *.
  destruct (io access s0) as [[[]|] s1] eqn:H1; apply access_run in H1; cbn in Hr.
  2:{ simplify_eq/=. split; [|by right]. etrans; [done|by apply same_touches]. }
  destruct (io access s1) as [[[]|] s2] eqn:H2; apply access_run in H2; cbn in Hr.
  2:{ simplify_eq/=. split; [|by right]. etrans; [done|apply same_touches; by etrans]. }
  destruct (io access s2) as [r3 s3] eqn:H3. apply access_run in H3.
  assert (touches (staged_name sp) s s3).
  { etrans; [done|apply same_touches]. etrans; [done|by etrans]. }
  destruct r3 as [[]|]; simplify_eq/=; auto.
Qed.

(** How the handle ends when [expose] stops after the seal. *)
Definition stopped (p q : t) : Prop :=
  q = set_sealed false (set_poisoned false (set_sealed true (set_poisoned true p))) ∨
  q = set_verified None (set_sealed false (set_poisoned false (set_sealed true (set_poisoned true p)))) ∨
  q = set_poisoned false (set_sealed true (set_poisoned true p)).

Lemma expose_run expected name w r w' :
  0 ≤ PartSpec.size (spec (part w)) → path (part w) ≠ staged_name (spec (part w)) →
  expose (spec (part w)) expected name w = (r, w') →
  let p := part w in
  let staged := staged_name (spec p) in
  ∃ s1 new, rewritten (metadata p) new (fs w) s1 ∧
    (new = Fs.content (fs w) (metadata p) ∨ ∃ n, new = overwrite 33 (take n [1]) (Fs.content (fs w) (metadata p))) ∧
    (is_ok r = false ∧ part w' = set_poisoned true p ∧ fs w' = s1 ∨
     new = overwrite 33 [1] (Fs.content (fs w) (metadata p)) ∧
     (is_ok r = false ∧ stopped p (part w') ∧ touches staged s1 (fs w') ∨
      ∃ ino, Fs.nodes (fs w) !! path p = Some (File ino) ∧ Fs.nodes (fs w) !! name = None ∧ name ≠ staged ∧
        Fs.nodes (fs w') !! name = Some (File ino) ∧ Fs.data (fs w') = Fs.data s1 ∧
        expected = sha256 (slice 0 (PartSpec.size (spec p)) (Fs.content (fs w') ino)) ∧
        (∀ m, m ≠ name → m ≠ staged → Fs.nodes (fs w') !! m = Fs.nodes (fs w) !! m) ∧
        (r = Ok name ∧ part w' = set_poisoned false (set_published true (set_sealed true (set_poisoned true p))) ∨
         is_ok r = false ∧ part w' = set_sealed true (set_poisoned true p)))).
Proof.
  intros Hsize Hne Hr p staged. unfold expose in Hr. unfold mbind at 1, st_bind at 1 in Hr.
  destruct (seal w) as [rs [p1 s1]] eqn:Hse. apply seal_run in Hse as (new & Hrw & Hnew & Hnewok & Hp1). cbn in Hp1.
  exists s1, new. split_and!; [done|done|].
  destruct rs as [[]|]; [|simplify_eq/=; by left]. right. cbn in Hp1. split; [by apply Hnewok|].
  unfold mbind at 1, st_bind at 1 in Hr. destruct (stage _ _ _) as [rt [p2 s2]] eqn:Hst.
  apply stage_run in Hst as [Ht2 Hst]; [|by rewrite Hp1..]. rewrite Hp1 in Ht2, Hst. cbn [part fs] in Ht2, Hst.
  destruct Hst as [(-> & -> & ino & Hpath & Hstaged & Hexp)|[Hrt Hp2]]; cbn in *.
  2:{ left. destruct rt as [[]|]; [done|]. simplify_eq/=. split_and!; [done| |done].
      unfold stopped. by destruct Hp2 as [-> | ->]; auto. }
  unfold mbind at 1, st_bind at 1 in Hr. destruct (link_destination _ _) as [rl [p3 s3]] eqn:Hl.
  apply link_destination_run in Hl as [(-> & Hp3 & (ino' & Hino' & Hnone & Hn3) & Hd3)|(Hrl & Hp3 & Ht3)]; cbn in *.
  2:{ left. destruct rl as [[]|]; [done|]. simplify_eq/=. split_and!; [done| |by etrans].
      unfold stopped. auto. }
  right. subst p3. apply tail_run in Hr as [Ht4 Hend]. cbn in Ht4, Hend.
  assert (ino' = ino) as -> by (unfold staged in *; cbn in *; congruence).
  assert (name ≠ staged_name (spec (part w))) as Hns by congruence.
  exists ino. destruct Hrw as (Hn1 & _ & _), Ht2 as [Ht2 Hd2], Ht4 as [Ht4 Hd4].
  split_and!.
  - by rewrite Hn1 in Hpath.
  - by rewrite Ht2, Hn1 in Hnone.
  - done.
  - by rewrite Ht4, Hn3, lookup_insert_eq.
  - congruence.
  - rewrite Hexp. unfold Fs.content. by rewrite Hd4, Hd3.
  - intros m Hm Hms. by rewrite Ht4, Hn3, lookup_insert_ne, Ht2, Hn1 by done.
  - done.
Qed.

(** *** Discarding *)

Lemma discard_run w r w' :
  discard w = (r, w') → Fs.data (fs w') = Fs.data (fs w) ∧
  (w' = w ∧ is_ok r = false ∨
   (published (part w) = true ∨ cancelled (part w) = true) ∧ part w' = set_poisoned true (part w)).
Proof.
  destruct w as [p s]. unfold discard. open_part. destruct (published p) eqn:Hpu, (cancelled p) eqn:Hca; cbn.
  4:{ intros [= <- <-]. auto. }
  all: intros Hr.
  all: assert (∀ n q t, ∃ r, discard_name n (World q t) = (r, World q (remove_file n t).2)) as Hdn
    by (intros n q t; unfold discard_name; open_part; destruct (remove_file n t) as [[?|[]] ?]; by eexists).
  all: assert (∀ n t, Fs.data (remove_file n t).2 = Fs.data t) as Hrd
    by (intros n t; apply remove_file_touches).
  all: destruct (Hdn (path p) (set_poisoned true p) s) as [[?|] H1]; rewrite H1 in Hr; cbn in Hr;
    [|simplify_eq/=; rewrite Hrd; by auto].
  all: destruct (Hdn (meta_name (spec p)) (set_poisoned true p) (remove_file (path p) s).2) as [[?|] H2];
    rewrite H2 in Hr; cbn in Hr; [|simplify_eq/=; rewrite !Hrd; by auto].
  all: destruct (io access _) as [? s3] eqn:H3; apply access_run in H3 as (_ & H3 & _); simplify_eq/=;
    rewrite H3, !Hrd; by auto.
Qed.
End Runs.

(** ** Opening *)

Definition fresh_part (sp : PartSpec.t) (f m : nat) (synchronized sealed : bool) : t :=
  Make f m (part_name sp) sp [] [] synchronized None sealed false false false.

Lemma check_optional_keeps n : keeps (check_optional n).
Proof.
  intros s. unfold check_optional. pose proof (keeps_symlink_metadata n s) as Hs.
  destruct (symlink_metadata n s) as [[?|[]] s1]; cbn in *; try done.
  etrans; [done|]. apply keeps_ordinary.
Qed.

Lemma open_inner_checks sp create s r s' :
  open_inner sp create s = (r, s') →
  is_ok r = false ∧ same s s' ∨ ∃ s0, same s s0 ∧
    (file ← (λ s, let '(r, s') := (if create then create_new (part_name sp) else Files.open (part_name sp)) s in
               (map_err (λ e, if decide (e = ErrorKind.AlreadyExists) then StorageError.Conflict
                              else StorageError.Io e) r, s'));
     metadata ← io (if create then create_new (meta_name sp) else Files.open (meta_name sp));
     sealed ← (if create then
         _ ← io (set_len file (PartSpec.size sp));
         _ ← io access;
         _ ← io (write_all metadata 0 (identity sp false));
         _ ← io access;
         _ ← io access;
         mret false
       else
         meta_len ← io (file_len metadata);
         _ ← lift (refuse_if (bool_decide (meta_len ≠ META_LEN)) StorageError.Integrity);
         part_len ← io (file_len file);
         _ ← lift (refuse_if (bool_decide (part_len ≠ PartSpec.size sp)) StorageError.Integrity);
         data ← io (read_exact metadata 0 META_LEN);
         let flag := default 0 (data !! 33%nat) in
         _ ← lift (refuse_if (bool_decide (take 33 data ≠ take 33 (identity sp false) ∨ 1 < flag))
               StorageError.Integrity);
         mret (bool_decide (flag = 1)));
     _ ← io access;
     mret (Make file metadata (part_name sp) sp [] [] create None sealed false false false)
     : st Fs.t StorageError.t t) s0 = (r, s').
Proof.
  unfold open_inner. intros Hr. unfold mbind at 1, st_bind at 1 in Hr.
  destruct (io access s) as [[[]|] s1] eqn:H1; apply access_run in H1; [|simplify_eq; by left].
  unfold mbind at 1, st_bind at 1 in Hr.
  destruct (check_optional (part_name sp) s1) as [r2 s2] eqn:H2. apply keeps_run in H2; [|apply check_optional_keeps].
  destruct r2 as [[]|]; [|simplify_eq; left; split; [done|by etrans]].
  unfold mbind at 1, st_bind at 1 in Hr.
  destruct (check_optional (meta_name sp) s2) as [r3 s3] eqn:H3. apply keeps_run in H3; [|apply check_optional_keeps].
  assert (same s s3) by (etrans; [done|by etrans]).
  destruct r3 as [[]|]; [|simplify_eq; left; by split].
  right. exists s3. split; [done|]. exact Hr.
Qed.

Lemma create_Ok sp s p s' :
  open_inner sp true s = (Ok p, s') → ∃ f m,
  p = fresh_part sp f m true false ∧ f ≠ m ∧
  Fs.nodes s' = <[meta_name sp := File m]> (<[part_name sp := File f]> (Fs.nodes s)) ∧
  Fs.nodes s !! part_name sp = None ∧
  Fs.content s' f = resize (Z.to_nat (PartSpec.size sp)) 0 [] ∧ Fs.content s' m = identity sp false.
Proof.
  intros [[? _]|(s0 & (Hn0 & Hd0 & _) & Hr)]%open_inner_checks; [done|]. unfold_monad.
  destruct (create_new (part_name sp) s0) as [[f|] s1] eqn:H1; cbn in Hr; [|done].
  apply create_new_Ok in H1 as (-> & Hfree & Hn1 & Hd1 & Hx1).
  destruct (io (create_new _) s1) as [[m|] s2] eqn:H2; cbn in Hr; [|done].
  apply io_Ok, create_new_Ok in H2 as (-> & _ & Hn2 & Hd2 & Hx2).
  destruct (io (set_len _ _) s2) as [[[]|] s3] eqn:H3; cbn in Hr; [|done].
  apply io_Ok, set_len_Ok in H3 as (Hn3 & _ & Hd3).
  destruct (io access s3) as [[[]|] s4] eqn:H4; apply access_run in H4; [|done].
  destruct (io (write_all _ _ _) s4) as [[[]|] s5] eqn:H5; [|done].
  apply io_Ok, write_all_run in H5 as (n & Hn5 & _ & Hd5 & Htake). rewrite Htake in Hd5 by done.
  destruct (io access s5) as [[[]|] s6] eqn:H6; apply access_run in H6; [|done].
  destruct (io access s6) as [[[]|] s7] eqn:H7; apply access_run in H7; [|done]. cbn in Hr.
  destruct (io access s7) as [[[]|] s8] eqn:H8; apply access_run in H8; [|done]. simplify_eq.
  destruct H4 as (Hn4&Hd4&_). assert (same s5 s') as (Hn&Hd&_) by (etrans; [done|by etrans]).
  exists (Fs.next s0), (Fs.next s1). rewrite Hx1. split_and!.
  - by rewrite <-Hx1.
  - lia.
  - congruence.
  - by rewrite <-Hn0.
  - unfold Fs.content at 1. rewrite Hd, Hd5, lookup_insert_ne, Hd4, Hd3, lookup_insert_eq by lia. cbn.
    unfold Fs.content. by rewrite Hd2, lookup_insert_ne, Hd1, lookup_insert_eq by lia.
  - unfold Fs.content at 1. rewrite Hd, Hd5, Hx1, lookup_insert_eq. cbn.
    unfold Fs.content. rewrite Hd4, Hd3, lookup_insert_ne, Hd2, Hx1, lookup_insert_eq by lia. done.
Qed.

Lemma identity_length sp sealed : length (identity sp sealed) = 34%nat.
Proof. unfold identity. rewrite !length_app, !to_le_bytes_length. by destruct sealed. Qed.

Lemma open_Ok_part sp s p s' :
  open_inner sp false s = (Ok p, s') → ∃ f m,
  p = fresh_part sp f m false (bool_decide (Fs.content s m !! 33%nat = Some 1)) ∧ same s s' ∧
  Fs.nodes s !! part_name sp = Some (File f) ∧ Fs.nodes s !! meta_name sp = Some (File m) ∧
  Z.of_nat (length (Fs.content s f)) = PartSpec.size sp ∧
  length (Fs.content s m) = 34%nat ∧ take 33 (Fs.content s m) = take 33 (identity sp false).
Proof.
  intros [[? _]|(s0 & Hs0 & Hr)]%open_inner_checks; [done|]. unfold_monad.
  destruct (Files.open (part_name sp) s0) as [[f|] s1] eqn:H1; cbn in Hr; [|done].
  apply open_Ok in H1 as (Hf & Hs1).
  destruct (io (Files.open _) s1) as [[m|] s2] eqn:H2; cbn in Hr; [|done].
  apply io_Ok, open_Ok in H2 as (Hm & Hs2).
  destruct (io (file_len m) s2) as [[ml|] s3] eqn:H3; cbn in Hr; [|done].
  apply io_Ok, file_len_Ok in H3 as (Hml & Hs3). case_bool_decide as Hmlen; [done|].
  destruct (io (file_len f) s3) as [[fl|] s4] eqn:H4; cbn in Hr; [|done].
  apply io_Ok, file_len_Ok in H4 as (Hfl & Hs4). case_bool_decide as Hflen; [done|].
  destruct (io (read_exact _ _ _) s4) as [[data|] s5] eqn:H5; cbn in Hr; [|done].
  apply io_Ok, read_exact_Ok in H5 as (Hdata & Hdlen & Hs5). case_bool_decide as Hid; [done|].
  cbn in Hr. destruct (io access s5) as [[[]|] s6] eqn:H6; apply access_run in H6; [|done]. simplify_eq.
  assert (same s s1) as T1 by by etrans. assert (same s s2) as T2 by by etrans.
  assert (same s s3) as T3 by by etrans. assert (same s s4) as T4 by by etrans.
  assert (same s s5) by by etrans. assert (same s s') by by etrans.
  rewrite (same_content _ _ _ T2) in *. rewrite (same_content _ _ _ T3) in *.
  rewrite (same_content _ _ _ T4) in *. destruct Hs0 as (Hn0&_&_), T1 as (Hn1&_&_).
  rewrite Hn0 in Hf. rewrite Hn1 in Hm.
  unfold META_LEN in *. assert (length (Fs.content s m) = 34%nat) as Hl by lia.
  assert (slice 0 34 (Fs.content s m) = Fs.content s m) as Hwhole.
  { rewrite <-(slice_whole (Fs.content s m)) at 2. by rewrite Hl. }
  rewrite Hwhole in *. apply Decidable.not_or in Hid as [Hid _]. apply dec_stable in Hid.
  exists f, m. split_and!; [|done..|lia|done|done].
  unfold fresh_part. f_equal.
  destruct (lookup_lt_is_Some_2 (Fs.content s m) 33) as [b Hb]; [lia|]. rewrite Hb. cbn.
  apply bool_decide_ext. naive_solver.
Qed.
