(* ===== verification/StorageThm.v ===== *)
(** * Theorems on the part file

    The invariant of every handle the store can give out, what writing covers, what a
    verified digest is worth, what publishing exposes, and that a sealed generation
    stays frozen. *)

From S2P Require Import Prelude.
From S2P Require Import Domain.
From S2P Require Import Persistence.
From S2P Require Import PersistenceInv.
From S2P Require Import Files.
From S2P Require Import FilesInv.
From S2P Require Import StorageFile.
From S2P Require Import StorageInv.
From S2P Require Import StorageSteps.
Import FilePart.

(** What [new] and the identifiers guarantee of a specification. *)
Definition spec_wf (sp : PartSpec.t) : Prop := 0 ≤ PartSpec.size sp ≤ i64_max.

(** The sidecar: the identity of the part, then the sealed byte. *)
Definition meta_ok (sp : PartSpec.t) (m : list Z) : Prop :=
  length m = 34%nat ∧ take 33 m = take 33 (identity sp false).
Definition sealed_on_disk (m : list Z) : Prop := m !! 33%nat = Some 1.

(** Both names of the generation are those of the handle's files. *)
Definition named (w : world) : Prop :=
  Fs.nodes (fs w) !! path (part w) = Some (File (file (part w))) ∧
  Fs.nodes (fs w) !! meta_name (spec (part w)) = Some (File (metadata (part w))).

Section Theorems.
Context (sha256 : list Z → digest32).

(** The content of the part and of its sidecar. *)
Definition bytes_of (w : world) : list Z := Fs.content (fs w) (file (part w)).
Definition meta_of (w : world) : list Z := Fs.content (fs w) (metadata (part w)).

Record Inv (w : world) : Prop := {
  inv_spec : spec_wf (spec (part w));
  inv_path : path (part w) = part_name (spec (part w));
  inv_coverage : coverage_wf (-1) (PartSpec.size (spec (part w))) (coverage (part w));
  inv_protected : Forall (λ r, ByteRange.wf r ∧ ByteRange.end_ r ≤ PartSpec.size (spec (part w)) ∧
    ∀ x, ByteRange.covers r x → covered (coverage (part w)) x) (protected (part w));
  inv_handles : file (part w) ≠ metadata (part w);
  inv_length : Z.of_nat (length (bytes_of w)) = PartSpec.size (spec (part w));
  inv_meta : meta_ok (spec (part w)) (meta_of w);
  inv_sealed : sealed (part w) = true ∨ published (part w) = true → sealed_on_disk (meta_of w);
  inv_verified : ∀ d, verified (part w) = Some d →
    d = sha256 (bytes_of w) ∧ complete (part w) = true ∧ synchronized (part w) = true }.

(** The names hold as long as the handle is healthy: only [discard] removes them. *)
Definition Healthy (w : world) : Prop := Inv w ∧ (poisoned (part w) = false → named w).

(** *** Coverage under a plan *)

Lemma range_Ok p off len r :
  range p off len = Ok r →
  r = ByteRange.Make off (off + len) ∧ off < off + len ∧ off + len ≤ PartSpec.size (spec p) ∧ off + len ≤ i64_max.
Proof.
  unfold range. unfold_monad. destruct (checked_add off len) as [e|] eqn:He; [|done].
  apply checked_add_Some in He as [-> _]. case_bool_decide; [done|].
  destruct (ByteRange.new _ _) eqn:Hn; [|done]. intros [= <-]. apply ByteRange.new_Ok in Hn as (?&?&->).
  split_and!; [done|lia..].
Qed.

Lemma coverage_plan_Ok p q rng plan :
  coverage_wf (-1) (PartSpec.size (spec p)) (coverage p) →
  0 ≤ ByteRange.start rng < ByteRange.end_ rng → ByteRange.end_ rng ≤ PartSpec.size (spec p) →
  coverage_plan p rng = Ok plan → coverage q = coverage p →
  coverage_wf (-1) (PartSpec.size (spec p)) (coverage (add_coverage plan q)) ∧
  ∀ x, covered (coverage (add_coverage plan q)) x ↔ covered (coverage p) x ∨ ByteRange.covers rng x.
Proof.
  intros Hwf Hr He Hplan Hq. unfold coverage_plan in Hplan. unfold_monad.
  destruct (absorb _ _ _) as [[n s] t] eqn:Ha. case_bool_decide; [done|].
  destruct (ByteRange.new s t) as [m|] eqn:Hn; [|done]. apply ByteRange.new_Ok in Hn as (_&_&->).
  simplify_eq. unfold add_coverage; cbn. rewrite Hq.
  eapply plan_spec in Ha; [exact Ha|done|lia|done].
Qed.

(** The only reason to refuse a range inside the object is the number of extents. *)
Lemma coverage_plan_bounded p rng :
  spec_wf (spec p) → coverage_wf (-1) (PartSpec.size (spec p)) (coverage p) →
  0 ≤ ByteRange.start rng < ByteRange.end_ rng → ByteRange.end_ rng ≤ PartSpec.size (spec p) →
  Z.of_nat (length (coverage p)) < MAX_EXTENTS → is_ok (coverage_plan p rng) = true.
Proof.
  intros [_ Hsp] Hwf Hr He Hlen. unfold coverage_plan. unfold_monad.
  destruct (absorb _ _ _) as [[n s] t] eqn:Ha. rewrite bool_decide_eq_false_2 by lia.
  pose proof Ha as Hab. eapply plan_spec in Hab as [Hc _]; [|done|lia|done].
  assert (s < t ∧ t ≤ PartSpec.size (spec p)) as [Hst Ht].
  { revert Hc. generalize (-1). generalize (take (before (ByteRange.start rng) (coverage p)) (coverage p)).
    intros l. induction l as [|e l IH]; intros lo; cbn; [tauto|]. intros (_&_&_&Hl). by eapply IH. }
  rewrite ByteRange.new_eq by lia. done.
Qed.

Lemma complete_iff p :
  coverage_wf (-1) (PartSpec.size (spec p)) (coverage p) → 0 ≤ PartSpec.size (spec p) →
  complete p = true ↔ ∀ x, 0 ≤ x < PartSpec.size (spec p) → covered (coverage p) x.
Proof.
  intros Hwf Hs. unfold complete. case_bool_decide as H0; cbn.
  { split; [|done]. intros _ x. lia. }
  rewrite covers_all by (done || lia). destruct (coverage p) as [|[s e] [|]]; [done| |done]. cbn.
  rewrite andb_true_iff, !bool_decide_eq_true. naive_solver.
Qed.

(** *** The invariant *)

Lemma meta_sealing sp m new :
  meta_ok sp m → new = m ∨ (∃ n, new = overwrite 33 (take n [1]) m) →
  meta_ok sp new ∧ (sealed_on_disk m → sealed_on_disk new) ∧ (new = overwrite 33 [1] m → sealed_on_disk new).
Proof.
  intros [Hl Ht] Hnew. assert (overwrite 33 [1] m = take 33 m ++ [1]) as Hov.
  { unfold overwrite. rewrite resize_le by (cbn; lia). rewrite drop_ge by (cbn; lia). done. }
  assert (sealed_on_disk (overwrite 33 [1] m)) as Hs.
  { rewrite Hov. unfold sealed_on_disk. rewrite lookup_app_r, length_take by (rewrite length_take; lia).
    by rewrite Hl. }
  assert (meta_ok sp (overwrite 33 [1] m)) as Hm.
  { split; rewrite Hov; [rewrite length_app, length_take, Hl; done|].
    rewrite take_app_length' by (rewrite length_take, Hl; done). done. }
  split_and!; [| |by intros ->].
  - destruct Hnew as [->|[[|n] ->]]; [done| |by destruct n]. cbn. rewrite overwrite_nil by lia. done.
  - intros Hsm. destruct Hnew as [->|[[|n] ->]]; [done| |by destruct n]. cbn. by rewrite overwrite_nil by lia.
Qed.

(** Calls that leave the files alone and change at most the flags. *)
Lemma Inv_same w w' :
  Inv w → same (fs w) (fs w') →
  spec (part w') = spec (part w) → path (part w') = path (part w) → file (part w') = file (part w) →
  metadata (part w') = metadata (part w) → coverage (part w') = coverage (part w) →
  protected (part w') = protected (part w) →
  (sealed (part w') = true ∨ published (part w') = true → sealed (part w) = true ∨ published (part w) = true) →
  (∀ d, verified (part w') = Some d → verified (part w) = Some d ∧
    (synchronized (part w) = true → synchronized (part w') = true)) →
  Inv w' ∧ (named w → named w').
Proof.
  intros [] Hs Hsp Hpa Hf Hm Hc Hpr Hse Hv.
  assert (bytes_of w' = bytes_of w) as Hb by (unfold bytes_of; rewrite Hf; by apply same_content).
  assert (meta_of w' = meta_of w) as Hmeta by (unfold meta_of; rewrite Hm; by apply same_content).
  split.
  - split; rewrite ?Hsp, ?Hpa, ?Hf, ?Hm, ?Hc, ?Hpr, ?Hb, ?Hmeta; auto.
    intros d Hd. destruct (Hv d Hd) as [Hd' Hsy]. destruct (inv_verified0 d Hd') as (?&?&?).
    split_and!; [done| |by apply Hsy]. unfold complete in *. by rewrite Hsp, Hc.
  - unfold named. destruct Hs as (->&_&_). by rewrite Hsp, Hpa, Hf, Hm.
Qed.

Lemma write_at_Inv off bytes w r w' :
  0 ≤ off → Healthy w → write_at off bytes w = (r, w') → Healthy w'.
Proof.
  intros Hoff [Hinv Hn] Hr. apply write_at_run in Hr as [[-> _]|(rng & plan & Hne & Hpo & Hse & Hrng & _ & Hplan & Hr)].
  { done. }
  apply range_Ok in Hrng as (-> & Hlt & Hsz & _). pose proof Hinv as [Hsp Hpa Hcov Hprot Hh Hlen Hmeta Hsl Hv].
  assert (∀ n, Z.of_nat (length (overwrite off (take n bytes) (bytes_of w))) = PartSpec.size (spec (part w))) as Hol.
  { intros n. rewrite overwrite_length; [done|done|]. rewrite length_take. lia. }
  destruct Hr as [(k & -> & Hp & Hfs)|(-> & Hp & Hfs)].
  - destruct Hfs as [Hs|(n & Hnd & Hc & Ho)].
    + destruct (Inv_same w w') as [Hi _]; rewrite ?Hp; try done. split; [done|]. by rewrite Hp.
    + split; [|by rewrite Hp]. split; unfold bytes_of, meta_of; rewrite Hp; cbn; try done.
      * rewrite Hc. apply Hol.
      * by rewrite Ho.
      * by rewrite Ho.
  - destruct Hfs as (Hnd & Hc & Ho). split.
    + destruct (coverage_plan_Ok (part w) (dirty (part w)) (ByteRange.Make off (off + Z.of_nat (length bytes))) plan Hcov ltac:(cbn; lia) Hsz Hplan eq_refl) as [Hcov' Hx].
      split; unfold bytes_of, meta_of; rewrite Hp; destruct plan as [[a b] m]; cbn; try done.
      * apply (Forall_impl _ _ _ Hprot). intros e (?&?&He). split_and!; [done..|]. intros x ?. apply Hx. auto.
      * rewrite Hc. rewrite overwrite_length; [done|done|unfold bytes_of in *; lia].
      * by rewrite Ho.
      * by rewrite Ho.
    + intros _. specialize (Hn Hpo). unfold named in *. rewrite Hp, Hnd. by destruct plan as [[a b] m].
Qed.

Lemma sync_Inv w r w' : Healthy w → sync w = (r, w') → Healthy w'.
Proof.
  intros [Hinv Hn] [Hs [[-> _]|(Hpo & [[Hp _]|[Hp _]])]]%sync_run; [done|..];
    (destruct (Inv_same w w') as [Hi Hn']; rewrite ?Hp; try done); split; auto.
Qed.

Lemma recover_extent_Inv rng digest w r w' :
  ByteRange.wf rng → Healthy w → recover_extent sha256 rng digest w = (r, w') → Healthy w'.
Proof.
  intros Hwf [Hinv Hn] [Hs [[Hp _]|(_ & Hpo & He & _ & plan & Hplan & Hp)]]%(recover_extent_run sha256); [| |done].
  { destruct (Inv_same w w') as [Hi Hn']; rewrite ?Hp; try done; auto. split; [done|]. rewrite Hp. auto. }
  pose proof Hinv as [Hsp Hpa Hcov Hprot Hh Hlen Hmeta Hsl Hv].
  destruct (coverage_plan_Ok (part w) (set_protected (protected (part w) ++ [rng]) (part w)) rng plan Hcov
    ltac:(unfold ByteRange.wf in Hwf; lia) He Hplan eq_refl) as [Hcov' Hx].
  assert (coverage (part w') = coverage (add_coverage plan (set_protected (protected (part w) ++ [rng]) (part w)))) as Hc'
    by by rewrite Hp.
  assert (∀ x, covered (coverage (part w')) x ↔ covered (coverage (part w)) x ∨ ByteRange.covers rng x) as Hx'
    by (intros; rewrite Hc'; apply Hx).
  split.
  - split; unfold bytes_of, meta_of; rewrite ?Hc', ?(same_content _ _ _ Hs); rewrite Hp;
      destruct plan as [[a b] m]; cbn -[covered]; try done.
    + apply Forall_app. split.
      * apply (Forall_impl _ _ _ Hprot). intros e (?&?&Hce). split_and!; [done..|]. intros x ?. apply Hx. auto.
      * constructor; [|constructor]. split_and!; [done..|]. intros x ?. apply Hx. auto.
    + intros d Hd. destruct (Hv d Hd) as (?&Hcomp&?). split_and!; [done| |done].
      destruct Hsp as [? ?]. apply complete_iff; [done|done|]. intros x Hin.
      apply Hx. left. by apply (proj1 (complete_iff (part w) Hcov ltac:(done)) Hcomp).
  - intros _. specialize (Hn Hpo). unfold named in *. destruct Hs as (Hnd&_&_). rewrite Hp, Hnd.
    by destruct plan as [[a b] m].
Qed.

Lemma verify_Inv expected record w r w' :
  Forall (λ e, ByteRange.wf e.1) record → Healthy w → verify sha256 expected record w = (r, w') → Healthy w'.
Proof.
  intros Hwf [Hinv Hn] Hr. pose proof Hinv as [Hsp Hpa Hcov Hprot Hh Hlen Hmeta Hsl Hv].
  apply (verify_run sha256) in Hr as [Hs [(-> & _)|(Hpo & [[Hp _]|(d & -> & Hp & Hat)])]]; [done|..|done].
  - destruct (Inv_same w w') as [Hi Hn']; rewrite ?Hp; try done. split; [done|auto].
  - split.
    + split; unfold bytes_of, meta_of; rewrite ?(same_content _ _ _ Hs), Hp; cbn; try done.
      intros d' [= <-]. by destruct Hat as [? ? ? ? ? -> _].
    + intros _. specialize (Hn Hpo). unfold named in *. destruct Hs as (Hnd&_&_). by rewrite Hp, Hnd.
Qed.

Lemma discard_Inv w r w' : Healthy w → discard w = (r, w') → Healthy w'.
Proof.
  intros [Hinv Hn] [Hd [[-> _]|[_ Hp]]]%discard_run; [done|].
  split; [|by rewrite Hp]. pose proof Hinv as [].
  split; unfold bytes_of, meta_of, Fs.content; rewrite ?Hd, Hp; cbn; auto.
Qed.

(** Calls that may seal the sidecar, and leave the part's bytes alone. *)
Lemma Inv_seal w w' new :
  Inv w → bytes_of w' = bytes_of w → meta_of w' = new →
  (new = meta_of w ∨ ∃ n, new = overwrite 33 (take n [1]) (meta_of w)) →
  spec (part w') = spec (part w) → path (part w') = path (part w) → file (part w') = file (part w) →
  metadata (part w') = metadata (part w) → coverage (part w') = coverage (part w) →
  protected (part w') = protected (part w) → synchronized (part w') = synchronized (part w) →
  (sealed (part w') = true ∨ published (part w') = true →
   sealed (part w) = true ∨ published (part w) = true ∨ new = overwrite 33 [1] (meta_of w)) →
  (∀ d, verified (part w') = Some d → verified (part w) = Some d) → Inv w'.
Proof.
  intros [] Hb Hm Hnew Hsp Hpa Hf Hme Hc Hpr Hsy Hse Hv.
  destruct (meta_sealing _ _ _ inv_meta0 Hnew) as (Hok & Hkeep & Hset).
  split; rewrite ?Hsp, ?Hpa, ?Hf, ?Hme, ?Hc, ?Hpr, ?Hb, ?Hm, ?Hsy; auto.
  - intros Hor. destruct (Hse Hor) as [?|[?|?]]; auto.
  - intros d Hd. destruct (inv_verified0 d (Hv d Hd)) as (?&?&?). split_and!; [done| |done].
    unfold complete in *. by rewrite Hsp, Hc.
Qed.

Lemma part_name_staged sp sp' : part_name sp ≠ staged_name sp'.
Proof. done. Qed.
Lemma meta_name_staged sp sp' : meta_name sp ≠ staged_name sp'.
Proof. done. Qed.

Lemma publish_Inv d w r w' : Healthy w → publish sha256 d w = (r, w') → Healthy w'.
Proof.
  intros [Hinv Hn] Hr. pose proof Hinv as [[Hsize _] Hpath _ _ Hh _ _ _ _].
  apply publish_run in Hr as [(Hs & _ & Hp)|(expected & s1 & Hpo & Hv & _ & _ & _ & Hs & Hr)].
  { destruct (Inv_same w w') as [Hi Hn']; try done; try by destruct Hp as [-> | ->].
    split; [done|]. destruct Hp as [-> | ->]; auto. }
  specialize (Hn Hpo). unfold named in Hn. pose proof Hs as (Hnd & Hdt & _).
  apply (expose_run sha256 expected _ (World (part w) s1)) in Hr as (s2 & new & (Hnd2 & Hc2 & Ho2) & Hnew & Hr); cbn in *;
    [|done|by rewrite Hpath].
  rewrite (same_content _ _ _ Hs) in *.
  assert (∀ i, i ≠ metadata (part w) → Fs.content s2 i = Fs.content (fs w) i) as Ho.
  { intros i Hi. by rewrite Ho2, (same_content _ _ _ Hs). }
  assert (∀ s3, Fs.data s3 = Fs.data s2 → ∀ i, Fs.content s3 i = Fs.content s2 i) as Hdc
    by (intros s3 Hd3 i; unfold Fs.content; by rewrite Hd3).
  destruct Hr as [(_ & Hp & Hs')|(Hneweq & [(_ & Hp & Ht)|(ino & _ & Hfree & _ & _ & Hd & _ & Hno & Hp)])].
  - split; [|by rewrite Hp]. apply (Inv_seal w w' new); [done| | |exact Hnew|..]; unfold bytes_of, meta_of; rewrite ?Hp, ?Hs'; cbn; auto; tauto.
  - split.
    + unfold stopped in Hp. apply (Inv_seal w w' new); [done| | |exact Hnew|..]; unfold bytes_of, meta_of;
        destruct Hp as [-> |[-> | ->]]; cbn; rewrite ?(touches_content _ _ _ _ Ht); auto; (tauto || done).
    + intros _. unfold named. destruct Ht as [Ht _]. rewrite Hpath in *.
      destruct Hp as [-> |[-> | ->]]; cbn; rewrite Hpath, !Ht, Hnd2, Hnd by done; done.
  - split.
    + apply (Inv_seal w w' new); [done| | |exact Hnew|..]; unfold bytes_of, meta_of;
        destruct Hp as [[_ ->]|[_ ->]]; cbn; rewrite ?(Hdc (fs w')) by done; auto; tauto.
    + intros _. unfold named.
      assert (∀ m i, Fs.nodes (fs w) !! m = Some (File i) → m ≠ staged_name (spec (part w)) →
        Fs.nodes (fs w') !! m = Some (File i)) as Hkeep.
      { intros m i Hm Hms. rewrite Hno, Hnd; [done| |done]. intros ->. congruence. }
      destruct Hn as [Hn1 Hn2]. rewrite Hpath in *.
      destruct Hp as [[_ ->]|[_ ->]]; cbn; rewrite ?Hpath; split; by apply Hkeep.
Qed.

(** *** Reachable handles *)

(** Another handle, job or process: it leaves this generation's names and files alone. *)
Definition untouched (w : world) (s : Fs.t) : Prop :=
  Fs.nodes s !! part_name (spec (part w)) = Fs.nodes (fs w) !! part_name (spec (part w)) ∧
  Fs.nodes s !! meta_name (spec (part w)) = Fs.nodes (fs w) !! meta_name (spec (part w)) ∧
  Fs.content s (file (part w)) = bytes_of w ∧ Fs.content s (metadata (part w)) = meta_of w.

Inductive step (w : world) : world → Prop :=
| step_write off bytes : u64 off → step w (write_at off bytes w).2
| step_sync : step w (sync w).2
| step_hash rng : step w (hash_range sha256 rng w).2
| step_recover rng digest : ByteRange.wf rng → step w (recover_extent sha256 rng digest w).2
| step_verify expected record :
    Forall (λ e, ByteRange.wf e.1) record → step w (verify sha256 expected record w).2
| step_publish d : step w (publish sha256 d w).2
| step_discard : step w (discard w).2
| step_abandon : step w (abandon w).2
| step_other s : untouched w s → step w (World (part w) s).

Inductive reachable : world → Prop :=
| reach_create sp s p s' : spec_wf sp → open_inner sp true s = (Ok p, s') → reachable (World p s')
| reach_open sp s p s' : spec_wf sp → open_inner sp false s = (Ok p, s') → file p ≠ metadata p →
    reachable (World p s')
| reach_step w w' : reachable w → step w w' → reachable w'.

Lemma step_Healthy w w' : Healthy w → step w w' → Healthy w'.
Proof.
  intros Hw [off bytes [? _]| |rng|rng digest ?|expected record ?|d| | |s (Hn1&Hn2&Hc1&Hc2)].
  - destruct (write_at off bytes w) eqn:Hr. by eapply write_at_Inv in Hr.
  - destruct (sync w) eqn:Hr. by eapply sync_Inv in Hr.
  - destruct (hash_range sha256 rng w) as [r w1] eqn:Hr.
    apply reads_run in Hr as [Hp Hs]; [|apply reads_hash_range]. destruct Hw as [Hi Hn].
    destruct (Inv_same w w1) as [? ?]; rewrite ?Hp; try done; auto. split; [done|]. cbn. rewrite Hp. auto.
  - destruct (recover_extent sha256 rng digest w) eqn:Hr. by eapply recover_extent_Inv in Hr.
  - destruct (verify sha256 expected record w) eqn:Hr. by eapply verify_Inv in Hr.
  - destruct (publish sha256 d w) eqn:Hr. by eapply publish_Inv in Hr.
  - destruct (discard w) eqn:Hr. by eapply discard_Inv in Hr.
  - destruct Hw as [Hi Hn]. by destruct (Inv_same w (abandon w).2) as [? ?]; try done; split; auto.
  - destruct Hw as [[] Hn]. split.
    + split; unfold bytes_of, meta_of; cbn; rewrite ?Hc1, ?Hc2; auto.
    + intros Hp. destruct (Hn Hp) as [Ha Hb]. unfold named; cbn. rewrite inv_path0 in *.
      by rewrite Hn1, Hn2.
Qed.

Lemma fresh_Healthy sp f m sync sealed s :
  spec_wf sp → f ≠ m → Fs.nodes s !! part_name sp = Some (File f) → Fs.nodes s !! meta_name sp = Some (File m) →
  Z.of_nat (length (Fs.content s f)) = PartSpec.size sp → meta_ok sp (Fs.content s m) →
  (sealed = true → sealed_on_disk (Fs.content s m)) →
  Healthy (World (fresh_part sp f m sync sealed) s).
Proof.
  intros ?????? Hse. split; [|by split]. split; unfold bytes_of, meta_of; cbn; try done.
  intros [?|?]; [by apply Hse|done].
Qed.

Lemma reachable_Healthy w : reachable w → Healthy w.
Proof.
  induction 1 as [sp s p s' Hsp Hr|sp s p s' Hsp Hr Hne|w w' _ IH Hs].
  - apply create_Ok in Hr as (f & m & -> & ? & Hn & _ & Hf & Hm). apply fresh_Healthy; try done.
    + rewrite Hn, lookup_insert_ne, lookup_insert_eq by done. done.
    + by rewrite Hn, lookup_insert_eq.
    + rewrite Hf, length_resize. destruct Hsp. lia.
    + rewrite Hm. split; [apply identity_length|done].
  - apply open_Ok_part in Hr as (f & m & -> & Hs & Hn1 & Hn2 & Hf & Hm1 & Hm2). cbn in Hne.
    pose proof Hs as (Hn & _ & _). apply fresh_Healthy; try done; rewrite ?Hn, ?(same_content _ _ _ Hs); try done.
    intros ?%bool_decide_eq_true. done.
  - by eapply step_Healthy.
Qed.

(** Every handle the store can give out, after any calls, failed ones included, and
    whatever else happens to other files, keeps its invariant.  Its coverage is
    ascending, disjoint and without touching neighbours, holds every recovered extent,
    and is complete exactly when it covers every byte.  A verified digest is that of the
    bytes now in the file, complete and synchronized.  A sealed or published handle is
    sealed on disk. *)
Theorem reachable_part_invariant w :
  reachable w →
  let p := part w in
  coverage_wf (-1) (PartSpec.size (spec p)) (coverage p) ∧
  (∀ x, covered (protected p) x → covered (coverage p) x) ∧
  (complete p = true ↔ ∀ x, 0 ≤ x < PartSpec.size (spec p) → covered (coverage p) x) ∧
  Z.of_nat (length (bytes_of w)) = PartSpec.size (spec p) ∧
  (∀ d, verified p = Some d → d = sha256 (bytes_of w) ∧ complete p = true ∧ synchronized p = true) ∧
  (sealed p = true ∨ published p = true → sealed_on_disk (meta_of w)).
Proof.
  intros [[Hsp _ Hcov Hprot _ Hlen _ Hse Hv] _]%reachable_Healthy p. split_and!; try done.
  - intros x (r & Hr & Hx). rewrite Forall_forall in Hprot.
    destruct (Hprot r Hr) as (_&_&Hc). by apply Hc.
  - apply complete_iff; [done|apply Hsp].
Qed.

(** A handle that refuses every call that reads or writes bytes. *)
Definition refuses (w : world) : Prop :=
  (∀ off bytes, write_at off bytes w = (Err StorageError.InvalidState, w)) ∧
  sync w = (Err StorageError.InvalidState, w) ∧
  (∀ rng, hash_range sha256 rng w = (Err StorageError.InvalidState, w)) ∧
  (∀ rng d, recover_extent sha256 rng d w = (Err StorageError.InvalidState, w)) ∧
  (∀ e rec, verify sha256 e rec w = (Err StorageError.InvalidState, w)) ∧
  (∀ d, publish sha256 d w = (Err StorageError.InvalidState, w)).

Lemma poisoned_refuses w : poisoned (part w) = true → refuses w.
Proof.
  destruct w as [p s]; cbn. intros Hp. unfold refuses, write_at, sync, hash_range, recover_extent, verify, publish, healthy.
  split_and!; intros; open_part; by rewrite Hp.
Qed.

Lemma protected_clear p rng :
  existsb (λ e, bool_decide (ByteRange.start e < ByteRange.end_ rng)
    && bool_decide (ByteRange.start rng < ByteRange.end_ e)) (protected p) = false →
  ∀ x, covered (protected p) x → ¬ ByteRange.covers rng x.
Proof.
  intros Hex x (r & Hr & ? & ?) [? ?]. apply (proj1 (existsb_false _ _) Hex) in Hr.
  apply andb_false_iff in Hr as [?%bool_decide_eq_false | ?%bool_decide_eq_false]; lia.
Qed.

Lemma clear_protected p rng :
  ByteRange.start rng < ByteRange.end_ rng → Forall ByteRange.wf (protected p) →
  (∀ x, covered (protected p) x → ¬ ByteRange.covers rng x) →
  existsb (λ e, bool_decide (ByteRange.start e < ByteRange.end_ rng)
    && bool_decide (ByteRange.start rng < ByteRange.end_ e)) (protected p) = false.
Proof.
  intros Hr Hwf Hx. apply existsb_false. intros e He. apply not_true_iff_false. intros Hb.
  apply andb_true_iff in Hb as [?%bool_decide_eq_true ?%bool_decide_eq_true].
  rewrite Forall_forall in Hwf. specialize (Hwf e He). unfold ByteRange.wf in Hwf.
  apply (Hx (Z.max (ByteRange.start e) (ByteRange.start rng))); [|unfold ByteRange.covers; lia].
  exists e. split; [done|unfold ByteRange.covers; lia].
Qed.

(** Bytes outside of the range written, the end of the file included. *)
Lemma overwrite_elsewhere off bytes old x :
  0 ≤ off → 0 ≤ x → off + Z.of_nat (length bytes) ≤ Z.of_nat (length old) →
  ¬ (off ≤ x < off + Z.of_nat (length bytes)) → overwrite off bytes old !! Z.to_nat x = old !! Z.to_nat x.
Proof.
  intros ? ? Hlen ?. destruct (decide (Z.to_nat x < length old)%nat).
  - apply overwrite_outside; [done|done|lia].
  - rewrite !lookup_ge_None_2; [done|lia|]. rewrite overwrite_length by lia. lia.
Qed.

Lemma overwrite_slice off bytes old :
  0 ≤ off → slice off (Z.of_nat (length bytes)) (overwrite off bytes old) = bytes.
Proof.
  intros Ho. apply list_eq. intros i. destruct (decide (i < length bytes)%nat).
  - rewrite lookup_slice by lia. replace (Z.to_nat (off + Z.of_nat i)) with (Z.to_nat off + i)%nat by lia.
    by apply overwrite_inside.
  - rewrite (lookup_ge_None_2 bytes) by lia. apply lookup_ge_None_2.
    unfold slice. rewrite length_take. lia.
Qed.

(** A write the checks let through succeeds when the calls do. *)
Lemma write_at_quiet off bytes w :
  Inv w → 0 ≤ off → quiet (fs w) → poisoned (part w) = false → sealed (part w) = false →
  Z.of_nat (length (coverage (part w))) < MAX_EXTENTS →
  off + Z.of_nat (length bytes) ≤ PartSpec.size (spec (part w)) →
  (∀ x, covered (protected (part w)) x → ¬ (off ≤ x < off + Z.of_nat (length bytes))) →
  (write_at off bytes w).1 = Ok tt.
Proof.
  destruct w as [p s]; cbn. intros [[Hs1 Hs2] _ Hcov Hprot _ _ _ _ _] Ho Hq Hp Hse Hroom Hsz Hx. cbn in *.
  unfold write_at, healthy. open_part. rewrite Hp. cbn. rewrite Hse. cbn.
  destruct (decide (bytes = [])) as [->|Hne]; [rewrite bool_decide_eq_false_2; [done|cbn in *; lia]|].
  assert (0 < Z.of_nat (length bytes)) by (destruct bytes; [done|cbn; lia]).
  set (rng := ByteRange.Make off (off + Z.of_nat (length bytes))).
  assert (range p off (Z.of_nat (length bytes)) = Ok rng) as ->.
  { unfold range. unfold_monad. unfold checked_add. rewrite decide_True by ints.
    rewrite bool_decide_eq_false_2 by lia. by rewrite ByteRange.new_eq by lia. }
  rewrite (clear_protected p rng);
    [|cbn; lia|apply (Forall_impl _ _ _ Hprot); tauto|exact Hx].
  pose proof (coverage_plan_bounded p rng ltac:(done) Hcov ltac:(cbn; lia) ltac:(cbn; lia) Hroom) as Hpl.
  destruct (coverage_plan p rng) as [[[a b] m]|]; [|done]. cbn.
  unfold io at 1, access. rewrite syscall_quiet by done. cbn.
  unfold io, write_all. by rewrite syscall_quiet by done.
Qed.

(** Writing covers exactly what was written.  On success the bytes are in the file
    and every other byte is as before, the coverage grows by exactly the range, and any
    verification is void.  A refusal changes nothing, and a failed write leaves the
    coverage as it was and a handle that refuses every later call.  No write, failed or
    not, changes a recovered byte.  Without I/O failures a healthy, unsealed handle
    with room for an extent accepts every range inside the object that overlaps no
    recovered one. *)
Theorem write_covers_exactly w off bytes r w' :
  reachable w → u64 off → write_at off bytes w = (r, w') →
  let p := part w in
  let inside x := off ≤ x < off + Z.of_nat (length bytes) in
  (∀ x, 0 ≤ x → covered (protected p) x → bytes_of w' !! Z.to_nat x = bytes_of w !! Z.to_nat x) ∧
  (∀ x, 0 ≤ x → ¬ inside x → bytes_of w' !! Z.to_nat x = bytes_of w !! Z.to_nat x) ∧
  match r with
  | Ok _ =>
      slice off (Z.of_nat (length bytes)) (bytes_of w') = bytes ∧
      (∀ x, covered (coverage (part w')) x ↔ covered (coverage p) x ∨ inside x) ∧
      (bytes ≠ [] → verified (part w') = None ∧ synchronized (part w') = false)
  | Err e => w' = w ∨ coverage (part w') = coverage p ∧ refuses w'
  end ∧
  (quiet (fs w) → poisoned p = false → sealed p = false → Z.of_nat (length (coverage p)) < MAX_EXTENTS →
   off + Z.of_nat (length bytes) ≤ PartSpec.size (spec p) → (∀ x, covered (protected p) x → ¬ inside x) →
   r = Ok tt).
Proof.
  intros Hreach [Ho _] Hr p inside. pose proof (reachable_Healthy _ Hreach) as [Hinv _].
  pose proof Hinv as [Hsp _ Hcov _ _ Hlen _ _ _].
  split_and!; [..|intros; replace r with (write_at off bytes w).1 by (by rewrite Hr); by apply write_at_quiet].
  all: apply write_at_run in Hr as [[-> Hok]|(rng & plan & Hne & Hpo & _ & Hrng & Hex & Hplan & Hr)]; try done.
  3:{ destruct r as [[]|]; [|by left]. destruct Hok as [-> ?]; [done|]. split_and!; [done| |done].
      intros x. unfold inside. cbn. intuition lia. }
  all: apply range_Ok in Hrng as (-> & Hlt & Hsz & _).
  1: intros x Hx Hprot; apply (protected_clear _ _ Hex) in Hprot; revert x Hx Hprot.
  1,2: unfold inside, bytes_of in *; unfold ByteRange.covers; cbn; intros x Hx Hout;
    destruct Hr as [(k & _ & Hp & [Hs|(n & _ & Hc & _)])|(_ & Hp & _ & Hc & _)];
    assert (file (part w') = file (part w)) as -> by (rewrite Hp; by destruct plan as [[??]?]);
    [by rewrite (same_content _ _ _ Hs)|rewrite Hc; apply overwrite_elsewhere; rewrite ?length_take; lia..].
  destruct Hr as [(k & -> & Hp & _)|(-> & Hp & _ & Hc & _)].
  - right. split; [by rewrite Hp|]. apply poisoned_refuses. by rewrite Hp.
  - destruct (coverage_plan_Ok p (dirty p) (ByteRange.Make off (off + Z.of_nat (length bytes))) plan Hcov ltac:(cbn; lia) Hsz Hplan eq_refl) as [_ Hx].
    assert (file (part w') = file (part w)) as Hf by (rewrite Hp; by destruct plan as [[??]?]).
    unfold bytes_of. rewrite Hf, Hc. split_and!; [by apply overwrite_slice| |].
    + intros x. assert (coverage (part w') = coverage (add_coverage plan (dirty p))) as -> by by rewrite Hp. apply Hx.
    + intros _. rewrite Hp. by destruct plan as [[??]?].
Qed.

(** C29: A digest is given out exactly on evidence.  When [verify] answers with a digest,
    the part is complete, synchronized and of its length, the record attests every byte
    and each recorded range still has its digest, the digest is that of the bytes and
    the one the request carried.  Without I/O failures this is also enough.  Verifying
    changes no file, and an attempt that fails leaves no earlier verification standing. *)
Theorem verify_is_exactly_the_evidence w expected record :
  reachable w → Forall (λ e, ByteRange.wf e.1) record →
  (∀ r w', verify sha256 expected record w = (r, w') →
    same (fs w) (fs w') ∧
    match r with
    | Ok d => attested sha256 (part w) (bytes_of w) expected record d ∧ verified (part w') = Some d
    | Err _ => w' = w ∧ poisoned (part w) = true ∨ verified (part w') = None
    end) ∧
  (∀ d, quiet (fs w) → poisoned (part w) = false →
    attested sha256 (part w) (bytes_of w) expected record d →
    (verify sha256 expected record w).1 = Ok d).
Proof.
  intros [[[Hsize _] _ _ _ _ _ _ _ _] _]%reachable_Healthy Hwf. split.
  - intros r w' Hr. apply (verify_run sha256) in Hr as [Hs Hr]; [|done]. split; [done|].
    destruct Hr as [(-> & Hpo & Hok)|[_ [[Hp Hok]|(d & -> & Hp & Hat)]]].
    + destruct r; [done|by left].
    + destruct r; [done|]. right. by rewrite Hp.
    + by rewrite Hp.
  - intros d Hq Hpo Hat. by destruct (verify_quiet sha256 expected record w d) as (s' & -> & _).
Qed.

(** The destination [name] holds the part's own file, whose bytes are the object's size
    and have the digest that was verified. *)
Definition exposed (w w' : world) (name : Name) : Prop :=
  Fs.nodes (fs w') !! name = Some (File (file (part w))) ∧
  Fs.content (fs w') (file (part w)) = bytes_of w ∧
  Z.of_nat (length (bytes_of w)) = PartSpec.size (spec (part w)) ∧
  verified (part w) = Some (sha256 (bytes_of w)).

(** C28: Publishing exposes verified bytes or nothing.  Whatever fails, no name but the
    destination and the staged one changes, no content but the sidecar's does, and a
    name that existed is never replaced.  On success the destination names the part's
    own file, of the object's size and the digest last verified; after an error it is
    as it was, or, when only the final syncs failed, names those same bytes and the
    handle refuses every later call. *)
Theorem publish_exposes_only_verified_bytes w d r w' :
  reachable w → Destination.resolved d ≠ staged_name (spec (part w)) →
  publish sha256 d w = (r, w') →
  let name := Destination.resolved d in
  (∀ m, m ≠ name → m ≠ staged_name (spec (part w)) → Fs.nodes (fs w') !! m = Fs.nodes (fs w) !! m) ∧
  (∀ i, i ≠ metadata (part w) → Fs.content (fs w') i = Fs.content (fs w) i) ∧
  match r with
  | Ok n => n = name ∧ Fs.nodes (fs w) !! name = None ∧ exposed w w' name ∧
      published (part w') = true ∧ sealed_on_disk (meta_of w')
  | Err _ => Fs.nodes (fs w') !! name = Fs.nodes (fs w) !! name ∨
      Fs.nodes (fs w) !! name = None ∧ exposed w w' name ∧ refuses w'
  end.
Proof.
  intros Hreach Hname Hr name. pose proof (reachable_Healthy _ Hreach) as Hw.
  pose proof (publish_Inv _ _ _ _ Hw Hr) as [Hw' _]. destruct Hw as [Hinv Hn].
  pose proof Hinv as [[Hsize _] Hpath _ _ Hh Hlen _ _ Hv].
  apply publish_run in Hr as [(Hs & Hok & _)|(expected & s1 & Hpo & Hver & _ & _ & _ & Hs & Hr)].
  { pose proof Hs as (Hnd & _ & _). split_and!.
    - intros. by rewrite Hnd.
    - intros. by apply same_content.
    - destruct r; [done|]. left. by rewrite Hnd. }
  specialize (Hn Hpo). pose proof Hs as (Hnd & _ & _). destruct (Hv _ Hver) as (Hexp & _).
  apply (expose_run sha256 expected _ (World (part w) s1)) in Hr as (s2 & new & (Hnd2 & _ & Ho2) & _ & Hr); cbn in *;
    [|done|by rewrite Hpath].
  assert (∀ i, i ≠ metadata (part w) → Fs.content s2 i = Fs.content (fs w) i) as Ho.
  { intros i Hi. by rewrite Ho2, (same_content _ _ _ Hs). }
  destruct Hr as [(Hok & _ & Hs')|(_ & [(Hok & _ & Ht)|(ino & Hino & Hfree & _ & Hnew & Hd & He & Hno & Hp)])].
  - rewrite Hs'. split_and!; [by intros; rewrite Hnd2, Hnd|done|].
    destruct r; [done|]. left. by rewrite Hnd2, Hnd.
  - pose proof Ht as [Htn _]. split_and!.
    + intros. by rewrite Htn, Hnd2, Hnd.
    + intros. by rewrite (touches_content _ _ _ _ Ht), Ho.
    + destruct r; [done|]. left. by rewrite Htn, Hnd2, Hnd.
  - assert (∀ i, Fs.content (fs w') i = Fs.content s2 i) as Hc by (intros; unfold Fs.content; by rewrite Hd).
    assert (ino = file (part w)) as -> by (destruct Hn as [Hn _]; rewrite Hnd in Hino; congruence).
    assert (exposed w w' name) as Hex.
    { split_and!; [done|by rewrite Hc, Ho|done|by rewrite Hver, Hexp]. }
    rewrite Hnd in Hfree. split_and!.
    + intros. by rewrite Hno, Hnd.
    + intros. by rewrite Hc, Ho.
    + destruct Hp as [[-> Hp]|[Hok Hp]].
      * split_and!; [done|done|done|by rewrite Hp|]. apply Hw'. right. by rewrite Hp.
      * destruct r; [done|]. right. split_and!; [done|done|]. apply poisoned_refuses. by rewrite Hp.
Qed.

(** *** Frozen generations *)

(** Nothing is covered but what was recovered, and writing is closed by the seal or by
    every byte being recovered. *)
Definition frozen (w : world) : Prop :=
  (∀ x, covered (coverage (part w)) x → covered (protected (part w)) x) ∧
  (sealed (part w) = true ∨ complete (part w) = true).

Lemma frozen_refuses off bytes w r w' :
  0 ≤ off → Inv w → frozen w → write_at off bytes w = (r, w') → w' = w ∧ (bytes ≠ [] → is_ok r = false).
Proof.
  intros Ho [[Hsize _] _ Hcov _ _ _ _ _ _] [Hall Hcl] Hr.
  pose proof Hr as Hrun. apply write_at_run in Hrun as [[-> Hok]|(rng & plan & Hne & _ & Hse & Hrng & Hex & _)].
  { split; [done|]. intros Hne. destruct r as [[]|]; [|done]. by destruct (Hok eq_refl). }
  exfalso. apply range_Ok in Hrng as (-> & Hlt & Hsz & _). destruct Hcl as [Hcl|Hcl]; [congruence|].
  apply (protected_clear _ _ Hex off); [|unfold ByteRange.covers; cbn; lia].
  apply Hall. apply (proj1 (complete_iff (part w) Hcov Hsize) Hcl). lia.
Qed.

(** The handle's file does not change, and what it needs stays. *)
Definition keeps_frozen (w w' : world) : Prop :=
  frozen w' ∧ file (part w') = file (part w) ∧ bytes_of w' = bytes_of w.

Lemma keeps_frozen_refl w : frozen w → keeps_frozen w w.
Proof. by split. Qed.

Lemma frozen_same w w' :
  frozen w → same (fs w) (fs w') → spec (part w') = spec (part w) → file (part w') = file (part w) →
  coverage (part w') = coverage (part w) → protected (part w') = protected (part w) →
  sealed (part w') = sealed (part w) → keeps_frozen w w'.
Proof.
  intros [Hall Hcl] Hs Hsp Hf Hc Hp Hse. unfold keeps_frozen, frozen, bytes_of, complete in *.
  rewrite Hf, Hc, Hp, Hse, Hsp. split_and!; try done. by apply same_content.
Qed.

Lemma publish_frozen d w r w' :
  Inv w → frozen w → publish sha256 d w = (r, w') → keeps_frozen w w'.
Proof.
  intros Hinv Hfr Hr. pose proof Hinv as [[Hsize _] Hpath _ _ Hh _ _ _ _].
  apply publish_run in Hr as [(Hs & _ & Hp)|(expected & s1 & _ & _ & _ & Hcomp & _ & Hs & Hr)].
  { by apply frozen_same; try done; destruct Hp as [-> | ->]. }
  apply (expose_run sha256 expected _ (World (part w) s1)) in Hr as (s2 & new & (_ & _ & Ho2) & _ & Hr); cbn in *;
    [|done|by rewrite Hpath].
  assert (Fs.content (fs w') (file (part w)) = Fs.content s2 (file (part w))) as Hc.
  { destruct Hr as [(_ & _ & ->)|(_ & [(_ & _ & Ht)|(ino & _ & _ & _ & _ & Hd & _)])]; [done|by apply (touches_content _ _ _ _ Ht)|].
    unfold Fs.content. by rewrite Hd. }
  rewrite Ho2, (same_content _ _ _ Hs) in Hc by done. destruct Hfr as [Hall Hcl].
  assert (∃ s v b u, part w' = set_published s (set_verified v (set_sealed b (set_poisoned u (part w))))) as (a & v & b & u & Hp).
  { exists (published (part w')), (verified (part w')), (sealed (part w')), (poisoned (part w')).
    destruct Hr as [(_ & Hp & _)|(_ & [(_ & [Hp|[Hp|Hp]] & _)|(_ & _ & _ & _ & _ & _ & _ & _ & [[_ Hp]|[_ Hp]])])];
      rewrite Hp; by destruct (part w). }
  unfold keeps_frozen, frozen, bytes_of. rewrite Hp. cbn. split_and!; [done|by right|done|done].
Qed.

Lemma step_frozen w w' : Healthy w → frozen w → step w w' → keeps_frozen w w'.
Proof.
  intros [Hinv _] Hfr [off bytes [? _]| |rng|rng digest ?|expected record ?|d| | |s (_&_&Hc&_)].
  - destruct (write_at off bytes w) eqn:Hr. by eapply frozen_refuses in Hr as [-> _].
  - destruct (sync w) eqn:Hr. apply sync_run in Hr as [Hs [[-> _]|[_ [[Hp _]|[Hp _]]]]]; [by apply keeps_frozen_refl|..];
      cbn; by apply frozen_same; rewrite ?Hp.
  - destruct (hash_range sha256 rng w) eqn:Hr. apply reads_run in Hr as [Hp Hs]; [|apply reads_hash_range].
    cbn; by apply frozen_same; rewrite ?Hp.
  - destruct (recover_extent sha256 rng digest w) as [r w1] eqn:Hr. cbn.
    apply (recover_extent_run sha256) in Hr as [Hs [[Hp _]|(_ & _ & He & _ & plan & Hplan & Hp)]]; [| |done].
    { cbn; by apply frozen_same; rewrite ?Hp. }
    destruct Hinv as [Hsp _ Hcov _ _ _ _ _ _]. destruct Hfr as [Hall Hcl].
    destruct (coverage_plan_Ok (part w) (set_protected (protected (part w) ++ [rng]) (part w)) rng plan Hcov
      ltac:(unfold ByteRange.wf in *; lia) He Hplan eq_refl) as [Hcov' Hx].
    set (q := add_coverage plan _) in *. assert (spec q = spec (part w) ∧ file q = file (part w) ∧
      sealed q = sealed (part w) ∧ protected q = protected (part w) ++ [rng]) as (Hq1 & Hq2 & Hq3 & Hq4)
      by (unfold q; by destruct plan as [[??]?]).
    unfold keeps_frozen, frozen, bytes_of. rewrite Hp, Hq2, Hq3, Hq4. split_and!; [|..|done|by apply same_content].
    + intros x [Hold|Hnew]%Hx; apply covered_app; [left; auto|]. right. apply covered_cons. by left.
    + destruct Hcl as [?|Hcl]; [by left|right]. destruct Hsp as [Hsize ?].
      apply complete_iff; rewrite Hq1; [done..|]. intros x Hin. apply Hx. left.
      by apply (proj1 (complete_iff (part w) Hcov Hsize) Hcl).
  - destruct (verify sha256 expected record w) eqn:Hr.
    apply (verify_run sha256) in Hr as [Hs [(-> & _)|[_ [[Hp _]|(d & _ & Hp & _)]]]]; [by apply keeps_frozen_refl|..|done];
      cbn; by apply frozen_same; rewrite ?Hp.
  - destruct (publish sha256 d w) eqn:Hr. by eapply publish_frozen.
  - destruct (discard w) as [r w1] eqn:Hr. apply discard_run in Hr as [Hd [[-> _]|[_ Hp]]]; [by apply keeps_frozen_refl|].
    unfold keeps_frozen, frozen, bytes_of, Fs.content; cbn. rewrite Hp, Hd. by destruct Hfr.
  - by apply frozen_same.
  - unfold keeps_frozen, bytes_of; cbn. by split_and!.
Qed.

Lemma steps_frozen w w' : rtc step w w' → Healthy w → frozen w → Healthy w' ∧ keeps_frozen w w'.
Proof.
  induction 1 as [w|w w1 w2 Hs _ IH]; intros Hw Hf; [by split_and!|].
  pose proof (step_Healthy _ _ Hw Hs) as Hw1. apply step_frozen in Hs as (Hf1 & Hfile & Hb); [|done|done].
  destruct (IH Hw1 Hf1) as [? (?&?&?)]. unfold keeps_frozen. split_and!; [done|done|congruence..].
Qed.

(** A published generation is frozen.  Reopening a part that was sealed or published
    gives a sealed handle on the same bytes, and whatever is then called on it, failures
    included, the bytes that the published name shares never change and every write is
    refused. *)
Theorem reopened_generation_is_frozen w p s w' :
  reachable w → sealed (part w) = true ∨ published (part w) = true → poisoned (part w) = false →
  open_inner (spec (part w)) false (fs w) = (Ok p, s) → rtc step (World p s) w' →
  sealed p = true ∧ file (part w') = file (part w) ∧ bytes_of w' = bytes_of w ∧
  ∀ off bytes, 0 ≤ off → bytes ≠ [] → is_ok (write_at off bytes w').1 = false ∧ (write_at off bytes w').2 = w'.
Proof.
  intros Hreach Hse Hpo Hop Hsteps. pose proof (reachable_Healthy _ Hreach) as [Hinv Hn].
  specialize (Hn Hpo). destruct Hn as [Hn1 Hn2]. pose proof Hinv as [Hsp Hpath _ _ Hh _ Hm Hdisk _].
  specialize (Hdisk Hse). pose proof Hop as Hop'.
  apply open_Ok_part in Hop' as (f & m & -> & Hs & Hf & Hm' & _). rewrite Hpath in Hn1. simplify_eq.
  assert (bool_decide (Fs.content (fs w) (metadata (part w)) !! 33%nat = Some 1) = true) as Hbd
    by by apply bool_decide_eq_true_2.
  rewrite Hbd in *. split; [done|].
  set (p := fresh_part _ _ _ _ _) in *.
  assert (Healthy (World p s)) as Hw0.
  { apply reachable_Healthy. by apply (reach_open (spec (part w)) (fs w)). }
  assert (frozen (World p s)) as Hf0 by (split; [done|by left]).
  destruct (steps_frozen _ _ Hsteps Hw0 Hf0) as [[Hi _] (Hfr & Hfile & Hb)].
  split_and!; [done|by rewrite Hb; apply same_content|].
  intros off bytes Ho Hne. destruct (write_at off bytes w') as [r w2] eqn:Hr.
  apply frozen_refuses in Hr as [-> Hok]; [|done..]. auto.
Qed.
End Theorems.

(** ** Creating and opening *)

Lemma open_quiet sp s f m :
  quiet s → Fs.nodes s !! part_name sp = Some (File f) → Fs.nodes s !! meta_name sp = Some (File m) →
  Z.of_nat (length (Fs.content s f)) = PartSpec.size sp → Fs.content s m = identity sp false →
  open_inner sp false s = (Ok (fresh_part sp f m false false), s).
Proof.
  intros Hq Hf Hm Hlen Hid.
  assert (∀ n i, Fs.nodes s !! n = Some (File i) → check_optional n s = (Ok tt, s)) as Hopt.
  { intros n i Hn. unfold check_optional, ordinary, symlink_metadata. rewrite syscall_quiet by done. cbn. rewrite Hn. cbn.
    unfold_monad. unfold io. rewrite syscall_quiet by done. by rewrite Hn. }
  assert (io access s = (Ok tt, s)) as Hacc by (unfold io, access; by rewrite syscall_quiet).
  unfold open_inner. unfold_monad. rewrite Hacc, (Hopt _ _ Hf), (Hopt _ _ Hm).
  unfold Files.open. rewrite syscall_quiet by done. rewrite Hf. cbn.
  unfold io at 1. rewrite syscall_quiet by done. rewrite Hm. cbn.
  unfold io at 1, file_len at 1. rewrite syscall_quiet by done. cbn. rewrite Hid, identity_length.
  rewrite bool_decide_eq_false_2 by (unfold META_LEN; lia).
  unfold io at 1, file_len at 1. rewrite syscall_quiet by done. cbn.
  rewrite bool_decide_eq_false_2 by lia.
  unfold io at 1, read_exact at 1. rewrite syscall_quiet by done. cbn. rewrite Hid.
  assert (slice 0 META_LEN (identity sp false) = identity sp false) as ->.
  { rewrite <-(slice_whole (identity sp false)) at 2. by rewrite identity_length. }
  rewrite identity_length, decide_True by done. cbn.
  assert (identity sp false !! 33%nat = Some 0) as ->.
  { unfold identity. by rewrite !lookup_app_r by (rewrite ?to_le_bytes_length; cbn; lia). }
  cbn. rewrite bool_decide_eq_false_2 by (intros [?|?]; [done|lia]). rewrite Hacc. done.
Qed.

(** A part that was created can be reopened, and only as itself.  Reopening finds the
    same two files, not sealed and with nothing covered, and succeeds when the calls do;
    the same generation under another size is refused, and creating it again is refused
    whatever fails, so a surviving generation is never truncated. *)
Theorem created_part_reopens_as_itself sp s p s' :
  spec_wf sp → open_inner sp true s = (Ok p, s') →
  (∀ fates p' s'', open_inner sp false (Fs.set_faults fates s') = (Ok p', s'') →
     p' = fresh_part sp (file p) (metadata p) false false) ∧
  (open_inner sp false (Fs.set_faults [] s')).1 = Ok (fresh_part sp (file p) (metadata p) false false) ∧
  (∀ sp' fates, part_name sp' = part_name sp → PartSpec.size sp' ≠ PartSpec.size sp →
     is_ok (open_inner sp' false (Fs.set_faults fates s')).1 = false) ∧
  (∀ fates, is_ok (open_inner sp true (Fs.set_faults fates s')).1 = false).
Proof.
  intros [Hsp _] (f & m & -> & Hne & Hn & _ & Hf & Hm)%create_Ok. cbn.
  assert (Fs.nodes s' !! part_name sp = Some (File f)) as Hn1
    by by rewrite Hn, lookup_insert_ne, lookup_insert_eq.
  assert (Fs.nodes s' !! meta_name sp = Some (File m)) as Hn2 by by rewrite Hn, lookup_insert_eq.
  assert (Z.of_nat (length (Fs.content s' f)) = PartSpec.size sp) as Hlen by (rewrite Hf, length_resize; lia).
  assert (∀ fates i, Fs.content (Fs.set_faults fates s') i = Fs.content s' i) as Hc by done.
  split_and!.
  - intros fates p' s'' (f' & m' & -> & _ & Hf' & Hm' & _ & _)%open_Ok_part. cbn in Hf', Hm'. simplify_eq.
    by rewrite Hc, Hm.
  - by rewrite (open_quiet sp _ f m).
  - intros sp' fates Heq Hsize. destruct (open_inner _ _ _) as [[p'|] s''] eqn:Hr; [|done]. exfalso.
    apply open_Ok_part in Hr as (f' & m' & _ & _ & Hf' & _ & Hlen' & _). cbn in Hf'.
    rewrite Heq, Hn1 in Hf'. simplify_eq. rewrite Hc in Hlen'. lia.
  - intros fates. destruct (open_inner _ _ _) as [[p'|] s''] eqn:Hr; [|done]. exfalso.
    apply create_Ok in Hr as (_ & _ & _ & _ & _ & Hnone & _). cbn in Hnone. congruence.
Qed.

(** ** A run of the store

    Any function does for the digest: here, the bytes themselves. *)

Definition toy_sha256 (bytes : list Z) : digest32 := bytes.
Definition run_spec : PartSpec.t := PartSpec.Make (JobId.Make 7) (Generation.Make 1) 3.
Definition created : world := World (fresh_part run_spec 0 1 true false) (open_inner run_spec true Fs.empty).2.
Definition whole : ByteRange.t := ByteRange.Make 0 3.
Definition run_record : list (ByteRange.t * digest32) := [(whole, [1; 2; 3])].
Definition written : world := (write_at 0 [1; 2; 3] created).2.
Definition verified_run : world := (verify toy_sha256 None run_record (sync written).2).2.
Definition target (c : Z) : Destination.t := Destination.Make [c] (Leaf [c]).
Definition published_run : world := (publish toy_sha256 (target 97) verified_run).2.

Lemma created_reachable : reachable toy_sha256 created.
Proof. apply (reach_create _ run_spec Fs.empty); [by vm_compute|vm_compute; reflexivity]. Defined.
Lemma written_reachable : reachable toy_sha256 written.
Proof. eapply reach_step; [exact created_reachable|]. apply (step_write _ _ 0). ints. Defined.
Lemma verified_reachable : reachable toy_sha256 verified_run.
Proof.
  eapply reach_step; [eapply reach_step; [exact written_reachable|apply step_sync]|]. apply step_verify.
  constructor; [cbn; unfold ByteRange.wf; cbn; ints|constructor].
Defined.
Lemma published_reachable : reachable toy_sha256 published_run.
Proof. eapply reach_step; [exact verified_reachable|apply step_publish]. Defined.

Lemma reachable_part_invariant_witness :
  reachable toy_sha256 published_run ∧ published (part published_run) = true ∧
  sealed_on_disk (meta_of published_run).
Proof.
  split_and!; [exact published_reachable|by vm_compute|].
  apply (reachable_part_invariant toy_sha256 published_run published_reachable). right. by vm_compute.
Defined.

Lemma write_covers_exactly_witness :
  write_at 1 [9] created = (Ok tt, (write_at 1 [9] created).2) ∧
  slice 1 1 (bytes_of (write_at 1 [9] created).2) = [9].
Proof.
  assert (write_at 1 [9] created = (Ok tt, (write_at 1 [9] created).2)) as Hr by (vm_compute; reflexivity).
  split; [exact Hr|].
  apply (write_covers_exactly toy_sha256 created 1 [9] _ _ created_reachable ltac:(ints) Hr).
Defined.

Lemma verify_is_exactly_the_evidence_witness :
  (verify toy_sha256 None run_record (sync written).2).1 = Ok [1; 2; 3].
Proof.
  apply (verify_is_exactly_the_evidence toy_sha256 (sync written).2 None run_record).
  - eapply reach_step; [exact written_reachable|apply step_sync].
  - constructor; [cbn; unfold ByteRange.wf; cbn; ints|constructor].
  - by vm_compute.
  - by vm_compute.
  - split; try (vm_compute; reflexivity).
    + intros x Hx. apply covered_cons. left. exact Hx.
    + constructor; [|constructor]. split; [cbn; vm_compute; discriminate|vm_compute; reflexivity].
    + by left.
Defined.

Lemma publish_exposes_only_verified_bytes_witness :
  exposed toy_sha256 verified_run published_run (Leaf [97]).
Proof.
  assert (publish toy_sha256 (target 97) verified_run = (Ok (Leaf [97]), published_run)) as Hr
    by (vm_compute; reflexivity).
  apply (publish_exposes_only_verified_bytes toy_sha256 verified_run (target 97) _ _ verified_reachable ltac:(done) Hr).
Defined.

Lemma reopened_generation_is_frozen_witness :
  ∃ p s, open_inner run_spec false (fs published_run) = (Ok p, s) ∧ sealed p = true.
Proof.
  destruct (open_inner run_spec false (fs published_run)) as [[p|e] s] eqn:Hr; [|by vm_compute in Hr].
  exists p, s. split; [done|].
  eapply (reopened_generation_is_frozen toy_sha256 published_run p s _ published_reachable);
    [right; by vm_compute|by vm_compute|exact Hr|apply rtc_refl].
Defined.

Lemma created_part_reopens_as_itself_witness :
  (open_inner run_spec false (Fs.set_faults [] (fs created))).1 = Ok (fresh_part run_spec 0 1 false false).
Proof.
  eapply (created_part_reopens_as_itself run_spec Fs.empty (part created));
    [by vm_compute|vm_compute; reflexivity].
Defined.

(** What a second publication can do to the first: its staging fails, the handle forgets
    that it is sealed, and the next write changes the bytes of the published name. *)
Example failed_second_publish_unseals_published_bytes :
  let failing := World (part published_run) (Fs.set_faults
    [None; None; None; None; None; None; None; None; Some (ErrorKind.Other, 0%nat)] (fs published_run)) in
  let second := publish toy_sha256 (target 98) failing in
  let third := write_at 0 [9] second.2 in
  second.1 = Err (StorageError.Io ErrorKind.Other) ∧ third.1 = Ok tt ∧
  Fs.nodes (fs third.2) !! Leaf [97] = Some (File 0) ∧ Fs.content (fs third.2) 0 = [9; 2; 3].
Proof. by vm_compute. Qed.
