(* ===== verification/Buffers.v ===== *)
(** * Buffers

    [src/crates/runtime/src/buffers.rs]: the pool that bounds the memory between the
    network and the writer.  A permit of the semaphore stands for one block; a block
    that was used before is kept for the next buffer.  The machine decides whether a
    caller waits, is cancelled or finds the pool closed, never more than that. *)

From S2P Require Import Prelude.

Definition MAX_BUFFER : Z := 262144.

Module BufferError.
Inductive t : Type := InvalidBudget | InvalidLength | Cancelled | Closed.
#[global] Instance t_eq_dec : EqDecision t.
Proof. solve_decision. Defined.
End BufferError.

Module Buffer.
Record t : Type := Make { bytes : list Z; len : Z }.
Definition as_slice (b : t) : list Z := take (Z.to_nat (len b)) (bytes b).
Definition is_empty (b : t) : bool := bool_decide (len b = 0).
(** [as_mut_slice().copy_from_slice(data)]: the caller's part of the block. *)
Definition fill (data : list Z) (b : t) : t := Make (data ++ drop (length data) (bytes b)) (len b).
(** [copy_from_slice] into the bytes after the buffer's own. *)
Definition append (other b : t) : option t :=
  end_ ← checked_add (len b) (len other);
  if decide (Z.of_nat (length (bytes b)) < end_) then None
  else Some (Make (as_slice b ++ as_slice other ++ drop (Z.to_nat end_) (bytes b)) end_).
End Buffer.

Module BufferPool.
(** [permits] are the ones not taken; [closed] is the semaphore's. *)
Record t : Type := Make {
  block : Z; blocks : Z; permits : Z; free : list (list Z); closed : bool }.

Definition new (budget : Z) : result BufferError.t t :=
  if decide (1 ≤ budget ≤ 536870912) then
    let block := Z.min budget MAX_BUFFER in
    let blocks := budget / block in
    Ok (Make block blocks blocks [] false)
  else Err BufferError.InvalidBudget.

Definition capacity (p : t) : Z := block p * blocks p.
Definition in_use (p : t) : Z := (blocks p - permits p) * block p.
Definition close (p : t) : t := Make (block p) (blocks p) (permits p) (free p) true.

(** [acquire], once the wait is over: cancelled, closed or with a permit.  [None] is a
    caller still waiting for one. *)
Definition acquire (len : Z) (cancelled : bool) : st t BufferError.t (option Buffer.t) := λ p,
  if decide (len = 0 ∨ block p < len) then (Err BufferError.InvalidLength, p)
  else if cancelled then (Err BufferError.Cancelled, p)
  else if closed p then (Err BufferError.Closed, p)
  else if decide (permits p = 0) then (Ok None, p)
  else
    let '(bytes, free) := match last (free p) with
      | Some bytes => (bytes, take (length (free p) - 1) (free p))
      | None => (replicate (Z.to_nat (block p)) 0, free p)
      end in
    (Ok (Some (Buffer.Make (replicate (Z.to_nat len) 0 ++ drop (Z.to_nat len) bytes) len)),
     Make (block p) (blocks p) (permits p - 1) free (closed p)).

(** [Drop for Buffer]: the block is reusable before its permit is. *)
Definition drop_ (b : Buffer.t) (p : t) : t :=
  Make (block p) (blocks p) (permits p + 1) (free p ++ [Buffer.bytes b]) (closed p).

(** The pool and the buffers its callers hold. *)
Record world : Type := World { pool : t; live : list Buffer.t }.

Inductive step (w : world) : world → Prop :=
| step_acquire len cancelled b p :
    0 ≤ len → acquire len cancelled (pool w) = (Ok (Some b), p) → step w (World p (live w ++ [b]))
| step_fill i b data :
    live w !! i = Some b → Z.of_nat (length data) ≤ Buffer.len b →
    step w (World (pool w) (<[i := Buffer.fill data b]> (live w)))
| step_append i j b other b' : i ≠ j →
    live w !! i = Some b → live w !! j = Some other → Buffer.append other b = Some b' →
    step w (World (pool w) (<[i := b']> (live w)))
| step_drop i b :
    live w !! i = Some b → step w (World (drop_ b (pool w)) (delete i (live w)))
| step_close : step w (World (close (pool w)) (live w)).

Inductive reachable (budget : Z) : world → Prop :=
| reach_new p : new budget = Ok p → reachable budget (World p [])
| reach_step w w' : reachable budget w → step w w' → reachable budget w'.
End BufferPool.

(** ** Theorems *)

Import BufferPool.

(** Every block the pool ever made is in use or waiting to be; all have one size. *)
Record pool_wf (budget : Z) (w : world) : Prop := {
  pw_block : 1 ≤ block (pool w) ≤ budget;
  pw_budget : block (pool w) * blocks (pool w) ≤ budget;
  pw_live : Z.of_nat (length (live w)) + permits (pool w) = blocks (pool w);
  pw_total : Z.of_nat (length (live w)) + Z.of_nat (length (free (pool w))) ≤ blocks (pool w);
  pw_permits : 0 ≤ permits (pool w);
  pw_free : Forall (λ l, Z.of_nat (length l) = block (pool w)) (free (pool w));
  pw_buffers : Forall (λ b, Z.of_nat (length (Buffer.bytes b)) = block (pool w) ∧
    0 < Buffer.len b ≤ block (pool w)) (live w) }.

Lemma acquired_buffer len cancelled p b p' :
  0 ≤ len → Forall (λ l, Z.of_nat (length l) = block p) (free p) →
  acquire len cancelled p = (Ok (Some b), p') →
  Buffer.len b = len ∧ 0 < len ≤ block p ∧ Z.of_nat (length (Buffer.bytes b)) = block p ∧
  Buffer.as_slice b = replicate (Z.to_nat len) 0 ∧ cancelled = false ∧ closed p = false ∧
  block p' = block p ∧ blocks p' = blocks p ∧ permits p' = permits p - 1 ∧ permits p ≠ 0 ∧
  Forall (λ l, Z.of_nat (length l) = block p) (free p') ∧
  (length (free p') = length (free p) - 1)%nat.
Proof.
  intros Hlen Hfree. unfold acquire. case_decide as Hl; [done|]. destruct cancelled; [done|].
  destruct (closed p) eqn:Hc; [done|]. case_decide as Hp; [done|].
  apply Decidable.not_or in Hl as [? ?].
  assert (∀ bytes, Z.of_nat (length bytes) = block p →
    Z.of_nat (length (replicate (Z.to_nat len) 0 ++ drop (Z.to_nat len) bytes)) = block p) as Hb.
  { intros bytes Hbs. rewrite length_app, length_replicate, length_drop. lia. }
  assert (∀ bytes, take (Z.to_nat len) (replicate (Z.to_nat len) 0 ++ drop (Z.to_nat len) bytes)
    = replicate (Z.to_nat len) 0) as Hs.
  { intros bytes. rewrite take_app_le by (rewrite length_replicate; lia). apply take_replicate_plus || rewrite take_ge; [done|rewrite length_replicate; lia]. }
  destruct (last (free p)) as [bytes|] eqn:Hla; intros [= <- <-]; cbn; unfold Buffer.as_slice; cbn.
  - apply last_Some in Hla as [l Hl]. rewrite Hl in *. apply Forall_app in Hfree as [Hf Hx].
    apply Forall_cons in Hx as [Hx _]. rewrite !(length_app l); cbn [length].
    replace (length l + 1 - 1)%nat with (length l) by lia. rewrite take_app_length.
    split_and!; first [done|lia|by apply Hb|by apply Hs].
  - apply last_None in Hla. rewrite Hla in *.
    split_and!; first [done|lia|by apply Hs|apply Hb; rewrite length_replicate; lia].
Qed.

Lemma pool_step budget w w' : pool_wf budget w → step w w' → pool_wf budget w'.
Proof.
  intros [[] ] Hs. destruct Hs as [len cancelled b p Hlen Ha|i b data Hi Hd|i j b other b' Hij Hi Hj Ha|i b Hi|].
  - apply acquired_buffer in Ha as (?&?&?&_&_&_&Hbl&Hbs&Hp&?&?&?); [|done|done].
    split; cbn; rewrite ?Hbl, ?Hbs, ?Hp, ?length_app; cbn; try done; try lia.
    apply Forall_app; split; [done|]. constructor; [lia|constructor].
  - split; cbn; rewrite ?length_insert; try done. apply Forall_insert; [done|].
    rewrite Forall_lookup in pw_buffers0. destruct (pw_buffers0 i b Hi). cbn. split; [|done].
    rewrite length_app, length_drop. lia.
  - split; cbn; rewrite ?length_insert; try done. apply Forall_insert; [done|].
    rewrite Forall_lookup in pw_buffers0. destruct (pw_buffers0 i b Hi) as [Hb [? ?]], (pw_buffers0 j other Hj) as [Ho [? ?]].
    unfold Buffer.append in Ha. cbn in Ha. destruct (checked_add _ _) as [e|] eqn:He; [|done].
    apply checked_add_Some in He as [-> _]. cbn in Ha. case_decide; [done|]. simplify_eq. cbn.
    unfold Buffer.as_slice. rewrite !length_app, !length_take, length_drop. lia.
  - pose proof (lookup_lt_Some _ _ _ Hi). rewrite Forall_lookup in pw_buffers0.
    destruct (pw_buffers0 i b Hi). split; cbn; rewrite ?length_delete, ?length_app by eauto; cbn; try done; try lia.
    + apply Forall_app; split; [done|by constructor].
    + apply Forall_delete, Forall_lookup. eauto.
  - by split.
Qed.

Lemma pool_reachable budget w : reachable budget w → pool_wf budget w.
Proof.
  induction 1 as [p Hp|w w' _ IH Hs]; [|by eapply pool_step].
  unfold new in Hp. case_decide as Hb; [|done]. simplify_eq.
  assert (1 ≤ Z.min budget MAX_BUFFER) by (unfold MAX_BUFFER; lia).
  pose proof (Z.div_pos budget (Z.min budget MAX_BUFFER) ltac:(lia) ltac:(lia)).
  pose proof (Z.mul_div_le budget (Z.min budget MAX_BUFFER) ltac:(lia)).
  revert H0 H1. generalize (budget / Z.min budget MAX_BUFFER). intros q ? ?.
  split; cbn; first [done|lia|by constructor].
Qed.

(** The memory between the network and the writer is bounded.  In every reachable pool
    the blocks in use and the ones kept for reuse fit the budget together, what is in use
    is exactly what callers hold, and a buffer handed out reads as zeros although its
    block may have held another job's bytes. *)
Theorem memory_stays_within_budget budget w :
  reachable budget w →
  in_use (pool w) = Z.of_nat (length (live w)) * block (pool w) ∧
  (Z.of_nat (length (live w)) + Z.of_nat (length (free (pool w)))) * block (pool w) ≤ budget ∧
  in_use (pool w) ≤ capacity (pool w) ≤ budget ∧
  ∀ len cancelled b p, 0 ≤ len → acquire len cancelled (pool w) = (Ok (Some b), p) →
    Buffer.as_slice b = replicate (Z.to_nat len) 0 ∧ Buffer.len b = len ∧
    in_use p = in_use (pool w) + block (pool w).
Proof.
  intros [Hb Hbud Hlive Htot Hperm Hfree _]%pool_reachable. unfold in_use, capacity.
  split_and!; [f_equal; lia|nia|nia|nia|].
  intros len cancelled b p Hlen (?&_&_&?&_&_&Hbl&Hbs&Hp&_)%acquired_buffer; [|done|done].
  split_and!; [done|done|]. rewrite Hbl, Hbs, Hp. lia.
Qed.

Lemma memory_stays_within_budget_witness :
  ∃ w, reachable 10 w ∧ in_use (pool w) = 10.
Proof.
  assert (reachable 10 (World (Make 10 1 0 [] false) [Buffer.Make (replicate 10 0) 4])) as Hr.
  { eapply reach_step; [apply reach_new; reflexivity|].
    apply (step_acquire (World (Make 10 1 1 [] false) []) 4 false); [lia|reflexivity]. }
  eexists. split; [exact Hr|]. apply (memory_stays_within_budget 10 _ Hr).
Defined.
