(* ===== verification/Writer.v ===== *)
(** * The writer lane

    [src/crates/runtime/src/writer.rs]: one thread owns a part and serves its commands
    in the order they were accepted.  Writes that are adjacent and already queued are
    put together; how many are queued when the thread looks is up to the machine. *)

From S2P Require Import Prelude.
From S2P Require Import Domain.
From S2P Require Import Files.
From S2P Require Import StorageFile.
From S2P Require Import Buffers.

Module WriterError.
Inductive t : Type :=
| InvalidCapacity | WrongGeneration | Bounds | Cancelled | Closed | WorkerFailed
| Storage (error : StorageError.t).
#[global] Instance t_eq_dec : EqDecision t.
Proof. solve_decision. Defined.
End WriterError.

(** What is sent back on a reply channel. *)
Inductive Answer : Type :=
| Done (r : result WriterError.t unit)
| Digest (r : result WriterError.t digest32)
| Published (r : result WriterError.t Name).

Module Command.
(** [reply] names the channel the answer goes to. *)
Inductive t : Type :=
| Write (offset : Z) (buffer : Buffer.t) (reply : nat)
| Sync (reply : nat)
| Hash (range : ByteRange.t) (reply : nat)
| Verify (expected : option digest32) (record : list (ByteRange.t * digest32)) (reply : nat)
| Publish (destination : Destination.t) (reply : nat)
| Discard (abandon : bool) (reply : nat).
End Command.

Module Lane.
Record t : Type := Make {
  file : FilePart.world;
  failure : option WriterError.t;
  replies : list (nat * Answer) }.
Definition start (w : FilePart.world) (capacity : Z) : result WriterError.t t :=
  if decide (1 ≤ capacity ≤ 256) then Ok (Make w None []) else Err WriterError.InvalidCapacity.
End Lane.

Section Lane.
Context (sha256 : list Z → digest32).

(** [match failure { Some(error) => Err(error), None => call }]. *)
Definition guarded {A} (call : FilePart.part_st A) (l : Lane.t) : result WriterError.t A * FilePart.world :=
  match Lane.failure l with
  | Some error => (Err error, Lane.file l)
  | None => let '(r, w) := call (Lane.file l) in (map_err WriterError.Storage r, w)
  end.

(** [if let Err(error) = result { failure = Some(error) }], unless it is a verdict. *)
Definition fail_on {A} (verdict : WriterError.t → bool) (r : result WriterError.t A)
    (failure : option WriterError.t) : option WriterError.t :=
  match r with
  | Err e => if verdict e then failure else Some e
  | Ok _ => failure
  end.
Definition never (_ : WriterError.t) : bool := false.
Definition is_storage (s : StorageError.t) (e : WriterError.t) : bool :=
  bool_decide (e = WriterError.Storage s).

(** The loop that puts queued writes together: [room] is how many more it may take. *)
Fixpoint coalesce (room : nat) (offset : Z) (buffer : Buffer.t) (to : list nat) (queue : list Command.t) :
    Buffer.t * list nat * list Command.t :=
  match room, queue with
  | S room, Command.Write next_offset next_buffer reply :: rest =>
      if decide (checked_add offset (Buffer.len buffer) = Some next_offset) then
        match Buffer.append next_buffer buffer with
        | Some buffer => coalesce room offset buffer (to ++ [reply]) rest
        | None => (buffer, to, queue)
        end
      else (buffer, to, queue)
  | _, _ => (buffer, to, queue)
  end.

(** One write of the file, answered to every channel. *)
Definition serve_write (offset : Z) (buffer : Buffer.t) (to : list nat) (l : Lane.t) : Lane.t :=
  let '(r, w) := guarded (FilePart.write_at offset (Buffer.as_slice buffer)) l in
  Lane.Make w (fail_on never r (Lane.failure l)) (Lane.replies l ++ ((λ i, (i, Done r)) <$> to)).

Definition serve (c : Command.t) (l : Lane.t) : Lane.t :=
  match c with
  | Command.Write offset buffer reply => serve_write offset buffer [reply] l
  | Command.Sync reply =>
      let '(r, w) := guarded FilePart.sync l in
      Lane.Make w (fail_on never r (Lane.failure l)) (Lane.replies l ++ [(reply, Done r)])
  | Command.Hash range reply =>
      let '(r, w) := guarded (FilePart.hash_range sha256 range) l in
      Lane.Make w (fail_on never r (Lane.failure l)) (Lane.replies l ++ [(reply, Digest r)])
  | Command.Discard abandon reply =>
      let '(r, w) := guarded (_ ← (if abandon then FilePart.abandon else mret tt); FilePart.discard) l in
      Lane.Make w (Some match r with Err e => e | Ok _ => WriterError.Closed end)
        (Lane.replies l ++ [(reply, Done r)])
  | Command.Publish destination reply =>
      let '(r, w) := guarded (FilePart.publish sha256 destination) l in
      Lane.Make w (fail_on (is_storage StorageError.Conflict) r (Lane.failure l))
        (Lane.replies l ++ [(reply, Published r)])
  | Command.Verify expected record reply =>
      let '(r, w) := guarded (FilePart.verify sha256 expected record) l in
      Lane.Make w (fail_on (is_storage StorageError.Integrity) r (Lane.failure l))
        (Lane.replies l ++ [(reply, Digest r)])
  end.

(** The thread, over the commands accepted before it stops.  [seen] is, for each write
    it takes up, how many more commands it finds queued; a batch is bounded by the
    channel's capacity. *)
Fixpoint run (fuel : nat) (capacity : nat) (seen : list nat) (queue : list Command.t) (l : Lane.t) : Lane.t :=
  match fuel, queue with
  | S fuel, Command.Write offset buffer reply :: rest =>
      let '(buffer, to, rest) :=
        coalesce (Nat.min (capacity - 1) (default 0%nat (head seen))) offset buffer [reply] rest in
      run fuel capacity (tail seen) rest (serve_write offset buffer to l)
  | S fuel, c :: rest => run fuel capacity seen rest (serve c l)
  | _, _ => l
  end.

(** *** The callers' side *)

(** Sending a command, unless the caller was cancelled while the lane was full, and the
    checks some callers make first; [sync], [verify], [publish] and [discard] only send. *)
Definition send (cancelled : bool) (c : Command.t) : st (list Command.t) WriterError.t unit :=
  if cancelled then throw WriterError.Cancelled else modify (λ queue, queue ++ [c]).
Definition write (lane spec : PartSpec.t) (cancelled : bool) (offset : Z) (buffer : Buffer.t) (reply : nat) :
    st (list Command.t) WriterError.t unit :=
  _ ← lift (refuse_if (bool_decide (spec ≠ lane)) WriterError.WrongGeneration);
  _ ← lift (refuse_if (negb (is_some_and (λ e, bool_decide (e ≤ PartSpec.size lane))
        (checked_add offset (Buffer.len buffer)))) WriterError.Bounds);
  send cancelled (Command.Write offset buffer reply).
Definition hash (lane : PartSpec.t) (cancelled : bool) (range : ByteRange.t) (reply : nat) :
    st (list Command.t) WriterError.t unit :=
  _ ← lift (refuse_if (bool_decide (PartSpec.size lane < ByteRange.end_ range)) WriterError.Bounds);
  send cancelled (Command.Hash range reply).
End Lane.
