(* ===== verification/WriterThm.v ===== *)
(** * Theorems on the writer lane

    Putting adjacent writes together cannot be observed, and a lane that failed never
    touches its file again. *)

From S2P Require Import Prelude.
From S2P Require Import Domain.
From S2P Require Import Files.
From S2P Require Import FilesInv.
From S2P Require Import StorageFile.
From S2P Require Import StorageInv.
From S2P Require Import StorageSteps.
From S2P Require Import StorageThm.
From S2P Require Import Buffers.
From S2P Require Import Writer.
Import FilePart.

(** ** Calls that do not fail by themselves *)

Definition calm {E A} (m : st Fs.t E A) : Prop := ∀ s, quiet s → quiet (m s).2.

Lemma calm_bind {E A B} (m : st Fs.t E A) (k : A → st Fs.t E B) :
  calm m → (∀ a, calm (k a)) → calm (m ≫= k).
Proof.
  intros Hm Hk s Hs. unfold mbind, st_bind. specialize (Hm s Hs). destruct (m s) as [[a|e] s']; cbn in *; [|done].
  by apply Hk.
Qed.
Lemma calm_keeps {E A} (m : st Fs.t E A) : (∀ s, quiet s → Fs.faults (m s).2 = []) → calm m.
Proof. done. Qed.
Lemma calm_syscall {A} p (op : fs_st A) : calm op → calm (syscall p op).
Proof. intros Hop s Hs. rewrite syscall_quiet by done. by apply Hop. Qed.
Lemma calm_io {A} (m : fs_st A) : calm m → calm (io m).
Proof. intros Hm s Hs. unfold io. specialize (Hm s Hs). by destruct (m s). Qed.
Lemma calm_pure {E A} (r : result E A) : calm (lift r).
Proof. by intros s. Qed.
Lemma calm_ret {E A} (a : A) : calm (E:=E) (mret a).
Proof. by intros s. Qed.
Lemma calm_access : calm access.
Proof. apply calm_syscall. by intros s. Qed.
Lemma calm_symlink_metadata n : calm (symlink_metadata n).
Proof. apply calm_syscall. by intros s. Qed.
Lemma calm_open n : calm (Files.open n).
Proof. apply calm_syscall. by intros s. Qed.
Lemma calm_file_len i : calm (file_len i).
Proof. apply calm_syscall. by intros s. Qed.
Lemma calm_read_exact i o l : calm (read_exact i o l).
Proof. apply calm_syscall. by intros s. Qed.
Lemma calm_write_all i o b : calm (write_all i o b).
Proof. apply calm_syscall. by intros s. Qed.
Lemma calm_hard_link a b : calm (hard_link a b).
Proof. apply calm_syscall. intros s Hs. destruct (Fs.nodes s !! a) as [[]|], (Fs.nodes s !! b); done. Qed.
Lemma calm_remove_file n : calm (remove_file n).
Proof. apply calm_syscall. intros s Hs. by destruct (Fs.nodes s !! n) as [[]|]. Qed.
Create HintDb calm discriminated.
#[local] Hint Resolve calm_bind calm_io calm_pure calm_ret calm_access calm_symlink_metadata calm_open
  calm_file_len calm_read_exact calm_write_all calm_hard_link calm_remove_file : calm.

Lemma calm_read_loop fuel ino off left : calm (read_loop fuel ino off left).
Proof.
  revert off left. induction fuel as [|fuel IH]; intros; cbn; [by auto with calm|]. case_decide; auto 10 with calm.
Qed.
#[local] Hint Resolve calm_read_loop : calm.

(** The same of methods on the handle and the files. *)
Definition calm_part {A} (m : part_st A) : Prop := ∀ w, quiet (fs w) → quiet (fs (m w).2).

Lemma calm_part_bind {A B} (m : part_st A) (k : A → part_st B) :
  calm_part m → (∀ a, calm_part (k a)) → calm_part (m ≫= k).
Proof.
  intros Hm Hk w Hw. unfold mbind, st_bind. specialize (Hm w Hw). destruct (m w) as [[a|e] w']; cbn in *; [|done].
  by apply Hk.
Qed.
Lemma calm_part_lift {A} (r : result StorageError.t A) : calm_part (lift r).
Proof. by intros w. Qed.
Lemma calm_part_ret {A} (a : A) : calm_part (mret a).
Proof. by intros w. Qed.
Lemma calm_part_throw {A} e : calm_part (A:=A) (throw e).
Proof. by intros w. Qed.
Lemma calm_part_self : calm_part self.
Proof. by intros w. Qed.
Lemma calm_part_update f : calm_part (update f).
Proof. by intros w. Qed.
Lemma calm_part_on_fs {A} (m : st Fs.t StorageError.t A) : calm m → calm_part (on_fs m).
Proof. intros Hm [p s] Hs. unfold on_fs, zoom; cbn in *. specialize (Hm s Hs). by destruct (m s). Qed.
#[local] Hint Resolve calm_part_bind calm_part_lift calm_part_ret calm_part_throw calm_part_self
  calm_part_update calm_part_on_fs : calm.

Section Calm.
Context (sha256 : list Z → digest32).

Lemma calm_hash_bytes ino off len : calm (hash_bytes sha256 ino off len).
Proof. unfold hash_bytes. auto 10 with calm. Qed.
#[local] Hint Resolve calm_hash_bytes : calm.

Lemma calm_write_at off bytes : calm_part (write_at off bytes).
Proof. unfold write_at. do 3 (apply calm_part_bind; [auto with calm|intros]). case_decide; auto 20 with calm. Qed.
Lemma calm_sync : calm_part sync.
Proof. unfold sync. auto 20 with calm. Qed.
Lemma calm_hash start len : calm_part (hash sha256 start len).
Proof. unfold hash. auto 10 with calm. Qed.
#[local] Hint Resolve calm_hash : calm.
Lemma calm_hash_range r : calm_part (hash_range sha256 r).
Proof. unfold hash_range. auto 10 with calm. Qed.
Lemma calm_rehash size record : calm_part (rehash sha256 size record).
Proof. induction record as [|[r d] record IH]; cbn; auto 10 with calm. Qed.
#[local] Hint Resolve calm_rehash : calm.
Lemma calm_verify expected record : calm_part (verify sha256 expected record).
Proof. unfold verify. auto 30 with calm. Qed.

Lemma calm_destination_free n : calm_part (destination_free n).
Proof.
  apply calm_part_on_fs. intros s Hs. pose proof (calm_symlink_metadata n s Hs).
  by destruct (symlink_metadata n s) as [[?|[]] ?].
Qed.
Lemma calm_seal : calm_part seal.
Proof. unfold seal. auto 20 with calm. Qed.
Lemma calm_stage e : calm_part (stage sha256 e).
Proof.
  intros [p s] Hs. unfold stage. cbn [part fs] in *.
  pose proof (calm_remove_file (staged_name (spec p)) s Hs) as H0. set (s0 := (remove_file _ s).2) in *.
  pose proof (calm_hard_link (path p) (staged_name (spec p)) s0 H0) as H1.
  destruct (hard_link _ _ s0) as [[?|?] s1]; [|done]. cbn [snd] in H1.
  pose (proof := (ino ← io (Files.open (staged_name (spec p))); hash_whole sha256 ino (PartSpec.size (spec p))
    : st Fs.t StorageError.t digest32)).
  assert (calm proof) as H2 by (unfold proof, hash_whole; auto with calm). specialize (H2 s1 H1).
  fold proof. destruct (proof s1) as [? s2]. cbn [snd] in H2. case_decide; [done|].
  by apply calm_remove_file.
Qed.
Lemma calm_link_destination n : calm_part (link_destination n).
Proof.
  intros [p s] Hs. unfold link_destination. cbn [part fs] in *. pose proof (calm_hard_link (staged_name (spec p)) n s Hs).
  destruct (hard_link _ _ s) as [[?|?] s1]; [done|]. by apply calm_remove_file.
Qed.
Lemma calm_ignore {A E} (m : fs_st A) : calm m → calm (E:=E) (ignore m).
Proof. intros Hm s Hs. by apply Hm. Qed.
Lemma calm_discard_name n : calm_part (discard_name n).
Proof.
  apply calm_part_on_fs. intros s Hs. pose proof (calm_remove_file n s Hs).
  by destruct (remove_file n s) as [[?|[]] ?].
Qed.
#[local] Hint Resolve calm_destination_free calm_seal calm_stage calm_link_destination calm_ignore calm_discard_name : calm.
Lemma calm_publish d : calm_part (publish sha256 d).
Proof.
  unfold publish. do 7 (apply calm_part_bind; [unfold resolve_destination, ordinary; auto 10 with calm|intros]).
  apply calm_part_bind; [auto with calm|intros]. apply calm_part_bind; [case_decide; auto with calm|intros].
  auto 30 with calm.
Qed.
Lemma calm_discard : calm_part discard.
Proof. unfold discard. auto 20 with calm. Qed.
End Calm.

(** ** Two adjacent writes are one *)

(** Coverage is canonical: ascending ranges with gaps are determined by their bytes. *)
Lemma coverage_canonical lo size l k :
  coverage_wf lo size l → coverage_wf lo size k → (∀ x, covered l x ↔ covered k x) → l = k.
Proof.
  revert lo k. induction l as [|[s e] l IH]; intros lo [|[s' e'] k]; cbn; [done|..].
  - intros _ (?&?&?&_) Hx. exfalso. apply (covered_nil s'), Hx, covered_cons. left. unfold ByteRange.covers; cbn. lia.
  - intros (?&?&?&_) _ Hx. exfalso. apply (covered_nil s), Hx, covered_cons. left. unfold ByteRange.covers; cbn. lia.
  - intros (?&?&?&Hl) (?&?&?&Hk) Hx.
    assert (∀ x, (s ≤ x < e ∨ covered l x) ↔ (s' ≤ x < e' ∨ covered k x)) as Hx'.
    { intros x. specialize (Hx x). rewrite !covered_cons in Hx. exact Hx. }
    pose proof (λ x, coverage_wf_covered e size l x Hl) as Bl.
    pose proof (λ x, coverage_wf_covered e' size k x Hk) as Bk.
    assert (s = s') as ->.
    { destruct (decide (s < s')) as [Hs|]; [|destruct (decide (s' < s)) as [Hs|]; [|lia]].
      - destruct (proj1 (Hx' s)) as [?|?%Bk]; [left; lia|lia|lia].
      - destruct (proj2 (Hx' s')) as [?|?%Bl]; [left; lia|lia|lia]. }
    assert (e = e') as ->.
    { destruct (decide (e < e')) as [He|]; [|destruct (decide (e' < e)) as [He|]; [|lia]].
      - destruct (proj2 (Hx' e)) as [?|?%Bl]; [left; lia|lia|lia].
      - destruct (proj1 (Hx' e')) as [?|?%Bk]; [left; lia|lia|lia]. }
    f_equal. apply (IH e' k); [done|done|]. intros x. specialize (Hx' x). specialize (Bl x). specialize (Bk x).
    split; intros Hc; [destruct (proj1 Hx' (or_intror Hc))|destruct (proj2 Hx' (or_intror Hc))]; try done;
      [specialize (Bl Hc)|specialize (Bk Hc)]; lia.
Qed.

Lemma overwrite_app off a b old :
  0 ≤ off → off + Z.of_nat (length a) + Z.of_nat (length b) ≤ Z.of_nat (length old) →
  overwrite (off + Z.of_nat (length a)) b (overwrite off a old) = overwrite off (a ++ b) old.
Proof.
  intros Ho Hlen. assert (length (overwrite off a old) = length old) as Hla by (rewrite overwrite_length; [done|done|lia]).
  apply list_eq_same_length with (length old); [rewrite overwrite_length; rewrite ?length_app; lia..|].
  intros i x y Hi Hx Hy. enough (Some x = Some y) by congruence. rewrite <-Hx, <-Hy.
  destruct (decide (Z.of_nat i < off + Z.of_nat (length a))) as [Hia|Hia].
  - rewrite overwrite_outside by lia. destruct (decide (Z.of_nat i < off)).
    + rewrite !overwrite_outside; [done|..]; rewrite ?length_app; lia.
    + replace i with (Z.to_nat off + (i - Z.to_nat off))%nat by lia.
      rewrite !overwrite_inside by (rewrite ?length_app; lia). by rewrite lookup_app_l by lia.
  - destruct (decide (Z.of_nat i < off + Z.of_nat (length a) + Z.of_nat (length b))).
    + replace i with (Z.to_nat (off + Z.of_nat (length a)) + (i - Z.to_nat off - length a))%nat at 1 by lia.
      rewrite overwrite_inside by lia.
      replace i with (Z.to_nat off + (i - Z.to_nat off))%nat at 2 by lia.
      rewrite overwrite_inside by (rewrite length_app; lia). by rewrite lookup_app_r by lia.
    + rewrite !overwrite_outside; [done|..]; rewrite ?length_app; lia.
Qed.

Section Split.
Context (sha256 : list Z → digest32).

(** What the checks of a write ask of a handle. *)
Definition writable (w : world) (off len : Z) : Prop :=
  poisoned (part w) = false ∧ sealed (part w) = false ∧ off + len ≤ PartSpec.size (spec (part w)) ∧
  ∀ x, covered (protected (part w)) x → ¬ (off ≤ x < off + len).

(** The handle after a write, but for its coverage. *)
Definition wrote (cov : list ByteRange.t) (p : t) : t :=
  set_coverage cov (set_poisoned false (dirty p)).

Lemma write_at_total off bytes w :
  Inv sha256 w → quiet (fs w) → 0 ≤ off → bytes ≠ [] → Z.of_nat (length (coverage (part w))) < MAX_EXTENTS →
  writable w off (Z.of_nat (length bytes)) →
  ∃ cov, write_at off bytes w = (Ok tt, World (wrote cov (part w))
      (Fs.put (file (part w)) (overwrite off bytes (bytes_of w)) (fs w))) ∧
    coverage_wf (-1) (PartSpec.size (spec (part w))) cov ∧ (length cov ≤ S (length (coverage (part w))))%nat ∧
    ∀ x, covered cov x ↔ covered (coverage (part w)) x ∨ off ≤ x < off + Z.of_nat (length bytes).
Proof.
  intros Hinv Hq Ho Hne Hroom (Hp & Hse & Hsz & Hx).
  pose proof (write_at_quiet sha256 off bytes w Hinv Ho Hq Hp Hse Hroom Hsz Hx) as Hok.
  destruct Hinv as [[Hs1 Hs2] _ Hcov _ _ _ _ _ _].
  destruct w as [p s]. cbn in *. unfold write_at, healthy in *. open_part. rewrite Hp, Hse in *. cbn in *.
  rewrite decide_False in * by done.
  destruct (range p off _) as [rng|] eqn:Hrng; [|done]. apply range_Ok in Hrng as (-> & Hlt & _ & _).
  destruct (existsb _ _); [done|].
  destruct (coverage_plan p _) as [plan|] eqn:Hplan; [|done]. cbn in *.
  unfold io in *. unfold access in *. rewrite !syscall_quiet in * by done. cbn in *.
  unfold write_all in *. rewrite !syscall_quiet in * by done. cbn in *.
  exists (coverage (add_coverage plan p)).
  destruct (coverage_plan_Ok p p (ByteRange.Make off (off + Z.of_nat (length bytes))) plan Hcov ltac:(cbn; lia) ltac:(cbn; lia) Hplan eq_refl) as [Hwf Hc].
  split_and!; [|done| |done].
  - unfold wrote, dirty. destruct plan as [[a b] m]. done.
  - destruct plan as [[a b] m]. unfold add_coverage, set_coverage. cbn [coverage]. rewrite !length_app, length_take, length_drop. cbn [length].
    unfold coverage_plan in Hplan. unfold_monad. destruct (absorb _ _ _) as [[n ?] ?]. case_bool_decide; [done|].
    destruct (ByteRange.new _ _); [|done]. simplify_eq. lia.
Qed.

(** The only ways a quiet write succeeds. *)
Lemma write_at_writable off bytes w :
  0 ≤ off → bytes ≠ [] → (write_at off bytes w).1 = Ok tt → writable w off (Z.of_nat (length bytes)).
Proof.
  intros Ho Hne Hok. destruct (write_at off bytes w) as [r w'] eqn:Hr. cbn in Hok. subst r.
  apply write_at_run in Hr as [[_ Hr]|(rng & plan & _ & ? & ? & Hrng & Hex & _)]; [by destruct Hr|].
  apply range_Ok in Hrng as (-> & ? & ? & _). split_and!; [done..|]. by apply (protected_clear _ _ Hex).
Qed.

(** Writing the parts of adjacent bytes is writing them at once: both succeed or neither,
    and then they agree on everything. *)
Lemma write_twice off a b w :
  Healthy sha256 w → quiet (fs w) → 0 ≤ off → a ≠ [] → b ≠ [] →
  Z.of_nat (length (coverage (part w))) + 1 < MAX_EXTENTS →
  (write_at off (a ++ b) w).1 = Ok tt ∨
    (write_at off a w).1 = Ok tt ∧ (write_at (off + Z.of_nat (length a)) b (write_at off a w).2).1 = Ok tt →
  (write_at off a w).1 = Ok tt ∧
  write_at (off + Z.of_nat (length a)) b (write_at off a w).2 = write_at off (a ++ b) w ∧
  (write_at off (a ++ b) w).1 = Ok tt.
Proof.
  intros Hw Hq Ho Ha Hb Hroom Hor. pose proof Hw as [Hinv _]. pose proof Hinv as [[? _] _ _ _ _ Hlen _ _ _].
  assert (writable w off (Z.of_nat (length a + length b))) as (Hp & Hse & Hsz & Hx).
  { destruct Hor as [Hab|[Hwa Hwb]].
    - apply write_at_writable in Hab; [by rewrite length_app in Hab|done|by destruct a].
    - apply write_at_writable in Hwa; [|done|done].
      destruct (write_at_total off a w) as (cov & He & _); [done..|lia|done|]. rewrite He in Hwb.
      apply write_at_writable in Hwb; [|lia|done]. destruct Hwa as (?&?&?&Hxa), Hwb as (_&_&Hsb&Hxb). cbn in *.
      split_and!; [done..|lia|]. intros x Hx. specialize (Hxa x Hx). specialize (Hxb x Hx). lia. }
  assert (writable w off (Z.of_nat (length a))) as Hwa.
  { split_and!; [done..|lia|]. intros x Hc. specialize (Hx x Hc). lia. }
  destruct (write_at_total off a w) as (cov1 & He1 & Hwf1 & Hlen1 & Hc1); [done..|lia|done|].
  destruct (write_at_total off (a ++ b) w) as (cov & He & Hwf & _ & Hc);
    [done|done|done|by destruct a|lia|by split_and!; rewrite ?length_app|].
  pose proof (write_at_Inv sha256 off a w _ _ Ho Hw He1) as [Hinv1 _].
  set (w1 := World _ _) in He1.
  destruct (write_at_total (off + Z.of_nat (length a)) b w1) as (cov2 & He2 & Hwf2 & _ & Hc2);
    [done|done|lia|done|cbn; lia| |].
  { split_and!; [done|done|cbn; lia|]. cbn. intros x Hcx. specialize (Hx x Hcx). lia. }
  rewrite He1; cbn [fst snd]; rewrite He2, He. split_and!; [done| |done]. f_equal.
  assert (cov2 = cov) as ->.
  { apply (coverage_canonical (-1) (PartSpec.size (spec (part w)))); [done|done|]. intros x.
    rewrite Hc2, Hc. unfold w1; cbn. rewrite Hc1, length_app. intuition lia. }
  unfold w1, bytes_of; cbn [part fs]. rewrite content_put_eq, overwrite_app; [|done|unfold bytes_of in *; lia].
  f_equal. unfold Fs.put, Fs.set_data; cbn. f_equal. by rewrite insert_insert_eq.
Qed.
End Split.

(** ** The lane *)

(** What the callers of the lane send: buffers of the pool at real offsets, typed ranges. *)
Definition buffer_ok (b : Buffer.t) : Prop := 0 < Buffer.len b ≤ Z.of_nat (length (Buffer.bytes b)).
Definition command_ok (c : Command.t) : Prop :=
  match c with
  | Command.Write offset b _ => 0 ≤ offset ∧ buffer_ok b
  | Command.Verify _ record _ => Forall (λ e, ByteRange.wf e.1) record
  | _ => True
  end.

Lemma slice_ok b : buffer_ok b → Z.of_nat (length (Buffer.as_slice b)) = Buffer.len b ∧ Buffer.as_slice b ≠ [].
Proof.
  intros [? ?]. unfold Buffer.as_slice. assert (length (take (Z.to_nat (Buffer.len b)) (Buffer.bytes b)) = Z.to_nat (Buffer.len b)) as Hl
    by (rewrite length_take; lia). split; [lia|]. intros Hnil. rewrite Hnil in Hl. cbn in Hl. lia.
Qed.

Lemma append_ok other b b' :
  buffer_ok b → buffer_ok other → Buffer.append other b = Some b' →
  buffer_ok b' ∧ Buffer.as_slice b' = Buffer.as_slice b ++ Buffer.as_slice other.
Proof.
  intros Hb Ho. pose proof (slice_ok b Hb) as [Hlb _]. pose proof (slice_ok other Ho) as [Hlo _].
  unfold Buffer.append. cbn. destruct (checked_add _ _) as [e|] eqn:He; [|done]. cbn.
  apply checked_add_Some in He as [-> _]. case_decide; [done|]. intros [= <-].
  unfold buffer_ok in *. split.
  - cbn. rewrite !length_app, length_drop. lia.
  - unfold Buffer.as_slice at 1; cbn. rewrite app_assoc, take_app_le by (rewrite length_app; lia).
    by rewrite take_ge by (rewrite length_app; lia).
Qed.

Section LaneThm.
Context (sha256 : list Z → digest32).
Implicit Types l : Lane.t.

Definition serve_all (queue : list Command.t) (l : Lane.t) : Lane.t :=
  foldl (λ l c, serve sha256 c l) l queue.

Lemma fail_on_some {A} v (r : result WriterError.t A) e : is_Some (fail_on v r (Some e)).
Proof. destruct r as [|e']; cbn; [by eexists|]. destruct (v e'); by eexists. Qed.

(** A failed lane answers every command with its failure and leaves its file alone. *)
Lemma failed_lane c l e :
  Lane.failure l = Some e → Lane.file (serve sha256 c l) = Lane.file l ∧ is_Some (Lane.failure (serve sha256 c l)) ∧
  ∃ i a, Lane.replies (serve sha256 c l) = Lane.replies l ++ [(i, a)] ∧
    a ∈ [Done (Err e); Digest (Err e); Published (Err e)].
Proof.
  intros He. destruct c; unfold serve, serve_write, guarded; rewrite He; cbn;
    (split; [done|]; split; [done || apply (fail_on_some (A:=unit)) || (case_match; by eexists)|];
     eexists _, _; split; [done|set_solver]).
Qed.

Lemma failure_sticks queue l : Lane.failure l ≠ None → Lane.failure (serve_all queue l) ≠ None.
Proof.
  revert l. induction queue as [|c queue IH]; intros l Hl; [done|]. cbn. apply IH.
  destruct (Lane.failure l) as [e|] eqn:He; [|done].
  destruct (failed_lane c l e He) as (_ & [e' ->] & _). done.
Qed.

(** A write on a lane that has not failed. *)
Lemma serve_write_ok offset b to l :
  Lane.failure l = None →
  Lane.failure (serve_write offset b to l) = None ↔ (write_at offset (Buffer.as_slice b) (Lane.file l)).1 = Ok tt.
Proof.
  intros Hf. unfold serve_write, guarded. rewrite Hf.
  destruct (write_at _ _ _) as [[[]|e] w]; cbn; by rewrite ?Hf.
Qed.
Lemma serve_write_eq offset b to l :
  Lane.failure l = None → (write_at offset (Buffer.as_slice b) (Lane.file l)).1 = Ok tt →
  serve_write offset b to l =
  Lane.Make (write_at offset (Buffer.as_slice b) (Lane.file l)).2 None
    (Lane.replies l ++ ((λ i, (i, Done (Ok tt))) <$> to)).
Proof.
  intros Hf Hok. unfold serve_write, guarded. rewrite Hf.
  destruct (write_at _ _ _) as [[[]|e] w]; cbn in *; done.
Qed.

Lemma coalesce_same room offset b to queue b' to' rest l :
  coalesce room offset b to queue = (b', to', rest) →
  Healthy sha256 (Lane.file l) → quiet (fs (Lane.file l)) → 0 ≤ offset → buffer_ok b → Forall command_ok queue →
  Z.of_nat (length (coverage (part (Lane.file l)))) + 1 < MAX_EXTENTS → Lane.failure l = None →
  buffer_ok b' ∧ ∃ taken, queue = taken ++ rest ∧
  (∃ more, Buffer.as_slice b' = Buffer.as_slice b ++ more) ∧
  (Lane.failure (serve_write offset b' to' l) = None ∨
   Lane.failure (serve_all taken (serve_write offset b to l)) = None →
   serve_write offset b' to' l = serve_all taken (serve_write offset b to l)).
Proof.
  intros Hco Hw Hq Ho. revert b to queue Hco.
  assert (∀ b to queue, (b, to, queue) = (b', to', rest) → buffer_ok b → 
    buffer_ok b' ∧ ∃ taken, queue = taken ++ rest ∧ (∃ more, Buffer.as_slice b' = Buffer.as_slice b ++ more) ∧
    (Lane.failure (serve_write offset b' to' l) = None ∨
     Lane.failure (serve_all taken (serve_write offset b to l)) = None →
     serve_write offset b' to' l = serve_all taken (serve_write offset b to l))) as Hstop.
  { intros b to queue [= -> -> ->] Hb. split; [done|]. exists []. split; [done|]. split; [|done].
    exists []. by rewrite app_nil_r. }
  induction room as [|room IH]; intros b to queue Hco Hb Hqueue Hroom Hf; cbn in Hco; [by eapply Hstop|].
  destruct queue as [|[next_offset next reply| | | | |] queue]; try by eapply Hstop.
  case_decide as Hadj; [|by eapply Hstop]. apply checked_add_Some in Hadj as [-> _].
  destruct (Buffer.append next b) as [b2|] eqn:Hap; [|by eapply Hstop].
  apply Forall_cons in Hqueue as [[_ Hnext] Hqueue].
  pose proof (append_ok next b b2 Hb Hnext Hap) as [Hb2 Hs2].
  destruct (IH b2 (to ++ [reply]) queue Hco Hb2 Hqueue Hroom Hf) as (Hb' & taken & -> & [more Hmore] & Heq).
  split; [done|]. exists (Command.Write (offset + Buffer.len b) next reply :: taken).
  split; [done|]. split; [exists (Buffer.as_slice next ++ more); by rewrite Hmore, Hs2, app_assoc|].
  pose proof (slice_ok b Hb) as [Hlen Hne]. pose proof (slice_ok next Hnext) as [_ Hnext_ne].
  set (w := Lane.file l) in *.
  assert (∀ Hor : (write_at offset (Buffer.as_slice b ++ Buffer.as_slice next) w).1 = Ok tt ∨
      (write_at offset (Buffer.as_slice b) w).1 = Ok tt ∧
      (write_at (offset + Buffer.len b) (Buffer.as_slice next) (write_at offset (Buffer.as_slice b) w).2).1 = Ok tt,
    serve_write offset b2 (to ++ [reply]) l =
    serve sha256 (Command.Write (offset + Buffer.len b) next reply) (serve_write offset b to l)) as Hstep.
  { intros Hor. rewrite <-Hlen in Hor |- *.
    destruct (write_twice sha256 offset _ _ w Hw Hq Ho Hne Hnext_ne Hroom Hor) as (Ha & Hab & Hok).
    cbn [serve]. rewrite (serve_write_eq offset b to l Hf Ha), (serve_write_eq offset b2); [|done|by rewrite Hs2].
    rewrite serve_write_eq; cbn [Lane.failure Lane.file Lane.replies]; [|done|by fold w; rewrite Hab].
    fold w. rewrite Hab, Hs2, fmap_app, <-app_assoc. done. }
  intros [Hok|Hok].
  - etrans; [apply Heq; by left|]. unfold serve_all; cbn [foldl]. rewrite <-Hstep; [done|]. left. rewrite <-Hs2.
    apply serve_write_ok in Hok; [|done]. fold w in Hok. rewrite Hmore in Hok. fold w.
    destruct more as [|x more]; [by rewrite app_nil_r in Hok|].
    pose proof (slice_ok b2 Hb2) as [_ Hb2ne].
    by destruct (write_twice sha256 offset (Buffer.as_slice b2) (x :: more) w) as (? & _); auto.
  - unfold serve_all in Hok; cbn [foldl] in Hok.
    assert (Lane.failure (serve sha256 (Command.Write (offset + Buffer.len b) next reply) (serve_write offset b to l)) = None) as Hmid.
    { destruct (Lane.failure (serve _ _ _)) eqn:Hm; [|done]. exfalso. by apply (failure_sticks taken) in Hok; [|rewrite Hm]. }
    assert (Lane.failure (serve_write offset b to l) = None) as Hfirst.
    { destruct (Lane.failure (serve_write offset b to l)) as [e|] eqn:Hm; [|done].
      destruct (failed_lane (Command.Write (offset + Buffer.len b) next reply) _ e Hm) as (_ & [? Hx] & _). congruence. }
    assert (serve_write offset b2 (to ++ [reply]) l =
      serve sha256 (Command.Write (offset + Buffer.len b) next reply) (serve_write offset b to l)) as Hst.
    { apply Hstep. right. pose proof (proj1 (serve_write_ok _ _ _ _ Hf) Hfirst) as Ha. split; [done|].
      cbn [serve] in Hmid. apply serve_write_ok in Hmid; [|done]. by rewrite (serve_write_eq offset b to l Hf Ha) in Hmid. }
    rewrite <-Hst in Hok. etrans; [apply Heq; by right|]. unfold serve_all; cbn [foldl]. by rewrite Hst.
Qed.

(** What serving keeps: a healthy handle, files without failures to come, and coverage
    that grows by at most one extent. *)
Definition lane_ok (room : nat) (w : world) : Prop :=
  Healthy sha256 w ∧ quiet (fs w) ∧ Z.of_nat (length (coverage (part w)) + room) < MAX_EXTENTS.

Lemma add_coverage_length p q rng plan :
  coverage_plan p rng = Ok plan → coverage q = coverage p →
  (length (coverage (add_coverage plan q)) ≤ S (length (coverage p)))%nat.
Proof.
  intros Hplan Hq. unfold coverage_plan in Hplan. unfold_monad. destruct (absorb _ _ _) as [[n ?] ?].
  case_bool_decide; [done|]. destruct (ByteRange.new _ _); [|done]. simplify_eq.
  unfold add_coverage, set_coverage. cbn [coverage]. rewrite Hq, !length_app, length_take, length_drop. cbn [length]. lia.
Qed.

Lemma write_at_lane off bytes w room :
  0 ≤ off → lane_ok (S room) w → lane_ok room (write_at off bytes w).2.
Proof.
  intros Ho (Hw & Hq & Hroom). split_and!; [|by apply calm_write_at|].
  - destruct (write_at off bytes w) as [r w'] eqn:Hr. by eapply write_at_Inv.
  - destruct (write_at off bytes w) as [r w'] eqn:Hr. cbn.
    apply write_at_run in Hr as [[-> _]|(rng & plan & _ & _ & _ & _ & _ & Hplan & [(k & _ & Hp & _)|(_ & Hp & _)])].
    + lia.
    + rewrite Hp. cbn. lia.
    + pose proof (add_coverage_length _ (dirty (part w)) _ _ Hplan eq_refl) as Hl.
      assert (coverage (part w') = coverage (add_coverage plan (dirty (part w)))) as -> by by rewrite Hp. lia.
Qed.

Lemma publish_coverage d w : 
  Inv sha256 w → coverage (part (publish sha256 d w).2) = coverage (part w).
Proof.
  intros [[Hs _] Hpath _ _ _ _ _ _ _]. destruct (publish sha256 d w) as [r w'] eqn:Hr. cbn.
  apply publish_run in Hr as [(_ & _ & [-> | ->])|(e & s1 & _ & _ & _ & _ & _ & _ & Hr)]; [done|done|].
  apply (expose_run sha256 e _ (World (part w) s1)) in Hr as (s2 & new & _ & _ & Hr); cbn in *; [|done|by rewrite Hpath].
  by destruct Hr as [(_ & -> & _)|(_ & [(_ & [Hp|[Hp|Hp]] & _)|(_ & _ & _ & _ & _ & _ & _ & _ & [[_ Hp]|[_ Hp]])])]; rewrite ?Hp.
Qed.

Lemma lane_step room w w' :
  lane_ok (S room) w → Healthy sha256 w' → quiet (fs w') → coverage (part w') = coverage (part w) → lane_ok room w'.
Proof. intros (_ & _ & Hroom) ? ? Hc. split_and!; [done|done|]. rewrite Hc. lia. Qed.

Lemma serve_lane c l room :
  command_ok c → lane_ok (S room) (Lane.file l) → lane_ok room (Lane.file (serve sha256 c l)).
Proof.
  intros Hc Hl. destruct (Lane.failure l) as [e|] eqn:Hf.
  { destruct (failed_lane c l e Hf) as (-> & _). destruct Hl as (?&?&?). split_and!; [done|done|lia]. }
  pose proof Hl as (Hw & Hq & Hroom). pose proof Hw as [Hinv _].
  destruct c as [off b i|i|rng i|ex rec i|d i|ab i]; unfold serve, serve_write, guarded; rewrite Hf.
  - pose proof (write_at_lane off (Buffer.as_slice b) _ room (proj1 Hc) Hl) as Hk.
    by destruct (write_at _ _ _).
  - pose proof (calm_sync _ Hq) as Hk. destruct (sync (Lane.file l)) as [r w'] eqn:Hr. cbn in *.
    apply (lane_step _ _ _ Hl); [by eapply sync_Inv|done|].
    by apply sync_run in Hr as [_ [[-> _]|[_ [[-> _]|[-> _]]]]].
  - pose proof (calm_hash_range sha256 rng _ Hq) as Hk. destruct (hash_range _ _ _) as [r w'] eqn:Hr. cbn in *.
    pose proof (step_Healthy sha256 _ _ Hw (step_hash sha256 _ rng)) as Hh. rewrite Hr in Hh.
    apply (lane_step _ _ _ Hl); [done|done|]. by apply reads_run in Hr as [-> _]; [|apply reads_hash_range].
  - pose proof (calm_verify sha256 ex rec _ Hq) as Hk. destruct (verify _ _ _ _) as [r w'] eqn:Hr. cbn in *.
    apply (lane_step _ _ _ Hl); [by eapply verify_Inv|done|].
    apply (verify_run sha256) in Hr as [_ [(-> & _)|(_ & [[-> _]|(? & _ & -> & _)])]]; done.
  - pose proof (calm_publish sha256 d _ Hq) as Hk. pose proof (publish_coverage d _ Hinv) as Hcov.
    destruct (publish _ _ _) as [r w'] eqn:Hr. cbn in *. apply (lane_step _ _ _ Hl); [by eapply publish_Inv|done|done].
  - set (m := _ ← _; discard). assert (calm_part m ∧ ∀ w, Healthy sha256 w → Healthy sha256 (m w).2 ∧
      coverage (part (m w).2) = coverage (part w)) as [Hcm Hm].
    { split; [unfold m; destruct ab; auto using calm_discard with calm; intros w Hw'; by apply calm_discard|].
      intros w Hw'. assert (∀ w, Healthy sha256 w → Healthy sha256 (discard w).2 ∧ coverage (part (discard w).2) = coverage (part w)) as Hd.
      { intros u Hu. destruct (discard u) as [r u'] eqn:Hr. split; [by eapply discard_Inv|].
        by apply discard_run in Hr as [_ [[-> _]|[_ Hp]]]; cbn; rewrite ?Hp. }
      destruct ab; [|by apply Hd]. pose proof (step_Healthy sha256 _ _ Hw' (step_abandon sha256 w)) as Hab.
      destruct (Hd _ Hab) as [? Hcv]. unfold m, abandon, update, modify, mbind, st_bind. by split. }
    specialize (Hcm _ Hq). destruct (Hm _ Hw) as [Hh Hcv]. destruct (m (Lane.file l)) as [r w']. cbn in *.
    by apply (lane_step _ _ _ Hl).
Qed.

Lemma run_sticks fuel capacity seen queue l :
  Lane.failure l ≠ None → Lane.failure (run sha256 fuel capacity seen queue l) ≠ None.
Proof.
  revert seen queue l. induction fuel as [|fuel IH]; intros seen queue l Hl; [by destruct queue|].
  destruct (Lane.failure l) as [e|] eqn:He; [|done].
  assert (∀ off b to, is_Some (Lane.failure (serve_write off b to l))) as Hw.
  { intros. unfold serve_write, guarded. rewrite He. by eexists. }
  destruct queue as [|c queue]; [by cbn; rewrite He|]. pose proof (failed_lane c l e He) as (_ & [e' Hc] & _).
  destruct c as [offset b reply| | | | |]; cbn [run]; try (apply IH; by rewrite Hc).
  destruct (coalesce _ _ _ _ _) as [[b' to] ?]. apply IH. destruct (Hw offset b' to) as [? ->]. done.
Qed.

Lemma lane_ok_le room room' w : (room' ≤ room)%nat → lane_ok room w → lane_ok room' w.
Proof. intros ? (?&?&?). split_and!; [done|done|lia]. Qed.

(** C32: Putting queued writes together cannot be observed.  Whatever the thread finds queued
    when it looks, if serving either way ends without a failure, it ends with the same
    file, the same bytes and the same answers on the same channels as serving the
    commands one at a time in order. *)
Theorem coalescing_is_unobservable capacity seen queue l fuel :
  reachable sha256 (Lane.file l) → quiet (fs (Lane.file l)) → Lane.failure l = None →
  Forall command_ok queue →
  Z.of_nat (length (coverage (part (Lane.file l))) + S (length queue)) < MAX_EXTENTS →
  (length queue ≤ fuel)%nat →
  Lane.failure (run sha256 fuel capacity seen queue l) = None ∨ Lane.failure (serve_all queue l) = None →
  run sha256 fuel capacity seen queue l = serve_all queue l.
Proof.
  intros Hw%reachable_Healthy Hq Hf Hqueue Hroom. assert (lane_ok (S (length queue)) (Lane.file l)) as Hl by by split_and!.
  clear Hw Hq Hroom. revert fuel seen queue l Hf Hqueue Hl.
  induction fuel as [|fuel IH]; intros seen queue l Hf Hqueue Hl Hfuel; [by destruct queue; [|cbn in Hfuel; lia]|].
  destruct queue as [|c queue]; [done|]. cbn [length] in Hfuel, Hl. apply Forall_cons in Hqueue as [Hc Hqueue].
  assert (∀ seen', Lane.failure (run sha256 fuel capacity seen' queue (serve sha256 c l)) = None ∨
      Lane.failure (serve_all (c :: queue) l) = None →
    run sha256 fuel capacity seen' queue (serve sha256 c l) = serve_all (c :: queue) l) as Hone.
  { intros seen' Hor. change (serve_all (c :: queue) l) with (serve_all queue (serve sha256 c l)) in *.
    apply IH; [|done|by apply serve_lane|lia|done].
    destruct (Lane.failure (serve sha256 c l)) eqn:He; [|done]. exfalso.
    destruct Hor as [Hor|Hor]; revert Hor; [apply run_sticks|apply failure_sticks]; by rewrite He. }
  destruct c as [offset b reply| | | | |]; try exact (Hone seen).
  cbn [run]. destruct (coalesce _ _ _ _ _) as [[b' to] rest] eqn:Hco.
  pose proof Hl as (Hw & Hq & Hroom). destruct Hc as [Hoff Hb].
  destruct (coalesce_same _ _ _ _ _ _ _ _ l Hco Hw Hq Hoff Hb Hqueue ltac:(lia) Hf) as (Hb' & taken & -> & _ & Heq).
  assert (serve_all (Command.Write offset b reply :: taken ++ rest) l =
    serve_all rest (serve_all taken (serve_write offset b [reply] l))) as -> by (unfold serve_all; cbn; by rewrite foldl_app).
  intros Hor.
  assert (serve_write offset b' to l = serve_all taken (serve_write offset b [reply] l) ∧
    Lane.failure (serve_write offset b' to l) = None) as [Heq' Hl1].
  { destruct Hor as [Hor|Hor].
    - assert (Lane.failure (serve_write offset b' to l) = None) as He.
      { destruct (Lane.failure (serve_write offset b' to l)) eqn:He; [|done]. exfalso.
        by apply (run_sticks fuel capacity (tail seen) rest (serve_write offset b' to l)); [rewrite He|]. }
      auto.
    - assert (Lane.failure (serve_all taken (serve_write offset b [reply] l)) = None) as He.
      { destruct (Lane.failure (serve_all taken _)) eqn:He; [|done]. exfalso.
        by apply (failure_sticks rest) in Hor; [|rewrite He]. }
      rewrite Heq by auto. auto. }
  rewrite <-Heq' in Hor |- *. apply IH; [done|by apply Forall_app in Hqueue as [_ ?]| | |done]; rewrite length_app in *; [|lia].
  apply (lane_ok_le (S (length taken + length rest))); [lia|].
  pose proof (write_at_lane offset (Buffer.as_slice b') (Lane.file l) _ Hoff Hl) as Hk.
  unfold serve_write, guarded. rewrite Hf. by destruct (write_at _ _ _).
Qed.
End LaneThm.

Definition run_queue : list Command.t :=
  [Command.Write 0 (Buffer.Make [1; 0; 0] 1) 0; Command.Write 1 (Buffer.Make [2; 3] 2) 1; Command.Sync 2].
Definition run_lane : Lane.t := Lane.Make created None [].

Lemma coalescing_is_unobservable_witness :
  run toy_sha256 3 8 [1%nat] run_queue run_lane = serve_all toy_sha256 run_queue run_lane ∧
  bytes_of (Lane.file (run toy_sha256 3 8 [1%nat] run_queue run_lane)) = [1; 2; 3].
Proof.
  split; [|by vm_compute].
  apply (coalescing_is_unobservable toy_sha256 8 [1%nat] run_queue run_lane 3).
  - exact created_reachable.
  - by vm_compute.
  - done.
  - repeat constructor; cbn; lia.
  - cbn. unfold MAX_EXTENTS. lia.
  - cbn. lia.
  - left. by vm_compute.
Defined.
