(* ===== verification/LifeCycle.v ===== *)
(** * The life cycle of the first engine

    [src/crates/download-core/src/state.rs] and [range.rs]: the serialized decisions of
    the sequential engine, and its own half-open ranges. *)

From S2P Require Import Prelude.

Module RangeError.
Inductive t : Type := EmptyOrReversed | Overflow | SplitOutsideInterior.
#[global] Instance t_eq_dec : EqDecision t.
Proof. solve_decision. Defined.
End RangeError.

(** The range of [range.rs]: any end that fits 64 bits. *)
Module CoreRange.
Record t : Type := Make { start : Z; end_ : Z }.
#[global] Instance t_eq_dec : EqDecision t.
Proof. solve_decision. Defined.
Definition new (start end_exclusive : Z) : result RangeError.t t :=
  if decide (end_exclusive ≤ start) then Err RangeError.EmptyOrReversed else Ok (Make start end_exclusive).
Definition from_start_and_length (start length : Z) : result RangeError.t t :=
  end_ ← ok_or (checked_add start length) RangeError.Overflow; new start end_.
Definition from_inclusive (start end_ : Z) : result RangeError.t t :=
  end_ ← ok_or (checked_add end_ 1) RangeError.Overflow; new start end_.
Definition length (r : t) : Z := end_ r - start r.
Definition inclusive_end (r : t) : Z := end_ r - 1.
Definition split_at (r : t) (offset : Z) : result RangeError.t (t * t) :=
  if decide (offset ≤ start r ∨ end_ r ≤ offset) then Err RangeError.SplitOutsideInterior
  else Ok (Make (start r) offset, Make offset (end_ r)).
End CoreRange.

Module State.
Inductive t : Type :=
| Queued | Probing | Downloading | Pausing | Paused | RetryWait | NeedsAction | Verifying
| Publishing | Cancelling | Cancelled | Recovering | Completed.
#[global] Instance t_eq_dec : EqDecision t.
Proof. solve_decision. Defined.
End State.

Module Command.
Inductive t : Type := Start | Pause | Resume | Retry | Cancel | Recover.
#[global] Instance t_eq_dec : EqDecision t.
Proof. solve_decision. Defined.
End Command.

Module Event.
Inductive t : Type :=
| ProbeSucceeded | TransferFinished | Verified | PublishSucceeded | WorkersStopped
| RetryableFailureAfterStop | ActionRequiredAfterStop | Reconciled.
#[global] Instance t_eq_dec : EqDecision t.
Proof. solve_decision. Defined.
End Event.

Module AttemptToken.
Record t : Type := Make { download_id : Z; sequence : Z }.
#[global] Instance t_eq_dec : EqDecision t.
Proof. solve_decision. Defined.
End AttemptToken.

Module TransitionError.
Inductive t : Type := IllegalTransition | StaleAttempt | AttemptExhausted.
#[global] Instance t_eq_dec : EqDecision t.
Proof. solve_decision. Defined.
End TransitionError.

Module Download.
Import State.
Record t : Type := Make { state : State.t; attempt : AttemptToken.t }.
#[global] Instance t_eq_dec : EqDecision t.
Proof. solve_decision. Defined.

Definition new (id : Z) : t := Make Queued (AttemptToken.Make id 0).

(** The match of [command]: the next state, and whether it starts a new attempt. *)
Definition next_command (s : State.t) (c : Command.t) : result TransitionError.t (State.t * bool) :=
  match s, c with
  | Queued, Command.Start => Ok (Probing, true)
  | (Paused | NeedsAction), Command.Resume => Ok (Probing, true)
  | RetryWait, Command.Retry => Ok (Probing, true)
  | (Probing | Downloading | Verifying), Command.Pause => Ok (Pausing, false)
  | (Queued | RetryWait | NeedsAction), Command.Pause => Ok (Paused, false)
  | (Probing | Downloading | Verifying | Pausing), Command.Cancel => Ok (Cancelling, false)
  | (Queued | Paused | RetryWait | NeedsAction), Command.Cancel => Ok (Cancelled, false)
  | (Completed | Cancelled | Recovering), Command.Recover => Err TransitionError.IllegalTransition
  | _, Command.Recover => Ok (Recovering, true)
  | _, _ => Err TransitionError.IllegalTransition
  end.

Definition command (c : Command.t) : st t TransitionError.t State.t :=
  self ← gets (λ d, d);
  p ← lift (next_command (state self) c);
  attempt ← (if p.2 : bool then
      sequence ← lift (ok_or (checked_add (AttemptToken.sequence (attempt self)) 1) TransitionError.AttemptExhausted);
      mret (AttemptToken.Make (AttemptToken.download_id (attempt self)) sequence)
    else mret (attempt self));
  _ ← modify (λ _, Make p.1 attempt);
  mret p.1.

(** The match of [event]. *)
Definition next_event (s : State.t) (e : Event.t) : result TransitionError.t State.t :=
  match s, e with
  | Probing, Event.ProbeSucceeded => Ok Downloading
  | Downloading, Event.TransferFinished => Ok Verifying
  | Verifying, Event.Verified => Ok Publishing
  | Publishing, Event.PublishSucceeded => Ok Completed
  | Pausing, Event.WorkersStopped => Ok Paused
  | Cancelling, Event.WorkersStopped => Ok Cancelled
  | (Probing | Downloading | Verifying), Event.RetryableFailureAfterStop => Ok RetryWait
  | (Probing | Downloading | Verifying | Publishing | Recovering), Event.ActionRequiredAfterStop => Ok NeedsAction
  | Recovering, Event.Reconciled => Ok Paused
  | _, _ => Err TransitionError.IllegalTransition
  end.

Definition event (attempt_ : AttemptToken.t) (e : Event.t) : st t TransitionError.t State.t :=
  self ← gets (λ d, d);
  _ ← lift (refuse_if (bool_decide (attempt_ ≠ attempt self)) TransitionError.StaleAttempt);
  next ← lift (next_event (state self) e);
  _ ← modify (λ _, Make next (attempt self));
  mret next.

(** What the owner gives the machine, with a token of any attempt of any download. *)
Inductive Input : Type :=
| Told (c : Command.t)
| Happened (attempt : AttemptToken.t) (e : Event.t).
Definition feed (i : Input) : st t TransitionError.t State.t :=
  match i with Told c => command c | Happened a e => event a e end.
Definition feed_all (inputs : list Input) (d : t) : t := foldl (λ d i, (feed i d).2) d inputs.
End Download.

(** ** Theorems *)

Import Download.

Lemma feed_cases i d r d' :
  feed i d = (r, d') →
  (d' = d ∧ is_ok r = false) ∨
  (∃ c s, i = Told c ∧ next_command (state d) c = Ok (s, false) ∧ d' = Make s (attempt d) ∧ r = Ok s) ∨
  (∃ c s q, i = Told c ∧ next_command (state d) c = Ok (s, true) ∧
     q = AttemptToken.sequence (attempt d) + 1 ∧ q ≤ u64_max ∧
     d' = Make s (AttemptToken.Make (AttemptToken.download_id (attempt d)) q) ∧ r = Ok s) ∨
  (∃ e s, i = Happened (attempt d) e ∧ next_event (state d) e = Ok s ∧ d' = Make s (attempt d) ∧ r = Ok s).
Proof.
  destruct i as [c|a e]; cbn; intros Hr.
  - unfold command in Hr. unfold_monad. destruct (next_command _ _) as [[s []]|] eqn:Hn; cbn in Hr.
    + destruct (checked_add _ 1) as [q|] eqn:Hq; [|simplify_eq; by left].
      apply checked_add_Some in Hq as [-> ?]. simplify_eq. right; right; left. eauto 12.
    + simplify_eq. right; left. eauto 10.
    + simplify_eq. by left.
  - unfold event in Hr. unfold_monad. case_bool_decide as Ha; [simplify_eq; by left|].
    destruct (next_event _ _) as [s|] eqn:Hn; [|simplify_eq; by left]. simplify_eq.
    right; right; right. eauto 10.
Qed.

(** The attempts of a download only grow, and a new one starts from the beginning. *)
Lemma feed_attempt i d :
  let d' := (feed i d).2 in
  AttemptToken.download_id (attempt d') = AttemptToken.download_id (attempt d) ∧
  (attempt d' = attempt d ∨
   AttemptToken.sequence (attempt d') = AttemptToken.sequence (attempt d) + 1 ∧
   AttemptToken.sequence (attempt d') ≤ u64_max ∧ state d' ∈ [State.Probing; State.Recovering]).
Proof.
  destruct (feed i d) as [r d'] eqn:Hr. cbn.
  apply feed_cases in Hr as [[-> _]|[(c&s&_&_&->&_)|[(c&s&q&_&Hn&->&?&->&_)|(e&s&_&_&->&_)]]]; cbn; auto.
  split; [done|]. right. split_and!; [done|done|].
  unfold next_command in Hn. destruct (state d), c; simplify_eq; set_solver.
Qed.

(** What completion leaves behind: the four acknowledgements of one attempt, in order. *)
Definition acknowledged (a : AttemptToken.t) (inputs : list Input) : list Event.t :=
  omap (λ i, match i with
    | Happened b e => if decide (b = a) then Some e else None
    | Told _ => None
    end) inputs.

(** How far an attempt has come. *)
Definition stage (s : State.t) : list Event.t :=
  match s with
  | State.Downloading => [Event.ProbeSucceeded]
  | State.Verifying => [Event.ProbeSucceeded; Event.TransferFinished]
  | State.Publishing => [Event.ProbeSucceeded; Event.TransferFinished; Event.Verified]
  | State.Completed => [Event.ProbeSucceeded; Event.TransferFinished; Event.Verified; Event.PublishSucceeded]
  | _ => []
  end.

Lemma acknowledged_app a xs ys : acknowledged a (xs ++ ys) = acknowledged a xs ++ acknowledged a ys.
Proof. apply omap_app. Qed.

Lemma stage_earned id inputs :
  let d := feed_all inputs (new id) in stage (state d) `sublist_of` acknowledged (attempt d) inputs.
Proof.
  induction inputs as [|i inputs IH] using rev_ind; [cbn; constructor|]. cbn in *.
  unfold feed_all in *. rewrite foldl_app. cbn [foldl]. set (d := foldl _ (new id) inputs) in *.
  destruct (feed i d) as [r d'] eqn:Hr. cbn. rewrite acknowledged_app.
  apply feed_cases in Hr as [[-> _]|[(c&s&_&Hn&->&_)|[(c&s&q&_&Hn&_&_&->&_)|(e&s&->&Hn&->&_)]]]; cbn.
  - by apply sublist_inserts_r.
  - replace (stage s) with (@nil Event.t); [apply sublist_nil_l|].
    unfold next_command in Hn. destruct (state d), c; by simplify_eq.
  - replace (stage s) with (@nil Event.t); [apply sublist_nil_l|].
    unfold next_command in Hn. destruct (state d), c; by simplify_eq.
  - rewrite decide_True by done. cbn.
    assert (stage s = stage (state d) ++ [e] ∨ stage s = []) as [-> | ->].
    { unfold next_event in Hn. destruct (state d), e; simplify_eq; cbn; auto. }
    + by apply sublist_app.
    + apply sublist_nil_l.
Qed.

(** Completion is earned within one attempt.  However commands and events arrive, events
    of older attempts and of other downloads included, a download is completed only after
    its current attempt acknowledged the probe, the transfer, the verification and the
    publication, in this order; an event of any other attempt changes nothing; a
    completed or cancelled download refuses everything. *)
Theorem completion_is_earned id inputs d :
  feed_all inputs (new id) = d →
  (state d = State.Completed →
   [Event.ProbeSucceeded; Event.TransferFinished; Event.Verified; Event.PublishSucceeded]
     `sublist_of` acknowledged (attempt d) inputs) ∧
  (∀ a e, a ≠ attempt d → feed (Happened a e) d = (Err TransitionError.StaleAttempt, d)) ∧
  (state d = State.Completed ∨ state d = State.Cancelled → ∀ i, (feed i d).2 = d ∧ is_ok (feed i d).1 = false).
Proof.
  intros <-. split_and!.
  - intros Hc. pose proof (stage_earned id inputs) as Hs. cbn in Hs. by rewrite Hc in Hs.
  - intros a e Ha. cbn. unfold event. unfold_monad. by rewrite bool_decide_eq_true_2.
  - set (d := feed_all inputs (new id)). intros Hd i. destruct (feed i d) as [r d'] eqn:Hr. cbn.
    apply feed_cases in Hr as [?|[(c&s&_&Hn&_)|[(c&s&q&_&Hn&_)|(e&s&_&Hn&_)]]]; [done|exfalso..];
      [unfold next_command in Hn; destruct Hd as [Hd|Hd]; rewrite Hd in Hn; by destruct c..|].
    unfold next_event in Hn. destruct Hd as [Hd|Hd]; rewrite Hd in Hn; by destruct e.
Qed.

Definition example_inputs : list Input :=
  let a := AttemptToken.Make 5 1 in
  let b := AttemptToken.Make 5 2 in
  [Told Command.Start; Happened a Event.ProbeSucceeded; Happened a Event.RetryableFailureAfterStop;
   Told Command.Retry; Happened a Event.TransferFinished; Happened b Event.ProbeSucceeded;
   Happened b Event.TransferFinished; Happened b Event.Verified; Happened b Event.PublishSucceeded].

Lemma completion_is_earned_witness :
  [Event.ProbeSucceeded; Event.TransferFinished; Event.Verified; Event.PublishSucceeded]
    `sublist_of` acknowledged (AttemptToken.Make 5 2) example_inputs.
Proof.
  apply (completion_is_earned 5 example_inputs (Make State.Completed (AttemptToken.Make 5 2)));
    [by vm_compute|done].
Defined.

(** Splitting keeps every byte: two non-empty ranges that meet at the cut, or a refusal
    exactly when the cut is not inside. *)
Lemma split_at_exact r offset :
  match CoreRange.split_at r offset with
  | Ok (a, b) => CoreRange.start a = CoreRange.start r ∧ CoreRange.end_ a = offset ∧
      CoreRange.start b = offset ∧ CoreRange.end_ b = CoreRange.end_ r ∧
      CoreRange.length a + CoreRange.length b = CoreRange.length r ∧ 0 < CoreRange.length a ∧ 0 < CoreRange.length b
  | Err e => e = RangeError.SplitOutsideInterior ∧ ¬ (CoreRange.start r < offset < CoreRange.end_ r)
  end.
Proof. unfold CoreRange.split_at, CoreRange.length. case_decide; cbn; [split; [done|lia]|]. split_and!; done || lia. Qed.

Lemma inclusive_roundtrip start end_ r :
  CoreRange.from_inclusive start end_ = Ok r → CoreRange.start r = start ∧ CoreRange.inclusive_end r = end_.
Proof.
  unfold CoreRange.from_inclusive, CoreRange.new, CoreRange.inclusive_end. unfold_monad.
  destruct (checked_add end_ 1) as [e|] eqn:He; [|done]. apply checked_add_Some in He as [-> _].
  case_decide; [done|]. intros [= <-]. cbn. split; [done|lia].
Qed.
