(* ===== verification/Ports.v ===== *)
(** * The ports of a session

    What the coordinator asks of the world: the transport's outcomes
    ([src/crates/application/src/transport.rs]), the durable transfer state
    ([TransferRepository] of [src/crates/application/src/lib.rs]) and its SQLite
    implementation. *)

From S2P Require Import Prelude.
From S2P Require Import Domain.
From S2P Require Import JobMachine.
From S2P Require Import Admission.
From S2P Require Import Persistence.
From S2P Require Import Transfer.

Module Probe.
Record t : Type := Make { total : Z; validator : option digest32 }.
Definition ranges (p : t) : bool := bool_decide (is_Some (validator p)).
End Probe.

Module TransportError.
Inductive t : Type :=
| Transient
| Throttled (retry_after_ms : option Z)
| RepresentationChanged
| UserAction (reason : StopReason.t)
| Fatal (reason : StopReason.t).
#[global] Instance t_eq_dec : EqDecision t.
Proof. solve_decision. Defined.
End TransportError.

(** Each method is one transaction. *)
Class TransferRepository (R : Type) : Type := {
  commit_transition : JobEvent.t → st R CommitError.t unit;
  commit_extents : JobId.t → Generation.t → list DurableExtent.t → st R CommitError.t unit;
  durable_extents : JobId.t → st R AppError.t (list DurableExtent.t);
  record_publish_intent : PublishIntent.t → st R CommitError.t unit;
  publish_intent : JobId.t → st R AppError.t (option PublishIntent.t) }.

#[global] Instance sqlite_transfers : TransferRepository SqliteRepository.t := {
  commit_transition event := SqliteRepository.port commit_error (λ _, transition event);
  commit_extents job generation extents :=
    SqliteRepository.port commit_error (λ _, durable job generation extents);
  durable_extents job := SqliteRepository.port app_error (λ _ d, (current_extents job d, d));
  record_publish_intent i := SqliteRepository.port commit_error (λ _, intend_publish i);
  publish_intent job := SqliteRepository.port app_error (λ _ d, (intent job d, d)) }.

(** ** What a call leaves in the database *)

(** Only the database matters of the repository, and it is as before, or as the
    transaction left it when it succeeded; an answer is the transaction's own. *)
Lemma port_run {E A} (f : PersistenceError.t → E) (work : Db.t → result PersistenceError.t A * Db.t) repo r repo' :
  (∀ d e d', work d = (Err e, d') → d' = d) →
  SqliteRepository.port f (λ _, work) repo = (r, repo') →
  let d := SqliteRepository.db repo in
  (SqliteRepository.db repo' = d ∧ is_ok r = false) ∨
  (∃ a, work d = (Ok a, SqliteRepository.db repo') ∧ (r = Ok a ∨ r = Err (f PersistenceError.Unavailable))).
Proof.
  intros Hatomic. unfold SqliteRepository.port, SqliteRepository.run, map_err. cbn.
  destruct (head _) as [[]|]; destruct (work (SqliteRepository.db repo)) as [[a|e] d'] eqn:Hw;
    intros [= <- <-]; cbn; eauto 6; try (apply Hatomic in Hw; subst; eauto).
Qed.

Lemma transaction_atomic {A} (work : st Db.t PersistenceError.t A) d e d' :
  transaction work d = (Err e, d') → d' = d.
Proof. unfold transaction. destruct (work d) as [[]]; naive_solver. Qed.
