(* ===== verification/Coordinator.v ===== *)
(** * The coordinator of one session

    [src/crates/runtime/src/coordinator.rs]: one job from its start to where it rests.
    The session alone owns the [Job]; every transition is decide, commit, apply.  What
    the machine decides is a script: one entry for each time the session waits, with
    what happened meanwhile (connections moved on, controls arrived, the clock ticked)
    and whether the program lived on.  A session whose script ends has crashed at that
    await, so a theorem about every script is a theorem about every crash. *)

From S2P Require Import Prelude.
From S2P Require Import Domain.
From S2P Require Import Segments.
From S2P Require Import JobMachine.
From S2P Require Import Retry.
From S2P Require Import Origin.
From S2P Require Import Admission.
From S2P Require Import Transfer.
From S2P Require Import Files.
From S2P Require Import StorageFile.
From S2P Require Import Buffers.
From S2P Require Import Writer.
From S2P Require Import Ports.

(** Arithmetic on [u64] as the release profile has it. *)
Definition wrap (x : Z) : Z := x mod (u64_max + 1).
(** [a.div_ceil(unit) * unit]. *)
Definition align (a unit_ : Z) : Z := wrap (div_ceil a unit_ * unit_).

Module CoordinatorConfig.
Record t : Type := Make {
  connections : Z; max_segments : Z; min_segment : Z; checkpoint_bytes : Z;
  writer_capacity : Z; retry : RetryPolicy.t }.
Definition valid (c : t) : bool :=
  bool_decide (1 ≤ connections c ≤ 16) && bool_decide (connections c ≤ max_segments c ≤ 262144)
  && bool_decide (0 < min_segment c) && bool_decide (0 < checkpoint_bytes c)
  && bool_decide (1 ≤ writer_capacity c ≤ 256).
End CoordinatorConfig.

Module Control.
Inductive t : Type := Pause | Cancel.
#[global] Instance t_eq_dec : EqDecision t.
Proof. solve_decision. Defined.
End Control.

Module SessionEnd.
Inductive t : Type := Settled (state : JobState.t) | Published (path : Name).
End SessionEnd.

Module RunError.
Inductive t : Type :=
| InvalidConfig | NotRunnable (state : JobState.t) | Domain (error : DomainError)
| Commit (error : CommitError.t) | Repository | Writer (error : WriterError.t)
| Storage (error : StorageError.t) | Invariant.
End RunError.

Module Failure.
Inductive t : Type :=
| Cancelled | Transport (error : TransportError.t) | Writer (error : WriterError.t) | Panicked.
End Failure.

(** How a session stops short of its answer: with an error, or because the program did.
    [Stuck] is a loop of the model out of fuel, which never happens. *)
Module Halt.
Inductive t : Type := Failed (error : RunError.t) | Crashed | Stuck.
End Halt.

(** One connection, where its task is suspended. *)
Module Worker.
Inductive phase : Type :=
| Opening
| Acquiring (offset : Z)
| Filling (offset : Z) (filled : list Z)
| Writing (offset : Z) (filled : list Z)
| Tail.
Record t : Type := Make { lease : Lease.t; at_ : phase }.
End Worker.

(** What wakes a connection up. *)
Module Stimulus.
Inductive t : Type :=
| Opened (r : result TransportError.t unit)
| Acquired (r : result BufferError.t unit)
| Read (r : result TransportError.t (list Z))
| Accepted
| Panics.
End Stimulus.

(** What happens while the session waits. *)
Module Moment.
Inductive t : Type :=
| Work (id : nat) (x : Stimulus.t)
| Send (c : Control.t)
| HangUp
| Probed (r : result TransportError.t Probe.t)
| Tick (now jitter : Z)
| Appears (leaf : list Z) (node : Node).
End Moment.

Module Wait.
(** [control_first] is the branch an unbiased select takes when both are ready. *)
Record t : Type := Make { moments : list Moment.t; resumes : bool; control_first : bool }.
End Wait.

(** What the composition root gives a coordinator: the directories and names of its
    destinations, and the size of a buffer. *)
Module Coordinator.
Record t : Type := Make {
  config : CoordinatorConfig.t;
  capacity : Z;
  parts_for : DestinationRef.t → result AppError.t unit;
  resolve : DestinationRef.t → result AppError.t Destination.t }.
Definition block (c : t) : Z := Z.min MAX_BUFFER (capacity c).
(** The checks of [new]. *)
Definition new (c : t) : result RunError.t t :=
  if negb (CoordinatorConfig.valid (config c))
     || bool_decide (capacity c < CoordinatorConfig.connections (config c) * block c)
  then Err RunError.InvalidConfig else Ok c.
End Coordinator.

Module Session.
Record t {R : Type} : Type := Make {
  job : Job.t;
  control : list Control.t;
  senders : bool;
  control_open : bool;
  writer : option (FilePart.t * option WriterError.t);
  workers : list (nat * Worker.t);
  finished : list (nat * result Failure.t unit);
  leases : gmap nat Lease.t;
  spawned : nat;
  stop_workers : bool;
  unsynced : Z;
  storage_failed : bool;
  connections : Z;
  next_worker : Z;
  repository : R;
  disk : Fs.t;
  governor : option OriginGovernor.t;
  origin : OriginId;
  probed : option (result TransportError.t Probe.t);
  now : Z;
  jitter : Z;
  script : list Wait.t;
  control_first : bool }.
Arguments t : clear implicits.

Section Fields.
Context {R : Type}.
Implicit Types s : t R.
Definition set_job v s := Make R v (control s) (senders s) (control_open s) (writer s) (workers s)
  (finished s) (leases s) (spawned s) (stop_workers s) (unsynced s) (storage_failed s) (connections s)
  (next_worker s) (repository s) (disk s) (governor s) (origin s) (probed s) (now s) (jitter s)
  (script s) (control_first s).
Definition set_control v s := Make R (job s) v (senders s) (control_open s) (writer s) (workers s)
  (finished s) (leases s) (spawned s) (stop_workers s) (unsynced s) (storage_failed s) (connections s)
  (next_worker s) (repository s) (disk s) (governor s) (origin s) (probed s) (now s) (jitter s)
  (script s) (control_first s).
Definition set_senders v s := Make R (job s) (control s) v (control_open s) (writer s) (workers s)
  (finished s) (leases s) (spawned s) (stop_workers s) (unsynced s) (storage_failed s) (connections s)
  (next_worker s) (repository s) (disk s) (governor s) (origin s) (probed s) (now s) (jitter s)
  (script s) (control_first s).
Definition set_control_open v s := Make R (job s) (control s) (senders s) v (writer s) (workers s)
  (finished s) (leases s) (spawned s) (stop_workers s) (unsynced s) (storage_failed s) (connections s)
  (next_worker s) (repository s) (disk s) (governor s) (origin s) (probed s) (now s) (jitter s)
  (script s) (control_first s).
(** The lane and the disk it works on. *)
Definition set_lane w d s := Make R (job s) (control s) (senders s) (control_open s) w (workers s)
  (finished s) (leases s) (spawned s) (stop_workers s) (unsynced s) (storage_failed s) (connections s)
  (next_worker s) (repository s) d (governor s) (origin s) (probed s) (now s) (jitter s)
  (script s) (control_first s).
(** The tasks that run and the ones that ended. *)
Definition set_tasks w f s := Make R (job s) (control s) (senders s) (control_open s) (writer s) w
  f (leases s) (spawned s) (stop_workers s) (unsynced s) (storage_failed s) (connections s)
  (next_worker s) (repository s) (disk s) (governor s) (origin s) (probed s) (now s) (jitter s)
  (script s) (control_first s).
Definition set_leases v s := Make R (job s) (control s) (senders s) (control_open s) (writer s) (workers s)
  (finished s) v (spawned s) (stop_workers s) (unsynced s) (storage_failed s) (connections s)
  (next_worker s) (repository s) (disk s) (governor s) (origin s) (probed s) (now s) (jitter s)
  (script s) (control_first s).
Definition set_spawned v s := Make R (job s) (control s) (senders s) (control_open s) (writer s) (workers s)
  (finished s) (leases s) v (stop_workers s) (unsynced s) (storage_failed s) (connections s)
  (next_worker s) (repository s) (disk s) (governor s) (origin s) (probed s) (now s) (jitter s)
  (script s) (control_first s).
Definition set_stop_workers v s := Make R (job s) (control s) (senders s) (control_open s) (writer s) (workers s)
  (finished s) (leases s) (spawned s) v (unsynced s) (storage_failed s) (connections s)
  (next_worker s) (repository s) (disk s) (governor s) (origin s) (probed s) (now s) (jitter s)
  (script s) (control_first s).
Definition set_unsynced v s := Make R (job s) (control s) (senders s) (control_open s) (writer s) (workers s)
  (finished s) (leases s) (spawned s) (stop_workers s) v (storage_failed s) (connections s)
  (next_worker s) (repository s) (disk s) (governor s) (origin s) (probed s) (now s) (jitter s)
  (script s) (control_first s).
Definition set_storage_failed v s := Make R (job s) (control s) (senders s) (control_open s) (writer s) (workers s)
  (finished s) (leases s) (spawned s) (stop_workers s) (unsynced s) v (connections s)
  (next_worker s) (repository s) (disk s) (governor s) (origin s) (probed s) (now s) (jitter s)
  (script s) (control_first s).
Definition set_connections v s := Make R (job s) (control s) (senders s) (control_open s) (writer s) (workers s)
  (finished s) (leases s) (spawned s) (stop_workers s) (unsynced s) (storage_failed s) v
  (next_worker s) (repository s) (disk s) (governor s) (origin s) (probed s) (now s) (jitter s)
  (script s) (control_first s).
Definition set_next_worker v s := Make R (job s) (control s) (senders s) (control_open s) (writer s) (workers s)
  (finished s) (leases s) (spawned s) (stop_workers s) (unsynced s) (storage_failed s) (connections s)
  v (repository s) (disk s) (governor s) (origin s) (probed s) (now s) (jitter s)
  (script s) (control_first s).
Definition set_repository v s := Make R (job s) (control s) (senders s) (control_open s) (writer s) (workers s)
  (finished s) (leases s) (spawned s) (stop_workers s) (unsynced s) (storage_failed s) (connections s)
  (next_worker s) v (disk s) (governor s) (origin s) (probed s) (now s) (jitter s)
  (script s) (control_first s).
Definition set_governor v s := Make R (job s) (control s) (senders s) (control_open s) (writer s) (workers s)
  (finished s) (leases s) (spawned s) (stop_workers s) (unsynced s) (storage_failed s) (connections s)
  (next_worker s) (repository s) (disk s) v (origin s) (probed s) (now s) (jitter s)
  (script s) (control_first s).
Definition set_probed v s := Make R (job s) (control s) (senders s) (control_open s) (writer s) (workers s)
  (finished s) (leases s) (spawned s) (stop_workers s) (unsynced s) (storage_failed s) (connections s)
  (next_worker s) (repository s) (disk s) (governor s) (origin s) v (now s) (jitter s)
  (script s) (control_first s).
Definition set_clock n j s := Make R (job s) (control s) (senders s) (control_open s) (writer s) (workers s)
  (finished s) (leases s) (spawned s) (stop_workers s) (unsynced s) (storage_failed s) (connections s)
  (next_worker s) (repository s) (disk s) (governor s) (origin s) (probed s) n j
  (script s) (control_first s).
Definition set_script v f s := Make R (job s) (control s) (senders s) (control_open s) (writer s) (workers s)
  (finished s) (leases s) (spawned s) (stop_workers s) (unsynced s) (storage_failed s) (connections s)
  (next_worker s) (repository s) (disk s) (governor s) (origin s) (probed s) (now s) (jitter s)
  v f.

(** The writer while its lane works. *)
Definition lane (w : FilePart.t * option WriterError.t) s : Lane.t :=
  Lane.Make (FilePart.World w.1 (disk s)) w.2 [].
Definition keep_lane (l : Lane.t) s : t R :=
  set_lane (Some (FilePart.part (Lane.file l), Lane.failure l)) (FilePart.fs (Lane.file l)) s.

(** How much can still happen: every await and every control received makes it less. *)
Definition fuel s : nat :=
  S (length (control s) + foldr (λ w n, S (length (Wait.moments w) + n)) 0%nat (script s)).
(** The same for a loop that joins tasks without waiting. *)
Definition joins s : nat := (fuel s + length (workers s) + length (finished s))%nat.
End Fields.
End Session.

(** The first pair of a list of tasks. *)
Definition task {A} (id : nat) (l : list (nat * A)) : option A :=
  snd <$> head (filter (λ p, p.1 = id) l).
Definition without {A} (id : nat) (l : list (nat * A)) : list (nat * A) := filter (λ p, p.1 ≠ id) l.

Section Coordinator.
Context (sha256 : list Z → digest32) {R : Type} `{TransferRepository R} (c : Coordinator.t).

Definition session (A : Type) : Type := st (Session.t R) Halt.t A.

Definition fail {A} (e : RunError.t) : session A := throw (Halt.Failed e).
(** [map_err(f)?]. *)
Definition try {E A} (f : E → RunError.t) (r : result E A) : session A :=
  lift (map_err (λ e, Halt.Failed (f e)) r).
Definition on_job {A} (m : st Job.t DomainError A) : session A := λ s,
  let '(r, j) := m (Session.job s) in (map_err (λ e, Halt.Failed (RunError.Domain e)) r, Session.set_job j s).
Definition on_disk {E A} (m : st Fs.t E A) : session (result E A) := λ s,
  let '(r, d) := m (Session.disk s) in (Ok r, Session.set_lane (Session.writer s) d s).

(** *** The lane *)

(** A command runs when the lane takes it: callers wait for their answers and nothing
    overtakes, so serving a command as it is accepted gives every caller the same. *)
Definition ask (cmd : Command.t) : session (option Answer) := λ s,
  match Session.writer s with
  | None => (Ok None, s)
  | Some w =>
      let l := serve sha256 cmd (Session.lane w s) in
      (Ok (snd <$> head (Lane.replies l)), Session.keep_lane l s)
  end.

(** *** Connections *)

Definition set_phase (id : nat) (w : Worker.t) (p : Worker.phase) (s : Session.t R) : Session.t R :=
  Session.set_tasks ((λ q, if decide (q.1 = id) then (id, Worker.Make (Worker.lease w) p) else q)
    <$> Session.workers s) (Session.finished s) s.
Definition end_task (id : nat) (r : result Failure.t unit) (s : Session.t R) : Session.t R :=
  Session.set_tasks (without id (Session.workers s)) (Session.finished s ++ [(id, r)]) s.

(** After a block: the next one, or the byte that must not come. *)
Definition next_phase (w : Worker.t) (offset : Z) : Worker.phase :=
  if decide (offset < ByteRange.end_ (Lease.range (Worker.lease w)))
  then Worker.Acquiring offset else Worker.Tail.
Definition block_len (w : Worker.t) (offset : Z) : Z :=
  Z.min (Coordinator.block c) (ByteRange.end_ (Lease.range (Worker.lease w)) - offset).

(** The write of a full buffer: the caller's checks, then the lane's answer. *)
Definition write_block (id : nat) (w : Worker.t) (offset : Z) (filled : list Z) (s : Session.t R) :
    Session.t R :=
  match Session.writer s with
  | None => end_task id (Err (Failure.Writer WriterError.Closed)) s
  | Some (p, failure) =>
      let spec := FilePart.spec p in
      match write spec spec (Session.stop_workers s) offset (Buffer.Make filled (Z.of_nat (length filled))) 0 [] with
      | (Err e, _) => end_task id (Err (Failure.Writer e)) s
      | (Ok _, queue) =>
          let l := foldl (λ l cmd, serve sha256 cmd l) (Session.lane (p, failure) s) queue in
          let s := Session.keep_lane l s in
          match Lane.replies l with
          | (_, Done (Ok _)) :: _ => set_phase id w (next_phase w (offset + Z.of_nat (length filled))) s
          | (_, Done (Err e)) :: _ => end_task id (Err (Failure.Writer e)) s
          | _ => end_task id (Err (Failure.Writer WriterError.WorkerFailed)) s
          end
      end
  end.

(** [fetch], from one await to the next; a cancelled connection notices before anything. *)
Definition work (id : nat) (x : Stimulus.t) (s : Session.t R) : Session.t R :=
  match task id (Session.workers s) with
  | None => s
  | Some w =>
      match x, Worker.at_ w with
      | Stimulus.Panics, _ => end_task id (Err Failure.Panicked) s
      | Stimulus.Accepted, Worker.Writing offset filled => write_block id w offset filled s
      | _, Worker.Writing _ _ => s
      | _, p =>
          if Session.stop_workers s then end_task id (Err Failure.Cancelled) s else
          match x, p with
          | Stimulus.Opened (Ok _), Worker.Opening =>
              set_phase id w (next_phase w (ByteRange.start (Lease.range (Worker.lease w)))) s
          | Stimulus.Opened (Err e), Worker.Opening => end_task id (Err (Failure.Transport e)) s
          | Stimulus.Acquired (Ok _), Worker.Acquiring offset => set_phase id w (Worker.Filling offset []) s
          | Stimulus.Acquired (Err _), Worker.Acquiring _ => end_task id (Err Failure.Cancelled) s
          | Stimulus.Read (Err e), (Worker.Filling _ _ | Worker.Tail) =>
              end_task id (Err (Failure.Transport e)) s
          | Stimulus.Read (Ok bytes), Worker.Filling offset filled =>
              let len := block_len w offset in
              let read := take (Z.to_nat len - length filled) bytes in
              if decide (read = []) then end_task id (Err (Failure.Transport TransportError.Transient)) s
              else if decide (Z.of_nat (length (filled ++ read)) < len)
              then set_phase id w (Worker.Filling offset (filled ++ read)) s
              else set_phase id w (Worker.Writing offset (filled ++ read)) s
          | Stimulus.Read (Ok bytes), Worker.Tail =>
              if decide (bytes = []) then end_task id (Ok tt) s
              else end_task id (Err (Failure.Transport TransportError.Transient)) s
          | _, _ => s
          end
      end
  end.

(** *** Waiting

    The numbers of a moment are [u64]; a file that appears under a destination's name is
    a link to one there is. *)

Definition happen (s : Session.t R) (m : Moment.t) : Session.t R :=
  match m with
  | Moment.Work id x => work id x s
  | Moment.Send ctl => if Session.senders s then Session.set_control (Session.control s ++ [ctl]) s else s
  | Moment.HangUp => Session.set_senders false s
  | Moment.Probed r =>
      Session.set_probed (Some ((λ p, Probe.Make (wrap (Probe.total p)) (Probe.validator p)) <$> r)) s
  | Moment.Tick now jitter => Session.set_clock (wrap now) (wrap jitter) s
  | Moment.Appears leaf node =>
      match Fs.nodes (Session.disk s) !! Leaf leaf, node with
      | Some _, _ => s
      | None, File ino => if decide (Fs.next (Session.disk s) ≤ ino)%nat then s else
          Session.set_lane (Session.writer s)
            (Fs.set_nodes (<[Leaf leaf := node]> (Fs.nodes (Session.disk s))) (Session.disk s)) s
      | None, _ => Session.set_lane (Session.writer s)
          (Fs.set_nodes (<[Leaf leaf := node]> (Fs.nodes (Session.disk s))) (Session.disk s)) s
      end
  end.

Definition await : session unit := λ s,
  match Session.script s with
  | [] => (Err Halt.Crashed, s)
  | w :: rest =>
      let s := foldl happen (Session.set_script rest (Wait.control_first w) s) (Wait.moments w) in
      (if Wait.resumes w then Ok tt else Err Halt.Crashed, s)
  end.

(** A call that others run alongside. *)
Definition during {A} (call : session A) : session A := _ ← await; a ← call; _ ← await; mret a.

(** A loop whose every turn that goes on takes from a measure. *)
Fixpoint loop {A} (fuel : nat) (turn : session (option A)) : session A :=
  match fuel with
  | O => throw Halt.Stuck
  | S fuel => r ← turn; match r with Some a => mret a | None => loop fuel turn end
  end.
Definition repeat_within {A} (measure : Session.t R → nat) (turn : session (option A)) : session A := λ s,
  loop (measure s) turn s.
Definition repeat {A} (turn : session (option A)) : session A := repeat_within Session.fuel turn.

(** *** The repository *)

Definition repository {E A} (call : st R E A) : session (result E A) := during (λ s,
  let '(r, d) := call (Session.repository s) in (Ok r, Session.set_repository d s)).

Fixpoint commit_all (events : list JobEvent.t) : session unit :=
  match events with
  | [] => mret tt
  | event :: events =>
      r ← repository (commit_transition event);
      _ ← try RunError.Commit r;
      _ ← on_job (Job.apply_ event);
      commit_all events
  end.
Definition step (command : JobCommand.t) : session unit :=
  s ← gets (λ s, s);
  events ← try RunError.Domain (Job.decide_ (Session.job s) command);
  commit_all events.

(** *** The part *)

Definition part_spec (j : Job.t) : result DomainError PartSpec.t :=
  PartSpec.new (Job.id j) (Job.generation j) (match Job.plan j with Some (total, _) => total | None => 0 end).

(** [drop_part]: best effort, so whatever the store answers. *)
Definition drop_part : session unit :=
  s ← gets (λ s, s);
  let j := Session.job s in
  match Job.plan j, part_spec j, Coordinator.parts_for c (JobSpec.destination (Job.spec j)) with
  | Some _, Ok spec, Ok _ =>
      _ ← during (on_disk (λ d,
        match FilePart.open_inner spec false d with
        | (Err e, d) => (Err e, d)
        | (Ok p, d) =>
            let '(r, w) := (_ ← FilePart.abandon; FilePart.discard) (FilePart.World p d) in
            (r, FilePart.fs w)
        end));
      mret tt
  | _, _, _ => mret tt
  end.

Definition release_part (abandon : bool) : session unit :=
  s ← gets (λ s, s);
  match Session.writer s with
  | None => drop_part
  | Some _ => _ ← during (ask (Command.Discard abandon 0)); mret tt
  end.

(** The store's part of [open_part]: a new file, or the old one proved by its extents. *)
Fixpoint recover_all (extents : list DurableExtent.t) : FilePart.part_st unit :=
  match extents with
  | [] => mret tt
  | e :: rest =>
      _ ← FilePart.recover_extent sha256 (DurableExtent.range e) (DurableExtent.digest e);
      recover_all rest
  end.
Definition open_file (spec : PartSpec.t) (extents : list DurableExtent.t) :
    st Fs.t StorageError.t FilePart.t := λ d,
  if decide (extents = []) then
    match FilePart.open_inner spec true d with
    | (Err StorageError.Conflict, d) => FilePart.open_inner spec false d
    | r => r
    end
  else
    match FilePart.open_inner spec false d with
    | (Err e, d) => (Err e, d)
    | (Ok p, d) =>
        let '(r, w) := recover_all extents (FilePart.World p d) in
        (r ← r; Ok (FilePart.part w), FilePart.fs w)
    end.

(** *** Stopping *)

Definition state_is (states : list JobState.t) : session bool :=
  gets (λ s, bool_decide (Job.state (Session.job s) ∈ states)).
Definition cancel_workers : session unit := modify (Session.set_stop_workers true).

Definition stop_with (command : JobCommand.t) : session unit :=
  running ← state_is [JobState.Probing; JobState.Transferring; JobState.Stopping];
  _ ← (if running : bool then step command else mret tt);
  cancel_workers.

Definition tell (f : OriginGovernor.t → OriginId → Z → OriginGovernor.t) : session unit :=
  modify (λ s, Session.set_governor
    ((λ g, f g (Session.origin s) (Session.now s)) <$> Session.governor s) s).

(** The retry branch of [on_transport_error]. *)
Definition retry_command (error : TransportError.t) (s : Session.t R) : JobCommand.t :=
  let now := Session.now s in
  let '(class, deadline) := match error with
    | TransportError.Throttled retry_after_ms =>
        (Throttled, saturating_add u64_max now <$> retry_after_ms)
    | _ => (Transient, None)
    end in
  match RetryPolicy.decide_ (CoordinatorConfig.retry (Coordinator.config c)) class
      (Z.max (Job.attempts (Session.job s)) 1) now deadline (Session.jitter s) with
  | Ok (RetryAt at_tick) => JobCommand.Retry at_tick
  | _ => JobCommand.RequireAction StopReason.Network
  end.

Definition on_transport_error (error : TransportError.t) : session unit :=
  command ← match error with
    | TransportError.RepresentationChanged => mret JobCommand.RepresentationChanged
    | TransportError.UserAction reason => mret (JobCommand.RequireAction reason)
    | TransportError.Fatal reason => mret (JobCommand.Fail reason)
    | TransportError.Throttled retry_after_ms =>
        _ ← tell (λ g o now, OriginGovernor.throttled g o retry_after_ms now);
        gets (retry_command error)
    | TransportError.Transient => _ ← tell OriginGovernor.failed; gets (retry_command error)
    end;
  stop_with command.

Definition on_storage_failure : session unit :=
  _ ← modify (Session.set_storage_failed true);
  stop_with (JobCommand.RequireAction StopReason.Storage).

Definition on_control (control : option Control.t) : session unit :=
  match control with
  | None => modify (Session.set_control_open false)
  | Some Control.Pause => stop_with JobCommand.Pause
  | Some Control.Cancel => _ ← step JobCommand.Cancel; cancel_workers
  end.

(** [control.recv()], when something is there: a message, or no sender left. *)
Definition recv : session (option (option Control.t)) := λ s,
  if negb (Session.control_open s) then (Ok None, s) else
  match Session.control s with
  | ctl :: rest => (Ok (Some (Some ctl)), Session.set_control rest s)
  | [] => (Ok (if Session.senders s then None else Some None), s)
  end.
(** [workers.join_next_with_id()], when a task has ended. *)
Definition join_next : session (option (nat * result Failure.t unit)) := λ s,
  match Session.finished s with
  | [] => (Ok None, s)
  | done :: rest => (Ok (Some done), Session.set_tasks (Session.workers s) rest s)
  end.

(** *** Opening *)

Definition integrity_or_storage (integrity : bool) : StopReason.t :=
  if integrity then StopReason.Integrity else StopReason.Storage.

Definition open_part : session unit :=
  s ← gets (λ s, s);
  let j := Session.job s in
  _ ← lift (ok_or (Job.plan j) (Halt.Failed (RunError.NotRunnable (Job.state j))));
  spec ← try RunError.Domain (part_spec j);
  found ← repository (durable_extents (Job.id j));
  extents ← try (λ _, RunError.Repository) found;
  _ ← try (λ _, RunError.Storage StorageError.InvalidInput)
        (Coordinator.parts_for c (JobSpec.destination (Job.spec j)));
  opened ← during (on_disk (open_file spec extents));
  match opened with
  | Err error =>
      _ ← modify (Session.set_storage_failed true);
      let command := JobCommand.RequireAction
        (integrity_or_storage (bool_decide (error = StorageError.Integrity))) in
      direct ← state_is [JobState.Verifying; JobState.Publishing];
      if direct : bool then step command else stop_with command
  | Ok file =>
      _ ← try RunError.Writer
        (Lane.start (FilePart.World file Fs.empty) (CoordinatorConfig.writer_capacity (Coordinator.config c)));
      modify (λ s, Session.set_lane (Some (file, None)) (Session.disk s) s)
  end.

(** *** Splitting and leasing *)

Definition map_segments (j : Job.t) : list Segment.t :=
  match Job.segments j with Some m => SegmentMap.segments m | None => [] end.

(** A split the map has no room for is no error. *)
Definition split_or_full (id : SegmentId.t) (at_ : Z) : session (option SegmentId.t) := λ s,
  match Job.split_pending id at_ (Session.job s) with
  | (Ok half, j) => (Ok (Some half), Session.set_job j s)
  | (Err Capacity, j) => (Ok None, Session.set_job j s)
  | (Err e, j) => (Err (Halt.Failed (RunError.Domain e)), Session.set_job j s)
  end.

Fixpoint split_loop (fuel : nat) (current : SegmentId.t) (at_ size total : Z) : session unit :=
  match fuel with
  | O => mret tt
  | S fuel =>
      if decide (total ≤ at_) then mret tt else
      half ← split_or_full current at_;
      match half with
      | None => mret tt
      | Some half => split_loop fuel half (wrap (at_ + size)) size total
      end
  end.
Definition initial_split : session unit :=
  s ← gets (λ s, s);
  match map_segments (Session.job s) with
  | [only] =>
      if decide (Segment.state only ≠ Pending ∨ ByteRange.start (Segment.range only) ≠ 0) then mret tt else
      let total := ByteRange.end_ (Segment.range only) in
      let unit_ := CoordinatorConfig.min_segment (Coordinator.config c) in
      let pieces := Z.min (total / unit_) (Session.connections s) in
      if decide (pieces < 2) then mret tt else
      let size := align (div_ceil total pieces) unit_ in
      split_loop (Z.to_nat pieces) (Segment.id only) size size total
  | _ => mret tt
  end.

Definition cap_lease (id : SegmentId.t) : session SegmentId.t :=
  let unit_ := CoordinatorConfig.min_segment (Coordinator.config c) in
  let cap := align (Z.max (CoordinatorConfig.checkpoint_bytes (Coordinator.config c)) unit_) unit_ in
  s ← gets (λ s, s);
  match list_find (λ q, Segment.id q = id) (map_segments (Session.job s)) with
  | None => mret id
  | Some (_, q) =>
      if decide (cap < ByteRange.len (Segment.range q)) then
        _ ← split_or_full id (wrap (ByteRange.start (Segment.range q) + cap)); mret id
      else mret id
  end.

Definition next_pending : session (option SegmentId.t) :=
  s ← gets (λ s, s);
  let pending := filter (λ q, Segment.state q = Pending) (map_segments (Session.job s)) in
  match pending with
  | [] => mret None
  | first :: _ =>
      let idle := Session.connections s
        - Z.of_nat (length (Session.workers s) + length (Session.finished s)) in
      let unit_ := CoordinatorConfig.min_segment (Coordinator.config c) in
      halved ← match max_by_key (ByteRange.len ∘ Segment.range) pending with
        | Some q =>
            let r := Segment.range q in
            let mid := wrap (ByteRange.start r + align (ByteRange.len r / 2) unit_) in
            if decide (Z.of_nat (length pending) < idle ∧ wrap (2 * unit_) ≤ ByteRange.len r ∧ mid < ByteRange.end_ r)
            then split_or_full (Segment.id q) mid else mret None
        | None => mret None
        end;
      match halved with
      | Some half => mret (Some half)
      | None => id ← cap_lease (Segment.id first); mret (Some id)
      end
  end.

Definition running (s : Session.t R) : Z :=
  Z.of_nat (length (Session.workers s) + length (Session.finished s)).

(** One connection more, as long as there is work and room. *)
Fixpoint spawn_workers (room : nat) : session unit :=
  match room with
  | O => mret tt
  | S room =>
      s ← gets (λ s, s);
      if decide (Job.state (Session.job s) = JobState.Transferring ∧ running s < Session.connections s) then
        next ← next_pending;
        match next with
        | None => mret tt
        | Some id =>
            _ ← modify (λ s, Session.set_next_worker (wrap (Session.next_worker s + 1)) s);
            s ← gets (λ s, s);
            lease ← on_job (Job.lease_segment id (Session.next_worker s));
            s ← gets (λ s, s);
            _ ← lift (ok_or (Session.writer s) (Halt.Failed (RunError.Writer WriterError.Closed)));
            _ ← modify (λ s, Session.set_leases (<[Session.spawned s := lease]> (Session.leases s))
              (Session.set_spawned (S (Session.spawned s))
                (Session.set_tasks (Session.workers s ++ [(Session.spawned s, Worker.Make lease Worker.Opening)])
                  (Session.finished s) s)));
            spawn_workers room
        end
      else mret tt
  end.

(** *** Checkpoints *)

Definition has_unsynced (s : Session.t R) : bool :=
  Job.map_is SegmentMap.has_unsynced (Session.job s).

(** [writer.sync(..)], [writer.hash(..)] and the others: the lane's answer, or no lane. *)
Definition lane_sync : session (result WriterError.t unit) :=
  a ← during (ask (Command.Sync 0));
  mret match a with Some (Done r) => r | _ => Err WriterError.WorkerFailed end.
Definition lane_hash (range : ByteRange.t) : session (result WriterError.t digest32) :=
  s ← gets (λ s, s);
  if is_some_and (λ w, bool_decide (PartSpec.size (FilePart.spec w.1) < ByteRange.end_ range)) (Session.writer s)
  then mret (Err WriterError.Bounds)
  else
    a ← during (ask (Command.Hash range 0));
    mret match a with Some (Digest r) => r | _ => Err WriterError.WorkerFailed end.
Definition lane_verify (expected : option digest32) (record : list (ByteRange.t * digest32)) :
    session (result WriterError.t digest32) :=
  a ← during (ask (Command.Verify expected record 0));
  mret match a with Some (Digest r) => r | _ => Err WriterError.WorkerFailed end.
Definition lane_publish (destination : Destination.t) : session (result WriterError.t Name) :=
  a ← during (ask (Command.Publish destination 0));
  mret match a with Some (Published r) => r | _ => Err WriterError.WorkerFailed end.

(** Hashing the ranges of a batch; [None] when the lane refused one. *)
Fixpoint hash_ranges (ranges : list ByteRange.t) : session (option (list DurableExtent.t)) :=
  match ranges with
  | [] => mret (Some [])
  | range :: rest =>
      r ← lane_hash range;
      match r with
      | Err _ => mret None
      | Ok digest =>
          found ← hash_ranges rest;
          mret (cons (DurableExtent.Make range digest) <$> found)
      end
  end.

(** The commit, retried with the same extents while its outcome is unknown. *)
Fixpoint commit_retry (again : nat) (batch : CommitBatch.t) (extents : list DurableExtent.t) : session unit :=
  r ← repository (commit_extents (CommitBatch.job batch) (CommitBatch.generation batch) extents);
  match r, again with
  | Ok _, _ => mret tt
  | Err CommitError.Unavailable, S again => _ ← await; commit_retry again batch extents
  | Err error, _ => _ ← on_job Job.abandon_checkpoint; fail (RunError.Commit error)
  end.

Definition checkpoint : session unit :=
  s ← gets (λ s, s);
  if negb (has_unsynced s) || Session.storage_failed s then mret tt else
  _ ← lift (ok_or (Session.writer s) (Halt.Failed (RunError.Writer WriterError.Closed)));
  ticket ← on_job Job.prepare_sync;
  synced ← lane_sync;
  if negb (is_ok synced) then _ ← on_job Job.abandon_checkpoint; on_storage_failure else
  batch ← on_job (Job.acknowledge_sync ticket);
  found ← hash_ranges (CommitBatch.ranges batch);
  match found with
  | None => _ ← on_job Job.abandon_checkpoint; on_storage_failure
  | Some extents =>
      _ ← commit_retry 2 batch extents;
      _ ← on_job (Job.acknowledge_commit batch);
      modify (Session.set_unsynced 0)
  end.

(** *** The transfer *)

Definition on_worker (done : nat * result Failure.t unit) : session unit :=
  s ← gets (λ s, s);
  lease ← lift (ok_or (Session.leases s !! done.1) (Halt.Failed RunError.Invariant));
  _ ← modify (λ s, Session.set_leases (delete done.1 (Session.leases s)) s);
  match done.2 with
  | Ok _ =>
      _ ← on_job (Job.mark_written lease);
      modify (λ s, Session.set_unsynced (wrap (Session.unsynced s + ByteRange.len (Lease.range lease))) s)
  | Err failure =>
      _ ← on_job (Job.release lease);
      match failure with
      | Failure.Cancelled => mret tt
      | Failure.Transport error => on_transport_error error
      | Failure.Writer WriterError.Cancelled => mret tt
      | Failure.Writer _ => on_storage_failure
      | Failure.Panicked => stop_with (JobCommand.Fail StopReason.Unknown)
      end
  end.

(** The select of [transfer]: one ready branch, or nothing yet. *)
Definition take_worker : session bool :=
  done ← join_next; match done with Some done => _ ← on_worker done; mret true | None => mret false end.
Definition take_control : session bool :=
  ctl ← recv; match ctl with Some ctl => _ ← on_control ctl; mret true | None => mret false end.
Definition select : session unit := repeat (
  _ ← await;
  s ← gets (λ s, s);
  let '(first, second) := if Session.control_first s then (take_control, take_worker)
                          else (take_worker, take_control) in
  taken ← first;
  taken ← (if taken : bool then mret true else second);
  mret (if taken : bool then Some tt else None)).

(** One turn of [transfer]; [Some] ends it. *)
Definition transfer_turn : session (option unit) :=
  s ← gets (λ s, s);
  _ ← spawn_workers (Z.to_nat (Session.connections s));
  s ← gets (λ s, s);
  let state := Job.state (Session.job s) in
  let select_turn :=
    _ ← (if decide (state = JobState.Transferring ∧
                    CoordinatorConfig.checkpoint_bytes (Coordinator.config c) ≤ Session.unsynced s)
         then checkpoint else mret tt);
    _ ← select; mret None in
  if decide (running s = 0) then
    if decide (state = JobState.Transferring) then
      if has_unsynced s then _ ← checkpoint; mret None
      else if Job.all_durable (Session.job s) then _ ← step JobCommand.AllSegmentsDurable; mret None
      else fail RunError.Invariant
    else mret (Some tt)
  else select_turn.
Definition transfer : session unit := repeat transfer_turn.

(** *** Publication *)

Definition publish_blocked (reason : StopReason.t) : session SessionEnd.t :=
  running ← state_is [JobState.Publishing; JobState.Verifying];
  _ ← (if running : bool then step (JobCommand.RequireAction reason) else mret tt);
  gets (λ s, SessionEnd.Settled (Job.state (Session.job s))).

Definition settled_here : session SessionEnd.t :=
  gets (λ s, SessionEnd.Settled (Job.state (Session.job s))).

(** The committed extents, as the record a part is verified against. *)
Definition record : session (list (ByteRange.t * digest32)) :=
  s ← gets (λ s, s);
  found ← repository (durable_extents (Job.id (Session.job s)));
  extents ← try (λ _, RunError.Repository) found;
  mret ((λ e, (DurableExtent.range e, DurableExtent.digest e)) <$> extents).

(** A handle reopened after a crash proves the bytes again; [Some] is why it could not. *)
Definition prove_again (intent : PublishIntent.t) : session (option StopReason.t) :=
  synced ← lane_sync;
  if negb (is_ok synced) then mret (Some StopReason.Storage) else
  rec ← record;
  s ← gets (λ s, s);
  r ← lane_verify (JobSpec.expected_sha256 (Job.spec (Session.job s))) rec;
  mret match r with
  | Ok digest => if decide (digest = PublishIntent.digest intent) then None else Some StopReason.Integrity
  | Err (WriterError.Storage StorageError.Integrity) => Some StopReason.Integrity
  | Err _ => Some StopReason.Storage
  end.

Definition link_part (destination : Destination.t) : session SessionEnd.t :=
  r ← lane_publish destination;
  match r with
  | Ok path =>
      _ ← step JobCommand.PublishCommitted;
      _ ← release_part false;
      mret (SessionEnd.Published path)
  | Err (WriterError.Storage StorageError.Conflict) => publish_blocked StopReason.Destination
  | Err _ => publish_blocked StopReason.Storage
  end.

(** The end of [attempt_publish], with nothing at the destination. *)
Definition publish_free (intent : PublishIntent.t) (destination : Destination.t) : session SessionEnd.t :=
  s ← gets (λ s, s);
  match Session.writer s with
  | Some _ => link_part destination
  | None =>
      _ ← open_part;
      s ← gets (λ s, s);
      match Session.writer s with
      | None => settled_here
      | Some _ =>
          why ← prove_again intent;
          match why with
          | Some reason => publish_blocked reason
          | None => link_part destination
          end
      end
  end.

Definition attempt_publish (intent : PublishIntent.t) : session SessionEnd.t :=
  s ← gets (λ s, s);
  if decide (PublishIntent.generation intent ≠ Job.generation (Session.job s))
  then publish_blocked StopReason.Storage else
  destination ← try (λ _, RunError.Repository)
    (Coordinator.resolve c (JobSpec.destination (Job.spec (Session.job s))));
  found ← during (on_disk (inspect sha256 destination (PublishIntent.size intent)));
  occupant ← try RunError.Storage found;
  match occupant with
  | Some (Occupant.File size digest) =>
      if decide (size = PublishIntent.size intent ∧ digest = PublishIntent.digest intent) then
        _ ← step JobCommand.PublishCommitted;
        _ ← release_part true;
        mret (SessionEnd.Published (Destination.resolved destination))
      else publish_blocked StopReason.Destination
  | Some _ => publish_blocked StopReason.Destination
  | None => publish_free intent destination
  end.

Definition resume_publish : session SessionEnd.t :=
  s ← gets (λ s, s);
  found ← repository (publish_intent (Job.id (Session.job s)));
  intent ← try (λ _, RunError.Repository) found;
  match intent with
  | None =>
      _ ← step (JobCommand.RequireAction StopReason.Storage);
      settled_here
  | Some intent => attempt_publish intent
  end.

Definition publish (digest : digest32) : session SessionEnd.t :=
  s ← gets (λ s, s);
  let j := Session.job s in
  let size := match Job.plan j with Some (total, _) => total | None => 0 end in
  found ← repository (publish_intent (Job.id j));
  previous ← try (λ _, RunError.Repository) found;
  let attempt := match previous with
    | Some i => saturating_add u32_max (PublishIntent.attempt i) 1 | None => 1 end in
  let intent := PublishIntent.Make (Job.id j) (Job.generation j) attempt size digest in
  recorded ← repository (record_publish_intent intent);
  _ ← try RunError.Commit recorded;
  _ ← step JobCommand.VerificationPassed;
  attempt_publish intent.

Definition verify : session SessionEnd.t :=
  s ← gets (λ s, s);
  match Session.writer s with
  | None => settled_here
  | Some _ =>
      synced ← lane_sync;
      if negb (is_ok synced) then
        _ ← step (JobCommand.RequireAction StopReason.Storage); settled_here
      else
      rec ← record;
      s ← gets (λ s, s);
      r ← lane_verify (JobSpec.expected_sha256 (Job.spec (Session.job s))) rec;
      match r with
      | Ok digest => publish digest
      | Err error =>
          _ ← step (JobCommand.RequireAction (integrity_or_storage
                (bool_decide (error = WriterError.Storage StorageError.Integrity))));
          settled_here
      end
  end.

(** *** The end *)

(** Every connection, running or ended, joined. *)
Definition join_all (on_done : nat * result Failure.t unit → session unit) : session unit := repeat_within Session.joins (
  done ← join_next;
  match done with
  | Some done => _ ← on_done done; mret None
  | None =>
      s ← gets (λ s, s);
      if decide (Session.workers s = []) then mret (Some tt) else _ ← await; mret None
  end).

(** The [try_recv] loop of [finish]. *)
Definition drain_control : session unit := repeat (
  s ← gets (λ s, s);
  if negb (Session.control_open s) then mret (Some tt) else
  match Session.control s with
  | [] => mret (Some tt)
  | ctl :: rest =>
      _ ← modify (Session.set_control rest);
      stopped ← state_is [JobState.Stopping; JobState.Paused];
      _ ← (if bool_decide (ctl = Control.Cancel) && stopped then step JobCommand.Cancel else mret tt);
      mret None
  end).

Definition discard_unsynced : session unit := on_job Job.discard_unsynced.

Definition settle_stopping : session unit :=
  s ← gets (λ s, s);
  _ ← (if has_unsynced s && negb (Job.replace_on_drain (Session.job s)) then
         if Session.storage_failed s then discard_unsynced
         else
           _ ← checkpoint;
           s ← gets (λ s, s);
           if Session.storage_failed s then discard_unsynced else mret tt
       else mret tt);
  step JobCommand.WorkersDrained.

Definition finish : session SessionEnd.t :=
  _ ← join_all on_worker;
  _ ← drain_control;
  s ← gets (λ s, s);
  _ ← match Job.state (Session.job s) with
      | JobState.Stopping => settle_stopping
      | JobState.Cancelling => _ ← release_part true; step JobCommand.CleanupFinished
      | _ => mret tt
      end;
  verifying ← state_is [JobState.Verifying];
  if verifying : bool then verify else settled_here.

(** *** The session *)

(** The select of the probe: a control before the answer. *)
Definition await_probe : session (option (result TransportError.t Probe.t)) :=
  _ ← modify (Session.set_probed None);
  repeat (
  _ ← await;
  ctl ← recv;
  match ctl with
  | Some None =>
      _ ← modify (Session.set_control_open false);
      _ ← modify (Session.set_probed None);
      mret None
  | Some (Some ctl) => _ ← on_control (Some ctl); mret (Some None)
  | None => s ← gets (λ s, s); mret (Some <$> Session.probed s)
  end).

(** The bytes kept belong to another representation than the one probed. *)
Definition changed (p : Probe.t) (j : Job.t) : bool :=
  match Job.plan j with
  | Some (total, _) => bool_decide (total ≠ Probe.total p ∨ Probe.validator p = None
                                    ∨ Probe.validator p ≠ Job.validator j)
  | None => false
  end.

Definition transfer_probed (p : Probe.t) : session SessionEnd.t :=
  s ← gets (λ s, s);
  if changed p (Session.job s) then _ ← step JobCommand.RepresentationChanged; finish else
  _ ← tell OriginGovernor.succeeded;
  _ ← (if Probe.ranges p then mret tt else modify (Session.set_connections 1));
  let max_segments := if Probe.ranges p then CoordinatorConfig.max_segments (Coordinator.config c) else 1 in
  _ ← step (JobCommand.ProbeSucceeded (Probe.total p) max_segments (Probe.validator p));
  _ ← open_part;
  transferring ← state_is [JobState.Transferring];
  if negb transferring then finish else
  _ ← initial_split;
  _ ← transfer;
  finish.

Definition drive : session SessionEnd.t :=
  s ← gets (λ s, s);
  match Job.state (Session.job s) with
  | JobState.Publishing => resume_publish
  | JobState.Verifying => _ ← open_part; verify
  | _ =>
      _ ← step JobCommand.Start;
      answer ← await_probe;
      match answer with
      | None => finish
      | Some (Err error) => _ ← on_transport_error error; finish
      | Some (Ok p) => transfer_probed p
      end
  end.

Definition close : session unit :=
  _ ← cancel_workers;
  _ ← join_all (λ _, mret tt);
  _ ← modify (Session.set_leases ∅);
  s ← gets (λ s, s);
  match Session.writer s with
  | None => mret tt
  | Some _ => _ ← modify (λ s, Session.set_lane None (Session.disk s) s); await
  end.

(** A session as [run_with] makes it, around a repository and a disk. *)
Definition begin (j : Job.t) (controls : list Control.t) (connections : Z) (origin : OriginId)
    (governor : option OriginGovernor.t) (repo : R) (disk : Fs.t) (now jitter : Z) (script : list Wait.t) :
    Session.t R :=
  Session.Make R j controls true true None [] [] ∅ 0 false 0 false connections 0 repo disk governor origin
    None now jitter script false.

(** [drive], then [close] whatever it answered, unless the program stopped. *)
Definition run_with : session SessionEnd.t := λ s,
  if decide (Session.connections s = 0 ∨
             CoordinatorConfig.connections (Coordinator.config c) < Session.connections s)
  then (Err (Halt.Failed RunError.InvalidConfig), s)
  else if decide (Job.state (Session.job s) ∉ [JobState.Queued; JobState.Verifying; JobState.Publishing])
  then (Err (Halt.Failed (RunError.NotRunnable (Job.state (Session.job s)))), s)
  else
    match drive s with
    | (Err Halt.Crashed, s) => (Err Halt.Crashed, s)
    | (Err Halt.Stuck, s) => (Err Halt.Stuck, s)
    | (r, s) =>
        match close s with
        | (Err e, s) => (Err e, s)
        | (Ok _, s) => (r, s)
        end
    end.

(** [recover]: a job restored after a crash comes to rest; nothing resumes by itself. *)
Definition recover : session unit :=
  s ← gets (λ s, s);
  match Job.state (Session.job s) with
  | JobState.Probing | JobState.Transferring | JobState.Verifying =>
      _ ← step JobCommand.Pause;
      stopping ← state_is [JobState.Stopping];
      if stopping : bool then step JobCommand.WorkersDrained else mret tt
  | JobState.Stopping => step JobCommand.WorkersDrained
  | JobState.Cancelling => _ ← drop_part; step JobCommand.CleanupFinished
  | _ => mret tt
  end.
End Coordinator.
