(* ===== verification/StorageNames.v ===== *)
(** * What the store does to names

    No call of a part's methods makes a part or sidecar name appear: only creating a
    generation does.  Names stay apart: the part of a generation and its sidecar are
    never one file. *)

From S2P Require Import Prelude.
From S2P Require Import Domain.
From S2P Require Import Files.
From S2P Require Import FilesInv.
From S2P Require Import StorageFile.
From S2P Require Import StorageInv.
From S2P Require Import StorageSteps.
Import FilePart.

(** Every name's file is an inode that was handed out, and a generation's two are not one. *)
Record disk_ok (s : Fs.t) : Prop := {
  disk_fresh : ∀ n ino, Fs.nodes s !! n = Some (File ino) → (ino < Fs.next s)%nat;
  disk_separate : ∀ j g f m, Fs.nodes s !! Part j g = Some (File f) → Fs.nodes s !! Meta j g = Some (File m) → f ≠ m }.

(** [disk_ok] is kept, and no part appears. *)
Definition disk_kept (s s' : Fs.t) : Prop := disk_ok s → disk_ok s'.
Definition parts_stay (s s' : Fs.t) : Prop :=
  ∀ j g ino, Fs.nodes s' !! Part j g = Some (File ino) → Fs.nodes s !! Part j g = Some (File ino).

#[global] Instance disk_kept_preorder : PreOrder disk_kept.
Proof. split; unfold disk_kept; repeat intro; auto. Qed.
#[global] Instance parts_stay_preorder : PreOrder parts_stay.
Proof. split; unfold parts_stay; repeat intro; auto. Qed.

(** ** Computations that stay within a relation of the files *)

Section Within.
Context (rel : Fs.t → Fs.t → Prop) `{!PreOrder rel}.

Definition within {E A} (m : st Fs.t E A) : Prop := ∀ s, rel s (m s).2.
Definition part_within {A} (m : part_st A) : Prop := ∀ w, rel (fs w) (fs (m w).2).

Lemma within_bind {E A B} (m : st Fs.t E A) (k : A → st Fs.t E B) :
  within m → (∀ a, within (k a)) → within (m ≫= k).
Proof.
  intros Hm Hk s. unfold mbind, st_bind. specialize (Hm s). destruct (m s) as [[a|e] s']; [|done].
  etrans; [exact Hm|]. apply Hk.
Qed.
Lemma within_lift {E A} (r : result E A) : within (lift r).
Proof. intros s. cbn. reflexivity. Qed.
Lemma within_ret {E A} (a : A) : within (E:=E) (mret a).
Proof. intros s. cbn. reflexivity. Qed.
Lemma within_io {A} (m : fs_st A) : within m → within (io m).
Proof. intros Hm s. unfold io. specialize (Hm s). by destruct (m s). Qed.
Lemma within_ignore {A E} (m : fs_st A) : within m → within (E:=E) (ignore m).
Proof. intros Hm s. apply Hm. Qed.

Lemma part_within_bind {A B} (m : part_st A) (k : A → part_st B) :
  part_within m → (∀ a, part_within (k a)) → part_within (m ≫= k).
Proof.
  intros Hm Hk w. unfold mbind, st_bind. specialize (Hm w). destruct (m w) as [[a|e] w']; [|done].
  etrans; [exact Hm|]. apply Hk.
Qed.
Lemma part_within_lift {A} (r : result StorageError.t A) : part_within (lift r).
Proof. intros w. cbn. reflexivity. Qed.
Lemma part_within_ret {A} (a : A) : part_within (mret a).
Proof. intros w. cbn. reflexivity. Qed.
Lemma part_within_throw {A} e : part_within (A:=A) (throw e).
Proof. intros w. cbn. reflexivity. Qed.
Lemma part_within_self : part_within self.
Proof. intros w. cbn. reflexivity. Qed.
Lemma part_within_update f : part_within (update f).
Proof. intros w. cbn. reflexivity. Qed.
Lemma part_within_on_fs {A} (m : st Fs.t StorageError.t A) : within m → part_within (on_fs m).
Proof. intros Hm w. unfold on_fs, zoom. specialize (Hm (fs w)). by destruct (m (fs w)). Qed.
End Within.

Create HintDb within discriminated.
#[export] Hint Resolve within_bind within_lift within_ret within_io within_ignore part_within_bind part_within_lift
  part_within_ret part_within_throw part_within_self part_within_update part_within_on_fs
  disk_kept_preorder parts_stay_preorder : within.

(** What a relation must allow for the methods of a part to stay within it. *)
Class NameRelation (rel : Fs.t → Fs.t → Prop) : Prop := {
  name_preorder :: PreOrder rel;
  name_same : ∀ s s', same s s' → rel s s';
  name_contents : ∀ s data faults, rel s (Fs.Make (Fs.nodes s) data (Fs.next s) faults);
  name_removed : ∀ s n faults, rel s (Fs.Make (delete n (Fs.nodes s)) (Fs.data s) (Fs.next s) faults);
  name_linked : ∀ s n m ino faults, (∀ j g, n ≠ Part j g) → (∀ j g, n ≠ Meta j g) →
    Fs.nodes s !! m = Some (File ino) → rel s (Fs.Make (<[n := File ino]> (Fs.nodes s)) (Fs.data s) (Fs.next s) faults) }.

#[global] Instance disk_kept_names : NameRelation disk_kept.
Proof.
  split; [apply _|..].
  - intros s s' (Hn&_&Hx) [H1 H2]. split; rewrite ?Hn, ?Hx; done.
  - intros s data faults [H1 H2]. by split.
  - intros s n faults [H1 H2]. split; cbn.
    + intros n' ino [_ ?]%lookup_delete_Some. eauto.
    + intros j g f m [_ ?]%lookup_delete_Some [_ ?]%lookup_delete_Some. eauto.
  - intros s n m ino faults Hp Hm Hs [H1 H2]. split; cbn.
    + intros n' i [[_ [= <-]]|[_ ?]]%lookup_insert_Some; eauto.
    + intros j g f k. rewrite !lookup_insert_ne by auto. eauto.
Qed.

#[global] Instance parts_stay_names : NameRelation parts_stay.
Proof.
  split; [apply _|..].
  - intros s s' (Hn&_&_) j g ino. by rewrite Hn.
  - by intros s data faults j g ino.
  - intros s n faults j g ino. cbn. by intros [_ ?]%lookup_delete_Some.
  - intros s n m ino faults Hp _ _ j g i. cbn. by rewrite lookup_insert_ne by auto.
Qed.

(** ** The methods *)

Section Methods.
Context (rel : Fs.t → Fs.t → Prop) `{!NameRelation rel} (sha256 : list Z → digest32).

Lemma within_keeps {E A} (m : st Fs.t E A) : keeps m → within rel m.
Proof. intros Hm s. apply name_same, Hm. Qed.
Lemma within_write_all ino off bytes : within rel (write_all ino off bytes).
Proof.
  intros s. unfold write_all, syscall. destruct (head _) as [[[]|]|]; exact (name_contents s _ _).
Qed.
Lemma within_set_len ino size : within rel (set_len ino size).
Proof.
  intros s. unfold set_len, syscall. destruct (head _) as [[[]|]|]; exact (name_contents s _ _).
Qed.
Lemma within_remove_file n : within rel (remove_file n).
Proof.
  intros s. unfold remove_file, syscall.
  destruct (head _) as [[[]|]|]; cbn; [exact (name_contents s _ _)|..];
    destruct (Fs.nodes s !! n) as [[]|]; cbn; first [exact (name_contents s _ _)|exact (name_removed s n _)].
Qed.
(** The names a link is made under: never a part's or a sidecar's. *)
Definition linkable (n : Name) : Prop := (∀ j g, n ≠ Part j g) ∧ (∀ j g, n ≠ Meta j g).
Lemma within_hard_link a b : linkable b → within rel (hard_link a b).
Proof.
  intros [Hp Hm] s. unfold hard_link, syscall.
  destruct (head _) as [[[]|]|]; cbn; [exact (name_contents s _ _)|..];
    (destruct (Fs.nodes s !! a) as [[]|] eqn:Ha; destruct (Fs.nodes s !! b); cbn;
     first [exact (name_contents s _ _)|by eapply (name_linked s b a)]).
Qed.
#[local] Hint Resolve within_keeps within_write_all within_set_len within_remove_file within_hard_link : within.
#[local] Hint Extern 2 (keeps _) => solve [auto with keeps] : within.
#[local] Hint Extern 1 (PreOrder _) => apply name_preorder : within.

Ltac within := repeat (intros; cbn beta iota zeta;
  first [ apply name_preorder | solve [eauto 4 with within] | apply part_within_bind | apply within_bind
        | apply part_within_on_fs | case_decide ]).

Lemma within_access : within rel (io access).
Proof. within. Qed.
#[local] Hint Resolve within_access : within.

Lemma within_write_at off bytes : part_within rel (write_at off bytes).
Proof. unfold write_at. within. Qed.
Lemma within_sync : part_within rel sync.
Proof. unfold sync. within. Qed.
Lemma within_hash start len : part_within rel (hash sha256 start len).
Proof. unfold hash. within. Qed.
#[local] Hint Resolve within_hash : within.
Lemma within_hash_range r : part_within rel (hash_range sha256 r).
Proof. unfold hash_range. within. Qed.
Lemma within_recover_extent r d : part_within rel (recover_extent sha256 r d).
Proof. unfold recover_extent. within. Qed.
Lemma within_rehash size record : part_within rel (rehash sha256 size record).
Proof. induction record as [|[r d] record IH]; cbn; within. Qed.
#[local] Hint Resolve within_rehash : within.
Lemma within_verify e record : part_within rel (verify sha256 e record).
Proof. unfold verify. within. Qed.
Lemma within_discard_name n : part_within rel (discard_name n).
Proof.
  unfold discard_name. apply part_within_on_fs. intros s. pose proof (within_remove_file n s) as Hr.
  destruct (remove_file n s) as [[|[]] ?]; exact Hr.
Qed.
#[local] Hint Resolve within_discard_name : within.
Lemma within_discard : part_within rel discard.
Proof. unfold discard. within. Qed.
Lemma within_abandon : part_within rel abandon.
Proof. unfold abandon. within. Qed.
Lemma within_destination_free n : part_within rel (destination_free n).
Proof.
  unfold destination_free. apply part_within_on_fs. intros s.
  pose proof (within_keeps (symlink_metadata n) (keeps_symlink_metadata n) s) as Hr.
  destruct (symlink_metadata n s) as [[|[]] ?]; exact Hr.
Qed.
Lemma within_seal : part_within rel seal.
Proof. unfold seal. within. Qed.
Lemma linkable_staged sp : linkable (staged_name sp).
Proof. split; by intros. Qed.
#[local] Hint Resolve linkable_staged within_destination_free within_seal : within.
Lemma within_stage e : part_within rel (stage sha256 e).
Proof.
  intros w. unfold stage. pose proof (within_remove_file (staged_name (spec (part w))) (fs w)) as H1.
  pose proof (within_hard_link (path (part w)) _ (linkable_staged (spec (part w)))
    (remove_file (staged_name (spec (part w))) (fs w)).2) as H2.
  destruct (hard_link _ _ _) as [[]s]; cbn in *; [|by etrans].
  assert (within rel (ino ← io (Files.open (staged_name (spec (part w))));
    hash_whole sha256 ino (PartSpec.size (spec (part w))) : st Fs.t StorageError.t digest32)) as H3.
  { unfold hash_whole. within. }
  specialize (H3 s). cbv zeta. match goal with |- rel _ (fs (match ?m with _ => _ end).2) => change (rel s (m).2) in H3; destruct m as [r s'] end.
  cbn in *. case_decide; cbn.
  - etrans; [exact H1|]. by etrans.
  - etrans; [exact H1|]. etrans; [exact H2|]. etrans; [exact H3|]. apply within_remove_file.
Qed.
Lemma within_link_destination n : linkable n → part_within rel (link_destination n).
Proof.
  intros Hn w. unfold link_destination.
  pose proof (within_hard_link (staged_name (spec (part w))) n Hn (fs w)) as H1.
  destruct (hard_link _ _ _) as [[]s]; cbn in *; [done|]. etrans; [exact H1|]. apply within_remove_file.
Qed.
#[local] Hint Resolve within_stage within_link_destination : within.
Lemma within_publish d : linkable (Destination.resolved d) → part_within rel (publish sha256 d).
Proof.
  intros Hd w. destruct (publish sha256 d w) as [r w'] eqn:Hp. cbn.
  apply publish_run in Hp as [(Hs&_)|(e&s&_&_&_&_&_&Hs&He)]; [by apply name_same|].
  etrans; [by apply name_same|]. assert (part_within rel (expose sha256 (spec (part w)) e (Destination.resolved d))) as Hx.
  { unfold expose. within. }
  specialize (Hx (World (part w) s)). by rewrite He in Hx.
Qed.
End Methods.

(** ** Creating a generation

    The only call that makes a part appear, where none was. *)

Lemma disk_kept_create_new n : within disk_kept (create_new n).
Proof.
  intros s. unfold create_new, syscall.
  assert (∀ faults, disk_kept s (Fs.set_faults faults s)) as Hf by (intros ? [H1 H2]; by split).
  destruct (head _) as [[[]|]|]; try apply Hf; cbn; destruct (Fs.nodes s !! n) as [nd|] eqn:Hn; cbn; try apply Hf.
  all: intros [H1 H2]; split; cbn; [intros n' ino [[_ [= <-]]|[_ Hi]]%lookup_insert_Some; [lia|apply H1 in Hi; lia]|].
  all: intros j g f m [[? [= <-]]|[? Hf']]%lookup_insert_Some [[? [= <-]]|[? Hm]]%lookup_insert_Some; subst; try done;
    [apply H1 in Hm; lia|apply H1 in Hf'; lia|by eapply H2].
Qed.

Lemma disk_kept_open sp create : within disk_kept (open_inner sp create).
Proof.
  intros s. destruct (open_inner sp create s) as [r s'] eqn:Ho. cbn.
  apply open_inner_checks in Ho as [[_ Hs]|(s0&Hs&Ho)]; [by apply name_same|].
  etrans; [by apply name_same|]. revert Ho.
  match goal with |- ?m s0 = _ → _ => assert (within disk_kept m) as Hw; [|intros Ho; specialize (Hw s0); by rewrite Ho in Hw] end.
  apply (within_bind disk_kept); [|intros file].
  - intros s1. pose proof (disk_kept_create_new (part_name sp) s1) as Hc.
    pose proof (name_same (rel:=disk_kept) s1 (Files.open (part_name sp) s1).2 (keeps_open _ s1)) as Hk.
    destruct create; [destruct (create_new _ s1)|destruct (Files.open _ s1)]; exact Hc || exact Hk.
  - destruct create.
    + repeat (apply (within_bind disk_kept); [| intros ?]); try apply (within_io disk_kept);
        first [apply disk_kept_create_new|apply (within_set_len disk_kept)|apply (within_write_all disk_kept)
              |apply (within_keeps disk_kept); auto with keeps].
    + apply (within_keeps disk_kept); auto 20 with keeps.
Qed.

Lemma open_same sp s : same s (open_inner sp false s).2.
Proof.
  destruct (open_inner sp false s) as [r s'] eqn:Ho. cbn.
  apply open_inner_checks in Ho as [[_ Hs]|(s0&Hs&Ho)]; [done|]. etrans; [done|]. revert Ho.
  match goal with |- ?m s0 = _ → _ => assert (keeps m) as Hw; [|intros Ho; specialize (Hw s0); by rewrite Ho in Hw] end.
  apply keeps_bind; [|auto 20 with keeps].
  intros s1. pose proof (keeps_open (part_name sp) s1) as Hk. by destruct (Files.open _ s1).
Qed.

(** ** Taking names away *)

(** Nothing happens to the bytes, nor to the names that are not a part's. *)
Definition trimmed (s s' : Fs.t) : Prop :=
  Fs.data s' = Fs.data s ∧ ∀ n, linkable n → Fs.nodes s' !! n = Fs.nodes s !! n.
#[global] Instance trimmed_preorder : PreOrder trimmed.
Proof. split; [by split|]. intros a b c [Hd Hn] [Hd' Hn']. split; [congruence|]. intros n Hl. by rewrite Hn', Hn. Qed.
Lemma same_trimmed s s' : same s s' → trimmed s s'.
Proof. intros (Hn&Hd&_). split; [done|]. intros n _. by rewrite Hn. Qed.
Lemma touches_trimmed n s s' : touches n s s' → ¬ linkable n → trimmed s s'.
Proof. intros [Hn Hd] Hl. split; [done|]. intros m Hm. apply Hn. by intros ->. Qed.

Lemma part_unlinkable sp : ¬ linkable (part_name sp).
Proof. intros [H _]. by eapply H. Qed.
Lemma meta_unlinkable sp : ¬ linkable (meta_name sp).
Proof. intros [_ H]. by eapply H. Qed.

Lemma discard_trimmed w : path (part w) = part_name (spec (part w)) → trimmed (fs w) (fs (discard w).2).
Proof.
  assert (∀ n q t, ¬ linkable n → ∃ r s, discard_name n (World q t) = (r, World q s) ∧ trimmed t s) as Hdn.
  { intros n q t Hn. pose proof (remove_file_touches n t) as Ht. apply touches_trimmed in Ht; [|done].
    unfold discard_name, on_fs, zoom. cbn. destruct (remove_file n t) as [[?|[]] ?]; by eauto. }
  destruct w as [p s]. cbn. intros Hp. unfold discard, self, update. unfold_monad. destruct (negb _ && _); [done|]. cbn.
  rewrite Hp. destruct (Hdn (part_name (spec p)) (set_poisoned true p) s (part_unlinkable _)) as (r1&s1&->&H1).
  destruct r1; [|done].
  destruct (Hdn (meta_name (spec p)) (set_poisoned true p) s1 (meta_unlinkable _)) as (r2&s2&->&H2).
  destruct r2; [|by etrans]. etrans; [exact H1|]. etrans; [exact H2|]. unfold on_fs, zoom. cbn.
  destruct (io access s2) as [r3 s3] eqn:H3. apply access_run in H3. by apply same_trimmed.
Qed.
