(* ===== verification/SessionLane.v ===== *)
(** * The lane under a session

    What each command leaves of the part a session owns: a healthy handle, the same
    names, and the bytes as they were, but for what a write wrote. *)

From S2P Require Import Prelude.
From S2P Require Import Domain.
From S2P Require Import Files.
From S2P Require Import FilesInv.
From S2P Require Import StorageFile.
From S2P Require Import StorageInv.
From S2P Require Import StorageSteps.
From S2P Require Import StorageNames.
From S2P Require Import StorageThm.
From S2P Require Import Buffers.
From S2P Require Import Writer.
Import FilePart.

Section Lane.
Context (sha256 : list Z → digest32).

(** The file the part's name stands for, if it does. *)
Definition part_file (s : Fs.t) (sp : PartSpec.t) (ino : nat) : Prop :=
  Fs.nodes s !! part_name sp = Some (File ino).

(** A call that leaves every byte of the part in place. *)
Record gentle (w w' : world) : Prop := {
  g_healthy : Healthy sha256 w → Healthy sha256 w';
  g_spec : spec (part w') = spec (part w);
  g_disk : disk_kept (fs w) (fs w');
  g_parts : parts_stay (fs w) (fs w');
  g_bytes : Healthy sha256 w → ∀ ino, part_file (fs w) (spec (part w)) ino →
    Fs.content (fs w') ino = Fs.content (fs w) ino }.

Lemma gentle_refl w : gentle w w.
Proof. split; auto; reflexivity. Qed.

Lemma gentle_trans w1 w2 w3 : gentle w1 w2 → gentle w2 w3 → (∀ ino, part_file (fs w1) (spec (part w1)) ino →
  part_file (fs w2) (spec (part w1)) ino ∨ Fs.data (fs w3) = Fs.data (fs w2)) → gentle w1 w3.
Proof.
  intros [H1 E1 D1 P1 B1] [H2 E2 D2 P2 B2] Hk. split; auto; [congruence|by etrans|by etrans|].
  intros Hh ino Hp. rewrite <-(B1 Hh ino Hp). destruct (Hk ino Hp) as [?|Hd]; [|unfold Fs.content; by rewrite Hd].
  apply B2; [auto|by rewrite E1].
Qed.

Lemma gentle_sync w : gentle w (sync w).2.
Proof.
  destruct (sync w) as [r w'] eqn:Hr. cbn. pose proof Hr as Hr'. apply sync_run in Hr' as [Hs Hp].
  split; [intros; by eapply sync_Inv|by destruct Hp as [[-> _]|[_ [[-> _]|[-> _]]]]|by apply name_same|by apply name_same|].
  intros _ ino _. by apply same_content.
Qed.

Lemma gentle_hash rng w : gentle w (hash_range sha256 rng w).2.
Proof.
  destruct (reads_hash_range sha256 rng w) as [Hp Hs]. destruct (hash_range sha256 rng w) as [r w']. cbn in *.
  split; [|by rewrite Hp|by apply name_same|by apply name_same|intros _ ino _; by apply same_content].
  intros [Hi Hn]. destruct (Inv_same sha256 w w') as [Hi' Hn']; rewrite ?Hp; auto. split; rewrite ?Hp; auto.
Qed.

Lemma gentle_verify expected record w :
  Forall (λ e, ByteRange.wf e.1) record → gentle w (verify sha256 expected record w).2.
Proof.
  intros Hwf. destruct (verify sha256 expected record w) as [r w'] eqn:Hr. cbn.
  pose proof Hr as Hr'. apply verify_run in Hr' as [Hs Hp]; [|done].
  split; [intros; by eapply verify_Inv|by destruct Hp as [(-> & _)|(_ & [[-> _]|(? & _ & -> & _)])]|by apply name_same|by apply name_same|].
  intros _ ino _. by apply same_content.
Qed.

Lemma gentle_publish d w : linkable (Destination.resolved d) → gentle w (publish sha256 d w).2.
Proof.
  intros Hd. pose proof (within_publish disk_kept sha256 d Hd w) as H1.
  pose proof (within_publish parts_stay sha256 d Hd w) as H2.
  destruct (publish sha256 d w) as [r w'] eqn:Hr. cbn in *.
  assert (Healthy sha256 w → spec (part w') = spec (part w) ∧ ∀ ino, part_file (fs w) (spec (part w)) ino →
    Fs.content (fs w') ino = Fs.content (fs w) ino) as Hk.
  { intros [Hinv Hn]. apply publish_run in Hr as [(Hs&_&Hp)|(e&s1&Hpo&_&_&_&_&Hs&Hr)].
    { split; [by destruct Hp as [-> | ->]|]. intros ino _. by apply same_content. }
    destruct Hinv as [[Hsize _] Hpath _ _ Hh _ _ _ _].
    apply (expose_run sha256 e _ (World (part w) s1)) in Hr as (s2&new&(_&_&Ho2)&_&Hr); cbn in *;
      [|done|by rewrite Hpath].
    specialize (Hn Hpo) as [Hn _]. unfold part_file. rewrite Hpath in Hn. split.
    - destruct Hr as [(_&->&_)|(_&[(_&Hp&_)|(ino&_&_&_&_&_&_&_&[[_ ->]|[_ ->]])])]; try done.
      by destruct Hp as [-> |[-> | ->]].
    - intros ino Hi. assert (ino = file (part w)) as -> by congruence.
      rewrite <-(same_content _ _ _ Hs), <-Ho2 by done.
      destruct Hr as [(_&_&->)|(_&[(_&_&Ht)|(ino&_&_&_&_&Hdt&_)])]; [done|by eapply touches_content|].
      unfold Fs.content. by rewrite Hdt. }
  assert (spec (part w') = spec (part w)) as Hsp.
  { destruct (publish_run sha256 d w r w' Hr) as [(_&_&[-> | ->])|(e&s1&_&_&_&_&_&_&Hx)]; try done.
    revert Hx. clear. unfold expose, mbind, st_bind. destruct (seal _) as [r1 w1] eqn:H1. apply seal_run in H1 as (?&_&_&_&Hp1).
    assert (spec (part w1) = spec (part w)) as E1 by (rewrite Hp1; by destruct (is_ok r1)). clear Hp1.
    destruct r1; [|by intros [= _ <-]; congruence]. destruct (stage _ _ _) as [r2 w2] eqn:H2.
    assert (spec (part w2) = spec (part w1)) as E2.
    { revert H2. unfold stage. destruct (hard_link _ _ _) as [[] ?]; [|by intros [= _ <-]].
      case_match. case_decide; by intros [= _ <-]. }
    destruct r2; [|by intros [= _ <-]; congruence]. destruct (link_destination _ _) as [r3 w3] eqn:H3.
    assert (spec (part w3) = spec (part w2)) as E3.
    { revert H3. unfold link_destination. destruct (hard_link _ _ _) as [[] ?]; by intros [= _ <-]. }
    destruct r3; [|by intros [= _ <-]; congruence].
    intros Hx. apply (tail_run (spec (part w)) (Destination.resolved d) w3 r w') in Hx as [_ [[_ ->]|[_ ->]]]; cbn; congruence. }
  split; auto; [intros; by eapply publish_Inv|]. intros Hh. by apply Hk.
Qed.

Lemma gentle_discard w : gentle w (discard w).2.
Proof.
  pose proof (within_discard disk_kept w) as H1. pose proof (within_discard parts_stay w) as H2.
  destruct (discard w) as [r w'] eqn:Hr. cbn in *. pose proof Hr as Hr'. apply discard_run in Hr' as [Hd Hp].
  split; auto; [intros; by eapply discard_Inv|by destruct Hp as [[-> _]|[_ ->]]|]. intros _ ino _. unfold Fs.content. by rewrite Hd.
Qed.

Lemma gentle_abandon w : gentle w (abandon w).2.
Proof.
  cbn. split; try reflexivity; cbn.
  intros [Hi Hn]. destruct (Inv_same sha256 w (World (set_cancelled true (part w)) (fs w))) as [Hi' Hn']; auto; try reflexivity.
    split; auto.
Qed.

(** ** A command of the lane *)

(** What a session sends: links go under destination names, records hold ranges. *)
Definition sendable (cmd : Command.t) : Prop :=
  match cmd with
  | Command.Publish d _ => linkable (Destination.resolved d)
  | Command.Verify _ record _ => Forall (λ e, ByteRange.wf e.1) record
  | Command.Write _ _ _ => False
  | _ => True
  end.

Lemma guarded_gentle {A} (call : part_st A) l :
  gentle (Lane.file l) (call (Lane.file l)).2 → gentle (Lane.file l) (guarded call l).2.
Proof.
  intros Hg. unfold guarded. destruct (Lane.failure l); [apply gentle_refl|].
  destruct (call _) as [r w]. exact Hg.
Qed.

Lemma serve_gentle cmd l : sendable cmd → gentle (Lane.file l) (Lane.file (serve sha256 cmd l)).
Proof.
  intros Hc. destruct cmd as [off b i|i|rng i|ex rec i|d i|ab i]; [done|..]; unfold serve.
  - pose proof (guarded_gentle sync l (gentle_sync _)). by destruct (guarded _ _).
  - pose proof (guarded_gentle (hash_range sha256 rng) l (gentle_hash _ _)). by destruct (guarded _ _).
  - pose proof (guarded_gentle (verify sha256 ex rec) l (gentle_verify _ _ _ Hc)). by destruct (guarded _ _).
  - pose proof (guarded_gentle (publish sha256 d) l (gentle_publish _ _ Hc)). by destruct (guarded _ _).
  - match goal with |- context [guarded ?m l] => assert (gentle (Lane.file l) (guarded m l).2) as Hg end.
    { apply guarded_gentle. destruct ab; cbn; [|apply gentle_discard].
      eapply gentle_trans; [apply gentle_abandon|apply gentle_discard|]. auto. }
    by destruct (guarded _ _).
Qed.

(** A write, failed or not: the part keeps its length and every byte outside. *)
Lemma write_effect off bytes w :
  0 ≤ off → Healthy sha256 w →
  let w' := (write_at off bytes w).2 in
  Healthy sha256 w' ∧ spec (part w') = spec (part w) ∧ disk_kept (fs w) (fs w') ∧ parts_stay (fs w) (fs w') ∧
  ∀ ino, part_file (fs w) (spec (part w)) ino →
    length (Fs.content (fs w') ino) = length (Fs.content (fs w) ino) ∧
    ∀ x, 0 ≤ x → ¬ (off ≤ x < off + Z.of_nat (length bytes)) →
      Fs.content (fs w') ino !! Z.to_nat x = Fs.content (fs w) ino !! Z.to_nat x.
Proof.
  intros Hoff Hh. pose proof (within_write_at disk_kept off bytes w) as H1.
  pose proof (within_write_at parts_stay off bytes w) as H2.
  destruct (write_at off bytes w) as [r w'] eqn:Hr. cbn in *.
  split; [by eapply write_at_Inv|]. pose proof Hh as [Hinv Hn]. pose proof Hinv as [[Hsz _] Hpath _ _ _ Hlen _ _ _].
  apply write_at_run in Hr as [[-> _]|(rng&plan&Hne&Hpo&_&Hrng&_&_&Hr)]; [done|].
  specialize (Hn Hpo) as [Hn _]. rewrite Hpath in Hn. apply range_Ok in Hrng as (_&_&Hend&_).
  assert (spec (part w') = spec (part w)) as Hsp.
  { destruct Hr as [(k&_&->&_)|(_&->&_)]; [done|]. by destruct plan as [[? ?] ?]. }
  split_and!; [done..|]. intros ino Hi. assert (ino = file (part w)) as -> by (unfold part_file in Hi; congruence).
  assert (∀ n, let new := overwrite off (take n bytes) (bytes_of w) in length new = length (bytes_of w) ∧
    ∀ x, 0 ≤ x → ¬ (off ≤ x < off + Z.of_nat (length bytes)) → new !! Z.to_nat x = bytes_of w !! Z.to_nat x) as Hov.
  { intros n. cbn. assert (length (take n bytes) ≤ length bytes)%nat as Hle by (rewrite length_take; lia). split.
    - apply overwrite_length; [done|]. lia.
    - intros x Hx Hout. apply overwrite_elsewhere; [done|done|lia|]. lia. }
  unfold bytes_of in *. destruct Hr as [(k&_&_&[Hs|(n&_&Hc&_)])|(_&_&_&Hc&_)].
  - by rewrite (same_content _ _ _ Hs).
  - rewrite Hc. apply Hov.
  - rewrite Hc. specialize (Hov (length bytes)). by rewrite firstn_all in Hov.
Qed.
End Lane.

(** Equal bytes make equal slices. *)
Lemma slice_ext off len (l k : list Z) :
  0 ≤ off → 0 ≤ len → length k = length l →
  (∀ x, off ≤ x < off + len → k !! Z.to_nat x = l !! Z.to_nat x) → slice off len k = slice off len l.
Proof.
  intros Ho Hl Hlen Hx. apply list_eq. intros i. destruct (decide (Z.of_nat i < len)) as [Hi|Hi].
  - rewrite !lookup_slice by lia. apply Hx. lia.
  - unfold slice. rewrite !lookup_take_ge by lia. done.
Qed.
