(* ===== verification/SessionInv.v ===== *)
(** * The invariant of a session

    [Loose] is what holds of a session whatever happens, also after an error and at a
    crash; [Strict] is what holds between its steps.  This file proves that waiting,
    with everything the connections do meanwhile, keeps both. *)

From S2P Require Import Prelude.
From S2P Require Import Domain.
From S2P Require Import Segments.
From S2P Require Import SegmentsInv.
From S2P Require Import SegmentsRestore.
From S2P Require Import JobMachine.
From S2P Require Import JobInv.
From S2P Require Import Persistence.
From S2P Require Import Transfer.
From S2P Require Import PersistenceInv.
From S2P Require Import TransferInv.
From S2P Require Import TransferThm.
From S2P Require Import Files.
From S2P Require Import FilesInv.
From S2P Require Import StorageFile.
From S2P Require Import StorageNames.
From S2P Require Import StorageThm.
From S2P Require Import Buffers.
From S2P Require Import Writer.
From S2P Require Import SessionLane.
From S2P Require Import Ports.
From S2P Require Import Coordinator.
Import Session.

Definition session_state : Type := Session.t SqliteRepository.t.

(** ** What the invariant speaks of *)

Definition db (s : session_state) : Db.t := SqliteRepository.db (repository s).
Definition jid (s : session_state) : Z := JobId.get (Job.id (job s)).
Definition job_extents (s : session_state) : list ExtentRow.t := job_rows (db s) (jid s).

(** A connection may write to a leased segment, and a pending one may be leased. *)
Definition is_open (q : SegmentState) : bool :=
  match q with Pending | InFlight _ _ => true | _ => false end.
Definition closed (j : Job.t) (r : ByteRange.t) : Prop :=
  ∀ q b, q ∈ map_segments j → is_open (Segment.state q) = true →
    ByteRange.covers (Segment.range q) b → ¬ ByteRange.covers r b.

(** The segment a lease was given for is still held by it. *)
Definition held (j : Job.t) (l : Lease.t) : Prop :=
  Segment.Make (Lease.segment l) (Lease.range l) (InFlight (Lease.worker l) (Lease.attempt l)) ∈ map_segments j.

(** A connection's offsets stay inside its lease. *)
Definition phase_ok (w : Worker.t) : Prop :=
  let r := Lease.range (Worker.lease w) in
  match Worker.at_ w with
  | Worker.Opening | Worker.Tail => True
  | Worker.Acquiring offset => ByteRange.start r ≤ offset
  | Worker.Filling offset filled | Worker.Writing offset filled =>
      ByteRange.start r ≤ offset ∧ offset + Z.of_nat (length filled) ≤ Z.max offset (ByteRange.end_ r)
  end.

(** What the database holds of a job on its way from [root]: the job itself, a publish
    intent that is right for its representation, and every byte that was durable at the
    start as long as the representation is the same. *)
Definition intent_ok (d : Db.t) (j : Job.t) : Prop :=
  ∀ row, Db.publish_intents d !! JobId.get (Job.id j) = Some row →
    IntentRow.generation row = Generation.get (Job.generation j) →
    fst <$> Job.plan j = Some (IntentRow.size row) ∧
    ∀ e, JobSpec.expected_sha256 (Job.spec j) = Some e → e = IntentRow.digest row.
Definition kept_bytes (root : Job.t) (d : Db.t) (j : Job.t) : Prop :=
  Job.generation j = Job.generation root →
  ∀ b, covered (durable_of root) b → covered (row_ranges d (JobId.get (Job.id j))) b.
Record recorded (root : Job.t) (d : Db.t) (j : Job.t) : Prop := {
  rc_saved : saved d j;
  rc_intent : intent_ok d j;
  rc_generation : Generation.get (Job.generation root) ≤ Generation.get (Job.generation j);
  rc_bytes : kept_bytes root d j }.

(** The database describes this job, or the one its next event leads to. *)
Definition tracked (root : Job.t) (d : Db.t) (j : Job.t) : Prop :=
  recorded root d j ∨ ∃ cmd next, JobInv.command_typed cmd ∧ Job.execute cmd j = (Ok true, next) ∧
    Job.version j + 1 ≤ u64_max ∧ recorded root d (Job.set_version (Job.version j + 1) next).

Section Session.
(** [root] is the job the session was given. *)
Context (sha256 : list Z → digest32) (c : Coordinator.t) (root : Job.t).

(** An extent holds of the file its generation's name stands for. *)
Definition proved (s : Fs.t) (id g : Z) (e : DurableExtent.t) : Prop :=
  ∀ ino, Fs.nodes s !! Part id g = Some (File ino) →
    let r := DurableExtent.range e in
    ByteRange.end_ r ≤ Z.of_nat (length (Fs.content s ino)) ∧
    DurableExtent.digest e = sha256 (slice (ByteRange.start r) (ByteRange.len r) (Fs.content s ino)).

Record Loose (s : session_state) : Prop := {
  lo_db : db_wf (db s);
  lo_root : Job.id (job s) = Job.id root ∧ Job.spec (job s) = Job.spec root;
  lo_job : JobInv.wf (job s);
  lo_tracked : tracked root (db s) (job s);
  lo_closed : ∀ row, row ∈ job_extents s → closed (job s) (row_range row);
  lo_proved : ∀ row, row ∈ job_extents s → proved (disk s) (jid s) (ExtentRow.generation row) (extent_at row);
  lo_disk : disk_ok (disk s);
  lo_writer : ∀ p f, writer s = Some (p, f) →
    Healthy sha256 (FilePart.World p (disk s)) ∧ PartSpec.job (FilePart.spec p) = Job.id (job s) ∧
    ∀ row, row ∈ job_extents s → ExtentRow.generation row = Generation.get (PartSpec.generation (FilePart.spec p));
  lo_leases : ∀ i l, leases s !! i = Some l → held (job s) l;
  lo_once : ∀ i i' l l', leases s !! i = Some l → leases s !! i' = Some l' →
    Lease.segment l = Lease.segment l' → i = i';
  lo_tasks : NoDup ((workers s).*1 ++ (finished s).*1);
  lo_workers : ∀ i w, (i, w) ∈ workers s → leases s !! i = Some (Worker.lease w) ∧ phase_ok w;
  lo_finished : ∀ i r, (i, r) ∈ finished s → is_Some (leases s !! i);
  lo_spawned : ∀ i l, leases s !! i = Some l → (i < spawned s)%nat;
  lo_clock : 0 ≤ now s ≤ u64_max ∧ 0 ≤ jitter s;
  lo_probed : ∀ p, probed s = Some (Ok p) → u64 (Probe.total p) }.

Record Strict (s : session_state) : Prop := {
  st_loose : Loose s;
  st_saved : recorded root (db s) (job s);
  st_rows : ∀ b, covered (row_ranges (db s) (jid s)) b → covered (durable_of (job s)) b;
  st_writer : ∀ p f, writer s = Some (p, f) → Job.segments (job s) = None ∨
    (PartSpec.generation (FilePart.spec p) = Job.generation (job s) ∧
     fst <$> Job.plan (job s) = Some (PartSpec.size (FilePart.spec p))) }.

(** With no connection the lane rests: the disk only gains names of others. *)
Record still (s s' : session_state) : Prop := {
  still_writer : writer s' = writer s;
  still_data : Fs.data (disk s') = Fs.data (disk s);
  still_nodes : ∀ n x, Fs.nodes (disk s) !! n = Some x → Fs.nodes (disk s') !! n = Some x;
  still_parts : ∀ n, (∀ l, n ≠ Leaf l) → Fs.nodes (disk s') !! n = Fs.nodes (disk s) !! n }.

#[global] Instance still_preorder : PreOrder still.
Proof.
  split; [by split|]. intros a b d [] []. split; [congruence|congruence|auto|].
  intros n Hn. by rewrite still_parts1, still_parts0.
Qed.

(** What waiting leaves alone, and the extents it cannot spoil. *)
Record waited (s s' : session_state) : Prop := {
  w_job : job s' = job s;
  w_repository : repository s' = repository s;
  w_leases : leases s' = leases s;
  w_spawned : spawned s' = spawned s;
  w_unsynced : unsynced s' = unsynced s;
  w_failed : storage_failed s' = storage_failed s;
  w_connections : connections s' = connections s;
  w_next : next_worker s' = next_worker s;
  w_open : control_open s' = control_open s;
  w_running : running s' = running s;
  w_writer : FilePart.spec ∘ fst <$> writer s' = FilePart.spec ∘ fst <$> writer s;
  w_proved : ∀ g e, closed (job s) (DurableExtent.range e) → ByteRange.wf (DurableExtent.range e) →
    (∀ p f, writer s = Some (p, f) → g = Generation.get (PartSpec.generation (FilePart.spec p))) →
    proved (disk s) (jid s) g e → proved (disk s') (jid s) g e;
  w_idle : workers s = [] → workers s' = [] ∧ finished s' = finished s ∧ still s s' }.

#[global] Instance waited_preorder : PreOrder waited.
Proof.
  split; [by split|]. intros a b d [] []. split; try congruence; cycle 1.
  { intros Hi. destruct (w_idle0 Hi) as (H1&H2&H3), (w_idle1 H1) as (H4&H5&H6).
    split_and!; [done|congruence|by etrans]. }
  intros g e Hc Hwf Hg Hp. unfold jid in *. rewrite <-w_job0.
  apply w_proved1; [by rewrite w_job0|done| |].
  - intros p f Hw. destruct (writer a) as [[p' f']|] eqn:Ha.
    + rewrite Hw in w_writer0. cbn in w_writer0. injection w_writer0 as ->. by eapply Hg.
    + by rewrite Hw in w_writer0.
  - rewrite w_job0. by apply w_proved0.
Qed.

(** ** Rows *)

Lemma row_wf s row : Loose s → row ∈ job_extents s → ByteRange.wf (row_range row).
Proof.
  intros Hs Hrow. pose proof (row_ranges_wf (db s) (jid s) (lo_db s Hs)) as Hf.
  rewrite Forall_forall in Hf. apply Hf. by apply list_elem_of_fmap_2.
Qed.

(** Keeping [Loose] over a change of the disk, the lane and the tasks. *)
Lemma Loose_waited s s' :
  Loose s → waited s s' → disk_ok (disk s') →
  (∀ p f, writer s' = Some (p, f) → Healthy sha256 (FilePart.World p (disk s'))) →
  NoDup ((workers s').*1 ++ (finished s').*1) →
  (∀ i w, (i, w) ∈ workers s' → leases s !! i = Some (Worker.lease w) ∧ phase_ok w) →
  (∀ i r, (i, r) ∈ finished s' → is_Some (leases s !! i)) →
  (0 ≤ now s' ≤ u64_max ∧ 0 ≤ jitter s') → (∀ p, probed s' = Some (Ok p) → u64 (Probe.total p)) →
  Loose s'.
Proof.
  intros Hs Hw Hd Hwr Hnd Hwk Hf Hck Hpr. destruct Hw as [].
  assert (db s' = db s) as Edb by (unfold db; congruence).
  assert (jid s' = jid s) as Eid by (unfold jid; congruence).
  assert (job_extents s' = job_extents s) as Erows by (unfold job_extents; congruence).
  split; rewrite ?Edb, ?Erows, ?w_job0, ?w_leases0, ?w_spawned0, ?Eid; try apply Hs; auto.
  - intros row Hrow. apply w_proved0; [by apply (lo_closed s Hs)|by eapply row_wf| |by apply (lo_proved s Hs)].
    intros p f Hp. by apply (lo_writer s Hs p f Hp).
  - intros p f Hp. split; [by eapply Hwr|]. rewrite Hp in w_writer0.
    destruct (writer s) as [[p' f']|] eqn:Hws; [|done]. cbn in w_writer0. injection w_writer0 as ->.
    apply (lo_writer s Hs p' f' Hws).
Qed.

Lemma Strict_waited s s' : Strict s → waited s s' → Loose s' → Strict s'.
Proof.
  intros [Hl Hs Hr Hw] [] Hl'. split; [done|..]; unfold db, jid in *; rewrite ?w_repository0, ?w_job0; auto.
  intros p f Hp. destruct (writer s) as [[p' f']|] eqn:Hws; rewrite Hp in w_writer0; [|done].
  cbn in w_writer0. injection w_writer0 as ->. by eapply Hw.
Qed.

(** ** Tasks *)

Lemma task_in {A} id (l : list (nat * A)) a : task id l = Some a → (id, a) ∈ l.
Proof.
  unfold task. intros (p&Hp&->)%fmap_Some. destruct (filter _ l) as [|q k] eqn:Hf; [done|]. injection Hp as ->.
  assert (p ∈ filter (λ q, q.1 = id) l) as [<- ?]%list_elem_of_filter by (rewrite Hf; left). by destruct p.
Qed.

Lemma without_ids {A} id (l : list (nat * A)) :
  (without id l).*1 = filter (λ i, i ≠ id) l.*1.
Proof.
  unfold without. induction l as [|[i a] l IH]; [done|]. rewrite fmap_cons, !filter_cons. cbn.
  case_decide; [|done]. rewrite fmap_cons. by f_equal.
Qed.

Lemma ended_ids {A B} id a (b : B) (l : list (nat * A)) (k : list (nat * B)) :
  (id, a) ∈ l → NoDup (l.*1 ++ k.*1) → NoDup ((without id l).*1 ++ (k ++ [(id, b)]).*1).
Proof.
  intros Hin Hnd. rewrite without_ids, fmap_app. cbn.
  apply NoDup_app in Hnd as (Hl&Hlk&Hk). apply NoDup_app. split_and!.
  - by apply NoDup_filter.
  - intros i [Hi Hil]%list_elem_of_filter [Hik| ->%list_elem_of_singleton]%elem_of_app; [by eapply Hlk|done].
  - apply NoDup_app. split_and!; [done| |apply NoDup_singleton].
    intros i Hik ->%list_elem_of_singleton. eapply Hlk; [|exact Hik]. apply list_elem_of_fmap. by exists (id, a).
Qed.

Lemma ended_count {A B} id a (b : B) (l : list (nat * A)) (k : list (nat * B)) :
  (id, a) ∈ l → NoDup (l.*1 ++ k.*1) →
  (length (without id l) + length (k ++ [(id, b)]) = length l + length k)%nat.
Proof.
  intros Hin (Hl&_&_)%NoDup_app. rewrite length_app. cbn.
  enough (S (length (without id l)) = length l) as <- by lia. revert Hl Hin. unfold without.
  induction l as [|[i x] l IH]; [by intros _ ?%elem_of_nil|]. rewrite fmap_cons, filter_cons. cbn.
  intros [Hi Hl]%NoDup_cons [[= <- <-]|Hin]%elem_of_cons.
  - rewrite decide_False by tauto. f_equal.
    clear -Hi. induction l as [|[j y] l IH]; [done|]. rewrite fmap_cons, not_elem_of_cons in Hi. destruct Hi as [Hj Hi].
    rewrite filter_cons. cbn in *. rewrite decide_True by congruence. cbn. f_equal. by apply IH.
  - rewrite decide_True; [cbn; f_equal; by apply IH|]. intros ->. apply Hi. apply list_elem_of_fmap. by exists (id, a).
Qed.

(** A task that only moves to another phase, or ends. *)
Lemma set_phase_kept id w ph s :
  Loose s → (id, w) ∈ workers s → phase_ok (Worker.Make (Worker.lease w) ph) →
  Loose (set_phase id w ph s) ∧ waited s (set_phase id w ph s).
Proof.
  intros Hs Hin Hph. assert (waited s (set_phase id w ph s)) as Hw.
  { split; try done; [unfold running; cbn; by rewrite length_fmap|]. intros Hi. rewrite Hi in Hin. by apply elem_of_nil in Hin. }
  split; [|done]. eapply Loose_waited; [exact Hs|exact Hw|apply Hs|apply (lo_writer s Hs)|..|apply Hs|apply Hs|apply Hs].
  - cbn. rewrite <-list_fmap_compose. rewrite (list_fmap_ext _ fst); [apply Hs|].
    intros _ [i x] _. cbn. by case_decide.
  - cbn. intros i x ([i' x']&Heq&Hi)%list_elem_of_fmap. cbn in Heq. case_decide as Hc; [|injection Heq as -> ->; by apply (lo_workers s Hs)].
    injection Heq as -> ->. cbn. split; [|done]. by apply (lo_workers s Hs _ _ Hin).
Qed.

Lemma end_task_kept id w r s :
  Loose s → (id, w) ∈ workers s → Loose (end_task id r s) ∧ waited s (end_task id r s).
Proof.
  intros Hs Hin. assert (waited s (end_task id r s)) as Hw.
  { split; try done; [unfold running; cbn; f_equal; eapply ended_count; [done|apply Hs]|].
    intros Hi. rewrite Hi in Hin. by apply elem_of_nil in Hin. }
  split; [|done]. eapply Loose_waited; [exact Hs|exact Hw|apply Hs|apply (lo_writer s Hs)|..|apply Hs|apply Hs].
  - cbn. eapply ended_ids; [done|apply Hs].
  - cbn. intros i x [_ Hi]%list_elem_of_filter. by apply (lo_workers s Hs).
  - cbn. intros i x [Hi|[= -> ->]%list_elem_of_singleton]%elem_of_app; [by eapply (lo_finished s Hs)|].
    destruct (lo_workers s Hs _ _ Hin) as [-> _]. by eexists.
Qed.

(** ** Writing *)

(** The lane after a connection's write. *)
Lemma serve_write_effect off b to l :
  0 ≤ off → Healthy sha256 (Lane.file l) →
  let l' := serve_write off b to l in
  let w := Lane.file l in let w' := Lane.file l' in
  Healthy sha256 w' ∧ FilePart.spec (FilePart.part w') = FilePart.spec (FilePart.part w) ∧
  disk_kept (FilePart.fs w) (FilePart.fs w') ∧ parts_stay (FilePart.fs w) (FilePart.fs w') ∧
  (∀ ino, part_file (FilePart.fs w) (FilePart.spec (FilePart.part w)) ino →
    length (Fs.content (FilePart.fs w') ino) = length (Fs.content (FilePart.fs w) ino) ∧
    ∀ x, 0 ≤ x → ¬ (off ≤ x < off + Z.of_nat (length (Buffer.as_slice b))) →
      Fs.content (FilePart.fs w') ino !! Z.to_nat x = Fs.content (FilePart.fs w) ino !! Z.to_nat x) ∧
  ∃ r, Lane.replies l' = Lane.replies l ++ ((λ i, (i, Done r)) <$> to).
Proof.
  intros Hoff Hh. unfold serve_write, guarded. destruct (Lane.failure l) as [e|].
  - cbn. split_and!; [done..|reflexivity|reflexivity|done|by eexists].
  - pose proof (write_effect sha256 off (Buffer.as_slice b) (Lane.file l) Hoff Hh) as (?&?&?&?&?).
    destruct (FilePart.write_at _ _ _) as [r w']. cbn in *. split_and!; [done..|by eexists].
Qed.

Lemma covers_written w off filled x :
  phase_ok w → Worker.at_ w = Worker.Writing off filled →
  off ≤ x < off + Z.of_nat (length filled) → ByteRange.covers (Lease.range (Worker.lease w)) x.
Proof. unfold phase_ok, ByteRange.covers. intros Hw Hat. rewrite Hat in Hw. lia. Qed.

Lemma write_block_kept id w off filled s :
  Loose s → (id, w) ∈ workers s → Worker.at_ w = Worker.Writing off filled →
  Loose (write_block sha256 id w off filled s) ∧ waited s (write_block sha256 id w off filled s).
Proof.
  intros Hs Hin Hat. unfold write_block. destruct (writer s) as [[p f]|] eqn:Hw; [|by eapply end_task_kept].
  unfold write. unfold_monad. rewrite bool_decide_eq_false_2 by tauto.
  destruct (negb _); [by eapply end_task_kept|]. unfold send, throw, modify.
  destruct (stop_workers s); [by eapply end_task_kept|]. cbn [foldl app].
  pose proof (lo_workers s Hs _ _ Hin) as [Hlease Hph].
  pose proof (lo_leases s Hs _ _ Hlease) as Hheld.
  pose proof (lo_writer s Hs _ _ Hw) as (Hhl&Hjob&Hgen).
  assert (0 ≤ off) as Hoff.
  { unfold phase_ok in Hph. rewrite Hat in Hph. unfold held, map_segments in Hheld.
    destruct (Job.segments (job s)) as [m|] eqn:Hm; [|by apply elem_of_nil in Hheld].
    destruct (JobInv.wf_map _ (lo_job s Hs) m Hm) as (Hmw&_).
    pose proof (tiles_range _ _ _ (Lease.range (Worker.lease w)) (SegmentMapInv.wf_tiles m Hmw)) as Ht.
    destruct Ht as (?&_); [|lia]. apply list_elem_of_fmap. eexists. split; [|exact Hheld]. done. }
  set (b := Buffer.Make filled (Z.of_nat (length filled))).
  assert (Buffer.as_slice b = filled) as Hb by (unfold Buffer.as_slice, b; cbn; rewrite Nat2Z.id; apply firstn_all).
  pose proof (serve_write_effect off b [0%nat] (lane (p, f) s) Hoff Hhl) as (Hh'&Hsp&Hdk&Hps&Hby&r&Hr).
  unfold serve. set (l := serve_write off b [0%nat] (lane (p, f) s)) in *. cbn [Lane.file lane FilePart.fs FilePart.part fst] in *.
  assert (Loose (keep_lane l s) ∧ waited s (keep_lane l s)) as [Hl Hwt].
  { assert (waited s (keep_lane l s)) as Hwt.
    { split; try done; cbn; [by rewrite Hw; cbn; rewrite Hsp| |intros Hi; rewrite Hi in Hin; by apply elem_of_nil in Hin].
      intros g e Hc Hwf Hg Hp ino Hino. specialize (Hg p f Hw). subst g.
      assert (Part (jid s) (Generation.get (PartSpec.generation (FilePart.spec p))) = part_name (FilePart.spec p)) as Hname
        by (unfold part_name, jid; by rewrite Hjob).
      apply Hps in Hino. destruct (Hp ino Hino) as [Hlen Hd]. rewrite Hname in Hino.
      destruct (Hby ino Hino) as [Hle Hx]. cbn. rewrite Hle. split; [done|]. rewrite Hd. f_equal. symmetry.
      unfold ByteRange.wf, ByteRange.len in *. apply slice_ext; [lia|lia|done|].
      intros x Hin'. apply Hx; [lia|]. rewrite Hb. intros Hout.
      eapply (Hc _ x Hheld); [done| |unfold ByteRange.covers; lia].
      by eapply covers_written. }
    split; [|done]. eapply Loose_waited; [exact Hs|exact Hwt|by apply Hdk, Hs| |apply Hs|apply (lo_workers s Hs)|apply (lo_finished s Hs)|apply Hs|apply Hs].
    cbn. intros p' f' [= <- _]. revert Hh'. generalize (Lane.file l). by intros []. }
  assert (waited s (keep_lane l s) → ∀ s', Loose s' ∧ waited (keep_lane l s) s' → Loose s' ∧ waited s s') as Hgo.
  { intros _ s' [? ?]. split; [done|]. by etrans. }
  rewrite Hr. cbn. destruct r as [[]|e].
  - apply (Hgo Hwt), set_phase_kept; [done|done|]. unfold phase_ok, next_phase. cbn.
    unfold phase_ok in Hph. rewrite Hat in Hph. case_decide; [lia|done].
  - apply (Hgo Hwt). by eapply end_task_kept.
Qed.

(** ** A moment, and a wait *)

Lemma work_kept id x s : Loose s → Loose (work sha256 c id x s) ∧ waited s (work sha256 c id x s).
Proof.
  intros Hs. assert (Loose s ∧ waited s s) as Hsame by (split; [done|reflexivity]).
  unfold work. destruct (task id (workers s)) as [w|] eqn:Ht; [|done]. apply task_in in Ht.
  pose proof (lo_workers s Hs _ _ Ht) as [_ Hph].
  destruct (Worker.at_ w) as [|off|off filled|off filled|] eqn:Hat; unfold phase_ok in Hph; rewrite Hat in Hph;
    destruct x as [[]|[]|[bytes|]| |]; try done; try (by eapply end_task_kept); try (by eapply write_block_kept);
    destruct (stop_workers s); try (by eapply end_task_kept); try done; try case_decide;
    try (by eapply end_task_kept); try case_decide; (apply set_phase_kept; [done|done|]);
    unfold phase_ok, next_phase; cbn; try case_decide; try done; try lia.
  all: rewrite length_app, length_take; unfold block_len in *; lia.
Qed.

(** What touches neither connections nor disk. *)
Lemma aside_kept s s' :
  Loose s → waited s s' → disk s' = disk s → writer s' = writer s → workers s' = workers s →
  finished s' = finished s → (0 ≤ now s' ≤ u64_max ∧ 0 ≤ jitter s') →
  (∀ p, probed s' = Some (Ok p) → u64 (Probe.total p)) → Loose s' ∧ waited s s'.
Proof.
  intros Hs Hw Hd Hwr Hwk Hf Hck Hpr. split; [|done].
  apply (Loose_waited s); rewrite ?Hd, ?Hwr, ?Hwk, ?Hf; try done; try apply Hs.
Qed.

Lemma wrap_u64 x : u64 (wrap x).
Proof. unfold u64, wrap. pose proof (Z.mod_pos_bound x (u64_max + 1) ltac:(unfold u64_max; lia)). lia. Qed.

Lemma appear_kept leaf node s :
  Loose s → Fs.nodes (disk s) !! Leaf leaf = None → (∀ ino, node = File ino → (ino < Fs.next (disk s))%nat) →
  let s' := set_lane (writer s) (Fs.set_nodes (<[Leaf leaf := node]> (Fs.nodes (disk s))) (disk s)) s in
  Loose s' ∧ waited s s'.
Proof.
  intros Hs Hfree Hn s'. assert (∀ n, (∀ l, n ≠ Leaf l) → Fs.nodes (disk s') !! n = Fs.nodes (disk s) !! n) as Hsame.
  { intros n Hl. cbn. by rewrite lookup_insert_ne by auto. }
  assert (waited s s') as Hw.
  { split; try done; [intros g e _ _ _ Hp ino; rewrite Hsame by done; apply Hp|]. intros Hi. split_and!; [done..|].
    split; try done. intros n x Hx. cbn. rewrite lookup_insert_ne; [done|]. intros <-. congruence. }
  split; [|done]. eapply Loose_waited; [exact Hs|exact Hw|..]; try apply Hs.
  - destruct (lo_disk s Hs) as [H1 H2]. split.
    + intros n ino. cbn. intros [[_ Hi]|[_ Hi]]%lookup_insert_Some; [by apply Hn|by eapply H1].
    + intros j g f m. rewrite !Hsame by done. apply H2.
  - intros p f Hp. destruct (lo_writer s Hs p f Hp) as ([Hi Hnm]&_&_). split.
    + destruct Hi. by split.
    + intros Hpo. destruct (Hnm Hpo) as [Ha Hb]. destruct Hi. cbn in *.
      split; cbn; [rewrite inv_path in *; rewrite lookup_insert_ne by done; done|by rewrite lookup_insert_ne].
Qed.

Lemma happen_kept s m : Loose s → Loose (happen sha256 c s m) ∧ waited s (happen sha256 c s m).
Proof.
  intros Hs. assert (Loose s ∧ waited s s) as Hsame by (split; [done|reflexivity]).
  destruct m as [id x|ctl| |r|n j|leaf node]; cbn.
  - by apply work_kept.
  - destruct (senders s); [|done]. apply aside_kept; try done; apply Hs.
  - apply aside_kept; try done; apply Hs.
  - apply aside_kept; try done; [apply Hs|]. destruct r as [p|]; [|done]. intros q [= <-]. apply wrap_u64.
  - pose proof (wrap_u64 n). pose proof (wrap_u64 j). apply aside_kept; try done; [|apply Hs].
    unfold u64 in *. cbn. lia.
  - destruct (Fs.nodes (disk s) !! Leaf leaf) eqn:Hl; [done|]. destruct node as [ino| |].
    + case_decide; [done|]. apply appear_kept; [done|done|]. intros ? [= <-]. lia.
    + by apply appear_kept.
    + by apply appear_kept.
Qed.

Lemma await_kept s r s' : Loose s → await sha256 c s = (r, s') → Loose s' ∧ waited s s' ∧ (r = Ok tt ∨ r = Err Halt.Crashed).
Proof.
  intros Hs. unfold await. destruct (script s) as [|w rest] eqn:Hsc.
  { intros [= <- <-]. split_and!; [done|reflexivity|by right]. }
  destruct w as [ms resumes first]. cbn. intros [= <- <-].
  assert (Loose (set_script rest first s) ∧ waited s (set_script rest first s)) as Hgo.
  { apply aside_kept; try done; [apply Hs|apply Hs]. }
  clear Hsc. revert Hgo. generalize (set_script rest first s). induction ms as [|m ms IH]; intros s1 [H1 H2]; cbn.
  - split_and!; [done..|]. destruct resumes; auto.
  - pose proof (happen_kept s1 m H1) as [H3 H4]. apply (IH (happen sha256 c s1 m)). split; [done|]. by transitivity s1.
Qed.

(** ** What is left to happen *)

Lemma work_aside id x (s : session_state) :
  script (work sha256 c id x s) = script s ∧ control (work sha256 c id x s) = control s.
Proof.
  unfold work, write_block. repeat (case_match; try done). all: subst; done.
Qed.
Lemma happen_fuel m (s : session_state) :
  script (happen sha256 c s m) = script s ∧
  (length (control (happen sha256 c s m)) ≤ S (length (control s)))%nat.
Proof.
  destruct m as [id x|ctl| |r|n j|leaf node]; cbn; try (split; [done|lia]).
  - destruct (work_aside id x s) as [-> ->]. split; [done|lia].
  - destruct (senders s); cbn; [|split; [done|lia]]. rewrite length_app. cbn. split; [done|lia].
  - repeat case_match; split; try done; cbn; lia.
Qed.
(** A wait takes at least one step off. *)
Lemma await_fuel (s : session_state) r s' : await sha256 c s = (r, s') → (fuel s' ≤ fuel s ∧ (is_ok r = true → fuel s' < fuel s))%nat.
Proof.
  unfold await, fuel. destruct (script s) as [|w rest] eqn:Hsc.
  { intros [= <- <-]. rewrite Hsc. split; [lia|done]. }
  destruct w as [ms resumes first]. cbn. intros [= <- <-].
  enough (∀ ms (s1 : session_state), script (foldl (happen sha256 c) s1 ms) = script s1 ∧
    (length (control (foldl (happen sha256 c) s1 ms)) ≤ length ms + length (control s1))%nat) as H.
  { destruct (H ms (set_script rest first s)) as [-> Hc]. cbn in *. split; lia. }
  clear. induction ms as [|m ms IH]; intros s; cbn; [split; [done|lia]|].
  destruct (IH (happen sha256 c s m)) as [-> ?], (happen_fuel m s) as [-> ?]. split; [done|lia].
Qed.
End Session.
