(* ===== verification/SessionJob.v ===== *)
(** * A session's calls on its job

    Which calls of the job a session makes, what they keep of its leases and of its
    durable bytes, and that transitions do not take a leased segment away. *)

From S2P Require Import Prelude.
From S2P Require Import Domain.
From S2P Require Import Segments.
From S2P Require Import SegmentsInv.
From S2P Require Import SegmentsRestore.
From S2P Require Import SegmentsThm.
From S2P Require Import JobMachine.
From S2P Require Import JobInv.
From S2P Require Import JobThm.
From S2P Require Import TransferThm.
From S2P Require Import Coordinator.
From S2P Require Import SessionInv.
From S2P Require Import Admission.
From S2P Require Import Persistence.
From S2P Require Import Transfer.
From S2P Require Import PersistenceInv.
From S2P Require Import TransferInv.

(** ** Leased segments *)

Definition held_in (segs : list Segment.t) (l : Lease.t) : Prop :=
  Segment.Make (Lease.segment l) (Lease.range l) (InFlight (Lease.worker l) (Lease.attempt l)) ∈ segs.

(** The call gives this lease back. *)
Definition gives_back (o : SegmentMapInv.op) (l : Lease.t) : Prop :=
  match o with
  | SegmentMapInv.MarkWritten l' | SegmentMapInv.Release l' => Lease.segment l' = Lease.segment l
  | SegmentMapInv.ReplaceGeneration _ => True
  | _ => False
  end.

Lemma insert_other (segs : list Segment.t) i s s' q :
  segs !! i = Some s → q ∈ segs → q ≠ s → q ∈ <[i := s']> segs.
Proof.
  intros Hi (j&Hj)%list_elem_of_lookup Hne. apply list_elem_of_lookup. exists j.
  rewrite list_lookup_insert_ne; [done|]. intros ->. congruence.
Qed.

Lemma held_exec o m l :
  SegmentMapInv.wf m → held_in (SegmentMap.segments m) l → ¬ gives_back o l →
  held_in (SegmentMap.segments (SegmentMapInv.exec o m).2) l.
Proof.
  intros Hwf Hl Hg. destruct (SegmentMapInv.exec o m) as [[u|e] m'] eqn:He;
    [|by apply SegmentMapInv.exec_atomic in He as ->].
  assert (∀ id at_ r m', SegmentMap.split_pending id at_ m = (Ok r, m') → held_in (SegmentMap.segments m') l) as Hsplit.
  { intros id at_ r m'' (i&s&Hi&_&Hs&_&_&->&_&_&->)%SegmentMapInv.split_pending_Ok. unfold held_in. cbn.
    rewrite SegmentMapInv.vec_insert_Permutation. right. eapply insert_other; [done|done|]. intros <-. done. }
  cbn. destruct o; unfold SegmentMapInv.exec, SegmentMapInv.run in He; repeat case_match; simplify_eq.
  - eauto.
  - apply SegmentMapInv.steal_largest_pending_Ok in H as [(?&->&?)|(?&?&?&?&?&?&?&H)]; eauto.
  - apply SegmentMapInv.lease_Ok in H as (i&s&Hi&?&Hs&?&?&->&->). eapply insert_other; [done|done|]. by intros <-.
  - apply SegmentMapInv.mark_written_Ok in H as (i&s&Hi&(_&_&_&->)%SegmentMapInv.lease_index_Ok&->).
    eapply insert_other; [done|done|]. intros [= E _ _ _]. cbn in Hg. congruence.
  - apply SegmentMapInv.release_Ok in H as (i&s&Hi&(_&_&_&->)%SegmentMapInv.lease_index_Ok&->).
    eapply insert_other; [done|done|]. intros [= E _ _ _]. cbn in Hg. congruence.
  - apply SegmentMapInv.discard_unsynced_Ok in H as [Hck ->]. unfold held_in. cbn.
    apply list_elem_of_fmap. eexists. split; [|exact Hl]. done.
  - by apply SegmentMapInv.prepare_sync_Ok in H as (?&?&?&->&->).
  - by apply SegmentMapInv.acknowledge_sync_Ok in H as (c&Hc&?&?&?&?&?&->&->).
  - apply SegmentMapInv.acknowledge_commit_Ok in H as (c&found&?&?&?&?&?&?&Hf&Hw&->). unfold held_in in *. cbn.
    apply list_elem_of_lookup in Hl as [j Hj]. apply list_elem_of_lookup. exists j.
    rewrite SegmentMapInv.make_durable_lookup, decide_False; [done|].
    intros ([k s]&->&Hin)%list_elem_of_fmap. rewrite Forall_forall in Hw. specialize (Hw _ Hin). cbn in *.
    apply collect_Ok in Hf. apply (list_elem_of_lookup_1) in Hin as [n Hn].
    eapply Forall2_lookup_r in Hf as (x&_&Hx); [|exact Hn]. apply SegmentMapInv.index_Ok in Hx as [Hx _].
    rewrite Hj in Hx. injection Hx as <-. done.
  - unfold SegmentMap.discard_checkpoint in H. by injection H as <- <-.
  - by destruct Hg.
Qed.

(** ** Calls through [map_mut] *)

(** The segment calls of a job, as calls of its map. *)
Definition map_op (o : op) : option SegmentMapInv.op :=
  match o with
  | LeaseSegment id worker => Some (SegmentMapInv.TakeLease id worker)
  | SplitPending id at_ => Some (SegmentMapInv.SplitPending id at_)
  | MarkWritten l => Some (SegmentMapInv.MarkWritten l)
  | Release l => Some (SegmentMapInv.Release l)
  | AbandonCheckpoint => Some SegmentMapInv.DiscardCheckpoint
  | DiscardUnsynced => Some SegmentMapInv.DiscardUnsynced
  | PrepareSync => Some SegmentMapInv.PrepareSync
  | AcknowledgeSync ticket => Some (SegmentMapInv.AcknowledgeSync ticket)
  | AcknowledgeCommit batch => Some (SegmentMapInv.AcknowledgeCommit batch)
  | Handle _ | Apply _ => None
  end.

Lemma map_mut_shape {A} (method : st SegmentMap.t DomainError A) o j :
  (∀ m, (method m).2 = (SegmentMapInv.exec o m).2) →
  (Job.map_mut method j).2 = j ∨ ∃ m, Job.segments j = Some m ∧
    (Job.map_mut method j).2 = Job.set_segments (Some (SegmentMapInv.exec o m).2) j ∧ JobInv.may_work (Job.state j) = true.
Proof.
  intros He. unfold Job.map_mut. unfold_monad. case_bool_decide as Hst; cbn; [|by left].
  destruct (Job.segments j) as [m|]; cbn; [|by left]. right. exists m. specialize (He m).
  destruct (method m) as [r m']. cbn in *. rewrite He. split_and!; [done..|].
  destruct (Job.state j); set_unfold; naive_solver.
Qed.

Lemma only_in_shape {A} s (method : st Job.t DomainError A) j :
  ((_ ← Job.only_in s; method) j).2 = j ∨ ((_ ← Job.only_in s; method) j).2 = (method j).2.
Proof. unfold Job.only_in. unfold_monad. case_bool_decide; auto. Qed.

Lemma segment_call o mo j :
  map_op o = Some mo →
  after o j = j ∨ ∃ m, Job.segments j = Some m ∧
    after o j = Job.set_segments (Some (SegmentMapInv.exec mo m).2) j ∧ JobInv.may_work (Job.state j) = true.
Proof.
  intros Hmo. destruct o; cbn [map_op] in Hmo; simplify_eq; cbn [after].
  - destruct (only_in_shape JobState.Transferring (Job.map_mut (SegmentMap.lease id worker)) j) as [E|E];
      unfold Job.lease_segment; [by left|]. rewrite E. apply map_mut_shape. intros. apply run_snd.
  - destruct (only_in_shape JobState.Transferring (Job.map_mut (SegmentMap.split_pending id at_)) j) as [E|E];
      unfold Job.split_pending; [by left|]. rewrite E. apply map_mut_shape. intros. apply run_snd.
  - apply map_mut_shape; intros; apply run_snd.
  - apply map_mut_shape; intros; apply run_snd.
  - apply map_mut_shape; intros; apply run_snd.
  - destruct (only_in_shape JobState.Stopping (Job.map_mut SegmentMap.discard_unsynced) j) as [E|E];
      unfold Job.discard_unsynced; [by left|]. rewrite E. apply map_mut_shape. intros. apply run_snd.
  - apply map_mut_shape; intros; apply run_snd.
  - apply map_mut_shape; intros; apply run_snd.
  - apply map_mut_shape; intros; apply run_snd.
Qed.

(** What no segment call changes. *)
Record same_job (j j' : Job.t) : Prop := {
  sj_id : Job.id j' = Job.id j;
  sj_spec : Job.spec j' = Job.spec j;
  sj_state : Job.state j' = Job.state j;
  sj_generation : Job.generation j' = Job.generation j;
  sj_version : Job.version j' = Job.version j;
  sj_replace : Job.replace_on_drain j' = Job.replace_on_drain j;
  sj_plan : Job.plan j' = Job.plan j;
  sj_segments : Job.segments j' = None ↔ Job.segments j = None }.

#[global] Instance same_job_preorder : PreOrder same_job.
Proof. split; [by split|]. intros a b d [] []. split; try congruence. by rewrite sj_segments1. Qed.

Lemma segment_call_same o mo j : map_op o = Some mo → same_job j (after o j).
Proof.
  intros Hmo. destruct (segment_call o mo j Hmo) as [->|(m&Hm&->&_)]; [reflexivity|].
  assert (∀ total, mo ≠ SegmentMapInv.ReplaceGeneration total) as Hnr by (intros ? ->; by destruct o).
  destruct (SegmentMapInv.exec_header mo m Hnr) as (_&_&Ht&Hmx).
  split; try done; cbn; [|by rewrite Hm]. unfold Job.plan. cbn. rewrite Hm. cbn. by rewrite Ht, Hmx.
Qed.

Lemma segment_call_durable o mo j :
  map_op o = Some mo → (∀ batch, o ≠ AcknowledgeCommit batch) → durable_of (after o j) = durable_of j.
Proof.
  intros Hmo Hn. destruct (segment_call o mo j Hmo) as [->|(m&Hm&->&_)]; [done|].
  unfold durable_of. cbn. rewrite Hm. apply exec_durable_ranges.
  - intros batch ->. destruct o; cbn in Hmo; simplify_eq. by eapply Hn.
  - intros total ->. by destruct o.
Qed.

Lemma segment_call_held o mo j l :
  JobInv.wf j → map_op o = Some mo → held j l → ¬ gives_back mo l → held (after o j) l.
Proof.
  intros Hj Hmo Hl Hg. destruct (segment_call o mo j Hmo) as [->|(m&Hm&->&_)]; [done|].
  unfold held, map_segments in *. cbn. rewrite Hm in Hl. apply held_exec; [|done|done].
  by destruct (JobInv.wf_map j Hj m Hm).
Qed.

(** ** Transitions *)

(** A generation is replaced only when nothing is leased. *)
Lemma replaced_quiet cmd j next :
  JobInv.wf j → Job.execute cmd j = (Ok true, next) → Job.generation next ≠ Job.generation j →
  Job.has_active_leases j = false.
Proof.
  intros Hj (j0&s&Ht&->)%execute_true Hg. cbn in Hg.
  assert (Job.quiescent j = true → Job.has_active_leases j = false) as Hq.
  { unfold Job.quiescent. intros. by open_bools. }
  apply Hq. destruct (JobInv.may_work (Job.state j)) eqn:Hm; [|by apply (JobInv.wf_quiet j Hj)].
  destruct (Job.state j) eqn:Hst; try done.
  - exfalso. apply Hg. revert Ht. unfold Job.transition. unfold_monad. rewrite Hst.
    destruct cmd; unfold Job.begin_stop, Job.to; unfold_monad; intros; by split_cases.
  - destruct (decide (cmd = JobCommand.WorkersDrained)) as [->|Hd].
    + unfold Job.transition in Ht. unfold_monad. rewrite Hst in Ht.
      apply workers_drained_to, proj1, JobInv.settled_parts in Ht as [? _]. done.
    + exfalso. apply Hg. revert Ht. unfold Job.transition. unfold_monad. rewrite Hst.
      destruct cmd; unfold Job.begin_stop, Job.to, Job.no_op; unfold_monad; intros; try done; by split_cases.
  - exfalso. apply Hg. revert Ht. unfold Job.transition. unfold_monad. rewrite Hst.
    destruct cmd; unfold Job.begin_stop, Job.to, Job.no_op; unfold_monad; intros; by split_cases.
Qed.

Lemma held_active j l : held j l → Job.has_active_leases j = true.
Proof.
  unfold held, map_segments, Job.has_active_leases, Job.map_is. destruct (Job.segments j) as [m|]; [|by intros ?%elem_of_nil].
  intros Hin. unfold SegmentMap.has_in_flight. apply existsb_exists. eexists. split; [by apply list_elem_of_In|done].
Qed.

Lemma execute_lifecycle cmd j next :
  Job.execute cmd j = (Ok true, next) → Job.state next ∈ lifecycle (Job.state j) cmd.
Proof. intros (j0&s&Ht&->)%execute_true. by apply transition_lifecycle in Ht. Qed.

(** Only a probe leads to work. *)
Lemma only_probe_transfers cmd j next :
  Job.execute cmd j = (Ok true, next) → Job.state next = JobState.Transferring →
  ∃ total max_segments v, cmd = JobCommand.ProbeSucceeded total max_segments v.
Proof.
  intros Hx%execute_lifecycle Hs. rewrite Hs in Hx. destruct (Job.state j), cmd; cbn in Hx; try by eauto.
  all: exfalso; set_unfold; naive_solver.
Qed.

(** An action asked for is only ever refused quietly by a job that stops anyway. *)
Lemma action_no_op reason j k : Job.execute (JobCommand.RequireAction reason) j = (Ok false, k) → Job.state j = JobState.Stopping.
Proof.
  unfold Job.execute, Job.transition, Job.begin_stop, Job.to. unfold_monad.
  destruct (Job.state j) eqn:Hs; try done; intros; by split_cases.
Qed.

Lemma all_durable_no_op j k : Job.execute JobCommand.AllSegmentsDurable j ≠ (Ok false, k).
Proof.
  unfold Job.execute, Job.transition, Job.begin_stop, Job.to. unfold_monad.
  destruct (Job.state j) eqn:Hs; try done; intros; by split_cases.
Qed.

(** * What the database records of a session's job

    The three writes a session makes — a transition, the extents of a checkpoint, a
    publish intent — each keep [recorded]. *)

Section Record.
Context (root : Job.t).
Local Abbreviation recorded := (recorded root).

Lemma generation_eq (g g' : Generation.t) : Generation.get g = Generation.get g' → g = g'.
Proof. destruct g, g'. cbn. congruence. Qed.

(** A call of the job's own map. *)
Lemma recorded_same d j j' : recorded d j → same_job j j' → saved d j' → recorded d j'.
Proof.
  intros [_ Hi Hg Hb] [Eid Esp Est Egen _ _ Epl _] Hs. split; [done|..].
  - intros row. rewrite Eid, Egen, Epl, Esp. apply Hi.
  - by rewrite Egen.
  - intros E b. rewrite Eid. apply Hb. congruence.
Qed.

Lemma dropped_intent id a b d row :
  Db.publish_intents (dropped id a b d) !! id = Some row → a = false ∧ Db.publish_intents d !! id = Some row.
Proof.
  unfold dropped. destruct a, b; cbn; rewrite ?lookup_delete_eq; try done.
Qed.

Lemma planned_kept cmd j next :
  Job.execute cmd j = (Ok true, next) → Job.generation next = Job.generation j →
  Job.plan j = None ∨ Job.plan next = Job.plan j.
Proof.
  intros Hx Hg. destruct (execute_plan cmd _ _ Hx) as [[_ Hp]|(Hn&_)]; [|rewrite Hg in Hn; by apply next_differs in Hn].
  assert (Job.segments next = Job.segments j ∨ Job.segments j = None) as [E|E].
  { destruct cmd; cbn in Hp; try (left; by apply Hp).
    destruct Hp as [(m&Hm&_&_&_&?&_)|(m&?&_)]; [left; congruence|by right]. }
  - right. unfold Job.plan. by rewrite E.
  - left. unfold Job.plan. by rewrite E.
Qed.

Lemma execute_generation cmd j next :
  JobInv.wf j → Job.execute cmd j = (Ok true, next) →
  Job.generation next = Job.generation j ∨
  Generation.get (Job.generation next) = Generation.get (Job.generation j) + 1 ∧ Job.segments next = None.
Proof.
  intros Hj Hx. destruct (execute_plan cmd _ _ Hx) as [[? _]|(Hn&?&_)]; [by left|right].
  split; [|done]. eapply Generation.next_Ok; [apply Hj|done].
Qed.

Lemma transition_recorded d j cmd next d' :
  db_wf d → JobInv.wf j → recorded d j → JobInv.command_typed cmd →
  Job.execute cmd j = (Ok true, next) → transition (decided j cmd next) d = (Ok tt, d') →
  recorded d' (Job.set_version (Job.version j + 1) next) ∧
  job_rows d' (JobId.get (Job.id j)) =
    if decide (Job.generation next = Job.generation j) then job_rows d (JobId.get (Job.id j)) else [].
Proof.
  intros Hdb Hj [Hs Hi Hg Hb] Hty Hx Htr.
  destruct (transition_saved _ _ _ _ _ Hdb Hj Hs Hty Hx Htr) as [Hs' Hrows]. split; [|done].
  pose proof (JobInv.execute_frame _ _ _ _ Hx) as (Eid&Esp&_).
  destruct (execute_generation _ _ _ Hj Hx) as [Eg|[Eg En]].
  - rewrite decide_True in Hrows by done. split; [done|..]; cbn.
    + intros row. cbn. rewrite Eid, Eg, Esp. intros Hrow Hgen.
      apply transition_run in Htr as [(?&?&_)|(jr&now&stop&plan&es&_&_&_&_&_&_&_&_&_&_&_&_&_&_&_&_&_&->)]; [done|].
      cbn in Hrow. apply dropped_intent in Hrow as [_ Hrow]. destruct (Hi row Hrow Hgen) as [Hp He].
      split; [|done]. unfold Job.plan in *. cbn.
      destruct (planned_kept _ _ _ Hx Eg) as [Hn|Hn]; unfold Job.plan in Hn; rewrite Hn in *; done.
    + by rewrite Eg.
    + intros E b Hc. cbn. rewrite Eid. unfold row_ranges. rewrite Hrows. apply Hb; [|done]. cbn in E. congruence.
  - split; [done|..]; cbn.
    + intros row. cbn. rewrite Eid. intros Hrow Hgen.
      apply transition_run in Htr as [(?&?&_)|(jr&now&stop&plan&es&_&_&_&Hnow&_&_&_&_&_&_&_&_&_&_&_&_&_&->)]; [done|].
      cbn in Hrow. apply dropped_intent in Hrow as [Hf _]. apply bool_decide_eq_false in Hf. destruct Hf.
      cbn in Hnow. rewrite (saved_current d j Hs) in Hnow. injection Hnow as <-. cbn. lia.
    + lia.
    + intros E. cbn in E. rewrite E in Eg. lia.
Qed.

Lemma durable_recorded d d' j job g incoming :
  db_wf d → durable job g incoming d = (Ok tt, d') → recorded d j → recorded d' j.
Proof.
  intros Hdb Hd [Hs Hi Hg Hb]. pose proof (durable_saved _ _ _ _ _ _ Hdb Hd Hs) as Hs'.
  pose proof Hd as He. apply durable_effect in He as (s&t&fresh&rows&_&_&_&_&_&_&_&_&_&->&Hp); [|done].
  split; [done|done|done|]. intros E b Hc. apply Hb in Hc as (r&(row&->&[Hid Hrow]%list_elem_of_filter)%list_elem_of_fmap&?); [|done].
  exists (row_range row). split; [|done]. apply list_elem_of_fmap_2, list_elem_of_filter. split; [done|].
  cbn. rewrite Hp. apply elem_of_app. by right.
Qed.

Lemma intend_recorded d d' j i :
  recorded d j → intend_publish i d = (Ok tt, d') → PublishIntent.job i = Job.id j →
  (Generation.get (PublishIntent.generation i) = Generation.get (Job.generation j) →
   fst <$> Job.plan j = Some (PublishIntent.size i) ∧
   ∀ e, JobSpec.expected_sha256 (Job.spec j) = Some e → e = PublishIntent.digest i) →
  recorded d' j ∧ Db.extents d' = Db.extents d.
Proof.
  intros [Hs Hi Hg Hb] Hr Hid Hok.
  apply intend_publish_run in Hr as [(?&?&_)|(now&t&m&_&_&_&_&_&_&_&_&->)]; [done|].
  split; [|done]. split; [|..|done|done].
  - by destruct Hs.
  - intros row. cbn. rewrite Hid, lookup_insert_eq. intros [= <-]. cbn. exact Hok.
Qed.
End Record.
