(* ===== verification/SessionSteps.v ===== *)
(** * What a session's steps keep

    Triples over [Strict], with [Loose] on every error and at every crash.  One lemma per
    operation, down to a whole checkpoint. *)

From S2P Require Import Prelude.
From S2P Require Import Domain.
From S2P Require Import Segments.
From S2P Require Import SegmentsInv.
From S2P Require Import SegmentsRestore.
From S2P Require Import SegmentsThm.
From S2P Require Import JobMachine.
From S2P Require Import JobInv.
From S2P Require Import JobThm.
From S2P Require Import Admission.
From S2P Require Import Persistence.
From S2P Require Import Transfer.
From S2P Require Import PersistenceInv.
From S2P Require Import TransferInv.
From S2P Require Import TransferThm.
From S2P Require Import Files.
From S2P Require Import FilesInv.
From S2P Require Import StorageFile.
From S2P Require Import StorageNames.
From S2P Require Import StorageThm.
From S2P Require Import Writer.
From S2P Require Import SessionLane.
From S2P Require Import Ports.
From S2P Require Import Coordinator.
From S2P Require Import SessionInv.
From S2P Require Import SessionJob.
Import Session.

Create HintDb session discriminated.

Section Steps.
Context (sha256 : list Z → digest32) (c : Coordinator.t) (root : Job.t).

Local Abbreviation Loose := (Loose sha256 root).
Local Abbreviation Strict := (Strict sha256 root).
Local Abbreviation waited := (waited sha256).

(** ** Triples

    A triple also says that no loop runs out of fuel: nothing adds to what can still
    happen, and a loop's turn that goes on takes from it.  Unless it may start
    connections it does not add to those that run, either. *)

Definition lessens (grow : bool) (s s' : session_state) : Prop :=
  (fuel s' ≤ fuel s)%nat ∧ (grow = false → running s' ≤ running s).
Lemma lessens_same grow s s' : fuel s' = fuel s → running s' = running s → lessens grow s s'.
Proof. unfold lessens. lia. Qed.
#[local] Instance lessens_preorder grow : PreOrder (lessens grow).
Proof. split; [intros s; by apply lessens_same|]. unfold lessens. intros ???[][]. split; [lia|]. intros ->. naive_solver lia. Qed.

Definition triple_of {A} (grow : bool) (P : session_state → Prop) (m : session A) (Q : A → session_state → Prop) : Prop :=
  ∀ s, P s → match m s with
             | (Ok a, s') => Q a s' ∧ lessens grow s s'
             | (Err e, s') => Loose s' ∧ e ≠ Halt.Stuck
             end.

(** After a failure of the storage nothing is transferred any more. *)
Definition failed_ok (s : session_state) : Prop :=
  storage_failed s = true → Job.state (job s) ≠ JobState.Transferring.
Definition Sound (s : session_state) : Prop := Strict s ∧ failed_ok s.
Definition keeps {A} (m : session (R:=SqliteRepository.t) A) : Prop := triple_of false Sound m (λ _, Sound).

#[local] Abbreviation triple := (triple_of false).

Lemma triple_bind {g} {A B} P Q (m : session A) (k : A → session B) R :
  triple_of g P m Q → (∀ a, triple_of g (Q a) (k a) R) → triple_of g P (m ≫= k) R.
Proof.
  intros Hm Hk s Hs. unfold mbind, st_bind. specialize (Hm s Hs). destruct (m s) as [[a|e] s']; [|done].
  destruct Hm as [Hq Hf]. specialize (Hk a s' Hq). destruct (k a s') as [[] ?]; [|done].
  destruct Hk as [? Hk]. split; [done|]. by etrans.
Qed.
Lemma triple_conseq {g} {A} P P' (m : session A) Q Q' :
  triple_of g P' m Q' → (∀ s, P s → P' s) → (∀ a s, Q' a s → Q a s) → triple_of g P m Q.
Proof.
  intros Hm HP HQ s Hs. specialize (Hm s (HP s Hs)). destruct (m s) as [[a|e] s']; [|done].
  destruct Hm. auto.
Qed.
Lemma triple_weaken {A} P (m : session A) Q : triple_of false P m Q → triple_of true P m Q.
Proof. intros Hm s Hs. specialize (Hm s Hs). destruct (m s) as [[] ?]; [|done]. unfold lessens in *. naive_solver. Qed.
Lemma triple_pre {g} {A} P P' (m : session A) Q : triple_of g P' m Q → (∀ s, P s → P' s) → triple_of g P m Q.
Proof. intros. eapply triple_conseq; eauto. Qed.
Lemma triple_post {g} {A} P (m : session A) Q Q' : triple_of g P m Q' → (∀ a s, Q' a s → Q a s) → triple_of g P m Q.
Proof. intros. eapply triple_conseq; eauto. Qed.
Lemma triple_ret {g} {A} (P : session_state → Prop) (Q : A → session_state → Prop) a :
  (∀ s, P s → Q a s) → triple_of g P (mret a) Q.
Proof. intros HQ s Hs. cbn. split; [auto|reflexivity]. Qed.
Lemma triple_gets {g} {A} (P : session_state → Prop) (f : session_state → A) (Q : A → session_state → Prop) :
  (∀ s, P s → Q (f s) s) → triple_of g P (gets f) Q.
Proof. intros HQ s Hs. cbn. split; [auto|reflexivity]. Qed.
Lemma triple_modify {g} (P Q : session_state → Prop) f :
  (∀ s, P s → Q (f s) ∧ fuel (f s) = fuel s ∧ running (f s) = running s) → triple_of g P (modify f) (λ _, Q).
Proof. intros HQ s Hs. cbn. destruct (HQ s Hs) as (?&?&?). split; [done|by apply lessens_same]. Qed.
Lemma triple_try {g} {E A} (P : session_state → Prop) (f : E → RunError.t) (r : result E A) :
  (∀ s, P s → Loose s) → triple_of g P (try f r) (λ a s, P s ∧ r = Ok a).
Proof. intros HL s Hs. cbn. destruct r; cbn; [split; [done|reflexivity]|auto]. Qed.
Lemma triple_some {g} {A} (P : session_state → Prop) (o : option A) e :
  (∀ s, P s → Loose s) → triple_of g P (lift (ok_or o (Halt.Failed e))) (λ a s, P s ∧ o = Some a).
Proof. intros HL s Hs. cbn. destruct o; cbn; [split; [done|reflexivity]|auto]. Qed.
Lemma triple_read {g} {A} P (m : session_state → session A) Q :
  (∀ s0, P s0 → triple_of g (λ s, s = s0) (m s0) Q) → triple_of g P (s ← gets (λ s, s); m s) Q.
Proof. intros Hm s Hs. cbn. by apply (Hm s Hs). Qed.
Lemma triple_if {g} {A} P (b : bool) (m m' : session A) Q :
  (b = true → triple_of g P m Q) → (b = false → triple_of g P m' Q) → triple_of g P (if b then m else m') Q.
Proof. destruct b; auto. Qed.
Lemma triple_fail {g} {A} (P : session_state → Prop) e (Q : A → session_state → Prop) :
  (∀ s, P s → Loose s) → triple_of g P (fail e) Q.
Proof. intros HL s Hs. cbn. auto. Qed.
Lemma triple_err {g} {E A B} (f : E → RunError.t) e (k : A → session B) Q :
  triple_of g Loose (try f (Err e) ≫= k) Q.
Proof. intros s Hs. by split. Qed.
Lemma triple_ok {g} {E A B} P (f : E → RunError.t) a (k : A → session B) Q :
  triple_of g P (k a) Q → triple_of g P (try f (Ok a) ≫= k) Q.
Proof. done. Qed.
(** A fact of the start that is no part of the state. *)
Lemma triple_pure {g} {A} (P : session_state → Prop) (m : session A) Q (φ : Prop) :
  (φ → triple_of g P m Q) → triple_of g (λ s, P s ∧ φ) m Q.
Proof. intros H s [Hs Hp]. by apply H. Qed.
Lemma triple_at {g} {A} P (m : session A) Q : (∀ s0, P s0 → triple_of g (λ s, s = s0) m Q) → triple_of g P m Q.
Proof. intros H s Hs. by apply (H s Hs). Qed.
(** What is left to happen never grows. *)
Lemma triple_bound {g} {A} P (m : session A) Q n :
  triple_of g P m Q → triple_of g (λ s, P s ∧ (fuel s ≤ n)%nat) m (λ a s, Q a s ∧ (fuel s ≤ n)%nat).
Proof.
  intros Hm s [Hs Hn]. specialize (Hm s Hs). destruct (m s) as [[] ?]; [|done]. destruct Hm as [? Hl]. pose proof Hl as [? _]. split_and!; [done|lia|done].
Qed.
Lemma triple_bound_lt {g} {A} P (m : session A) Q n :
  triple_of g P m Q → triple_of g (λ s, P s ∧ (fuel s < n)%nat) m (λ a s, Q a s ∧ (fuel s < n)%nat).
Proof.
  intros Hm s [Hs Hn]. specialize (Hm s Hs). destruct (m s) as [[] ?]; [|done]. destruct Hm as [? Hl]. pose proof Hl as [? _]. split_and!; [done|lia|done].
Qed.

Lemma Sound_loose s : Sound s → Loose s.
Proof. intros [? _]. by apply st_loose. Qed.
Lemma kept_bind {A B} (m : session A) (k : A → session B) : keeps m → (∀ a, keeps (k a)) → keeps (m ≫= k).
Proof. intros. by eapply triple_bind. Qed.
Lemma kept_ret {A} (a : A) : keeps (mret a).
Proof. by apply triple_ret. Qed.
Lemma kept_gets {A} (f : session_state → A) : keeps (gets f).
Proof. by apply triple_gets. Qed.
Lemma kept_some {A} (o : option A) e : keeps (lift (ok_or o (Halt.Failed e))).
Proof. eapply triple_post; [apply triple_some, Sound_loose|naive_solver]. Qed.
Lemma kept_try {E A} (f : E → RunError.t) (r : result E A) : keeps (try f r).
Proof. eapply triple_post; [apply triple_try, Sound_loose|naive_solver]. Qed.
Lemma kept_fail {A} e : keeps (A:=A) (fail e).
Proof. apply triple_fail. apply Sound_loose. Qed.

Lemma loop_triple {g} {A} (measure : session_state → nat) P (turn : session (option A)) Q k :
  (∀ s, 1 ≤ measure s)%nat →
  (∀ n, triple_of g (λ s, P s ∧ (measure s ≤ n)%nat) turn
          (λ r s, match r with Some a => Q a s | None => P s ∧ (measure s < n)%nat end)) →
  triple_of g (λ s, P s ∧ (measure s ≤ k)%nat) (loop k turn) Q.
Proof.
  intros H1 Ht. induction k as [|k IH]; intros s [Hs Hk]; [specialize (H1 s); lia|]. cbn.
  unfold mbind, st_bind. specialize (Ht (measure s) s (conj Hs (le_n _))).
  destruct (turn s) as [[[a|]|e] s']; [done| |done]. destruct Ht as [[Hs' Hlt] Hle].
  assert (measure s' ≤ k)%nat as Hk' by lia. specialize (IH s' (conj Hs' Hk')).
  destruct (loop k turn s') as [[] ?]; [|done]. destruct IH as [? IH]. split; [done|]. by etrans.
Qed.
Lemma repeat_triple {g} {A} P (turn : session (option A)) Q :
  (∀ n, triple_of g (λ s, P s ∧ (fuel s ≤ n)%nat) turn
          (λ r s, match r with Some a => Q a s | None => P s ∧ (fuel s < n)%nat end)) →
  triple_of g P (repeat turn) Q.
Proof. intros Ht s Hs. apply (loop_triple fuel P); [unfold fuel; lia|done|done]. Qed.

#[local] Hint Resolve kept_bind kept_ret kept_gets kept_some kept_try kept_fail : session.

(** ** Waiting *)

(** A property waiting keeps, with the invariant under it. *)
Definition stable (P : session_state → Prop) : Prop :=
  (∀ s, P s → Loose s) ∧ ∀ s s', P s → waited s s' → Loose s' → P s'.

Lemma stable_Strict : stable Strict.
Proof. split; [apply st_loose|]. intros s s' ???. by eapply Strict_waited. Qed.

Lemma stable_Sound : stable Sound.
Proof.
  split; [apply Sound_loose|]. intros s s' [Hs Hf] Hw Hl. split; [by eapply Strict_waited|].
  unfold failed_ok. by rewrite (w_job _ _ _ Hw), (w_failed _ _ _ Hw).
Qed.

(** What the rest of a session depends on besides its job: waiting, the repository and
    the job change none of it. *)
Record frame (X : session_state → Prop) : Prop := {
  fr_waited : ∀ s s', X s → waited s s' → X s';
  fr_repository : ∀ s r, X s → X (set_repository r s);
  fr_job : ∀ s j, X s → X (set_job j s) }.

Lemma stable_with P X : stable P → (∀ s s', X s → waited s s' → X s') → stable (λ s, P s ∧ X s).
Proof.
  intros [HL HP] HX. split; [intros s [? _]; auto|]. intros s s' [Hs Hx] Hw Hl. split; eauto.
Qed.
Lemma stable_and P X : stable P → frame X → stable (λ s, P s ∧ X s).
Proof. intros HP []. by apply stable_with. Qed.
Lemma stable_pure P φ : stable P → stable (λ s, P s ∧ φ).
Proof. intros [HL HP]. split; [intros s [? _]; auto|]. intros s s' [Hs Hx] Hw Hl. split; eauto. Qed.
Lemma stable_job P j : stable P → stable (λ s, P s ∧ job s = j).
Proof.
  intros [HL HP]. split; [intros s [? _]; auto|]. intros s s' [Hs Hx] Hw Hl. split; [eauto|].
  by rewrite (w_job _ _ _ Hw).
Qed.
Lemma frame_and X Y : frame X → frame Y → frame (λ s, X s ∧ Y s).
Proof. intros [] []. split; naive_solver. Qed.
Lemma frame_true : frame (λ _, True).
Proof. by split. Qed.

Lemma triple_await P n : stable P →
  triple (λ s, P s ∧ (fuel s ≤ n)%nat) (await sha256 c) (λ _ s, P s ∧ (fuel s < n)%nat).
Proof.
  intros [HL HP] s [Hs Hn]. destruct (await sha256 c s) as [r s'] eqn:Ha.
  pose proof Ha as Hf. apply await_fuel in Hf as [_ Hf].
  apply (await_kept sha256 c root) in Ha as (Hl&Hw&Hr); [|by apply HL]. destruct r as [[]|e].
  - specialize (Hf eq_refl). pose proof (w_running _ _ _ Hw) as E. split; [split; [by eapply HP|lia]|]. unfold lessens. rewrite E. lia.
  - split; [done|]. destruct Hr; [done|]. congruence.
Qed.
Lemma triple_wait P : stable P → triple P (await sha256 c) (λ _, P).
Proof.
  intros HP s Hs. pose proof (triple_await P (fuel s) HP s (conj Hs (le_n _))) as Ht.
  destruct (await sha256 c s) as [[] ?]; naive_solver.
Qed.
(** A call with its waits: what is left to happen is less. *)
Lemma triple_during_lt {A} P Q (call : session A) n :
  stable P → (∀ a, stable (Q a)) → triple P call Q →
  triple (λ s, P s ∧ (fuel s ≤ n)%nat) (during sha256 c call) (λ a s, Q a s ∧ (fuel s < n)%nat).
Proof.
  intros HP HQ Hc. eapply triple_bind; [by apply triple_await|]. intros [].
  eapply triple_bind; [by apply triple_bound_lt|]. intros a. cbn.
  eapply triple_bind; [eapply triple_bound_lt; by apply triple_wait|]. intros []. by apply triple_ret.
Qed.
Lemma triple_during {A} P Q (call : session A) :
  stable P → (∀ a, stable (Q a)) → triple P call Q → triple P (during sha256 c call) Q.
Proof.
  intros HP HQ Hc s Hs. pose proof (triple_during_lt P Q call (fuel s) HP HQ Hc s (conj Hs (le_n _))) as Ht.
  destruct (during sha256 c call s) as [[] ?]; naive_solver.
Qed.
Lemma kept_await : keeps (await sha256 c).
Proof. apply triple_wait, stable_Sound. Qed.
Lemma kept_during {A} (call : session A) : keeps call → keeps (during sha256 c call).
Proof. intros. apply triple_during; [apply stable_Sound|intros; apply stable_Sound|done]. Qed.
#[local] Hint Resolve kept_await kept_during : session.

(** ** Changing the job in memory *)

Lemma Loose_job j' s :
  Loose s → JobInv.wf j' → Job.id j' = Job.id (job s) → Job.spec j' = Job.spec (job s) →
  tracked root (db s) j' → (∀ row, row ∈ job_extents s → closed j' (row_range row)) →
  (∀ i l, leases s !! i = Some l → held j' l) → Loose (set_job j' s).
Proof.
  intros [] Hwf Hid Hsp Ht Hc Hh.
  assert (jid (set_job j' s) = jid s) as Ejid by (unfold jid; cbn; by rewrite Hid).
  assert (job_extents (set_job j' s) = job_extents s) as Erows by (unfold job_extents; by rewrite Ejid).
  split; rewrite ?Ejid, ?Erows; try done; cbn; rewrite ?Hid, ?Hsp; done.
Qed.

(** Rows inside durable segments are closed to connections. *)
Lemma durable_closed j r :
  JobInv.wf j → (∀ b, ByteRange.covers r b → covered (durable_of j) b) → closed j r.
Proof.
  intros Hj Hr q b Hq Ho Hb Hrb. apply Hr in Hrb as (r'&Hin&Hb'). unfold durable_of, map_segments in *.
  destruct (Job.segments j) as [m|] eqn:Hm; [|by apply elem_of_nil in Hq].
  destruct (JobInv.wf_map j Hj m Hm) as (Hw&_). unfold durable_ranges in Hin.
  apply list_elem_of_fmap in Hin as (q'&->&[Hd Hq']%list_elem_of_filter).
  apply list_elem_of_lookup in Hq as [k Hk]. apply list_elem_of_lookup in Hq' as [k' Hk'].
  assert (k = k') as ->.
  { eapply (tiles_disjoint _ _ _ k k' _ _ b (SegmentMapInv.wf_tiles m Hw)); [..|exact Hb|exact Hb'];
      unfold SegmentMapInv.ranges; rewrite list_lookup_fmap; [by rewrite Hk|by rewrite Hk']. }
  rewrite Hk in Hk'. injection Hk' as ->. by rewrite Hd in Ho.
Qed.

Lemma row_covers s row b : row ∈ job_extents s → ByteRange.covers (row_range row) b → covered (row_ranges (db s) (jid s)) b.
Proof. intros Hr Hb. exists (row_range row). split; [|done]. by apply list_elem_of_fmap_2. Qed.

Lemma Strict_job j' s :
  Strict s → JobInv.wf j' → same_job (job s) j' → saved (db s) j' →
  (∀ b, covered (row_ranges (db s) (jid s)) b → covered (durable_of j') b) →
  (∀ i l, leases s !! i = Some l → held j' l) → Strict (set_job j' s).
Proof.
  intros Hs Hwf Hsame Hsv Hrows Hh. pose proof Hsame as [Eid Esp Est Egen _ _ Epl Eseg].
  pose proof Hs as [Hl Hrec _ Hw]. pose proof (recorded_same root _ _ _ Hrec Hsame Hsv) as Hrec'.
  assert (jid (set_job j' s) = jid s) as Ejid by (unfold jid; cbn; by rewrite Eid).
  split; rewrite ?Ejid; cbn; try done.
  - apply Loose_job; try done; [by left|]. intros row Hrow. apply durable_closed; [done|].
    intros b Hb. apply Hrows. by eapply row_covers.
  - intros p f Hp. rewrite Eseg, Egen, Epl. by eapply Hw.
Qed.

(** A call of the job's map that commits nothing and gives no held lease back. *)
Lemma Strict_call o mo s :
  Strict s → map_op o = Some mo → (∀ batch, o ≠ AcknowledgeCommit batch) → op_typed o →
  (∀ i l, leases s !! i = Some l → ¬ gives_back mo l) → Strict (set_job (after o (job s)) s).
Proof.
  intros Hs Hmo Hn Hty Hg. pose proof Hs as [Hl [Hsv _ _ _] Hr _]. pose proof (lo_job _ _ s Hl) as Hj.
  pose proof (segment_call_durable o mo (job s) Hmo Hn) as Hd.
  apply Strict_job; [done|by apply after_wf|by eapply segment_call_same| |by rewrite Hd|].
  - destruct (segment_call o mo (job s) Hmo) as [->|(m&Hm&E&_)]; [done|]. rewrite E in *.
    assert (∀ total, mo ≠ SegmentMapInv.ReplaceGeneration total) as Hnr by (intros ? ->; by destruct o).
    destruct (SegmentMapInv.exec_header mo m Hnr) as (_&_&Ht&Hmx).
    eapply saved_segments; [done..|]. intros b Hb. apply (saved_bytes _ _ Hsv).
    rewrite <-Hd. exact Hb.
  - intros i l Hi. eapply segment_call_held; [done|done|by eapply lo_leases|by eapply Hg].
Qed.

(** The same through [on_job]. *)
Lemma on_job_run {A} (m : st Job.t DomainError A) (s : session_state) :
  on_job m s = (map_err (λ e, Halt.Failed (RunError.Domain e)) (m (job s)).1, set_job (m (job s)).2 s).
Proof. unfold on_job. by destruct (m (job s)). Qed.

Lemma triple_on_job {A} P (m : st Job.t DomainError A) (Q : A → session_state → Prop) :
  (∀ s, P s → match m (job s) with (Ok a, j') => Q a (set_job j' s) | (Err _, j') => Loose (set_job j' s) end) →
  triple P (on_job m) Q.
Proof.
  intros HQ s Hs. specialize (HQ s Hs). rewrite on_job_run. destruct (m (job s)) as [[]]; cbn; [|auto]. split; [done|by apply lessens_same].
Qed.

(** ** The repository *)

Definition set_db (d : Db.t) (s : session_state) : Prop := db s = d.

Lemma Loose_db repo s :
  let d := SqliteRepository.db repo in
  Loose s → db_wf d → tracked root d (job s) →
  (∀ row, row ∈ job_rows d (jid s) → closed (job s) (row_range row) ∧
     proved sha256 (disk s) (jid s) (ExtentRow.generation row) (extent_at row) ∧
     ∀ p f, writer s = Some (p, f) →
       ExtentRow.generation row = Generation.get (PartSpec.generation (FilePart.spec p))) →
  Loose (set_repository repo s).
Proof.
  intros d [] Hdb Ht Hrows. split; try done; cbn.
  - intros row Hrow. by apply Hrows.
  - intros row Hrow. by apply Hrows.
  - intros p f Hp. destruct (lo_writer p f Hp) as (?&?&_). split_and!; [done..|].
    intros row Hrow. by eapply Hrows.
Qed.

Lemma Strict_db repo s : Strict s → SqliteRepository.db repo = db s → Strict (set_repository repo s).
Proof.
  intros [Hl Hsv Hr Hw] Hd. split; unfold db, jid in *; cbn; rewrite ?Hd; try done.
  apply Loose_db; rewrite ?Hd; [done|apply (lo_db _ _ s Hl)|by left|]. intros row Hrow.
  split_and!; [by apply (lo_closed _ _ s Hl)|by apply (lo_proved _ _ s Hl)|].
  intros p f Hp. by apply (lo_writer _ _ s Hl p f Hp).
Qed.

Lemma triple_repository {E A} (call : st SqliteRepository.t E A) P (Q : result E A → session_state → Prop) :
  stable P → (∀ r, stable (Q r)) →
  (∀ s r repo, P s → call (repository s) = (r, repo) → Q r (set_repository repo s)) →
  triple P (Coordinator.repository sha256 c call) Q.
Proof.
  intros HP HQ Hc. apply triple_during; [done..|]. intros s Hs. specialize (Hc s).
  destruct (call (repository s)) as [r repo]. split; [by eapply Hc|by apply lessens_same].
Qed.

(** What neither waiting nor the repository's own housekeeping changes. *)
Definition calm (P : session_state → Prop) : Prop :=
  stable P ∧ ∀ s repo, P s → SqliteRepository.db repo = db s → P (set_repository repo s).
Lemma calm_Sound : calm Sound.
Proof. split; [apply stable_Sound|]. intros s repo [Hs Hf] Hd. split; [by apply Strict_db|done]. Qed.
Lemma calm_and P X : calm P → frame X → calm (λ s, P s ∧ X s).
Proof.
  intros [HP HPd] HX. split; [by apply stable_and|]. intros s repo [Hs Hx] Hd. split; [by apply HPd|by apply fr_repository].
Qed.
Lemma calm_job P j : calm P → calm (λ s, P s ∧ job s = j).
Proof. intros [HP HPd]. split; [by apply stable_job|]. intros s repo [Hs Hx] Hd. split; [by apply HPd|done]. Qed.
Lemma calm_with_pure P φ : calm P → calm (λ s, P s ∧ φ).
Proof. intros [HP HPd]. split; [by apply stable_pure|]. intros s repo [Hs Hx] Hd. split; [by apply HPd|done]. Qed.

(** A call that reads. *)
Lemma triple_port_read {E A} (f : PersistenceError.t → E) (read : Db.t → result PersistenceError.t A) P :
  calm P →
  triple P (Coordinator.repository sha256 c (SqliteRepository.port f (λ _ d, (read d, d))))
    (λ r s, P s ∧ match r with Ok a => read (db s) = Ok a | Err _ => True end).
Proof.
  intros [HP HPd]. apply triple_repository; [done|..].
  - intros r. pose proof HP as [HL HPw]. split; [intros s [? _]; auto|]. intros s s' [Hs Hr] Hw Hl.
    split; [by eapply HPw|]. unfold db. by rewrite (w_repository _ _ _ Hw).
  - intros s r repo' Hs Hp. apply port_run in Hp as [[Hd Hr]|(a&Ha&Hr)]; [| |intros d e d' [= _ <-]; done].
    + split; [by apply HPd|]. by destruct r.
    + injection Ha as Ha Hd. split; [by apply HPd|].
      destruct Hr as [-> | ->]; [|done]. unfold db. cbn. by rewrite <-Hd.
Qed.

(** ** A transition: decide, commit, apply *)

(** The events of a command: none, or the one of its transition. *)
Lemma decide_cases j cmd events :
  JobInv.wf j → JobInv.command_typed cmd → Job.decide_ j cmd = Ok events →
  events = [] ∧ Job.execute cmd j = (Ok false, j) ∨ ∃ next, Job.execute cmd j = (Ok true, next) ∧ Job.version j + 1 ≤ u64_max ∧
    events = [decided j cmd next].
Proof.
  intros Hj Hty [[-> (next&Hx)]|(next&?&?&->)]%JobInv.decide_inv; [left|eauto 6]. split; [done|].
  destruct (JobInv.execute_wf _ _ _ _ Hj Hty Hx) as [_ Heq]. by rewrite (Heq eq_refl) in Hx.
Qed.

(** What a transition does to the session's own view of the job. *)
Definition moved (cmd : JobCommand.t) (j j' : Job.t) : Prop :=
  (j' = j ∧ Job.execute cmd j = (Ok false, j)) ∨
  ∃ next, Job.execute cmd j = (Ok true, next) ∧ j' = Job.set_version (Job.version j + 1) next.

(** [ProbeSucceeded] is the one command that gives the job its plan, or takes it to work. *)
Definition plans (cmd : JobCommand.t) : bool :=
  match cmd with JobCommand.ProbeSucceeded _ _ _ => true | _ => false end.

Lemma no_rows s : Strict s → Job.segments (job s) = None → job_extents s = [].
Proof.
  intros Hs Hn. destruct (job_extents s) as [|row rows] eqn:He; [done|]. exfalso.
  assert (row ∈ job_extents s) as Hrow by (rewrite He; left).
  pose proof (row_wf _ _ s row (st_loose _ _ s Hs) Hrow) as (?&?&?).
  assert (covered (durable_of (job s)) (ByteRange.start (row_range row))) as (r&Hr&_).
  { apply (st_rows _ _ s Hs). eapply row_covers; [done|]. unfold ByteRange.covers. lia. }
  unfold durable_of in Hr. rewrite Hn in Hr. by apply elem_of_nil in Hr.
Qed.

(** Between the commit and the new state: the database is one event ahead. *)
Record ahead (cmd : JobCommand.t) (next : Job.t) (s : session_state) : Prop := {
  ah_loose : Loose s;
  ah_run : Job.execute cmd (job s) = (Ok true, next);
  ah_recorded : recorded root (db s) (Job.set_version (Job.version (job s) + 1) next);
  ah_rows : ∀ b, covered (row_ranges (db s) (jid s)) b → covered (durable_of next) b;
  ah_writer : ∀ p f, writer s = Some (p, f) → Job.segments (job s) = None ∨
    (PartSpec.generation (FilePart.spec p) = Job.generation (job s) ∧
     fst <$> Job.plan (job s) = Some (PartSpec.size (FilePart.spec p))) }.

Lemma stable_ahead cmd next : stable (ahead cmd next).
Proof.
  split; [by intros s []|]. intros s s' [Hl Hx Hsv Hr Hw] Hwt Hl'.
  pose proof (w_job _ _ _ Hwt) as Ej. pose proof (w_repository _ _ _ Hwt) as Er.
  split; unfold db, jid in *; rewrite ?Ej, ?Er; try done.
  intros p f Hp. pose proof (w_writer _ _ _ Hwt) as Ew. rewrite Hp in Ew.
  destruct (writer s) as [[p' f']|]; [|done]. cbn in Ew. injection Ew as ->. by eapply Hw.
Qed.

(** What the transition keeps of durable bytes. *)
Lemma next_durable cmd s next :
  Strict s → Job.execute cmd (job s) = (Ok true, next) →
  ∀ b, covered (row_ranges (db s) (jid s)) b → Job.generation next = Job.generation (job s) →
  covered (durable_of next) b.
Proof.
  intros Hs Hx b Hb Hg. destruct (execute_plan cmd _ _ Hx) as [[_ Hp]|(Hn&_)].
  - assert (Job.segments next = Job.segments (job s) ∨ Job.segments (job s) = None) as [E|E].
    { destruct cmd; cbn in Hp; try (left; by apply Hp). destruct Hp as [(m&Hm&_&_&_&?&_)|(m&?&_)]; [left; congruence|by right]. }
    + unfold durable_of. rewrite E. by apply (st_rows _ _ s Hs).
    + exfalso. pose proof (no_rows s Hs E) as Hnil. unfold row_ranges in Hb. fold (job_extents s) in Hb.
      rewrite Hnil in Hb. by apply covered_nil in Hb.
  - rewrite Hg in Hn. by apply next_differs in Hn.
Qed.

(** The commit: as before, or one event ahead, or unknown to the session. *)
Lemma commit_triple cmd next j0 X :
  frame X → JobInv.command_typed cmd → Job.execute cmd j0 = (Ok true, next) → Job.version j0 + 1 ≤ u64_max →
  triple (λ s, (Strict s ∧ X s) ∧ job s = j0)
    (Coordinator.repository sha256 c (commit_transition (decided j0 cmd next)))
    (λ r s, match r with Ok _ => (ahead cmd next s ∧ X s) ∧ job s = j0 | Err _ => Loose s end).
Proof.
  intros HX Hty Hx0 Hv. apply triple_repository.
  - apply stable_job, stable_and; [apply stable_Strict|done].
  - intros [[]|e]; [|by split]. apply stable_job, stable_and; [apply stable_ahead|done].
  - intros s r repo' [[Hs HXs] Hj] Hp. rewrite <-Hj in *. clear Hj j0.
    pose proof Hs as [Hl Hsv Hr Hwr]. pose proof (lo_job _ _ s Hl) as Hwf. pose proof (lo_db _ _ s Hl) as Hdb.
    apply port_run in Hp as [[Hd Hbad]|(a&Ha&Hgood)]; [| |].
    + pose proof (Strict_db repo' s Hs Hd) as Hs'. destruct r; [done|]. by apply st_loose.
    + destruct a. pose proof (transition_recorded root _ _ _ _ _ Hdb Hwf Hsv Hty Hx0 Ha) as [Hsv' Hrows].
      pose proof (transition_db_wf (decided (job s) cmd next) (db s) Hdb) as Hdb'. unfold db in Hdb' at 1.
      rewrite Ha in Hdb'. cbn in Hdb'. fold (jid s) (job_extents s) in Hrows.
      assert (Loose (set_repository repo' s)) as Hl'.
      { apply Loose_db; [done|done|right; by exists cmd, next|]. intros row. rewrite Hrows. unfold db.
        fold (db s). fold (job_extents s).
        case_decide; [|by intros ?%elem_of_nil]. intros Hrow.
        split_and!; [by apply (lo_closed _ _ s Hl)|by apply (lo_proved _ _ s Hl)|].
        intros p f Hpw. by apply (lo_writer _ _ s Hl p f Hpw). }
      assert ((ahead cmd next (set_repository repo' s) ∧ X (set_repository repo' s)) ∧
        job (set_repository repo' s) = job s) as Hah.
      { split; [|done]. split; [|by apply fr_repository]. split; try done. intros b. unfold row_ranges.
        change (db (set_repository repo' s)) with (SqliteRepository.db repo').
        change (jid (set_repository repo' s)) with (jid s). rewrite Hrows. unfold db. fold (db s).
        case_decide as Hg; [|by intros (?&?%elem_of_nil&_)]. intros Hb. by eapply next_durable. }
      destruct Hgood as [-> | ->]; [exact Hah|exact Hl'].
    + intros d e d' Ht. apply transition_run in Ht as [(?&_&->)|(row&now&stop&plan&es&Hbad&_)]; [done|].
      cbn in Hbad. discriminate.
Qed.
End Steps.
#[export] Hint Resolve kept_bind kept_ret kept_gets kept_some kept_try kept_fail kept_await kept_during : session.
