(* ===== verification/SessionCommands.v ===== *)
(** * Commands of a session

    [step] decides, commits and applies; what stops a session is made of it. *)

From S2P Require Import Prelude.
From S2P Require Import Domain.
From S2P Require Import Segments.
From S2P Require Import SegmentsInv.
From S2P Require Import SegmentsRestore.
From S2P Require Import SegmentsThm.
From S2P Require Import JobMachine.
From S2P Require Import JobInv.
From S2P Require Import JobThm.
From S2P Require Import Retry.
From S2P Require Import Admission.
From S2P Require Import Persistence.
From S2P Require Import Transfer.
From S2P Require Import PersistenceInv.
From S2P Require Import TransferInv.
From S2P Require Import TransferThm.
From S2P Require Import StorageFile.
From S2P Require Import Ports.
From S2P Require Import Coordinator.
From S2P Require Import SessionInv.
From S2P Require Import SessionJob.
From S2P Require Import SessionSteps.
Import Session.

Section Commands.
Context (sha256 : list Z → digest32) (c : Coordinator.t) (root : Job.t).
Local Abbreviation Loose := (Loose sha256 root).
Local Abbreviation Strict := (Strict sha256 root).
Local Abbreviation triple := (triple_of sha256 root false).
Local Abbreviation keeps := (keeps sha256 root).
Local Abbreviation frame := (frame sha256).
Local Abbreviation step := (Coordinator.step sha256 c).

(** Leased segments outlive a transition. *)
Lemma held_next cmd j next l :
  JobInv.wf j → Job.execute cmd j = (Ok true, next) → held j l → held next l.
Proof.
  intros Hj Hx Hl. destruct (decide (Job.generation next = Job.generation j)) as [Hg|Hg].
  - unfold held, map_segments in *. destruct (Job.segments j) as [m|] eqn:Hm; [|by apply elem_of_nil in Hl].
    destruct (planned_kept _ _ _ Hx Hg) as [Hp|Hp]; [unfold Job.plan in Hp; by rewrite Hm in Hp|].
    destruct (execute_plan cmd _ _ Hx) as [[_ Hs]|(Hn&_)]; [|rewrite Hg in Hn; by apply next_differs in Hn].
    assert (Job.segments next = Some m) as ->; [|done].
    destruct cmd; cbn in Hs; rewrite ?Hm in Hs; try (destruct Hs; congruence).
    destruct Hs as [(m'&Hm'&_&_&_&->&_)|(m'&?&_)]; congruence.
  - pose proof (replaced_quiet _ _ _ Hj Hx Hg). pose proof (held_active j l Hl). congruence.
Qed.

Lemma apply_ahead cmd next s :
  ahead sha256 root cmd next s → JobInv.command_typed cmd → Job.version (job s) + 1 ≤ u64_max →
  (plans cmd = true → writer s = None) →
  Strict (set_job (Job.set_version (Job.version (job s) + 1) next) s).
Proof.
  intros [Hl Hx Hrec Hrows Hw] Hty Hv Hplans. pose proof (lo_job _ _ s Hl) as Hj.
  destruct (JobInv.execute_wf _ _ _ _ Hj Hty Hx) as [Hwf _].
  pose proof (JobInv.execute_frame _ _ _ _ Hx) as (Eid&Esp&Ever).
  assert (JobInv.wf (Job.set_version (Job.version (job s) + 1) next)) as Hwf'.
  { apply JobInv.set_version_wf; [done|]. pose proof (JobInv.wf_version _ Hj). unfold u64 in *. lia. }
  assert (jid (set_job (Job.set_version (Job.version (job s) + 1) next) s) = jid s) as Ejid
    by (unfold jid; cbn; by rewrite Eid).
  split; rewrite ?Ejid; cbn; [|done|done|..].
  - apply Loose_job; [done|done|by rewrite <-Eid|by rewrite <-Esp|by left|..].
    + intros row Hrow. apply durable_closed; [done|]. intros b Hb. apply Hrows. by eapply row_covers.
    + intros i l Hi. eapply (held_next cmd (job s) next); [done|done|]. by eapply lo_leases.
  - intros p f Hp. destruct (plans cmd) eqn:Hpl; [rewrite (Hplans eq_refl) in Hp; done|].
    destruct (execute_generation _ _ _ Hj Hx) as [Eg|[_ En]]; [|by left].
    destruct (execute_plan cmd _ _ Hx) as [[_ Hs]|(Hn&_)]; [|rewrite Eg in Hn; by apply next_differs in Hn].
    assert (Job.segments next = Job.segments (job s)) as Es by (destruct cmd; try done; apply Hs).
    unfold Job.plan in *. cbn. rewrite Es, Eg. by eapply Hw.
Qed.

(** Every command but the probe's, with whatever else holds. *)
Lemma step_triple cmd j0 X :
  frame X → JobInv.command_typed cmd →
  (plans cmd = true → ∀ s, X s → writer s = None) →
  triple (λ s, (Strict s ∧ X s) ∧ job s = j0) (step cmd) (λ _ s, (Strict s ∧ X s) ∧ moved cmd j0 (job s)).
Proof.
  intros HX Hty Hplans. apply triple_read. intros s0 [[Hs0 HX0] Hj0].
  apply (triple_pre _ _ _ (λ s, (Strict s ∧ X s) ∧ job s = j0)); [|by intros s ->].
  rewrite Hj0. eapply triple_bind; [apply triple_try; intros s [[? _] _]; by apply st_loose|]. intros events. cbn beta.
  apply triple_pure. rewrite <-Hj0. intros [[-> Hx]|(next&Hx&Hv&->)]%decide_cases; cbn;
    [..|by apply (lo_job _ _ _ (st_loose _ _ _ Hs0))|done]; rewrite Hj0 in *.
  - apply triple_ret. intros s [[??] ->]. split; [done|]. left. done.
  - eapply triple_bind; [by apply commit_triple|]. intros [[]|e]; cbn beta iota; [apply triple_ok|apply triple_err].
    eapply (triple_bind _ _ _ (λ _ s, (Strict s ∧ X s) ∧ moved cmd j0 (job s))); [|intros []; by apply triple_ret].
    apply triple_on_job. intros s [[Ha HXs] Hj]. rewrite <-Hj in *.
    pose proof Ha as [_ Hrun _ _ _]. unfold decided. rewrite (JobInv.apply_decided _ _ _ Hrun Hv).
    split; [|right; by exists next]. split; [|by eapply fr_job].
    apply (apply_ahead cmd); auto.
Qed.

(** With whatever else holds, for the commands that never lead to work. *)
Lemma step_moved cmd j0 X :
  frame X → JobInv.command_typed cmd → plans cmd = false →
  triple (λ s, (Sound sha256 root s ∧ X s) ∧ job s = j0) (step cmd)
    (λ _ s, (Sound sha256 root s ∧ X s) ∧ moved cmd j0 (job s)).
Proof.
  intros HX Hty Hp. apply triple_at. intros s0 [[[Hs0 Hf0] HX0] <-].
  eapply triple_conseq; [apply (step_triple cmd (job s0) (λ s, X s ∧ storage_failed s = storage_failed s0))|..];
    [|done|by rewrite Hp|by intros s ->|].
  - apply frame_and; [done|]. split; try done. intros s s' <- Hw. apply Hw.
  - intros [] s [[Hs [HXs Hf]] Hm]. split; [|done]. split; [split; [done|]|done]. unfold failed_ok in *. rewrite Hf. intros Hb.
    specialize (Hf0 Hb). destruct Hm as [[-> _]|(next&Hx&->)]; [done|]. cbn. intros Hst.
    by destruct (only_probe_transfers _ _ _ Hx Hst) as (?&?&?&->).
Qed.
Lemma step_keeps_frame cmd X :
  frame X → JobInv.command_typed cmd → plans cmd = false →
  triple (λ s, Sound sha256 root s ∧ X s) (step cmd) (λ _ s, Sound sha256 root s ∧ X s).
Proof.
  intros HX Hty Hp. apply triple_at. intros s0 Hs0.
  eapply triple_conseq; [by apply (step_moved cmd (job s0) X)|by intros s ->|]. by intros [] s [? _].
Qed.
Lemma kept_step cmd : JobInv.command_typed cmd → plans cmd = false → keeps (step cmd).
Proof.
  intros Hty Hp. eapply triple_conseq; [apply (step_keeps_frame cmd (λ _, True))|..]; try done.
  by intros ? s [? _].
Qed.

(** ** What no invariant looks at *)

Record unseen (s s' : session_state) : Prop := {
  un_job : job s' = job s;
  un_repository : repository s' = repository s;
  un_disk : disk s' = disk s;
  un_writer : writer s' = writer s;
  un_tasks : workers s' = workers s ∧ finished s' = finished s;
  un_leases : leases s' = leases s ∧ spawned s' = spawned s;
  un_clock : now s' = now s ∧ jitter s' = jitter s;
  un_probed : probed s' = probed s ∨ probed s' = None }.

Lemma Loose_unseen s s' : Loose s → unseen s s' → Loose s'.
Proof.
  intros [] [Ej Er Ed Ew [Ek Ef] [El Es] [En Et] Ep].
  split; unfold job_extents, db, jid in *; rewrite ?Ej, ?Er, ?Ed, ?Ew, ?Ek, ?Ef, ?El, ?Es, ?En, ?Et; try done.
  destruct Ep as [-> | ->]; done.
Qed.
Lemma Strict_unseen s s' : Strict s → unseen s s' → Strict s'.
Proof.
  intros [Hl Hs Hr Hw] Hu. pose proof (Loose_unseen _ _ Hl Hu). destruct Hu as [Ej Er Ed Ew _ _ _ _].
  split; unfold db, jid in *; rewrite ?Ej, ?Er, ?Ew; done.
Qed.
Lemma Sound_unseen s s' :
  Sound sha256 root s → unseen s s' → storage_failed s' = storage_failed s → Sound sha256 root s'.
Proof.
  intros [Hs Hf] Hu E. split; [by eapply Strict_unseen|]. unfold failed_ok. by rewrite E, (un_job _ _ Hu).
Qed.
Lemma kept_modify f :
  (∀ s, unseen s (f s) ∧ storage_failed (f s) = storage_failed s ∧ fuel (f s) = fuel s ∧
    running (f s) = running s) → keeps (modify f).
Proof. intros Hf. apply triple_modify. intros s Hs. destruct (Hf s) as (?&?&?). split; [by eapply Sound_unseen|done]. Qed.
Ltac unseen := apply kept_modify; intros s; split_and!; try done; split; auto.

Lemma kept_cancel_workers : keeps cancel_workers.
Proof. unseen. Qed.
Lemma kept_unsynced v : keeps (modify (set_unsynced v)).
Proof. unseen. Qed.
Lemma kept_control_open v : keeps (modify (set_control_open v)).
Proof. unseen. Qed.
Lemma kept_tell f : keeps (tell f).
Proof. unseen. Qed.

(** ** Stopping *)

Lemma kept_state_is states : keeps (state_is states).
Proof. apply kept_gets. Qed.

Lemma kept_stop_with cmd : JobInv.command_typed cmd → plans cmd = false → keeps (stop_with sha256 c cmd).
Proof.
  intros Hty Hp. apply kept_bind; [apply kept_state_is|]. intros b.
  apply kept_bind; [|intros; apply kept_cancel_workers]. destruct b; [by apply kept_step|apply kept_ret].
Qed.

(** The retry policy comes from [RetryPolicy::new]. *)
Context (Hretry : RetryPolicy.wf (CoordinatorConfig.retry (Coordinator.config c))).

Lemma retry_typed error (s : session_state) :
  Loose s → JobInv.command_typed (retry_command c error s) ∧ plans (retry_command c error s) = false.
Proof.
  intros Hs. destruct (lo_clock _ _ s Hs) as [Hn Hj]. unfold retry_command.
  destruct (match error with TransportError.Throttled _ => _ | _ => _ end) as [class deadline] eqn:Hd.
  assert (∀ t, deadline = Some t → t ≤ u64_max) as Hdl.
  { intros t ->. destruct error as [|[]| | |]; cbn in Hd; simplify_eq; unfold saturating_add; lia. }
  unfold RetryPolicy.decide_. case_decide; [lia|]. case_decide; [done|]. case_decide as Ha; [done|].
  destruct (RetryPolicy.cap_eq _ (Z.max (Job.attempts (job s)) 1) Hretry ltac:(lia)) as [_ Hcap].
  pose proof (Z.mod_pos_bound (jitter s) (RetryPolicy.cap (CoordinatorConfig.retry (Coordinator.config c))
    (Z.max (Job.attempts (job s)) 1) + 1) ltac:(lia)).
  unfold_monad. destruct (checked_add _ _) as [t|] eqn:Ht; [|done]. apply checked_add_Some in Ht as [-> ?].
  split; [|done]. cbn. unfold u64. split; [lia|]. apply Z.max_lub; [done|].
  destruct deadline; cbn; [by apply Hdl|lia].
Qed.

Lemma kept_on_transport_error error : keeps (on_transport_error sha256 c error).
Proof.
  unfold on_transport_error.
  eapply (triple_bind _ _ _ (λ cmd s, Sound sha256 root s ∧ JobInv.command_typed cmd ∧ plans cmd = false)); cycle 1.
  { intros cmd. apply triple_pure. intros [??]. by apply kept_stop_with. }
  assert (triple (Sound sha256 root) (gets (retry_command c error))
    (λ cmd s, Sound sha256 root s ∧ JobInv.command_typed cmd ∧ plans cmd = false)) as Hget.
  { apply triple_gets. intros s Hs. split; [done|]. by apply retry_typed, Sound_loose. }
  destruct error; try (by apply triple_ret).
  - eapply triple_bind; [apply kept_tell|]. by intros [].
  - eapply triple_bind; [apply kept_tell|]. by intros [].
Qed.

(** ** After a failure of the storage *)

(** What stopping the connections does not change either. *)
Definition resting (X : session_state → Prop) : Prop :=
  frame X ∧ ∀ s b, X s → X (set_stop_workers b s).

(** The action a failed session asks for ends its transfer. *)
Lemma step_action reason X : frame X →
  triple (λ s, Strict s ∧ X s) (step (JobCommand.RequireAction reason)) (λ _ s, Sound sha256 root s ∧ X s).
Proof.
  intros HX. apply triple_at. intros s0 Hs0.
  eapply triple_conseq; [apply (step_triple (JobCommand.RequireAction reason) (job s0) X)|..];
    [done|done|done|by intros s ->|].
  intros [] s [[Hs HXs] Hm]. split; [|done]. split; [done|]. intros _ Hst. destruct Hm as [[Ej Hx]|(next&Hx&Ej)]; rewrite Ej in Hst.
  - apply action_no_op in Hx. congruence.
  - by destruct (only_probe_transfers _ _ _ Hx Hst) as (?&?&?&?).
Qed.

Lemma stop_failed reason X : resting X →
  triple (λ s, Strict s ∧ X s) (stop_with sha256 c (JobCommand.RequireAction reason)) (λ _ s, Sound sha256 root s ∧ X s).
Proof.
  intros [HX HXs].
  apply (triple_bind _ _ _ (λ b s, (Strict s ∧ X s) ∧ (b = false → Job.state (job s) ≠ JobState.Transferring))).
  { apply triple_gets. intros s Hs. split; [done|]. intros Hb Hst. rewrite Hst in Hb. done. }
  intros b. apply (triple_bind _ _ _ (λ _ s, Sound sha256 root s ∧ X s)); cycle 1.
  { intros []. apply triple_modify. intros s [Hs Hx]. split; [|done]. split; [|by apply HXs].
    eapply Sound_unseen; [exact Hs|by split; auto|done]. }
  destruct b.
  - eapply triple_pre; [by apply step_action|]. by intros s [? _].
  - apply triple_ret. intros s [[Hs Hx] Hst]. split; [|done]. split; [done|]. intros _. by apply Hst.
Qed.

Lemma triple_failed P : (∀ s, P s → Strict s) → triple P (modify (set_storage_failed true)) (λ _, Strict).
Proof. intros HP. apply triple_modify. intros s Hs. split; [|done]. eapply Strict_unseen; [by apply HP|]. split; auto. Qed.

Lemma kept_on_storage_failure : keeps (on_storage_failure sha256 c).
Proof.
  eapply triple_bind; [apply triple_failed; by intros s [? _]|]. intros [].
  eapply triple_conseq; [apply (stop_failed StopReason.Storage (λ _, True)); by split|done|]. by intros ? s [? _].
Qed.

Lemma kept_on_control ctl : keeps (on_control sha256 c ctl).
Proof.
  destruct ctl as [[]|]; cbn; [by apply kept_stop_with| |apply kept_control_open].
  apply kept_bind; [by apply kept_step|]. intros []. apply kept_cancel_workers.
Qed.

(** Taking a control: one thing less to happen. *)
Lemma triple_recv n :
  triple (λ s, Sound sha256 root s ∧ (fuel s ≤ n)%nat) recv
    (λ r s, Sound sha256 root s ∧ match r with Some (Some _) => (fuel s < n)%nat | _ => (fuel s ≤ n)%nat end).
Proof.
  intros s [Hs Hn]. unfold recv. destruct (negb (control_open s)); [split; [by split|by apply lessens_same]|].
  destruct (control s) as [|ctl rest] eqn:Hc; [destruct (senders s); (split; [by split|by apply lessens_same])|].
  assert (fuel (set_control rest s) < fuel s)%nat as Hlt by (unfold fuel; rewrite Hc; cbn; lia).
  split; [split; [|lia]|unfold lessens; split; [lia|done]]. eapply Sound_unseen; [exact Hs|by split; auto|done].
Qed.
End Commands.
