(* ===== verification/SessionDisk.v ===== *)
(** * What a session does to its part

    The lane's commands leave names and durable bytes in place; opening a part makes a
    healthy handle of it, dropping one only takes names away. *)

From S2P Require Import Prelude.
From S2P Require Import Domain.
From S2P Require Import Segments.
From S2P Require Import SegmentsInv.
From S2P Require Import SegmentsRestore.
From S2P Require Import SegmentsThm.
From S2P Require Import JobMachine.
From S2P Require Import JobInv.
From S2P Require Import JobThm.
From S2P Require Import Retry.
From S2P Require Import Admission.
From S2P Require Import Persistence.
From S2P Require Import Transfer.
From S2P Require Import PersistenceInv.
From S2P Require Import TransferInv.
From S2P Require Import TransferThm.
From S2P Require Import PersistenceThm.
From S2P Require Import Files.
From S2P Require Import FilesInv.
From S2P Require Import StorageFile.
From S2P Require Import StorageInv.
From S2P Require Import StorageSteps.
From S2P Require Import StorageNames.
From S2P Require Import StorageThm.
From S2P Require Import Buffers.
From S2P Require Import Writer.
From S2P Require Import SessionLane.
From S2P Require Import Ports.
From S2P Require Import Coordinator.
From S2P Require Import SessionInv.
From S2P Require Import SessionJob.
From S2P Require Import SessionSteps.
From S2P Require Import SessionCommands.
Import Session.

Section Disk.
Context (sha256 : list Z → digest32) (c : Coordinator.t) (root : Job.t).
Local Abbreviation Loose := (Loose sha256 root).
Local Abbreviation Strict := (Strict sha256 root).
Local Abbreviation Sound := (Sound sha256 root).
Local Abbreviation triple := (triple_of sha256 root false).
Local Abbreviation keeps := (keeps sha256 root).
Local Abbreviation frame := (frame sha256).
Local Abbreviation waited := (waited sha256).

(** ** What the lane's commands leave alone *)

Record steady (s s' : session_state) : Prop := {
  y_job : job s' = job s;
  y_repository : repository s' = repository s;
  y_leases : leases s' = leases s;
  y_failed : storage_failed s' = storage_failed s;
  y_connections : connections s' = connections s;
  y_writer : FilePart.spec ∘ fst <$> writer s' = FilePart.spec ∘ fst <$> writer s;
  y_proved : ∀ g e, closed (job s) (DurableExtent.range e) → ByteRange.wf (DurableExtent.range e) →
    (∀ p f, writer s = Some (p, f) → g = Generation.get (PartSpec.generation (FilePart.spec p))) →
    proved sha256 (disk s) (jid s) g e → proved sha256 (disk s') (jid s) g e }.

Lemma waited_steady s s' : waited s s' → steady s s'.
Proof. by intros []. Qed.

Lemma gentle_proved g e p w' (s : session_state) :
  Healthy sha256 (FilePart.World p (disk s)) → PartSpec.job (FilePart.spec p) = Job.id (job s) →
  g = Generation.get (PartSpec.generation (FilePart.spec p)) →
  gentle sha256 (FilePart.World p (disk s)) w' →
  proved sha256 (disk s) (jid s) g e → proved sha256 (FilePart.fs w') (jid s) g e.
Proof.
  intros Hh Hid -> Hg Hp ino Hino. destruct Hg as [_ _ _ Hps Hby].
  apply Hps in Hino. destruct (Hp ino Hino) as [Hlen Hd]. cbn in *.
  assert (part_file (disk s) (FilePart.spec p) ino) as Hpf
    by (unfold part_file, part_name; rewrite Hid; exact Hino).
  by rewrite (Hby Hh ino Hpf).
Qed.

Lemma keep_lane_kept l p f (s : session_state) :
  Loose s → writer s = Some (p, f) → gentle sha256 (FilePart.World p (disk s)) (Lane.file l) →
  Loose (keep_lane l s) ∧ steady s (keep_lane l s).
Proof.
  intros Hs Hw Hg. destruct (lo_writer _ _ s Hs p f Hw) as (Hh&Hid&Hgen).
  pose proof Hg as [Hh' Hsp Hdk _ _]. specialize (Hh' Hh).
  assert (steady s (keep_lane l s)) as Hst.
  { split; try done; cbn; [by rewrite Hw; cbn; rewrite Hsp|].
    intros g e _ _ Hg' Hp. eapply gentle_proved; eauto. }
  split; [|done]. destruct Hs. split; try done; cbn.
  - intros row Hrow. apply (gentle_proved _ _ p _ s); [done|done|by apply Hgen|done|by apply lo_proved].
  - by apply Hdk.
  - intros p' f' [= <- <-]. rewrite Hsp. split_and!; [|done|done]. revert Hh'. by destruct (Lane.file l).
Qed.

Lemma steady_Strict s s' : Strict s → steady s s' → Loose s' → Strict s'.
Proof.
  intros [Hl Hs Hr Hw] [Ej Er _ _ _ Ew _] Hl'. split; [done|..]; unfold db, jid in *; rewrite ?Er, ?Ej; auto.
  intros p f Hp. destruct (writer s) as [[p' f']|] eqn:Hws; rewrite Hp in Ew; [|done].
  cbn in Ew. injection Ew as ->. by eapply Hw.
Qed.

(** A property the lane's commands keep, and waiting. *)
Definition firm (P : session_state → Prop) : Prop :=
  (∀ s, P s → Loose s) ∧ ∀ s s', P s → steady s s' → Loose s' → P s'.
Lemma firm_stable P : firm P → stable sha256 root P.
Proof. intros [HL HP]. split; [done|]. intros s s' Hs Hw. apply (HP s); [done|]. by eapply waited_steady. Qed.
Lemma firm_Sound : firm Sound.
Proof.
  split; [apply Sound_loose|]. intros s s' [Hs Hf] Hw Hl. split; [by eapply steady_Strict|].
  unfold failed_ok. by rewrite (y_job _ _ Hw), (y_failed _ _ Hw).
Qed.
Lemma firm_job P j : firm P → firm (λ s, P s ∧ job s = j).
Proof.
  intros [HL HP]. split; [intros s [? _]; auto|]. intros s s' [Hs Hj] Hw Hl. split; [by eapply HP|].
  by rewrite (y_job _ _ Hw).
Qed.

Lemma ask_kept cmd s :
  Loose s → sendable cmd →
  let s' := (ask sha256 cmd s).2 in
  Loose s' ∧ steady s s' ∧ lessens false s s' ∧ (ask sha256 cmd s).1 = Ok
    (match writer s with None => None | Some w => snd <$> head (Lane.replies (serve sha256 cmd (lane w s))) end).
Proof.
  intros Hs Hc. unfold ask. destruct (writer s) as [[p f]|] eqn:Hw; cbn; [|split_and!; [done|done|by apply lessens_same|done]].
  pose proof (serve_gentle sha256 cmd (lane (p, f) s) Hc) as Hg.
  destruct (keep_lane_kept _ p f s Hs Hw Hg). split_and!; [done|done|by apply lessens_same|done].
Qed.

Lemma triple_ask cmd P : firm P → sendable cmd → triple P (ask sha256 cmd) (λ _, P).
Proof.
  intros [HL HP] Hc s Hs. pose proof (ask_kept cmd s (HL s Hs) Hc) as (Hl&Hst&Hf&Hr).
  destruct (ask sha256 cmd s) as [r s']. cbn in *. subst r. split; [by eapply HP|done].
Qed.
Lemma kept_ask cmd P : firm P → sendable cmd → triple P (during sha256 c (ask sha256 cmd)) (λ _, P).
Proof.
  intros HP Hc. apply triple_during; [by apply firm_stable|intros; by apply firm_stable|]. by apply triple_ask.
Qed.

Lemma triple_lane_sync_lt P n : firm P →
  triple (λ s, P s ∧ (fuel s ≤ n)%nat) (lane_sync sha256 c) (λ _ s, P s ∧ (fuel s < n)%nat).
Proof.
  intros HP. apply (triple_bind _ _ _ (λ _ s, P s ∧ (fuel s < n)%nat)); [|intros a; by apply triple_ret].
  apply (triple_during_lt _ _ _ _ (λ _, P)); [by apply firm_stable|intros; by apply firm_stable|]. by apply triple_ask.
Qed.
Lemma triple_lane_sync P : firm P → triple P (lane_sync sha256 c) (λ _, P).
Proof. intros HP. eapply triple_bind; [by apply kept_ask|]. intros a. by apply triple_ret. Qed.

(** ** Dropping the part *)

(** What neither waiting nor removing the part's own names spoils. *)
Definition lasting (X : session_state → Prop) : Prop :=
  (∀ s s', X s → waited s s' → X s') ∧ ∀ s w d, X s → trimmed (disk s) d → X (set_lane w d s).

Lemma Loose_trimmed d (s : session_state) :
  Loose s → writer s = None → disk_kept (disk s) d → parts_stay (disk s) d → trimmed (disk s) d →
  Loose (set_lane (writer s) d s).
Proof.
  intros [] Hw Hk Hp [Hd _]. split; try done; cbn; [|by apply Hk|intros p f Hp'; congruence].
  intros row Hrow ino Hino. apply Hp in Hino. unfold Fs.content. rewrite Hd. by apply lo_proved.
Qed.

Definition dropping (spec : PartSpec.t) : st Fs.t StorageError.t unit := λ d,
  match FilePart.open_inner spec false d with
  | (Err e, d) => (Err e, d)
  | (Ok p, d) =>
      let '(r, w) := (_ ← FilePart.abandon; FilePart.discard) (FilePart.World p d) in (r, FilePart.fs w)
  end.
Lemma dropping_run spec d :
  let d' := (dropping spec d).2 in disk_kept d d' ∧ parts_stay d d' ∧ trimmed d d'.
Proof.
  unfold dropping. pose proof (open_same spec d) as Hs. destruct (FilePart.open_inner spec false d) as [[p|e] d1] eqn:Ho;
    cbn in Hs; cbn zeta; [|split_and!; [by apply name_same|by apply name_same|by apply same_trimmed]].
  apply open_Ok_part in Ho as (f&m&->&_).
  set (call := (_ ← FilePart.abandon; FilePart.discard) : FilePart.part_st unit).
  set (w := FilePart.World (fresh_part spec f m false (bool_decide (Fs.content d m !! 33%nat = Some 1))) d1).
  assert (part_within disk_kept call) as Hk.
  { apply part_within_bind; [apply _|apply within_abandon, _|]. intros. apply within_discard, _. }
  assert (part_within parts_stay call) as Hp.
  { apply part_within_bind; [apply _|apply within_abandon, _|]. intros. apply within_discard, _. }
  specialize (Hk w). specialize (Hp w).
  assert (trimmed d1 (FilePart.fs (call w).2)) as Ht.
  { unfold call, FilePart.abandon, FilePart.update. unfold_monad. cbn.
    by apply (discard_trimmed (FilePart.World (FilePart.set_cancelled true (FilePart.part w)) d1)). }
  destruct (call w) as [r w']. cbn in *. split_and!; (etrans; [by first [apply name_same|apply same_trimmed]|done]).
Qed.

Lemma triple_drop_part X : lasting X →
  triple (λ s, (Sound s ∧ X s) ∧ writer s = None) (drop_part sha256 c) (λ _ s, Sound s ∧ X s).
Proof.
  intros [HX HXt]. apply triple_read. intros s0 Hs0.
  assert (∀ s, s = s0 → Sound s ∧ X s) as Hret by (intros s ->; apply Hs0).
  destruct (Job.plan (job s0)); [|by apply triple_ret]. destruct (part_spec (job s0)) as [spec|]; [|by apply triple_ret].
  destruct (Coordinator.parts_for c _); [|by apply triple_ret]. clear Hret.
  apply (triple_pre _ _ _ (λ s, (Sound s ∧ X s) ∧ writer s = None)); [|by intros s ->].
  assert (stable sha256 root (λ s, (Sound s ∧ X s) ∧ writer s = None)) as Hst.
  { split; [intros s [[? _] _]; by apply Sound_loose|]. intros s s' [[Hs HXs] Hw] Hwt Hl.
    split; [split; [by eapply stable_Sound|by eapply HX]|].
    pose proof (w_writer _ _ _ Hwt) as Ew. rewrite Hw in Ew. by destruct (writer s'). }
  apply (triple_bind _ _ _ (λ _ s, (Sound s ∧ X s) ∧ writer s = None)); [|intros; apply triple_ret; by intros s [? _]].
  apply triple_during; [done|done|]. intros s [[[Hs Hf] HXs] Hw].
  match goal with |- context [on_disk ?m] => change m with (dropping spec) end. unfold on_disk. pose proof (dropping_run spec (disk s)) as (Hk&Hp&Ht).
  destruct (dropping spec (disk s)) as [r d']. cbn in *. split; [|by apply lessens_same].
  pose proof (st_loose _ _ s Hs) as Hl. pose proof (Loose_trimmed d' s Hl Hw Hk Hp Ht) as Hl'.
  split; [|done]. split; [|by apply HXt]. split; [|done].
  destruct Hs as [_ Hrec Hrows Hwr]. by split.
Qed.

Lemma triple_release_part X abandon : lasting X →
  triple (λ s, Sound s ∧ X s) (release_part sha256 c abandon) (λ _ s, Sound s ∧ X s).
Proof.
  intros [HX HXt]. apply triple_read. intros s0 [Hs0 HX0]. destruct (writer s0) as [w|] eqn:Hw.
  - apply (triple_pre _ _ _ (λ s, Sound s ∧ X s)); [|by intros s ->].
    apply (triple_bind _ _ _ (λ _ s, Sound s ∧ X s)); [|intros; by apply triple_ret].
    assert (stable sha256 root (λ s, Sound s ∧ X s)) as Hst by (apply stable_with; [apply stable_Sound|done]).
    apply (triple_during _ _ _ _ (λ _ s, Sound s ∧ X s)); [done|done|]. clear w Hw.
    intros s [Hs HXs]. pose proof (Sound_loose _ _ s Hs) as Hl.
    pose proof (ask_kept (Command.Discard abandon 0) s Hl I) as (Hl'&Hst'&Hfu&Hr).
    assert (X (ask sha256 (Command.Discard abandon 0) s).2) as HX'.
    { unfold ask. destruct (writer s) as [[p f]|] eqn:Hw; [|done]. apply HXt; [done|].
      destruct (lo_writer _ _ s Hl p f Hw) as ([[_ Hpath _ _ _ _ _ _ _] _]&_&_). unfold serve, guarded, lane. cbn.
      destruct f as [e|]; cbn; [reflexivity|].
      set (call := (_ ← (if abandon then FilePart.abandon else mret tt); FilePart.discard) : FilePart.part_st unit).
      assert (trimmed (disk s) (FilePart.fs (call (FilePart.World p (disk s))).2)) as Ht.
      { unfold call, FilePart.abandon, FilePart.update. unfold_monad. destruct abandon; cbn.
        - by apply (discard_trimmed (FilePart.World (FilePart.set_cancelled true p) (disk s))).
        - by apply (discard_trimmed (FilePart.World p (disk s))). }
      by destruct (call _). }
    destruct (ask _ _ s) as [r s']. cbn in *. subst r. split; [|done]. split; [|done].
    by eapply firm_Sound.
  - eapply triple_pre; [by apply triple_drop_part|]. by intros s ->.
Qed.

(** ** Opening the part *)

Lemma recover_all_reachable extents w r w' :
  Forall (λ e, ByteRange.wf (DurableExtent.range e)) extents → reachable sha256 w →
  recover_all sha256 extents w = (r, w') →
  reachable sha256 w' ∧ same (FilePart.fs w) (FilePart.fs w') ∧ FilePart.spec (FilePart.part w') = FilePart.spec (FilePart.part w).
Proof.
  revert w. induction extents as [|e extents IH]; intros w Hwf Hr; cbn; [by intros [= _ <-]|].
  apply Forall_cons in Hwf as [He Hwf]. unfold mbind, st_bind.
  destruct (FilePart.recover_extent _ _ _ w) as [[[]|err] w1] eqn:H1.
  all: pose proof H1 as Hrun; apply recover_extent_run in Hrun as [Hs Hp]; [|done].
  all: assert (reachable sha256 w1) as Hr1
    by (eapply reach_step; [exact Hr|]; pose proof (step_recover sha256 w (DurableExtent.range e) (DurableExtent.digest e) He) as Hst; by rewrite H1 in Hst).
  all: assert (FilePart.spec (FilePart.part w1) = FilePart.spec (FilePart.part w)) as Hsp
    by (destruct Hp as [[-> _]|(_&_&_&_&([[]]&?)&_&->)]; done).
  - intros H2. destruct (IH w1 Hwf Hr1 H2) as (?&?&E). split_and!; [done|by etrans|congruence].
  - by intros [= _ <-].
Qed.

Lemma open_file_run spec extents d r d' :
  spec_wf spec → Forall (λ e, ByteRange.wf (DurableExtent.range e)) extents → disk_ok d →
  open_file sha256 spec extents d = (r, d') →
  disk_ok d' ∧ (extents ≠ [] → same d d') ∧
  ∀ p, r = Ok p → Healthy sha256 (FilePart.World p d') ∧ FilePart.spec p = spec.
Proof.
  intros Hsp Hwf Hd Hr.
  assert (∀ create s p s', FilePart.open_inner spec create s = (Ok p, s') → disk_ok s →
    reachable sha256 (FilePart.World p s') ∧ FilePart.spec p = spec) as Hopen.
  { intros [] s p s' Ho Hok.
    - split; [by eapply reach_create|]. apply create_Ok in Ho as (f&m&->&_). done.
    - pose proof Ho as Ho'. apply open_Ok_part in Ho' as (f&m&->&_&Hf&Hm&_).
      split; [|done]. eapply reach_open; [done|exact Ho|]. cbn. by eapply (disk_separate _ Hok). }
  unfold open_file in Hr. case_decide as Hn.
  - assert (∀ r d1, FilePart.open_inner spec true d = (r, d1) → disk_ok d1) as Hk1
      by (intros ?? Ho; pose proof (disk_kept_open spec true d Hd) as H; by rewrite Ho in H).
    destruct (FilePart.open_inner spec true d) as [r1 d1] eqn:H1. specialize (Hk1 _ _ eq_refl).
    assert (disk_ok d' ∧ ∀ p, r = Ok p → reachable sha256 (FilePart.World p d') ∧ FilePart.spec p = spec) as [Hk Hp].
    { destruct r1 as [p|[]]; try (injection Hr as <- <-; split; [done|]; intros q [= <-]; by eapply (Hopen true)).
      all: try (injection Hr as <- <-; split; [done|]; intros q; discriminate).
      pose proof (disk_kept_open spec false d1 Hk1) as H2. rewrite Hr in H2. split; [done|]. intros p ->.
      by eapply (Hopen false). }
    split_and!; [done|done|]. intros p Heq. destruct (Hp p Heq). split; [by apply reachable_Healthy|done].
  - pose proof (disk_kept_open spec false d Hd) as Hk. pose proof (open_same spec d) as Hs.
    destruct (FilePart.open_inner spec false d) as [[p|e] d1] eqn:H1; cbn in Hk, Hs.
    + destruct (Hopen false _ _ _ H1 Hd) as [Hr1 Hsp1].
      destruct (recover_all sha256 extents (FilePart.World p d1)) as [r2 w] eqn:H2.
      apply recover_all_reachable in H2 as (Hr2&Hs2&Hsp2); [|done|done]. cbn in *. injection Hr as <- <-.
      split_and!; [by apply (name_same (rel:=disk_kept) _ _ Hs2)|intros _; by etrans|].
      intros q Hq. destruct r2; [|done]. injection Hq as <-. apply reachable_Healthy in Hr2. destruct w. cbn in *.
      split; [done|congruence].
    + injection Hr as <- <-. split_and!; [done|by intros _|done].
Qed.

(** A resting handle stays healthy while others only gain names. *)
Lemma Healthy_still p (s s' : session_state) :
  Healthy sha256 (FilePart.World p (disk s)) → still s s' → Healthy sha256 (FilePart.World p (disk s')).
Proof.
  intros [[] Hn] [_ Hd _ Hnd]. split.
  - split; unfold bytes_of, meta_of, Fs.content in *; cbn in *; rewrite ?Hd; done.
  - intros Hpo. destruct (Hn Hpo) as [Ha Hb]. cbn in *. split; cbn; rewrite Hnd; try done.
    rewrite inv_path. done.
Qed.

(** Nobody works, and nobody has ended unseen. *)
Definition quiet (s : session_state) : Prop := workers s = [] ∧ finished s = [].
Lemma frame_quiet : frame quiet.
Proof. split; [|done|done]. intros s s' [Hw Hf] Hwt. destruct (w_idle _ _ _ Hwt Hw) as (?&E&_). split; congruence. Qed.
Lemma frame_no_writer : frame (λ s, writer s = None).
Proof.
  split; [|done|done]. intros s s' Hw Hwt. pose proof (w_writer _ _ _ Hwt) as Ew. rewrite Hw in Ew.
  by destruct (writer s').
Qed.

(** Every extent of the job belongs to its generation. *)
Lemma row_generation s row :
  Strict s → row ∈ job_extents s → ExtentRow.generation row = Generation.get (Job.generation (job s)).
Proof.
  intros Hs Hrow. destruct (row_of_job _ (lo_db _ _ s (st_loose _ _ s Hs)) _ _ Hrow) as (Hid&_&(st&t&Hst&Hg&_)&_).
  pose proof (saved_state _ _ (rc_saved _ _ _ (st_saved _ _ s Hs))) as Hsv.
  rewrite Hid in Hst. unfold jid in Hst. rewrite Hst in Hsv. destruct Hsv as (stop&_&->). exact Hg.
Qed.

Lemma part_spec_Ok j spec total maximum :
  JobInv.wf j → part_spec j = Ok spec → Job.plan j = Some (total, maximum) →
  spec = PartSpec.Make (Job.id j) (Job.generation j) total ∧ spec_wf spec.
Proof.
  intros Hj Hs Hp. unfold part_spec, PartSpec.new in Hs. rewrite Hp in Hs. case_decide as Hm; [done|].
  injection Hs as <-. split; [done|]. unfold Job.plan in Hp.
  destruct (Job.segments j) as [m|] eqn:Hseg; [|done]. injection Hp as <- _.
  destruct (JobInv.wf_map j Hj m Hseg) as (Hw&_). pose proof (SegmentMapInv.wf_total m Hw). unfold spec_wf. cbn. lia.
Qed.

Lemma extents_of_job s extents :
  Loose s → current_extents (Job.id (job s)) (db s) = Ok extents → extents = extent_at <$> job_extents s.
Proof.
  intros Hs. destruct (lo_tracked _ _ s Hs) as [Hrec|(cmd&next&_&Hx&_&Hrec)].
  - pose proof (saved_id _ _ (lo_db _ _ s Hs) (rc_saved _ _ _ Hrec)) as Hid.
    rewrite current_extents_run; [by intros [= <-]|apply (lo_db _ _ s Hs)|lia].
  - pose proof (saved_id _ _ (lo_db _ _ s Hs) (rc_saved _ _ _ Hrec)) as Hid. cbn in Hid.
    rewrite (proj1 (JobInv.execute_frame _ _ _ _ Hx)) in Hid.
    rewrite current_extents_run; [by intros [= <-]|apply (lo_db _ _ s Hs)|lia].
Qed.

Lemma extents_wf s : Loose s → Forall (λ e, ByteRange.wf (DurableExtent.range e)) (extent_at <$> job_extents s).
Proof.
  intros Hs. apply Forall_fmap, Forall_forall. intros row Hrow. cbn. by eapply row_wf.
Qed.

Lemma resting_quiet : resting sha256 quiet.
Proof. split; [apply frame_quiet|done]. Qed.

(** Before: nobody works and no lane is there. *)
Definition unopened (s : session_state) : Prop := quiet s ∧ writer s = None.
Lemma frame_unopened : frame unopened.
Proof. apply frame_and; [apply frame_quiet|apply frame_no_writer]. Qed.

(** The handle of a part just opened. *)
Definition handle (spec : PartSpec.t) (r : result StorageError.t FilePart.t) (s : session_state) : Prop :=
  ∀ p, r = Ok p → Healthy sha256 (FilePart.World p (disk s)) ∧ FilePart.spec p = spec.

(** The extents the repository answers, and the file opened by them. *)
Definition of_job (P : session_state → Prop) (extents : list DurableExtent.t) (s : session_state) : Prop :=
  P s ∧ extents = extent_at <$> job_extents s.
Lemma stable_of_job P extents : stable sha256 root P → stable sha256 root (of_job P extents).
Proof.
  intros [HL HPw]. split; [intros s [? _]; auto|]. intros s s' [Hs ->] Hw Hl.
  split; [by eapply HPw|]. unfold job_extents, db, jid. by rewrite (w_repository _ _ _ Hw), (w_job _ _ _ Hw).
Qed.
Lemma triple_extents P found j0 : (∀ s, P s → Loose s ∧ job s = j0) →
  triple (λ s, P s ∧ match found with Ok a => current_extents (Job.id j0) (db s) = Ok a | Err _ => True end)
    (try (λ _ : AppError.t, RunError.Repository) found) (of_job P).
Proof.
  intros HP. eapply triple_post; [apply triple_try; intros s [Hs _]; by apply HP|].
  cbn. intros extents s [[Hs Hr] ->]. split; [done|]. destruct (HP s Hs) as [Hl <-]. by apply extents_of_job.
Qed.

Lemma triple_open_file spec j0 total maximum extents :
  part_spec j0 = Ok spec → Job.plan j0 = Some (total, maximum) →
  triple (of_job (λ s, (Sound s ∧ unopened s) ∧ job s = j0) extents)
    (during sha256 c (on_disk (open_file sha256 spec extents)))
    (λ r s, ((Sound s ∧ unopened s) ∧ job s = j0) ∧ handle spec r s).
Proof.
  intros Hsp Hpl. set (P := λ s, (Sound s ∧ unopened s) ∧ job s = j0).
  assert (stable sha256 root P) as HP by (apply stable_job, stable_and; [apply stable_Sound|apply frame_unopened]).
  apply triple_during; [by apply stable_of_job|..].
  { intros r. pose proof HP as [HL HPw]. split; [intros s [? _]; auto|]. intros s s' [Hs Hh] Hw Hl.
    split; [by eapply HPw|]. intros p Hr. destruct (Hh p Hr) as [Hp ?]. split; [|done].
    destruct Hs as [[_ [[Hwk _] _]] _]. eapply Healthy_still; [done|]. by apply (w_idle _ _ _ Hw). }
  intros s [[[[Hs Hf] [Hq Hw]] Hj] ->]. unfold on_disk. pose proof (st_loose _ _ s Hs) as Hl.
  destruct (part_spec_Ok j0 spec total maximum) as [Hspec Hswf]; [rewrite <-Hj; apply (lo_job _ _ s Hl)|done|done|].
  destruct (open_file sha256 spec _ (disk s)) as [r d'] eqn:Ho.
  apply open_file_run in Ho as (Hd'&Hsame&Hh); [|done|by apply extents_wf|apply (lo_disk _ _ s Hl)].
  split; [|by apply lessens_same]. split; [|exact Hh]. split; [|done]. split; [|by split].
  assert (Loose (set_lane (writer s) d' s)) as Hl'.
  { destruct Hl. split; try done; cbn; [|intros p f Hp; congruence].
    intros row Hrow. destruct (decide (extent_at <$> job_extents s = [])) as [Hn|Hn].
    - apply fmap_nil_inv in Hn. change (row ∈ job_extents s) in Hrow. rewrite Hn in Hrow. by apply elem_of_nil in Hrow.
    - destruct (Hsame Hn) as (Hnd&Hdt&_). intros ino Hino. rewrite Hnd in Hino. unfold Fs.content. rewrite Hdt.
      by apply lo_proved. }
  split; [|done]. destruct Hs as [_ Hrec Hrows Hwr]. by split.
Qed.

(** A healthy handle of the job's part becomes the session's. *)
Lemma Sound_opened p spec total maximum s :
  Sound s → part_spec (job s) = Ok spec → Job.plan (job s) = Some (total, maximum) → handle spec (Ok p) s →
  Sound (set_lane (Some (p, None)) (disk s) s).
Proof.
  intros [Hs Hf] Hsp Hpl Hh. destruct (Hh p eq_refl) as [Hhp Hps].
  pose proof (st_loose _ _ s Hs) as Hl. destruct (part_spec_Ok _ _ _ _ (lo_job _ _ s Hl) Hsp Hpl) as [Hspec _].
  split; [|done]. assert (Loose (set_lane (Some (p, None)) (disk s) s)) as Hl'.
  { pose proof Hl as []. split; try done; cbn. intros q g [= <- <-]. rewrite Hps, Hspec. cbn.
    split_and!; [done|done|]. intros row Hrow. by eapply row_generation. }
  destruct Hs as [_ Hrec Hrows _]. split; try done. cbn. intros q g [= <- <-]. right. rewrite Hps, Hspec, Hpl. done.
Qed.

(** Opened: the handle rests on the job the session had; or the job stops. *)
Lemma triple_open_part j0 :
  triple (λ s, (Sound s ∧ unopened s) ∧ job s = j0) (open_part sha256 c)
    (λ _ s, (Sound s ∧ quiet s) ∧ ∀ p f, writer s = Some (p, f) →
      job s = j0 ∧ f = None ∧ fst <$> Job.plan j0 = Some (PartSpec.size (FilePart.spec p))).
Proof.
  apply triple_read. intros s0 Hs0. destruct Hs0 as [Hs0 Hj0]. rewrite Hj0.
  set (P := λ s, (Sound s ∧ unopened s) ∧ job s = j0).
  assert (∀ s, P s → Loose s ∧ job s = j0) as HPL by (intros s [[? _] ?]; split; [by apply Sound_loose|done]).
  assert (∀ extents s, of_job P extents s → Loose s) as HOL by (intros extents s [? _]; by apply HPL).
  apply (triple_pre _ _ _ P); [|by intros s ->]. clear s0 Hs0 Hj0.
  eapply triple_bind; [apply triple_some; intros; by apply HPL|]. intros [total maximum]. cbn beta. apply triple_pure. intros Hpl.
  eapply triple_bind; [apply triple_try; intros; by apply HPL|]. intros spec. cbn beta. apply triple_pure. intros Hsp.
  eapply triple_bind; [apply triple_port_read, calm_job, calm_and; [apply calm_Sound|apply frame_unopened]|]. intros found.
  eapply triple_bind; [by apply triple_extents|]. intros extents.
  eapply triple_bind; [apply triple_try, HOL|]. intros []. cbn beta. apply triple_pure. intros _.
  eapply triple_bind; [by eapply triple_open_file|]. intros [p|error].
  - eapply triple_bind; [apply triple_try; intros s [? _]; by apply HPL|]. intros l. cbn beta. apply triple_pure. intros _.
    apply triple_modify. intros s [[[Hs [Hq Hw]] Hj] Hh]. split; [|done]. split; [split; [|exact Hq]|].
    + by eapply Sound_opened; rewrite ?Hj.
    + cbn. intros q f [= <- <-]. destruct (Hh p eq_refl) as [_ ->]. split_and!; [done|done|]. rewrite Hpl. cbn.
      destruct (part_spec_Ok j0 spec total maximum) as [-> _]; [|done..].
      rewrite <-Hj. by apply (lo_job _ _ s (Sound_loose _ _ s Hs)).
  - apply (triple_bind _ _ _ (λ _ s, Strict s ∧ unopened s)).
    { apply triple_modify. intros s [[[[Hs _] Hu] _] _]. split; [|done]. split; [|done].
      eapply Strict_unseen; [exact Hs|by split; auto]. }
    intros []. cbn zeta. eapply triple_bind; [by apply (triple_gets _ _ _ _ (λ _ s, Strict s ∧ unopened s))|]. intros direct.
    eapply (triple_post _ _ _ _ _ (λ _ s, Sound s ∧ unopened s)).
    + destruct direct; [apply step_action, frame_unopened|apply stop_failed]. by split; [apply frame_unopened|].
    + intros [] s [Hs [Hq Hw]]. split; [done|]. intros q f Hq'. congruence.
Qed.
Lemma kept_open_part : triple (λ s, Sound s ∧ unopened s) (open_part sha256 c) (λ _ s, Sound s ∧ quiet s).
Proof.
  apply triple_at. intros s0 Hs0. eapply triple_conseq; [apply (triple_open_part (job s0))|by intros s ->|].
  by intros [] s [? _].
Qed.
End Disk.
