(* ===== verification/SessionCheckpoint.v ===== *)
(** * A session's checkpoint

    Written segments are synced, hashed, recorded and only then acknowledged: whatever the
    database answers, an extent it holds is the digest of bytes no connection may write. *)

From S2P Require Import Prelude.
From S2P Require Import Domain.
From S2P Require Import Segments.
From S2P Require Import SegmentsInv.
From S2P Require Import SegmentsRestore.
From S2P Require Import SegmentsThm.
From S2P Require Import JobMachine.
From S2P Require Import JobInv.
From S2P Require Import JobThm.
From S2P Require Import Retry.
From S2P Require Import Admission.
From S2P Require Import Persistence.
From S2P Require Import Transfer.
From S2P Require Import PersistenceInv.
From S2P Require Import TransferInv.
From S2P Require Import TransferThm.
From S2P Require Import PersistenceThm.
From S2P Require Import Files.
From S2P Require Import FilesInv.
From S2P Require Import StorageFile.
From S2P Require Import StorageInv.
From S2P Require Import StorageSteps.
From S2P Require Import StorageNames.
From S2P Require Import StorageThm.
From S2P Require Import Buffers.
From S2P Require Import Writer.
From S2P Require Import SessionLane.
From S2P Require Import Ports.
From S2P Require Import Coordinator.
From S2P Require Import SessionInv.
From S2P Require Import SessionJob.
From S2P Require Import SessionSteps.
From S2P Require Import SessionCommands.
From S2P Require Import SessionDisk.
Import Session.

(** ** The job's calls in a checkpoint *)

Lemma map_mut_Ok {A} (method : st SegmentMap.t DomainError A) j a j' :
  Job.map_mut method j = (Ok a, j') →
  ∃ m m', Job.segments j = Some m ∧ method m = (Ok a, m') ∧ JobInv.may_work (Job.state j) = true ∧
    j' = Job.set_segments (Some m') j.
Proof.
  unfold Job.map_mut. unfold_monad. case_bool_decide as Hst; cbn; [|done].
  destruct (Job.segments j) as [m|]; cbn; [|done]. destruct (method m) as [r m'] eqn:Hm. intros [= -> <-].
  exists m, m'. split_and!; [done|done| |done]. destruct (Job.state j); set_unfold; naive_solver.
Qed.
Lemma map_mut_Err {A} (method : st SegmentMap.t DomainError A) j e j' :
  (∀ m e m', method m = (Err e, m') → m' = m) → Job.map_mut method j = (Err e, j') → j' = j.
Proof.
  intros Ha. unfold Job.map_mut. unfold_monad. case_bool_decide; cbn; [|by intros [= _ <-]].
  destruct (Job.segments j) as [m|] eqn:Hm; cbn; [|by intros [= _ <-]].
  destruct (method m) as [r m'] eqn:Hx. intros [= -> <-]. apply Ha in Hx as ->. destruct j. cbn in *. by subst.
Qed.

(** A segment no connection may write to. *)
Lemma segment_closed j q :
  JobInv.wf j → q ∈ map_segments j → is_open (Segment.state q) = false → closed j (Segment.range q).
Proof.
  intros Hj Hin Hq q' b Hin' Hq' Hb' Hb. unfold map_segments in *.
  destruct (Job.segments j) as [m|] eqn:Hm; [|by apply elem_of_nil in Hin].
  destruct (JobInv.wf_map j Hj m Hm) as (Hw&_).
  apply list_elem_of_lookup in Hin as [k Hk]. apply list_elem_of_lookup in Hin' as [k' Hk'].
  assert (k = k') as ->.
  { eapply (tiles_disjoint _ _ _ k k' _ _ b (SegmentMapInv.wf_tiles m Hw)); [..|exact Hb|exact Hb'];
      unfold SegmentMapInv.ranges; rewrite list_lookup_fmap; [by rewrite Hk|by rewrite Hk']. }
  rewrite Hk in Hk'. injection Hk' as ->. congruence.
Qed.

(** What a synced checkpoint commits. *)
Record batch_of (j : Job.t) (batch : CommitBatch.t) : Prop := {
  bo_map : ∃ m k, Job.segments j = Some m ∧ SegmentMap.checkpoint m = Some k ∧
    CommitBatch.selection batch = Checkpoint.selection k;
  bo_job : CommitBatch.job batch = Job.id j;
  bo_generation : CommitBatch.generation batch = Job.generation j;
  bo_ranges : CommitBatch.ranges batch = (λ e, e.1.2) <$> CommitBatch.selection batch }.

Lemma prepared_batch j ticket j1 batch j2 :
  JobInv.wf j → Job.prepare_sync j = (Ok ticket, j1) → Job.acknowledge_sync ticket j1 = (Ok batch, j2) →
  batch_of j2 batch.
Proof.
  intros Hj (m&m1&Hm&Hp&_&->)%map_mut_Ok (m1'&m2&Hm1&Ha&_&->)%map_mut_Ok.
  cbn in Hm1. injection Hm1 as <-. destruct (JobInv.wf_map j Hj m Hm) as (_&Hid&Hg&_).
  apply SegmentMapInv.prepare_sync_Ok in Hp as (_&_&_&->&->).
  apply SegmentMapInv.acknowledge_sync_Ok in Ha as (k&Hk&_&_&_&_&Hsel&->&->). cbn in *. injection Hk as <-.
  split; cbn; [eauto|done|done|]. unfold SegmentMapInv.selection_of. by rewrite <-list_fmap_compose.
Qed.

Lemma batch_closed j batch r :
  JobInv.wf j → batch_of j batch → r ∈ CommitBatch.ranges batch → closed j r ∧ ByteRange.wf r.
Proof.
  intros Hj [(m&k&Hm&Hk&Hsel) _ _ Hr] Hin. destruct (JobInv.wf_map j Hj m Hm) as (Hw&_).
  rewrite Hr, Hsel in Hin. apply list_elem_of_fmap in Hin as ([[id rng] at_]&->&Hin).
  destruct (SegmentMapInv.wf_checkpoint m Hw k Hk) as (_&_&_&_&Hf). rewrite Forall_forall in Hf.
  specialize (Hf _ Hin). cbn in *. split.
  - apply (segment_closed j (Segment.Make id rng (Written at_))); [done| |done]. unfold map_segments. by rewrite Hm.
  - pose proof (tiles_range _ _ _ rng (SegmentMapInv.wf_tiles m Hw)) as Ht. unfold ByteRange.wf.
    destruct Ht as (?&?&?); [apply list_elem_of_fmap; eexists; split; [|exact Hf]; done|].
    pose proof (SegmentMapInv.wf_total m Hw). lia.
Qed.

(** Acknowledging a commit makes exactly the batch durable. *)
Lemma acknowledged_durable j batch j' :
  JobInv.wf j → batch_of j batch → Job.acknowledge_commit batch j = (Ok tt, j') →
  ∃ m m', Job.segments j = Some m ∧ j' = Job.set_segments (Some m') j ∧ SegmentMap.total m' = SegmentMap.total m ∧
    SegmentMap.maximum m' = SegmentMap.maximum m ∧
    ∀ b, covered (durable_of j') b ↔ covered (CommitBatch.ranges batch) b ∨ covered (durable_of j) b.
Proof.
  intros Hj [_ _ _ Hr] (m&m'&Hm&Ha&_&->)%map_mut_Ok. exists m, m'.
  destruct (JobInv.wf_map j Hj m Hm) as (Hw&_). pose proof (acknowledge_commit_ranges m batch tt m' Hw Ha) as Hp.
  pose proof (SegmentMapInv.exec_header (SegmentMapInv.AcknowledgeCommit batch) m) as Hh. cbn in Hh.
  unfold SegmentMapInv.run in Hh. rewrite Ha in Hh. destruct Hh as (_&_&?&?); [done|].
  split_and!; [done..|]. intros b. unfold durable_of. cbn. rewrite Hm, Hr, (covered_perm _ _ b Hp). apply covered_app.
Qed.

Section Checkpoint.
Context (sha256 : list Z → digest32) (c : Coordinator.t) (root : Job.t).
Context (Hretry : RetryPolicy.wf (CoordinatorConfig.retry (Coordinator.config c))).
Local Abbreviation Loose := (Loose sha256 root).
Local Abbreviation Strict := (Strict sha256 root).
Local Abbreviation Sound := (Sound sha256 root).
Local Abbreviation triple := (triple_of sha256 root false).
Local Abbreviation keeps := (keeps sha256 root).
Local Abbreviation steady := (steady sha256).
Local Abbreviation waited := (waited sha256).

(** ** Calls of the map *)


(** A call that gives no lease back and commits nothing. *)
Lemma Sound_call o mo s :
  Sound s → map_op o = Some mo → (∀ batch, o ≠ AcknowledgeCommit batch) → op_typed o →
  (∀ i l, leases s !! i = Some l → ¬ gives_back mo l) → Sound (set_job (after o (job s)) s).
Proof.
  intros [Hs Hf] Hmo Hn Hty Hg. split; [by eapply Strict_call|]. unfold failed_ok. cbn.
  by rewrite (sj_state _ _ (segment_call_same o mo (job s) Hmo)).
Qed.

Lemma triple_call {A} o mo (m : st Job.t DomainError A) j0 :
  (∀ j, (m j).2 = after o j) → map_op o = Some mo → (∀ batch, o ≠ AcknowledgeCommit batch) → op_typed o →
  (∀ l, ¬ gives_back mo l) →
  triple (λ s, Sound s ∧ job s = j0) (on_job m) (λ a s, Sound s ∧ m j0 = (Ok a, job s)).
Proof.
  intros Hm Hmo Hn Hty Hg. apply triple_on_job. intros s [Hs <-].
  pose proof (Sound_call o mo s Hs Hmo Hn Hty ltac:(auto)) as Hs'. specialize (Hm (job s)).
  destruct (m (job s)) as [[a|e] j'] eqn:Hr; cbn in Hm; subst j'; [done|by apply Sound_loose].
Qed.
Lemma kept_call {A} o mo (m : st Job.t DomainError A) :
  (∀ j, (m j).2 = after o j) → map_op o = Some mo → (∀ batch, o ≠ AcknowledgeCommit batch) → op_typed o →
  (∀ l, ¬ gives_back mo l) → keeps (on_job m).
Proof.
  intros. apply triple_at. intros s0 Hs0. eapply triple_conseq; [by eapply (triple_call o mo m (job s0))|by intros s ->|].
  by intros a s [? _].
Qed.
Lemma kept_abandon : keeps (on_job Job.abandon_checkpoint).
Proof. eapply (kept_call AbandonCheckpoint); [done..|by intros ? []]. Qed.
Lemma kept_discard_unsynced : keeps discard_unsynced.
Proof. eapply (kept_call DiscardUnsynced); [done..|by intros ? []]. Qed.

(** ** Evidence *)

(** Digests of bytes no connection may write. *)
Definition evidence (es : list DurableExtent.t) (s : session_state) : Prop :=
  ∀ e, e ∈ es → closed (job s) (DurableExtent.range e) ∧ ByteRange.wf (DurableExtent.range e) ∧
    proved sha256 (disk s) (jid s) (Generation.get (Job.generation (job s))) e.

(** A session with its job's segments, and the digests taken so far. *)
Definition proving (j : Job.t) (es : list DurableExtent.t) (s : session_state) : Prop :=
  (Sound s ∧ job s = j) ∧ evidence es s.

Lemma evidence_steady es s s' :
  Strict s → Job.segments (job s) ≠ None → evidence es s → steady s s' → evidence es s'.
Proof.
  intros Hs Hm He Hst e Hin. destruct (He e Hin) as (Hc&Hwf&Hp). unfold jid. rewrite (y_job _ _ _ Hst).
  split_and!; [done|done|]. apply (y_proved _ _ _ Hst); [done|done| |done].
  intros p f Hw. destruct (st_writer _ _ s Hs p f Hw) as [?|[-> _]]; done.
Qed.
Lemma firm_proving j es : Job.segments j ≠ None → firm sha256 root (proving j es).
Proof.
  intros Hm. pose proof (firm_job sha256 root _ j (firm_Sound sha256 root)) as [HL HP].
  split; [by intros s [? _]; apply HL|]. intros s s' [Hs He] Hst Hl.
  split; [by eapply HP|]. destruct Hs as [[Hs _] <-]. by eapply evidence_steady.
Qed.

Lemma hash_range_Ok r w d w' :
  FilePart.hash_range sha256 r w = (Ok d, w') → ByteRange.wf r →
  FilePart.poisoned (FilePart.part w) = false ∧ ByteRange.end_ r ≤ PartSpec.size (FilePart.spec (FilePart.part w)) ∧
  d = sha256 (slice (ByteRange.start r) (ByteRange.len r) (Fs.content (FilePart.fs w) (FilePart.file (FilePart.part w)))) ∧
  same (FilePart.fs w) (FilePart.fs w').
Proof.
  intros Hr Hwf. unfold FilePart.hash_range, FilePart.healthy in Hr. open_part.
  destruct (FilePart.poisoned (FilePart.part w)) eqn:Hp; [done|]. cbn in Hr.
  case_bool_decide as Hb; [done|]. cbn in Hr. unfold ByteRange.wf in Hwf.
  apply hash_Ok in Hr as (?&_&?); [|unfold ByteRange.len; lia..]. split_and!; [done|lia|done|done].
Qed.

(** A digest the lane answers holds of the part. *)
Lemma ask_hash r s d s' :
  Loose s → ByteRange.wf r → ask sha256 (Command.Hash r 0) s = (Ok (Some (Digest (Ok d))), s') →
  ∃ p f, writer s = Some (p, f) ∧
    proved sha256 (disk s') (jid s) (Generation.get (PartSpec.generation (FilePart.spec p))) (DurableExtent.Make r d).
Proof.
  intros Hs Hwf. unfold ask. destruct (writer s) as [[p f]|] eqn:Hw; [|done]. cbn. unfold guarded, lane. cbn.
  destruct f as [e|]; [done|]. destruct (FilePart.hash_range sha256 r _) as [[x|e] w'] eqn:Hh; [|done].
  cbn. intros [= <- <-]. exists p, None. split; [done|]. apply hash_range_Ok in Hh as (Hpo&Hend&->&(Hn&Hd&_)); [|done].
  destruct (lo_writer _ _ s Hs p None Hw) as ([Hinv Hnamed]&Hid&_). cbn in *. destruct (Hnamed Hpo) as [Hname _].
  intros ino. cbn. rewrite Hn. unfold Fs.content in *. rewrite Hd. intros Hino.
  assert (Part (jid s) (Generation.get (PartSpec.generation (FilePart.spec p))) = part_name (FilePart.spec p)) as E
    by (unfold part_name, jid; by rewrite Hid).
  rewrite E in Hino. destruct Hinv. cbn in *. rewrite inv_path in Hname. rewrite Hname in Hino. injection Hino as <-.
  split; [|done]. unfold bytes_of, Fs.content in inv_length. cbn in *. lia.
Qed.

Lemma triple_lane_hash j es r :
  Job.segments j ≠ None → closed j r → ByteRange.wf r →
  triple (proving j es) (lane_hash sha256 c r)
    (λ a s, match a with Ok d => proving j (es ++ [DurableExtent.Make r d]) s | Err _ => proving j es s end).
Proof.
  intros Hm Hc Hwf. apply triple_read. intros s0 Hs0. apply triple_if; intros _; [by apply triple_ret; intros s ->|].
  apply (triple_pre _ _ _ (proving j es)); [|by intros s ->]. clear s0 Hs0.
  pose proof (firm_proving j) as Hfirm.
  set (Q := λ a s, match a with Some (Digest (Ok d)) => proving j (es ++ [DurableExtent.Make r d]) s | _ => proving j es s end).
  apply (triple_bind _ _ _ Q).
  - apply triple_during; [by apply firm_stable, Hfirm| |].
    { intros [[|[]|]|]; cbn; by apply firm_stable, Hfirm. }
    intros s Hs. pose proof (proj1 (Hfirm es Hm) s Hs) as Hl.
    pose proof (ask_kept sha256 root (Command.Hash r 0) s Hl I) as (Hl'&Hst&Hfu&Hr).
    pose proof (proj2 (Hfirm es Hm) s _ Hs Hst Hl') as Hs'.
    destruct (ask sha256 (Command.Hash r 0) s) as [a s'] eqn:Ha. cbn in *. rewrite Hr in *.
    split; [|done]. destruct (match writer s with None => None | Some _ => _ end) as [[|[d|]|]|] eqn:Hans; try exact Hs'.
    cbn. apply (ask_hash r s d s') in Ha as (p&f&Hw&Hp); [|done|done]. destruct Hs as [[[Hs _] Hj] _].
    destruct Hs' as [Hs' He']. split; [done|]. intros e [He|He%list_elem_of_singleton]%elem_of_app; [by apply He'|].
    subst e. destruct Hs' as [Hs' Hj']. rewrite Hj'. split_and!; [done|done|]. cbn.
    destruct (st_writer _ _ s Hs p f Hw) as [Hn|[Hg _]]; [congruence|]. unfold jid in *. rewrite Hj'. rewrite Hj in Hp, Hg.
    by rewrite <-Hg.
  - intros a. apply triple_ret. unfold Q. intros s. by destruct a as [[|[]|]|].
Qed.

Lemma triple_hash_ranges j rs :
  Job.segments j ≠ None → (∀ r, r ∈ rs → closed j r ∧ ByteRange.wf r) → ∀ es,
  triple (proving j es) (hash_ranges sha256 c rs)
    (λ found s, match found with
       | None => Sound s
       | Some new => proving j (es ++ new) s ∧ ranges new = rs
       end).
Proof.
  intros Hm. induction rs as [|r rs IH]; intros Hrs es; cbn.
  - apply triple_ret. intros s Hs. by rewrite app_nil_r.
  - destruct (Hrs r) as [Hc Hwf]; [left|]. eapply triple_bind; [by apply triple_lane_hash|]. intros [d|e]; cycle 1.
    { apply triple_ret. by intros s [[? _] _]. }
    eapply triple_bind; [apply IH; intros; apply Hrs; by right|]. intros [new|]; cbn; apply triple_ret; [|done].
    intros s [Hs Hr]. rewrite <-app_assoc in Hs. split; [done|]. change (r :: ranges new = r :: rs). by rewrite Hr.
Qed.

(** ** The commit *)

(** Until the commit is acknowledged the database may hold the extents, or not. *)
Record uncertain (j : Job.t) (es : list DurableExtent.t) (s : session_state) : Prop := {
  uc_loose : Loose s;
  uc_job : job s = j;
  uc_recorded : recorded root (db s) j;
  uc_rows : ∀ b, covered (row_ranges (db s) (jid s)) b → covered (ranges es) b ∨ covered (durable_of j) b;
  uc_writer : ∀ p f, writer s = Some (p, f) →
    PartSpec.generation (FilePart.spec p) = Job.generation j ∧
    fst <$> Job.plan j = Some (PartSpec.size (FilePart.spec p));
  uc_failed : failed_ok s;
  uc_evidence : evidence es s }.

Lemma proving_uncertain j es s : Job.segments j ≠ None → proving j es s → uncertain j es s.
Proof.
  intros Hm [[[Hs Hf] <-] He]. pose proof Hs as [Hl Hrec Hrows Hw]. split; try done; [auto|].
  intros p f Hp. by destruct (Hw p f Hp).
Qed.

Lemma stable_uncertain j es : stable sha256 root (uncertain j es).
Proof.
  split; [apply uc_loose|]. intros s s' [Hl Hj Hrec Hrows Hw Hf He] Hwt Hl'.
  pose proof (w_job _ _ _ Hwt) as Ej. pose proof (w_repository _ _ _ Hwt) as Er.
  split; unfold db, jid in *; rewrite ?Er, ?Ej; try done.
  - intros p f Hp. pose proof (w_writer _ _ _ Hwt) as Ew. rewrite Hp in Ew.
    destruct (writer s) as [[p' f']|]; [|done]. cbn in Ew. injection Ew as ->. by eapply Hw.
  - unfold failed_ok. by rewrite Ej, (w_failed _ _ _ Hwt).
  - intros e Hin. destruct (He e Hin) as (Hc&Hwf&Hp). unfold jid. rewrite Ej. split_and!; [done|done|].
    apply (w_proved _ _ _ Hwt); [done|done| |done]. intros p f Hpw. rewrite Hj. by destruct (Hw p f Hpw) as [-> _].
Qed.

(** One attempt: nothing, or the extents recorded. *)
Lemma triple_commit_extents j es :
  triple (uncertain j es) (Coordinator.repository sha256 c (commit_extents (Job.id j) (Job.generation j) es))
    (λ r s, uncertain j es s ∧ (is_ok r = true → ∀ b, covered (ranges es) b → covered (row_ranges (db s) (jid s)) b)).
Proof.
  apply triple_repository; [apply stable_uncertain|..].
  { intros r. split; [intros s [? _]; by apply stable_uncertain in H|]. intros s s' [Hu Hr] Hw Hl.
    split; [by eapply stable_uncertain|]. unfold db, jid. by rewrite (w_repository _ _ _ Hw), (w_job _ _ _ Hw). }
  intros s r repo' Hu Hp. pose proof Hu as [Hl Hj Hrec Hrows Hw Hf He].
  apply port_run in Hp as [[Hd Hr]|(a&Ha&Hr)]; [| |].
  - assert (uncertain j es (set_repository repo' s)) as Hu'.
    { split; unfold db, jid in *; cbn; rewrite ?Hd; try done. apply Loose_db; rewrite ?Hd; [done|apply (lo_db _ _ s Hl)|by left; rewrite Hj|].
      intros row Hrow. split_and!; [by apply (lo_closed _ _ s Hl)|by apply (lo_proved _ _ s Hl)|].
      intros p f Hp. by apply (lo_writer _ _ s Hl p f Hp). }
    split; [done|]. by rewrite Hr.
  - destruct a. pose proof (lo_db _ _ s Hl) as Hdb.
    destruct (durable_rows _ _ _ _ _ Hdb Ha) as (Hnew&Hold&Hcov).
    pose proof (durable_wf (Job.id j) (Job.generation j) es (db s) Hdb) as Hdb'. unfold db in Hdb'. rewrite Ha in Hdb'. cbn in Hdb'.
    pose proof (durable_recorded root _ _ _ _ _ _ Hdb Ha Hrec) as Hrec'.
    assert (JobId.get (Job.id j) = jid s) as Eid by (unfold jid; by rewrite Hj). rewrite Eid in *.
    assert (Loose (set_repository repo' s)) as Hl'.
    { apply Loose_db; [done|done|left; by rewrite Hj|]. intros row Hrow.
      destruct (Hnew row Hrow) as [Hrow'|[Hg Hin]].
      - split_and!; [by apply (lo_closed _ _ s Hl)|by apply (lo_proved _ _ s Hl)|].
        intros p f Hp. by apply (lo_writer _ _ s Hl p f Hp).
      - destruct (He _ Hin) as (Hc&_&Hpr). rewrite Hj in Hc. rewrite Hg, Hj in *. split_and!; [exact Hc|exact Hpr|].
        intros p f Hp. by destruct (Hw p f Hp) as [-> _]. }
    split; [|done || (intros _ b Hb; apply Hcov; by right)].
    split; try done. unfold db. cbn. intros b (rg&(row&->&Hrow)%list_elem_of_fmap&Hb).
    destruct (Hnew row Hrow) as [Hrow'|[_ Hin]]; [apply Hrows; exists (row_range row); split; [by apply list_elem_of_fmap_2|done]|].
    left. exists (row_range row). split; [|done]. apply list_elem_of_fmap. by exists (extent_at row).
  - intros d e d' Hx. apply durable_run in Hx as [(?&_&->)|(?&?&?&?&?&Hbad&_)]; [done|]. cbn in Hbad. discriminate.
Qed.

(** A call on the map from here, refused or not, leaves the session loose. *)
Lemma uncertain_abandon j es s : uncertain j es s → Loose (set_job (Job.abandon_checkpoint (job s)).2 s).
Proof.
  intros [Hl Hj Hrec _ _ _ _]. rewrite <-Hj in Hrec. pose proof (lo_job _ _ s Hl) as Hwf.
  change (Job.abandon_checkpoint (job s)).2 with (after AbandonCheckpoint (job s)).
  pose proof (segment_call_same AbandonCheckpoint SegmentMapInv.DiscardCheckpoint (job s) eq_refl) as Hsame.
  assert (map_segments (after AbandonCheckpoint (job s)) = map_segments (job s)) as Hsegs.
  { destruct (segment_call AbandonCheckpoint _ (job s) eq_refl) as [->|(m&Hm&->&_)]; [done|].
    unfold map_segments. cbn. by rewrite Hm. }
  assert (durable_of (after AbandonCheckpoint (job s)) = durable_of (job s)) as Hd
    by (by eapply segment_call_durable).
  apply Loose_job; [done|by apply after_wf|apply Hsame|apply Hsame| | |].
  - left. eapply recorded_same; [exact Hrec|exact Hsame|].
    destruct (segment_call AbandonCheckpoint _ (job s) eq_refl) as [->|(m&Hm&E&_)]; [apply Hrec|]. rewrite E.
    eapply saved_segments; [apply Hrec|done|done|done|]. intros b Hb.
    apply (saved_bytes _ _ (rc_saved _ _ _ Hrec)). unfold durable_of. by rewrite Hm.
  - intros row Hrow q b. rewrite Hsegs. by apply (lo_closed _ _ s Hl).
  - intros i l Hi. unfold held. rewrite Hsegs. by eapply (lo_leases _ _ s Hl).
Qed.

Lemma triple_give_up j es error Q :
  triple (uncertain j es) (_ ← on_job Job.abandon_checkpoint; fail (A:=()) (RunError.Commit error)) Q.
Proof.
  apply (triple_bind _ _ _ (λ _, Loose)); [|intros; by apply triple_fail].
  apply triple_on_job. intros s Hu. pose proof (uncertain_abandon _ _ _ Hu) as Hl.
  by destruct (Job.abandon_checkpoint (job s)) as [[] j'].
Qed.

Lemma triple_commit_retry j batch es again :
  batch_of j batch →
  triple (uncertain j es) (commit_retry sha256 c again batch es)
    (λ _ s, uncertain j es s ∧ ∀ b, covered (ranges es) b → covered (row_ranges (db s) (jid s)) b).
Proof.
  intros Hb. induction again as [|again IH]; cbn; rewrite (bo_job _ _ Hb), (bo_generation _ _ Hb).
  all: eapply triple_bind; [apply triple_commit_extents|]; intros [[]|error].
  all: try (apply triple_ret; intros s [Hu Hr]; split; [done|by apply Hr]).
  all: destruct error; try (eapply triple_pre; [apply triple_give_up|by intros s [? _]]).
  eapply triple_pre; [|intros s [Hu _]; exact Hu].
  eapply triple_bind; [apply triple_wait, stable_uncertain|]. by intros [].
Qed.

(** Acknowledged: what was written is durable, and the database agrees again. *)
Lemma triple_acknowledge j batch es :
  batch_of j batch → ranges es = CommitBatch.ranges batch →
  triple (λ s, uncertain j es s ∧ ∀ b, covered (ranges es) b → covered (row_ranges (db s) (jid s)) b)
    (on_job (Job.acknowledge_commit batch)) (λ _, Sound).
Proof.
  intros Hb Hes. apply triple_on_job. intros s [[Hl Hj Hrec Hrows Hw Hf He] Hcov].
  pose proof (lo_job _ _ s Hl) as Hwf. rewrite Hj in *.
  destruct (Job.acknowledge_commit batch j) as [[[]|e] j'] eqn:Ha; cycle 1.
  { apply map_mut_Err in Ha as ->; [rewrite <-Hj; by destruct s|].
    intros m e' m' Hx. apply (SegmentMapInv.exec_atomic (SegmentMapInv.AcknowledgeCommit batch) m e').
    unfold SegmentMapInv.exec, SegmentMapInv.run. by rewrite Hx. }
  destruct (acknowledged_durable j batch j' Hwf Hb Ha) as (m&m'&Hm&Ej&Ht&Hmx&Hd).
  assert (after (AcknowledgeCommit batch) j = j') as Haf by (cbn; by rewrite Ha).
  pose proof (segment_call_same (AcknowledgeCommit batch) _ j eq_refl) as Hsame. rewrite Haf in Hsame.
  assert (JobInv.wf j') as Hwf' by (rewrite <-Haf; by apply after_wf).
  assert (jid s = JobId.get (Job.id j)) as Eid by (unfold jid; by rewrite Hj).
  assert (saved (db s) j') as Hsv.
  { rewrite Ej. eapply saved_segments; [apply Hrec|done|done|done|]. intros b Hb'. rewrite <-Eid.
    assert (covered (durable_of j') b) as Hb'' by (rewrite Ej; exact Hb').
    apply Hd in Hb'' as [Hb''|Hb'']; [apply Hcov; by rewrite Hes|]. rewrite Eid.
    by apply (saved_bytes _ _ (rc_saved _ _ _ Hrec)). }
  assert (∀ b, covered (row_ranges (db s) (jid s)) b → covered (durable_of j') b) as Hrows'.
  { intros b Hb'. apply Hd. rewrite <-Hes. by apply Hrows. }
  pose proof (recorded_same root _ _ _ Hrec Hsame Hsv) as Hrec'.
  assert (jid (set_job j' s) = jid s) as Ejid by (rewrite Eid; unfold jid; cbn; by rewrite (sj_id _ _ Hsame)).
  split.
  - split; rewrite ?Ejid; cbn; [|done|done|].
    + apply Loose_job; rewrite ?Hj; [done|done|apply Hsame|apply Hsame|by left|..].
      * intros row Hrow. apply durable_closed; [done|]. intros b Hb'. apply Hrows'. by eapply row_covers.
      * intros i l Hi. rewrite <-Haf. eapply segment_call_held; [done|done| |by intros []].
        rewrite <-Hj. by eapply (lo_leases _ _ s Hl).
    + intros p f Hp. right. rewrite (sj_generation _ _ Hsame), (sj_plan _ _ Hsame). by eapply Hw.
  - unfold failed_ok in *. cbn. rewrite (sj_state _ _ Hsame), <-Hj. exact Hf.
Qed.

(** ** The whole checkpoint *)

Lemma kept_failed_checkpoint : keeps (_ ← on_job Job.abandon_checkpoint; on_storage_failure sha256 c).
Proof. apply kept_bind; [apply kept_abandon|]. intros []. apply kept_on_storage_failure. Qed.

Lemma triple_recorded j batch :
  batch_of j batch →
  triple (λ s, Sound s ∧ job s = j)
    (found ← hash_ranges sha256 c (CommitBatch.ranges batch);
     match found with
     | None => _ ← on_job Job.abandon_checkpoint; on_storage_failure sha256 c
     | Some extents =>
         _ ← commit_retry sha256 c 2 batch extents;
         _ ← on_job (Job.acknowledge_commit batch);
         modify (set_unsynced 0)
     end) (λ _, Sound).
Proof.
  intros Hb. apply triple_at. intros s0 [Hs0 Hj0].
  assert (Job.segments j ≠ None) as Hm by (destruct (bo_map _ _ Hb) as (m&?&->&_); done).
  assert (JobInv.wf j) as Hj by (rewrite <-Hj0; apply (lo_job _ _ s0 (Sound_loose _ _ s0 Hs0))).
  apply (triple_pre _ _ _ (proving j [])); [|by intros s ->; split; [done|]; intros e ?%elem_of_nil].
  eapply triple_bind.
  { apply triple_hash_ranges; [done|]. intros r Hr. by eapply batch_closed. }
  intros [es|]; [|apply kept_failed_checkpoint]. cbn beta iota. apply triple_pure. intros Hes.
  eapply triple_bind; [eapply triple_pre; [by apply triple_commit_retry|]; intros s; by apply proving_uncertain|].
  intros []. eapply triple_bind; [by apply triple_acknowledge|]. intros []. apply kept_unsynced.
Qed.

Definition checkpoint_body : session unit :=
  s ← gets (λ s, s);
  _ ← lift (ok_or (writer s) (Halt.Failed (RunError.Writer WriterError.Closed)));
  ticket ← on_job Job.prepare_sync;
  synced ← lane_sync sha256 c;
  if negb (is_ok synced) then _ ← on_job Job.abandon_checkpoint; on_storage_failure sha256 c else
  batch ← on_job (Job.acknowledge_sync ticket);
  found ← hash_ranges sha256 c (CommitBatch.ranges batch);
  match found with
  | None => _ ← on_job Job.abandon_checkpoint; on_storage_failure sha256 c
  | Some extents =>
      _ ← commit_retry sha256 c 2 batch extents;
      _ ← on_job (Job.acknowledge_commit batch);
      modify (set_unsynced 0)
  end.

Lemma checkpoint_body_lt n :
  triple (λ s, Sound s ∧ (fuel s ≤ n)%nat) checkpoint_body (λ _ s, Sound s ∧ (fuel s < n)%nat).
Proof.
  apply triple_read. intros s0 [Hs0 Hn]. set (j0 := job s0).
  apply (triple_pre _ _ _ (λ s, (Sound s ∧ job s = j0) ∧ (fuel s ≤ n)%nat)); [|by intros s ->].
  eapply triple_bind; [apply triple_bound, triple_some; intros s [? _]; by apply Sound_loose|]. intros w. cbn beta.
  apply (triple_bind _ _ _ (λ ticket s, (Sound s ∧ Job.prepare_sync j0 = (Ok ticket, job s)) ∧ (fuel s ≤ n)%nat)).
  { apply triple_bound. apply (triple_pre _ _ _ (λ s, Sound s ∧ job s = j0)); [|by intros s [? _]].
    eapply (triple_call PrepareSync); [done..|]. by intros ? []. }
  intros ticket. apply triple_at. intros s1 [[Hs1 Hprep] Hn1].
  apply (triple_pre _ _ _ (λ s, (Sound s ∧ job s = job s1) ∧ (fuel s ≤ n)%nat)); [|by intros s ->].
  eapply triple_bind; [apply triple_lane_sync_lt, firm_job, firm_Sound|]. intros synced. apply triple_bound_lt.
  apply triple_if; intros _; [eapply triple_pre; [apply kept_failed_checkpoint|by intros s [? _]]|].
  apply (triple_bind _ _ _ (λ batch s, Sound s ∧ Job.acknowledge_sync ticket (job s1) = (Ok batch, job s))).
  { eapply (triple_call (AcknowledgeSync ticket)); [done..|]. by intros ? []. }
  intros batch. apply triple_at. intros s2 [Hs2 Hack].
  eapply triple_pre; [apply (triple_recorded (job s2))|by intros s ->].
  eapply (prepared_batch j0); [apply (lo_job _ _ s0 (Sound_loose _ _ s0 Hs0))|done|done].
Qed.

Lemma checkpoint_eq s :
  has_unsynced s = true → storage_failed s = false → checkpoint sha256 c s = checkpoint_body s.
Proof.
  intros Hu Hf. unfold checkpoint, checkpoint_body. unfold mbind at 1 6, st_bind at 1 6, gets. cbn beta iota.
  by rewrite Hu, Hf.
Qed.

(** Nothing to do, or less left to happen. *)
Lemma triple_checkpoint n :
  triple (λ s, Sound s ∧ has_unsynced s = true ∧ storage_failed s = false ∧ (fuel s ≤ n)%nat) (checkpoint sha256 c)
    (λ _ s, Sound s ∧ (fuel s < n)%nat).
Proof.
  intros s (Hs&Hu&Hf&Hn). rewrite checkpoint_eq by done. by apply checkpoint_body_lt.
Qed.
Lemma kept_checkpoint : keeps (checkpoint sha256 c).
Proof.
  intros s Hs. destruct (has_unsynced s) eqn:Hu, (storage_failed s) eqn:Hf.
  2:{ rewrite checkpoint_eq by done. pose proof (checkpoint_body_lt (fuel s) s (conj Hs (le_n _))) as H.
      destruct (checkpoint_body s) as [[] ?]; naive_solver. }
  all: unfold checkpoint; unfold mbind at 1, st_bind at 1, gets; cbn beta iota; rewrite ?Hu, ?Hf; by split.
Qed.
End Checkpoint.
