(* ===== verification/SessionWorkers.v ===== *)
(** * A session's connections

    Joining the ones that ended, splitting and leasing for new ones, and the turns of a
    transfer. *)

From S2P Require Import Prelude.
From S2P Require Import Domain.
From S2P Require Import Segments.
From S2P Require Import SegmentsInv.
From S2P Require Import SegmentsRestore.
From S2P Require Import SegmentsThm.
From S2P Require Import JobMachine.
From S2P Require Import JobInv.
From S2P Require Import JobThm.
From S2P Require Import Retry.
From S2P Require Import Admission.
From S2P Require Import Persistence.
From S2P Require Import Transfer.
From S2P Require Import PersistenceInv.
From S2P Require Import TransferInv.
From S2P Require Import TransferThm.
From S2P Require Import PersistenceThm.
From S2P Require Import Files.
From S2P Require Import FilesInv.
From S2P Require Import StorageFile.
From S2P Require Import StorageInv.
From S2P Require Import StorageSteps.
From S2P Require Import StorageNames.
From S2P Require Import StorageThm.
From S2P Require Import Buffers.
From S2P Require Import Writer.
From S2P Require Import SessionLane.
From S2P Require Import Ports.
From S2P Require Import Coordinator.
From S2P Require Import SessionInv.
From S2P Require Import SessionJob.
From S2P Require Import SessionSteps.
From S2P Require Import SessionCommands.
From S2P Require Import SessionDisk.
From S2P Require Import SessionCheckpoint.
Import Session.

Section Workers.
Context (sha256 : list Z → digest32) (c : Coordinator.t) (root : Job.t).
Context (Hretry : RetryPolicy.wf (CoordinatorConfig.retry (Coordinator.config c))).
Local Abbreviation Loose := (Loose sha256 root).
Local Abbreviation Strict := (Strict sha256 root).
Local Abbreviation Sound := (Sound sha256 root).
Local Abbreviation triple_of := (triple_of sha256 root).
Local Abbreviation triple := (triple_of false).
Local Abbreviation keeps := (keeps sha256 root).

(** ** Joining *)

(** A task just taken from the ones that ended: its lease is still in the book. *)
Definition joined (id : nat) (s : session_state) : Prop :=
  Sound s ∧ id ∉ (workers s).*1 ++ (finished s).*1.

Lemma lessens_joins s s' : lessens false s s' → (joins s' ≤ joins s)%nat.
Proof. intros [Hf Hr]. specialize (Hr eq_refl). unfold joins. unfold running in Hr. lia. Qed.
Lemma triple_joins {A} P (m : session A) Q n :
  triple P m Q → triple (λ s, P s ∧ (joins s ≤ n)%nat) m (λ a s, Q a s ∧ (joins s ≤ n)%nat).
Proof.
  intros Hm s [Hs Hn]. specialize (Hm s Hs). destruct (m s) as [[] ?]; [|done]. destruct Hm as [? Hl].
  pose proof (lessens_joins _ _ Hl). split_and!; [done|lia|done].
Qed.
Lemma triple_joins_lt {A} P (m : session A) Q n :
  triple P m Q → triple (λ s, P s ∧ (joins s < n)%nat) m (λ a s, Q a s ∧ (joins s < n)%nat).
Proof.
  intros Hm s [Hs Hn]. specialize (Hm s Hs). destruct (m s) as [[] ?]; [|done]. destruct Hm as [? Hl].
  pose proof (lessens_joins _ _ Hl). split_and!; [done|lia|done].
Qed.

Lemma Loose_joined id r rest s :
  Loose s → finished s = (id, r) :: rest → Loose (set_tasks (workers s) rest s).
Proof.
  intros Hl Hfin. destruct Hl. split; try done; cbn.
  - rewrite Hfin in lo_tasks. cbn in lo_tasks. eapply sublist_NoDup; [exact lo_tasks|].
    apply sublist_app; [done|]. by apply sublist_cons.
  - intros i x Hin. apply (lo_finished i x). rewrite Hfin. by right.
Qed.
Lemma Sound_joined id r rest s :
  Sound s → finished s = (id, r) :: rest → joined id (set_tasks (workers s) rest s).
Proof.
  intros [Hs Hf] Hfin. pose proof (st_loose _ _ s Hs) as Hl. pose proof (Loose_joined _ _ _ _ Hl Hfin) as Hl'. split.
  - split; [|done]. destruct Hs. by split.
  - cbn. pose proof (lo_tasks _ _ s Hl) as Hnd. rewrite Hfin in Hnd. cbn in Hnd. rewrite <-Permutation_middle in Hnd.
    by apply NoDup_cons in Hnd as [? _].
Qed.
Lemma triple_join_next I J n :
  (∀ id r rest s, I s → finished s = (id, r) :: rest → J id (set_tasks (workers s) rest s)) →
  triple (λ s, I s ∧ (joins s ≤ n)%nat) join_next
    (λ r s, match r with Some done => J done.1 s ∧ (joins s < n)%nat | None => (I s ∧ finished s = []) ∧ (joins s ≤ n)%nat end).
Proof.
  intros HJ s [Hs Hn]. unfold join_next. destruct (finished s) as [|[id r] rest] eqn:Hfin; [by split; [|apply lessens_same]|].
  pose proof (HJ id r rest s Hs Hfin) as Hj. unfold joins in *. rewrite Hfin in Hn. cbn in *.
  split; [split; [done|cbn; change (fuel (set_tasks (workers s) rest s)) with (fuel s); lia]|].
  split; [exact (le_n _)|]. intros _. unfold running. cbn. rewrite Hfin. cbn. lia.
Qed.

(** Every connection joined: nobody works. *)
Lemma triple_join_all_of I J (on_done : nat * result Failure.t unit → session unit) :
  stable sha256 root I → (∀ id r rest s, I s → finished s = (id, r) :: rest → J id (set_tasks (workers s) rest s)) →
  (∀ id r, triple (J id) (on_done (id, r)) (λ _, I)) →
  triple I (join_all sha256 c on_done) (λ _ s, I s ∧ quiet s).
Proof.
  intros HI HJ Hd s Hs. apply (loop_triple sha256 root joins I); [unfold joins, fuel; lia| |done]. clear s Hs. intros n.
  eapply triple_bind; [by apply triple_join_next|]. intros [[id r]|]; cbn [fst].
  - eapply triple_bind; [apply triple_joins_lt, Hd|]. intros []. by apply triple_ret.
  - apply triple_read. intros s0 [[Hs0 Hfin] Hn]. case_decide as Hw.
    + apply triple_ret. intros s ->. done.
    + apply (triple_bind _ _ _ (λ _ s, I s ∧ (joins s < n)%nat)); [|intros []; by apply triple_ret].
      intros s ->. pose proof (triple_await sha256 c root I (fuel s0) HI s0 (conj Hs0 (le_n _))) as Ha.
      destruct (await sha256 c s0) as [[[]|] s']; [|done]. destruct Ha as [[Hs' Hlt] Hle]. split; [|done]. split; [done|].
      destruct Hle as [_ Hle]. specialize (Hle eq_refl). unfold joins, running in *. lia.
Qed.
Lemma triple_join_all (on_done : nat * result Failure.t unit → session unit) :
  (∀ id r, triple (joined id) (on_done (id, r)) (λ _, Sound)) →
  triple Sound (join_all sha256 c on_done) (λ _ s, Sound s ∧ quiet s).
Proof. intros Hd. by apply (triple_join_all_of Sound joined); [apply stable_Sound|apply Sound_joined|]. Qed.

(** ** The end of a connection *)

(** A lease out of the book, which its segment still holds. *)
Definition returned (l : Lease.t) (s : session_state) : Prop :=
  Sound s ∧ ∀ i l', leases s !! i = Some l' → Lease.segment l ≠ Lease.segment l'.

Lemma joined_returned id l s :
  joined id s → leases s !! id = Some l → returned l (set_leases (delete id (leases s)) s).
Proof.
  intros [[Hs Hf] Hid] Hl. pose proof (st_loose _ _ s Hs) as HL.
  assert (Loose (set_leases (delete id (leases s)) s)) as HL'.
  { destruct HL. split; try done; cbn.
    - intros i l' [_ ?]%lookup_delete_Some. by eapply lo_leases.
    - intros i i' k k' [_ ?]%lookup_delete_Some [_ ?]%lookup_delete_Some. by eapply lo_once.
    - intros i w Hin. destruct (lo_workers i w Hin). rewrite lookup_delete_ne; [done|].
      intros ->. apply Hid, elem_of_app. left. apply list_elem_of_fmap. by exists (i, w).
    - intros i r Hin. rewrite lookup_delete_ne; [by eapply lo_finished|].
      intros ->. apply Hid, elem_of_app. right. apply list_elem_of_fmap. by exists (i, r).
    - intros i l' [_ ?]%lookup_delete_Some. by eapply lo_spawned. }
  split.
  - split; [|done]. destruct Hs. by split.
  - cbn. intros i l' [Hne Hi]%lookup_delete_Some E. apply Hne. by eapply (lo_once _ _ s HL).
Qed.

Lemma kept_give_back {A} o mo l (m : st Job.t DomainError A) :
  (∀ j, (m j).2 = after o j) → map_op o = Some mo → (∀ batch, o ≠ AcknowledgeCommit batch) → op_typed o →
  (∀ l', gives_back mo l' → Lease.segment l = Lease.segment l') →
  triple (returned l) (on_job m) (λ _, Sound).
Proof.
  intros Hm Hmo Hn Hty Hg. apply triple_on_job. intros s [Hs Hl].
  assert (Sound (set_job (after o (job s)) s)) as Hs'.
  { eapply Sound_call; [done..|]. intros i l' Hi Hgb. eapply Hl; [done|by apply Hg]. }
  specialize (Hm (job s)). destruct (m (job s)) as [[a|e] j']; cbn in Hm; subst j'; [done|by apply Sound_loose].
Qed.

Lemma triple_on_worker id r : triple (joined id) (on_worker sha256 c (id, r)) (λ _, Sound).
Proof.
  apply triple_read. intros s0 Hs0. cbn [fst snd].
  eapply triple_bind; [apply triple_some; intros s ->; apply Sound_loose, Hs0|]. intros l. cbn beta. apply triple_pure. intros Hl.
  apply (triple_bind _ _ _ (λ _, returned l)).
  { apply triple_modify. intros s ->. split; [by apply joined_returned|done]. }
  intros []. destruct r as [[]|failure].
  - eapply triple_bind; [by apply (kept_give_back (MarkWritten l) (SegmentMapInv.MarkWritten l) l)|]. intros [].
    apply kept_modify. intros s. split_and!; try done. by split; auto.
  - eapply triple_bind; [by apply (kept_give_back (Release l) (SegmentMapInv.Release l) l)|]. intros [].
    destruct failure as [|error|[]|].
    all: first [apply kept_ret | by apply kept_on_transport_error | by apply kept_on_storage_failure | by apply kept_stop_with].
Qed.

(** ** Splitting *)

Lemma kept_split_or_full id at_ : u64 at_ → keeps (split_or_full id at_).
Proof.
  intros Hat s Hs. unfold split_or_full.
  assert (Sound (set_job (Job.split_pending id at_ (job s)).2 s)) as Hs'.
  { apply (Sound_call sha256 root (SplitPending id at_) (SegmentMapInv.SplitPending id at_)); [done..|]. by intros ??? []. }
  destruct (Job.split_pending id at_ (job s)) as [[half|e] j']; cbn in Hs'; [split; [done|by apply lessens_same]|].
  destruct e; cbn; first [split; [by apply Sound_loose|done] | split; [done|by apply lessens_same]].
Qed.
Lemma kept_split_loop k id at_ size total : u64 at_ → keeps (split_loop k id at_ size total).
Proof.
  revert id at_. induction k as [|k IH]; intros id at_ Hat; cbn; [apply kept_ret|].
  case_decide; [apply kept_ret|]. apply kept_bind; [by apply kept_split_or_full|]. intros [half|]; [|apply kept_ret].
  apply IH, wrap_u64.
Qed.
Lemma kept_read {A} (m : session_state → session A) : (∀ s, keeps (m s)) → keeps (s ← gets (λ s, s); m s).
Proof. intros Hm. apply triple_read. intros s0 Hs0. eapply triple_pre; [apply Hm|by intros s ->]. Qed.

Lemma kept_initial_split : keeps (initial_split c).
Proof.
  apply kept_read. intros s0. destruct (map_segments (job s0)) as [|only [|]]; try apply kept_ret.
  case_decide; [apply kept_ret|]. cbn zeta. case_decide; [apply kept_ret|]. apply kept_split_loop, wrap_u64.
Qed.
Lemma kept_cap_lease id : keeps (cap_lease c id).
Proof.
  apply kept_read. intros s0. destruct (list_find _ _) as [[? q]|]; [|apply kept_ret].
  case_decide; [|apply kept_ret]. apply kept_bind; [apply kept_split_or_full, wrap_u64|]. intros. apply kept_ret.
Qed.
Lemma kept_next_pending : keeps (next_pending c).
Proof.
  apply kept_read. intros s0. cbn zeta. destruct (filter _ _) as [|first rest]; [apply kept_ret|].
  apply kept_bind.
  - destruct (max_by_key _ _); [|apply kept_ret]. cbn zeta. case_decide; [|apply kept_ret].
    apply kept_split_or_full, wrap_u64.
  - intros [half|]; [apply kept_ret|]. apply kept_bind; [apply kept_cap_lease|]. intros. apply kept_ret.
Qed.

(** ** A new connection *)

(** The lease just given: held, and no other lease holds its segment. *)
Lemma leased j id worker l j' :
  JobInv.wf j → Job.lease_segment id worker j = (Ok l, j') →
  held j' l ∧ ∀ l', held j l' → Lease.segment l' ≠ Lease.segment l.
Proof.
  intros Hj Hr. unfold Job.lease_segment, Job.only_in in Hr. unfold_monad. case_bool_decide; [done|]. cbn in Hr.
  apply map_mut_Ok in Hr as (m&m'&Hm&Hl&_&->). destruct (JobInv.wf_map j Hj m Hm) as (Hw&_).
  apply SegmentMapInv.lease_Ok in Hl as (i&s&Hi&Hid&Hs&_&_&->&->). unfold held, map_segments. cbn. rewrite Hm. split.
  - apply list_elem_of_lookup. exists i. rewrite list_lookup_insert_eq by (by eapply lookup_lt_Some).
    destruct s as [sid rng q]. cbn in *. by subst.
  - intros l' Hin E. apply list_elem_of_lookup in Hin as [k Hk].
    assert (k = i) as ->; [|rewrite Hi in Hk; injection Hk as ->; done].
    apply (NoDup_lookup (SegmentMapInv.ids m) k i id (SegmentMapInv.wf_ids m Hw)); unfold SegmentMapInv.ids;
      rewrite list_lookup_fmap; [rewrite Hk; cbn; congruence|rewrite Hi; cbn; congruence].
Qed.

Definition leasing (l : Lease.t) (s : session_state) : Prop :=
  Sound s ∧ held (job s) l ∧ ∀ i l', leases s !! i = Some l' → Lease.segment l' ≠ Lease.segment l.

Lemma Sound_spawned l s :
  leasing l s →
  Sound (set_leases (<[spawned s := l]> (leases s)) (set_spawned (S (spawned s))
    (set_tasks (workers s ++ [(spawned s, Worker.Make l Worker.Opening)]) (finished s) s))).
Proof.
  intros [[Hs Hf] [Hh Hn]]. pose proof (st_loose _ _ s Hs) as HL.
  assert (∀ i l', leases s !! i = Some l' → i ≠ spawned s) as Hfresh.
  { intros i l' Hi ->. pose proof (lo_spawned _ _ s HL _ _ Hi). lia. }
  split; [|done].
  match goal with |- SessionInv.Strict _ _ ?s' => assert (Loose s') as HL' end.
  { destruct HL. split; try done; cbn.
    - intros i l' [[_ <-]|[_ ?]]%lookup_insert_Some; [done|by eapply lo_leases].
    - intros i i' k k' [[<- <-]|[? Hk]]%lookup_insert_Some [[<- <-]|[? Hk']]%lookup_insert_Some E; [done|..].
      + symmetry in E. by apply Hn in Hk'.
      + by apply Hn in Hk.
      + by eapply lo_once.
    - rewrite fmap_app. cbn. rewrite <-app_assoc. cbn. rewrite <-Permutation_middle. apply NoDup_cons. split; [|done].
      intros [Hi|Hi]%elem_of_app; apply list_elem_of_fmap in Hi as ([i x]&E&Hi); cbn in E; subst i.
      + destruct (lo_workers _ _ Hi) as [Hl _]. by apply Hfresh in Hl.
      + destruct (lo_finished _ _ Hi) as [l' Hl]. by apply Hfresh in Hl.
    - intros i w [Hi|[= -> ->]%list_elem_of_singleton]%elem_of_app; [|by rewrite lookup_insert_eq].
      destruct (lo_workers i w Hi) as [Hl ?]. rewrite lookup_insert_ne; [done|]. intros <-. by apply Hfresh in Hl.
    - intros i r Hi. destruct (lo_finished i r Hi) as [l' Hl]. rewrite lookup_insert_ne; [by eexists|].
      intros <-. by apply Hfresh in Hl.
    - intros i l' [[<- _]|[_ Hi]]%lookup_insert_Some; [lia|]. apply lo_spawned in Hi. lia. }
  destruct Hs. by split.
Qed.

Lemma triple_lease id worker : u64 worker → triple Sound (on_job (Job.lease_segment id worker)) leasing.
Proof.
  intros Hw. apply triple_on_job. intros s Hs.
  assert (Sound (set_job (Job.lease_segment id worker (job s)).2 s)) as Hs'.
  { apply (Sound_call sha256 root (LeaseSegment id worker) (SegmentMapInv.TakeLease id worker)); [done..|]. by intros ??? []. }
  destruct (Job.lease_segment id worker (job s)) as [[l|e] j'] eqn:Hl; cbn in Hs'; [|by apply Sound_loose].
  pose proof (Sound_loose _ _ s Hs) as HL. apply leased in Hl as [Hh Hn]; [|apply (lo_job _ _ s HL)].
  split_and!; [done|done|]. intros i l' Hi. apply Hn. by eapply (lo_leases _ _ s HL).
Qed.

Lemma triple_spawn_workers room : triple_of true Sound (spawn_workers c room) (λ _, Sound).
Proof.
  induction room as [|room IH]; cbn; [by apply triple_ret|].
  apply triple_read. intros s0 Hs0. case_decide as Hc; [|apply triple_ret; by intros s ->].
  apply (triple_pre _ _ _ Sound); [|by intros s ->]. clear s0 Hs0 Hc.
  eapply triple_bind; [apply triple_weaken, kept_next_pending|]. intros [id|]; [|by apply triple_ret].
  apply (triple_bind _ _ _ (λ _ s, Sound s ∧ u64 (next_worker s))).
  { apply triple_modify. intros s Hs. split; [|done]. split; [|apply wrap_u64]. eapply Sound_unseen; [exact Hs|by split; auto|done]. }
  intros []. apply triple_read. intros s1 [Hs1 Hw].
  apply (triple_pre _ _ _ Sound); [|by intros s ->]. clear Hs1.
  eapply triple_bind; [by apply triple_weaken, triple_lease|]. clear s1 Hw. intros l.
  apply triple_read. intros s2 Hs2. apply (triple_pre _ _ _ (leasing l)); [|by intros s ->]. clear Hs2.
  eapply triple_bind; [apply triple_some; intros s [? _]; by apply Sound_loose|]. intros w. cbn beta. apply triple_pure. intros _.
  apply (triple_bind _ _ _ (λ _, Sound)); [|intros []; exact IH].
  intros s Hs. cbn. split; [by apply Sound_spawned|]. split; [exact (le_n _)|done].
Qed.

(** ** Turns *)

Lemma triple_joined : triple Sound join_next
  (λ r s, match r with Some done => joined done.1 s | None => Sound s end).
Proof.
  intros s Hs. pose proof (triple_join_next Sound joined (joins s) Sound_joined s (conj Hs (le_n _))) as H.
  destruct (join_next s) as [[[d|]|] ?]; naive_solver.
Qed.
Lemma kept_take_worker : keeps (take_worker sha256 c).
Proof.
  eapply triple_bind; [apply triple_joined|]. intros [[id r]|]; [|apply kept_ret].
  eapply triple_bind; [apply triple_on_worker|]. intros []. apply kept_ret.
Qed.
Lemma kept_recv : keeps recv.
Proof.
  intros s Hs. pose proof (triple_recv sha256 root (fuel s) s (conj Hs (le_n _))) as H.
  destruct (recv s) as [[r|] ?]; naive_solver.
Qed.
Lemma kept_take_control : keeps (take_control sha256 c).
Proof.
  apply kept_bind; [apply kept_recv|]. intros [ctl|]; [|apply kept_ret].
  apply kept_bind; [by apply kept_on_control|]. intros []. apply kept_ret.
Qed.

Lemma triple_select n :
  triple (λ s, Sound s ∧ (fuel s ≤ n)%nat) (select sha256 c) (λ _ s, Sound s ∧ (fuel s < n)%nat).
Proof.
  apply repeat_triple. intros m.
  apply (triple_bind _ _ _ (λ _ s, (Sound s ∧ (fuel s < n)%nat) ∧ (fuel s < m)%nat)).
  { intros s [[Hs Hn] Hm]. pose proof (triple_await sha256 c root Sound (Nat.min n m) (stable_Sound _ _) s) as Ha.
    destruct (await sha256 c s) as [[[]|] s']; [|apply Ha; split; [done|lia]].
    destruct Ha as [[Hs' Hlt] Hle]; [split; [done|lia]|]. split_and!; [done|lia|lia|done]. }
  intros []. eapply triple_conseq; [apply triple_bound_lt, triple_bound_lt|intros s Hs; exact Hs|].
  - apply kept_read. intros s0. destruct (control_first s0); cbn beta iota; (apply kept_bind;
      [first [apply kept_take_control|apply kept_take_worker]|]; intros []; cbn beta iota; [by apply kept_ret|]);
      (apply kept_bind; [first [apply kept_take_control|apply kept_take_worker]|intros; apply kept_ret]).
  - intros [[]|] s [[Hs Hn] Hm]; [done|]. split_and!; [done|lia|done].
Qed.

(** A step that moves the job waits for its commit. *)
Lemma repository_fuel {E A} (call : st SqliteRepository.t E A) s r s' :
  Coordinator.repository sha256 c call s = (Ok r, s') → (fuel s' < fuel s)%nat.
Proof.
  unfold Coordinator.repository, during. unfold mbind, st_bind.
  destruct (await sha256 c s) as [[[]|] s1] eqn:H1; [|done]. apply await_fuel in H1 as [_ H1]. specialize (H1 eq_refl).
  destruct (call (repository s1)) as [x repo].
  destruct (await sha256 c (set_repository repo s1)) as [[[]|] s2] eqn:H2; [|done]. apply await_fuel in H2 as [_ H2].
  specialize (H2 eq_refl). intros [= _ <-]. change (fuel (set_repository repo s1)) with (fuel s1) in H2. lia.
Qed.
Lemma then_Ok {A B} (m : session A) (k : A → session B) (s : session_state) b s' :
  (m ≫= k) s = (Ok b, s') → ∃ a s1, m s = (Ok a, s1) ∧ k a s1 = (Ok b, s').
Proof. unfold mbind, st_bind. destruct (m s) as [[a|] s1]; [|done]. by exists a, s1. Qed.
Lemma step_fuel cmd s s' :
  Coordinator.step sha256 c cmd s = (Ok tt, s') → (∀ k, Job.execute cmd (job s) ≠ (Ok false, k)) → (fuel s' < fuel s)%nat.
Proof.
  intros Hs Hn. unfold Coordinator.step in Hs. apply then_Ok in Hs as (s0&s1&[= <- <-]&Hs).
  apply then_Ok in Hs as (events&s2&Hd&Hs). unfold try, lift in Hd.
  destruct (Job.decide_ (job s) cmd) as [ev|e] eqn:He; [|done]. cbn [map_err] in Hd. injection Hd as <- <-.
  apply JobInv.decide_inv in He as [[_ (next&Hx)]|(next&_&_&->)]; [by apply Hn in Hx|].
  apply then_Ok in Hs as (r&s1&Hr%repository_fuel&Hs).
  apply then_Ok in Hs as (u&s2&Ht&Hs). apply then_Ok in Hs as (v&s3&Hj&[= <-]).
  unfold try, lift in Ht. destruct r as [[]|e]; [|done]. cbn [map_err] in Ht. injection Ht as <- <-.
  rewrite on_job_run in Hj. destruct (Job.apply_ _ (job s1)) as [[[]|] j']; [|done]. by injection Hj as <- <-.
Qed.

(** ** The transfer *)

Lemma triple_transfer_turn n :
  triple_of true (λ s, Sound s ∧ (fuel s ≤ n)%nat) (transfer_turn sha256 c)
    (λ r s, match r with
            | Some _ => Sound s ∧ Job.state (job s) ≠ JobState.Transferring
            | None => Sound s ∧ (fuel s < n)%nat
            end).
Proof.
  apply triple_read. intros s0 [Hs0 Hn0].
  apply (triple_pre _ _ _ (λ s, Sound s ∧ (fuel s ≤ n)%nat)); [|by intros s ->]. clear Hs0 Hn0.
  eapply triple_bind; [apply triple_bound, triple_spawn_workers|]. intros []. clear s0.
  apply triple_read. intros s0 [Hs0 Hn]. pose proof Hs0 as [_ Hf]. cbn beta zeta.
  apply triple_weaken. case_decide as Hr.
  - case_decide as Hst.
    + destruct (has_unsynced s0) eqn:Hu.
      * apply (triple_bind _ _ _ (λ _ s, Sound s ∧ (fuel s < n)%nat)); [|intros []; by apply triple_ret].
        eapply triple_pre; [by apply triple_checkpoint|]. intros s ->. split_and!; [done|done| |done].
        destruct (storage_failed s0) eqn:E; [|done]. by destruct (Hf E).
      * destruct (Job.all_durable (job s0)); [|apply triple_fail; intros s ->; by apply Sound_loose].
        apply (triple_bind _ _ _ (λ _ s, Sound s ∧ (fuel s < n)%nat)); [|intros []; by apply triple_ret].
        intros s ->. pose proof (kept_step sha256 c root JobCommand.AllSegmentsDurable I eq_refl s0 Hs0) as Hk.
        destruct (Coordinator.step sha256 c JobCommand.AllSegmentsDurable s0) as [[[]|e] s'] eqn:Hstep; [|done].
        apply step_fuel in Hstep; [|apply all_durable_no_op]. destruct Hk. split_and!; [done|lia|done].
    + apply triple_ret. by intros s ->.
  - eapply (triple_bind _ _ _ (λ _ s, Sound s ∧ (fuel s ≤ n)%nat)).
    + case_decide; [|apply triple_ret; by intros s ->].
      eapply triple_pre; [by apply triple_bound, kept_checkpoint|]. by intros s ->.
    + intros []. eapply triple_bind; [apply triple_select|]. intros []. by apply triple_ret.
Qed.
Lemma triple_transfer :
  triple_of true Sound (transfer sha256 c) (λ _ s, Sound s ∧ Job.state (job s) ≠ JobState.Transferring).
Proof.
  apply repeat_triple. intros n. eapply triple_post; [apply triple_transfer_turn|]. by intros [[]|] s Hs.
Qed.
End Workers.
