(* ===== verification/SessionPublish.v ===== *)
(** * Publishing

    What a session says when it publishes: the name holds a file of the planned size
    with the digest that was checked, and the job is completed. *)

From S2P Require Import Prelude.
From S2P Require Import Domain.
From S2P Require Import Segments.
From S2P Require Import SegmentsInv.
From S2P Require Import SegmentsRestore.
From S2P Require Import SegmentsThm.
From S2P Require Import JobMachine.
From S2P Require Import JobInv.
From S2P Require Import JobThm.
From S2P Require Import Retry.
From S2P Require Import Admission.
From S2P Require Import Persistence.
From S2P Require Import Transfer.
From S2P Require Import PersistenceInv.
From S2P Require Import TransferInv.
From S2P Require Import TransferThm.
From S2P Require Import PersistenceThm.
From S2P Require Import Files.
From S2P Require Import FilesInv.
From S2P Require Import StorageFile.
From S2P Require Import StorageInv.
From S2P Require Import StorageSteps.
From S2P Require Import StorageNames.
From S2P Require Import StorageThm.
From S2P Require Import Buffers.
From S2P Require Import Writer.
From S2P Require Import SessionLane.
From S2P Require Import Ports.
From S2P Require Import Coordinator.
From S2P Require Import SessionInv.
From S2P Require Import SessionJob.
From S2P Require Import SessionSteps.
From S2P Require Import SessionCommands.
From S2P Require Import SessionDisk.
From S2P Require Import SessionCheckpoint.
From S2P Require Import SessionWorkers.
Import Session.

Section Publish.
Context (sha256 : list Z → digest32) (c : Coordinator.t) (root : Job.t).
Local Abbreviation Loose := (Loose sha256 root).
Local Abbreviation Strict := (Strict sha256 root).
Local Abbreviation Sound := (Sound sha256 root).
Local Abbreviation triple := (triple_of sha256 root false).
Local Abbreviation frame := (frame sha256).
Local Abbreviation waited := (waited sha256).
Local Abbreviation lasting := (lasting sha256).
Local Abbreviation lane_sync := (lane_sync sha256 c).
Local Abbreviation step := (Coordinator.step sha256 c).

(** ** What a name holds *)

Definition file_at (d : Fs.t) (path : Name) (size : Z) (digest : digest32) : Prop :=
  ∃ ino, Fs.nodes d !! path = Some (File ino) ∧ Z.of_nat (length (Fs.content d ino)) = size ∧
    digest = sha256 (Fs.content d ino).

Lemma file_at_grows (s s' : session_state) path size digest :
  still s s' → file_at (disk s) path size digest → file_at (disk s') path size digest.
Proof.
  intros [_ Hd Hn _] (ino&Hp&Hl&Hs). exists ino. unfold Fs.content. rewrite Hd. by split; [apply Hn|].
Qed.
Lemma file_at_trimmed d d' path size digest :
  trimmed d d' → linkable path → file_at d path size digest → file_at d' path size digest.
Proof.
  intros [Hd Hn] Hl (ino&Hp&?&?). exists ino. unfold Fs.content. by rewrite Hd, Hn.
Qed.
Lemma file_at_same d d' path size digest :
  same d d' → file_at d path size digest → file_at d' path size digest.
Proof. intros (Hn&Hd&_) (ino&?&?&?). exists ino. unfold Fs.content. by rewrite Hn, Hd. Qed.

(** [FilePart::publish] gives the name the file it verified. *)
Lemma publish_lands dest p d path w' :
  Healthy sha256 (FilePart.World p d) →
  FilePart.publish sha256 dest (FilePart.World p d) = (Ok path, w') →
  path = Destination.resolved dest ∧ ∃ digest, FilePart.verified p = Some digest ∧
    file_at (FilePart.fs w') path (PartSpec.size (FilePart.spec p)) digest.
Proof.
  intros [Hi Hn] Hr. pose proof Hi as []. apply publish_run in Hr as [(_&?&_)|(digest&s1&Hpo&Hv&_&_&Hlen&Hs1&He)]; [done|].
  cbn [FilePart.part FilePart.fs] in *. destruct (Hn Hpo) as [Hfile _]. cbn in Hfile.
  apply expose_run in He as (s2&new&Hrew&_&[(?&_)|(_&[(?&_)|(ino&Hino&_&_&Hname&Hdata&_&_&Hok)])]); cbn in *; try done;
    [|unfold spec_wf in *; lia|rewrite inv_path; apply part_name_staged].
  destruct Hok as [[[= ->] _]|[? _]]; [|done]. split; [done|]. exists digest. split; [done|].
  exists ino. split; [done|]. destruct Hs1 as (Hn1&Hd1&_). rewrite Hn1, Hfile in Hino. injection Hino as <-.
  assert (Fs.content (FilePart.fs w') (FilePart.file p) = Fs.content d (FilePart.file p)) as ->.
  { unfold Fs.content at 1. rewrite Hdata. fold (Fs.content s2 (FilePart.file p)).
    rewrite (proj2 (proj2 Hrew)) by done. unfold Fs.content. by rewrite Hd1. }
  split; [done|]. by destruct (inv_verified digest Hv) as [-> _].
Qed.

(** [inspect] reads, and answers what the name holds. *)
Lemma keeps_read_to_end fuel ino off : FilesInv.keeps (read_to_end fuel ino off).
Proof.
  revert off. induction fuel as [|fuel IH]; intros off; cbn; [apply keeps_ret|].
  apply keeps_bind; [apply keeps_read_some|]. intros bytes. case_decide; [apply keeps_ret|].
  apply keeps_bind; [apply IH|]. intros; apply keeps_ret.
Qed.
Lemma read_to_end_Ok fuel ino off s bytes s' :
  0 ≤ off → read_to_end fuel ino off s = (Ok bytes, s') → bytes `prefix_of` drop (Z.to_nat off) (Fs.content s ino).
Proof.
  revert off s bytes s'. induction fuel as [|fuel IH]; intros off s bytes s' Hoff; cbn; [intros [= <- _]; apply prefix_nil|].
  unfold mbind at 1, st_bind at 1. destruct (read_some ino off BUFFER s) as [[b|e] s1] eqn:H1; [|done].
  assert (b = slice off BUFFER (Fs.content s ino) ∧ same s s1) as [-> Hs].
  { split; [|by eapply keeps_run; [apply keeps_read_some|]]. unfold read_some in H1. open_syscall; done. }
  unfold slice in *. generalize (Z.to_nat BUFFER) as B. intros B. clear H1.
  case_decide as Hb; [intros [= <- _]; apply prefix_nil|]. unfold mbind, st_bind.
  destruct (read_to_end fuel ino _ s1) as [[rest|e] s2] eqn:H2; [|done]. intros [= <- _].
  apply IH in H2; [|lia]. rewrite (same_content _ _ ino Hs) in H2. set (l := Fs.content s ino) in *.
  rewrite length_take, length_drop in H2.
  rewrite <-(take_drop B (drop (Z.to_nat off) l)) at 2. apply prefix_app. rewrite drop_drop.
  destruct (decide (Z.to_nat off + B ≤ length l)%nat) as [Hle|Hgt].
  - replace (Z.to_nat off + B)%nat with (Z.to_nat (off + Z.of_nat (B `min` (length l - Z.to_nat off)))) by lia. done.
  - rewrite drop_ge in H2 by lia. apply prefix_nil_inv in H2 as ->. apply prefix_nil.
Qed.
Lemma keeps_inspect dest size : FilesInv.keeps (inspect sha256 dest size).
Proof.
  unfold inspect. apply keeps_bind; [apply keeps_resolve_destination|]. intros name s. unfold inspect_name.
  destruct (symlink_metadata name s) as [r s1] eqn:H1. pose proof (keeps_run _ _ _ _ (keeps_symlink_metadata name) H1) as Hs.
  destruct r as [[ino| |]|[]]; cbn; try done. case_decide; [done|]. etrans; [exact Hs|].
  match goal with |- same _ (?m _).2 => assert (FilesInv.keeps m) as Hk; [|apply Hk] end.
  apply keeps_bind; [apply keeps_io, keeps_open|]. intros i.
  apply keeps_bind; [exact (keeps_io _ (keeps_read_to_end (S (chunks size)) i 0))|]. intros b. case_decide; apply keeps_ret.
Qed.
Lemma symlink_metadata_Ok name s x s' : symlink_metadata name s = (Ok x, s') → Fs.nodes s !! name = Some x.
Proof. unfold symlink_metadata. intros H. open_syscall; unfold ok_or in *; case_match; by simplify_eq/=. Qed.
Lemma inspect_sees dest size d n digest d' :
  inspect sha256 dest size d = (Ok (Some (Occupant.File n digest)), d') →
  n = size ∧ file_at d (Destination.resolved dest) size digest.
Proof.
  unfold inspect. unfold mbind at 1, st_bind at 1. destruct (resolve_destination dest d) as [[name|e] d1] eqn:H1; [|done].
  pose proof (keeps_run _ _ _ _ (keeps_resolve_destination dest) H1) as Hs1. apply resolve_destination_Ok in H1 as ->.
  unfold inspect_name. destruct (symlink_metadata _ d1) as [[[ino| |]|[]] d2] eqn:H2; try done.
  pose proof (keeps_run _ _ _ _ (keeps_symlink_metadata _) H2) as Hs2. case_decide as Hlen; [done|].
  unfold mbind at 1, st_bind at 1. destruct (io (open _) d2) as [[i|e] d3] eqn:H3; [|done].
  apply io_Ok, open_Ok in H3 as [Hi Hs3].
  unfold mbind, st_bind. destruct (io (read_to_end _ i 0) d3) as [[bytes|e] d4] eqn:H4; [|done].
  apply io_Ok, read_to_end_Ok in H4; [|done]. case_decide as Hb; [done|]. intros [= <- <- _].
  assert (same d d3) as Hs by (etrans; [exact Hs1|]; by etrans). pose proof (same_content _ _ i Hs) as Ei. rewrite Ei in H4. cbn in H4.
  assert (bytes = Fs.content d i) as ->.
  { assert (ino = i) as <-.
    { apply symlink_metadata_Ok in H2. destruct Hs1 as [Hn1 _], Hs2 as [Hn2 _]. rewrite Hn2 in Hi. congruence. }
    rewrite (same_content _ _ ino Hs2), (same_content _ _ ino Hs1) in Hlen. apply prefix_length_eq; [done|]. lia. }
  split; [lia|]. exists i. destruct Hs1 as [Hn1 _], Hs2 as [Hn2 _]. rewrite Hn2, Hn1 in Hi. split_and!; [done|lia|done].
Qed.

(** ** What a session knows while it publishes *)

Definition expects (digest : digest32) : Prop :=
  ∀ e, JobSpec.expected_sha256 (Job.spec root) = Some e → e = digest.
(** The open handle has checked its bytes. *)
Definition proven (digest : digest32) (s : session_state) : Prop :=
  quiet s ∧ ∀ p f, writer s = Some (p, f) → FilePart.verified p = Some digest.
Definition landed (path : Name) (size : Z) (digest : digest32) (s : session_state) : Prop :=
  quiet s ∧ file_at (disk s) path size digest.

Lemma quiet_still s s' : quiet s → waited s s' → quiet s' ∧ still s s'.
Proof. intros [Hw Hf] Hwt. destruct (w_idle _ _ _ Hwt Hw) as (?&E&?). split; [split; congruence|done]. Qed.
Lemma frame_proven digest : frame (proven digest).
Proof.
  split; [|done|done]. intros s s' [Hq Hv] Hwt. destruct (quiet_still _ _ Hq Hwt) as [Hq' [Hw _ _ _]].
  split; [done|]. by rewrite Hw.
Qed.
Lemma frame_landed path size digest : frame (landed path size digest).
Proof.
  split; [|done|done]. intros s s' [Hq Hl] Hwt. destruct (quiet_still _ _ Hq Hwt) as [Hq' Hst].
  split; [done|]. by eapply file_at_grows.
Qed.
Lemma lasting_landed path size digest j : linkable path →
  lasting (λ s, landed path size digest s ∧ job s = j).
Proof.
  intros Hp. split.
  - intros s s' [Hl Hj] Hw. split; [by eapply fr_waited, Hw; [apply frame_landed|]|]. by rewrite (w_job _ _ _ Hw).
  - intros s w d [[Hq Hl] Hj] Ht. split; [|done]. split; [done|]. by eapply file_at_trimmed.
Qed.

(** A disk that only consumed faults. *)
Lemma Sound_same d s : Sound s → same (disk s) d → Sound (set_lane (writer s) d s).
Proof.
  intros [Hs Hf] Hd. pose proof (st_loose _ _ s Hs) as Hl. pose proof Hd as (Hn&Hdt&_).
  assert (Loose (set_lane (writer s) d s)) as Hl'.
  { destruct Hl. split; try done; cbn.
    - intros row Hrow ino. rewrite Hn. unfold Fs.content. rewrite Hdt. by apply lo_proved.
    - by apply (name_same (rel:=disk_kept) _ _ Hd).
    - intros p f Hp. destruct (lo_writer p f Hp) as ([Hi Hnm]&?). split; [|done].
      destruct (Inv_same sha256 (FilePart.World p (disk s)) (FilePart.World p d)) as [Hi' Hnm']; auto. split; auto. }
  split; [|done]. destruct Hs. by split.
Qed.

(** Reading the record of the job's extents. *)
Lemma triple_record P : calm sha256 root P →
  triple P (Coordinator.record sha256 c) (λ rec s, P s ∧ Forall (λ e, ByteRange.wf e.1) rec).
Proof.
  intros HP. apply triple_read. intros s0 Hs0. pose proof HP as [[HL _] _].
  apply (triple_pre _ _ _ (λ s, P s ∧ job s = job s0)); [|by intros s ->].
  eapply triple_bind; [by apply triple_port_read, calm_job|]. intros found.
  eapply triple_bind; [apply triple_extents; intros s [? ?]; auto|]. intros extents.
  apply triple_ret. intros s [[Hs _] ->]. split; [done|]. rewrite <-list_fmap_compose. rewrite Forall_fmap.
  pose proof (extents_wf _ _ s (HL s Hs)) as He. rewrite Forall_fmap in He. exact He.
Qed.

(** *** Verifying through the lane *)

Lemma ask_run_quiet cmd P s : firm sha256 root P → sendable cmd → P s → quiet s →
  ∃ r, let s' := (ask sha256 cmd s).2 in
  ask sha256 cmd s = (Ok r, s') ∧ P s' ∧ quiet s' ∧ lessens false s s'.
Proof.
  intros [HL HP] Hc Hs Hq. pose proof (ask_kept sha256 root cmd s (HL s Hs) Hc) as (Hl&Hst&Hle&Hr). cbn zeta.
  destruct (ask sha256 cmd s) as [r s'] eqn:Ha. cbn in *. subst r. eexists. split; [done|].
  split; [by eapply HP|]. split; [|done]. unfold ask in Ha. destruct (writer s); injection Ha as <-; done.
Qed.

Lemma ask_verify expected rec (s : session_state) d s' :
  Forall (λ e, ByteRange.wf e.1) rec →
  ask sha256 (Command.Verify expected rec 0) s = (Ok (Some (Digest (Ok d))), s') →
  (∀ e, expected = Some e → e = d) ∧ ∀ p f, writer s' = Some (p, f) → FilePart.verified p = Some d.
Proof.
  intros Hwf. unfold ask. destruct (writer s) as [[p [f|]]|] eqn:Hw; [|..]; try done. cbn.
  destruct (FilePart.verify sha256 expected rec (FilePart.World p (disk s))) as [[x|e] w'] eqn:Hv; [|done].
  cbn. intros [= -> <-]. apply verify_run in Hv as (_&[(_&_&?)|[_ [[_ ?]|(d'&[= <-]&Hp&Ha)]]]); try done.
  split.
  - intros e ->. destruct (at_expected _ _ _ _ _ _ Ha) as [|[= ->]]; done.
  - cbn. intros q f [= <- _]. by rewrite Hp.
Qed.
Lemma triple_lane_verify j expected rec :
  Forall (λ e, ByteRange.wf e.1) rec →
  triple (λ s, (Sound s ∧ job s = j) ∧ quiet s) (lane_verify sha256 c expected rec)
    (λ r s, ((Sound s ∧ job s = j) ∧ quiet s) ∧ ∀ d, r = Ok d → (∀ e, expected = Some e → e = d) ∧ proven d s).
Proof.
  intros Hwf. apply (triple_bind _ _ _ (λ a s, ((Sound s ∧ job s = j) ∧ quiet s) ∧
    ∀ d, a = Some (Digest (Ok d)) → (∀ e, expected = Some e → e = d) ∧ proven d s)).
  - apply triple_during; [apply stable_with; [apply stable_job, stable_Sound|apply frame_quiet]|..].
    + intros a. apply stable_with; [apply stable_with; [apply stable_job, stable_Sound|apply frame_quiet]|].
      intros s s' Hv Hw d Hd. destruct (Hv d Hd) as [He Hp]. split; [done|]. by eapply fr_waited, Hw; [apply frame_proven|].
    + intros s [Hs Hq]. pose proof (ask_run_quiet (Command.Verify expected rec 0) (λ s, Sound s ∧ job s = j) s
        (firm_job _ _ _ _ (firm_Sound _ _)) Hwf Hs Hq) as (r&Ha&Hs'&Hq'&Hle).
      rewrite Ha. split; [|done]. split; [by split|]. intros d ->. apply ask_verify in Ha as [He Hp]; [|done]. by split; [|split].
  - intros a. apply triple_ret. intros s [Hs Hv]. split; [done|]. intros d Hd. destruct a as [[r|r|r]|]; try done. by subst r; apply Hv.
Qed.

(** *** Linking the part *)

Lemma ask_publish dest d s path s' :
  Loose s → proven d s → ask sha256 (Command.Publish dest 0) s = (Ok (Some (Published (Ok path))), s') →
  path = Destination.resolved dest ∧
  ∃ p f, writer s = Some (p, f) ∧ file_at (disk s') path (PartSpec.size (FilePart.spec p)) d.
Proof.
  intros Hl [_ Hv]. unfold ask. destruct (writer s) as [[p [f|]]|] eqn:Hw; try done. cbn.
  destruct (FilePart.publish sha256 dest (FilePart.World p (disk s))) as [[x|e] w'] eqn:Hp; [|done].
  cbn. intros [= -> <-]. apply publish_lands in Hp as (->&d'&Hd&Hf); [|by eapply (lo_writer _ _ s Hl)].
  rewrite (Hv p None eq_refl) in Hd. injection Hd as <-. split; [done|]. by exists p, None.
Qed.
Lemma planned_writer s p f : Strict s → Job.segments (job s) ≠ None → writer s = Some (p, f) →
  fst <$> Job.plan (job s) = Some (PartSpec.size (FilePart.spec p)).
Proof. intros Hs Hn Hw. destruct (st_writer _ _ s Hs p f Hw) as [|[_ ?]]; done. Qed.

Lemma triple_lane_publish j dest digest :
  linkable (Destination.resolved dest) → Job.segments j ≠ None →
  triple (λ s, (Sound s ∧ job s = j) ∧ proven digest s) (lane_publish sha256 c dest)
    (λ r s, ((Sound s ∧ job s = j) ∧ quiet s) ∧ ∀ path, r = Ok path → path = Destination.resolved dest ∧
       ∃ size, fst <$> Job.plan j = Some size ∧ landed path size digest s).
Proof.
  intros Hlk Hseg. apply (triple_bind _ _ _ (λ a s, ((Sound s ∧ job s = j) ∧ quiet s) ∧
    ∀ path, a = Some (Published (Ok path)) → path = Destination.resolved dest ∧
       ∃ size, fst <$> Job.plan j = Some size ∧ landed path size digest s)).
  - apply triple_during; [apply stable_with; [apply stable_job, stable_Sound|apply frame_proven]|..].
    + intros a. apply stable_with; [apply stable_with; [apply stable_job, stable_Sound|apply frame_quiet]|].
      intros s s' Hv Hw path Hp. destruct (Hv path Hp) as (?&size&?&?). split; [done|]. exists size. split; [done|].
      by eapply fr_waited, Hw; [apply frame_landed|].
    + intros s [Hs Hpr]. pose proof Hpr as [Hq _].
      pose proof (ask_run_quiet (Command.Publish dest 0) (λ s, Sound s ∧ job s = j) s
        (firm_job _ _ _ _ (firm_Sound _ _)) Hlk Hs Hq) as (r&Ha&Hs'&Hq'&Hle).
      rewrite Ha. split; [|done]. split; [by split|]. destruct Hs as [Hs Hj].
      intros path ->. apply (ask_publish _ digest) in Ha as (->&p&f&Hw&Hf); [|by apply Sound_loose|done].
      split; [done|]. exists (PartSpec.size (FilePart.spec p)). split; [|by split]. rewrite <-Hj in *. destruct Hs. by eapply planned_writer.
  - intros a. apply triple_ret. intros s [Hs Hv]. split; [done|]. intros path Hp. destruct a as [[r|r|r]|]; try done. by subst r; apply Hv.
Qed.

(** ** Answers *)

Definition answered (r : SessionEnd.t) (s : session_state) : Prop :=
  (Sound s ∧ quiet s) ∧
  match r with
  | SessionEnd.Settled state => state = Job.state (job s)
  | SessionEnd.Published path => Job.state (job s) = JobState.Completed ∧ linkable path ∧ ∃ size digest,
      fst <$> Job.plan (job s) = Some size ∧ landed path size digest s ∧ expects digest
  end.

Lemma triple_settled_here : triple (λ s, Sound s ∧ quiet s) settled_here answered.
Proof. by apply triple_gets. Qed.
Lemma triple_publish_blocked reason : triple (λ s, Sound s ∧ quiet s) (publish_blocked sha256 c reason) answered.
Proof.
  eapply triple_bind; [by apply (triple_gets _ _ _ _ (λ _ s, Sound s ∧ quiet s))|]. intros blocked.
  apply (triple_bind _ _ _ (λ _ s, Sound s ∧ quiet s)); [|intros []; apply triple_settled_here].
  destruct blocked; [by apply step_keeps_frame; [apply frame_quiet|..]|by apply triple_ret].
Qed.

(** The transaction that completes the job, and the part's names removed. *)
Lemma completed j j' : moved JobCommand.PublishCommitted j j' →
  Job.state j' = JobState.Completed ∧ Job.plan j' = Job.plan j.
Proof.
  unfold moved, Job.execute, Job.transition, Job.begin_stop, Job.to. unfold_monad.
  intros [[_ Hx]|(next&Hx&->)]; destruct (Job.state j) eqn:Hs; try done; try (exfalso; by split_cases).
  injection Hx as <-. done.
Qed.
Lemma verification_passed j j' : moved JobCommand.VerificationPassed j j' →
  Job.state j' = JobState.Publishing ∧ Job.plan j' = Job.plan j ∧ Job.generation j' = Job.generation j.
Proof.
  unfold moved, Job.execute, Job.transition, Job.begin_stop, Job.to. unfold_monad.
  intros [[_ Hx]|(next&Hx&->)]; destruct (Job.state j) eqn:Hs; try done; try (exfalso; by split_cases).
  injection Hx as <-. done.
Qed.
Lemma triple_committed abandon path size digest j :
  linkable path → fst <$> Job.plan j = Some size → expects digest →
  triple (λ s, (Sound s ∧ landed path size digest s) ∧ job s = j)
    (_ ← step JobCommand.PublishCommitted; _ ← release_part sha256 c abandon; mret (SessionEnd.Published path)) answered.
Proof.
  intros Hlk Hpl He. eapply triple_bind; [by apply step_moved; [apply frame_landed|..]|]. intros []. cbn beta.
  apply triple_at. intros s0 [[Hs0 Hl0] [Hst Hp]%completed].
  eapply triple_bind; [eapply triple_pre; [apply (triple_release_part _ _ _ (λ s, landed path size digest s ∧ job s = job s0))|]|].
  - by apply lasting_landed.
  - by intros s ->.
  - intros []. apply triple_ret. intros s [Hs [Hl Hj]]. split; [split; [done|apply Hl]|].
    rewrite Hj, Hp. split_and!; [done|done|]. by exists size, digest.
Qed.

(** ** The attempt *)

Context (Hresolve : ∀ d dest, Coordinator.resolve c d = Ok dest → linkable (Destination.resolved dest)).

(** An intent of the job's generation names its size and a digest that will do. *)
Definition right_intent (j : Job.t) (i : PublishIntent.t) : Prop :=
  PublishIntent.generation i = Job.generation j →
  fst <$> Job.plan j = Some (PublishIntent.size i) ∧ expects (PublishIntent.digest i).
Definition at_rest (j : Job.t) (s : session_state) : Prop := (Sound s ∧ job s = j) ∧ quiet s.
Definition checked (j : Job.t) (digest : digest32) (s : session_state) : Prop := (Sound s ∧ job s = j) ∧ proven digest s.
Lemma checked_rest j digest s : checked j digest s → at_rest j s.
Proof. by intros [? [? _]]. Qed.
Lemma stable_rest j : stable sha256 root (at_rest j).
Proof. apply stable_and; [apply stable_job, stable_Sound|apply frame_quiet]. Qed.
Lemma stable_checked j digest : stable sha256 root (checked j digest).
Proof. apply stable_and; [apply stable_job, stable_Sound|apply frame_proven]. Qed.
Lemma calm_rest j : calm sha256 root (at_rest j).
Proof. apply calm_and; [apply calm_job, calm_Sound|apply frame_quiet]. Qed.
Lemma rest_loose j s : at_rest j s → Loose s.
Proof. intros [[? _] _]. by apply Sound_loose. Qed.
Lemma planned_segments j size : fst <$> Job.plan j = Some size → Job.segments j ≠ None.
Proof. unfold Job.plan. by destruct (Job.segments j). Qed.

Lemma rest_sync j : triple (at_rest j) lane_sync (λ _, at_rest j).
Proof.
  eapply (triple_bind _ _ _ (λ _, at_rest j)); [|intros; by apply triple_ret].
  apply triple_during; [apply stable_rest|intros; apply stable_rest|]. intros s [Hs Hq].
  pose proof (ask_run_quiet (Command.Sync 0) (λ s, Sound s ∧ job s = j) s (firm_job _ _ _ _ (firm_Sound _ _)) I Hs Hq) as (r&->&?&?&?).
  done.
Qed.

Lemma triple_prove_again j intent :
  triple (at_rest j) (prove_again sha256 c intent)
    (λ why s, at_rest j s ∧ (why = None → proven (PublishIntent.digest intent) s)).
Proof.
  eapply triple_bind; [apply rest_sync|]. intros synced. apply triple_if; intros _; [by apply triple_ret|].
  eapply triple_bind; [apply triple_record, calm_rest|]. intros rec. cbn beta. apply triple_pure. intros Hwf.
  apply triple_read. intros s0 Hs0. eapply triple_bind; [eapply triple_pre; [by apply (triple_lane_verify j)|]|].
  - by intros s ->.
  - intros r. apply triple_ret. intros s [Hs Hr]. split; [done|]. destruct r as [digest|e].
    + case_decide as Hd; [|done]. intros _. rewrite <-Hd. by apply Hr.
    + intros He. exfalso. by repeat case_match.
Qed.

Lemma triple_link_part j dest digest :
  linkable (Destination.resolved dest) → Job.segments j ≠ None → expects digest →
  triple (checked j digest) (link_part sha256 c dest) answered.
Proof.
  intros Hlk Hseg He. eapply triple_bind; [by apply triple_lane_publish|]. intros [path|e]; cbn beta.
  - apply triple_at. intros s0 [Hs0 Hp]. destruct (Hp path eq_refl) as (->&size&Hsz&Hl).
    eapply triple_pre; [by apply (triple_committed false _ size digest j)|]. intros s ->. by destruct Hs0 as [[? ?] _].
  - apply (triple_pre _ _ _ (λ s, Sound s ∧ quiet s)); [|by intros s [[[? _] ?] _]].
    repeat case_match; apply triple_publish_blocked.
Qed.

Lemma triple_publish_free j intent dest :
  linkable (Destination.resolved dest) → fst <$> Job.plan j = Some (PublishIntent.size intent) →
  expects (PublishIntent.digest intent) →
  triple (checked j (PublishIntent.digest intent)) (publish_free sha256 c intent dest) answered.
Proof.
  intros Hlk Hsz He. pose proof (planned_segments _ _ Hsz) as Hseg. apply triple_read. intros s0 Hs0.
  destruct (writer s0) as [w|] eqn:Hw.
  { eapply triple_pre; [by apply triple_link_part|]. by intros s ->. }
  eapply triple_bind; [eapply triple_pre; [apply (triple_open_part _ _ _ j)|]|].
  { intros s ->. destruct Hs0 as [[? ?] [? _]]. split; [split; [done|by split]|done]. }
  intros []. cbn beta. apply triple_read. intros s1 [[Hs1 Hq1] Ho]. destruct (writer s1) as [[p f]|] eqn:Hw1.
  - destruct (Ho p f eq_refl) as [Hj _]. eapply triple_bind; [eapply triple_pre; [apply (triple_prove_again j)|]|].
    { intros s ->. done. }
    intros [reason|]; cbn beta.
    + eapply triple_pre; [apply triple_publish_blocked|]. by intros s [[[? _] ?] _].
    + eapply triple_pre; [by apply triple_link_part|]. intros s [[Hs Hq] Hv]. split; [done|]. by apply Hv.
  - eapply triple_pre; [apply triple_settled_here|]. by intros s ->.
Qed.

(** What the destination holds already. *)
Lemma triple_inspect j digest dest size :
  triple (checked j digest) (during sha256 c (on_disk (inspect sha256 dest size)))
    (λ r s, checked j digest s ∧ ∀ n d, r = Ok (Some (Occupant.File n d)) →
       n = size ∧ file_at (disk s) (Destination.resolved dest) size d).
Proof.
  apply triple_during; [apply stable_checked|..].
  - intros r. pose proof (stable_checked j digest) as [HL HP]. split; [intros s [? _]; auto|].
    intros s s' [Hs Hr] Hw Hl. split; [by eapply HP|]. intros n d Hd. destruct (Hr n d Hd) as [-> Hf]. split; [done|].
    destruct Hs as [_ [Hq _]]. eapply file_at_grows; [by eapply quiet_still|done].
  - intros s [[Hs Hj] Hp]. unfold on_disk. pose proof (keeps_inspect dest size (disk s)) as Hk.
    destruct (inspect sha256 dest size (disk s)) as [r d'] eqn:Hi. cbn in Hk.
    split; [|by apply lessens_same]. split; [split; [split; [by apply Sound_same|done]|done]|].
    intros n d ->. apply inspect_sees in Hi as [-> Hf]. split; [done|]. by eapply file_at_same.
Qed.

Lemma triple_attempt_publish j intent :
  right_intent j intent →
  triple (checked j (PublishIntent.digest intent)) (attempt_publish sha256 c intent) answered.
Proof.
  intros Hi. apply triple_read. intros s0 Hs0. pose proof Hs0 as [[_ Hj0] _]. rewrite Hj0.
  apply (triple_pre _ _ _ (checked j (PublishIntent.digest intent))); [|by intros s ->]. clear s0 Hs0 Hj0.
  assert (∀ reason, triple (checked j (PublishIntent.digest intent)) (publish_blocked sha256 c reason) answered) as Hblocked.
  { intros reason. eapply triple_pre; [apply triple_publish_blocked|]. by intros s [[? _] [? _]]. }
  case_decide as Hg; [apply Hblocked|]. destruct (Hi ltac:(by destruct (decide (PublishIntent.generation intent = Job.generation j)))) as [Hsz He].
  eapply triple_bind; [apply triple_try; intros s Hs; by eapply rest_loose, checked_rest|]. intros dest. cbn beta.
  apply triple_pure. intros Hlk%Hresolve.
  eapply triple_bind; [apply triple_inspect|]. intros found.
  eapply triple_bind; [apply triple_try; intros s [Hs _]; by eapply rest_loose, checked_rest|]. intros occupant. cbn beta.
  apply triple_pure. intros ->. destruct occupant as [[n d| |]|]; cbn beta iota;
    try (eapply triple_pre; [apply Hblocked|by intros s [? _]]);
    [|eapply triple_pre; [by eapply triple_publish_free|by intros s [? _]]].
  case_decide as Hd; [|eapply triple_pre; [apply Hblocked|by intros s [? _]]]. destruct Hd as [-> ->].
  eapply triple_pre; [by apply (triple_committed true _ (PublishIntent.size intent) (PublishIntent.digest intent) j)|].
  intros s [[[Hs Hj] [Hq _]] Hf]. split; [|done]. split; [done|]. split; [done|]. by apply (Hf (PublishIntent.size intent)).
Qed.

(** *** Coming to the attempt *)

Lemma intent_row d job i : intent job d = Ok (Some i) → ∃ row, Db.publish_intents d !! JobId.get job = Some row ∧
  Generation.get (PublishIntent.generation i) = IntentRow.generation row ∧ PublishIntent.size i = IntentRow.size row ∧
  PublishIntent.digest i = IntentRow.digest row.
Proof.
  unfold intent, signed_id, stored. unfold_monad. case_decide; [|done].
  destruct (Db.publish_intents d !! _) as [row|]; [|done]. unfold loaded, corrupt, array, Generation.new, identifier_new.
  repeat (case_decide; cbn; try done). all: intros [= <-]; exists row; done.
Qed.

Lemma triple_resume_publish j :
  triple (λ s, at_rest j s ∧ writer s = None) (resume_publish sha256 c) answered.
Proof.
  assert (calm sha256 root (λ s, at_rest j s ∧ writer s = None)) as Hcalm
    by (apply calm_and; [apply calm_rest|apply frame_no_writer]).
  apply triple_read. intros s0 Hs0. pose proof Hs0 as [[[_ Hj0] _] _]. rewrite Hj0.
  apply (triple_pre _ _ _ (λ s, at_rest j s ∧ writer s = None)); [|by intros s ->]. clear s0 Hs0 Hj0.
  eapply triple_bind; [by apply triple_port_read|]. intros found.
  eapply triple_bind; [apply triple_try; intros s [[Hs _] _]; by eapply rest_loose|]. intros [i|]; cbn beta; apply triple_pure; intros ->.
  - apply triple_at. intros s1 [[Hs1 Hw1] (row&Hrow&Hg&Hsz&Hd)%intent_row].
    eapply triple_pre; [apply (triple_attempt_publish j)|].
    + intros Hgen. destruct Hs1 as [[[Hs Hf] Hj] Hq]. rewrite <-Hj in *.
      destruct (rc_intent _ _ _ (st_saved _ _ _ Hs) row Hrow) as [Hp He]; [congruence|].
      rewrite Hsz, Hd. split; [done|]. intros e He'. apply He.
      by rewrite (proj2 (lo_root _ _ _ (st_loose _ _ _ Hs))).
    + intros s ->. destruct Hs1 as [Hs Hq]. split; [done|]. split; [done|]. intros p f. by rewrite Hw1.
  - eapply (triple_bind _ _ _ (λ _ s, Sound s ∧ quiet s)); [|intros []; apply triple_settled_here].
    eapply triple_pre; [by apply step_keeps_frame; [apply frame_quiet|..]|]. by intros s [[[[? _] ?] _] _].
Qed.

(** *** Verifying *)

Lemma Sound_intended s repo i d' :
  Sound s → intend_publish i (db s) = (Ok tt, d') → SqliteRepository.db repo = d' → PublishIntent.job i = Job.id (job s) →
  right_intent (job s) i → Sound (set_repository repo s).
Proof.
  intros [Hs Hf] Hi Hd Hid Hri. pose proof (st_loose _ _ s Hs) as Hl.
  destruct (intend_recorded root _ _ (job s) i (st_saved _ _ s Hs) Hi Hid) as [Hrec Hext].
  { intros Hg. destruct Hri as [Hp He]; [by apply generation_eq|]. split; [done|]. intros e Hse. apply He.
    by rewrite <-(proj2 (lo_root _ _ _ Hl)). }
  pose proof (intend_publish_wf i _ (lo_db _ _ s Hl)) as Hwf. rewrite Hi in Hwf. cbn in Hwf.
  assert (∀ id, job_rows d' id = job_rows (db s) id) as Hrows by (intros id; unfold job_rows; by rewrite Hext).
  assert (Loose (set_repository repo s)) as Hl'.
  { apply Loose_db; rewrite ?Hd; [done|done|by left|]. intros row. rewrite Hrows. intros Hrow.
    split_and!; [by apply (lo_closed _ _ s Hl)|by apply (lo_proved _ _ s Hl)|].
    intros p f Hp. by apply (lo_writer _ _ s Hl p f Hp). }
  split; [|done]. destruct Hs as [_ _ Hr Hw]. split; try done; unfold db, jid; cbn; rewrite Hd; [done|].
  intros b. unfold row_ranges. rewrite Hrows. apply Hr.
Qed.

Lemma triple_publish j size digest :
  fst <$> Job.plan j = Some size → expects digest →
  triple (checked j digest) (Coordinator.publish sha256 c digest) answered.
Proof.
  intros Hp He. apply triple_read. intros s0 Hs0. pose proof Hs0 as [[_ Hj0] _]. rewrite Hj0.
  apply (triple_pre _ _ _ (checked j digest)); [|by intros s ->]. clear s0 Hs0 Hj0.
  assert (calm sha256 root (checked j digest)) as Hcalm by (apply calm_and; [apply calm_job, calm_Sound|apply frame_proven]).
  assert (∀ s, checked j digest s → Loose s) as HL by (intros; by eapply rest_loose, checked_rest).
  eapply triple_bind; [by apply triple_port_read|]. intros found.
  eapply triple_bind; [apply triple_try; intros s [Hs _]; auto|]. intros previous. cbn beta zeta.
  apply triple_pure. intros _. apply (triple_pre _ _ _ (checked j digest)); [|by intros s [? _]].
  set (i := PublishIntent.Make _ _ _ _ _).
  assert (right_intent j i) as Hi.
  { intros _. cbn. split; [|done]. by destruct (Job.plan j) as [[]|]. }
  apply (triple_bind _ _ _ (λ _, checked j digest)).
  { apply triple_repository; [apply stable_checked|intros; apply stable_checked|].
    intros s r repo' [[Hs Hj] Hpr] Hr. split; [split; [|done]|done].
    apply port_run in Hr as [[Hd _]|([]&Hd&_)].
    - destruct Hs as [Hs Hf]. split; [by apply Strict_db|done].
    - eapply Sound_intended; [done|exact Hd|done|by rewrite Hj|by rewrite Hj].
    - intros d e d' Ht. apply intend_publish_run in Ht as [(?&_&->)|(?&?&?&Hbad&_)]; [done|discriminate]. }
  intros recorded. eapply triple_bind; [by apply triple_try|]. intros []. cbn beta. apply triple_pure. intros _.
  apply (triple_bind _ _ _ (λ _ s, (Sound s ∧ proven digest s) ∧ moved JobCommand.VerificationPassed j (job s))).
  { eapply triple_pre; [by apply step_moved; [apply frame_proven|..]|]. by intros s [[? ?] ?]. }
  intros []. apply triple_at. intros s1 [[Hs1 Hpr1] (_&Hpl&Hg)%verification_passed].
  eapply triple_pre; [apply (triple_attempt_publish (job s1))|].
  - intros _. cbn. rewrite Hpl. split; [|done]. by destruct (Job.plan j) as [[]|].
  - by intros s ->.
Qed.

Lemma triple_verify :
  triple (λ s, (Sound s ∧ quiet s) ∧ (is_Some (writer s) → Job.state (job s) = JobState.Verifying))
    (Coordinator.verify sha256 c) answered.
Proof.
  apply triple_read. intros s0 [[Hs0 Hq0] Hst0]. destruct (writer s0) as [[p f]|] eqn:Hw.
  2:{ eapply triple_pre; [apply triple_settled_here|]. by intros s ->. }
  specialize (Hst0 ltac:(by eexists)). set (j := job s0) in *.
  assert (fst <$> Job.plan j = Some (PartSpec.size (FilePart.spec p))) as Hp.
  { destruct Hs0 as [Hs0 _]. eapply planned_writer; [done| |done]. fold j.
    destruct (JobInv.wf_planned j (lo_job _ _ _ (st_loose _ _ _ Hs0))) as [m ->]; [by rewrite Hst0|done]. }
  apply (triple_pre _ _ _ (at_rest j)); [|by intros s ->]. 
  assert (∀ reason, triple (at_rest j) (_ ← step (JobCommand.RequireAction reason); settled_here) answered) as Hstop.
  { intros reason. eapply (triple_bind _ _ _ (λ _ s, Sound s ∧ quiet s)); [|intros []; apply triple_settled_here].
    eapply triple_pre; [by apply step_keeps_frame; [apply frame_quiet|..]|]. by intros s [[? _] ?]. }
  eapply triple_bind; [apply rest_sync|]. intros synced. apply triple_if; intros _; [apply Hstop|].
  eapply triple_bind; [apply triple_record, calm_rest|]. intros rec. cbn beta. apply triple_pure. intros Hwf.
  apply triple_read. intros s1 Hs1. eapply triple_bind; [eapply triple_pre; [by apply (triple_lane_verify j)|by intros s ->]|].
  intros [digest|e]; cbn beta.
  - apply triple_at. intros s2 [[[Hs2 Hj2] _] Hd]. destruct (Hd digest eq_refl) as [He Hpr].
    eapply triple_pre; [eapply (triple_publish j); [done|]|by intros s ->].
    intros e Hse. apply He. destruct Hs1 as [[Hs1 _] _]. by rewrite (proj2 (lo_root _ _ _ (Sound_loose _ _ _ Hs1))).
  - eapply triple_pre; [apply Hstop|]. by intros s [? _].
Qed.
End Publish.
