(* ===== verification/SessionRun.v ===== *)
(** * A session from its start to where it rests

    The end of a session, the probe, the transfer and the whole of [run_with]: it always
    answers, keeps the invariant, and its answer is true. *)

From S2P Require Import Prelude.
From S2P Require Import Domain.
From S2P Require Import Segments.
From S2P Require Import SegmentsInv.
From S2P Require Import SegmentsRestore.
From S2P Require Import SegmentsThm.
From S2P Require Import JobMachine.
From S2P Require Import JobInv.
From S2P Require Import JobThm.
From S2P Require Import Retry.
From S2P Require Import Admission.
From S2P Require Import Persistence.
From S2P Require Import Transfer.
From S2P Require Import PersistenceInv.
From S2P Require Import TransferInv.
From S2P Require Import TransferThm.
From S2P Require Import PersistenceThm.
From S2P Require Import Files.
From S2P Require Import FilesInv.
From S2P Require Import StorageFile.
From S2P Require Import StorageInv.
From S2P Require Import StorageSteps.
From S2P Require Import StorageNames.
From S2P Require Import StorageThm.
From S2P Require Import Buffers.
From S2P Require Import Writer.
From S2P Require Import SessionLane.
From S2P Require Import Ports.
From S2P Require Import Coordinator.
From S2P Require Import SessionInv.
From S2P Require Import SessionJob.
From S2P Require Import SessionSteps.
From S2P Require Import SessionCommands.
From S2P Require Import SessionDisk.
From S2P Require Import SessionCheckpoint.
From S2P Require Import SessionWorkers.
From S2P Require Import SessionPublish.
Import Session.

Section Run.
Context (sha256 : list Z → digest32) (c : Coordinator.t) (root : Job.t).
Context (Hretry : RetryPolicy.wf (CoordinatorConfig.retry (Coordinator.config c))).
Context (Hconfig : CoordinatorConfig.valid (Coordinator.config c) = true).
Context (Hresolve : ∀ d dest, Coordinator.resolve c d = Ok dest → linkable (Destination.resolved dest)).
Local Abbreviation Loose := (Loose sha256 root).
Local Abbreviation Strict := (Strict sha256 root).
Local Abbreviation Sound := (Sound sha256 root).
Local Abbreviation triple_of := (triple_of sha256 root).
Local Abbreviation triple := (triple_of false).
Local Abbreviation keeps := (keeps sha256 root).
Local Abbreviation frame := (frame sha256).
Local Abbreviation step := (Coordinator.step sha256 c).
Local Abbreviation answered := (answered sha256 root).
Local Abbreviation checkpoint := (checkpoint sha256 c).

(** ** The end *)

(** What may start no connection starts none. *)
Lemma quiet_running s : quiet s ↔ running s = 0.
Proof.
  unfold quiet, running. split; [by intros [-> ->]|]. intros H.
  destruct (workers s), (finished s); try done; cbn in H; lia.
Qed.
Lemma triple_quiet {A} P (m : session A) Q :
  triple P m Q → triple (λ s, P s ∧ quiet s) m (λ a s, Q a s ∧ quiet s).
Proof.
  intros Hm s [Hs Hq]. specialize (Hm s Hs). destruct (m s) as [[a|e] s']; [|done]. destruct Hm as [Ha Hl].
  split; [|done]. split; [done|]. apply quiet_running. apply quiet_running in Hq. destruct Hl as [_ Hl].
  specialize (Hl eq_refl). unfold running in *. lia.
Qed.

Lemma kept_drain_control : keeps (drain_control sha256 c).
Proof.
  apply repeat_triple. intros n. apply triple_read. intros s0 [Hs0 Hn].
  destruct (control_open s0); cbn [negb]; [|apply triple_ret; by intros s ->].
  destruct (control s0) as [|ctl rest] eqn:Hc; [apply triple_ret; by intros s ->|].
  apply (triple_bind _ _ _ (λ _ s, Sound s ∧ (fuel s < n)%nat)).
  { intros s ->. cbn. split; [split|].
    - eapply Sound_unseen; [exact Hs0|by split; auto|done].
    - unfold fuel in *. rewrite Hc in Hn. cbn in *. lia.
    - split; [unfold fuel; rewrite Hc; cbn; lia|done]. }
  intros []. eapply triple_bind; [apply triple_bound_lt, kept_state_is|]. intros stopped.
  eapply (triple_bind _ _ _ (λ _ s, Sound s ∧ (fuel s < n)%nat)); [|intros []; by apply triple_ret].
  apply triple_bound_lt. destruct (bool_decide _ && stopped); [by apply kept_step|apply kept_ret].
Qed.

Lemma kept_settle_stopping : keeps (settle_stopping sha256 c).
Proof.
  apply kept_read. intros s0. apply kept_bind; [|intros []; by apply kept_step].
  destruct (has_unsynced s0 && negb (Job.replace_on_drain (job s0))); [|apply kept_ret].
  destruct (storage_failed s0); [apply kept_discard_unsynced|]. apply kept_bind; [by apply kept_checkpoint|]. intros [].
  apply kept_read. intros s1. destruct (storage_failed s1); [apply kept_discard_unsynced|apply kept_ret].
Qed.

Lemma lasting_true : lasting sha256 (λ _, True).
Proof. by split. Qed.
Lemma kept_release_part abandon : keeps (release_part sha256 c abandon).
Proof.
  eapply triple_conseq; [apply (triple_release_part _ _ _ (λ _, True)), lasting_true|by intros s Hs|].
  by intros [] s [? _].
Qed.

Lemma triple_finish : triple Sound (finish sha256 c) answered.
Proof.
  eapply triple_bind; [apply triple_join_all; intros; by apply triple_on_worker|]. intros [].
  eapply triple_bind; [apply triple_quiet, kept_drain_control|]. intros [].
  apply triple_read. intros s0 Hs0.
  apply (triple_bind _ _ _ (λ _ s, Sound s ∧ quiet s)).
  { eapply triple_pre; [apply triple_quiet|by intros s ->].
    destruct (Job.state (job s0)); try apply kept_ret; [apply kept_settle_stopping|].
    apply kept_bind; [apply kept_release_part|]. intros []. by apply kept_step. }
  intros []. eapply (triple_bind _ _ _ (λ (b : bool) s, (Sound s ∧ quiet s) ∧ (b = true → Job.state (job s) = JobState.Verifying))).
  { apply triple_gets. intros s Hs. split; [done|]. intros Hv. apply bool_decide_eq_true in Hv.
    by apply list_elem_of_singleton in Hv. }
  intros [].
  - eapply triple_pre; [by apply triple_verify|]. intros s [? Hv]. split; [done|]. intros _. by apply Hv.
  - eapply triple_pre; [apply triple_settled_here|]. by intros s [? _].
Qed.

(** ** The probe *)

(** A session that has opened nothing yet. *)
Definition fresh (s : session_state) : Prop := unopened s ∧ storage_failed s = false.
Lemma frame_fresh : frame fresh.
Proof.
  apply frame_and; [apply frame_unopened|]. split; [|done|done]. intros s s' <- Hw. apply Hw.
Qed.
Lemma stable_fresh : stable sha256 root (λ s, Sound s ∧ fresh s).
Proof. apply stable_and; [apply stable_Sound|apply frame_fresh]. Qed.

Lemma triple_await_probe :
  triple (λ s, Sound s ∧ fresh s) (await_probe sha256 c)
    (λ r s, Sound s ∧ match r with Some (Ok p) => fresh s ∧ u64 (Probe.total p) | _ => True end).
Proof.
  eapply (triple_bind _ _ _ (λ _ s, Sound s ∧ fresh s)).
  { apply triple_modify. intros s [Hs Hx]. split; [|done]. split; [|done]. eapply Sound_unseen; [exact Hs|by split; auto|done]. }
  intros []. apply repeat_triple. intros n.
  eapply triple_bind; [apply triple_await, stable_fresh|]. intros [].
  eapply (triple_bind _ _ _ (λ _ s, (Sound s ∧ fresh s) ∧ (fuel s < n)%nat)).
  { intros s [[Hs Hx] Hn]. pose proof (triple_recv sha256 root (fuel s) s (conj Hs (le_n _))) as Hr.
    destruct (recv s) as [[r|] s'] eqn:E; [|done]. destruct Hr as [[Hs' Hf] Hl]. split; [|done].
    split; [split; [done|]|]; [|by destruct Hl; lia]. unfold recv in E.
    destruct (control_open s); cbn in E; [|by injection E as _ <-]. destruct (control s); by injection E as _ <-. }
  intros [[ctl|]|].
  - eapply triple_bind; [eapply triple_pre; [by apply kept_on_control|by intros s [[? _] _]]|]. intros []. by apply triple_ret.
  - eapply (triple_bind _ _ _ (λ _ s, (Sound s ∧ fresh s) ∧ (fuel s < n)%nat)).
    { apply triple_modify. intros s [[Hs Hx] Hn]. split; [|done]. split; [|done]. split; [|done].
      eapply Sound_unseen; [exact Hs|by split; auto|done]. }
    intros []. eapply (triple_bind _ _ _ (λ _ s, (Sound s ∧ fresh s) ∧ (fuel s < n)%nat)); [|intros []; by apply triple_ret].
    apply triple_modify. intros s [[Hs Hx] Hn]. split; [|done]. split; [|done]. split; [|done].
    eapply Sound_unseen; [exact Hs|by split; auto|done].
  - apply triple_read. intros s0 [[Hs Hx] Hn]. apply triple_ret. intros s ->.
    destruct (probed s0) as [[p|e]|] eqn:Hp; cbn; [|done|done]. split; [done|]. split; [done|].
    by apply (lo_probed _ _ _ (Sound_loose _ _ _ Hs)).
Qed.

(** ** The transfer of a probed representation *)

Lemma max_segments_u64 : u64 (CoordinatorConfig.max_segments (Coordinator.config c)).
Proof.
  unfold CoordinatorConfig.valid in Hconfig. rewrite !andb_true_iff, !bool_decide_eq_true in Hconfig.
  unfold u64, u64_max. lia.
Qed.

Lemma triple_probe_succeeded total max_segments v :
  u64 total → u64 max_segments →
  triple (λ s, Sound s ∧ fresh s) (step (JobCommand.ProbeSucceeded total max_segments v)) (λ _ s, Sound s ∧ unopened s).
Proof.
  intros Ht Hm. apply triple_at. intros s0 [[Hs0 _] Hx0].
  eapply triple_conseq; [apply (step_triple _ _ _ _ (job s0) fresh)|..]; [apply frame_fresh|done|..].
  - by intros _ s [[_ ?] _].
  - by intros s ->.
  - intros [] s [[Hs [Hu Hf]] _]. split; [|done]. split; [done|]. unfold failed_ok. by rewrite Hf.
Qed.

Lemma triple_transfer_probed p :
  triple_of true (λ s, (Sound s ∧ fresh s) ∧ u64 (Probe.total p)) (transfer_probed sha256 c p) answered.
Proof.
  apply triple_pure. intros Hu. apply triple_read. intros s0 Hs0.
  apply (triple_pre _ _ _ (λ s, Sound s ∧ fresh s)); [|by intros s ->]. destruct (changed p (job s0)); clear Hs0 s0.
  { apply triple_weaken. eapply triple_bind; [eapply triple_pre; [by apply kept_step|by intros s [? _]]|]. intros []. apply triple_finish. }
  assert (∀ f, (∀ s, unseen s (f s) ∧ storage_failed (f s) = storage_failed s ∧ fuel (f s) = fuel s ∧ running (f s) = running s) →
    triple_of true (λ s, Sound s ∧ fresh s) (modify f) (λ _ s, Sound s ∧ fresh s)) as Haside.
  { intros f Hf. apply triple_modify. intros s [Hs [[Hq Hw] Hx]]. destruct (Hf s) as (Hun&Hfs&?&?). split; [|done].
    split; [by eapply Sound_unseen|]. pose proof Hun as [_ _ _ Hw' [Hwk Hfi] _ _ _]. unfold fresh, unopened, quiet in *.
    rewrite Hw', Hwk, Hfi, Hfs. done. }
  eapply triple_bind; [apply Haside; intros s; split_and!; try done; by split; auto|]. intros [].
  eapply (triple_bind _ _ _ (λ _ s, Sound s ∧ fresh s)).
  { destruct (Probe.ranges p); [by apply triple_ret|]. apply Haside. intros s. split_and!; try done. by split; auto. }
  intros []. cbn zeta. eapply triple_bind; [apply triple_weaken, triple_probe_succeeded; [done|]|].
  { destruct (Probe.ranges p); [apply max_segments_u64|unfold u64, u64_max; lia]. }
  intros []. eapply triple_bind; [apply triple_weaken, kept_open_part|]. intros [].
  apply (triple_pre _ _ _ Sound); [|by intros s [? _]].
  eapply triple_bind; [apply triple_weaken, kept_state_is|]. intros transferring.
  apply triple_if; intros _; [apply triple_weaken, triple_finish|].
  eapply triple_bind; [apply triple_weaken, kept_initial_split|]. intros [].
  eapply triple_bind; [by apply triple_transfer|]. intros [].
  eapply triple_pre; [apply triple_weaken, triple_finish|]. by intros s [? _].
Qed.

Lemma triple_drive : triple_of true (λ s, Sound s ∧ fresh s) (drive sha256 c) answered.
Proof.
  apply triple_read. intros s0 Hs0. pose proof Hs0 as [Hs [Hu Hx]].
  assert (triple_of true (λ s, s = s0) (
      _ ← step JobCommand.Start;
      answer ← await_probe sha256 c;
      match answer with
      | None => finish sha256 c
      | Some (Err error) => _ ← on_transport_error sha256 c error; finish sha256 c
      | Some (Ok p) => transfer_probed sha256 c p
      end) answered) as Hgo.
  { eapply triple_bind; [apply triple_weaken; eapply triple_pre; [by apply step_keeps_frame; [apply frame_fresh|..]|by intros s ->]|].
    intros []. eapply triple_bind; [apply triple_weaken, triple_await_probe|]. intros [[p|e]|].
    - eapply triple_pre; [apply triple_transfer_probed|]. by intros s [? [? ?]].
    - apply triple_weaken. eapply triple_bind; [eapply triple_pre; [by apply kept_on_transport_error|by intros s [? _]]|].
      intros []. apply triple_finish.
    - apply triple_weaken. eapply triple_pre; [apply triple_finish|]. by intros s [? _]. }
  destruct (Job.state (job s0)) eqn:Hst; try exact Hgo; apply triple_weaken.
  - eapply triple_bind; [eapply triple_pre; [apply (triple_open_part _ _ _ (job s0))|by intros s ->]|]. intros [].
    eapply triple_pre; [by apply triple_verify|]. intros s [? Hw]. split; [done|]. intros [[p f] Hp].
    destruct (Hw p f Hp) as [-> _]. done.
  - eapply triple_pre; [by apply (triple_resume_publish _ _ _ Hresolve (job s0))|]. intros s ->. destruct Hu as [Hq Hw].
    split; [|done]. by split.
Qed.

(** ** Closing *)

Lemma stable_Loose : stable sha256 root Loose.
Proof. by split. Qed.
Lemma Loose_forgotten s : Loose s → quiet s → Loose (set_leases ∅ s).
Proof.
  intros [] [Hw Hf]. split; try done; cbn.
  - intros i w. rewrite Hw. by intros ?%elem_of_nil.
  - intros i r. rewrite Hf. by intros ?%elem_of_nil.
Qed.
Lemma Loose_closed s : Loose s → Loose (set_lane None (disk s) s).
Proof. intros []. by split. Qed.

Lemma triple_close : triple Loose (close sha256 c) (λ _, Loose).
Proof.
  eapply (triple_bind _ _ _ (λ _, Loose)).
  { apply triple_modify. intros s Hs. split; [|done]. eapply Loose_unseen; [exact Hs|by split; auto]. }
  intros []. eapply triple_bind; [apply (triple_join_all_of _ _ _ Loose (λ _, Loose))|].
  - apply stable_Loose.
  - intros. by eapply Loose_joined.
  - intros. by apply triple_ret.
  - intros []. eapply (triple_bind _ _ _ (λ _, Loose)).
    { apply triple_modify. intros s [Hs Hq]. split; [|done]. by apply Loose_forgotten. }
    intros []. apply triple_read. intros s0 Hs0. destruct (writer s0); [|apply triple_ret; by intros s ->].
    eapply (triple_bind _ _ _ (λ _, Loose)); [|intros []; apply triple_wait, stable_Loose].
    apply triple_modify. intros s ->. split; [|done]. by apply Loose_closed.
Qed.

(** Where nobody works nothing is joined. *)
Lemma close_quiet s : quiet s →
  close sha256 c s =
    let s1 := set_leases ∅ (set_stop_workers true s) in
    match writer s with None => (Ok tt, s1) | Some _ => await sha256 c (set_lane None (disk s) s1) end.
Proof.
  intros [Hw Hf]. unfold close, cancel_workers. unfold mbind, st_bind, modify, gets.
  assert (∀ s1 : session_state, workers s1 = [] → finished s1 = [] →
    join_all sha256 c (λ _, mret tt) s1 = (Ok tt, s1)) as Hj.
  { intros s1 Hw1 Hf1. unfold join_all, repeat_within. unfold joins, fuel. cbn [Nat.add loop].
    unfold mbind, st_bind, join_next, gets. rewrite Hf1, Hw1. done. }
  rewrite Hj by done. cbn. by destruct (writer s).
Qed.
Lemma answered_forgotten r s : answered r s → answered r (set_leases ∅ (set_stop_workers true s)).
Proof.
  intros [[Hs Hq] Hr]. split; [|by destruct r]. split; [|done]. destruct Hs as [Hs Hf]. split; [|done].
  assert (Strict (set_stop_workers true s)) as Hs' by (eapply Strict_unseen; [exact Hs|by split; auto]).
  destruct Hs' as [Hl Hrec Hr' Hw]. split; try done. by apply Loose_forgotten.
Qed.
Lemma answered_closed r s : answered r s → answered r (set_lane None (disk s) s).
Proof.
  intros [[Hs Hq] Hr]. split; [|by destruct r]. split; [|done]. destruct Hs as [[Hl Hrec Hrows Hw] Hf]. split; [|done].
  split; try done. by apply Loose_closed.
Qed.
Lemma stable_answered r : stable sha256 root (answered r).
Proof.
  split; [intros s [[? _] _]; by apply Sound_loose|]. intros s s' [[Hs Hq] Hr] Hw Hl.
  split; [split; [by eapply stable_Sound|by eapply fr_waited, Hw; [apply frame_quiet|]]|].
  destruct r as [state|path]; [by rewrite (w_job _ _ _ Hw)|]. rewrite (w_job _ _ _ Hw).
  destruct Hr as (?&?&size&digest&?&Hla&?). split_and!; [done|done|]. exists size, digest. split_and!; [done| |done].
  by eapply fr_waited, Hw; [apply frame_landed|].
Qed.
Lemma triple_close_answered r : triple (answered r) (close sha256 c) (λ _, answered r).
Proof.
  intros s Hs. pose proof Hs as [[_ Hq] _]. rewrite close_quiet by done. cbn zeta.
  pose proof (answered_forgotten _ _ Hs) as Hs1. destruct (writer s).
  - pose proof (answered_closed _ _ Hs1) as Hs2.
    exact (triple_wait sha256 c root (answered r) (stable_answered r) _ Hs2).
  - split; [done|by apply lessens_same].
Qed.

(** ** The session *)

Lemma run_with_answers s r s' :
  Sound s → fresh s → run_with sha256 c s = (r, s') →
  match r with Ok answer => answered answer s' | Err e => Loose s' ∧ e ≠ Halt.Stuck end.
Proof.
  intros Hs Hx. unfold run_with. case_decide; [by intros [= <- <-]; split; [apply Sound_loose|]|].
  case_decide; [by intros [= <- <-]; split; [apply Sound_loose|]|].
  pose proof (triple_drive s (conj Hs Hx)) as Hd. destruct (drive sha256 c s) as [[answer|[e| |]] s1].
  - destruct Hd as [Hd _]. pose proof (triple_close_answered answer s1 Hd) as Hc.
    destruct (close sha256 c s1) as [[[]|e] s2]; intros [= <- <-]; by destruct Hc.
  - destruct Hd as [Hd _]. pose proof (triple_close s1 Hd) as Hc.
    destruct (close sha256 c s1) as [[[]|e'] s2]; intros [= <- <-]; destruct Hc; by split.
  - by intros [= <- <-].
  - by destruct Hd.
Qed.

(** ** Recovery *)

(** Where recovery leaves a job: nothing runs, nothing stops. *)
Definition recovered (s : session_state) : Prop :=
  Sound s ∧ Job.state (job s) ∉ [JobState.Probing; JobState.Transferring; JobState.Stopping; JobState.Cancelling].

Ltac among H := repeat (apply elem_of_cons in H as [H|H]); try (by apply elem_of_nil in H); rewrite ?H; try set_solver.
Lemma paused j j' : moved JobCommand.Pause j j' → JobInv.wf j →
  Job.state j ∈ [JobState.Probing; JobState.Transferring; JobState.Verifying] →
  Job.state j' = JobState.Stopping ∨ Job.state j' = JobState.Paused.
Proof.
  intros [[_ Hx]|(next&Hx%execute_lifecycle&->)] _ Hs.
  - exfalso. revert Hx. unfold Job.execute, Job.transition, Job.begin_stop, Job.to. unfold_monad.
    set_unfold in Hs. destruct Hs as [-> |[-> |[-> |?]]]; done.
  - cbn. set_unfold in Hs. destruct Hs as [Hs|[Hs|[Hs|?]]]; rewrite ?Hs in Hx; cbn in Hx; among Hx; tauto.
Qed.
Lemma drained j j' : moved JobCommand.WorkersDrained j j' → Job.state j = JobState.Stopping →
  Job.state j' ∉ [JobState.Probing; JobState.Transferring; JobState.Stopping; JobState.Cancelling].
Proof.
  intros [[_ Hx]|(next&Hx%execute_lifecycle&->)] Hs.
  - exfalso. revert Hx. unfold Job.execute, Job.transition, Job.workers_drained, Job.begin_stop, Job.to. unfold_monad.
    rewrite Hs. intros. by split_cases.
  - cbn [Job.state Job.set_version]. rewrite Hs in Hx. cbn in Hx. among Hx.
Qed.
Lemma cleaned j j' : moved JobCommand.CleanupFinished j j' → Job.state j = JobState.Cancelling →
  Job.state j' = JobState.Cancelled.
Proof.
  intros [[_ Hx]|(next&Hx%execute_lifecycle&->)] Hs.
  - exfalso. revert Hx. unfold Job.execute, Job.transition, Job.begin_stop, Job.to. unfold_monad.
    rewrite Hs. intros. by split_cases.
  - cbn [Job.state Job.set_version]. rewrite Hs in Hx. cbn in Hx. among Hx.
Qed.

Lemma triple_recover : triple (λ s, Sound s ∧ writer s = None) (recover sha256 c) (λ _, recovered).
Proof.
  assert (∀ j, Job.state j = JobState.Stopping → triple (λ s, Sound s ∧ job s = j) (step JobCommand.WorkersDrained) (λ _, recovered)) as Hdrain.
  { intros j Hj. eapply triple_conseq; [apply (step_moved _ _ _ JobCommand.WorkersDrained j (λ _, True)); done|by intros s [? ?]|].
    intros [] s [[Hs _] Hm]. split; [done|]. by eapply drained. }
  apply triple_read. intros s0 [Hs0 Hw0]. set (j := job s0).
  assert (Job.state j ∈ [JobState.Probing; JobState.Transferring; JobState.Verifying] →
    triple (λ s, s = s0) (_ ← step JobCommand.Pause; stopping ← state_is [JobState.Stopping];
    if stopping : bool then step JobCommand.WorkersDrained else mret tt) (λ _, recovered)) as Hpause.
  { intros Hst. eapply triple_bind; [eapply triple_pre; [by apply (step_moved _ _ _ JobCommand.Pause j (λ _, True))|by intros s ->]|].
    intros []. cbn beta. apply triple_at. intros s1 [[Hs1 _] Hm].
    apply paused in Hm; [|apply (lo_job _ _ _ (Sound_loose _ _ _ Hs0))|done].
    eapply triple_bind; [by apply (triple_gets _ _ _ _ (λ b s, s = s1 ∧ b = bool_decide (Job.state (job s1) ∈ [JobState.Stopping]))); intros s ->|].
    intros b. cbn beta. apply triple_pure. intros ->. case_bool_decide as Hb.
    - apply list_elem_of_singleton in Hb. eapply triple_pre; [by apply (Hdrain (job s1))|by intros s ->].
    - apply triple_ret. intros s ->. split; [done|]. destruct Hm as [Hm|Hm]; rewrite Hm in *; set_solver. }
  destruct (Job.state j) eqn:Hj; try (apply triple_ret; intros s ->; split; [done|fold j; rewrite Hj; set_solver]);
    try (apply Hpause; set_solver).
  - eapply triple_pre; [by apply (Hdrain j)|by intros s ->].
  - eapply (triple_bind _ _ _ (λ _ s, Sound s ∧ job s = j)).
    + eapply triple_pre; [apply (triple_drop_part _ _ _ (λ s, job s = j))|by intros s ->].
      split; [intros s s' <- Hw; by apply (w_job _ _ _ Hw)|done].
    + intros []. eapply triple_conseq; [by apply (step_moved _ _ _ JobCommand.CleanupFinished j (λ _, True))|by intros s [? ?]|].
      intros [] s [[Hs _] Hm]. split; [done|]. apply cleaned in Hm as ->; [set_solver|done].
Qed.
End Run.
