(* ===== verification/CoordinatorThm.v ===== *)
(** * Theorems on the coordinator

    Whole sessions, over every script of what connections, controls, the clock and other
    programs do, and of every point at which the program may stop. *)

From S2P Require Import Prelude.
From S2P Require Import Domain.
From S2P Require Import Segments.
From S2P Require Import SegmentsInv.
From S2P Require Import SegmentsRestore.
From S2P Require Import SegmentsThm.
From S2P Require Import JobMachine.
From S2P Require Import JobInv.
From S2P Require Import JobThm.
From S2P Require Import Retry.
From S2P Require Import Admission.
From S2P Require Import AdmissionThm.
From S2P Require Import Persistence.
From S2P Require Import Transfer.
From S2P Require Import PersistenceInv.
From S2P Require Import TransferInv.
From S2P Require Import TransferThm.
From S2P Require Import PersistenceThm.
From S2P Require Import Files.
From S2P Require Import FilesInv.
From S2P Require Import StorageFile.
From S2P Require Import StorageInv.
From S2P Require Import StorageSteps.
From S2P Require Import StorageNames.
From S2P Require Import StorageThm.
From S2P Require Import Buffers.
From S2P Require Import Writer.
From S2P Require Import SessionLane.
From S2P Require Import Ports.
From S2P Require Import Coordinator.
From S2P Require Import SessionInv.
From S2P Require Import SessionJob.
From S2P Require Import SessionSteps.
From S2P Require Import SessionCommands.
From S2P Require Import SessionDisk.
From S2P Require Import SessionCheckpoint.
From S2P Require Import SessionWorkers.
From S2P Require Import SessionPublish.
From S2P Require Import SessionRun.
Import Session.

(** ** What the composition root promises *)

(** A coordinator [new] accepts, with a policy its constructor accepts, whose destinations
    are names of their own: never those of a part. *)
Record usable (c : Coordinator.t) : Prop := {
  us_new : Coordinator.new c = Ok c;
  us_retry : RetryPolicy.wf (CoordinatorConfig.retry (Coordinator.config c));
  us_resolve : ∀ d dest, Coordinator.resolve c d = Ok dest → ∃ leaf, Destination.resolved dest = Leaf leaf }.

Lemma usable_config c : usable c → CoordinatorConfig.valid (Coordinator.config c) = true.
Proof.
  intros [Hn _ _]. unfold Coordinator.new in Hn. destruct (CoordinatorConfig.valid _); [done|]. by cbn in Hn.
Qed.
Lemma usable_linkable c : usable c → ∀ d dest, Coordinator.resolve c d = Ok dest → linkable (Destination.resolved dest).
Proof. intros [_ _ Hr] d dest (leaf&->)%Hr. by split. Qed.

(** What a session starts from is what it leaves: a job, the database that describes it
    and a disk that holds every byte the database calls durable. *)
Section Resumable.
Context (sha256 : list Z → digest32).

Record resumable (d : Db.t) (disk : Fs.t) (j : Job.t) : Prop := {
  re_db : db_wf d;
  re_job : JobInv.wf j;
  re_saved : saved d j;
  re_intent : intent_ok d j;
  re_rows : ∀ b, covered (row_ranges d (JobId.get (Job.id j))) b → covered (durable_of j) b;
  re_disk : disk_ok disk;
  re_proved : ∀ row, row ∈ job_rows d (JobId.get (Job.id j)) →
    proved sha256 disk (JobId.get (Job.id j)) (ExtentRow.generation row) (extent_at row) }.

Lemma begin_Sound j controls connections origin governor repo disk now jitter script :
  resumable (SqliteRepository.db repo) disk j → u64 now → 0 ≤ jitter →
  let s := begin j controls connections origin governor repo disk now jitter script in
  Sound sha256 j s ∧ fresh s.
Proof.
  intros [] Hnow Hj s. unfold u64 in Hnow. split; [|done]. split; [|done].
  assert (recorded j (SqliteRepository.db repo) j) as Hrec by (split; [done|done|done|intros _; apply re_saved0]).
  assert (Loose sha256 j s) as Hl.
  { split; try done; cbn; try (by intros; simplify_map_eq).
    - by left.
    - intros row Hrow. apply durable_closed; [done|]. intros b Hb. apply re_rows0. exists (row_range row).
      split; [|done]. by apply list_elem_of_fmap_2.
    - apply NoDup_nil_2.
    - by intros i w ?%elem_of_nil.
    - by intros i r ?%elem_of_nil. }
  by split.
Qed.

(** What comes back of a job from the tables. *)
Lemma loaded_resumable d disk j :
  db_wf d → JobInv.wf j → saved d j → intent_ok d j → disk_ok disk →
  (∀ row, row ∈ job_rows d (JobId.get (Job.id j)) →
    proved sha256 disk (JobId.get (Job.id j)) (ExtentRow.generation row) (extent_at row)) →
  ∃ segs row, Db.jobs d !! JobId.get (Job.id j) = Some row ∧
    let j' := Job.set_segments segs j in
    load_job d (JobId.get (Job.id j)) row = Ok j' ∧ resumable d disk j' ∧
    ∀ b, covered (durable_of j') b ↔ covered (row_ranges d (JobId.get (Job.id j))) b.
Proof.
  intros Hd Hj Hs Hi Hk Hp. destruct (saved_job_recovers d j Hd Hj Hs) as (segs&row&Hrow&Hl&Hplan&_&Hcov&_&Hj'&Hs').
  exists segs, row. split; [done|]. split; [done|]. split; [|done]. split; try done.
  - intros r Hr Hg. cbn in *. rewrite Hplan. by apply Hi.
  - intros b Hb. by apply Hcov.
Qed.

Definition survives (j : Job.t) (d : Db.t) (disk : Fs.t) : Prop :=
  ∃ row j', Db.jobs d !! JobId.get (Job.id j) = Some row ∧ load_job d (JobId.get (Job.id j)) row = Ok j' ∧
    resumable d disk j' ∧ Job.id j' = Job.id j ∧ Job.spec j' = Job.spec j ∧
    Generation.get (Job.generation j) ≤ Generation.get (Job.generation j') ∧
    (Job.generation j' = Job.generation j → ∀ b, covered (durable_of j) b → covered (durable_of j') b).

Lemma Loose_survives root s : Loose sha256 root s → survives root (db s) (disk s).
Proof.
  intros Hl. pose proof (lo_root _ _ _ Hl) as [Hid Hsp].
  assert (∀ j, Job.id j = Job.id root → Job.spec j = Job.spec root → JobInv.wf j → recorded root (db s) j →
    survives root (db s) (disk s)) as Hgo.
  { intros j Hjid Hjsp Hj [Hsv Hin Hg Hb].
    destruct (loaded_resumable (db s) (disk s) j) as (segs&row&Hrow&Hload&Hre&Hcov);
      [apply (lo_db _ _ _ Hl)|done|done|done|apply (lo_disk _ _ _ Hl)|..].
    { pose proof (lo_proved _ _ _ Hl) as Hp. unfold job_extents, jid in Hp. by rewrite Hid, <-Hjid in Hp. }
    unfold survives. rewrite <-Hjid, <-Hjsp. exists row, (Job.set_segments segs j). split_and!; try done.
    intros Hgen b Hd. apply Hcov. by apply Hb. }
  destruct (lo_tracked _ _ _ Hl) as [Hrec|(cmd&next&Hty&Hx&Hv&Hrec)].
  - apply (Hgo (job s)); [done|done|apply (lo_job _ _ _ Hl)|done].
  - pose proof (JobInv.execute_frame _ _ _ _ Hx) as (Hnid&Hnsp&_).
    apply (Hgo (Job.set_version (Job.version (job s) + 1) next)); [cbn; congruence..| |done].
    apply JobInv.set_version_wf; [|pose proof (JobInv.wf_version _ (lo_job _ _ _ Hl)); unfold u64 in *; lia].
    by apply (JobInv.execute_wf _ _ _ _ (lo_job _ _ _ Hl) Hty) in Hx as [? _].
Qed.
End Resumable.

(** ** Sessions *)

Section Sessions.
Context (sha256 : list Z → digest32) (c : Coordinator.t).

(** A session around a job: whatever it is sent, whatever happens while it waits. *)
Record started (j : Job.t) (s : session_state) : Prop := {
  sd_begin : s = begin j (control s) (connections s) (origin s) (governor s) (repository s) (disk s) (now s) (jitter s) (script s);
  sd_from : resumable sha256 (db s) (disk s) j;
  sd_clock : u64 (now s) ∧ 0 ≤ jitter s }.

Lemma started_Sound j s : started j s → Sound sha256 j s ∧ fresh s.
Proof. intros [E Hre [Hn Hj]]. rewrite E. by apply begin_Sound. Qed.
Lemma session_runs j s r s' :
  usable c → started j s → run_with sha256 c s = (r, s') →
  match r with Ok answer => answered sha256 j answer s' | Err e => Loose sha256 j s' ∧ e ≠ Halt.Stuck end.
Proof.
  intros Hc [Hs Hf]%started_Sound Hr. eapply run_with_answers; [apply Hc|by apply usable_config|by apply usable_linkable|done..].
Qed.

(** C3: whatever the connections, the server, the user, the clock and other programs do, and
    however long the program lives, a session comes to an answer, an error or the crash:
    none of its loops runs out of the fuel of the model. *)
Theorem session_always_ends j s :
  usable c → started j s → (run_with sha256 c s).1 ≠ Err Halt.Stuck.
Proof.
  intros Hc Hs. destruct (run_with sha256 c s) as [r s'] eqn:Hr. eapply session_runs in Hr; [|done..].
  destruct r as [?|e]; [done|]. destruct Hr. cbn. congruence.
Qed.

(** C1: a session may crash at any await, fail, or answer: from the database it leaves
    [load_job] rebuilds the job, with its identity and specification, in a state any later
    session can start from (each recorded extent has its digest in the part file on the
    disk), and while the representation is the same no byte that was durable is lost. *)
Theorem session_survives j s r s' :
  usable c → started j s → run_with sha256 c s = (r, s') → survives sha256 j (db s') (disk s').
Proof.
  intros Hc Hs Hr. eapply session_runs in Hr; [|done..]. apply Loose_survives. destruct r as [answer|e].
  - destruct Hr as [[Hr _] _]. by apply Sound_loose.
  - apply Hr.
Qed.

(** C2: [Published(path)] means that the name is a file of the planned size whose SHA-256 is
    the one the job expects if it expects one, that the job is completed, and that the
    database says so. *)
Theorem published_is_what_was_planned j s path s' :
  usable c → started j s → run_with sha256 c s = (Ok (SessionEnd.Published path), s') →
  ∃ size digest, fst <$> Job.plan (job s') = Some size ∧ file_at sha256 (disk s') path size digest ∧
    (∀ e, JobSpec.expected_sha256 (Job.spec j) = Some e → e = digest) ∧
    Job.state (job s') = JobState.Completed ∧ saved (db s') (job s').
Proof.
  intros Hc Hs Hr. eapply session_runs in Hr; [|done..].
  destruct Hr as [[[Hst _] _] (Hcomp&_&size&digest&Hp&[_ Hl]&He)].
  exists size, digest. split_and!; try done. apply (st_saved _ _ _ Hst).
Qed.

(** C4: the state a session answers with is the one the database holds, for the job it was
    given, and no connection of it is left. *)
Theorem answer_is_the_saved_state j s answer s' :
  usable c → started j s → run_with sha256 c s = (Ok answer, s') →
  workers s' = [] ∧ finished s' = [] ∧
  ∃ row j', Db.jobs (db s') !! JobId.get (Job.id j) = Some row ∧
    load_job (db s') (JobId.get (Job.id j)) row = Ok j' ∧
    Job.state j' = match answer with
                   | SessionEnd.Settled state => state
                   | SessionEnd.Published _ => JobState.Completed
                   end.
Proof.
  intros Hc Hs Hr. eapply session_runs in Hr; [|done..]. destruct Hr as [[[Hst _] [Hw Hf]] Ha].
  pose proof (st_loose _ _ _ Hst) as Hl. split_and!; [done..|]. rewrite <-(proj1 (lo_root _ _ _ Hl)).
  destruct (saved_job_recovers (db s') (job s') (lo_db _ _ _ Hl) (lo_job _ _ _ Hl) (rc_saved _ _ _ (st_saved _ _ _ Hst)))
    as (segs&row&Hrow&Hload&_).
  exists row, (Job.set_segments segs (job s')). split_and!; [done..|]. destruct answer; [done|]. apply Ha.
Qed.

(** [recover] brings a job that was at work when the program stopped to rest: when it
    succeeds nothing runs or stops any more, and whatever happens to it the job can be
    loaded again with every durable byte. *)
Theorem recovery_rests j s r s' :
  usable c → started j s → recover sha256 c s = (r, s') →
  survives sha256 j (db s') (disk s') ∧ r ≠ Err Halt.Stuck ∧
  (r = Ok tt → saved (db s') (job s') ∧
     Job.state (job s') ∉ [JobState.Probing; JobState.Transferring; JobState.Stopping; JobState.Cancelling]).
Proof.
  intros Hc Hs Hr. destruct (started_Sound j s Hs) as [Hsound [[_ Hw] _]].
  pose proof (triple_recover sha256 c j (us_retry c Hc) (usable_config c Hc) (usable_linkable c Hc) s (conj Hsound Hw)) as Ht. rewrite Hr in Ht. destruct r as [[]|e].
  - destruct Ht as [[[Hst ?] Hn] _]. split_and!; [by apply Loose_survives, st_loose|done|]. intros _.
    split; [apply (st_saved _ _ _ Hst)|done].
  - destruct Ht as [Hl He]. split_and!; [by apply Loose_survives| |done]. congruence.
Qed.
End Sessions.

(** ** A run

    A job of three bytes just added, two connections; a hash that pads to 32 bytes. *)

Definition example_sha256 (bytes : list Z) : digest32 := resize 32 0 bytes.
Definition example_coordinator : Coordinator.t :=
  Coordinator.Make (CoordinatorConfig.Make 2 8 1 1000 8 (RetryPolicy.Make 5 100 800)) 8388608
    (λ _, Ok tt) (λ _, Ok (Destination.Make [97] (Leaf [97]))).
Definition example_queue : Db.t :=
  db_after_all Limits.default_ [ReserveId; CommitAdd (AddUnitOfWork.Make example_added example_receipt)] Db.empty.
Definition idle : Wait.t := Wait.Make [] true false.
(** The probe answers, both connections transfer their share, and time enough. *)
Definition example_script : list Wait.t :=
  [idle; idle; Wait.Make [Moment.Probed (Ok (Probe.Make 3 (Some (replicate 32 7))))] true false;
   idle; idle; idle; idle; idle; idle;
   Wait.Make [Moment.Work 0 (Stimulus.Opened (Ok tt)); Moment.Work 1 (Stimulus.Opened (Ok tt));
      Moment.Work 0 (Stimulus.Acquired (Ok tt)); Moment.Work 1 (Stimulus.Acquired (Ok tt));
      Moment.Work 1 (Stimulus.Read (Ok [3])); Moment.Work 0 (Stimulus.Read (Ok [1]));
      Moment.Work 0 (Stimulus.Read (Ok [2])); Moment.Work 0 Stimulus.Accepted; Moment.Work 1 Stimulus.Accepted;
      Moment.Work 0 (Stimulus.Read (Ok [])); Moment.Work 1 (Stimulus.Read (Ok []))] true false]
  ++ replicate 60 idle.
Definition example_session (script : list Wait.t) : session_state :=
  begin example_added [] 2 [] None (SqliteRepository.Make example_queue Limits.default_ []) Fs.empty 5 6 script.

Lemma example_usable : usable example_coordinator.
Proof.
  split; [reflexivity|vm_compute; repeat split; discriminate|]. intros d dest [= <-]. by exists [97].
Qed.
Lemma example_queue_wf : db_wf example_queue.
Proof.
  apply (reachable_db Limits.default_); [done..|]. apply db_after_all_reachable; [|constructor].
  constructor; [exact I|]. constructor; [|constructor].
  split; [apply example_key_typed|apply example_add_spec_typed].
Qed.
Lemma example_started script : started example_sha256 example_added (example_session script).
Proof.
  split; [reflexivity| |split; [by split|done]]. 
  assert (job_rows example_queue 1 = []) as Hrows by reflexivity.
  split; unfold db; cbn [repository SqliteRepository.db example_session begin disk].
  - apply example_queue_wf.
  - apply JobInv.new_wf. apply example_add_spec_typed.
  - split; [apply example_add_spec_typed|reflexivity|reflexivity|]. by intros b (r&?%elem_of_nil&_).
  - intros row Hr. exfalso. revert Hr. by vm_compute.
  - change (JobId.get (Job.id example_added)) with 1. unfold row_ranges. rewrite Hrows. by intros b (r&?%elem_of_nil&_).
  - split; intros; by simplify_map_eq.
  - change (JobId.get (Job.id example_added)) with 1. rewrite Hrows. by intros row ?%elem_of_nil.
Qed.

Definition example_run (script : list Wait.t) : result Halt.t SessionEnd.t * session_state :=
  run_with example_sha256 example_coordinator (example_session script).

Lemma session_always_ends_witness : (example_run (take 7 example_script)).1 ≠ Err Halt.Stuck.
Proof.
  exact (session_always_ends example_sha256 example_coordinator example_added
    (example_session (take 7 example_script)) example_usable (example_started _)).
Defined.
Lemma session_survives_witness :
  (example_run (take 30 example_script)).1 = Err Halt.Crashed ∧
  survives example_sha256 example_added (db (example_run (take 30 example_script)).2)
    (disk (example_run (take 30 example_script)).2).
Proof.
  split; [vm_compute; reflexivity|].
  exact (session_survives example_sha256 example_coordinator example_added
    (example_session (take 30 example_script)) (example_run (take 30 example_script)).1
    (example_run (take 30 example_script)).2 example_usable (example_started _) (surjective_pairing _)).
Defined.
Lemma example_publishes : (example_run example_script).1 = Ok (SessionEnd.Published (Leaf [97])).
Proof. vm_compute. reflexivity. Qed.
Lemma example_published : run_with example_sha256 example_coordinator (example_session example_script) =
  (Ok (SessionEnd.Published (Leaf [97])), (example_run example_script).2).
Proof. rewrite <-example_publishes. apply surjective_pairing. Qed.

Lemma published_is_what_was_planned_witness : ∃ size digest,
  fst <$> Job.plan (job (example_run example_script).2) = Some size ∧
  file_at example_sha256 (disk (example_run example_script).2) (Leaf [97]) size digest.
Proof.
  destruct (published_is_what_was_planned example_sha256 example_coordinator example_added (example_session example_script)
    (Leaf [97]) (example_run example_script).2 example_usable (example_started _) example_published) as (size&digest&Hp&Hf&_).
  exists size, digest. split; [exact Hp|exact Hf].
Defined.
Lemma answer_is_the_saved_state_witness : ∃ row j',
  load_job (db (example_run example_script).2) 1 row = Ok j' ∧ Job.state j' = JobState.Completed.
Proof.
  destruct (answer_is_the_saved_state example_sha256 example_coordinator example_added (example_session example_script)
    (SessionEnd.Published (Leaf [97])) (example_run example_script).2 example_usable (example_started _) example_published)
    as (_&_&row&j'&_&Hl&Hs).
  exists row, j'. split; [exact Hl|exact Hs].
Defined.
(** The job of [example_db], which was transferring when the program stopped. *)
Definition example_crashed : session_state :=
  begin example_live [] 1 [] None (SqliteRepository.Make example_db Limits.default_ []) Fs.empty 5 6 (replicate 9 idle).
Lemma example_crashed_started : started example_sha256 example_live example_crashed.
Proof.
  split; [reflexivity| |split; [by split|done]].
  assert (job_rows example_db 1 = []) as Hrows by reflexivity.
  split; unfold db; cbn [repository SqliteRepository.db example_crashed begin disk];
    try change (JobId.get (Job.id example_live)) with 1.
  - apply example_db_wf.
  - apply example_live_wf.
  - apply example_live_saved.
  - intros row Hr. exfalso. revert Hr. by vm_compute.
  - unfold row_ranges. rewrite Hrows. by intros b (r&?%elem_of_nil&_).
  - split; intros; by simplify_map_eq.
  - rewrite Hrows. by intros row ?%elem_of_nil.
Qed.
Lemma recovery_rests_witness :
  let s' := (recover example_sha256 example_coordinator example_crashed).2 in
  survives example_sha256 example_live (db s') (disk s') ∧ saved (db s') (job s') ∧
  Job.state (job s') = JobState.Paused.
Proof.
  cbv zeta. assert ((recover example_sha256 example_coordinator example_crashed).1 = Ok tt) as Hok by (vm_compute; reflexivity).
  destruct (recovery_rests example_sha256 example_coordinator example_live example_crashed
    (recover example_sha256 example_coordinator example_crashed).1
    (recover example_sha256 example_coordinator example_crashed).2
    example_usable example_crashed_started (surjective_pairing _)) as [Hs [_ Hr]].
  split; [exact Hs|]. split; [exact (proj1 (Hr Hok))|vm_compute; reflexivity].
Defined.
