(* ===== verification/Scheduler.v ===== *)
(** * The scheduler

    [src/crates/runtime/src/scheduler.rs]: who runs, on how many connections, and until
    when the others wait.  The scheduler calls the coordinator through an interface
    ([Engine]); its sessions run as tasks of their own, so what they do between two turns
    of the loop (receive a control, end, tell the governor) is part of a script, and so
    are the commands that arrive and every reading of the clock. *)

From S2P Require Import Prelude.
From S2P Require Import Domain.
From S2P Require Import JobMachine.
From S2P Require Import Origin.
From S2P Require Import Coordinator.

Module SchedulerConfig.
Record t : Type := Make { max_active : Z; connections : Z; per_job : Z; resident : bool }.
Definition valid (c : t) : bool :=
  bool_decide (1 ≤ max_active c ≤ 4096) && bool_decide (1 ≤ connections c ≤ 4096)
  && bool_decide (1 ≤ per_job c ≤ connections c).
End SchedulerConfig.

Module SchedulerCommand.
Inductive t : Type := Admit (job : Job.t) | Pause (id : JobId.t) | Cancel (id : JobId.t) | Shutdown.
End SchedulerCommand.

Definition SessionResult : Type := result RunError.t SessionEnd.t.

Module Outcome.
Record t : Type := Make { id : JobId.t; job : option Job.t; result : option SessionResult }.
Definition settled (j : Job.t) : t := Make (Job.id j) (Some j) None.
Definition failed (id : JobId.t) (error : RunError.t) : t := Make id None (Some (Err error)).
Definition set_result (r : option SessionResult) (o : t) : t := Make (id o) (job o) r.
End Outcome.

Module Entry.
Record t : Type := Make { job : Job.t; origin : OriginId }.
Definition id (e : t) : JobId.t := Job.id (job e).
End Entry.

(** A running session as the scheduler sees it: the messages its channel still holds,
    and whether anybody receives them. *)
Module Active.
Record t : Type := Make { control : list Control.t; receiving : bool; origin : OriginId; grant : Z }.
Definition capacity : nat := 4.
Definition try_send (c : Control.t) (a : t) : option t :=
  if receiving a && bool_decide (length (control a) < capacity)%nat
  then Some (Make (control a ++ [c]) (receiving a) (origin a) (grant a)) else None.
End Active.

Module Queue.
Record t : Type := Make { ready : list Entry.t; waiting : list Entry.t; done : list Outcome.t }.
Definition empty : t := Make [] [] [].
Definition set_ready v q := Make v (waiting q) (done q).
Definition set_waiting v q := Make (ready q) v (done q).
Definition set_done v q := Make (ready q) (waiting q) v.
Definition push (o : Outcome.t) (q : t) : t := set_done (done q ++ [o]) q.

Definition take (e : Entry.t) (q : t) : t :=
  match Job.state (Entry.job e) with
  | JobState.Queued | JobState.Verifying | JobState.Publishing => set_ready (ready q ++ [e]) q
  | JobState.RetryWait => set_waiting (waiting q ++ [e]) q
  | _ => push (Outcome.settled (Entry.job e)) q
  end.
(** The first entry of a job, and the others. *)
Definition split (id : JobId.t) (l : list Entry.t) : option (Entry.t * list Entry.t) :=
  match list_find (λ e, Entry.id e = id) l with
  | Some (i, e) => Some (e, delete i l)
  | None => None
  end.
Definition remove (id : JobId.t) (q : t) : option Entry.t * t :=
  match split id (ready q) with
  | Some (e, l) => (Some e, set_ready l q)
  | None =>
      match split id (waiting q) with
      | Some (e, l) => (Some e, set_waiting l q)
      | None => (None, q)
      end
  end.
Definition idle (q : t) : bool := bool_decide (ready q = []) && bool_decide (waiting q = []).
Definition drain (q : t) : list Entry.t := ready q ++ waiting q.
End Queue.

(** What the scheduler asks of the coordinator.  [W] is everything behind it. *)
Class Engine (W : Type) : Type := {
  origin_of : Job.t → W → OriginId;
  recover_job : Job.t → st W Halt.t Job.t;
  command_job : Job.t → JobCommand.t → st W Halt.t Job.t }.
(** A job that comes back is the job that was given, and one whose retry fell due waits
    for it no longer. *)
Class EngineLaws (W : Type) `{Engine W} : Prop := {
  recover_id j w j' w' : recover_job j w = (Ok j', w') → Job.id j' = Job.id j;
  command_id j cmd w j' w' : command_job j cmd w = (Ok j', w') → Job.id j' = Job.id j;
  due_moves j now w j' w' : command_job j (JobCommand.RetryDue now) w = (Ok j', w') →
    Job.state j' ≠ JobState.RetryWait }.

(** What happens while the scheduler waits or calls: sessions take their messages or hang
    up, the governor hears of an origin, the world behind the coordinator moves on. *)
Module Occurrence.
Inductive t {W : Type} : Type :=
| Receives (id : Z) (messages : nat)
| HangsUp (id : Z)
| Throttled (origin : OriginId) (retry_after_ms : option Z) (now : Z)
| Failed (origin : OriginId) (now : Z)
| Succeeded (origin : OriginId) (now : Z)
| World (w : W).
Arguments t : clear implicits.
End Occurrence.

(** The branches of the select.  A task that ends gives back what [run_with] made of the
    job it was started with. *)
Module Wakeup.
Inductive t : Type :=
| Ended (task : nat) (run_with : Job.t → Job.t * SessionResult)
| Panicked (task : nat)
| Received (command : option SchedulerCommand.t)
| Woke.
End Wakeup.
Module Turn.
Record t {W : Type} : Type := Make { happens : list (Occurrence.t W); wakeup : option Wakeup.t }.
Arguments t : clear implicits.
End Turn.

Module Scheduler.
(** [clock] holds the next readings of the clock, [now] the last one. *)
Record t {W : Type} : Type := Make {
  world : W;
  governor : OriginGovernor.t;
  queue : Queue.t;
  active : gmap Z Active.t;
  owners : gmap nat JobId.t;
  sessions : list (nat * Job.t);
  spawned : nat;
  last : gmap Z SessionResult;
  deferred : list (JobId.t * Control.t);
  used : Z;
  open : bool;
  stopping : bool;
  deadline : option Z;
  clock : list Z;
  now : Z }.
Arguments t : clear implicits.

Section Fields.
Context {W : Type}.
Implicit Types s : t W.
Definition set_world v s := Make W v (governor s) (queue s) (active s) (owners s) (sessions s) (spawned s)
  (last s) (deferred s) (used s) (open s) (stopping s) (deadline s) (clock s) (now s).
Definition set_governor v s := Make W (world s) v (queue s) (active s) (owners s) (sessions s) (spawned s)
  (last s) (deferred s) (used s) (open s) (stopping s) (deadline s) (clock s) (now s).
Definition set_queue v s := Make W (world s) (governor s) v (active s) (owners s) (sessions s) (spawned s)
  (last s) (deferred s) (used s) (open s) (stopping s) (deadline s) (clock s) (now s).
Definition set_active v s := Make W (world s) (governor s) (queue s) v (owners s) (sessions s) (spawned s)
  (last s) (deferred s) (used s) (open s) (stopping s) (deadline s) (clock s) (now s).
Definition set_owners v s := Make W (world s) (governor s) (queue s) (active s) v (sessions s) (spawned s)
  (last s) (deferred s) (used s) (open s) (stopping s) (deadline s) (clock s) (now s).
Definition set_sessions v s := Make W (world s) (governor s) (queue s) (active s) (owners s) v (spawned s)
  (last s) (deferred s) (used s) (open s) (stopping s) (deadline s) (clock s) (now s).
Definition set_spawned v s := Make W (world s) (governor s) (queue s) (active s) (owners s) (sessions s) v
  (last s) (deferred s) (used s) (open s) (stopping s) (deadline s) (clock s) (now s).
Definition set_last v s := Make W (world s) (governor s) (queue s) (active s) (owners s) (sessions s)
  (spawned s) v (deferred s) (used s) (open s) (stopping s) (deadline s) (clock s) (now s).
Definition set_deferred v s := Make W (world s) (governor s) (queue s) (active s) (owners s) (sessions s)
  (spawned s) (last s) v (used s) (open s) (stopping s) (deadline s) (clock s) (now s).
Definition set_used v s := Make W (world s) (governor s) (queue s) (active s) (owners s) (sessions s)
  (spawned s) (last s) (deferred s) v (open s) (stopping s) (deadline s) (clock s) (now s).
Definition set_open v s := Make W (world s) (governor s) (queue s) (active s) (owners s) (sessions s)
  (spawned s) (last s) (deferred s) (used s) v (stopping s) (deadline s) (clock s) (now s).
Definition set_stopping v s := Make W (world s) (governor s) (queue s) (active s) (owners s) (sessions s)
  (spawned s) (last s) (deferred s) (used s) (open s) v (deadline s) (clock s) (now s).
Definition set_deadline v s := Make W (world s) (governor s) (queue s) (active s) (owners s) (sessions s)
  (spawned s) (last s) (deferred s) (used s) (open s) (stopping s) v (clock s) (now s).
Definition set_clock v s := Make W (world s) (governor s) (queue s) (active s) (owners s) (sessions s)
  (spawned s) (last s) (deferred s) (used s) (open s) (stopping s) (deadline s) v (now s).
Definition set_now v s := Make W (world s) (governor s) (queue s) (active s) (owners s) (sessions s)
  (spawned s) (last s) (deferred s) (used s) (open s) (stopping s) (deadline s) (clock s) v.
End Fields.
End Scheduler.

Section Loop.
Context {W : Type} `{Engine W} (config : SchedulerConfig.t).

Definition sched (A : Type) : Type := st (Scheduler.t W) Halt.t A.
Definition on_queue (f : Queue.t → Queue.t) : sched unit :=
  modify (λ s, Scheduler.set_queue (f (Scheduler.queue s)) s).

(** [clock.now_ms()]. *)
Definition now_ms : sched Z := λ s,
  match Scheduler.clock s with
  | [] => (Ok (Scheduler.now s), s)
  | t :: rest => (Ok t, Scheduler.set_now t (Scheduler.set_clock rest s))
  end.
(** A call of the coordinator: its error is an answer, a crash is not. *)
Definition call {A} (m : st W Halt.t A) : sched (result RunError.t A) := λ s,
  let '(r, w) := m (Scheduler.world s) in
  (match r with
   | Ok a => Ok (Ok a)
   | Err (Halt.Failed e) => Ok (Err e)
   | Err halt => Err halt
   end, Scheduler.set_world w s).

Definition enqueue (j : Job.t) : sched unit :=
  origin ← gets (λ s, origin_of j (Scheduler.world s));
  on_queue (Queue.take (Entry.Make j origin)).
(** [settle], and what its callers do with an error. *)
Definition settle (j : Job.t) : sched (result RunError.t Job.t) :=
  if decide (Job.state j ∈ [JobState.Probing; JobState.Transferring; JobState.Stopping; JobState.Cancelling])
  then call (recover_job j) else mret (Ok j).

(** *** Taking work in *)

Fixpoint intake (seen : list JobId.t) (jobs : list Job.t) : sched unit :=
  match jobs with
  | [] => mret tt
  | j :: jobs =>
      if decide (Job.id j ∈ seen) then
        _ ← on_queue (Queue.push (Outcome.failed (Job.id j) RunError.Invariant));
        intake seen jobs
      else
        r ← settle j;
        _ ← match r with
            | Ok j' => enqueue j'
            | Err e => on_queue (Queue.push (Outcome.failed (Job.id j) e))
            end;
        intake (seen ++ [Job.id j]) jobs
  end.

(** *** The loop's steps *)

(** [try_send] on the channel of a running session. *)
Definition send (id : JobId.t) (c : Control.t) (s : Scheduler.t W) : Scheduler.t W :=
  match Scheduler.active s !! JobId.get id with
  | None => s
  | Some a =>
      match Active.try_send c a with
      | Some a => Scheduler.set_active (<[JobId.get id := a]> (Scheduler.active s)) s
      | None => Scheduler.set_deferred (Scheduler.deferred s ++ [(id, c)]) s
      end
  end.
Definition deliver : sched unit := modify (λ s,
  foldl (λ s m, send m.1 m.2 s) (Scheduler.set_deferred [] s) (Scheduler.deferred s)).

Definition due (e : Entry.t) (now : Z) : bool :=
  negb (is_some_and (λ at_, bool_decide (now < at_)) (Job.retry_at (Entry.job e))).
Fixpoint promote_all (now : Z) (entries : list Entry.t) : sched unit :=
  match entries with
  | [] => mret tt
  | e :: entries =>
      _ ← (if due e now then
             r ← call (command_job (Entry.job e) (JobCommand.RetryDue now));
             on_queue match r with
               | Ok j => Queue.take (Entry.Make j (Entry.origin e))
               | Err error => Queue.push (Outcome.failed (Entry.id e) error)
               end
           else on_queue (λ q, Queue.set_waiting (Queue.waiting q ++ [e]) q));
      promote_all now entries
  end.
Definition promote_due : sched unit :=
  now ← now_ms;
  waiting ← gets (λ s, Queue.waiting (Scheduler.queue s));
  _ ← on_queue (Queue.set_waiting []);
  promote_all now waiting.

(** Starting one session: its row in [active] and its task. *)
Definition start (e : Entry.t) (grant : Z) (s : Scheduler.t W) : Scheduler.t W :=
  let id := Entry.id e in
  let task := Scheduler.spawned s in
  Scheduler.set_owners (<[task := id]> (Scheduler.owners s))
    (Scheduler.set_sessions (Scheduler.sessions s ++ [(task, Entry.job e)])
      (Scheduler.set_spawned (S task)
        (Scheduler.set_used (Scheduler.used s + grant)
          (Scheduler.set_active
            (<[JobId.get id := Active.Make [] true (Entry.origin e) grant]> (Scheduler.active s)) s)))).
Definition spare (s : Scheduler.t W) : Z := saturating_sub (SchedulerConfig.connections config) (Scheduler.used s).
Definition full (s : Scheduler.t W) : bool :=
  bool_decide (SchedulerConfig.max_active config ≤ Z.of_nat (size (Scheduler.active s)) ∨ spare s = 0).
Definition ask_governor (origin : OriginId) (now : Z) : sched Z := λ s,
  let '(grant, g) := OriginGovernor.admit_ (Scheduler.governor s) origin
    (Z.min (SchedulerConfig.per_job config) (spare s)) now in
  (Ok grant, Scheduler.set_governor g s).
(** The [while] of [admit] over the ready queue: whether any session started, and the
    entries that keep their places. *)
Fixpoint start_ready (now : Z) (ready : list Entry.t) : sched (bool * list Entry.t) :=
  match ready with
  | [] => mret (false, [])
  | e :: rest =>
      s ← gets (λ s, s);
      if full s then mret (false, e :: rest) else
      grant ← ask_governor (Entry.origin e) now;
      if decide (grant = 0) then
        r ← start_ready now rest; mret (r.1, e :: r.2)
      else
        _ ← modify (start e grant);
        r ← start_ready now rest; mret (true, r.2)
  end.
Definition admit_ready : sched bool :=
  now ← now_ms;
  ready ← gets (λ s, Queue.ready (Scheduler.queue s));
  _ ← on_queue (Queue.set_ready []);
  r ← start_ready now ready;
  _ ← on_queue (λ q, Queue.set_ready (r.2 ++ Queue.ready q) q);
  mret r.1.

Definition retry_moments (now : Z) (q : Queue.t) : list Z :=
  filter (λ at_, now < at_) (omap (λ e, Job.retry_at (Entry.job e)) (Queue.waiting q)).
Definition origin_moments (now : Z) (g : OriginGovernor.t) (q : Queue.t) : list Z :=
  omap (λ e, OriginGovernor.ready_at g (Entry.origin e) now) (Queue.ready q).
Definition next_deadline : sched (option Z) :=
  now ← now_ms;
  s ← gets (λ s, s);
  mret match min_opt (retry_moments now (Scheduler.queue s)),
             min_opt (origin_moments now (Scheduler.governor s) (Scheduler.queue s)) with
       | Some a, Some b => Some (Z.min a b)
       | Some a, None => Some a
       | None, b => b
       end.

(** From the top of the loop to its select; [true] leaves the loop. *)
Definition turn : sched bool :=
  _ ← deliver;
  stopping ← gets Scheduler.stopping;
  started ← (if stopping : bool then mret false else _ ← promote_due; admit_ready);
  s ← gets (λ s, s);
  let waiting := SchedulerConfig.resident config && Scheduler.open s in
  let empty := bool_decide (Scheduler.sessions s = []) in
  if empty && (stopping || (Queue.idle (Scheduler.queue s) && negb waiting)) then mret true else
  deadline ← next_deadline;
  _ ← modify (Scheduler.set_deadline deadline);
  mret (empty && negb started && bool_decide (deadline = None) && negb waiting).

(** *** The branches of the select *)

Definition finish_session (id : JobId.t) (published : bool) : sched unit :=
  s ← gets (λ s, s);
  match Scheduler.active s !! JobId.get id with
  | None => mret tt
  | Some a =>
      _ ← modify (λ s, Scheduler.set_used (wrap (Scheduler.used s - Active.grant a))
            (Scheduler.set_active (delete (JobId.get id) (Scheduler.active s)) s));
      now ← now_ms;
      modify (λ s, Scheduler.set_governor (
        let g := OriginGovernor.release (Scheduler.governor s) (Active.origin a) (Active.grant a) now in
        if published then OriginGovernor.succeeded g (Active.origin a) now else g) s)
  end.
Definition is_published (r : SessionResult) : bool :=
  match r with Ok (SessionEnd.Published _) => true | _ => false end.
(** The task leaves the set it was joined from. *)
Definition join (task : nat) : sched unit :=
  modify (λ s, Scheduler.set_sessions (filter (λ p, p.1 ≠ task) (Scheduler.sessions s)) s).

Definition on_ended (task : nat) (id : JobId.t) (j : Job.t) (r : SessionResult) : sched unit :=
  _ ← join task;
  _ ← finish_session id (is_published r);
  match r with
  | Ok answer =>
      _ ← modify (λ s, Scheduler.set_last (<[JobId.get id := Ok answer]> (Scheduler.last s)) s);
      enqueue j
  | Err error => on_queue (Queue.push (Outcome.failed id error))
  end.
Definition on_panicked (task : nat) : sched unit :=
  _ ← join task;
  owner ← gets (λ s, Scheduler.owners s !! task);
  match owner with
  | None => mret tt
  | Some id =>
      _ ← modify (λ s, Scheduler.set_owners (delete task (Scheduler.owners s)) s);
      _ ← finish_session id false;
      on_queue (Queue.push (Outcome.failed id RunError.Invariant))
  end.

(** A pause or a cancel: to the session, or to the queue. *)
Definition on_stop (id : JobId.t) (control : Control.t) : sched unit :=
  s ← gets (λ s, s);
  match Scheduler.active s !! JobId.get id with
  | Some _ => modify (send id control)
  | None =>
      let '(found, q) := Queue.remove id (Scheduler.queue s) in
      match found with
      | None => mret tt
      | Some e =>
          _ ← modify (Scheduler.set_queue q);
          let command := match control with
            | Control.Pause => JobCommand.Pause | Control.Cancel => JobCommand.Cancel end in
          r ← call (command_job (Entry.job e) command);
          match r with
          | Err error => on_queue (Queue.push (Outcome.failed (Entry.id e) error))
          | Ok j =>
              r ← settle j;
              on_queue match r with
                | Ok j => Queue.take (Entry.Make j (Entry.origin e))
                | Err error => Queue.push (Outcome.failed (Job.id j) error)
                end
          end
      end
  end.
(** [true] when the scheduler is to stop taking work. *)
Definition on_command (command : SchedulerCommand.t) : sched bool :=
  match command with
  | SchedulerCommand.Admit j => _ ← enqueue j; mret false
  | SchedulerCommand.Shutdown =>
      _ ← modify (λ s, foldl (λ s p, send (JobId.Make p) Control.Pause s) s
            (map_to_list (Scheduler.active s)).*1);
      mret true
  | SchedulerCommand.Pause id => _ ← on_stop id Control.Pause; mret false
  | SchedulerCommand.Cancel id => _ ← on_stop id Control.Cancel; mret false
  end.

(** The branch that is ready, if it may be. *)
Definition job_of (task : nat) (s : Scheduler.t W) : option Job.t :=
  snd <$> head (filter (λ p, p.1 = task) (Scheduler.sessions s)).
Definition enabled (w : Wakeup.t) (s : Scheduler.t W) : bool :=
  match w with
  | Wakeup.Ended task _ | Wakeup.Panicked task => bool_decide (is_Some (job_of task s))
  | Wakeup.Received _ => Scheduler.open s
  | Wakeup.Woke => bool_decide (is_Some (Scheduler.deadline s))
  end.
Definition on_wakeup (w : Wakeup.t) : sched unit :=
  match w with
  | Wakeup.Ended task run_with =>
      given ← gets (job_of task);
      match given with
      | Some j => let '(j', r) := run_with j in on_ended task (Job.id j) j' r
      | None => mret tt
      end
  | Wakeup.Panicked task => on_panicked task
  | Wakeup.Received None => modify (Scheduler.set_open false)
  | Wakeup.Received (Some command) =>
      stop ← on_command command;
      if stop : bool then modify (Scheduler.set_stopping true) else mret tt
  | Wakeup.Woke => mret tt
  end.

Definition occur (s : Scheduler.t W) (o : Occurrence.t W) : Scheduler.t W :=
  let on_active id f := match Scheduler.active s !! id with
    | Some a => Scheduler.set_active (<[id := f a]> (Scheduler.active s)) s | None => s end in
  match o with
  | Occurrence.Receives id n => on_active id (λ a,
      Active.Make (drop n (Active.control a)) (Active.receiving a) (Active.origin a) (Active.grant a))
  | Occurrence.HangsUp id => on_active id (λ a,
      Active.Make (Active.control a) false (Active.origin a) (Active.grant a))
  | Occurrence.Throttled origin retry_after_ms now =>
      Scheduler.set_governor (OriginGovernor.throttled (Scheduler.governor s) origin retry_after_ms now) s
  | Occurrence.Failed origin now =>
      Scheduler.set_governor (OriginGovernor.failed (Scheduler.governor s) origin now) s
  | Occurrence.Succeeded origin now =>
      Scheduler.set_governor (OriginGovernor.succeeded (Scheduler.governor s) origin now) s
  | Occurrence.World w => Scheduler.set_world w s
  end.

(** *** The run *)

(** The jobs as the loop leaves them, each with how its last session ended. *)
Fixpoint conclude (last : gmap Z SessionResult) (done : list Outcome.t) : list Outcome.t :=
  match done with
  | [] => []
  | o :: done =>
      match Outcome.result o with
      | Some _ => o :: conclude last done
      | None =>
          let id := JobId.get (Outcome.id o) in
          Outcome.set_result (last !! id) o :: conclude (delete id last) done
      end
  end.
Definition outcomes (s : Scheduler.t W) : list Outcome.t :=
  let q := Scheduler.queue s in
  sort_by_key (JobId.get ∘ Outcome.id)
    (conclude (Scheduler.last s) (Queue.done q ++ (Outcome.settled ∘ Entry.job <$> Queue.drain q))).

(** At the select; the script ends where the program stops. *)
Fixpoint serve_script (script : list (Turn.t W)) : sched (list Outcome.t) :=
  match script with
  | [] => throw Halt.Crashed
  | t :: script =>
      _ ← modify (λ s, foldl occur s (Turn.happens t));
      s ← gets (λ s, s);
      match Turn.wakeup t with
      | Some w =>
          if enabled w s then
            _ ← on_wakeup w;
            leave ← turn;
            if leave : bool then gets outcomes else serve_script script
          else serve_script script
      | None => serve_script script
      end
  end.
Definition run_scheduler (jobs : list Job.t) (script : list (Turn.t W)) : sched (list Outcome.t) :=
  _ ← intake [] jobs;
  leave ← turn;
  if leave : bool then gets outcomes else serve_script script.

(** A scheduler as [run] begins. *)
Definition begin_scheduler (w : W) (g : OriginGovernor.t) (clock : list Z) : Scheduler.t W :=
  Scheduler.Make W w g Queue.empty ∅ ∅ [] 0 ∅ [] 0 true false None clock 0.
End Loop.

(** [Scheduler::new]. *)
Definition scheduler_new (config : SchedulerConfig.t) (c : Coordinator.t) : result RunError.t SchedulerConfig.t :=
  if negb (SchedulerConfig.valid config)
     || bool_decide (CoordinatorConfig.connections (Coordinator.config c) < SchedulerConfig.per_job config)
  then Err RunError.InvalidConfig else Ok config.
