(* ===== verification/SchedulerInv.v ===== *)
(** * Invariants of the scheduler

    Where a job is: in the ready or the waiting queue, in a session, or among the
    outcomes.  No step of the loop loses one or makes a second of it. *)

From S2P Require Import Prelude.
From S2P Require Import Domain.
From S2P Require Import JobMachine.
From S2P Require Import Origin.
From S2P Require Import OriginThm.
From S2P Require Import Coordinator.
From S2P Require Import Scheduler.

#[global] Instance JobId_eq_dec : EqDecision JobId.t.
Proof. solve_decision. Defined.

(** ** Counting identities *)

Definition times (i : JobId.t) (l : list JobId.t) : nat := count_occ JobId_eq_dec l i.
#[global] Arguments times : simpl never.
Lemma times_nil i : times i [] = 0%nat.
Proof. done. Qed.
Lemma times_app i l k : times i (l ++ k) = (times i l + times i k)%nat.
Proof. apply count_occ_app. Qed.
Lemma times_cons i x l : times i (x :: l) = (times i [x] + times i l)%nat.
Proof. apply (times_app i [x] l). Qed.
Lemma times_perm l k : l ≡ₚ k ↔ ∀ i, times i l = times i k.
Proof. apply Permutation_count_occ. Qed.
Lemma times_nodup l : NoDup l ↔ ∀ i, (times i l ≤ 1)%nat.
Proof. rewrite NoDup_ListNoDup. apply NoDup_count_occ. Qed.
Lemma times_elem i l : (0 < times i l)%nat ↔ i ∈ l.
Proof. unfold times. rewrite list_elem_of_In. symmetry. apply count_occ_In. Qed.

(** Splits the counts of a goal and its hypotheses into those of single lists. *)
Ltac counts :=
  repeat match goal with H : _ ≡ₚ _ |- _ => pose proof (proj1 (times_perm _ _) H); clear H end;
  repeat match goal with
  | i : JobId.t, H : ∀ i : JobId.t, _ |- _ => let F := fresh "F" in pose proof (H i) as F; revert F; clear H
  end; intros;
  rewrite ?fmap_app, ?fmap_cons, ?fmap_nil in *; cbn [compose fst snd Outcome.id Outcome.settled Outcome.failed] in *;
  repeat match goal with
  | |- context [times _ (_ ++ _)] => rewrite times_app
  | |- context [times ?i (?x :: ?l)] => lazymatch l with [] => fail | _ => rewrite (times_cons i x l) end
  | H : context [times _ (_ ++ _)] |- _ => rewrite times_app in H
  | H : context [times ?i (?x :: ?l)] |- _ => lazymatch l with [] => fail | _ => rewrite (times_cons i x l) in H end
  end;
  rewrite ?times_nil in *; lia.

(** ** Runs *)

(** Inverts the first step of a run, when the code names it. *)
Ltac bind_inv H a s Hm := apply bind_Ok in H as (a&s&Hm&H).
Tactic Notation "bind" hyp(H) "as" simple_intropattern(a) ident(s) simple_intropattern(Hm) :=
  apply bind_Ok in H as (a&s&Hm&H).
Ltac pure_inv H := unfold mret, st_ret, gets, modify, on_queue, throw in H; simplify_eq H; clear H; intros; subst.

(** ** Where a job is *)

Section Where.
Context {W : Type} `{Engine W}.
Implicit Types s : Scheduler.t W.

Definition ids (l : list Entry.t) : list JobId.t := Entry.id <$> l.
Definition running_ids s : list JobId.t := Job.id ∘ snd <$> Scheduler.sessions s.
(** The jobs at work or waiting to be, and those that have an outcome. *)
Definition live s : list JobId.t :=
  ids (Queue.ready (Scheduler.queue s)) ++ ids (Queue.waiting (Scheduler.queue s)) ++ running_ids s.
Definition finished s : list JobId.t := Outcome.id <$> Queue.done (Scheduler.queue s).

(** From [e] in hand and [s] to [e'] in hand and [s']: jobs only move, and never back from
    an outcome. *)
Definition moves (e : list JobId.t) s (e' : list JobId.t) s' : Prop := ∀ i,
  (times i e + times i (live s) + times i (finished s) =
   times i e' + times i (live s') + times i (finished s'))%nat ∧
  (times i (finished s) ≤ times i (finished s'))%nat.

Lemma moves_refl e s : moves e s e s.
Proof. split; lia. Qed.
Lemma moves_trans e1 s1 e2 s2 e3 s3 : moves e1 s1 e2 s2 → moves e2 s2 e3 s3 → moves e1 s1 e3 s3.
Proof. intros H1 H2 i. destruct (H1 i), (H2 i). lia. Qed.
Lemma moves_frame k e s e' s' : moves e s e' s' → moves (k ++ e) s (k ++ e') s'.
Proof. intros Hm i. destruct (Hm i). rewrite !times_app. lia. Qed.
Lemma moves_unique e s e' s' : moves e s e' s' → NoDup (e ++ live s) → NoDup (e' ++ live s').
Proof.
  intros Hm. rewrite !times_nodup. intros Hn i. destruct (Hm i). specialize (Hn i).
  rewrite times_app in *. lia.
Qed.
Lemma moves_all e s s' : moves e s [] s' → finished s' ++ live s' ≡ₚ e ++ finished s ++ live s.
Proof. intros Hm. apply times_perm. intros i. destruct (Hm i). rewrite !times_app. rewrite times_nil in *. lia. Qed.

(** What an operation on the queues leaves alone. *)
Record queued s s' : Prop := {
  qd_governor : Scheduler.governor s' = Scheduler.governor s;
  qd_active : Scheduler.active s' = Scheduler.active s;
  qd_owners : Scheduler.owners s' = Scheduler.owners s;
  qd_sessions : Scheduler.sessions s' = Scheduler.sessions s;
  qd_spawned : Scheduler.spawned s' = Scheduler.spawned s;
  qd_deferred : Scheduler.deferred s' = Scheduler.deferred s;
  qd_used : Scheduler.used s' = Scheduler.used s;
  qd_open : Scheduler.open s' = Scheduler.open s;
  qd_stopping : Scheduler.stopping s' = Scheduler.stopping s;
  qd_last : Scheduler.last s' = Scheduler.last s }.
#[local] Instance queued_preorder : PreOrder queued.
Proof. split; [by split|]. intros ??? [] []. split; congruence. Qed.

(** Only the world and the clock move. *)
Record aside s s' : Prop := {
  as_queued : queued s s';
  as_queue : Scheduler.queue s' = Scheduler.queue s }.
#[local] Instance aside_preorder : PreOrder aside.
Proof. split; [by split|]. intros ??? [] []. split; [by etrans|congruence]. Qed.

Lemma aside_moves e s s' : aside s s' → moves e s e s'.
Proof.
  intros [[] Hq] i. unfold live, finished, running_ids. rewrite Hq, qd_sessions0. lia.
Qed.

Lemma on_queue_queued f s : queued s (Scheduler.set_queue (f (Scheduler.queue s)) s).
Proof. by split. Qed.

Lemma take_moves (x : Entry.t) s :
  moves [Entry.id x] s [] (Scheduler.set_queue (Queue.take x (Scheduler.queue s)) s).
Proof.
  intros i. unfold live, finished, ids, running_ids, Queue.take.
  destruct (Job.state _); cbn; unfold Entry.id; counts.
Qed.
Lemma push_moves (o : Outcome.t) s :
  moves [Outcome.id o] s [] (Scheduler.set_queue (Queue.push o (Scheduler.queue s)) s).
Proof. intros i. unfold live, finished, ids, running_ids. cbn. counts. Qed.
Lemma fail_moves id error s :
  moves [id] s [] (Scheduler.set_queue (Queue.push (Outcome.failed id error) (Scheduler.queue s)) s).
Proof. apply (push_moves (Outcome.failed id error)). Qed.

Lemma now_ms_aside s t s' : now_ms s = (Ok t, s') → aside s s' ∧
  ((∃ rest, Scheduler.clock s = t :: rest ∧ Scheduler.clock s' = rest ∧ Scheduler.now s' = t)
   ∨ (Scheduler.clock s = [] ∧ t = Scheduler.now s ∧ s' = s)).
Proof.
  unfold now_ms. destruct (Scheduler.clock s) as [|t' rest] eqn:Hc; intros [= <- <-]; split; try by split.
  - by right.
  - left. eauto.
Qed.
Lemma call_aside {A} (m : st W Halt.t A) s r s' : call m s = (Ok r, s') →
  aside s s' ∧ Scheduler.clock s' = Scheduler.clock s ∧ Scheduler.now s' = Scheduler.now s ∧
  ∀ a, r = Ok a → ∃ w', m (Scheduler.world s) = (Ok a, w').
Proof.
  unfold call. destruct (m (Scheduler.world s)) as [[a|[e| |]] w'] eqn:Hm; intros [= <- <-];
    split_and!; try done; intros b Hb; simplify_eq; eauto.
Qed.

Lemma enqueue_moves j s u s' : enqueue j s = (Ok u, s') → queued s s' ∧ moves [Job.id j] s [] s'.
Proof.
  unfold enqueue. intros Hr. bind Hr as origin s1 Hg. unfold gets in Hg. injection Hg as <- <-.
  unfold on_queue, modify in Hr. injection Hr as _ <-. split; [by split|].
  apply (take_moves (Entry.Make j _)).
Qed.

Context `{!EngineLaws W}.

Lemma settle_moves j s r s' : settle j s = (Ok r, s') →
  aside s s' ∧ ∀ j', r = Ok j' → Job.id j' = Job.id j.
Proof.
  unfold settle. case_decide.
  - intros (Ha&_&_&Hr)%call_aside. split; [done|]. intros j' (w'&Hw)%Hr. by eapply recover_id.
  - intros [= <- <-]. split; [done|]. congruence.
Qed.

Lemma intake_moves jobs : ∀ seen s u s', intake seen jobs s = (Ok u, s') →
  queued s s' ∧ moves (Job.id <$> jobs) s [] s'.
Proof.
  induction jobs as [|j jobs IH]; intros seen s u s' Hr; cbn [intake] in Hr.
  { injection Hr as _ <-. split; [done|apply moves_refl]. }
  case_decide.
  - bind Hr as [] s1 Hp. unfold on_queue, modify in Hp. injection Hp as <-.
    apply IH in Hr as [Hq Hm]. split; [etrans; [|exact Hq]; by split|].
    eapply (moves_trans _ _ (Job.id <$> jobs)); [|exact Hm].
    pose proof (fail_moves (Job.id j) RunError.Invariant s) as Hp.
    apply (moves_frame (Job.id <$> jobs)) in Hp. intros i. destruct (Hp i). cbn in *. counts.
  - bind Hr as r s1 Hs. apply settle_moves in Hs as [Ha Hid].
    bind Hr as [] s2 He. apply IH in Hr as [Hq Hm].
    assert (queued s1 s2 ∧ moves [Job.id j] s1 [] s2) as [Hq' Hm'].
    { destruct r as [j'|e].
      - apply enqueue_moves in He as [? Hm']. split; [done|]. by rewrite (Hid j' eq_refl) in Hm'.
      - unfold on_queue, modify in He. injection He as <-. split; [by split|]. apply fail_moves. }
    split; [etrans; [apply Ha|]; by etrans|].
    eapply moves_trans; [apply aside_moves, Ha|]. eapply moves_trans; [|exact Hm].
    apply (moves_frame (Job.id <$> jobs)) in Hm'. intros i. destruct (Hm' i). cbn in *. counts.
Qed.

(** A second job of one identity never gets in. *)
Lemma intake_unique jobs : ∀ seen s u s', intake seen jobs s = (Ok u, s') →
  NoDup (live s) → (∀ i, i ∈ live s → i ∈ seen) → NoDup (live s').
Proof.
  induction jobs as [|j jobs IH]; intros seen s u s' Hr Hn Hl; cbn [intake] in Hr.
  { by injection Hr as _ <-. }
  case_decide as Hseen.
  - bind Hr as [] s1 Hp. unfold on_queue, modify in Hp. injection Hp as <-.
    by eapply (IH _ _ _ _ Hr).
  - bind Hr as r s1 Hs. apply settle_moves in Hs as [Ha Hid]. bind Hr as [] s2 He.
    assert (moves [Job.id j] s1 [] s2) as Hm.
    { destruct r as [j'|e].
      - apply enqueue_moves in He as [? Hm']. by rewrite (Hid j' eq_refl) in Hm'.
      - unfold on_queue, modify in He. injection He as <-. apply fail_moves. }
    eapply moves_trans in Hm; [|apply (aside_moves _ _ _ Ha)].
    assert (NoDup ([Job.id j] ++ live s)) as Hnd.
    { apply NoDup_cons. split; [|done]. intros Hin. by apply Hseen, Hl. }
    eapply (IH _ _ _ _ Hr).
    + apply (moves_unique _ _ _ _ Hm Hnd).
    + intros i Hi%times_elem. destruct (Hm i) as [Hc _]. cbn in Hi, Hc.
      apply list_elem_of_In, in_or_app.
      destruct (decide (i = Job.id j)) as [->|Hne]; [by right; left|]. left. apply list_elem_of_In, Hl, times_elem.
      destruct (Hm i). unfold times in *. cbn in *. destruct (JobId_eq_dec _ _); [congruence|lia].
Qed.
End Where.

(** ** What the running sessions carry *)

(** The sum of [f] over the sessions. *)
Definition carried (f : Active.t → Z) (m : gmap Z Active.t) : Z := map_fold (λ _ a n, f a + n) 0 m.
Definition to_origin (o : OriginId) (a : Active.t) : Z := if decide (Active.origin a = o) then Active.grant a else 0.

Section Carried.
Context (f : Active.t → Z).
Lemma carried_empty : carried f ∅ = 0.
Proof. apply map_fold_empty. Qed.
Lemma carried_insert i a m : m !! i = None → carried f (<[i := a]> m) = f a + carried f m.
Proof. intros Hi. unfold carried. rewrite map_fold_insert_L; [done| |done]. intros; lia. Qed.
Lemma carried_delete i a m : m !! i = Some a → carried f m = f a + carried f (delete i m).
Proof. intros Hi. rewrite <-(carried_insert i) by apply lookup_delete_eq. by rewrite insert_delete_id. Qed.
Lemma carried_update i a a' m : m !! i = Some a → f a' = f a → carried f (<[i := a']> m) = carried f m.
Proof.
  intros Hi Hf. rewrite <-insert_delete_eq, carried_insert by apply lookup_delete_eq.
  by rewrite (carried_delete i a m), Hf.
Qed.
Lemma carried_nonneg m : (∀ (i : Z) a, m !! i = Some a → 0 ≤ f a) → 0 ≤ carried f m.
Proof.
  induction m as [|i a m Hi IH] using map_ind; intros Hm; [by rewrite carried_empty|].
  rewrite carried_insert by done.
  assert (0 ≤ f a) by (apply (Hm i a), lookup_insert_eq).
  enough (0 ≤ carried f m) by lia. apply IH. intros i' a' Hi'. apply (Hm i').
  rewrite lookup_insert_ne; [done|]. intros ->. congruence.
Qed.
Lemma carried_pos m : (∀ i a, m !! i = Some a → 0 ≤ f a) → 0 < carried f m → ∃ i a, m !! i = Some a.
Proof.
  intros _ Hp. destruct (decide (m = ∅)) as [->|Hm]; [rewrite carried_empty in Hp; lia|].
  by apply map_choose in Hm.
Qed.
End Carried.

(** ** The governor under the loop *)

Definition flying (g : OriginGovernor.t) (o : OriginId) : Z := State.in_flight (OriginGovernor.entry g o).

Lemma entry_at g o : OriginGovernor.entry g o = default State.default_ (OriginGovernor.origins g !! o).
Proof. done. Qed.
Lemma flying_put g o s o' :
  flying (OriginGovernor.put g o s) o' = if decide (o' = o) then State.in_flight s else flying g o'.
Proof. unfold flying. rewrite OriginThm.entry_put. by destruct (decide _). Qed.
Lemma flying_forget g o s now o' :
  flying (OriginGovernor.put_or_forget g o s now) o' = if decide (o' = o) then State.in_flight s else flying g o'.
Proof.
  unfold OriginGovernor.put_or_forget. destruct (State.settled s now) eqn:Hs; [|apply flying_put].
  unfold flying, OriginGovernor.entry. cbn. case_decide as Ho.
  - subst. rewrite lookup_delete_eq. unfold State.settled in Hs. open_bools. by cbn.
  - by rewrite lookup_delete_ne.
Qed.
Lemma flying_missing g o : OriginGovernor.origins g !! o = None → flying g o = 0.
Proof. intros Ho. unfold flying, OriginGovernor.entry. by rewrite Ho. Qed.
Lemma flying_present g o s : OriginGovernor.origins g !! o = Some s → flying g o = State.in_flight s.
Proof. intros Ho. unfold flying, OriginGovernor.entry. by rewrite Ho. Qed.

(** News of an origin does not change what it carries. *)
Definition same_flight (g g' : OriginGovernor.t) : Prop :=
  OriginGovernor.limits g' = OriginGovernor.limits g ∧ ∀ o, flying g' o = flying g o.

Lemma throttled_flight g o ask now : same_flight g (OriginGovernor.throttled g o ask now).
Proof. split; [done|]. intros o'. unfold OriginGovernor.throttled. rewrite flying_put. case_decide; by subst. Qed.
Lemma failed_flight g o now : same_flight g (OriginGovernor.failed g o now).
Proof. split; [done|]. intros o'. unfold OriginGovernor.failed. rewrite flying_put. case_decide; by subst. Qed.
Lemma succeeded_flight g o now : same_flight g (OriginGovernor.succeeded g o now).
Proof.
  unfold OriginGovernor.succeeded. destruct (_ !! o) as [s|] eqn:Ho; [|done]. split.
  - unfold OriginGovernor.put_or_forget. by destruct (State.settled _ _).
  - intros o'. rewrite flying_forget. case_decide; [|done]. subst. by rewrite (flying_present _ _ _ Ho).
Qed.
Lemma release_flight g o n now o' : 0 ≤ n →
  flying (OriginGovernor.release g o n now) o' =
  if decide (o' = o) then Z.max 0 (flying g o - n) else flying g o'.
Proof.
  intros Hn. unfold OriginGovernor.release. destruct (_ !! o) as [s|] eqn:Ho.
  - rewrite flying_forget, (flying_present _ _ _ Ho). case_decide; [|done]. by cbn; unfold saturating_sub.
  - rewrite (flying_missing _ _ Ho). case_decide as He; [|done]. subst.
    rewrite (flying_missing _ _ Ho). lia.
Qed.
Lemma release_limits g o n now :
  OriginGovernor.limits (OriginGovernor.release g o n now) = OriginGovernor.limits g.
Proof.
  unfold OriginGovernor.release. destruct (_ !! o); [|done].
  unfold OriginGovernor.put_or_forget. by destruct (State.settled _ _).
Qed.
(** What [admit] grants. *)
Lemma admit_flight g o want now n g' : 0 ≤ want → OriginGovernor.admit_ g o want now = (n, g') →
  OriginGovernor.limits g' = OriginGovernor.limits g ∧ 0 ≤ n ≤ want ∧
  (∀ o', flying g' o' = if decide (o' = o) then flying g o + n else flying g o') ∧
  (flying g o ≤ OriginLimits.connections (OriginGovernor.limits g) →
   flying g o + n ≤ OriginLimits.connections (OriginGovernor.limits g)).
Proof.
  intros Hw. unfold OriginGovernor.admit_. case_decide; intros [= <- <-]; (split; [done|]); split_and!; try lia.
  - intros o'. rewrite flying_put. case_decide; [|done]. unfold flying. lia.
  - unfold saturating_sub. lia.
  - intros o'. rewrite flying_put. by case_decide.
  - unfold saturating_sub, flying. lia.
Qed.

(** ** The books *)

Section Books.
Context {W : Type} `{Engine W} (config : SchedulerConfig.t).
Context (Hconfig : SchedulerConfig.valid config = true).
Implicit Types s : Scheduler.t W.

(** Every task has a number of its own. *)
Record Tasked s : Prop := {
  tk_tasks : NoDup (Scheduler.sessions s).*1;
  tk_spawned : ∀ t j, (t, j) ∈ Scheduler.sessions s → (t < Scheduler.spawned s)%nat;
  tk_owners : ∀ t j, (t, j) ∈ Scheduler.sessions s → Scheduler.owners s !! t = Some (Job.id j) }.

Record Booked s : Prop := {
  bk_active : ∀ i, is_Some (Scheduler.active s !! JobId.get i) ↔ i ∈ running_ids s;
  bk_grants : ∀ i a, Scheduler.active s !! i = Some a →
    1 ≤ Active.grant a ≤ SchedulerConfig.per_job config ∧ (length (Active.control a) ≤ Active.capacity)%nat;
  bk_used : Scheduler.used s = carried Active.grant (Scheduler.active s);
  bk_room : Scheduler.used s ≤ SchedulerConfig.connections config;
  bk_size : Z.of_nat (size (Scheduler.active s)) ≤ SchedulerConfig.max_active config;
  bk_limits : OriginLimits.valid (OriginGovernor.limits (Scheduler.governor s)) = true;
  bk_flying : ∀ o, flying (Scheduler.governor s) o = carried (to_origin o) (Scheduler.active s) ∧
    flying (Scheduler.governor s) o ≤ OriginLimits.connections (OriginGovernor.limits (Scheduler.governor s)) }.

Lemma Tasked_same s s' :
  Scheduler.sessions s' = Scheduler.sessions s → Scheduler.spawned s' = Scheduler.spawned s →
  Scheduler.owners s' = Scheduler.owners s → Tasked s → Tasked s'.
Proof. intros Hs Hn Ho []. split; rewrite Hs; [done|..]; by rewrite ?Hn, ?Ho. Qed.
Lemma Booked_queued s s' : queued s s' → Booked s → Booked s'.
Proof.
  intros [] []. split; unfold running_ids in *;
    rewrite ?qd_governor0, ?qd_active0, ?qd_sessions0, ?qd_used0; done.
Qed.

(** A step that keeps the books and loses no job. *)
Definition sound (e : list JobId.t) s (e' : list JobId.t) s' : Prop := Tasked s →
  Tasked s' ∧ moves e s e' s' ∧ (Booked s → NoDup (e ++ live s) → Booked s').

Lemma sound_trans e1 s1 e2 s2 e3 s3 : sound e1 s1 e2 s2 → sound e2 s2 e3 s3 → sound e1 s1 e3 s3.
Proof.
  intros Hs1 Hs2 Ht. destruct (Hs1 Ht) as (Ht2&Hm1&H1), (Hs2 Ht2) as (Ht3&Hm2&H2). split; [done|].
  split; [by eapply moves_trans|]. intros Hb Hn. apply H2; [by apply H1|]. by eapply moves_unique.
Qed.
Lemma sound_frame k e s e' s' : sound e s e' s' → sound (k ++ e) s (k ++ e') s'.
Proof.
  intros Hs Ht. destruct (Hs Ht) as (Ht'&Hm&Hk). split; [done|]. split; [by apply moves_frame|].
  intros Hb Hn. apply Hk; [done|]. rewrite <-app_assoc in Hn. by apply NoDup_app in Hn as (_&_&?).
Qed.
(** A step that leaves the tasks and what counts as live alone. *)
Lemma sound_still e s s' :
  Scheduler.sessions s' = Scheduler.sessions s → Scheduler.spawned s' = Scheduler.spawned s →
  Scheduler.owners s' = Scheduler.owners s →
  Scheduler.queue s' = Scheduler.queue s → (Booked s → Booked s') → sound e s e s'.
Proof.
  intros Hs Hn Ho Hq Hb Ht. split; [by eapply Tasked_same|]. split; [|by intros ? _; apply Hb].
  intros i. unfold live, finished, running_ids. rewrite Hq, Hs. lia.
Qed.
Lemma sound_queued e s e' s' : queued s s' → moves e s e' s' → sound e s e' s'.
Proof.
  intros Hq Hm Ht. split; [eapply Tasked_same; [..|done]; apply Hq|]. split; [done|].
  intros. by eapply Booked_queued.
Qed.
Lemma sound_aside e s s' : aside s s' → sound e s e s'.
Proof. intros Ha. apply sound_queued; [apply Ha|by apply aside_moves]. Qed.
End Books.
