(* ===== verification/SchedulerSteps.v ===== *)
(** * The steps of the scheduler's loop

    Each step, from one select to the next, keeps the books and loses no job. *)

From S2P Require Import Prelude.
From S2P Require Import Domain.
From S2P Require Import JobMachine.
From S2P Require Import Origin.
From S2P Require Import Coordinator.
From S2P Require Import Scheduler.
From S2P Require Import SchedulerInv.

Section Steps.
Context {W : Type} `{Engine W, !EngineLaws W} (config : SchedulerConfig.t).
Context (Hconfig : SchedulerConfig.valid config = true).
Implicit Types s : Scheduler.t W.
Abbreviation sound := (sound config).
Abbreviation Booked := (Booked config).

Lemma sound_refl e s : sound e s e s.
Proof. apply sound_queued; [done|apply moves_refl]. Qed.

(** The first of a list, taken from behind it. *)
Lemma sound_swap x l s s' : sound (l ++ [x]) s (l ++ []) s' → sound (x :: l) s l s'.
Proof.
  rewrite app_nil_r. intros Hs Ht. destruct (Hs Ht) as (Ht'&Hm&Hb). split; [done|]. split.
  - intros i. destruct (Hm i). counts.
  - intros Hk Hn. apply Hb; [done|]. revert Hn. rewrite !times_nodup. intros Hn i. specialize (Hn i). counts.
Qed.

(** Inverts a step that reads or writes the state. *)
Ltac get Hr s Hg := let a := fresh in
  apply bind_Ok in Hr as (a&s&Hg&Hr); unfold gets, modify, on_queue in Hg; injection Hg as <- <-.
Ltac finish_run Hr := unfold mret, st_ret, gets, modify, on_queue in Hr; first [injection Hr as ? <- | injection Hr as <-]; try subst.

(** ** Messages *)

(** Another inbox for a session. *)
Lemma sound_inbox e s i a a' :
  Scheduler.active s !! i = Some a → Active.origin a' = Active.origin a → Active.grant a' = Active.grant a →
  ((length (Active.control a) ≤ Active.capacity)%nat → (length (Active.control a') ≤ Active.capacity)%nat) →
  sound e s e (Scheduler.set_active (<[i := a']> (Scheduler.active s)) s).
Proof.
  intros Hi Ho Hg Hc. apply sound_still; [done..|]. intros []. split; cbn; try done.
  - intros i'. rewrite <-bk_active. cbn. destruct (decide (i = JobId.get i')) as [->|Hne].
    + rewrite lookup_insert_eq, Hi. by split.
    + by rewrite lookup_insert_ne.
  - intros i' b Hb. destruct (decide (i = i')) as [->|Hne].
    + rewrite lookup_insert_eq in Hb. injection Hb as <-. rewrite Hg. split; [by eapply bk_grants|].
      apply Hc. by eapply bk_grants.
    + rewrite lookup_insert_ne in Hb by done. by eapply bk_grants.
  - by rewrite (carried_update _ _ a).
  - rewrite map_size_insert, Hi. done.
  - intros o. rewrite (carried_update _ _ a); [done|done|]. unfold to_origin. by rewrite Ho, Hg.
Qed.
Lemma sound_send e id c s : sound e s e (send id c s).
Proof.
  unfold send. destruct (_ !! _) as [a|] eqn:Ha; [|apply sound_refl].
  unfold Active.try_send. destruct (_ && _) eqn:Hb.
  - apply (sound_inbox _ _ _ a); [done..|]. open_bools. intros _. cbn. rewrite length_app. cbn. lia.
  - apply sound_still; [done..|]. intros []. by split.
Qed.
Lemma sound_sends e (l : list (JobId.t * Control.t)) s : sound e s e (foldl (λ s m, send m.1 m.2 s) s l).
Proof.
  revert s. induction l as [|m l IH]; intros s; cbn; [apply sound_refl|].
  eapply sound_trans; [apply sound_send|apply IH].
Qed.
Lemma sound_deliver e s u s' : deliver s = (Ok u, s') → sound e s e s'.
Proof.
  intros Hr. finish_run Hr. eapply sound_trans; [|apply sound_sends].
  apply sound_still; [done..|]. intros []. by split.
Qed.
Lemma sound_pause_all e ids s : sound e s e (foldl (λ s p, send (JobId.Make p) Control.Pause s) s ids).
Proof.
  revert s. induction ids as [|p ids IH]; intros s; cbn; [apply sound_refl|].
  eapply sound_trans; [apply sound_send|apply IH].
Qed.

(** ** What happens meanwhile *)

Lemma Booked_governor s g :
  same_flight (Scheduler.governor s) g → Booked s → Booked (Scheduler.set_governor g s).
Proof.
  intros [Hl Hf] []. split; cbn; try done.
  - by rewrite Hl.
  - intros o. rewrite Hl, Hf. apply bk_flying.
Qed.
Lemma sound_governor e s g :
  same_flight (Scheduler.governor s) g → sound e s e (Scheduler.set_governor g s).
Proof. intros Hs. apply sound_still; [done..|]. by apply Booked_governor. Qed.
Lemma sound_occur e s o : sound e s e (occur s o).
Proof.
  destruct o as [i n|i|o ask now|o now|o now|w]; cbn.
  - destruct (_ !! i) as [a|] eqn:Ha; [|apply sound_refl]. apply (sound_inbox _ _ _ a); [done..|].
    cbn. rewrite length_drop. lia.
  - destruct (_ !! i) as [a|] eqn:Ha; [|apply sound_refl]. by apply (sound_inbox _ _ _ a).
  - apply sound_governor, throttled_flight.
  - apply sound_governor, failed_flight.
  - apply sound_governor, succeeded_flight.
  - by apply sound_aside.
Qed.
Lemma sound_happens e l s : sound e s e (foldl occur s l).
Proof.
  revert s. induction l as [|o l IH]; intros s; cbn; [apply sound_refl|].
  eapply sound_trans; [apply sound_occur|apply IH].
Qed.

(** ** The queues *)

Lemma sound_promote_all now entries : ∀ s u s',
  promote_all now entries s = (Ok u, s') → sound (ids entries) s [] s'.
Proof.
  induction entries as [|x entries IH]; intros s u s' Hr; cbn [promote_all] in Hr.
  { finish_run Hr. apply sound_refl. }
  bind Hr as [] s1 H1. apply IH in Hr. eapply sound_trans; [|exact Hr].
  enough (sound [Entry.id x] s [] s1) as Hs.
  { apply (sound_frame _ (ids entries)) in Hs. by apply sound_swap. }
  destruct (due x now).
  - bind H1 as r s2 Hc. apply call_aside in Hc as (Ha&_&_&Hid). apply (sound_aside config [Entry.id x]) in Ha.
    eapply sound_trans; [exact Ha|]. finish_run H1. apply sound_queued; [by split|].
    destruct r as [j|e]; [|apply fail_moves]. destruct (Hid j eq_refl) as [w' Hw].
    apply command_id in Hw. unfold Entry.id at 1. rewrite <-Hw. apply (take_moves (Entry.Make j _)).
  - finish_run H1. apply sound_queued; [by split|]. intros i. unfold live, finished, ids, running_ids. cbn. counts.
Qed.
Lemma sound_promote_due s u s' : promote_due s = (Ok u, s') → sound [] s [] s'.
Proof.
  unfold promote_due. intros Hr. bind Hr as now s1 Hn. apply now_ms_aside in Hn as [Ha _].
  get Hr s2 Hg. get Hr s3 Hq. apply sound_promote_all in Hr.
  eapply sound_trans; [by apply sound_aside|]. eapply sound_trans; [|exact Hr].
  apply sound_queued; [by split|]. intros i. unfold live, finished, ids, running_ids. cbn. counts.
Qed.

(** ** Starting sessions *)

Lemma sound_start x now s n s1 s' :
  full config s = false → ask_governor config (Entry.origin x) now s = (Ok n, s1) → n ≠ 0 →
  s' = start x n s1 → sound [Entry.id x] s [] s'.
Proof.
  unfold ask_governor. intros Hf Hg Hn ->. destruct (OriginGovernor.admit_ _ _ _ _) as [n' g] eqn:Ha.
  injection Hg as -> <-. intros [Htk Hsp Hown]. split_and!.
  { split; cbn.
    - rewrite fmap_app. apply NoDup_app. split; [done|]. split; [|apply NoDup_singleton].
      intros t ([t' j]&->&Hin)%list_elem_of_fmap Ht%list_elem_of_singleton. apply Hsp in Hin. cbn in *. lia.
    - intros t j [Hin|Hin]%elem_of_app; [apply Hsp in Hin; lia|].
      apply list_elem_of_singleton in Hin. injection Hin as -> ->. lia.
    - intros t j [Hin|Hin]%elem_of_app.
      + rewrite lookup_insert_ne; [by apply Hown|]. apply Hsp in Hin. lia.
      + apply list_elem_of_singleton in Hin. injection Hin as -> ->. by rewrite lookup_insert_eq. }
  { intros i. unfold live, finished, ids, running_ids, start. cbn. unfold Entry.id. counts. }
  intros [] Hnd. unfold full in Hf. open_bools.
  pose proof Hconfig as Hc. unfold SchedulerConfig.valid in Hc. open_bools.
  assert (Hspare : spare config s = SchedulerConfig.connections config - Scheduler.used s)
    by (unfold spare, saturating_sub in *; lia).
  apply admit_flight in Ha as (Hl&Hw&Hfl&Hcap); [|lia].
  assert (1 ≤ n) as Hpos by lia.
  assert (Scheduler.active s !! JobId.get (Entry.id x) = None) as Hnone.
  { apply eq_None_not_Some. rewrite bk_active. intros Hin. apply NoDup_app in Hnd as (_&Hnd&_).
    apply (Hnd (Entry.id x)); [by left|]. unfold live. set_solver. }
  split; cbn; try done.
  - intros i. unfold running_ids. cbn. rewrite fmap_app, elem_of_app. cbn. rewrite list_elem_of_singleton.
    specialize (bk_active i). unfold running_ids in bk_active. rewrite <-bk_active. cbn.
    destruct (decide (i = Entry.id x)) as [->|Hne].
    + rewrite lookup_insert_eq. split; [by right|eauto].
    + rewrite lookup_insert_ne; [|intros He; apply Hne; destruct i, (Entry.id x); cbn in *; congruence].
      split; [by left|]. by intros [?| ->].
  - intros i a Hi. destruct (decide (i = JobId.get (Entry.id x))) as [->|Hne].
    + rewrite lookup_insert_eq in Hi. injection Hi as <-. cbn. unfold Active.capacity. lia.
    + rewrite lookup_insert_ne in Hi by done. by eapply bk_grants.
  - rewrite carried_insert by done. cbn. lia.
  - lia.
  - rewrite map_size_insert, Hnone. lia.
  - by rewrite Hl.
  - intros o. rewrite carried_insert by done. rewrite Hfl, Hl. destruct (bk_flying o) as [Ho Hle].
    unfold to_origin at 1. cbn. destruct (decide (o = Entry.origin x)) as [->|Hne].
    + rewrite decide_True by done. specialize (Hcap Hle). lia.
    + rewrite decide_False by done. lia.
Qed.

Lemma sound_start_ready now ready : ∀ s r s',
  start_ready config now ready s = (Ok r, s') → sound (ids ready) s (ids r.2) s'.
Proof.
  induction ready as [|x ready IH]; intros s r s' Hr; cbn [start_ready] in Hr.
  { finish_run Hr. apply sound_refl. }
  get Hr s1 Hg. destruct (full config s) eqn:Hf; [finish_run Hr; apply sound_refl|].
  bind Hr as n s1 Hask. case_decide as Hn.
  - bind Hr as [b rest] s2 H2. finish_run Hr. apply IH in H2. cbn in *.
    eapply sound_trans; [|apply (sound_frame _ [Entry.id x]) in H2; exact H2].
    unfold ask_governor in Hask. destruct (OriginGovernor.admit_ _ _ _ _) as [n' g] eqn:Ha.
    injection Hask as -> <-. subst. apply (sound_governor (ids (x :: ready))).
    assert (Hp : 0 ≤ Z.min (SchedulerConfig.per_job config) (spare config s)).
    { pose proof Hconfig as Hc. unfold SchedulerConfig.valid in Hc. open_bools. unfold spare, saturating_sub. lia. }
    apply admit_flight in Ha as (Hl&_&Hfl&_); [|done]. split; [done|]. intros o. rewrite Hfl.
    case_decide; [subst; lia|done].
  - bind Hr as [] s2 Hst. unfold modify in Hst. injection Hst as <-. bind Hr as [b rest] s3 H2. finish_run Hr.
    apply IH in H2. eapply sound_trans; [|exact H2].
    pose proof (sound_start x now s n s1 _ Hf Hask Hn eq_refl) as Hst.
    apply (sound_frame _ (ids ready)) in Hst. by apply sound_swap.
Qed.
Lemma sound_admit_ready s b s' : admit_ready config s = (Ok b, s') → sound [] s [] s'.
Proof.
  unfold admit_ready. intros Hr. bind Hr as now s1 Hn. apply now_ms_aside in Hn as [Ha _].
  get Hr s2 Hg. get Hr s3 He. bind Hr as [b' rest] s2 Hs. apply sound_start_ready in Hs. get Hr s3 Hq. finish_run Hr.
  cbn in *. eapply sound_trans; [by apply sound_aside|]. eapply sound_trans; [|eapply sound_trans; [exact Hs|]].
  - apply sound_queued; [by split|]. intros i. unfold live, finished, ids, running_ids. cbn. counts.
  - apply sound_queued; [by split|]. intros i. unfold live, finished, ids, running_ids. cbn. counts.
Qed.

(** ** Ending a session *)

Lemma job_of_elem task s j : job_of task s = Some j → (task, j) ∈ Scheduler.sessions s.
Proof.
  unfold job_of. intros ([t j']&Hh&Hj)%fmap_Some. cbn in Hj. subst j'.
  assert ((t, j) ∈ filter (λ p, p.1 = task) (Scheduler.sessions s)) as Hin.
  { destruct (filter _ _) as [|p l]; [done|]. injection Hh as ->. by left. }
  apply list_elem_of_filter in Hin as [Ht Hin]. cbn in Ht. by subst.
Qed.

Lemma filter_all {A} (P : A → Prop) `{∀ x, Decision (P x)} l : Forall P l → filter P l = l.
Proof. induction 1; [done|]. rewrite filter_cons, decide_True by done. by f_equal. Qed.

(** The task set without one task, as a count. *)
Lemma join_times task j (l : list (nat * Job.t)) :
  NoDup l.*1 → (task, j) ∈ l →
  l ≡ₚ (task, j) :: filter (λ p, p.1 ≠ task) l.
Proof.
  induction l as [|[t j'] l IH]; [by intros _ ?%elem_of_nil|]. rewrite fmap_cons. intros [Ht Hn]%NoDup_cons [Heq|Hin]%elem_of_cons.
  - injection Heq as <- <-. rewrite filter_cons. rewrite decide_False by (cbn; naive_solver). constructor.
    rewrite filter_all; [done|]. apply Forall_forall. intros [t' j'] Hi He. cbn in *. subst t'.
    apply Ht, list_elem_of_fmap. by exists (task, j').
  - rewrite filter_cons. rewrite decide_True.
    + rewrite (IH Hn Hin) at 1. apply Permutation_swap.
    + cbn. intros ->. apply Ht, list_elem_of_fmap. by exists (task, j).
Qed.
(** The task set has lost one task. *)
Record joined (task : nat) s s' : Prop := {
  jd_queue : Scheduler.queue s' = Scheduler.queue s;
  jd_active : Scheduler.active s' = Scheduler.active s;
  jd_spawned : Scheduler.spawned s' = Scheduler.spawned s;
  jd_sessions : Scheduler.sessions s' = filter (λ p, p.1 ≠ task) (Scheduler.sessions s);
  jd_owners : ∀ t, t ≠ task → Scheduler.owners s' !! t = Scheduler.owners s !! t;
  jd_used : Scheduler.used s' = Scheduler.used s;
  jd_governor : Scheduler.governor s' = Scheduler.governor s }.

Lemma joined_ids task j s s' : Tasked s → (task, j) ∈ Scheduler.sessions s → joined task s s' →
  running_ids s ≡ₚ Job.id j :: running_ids s'.
Proof.
  intros [Hn _ _] Hin []. unfold running_ids. rewrite jd_sessions0.
  by rewrite (join_times task j _ Hn Hin) at 1.
Qed.
Lemma joined_Tasked task s s' : Tasked s → joined task s s' → Tasked s'.
Proof.
  intros [Hn Hs Ho] []. split; rewrite jd_sessions0.
  - by apply NoDup_fmap_filter.
  - intros t j [_ Hin]%list_elem_of_filter. rewrite jd_spawned0. by eapply Hs.
  - intros t j [Hne Hin]%list_elem_of_filter. rewrite jd_owners0 by done. by apply Ho.
Qed.

(** What [finish] does to the books. *)
Lemma finish_session_run id p s u s' : finish_session id p s = (Ok u, s') →
  Scheduler.queue s' = Scheduler.queue s ∧ Scheduler.sessions s' = Scheduler.sessions s ∧
  Scheduler.spawned s' = Scheduler.spawned s ∧ Scheduler.owners s' = Scheduler.owners s ∧
  Scheduler.deferred s' = Scheduler.deferred s ∧
  match Scheduler.active s !! JobId.get id with
  | None => s' = s
  | Some a =>
      Scheduler.active s' = delete (JobId.get id) (Scheduler.active s) ∧
      Scheduler.used s' = wrap (Scheduler.used s - Active.grant a) ∧ ∃ now,
      same_flight (OriginGovernor.release (Scheduler.governor s) (Active.origin a) (Active.grant a) now)
        (Scheduler.governor s')
  end.
Proof.
  unfold finish_session. intros Hr. get Hr s1 Hg. destruct (_ !! _) as [a|]; [|by finish_run Hr].
  get Hr s2 Hm. bind Hr as now s3 Hn. apply now_ms_aside in Hn as [[[] Hq] _]. finish_run Hr. cbn in *.
  split_and!; [congruence..|]. exists now. rewrite qd_governor. destruct p; [apply succeeded_flight|done].
Qed.

Lemma sound_ended task j s s1 p u s2 :
  (task, j) ∈ Scheduler.sessions s → joined task s s1 → finish_session (Job.id j) p s1 = (Ok u, s2) →
  sound [] s [Job.id j] s2.
Proof.
  intros Hin Hj Hf Ht. pose proof (joined_ids _ _ _ _ Ht Hin Hj) as Hids.
  pose proof (joined_Tasked _ _ _ Ht Hj) as Ht1.
  apply finish_session_run in Hf as (Hq&Hs&Hsp&How&_&Hact).
  assert (running_ids s2 = running_ids s1) as Hr2 by (unfold running_ids; by rewrite Hs).
  split; [by eapply Tasked_same|]. split.
  { intros i. unfold live, finished. rewrite Hr2, Hq, (jd_queue _ _ _ Hj). counts. }
  intros [] Hnd. destruct (bk_active (Job.id j)) as [_ Ha].
  destruct Ha as [a Ha]. { rewrite Hids. by left. }
  pose proof Hj as []. rewrite jd_active0, Ha in Hact. destruct Hact as (Hact&Hused&now&Hlim&Hfl).
  destruct (bk_grants _ _ Ha) as [Hgr Hcap]. rewrite jd_used0 in Hused. rewrite jd_governor0 in Hfl, Hlim.
  rewrite release_limits in Hlim.
  pose proof (carried_delete Active.grant _ _ _ Ha) as Hsum.
  assert (0 ≤ carried Active.grant (delete (JobId.get (Job.id j)) (Scheduler.active s))) as Hnn.
  { apply carried_nonneg. intros i b [_ Hb]%lookup_delete_Some. apply bk_grants in Hb. lia. }
  pose proof Hconfig as Hc. unfold SchedulerConfig.valid in Hc. open_bools.
  assert (Scheduler.used s2 = Scheduler.used s - Active.grant a) as Hu.
  { rewrite Hused. unfold wrap. apply Z.mod_small. unfold u64_max. lia. }
  split.
  - intros i. rewrite Hact, Hr2. specialize (bk_active i). rewrite Hids, elem_of_cons in bk_active.
    assert (Job.id j ∉ running_ids s1) as Hni.
    { intros Hx. apply NoDup_app in Hnd as (_&_&Hnd). unfold live in Hnd. rewrite Hids in Hnd.
      apply NoDup_app in Hnd as (_&_&Hnd). apply NoDup_app in Hnd as (_&_&Hnd). by apply NoDup_cons in Hnd as [? _]. }
    destruct (decide (i = Job.id j)) as [->|Hne].
    + rewrite lookup_delete_eq. split; [by intros []|done].
    + rewrite lookup_delete_ne; [|intros He; apply Hne; destruct i, (Job.id j); cbn in *; congruence].
      rewrite bk_active. naive_solver.
  - intros i b. rewrite Hact. intros [_ Hb]%lookup_delete_Some. by eapply bk_grants.
  - rewrite Hact, Hu. lia.
  - lia.
  - rewrite Hact, map_size_delete, Ha. lia.
  - by rewrite Hlim.
  - intros o. destruct (bk_flying o) as [Ho Hle].
    rewrite Hlim, Hfl, release_flight by lia. rewrite Hact.
    pose proof (carried_delete (to_origin o) _ _ _ Ha) as Hso.
    assert (0 ≤ carried (to_origin o) (delete (JobId.get (Job.id j)) (Scheduler.active s))).
    { apply carried_nonneg. intros i b [_ Hb]%lookup_delete_Some. apply bk_grants in Hb. unfold to_origin. case_decide; lia. }
    assert (to_origin o a = if decide (o = Active.origin a) then Active.grant a else 0) as Hto.
    { unfold to_origin. repeat case_decide; congruence. }
    rewrite Hto in Hso. case_decide as Hd; [subst o|]; lia.
Qed.
(** ** The branches of the select *)

(** A session gives back the job it was given. *)
Definition keeps_id (w : Wakeup.t) : Prop :=
  match w with Wakeup.Ended _ run_with => ∀ j, Job.id (run_with j).1 = Job.id j | _ => True end.
(** The job a wakeup brings in. *)
Definition arrives (w : Wakeup.t) : list JobId.t :=
  match w with Wakeup.Received (Some (SchedulerCommand.Admit j)) => [Job.id j] | _ => [] end.

Lemma sound_enqueue j s u s' : enqueue j s = (Ok u, s') → sound [Job.id j] s [] s'.
Proof. intros [Hq Hm]%enqueue_moves. by apply sound_queued. Qed.
Lemma sound_fail id error s u s' :
  on_queue (Queue.push (Outcome.failed id error)) s = (Ok u, s') → sound [id] s [] s'.
Proof. intros Hr. finish_run Hr. apply sound_queued; [by split|apply fail_moves]. Qed.

Lemma sound_on_ended task j j' r s u s' : (task, j) ∈ Scheduler.sessions s → Job.id j' = Job.id j →
  on_ended task (Job.id j) j' r s = (Ok u, s') → sound [] s [] s'.
Proof.
  unfold on_ended, join. intros Hin Hid Hr. get Hr s1 Hj. bind Hr as [] s1 Hf.
  eapply (sound_trans _ _ _ [Job.id j]); [eapply sound_ended; [done| |exact Hf]; by split|].
  destruct r as [answer|error]; [|by eapply sound_fail].
  get Hr s2 Hl. apply sound_enqueue in Hr. rewrite Hid in Hr.
  eapply sound_trans; [|exact Hr]. apply sound_still; [done..|]. intros []. by split.
Qed.
Lemma sound_on_panicked task s u s' : is_Some (job_of task s) → on_panicked task s = (Ok u, s') → sound [] s [] s'.
Proof.
  intros [j Hin%job_of_elem] Hr Ht. revert Ht. unfold on_panicked, join in Hr. intros Ht.
  pose proof (tk_owners _ Ht _ _ Hin) as Ho. get Hr s1 Hj. get Hr s1 Hg. cbn in Hr. rewrite Ho in Hr.
  get Hr s1 Hd. bind Hr as [] s1 Hf. revert Ht. eapply (sound_trans _ _ _ [Job.id j]); [|by eapply sound_fail].
  eapply sound_ended; [done| |exact Hf]. split; try done. cbn. intros t Hne. by rewrite lookup_delete_ne.
Qed.

Lemma split_Some id l e l' : Queue.split id l = Some (e, l') → Entry.id e = id ∧ l ≡ₚ e :: l'.
Proof.
  unfold Queue.split. destruct (list_find _ l) as [[i e']|] eqn:Hf; [|done]. intros [= -> <-].
  apply list_find_Some in Hf as (Hl&Hid&_). split; [done|]. by apply delete_Permutation.
Qed.
Lemma remove_moves id s e q : Queue.remove id (Scheduler.queue s) = (Some e, q) →
  Entry.id e = id ∧ moves [] s [id] (Scheduler.set_queue q s).
Proof.
  unfold Queue.remove. destruct (Queue.split id (Queue.ready _)) as [[e1 l]|] eqn:H1.
  - intros [= <- <-]. apply split_Some in H1 as [Hid Hp]. split; [done|]. intros i.
    unfold live, finished, ids, running_ids. cbn. apply (fmap_Permutation Entry.id) in Hp. subst. counts.
  - destruct (Queue.split id (Queue.waiting _)) as [[e2 l]|] eqn:H2; [|done].
    intros [= <- <-]. apply split_Some in H2 as [Hid Hp]. split; [done|]. intros i.
    unfold live, finished, ids, running_ids. cbn. apply (fmap_Permutation Entry.id) in Hp. subst. counts.
Qed.

Lemma sound_take e j s : Job.id j = Entry.id e →
  sound [Entry.id e] s [] (Scheduler.set_queue (Queue.take (Entry.Make j (Entry.origin e)) (Scheduler.queue s)) s).
Proof. intros <-. apply sound_queued; [by split|]. apply (take_moves (Entry.Make j _)). Qed.

Lemma sound_on_stop id c s u s' : on_stop id c s = (Ok u, s') → sound [] s [] s'.
Proof.
  unfold on_stop. intros Hr. get Hr s1 Hg. destruct (Scheduler.active s !! _); [finish_run Hr; apply sound_send|].
  destruct (Queue.remove id _) as [[e|] q] eqn:Hq; [|finish_run Hr; apply sound_refl].
  apply remove_moves in Hq as [<- Hm]. get Hr s1 Hs.
  eapply sound_trans; [apply sound_queued; [|exact Hm]; by split|].
  bind Hr as r s2 Hc. apply call_aside in Hc as (Ha&_&_&Hid). eapply sound_trans; [by apply sound_aside|].
  destruct r as [j|error]; [|by eapply sound_fail]. destruct (Hid j eq_refl) as [w' Hj]. apply command_id in Hj.
  bind Hr as r s3 Hst. apply settle_moves in Hst as [Ha2 Hid2]. eapply sound_trans; [by apply sound_aside|].
  fold (Entry.id e) in Hj. destruct r as [j'|error].
  - finish_run Hr. apply sound_take. by rewrite (Hid2 j' eq_refl).
  - finish_run Hr. rewrite <-Hj. apply sound_queued; [by split|]. apply fail_moves.
Qed.

Lemma sound_on_command command s stop s' : on_command command s = (Ok stop, s') →
  sound (arrives (Wakeup.Received (Some command))) s [] s'.
Proof.
  destruct command as [j|id|id|]; cbn [on_command]; intros Hr.
  - bind Hr as [] s1 He. finish_run Hr. by eapply sound_enqueue.
  - bind Hr as [] s1 He. finish_run Hr. by eapply sound_on_stop.
  - bind Hr as [] s1 He. finish_run Hr. by eapply sound_on_stop.
  - get Hr s1 Hm. finish_run Hr. apply sound_pause_all.
Qed.

Lemma sound_on_wakeup w s u s' : enabled w s = true → keeps_id w → on_wakeup w s = (Ok u, s') →
  sound (arrives w) s [] s'.
Proof.
  intros He Hk Hr. destruct w as [task run_with|task|[command|]|]; cbn in He.
  - cbn [on_wakeup] in Hr. get Hr s1 Hg. destruct (job_of task s) as [j|] eqn:Hj; [|finish_run Hr; apply sound_refl].
    specialize (Hk j). destruct (run_with j) as [j' r]. apply job_of_elem in Hj. by eapply sound_on_ended.
  - open_bools. by eapply sound_on_panicked.
  - cbn [on_wakeup] in Hr. bind Hr as stop s1 Hc. apply sound_on_command in Hc.
    eapply sound_trans; [exact Hc|]. destruct stop; finish_run Hr; [|apply sound_refl].
    apply sound_still; [done..|]. intros []. by split.
  - finish_run Hr. apply sound_still; [done..|]. intros []. by split.
  - finish_run Hr. apply sound_refl.
Qed.

(** ** A turn of the loop *)

Lemma sound_next_deadline s d s' : next_deadline s = (Ok d, s') → aside s s'.
Proof.
  unfold next_deadline. intros Hr. bind Hr as now s1 Hn. apply now_ms_aside in Hn as [Ha _].
  get Hr s2 Hg. by finish_run Hr.
Qed.

Lemma sound_turn s leave s' : turn config s = (Ok leave, s') → sound [] s [] s'.
Proof.
  unfold turn. intros Hr. bind Hr as [] s1 Hd. apply (sound_deliver []) in Hd. get Hr s2 Hg.
  eapply sound_trans; [exact Hd|]. bind Hr as started s2 Hs.
  assert (sound [] s1 [] s2) as Hs'.
  { destruct (Scheduler.stopping s1); [finish_run Hs; apply sound_refl|].
    bind Hs as [] s3 Hp. eapply sound_trans; [by eapply sound_promote_due|by eapply sound_admit_ready]. }
  eapply sound_trans; [exact Hs'|]. get Hr s3 Hg. case_match; [finish_run Hr; apply sound_refl|].
  bind Hr as d s3 Hd'. apply sound_next_deadline in Hd'. get Hr s4 Hm. finish_run Hr.
  eapply sound_trans; [by apply sound_aside|]. apply sound_still; [done..|]. intros []. by split.
Qed.
End Steps.
