(* ===== verification/SchedulerThm.v ===== *)
(** * Theorems on the scheduler

    Over every script of what sessions, commands, origins and the clock do. *)

From S2P Require Import Prelude.
From S2P Require Import Domain.
From S2P Require Import JobMachine.
From S2P Require Import Origin.
From S2P Require Import Coordinator.
From S2P Require Import Scheduler.
From S2P Require Import SchedulerInv.
From S2P Require Import SchedulerSteps.

Section Reach.
Context {W : Type} `{Engine W, !EngineLaws W} (config : SchedulerConfig.t).
Implicit Types s : Scheduler.t W.

(** The jobs a wakeup brings although they are here: an [Admit] of a job that is waiting or running,
    which the scheduler takes like any other. *)
Definition readmits (w : Wakeup.t) s : list JobId.t := filter (λ i, i ∈ live s) (arrives w).
(** What happens between two selects, a wakeup, and the turn after it, for every command there is; [again]
    are the jobs that were admitted while they were here. *)
Inductive at_select (jobs : list Job.t) (start : Scheduler.t W) : list JobId.t → Scheduler.t W → Prop :=
| at_first s1 s : intake [] jobs start = (Ok tt, s1) → turn config s1 = (Ok false, s) → at_select jobs start [] s
| at_happens again s o : at_select jobs start again s → at_select jobs start again (occur s o)
| at_wakes again s w s1 s2 : at_select jobs start again s → enabled w s = true → keeps_id w →
    on_wakeup w s = (Ok tt, s1) → turn config s1 = (Ok false, s2) → at_select jobs start (readmits w s ++ again) s2.
Lemma at_wakes_with jobs start again again' s w s1 s2 : at_select jobs start again s → enabled w s = true → keeps_id w →
  again' = readmits w s ++ again → on_wakeup w s = (Ok tt, s1) → turn config s1 = (Ok false, s2) → at_select jobs start again' s2.
Proof. intros ??? -> ??. by eapply at_wakes. Qed.
Lemma readmits_none w s : readmits w s = [] → ∀ i, i ∈ arrives w → i ∉ live s.
Proof. intros Hr i Hi Hl. assert (i ∈ readmits w s) as Hin by (by apply list_elem_of_filter). rewrite Hr in Hin. by apply elem_of_nil in Hin. Qed.

(** A governor nobody holds a connection of. *)
Definition unused (g : OriginGovernor.t) : Prop :=
  OriginLimits.valid (OriginGovernor.limits g) = true ∧ ∀ o, flying g o = 0.

Context (Hconfig : SchedulerConfig.valid config = true).

Lemma begin_Tasked (w : W) g clock : Tasked (begin_scheduler w g clock).
Proof. split; cbn; [constructor|by intros ?? ?%elem_of_nil..]. Qed.
Lemma begin_Booked (w : W) g clock : unused g → Booked config (begin_scheduler w g clock).
Proof.
  intros [Hv Hf]. pose proof Hconfig as Hc. unfold SchedulerConfig.valid in Hc. open_bools.
  split; cbn; rewrite ?carried_empty, ?map_size_empty; try done; try lia.
  - intros i. rewrite lookup_empty. split; [by intros []|by intros ?%elem_of_nil].
  - intros o. rewrite Hf, carried_empty. split; [done|]. unfold OriginLimits.valid in Hv. open_bools. lia.
Qed.

Definition kept s : Prop := Tasked s ∧ Booked config s ∧ NoDup (live s).
Lemma sound_kept s s' e : sound config e s [] s' → Tasked s → Booked config s → NoDup (e ++ live s) → kept s'.
Proof.
  intros Hs Ht Hb Hn. destruct (Hs Ht) as (Ht'&Hm&Hk). split; [done|]. split; [by apply Hk|].
  by apply (moves_unique _ _ _ _ Hm Hn).
Qed.

Lemma arrives_unique w s : NoDup (live s) → (∀ i, i ∈ arrives w → i ∉ live s) → NoDup (arrives w ++ live s).
Proof.
  intros Hn Hf. apply NoDup_app. split_and!; [|done|done].
  destruct w as [| |[[]|]|]; cbn; first [apply NoDup_singleton|apply NoDup_nil_2].
Qed.

Lemma intake_kept jobs (w : W) g clock s : unused g →
  intake [] jobs (begin_scheduler w g clock) = (Ok tt, s) → kept s.
Proof.
  intros Hg Hi. pose proof (intake_unique _ _ _ _ _ Hi) as Hn. apply intake_moves in Hi as [Hq Hm]. split_and!.
  - eapply Tasked_same; [apply Hq..|apply begin_Tasked].
  - eapply Booked_queued; [exact Hq|by apply begin_Booked].
  - apply Hn; [constructor|]. by intros i ?%elem_of_nil.
Qed.
Lemma at_select_kept jobs (w : W) g clock s : unused g → at_select jobs (begin_scheduler w g clock) [] s → kept s.
Proof.
  intros Hg. remember [] as again eqn:E. induction 1 as [s1 s Hi Ht|again s o _ IH|again s wk s1 s2 _ IH He Hk Hw Ht].
  - apply sound_turn in Ht; [|done..]. destruct (intake_kept _ _ _ _ _ Hg Hi) as (Htk&Hb&Hn).
    by eapply sound_kept; [exact Ht|..].
  - destruct (IH E) as (Htk&Hb&Hn). by eapply sound_kept; [apply (sound_occur config [])|..].
  - apply app_eq_nil in E as [Hr E]. destruct (IH E) as (Htk&Hb&Hn). eapply sound_kept; [|done..|].
    + eapply sound_trans; [by eapply (sound_on_wakeup config Hconfig)|by eapply (sound_turn config Hconfig)].
    + by apply arrives_unique, readmits_none.
Qed.

(** The sessions and the rows of [active] are the same jobs. *)
Lemma kept_active s : kept s → size (Scheduler.active s) = length (Scheduler.sessions s).
Proof.
  intros (_&Hb&Hn). unfold live in Hn. apply NoDup_app in Hn as (_&_&Hn). apply NoDup_app in Hn as (_&_&Hn).
  rewrite <-(length_fmap (Job.id ∘ snd) (Scheduler.sessions s)). fold (running_ids s).
  rewrite <-(length_fmap JobId.get), <-size_dom, <-(size_list_to_set (C:=gset Z)).
  - f_equal. apply set_eq. intros i. rewrite elem_of_dom, elem_of_list_to_set, list_elem_of_fmap.
    pose proof (bk_active _ _ Hb (JobId.Make i)) as Ha. cbn in Ha. rewrite Ha. split.
    + intros Hi. by exists (JobId.Make i).
    + intros ([i']&->&Hi). done.
  - apply NoDup_fmap_2; [|done]. intros [] []; cbn. congruence.
Qed.

(** ** The limits *)

(** C5: whatever sessions, origins and users do, as long as no command admits a job that is still
    waiting or running, the sessions running never outnumber [max_active], each of another job and each with
    between one and [per_job] connections; together they hold what [used] says, at most
    [connections]; and the governor's count of each origin is what its sessions hold, within
    the origin's own cap. *)
Theorem caps_are_kept jobs (w : W) g clock s :
  unused g → at_select jobs (begin_scheduler w g clock) [] s →
  NoDup (running_ids s) ∧ Z.of_nat (length (Scheduler.sessions s)) ≤ SchedulerConfig.max_active config ∧
  (∀ id, id ∈ running_ids s → ∃ a, Scheduler.active s !! JobId.get id = Some a ∧
    1 ≤ Active.grant a ≤ SchedulerConfig.per_job config) ∧
  Scheduler.used s = carried Active.grant (Scheduler.active s) ∧
  Scheduler.used s ≤ SchedulerConfig.connections config ∧
  ∀ o, flying (Scheduler.governor s) o = carried (to_origin o) (Scheduler.active s) ∧
    flying (Scheduler.governor s) o ≤ OriginLimits.connections (OriginGovernor.limits (Scheduler.governor s)).
Proof.
  intros Hg Hs. pose proof (at_select_kept _ _ _ _ _ Hg Hs) as Hk. pose proof (kept_active s Hk) as Hsz.
  destruct Hk as (_&Hb&Hn). unfold live in Hn. apply NoDup_app in Hn as (_&_&Hn). apply NoDup_app in Hn as (_&_&Hn).
  pose proof Hb as []. split_and!; [done|lia| |done|done|done].
  intros id [a Ha]%bk_active. exists a. split; [done|]. by eapply bk_grants.
Qed.
(** ** Every job comes back *)

Lemma conclude_ids last done : Outcome.id <$> conclude last done = Outcome.id <$> done.
Proof.
  revert last. induction done as [|o done IH]; intros last; [done|]. cbn [conclude].
  destruct (Outcome.result o); rewrite !fmap_cons, IH; done.
Qed.
Lemma outcomes_ids s : Scheduler.sessions s = [] → Outcome.id <$> outcomes s ≡ₚ finished s ++ live s.
Proof.
  intros Hs. unfold outcomes. rewrite sort_by_key_perm, conclude_ids. unfold finished, live, running_ids, Queue.drain.
  rewrite Hs, !fmap_app, <-!list_fmap_compose. cbn. by rewrite app_nil_r.
Qed.

(** The loop is only left with no session running. *)
Lemma turn_leaves s s' : turn config s = (Ok true, s') → Scheduler.sessions s' = [].
Proof.
  unfold turn. intros Hr. bind Hr as [] s1 Hd. bind Hr as st s2 Hg. bind Hr as started s3 Hs.
  bind Hr as x s4 Hx. injection Hx as <- <-. case_match eqn:He.
  - injection Hr as <-. open_bools. done.
  - bind Hr as d s5 Hn. apply sound_next_deadline in Hn as [[] _]. bind Hr as [] s6 Hm. injection Hm as <-.
    injection Hr as Hl <-. cbn. open_bools. congruence.
Qed.

(** The jobs admitted by the commands the loop receives before it is left. *)
Fixpoint heard (script : list (Turn.t W)) s : list JobId.t :=
  match script with
  | [] => []
  | t :: script =>
      let s := foldl occur s (Turn.happens t) in
      match Turn.wakeup t with
      | Some w =>
          if enabled w s then
            arrives w ++ match (_ ← on_wakeup w; turn config) s with
              | (Ok false, s) => heard script s
              | _ => []
              end
          else heard script s
      | None => heard script s
      end
  end.
Definition heard_in_run (jobs : list Job.t) (script : list (Turn.t W)) s : list JobId.t :=
  match (_ ← intake [] jobs; turn config) s with (Ok false, s) => heard script s | _ => [] end.

Lemma serve_script_ids script : ∀ s outs s', Tasked s →
  (∀ t w, t ∈ script → Turn.wakeup t = Some w → keeps_id w) →
  serve_script config script s = (Ok outs, s') →
  Outcome.id <$> outs ≡ₚ finished s ++ live s ++ heard script s.
Proof.
  induction script as [|t script IH]; intros s outs s' Ht Hk Hr; [done|]. cbn [serve_script] in Hr. cbn [heard].
  bind Hr as [] s1 Hm. injection Hm as <-. bind Hr as x s2 Hg. injection Hg as <- <-.
  pose proof (sound_happens config [] (Turn.happens t) s Ht) as (Ht1&Hm1&_).
  set (s1 := foldl occur s (Turn.happens t)) in *.
  assert (∀ t0 w, t0 ∈ script → Turn.wakeup t0 = Some w → keeps_id w) as Hk' by (intros; eapply Hk; [by right|done]).
  assert (serve_script config script s1 = (Ok outs, s') →
    Outcome.id <$> outs ≡ₚ finished s ++ live s ++ heard script s1) as Hskip.
  { intros Ho%IH; [|done..]. rewrite Ho. apply times_perm. intros i. destruct (Hm1 i). counts. }
  destruct (Turn.wakeup t) as [w|] eqn:Hw; [|by apply Hskip]. destruct (enabled w s1) eqn:He; [|by apply Hskip].
  bind Hr as [] s2 Hw2. bind Hr as leave s3 Htn.
  unfold mbind, st_bind. rewrite Hw2, Htn.
  assert (keeps_id w) as Hkw by (eapply Hk; [by left|done]).
  pose proof (sound_on_wakeup config Hconfig w s1 tt s2 He Hkw Hw2 Ht1) as (Ht2&Hm2&_).
  pose proof (sound_turn config Hconfig s2 leave s3 Htn Ht2) as (Ht3&Hm3&_).
  destruct leave.
  - unfold gets in Hr. injection Hr as <- <-. apply turn_leaves in Htn. rewrite outcomes_ids by done.
    apply times_perm. intros i. destruct (Hm1 i), (Hm2 i), (Hm3 i). counts.
  - apply IH in Hr; [|done..]. rewrite Hr. apply times_perm. intros i. destruct (Hm1 i), (Hm2 i), (Hm3 i). counts.
Qed.

Lemma serve_script_sorted script s outs s' :
  serve_script config script s = (Ok outs, s') → StronglySorted (key_le (JobId.get ∘ Outcome.id)) outs.
Proof.
  revert s. induction script as [|t script IH]; intros s Hr; [done|]. cbn [serve_script] in Hr.
  bind Hr as [] s1 Hm. bind Hr as x s3 Hg. repeat case_match; try (by eapply IH).
  bind Hr as [] s4 Hw. bind Hr as leave s5 Ht. destruct leave; [|by eapply IH].
  unfold gets in Hr. injection Hr as <- _. apply sort_by_key_sorted.
Qed.

(** C6: every job given to a run, and every job a user admits before it ends, comes back
    exactly once, whether it ran, waited, failed or was never started; the outcomes are in
    the order of the identities. *)
Theorem every_job_comes_back_once jobs script (w : W) g clock outs s' :
  (∀ t wakeup, t ∈ script → Turn.wakeup t = Some wakeup → keeps_id wakeup) →
  run_scheduler config jobs script (begin_scheduler w g clock) = (Ok outs, s') →
  StronglySorted (key_le (JobId.get ∘ Outcome.id)) outs ∧
  Outcome.id <$> outs ≡ₚ (Job.id <$> jobs) ++ heard_in_run jobs script (begin_scheduler w g clock).
Proof.
  intros Hk Hr. unfold run_scheduler in Hr. bind Hr as [] s1 Hi. bind Hr as leave s2 Ht.
  unfold heard_in_run, mbind, st_bind. rewrite Hi, Ht.
  pose proof (intake_moves _ _ _ _ _ Hi) as [Hq Hm].
  assert (Tasked s1) as Ht1 by (eapply Tasked_same; [apply Hq..|apply begin_Tasked]).
  pose proof (sound_turn config Hconfig s1 leave s2 Ht Ht1) as (Ht2&Hm2&_).
  destruct leave.
  - unfold gets in Hr. injection Hr as <- <-. apply turn_leaves in Ht. split; [apply sort_by_key_sorted|].
    rewrite outcomes_ids by done.
    apply times_perm. intros i. destruct (Hm i), (Hm2 i). unfold finished, live, running_ids in *. cbn in *. counts.
  - split; [by eapply serve_script_sorted|].
    apply serve_script_ids in Hr; [|done..]. rewrite Hr.
    apply times_perm. intros i. destruct (Hm i), (Hm2 i). unfold finished, live, running_ids in *. cbn in *. counts.
Qed.
End Reach.
