(* ===== verification/SchedulerWake.v ===== *)
(** * What wakes the scheduler up

    A job that cannot run now has a session to wait for or a moment to wait until; a stop
    request reaches its session; a shutdown drains. *)

From S2P Require Import Prelude.
From S2P Require Import Domain.
From S2P Require Import JobMachine.
From S2P Require Import Origin.
From S2P Require Import OriginThm.
From S2P Require Import Coordinator.
From S2P Require Import Scheduler.
From S2P Require Import SchedulerInv.
From S2P Require Import SchedulerSteps.
From S2P Require Import SchedulerThm.


Section Wake.
Context {W : Type} `{Engine W, !EngineLaws W} (config : SchedulerConfig.t).
Context (Hconfig : SchedulerConfig.valid config = true).
Implicit Types s : Scheduler.t W.
#[local] Existing Instance queued_preorder.

(** ** Nobody waits in vain *)



Lemma start_ready_sessions now ready : ∀ s r s', start_ready config now ready s = (Ok r, s') →
  ∃ l, Scheduler.sessions s' = Scheduler.sessions s ++ l.
Proof.
  induction ready as [|x ready IH]; intros s r s' Hr; cbn [start_ready] in Hr.
  { injection Hr as _ <-. exists []. by rewrite app_nil_r. }
  bind Hr as y s1 Hg. injection Hg as <- <-. destruct (full config s).
  { injection Hr as _ <-. exists []. by rewrite app_nil_r. }
  bind Hr as n s1 Ha. assert (Scheduler.sessions s1 = Scheduler.sessions s) as Hs1.
  { unfold ask_governor in Ha. destruct (OriginGovernor.admit_ _ _ _ _). by injection Ha as <- <-. }
  case_decide.
  - bind Hr as r2 s2 H2. injection Hr as _ <-. apply IH in H2. by rewrite Hs1 in H2.
  - bind Hr as [] s2 Hm. injection Hm as <-. bind Hr as r2 s3 H2. injection Hr as _ <-. apply IH in H2 as [l Hl].
    cbn in Hl. rewrite Hs1, <-app_assoc in Hl. eauto.
Qed.



Lemma promote_all_queued now entries : ∀ s u s', promote_all now entries s = (Ok u, s') → queued s s'.
Proof.
  induction entries as [|x entries IH]; intros s u s' Hr; cbn [promote_all] in Hr.
  { by injection Hr as _ <-. }
  bind Hr as [] s1 H1. apply IH in Hr. etrans; [|exact Hr]. destruct (due x now).
  - bind H1 as r s2 Hcall. apply call_aside in Hcall as ([Hq _]&_). injection H1 as <-.
    etrans; [exact Hq|]. apply on_queue_queued.
  - injection H1 as <-. apply on_queue_queued.
Qed.
Lemma promote_due_queued s u s' : promote_due s = (Ok u, s') → queued s s'.
Proof.
  unfold promote_due. intros Hr. bind Hr as t s1 Hn. apply now_ms_aside in Hn as [[Hq _] _].
  bind Hr as w s2 Hg. injection Hg as <- <-. bind Hr as [] s2 Hs. injection Hs as <-.
  apply promote_all_queued in Hr. etrans; [exact Hq|]. etrans; [|exact Hr]. apply on_queue_queued.
Qed.
(** Sending a message touches inboxes and the messages put off. *)
Record messaged s s' : Prop := {
  mg_queue : Scheduler.queue s' = Scheduler.queue s;
  mg_clock : Scheduler.clock s' = Scheduler.clock s;
  mg_sessions : Scheduler.sessions s' = Scheduler.sessions s;
  mg_open : Scheduler.open s' = Scheduler.open s;
  mg_stopping : Scheduler.stopping s' = Scheduler.stopping s }.
Lemma send_messaged id c s : messaged s (send id c s).
Proof. unfold send. destruct (_ !! _); [|by split]. by destruct (Active.try_send _ _). Qed.
Lemma deliver_messaged s u s' : deliver s = (Ok u, s') → messaged s s'.
Proof.
  unfold deliver, modify. intros [= _ <-].
  assert (∀ l s0, messaged s s0 → messaged s (foldl (λ s m, send m.1 m.2 s) s0 l)) as Hf.
  { induction l as [|m l IH]; intros s0 Hs; cbn; [done|]. apply IH.
    destruct Hs, (send_messaged m.1 m.2 s0). split; congruence. }
  apply Hf. by split.
Qed.


(** ** Stop requests *)

Definition at_work s (id : JobId.t) : Prop := is_Some (Scheduler.active s !! JobId.get id).
(** In the session's inbox, or put off until there is room. *)
Definition asked s (id : JobId.t) (c : Control.t) : Prop :=
  (∃ a, Scheduler.active s !! JobId.get id = Some a ∧ c ∈ Active.control a) ∨ (id, c) ∈ Scheduler.deferred s.
Definition heeded s id c : Prop := at_work s id ∧ asked s id c.

Lemma heeded_same s s' id c : Scheduler.active s' = Scheduler.active s →
  Scheduler.deferred s' = Scheduler.deferred s → heeded s id c → heeded s' id c.
Proof. unfold heeded, at_work, asked. by intros -> ->. Qed.
Lemma heeded_queued s s' id c : queued s s' → heeded s id c → heeded s' id c.
Proof. intros []. by apply heeded_same. Qed.

Lemma get_inj (i j : JobId.t) : JobId.get i = JobId.get j → i = j.
Proof. destruct i, j; cbn. congruence. Qed.
Lemma heeded_send id c id' c' s : at_work s id → asked s id c ∨ (id', c') = (id, c) → heeded (send id' c' s) id c.
Proof.
  intros Hw Hor. unfold send. destruct (Scheduler.active s !! JobId.get id') as [a|] eqn:Ha.
  - unfold Active.try_send. destruct (_ && _); unfold heeded, at_work, asked; cbn.
    + destruct (decide (id = id')) as [->|Hne].
      * rewrite lookup_insert_eq. split; [by eauto|].
        destruct Hor as [[(b&Hb&Hin)|Hin]|[= ->]]; [| by right|]; left; eexists; (split; [done|]); cbn; [|set_solver].
        rewrite Ha in Hb. injection Hb as <-. set_solver.
      * rewrite lookup_insert_ne by (intros ?%get_inj; congruence). split; [done|]. by destruct Hor as [?|[= ? ?]].
    + split; [done|]. destruct Hor as [[Hc|Hin]|[= -> ->]]; [by left|right; set_solver..].
  - split; [done|]. destruct Hor as [?|[= -> ->]]; [done|]. unfold at_work in Hw. rewrite Ha in Hw. by destruct Hw.
Qed.
Lemma heeded_sends id c (l : list (JobId.t * Control.t)) : ∀ s, at_work s id → asked s id c ∨ (id, c) ∈ l →
  heeded (foldl (λ s m, send m.1 m.2 s) s l) id c.
Proof.
  induction l as [|[id' c'] l IH]; intros s Hw Hor; cbn.
  { destruct Hor as [?|?%elem_of_nil]; [by split|done]. }
  assert (at_work (send id' c' s) id) as Hw'.
  { unfold send. destruct (_ !! JobId.get id') as [a|] eqn:Ha; [|done]. unfold Active.try_send.
    destruct (_ && _); [|done]. unfold at_work. cbn. destruct (decide (JobId.get id' = JobId.get id)) as [->|Hne].
    - rewrite lookup_insert_eq. eauto.
    - by rewrite lookup_insert_ne. }
  apply IH; [done|]. rewrite elem_of_cons in Hor.
  destruct Hor as [Ha|[[= -> ->]|Hin]]; [left|left|by right]; apply heeded_send; auto.
Qed.
Lemma heeded_deliver s u s' id c : deliver s = (Ok u, s') → heeded s id c → heeded s' id c.
Proof.
  unfold deliver, modify. intros [= _ <-] [Hw Ha]. apply heeded_sends; [done|].
  destruct Ha as [Hc|Hin]; [left; by left|by right].
Qed.

Lemma heeded_start_ready now id c ready : ∀ s r s', start_ready config now ready s = (Ok r, s') →
  id ∉ ids ready → heeded s id c → heeded s' id c.
Proof.
  induction ready as [|x ready IH]; intros s r s' Hr Hid Hh; cbn [start_ready] in Hr.
  { by injection Hr as _ <-. }
  cbn in Hid. apply not_elem_of_cons in Hid as [Hne Hid].
  bind Hr as y s1 Hg. injection Hg as <- <-. destruct (full config s); [by injection Hr as _ <-|].
  bind Hr as n s1 Ha. assert (heeded s1 id c) as Hh1.
  { unfold ask_governor in Ha. destruct (OriginGovernor.admit_ _ _ _ _). injection Ha as _ <-.
    by eapply heeded_same; [..|exact Hh]. }
  case_decide.
  - bind Hr as r2 s2 Hrest. injection Hr as _ <-. by eapply IH.
  - bind Hr as [] s2 Hm. injection Hm as <-. bind Hr as r2 s3 Hrest. injection Hr as _ <-. eapply IH; [done..|].
    unfold heeded, at_work, asked, start. cbn. rewrite lookup_insert_ne; [done|]. intros ?%get_inj. congruence.
Qed.
Lemma heeded_finish id' p s u s' id c : id ≠ id' → finish_session id' p s = (Ok u, s') → heeded s id c → heeded s' id c.
Proof.
  intros Hne (_&_&_&_&Hd&Ha)%finish_session_run Hh. destruct (_ !! JobId.get id'); [|by subst].
  destruct Ha as (Ha&_). revert Hh. unfold heeded, at_work, asked. rewrite Ha, Hd.
  rewrite lookup_delete_ne; [done|]. intros ?%get_inj. congruence.
Qed.

Lemma heeded_turn s leave s' id c : kept config s → turn config s = (Ok leave, s') → heeded s id c → heeded s' id c.
Proof.
  intros (Htk&Hb&Hn) Hr Hh. unfold turn in Hr. bind Hr as [] s1 Hd. pose proof (heeded_deliver _ _ _ _ _ Hd Hh) as Hh1.
  pose proof (sound_deliver config [] _ _ _ Hd Htk) as (Htk1&Hm1&Hb1). specialize (Hb1 Hb Hn).
  pose proof (moves_unique _ _ _ _ Hm1 Hn) as Hn1. bind Hr as st s0 Hg. injection Hg as <- <-.
  bind Hr as started s3 Hs.
  assert (heeded s3 id c) as Hh3.
  { destruct (Scheduler.stopping s1); [by injection Hs as _ <-|]. bind Hs as [] s2 Hp.
    pose proof (sound_promote_due config _ _ _ Hp Htk1) as (Htk2&Hm2&Hb2). specialize (Hb2 Hb1 Hn1).
    pose proof (moves_unique _ _ _ _ Hm2 Hn1) as Hn2. apply promote_due_queued in Hp.
    pose proof (heeded_queued _ _ _ _ Hp Hh1) as Hh2.
    assert (id ∉ ids (Queue.ready (Scheduler.queue s2))) as Hid.
    { intros Hin. destruct Hh2 as [Hw _]. apply (bk_active _ _ Hb2) in Hw.
      apply NoDup_app in Hn2 as (_&_&Hn2). apply NoDup_app in Hn2 as (_&Hx&_). apply (Hx id Hin). set_solver. }
    unfold admit_ready in Hs. bind Hs as t s4 Hnow. apply now_ms_aside in Hnow as [[Hq4 Heq] _].
    bind Hs as w s5 Hg. injection Hg as <- <-. bind Hs as [] s5 Hq. injection Hq as <-. bind Hs as r s5 Hst.
    bind Hs as [] s6 Hq. injection Hq as <-. injection Hs as _ <-.
    apply (heeded_queued s5); [by split|]. rewrite Heq in Hst.
    eapply heeded_start_ready; [exact Hst|done|]. apply (heeded_queued s4); [by split|]. by eapply heeded_queued. }
  bind Hr as y s4 Hg. injection Hg as <- <-. case_match; [by injection Hr as _ <-|].
  bind Hr as d s4 Hdl. apply sound_next_deadline in Hdl as [Hq4 _]. bind Hr as [] s5 Hset. injection Hset as <-.
  injection Hr as _ <-. eapply heeded_queued in Hh3; [|exact Hq4]. by eapply heeded_same; [..|exact Hh3].
Qed.
(** The end of a session of this job, and a request to stop it. *)
Definition ends (w : Wakeup.t) s (id : JobId.t) : Prop :=
  match w with
  | Wakeup.Ended task _ | Wakeup.Panicked task => Job.id <$> job_of task s = Some id
  | _ => False
  end.
Definition asks (w : Wakeup.t) (id : JobId.t) (c : Control.t) : Prop :=
  match w with
  | Wakeup.Received (Some (SchedulerCommand.Pause i)) => i = id ∧ c = Control.Pause
  | Wakeup.Received (Some (SchedulerCommand.Cancel i)) => i = id ∧ c = Control.Cancel
  | Wakeup.Received (Some SchedulerCommand.Shutdown) => c = Control.Pause
  | _ => False
  end.

Lemma heeded_enqueue j s u s' id c : enqueue j s = (Ok u, s') → heeded s id c → heeded s' id c.
Proof. intros [Hq _]%enqueue_moves. by apply heeded_queued. Qed.
Lemma heeded_on_stop id' c' s u s' id c : on_stop id' c' s = (Ok u, s') → at_work s id →
  asked s id c ∨ (id', c') = (id, c) → heeded s' id c.
Proof.
  unfold on_stop. intros Hr Hw Hor. bind Hr as y s1 Hg. injection Hg as <- <-.
  destruct (Scheduler.active s !! JobId.get id') as [a|] eqn:Ha.
  { unfold modify in Hr. injection Hr as _ <-. by apply heeded_send. }
  assert (heeded s id c) as Hh.
  { split; [done|]. destruct Hor as [?|[= -> ->]]; [done|]. unfold at_work in Hw. rewrite Ha in Hw. by destruct Hw. }
  destruct (Queue.remove id' _) as [[e|] q]; [|by injection Hr as _ <-].
  bind Hr as [] s1 Hs. injection Hs as <-. bind Hr as r s2 Hc. apply call_aside in Hc as ([Hq _]&_).
  assert (heeded s2 id c) as Hh2 by (eapply heeded_queued; [exact Hq|]; by eapply heeded_same; [..|exact Hh]).
  destruct r as [j|error]; [|by injection Hr as _ <-; eapply heeded_same; [..|exact Hh2]].
  bind Hr as r s3 Hst. apply settle_moves in Hst as [[Hq3 _] _]. injection Hr as _ <-.
  eapply heeded_queued in Hh2; [|exact Hq3]. by eapply heeded_same; [..|exact Hh2].
Qed.
Lemma heeded_pause_all id c l : ∀ s, at_work s id →
  asked s id c ∨ (JobId.get id ∈ l ∧ c = Control.Pause) →
  heeded (foldl (λ s p, send (JobId.Make p) Control.Pause s) s l) id c.
Proof.
  intros s Hw Hor. pose proof (heeded_sends id c ((λ p, (JobId.Make p, Control.Pause)) <$> l) s Hw) as Hs.
  assert (foldl (λ s p, send (JobId.Make p) Control.Pause s) s l =
    foldl (λ s m, send m.1 m.2 s) s ((λ p, (JobId.Make p, Control.Pause)) <$> l)) as ->.
  { clear. revert s. induction l as [|p l IH]; intros s; [done|]. apply IH. }
  apply Hs. destruct Hor as [?|[Hin ->]]; [by left|]. right. apply list_elem_of_fmap.
  exists (JobId.get id). split; [by destruct id|done].
Qed.

Lemma heeded_on_wakeup w s u s' id c : kept config s → enabled w s = true → on_wakeup w s = (Ok u, s') →
  at_work s id → ¬ ends w s id → asked s id c ∨ asks w id c → heeded s' id c.
Proof.
  intros (Htk&_&_) He Hr Hw Hends Hor. destruct w as [task run_with|task|[command|]|]; cbn in He, Hends, Hor.
  - destruct Hor as [Ha|[]]. cbn [on_wakeup] in Hr. bind Hr as y s1 Hg. injection Hg as <- <-.
    destruct (job_of task s) as [j|]; [|by injection Hr as _ <-]. cbn in Hends.
    destruct (run_with j) as [j' r]. unfold on_ended, join in Hr. bind Hr as [] s1 Hj. injection Hj as <-.
    bind Hr as [] s2 Hf. eapply (heeded_finish _ _ _ _ _ id c) in Hf; [|congruence|by split].
    destruct r as [answer|error].
    + bind Hr as [] s3 Hl. injection Hl as <-. eapply heeded_enqueue; [exact Hr|].
      by eapply heeded_same; [..|exact Hf].
    + injection Hr as _ <-. by eapply heeded_same; [..|exact Hf].
  - destruct Hor as [Ha|[]]. cbn [on_wakeup] in Hr. unfold on_panicked, join in Hr. bind Hr as [] s1 Hj. injection Hj as <-.
    bind Hr as y s1 Hg. injection Hg as <- <-. cbn in Hr. open_bools. destruct He as [j Hj]. rewrite Hj in Hends.
    rewrite (tk_owners _ Htk _ _ (job_of_elem _ _ _ Hj)) in Hr. bind Hr as [] s1 Hd. injection Hd as <-.
    bind Hr as [] s2 Hf. eapply (heeded_finish _ _ _ _ _ id c) in Hf; [|cbn in Hends; congruence|by split].
    injection Hr as _ <-. by eapply heeded_same; [..|exact Hf].
  - cbn [on_wakeup] in Hr. bind Hr as stop s1 Hc.
    enough (heeded s1 id c) as Hh by (destruct stop; injection Hr as _ <-; [by eapply heeded_same; [..|exact Hh]|done]).
    destruct command as [j|i|i|]; cbn [on_command] in Hc.
    + destruct Hor as [Ha|[]]. bind Hc as [] s2 Hx. injection Hc as _ <-. by eapply heeded_enqueue.
    + bind Hc as [] s2 Hx. injection Hc as _ <-. eapply heeded_on_stop; [exact Hx|done|].
      destruct Hor as [?|[-> ->]]; auto.
    + bind Hc as [] s2 Hx. injection Hc as _ <-. eapply heeded_on_stop; [exact Hx|done|].
      destruct Hor as [?|[-> ->]]; auto.
    + bind Hc as [] s2 Hx. injection Hx as <-. injection Hc as _ <-. apply heeded_pause_all; [done|].
      destruct Hor as [?| ->]; [by left|]. right. split; [|done]. destruct Hw as [a Ha].
      apply list_elem_of_fmap. exists (JobId.get id, a). split; [done|]. by apply elem_of_map_to_list.
  - destruct Hor as [Ha|[]]. injection Hr as _ <-. by split.
  - destruct Hor as [Ha|[]]. injection Hr as _ <-. by split.
Qed.

(** C8: a request to stop a running session - a pause, a cancel, or the pause a shutdown
    sends to every session - is in the session's inbox or kept for it when the loop is back
    at its select, and stays there until the session takes it or ends, whatever wakes the
    loop up but an admission of a job that is still waiting or running, now or earlier. *)
Theorem a_stop_request_is_kept jobs (world : W) g clock w s s1 leave s2 id c :
  unused g → at_select config jobs (begin_scheduler world g clock) [] s →
  enabled w s = true → keeps_id w → readmits w s = [] →
  on_wakeup w s = (Ok tt, s1) → turn config s1 = (Ok leave, s2) →
  at_work s id → ¬ ends w s id → asked s id c ∨ asks w id c →
  at_work s2 id ∧ asked s2 id c.
Proof.
  intros Hg Hs He Hid Hf Hw Ht Hat Hends Hor. pose proof (at_select_kept _ Hconfig _ _ _ _ _ Hg Hs) as Hk. eapply (heeded_turn s1); [|done|by eapply heeded_on_wakeup].
  destruct Hk as (Htk&Hb&Hn). eapply sound_kept; [by eapply (sound_on_wakeup config Hconfig)|done..|].
  by apply arrives_unique, readmits_none.
Qed.

Lemma start_ready_started now ready : ∀ s r s', start_ready config now ready s = (Ok r, s') →
  r.1 = true → Scheduler.sessions s' ≠ [].
Proof.
  induction ready as [|x ready IH]; intros s r s' Hr; cbn [start_ready] in Hr.
  { by injection Hr as <- _. }
  bind Hr as y s1 Hg. injection Hg as <- <-. destruct (full config s); [by injection Hr as <- _|].
  bind Hr as n s1 Ha. case_decide.
  - bind Hr as r2 s2 Hrest. injection Hr as <- <-. by apply (IH _ _ _ Hrest).
  - bind Hr as [] s2 Hm. injection Hm as <-. bind Hr as r2 s3 Hrest. injection Hr as <- <-.
    apply start_ready_sessions in Hrest as [l ->]. cbn. intros _. by destruct (Scheduler.sessions s1).
Qed.
Lemma admit_ready_started s s' : admit_ready config s = (Ok true, s') → Scheduler.sessions s' ≠ [].
Proof.
  unfold admit_ready. intros Hs. bind Hs as t s4 Hnow. bind Hs as w s5 Hg. bind Hs as [] s6 Hq.
  bind Hs as r s7 Hst. bind Hs as [] s8 Hq2. injection Hq2 as <-. injection Hs as Hr <-.
  apply (start_ready_started _ _ _ _ _ Hst Hr).
Qed.

(** Once the loop is stopping it starts nothing, and a turn leaves it exactly when no
    session is left; and whenever it stays, its select has a branch that can be taken. *)
Theorem stopping_drains s leave s' :
  turn config s = (Ok leave, s') →
  (Scheduler.stopping s = true → Scheduler.sessions s' = Scheduler.sessions s ∧
    (leave = true ↔ Scheduler.sessions s = [])) ∧
  (leave = false → Scheduler.sessions s' ≠ [] ∨ Scheduler.open s' = true ∨ is_Some (Scheduler.deadline s')).
Proof.
  intros Hr. unfold turn in Hr. bind Hr as [] s1 Hd. apply deliver_messaged in Hd as [].
  bind Hr as st s0 Hg. injection Hg as <- <-. rewrite mg_stopping0 in Hr. bind Hr as started s3 Hs. split.
  - intros Hstop. rewrite Hstop in Hs, Hr. injection Hs as <- <-. bind Hr as y s4 Hg. injection Hg as <- <-.
    rewrite mg_sessions0 in Hr. destruct (bool_decide _) eqn:He; cbn in Hr; open_bools.
    + injection Hr as <- <-. by split.
    + bind Hr as d s4 Hdl. apply sound_next_deadline in Hdl as [[] _]. bind Hr as [] s5 Hset. injection Hset as <-.
      injection Hr as <- <-. cbn. split; [congruence|]. by split.
  - intros ->.
    assert (started = true → Scheduler.sessions s3 ≠ []) as Hst.
    { destruct (Scheduler.stopping s); [by injection Hs as <- _|]. bind Hs as [] s2 Hp.
      intros ->. by eapply admit_ready_started. }
    clear Hs. bind Hr as y s4 Hg. injection Hg as <- <-. case_match; [done|].
    bind Hr as d s4 Hdl. apply sound_next_deadline in Hdl as [[] _]. bind Hr as [] s5 Hset. injection Hset as <-.
    injection Hr as Hl <-. cbn. destruct (decide (Scheduler.sessions s3 = [])) as [He|He]; [|left; congruence].
    right. rewrite qd_open. destruct (Scheduler.open s3) eqn:Hopen; [by left|]. right.
    destruct d; [eauto|]. rewrite He, andb_false_r in Hl. cbn in Hl. destruct started; [by destruct Hst|done].
Qed.
End Wake.
