(* ===== verification/SchedulerEngine.v ===== *)
(** * The coordinator behind the scheduler

    The interface the scheduler calls, implemented by the coordinator of [Coordinator.v]
    over any repository of transfers, and the laws the scheduler's theorems rest on. *)

From S2P Require Import Prelude.
From S2P Require Import Domain.
From S2P Require Import Segments.
From S2P Require Import JobMachine.
From S2P Require Import JobInv.
From S2P Require Import Origin.
From S2P Require Import Files.
From S2P Require Import Persistence.
From S2P Require Import Transfer.
From S2P Require Import Ports.
From S2P Require Import Coordinator.
From S2P Require Import Scheduler.
From S2P Require Import Admission.
From S2P Require Import PersistenceThm.
From S2P Require Import CoordinatorThm.
From S2P Require Import SchedulerInv.
From S2P Require Import SchedulerSteps.
From S2P Require Import SchedulerThm.
From S2P Require Import SchedulerWake.

(** What lives behind the coordinator between two of its calls, and what happens during
    the calls to come. *)
Module Backend.
Record t {R : Type} : Type := Make {
  repository : R; disk : Fs.t; now : Z; jitter : Z; script : list Wait.t }.
Arguments t : clear implicits.
End Backend.

Section Engine.
Context (sha256 : list Z → digest32) {R : Type} `{TransferRepository R} (c : Coordinator.t).
(** [Transport::origin], of an adapter outside the model. *)
Context (origin : Job.t → OriginId).

(** A call of the coordinator around a job with no session. *)
Definition around (call : Coordinator.session unit) (j : Job.t) : st (Backend.t R) Halt.t Job.t := λ b,
  let '(r, s) := call (Coordinator.begin j [] 0 [] None (Backend.repository b) (Backend.disk b)
                         (Backend.now b) (Backend.jitter b) (Backend.script b)) in
  ((λ _, Session.job s) <$> r,
   Backend.Make R (Session.repository s) (Session.disk s) (Session.now s) (Session.jitter s) (Session.script s)).

#[export] Instance coordinator_engine : Engine (Backend.t R) := {
  origin_of j _ := origin j;
  recover_job j := around (Coordinator.recover sha256 c) j;
  command_job j cmd := around (Coordinator.step sha256 c cmd) j }.

(** ** What the calls keep of the job *)

Implicit Types s : Session.t R.

Lemma job_work id x s : Session.job (Coordinator.work sha256 c id x s) = Session.job s.
Proof. unfold Coordinator.work, Coordinator.write_block. repeat case_match; done. Qed.
Lemma job_happen s m : Session.job (Coordinator.happen sha256 c s m) = Session.job s.
Proof. destruct m; cbn; [apply job_work|..]; repeat case_match; done. Qed.
Lemma job_await s r s' : Coordinator.await sha256 c s = (r, s') → Session.job s' = Session.job s.
Proof.
  unfold Coordinator.await. destruct (Session.script s) as [|w rest]; intros [= _ <-]; [done|].
  assert (∀ ms s0, Session.job s0 = Session.job s →
    Session.job (foldl (Coordinator.happen sha256 c) s0 ms) = Session.job s) as Hf; [|by apply Hf].
  induction ms as [|m ms IH]; intros s0 Hs; cbn; [done|]. apply IH. by rewrite job_happen.
Qed.
Lemma job_during {A} (call : Coordinator.session A) s r s' :
  (∀ s r s', call s = (r, s') → Session.job s' = Session.job s) →
  Coordinator.during sha256 c call s = (r, s') → Session.job s' = Session.job s.
Proof.
  intros Hcall. unfold Coordinator.during, mbind, st_bind.
  destruct (Coordinator.await _ _ s) as [[[]|e] s1] eqn:H1; apply job_await in H1; [|by intros [= _ <-]].
  destruct (call s1) as [[a|e] s2] eqn:H2; apply Hcall in H2; [|intros [= _ <-]; congruence].
  destruct (Coordinator.await _ _ s2) as [[[]|e] s3] eqn:H3; apply job_await in H3; intros [= _ <-]; congruence.
Qed.

Lemma job_repository {E A} (call : st R E A) s r s' :
  Coordinator.repository sha256 c call s = (r, s') → Session.job s' = Session.job s.
Proof.
  unfold Coordinator.repository. apply job_during. clear. intros s r s'.
  destruct (call (Session.repository s)). by intros [= _ <-].
Qed.

Lemma job_apply e s r s' : Coordinator.on_job (Job.apply_ e) s = (r, s') →
  Job.id (Session.job s') = Job.id (Session.job s) ∧
  (r = Ok tt → Job.state (Session.job s') = JobEvent.to e).
Proof.
  unfold Coordinator.on_job. destruct (Job.apply_ e (Session.job s)) as [[[]|error] j] eqn:Ha; intros [= <- <-].
  - apply JobInv.apply_inv in Ha as (_&_&_&_&_&next&Hx&Hst&_&->).
    apply JobInv.execute_frame in Hx as [Hid _]. by split.
  - apply JobInv.apply_atomic in Ha as ->. by split.
Qed.

(** After its events a job has its identity, and the last event's state. *)
Lemma job_commit_all events : ∀ s r s', Coordinator.commit_all sha256 c events s = (r, s') →
  Job.id (Session.job s') = Job.id (Session.job s) ∧
  ∀ e, events = [e] → r = Ok tt → Job.state (Session.job s') = JobEvent.to e.
Proof.
  induction events as [|e events IH]; intros s r s' Hr; cbn [Coordinator.commit_all] in Hr.
  { by injection Hr as <- <-. }
  unfold mbind, st_bind, Coordinator.try, lift in Hr.
  destruct (Coordinator.repository _ _ _ s) as [[a|halt] s1] eqn:Hrep; apply job_repository in Hrep;
    [|injection Hr as <- <-; by rewrite Hrep].
  destruct a as [[]|error]; cbn [map_err] in Hr; [|injection Hr as <- <-; by rewrite Hrep].
  destruct (Coordinator.on_job _ s1) as [[[]|error] s2] eqn:Ha; apply job_apply in Ha as [Hid Hst];
    [|injection Hr as <- <-; by rewrite Hid, Hrep].
  pose proof (IH _ _ _ Hr) as [Hid2 _]. split; [congruence|]. intros e' [= -> ->] ->.
  cbn in Hr. injection Hr as <-. by apply Hst.
Qed.

Lemma job_step cmd s r s' : Coordinator.step sha256 c cmd s = (r, s') →
  Job.id (Session.job s') = Job.id (Session.job s).
Proof.
  unfold Coordinator.step, mbind, st_bind, gets, Coordinator.try, lift.
  destruct (Job.decide_ _ cmd) as [events|e]; cbn [map_err]; [|by intros [= _ <-]].
  by intros [? _]%job_commit_all.
Qed.
Lemma step_due now s s' : Coordinator.step sha256 c (JobCommand.RetryDue now) s = (Ok tt, s') →
  Job.state (Session.job s') = JobState.Queued.
Proof.
  unfold Coordinator.step, mbind, st_bind, gets, Coordinator.try, lift.
  destruct (Job.decide_ _ _) as [events|e] eqn:Hd; cbn [map_err]; [|done].
  assert (∀ b next, Job.execute (JobCommand.RetryDue now) (Session.job s) = (Ok b, next) →
    b = true ∧ Job.state next = JobState.Queued) as Hx.
  { intros b next. unfold Job.execute, Job.transition, Job.to. unfold_monad. repeat case_match; intros; simplify_eq; done. }
  apply JobInv.decide_inv in Hd as [(->&next&Hn)|(next&Hn&_&->)]; apply Hx in Hn as [? Hn]; [done|].
  intros [_ Hst]%job_commit_all. rewrite <-Hn. by apply (Hst _ eq_refl).
Qed.

Lemma job_drop_part s r s' : Coordinator.drop_part sha256 c s = (r, s') → Session.job s' = Session.job s.
Proof.
  unfold Coordinator.drop_part. unfold mbind at 1, st_bind at 1, gets.
  destruct (Job.plan (Session.job s)), (Coordinator.part_spec (Session.job s)), 
    (Coordinator.parts_for c (JobSpec.destination (Job.spec (Session.job s)))); try (by intros [= _ <-]).
  unfold mbind at 1, st_bind at 1. destruct (Coordinator.during _ _ _ s) as [[x|e] s1] eqn:Hd.
  all: apply job_during in Hd; [|clear; unfold Coordinator.on_disk; intros s r s'; case_match; by intros [= _ <-]].
  all: by intros [= _ <-].
Qed.

Lemma job_recover s r s' : Coordinator.recover sha256 c s = (r, s') →
  Job.id (Session.job s') = Job.id (Session.job s).
Proof.
  unfold Coordinator.recover, mbind, st_bind, gets, Coordinator.state_is.
  destruct (Job.state _); try (by intros [= _ <-]); try (by apply job_step).
  4: { destruct (Coordinator.drop_part _ _ s) as [[[]|e] s1] eqn:Hd; apply job_drop_part in Hd.
    - intros Hs%job_step. by rewrite Hs, Hd.
    - intros [= _ <-]. by rewrite Hd. }
  all: destruct (Coordinator.step _ _ JobCommand.Pause s) as [[[]|e] s1] eqn:Hp; apply job_step in Hp;
    [|intros [= _ <-]; congruence].
  all: unfold gets; case_match; [intros Hs%job_step; congruence|intros [= _ <-]; congruence].
Qed.

#[export] Instance coordinator_laws : EngineLaws (Backend.t R).
Proof.
  assert (∀ call, (∀ s r s', call s = (r, s') → Job.id (Session.job s') = Job.id (Session.job s)) →
    ∀ j w j' w', around call j w = (Ok j', w') → Job.id j' = Job.id j) as Hid.
  { intros call Hc j w j' w'. unfold around. destruct (call _) as [[u|e] s] eqn:Hr; apply Hc in Hr; [|done].
    by intros [= <- <-]. }
  split.
  - apply Hid. apply job_recover.
  - intros j cmd. revert j. apply Hid. apply job_step.
  - intros j now w j' w'. cbn. unfold around. destruct (Coordinator.step _ _ _ _) as [[[]|e] s] eqn:Hr; [|done].
    apply step_due in Hr. intros [= <- _]. by rewrite Hr.
Qed.
End Engine.

(** * Runs of the scheduler

    Concrete runs over the coordinator of the sessions: that the hypotheses of the theorems
    hold, and two runs in which the loop does not do what it means to. *)

Definition example_backend : Backend.t SqliteRepository.t :=
  Backend.Make _ (SqliteRepository.Make example_queue Limits.default_ []) Fs.empty 5 6 (replicate 9 idle).
#[local] Instance example_engine : Engine (Backend.t SqliteRepository.t) :=
  coordinator_engine example_sha256 example_coordinator (λ _, [7]).
#[local] Instance example_laws : EngineLaws (Backend.t SqliteRepository.t) :=
  coordinator_laws example_sha256 example_coordinator (λ _, [7]).

Definition example_governor : OriginGovernor.t := OriginGovernor.Make OriginLimits.default_ ∅.
Definition example_config : SchedulerConfig.t := SchedulerConfig.Make 2 4 2 false.
Definition example_resident : SchedulerConfig.t := SchedulerConfig.Make 2 4 2 true.
Definition example_scheduler (clock : list Z) : Scheduler.t (Backend.t SqliteRepository.t) :=
  begin_scheduler example_backend example_governor clock.
Lemma example_unused : unused example_governor.
Proof. split; [reflexivity|]. intros o. unfold flying, OriginGovernor.entry. cbn. by rewrite lookup_empty. Qed.

(** The loop at its first select, with one session. *)
Definition example_running : Scheduler.t (Backend.t SqliteRepository.t) :=
  ((_ ← intake [] [example_added]; turn example_config) (example_scheduler [])).2.
Lemma example_at_select : at_select example_config [example_added] (example_scheduler []) [] example_running.
Proof. by eapply at_first; [vm_compute; reflexivity|vm_compute; reflexivity]. Qed.

(** ** The hypotheses hold *)

Lemma caps_are_kept_witness :
  Scheduler.used example_running = 2 ∧ Scheduler.used example_running ≤ 4 ∧
  flying (Scheduler.governor example_running) [7] ≤ 8.
Proof.
  destruct (caps_are_kept example_config eq_refl [example_added] example_backend example_governor []
    example_running example_unused example_at_select) as (_&_&_&_&Hused&Hfly).
  split; [vm_compute; reflexivity|]. split; [exact Hused|exact (proj2 (Hfly [7]))].
Defined.

(** Two copies of a job are given, another arrives, and both sessions publish. *)
Definition example_other : Job.t := Job.set_state JobState.Queued
  (Job.new (JobId.Make 2) (Job.spec example_added)).
Definition publishes (j : Job.t) : Job.t * SessionResult :=
  (Job.set_state JobState.Completed j, Ok (SessionEnd.Published (Leaf [97]))).
Definition example_turns : list (Turn.t (Backend.t SqliteRepository.t)) :=
  [Turn.Make _ [] (Some (Wakeup.Received (Some (SchedulerCommand.Admit example_other))));
   Turn.Make _ [] (Some (Wakeup.Ended 0 publishes));
   Turn.Make _ [Occurrence.Succeeded [7] 5] (Some (Wakeup.Ended 1 publishes))].
Definition example_outcomes : list Outcome.t * Scheduler.t (Backend.t SqliteRepository.t) :=
  match run_scheduler example_config [example_added; example_added] example_turns (example_scheduler [5]) with
  | (Ok outs, s) => (outs, s)
  | (Err _, s) => ([], s)
  end.
Lemma every_job_comes_back_once_witness :
  Outcome.id <$> example_outcomes.1 = [JobId.Make 1; JobId.Make 1; JobId.Make 2] ∧
  Outcome.id <$> example_outcomes.1 ≡ₚ [JobId.Make 1; JobId.Make 1; JobId.Make 2].
Proof.
  split; [vm_compute; reflexivity|].
  refine (proj2 (every_job_comes_back_once example_config eq_refl [example_added; example_added] example_turns
    example_backend example_governor [5] example_outcomes.1 example_outcomes.2 _ _)).
  - intros t w Ht Hw. unfold example_turns in Ht. rewrite !elem_of_cons in Ht.
    destruct Ht as [->|[->|[->|?%elem_of_nil]]]; cbn in Hw; try done; injection Hw as <-; done.
  - vm_compute. reflexivity.
Defined.

(** A job that waits for its retry at 100. *)
Definition example_waiting : Job.t := Job.set_retry_at (Some 100) (Job.set_state JobState.RetryWait example_added).
Definition example_intake (clock : list Z) : Scheduler.t (Backend.t SqliteRepository.t) :=
  (intake [] [example_waiting] (example_scheduler clock)).2.

(** The session of job 1 is asked to pause, with room in its inbox. *)
Definition example_paused : Scheduler.t (Backend.t SqliteRepository.t) :=
  (on_wakeup (Wakeup.Received (Some (SchedulerCommand.Pause (JobId.Make 1)))) example_running).2.
Lemma a_stop_request_is_kept_witness :
  asked (turn example_config example_paused).2 (JobId.Make 1) Control.Pause.
Proof.
  refine (proj2 (a_stop_request_is_kept example_config eq_refl [example_added] example_backend example_governor []
    (Wakeup.Received (Some (SchedulerCommand.Pause (JobId.Make 1)))) example_running example_paused false
    (turn example_config example_paused).2 (JobId.Make 1) Control.Pause example_unused example_at_select _ _ _ _ _ _ _ _)).
  - vm_compute. reflexivity.
  - exact I.
  - reflexivity.
  - vm_compute. reflexivity.
  - vm_compute. reflexivity.
  - eexists. vm_compute. reflexivity.
  - intros [].
  - right. by split.
Defined.

Lemma stopping_drains_witness :
  let s := (turn example_config (Scheduler.set_stopping true example_running)).2 in
  Scheduler.sessions s = Scheduler.sessions example_running ∧ Scheduler.sessions s ≠ [].
Proof.
  cbv zeta. split; [|vm_compute; discriminate].
  refine (proj1 (proj1 (stopping_drains example_config (Scheduler.set_stopping true example_running) false _ _) eq_refl)).
  vm_compute. reflexivity.
Defined.

(** ** Two runs that go wrong *)

(** A retry that falls due while a turn runs - after the loop looked for due retries and
    before it computes its deadline - leaves a resident scheduler waiting without a deadline,
    with nothing running and the job due: only another command gets it going. *)
Theorem a_due_retry_can_be_missed :
  ∃ s e, turn example_resident (example_intake [99; 99; 100]) = (Ok false, s) ∧
    Scheduler.sessions s = [] ∧ Scheduler.deadline s = None ∧
    Queue.waiting (Scheduler.queue s) = [e] ∧ due e (Scheduler.now s) = true.
Proof. do 2 eexists. split; [vm_compute; reflexivity|]. vm_compute. done. Qed.

(** Admitting a job whose session is running starts a second one over it: when both have
    ended, the connections of the first are still counted, in the scheduler and in the
    governor, though nothing runs. *)
Theorem a_second_admission_leaks_the_grant :
  ∃ outs s, run_scheduler example_config [example_added]
      [Turn.Make _ [] (Some (Wakeup.Received (Some (SchedulerCommand.Admit example_added))));
       Turn.Make _ [] (Some (Wakeup.Ended 0 publishes));
       Turn.Make _ [] (Some (Wakeup.Ended 1 publishes))] (example_scheduler [5]) = (Ok outs, s) ∧
    Scheduler.sessions s = [] ∧ Scheduler.active s = ∅ ∧ Scheduler.used s = 2 ∧
    flying (Scheduler.governor s) [7] = 2.
Proof. do 2 eexists. split; [vm_compute; reflexivity|]. vm_compute. done. Qed.

(** With room for more connections the second session also goes uncounted by [max_active], which counts
    rows of [active]: three sessions run where two may. *)
Definition example_roomy : SchedulerConfig.t := SchedulerConfig.Make 2 6 2 false.
Definition admits (j : Job.t) (s : Scheduler.t (Backend.t SqliteRepository.t)) : Scheduler.t (Backend.t SqliteRepository.t) :=
  ((_ ← on_wakeup (Wakeup.Received (Some (SchedulerCommand.Admit j))); turn example_roomy) s).2.
Definition example_once : Scheduler.t (Backend.t SqliteRepository.t) :=
  ((_ ← intake [] [example_added]; turn example_roomy) (example_scheduler [])).2.
Lemma example_once_selects : at_select example_roomy [example_added] (example_scheduler []) [] example_once.
Proof. by eapply at_first; [vm_compute; reflexivity|vm_compute; reflexivity]. Qed.
Theorem a_second_admission_exceeds_the_cap :
  let s := admits example_other (admits example_added example_once) in
  at_select example_roomy [example_added] (example_scheduler []) [JobId.Make 1] s ∧
  length (Scheduler.sessions s) = 3%nat ∧ SchedulerConfig.max_active example_roomy = 2.
Proof.
  cbv zeta. split; [|split; vm_compute; reflexivity].
  eapply (at_wakes_with _ _ _ [JobId.Make 1] _ (admits example_added example_once)
    (Wakeup.Received (Some (SchedulerCommand.Admit example_other)))); [|vm_compute; reflexivity|exact I|vm_compute; reflexivity..].
  eapply (at_wakes_with _ _ _ [] _ example_once (Wakeup.Received (Some (SchedulerCommand.Admit example_added))));
    [|vm_compute; reflexivity|exact I|vm_compute; reflexivity..].
  apply example_once_selects.
Qed.
