(* ===== verification/TransferStore.v ===== *)
(** * The store of one sequential download

    [src/crates/transfer-store/src/lib.rs]: a directory of its own per download, with the
    payload, a one-row database that says how much of it counts, and the output linked to
    the payload when it is complete.  The directory is a file system of [Files.v] without
    subdirectories; the database keeps its row, and a statement that fails may have been
    carried out all the same.  [sha256] is the digest over all the bytes fed to a hasher,
    which is modelled as those bytes. *)

From S2P Require Import Prelude.
From S2P Require Import Files.
From S2P Require Import StorageFile.

Module Identity.
Record t : Type := Make {
  original_url_fingerprint : list Z;
  final_url_fingerprint : list Z;
  strong_etag : option (list Z);
  total : Z;
  expected_sha256 : option (list Z) }.
Definition set_urls (o f : list Z) (i : t) : t := Make o f (strong_etag i) (total i) (expected_sha256 i).
Definition set_total (v : Z) (i : t) : t :=
  Make (original_url_fingerprint i) (final_url_fingerprint i) (strong_etag i) v (expected_sha256 i).
End Identity.

Module Status.
Inductive t : Type := Downloading | ReadyToPublish | Published.
End Status.

Module StoreError.
Inductive t : Type :=
| Io (kind : ErrorKind.t) | Database | UnsupportedVersion | InvalidInput | Corrupt | Locked | Collision
| Incomplete | HashMismatch | NotWritable.
#[global] Instance t_eq_dec : EqDecision t.
Proof. solve_decision. Defined.
End StoreError.

(** The row of the table [job]; version 2 has no column [length_known]. *)
Module Row.
Record t : Type := Make {
  version : Z;
  original : list Z;
  final : list Z;
  etag : option (list Z);
  total : Z;
  expected : option (list Z);
  output : list Z;
  committed : Z;
  digest : list Z;
  phase : Z;
  length_known : Z }.
Definition set_urls o f r := Make (version r) o f (etag r) (total r) (expected r) (output r) (committed r)
  (digest r) (phase r) (length_known r).
Definition set_progress c d r := Make (version r) (original r) (final r) (etag r) (total r) (expected r)
  (output r) c d (phase r) (length_known r).
Definition set_phase p r := Make (version r) (original r) (final r) (etag r) (total r) (expected r)
  (output r) (committed r) (digest r) p (length_known r).
Definition set_length t k p r := Make (version r) (original r) (final r) (etag r) t (expected r)
  (output r) (committed r) (digest r) p k.
(** The table's CHECK constraints. *)
Definition checks (r : t) : bool :=
  bool_decide (length (original r) = 32%nat) && bool_decide (length (final r) = 32%nat)
  && bool_decide (0 ≤ total r) && bool_decide (0 ≤ committed r ≤ total r)
  && bool_decide (length (digest r) = 32%nat) && bool_decide (0 ≤ phase r ≤ 3)
  && bool_decide (length_known r ∈ [0; 1]).
End Row.

(** What becomes of a call of the database. *)
Module Fate.
Inductive t : Type := Fine | Refused | Ambiguous.
End Fate.

(** The directory, the entries of the directories above it (nearest first), its own
    entry, its lock, its database. *)
Module World.
Record t : Type := Make {
  fs : Fs.t;
  above : list (option Node);
  here : option Node;
  owned : bool;
  row : option Row.t;
  fates : list Fate.t }.
Definition set_fs v w := Make v (above w) (here w) (owned w) (row w) (fates w).
Definition set_here v w := Make (fs w) (above w) v (owned w) (row w) (fates w).
Definition set_owned v w := Make (fs w) (above w) (here w) v (row w) (fates w).
Definition set_row v w := Make (fs w) (above w) (here w) (owned w) v (fates w).
Definition set_fates v w := Make (fs w) (above w) (here w) (owned w) (row w) v.
End World.

Definition world_st (A : Type) : Type := st World.t StoreError.t A.
Definition on_files {A} (m : fs_st A) : world_st A := λ w,
  let '(r, s) := m (World.fs w) in (map_err StoreError.Io r, World.set_fs s w).
(** A statement: refused without a trace, done, or done and reported as failed. *)
Definition statement {A} (op : world_st A) : world_st A := λ w,
  let rest := World.set_fates (tail (World.fates w)) w in
  match head (World.fates w) with
  | Some Fate.Refused => (Err StoreError.Database, rest)
  | Some Fate.Ambiguous => (Err StoreError.Database, (op rest).2)
  | _ => op rest
  end.
(** [SELECT ... WHERE id=1]. *)
Definition select_row {A} (f : Row.t → A) : world_st A := statement (λ w,
  (match World.row w with Some r => Ok (f r) | None => Err StoreError.Database end, w)).
(** [UPDATE ... WHERE id=1 AND cond]: how many rows changed; a row the table's checks
    refuse changes nothing. *)
Definition update_row (cond : Row.t → bool) (f : Row.t → Row.t) : world_st Z := statement (λ w,
  match World.row w with
  | Some r =>
      if cond r then
        if Row.checks (f r) then (Ok 1, World.set_row (Some (f r)) w) else (Err StoreError.Database, w)
      else (Ok 0, w)
  | None => (Ok 0, w)
  end).
Definition any_row (_ : Row.t) : bool := true.

(** ** Names *)

(** The six names the store and its database use, in lower case: owner.lock, payload.part,
    state.sqlite and its journal, wal and shm. *)
Definition owner_lock : list Z := [111; 119; 110; 101; 114; 46; 108; 111; 99; 107].
Definition payload_part : list Z := [112; 97; 121; 108; 111; 97; 100; 46; 112; 97; 114; 116].
Definition state_sqlite : list Z := [115; 116; 97; 116; 101; 46; 115; 113; 108; 105; 116; 101].
Definition OWN_NAMES : list (list Z) :=
  [owner_lock; payload_part; state_sqlite;
   state_sqlite ++ [45; 106; 111; 117; 114; 110; 97; 108]; state_sqlite ++ [45; 119; 97; 108];
   state_sqlite ++ [45; 115; 104; 109]].
Definition device_stem (stem : list Z) : bool :=
  bool_decide (stem ∈ [[99; 111; 110]; [112; 114; 110]; [97; 117; 120]; [110; 117; 108]]).
Definition port_stem (stem : list Z) : bool :=
  bool_decide (sum_Z (utf8_len <$> stem) = 4) && bool_decide (take 3 stem ∈ PORTS)
  && is_some_and (λ c, bool_decide (48 ≤ c ≤ 57)) (stem !! 3%nat).
(** Letters are compared in lower case where the code compares them in upper case. *)
Definition validate_name (name : list Z) : result StoreError.t unit :=
  let stem := to_ascii_lowercase <$> before_dot name in
  refuse_if (bool_decide (name = []) || bool_decide (180 < sum_Z (utf8_len <$> name))
    || is_some_and (λ c, bool_decide (c ∈ [46; 32])) (last name)
    || existsb (λ c, is_control c || bool_decide (c ∈ FORBIDDEN)) name
    || bool_decide (name ∈ [[46]; [46; 46]]) || device_stem stem || port_stem stem
    || bool_decide ((to_ascii_lowercase <$> name) ∈ OWN_NAMES)) StoreError.InvalidInput.
Definition validate_identity (i : Identity.t) : result StoreError.t unit :=
  refuse_if (bool_decide (i64_max < Identity.total i)
    || is_some_and (λ s, bool_decide (8192 < sum_Z (utf8_len <$> s))) (Identity.strong_etag i)) StoreError.InvalidInput.

(** ** Paths *)

(** [reject_link] of an entry, with its one call of [symlink_metadata]. *)
Definition stat_entry (n : option Node) : fs_st Node := syscall no_effect (λ s, (ok_or n ErrorKind.NotFound, s)).
Definition reject_link_entry (n : option Node) : world_st unit :=
  node ← on_files (stat_entry n);
  lift (match node with Link => Err StoreError.InvalidInput | _ => Ok tt end).
Fixpoint check_ancestors (entries : list (option Node)) : world_st unit :=
  match entries with
  | [] => mret tt
  | n :: rest =>
      _ ← reject_link_entry n;
      node ← on_files (stat_entry n);
      _ ← lift (refuse_if (bool_decide (node ≠ Dir)) StoreError.InvalidInput);
      check_ancestors rest
  end.
Definition reject_link (name : Name) : world_st unit :=
  node ← on_files (symlink_metadata name);
  lift (match node with Link => Err StoreError.InvalidInput | _ => Ok tt end).
Fixpoint reject_links (names : list Name) : world_st unit :=
  match names with
  | [] => mret tt
  | name :: rest => _ ← on_files access; _ ← reject_link name; reject_links rest
  end.
Definition is_file (name : Name) : world_st unit :=
  node ← on_files (symlink_metadata name);
  lift (match node with File _ => Ok tt | _ => Err StoreError.InvalidInput end).
Definition sync_directory : world_st unit := on_files access.

(** [create_dir]: a directory that was not there, with nothing in it. *)
Definition create_dir : world_st unit := λ w,
  let '(r, w) := on_files access w in
  match r, World.here w with
  | Err e, _ => (Err e, w)
  | Ok _, Some _ => (Err (StoreError.Io ErrorKind.AlreadyExists), w)
  | Ok _, None => (Ok tt, World.set_here (Some Dir) w)
  end.
(** [try_lock]: at most one handle owns the lock file. *)
Definition try_lock : world_st unit := λ w,
  let '(r, w) := on_files access w in
  match r, World.owned w with
  | Ok _, false => (Ok tt, World.set_owned true w)
  | _, _ => (Err StoreError.Locked, w)
  end.
(** The rest of an operation that holds the lock: on an error the lock is dropped. *)
Definition holding {A} (m : world_st A) : world_st A := λ w,
  match m w with
  | (Err e, w) => (Err e, World.set_owned false w)
  | r => r
  end.
(** [Connection::open] makes the file. *)
Definition db_open : world_st unit := statement (λ w,
  let s := World.fs w in
  match Fs.nodes s !! Leaf state_sqlite with
  | Some _ => (Ok tt, w)
  | None => (Ok tt, World.set_fs (Fs.Make (<[Leaf state_sqlite := File (Fs.next s)]> (Fs.nodes s))
      (<[Fs.next s := []]> (Fs.data s)) (S (Fs.next s)) (Fs.faults s)) w)
  end).
Definition db_call : world_st unit := statement (mret tt).
(** [configure]. *)
Definition configure : world_st unit := db_call.

(** ** Hashing *)

(** [hash_prefix]: buffers of 64 KiB until [len] bytes are read. *)
Fixpoint hash_from (fuel : nat) (ino : nat) (off left : Z) : world_st (list Z) :=
  match fuel with
  | O => mret []
  | S fuel =>
      if decide (left ≤ 0) then mret [] else
      read ← on_files (read_some ino off (Z.min left BUFFER));
      if decide (read = []) then throw StoreError.Corrupt else
      rest ← hash_from fuel ino (off + Z.of_nat (length read)) (left - Z.of_nat (length read));
      mret (read ++ rest)
  end.
Definition hash_prefix (ino : nat) (len : Z) : world_st (list Z) :=
  _ ← on_files access; hash_from (S (Z.to_nat len)) ino 0 len.

(** ** The store *)

Module Store.
(** [part] is the payload's inode, [pos] where its handle stands; [hasher] holds the bytes
    fed to it. *)
Record t : Type := Make {
  part : nat;
  pos : Z;
  identity : Identity.t;
  output : list Z;
  len : Z;
  committed : Z;
  phase : Z;
  hasher : list Z;
  poisoned : bool;
  unknown_length : bool }.
Definition set_pos v s := Make (part s) v (identity s) (output s) (len s) (committed s) (phase s) (hasher s)
  (poisoned s) (unknown_length s).
Definition set_identity v s := Make (part s) (pos s) v (output s) (len s) (committed s) (phase s) (hasher s)
  (poisoned s) (unknown_length s).
Definition set_content p l h s := Make (part s) p (identity s) (output s) l (committed s) (phase s) h
  (poisoned s) (unknown_length s).
Definition set_committed v s := Make (part s) (pos s) (identity s) (output s) (len s) v (phase s) (hasher s)
  (poisoned s) (unknown_length s).
Definition set_phase v s := Make (part s) (pos s) (identity s) (output s) (len s) (committed s) v (hasher s)
  (poisoned s) (unknown_length s).
Definition set_poisoned v s := Make (part s) (pos s) (identity s) (output s) (len s) (committed s) (phase s)
  (hasher s) v (unknown_length s).
Definition set_unknown_length v s := Make (part s) (pos s) (identity s) (output s) (len s) (committed s) (phase s)
  (hasher s) (poisoned s) v.
Definition total (s : t) : Z := Identity.total (identity s).
End Store.

(** A handle and the world it lives in. *)
Module Handle.
Record t : Type := Make { store : Store.t; world : World.t }.
End Handle.
Definition handle_st (A : Type) : Type := st Handle.t StoreError.t A.
Definition on_world {A} (m : world_st A) : handle_st A := λ h,
  let '(r, w) := m (Handle.world h) in (r, Handle.Make (Handle.store h) w).
Definition on_store (f : Store.t → Store.t) : handle_st unit :=
  modify (λ h, Handle.Make (f (Handle.store h)) (Handle.world h)).
Definition self : handle_st Store.t := gets Handle.store.

Section Store.
Context (sha256 : list Z → list Z).

(** "FHD.url-identity.v2" and a zero, before the text of the URL. *)
Definition URL_PREFIX : list Z :=
  [70; 72; 68; 46; 117; 114; 108; 45; 105; 100; 101; 110; 116; 105; 116; 121; 46; 118; 50; 0].
Definition url_fingerprint (normalized_url : list Z) : list Z := sha256 (URL_PREFIX ++ normalized_url).

(** *** Creating *)

Definition new_row (i : Identity.t) (output : list Z) (unknown : bool) : Row.t :=
  Row.Make (if unknown then 3 else 2) (Identity.original_url_fingerprint i) (Identity.final_url_fingerprint i)
    (Identity.strong_etag i) (Identity.total i) (Identity.expected_sha256 i) output 0 (sha256 []) 0 0.
Definition insert_row (r : Row.t) : world_st unit := statement (λ w,
  if Row.checks r then (Ok tt, World.set_row (Some r) w) else (Err StoreError.Database, w)).

Definition create_inner (i : Identity.t) (output : list Z) (unknown : bool) : world_st Store.t :=
  _ ← lift (validate_name output);
  _ ← lift (validate_identity i);
  _ ← on_files access;
  above ← gets World.above;
  _ ← lift (refuse_if (bool_decide (above = [])) StoreError.InvalidInput);
  _ ← check_ancestors above;
  _ ← create_dir;
  _ ← on_files (create_new (Leaf owner_lock));
  _ ← try_lock;
  holding (
    part ← on_files (create_new (Leaf payload_part));
    _ ← on_files access;
    _ ← db_open;
    _ ← configure;
    _ ← db_call;
    _ ← (if unknown : bool then db_call else mret tt);
    _ ← insert_row (new_row i output unknown);
    _ ← sync_directory;
    mret (Store.Make part 0 i output 0 0 0 [] false unknown)).
Definition create (i : Identity.t) (output : list Z) : world_st Store.t := create_inner i output false.
Definition create_unknown (i : Identity.t) (output : list Z) : world_st Store.t :=
  _ ← lift (refuse_if (bool_decide (Identity.total i = 0)) StoreError.InvalidInput);
  create_inner i output true.

(** *** Opening *)

(** [try_into] an array of 32 bytes. *)
Definition as_hash (v : list Z) : result StoreError.t (list Z) :=
  if decide (length v = 32%nat) then Ok v else Err StoreError.Corrupt.
Definition row_corrupt (r : Row.t) (unknown : bool) : bool :=
  negb (bool_decide (Row.version r ∈ [2; 3]))
  || (unknown && (bool_decide (Row.phase r ≠ 0) || bool_decide (Row.total r = 0)))
  || (bool_decide (Row.version r = 3) && negb unknown && bool_decide (Row.phase r = 0))
  || bool_decide (Row.total r < 0) || bool_decide (Row.committed r < 0)
  || bool_decide (Row.total r < Row.committed r) || negb (bool_decide (0 ≤ Row.phase r ≤ 3))
  || (bool_decide (0 < Row.phase r) && bool_decide (Row.committed r ≠ Row.total r)).
Definition length_unknown (r : Row.t) : world_st bool :=
  if decide (Row.version r = 3) then
    k ← select_row Row.length_known;
    lift (if decide (k = 0) then Ok true else if decide (k = 1) then Ok false else Err StoreError.Corrupt)
  else mret false.
Definition row_identity (r : Row.t) : result StoreError.t Identity.t :=
  expected ← transpose (as_hash <$> Row.expected r);
  original ← as_hash (Row.original r);
  final ← as_hash (Row.final r);
  let i := Identity.Make original final (Row.etag r) (Row.total r) expected in
  _ ← validate_identity i;
  Ok i.

(** [verify_destination]. *)
Definition verify_destination (s : Store.t) : world_st unit :=
  let dest := Leaf (Store.output s) in
  _ ← reject_link dest;
  _ ← is_file dest;
  ino ← on_files (open dest);
  size ← on_files (file_len ino);
  same ← (if decide (size = Store.total s) then
            bytes ← hash_prefix ino (Store.len s);
            mret (bool_decide (sha256 bytes = sha256 (Store.hasher s)))
          else mret false);
  lift (refuse_if (negb same) StoreError.Collision).

(** From the payload's handle on: the committed bytes proved, the rest cut off. *)
Definition adopt_payload (part : nat) (r : Row.t) (unknown : bool) (i : Identity.t) : world_st Store.t :=
  size ← on_files (file_len part);
  _ ← lift (refuse_if (bool_decide (size < Row.committed r)) StoreError.Corrupt);
  _ ← (if decide (0 < Row.phase r) then
         size ← on_files (file_len part);
         lift (refuse_if (bool_decide (size ≠ Row.committed r)) StoreError.Corrupt)
       else mret tt);
  bytes ← hash_prefix part (Row.committed r);
  _ ← lift (refuse_if (bool_decide (sha256 bytes ≠ Row.digest r)) StoreError.Corrupt);
  size ← on_files (file_len part);
  _ ← (if decide (size ≠ Row.committed r) then
         _ ← on_files (set_len part (Row.committed r)); on_files access
       else mret tt);
  _ ← on_files access;
  let s := Store.Make part (Row.committed r) i (Row.output r) (Row.committed r) (Row.committed r) (Row.phase r)
             bytes unknown unknown in
  _ ← (if decide (Row.phase r = 3) then verify_destination s else mret tt);
  mret s.
Definition open_payload (r : Row.t) (unknown : bool) (i : Identity.t) : world_st Store.t :=
  part ← on_files (open (Leaf payload_part));
  adopt_payload part r unknown i.

Definition entries (w : World.t) : list Name := (map_to_list (Fs.nodes (World.fs w))).*1.
Definition open_store : world_st Store.t :=
  _ ← on_files access;
  here ← gets (λ w, World.here w :: World.above w);
  _ ← check_ancestors here;
  _ ← on_files access;
  names ← gets entries;
  _ ← reject_links names;
  _ ← is_file (Leaf owner_lock);
  _ ← is_file (Leaf state_sqlite);
  _ ← is_file (Leaf payload_part);
  _ ← on_files (open (Leaf owner_lock));
  _ ← try_lock;
  holding (
    _ ← db_call;
    _ ← db_call;
    version ← select_row Row.version;
    _ ← lift (refuse_if (negb (bool_decide (version ∈ [2; 3]))) StoreError.UnsupportedVersion);
    _ ← db_call;
    _ ← configure;
    r ← select_row (λ r, r);
    unknown ← length_unknown r;
    _ ← lift (refuse_if (row_corrupt r unknown) StoreError.Corrupt);
    i ← lift (row_identity r);
    _ ← lift (validate_name (Row.output r));
    open_payload r unknown i).

(** Dropping the handle. *)
Definition close_store (w : World.t) : World.t := World.set_owned false w.

(** *** Accessors *)

Definition verified_sha256 (s : Store.t) : list Z := sha256 (Store.hasher s).
Definition status (s : Store.t) : Status.t :=
  if decide (Store.phase s = 0) then Status.Downloading
  else if decide (Store.phase s = 3) then Status.Published else Status.ReadyToPublish.

(** *** Operations *)

Definition guard (bad : Store.t → bool) (e : StoreError.t) : handle_st unit :=
  s ← self; lift (refuse_if (bad s) e).
(** A mutation: a failure leaves the handle poisoned. *)
Definition poisoning {A} (m : handle_st A) : handle_st A :=
  _ ← on_store (Store.set_poisoned true);
  a ← m;
  _ ← on_store (Store.set_poisoned false);
  mret a.

Definition rebind_urls (original final_url : list Z) : handle_st unit :=
  _ ← guard (λ s, Store.poisoned s || bool_decide (Store.phase s ≠ 0) || Store.unknown_length s
               || bool_decide (Identity.strong_etag (Store.identity s) = None)) StoreError.NotWritable;
  poisoning (
    changed ← on_world (update_row any_row (Row.set_urls original final_url));
    _ ← lift (refuse_if (bool_decide (changed ≠ 1)) StoreError.Corrupt);
    on_store (λ s, Store.set_identity (Identity.set_urls original final_url (Store.identity s)) s)).

(** [write_all] where the handle stands. *)
Definition write_part (bytes : list Z) : handle_st unit :=
  s ← self;
  on_world (on_files (write_all (Store.part s) (Store.pos s) bytes)).
Definition append_bytes (bytes : list Z) : handle_st unit :=
  _ ← guard (λ s, Store.poisoned s || bool_decide (Store.phase s ≠ 0)) StoreError.NotWritable;
  s ← self;
  new_len ← lift (ok_or (checked_add (Store.len s) (Z.of_nat (length bytes))) StoreError.InvalidInput);
  _ ← lift (refuse_if (bool_decide (Store.total s < new_len)) StoreError.InvalidInput);
  poisoning (
    _ ← write_part bytes;
    on_store (λ s, Store.set_content (Store.pos s + Z.of_nat (length bytes)) new_len (Store.hasher s ++ bytes) s)).

Definition checkpoint_store : handle_st unit :=
  _ ← guard (λ s, Store.poisoned s || bool_decide (Store.phase s ≠ 0)) StoreError.NotWritable;
  poisoning (
    _ ← on_world (on_files access);
    s ← self;
    _ ← on_world (update_row any_row (Row.set_progress (Store.len s) (sha256 (Store.hasher s))));
    on_store (λ s, Store.set_committed (Store.len s) s)).

Definition set_phase_row (p : Z) : world_st Z := update_row any_row (Row.set_phase p).
Definition mark_transfer_complete : handle_st unit :=
  _ ← guard (λ s, Store.unknown_length s || bool_decide (Store.len s ≠ Store.total s)) StoreError.Incomplete;
  _ ← checkpoint_store;
  poisoning (
    _ ← on_world (set_phase_row 1);
    on_store (Store.set_phase 1)).

(** The transaction of [mark_unknown_transfer_complete]: nothing happens before its
    commit. *)
Definition open_length (r : Row.t) : bool :=
  bool_decide (Row.version r = 3) && bool_decide (Row.length_known r = 0) && bool_decide (Row.phase r = 0).
Definition complete_length (len : Z) : world_st unit :=
  _ ← db_call;
  changed ← statement (λ w, (match World.row w with
    | Some r => if open_length r then
                  if Row.checks (Row.set_length len 1 1 r) then Ok 1 else Err StoreError.Database
                else Ok 0
    | None => Ok 0
    end, w));
  _ ← lift (refuse_if (bool_decide (changed ≠ 1)) StoreError.Corrupt);
  statement (λ w, (Ok tt, World.set_row (Row.set_length len 1 1 <$> World.row w) w)).
Definition mark_unknown_transfer_complete : handle_st unit :=
  _ ← guard (λ s, negb (Store.unknown_length s)) StoreError.InvalidInput;
  _ ← checkpoint_store;
  poisoning (
    s ← self;
    _ ← on_world (complete_length (Store.len s));
    on_store (λ s, Store.set_phase 1 (Store.set_unknown_length false
      (Store.set_identity (Identity.set_total (Store.len s) (Store.identity s)) s)))).

(** [hash_prefix] on the payload: reading moves its handle. *)
Definition hash_part : handle_st (list Z) :=
  s ← self;
  bytes ← on_world (hash_prefix (Store.part s) (Store.len s));
  _ ← on_store (Store.set_pos (Store.len s));
  mret bytes.
Definition wrong_digest (digest : list Z) (s : Store.t) : bool :=
  is_some_and (λ e, bool_decide (e ≠ digest)) (Identity.expected_sha256 (Store.identity s)).

(** What [symlink_metadata] says of the output. *)
Definition occupied : handle_st (option Node) := λ h,
  let '(r, s) := symlink_metadata (Leaf (Store.output (Handle.store h))) (World.fs (Handle.world h)) in
  (match r with
   | Ok n => Ok (Some n)
   | Err ErrorKind.NotFound => Ok None
   | Err e => Err (StoreError.Io e)
   end, Handle.Make (Handle.store h) (World.set_fs s (Handle.world h))).

Definition publish_part : handle_st unit :=
  s ← self;
  size ← on_world (on_files (file_len (Store.part s)));
  _ ← lift (refuse_if (bool_decide (size ≠ Store.total s)) StoreError.Corrupt);
  bytes ← hash_part;
  _ ← lift (refuse_if (bool_decide (sha256 bytes ≠ sha256 (Store.hasher s))) StoreError.Corrupt);
  let digest := sha256 (Store.hasher s) in
  _ ← lift (refuse_if (wrong_digest digest s) StoreError.HashMismatch);
  node ← occupied;
  _ ← match node with
      | Some _ => on_world (verify_destination s)
      | None =>
          if decide (Store.phase s = 2)
          then on_world (on_files (hard_link (Leaf payload_part) (Leaf (Store.output s))))
          else throw (StoreError.Io ErrorKind.NotFound)
      end;
  _ ← on_world (on_files access);
  _ ← on_world sync_directory;
  _ ← on_world (set_phase_row 3);
  on_store (Store.set_phase 3).

(** The first step of [finalize_inner]: the intent to publish. *)
Definition intend : handle_st unit :=
  node ← occupied;
  _ ← lift (refuse_if (bool_decide (node ≠ None)) StoreError.Collision);
  s ← self;
  bytes ← hash_part;
  _ ← lift (refuse_if (bool_decide (sha256 bytes ≠ sha256 (Store.hasher s))) StoreError.Corrupt);
  _ ← lift (refuse_if (wrong_digest (sha256 bytes) s) StoreError.HashMismatch);
  _ ← on_world (set_phase_row 2);
  on_store (Store.set_phase 2).
Definition finalize : handle_st Name :=
  _ ← guard (λ s, Store.poisoned s || bool_decide (Store.phase s = 0)) StoreError.Incomplete;
  poisoning (
    s ← self;
    _ ← (if decide (Store.phase s = 1) then intend else mret tt);
    _ ← publish_part;
    mret (Leaf (Store.output s))).
End Store.
