(* ===== verification/TransferStoreInv.v ===== *)
(** * Invariants of the download store

    What the directory and its database hold whatever calls fail, and what a handle that
    may still be used knows of them. *)

From S2P Require Import Prelude.
From S2P Require Import Files.
From S2P Require Import FilesInv.
From S2P Require Import StorageFile.
From S2P Require Import StorageInv.
From S2P Require Import TransferStore.

(** ** Calls that only look *)

Record same_world (w w' : World.t) : Prop := {
  sw_fs : same (World.fs w) (World.fs w');
  sw_above : World.above w' = World.above w;
  sw_here : World.here w' = World.here w;
  sw_row : World.row w' = World.row w }.
#[global] Instance same_world_preorder : PreOrder same_world.
Proof. split; [by split|]. intros ??? [] []. split; [by etrans|congruence..]. Qed.

Definition looks {A} (m : world_st A) : Prop := ∀ w, same_world w (m w).2.
Lemma looks_bind {A B} (m : world_st A) (k : A → world_st B) : looks m → (∀ a, looks (k a)) → looks (m ≫= k).
Proof.
  intros Hm Hk w. unfold mbind, st_bind. specialize (Hm w). destruct (m w) as [[a|e] w']; cbn in *; [|done].
  etrans; [done|apply Hk].
Qed.
Lemma looks_ret {A} (a : A) : looks (mret a).
Proof. by intros w. Qed.
Lemma looks_lift {A} (r : result StoreError.t A) : looks (lift r).
Proof. by intros w. Qed.
Lemma looks_throw {A} e : looks (throw e : world_st A).
Proof. by intros w. Qed.
Lemma looks_gets {A} (f : World.t → A) : looks (gets f).
Proof. by intros w. Qed.
Lemma looks_on_files {A} (m : fs_st A) : keeps m → looks (on_files m).
Proof. intros Hm w. unfold on_files. specialize (Hm (World.fs w)). by destruct (m (World.fs w)). Qed.
Lemma looks_statement {A} (op : world_st A) : looks op → looks (statement op).
Proof.
  intros Hop w. unfold statement. destruct (head _) as [[]|]; cbn; try done;
    (etrans; [|apply Hop]; done).
Qed.
Lemma looks_db_call : looks db_call.
Proof. apply looks_statement, looks_ret. Qed.
Lemma looks_select {A} (f : Row.t → A) : looks (select_row f).
Proof. apply looks_statement. by intros w. Qed.
Lemma keeps_stat_entry n : keeps (stat_entry n).
Proof. by apply keeps_syscall. Qed.

Create HintDb looks discriminated.
#[export] Hint Resolve looks_bind looks_ret looks_lift looks_throw looks_gets looks_on_files looks_db_call
  looks_select : looks.
#[export] Hint Resolve keeps_stat_entry : keeps.
#[export] Hint Extern 1 (keeps _) => solve [auto with keeps] : looks.

Lemma looks_if {A} (P : Prop) `{Decision P} (m m' : world_st A) : looks m → looks m' → looks (if decide P then m else m').
Proof. by case_decide. Qed.
#[export] Hint Resolve looks_if : looks.

Lemma looks_reject_link n : looks (reject_link n).
Proof. unfold reject_link. auto with looks. Qed.
Lemma looks_is_file n : looks (is_file n).
Proof. unfold is_file. auto with looks. Qed.
Lemma looks_check_ancestors l : looks (check_ancestors l).
Proof. induction l as [|n l IH]; cbn; unfold reject_link_entry; auto 10 with looks. Qed.
Lemma looks_reject_links l : looks (reject_links l).
Proof. induction l as [|n l IH]; cbn; auto using looks_reject_link with looks. Qed.
Lemma looks_hash_from fuel ino : ∀ off left, looks (hash_from fuel ino off left).
Proof. induction fuel as [|fuel IH]; intros off left; cbn; auto 10 with looks. Qed.
Lemma looks_hash_prefix ino len : looks (hash_prefix ino len).
Proof. unfold hash_prefix. auto using looks_hash_from with looks. Qed.
#[export] Hint Resolve looks_reject_link looks_is_file looks_check_ancestors looks_reject_links looks_hash_prefix : looks.

Lemma looks_run {A} (m : world_st A) w r w' : looks m → m w = (r, w') → same_world w w'.
Proof. intros Hm Hr. specialize (Hm w). by rewrite Hr in Hm. Qed.
Lemma same_world_content w w' ino : same_world w w' → Fs.content (World.fs w') ino = Fs.content (World.fs w) ino.
Proof. intros []. by apply same_content. Qed.
Lemma same_world_nodes w w' : same_world w w' → Fs.nodes (World.fs w') = Fs.nodes (World.fs w).
Proof. by intros [(?&_) _ _ _]. Qed.

(** [hash_prefix] reads the prefix it names, all of it, or fails. *)
Lemma hash_from_Ok fuel ino : ∀ off left w bytes w', 0 ≤ off → left ≤ Z.of_nat fuel →
  hash_from fuel ino off left w = (Ok bytes, w') → bytes = slice off left (Fs.content (World.fs w) ino) ∧
  (0 ≤ left → Z.of_nat (length bytes) = left).
Proof.
  induction fuel as [|fuel IH]; intros off left w bytes w' Hoff Hl Hr; cbn [hash_from] in Hr.
  { injection Hr as <- _. unfold slice. rewrite Z2Nat.nonpos by lia. split; [done|]. cbn. lia. }
  case_decide as Hle.
  { injection Hr as <- _. unfold slice. rewrite Z2Nat.nonpos by lia. split; [done|]. cbn. lia. }
  unfold mbind, st_bind in Hr.
  destruct (on_files (read_some ino off (Z.min left BUFFER)) w) as [[read|e] w1] eqn:Hrd; [|done].
  assert (same_world w w1) as Hs by (eapply looks_run; [|exact Hrd]; auto with looks keeps).
  assert (read = slice off (Z.min left BUFFER) (Fs.content (World.fs w) ino)) as ->.
  { unfold on_files, read_some in Hrd. destruct (syscall _ _ _) as [rr ss] eqn:Hsc. unfold syscall in Hsc.
    destruct (head _) as [[[]|]|]; simplify_eq/=; done. }
  set (read := slice off _ _) in *. case_decide as Hne; [done|].
  destruct (hash_from fuel ino _ _ w1) as [[rest|e] w2] eqn:Hrest; [|done]. injection Hr as <- _.
  assert (0 < Z.of_nat (length read)) by (destruct read; [done|cbn; lia]).
  assert (Z.of_nat (length read) ≤ left) as Hrl by (unfold read, slice, BUFFER; rewrite length_take; lia).
  apply IH in Hrest as [-> Hlen]; [|lia|lia]. rewrite (same_world_content _ _ _ Hs) in *. split.
  - unfold read at 1.
    assert (slice off (Z.min left BUFFER) (Fs.content (World.fs w) ino) =
      slice off (Z.of_nat (length read)) (Fs.content (World.fs w) ino)) as ->.
    { unfold read, slice. rewrite length_take, Nat2Z.id.
      destruct (decide (Z.to_nat (Z.min left BUFFER) ≤ length (drop (Z.to_nat off) (Fs.content (World.fs w) ino)))%nat).
      - by rewrite Nat.min_l by lia.
      - rewrite Nat.min_r by lia. rewrite !firstn_all2; [done|lia..]. }
    rewrite slice_app by lia. f_equal. lia.
  - intros _. rewrite length_app. specialize (Hlen ltac:(lia)). lia.
Qed.
Lemma hash_prefix_Ok ino len w bytes w' : 0 ≤ len → hash_prefix ino len w = (Ok bytes, w') →
  bytes = take (Z.to_nat len) (Fs.content (World.fs w) ino) ∧
  len ≤ Z.of_nat (length (Fs.content (World.fs w) ino)) ∧ same_world w w'.
Proof.
  intros Hl Hr. assert (same_world w w') by (eapply looks_run; [apply looks_hash_prefix|done]).
  unfold hash_prefix, mbind, st_bind in Hr. destruct (on_files access w) as [[[]|e] w1] eqn:Ha; [|done].
  assert (same_world w w1) as Hs by (eapply looks_run; [|exact Ha]; auto with looks keeps).
  apply hash_from_Ok in Hr as [-> Hlen]; [|lia..]. rewrite (same_world_content _ _ _ Hs) in *.
  unfold slice in *. cbn in *. specialize (Hlen Hl). rewrite drop_0 in *. rewrite length_take in Hlen. split_and!; [done|lia|done].
Qed.

(** ** What is on the disk *)

Definition row_unknown (r : Row.t) : bool := bool_decide (Row.version r = 3) && bool_decide (Row.length_known r = 0).
Lemma checks_spec r : Row.checks r = true ↔
  length (Row.original r) = 32%nat ∧ length (Row.final r) = 32%nat ∧ 0 ≤ Row.total r ∧
  0 ≤ Row.committed r ≤ Row.total r ∧ length (Row.digest r) = 32%nat ∧ 0 ≤ Row.phase r ≤ 3 ∧
  Row.length_known r ∈ [0; 1].
Proof. unfold Row.checks. rewrite !andb_true_iff, !bool_decide_eq_true. tauto. Qed.
Lemma corrupt_spec r unknown : row_corrupt r unknown = false ↔
  Row.version r ∈ [2; 3] ∧ (unknown = true → Row.phase r = 0 ∧ Row.total r ≠ 0) ∧
  (Row.version r = 3 → unknown = false → Row.phase r ≠ 0) ∧ 0 ≤ Row.total r ∧
  0 ≤ Row.committed r ≤ Row.total r ∧ 0 ≤ Row.phase r ≤ 3 ∧ (0 < Row.phase r → Row.committed r = Row.total r).
Proof.
  unfold row_corrupt.
  rewrite !orb_false_iff, !andb_false_iff, !orb_false_iff, !negb_false_iff, !bool_decide_eq_false, !bool_decide_eq_true.
  destruct unknown; split; intros; destruct_and?; split_and!; intros; try done; try lia; try tauto.
Qed.
(** A row [open] accepts. *)
Record row_ok (r : Row.t) : Prop := {
  ro_checks : Row.checks r = true;
  ro_corrupt : row_corrupt r (row_unknown r) = false;
  ro_expected : ∀ e, Row.expected r = Some e → length e = 32%nat;
  ro_total : Row.total r ≤ i64_max;
  ro_etag : ∀ e, Row.etag r = Some e → sum_Z (utf8_len <$> e) ≤ 8192;
  ro_output : validate_name (Row.output r) = Ok tt }.

(** The directory of a store: plain directories above it, its three files, no links. *)
Record placed (w : World.t) (p : nat) : Prop := {
  pl_above : Forall (λ n, n = Some Dir) (World.above w);
  pl_here : World.here w = Some Dir;
  pl_links : ∀ n, Fs.nodes (World.fs w) !! n ≠ Some Link;
  pl_lock : ∃ i, Fs.nodes (World.fs w) !! Leaf owner_lock = Some (File i);
  pl_state : ∃ i, Fs.nodes (World.fs w) !! Leaf state_sqlite = Some (File i);
  pl_part : Fs.nodes (World.fs w) !! Leaf payload_part = Some (File p) }.

Section Inv.
Context (sha256 : list Z → list Z).
Implicit Types (s : Store.t) (w : World.t) (r : Row.t).

Definition content w (p : nat) : list Z := Fs.content (World.fs w) p.
(** The output is there, with the digest on record. *)
Definition published w r : Prop := ∃ ino, Fs.nodes (World.fs w) !! Leaf (Row.output r) = Some (File ino) ∧
  Z.of_nat (length (content w ino)) = Row.total r ∧ sha256 (content w ino) = Row.digest r.
(** What the row says of the payload is true. *)
Record proved w (p : nat) r : Prop := {
  pv_length : Row.committed r ≤ Z.of_nat (length (content w p));
  pv_digest : Row.digest r = sha256 (take (Z.to_nat (Row.committed r)) (content w p));
  pv_exact : 0 < Row.phase r → Z.of_nat (length (content w p)) = Row.committed r;
  pv_published : Row.phase r = 3 → published w r }.

(** A handle, usable or not, and the disk under it. *)
Record Core s w r : Prop := {
  co_row : World.row w = Some r;
  co_ok : row_ok r;
  co_placed : placed w (Store.part s);
  co_proved : proved w (Store.part s) r;
  co_prefix : Store.hasher s `prefix_of` content w (Store.part s);
  co_len : Store.len s = Z.of_nat (length (Store.hasher s));
  co_committed : Store.committed s ≤ Row.committed r ≤ Store.len s;
  co_output : Row.output r = Store.output s;
  co_expected : Row.expected r = Identity.expected_sha256 (Store.identity s) }.
(** What a handle that may be used knows. *)
Record Clean s w r : Prop := {
  cl_content : content w (Store.part s) = Store.hasher s;
  cl_pos : Store.phase s = 0 → Store.pos s = Store.len s;
  cl_phase : Row.phase r = Store.phase s;
  cl_total : Row.total r = Store.total s;
  cl_unknown : Store.unknown_length s = row_unknown r;
  cl_committed : Row.committed r = Store.committed s;
  cl_bound : Store.len s ≤ Store.total s }.
Definition Broken (h : Handle.t) : Prop :=
  Store.poisoned (Handle.store h) = true ∧ ∃ r, Core (Handle.store h) (Handle.world h) r.
Definition Usable (h : Handle.t) : Prop :=
  ∃ r, Core (Handle.store h) (Handle.world h) r ∧ Clean (Handle.store h) (Handle.world h) r.
Definition Live (h : Handle.t) : Prop := Broken h ∨ (Store.poisoned (Handle.store h) = false ∧ Usable h).

(** ** Rules

    [runs P m Q]: from [P], [m] ends in [Q], or fails and leaves a broken handle. *)

Definition runs {A} (P : Handle.t → Prop) (m : handle_st A) (Q : A → Handle.t → Prop) : Prop := ∀ h, P h →
  match m h with (Ok a, h') => Q a h' | (Err _, h') => Broken h' end.

Lemma runs_bind {A B} P (m : handle_st A) (k : A → handle_st B) Q R :
  runs P m Q → (∀ a, runs (Q a) (k a) R) → runs P (m ≫= k) R.
Proof.
  intros Hm Hk h HP. unfold mbind, st_bind. specialize (Hm h HP). destruct (m h) as [[a|e] h']; [by apply Hk|done].
Qed.
Lemma runs_ret {A} (P : Handle.t → Prop) (a : A) (Q : A → Handle.t → Prop) : (∀ h, P h → Q a h) → runs P (mret a) Q.
Proof. intros HQ h HP. by apply HQ. Qed.
Lemma runs_pre {A} (P P' : Handle.t → Prop) (m : handle_st A) Q : runs P' m Q → (∀ h, P h → P' h) → runs P m Q.
Proof. intros Hm HP h Hh. by apply Hm, HP. Qed.
Lemma runs_post {A} P (m : handle_st A) (Q Q' : A → Handle.t → Prop) :
  runs P m Q' → (∀ a h, Q' a h → Q a h) → runs P m Q.
Proof. intros Hm HQ h Hh. specialize (Hm h Hh). destruct (m h) as [[a|e] h']; [by apply HQ|done]. Qed.
Lemma runs_lift {A} P (x : result StoreError.t A) (Q : A → Handle.t → Prop) :
  (∀ h, P h → Broken h) → (∀ a h, x = Ok a → P h → Q a h) → runs P (lift x) Q.
Proof. intros HB HQ h Hh. unfold lift. destruct x; [by apply HQ|by apply HB]. Qed.
Lemma runs_refuse P b e (Q : Handle.t → Prop) :
  (∀ h, P h → Broken h) → (∀ h, b = false → P h → Q h) → runs P (lift (refuse_if b e)) (λ _, Q).
Proof. intros HB HQ. apply runs_lift; [done|]. intros [] h Hb. destruct b; [done|by apply HQ]. Qed.
Lemma runs_self P : runs P self (λ a h, a = Handle.store h ∧ P h).
Proof. by intros h HP. Qed.
Lemma runs_throw {A} P e (Q : A → Handle.t → Prop) : (∀ h, P h → Broken h) → runs P (throw e) Q.
Proof. intros HB h HP. by apply HB. Qed.

(** Looking at the world changes nothing of what is known. *)
Definition stable (P : Handle.t → Prop) : Prop := ∀ s w w', same_world w w' → P (Handle.Make s w) → P (Handle.Make s w').
Lemma runs_looks {A} P (m : world_st A) : looks m → stable P → (∀ h, P h → Broken h) →
  runs P (on_world m) (λ a h, P h ∧ ∃ w, same_world w (Handle.world h) ∧ (m w).1 = Ok a).
Proof.
  intros Hm Hst HB [s w] HP. unfold on_world. cbn. pose proof (Hm w) as Hs. destruct (m w) as [[a|e] w'] eqn:Hr; cbn in *.
  - split; [by eapply Hst|]. exists w. by rewrite Hr.
  - apply HB. by eapply Hst.
Qed.

Lemma placed_same w w' p : same_world w w' → placed w p → placed w' p.
Proof. intros Hs []. pose proof (same_world_nodes _ _ Hs) as Hn. destruct Hs. split; rewrite ?Hn; congruence. Qed.
Lemma published_same w w' r : same_world w w' → published w r → published w' r.
Proof.
  intros Hs (ino&Hn&Hl&Hd). exists ino. unfold content in *. rewrite (same_world_nodes _ _ Hs), (same_world_content _ _ _ Hs). done.
Qed.
Lemma proved_same w w' p r : same_world w w' → proved w p r → proved w' p r.
Proof.
  intros Hs []. assert (content w' p = content w p) as E by (by apply same_world_content).
  split; rewrite ?E; try done. intros Hp. eapply published_same; [done|auto].
Qed.
Lemma Core_same s w w' r : same_world w w' → Core s w r → Core s w' r.
Proof.
  intros Hs []. assert (content w' (Store.part s) = content w (Store.part s)) as E by (by apply same_world_content).
  split; rewrite ?E; try done.
  - destruct Hs. congruence.
  - by eapply placed_same.
  - by eapply proved_same.
Qed.
Lemma Clean_same s w w' r : same_world w w' → Clean s w r → Clean s w' r.
Proof.
  intros Hs []. assert (content w' (Store.part s) = content w (Store.part s)) as E by (by apply same_world_content).
  split; rewrite ?E; done.
Qed.
(** A poisoned handle that was clean when its operation began, and a fact about it. *)
Definition Firm (X : Store.t → World.t → Row.t → Prop) (h : Handle.t) : Prop :=
  Store.poisoned (Handle.store h) = true ∧
  ∃ r, Core (Handle.store h) (Handle.world h) r ∧ Clean (Handle.store h) (Handle.world h) r ∧
    X (Handle.store h) (Handle.world h) r.
Definition stable_on (X : Store.t → World.t → Row.t → Prop) : Prop :=
  ∀ s w w' r, same_world w w' → X s w r → X s w' r.
Lemma Firm_stable X : stable_on X → stable (Firm X).
Proof.
  intros Hst s w w' Hs (Hp&r&Hc&Hl&Hx). split; [done|]. exists r. split; [by eapply Core_same|].
  split; [by eapply Clean_same|by eapply Hst].
Qed.
Lemma Firm_Broken X h : Firm X h → Broken h.
Proof. intros (Hp&r&Hc&_). split; [done|by exists r]. Qed.

(** A mutation from a usable handle. *)
Lemma Core_poisoned v s w r : Core s w r → Core (Store.set_poisoned v s) w r.
Proof. by intros []. Qed.
Lemma Clean_poisoned v s w r : Clean s w r → Clean (Store.set_poisoned v s) w r.
Proof. by intros []. Qed.
Lemma poisoning_live {A} X (m : handle_st A) (P : Handle.t → Prop) :
  (∀ h, P h → ∃ r, Core (Handle.store h) (Handle.world h) r ∧ Clean (Handle.store h) (Handle.world h) r ∧
     X (Store.set_poisoned true (Handle.store h)) (Handle.world h) r) →
  runs (Firm X) m (λ _, Usable) → ∀ h, P h →
  match poisoning m h with
  | (Ok _, h') => Store.poisoned (Handle.store h') = false ∧ Usable h'
  | (Err _, h') => Broken h'
  end.
Proof.
  intros HP Hm h Hh. destruct (HP h Hh) as (r&Hc&Hl&Hx). unfold poisoning, mbind, st_bind, on_store, modify. cbn.
  specialize (Hm (Handle.Make (Store.set_poisoned true (Handle.store h)) (Handle.world h))).
  destruct (m _) as [[a|e] h'].
  - destruct Hm as (r'&Hc'&Hl').
    { split; [done|]. exists r. split; [by apply Core_poisoned|]. split; [by apply Clean_poisoned|done]. }
    split; [done|]. exists r'. split; [by apply Core_poisoned|by apply Clean_poisoned].
  - apply Hm. split; [done|]. exists r. split; [by apply Core_poisoned|]. split; [by apply Clean_poisoned|done].
Qed.

(** ** Statements *)

Lemma update_run f w r x w' : World.row w = Some r → update_row any_row f w = (x, w') →
  (same_world w w' ∧ is_ok x = false) ∨
  (Row.checks (f r) = true ∧ same_world (World.set_row (Some (f r)) w) w' ∧ (x = Ok 1 ∨ is_ok x = false)).
Proof.
  intros Hr. unfold update_row, statement. cbn. rewrite Hr. destruct (Row.checks (f r)) eqn:Hc;
    destruct (head _) as [[]|]; intros [= <- <-]; auto 10 using same_world_preorder.
  all: try (left; split; [done|done]); try (right; split_and!; [done|done|by left]); try (right; split_and!; [done|done|by right]).
Qed.

(** The row is the new one; what was known of the old one is still known. *)
Definition Written (X : Store.t → World.t → Row.t → Prop) (f : Row.t → Row.t) (h : Handle.t) : Prop :=
  Store.poisoned (Handle.store h) = true ∧
  ∃ r w, Core (Handle.store h) (Handle.world h) (f r) ∧ Clean (Handle.store h) (Handle.world h) r ∧ X (Handle.store h) w r.
Lemma runs_update X f : 
  (∀ s w r, Core s w r → Clean s w r → X s w r → Row.checks (f r) = true → Core s (World.set_row (Some (f r)) w) (f r)) →
  runs (Firm X) (on_world (update_row any_row f)) (λ n h, n = 1 ∧ Written X f h).
Proof.
  intros Hf [s w] (Hp&r&Hc&Hl&Hx). unfold on_world. cbn in *. destruct (update_row any_row f w) as [x w'] eqn:Hu.
  apply (update_run _ _ r) in Hu as [[Hs Hx']|(Hck&Hs&Hx')]; [..|apply Hc].
  - destruct x; [done|]. split; [done|]. exists r. by eapply Core_same.
  - assert (Core s w' (f r)) as Hc' by (eapply Core_same; [exact Hs|by apply Hf]).
    assert (Clean s w' r) as Hl'.
    { eapply (Clean_same s (World.set_row (Some (f r)) w)); [done|]. by destruct Hl. }
    destruct x as [n|e]; [|by split; [|exists (f r)]]. destruct Hx' as [[= ->]|?]; [|done]. split; [done|]. split; [done|].
    by exists r, w.
Qed.

Lemma row_ok_change r r' :
  row_ok r → Row.checks r' = true → row_corrupt r' (row_unknown r') = false →
  Row.expected r' = Row.expected r → Row.etag r' = Row.etag r → Row.output r' = Row.output r →
  Row.total r' ≤ Row.total r → row_ok r'.
Proof.
  intros [] Hc Hk He Ht Ho Hl. split; [done|done|..]; rewrite ?He, ?Ht, ?Ho; try done. lia.
Qed.

(** The row says less than it might: nothing to fear from a statement before completion. *)
Lemma Core_row s w r r' :
  Core s w r → Clean s w r → row_ok r' → Row.output r' = Row.output r → Row.expected r' = Row.expected r →
  (Row.committed r' = Row.committed r ∧ Row.digest r' = Row.digest r
   ∨ Row.committed r' = Store.len s ∧ Row.digest r' = sha256 (Store.hasher s)) →
  (0 < Row.phase r' → Row.committed r' = Store.len s) →
  (Row.phase r' = 3 → published w r') →
  Core s (World.set_row (Some r') w) r'.
Proof.
  intros [] [] Hok Ho Hx Hcd Hph Hpub. assert (0 ≤ Store.len s) by lia.
  assert (take (Z.to_nat (Store.len s)) (Store.hasher s) = Store.hasher s) as Hall.
  { rewrite co_len0, Nat2Z.id. apply firstn_all. }
  assert (Row.committed r' ≤ Store.len s ∧ Store.committed s ≤ Row.committed r') as [Hle Hge].
  { destruct Hcd as [[-> _]|[-> _]]; lia. }
  split; try done.
  - destruct co_placed0. by split.
  - split.
    + change (content (World.set_row (Some r') w) (Store.part s)) with (content w (Store.part s)). rewrite cl_content0. lia.
    + change (content (World.set_row (Some r') w) (Store.part s)) with (content w (Store.part s)). destruct Hcd as [[-> ->]|[-> ->]].
      * apply co_proved0.
      * by rewrite cl_content0, Hall.
    + intros Hp. change (content (World.set_row (Some r') w) (Store.part s)) with (content w (Store.part s)).
      rewrite cl_content0, (Hph Hp). lia.
    + intros Hp. destruct (Hpub Hp) as (ino&Hi). by exists ino.
  - congruence.
  - congruence.
Qed.

Lemma runs_update_then X f g :
  (∀ s w r, Core s w r → Clean s w r → X s w r → Row.checks (f r) = true → Core s (World.set_row (Some (f r)) w) (f r)) →
  (∀ s w w0 r, Core s w (f r) → Clean s w r → X s w0 r → Core (g s) w (f r) ∧ Clean (g s) w (f r)) →
  runs (Firm X) (_ ← on_world (update_row any_row f); on_store g) (λ _, Usable).
Proof.
  intros Hf Hg. eapply runs_bind; [by apply runs_update|]. intros n [s w] (_&_&r&w0&Hc&Hl&Hx). cbn in *.
  exists (f r). by eapply Hg.
Qed.
End Inv.
