(* ===== verification/TransferStoreOps.v ===== *)
(** * The operations of the download store

    Every operation leaves a handle that may be used, or a broken one over a directory that
    can be opened again. *)

From S2P Require Import Prelude.
From S2P Require Import Files.
From S2P Require Import FilesInv.
From S2P Require Import StorageFile.
From S2P Require Import StorageInv.
From S2P Require Import TransferStore.
From S2P Require Import TransferStoreInv.

Section Ops.
Context (sha256 : list Z → list Z).
Implicit Types (s : Store.t) (w : World.t) (r : Row.t) (h : Handle.t).
Abbreviation Core := (Core sha256).
Abbreviation Clean := (Clean).
Abbreviation Usable := (Usable sha256).
Abbreviation Broken := (Broken sha256).
Abbreviation Live := (Live sha256).
Abbreviation runs := (runs sha256).
Abbreviation Firm := (Firm sha256).
Abbreviation Written := (Written sha256).

(** The state an operation leaves, whatever it answers. *)
Definition ends_live {A} (m : handle_st A) : Prop := ∀ h, Live h → Live (m h).2.

Lemma Live_usable h : Live h → Store.poisoned (Handle.store h) = false → Usable h.
Proof. intros [[Hp _]|[_ Hu]] Hf; [congruence|done]. Qed.

(** A step that only decides whether to go on. *)
Lemma live_check {A B} (m : handle_st A) (k : A → handle_st B) h :
  Live h → (m h).2 = h → (∀ a, (m h).1 = Ok a → Live (k a h).2) → Live ((m ≫= k) h).2.
Proof.
  intros Hl Hm Hk. unfold mbind, st_bind. destruct (m h) as [[a|e] h']; cbn in *; subst; [by apply Hk|done].
Qed.
Lemma guard_Ok bad e h a : (guard bad e h).1 = Ok a → bad (Handle.store h) = false.
Proof. unfold guard, self, mbind, st_bind, gets, lift, refuse_if. cbn. by destruct (bad _). Qed.

Lemma refuse_Ok b e h a : (lift (refuse_if b e) h : result StoreError.t unit * Handle.t).1 = Ok a → b = false.
Proof. unfold lift, refuse_if. by destruct b. Qed.

(** A mutation. *)
Lemma live_poisoning {A} X (m : handle_st A) h :
  Live h → Store.poisoned (Handle.store h) = false →
  (∀ r, Core (Handle.store h) (Handle.world h) r → Clean (Handle.store h) (Handle.world h) r →
    X (Store.set_poisoned true (Handle.store h)) (Handle.world h) r) →
  runs (Firm X) m (λ _, Usable) → Live (poisoning m h).2.
Proof.
  intros Hl Hp HX Hm. destruct (Live_usable h Hl Hp) as (r&Hc&Hcl).
  pose proof (poisoning_live sha256 X m (λ h', h' = h) ltac:(intros ? ->; eauto 10) Hm h eq_refl) as Hr.
  destruct (poisoning m h) as [[a|err] h']; cbn; [by right|by left].
Qed.

(** ** Appending *)

Lemma overwrite_end bytes old : overwrite (Z.of_nat (length old)) bytes old = old ++ bytes.
Proof.
  unfold overwrite. rewrite Nat2Z.id, resize_le by done. rewrite firstn_all.
  rewrite drop_ge by lia. by rewrite app_nil_r.
Qed.

(** Bytes at the end of the payload, all of them or some. *)
Lemma Core_tail s w w' r tail :
  Core s w r → Clean s w r → Row.phase r = 0 →
  Fs.nodes (World.fs w') = Fs.nodes (World.fs w) → World.above w' = World.above w → World.here w' = World.here w →
  World.row w' = World.row w → content w' (Store.part s) = Store.hasher s ++ tail → Core s w' r.
Proof.
  intros [] [] Hph Hn Ha Hh Hr Hct.
  assert (take (Z.to_nat (Row.committed r)) (content w' (Store.part s)) = take (Z.to_nat (Row.committed r)) (content w (Store.part s))) as Ht.
  { rewrite Hct, cl_content. rewrite take_app_le; [done|lia]. }
  split; try done.
  - congruence.
  - destruct co_placed. split; rewrite ?Hn; congruence.
  - destruct co_proved. split.
    + rewrite Hct, length_app. lia.
    + by rewrite Ht.
    + lia.
    + lia.
  - rewrite Hct. by apply prefix_app_r.
Qed.

Definition appending (bytes : list Z) (new_len : Z) s w r : Prop :=
  Store.phase s = 0 ∧ new_len = Store.len s + Z.of_nat (length bytes) ∧ new_len ≤ Store.total s.
Lemma runs_append bytes new_len :
  runs (Firm (appending bytes new_len))
    (_ ← write_part bytes;
     on_store (λ s, Store.set_content (Store.pos s + Z.of_nat (length bytes)) new_len (Store.hasher s ++ bytes) s))
    (λ _, Usable).
Proof.
  intros [s w] (Hp&r&Hc&Hl&Hph&Hnew&Hle). cbn in *. unfold write_part, self, mbind, st_bind, gets, on_world, on_files. cbn.
  destruct (write_all _ _ _ _) as [x fs'] eqn:Hw. cbn. apply write_all_run in Hw as (n&Hn&Hnx&Hd&Hx).
  assert (content (World.set_fs fs' w) (Store.part s) = Store.hasher s ++ take n bytes) as Hct.
  { unfold content at 1, Fs.content. cbn. rewrite Hd, lookup_insert_eq. cbn.
    fold (content w (Store.part s)). rewrite (cl_content _ _ _ Hl).
    rewrite (cl_pos _ _ _ Hl Hph), (co_len _ _ _ _ Hc). apply overwrite_end. }
  assert (Row.phase r = 0) as Hrp by (rewrite (cl_phase _ _ _ Hl); done).
  assert (Core s (World.set_fs fs' w) r) as Hc' by (by eapply Core_tail).
  destruct x as [[]|e]; cbn; [|by split; [|exists r]].
  exists r. cbn. specialize (Hx eq_refl). rewrite Hx in Hct. destruct Hc' as [], Hl as []. split; split; cbn; try done.
  - by rewrite Hct.
  - rewrite length_app. lia.
  - lia.
  - intros _. specialize (cl_pos Hph). lia.
Qed.

Lemma live_append bytes : ends_live (append_bytes bytes).
Proof.
  intros h Hl. unfold append_bytes. apply live_check; [done|done|]. intros _ Hb%guard_Ok. open_bools.
  apply live_check; [done|done|]. intros s [= <-].
  apply live_check; [done|done|]. intros n Hn%ok_or_Ok. apply checked_add_Some in Hn as [-> _].
  apply live_check; [done|done|]. intros _ Hle%refuse_Ok. open_bools.
  apply (live_poisoning (appending bytes (Store.len (Handle.store h) + Z.of_nat (length bytes)))); [done|done| |apply runs_append].
  intros r _ _. split; [done|]. split; [done|]. unfold Store.total in *. cbn. lia.
Qed.

(** ** Checkpoints and completion *)

Lemma before_completion r r' :
  row_ok r → Row.checks r' = true → Row.phase r = 0 → Row.phase r' = 0 → Row.version r' = Row.version r →
  Row.total r' = Row.total r → Row.length_known r' = Row.length_known r →
  Row.expected r' = Row.expected r → Row.etag r' = Row.etag r → Row.output r' = Row.output r → row_ok r'.
Proof.
  intros Hok Hc Hp Hp' Hv Ht Hk He Htag Ho. apply (row_ok_change r); try done; [|lia].
  destruct Hok. rewrite checks_spec in Hc. rewrite corrupt_spec in *. unfold row_unknown in *.
  rewrite Hp', Hv, Ht, Hk. rewrite Hp in ro_corrupt. destruct_and!. split_and!; auto; try lia.
Qed.

Lemma runs_checkpoint :
  runs (Firm (λ s _ _, Store.phase s = 0))
    (_ ← on_world (on_files access);
     s ← self;
     _ ← on_world (update_row any_row (Row.set_progress (Store.len s) (sha256 (Store.hasher s))));
     on_store (λ s, Store.set_committed (Store.len s) s)) (λ _, Usable).
Proof.
  eapply runs_bind.
  { apply runs_looks; [auto with looks keeps|by apply Firm_stable; intros ?|apply Firm_Broken]. }
  intros []. eapply runs_bind; [apply runs_self|]. intros s0.
  intros h [-> [Hf _]].
  set (f := Row.set_progress (Store.len (Handle.store h)) (sha256 (Store.hasher (Handle.store h)))).
  assert (runs (Firm (λ s _ _, Store.phase s = 0 ∧ s = Handle.store h)) (_ ← on_world (update_row any_row f);
    on_store (λ s, Store.set_committed (Store.len s) s)) (λ _, Usable)) as Hr.
  { apply runs_update_then.
    - intros s w r Hc Hl [Hp ->] Hck. pose proof (cl_phase _ _ _ Hl) as Hrp.
      apply (Core_row sha256 _ _ r); try done.
      + apply (before_completion r); try done; [apply Hc|cbn in *; congruence..].
      + by right.
      + cbn in *. intros He. exfalso. lia.
    - intros s w w0 r [] [] [Hp ->]. split; split; cbn in *; try done; lia. }
  apply Hr. destruct Hf as (Hpo&r&Hc&Hl&Hp). split; [done|]. by exists r.
Qed.
Lemma live_checkpoint : ends_live (checkpoint_store sha256).
Proof.
  intros h Hl. apply live_check; [done|done|]. intros _ Hb%guard_Ok. open_bools.
  apply (live_poisoning (λ s _ _, Store.phase s = 0)); [done|done| |apply runs_checkpoint].
  done.
Qed.

(** What a checkpoint that succeeds leaves of the handle. *)
Lemma poisoning_store {A} (m : handle_st A) h a h' : poisoning m h = (Ok a, h') →
  ∃ h1, m (Handle.Make (Store.set_poisoned true (Handle.store h)) (Handle.world h)) = (Ok a, h1) ∧
    h' = Handle.Make (Store.set_poisoned false (Handle.store h1)) (Handle.world h1).
Proof.
  unfold poisoning, mbind, st_bind, on_store, modify. cbn. destruct (m _) as [[b|e] h1]; [|done].
  intros [= <- <-]. by exists h1.
Qed.
Lemma checkpoint_Ok h h' : checkpoint_store sha256 h = (Ok tt, h') →
  Store.poisoned (Handle.store h) = false ∧ Store.phase (Handle.store h) = 0 ∧
  Handle.store h' = Store.set_poisoned false (Store.set_committed (Store.len (Handle.store h)) (Handle.store h)).
Proof.
  unfold checkpoint_store. intros Hr. unfold mbind at 1, st_bind at 1 in Hr.
  destruct (guard _ _ h) as [[[]|e] h0] eqn:Hg; [|done].
  assert (h0 = h) as -> by (unfold guard, self, mbind, st_bind, gets, lift in Hg; by injection Hg as _ <-).
  assert (Hb := guard_Ok _ _ h tt (f_equal fst Hg)). cbn in Hb. open_bools. split_and!; [done..|].
  apply poisoning_store in Hr as (h1&Hm&->). cbn.
  unfold on_world, self, on_store, modify, mbind, st_bind, gets in Hm. cbn in Hm.
  destruct (on_files access _) as [[[]|e] w1]; [|done]. cbn in Hm.
  destruct (update_row _ _ w1) as [[n|e] w2]; [|done]. injection Hm as <-. cbn. by destruct (Handle.store h).
Qed.

(** After a checkpoint, another mutation. *)
Lemma live_after_checkpoint X (m : handle_st unit) h :
  Live h → (∀ s w r, Clean s w r → Store.phase s = 0 → Store.committed s = Store.len s →
    Store.unknown_length s = Store.unknown_length (Handle.store h) →
    Store.len s = Store.len (Handle.store h) → Store.total s = Store.total (Handle.store h) → X s w r) →
  runs (Firm X) m (λ _, Usable) →
  Live ((_ ← checkpoint_store sha256; poisoning m) h).2.
Proof.
  intros Hl HX Hm. pose proof (live_checkpoint h Hl) as Hl1. unfold mbind, st_bind.
  destruct (checkpoint_store sha256 h) as [[[]|e] h1] eqn:Hc; cbn in *; [|done].
  apply checkpoint_Ok in Hc as (Hp&Hph&Hs). apply (live_poisoning X); [done|by rewrite Hs| |done].
  intros r Hcore Hcl. apply HX; rewrite ?Hs; try done. apply (Clean_poisoned true) in Hcl. by rewrite Hs in Hcl.
Qed.

Lemma completed_row r f :
  row_ok r → Row.checks (f r) = true → Row.phase (f r) = 1 → row_unknown (f r) = false → Row.version (f r) = Row.version r →
  Row.committed (f r) = Row.total (f r) → Row.total (f r) ≤ Row.total r →
  Row.expected (f r) = Row.expected r → Row.etag (f r) = Row.etag r → Row.output (f r) = Row.output r → row_ok (f r).
Proof.
  intros Hok Hc Hp Hu Hv Hct Ht He Htag Ho. apply (row_ok_change r); try done.
  pose proof (ro_corrupt _ Hok) as Hk. rewrite checks_spec in Hc. rewrite corrupt_spec in *. rewrite Hu, Hv.
  destruct_and!. split_and!; auto; intros; try done; lia.
Qed.

Lemma live_mark_transfer_complete : ends_live (mark_transfer_complete sha256).
Proof.
  intros h Hl. apply live_check; [done|done|]. intros _ Hb%guard_Ok. open_bools.
  set (X := λ s (_ : World.t) (_ : Row.t), Store.phase s = 0 ∧ Store.committed s = Store.len s ∧
    Store.unknown_length s = false ∧ Store.len s = Store.total s).
  apply (live_after_checkpoint X); [done| |].
  { intros s w r _ Hp Hc Hu Hlen Ht. unfold X. split_and!; congruence. }
  apply runs_update_then.
  - intros s w r Hc Hcl (Hp&Hcm&Hu&Hlen) Hck. pose proof Hcl as [].
    apply (Core_row sha256 _ _ r); try done.
    + apply completed_row; try done; [apply Hc| |cbn; congruence].
      unfold row_unknown in *. cbn. congruence.
    + by left.
    + cbn. congruence.
  - intros s w w0 r [] [] (Hp&Hcm&Hu&Hlen). split; split; cbn in *; try done;
      unfold row_unknown in *; cbn; congruence.
Qed.

Lemma live_rebind_urls original final_url : ends_live (rebind_urls original final_url).
Proof.
  intros h Hl. apply live_check; [done|done|]. intros _ Hb%guard_Ok. open_bools.
  apply (live_poisoning (λ s _ _, Store.phase s = 0)); [done|done|done|].
  eapply runs_bind.
  - apply runs_update. intros s w r Hc Hcl Hp Hck. pose proof (cl_phase _ _ _ Hcl) as Hrp.
    apply (Core_row sha256 _ _ r); try done; try (by left); try (cbn in *; intros; exfalso; lia).
    apply (before_completion r); try done; [apply Hc|cbn in *; congruence..].
  - intros n. eapply runs_bind.
    + apply runs_refuse; [|intros h' _ Hh; exact Hh]. intros h' (_&Hpo&r&w0&Hc&_). split; [done|by eexists].
    + intros [] [s w] (_&_&r&w0&Hc&Hcl&Hp). cbn in *. eexists.
      destruct Hc, Hcl. split; split; cbn in *; done.
Qed.

(** The transaction that fixes the length: all of it or nothing. *)
Lemma complete_length_run n w r x w' : World.row w = Some r → complete_length n w = (x, w') →
  (same_world w w' ∧ is_ok x = false) ∨
  (open_length r = true ∧ Row.checks (Row.set_length n 1 1 r) = true ∧
   same_world (World.set_row (Some (Row.set_length n 1 1 r)) w) w').
Proof.
  intros Hr. unfold complete_length. unfold mbind at 1, st_bind at 1.
  destruct (db_call w) as [[[]|e] w1] eqn:H1; (assert (same_world w w1) as Hs1 by (eapply looks_run; [|exact H1]; auto with looks));
    [|intros [= <- <-]; left; by split].
  assert (World.row w1 = Some r) as Hr1 by (destruct Hs1; congruence).
  set (st2 := statement (A:=Z) _). assert (looks st2) as Hl2 by (apply looks_statement; by intros w0).
  unfold mbind at 1, st_bind at 1. pose proof (Hl2 w1) as Hs2. destruct (st2 w1) as [[ch|e] w2] eqn:H2; cbn in Hs2;
    (assert (same_world w w2) as Hs3 by (by etrans)); [|intros [= <- <-]; left; by split].
  unfold mbind, st_bind, lift, refuse_if. destruct (bool_decide (ch ≠ 1)) eqn:Hch; [intros [= <- <-]; left; by split|]. open_bools. subst ch.
  assert (open_length r = true ∧ Row.checks (Row.set_length n 1 1 r) = true) as [Ho Hck].
  { unfold st2, statement in H2. cbn in H2. rewrite Hr1 in H2.
    destruct (head (World.fates w1)) as [[]|]; try done; destruct (open_length r); try done;
      destruct (Row.checks (Row.set_length n 1 1 r)); done. }
  assert (World.row w2 = Some r) as Hr2 by (destruct Hs3; congruence).
  unfold statement. cbn. rewrite Hr2. cbn. destruct Hs3.
  destruct (head (World.fates w2)) as [[]|]; intros [= <- <-]; try (left; by split); right; split_and!; try done; by split.
Qed.
Lemma live_mark_unknown_transfer_complete : ends_live (mark_unknown_transfer_complete sha256).
Proof.
  intros h Hl. apply live_check; [done|done|]. intros _ Hb%guard_Ok. open_bools.
  set (X := λ s (_ : World.t) (_ : Row.t), Store.phase s = 0 ∧ Store.committed s = Store.len s ∧
    Store.unknown_length s = true).
  apply (live_after_checkpoint X); [done| |].
  { intros s w r _ Hp Hc Hu Hlen Ht. unfold X. split_and!; congruence. }
  eapply runs_bind; [apply runs_self|]. intros s0. intros h1 [-> (Hpo&r&Hc&Hcl&Hp&Hcm&Hu)].
  destruct h1 as [s w]. cbn in *. unfold mbind, st_bind, on_world. cbn.
  destruct (complete_length _ w) as [x w'] eqn:Hcmp.
  apply (complete_length_run _ _ r) in Hcmp as [[Hs Hx]|(Hopen&Hck&Hs)]; [..|apply Hc].
  - destruct x; [done|]. split; [done|]. exists r. by eapply Core_same.
  - pose proof Hcl as []. pose proof (co_committed _ _ _ _ Hc).
    set (r' := Row.set_length (Store.len s) 1 1 r) in *.
    assert (Core s (World.set_row (Some r') w) r') as Hc'.
    { apply (Core_row sha256 _ _ r); try done.
      - apply (completed_row r (Row.set_length (Store.len s) 1 1)); try done; [apply Hc| | |]; unfold row_unknown; cbn.
        + by rewrite andb_false_r.
        + congruence.
        + lia.
      - by left.
      - cbn. congruence. }
    assert (Core s w' r') as Hc2 by (by eapply Core_same).
    destruct x as [[]|e]; [|split; [done|by exists r']]. cbn. exists r'. cbn.
    assert (content w' (Store.part s) = content w (Store.part s)) as Ect.
    { apply (same_world_content (World.set_row (Some r') w)). done. }
    destruct Hc2. split; split; cbn in *; try done; unfold row_unknown; cbn.
    + congruence.
    + by rewrite andb_false_r.
Qed.

(** ** Publishing *)

Lemma runs_on_looks {A} X (m : world_st A) : stable_on X → looks m →
  runs (Firm X) (on_world m) (λ a h, Firm X h ∧ ∃ w, same_world w (Handle.world h) ∧ (m w).1 = Ok a).
Proof. intros Hst Hm. apply runs_looks; [done|by apply Firm_stable|apply Firm_Broken]. Qed.
Lemma runs_on_looks_ X (m : world_st unit) : stable_on X → looks m → runs (Firm X) (on_world m) (λ _, Firm X).
Proof. intros Hst Hm. eapply runs_post; [by apply runs_on_looks|]. by intros a h [? _]. Qed.
Lemma runs_occupied X : stable_on X → runs (Firm X) occupied (λ _, Firm X).
Proof.
  intros Hst [s w] Hf. unfold occupied. cbn. destruct (symlink_metadata _ (World.fs w)) as [x fs] eqn:Hs.
  apply keeps_run in Hs; [|apply keeps_symlink_metadata].
  assert (Firm X (Handle.Make s (World.set_fs fs w))) as Hf'.
  { eapply Firm_stable; [done| |exact Hf]. by split. }
  destruct x as [n|[]]; try done; by eapply Firm_Broken.
Qed.

(** All of the payload, as it was hashed. *)
Lemma runs_hash_part X : stable_on X → (∀ s w r v, X s w r → Store.phase s ≠ 0 ∧ X (Store.set_pos v s) w r) →
  runs (Firm X) hash_part (λ bytes h, Firm X h ∧ bytes = Store.hasher (Handle.store h)).
Proof.
  intros Hst Hpos [s w] (Hp&r&Hc&Hl&Hx). unfold hash_part, self, mbind, st_bind, gets, on_world. cbn in *.
  destruct (hash_prefix (Store.part s) (Store.len s) w) as [[bytes|e] w'] eqn:Hh.
  - apply hash_prefix_Ok in Hh as (->&_&Hs); [|rewrite (co_len _ _ _ _ Hc); lia].
    fold (content w (Store.part s)). rewrite (cl_content _ _ _ Hl), (co_len _ _ _ _ Hc), Nat2Z.id, firstn_all. cbn.
    split; [|done]. split; [done|]. exists r. cbn.
    destruct (Hpos s w' r (Z.of_nat (length (Store.hasher s)))) as [Hph Hx']; [by eapply Hst|].
    apply (Core_same _ _ _ _ _ Hs) in Hc. apply (Clean_same _ _ _ _ Hs) in Hl. split_and!; [by destruct Hc| |done].
    destruct Hl. by split.
  - split; [done|]. exists r. eapply Core_same; [|exact Hc]. eapply looks_run; [apply looks_hash_prefix|exact Hh].
Qed.

Definition alike s0 s : Prop := s = Store.set_pos (Store.pos s) s0.
Definition publishable s0 s w r : Prop := (Store.phase s = 2 ∨ Store.phase s = 3) ∧ alike s0 s.
Definition now_published s w r : Prop := (Store.phase s = 2 ∨ Store.phase s = 3) ∧ published sha256 w r.
Lemma publishable_stable s0 : stable_on (publishable s0).
Proof. by intros s w w' r _. Qed.
Lemma now_published_stable : stable_on now_published.
Proof. intros s w w' r Hs [Hp Hpub]. split; [done|]. by eapply published_same. Qed.

Lemma verify_destination_Ok s w w' : 0 ≤ Store.len s → verify_destination sha256 s w = (Ok tt, w') →
  ∃ ino, Fs.nodes (World.fs w) !! Leaf (Store.output s) = Some (File ino) ∧
    Z.of_nat (length (content w ino)) = Store.total s ∧
    sha256 (take (Z.to_nat (Store.len s)) (content w ino)) = sha256 (Store.hasher s).
Proof.
  intros Hlen Hr. unfold verify_destination in Hr. unfold mbind, st_bind in Hr.
  destruct (reject_link _ w) as [[[]|] w1] eqn:H1; [|done]. apply looks_run in H1; [|auto with looks].
  destruct (is_file _ w1) as [[[]|] w2] eqn:H2; [|done]. apply looks_run in H2; [|auto with looks].
  destruct (on_files (open _) w2) as [[ino|] w3] eqn:H3; [|done].
  assert (same_world w2 w3) as Hs3 by (eapply looks_run; [|exact H3]; auto with looks keeps).
  unfold on_files in H3. destruct (open _ (World.fs w2)) as [xo fo] eqn:Ho. destruct xo as [i|]; [|done]. cbn in H3.
  injection H3 as -> _. apply open_Ok in Ho as [Ho _].
  destruct (on_files (file_len ino) w3) as [[size|] w4] eqn:H4; [|done].
  assert (same_world w3 w4) as Hs4 by (eapply looks_run; [|exact H4]; auto with looks keeps).
  unfold on_files in H4. destruct (file_len _ (World.fs w3)) as [xl fl] eqn:Hfl. destruct xl as [l|]; [|done]. cbn in H4.
  injection H4 as -> _. apply file_len_Ok in Hfl as [-> _].
  assert (same_world w w3) as Hs by (by etrans; [|etrans; [|exact Hs3]]).
  assert (Fs.content (World.fs w3) ino = content w ino) as Ec by (by apply same_world_content).
  rewrite Ec in *. assert (Fs.nodes (World.fs w) !! Leaf (Store.output s) = Some (File ino)) as Hn.
  { rewrite <-(same_world_nodes w w2); [exact Ho|by transitivity w1]. }
  exists ino. split; [done|]. case_decide as Hsz; [|done].
  destruct (hash_prefix ino _ w4) as [[bytes|] w5] eqn:H5; [|done]. cbn in Hr.
  apply hash_prefix_Ok in H5 as (->&_&_); [|done].
  assert (Fs.content (World.fs w4) ino = content w ino) as Ec4 by (apply same_world_content; by transitivity w3).
  rewrite Ec4 in Hr. unfold lift, refuse_if in Hr. cbn in Hr. destruct (bool_decide _) eqn:Hb; [by open_bools|done].
Qed.

(** What is known of a handle whose transfer is complete. *)
Lemma complete_facts s w r : Core s w r → Clean s w r → Store.phase s ≠ 0 →
  Store.len s = Store.total s ∧ Row.committed r = Store.len s ∧ Row.total r = Store.len s ∧
  Row.digest r = sha256 (Store.hasher s).
Proof.
  intros [] [] Hp. pose proof (ro_corrupt _ co_ok) as Hk. rewrite corrupt_spec in Hk. destruct_and!.
  assert (0 < Row.phase r) as Hpos by (rewrite cl_phase in *; lia).
  destruct co_proved. specialize (pv_exact Hpos). rewrite cl_content, <-co_len in pv_exact.
  assert (Row.committed r = Row.total r) by auto. split_and!; try congruence.
  rewrite pv_digest, cl_content. f_equal. rewrite <-pv_exact, co_len, Nat2Z.id. apply firstn_all.
Qed.

(** A further phase on record. *)
Lemma Core_phase p s w r :
  Core s w r → Clean s w r → Store.phase s ≠ 0 → 1 ≤ p ≤ 3 → Row.checks (Row.set_phase p r) = true →
  (p = 3 → published sha256 w r) → Core s (World.set_row (Some (Row.set_phase p r)) w) (Row.set_phase p r).
Proof.
  intros Hc Hcl Hp Hr Hck Hpub. destruct (complete_facts s w r Hc Hcl Hp) as (Hlen&Hcm&Ht&Hd).
  pose proof (co_ok _ _ _ _ Hc) as Hok.
  apply (Core_row sha256 _ _ r); try done.
  - apply (row_ok_change r); try done. pose proof (ro_corrupt _ Hok) as Hk. rewrite corrupt_spec in *.
    assert (row_unknown (Row.set_phase p r) = row_unknown r) as -> by done.
    pose proof (cl_phase _ _ _ Hcl). destruct Hk as (Hv&Hu&Hk). split_and!; try done; try (cbn; intros; lia).
    cbn. intros Huu. destruct (Hu Huu). lia.
  - by left.
Qed.

Lemma looks_verify_destination s : looks (verify_destination sha256 s).
Proof. unfold verify_destination. auto 20 with looks keeps. Qed.

(** The output becomes a second name of the payload. *)
Lemma link_output s w r fs' :
  Core s w r → Clean s w r → Store.phase s = 2 →
  hard_link (Leaf payload_part) (Leaf (Store.output s)) (World.fs w) = (Ok tt, fs') →
  let w' := World.set_fs fs' w in Core s w' r ∧ Clean s w' r ∧ published sha256 w' r.
Proof.
  intros Hc Hcl Hp (ino&Hpart&Hnone&Hn&Hd&Hnx)%hard_link_Ok. cbv zeta.
  destruct (complete_facts s w r Hc Hcl ltac:(lia)) as (Hlen&Hcm&Ht&Hdg).
  pose proof Hc as []. pose proof Hcl as []. destruct co_placed as []. rewrite pl_part in Hpart. injection Hpart as <-.
  assert (∀ i, content (World.set_fs fs' w) i = content w i) as Ect by (intros i; unfold content, Fs.content; cbn; by rewrite Hd).
  assert (∀ n x, Fs.nodes (World.fs w) !! n = Some x → Fs.nodes fs' !! n = Some x) as Hkeep.
  { intros n x Hx. rewrite Hn, lookup_insert_ne; [done|]. intros <-. congruence. }
  assert (placed (World.set_fs fs' w) (Store.part s)) as Hpl.
  { split; cbn; try done.
    - intros n Hx. rewrite Hn in Hx. apply lookup_insert_Some in Hx as [[_ [=]]|[_ Hx]]. by eapply pl_links.
    - destruct pl_lock as [i Hi]. exists i. by apply Hkeep.
    - destruct pl_state as [i Hi]. exists i. by apply Hkeep.
    - by apply Hkeep. }
  assert (published sha256 (World.set_fs fs' w) r) as Hpub.
  { exists (Store.part s). cbn. rewrite co_output, Hn, lookup_insert_eq, Ect, cl_content, Hdg. split_and!; [done|lia|done]. }
  split_and!; [|by split; rewrite ?Ect|done]. split; rewrite ?Ect; try done.
  destruct co_proved. by split; rewrite ?Ect.
Qed.

Lemma runs_publish : runs (Firm (λ s _ _, Store.phase s = 2 ∨ Store.phase s = 3)) (publish_part sha256) (λ _, Usable).
Proof.
  unfold publish_part. eapply runs_bind; [apply runs_self|]. intros s0.
  apply (runs_pre _ _ (Firm (publishable s0))).
  2: { intros h [-> (Hp&r&Hc&Hcl&Hph)]. split; [done|]. exists r. split_and!; try done. unfold alike. by destruct (Handle.store h). }
  eapply runs_bind; [apply runs_on_looks; [apply publishable_stable|auto with looks keeps]|]. intros size.
  eapply runs_bind.
  { apply (runs_refuse _ _ _ _ (Firm (publishable s0))); [by intros h [?%Firm_Broken _]|by intros h _ [? _]]. }
  intros []. eapply runs_bind.
  { apply runs_hash_part; [apply publishable_stable|]. intros s w r v [Hp Ha]. split; [lia|]. split; [done|].
    unfold alike in *. by rewrite Ha. }
  intros bytes. eapply runs_bind.
  { apply (runs_refuse _ _ _ _ (Firm (publishable s0))); [by intros h [?%Firm_Broken _]|by intros h _ [? _]]. }
  intros []. eapply runs_bind.
  { apply (runs_refuse _ _ _ _ (Firm (publishable s0))); [apply Firm_Broken|done]. }
  intros []. eapply runs_bind; [apply runs_occupied, publishable_stable|]. intros node.
  apply (runs_bind _ _ _ _ (λ _, Firm now_published)).
  { destruct node as [n|]; [|case_decide].
    - intros [s w] Hf. unfold on_world. cbn. destruct (verify_destination sha256 s0 w) as [x w'] eqn:Hv.
      assert (same_world w w') as Hs by (eapply looks_run; [apply looks_verify_destination|exact Hv]).
      assert (Firm (publishable s0) (Handle.Make s w')) as Hf' by (eapply Firm_stable; [apply publishable_stable|done|done]).
      destruct x as [[]|e]; [|by eapply Firm_Broken]. destruct Hf' as (Hp&r&Hc&Hcl&Hph&Ha). cbn in *.
      assert (Store.phase s ≠ 0) as Hne by lia. destruct (complete_facts s w' r Hc Hcl Hne) as (Hlen&Hcm&Ht&Hd).
      unfold alike in Ha. assert (Store.len s0 = Store.len s ∧ Store.total s0 = Store.total s ∧
        Store.output s0 = Store.output s ∧ Store.hasher s0 = Store.hasher s) as (El&Et&Eo&Eh) by (by rewrite Ha).
      apply verify_destination_Ok in Hv as (ino&Hn&Hl&Hsha); [|rewrite El, (co_len _ _ _ _ Hc); lia].
      split; [done|]. exists r. split; [done|]. split; [done|]. split; [done|]. exists ino. cbn.
      rewrite (co_output _ _ _ _ Hc), <-Eo. rewrite (same_world_nodes _ _ Hs).
      assert (content w' ino = content w ino) as -> by (by apply same_world_content). split; [done|]. split; [lia|].
      rewrite Hd, <-Eh, <-Hsha. f_equal. symmetry. apply firstn_all2. lia.
    - intros [s w] (Hpo&r&Hc&Hcl&Hph&Ha). unfold on_world, on_files. cbn in *.
      assert (Store.phase s0 = Store.phase s ∧ Store.output s0 = Store.output s) as [Ep Eo] by (unfold alike in Ha; by rewrite Ha).
      rewrite Eo. destruct (hard_link _ _ (World.fs w)) as [[[]|e] fs'] eqn:Hln; cbn.
      + destruct (link_output s w r fs' Hc Hcl ltac:(congruence) Hln) as (Hc'&Hcl'&Hpub).
        split; [done|]. exists r. by split_and!.
      + split; [done|]. exists r. cbn. eapply Core_same; [|exact Hc]. split; try done. by eapply hard_link_Err.
    - intros h Hf. by eapply Firm_Broken. }
  intros _. eapply runs_bind; [apply runs_on_looks_; [apply now_published_stable|auto with looks keeps]|]. intros [].
  eapply runs_bind; [apply runs_on_looks_; [apply now_published_stable|unfold sync_directory; auto with looks keeps]|]. intros [].
  apply runs_update_then.
  - intros s w r Hc Hcl [Hp Hpub] Hck. apply Core_phase; try done; lia.
  - intros s w w0 r Hc Hcl [Hp _]. destruct Hc as [], Hcl as []. split; split; cbn in *; try done; lia.
Qed.

Lemma runs_intend : runs (Firm (λ s _ _, Store.phase s = 1)) (intend sha256)
  (λ _, Firm (λ s _ _, Store.phase s = 2 ∨ Store.phase s = 3)).
Proof.
  unfold intend. eapply runs_bind; [by apply runs_occupied; intros ?|]. intros node.
  eapply runs_bind.
  { apply (runs_refuse _ _ _ _ (Firm (λ s _ _, Store.phase s = 1))); [apply Firm_Broken|done]. }
  intros []. eapply runs_bind; [apply runs_self|]. intros s0.
  apply (runs_pre _ _ (Firm (λ s _ _, Store.phase s = 1))); [|by intros h [_ ?]].
  eapply runs_bind.
  { apply runs_hash_part; [by intros ?|]. intros s w r v Hp. cbn in *. lia. }
  intros bytes. eapply runs_bind.
  { apply (runs_refuse _ _ _ _ (Firm (λ s _ _, Store.phase s = 1))); [by intros h [?%Firm_Broken _]|by intros h _ [? _]]. }
  intros []. eapply runs_bind.
  { apply (runs_refuse _ _ _ _ (Firm (λ s _ _, Store.phase s = 1))); [apply Firm_Broken|done]. }
  intros []. eapply runs_bind.
  { apply runs_update. intros s w r Hc Hcl Hp Hck. apply Core_phase; try done; lia. }
  intros n [s w] (_&Hpo&r&w0&Hc&Hcl&Hp). cbn in *. split; [done|]. exists (Row.set_phase 2 r). cbn.
  destruct Hc as [], Hcl as []. split_and!; [by split|split; cbn in *; try done; lia|by left].
Qed.

Lemma live_finalize : ends_live (finalize sha256).
Proof.
  intros h Hl. apply live_check; [done|done|]. intros _ Hb%guard_Ok. open_bools.
  apply (live_poisoning (λ s _ r, 1 ≤ Store.phase s ≤ 3)); [done|done| |].
  { intros r Hc Hcl. pose proof (ro_corrupt _ (co_ok _ _ _ _ Hc)) as Hk. rewrite corrupt_spec in Hk.
    pose proof (cl_phase _ _ _ Hcl). destruct_and!. cbn. lia. }
  eapply runs_bind; [apply runs_self|]. intros s0.
  apply (runs_bind _ _ _ _ (λ _, Firm (λ s _ _, Store.phase s = 2 ∨ Store.phase s = 3))).
  - case_decide as Hp.
    + eapply runs_pre; [apply runs_intend|]. intros h' [-> (Hpo&r&Hc&Hcl&_)]. split; [done|]. by exists r.
    + apply runs_ret. intros h' [-> (Hpo&r&Hc&Hcl&Hph)]. split; [done|]. exists r. split_and!; [done..|lia].
  - intros []. eapply runs_bind; [apply runs_publish|]. intros []. by apply runs_ret.
Qed.

(** ** Creating *)

Lemma validate_name_own name : validate_name name = Ok tt → (to_ascii_lowercase <$> name) ∉ OWN_NAMES.
Proof. unfold validate_name, refuse_if. case_match eqn:Hb; [done|]. by open_bools. Qed.
End Ops.
