(* ===== verification/TransferStoreOpen.v ===== *)
(** * Opening a download store again

    From a directory at rest - whatever happened to the handle before - [open] gives back
    the bytes on record, or fails and leaves the directory at rest. *)

From S2P Require Import Prelude.
From S2P Require Import Files.
From S2P Require Import FilesInv.
From S2P Require Import StorageFile.
From S2P Require Import StorageInv.
From S2P Require Import TransferStore.
From S2P Require Import TransferStoreInv.
From S2P Require Import TransferStoreOps.

Section Open.
Context (sha256 : list Z → list Z).
Implicit Types (s : Store.t) (w : World.t) (r : Row.t).

(** ** At rest *)

Record Resting w (p : nat) r : Prop := {
  re_row : World.row w = Some r;
  re_ok : row_ok r;
  re_placed : placed w p;
  re_proved : proved sha256 w p r }.
Lemma Core_Resting s w r : Core sha256 s w r → Resting w (Store.part s) r.
Proof. by intros []. Qed.

(** At rest still, with the same bytes on record. *)
Definition recorded w (p : nat) r : list Z := take (Z.to_nat (Row.committed r)) (content w p).
Definition still (p : nat) r w w' : Prop := Resting w' p r ∧ recorded w' p r = recorded w p r.
Definition rests (p : nat) r {A} (m : world_st A) : Prop := ∀ w, Resting w p r → still p r w (m w).2.
Lemma still_trans p r w w' w'' : still p r w w' → still p r w' w'' → still p r w w''.
Proof. intros [_ H] [? H']. split; [done|]. by rewrite H', H. Qed.
Lemma still_same p r w w' : same_world w w' → Resting w p r → still p r w w'.
Proof.
  intros Hm []. split; [|by unfold recorded; rewrite (same_world_content _ _ _ Hm : content w' p = content w p)].
  split; [destruct Hm; congruence|done|by eapply placed_same|by eapply proved_same].
Qed.
Lemma rests_looks p r {A} (m : world_st A) : looks m → rests p r m.
Proof. intros Hm w Hw. by apply still_same. Qed.
Lemma rests_bind p r {A B} (m : world_st A) (k : A → world_st B) : rests p r m → (∀ a, rests p r (k a)) → rests p r (m ≫= k).
Proof.
  intros Hm Hk w Hw. specialize (Hm w Hw). unfold mbind, st_bind. destruct (m w) as [[a|e] w1]; [|done].
  eapply still_trans; [exact Hm|]. apply Hk, Hm.
Qed.
Lemma Resting_owned p r w v : Resting w p r → Resting (World.set_owned v w) p r.
Proof. intros [? ? [] []]. by split. Qed.
Lemma still_owned p r w w' v : still p r w w' → still p r w (World.set_owned v w').
Proof. intros [? ?]. split; [by apply Resting_owned|done]. Qed.
Lemma rests_try_lock p r : rests p r try_lock.
Proof.
  intros w Hw. unfold try_lock. assert (still p r w (on_files access w).2) as Ha by (apply rests_looks; [auto with looks keeps|done]).
  destruct (on_files access w) as [[[]|e] w1]; cbn in *; [|done]. destruct (World.owned w1); [done|]. by apply still_owned.
Qed.
Lemma rests_holding p r {A} (m : world_st A) : rests p r m → rests p r (holding m).
Proof.
  intros Hm w Hw. specialize (Hm w Hw). unfold holding. destruct (m w) as [[a|e] w1]; cbn in *; [done|]. by apply still_owned.
Qed.

(** Cutting off what is not on record. *)
Definition cut w (p : nat) (n : Z) : World.t :=
  World.set_fs (Fs.put p (take (Z.to_nat n) (content w p)) (World.fs w)) w.
Lemma cut_content w p n : content (cut w p n) p = take (Z.to_nat n) (content w p).
Proof. unfold content, cut, Fs.content. cbn. by rewrite lookup_insert_eq. Qed.
Lemma cut_Resting w p r : Resting w p r → Resting (cut w p (Row.committed r)) p r.
Proof.
  intros [Hr Hok Hpl []]. split; [done|done|by destruct Hpl|].
  assert (0 ≤ Row.committed r) as H0 by (pose proof (ro_checks _ Hok) as Hc; rewrite checks_spec in Hc; lia).
  assert (Z.of_nat (length (content (cut w p (Row.committed r)) p)) = Row.committed r) as Hlen.
  { rewrite cut_content, length_take. lia. }
  split; rewrite ?Hlen; [lia| |done|].
  - rewrite cut_content, take_take, Nat.min_id. done.
  - intros Hp. destruct (pv_published Hp) as (ino&Hn&Hl&Hd). exists ino. split; [done|].
    assert (content (cut w p (Row.committed r)) ino = content w ino) as ->; [|done].
    destruct (decide (ino = p)) as [->|Hne]; [|unfold content, cut; cbn; by apply content_put_ne].
    rewrite cut_content. apply firstn_all2. pose proof (ro_corrupt _ Hok) as Hk. rewrite corrupt_spec in Hk. lia.
Qed.
Lemma set_len_cut w p n fs' : 0 ≤ n ≤ Z.of_nat (length (content w p)) →
  set_len p n (World.fs w) = (Ok tt, fs') → World.set_fs fs' w = World.set_fs (Fs.set_faults (Fs.faults fs') (World.fs (cut w p n))) w.
Proof.
  intros Hn (Hno&Hnx&Hd)%set_len_Ok. unfold cut. f_equal. destruct fs'. cbn in *. subst. unfold Fs.put, Fs.set_data, Fs.set_faults. cbn.
  f_equal. f_equal. unfold content in *. rewrite resize_le by lia. done.
Qed.
Lemma rests_set_len p r : rests p r (on_files (set_len p (Row.committed r))).
Proof.
  intros w Hw. unfold on_files. destruct (set_len _ _ (World.fs w)) as [x fs'] eqn:Hs. cbn.
  destruct x as [[]|e].
  - apply set_len_cut in Hs as ->.
    + eapply still_trans; [|apply (still_same p r (cut w p (Row.committed r))); [done|by apply cut_Resting]].
      split; [by apply cut_Resting|]. unfold recorded. by rewrite cut_content, take_take, Nat.min_id.
    + destruct Hw as [_ Hok _ []]. pose proof (ro_checks _ Hok) as Hc. rewrite checks_spec in Hc. lia.
  - assert (same (World.fs w) fs') as Hsame.
    { unfold set_len in Hs. by open_syscall. }
    by apply still_same.
Qed.

(** Whatever fails, the directory stays at rest. *)
Lemma rests_adopt_payload p r unknown i : rests p r (adopt_payload sha256 p r unknown i).
Proof.
  unfold adopt_payload.
  repeat first
    [ apply rests_looks; solve [auto using looks_verify_destination with looks keeps]
    | apply rests_set_len
    | apply rests_bind; [|intros ?]
    | case_decide ].
Qed.
Lemma rests_open_payload p r unknown i : rests p r (open_payload sha256 r unknown i).
Proof.
  intros w Hw. unfold open_payload, mbind, st_bind.
  pose proof (rests_looks p r (on_files (open (Leaf payload_part))) ltac:(auto with looks keeps) w Hw) as Hw1.
  destruct (on_files (open (Leaf payload_part)) w) as [[part|e] w1] eqn:Ho; [|done].
  assert (part = p) as ->; [|eapply still_trans; [exact Hw1|]; apply rests_adopt_payload, Hw1].
  unfold on_files in Ho. destruct (open _ _) as [[i0|] f] eqn:Hop; [|done]. cbn in Ho. injection Ho as -> _.
  apply open_Ok in Hop as [Hn _]. destruct Hw as [_ _ [] _]. congruence.
Qed.

Lemma select_Ok {A} (f : Row.t → A) w a w' r : World.row w = Some r → select_row f w = (Ok a, w') → a = f r ∧ same_world w w'.
Proof.
  intros Hr Hs. split; [|by eapply looks_run; [apply looks_select|]].
  unfold select_row, statement in Hs. cbn in Hs. rewrite Hr in Hs. destruct (head _) as [[]|]; by simplify_eq/=.
Qed.

(** The part of [open] behind the lock. *)
Definition open_locked : world_st Store.t :=
  _ ← db_call;
  _ ← db_call;
  version ← select_row Row.version;
  _ ← lift (refuse_if (negb (bool_decide (version ∈ [2; 3]))) StoreError.UnsupportedVersion);
  _ ← db_call;
  _ ← configure;
  r ← select_row (λ r, r);
  unknown ← length_unknown r;
  _ ← lift (refuse_if (row_corrupt r unknown) StoreError.Corrupt);
  i ← lift (row_identity r);
  _ ← lift (validate_name (Row.output r));
  open_payload sha256 r unknown i.
Lemma rests_open_locked p r : rests p r open_locked.
Proof.
  unfold open_locked, configure.
  do 6 (apply rests_bind; [apply rests_looks; auto with looks|intros ?]).
  intros w Hw. unfold mbind at 1, st_bind at 1. pose proof (rests_looks p r (select_row (λ r, r)) (looks_select _) w Hw) as Hw1.
  destruct (select_row _ w) as [[r0|e] w1] eqn:Hs; [|done]. apply (select_Ok _ _ _ _ r) in Hs as [-> _]; [|apply Hw].
  cbn in Hw1. eapply still_trans; [exact Hw1|]. destruct Hw1 as [Hw1 _]. revert w1 Hw1. apply rests_bind.
  { unfold length_unknown. apply rests_looks. auto with looks. }
  intros unknown. do 3 (apply rests_bind; [apply rests_looks; auto with looks|intros ?]). apply rests_open_payload.
Qed.
Lemma rests_open p r : rests p r (open_store sha256).
Proof.
  unfold open_store. fold open_locked. unfold entries.
  repeat first
    [ apply rests_try_lock
    | apply rests_holding, rests_open_locked
    | apply rests_looks; solve [auto with looks keeps]
    | apply rests_bind; [|intros ?] ].
Qed.

(** ** What [open] gives back *)

Definition reopened w (p : nat) r i : Store.t :=
  Store.Make p (Row.committed r) i (Row.output r) (Row.committed r) (Row.committed r) (Row.phase r)
    (take (Z.to_nat (Row.committed r)) (content w p)) (row_unknown r) (row_unknown r).

(** Steps that only look, passed over in a successful run. *)
Ltac look H w := let Hm := fresh "Hm" in let Hs := fresh "Hs" in let a := fresh "a" in
  apply bind_Ok in H as (a&w&Hm&H);
  match type of Hm with ?m ?v = _ => assert (same_world v w) as Hs by (eapply looks_run; [|exact Hm];
    solve [auto using looks_verify_destination with looks keeps]) end.

Lemma adopt_Ok w p r unknown i s w' : Resting w p r → unknown = row_unknown r →
  adopt_payload sha256 p r unknown i w = (Ok s, w') →
  s = reopened w p r i ∧ content w' p = take (Z.to_nat (Row.committed r)) (content w p).
Proof.
  intros Hw -> Hr. pose proof (ro_checks _ (re_ok _ _ _ Hw)) as Hck. rewrite checks_spec in Hck.
  pose proof (pv_length _ _ _ _ (re_proved _ _ _ Hw)) as Hlen.
  unfold adopt_payload in Hr. look Hr w1. look Hr w2. look Hr w3.
  apply bind_Ok in Hr as (bytes&w4&Hh&Hr). apply hash_prefix_Ok in Hh as (->&_&Hs4); [|lia].
  look Hr w5. apply bind_Ok in Hr as (size&w6&Hsz&Hr).
  assert (same_world w5 w6) as Hs6 by (eapply looks_run; [|exact Hsz]; auto with looks keeps).
  assert (same_world w w3) as Hs03 by (transitivity w2; [by transitivity w1|done]).
  assert (same_world w w5) as Hs05 by (transitivity w4; [by transitivity w3|done]).
  assert (same_world w w6) as Hs06 by (by transitivity w5).
  assert (size = Z.of_nat (length (content w p))) as ->.
  { unfold on_files in Hsz. destruct (file_len p _) as [[l|] f] eqn:Hf; [|done]. apply file_len_Ok in Hf as [-> _].
    cbn in Hsz. injection Hsz as <- _. unfold content. by rewrite (same_world_content w w5). }
  assert (∀ v, same_world w v → content v p = content w p) as Hct by (intros v Hv; by apply same_world_content).
  apply bind_Ok in Hr as ([]&w7&Hcut&Hr). apply bind_Ok in Hr as ([]&w8&Hseek&Hr).
  assert (same_world w7 w8) as Hs8 by (eapply looks_run; [|exact Hseek]; auto with looks keeps).
  apply bind_Ok in Hr as ([]&w9&Hv&Hr). injection Hr as <- <-.
  assert (same_world w8 w9) as Hs9.
  { case_decide; [exact (looks_run _ _ _ _ (looks_verify_destination _ _) Hv)|by injection Hv as <-]. }
  split. { unfold reopened. f_equal. f_equal. by apply Hct. }
  assert (content w9 p = content w7 p) as -> by (apply same_world_content; by transitivity w8).
  destruct (decide (Z.of_nat (length (content w p)) ≠ Row.committed r)) as [Hd|Hd].
  - apply bind_Ok in Hcut as ([]&w10&Hset&Hcut).
    assert (same_world w10 w7) as Hs10 by (eapply looks_run; [|exact Hcut]; auto with looks keeps).
    assert (content w7 p = content w10 p) as -> by (by apply same_world_content). unfold on_files in Hset.
    destruct (set_len _ _ _) as [[[]|] fs'] eqn:Hsl; [|done]. cbn in Hset. injection Hset as <-.
    apply set_len_cut in Hsl as ->; [|rewrite Hct by done; lia].
    change (content (World.set_fs (Fs.set_faults (Fs.faults fs') (World.fs (cut w6 p (Row.committed r)))) w6) p)
      with (content (cut w6 p (Row.committed r)) p). rewrite cut_content. by rewrite Hct.
  - injection Hcut as <-. rewrite Hct by done. symmetry. apply firstn_all2. lia.
Qed.

Lemma identity_fields r i : row_identity r = Ok i →
  Identity.total i = Row.total r ∧ Identity.expected_sha256 i = Row.expected r ∧ Identity.strong_etag i = Row.etag r.
Proof.
  unfold row_identity. destruct (transpose _) as [e|] eqn:He; [|done]. cbn.
  destruct (as_hash (Row.original r)); [|done]. cbn. destruct (as_hash (Row.final r)); [|done]. cbn.
  destruct (validate_identity _); [|done]. cbn. intros [= <-]. split_and!; [done| |done]. cbn.
  destruct (Row.expected r) as [x|]; cbn in He; [|by injection He as <-].
  unfold as_hash in He. case_decide; [|done]. by injection He as <-.
Qed.

Lemma reopen_Ok w p r s w' : Resting w p r → open_store sha256 w = (Ok s, w') →
  (∃ i, row_identity r = Ok i ∧ s = reopened w p r i) ∧ Resting w' p r ∧
  content w' p = take (Z.to_nat (Row.committed r)) (content w p).
Proof.
  intros Hw Hr. assert (Resting w' p r) as Hw' by (pose proof (rests_open p r w Hw) as [Hx _]; by rewrite Hr in Hx).
  unfold open_store in Hr. fold open_locked in Hr. unfold entries in Hr.
  look Hr w1. apply bind_Ok in Hr as (here&w2&Hg&Hr). injection Hg as _ <-. look Hr w3. look Hr w4.
  apply bind_Ok in Hr as (names&w5&Hg&Hr). injection Hg as _ <-. look Hr w5. look Hr w6. look Hr w7. look Hr w8. look Hr w9.
  assert (same_world w w9) as Hs9 by (repeat (etrans; [eassumption|]); done).
  apply bind_Ok in Hr as ([]&w10&Hlk&Hr).
  assert (∃ w0, same_world w9 w0 ∧ w10 = World.set_owned true w0) as (w0&Hsame0&->).
  { unfold try_lock in Hlk. destruct (on_files access w9) as [[[]|] w0] eqn:Ha; [|done].
    exists w0. split; [eapply looks_run; [|exact Ha]; auto with looks keeps|].
    destruct (World.owned w0); [done|]. by injection Hlk as <-. }
  assert (same_world w (World.set_owned true w0)) as Hs10.
  { transitivity w9; [done|]. destruct Hsame0. by split. }
  clear Hsame0 Hs9 Hlk. generalize dependent (World.set_owned true w0). intros w10 Hr Hs10.
  unfold holding in Hr. destruct (open_locked w10) as [[s0|] w11] eqn:Hol; [|done]. injection Hr as -> ->.
  clear -Hw Hw' Hol Hs10. unfold open_locked, configure in Hol. look Hol w12. look Hol w13. look Hol w14. look Hol w15. look Hol w16. look Hol w17.
  assert (same_world w w17) as Hs17 by (repeat (etrans; [eassumption|]); done).
  apply bind_Ok in Hol as (r0&w18&Hsel&Hol). apply (select_Ok _ _ _ _ r) in Hsel as [-> Hs18]; [|destruct Hs17; rewrite sw_row; apply Hw].
  apply bind_Ok in Hol as (unknown&w19&Hu&Hol).
  assert (unknown = row_unknown r ∧ same_world w18 w19) as [-> Hs19].
  { unfold length_unknown in Hu. unfold row_unknown. case_decide as Hv.
    - rewrite bool_decide_eq_true_2 by done. apply bind_Ok in Hu as (k&w20&Hsel&Hu).
      apply (select_Ok _ _ _ _ r) in Hsel as [-> Hs20]; [|destruct Hs17, Hs18; rewrite sw_row0, sw_row; apply Hw].
      apply lift_Ok in Hu as [Hu ->]. split; [|done]. cbn.
      case_decide as H0; [by injection Hu as <-; rewrite bool_decide_eq_true_2|].
      case_decide; [|done]. injection Hu as <-. by rewrite bool_decide_eq_false_2.
    - injection Hu as <- <-. by rewrite bool_decide_eq_false_2. }
  apply bind_Ok in Hol as ([]&w20&Hc&Hol). apply refuse_false in Hc as [_ ->].
  apply bind_Ok in Hol as (i&w20&Hi&Hol). apply lift_Ok in Hi as [Hi ->].
  apply bind_Ok in Hol as ([]&w20&Hn&Hol). apply lift_Ok in Hn as [_ ->].
  unfold open_payload in Hol. apply bind_Ok in Hol as (part&w20&Ho&Hol).
  assert (same_world w19 w20) as Hs20 by (eapply looks_run; [|exact Ho]; auto with looks keeps).
  assert (same_world w w20) as Hsw by (etrans; [exact Hs17|]; etrans; [exact Hs18|]; by etrans).
  assert (Resting w20 p r) as Hw20.
  { destruct Hw. split; [destruct Hsw; congruence|done|by eapply placed_same|by eapply proved_same]. }
  assert (part = p) as ->.
  { unfold on_files in Ho. destruct (open _ _) as [[i0|] f] eqn:Hop; [|done]. cbn in Ho. injection Ho as -> _.
    apply FilesInv.open_Ok in Hop as [Hno _]. rewrite (same_world_nodes w w19) in Hno by (etrans; [exact Hs17|]; by etrans).
    destruct Hw as [_ _ [] _]. congruence. }
  apply adopt_Ok in Hol as [-> Hct]; [|done|done].
  assert (content w20 p = content w p) as Ec by (by apply same_world_content). rewrite Ec in Hct.
  split; [|done]. exists i. split; [done|]. unfold reopened. by rewrite Ec.
Qed.
End Open.
