(* ===== verification/TransferStoreThm.v ===== *)
(** * Theorems on the download store

    Over every sequence of operations and every choice of the calls that fail. *)

From S2P Require Import Prelude.
From S2P Require Import Files.
From S2P Require Import FilesInv.
From S2P Require Import StorageFile.
From S2P Require Import StorageInv.
From S2P Require Import TransferStore.
From S2P Require Import TransferStoreInv.
From S2P Require Import TransferStoreOps.
From S2P Require Import TransferStoreOpen.

Section Calm.
Context (sha256 : list Z → list Z).
Implicit Types (s : Store.t) (w : World.t) (r : Row.t).

(** ** When nothing fails *)

Definition calm w : Prop := quiet (World.fs w) ∧ World.fates w = [].
Definition answers {A} (m : world_st A) w (a : A) : Prop := m w = (Ok a, w).

Lemma answers_bind {A B} (m : world_st A) (k : A → world_st B) w a b :
  answers m w a → answers (k a) w b → answers (m ≫= k) w b.
Proof. unfold answers, mbind, st_bind. by intros ->. Qed.
Lemma answers_if {A} (P : Prop) `{Decision P} (m m' : world_st A) w a :
  (P → answers m w a) → (¬ P → answers m' w a) → answers (if decide P then m else m') w a.
Proof. intros. case_decide; auto. Qed.
Lemma answers_lift {A} (x : result StoreError.t A) w a : x = Ok a → answers (lift x) w a.
Proof. by intros ->. Qed.
Lemma answers_syscall {A} p (op : fs_st A) w a : calm w → op (World.fs w) = (Ok a, World.fs w) →
  answers (on_files (syscall p op)) w a.
Proof.
  intros [Hq _] Hop. unfold answers, on_files. rewrite syscall_quiet by done. rewrite Hop. by destruct w.
Qed.
Lemma answers_statement {A} (op : world_st A) w a : calm w → op w = (Ok a, w) → answers (statement op) w a.
Proof.
  intros [_ Hf] Hop. unfold answers, statement.
  assert (World.set_fates (tail (World.fates w)) w = w) as -> by (destruct w; cbn in *; by subst).
  by rewrite Hf.
Qed.
Lemma answers_access w : calm w → answers (on_files access) w tt.
Proof. intros Hc. by apply answers_syscall. Qed.
Lemma answers_db_call w : calm w → answers db_call w tt.
Proof. intros Hc. by apply answers_statement. Qed.
Lemma answers_select {A} (f : Row.t → A) w r : calm w → World.row w = Some r → answers (select_row f) w (f r).
Proof. intros Hc Hr. apply answers_statement; [done|]. by rewrite Hr. Qed.
Lemma answers_reject_link n x w : calm w → Fs.nodes (World.fs w) !! n = Some x → x ≠ Link → answers (reject_link n) w tt.
Proof.
  intros Hc Hn Hx. eapply answers_bind; [apply (answers_syscall _ _ _ x Hc); by rewrite Hn|]. apply answers_lift. by destruct x.
Qed.
Lemma answers_is_file n i w : calm w → Fs.nodes (World.fs w) !! n = Some (File i) → answers (is_file n) w tt.
Proof. intros Hc Hn. eapply answers_bind; [apply (answers_syscall _ _ _ (File i) Hc); by rewrite Hn|]. by apply answers_lift. Qed.
Lemma answers_open n i w : calm w → Fs.nodes (World.fs w) !! n = Some (File i) → answers (on_files (open n)) w i.
Proof. intros Hc Hn. apply answers_syscall; [done|]. by rewrite Hn. Qed.
Lemma answers_file_len i w : calm w → answers (on_files (file_len i)) w (Z.of_nat (length (content w i))).
Proof. intros Hc. by apply answers_syscall. Qed.
Lemma answers_check_ancestors l w : calm w → Forall (λ n, n = Some Dir) l → answers (check_ancestors l) w tt.
Proof.
  intros Hc. induction 1 as [|n l -> Hl IH]; cbn; [done|].
  assert (answers (on_files (stat_entry (Some Dir))) w Dir) as Hs by (by apply answers_syscall).
  eapply answers_bind; [eapply answers_bind; [exact Hs|by apply answers_lift]|].
  eapply answers_bind; [exact Hs|]. eapply answers_bind; [by apply answers_lift|done].
Qed.
Lemma answers_reject_links l w : calm w → (∀ n, Fs.nodes (World.fs w) !! n ≠ Some Link) →
  (∀ n, n ∈ l → is_Some (Fs.nodes (World.fs w) !! n)) → answers (reject_links l) w tt.
Proof.
  intros Hc Hno. induction l as [|n l IH]; intros Hl; cbn; [done|].
  eapply answers_bind; [by apply answers_access|]. destruct (Hl n) as [x Hx]; [by left|].
  eapply answers_bind; [eapply answers_reject_link; [done|exact Hx|]; intros ->; by eapply Hno|].
  apply IH. intros n' Hn'. apply Hl. by right.
Qed.
Lemma answers_hash_from ino w : calm w → ∀ fuel off left,
  0 ≤ off → 0 ≤ left ≤ Z.of_nat fuel → off + left ≤ Z.of_nat (length (content w ino)) →
  answers (hash_from fuel ino off left) w (slice off left (content w ino)).
Proof.
  intros Hc. induction fuel as [|fuel IH]; intros off left Hoff Hl Hlen; cbn [hash_from].
  { assert (left = 0) as -> by lia. done. }
  apply answers_if; intros Hle. { assert (left = 0) as -> by lia. done. }
  set (read := slice off (Z.min left BUFFER) (content w ino)).
  assert (Z.of_nat (length read) = Z.min left BUFFER) as Hrl.
  { unfold read, slice, BUFFER in *. rewrite length_take, length_drop. lia. }
  apply (answers_bind _ _ _ read); [by apply answers_syscall|].
  apply answers_if; intros Hne. { rewrite Hne in Hrl. unfold BUFFER in Hrl. cbn in Hrl. lia. }
  eapply answers_bind; [apply IH; unfold BUFFER in *; lia|]. unfold answers, mret, st_ret. f_equal. f_equal.
  rewrite Hrl. unfold read. rewrite slice_app; [f_equal|..]; unfold BUFFER in *; lia.
Qed.
Lemma answers_hash_prefix ino len w : calm w → 0 ≤ len ≤ Z.of_nat (length (content w ino)) →
  answers (hash_prefix ino len) w (take (Z.to_nat len) (content w ino)).
Proof.
  intros Hc Hl. eapply answers_bind; [by apply answers_access|].
  pose proof (answers_hash_from ino w Hc (S (Z.to_nat len)) 0 len) as Hh. unfold slice in Hh. cbn [Z.to_nat] in Hh.
  rewrite drop_0 in Hh. apply Hh; lia.
Qed.

(** [row_identity] accepts what [row_ok] describes. *)
Lemma row_identity_ok r : row_ok r → ∃ i, row_identity r = Ok i.
Proof.
  intros [Hc _ He Ht Htag _]. rewrite checks_spec in Hc. destruct Hc as (Ho&Hf&_). unfold row_identity.
  assert (∃ x, transpose (as_hash <$> Row.expected r) = Ok x) as [x ->].
  { destruct (Row.expected r) as [e|]; cbn; [|eauto]. unfold as_hash. rewrite decide_True by auto. eauto. }
  unfold as_hash. rewrite !decide_True by done. cbn. unfold validate_identity. cbn.
  rewrite bool_decide_eq_false_2 by lia. cbn. destruct (Row.etag r) as [e|]; cbn; [|eauto].
  rewrite bool_decide_eq_false_2; [eauto|]. specialize (Htag e eq_refl). lia.
Qed.
Lemma answers_verify s w ino : calm w → Fs.nodes (World.fs w) !! Leaf (Store.output s) = Some (File ino) →
  Z.of_nat (length (content w ino)) = Store.total s → 0 ≤ Store.len s ≤ Store.total s →
  sha256 (take (Z.to_nat (Store.len s)) (content w ino)) = sha256 (Store.hasher s) →
  answers (verify_destination sha256 s) w tt.
Proof.
  intros Hc Hn Ht Hl Hd. unfold verify_destination.
  eapply answers_bind; [by eapply answers_reject_link|].
  eapply answers_bind; [by eapply answers_is_file|].
  eapply answers_bind; [by apply answers_open|].
  eapply answers_bind; [by apply answers_file_len|].
  eapply answers_bind.
  { rewrite decide_True by done. eapply answers_bind; [apply answers_hash_prefix; [done|lia]|]. done. }
  rewrite Hd, bool_decide_eq_true_2 by done. done.
Qed.

Lemma answers_step {A B} (m : world_st A) (k : A → world_st B) w a : answers m w a → (m ≫= k) w = k a w.
Proof. unfold answers, mbind, st_bind. by intros ->. Qed.
Lemma calm_cut w p n : calm w → calm (cut w p n).
Proof. by intros []. Qed.

(** The payload adopted: only what is not on record goes. *)
Lemma adopts w p r i : calm w → Resting sha256 w p r → row_identity r = Ok i → ∃ w',
  adopt_payload sha256 p r (row_unknown r) i w = (Ok (reopened w p r i), w') ∧ calm w' ∧ World.owned w' = World.owned w.
Proof.
  intros Hc Hw Hi. pose proof (ro_checks _ (re_ok _ _ _ _ Hw)) as Hck. rewrite checks_spec in Hck.
  pose proof (re_proved _ _ _ _ Hw) as [Hlen Hdg Hex Hpub]. apply identity_fields in Hi as (Ht&_).
  unfold adopt_payload.
  rewrite (answers_step _ _ w (Z.of_nat (length (content w p)))) by (by apply answers_file_len).
  rewrite (answers_step _ _ w tt) by (apply answers_lift; unfold refuse_if; by rewrite bool_decide_eq_false_2 by lia).
  rewrite (answers_step _ _ w tt).
  2:{ apply answers_if; [|done]. intros Hp. eapply answers_bind; [by apply answers_file_len|].
      apply answers_lift. unfold refuse_if. rewrite bool_decide_eq_false_2; [done|]. rewrite Hex by done. auto. }
  rewrite (answers_step _ _ w (take (Z.to_nat (Row.committed r)) (content w p))) by (apply answers_hash_prefix; [done|lia]).
  rewrite (answers_step _ _ w tt) by (apply answers_lift; unfold refuse_if; by rewrite bool_decide_eq_false_2 by auto).
  rewrite (answers_step _ _ w (Z.of_nat (length (content w p)))) by (by apply answers_file_len).
  set (finish := λ _ : unit, _). change (Store.Make _ _ _ _ _ _ _ _ _ _) with (reopened w p r i) in finish.
  assert (∀ v, calm v → World.owned v = World.owned w → Resting sha256 v p r →
    finish tt v = (Ok (reopened w p r i), v)) as Hfin.
  { intros v Hcv Hov Hv. unfold finish. rewrite (answers_step _ _ v tt) by (by apply answers_access).
    rewrite (answers_step _ _ v tt); [done|]. apply answers_if; [|done]. intros Hp3.
    pose proof (re_proved _ _ _ _ Hv) as [_ _ _ Hpv]. destruct (Hpv Hp3) as (ino&Hn&Hl&Hd).
    pose proof (ro_corrupt _ (re_ok _ _ _ _ Hw)) as Hk. rewrite corrupt_spec in Hk.
    assert (Row.committed r = Row.total r) as Hct by (apply Hk; lia).
    apply (answers_verify _ _ ino); try done; unfold reopened, Store.total; cbn; try lia.
    rewrite <-Hdg, Hct, <-Hl, Nat2Z.id, firstn_all. done. }
  destruct (decide (Z.of_nat (length (content w p)) ≠ Row.committed r)) as [Hne|Heq].
  - exists (cut w p (Row.committed r)). unfold mbind at 1, st_bind at 1. unfold mbind at 1, st_bind at 1.
    assert (on_files (set_len p (Row.committed r)) w = (Ok tt, cut w p (Row.committed r))) as ->.
    { unfold on_files, set_len. rewrite syscall_quiet by apply Hc. cbn. unfold cut. f_equal. f_equal. f_equal.
      unfold content in *. rewrite resize_le by lia. done. }
    assert (calm (cut w p (Row.committed r))) as Hcc by (by apply calm_cut). rewrite answers_access by done.
    rewrite Hfin; [done|done|done|]. by apply cut_Resting.
  - exists w. unfold mbind at 1, st_bind at 1, mret at 1, st_ret at 1. by rewrite Hfin.
Qed.

(** With nothing in the way a directory at rest opens. *)
Lemma opens_locked w p r : calm w → Resting sha256 w p r → ∃ i w', row_identity r = Ok i ∧
  open_locked sha256 w = (Ok (reopened w p r i), w').
Proof.
  intros Hc Hw. destruct (row_identity_ok r (re_ok _ _ _ _ Hw)) as [i Hi].
  destruct (adopts w p r i Hc Hw Hi) as (w'&Ha&_). exists i, w'. split; [done|].
  pose proof (ro_corrupt _ (re_ok _ _ _ _ Hw)) as Hk. pose proof Hk as Hk'. rewrite corrupt_spec in Hk'.
  pose proof (re_row _ _ _ _ Hw) as Hr. unfold open_locked, configure.
  do 2 (rewrite (answers_step _ _ w tt) by (by apply answers_db_call)).
  rewrite (answers_step _ _ w (Row.version r)) by (by apply answers_select).
  rewrite (answers_step _ _ w tt).
  2:{ apply answers_lift. unfold refuse_if. by rewrite bool_decide_eq_true_2 by apply Hk'. }
  do 2 (rewrite (answers_step _ _ w tt) by (by apply answers_db_call)).
  rewrite (answers_step _ _ w r) by (by apply (answers_select (λ r, r))).
  rewrite (answers_step _ _ w (row_unknown r)).
  2:{ unfold length_unknown, row_unknown. apply answers_if; intros Hv.
      - eapply answers_bind; [by apply answers_select|]. apply answers_lift. rewrite (bool_decide_eq_true_2 _ Hv). cbn.
        pose proof (ro_checks _ (re_ok _ _ _ _ Hw)) as Hck. rewrite checks_spec in Hck.
        destruct Hck as (_&_&_&_&_&_&[->| ->%list_elem_of_singleton]%elem_of_cons); done.
      - by rewrite (bool_decide_eq_false_2 _ Hv). }
  rewrite (answers_step _ _ w tt) by (apply answers_lift; by rewrite Hk).
  rewrite (answers_step _ _ w i) by (by apply answers_lift).
  rewrite (answers_step _ _ w tt) by (apply answers_lift; by apply (ro_output _ (re_ok _ _ _ _ Hw))).
  unfold open_payload. by rewrite (answers_step _ _ w p) by (apply answers_open; [done|apply Hw]).
Qed.
Lemma opens w p r : calm w → World.owned w = false → Resting sha256 w p r → ∃ s w',
  open_store sha256 w = (Ok s, w').
Proof.
  intros Hc Ho Hw. destruct (opens_locked (World.set_owned true w) p r) as (i&w'&_&Ha).
  { by destruct Hc. } { by apply Resting_owned. }
  eexists _, w'. pose proof (re_placed _ _ _ _ Hw) as [Hab Hh Hno [il Hil] [id Hid] Hp].
  unfold open_store. fold (open_locked sha256).
  rewrite (answers_step _ _ w tt) by (by apply answers_access).
  rewrite (answers_step _ _ w (World.here w :: World.above w)) by done.
  rewrite (answers_step _ _ w tt) by (apply answers_check_ancestors; [done|]; by constructor).
  rewrite (answers_step _ _ w tt) by (by apply answers_access).
  rewrite (answers_step _ _ w (entries w)) by done.
  rewrite (answers_step _ _ w tt).
  2:{ apply answers_reject_links; [done|done|]. unfold entries. intros n ([n' x]&->&Hx%elem_of_map_to_list)%list_elem_of_fmap. by eexists. }
  rewrite (answers_step _ _ w tt) by (by eapply answers_is_file).
  rewrite (answers_step _ _ w tt) by (by eapply answers_is_file).
  rewrite (answers_step _ _ w tt) by (by eapply answers_is_file).
  rewrite (answers_step _ _ w il) by (by apply answers_open).
  unfold mbind at 1, st_bind at 1, try_lock. rewrite answers_access by done. rewrite Ho. unfold holding. by rewrite Ha.
Qed.
End Calm.

(** * What the download store promises

    Over every sequence of operations and every choice of the calls that fail. *)

(** A call on the handle. *)
Inductive StoreOp : Type :=
| Append (bytes : list Z) | Checkpoint | MarkComplete | MarkUnknownComplete
| Rebind (original final_url : list Z) | Finalize.

Section Runs.
Context (sha256 : list Z → list Z).
Implicit Types (s : Store.t) (w : World.t) (r : Row.t) (h : Handle.t).
Abbreviation Live := (Live sha256).

Definition call (op : StoreOp) : handle_st unit :=
  match op with
  | Append bytes => append_bytes bytes
  | Checkpoint => checkpoint_store sha256
  | MarkComplete => mark_transfer_complete sha256
  | MarkUnknownComplete => mark_unknown_transfer_complete sha256
  | Rebind original final_url => rebind_urls original final_url
  | Finalize => _ ← finalize sha256; mret tt
  end.
(** Calls one after the other, whatever they answer. *)
Definition calls (ops : list StoreOp) h : Handle.t := foldl (λ h op, (call op h).2) h ops.

Lemma live_call op : ends_live sha256 (call op).
Proof.
  destruct op; cbn.
  - apply live_append.
  - apply live_checkpoint.
  - apply live_mark_transfer_complete.
  - apply live_mark_unknown_transfer_complete.
  - apply live_rebind_urls.
  - intros h Hl. pose proof (live_finalize sha256 h Hl) as Hf. unfold mbind, st_bind. by destruct (finalize sha256 h) as [[] ?].
Qed.
Lemma live_calls ops h : Live h → Live (calls ops h).
Proof. revert h. induction ops as [|op ops IH]; intros h Hl; cbn; [done|]. by apply IH, live_call. Qed.

(** ** What only grows *)

Record grows s s' : Prop := {
  gr_part : Store.part s' = Store.part s;
  gr_output : Store.output s' = Store.output s;
  gr_expected : Identity.expected_sha256 (Store.identity s') = Identity.expected_sha256 (Store.identity s);
  gr_hasher : Store.hasher s `prefix_of` Store.hasher s';
  gr_len : Store.len s ≤ Store.len s';
  gr_committed : Store.committed s ≤ Store.len s → Store.committed s ≤ Store.committed s' ≤ Store.len s' }.
#[global] Instance grows_preorder : PreOrder grows.
Proof.
  split; [by split; [..|lia]|]. intros x y z [] []. split; try congruence; try lia. by etrans.
Qed.
Definition grow {A} (m : handle_st A) : Prop := ∀ h, grows (Handle.store h) (Handle.store (m h).2).
Lemma grow_bind {A B} (m : handle_st A) (k : A → handle_st B) : grow m → (∀ a, grow (k a)) → grow (m ≫= k).
Proof.
  intros Hm Hk h. unfold mbind, st_bind. specialize (Hm h). destruct (m h) as [[a|e] h']; cbn in *; [|done]. by etrans; [|apply Hk].
Qed.
Lemma grow_ret {A} (a : A) : grow (mret a).
Proof. by intros h. Qed.
Lemma grow_lift {A} (x : result StoreError.t A) : grow (lift x).
Proof. by intros h. Qed.
Lemma grow_throw {A} e : grow (throw e : handle_st A).
Proof. by intros h. Qed.
Lemma grow_self : grow self.
Proof. by intros h. Qed.
Lemma grow_on_world {A} (m : world_st A) : grow (on_world m).
Proof. intros h. unfold on_world. by destruct (m _). Qed.
Lemma grow_on_store f : (∀ s, grows s (f s)) → grow (on_store f).
Proof. intros Hf h. apply Hf. Qed.
Lemma grow_guard bad e : grow (guard bad e).
Proof. by intros h. Qed.
Lemma grow_poisoning {A} (m : handle_st A) : grow m → grow (poisoning m).
Proof.
  intros Hm. unfold poisoning. apply grow_bind; [apply grow_on_store; intros s; split; cbn; try done; lia|].
  intros _. apply grow_bind; [done|]. intros a. apply grow_bind; [|by intros; apply grow_ret].
  apply grow_on_store. intros s; split; cbn; try done; lia.
Qed.
Lemma grow_if {A} (P : Prop) `{Decision P} (m m' : handle_st A) : grow m → grow m' → grow (if decide P then m else m').
Proof. by case_decide. Qed.
Lemma grow_occupied : grow occupied.
Proof. intros h. unfold occupied. by destruct (symlink_metadata _ _) as [[?|[]] ?]. Qed.

Local Ltac grown := intros s; split; cbn; try done; lia.
Local Ltac grow_tac := repeat first
  [ apply grow_guard | apply grow_self | apply grow_on_world | apply grow_lift | apply grow_throw | apply grow_occupied
  | apply grow_ret | apply grow_poisoning | apply grow_if | apply grow_bind; [|intros ?]
  | apply grow_on_store; grown | match goal with |- grow (match ?x with _ => _ end) => destruct x end ].
Lemma grow_checkpoint : grow (checkpoint_store sha256).
Proof. unfold checkpoint_store. grow_tac. Qed.
Lemma grow_append bytes : grow (append_bytes bytes).
Proof.
  intros h. unfold append_bytes, mbind at 1, st_bind at 1. rewrite (surjective_pairing (guard _ _ h)).
  destruct (guard _ _ h) as [[[]|e] h0] eqn:Hg; cbn; [|unfold guard, self, mbind, st_bind, gets, lift in Hg; by injection Hg as _ <-].
  assert (h0 = h) as -> by (unfold guard, self, mbind, st_bind, gets, lift in Hg; by injection Hg as _ <-).
  unfold self, gets, mbind at 1, st_bind at 1. unfold lift, mbind at 1, st_bind at 1.
  destruct (ok_or _ _) as [n|e] eqn:Hn; [|done]. apply ok_or_Ok, checked_add_Some in Hn as [-> _].
  unfold mbind at 1, st_bind at 1. destruct (refuse_if _ _); [|done].
  unfold poisoning, write_part, self, gets, on_world, on_store, modify, mbind, st_bind. cbn.
  destruct (on_files _ _) as [[[]|e] w']; cbn; split; cbn; try done; try lia. by apply prefix_app_r.
Qed.
Lemma grow_call op : grow (call op).
Proof.
  destruct op; cbn; [apply grow_append|apply grow_checkpoint|..].
  - unfold mark_transfer_complete. apply grow_bind; [apply grow_guard|intros []].
    apply grow_bind; [apply grow_checkpoint|intros []]. grow_tac.
  - unfold mark_unknown_transfer_complete. apply grow_bind; [apply grow_guard|intros []].
    apply grow_bind; [apply grow_checkpoint|intros []]. grow_tac.
  - unfold rebind_urls. grow_tac.
  - unfold finalize, intend, publish_part, hash_part. grow_tac.
Qed.
Lemma grow_calls ops h : grows (Handle.store h) (Handle.store (calls ops h)).
Proof. revert h. induction ops as [|op ops IH]; intros h; cbn; [done|]. by etrans; [apply grow_call|apply IH]. Qed.

(** ** Names and contents are never taken away *)

Definition spares w w' : Prop :=
  Fs.nodes (World.fs w) ⊆ Fs.nodes (World.fs w') ∧ ∀ i, content w' i = content w i.
#[global] Instance spares_preorder : PreOrder spares.
Proof. split; [by split|]. intros x y z [Hn Hc] [Hn' Hc']. split; [by etrans|]. intros i. by rewrite Hc', Hc. Qed.
Lemma spares_same w w' : same_world w w' → spares w w'.
Proof. intros Hs. split; [by rewrite (same_world_nodes _ _ Hs)|]. intros i. by apply same_world_content. Qed.
Definition unharming {A} (m : handle_st A) : Prop := ∀ h, spares (Handle.world h) (Handle.world (m h).2).
Lemma unharming_bind {A B} (m : handle_st A) (k : A → handle_st B) : unharming m → (∀ a, unharming (k a)) → unharming (m ≫= k).
Proof.
  intros Hm Hk h. unfold mbind, st_bind. specialize (Hm h). destruct (m h) as [[a|e] h']; cbn in *; [|done]. by etrans; [|apply Hk].
Qed.
Lemma unharming_ret {A} (a : A) : unharming (mret a).
Proof. by intros h. Qed.
Lemma unharming_lift {A} (x : result StoreError.t A) : unharming (lift x).
Proof. by intros h. Qed.
Lemma unharming_throw {A} e : unharming (throw e : handle_st A).
Proof. by intros h. Qed.
Lemma unharming_self : unharming self.
Proof. by intros h. Qed.
Lemma unharming_on_store f : unharming (on_store f).
Proof. by intros h. Qed.
Lemma unharming_guard bad e : unharming (guard bad e).
Proof. by intros h. Qed.
Lemma unharming_if {A} (P : Prop) `{Decision P} (m m' : handle_st A) : unharming m → unharming m' → unharming (if decide P then m else m').
Proof. by case_decide. Qed.
Lemma unharming_looks {A} (m : world_st A) : looks m → unharming (on_world m).
Proof. intros Hm h. unfold on_world. specialize (Hm (Handle.world h)). destruct (m _). by apply spares_same. Qed.
Lemma unharming_update cond f : unharming (on_world (update_row cond f)).
Proof.
  intros [s w]. unfold on_world, update_row, statement. cbn.
  destruct (head _) as [[]|]; cbn; repeat case_match; simplify_eq/=; by destruct w.
Qed.
Lemma unharming_occupied : unharming occupied.
Proof.
  intros [s w]. unfold occupied. cbn. destruct (symlink_metadata _ _) as [x fs] eqn:Hs.
  apply keeps_run in Hs; [|apply keeps_symlink_metadata]. cbn. by apply spares_same.
Qed.
Lemma unharming_link a b : unharming (on_world (on_files (hard_link a b))).
Proof.
  intros [s w]. unfold on_world, on_files. cbn. destruct (hard_link a b (World.fs w)) as [[[]|e] fs] eqn:Hl; cbn.
  - apply hard_link_Ok in Hl as (ino&_&Hno&Hn&Hd&_). split; cbn.
    + rewrite Hn. by apply insert_subseteq.
    + intros i. unfold content, Fs.content. cbn. by rewrite Hd.
  - apply spares_same. split; try done. by eapply hard_link_Err.
Qed.
Local Ltac unharming_tac := repeat first
  [ apply unharming_guard | apply unharming_self | apply unharming_lift | apply unharming_throw | apply unharming_occupied | apply unharming_on_store
  | apply unharming_ret | apply unharming_if | apply unharming_update | apply unharming_link
  | apply unharming_looks; solve [auto using looks_verify_destination with looks keeps]
  | apply unharming_bind; [|intros ?]
  | match goal with |- unharming (match ?x with _ => _ end) => destruct x end ].
Lemma unharming_finalize : unharming (finalize sha256).
Proof. unfold finalize, poisoning, intend, publish_part, hash_part, set_phase_row, sync_directory. unharming_tac. Qed.
End Runs.
