(* ===== verification/TransferStoreMain.v ===== *)
(** * The download store, from its creation on

    What survives a crash after any history of calls, what publishing guarantees, and who
    may open the directory. *)

From S2P Require Import Prelude.
From S2P Require Import Files.
From S2P Require Import FilesInv.
From S2P Require Import StorageFile.
From S2P Require Import StorageInv.
From S2P Require Import TransferStore.
From S2P Require Import TransferStoreInv.
From S2P Require Import TransferStoreOps.
From S2P Require Import TransferStoreOpen.
From S2P Require Import TransferStoreThm.

(** A store as it was made, and the world it was made in. *)
Module Birth.
Record t : Type := Make { identity : Identity.t; output : list Z; unknown : bool; world : World.t }.
End Birth.

Section Main.
Context (sha256 : list Z → list Z).
Implicit Types (s : Store.t) (w : World.t) (r : Row.t) (h : Handle.t) (b : Birth.t).

(** ** Creation *)

Definition create_as b : world_st Store.t :=
  if Birth.unknown b then create_unknown sha256 (Birth.identity b) (Birth.output b)
  else create sha256 (Birth.identity b) (Birth.output b).
(** A directory that does not exist yet holds nothing; digests have 32 bytes. *)
Definition fresh b : Prop :=
  Fs.nodes (World.fs (Birth.world b)) = ∅ ∧
  ∀ e, Identity.expected_sha256 (Birth.identity b) = Some e → length e = 32%nat.

Lemma on_files_Ok {A} (m : fs_st A) w a w' : on_files m w = (Ok a, w') →
  ∃ fs, m (World.fs w) = (Ok a, fs) ∧ w' = World.set_fs fs w.
Proof. unfold on_files. destruct (m _) as [[x|e] fs]; [|done]. intros [= <- <-]. eauto. Qed.
Lemma check_ancestors_Ok l : ∀ w w', check_ancestors l w = (Ok tt, w') → Forall (λ n, n = Some Dir) l.
Proof.
  induction l as [|n l IH]; intros w w' Hr; [constructor|]. cbn in Hr.
  apply bind_Ok in Hr as ([]&w1&_&Hr). apply bind_Ok in Hr as (node&w2&Hs&Hr).
  apply bind_Ok in Hr as ([]&w3&[Hd _]%refuse_false&Hr). constructor; [|by eapply IH].
  apply on_files_Ok in Hs as (fs&Hs&_). unfold stat_entry in Hs. open_bools.
  open_syscall; destruct n; by simplify_eq/=.
Qed.
Lemma create_dir_Ok w w' : create_dir w = (Ok tt, w') →
  World.here w' = Some Dir ∧ same (World.fs w) (World.fs w') ∧ World.above w' = World.above w.
Proof.
  unfold create_dir. destruct (on_files access w) as [[[]|] w1] eqn:Ha; [|done].
  assert (same_world w w1) as [] by (eapply looks_run; [|exact Ha]; auto with looks keeps).
  destruct (World.here w1); [done|]. by intros [= <-].
Qed.
Lemma try_lock_Ok w w' : try_lock w = (Ok tt, w') →
  World.owned w' = true ∧ same_world w w'.
Proof.
  unfold try_lock. destruct (on_files access w) as [[[]|] w1] eqn:Ha; [|done].
  assert (same_world w w1) as [] by (eapply looks_run; [|exact Ha]; auto with looks keeps).
  destruct (World.owned w1); [done|]. intros [= <-]. split; [done|]. by split.
Qed.
Lemma db_open_Ok w w' : db_open w = (Ok tt, w') → Fs.nodes (World.fs w) !! Leaf state_sqlite = None →
  World.here w' = World.here w ∧ World.above w' = World.above w ∧
  Fs.nodes (World.fs w') = <[Leaf state_sqlite := File (Fs.next (World.fs w))]> (Fs.nodes (World.fs w)) ∧
  Fs.data (World.fs w') = <[Fs.next (World.fs w) := []]> (Fs.data (World.fs w)).
Proof.
  unfold db_open, statement. cbn. intros Hr Hn. destruct (head _) as [[]|]; try done; rewrite Hn in Hr; injection Hr as <-; done.
Qed.
Lemma insert_row_Ok r w w' : insert_row r w = (Ok tt, w') →
  Row.checks r = true ∧ World.row w' = Some r ∧ World.fs w' = World.fs w ∧ World.above w' = World.above w ∧ World.here w' = World.here w.
Proof.
  unfold insert_row, statement. cbn. intros Hr. destruct (Row.checks r); destruct (head _) as [[]|]; try done; by injection Hr as <-.
Qed.

Lemma new_row_ok i output unknown : Row.checks (new_row sha256 i output unknown) = true →
  validate_identity i = Ok tt → validate_name output = Ok tt →
  (∀ e, Identity.expected_sha256 i = Some e → length e = 32%nat) → (unknown = true → Identity.total i ≠ 0) →
  row_ok (new_row sha256 i output unknown).
Proof.
  intros Hc Hi Hn He Hu. unfold validate_identity, refuse_if in Hi. case_match eqn:Hb; [done|].
  apply orb_false_elim in Hb as [Hb1 Hb2]. open_bools. pose proof Hc as Hc'. rewrite checks_spec in Hc'. cbn in *. split; try done; cbn.
  - rewrite corrupt_spec. unfold row_unknown. cbn. destruct_and!.
    destruct unknown; cbn; split_and!; intros; try done; try lia; try set_solver; auto.
  - lia.
  - intros e Hs. rewrite Hs in Hb2. cbn in Hb2. open_bools. lia.
Qed.

Local Ltac look H w := let Hm := fresh "Hm" in let Hs := fresh "Hs" in let a := fresh "a" in
  apply bind_Ok in H as (a&w&Hm&H);
  match type of Hm with ?m ?v = _ => assert (same_world v w) as Hs by (eapply looks_run; [|exact Hm];
    unfold configure, sync_directory; solve [auto with looks keeps]) end.

(** Creation in parts: up to the lock, the files, the row. *)
Definition create_locked (i : Identity.t) (output : list Z) : world_st unit :=
  _ ← lift (validate_name output);
  _ ← lift (validate_identity i);
  _ ← on_files access;
  above ← gets World.above;
  _ ← lift (refuse_if (bool_decide (above = [])) StoreError.InvalidInput);
  _ ← check_ancestors above;
  _ ← create_dir;
  _ ← on_files (create_new (Leaf owner_lock));
  try_lock.
Definition make_files (unknown : bool) : world_st nat :=
  part ← on_files (create_new (Leaf payload_part));
  _ ← on_files access;
  _ ← db_open;
  _ ← configure;
  _ ← db_call;
  _ ← (if unknown then db_call else mret tt);
  mret part.
Definition new_store i output unknown (part : nat) : Store.t := Store.Make part 0 i output 0 0 0 [] false unknown.
Definition make_row i output unknown (part : nat) : world_st Store.t :=
  _ ← insert_row (new_row sha256 i output unknown);
  _ ← sync_directory;
  mret (new_store i output unknown part).
Lemma bind_assoc_run {A B C} (m : world_st A) (k : A → world_st B) (j : B → world_st C) w :
  ((m ≫= k) ≫= j) w = (m ≫= λ a, k a ≫= j) w.
Proof. unfold mbind, st_bind. by destruct (m w) as [[a|e] w']. Qed.
Lemma bind_cong_run {A B} (m : world_st A) (k k' : A → world_st B) w : (∀ a w, k a w = k' a w) → (m ≫= k) w = (m ≫= k') w.
Proof. intros Hk. unfold mbind, st_bind. by destruct (m w) as [[a|e] w']. Qed.
Lemma create_split i output unknown w : create_inner sha256 i output unknown w =
  (_ ← create_locked i output; holding (part ← make_files unknown; make_row i output unknown part)) w.
Proof.
  unfold create_inner, create_locked, make_files, make_row.
  repeat (rewrite bind_assoc_run; apply bind_cong_run; intros ? ?). apply bind_cong_run. intros _ v. unfold holding.
  match goal with |- match ?m v with _ => _ end = match ?m' v with _ => _ end => assert (m v = m' v) as ->; [|done] end.
  repeat (rewrite bind_assoc_run; apply bind_cong_run; intros ? ?). done.
Qed.

(** The directory behind the lock. *)
Record roofed w : Prop := {
  rf_here : World.here w = Some Dir;
  rf_above : Forall (λ n, n = Some Dir) (World.above w);
  rf_nodes : ∃ l, Fs.nodes (World.fs w) = {[Leaf owner_lock := File l]} }.
Lemma create_locked_Ok i output w w' : Fs.nodes (World.fs w) = ∅ → create_locked i output w = (Ok tt, w') →
  validate_name output = Ok tt ∧ validate_identity i = Ok tt ∧ roofed w'.
Proof.
  intros He Hr. unfold create_locked in Hr.
  apply bind_Ok in Hr as ([]&w0&[Hn ->]%lift_Ok&Hr). apply bind_Ok in Hr as ([]&w0&[Hi ->]%lift_Ok&Hr).
  look Hr w1. apply bind_Ok in Hr as (above&w2&Hg&Hr). injection Hg as <- <-.
  apply bind_Ok in Hr as ([]&w2&[_ ->]%refuse_false&Hr).
  apply bind_Ok in Hr as ([]&w2&Hanc&Hr). pose proof (check_ancestors_Ok _ _ _ Hanc) as Hdirs.
  apply looks_run in Hanc; [|auto with looks].
  apply bind_Ok in Hr as ([]&w3&(Hhere&Hfs3&Hab3)%create_dir_Ok&Hr).
  apply bind_Ok in Hr as (lock&w4&(fs4&Hcl&->)%on_files_Ok&Hr). apply try_lock_Ok in Hr as [_ Hs5].
  apply create_new_Ok in Hcl as (_&_&Hno4&_). split; [done|]. split; [done|].
  assert (Fs.nodes (World.fs w3) = ∅) as H3.
  { destruct Hfs3 as (->&_). by rewrite (same_world_nodes _ _ Hanc), (same_world_nodes _ _ Hs). }
  rewrite H3 in Hno4. destruct Hs5 as [(Hn5&_) Hab5 Hhe5 _]. cbn in *. split; [congruence| |].
  - rewrite Hab5, Hab3. destruct Hanc. by rewrite sw_above.
  - exists lock. by rewrite Hn5, Hno4.
Qed.
(** The directory when all files are made. *)
Record furnished w (part : nat) : Prop := {
  fn_placed : placed w part;
  fn_content : content w part = [] }.
Lemma make_files_Ok unknown w part w' : roofed w → make_files unknown w = (Ok part, w') → furnished w' part.
Proof.
  intros [Hhere Habove [l Hl]] Hh. unfold make_files in Hh.
  apply bind_Ok in Hh as (part'&w7&(fs7&Hcp&->)%on_files_Ok&Hh).
  look Hh w8. apply bind_Ok in Hh as ([]&w9&Hdb&Hh). look Hh w10. look Hh w11.
  assert (part' = part ∧ same_world w11 w') as [-> Hs12].
  { destruct unknown; [look Hh w12; injection Hh as -> ->; by split|].
    apply bind_Ok in Hh as ([]&w12&Hret&Hh). injection Hret as ->. by injection Hh as -> ->. }
  apply create_new_Ok in Hcp as (Hpt&_&Hno7&Hd7&Hnx7). rewrite Hl in Hno7.
  destruct Hs as [(Hn8&Hd8&Hx8) Hab8 Hhe8 _]. cbn in *.
  assert (Leaf owner_lock ≠ Leaf payload_part ∧ Leaf state_sqlite ≠ Leaf payload_part ∧ Leaf state_sqlite ≠ Leaf owner_lock) as (Ne1&Ne2&Ne3) by done.
  apply db_open_Ok in Hdb as (Hhe9&Hab9&Hn9&Hd9).
  2:{ rewrite Hn8, Hno7, lookup_insert_ne by done. by rewrite lookup_singleton_ne. }
  rewrite Hn8, Hno7 in Hn9. rewrite Hd8, Hd7, Hx8, Hnx7 in Hd9.
  assert (same_world w9 w') as Hs912 by (by etrans; [|etrans; [|exact Hs12]]).
  destruct Hs912 as [(Hn12&Hd12&_) Hab12 Hhe12 _]. split.
  - split; try congruence; rewrite ?Hn12, ?Hn9.
    + intros n Hlk. rewrite !lookup_insert_Some, lookup_singleton_Some in Hlk. naive_solver.
    + exists l. rewrite lookup_insert_ne by done. rewrite lookup_insert_ne by done. by rewrite lookup_singleton_eq.
    + eexists. by rewrite lookup_insert_eq.
    + rewrite lookup_insert_ne by done. by rewrite lookup_insert_eq.
  - unfold content, Fs.content. rewrite Hd12, Hd9. rewrite lookup_insert_ne by lia. by rewrite lookup_insert_eq.
Qed.
Lemma new_usable i output unknown part w : furnished w part → World.row w = Some (new_row sha256 i output unknown) →
  row_ok (new_row sha256 i output unknown) → Usable sha256 (Handle.Make (new_store i output unknown part) w).
Proof.
  intros [Hpl Hct] Hrow Hok. exists (new_row sha256 i output unknown). cbn.
  assert (0 ≤ Identity.total i) by (pose proof (ro_checks _ Hok) as Hck; rewrite checks_spec in Hck; cbn in Hck; lia). split.
  - split; cbn; try done; try lia; [|by apply prefix_nil].
    split; cbn; rewrite ?Hct; try done; cbn; lia.
  - split; cbn; try done; try lia. unfold row_unknown. cbn. by destruct unknown.
Qed.
(** A row that is put in, whatever is reported. *)
Lemma insert_row_any r w x w' : insert_row r w = (x, w') →
  World.fs w' = World.fs w ∧ World.above w' = World.above w ∧ World.here w' = World.here w ∧
  (is_ok x = false ∧ World.row w' = World.row w ∨ Row.checks r = true ∧ World.row w' = Some r).
Proof.
  unfold insert_row, statement. cbn. destruct (Row.checks r); destruct (head _) as [[]|]; intros [= <- <-]; cbn; auto 10.
Qed.
(** Making the row: nothing is on record, or the new store is. *)
Lemma make_row_any i output unknown part w x w' : furnished w part → validate_identity i = Ok tt → validate_name output = Ok tt →
  (∀ e, Identity.expected_sha256 i = Some e → length e = 32%nat) → (unknown = true → Identity.total i ≠ 0) →
  make_row i output unknown part w = (x, w') →
  World.here w' = World.here w ∧
  (is_ok x = false ∧ World.row w' = World.row w ∨
   Usable sha256 (Handle.Make (new_store i output unknown part) w') ∧ World.row w' = Some (new_row sha256 i output unknown) ∧
   (∀ s, x = Ok s → s = new_store i output unknown part)).
Proof.
  intros [Hpl Hct] Hi Hn Hx Hu Hr. unfold make_row, mbind, st_bind, mret, st_ret in Hr.
  destruct (insert_row _ w) as [y w1] eqn:Hins. apply insert_row_any in Hins as (Hfs&Hab&Hhe&Hrow).
  assert (same_world w1 w' ∧ (is_ok y = false → is_ok x = false) ∧ ∀ s, x = Ok s → s = new_store i output unknown part) as (Hs&Hok&Hst).
  { destruct y as [[]|e]; [|by simplify_eq].
    assert (looks sync_directory) as Hl by (unfold sync_directory; auto with looks keeps).
    specialize (Hl w1). destruct (sync_directory w1) as [[[]|e] w2]; cbn in Hr; simplify_eq; split_and!;
      first [done|by intros ? [= <-]]. }
  split. { destruct Hs. congruence. }
  destruct Hrow as [[Hy Hrow]|[Hck Hrow]]; [left; split; [auto|destruct Hs; congruence]|]. right.
  split; [|split; [destruct Hs; congruence|done]].
  apply new_usable; [|destruct Hs; congruence|by apply new_row_ok].
  assert (placed w1 part) as Hp1 by (destruct Hpl; split; rewrite ?Hfs, ?Hab, ?Hhe; done).
  assert (content w1 part = []) as Hc1 by (unfold content in *; by rewrite Hfs).
  split; [by eapply placed_same|]. by rewrite (same_world_content _ _ _ Hs : content w' part = content w1 part).
Qed.

Lemma create_inner_Ok i output unknown w s w' : Fs.nodes (World.fs w) = ∅ →
  (∀ e, Identity.expected_sha256 i = Some e → length e = 32%nat) → (unknown = true → Identity.total i ≠ 0) →
  create_inner sha256 i output unknown w = (Ok s, w') →
  Usable sha256 (Handle.Make s w') ∧ Store.poisoned s = false ∧ Store.hasher s = [] ∧ Store.output s = output ∧
  Store.identity s = i.
Proof.
  intros He Hx Hu Hr. rewrite create_split in Hr.
  apply bind_Ok in Hr as ([]&w5&(Hn&Hi&Hrf)%create_locked_Ok&Hr); [|done]. unfold holding in Hr.
  match goal with H : context [match ?m w5 with _ => _ end] |- _ => destruct (m w5) as [[s0|e] w6] eqn:Hh end; [|done]. injection Hr as -> ->.
  apply bind_Ok in Hh as (part&w7&Hfn%make_files_Ok&Hh); [|done].
  apply make_row_any in Hh as [_ [[? _]|(Hus&_&Hst)]]; [done| |done..]. by rewrite (Hst _ eq_refl) in *.
Qed.

(** Nothing is made, or a directory without a record. *)
Definition vacant w : Prop := World.row w = None ∧ (World.here w = None → Fs.nodes (World.fs w) = ∅).
(** A step in a directory without a record. *)
Definition builds {A} (m : world_st A) : Prop := ∀ w, World.row w = None ∧ World.here w = Some Dir →
  World.row (m w).2 = None ∧ World.here (m w).2 = Some Dir.
Lemma builds_bind {A B} (m : world_st A) (k : A → world_st B) : builds m → (∀ a, builds (k a)) → builds (m ≫= k).
Proof.
  intros Hm Hk w Hw. specialize (Hm w Hw). unfold mbind, st_bind. destruct (m w) as [[a|e] w']; cbn in *; [by apply Hk|done].
Qed.
Lemma builds_on_files {A} (m : fs_st A) : builds (on_files m).
Proof. intros w Hw. unfold on_files. by destruct (m _). Qed.
Lemma builds_pure {A} (m : world_st A) : (∀ w, (m w).2 = w) → builds m.
Proof. intros Hm w Hw. by rewrite Hm. Qed.
Lemma builds_statement {A} (m : world_st A) : builds m → builds (statement m).
Proof. intros Hm w Hw. unfold statement. destruct (head _) as [[]|]; try done; by apply Hm. Qed.
Lemma builds_files unknown : builds (make_files unknown).
Proof.
  assert (builds db_call) as Hc by (by apply builds_statement, builds_pure).
  assert (builds db_open) as Ho by (apply builds_statement; intros w Hw; cbn; by case_match).
  unfold make_files, configure. destruct unknown;
    repeat first [apply builds_bind; [|intros ?] | apply builds_on_files | done | by apply builds_pure].
Qed.
(** Steps that end with the directory made, or with nothing. *)
Definition roofs w {A} (m : world_st A) : Prop := ∀ v, same_world w v →
  vacant (m v).2 ∧ (is_ok (m v).1 = true → World.here (m v).2 = Some Dir).
Lemma roofs_looks w {A B} (m : world_st A) (k : A → world_st B) : vacant w → looks m → (∀ a, roofs w (k a)) → roofs w (m ≫= k).
Proof.
  intros Hw Hm Hk v Hv. unfold mbind, st_bind. specialize (Hm v). destruct (m v) as [[a|e] v'] eqn:Hr; cbn in *.
  { apply Hk. by etrans. }
  assert (same_world w v') as Hs by (by etrans). split; [|done]. unfold vacant. rewrite (same_world_nodes _ _ Hs).
  destruct Hw as [Hr0 Hn0], Hs. split; [congruence|]. intros Hh. apply Hn0. congruence.
Qed.
Lemma create_locked_vacant i output w : vacant w → World.here w = None → roofs w (create_locked i output).
Proof.
  intros Hw Hhere. unfold create_locked.
  repeat (apply roofs_looks; [done|solve [auto with looks keeps]|intros ?]).
  intros v Hv. assert (World.row v = None ∧ World.here v = None ∧ Fs.nodes (World.fs v) = ∅) as (Hr&Hh&Hno).
  { rewrite (same_world_nodes _ _ Hv). destruct Hv, Hw. split_and!; try congruence; auto. }
  unfold mbind at 1 3 5, st_bind at 1 3 5. unfold create_dir. assert (looks (on_files access)) as Hl by auto with looks keeps.
  specialize (Hl v). destruct (on_files access v) as [[[]|e] v1]; cbn in *.
  2:{ split; [|done]. split; [destruct Hl; congruence|by rewrite (same_world_nodes _ _ Hl)]. }
  assert (World.here v1 = None) as -> by (destruct Hl; congruence). cbn.
  assert (builds (_ ← on_files (create_new (Leaf owner_lock)); try_lock)) as Hb.
  { apply builds_bind; [apply builds_on_files|]. intros _ x Hx. unfold try_lock. pose proof (builds_on_files access x Hx).
    destruct (on_files access x) as [[[]|e] x1]; cbn in *; [|done]. by destruct (World.owned x1). }
  destruct (Hb (World.set_here (Some Dir) v1)) as [Hb1 Hb2]; [cbn; destruct Hl; split; congruence|].
  unfold vacant. rewrite Hb1, Hb2. done.
Qed.
(** However a creation ends, nothing is on record or the new store is. *)
Lemma create_inner_any i output unknown w x w' : vacant w → World.here w = None →
  (∀ e, Identity.expected_sha256 i = Some e → length e = 32%nat) → (unknown = true → Identity.total i ≠ 0) →
  create_inner sha256 i output unknown w = (x, w') →
  is_ok x = false ∧ vacant w' ∨
  ∃ part, World.here w' = Some Dir ∧ Usable sha256 (Handle.Make (new_store i output unknown part) w') ∧
    World.row w' = Some (new_row sha256 i output unknown) ∧ (∀ s, x = Ok s → s = new_store i output unknown part).
Proof.
  intros Hv Hhere Hx Hu. rewrite create_split. unfold mbind at 1, st_bind at 1.
  destruct (create_locked_vacant i output w Hv Hhere w ltac:(done)) as [Hv' Hh].
  destruct (create_locked i output w) as [[[]|e] w5] eqn:Hr; cbn in *; [|intros [= <- <-]; by left].
  apply create_locked_Ok in Hr as (Hn&Hi&Hrf); [|by apply Hv]. specialize (Hh eq_refl).
  unfold holding, mbind at 1, st_bind at 1. pose proof (builds_files unknown w5 ltac:(split; [apply Hv'|done])) as [Hb1 Hb2].
  destruct (make_files unknown w5) as [[part|e] w6] eqn:Hf; cbn in *.
  2:{ intros [= <- <-]. left. split; [done|]. split; [done|]. cbn. congruence. }
  apply make_files_Ok in Hf; [|done]. destruct (make_row i output unknown part w6) as [y w7] eqn:Hmr.
  apply make_row_any in Hmr as [Hhe7 Hrow]; [|done..]. intros Hend.
  assert (is_ok y = is_ok x ∧ World.row w' = World.row w7 ∧ World.here w' = World.here w7 ∧ same_world w7 w' ∧ (∀ s, x = Ok s → y = Ok s)) as (Eok&Er&Eh&Es&Ey).
  { destruct y; simplify_eq/=; split_and!; first [done|by intros ? [= <-]]. }
  destruct Hrow as [[Hno Hrow]|(Hus&Hrow&Hst)].
  - left. rewrite <-Eok. split; [done|]. split; [congruence|]. intros. congruence.
  - right. exists part. split; [congruence|]. split; [|split; [congruence|auto]].
    destruct Hus as (r&Hc&Hcl). exists r. split; [by eapply Core_same|by eapply Clean_same].
Qed.
Lemma create_as_Ok b s w' : fresh b → create_as b (Birth.world b) = (Ok s, w') →
  Usable sha256 (Handle.Make s w') ∧ Store.poisoned s = false ∧ Store.hasher s = [] ∧
  Store.output s = Birth.output b ∧ Store.identity s = Birth.identity b.
Proof.
  intros [He Hx] Hr. unfold create_as in Hr. destruct (Birth.unknown b).
  - unfold create_unknown in Hr. apply bind_Ok in Hr as ([]&w1&[Ht ->]%refuse_false&Hr). open_bools.
    by eapply create_inner_Ok in Hr.
  - by eapply create_inner_Ok in Hr.
Qed.
Lemma create_as_live b s w' : fresh b → create_as b (Birth.world b) = (Ok s, w') → Live sha256 (Handle.Make s w').
Proof. intros Hf Hr. apply create_as_Ok in Hr as (Hu&Hp&_); [|done]. by right. Qed.

(** ** A crash and what is left *)

(** Nothing fails from here on, and nobody holds the directory. *)
Definition rested w : World.t :=
  World.Make (Fs.set_faults [] (World.fs w)) (World.above w) (World.here w) false (World.row w) [].
Lemma rested_same w : same_world w (rested w).
Proof. by split. Qed.
Lemma rested_calm w : calm (rested w).
Proof. done. Qed.

(** The directory as a dead process leaves it, before calls that fail in their own way. *)
Definition left_behind (faults : list (option (ErrorKind.t * nat))) (fates : list Fate.t) w : World.t :=
  World.Make (Fs.set_faults faults (World.fs w)) (World.above w) (World.here w) false (World.row w) fates.
Lemma left_behind_same faults fates w : same_world w (left_behind faults fates w).
Proof. by split. Qed.

(** What [open] gives back after a crash. *)
Record resumed h s' w' : Prop := {
  rs_live : Live sha256 (Handle.Make s' w');
  rs_hasher : Store.hasher s' = take (Z.to_nat (Store.committed s')) (Store.hasher (Handle.store h));
  rs_committed : Store.committed (Handle.store h) ≤ Store.committed s' ≤ Store.len (Handle.store h);
  rs_content : content w' (Store.part s') = Store.hasher s';
  rs_output : Store.output s' = Store.output (Handle.store h);
  rs_expected : Identity.expected_sha256 (Store.identity s') = Identity.expected_sha256 (Store.identity (Handle.store h));
  rs_poisoned : Store.poisoned s' = Store.unknown_length s' }.
Lemma Live_Core h : Live sha256 h → ∃ r, Core sha256 (Handle.store h) (Handle.world h) r.
Proof. intros [[_ ?]|[_ (r&?&_)]]; [done|by exists r]. Qed.
Lemma resumes h v s' w' : Live sha256 h → same_world (Handle.world h) v → open_store sha256 v = (Ok s', w') → resumed h s' w'.
Proof.
  intros Hl Hv Ho. destruct (Live_Core h Hl) as [r Hc]. destruct h as [s w]. cbn in *.
  apply (Core_same _ _ _ _ _ Hv) in Hc. pose proof (Core_Resting _ _ _ _ Hc) as Hw.
  destruct (reopen_Ok _ _ _ _ _ _ Hw Ho) as ((i&Hi&->)&Hw'&Hct).
  set (n := Row.committed r) in *. pose proof (co_committed _ _ _ _ Hc) as Hcm.
  pose proof (co_len _ _ _ _ Hc) as Hlen. pose proof (ro_checks _ (co_ok _ _ _ _ Hc)) as Hck. rewrite checks_spec in Hck. fold n in Hck, Hcm.
  assert (take (Z.to_nat n) (content v (Store.part s)) = take (Z.to_nat n) (Store.hasher s)) as Hh.
  { destruct (co_prefix _ _ _ _ Hc) as [k ->]. apply take_app_le. lia. }
  apply identity_fields in Hi as (Hit&Hie&_).
  assert (Core sha256 (reopened v (Store.part s) r i) w' r) as Hc'.
  { destruct Hw'. split; cbn; try done; fold n.
    - by rewrite Hct.
    - rewrite Hh, length_take. lia. }
  split; try done; cbn; fold n; [|by apply (co_output _ _ _ _ Hc)|rewrite Hie; by apply (co_expected _ _ _ _ Hc)].
  destruct (row_unknown r) eqn:Hu; [left|right].
  - split; [done|]. by exists r.
  - split; [done|]. exists r. split; [done|]. split; cbn; fold n; try done; unfold Store.total; cbn; try congruence; lia.
Qed.
Lemma reopens h : Live sha256 h → ∃ s' w', open_store sha256 (rested (Handle.world h)) = (Ok s', w') ∧ resumed h s' w'.
Proof.
  intros Hl. destruct (Live_Core h Hl) as [r Hc].
  apply (Core_same _ _ _ _ _ (rested_same _)) in Hc. pose proof (Core_Resting _ _ _ _ Hc) as Hw.
  destruct (opens sha256 (rested (Handle.world h)) (Store.part (Handle.store h)) r) as (s'&w'&Ho); [apply rested_calm|done|done|].
  exists s', w'. split; [done|]. eapply resumes; [done|apply rested_same|done].
Qed.

(** ** Histories *)

(** A file that somebody else puts into the directory, under a name not taken. *)
Definition appears (name : Name) (ino : nat) (bytes : list Z) w : World.t :=
  World.set_fs (Fs.Make (<[name := File ino]> (Fs.nodes (World.fs w))) (<[ino := bytes]> (Fs.data (World.fs w)))
    (Fs.next (World.fs w)) (Fs.faults (World.fs w))) w.

(** A store made, used, abandoned at any point and opened again, among foreign files. *)
Inductive Reached b : Handle.t → Prop :=
| made s w : create_as b (Birth.world b) = (Ok s, w) → Reached b (Handle.Make s w)
| called op h : Reached b h → Reached b (call sha256 op h).2
| died faults fates s w h : Reached b h → open_store sha256 (left_behind faults fates (Handle.world h)) = (Ok s, w) →
    Reached b (Handle.Make s w)
| appeared name ino bytes h : Reached b h → Fs.nodes (World.fs (Handle.world h)) !! name = None →
    (∀ n, Fs.nodes (World.fs (Handle.world h)) !! n ≠ Some (File ino)) →
    Reached b (Handle.Make (Handle.store h) (appears name ino bytes (Handle.world h))).

Lemma appears_content name ino bytes w i : i ≠ ino → content (appears name ino bytes w) i = content w i.
Proof. intros Hne. unfold content, appears, Fs.content. cbn. by rewrite lookup_insert_ne. Qed.
Lemma appears_placed name ino bytes w p : placed w p → Fs.nodes (World.fs w) !! name = None → placed (appears name ino bytes w) p.
Proof.
  intros [] Hn. assert (∀ n x, Fs.nodes (World.fs w) !! n = Some x → Fs.nodes (World.fs (appears name ino bytes w)) !! n = Some x) as Hk.
  { intros n x Hx. cbn. rewrite lookup_insert_ne; [done|]. intros ->. congruence. }
  split; try done.
  - intros n Hx. cbn in Hx. apply lookup_insert_Some in Hx as [[_ [=]]|[_ Hx]]. by eapply pl_links.
  - destruct pl_lock as [i Hi]. exists i. by apply Hk.
  - destruct pl_state as [i Hi]. exists i. by apply Hk.
  - by apply Hk.
Qed.
Lemma appears_Core s w r name ino bytes : Core sha256 s w r → Fs.nodes (World.fs w) !! name = None →
  (∀ n, Fs.nodes (World.fs w) !! n ≠ Some (File ino)) → Core sha256 s (appears name ino bytes w) r.
Proof.
  intros [] Hn Hi. assert (Store.part s ≠ ino) as Hp by (intros <-; by eapply Hi, co_placed).
  assert (content (appears name ino bytes w) (Store.part s) = content w (Store.part s)) as E by (by apply appears_content).
  split; rewrite ?E; try done; [by apply appears_placed|]. destruct co_proved. split; rewrite ?E; try done.
  intros (j&Hj&Hl&Hd)%pv_published. exists j. rewrite appears_content by (intros ->; by eapply Hi). split; [|done].
  cbn. rewrite lookup_insert_ne; [done|]. intros ->. congruence.
Qed.
Lemma appears_Live h name ino bytes : Live sha256 h → Fs.nodes (World.fs (Handle.world h)) !! name = None →
  (∀ n, Fs.nodes (World.fs (Handle.world h)) !! n ≠ Some (File ino)) →
  Live sha256 (Handle.Make (Handle.store h) (appears name ino bytes (Handle.world h))).
Proof.
  intros [[Hp (r&Hc)]|[Hp (r&Hc&Hcl)]] Hn Hi; [left|right]; (split; [done|]); exists r; [by apply appears_Core|].
  split; [by apply appears_Core|]. destruct Hcl. split; try done. cbn. rewrite appears_content; [done|].
  intros <-. eapply Hi. apply (co_placed _ _ _ _ Hc).
Qed.

Lemma reached_live b h : fresh b → Reached b h → Live sha256 h ∧ Store.output (Handle.store h) = Birth.output b ∧
  Identity.expected_sha256 (Store.identity (Handle.store h)) = Identity.expected_sha256 (Birth.identity b).
Proof.
  intros Hf. induction 1 as [s w Hr|op h _ (Hl&Ho&He)|faults fates s w h _ (Hl&Ho&He) Hop|name ino bytes h _ (Hl&Ho&He) Hn Hi].
  - destruct (create_as_Ok b s w Hf Hr) as (Hu&Hp&_&Ho&Hi). split_and!; [by right|done|cbn; congruence].
  - destruct (grow_call sha256 op h). split_and!; [by apply live_call|congruence..].
  - destruct (resumes h _ _ _ Hl (left_behind_same _ _ _) Hop). split_and!; [done|cbn; congruence..].
  - split_and!; [by apply appears_Live|done..].
Qed.
Lemma reached_calls b ops h : Reached b h → Reached b (calls sha256 ops h).
Proof. revert h. induction ops as [|op ops IH]; intros h Hh; cbn; [done|]. apply IH. by apply called. Qed.

(** C9: whatever has been done with a store - calls, deaths, openings, foreign files appearing beside it, calls that fail or lie about it - the process may die at any later point: the directory opens again, and the handle holds all the bytes the last successful checkpoint had recorded, followed only by bytes appended since, still bound to the output given at creation *)
Theorem crash_loses_no_checkpoint b h1 ops :
  fresh b → Reached b h1 → let h2 := calls sha256 ops h1 in
  ∃ s w, open_store sha256 (rested (Handle.world h2)) = (Ok s, w) ∧ Live sha256 (Handle.Make s w) ∧
    take (Z.to_nat (Store.committed (Handle.store h1))) (Store.hasher (Handle.store h1)) `prefix_of` Store.hasher s ∧
    Store.hasher s `prefix_of` Store.hasher (Handle.store h2) ∧ content w (Store.part s) = Store.hasher s ∧
    Store.output s = Birth.output b.
Proof.
  intros Hf Hr1 h2. destruct (reached_live b h1 Hf Hr1) as (Hl1&_). assert (Reached b h2) as Hr2 by (by apply reached_calls).
  destruct (reached_live b h2 Hf Hr2) as (Hl2&Ho2&_). destruct (reopens h2 Hl2) as (s&w&Ho&[]). exists s, w. split_and!; try done.
  - pose proof (grow_calls sha256 ops h1) as []. fold h2 in gr_hasher, gr_len, gr_committed.
    rewrite rs_hasher0. destruct gr_hasher as [k ->].
    assert (Store.committed (Handle.store h1) ≤ Store.len (Handle.store h1) ∧
      Store.len (Handle.store h1) = Z.of_nat (length (Store.hasher (Handle.store h1)))) as [Hb Hb'].
    { destruct (Live_Core h1 Hl1) as [r []]. lia. }
    specialize (gr_committed Hb). exists (drop (Z.to_nat (Store.committed (Handle.store h1))) (take (Z.to_nat (Store.committed s)) (Store.hasher (Handle.store h1) ++ k))).
    rewrite <-(take_drop (Z.to_nat (Store.committed (Handle.store h1))) (take _ (_ ++ k))) at 1. f_equal.
    rewrite take_take, Nat.min_l by lia. symmetry. rewrite take_app_le by lia. done.
  - rewrite rs_hasher0. apply prefix_take.
  - congruence.
Qed.

(** ** Publishing *)

Lemma on_world_store {A} (m : world_st A) h x h' : on_world m h = (x, h') → Handle.store h' = Handle.store h.
Proof. unfold on_world. destruct (m _). by intros [= _ <-]. Qed.
Lemma occupied_store h x h' : occupied h = (x, h') → Handle.store h' = Handle.store h.
Proof. unfold occupied. destruct (symlink_metadata _ _) as [[?|[]] ?]; by intros [= _ <-]. Qed.
Lemma hash_part_store h bytes h' : hash_part h = (Ok bytes, h') →
  Handle.store h' = Store.set_pos (Store.len (Handle.store h)) (Handle.store h).
Proof.
  unfold hash_part. intros Hr. apply bind_Ok in Hr as (s&h1&[= <- <-]&Hr).
  apply bind_Ok in Hr as (x&h2&Hw%on_world_store&Hr). apply bind_Ok in Hr as ([]&h3&[= <-]&[= _ <-]). cbn. by rewrite Hw.
Qed.
Lemma publish_part_Ok h h' : publish_part sha256 h = (Ok tt, h') →
  wrong_digest (verified_sha256 sha256 (Handle.store h)) (Handle.store h) = false ∧
  Handle.store h' = Store.set_phase 3 (Store.set_pos (Store.len (Handle.store h)) (Handle.store h)).
Proof.
  unfold publish_part. intros Hr. apply bind_Ok in Hr as (s&h1&[= <- <-]&Hr).
  apply bind_Ok in Hr as (size&h1&H1%on_world_store&Hr). apply bind_Ok in Hr as ([]&h2&[_ ->]%refuse_false&Hr).
  apply bind_Ok in Hr as (bytes&h2&H2%hash_part_store&Hr). apply bind_Ok in Hr as ([]&h3&[_ ->]%refuse_false&Hr).
  apply bind_Ok in Hr as ([]&h3&[Hd ->]%refuse_false&Hr). split; [done|].
  apply bind_Ok in Hr as (node&h3&H3%occupied_store&Hr). apply bind_Ok in Hr as ([]&h4&H4&Hr).
  assert (Handle.store h4 = Handle.store h3) as H4'.
  { destruct node; [by apply on_world_store in H4|]. case_decide; [by apply on_world_store in H4|done]. }
  apply bind_Ok in Hr as ([]&h5&H5%on_world_store&Hr). apply bind_Ok in Hr as ([]&h6&H6%on_world_store&Hr).
  apply bind_Ok in Hr as (ch&h7&H7%on_world_store&[= <-]). cbn. by rewrite H7, H6, H5, H4', H3, H2, H1.
Qed.
Lemma finalize_Ok h n h' : Live sha256 h → finalize sha256 h = (Ok n, h') →
  Usable sha256 h' ∧ Store.phase (Handle.store h') = 3 ∧ n = Leaf (Store.output (Handle.store h')) ∧
  wrong_digest (verified_sha256 sha256 (Handle.store h')) (Handle.store h') = false.
Proof.
  intros Hl Hr. pose proof (live_finalize sha256 h Hl) as Hl'. rewrite Hr in Hl'. cbn in Hl'.
  unfold finalize in Hr. apply bind_Ok in Hr as ([]&h0&_&Hr). apply poisoning_store in Hr as (h1&Hr&->).
  destruct Hl' as [[[=] _]|[_ Hu]]. split; [done|]. clear Hu Hl.
  apply bind_Ok in Hr as (s0&h2&[= <- <-]&Hr). apply bind_Ok in Hr as ([]&h3&Hint&Hr).
  apply bind_Ok in Hr as ([]&h4&[Hd Hs]%publish_part_Ok&[= <- <-]). cbn. rewrite Hs. split_and!; [done| |done].
  f_equal. cbn. case_decide; [|by injection Hint as <-].
  unfold intend in Hint. apply bind_Ok in Hint as (node&h5&H5%occupied_store&Hr).
  apply bind_Ok in Hr as ([]&h6&[_ ->]%refuse_false&Hr). apply bind_Ok in Hr as (s&h6&[= <- <-]&Hr).
  apply bind_Ok in Hr as (bytes&h6&H6%hash_part_store&Hr). apply bind_Ok in Hr as ([]&h7&[_ ->]%refuse_false&Hr).
  apply bind_Ok in Hr as ([]&h7&[_ ->]%refuse_false&Hr). apply bind_Ok in Hr as (ch&h8&H8%on_world_store&[= <-]). cbn.
  by rewrite H8, H6, H5.
Qed.

(** C10: when publishing succeeds, after any history of calls, failures, deaths, openings and foreign files, the output path given at creation names a file with exactly the downloaded length and the digest of all the bytes appended, which is the digest asked for at creation when one was; the record says so, and the handle answers Published *)
Theorem published_output_is_the_download b h n h' :
  fresh b → Reached b h → finalize sha256 h = (Ok n, h') →
  let s := Handle.store h' in let w := Handle.world h' in
  n = Leaf (Birth.output b) ∧ status s = Status.Published ∧ Row.phase <$> World.row w = Some 3 ∧
  Store.total s = Z.of_nat (length (Store.hasher s)) ∧
  ∃ ino, Fs.nodes (World.fs w) !! n = Some (File ino) ∧ Z.of_nat (length (content w ino)) = Store.total s ∧
    sha256 (content w ino) = verified_sha256 sha256 s ∧
    ∀ e, Identity.expected_sha256 (Birth.identity b) = Some e → sha256 (content w ino) = e.
Proof.
  intros Hf Hr Hfin s w. destruct (reached_live b h Hf Hr) as (Hl&Ho&He).
  destruct (finalize_Ok _ _ _ Hl Hfin) as ((r&Hc&Hcl)&Hph&->&Hd).
  fold s in Hc, Hcl, Hph, Hd |- *. fold w in Hc, Hcl.
  assert (grows (Handle.store h) s) as [].
  { pose proof (grow_call sha256 Finalize h) as Hg. cbn in Hg. unfold mbind, st_bind in Hg. by rewrite Hfin in Hg. }
  pose proof (complete_facts sha256 s w r Hc Hcl ltac:(lia)) as (Hlen&Hcm&Ht&Hdg).
  pose proof (cl_phase _ _ _ Hcl) as Hrp. rewrite Hph in Hrp.
  destruct (pv_published _ _ _ _ (co_proved _ _ _ _ Hc) Hrp) as (ino&Hn&Hlen'&Hsha).
  rewrite (co_output _ _ _ _ Hc) in Hn. rewrite gr_output, Ho in *. split; [done|].
  split. { unfold status. rewrite decide_False by lia. by rewrite decide_True. }
  split. { rewrite (co_row _ _ _ _ Hc). cbn. by rewrite Hrp. }
  split. { rewrite <-Hlen. apply Hc. }
  exists ino. split; [done|]. split; [lia|]. unfold verified_sha256 in *. split; [by rewrite Hsha|].
  intros e Hse. unfold wrong_digest in Hd. rewrite gr_expected, He, Hse in Hd. cbn in Hd. open_bools. by rewrite Hsha, Hdg.
Qed.

(** Publishing, whether it succeeds or fails and whichever calls fail, never takes a name away, never makes a name mean another file and never changes the contents of any file *)
Theorem publishing_spares_every_file h : let h' := (finalize sha256 h).2 in
  Fs.nodes (World.fs (Handle.world h)) ⊆ Fs.nodes (World.fs (Handle.world h')) ∧
  ∀ ino, content (Handle.world h') ino = content (Handle.world h) ino.
Proof. apply unharming_finalize. Qed.

(** ** A handle that may not be used *)

Lemma closed_handle_refuses h op : Store.poisoned (Handle.store h) = true → ∃ e, call sha256 op h = (Err e, h).
Proof.
  intros Hp.
  assert (∀ A (k : unit → handle_st A) bad e, bad (Handle.store h) = true → mbind k (guard bad e) h = (Err e, h)) as Hg.
  { intros A k bad e Hb. unfold guard, self, gets, mbind, st_bind, lift, refuse_if. cbn. by rewrite Hb. }
  assert (checkpoint_store sha256 h = (Err StoreError.NotWritable, h)) as Hck by (apply Hg; by rewrite Hp).
  assert (∀ (k : unit → handle_st unit) bad e0,
    ∃ e, (_ ← guard bad e0; a ← checkpoint_store sha256; k a) h = (Err e, h)) as Hthen.
  { intros k bad e0. destruct (bad (Handle.store h)) eqn:Hb; [eexists; by apply Hg|].
    exists StoreError.NotWritable. unfold mbind at 1, st_bind at 1. unfold guard, self, gets, mbind at 1, st_bind at 1, lift, refuse_if.
    rewrite Hb. unfold mbind, st_bind. by rewrite Hck. }
  destruct op; cbn.
  - eexists. apply Hg. by rewrite Hp.
  - by eexists.
  - apply Hthen.
  - apply Hthen.
  - eexists. unfold rebind_urls. apply Hg. by rewrite Hp.
  - assert (finalize sha256 h = (Err StoreError.Incomplete, h)) as Hfin by (unfold finalize; apply Hg; by rewrite Hp).
    exists StoreError.Incomplete. unfold mbind, st_bind. by rewrite Hfin.
Qed.

(** C33: a download of unknown length that was interrupted before its end was recorded can be opened, but not resumed: every operation on the reopened handle fails and changes neither handle, files nor record; any other store reopens ready for use *)
Theorem interrupted_unknown_length_is_frozen b h faults fates s w :
  fresh b → Reached b h → open_store sha256 (left_behind faults fates (Handle.world h)) = (Ok s, w) →
  (Store.unknown_length s = true →
     ∀ op, ∃ e, call sha256 op (Handle.Make s w) = (Err e, Handle.Make s w)) ∧
  (Store.unknown_length s = false → Store.poisoned s = false ∧ Usable sha256 (Handle.Make s w)).
Proof.
  intros Hf Hr Ho. destruct (reached_live b h Hf Hr) as (Hl0&_).
  destruct (resumes h _ _ _ Hl0 (left_behind_same _ _ _) Ho). split; intros Hu.
  - intros op. apply closed_handle_refuses. cbn. congruence.
  - assert (Store.poisoned s = false) as Hps by congruence. split; [done|]. by apply Live_usable.
Qed.

(** ** One holder at a time *)

Definition steady {A} (m : world_st A) : Prop := ∀ w, World.owned (m w).2 = World.owned w.
Lemma steady_bind {A B} (m : world_st A) (k : A → world_st B) : steady m → (∀ a, steady (k a)) → steady (m ≫= k).
Proof.
  intros Hm Hk w. unfold mbind, st_bind. specialize (Hm w). destruct (m w) as [[a|e] w']; cbn in *; [|done]. by rewrite Hk.
Qed.
Lemma steady_on_files {A} (m : fs_st A) : steady (on_files m).
Proof. intros w. unfold on_files. by destruct (m _). Qed.
Lemma steady_statement {A} (op : world_st A) : steady op → steady (statement op).
Proof. intros Hop w. unfold statement. destruct (head _) as [[]|]; cbn; try done; by rewrite Hop. Qed.
Lemma steady_update cond f : steady (update_row cond f).
Proof. apply steady_statement. intros w. cbn. by repeat case_match. Qed.
Lemma steady_select {A} (f : Row.t → A) : steady (select_row f).
Proof. by apply steady_statement. Qed.
Lemma steady_db_call : steady db_call.
Proof. by apply steady_statement. Qed.
Lemma steady_if {A} (P : Prop) `{Decision P} (m m' : world_st A) : steady m → steady m' → steady (if decide P then m else m').
Proof. by case_decide. Qed.
Lemma steady_pure {A} (m : world_st A) : (∀ w, (m w).2 = w) → steady m.
Proof. intros Hm w. by rewrite Hm. Qed.
Create HintDb steady discriminated.
Local Ltac steady_tac := repeat first
  [ solve [auto 1 with steady nocore] | apply steady_on_files | apply steady_update | apply steady_select | apply steady_db_call | apply steady_if
  | apply steady_bind; [|intros ?] | by apply steady_pure ].
Lemma steady_hash_from fuel ino : ∀ off left, steady (hash_from fuel ino off left).
Proof. induction fuel as [|fuel IH]; intros off left; cbn; steady_tac. Qed.
Lemma steady_hash_prefix ino len : steady (hash_prefix ino len).
Proof. unfold hash_prefix. apply steady_bind; [apply steady_on_files|]. intros _. apply steady_hash_from. Qed.
#[local] Hint Resolve steady_hash_prefix : steady.
Lemma steady_verify s : steady (verify_destination sha256 s).
Proof. unfold verify_destination, reject_link, is_file. steady_tac. Qed.
Lemma steady_check_ancestors l : steady (check_ancestors l).
Proof. induction l as [|n l IH]; cbn; unfold reject_link_entry; steady_tac. Qed.
Lemma steady_reject_links l : steady (reject_links l).
Proof. induction l as [|n l IH]; cbn; unfold reject_link; steady_tac. Qed.
Lemma steady_complete_length n : steady (complete_length n).
Proof. unfold complete_length. steady_tac; by apply steady_statement. Qed.

Lemma steady_db_open : steady db_open.
Proof. apply steady_statement. intros w. cbn. by repeat case_match. Qed.
Lemma steady_insert_row r : steady (insert_row r).
Proof. apply steady_statement. intros w. cbn. by repeat case_match. Qed.
#[local] Hint Resolve steady_db_open steady_insert_row : steady.
#[local] Hint Resolve steady_verify steady_check_ancestors steady_reject_links steady_complete_length : steady.

(** The same of a method. *)
Definition holds {A} (m : handle_st A) : Prop := ∀ h, World.owned (Handle.world (m h).2) = World.owned (Handle.world h).
Lemma holds_bind {A B} (m : handle_st A) (k : A → handle_st B) : holds m → (∀ a, holds (k a)) → holds (m ≫= k).
Proof.
  intros Hm Hk h. unfold mbind, st_bind. specialize (Hm h). destruct (m h) as [[a|e] h']; cbn in *; [|done]. by rewrite Hk.
Qed.
Lemma holds_on_world {A} (m : world_st A) : steady m → holds (on_world m).
Proof. intros Hm h. unfold on_world. specialize (Hm (Handle.world h)). by destruct (m _). Qed.
Lemma holds_pure {A} (m : handle_st A) : (∀ h, Handle.world (m h).2 = Handle.world h) → holds m.
Proof. intros Hm h. by rewrite Hm. Qed.
Lemma holds_if {A} (P : Prop) `{Decision P} (m m' : handle_st A) : holds m → holds m' → holds (if decide P then m else m').
Proof. by case_decide. Qed.
Lemma holds_occupied : holds occupied.
Proof. intros h. unfold occupied. by destruct (symlink_metadata _ _) as [[?|[]] ?]. Qed.
Local Ltac holds_tac := repeat first
  [ apply holds_on_world; solve [steady_tac]
  | apply holds_occupied | apply holds_if | apply holds_bind; [|intros ?] | by apply holds_pure
  | match goal with |- holds (match ?x with _ => _ end) => destruct x end ].
Lemma holds_call op : holds (call sha256 op).
Proof.
  destruct op; cbn; unfold append_bytes, checkpoint_store, mark_transfer_complete, mark_unknown_transfer_complete,
    rebind_urls, finalize, checkpoint_store, intend, publish_part, poisoning, hash_part, write_part, guard, set_phase_row, sync_directory; holds_tac.
Qed.
Lemma holds_calls ops h : World.owned (Handle.world (calls sha256 ops h)) = World.owned (Handle.world h).
Proof. revert h. induction ops as [|op ops IH]; intros h; cbn; [done|]. etrans; [apply IH|apply holds_call]. Qed.

(** What comes before the lock only looks. *)
Definition before_lock : world_st unit :=
  _ ← on_files access;
  here ← gets (λ w, World.here w :: World.above w);
  _ ← check_ancestors here;
  _ ← on_files access;
  names ← gets entries;
  _ ← reject_links names;
  _ ← is_file (Leaf owner_lock);
  _ ← is_file (Leaf state_sqlite);
  _ ← is_file (Leaf payload_part);
  _ ← on_files (open (Leaf owner_lock));
  mret tt.
Lemma looks_before_lock : looks before_lock.
Proof. unfold before_lock, entries. auto 30 with looks keeps. Qed.
Lemma steady_before_lock : steady before_lock.
Proof. unfold before_lock, is_file. steady_tac. Qed.
Lemma open_split w : open_store sha256 w = (_ ← before_lock; _ ← try_lock; holding (open_locked sha256)) w.
Proof.
  unfold before_lock, open_store. fold (open_locked sha256). symmetry.
  unfold mbind, st_bind, gets, mret, st_ret.
  repeat (match goal with |- context [match ?m ?v with _ => _ end] => destruct (m v) as [[?|?] ?]; cbn; try done end).
Qed.
Lemma steady_open_locked : steady (open_locked sha256).
Proof. unfold open_locked, configure, length_unknown, open_payload, adopt_payload. steady_tac. Qed.

Lemma locked_open w : World.owned w = true → ∃ e w', open_store sha256 w = (Err e, w') ∧ same_world w w' ∧ World.owned w' = true.
Proof.
  intros Ho. rewrite open_split. unfold mbind at 1, st_bind at 1.
  pose proof (looks_before_lock w) as Hs. pose proof (steady_before_lock w) as Hst.
  destruct (before_lock w) as [[[]|e] w1]; cbn in *; [|exists e, w1; by rewrite Hst].
  unfold mbind, st_bind, try_lock. assert (looks (on_files access)) as Hla by auto with looks keeps.
  specialize (Hla w1). pose proof (steady_on_files access w1) as Hs1.
  destruct (on_files access w1) as [[[]|e] w2]; cbn in *.
  - rewrite Hs1, Hst, Ho. exists StoreError.Locked, w2. split_and!; [done|by etrans|congruence].
  - exists StoreError.Locked, w2. split_and!; [done|by etrans|congruence].
Qed.
Lemma unlocked_open w : World.owned w = false → World.owned (open_store sha256 w).2 = is_ok (open_store sha256 w).1.
Proof.
  intros Ho. rewrite open_split. unfold mbind at 1 3, st_bind at 1 3.
  pose proof (steady_before_lock w) as Hst. destruct (before_lock w) as [[[]|e] w1]; cbn in *; [|congruence].
  unfold mbind, st_bind, try_lock. pose proof (steady_on_files access w1) as Hs1.
  destruct (on_files access w1) as [[[]|e] w2]; cbn in *; [|congruence].
  rewrite Hs1, Hst, Ho. cbn. unfold holding. pose proof (steady_open_locked (World.set_owned true w2)) as Hs2.
  destruct (open_locked sha256 _) as [[s|e] w3]; done.
Qed.

(** A directory is held exactly after success. *)
Definition takes {A} (m : world_st A) : Prop := ∀ w, World.owned w = false → World.owned (m w).2 = is_ok (m w).1.
Lemma takes_bind {A B} (m : world_st A) (k : A → world_st B) : steady m → (∀ a, takes (k a)) → takes (m ≫= k).
Proof.
  intros Hm Hk w Ho. specialize (Hm w). unfold mbind, st_bind. destruct (m w) as [[a|e] w']; cbn in *; [|congruence].
  apply Hk. congruence.
Qed.
Lemma takes_then {A B} (m : world_st A) (k : A → world_st B) : takes m → (∀ a, steady (k a)) → takes (a ← m; holding (k a)).
Proof.
  intros Hm Hk w Ho. specialize (Hm w Ho). unfold mbind, st_bind, holding. destruct (m w) as [[a|e] w']; cbn in *; [|done].
  specialize (Hk a w'). destruct (k a w') as [[b|e] w'']; cbn in *; [congruence|done].
Qed.
Lemma takes_try_lock : takes try_lock.
Proof.
  intros w Ho. unfold try_lock. pose proof (steady_on_files access w) as Hs.
  destruct (on_files access w) as [[[]|e] w1]; cbn in *; [|congruence]. by rewrite Hs, Ho.
Qed.
Lemma steady_create_dir : steady create_dir.
Proof.
  intros w. unfold create_dir. pose proof (steady_on_files access w) as Hs.
  destruct (on_files access w) as [[[]|e] w1]; cbn in *; [|done]. by destruct (World.here w1).
Qed.
Lemma takes_create i output unknown : takes (create_inner sha256 i output unknown).
Proof.
  intros w Ho. rewrite create_split. revert w Ho. apply takes_then.
  - unfold create_locked.
    repeat (apply takes_bind; [|intros ?]); try apply takes_try_lock; try apply steady_create_dir; steady_tac.
  - intros _. unfold make_files, make_row, configure, sync_directory. destruct unknown; steady_tac.
Qed.
(** Without a record, opening fails. *)
Definition fruitless {A} (m : world_st A) : Prop := ∀ w, World.row w = None → is_ok (m w).1 = false ∧ same_world w (m w).2.
Lemma fruitless_bind {A B} (m : world_st A) (k : A → world_st B) : looks m → (∀ a, fruitless (k a)) → fruitless (m ≫= k).
Proof.
  intros Hm Hk w Hw. specialize (Hm w). unfold mbind, st_bind. destruct (m w) as [[a|e] w'] eqn:Hr; cbn in *; [|done].
  destruct (Hk a w') as [H1 H2]; [destruct Hm; congruence|]. split; [done|by etrans].
Qed.
Lemma fruitless_select {A B} (f : Row.t → A) (k : A → world_st B) : fruitless (select_row f ≫= k).
Proof.
  intros w Hw. unfold mbind, st_bind. pose proof (looks_select f w) as Hs.
  destruct (select_row f w) as [[x|e] w'] eqn:Hsel; cbn in *; [|done].
  unfold select_row, statement in Hsel. cbn in Hsel. rewrite Hw in Hsel. by destruct (head _) as [[]|].
Qed.
Lemma fruitless_open : fruitless (open_store sha256).
Proof.
  intros w Hw. rewrite open_split. revert w Hw. apply fruitless_bind; [apply looks_before_lock|intros _].
  intros w Hw. unfold mbind, st_bind, try_lock. assert (looks (on_files access)) as Hla by auto with looks keeps.
  specialize (Hla w). destruct (on_files access w) as [[[]|e] w1]; cbn in *; [|done]. destruct (World.owned w1); [done|].
  assert (fruitless (open_locked sha256)) as Hf.
  { unfold open_locked. do 2 (apply fruitless_bind; [auto with looks|intros ?]). apply fruitless_select. }
  destruct (Hf (World.set_owned true w1)) as [H1 H2]; [destruct Hla; cbn; congruence|]. unfold holding.
  destruct (open_locked sha256 _) as [[s|e] w2]; [done|]. cbn in *. split; [done|].
  transitivity w1; [done|]. destruct H2. by split.
Qed.

Lemma create_as_owned b s w : create_as b (Birth.world b) = (Ok s, w) → World.owned w = true.
Proof.
  assert (∀ i output unknown v, create_inner sha256 i output unknown v = (Ok s, w) → World.owned w = true) as Hin.
  { intros i output unknown v Hr. unfold create_inner in Hr. do 7 apply bind_Ok in Hr as (?&?&_&Hr).
    apply bind_Ok in Hr as (?&?&_&Hr). apply bind_Ok in Hr as ([]&w5&[Ho _]%try_lock_Ok&Hr). unfold holding in Hr.
    match type of Hr with (match ?m w5 with _ => _ end) = _ => assert (steady m) as Hst by (unfold configure, sync_directory; destruct unknown; steady_tac);
      specialize (Hst w5); destruct (m w5) as [[s'|e] w6] end; [|done].
    injection Hr as -> ->. cbn in Hst. congruence. }
  intros Hr. unfold create_as, create_unknown, create in Hr. destruct (Birth.unknown b); [|by eapply Hin].
  apply bind_Ok in Hr as ([]&w1&[_ ->]%refuse_false&Hr). by eapply Hin.
Qed.
Lemma reached_owned b h : Reached b h → World.owned (Handle.world h) = true.
Proof.
  induction 1 as [s w Hr|op h _ IH|faults fates s w h _ _ Hop|name ino bytes h _ IH Hn Hi]; cbn.
  - by eapply create_as_owned.
  - by rewrite holds_call.
  - pose proof (unlocked_open (left_behind faults fates (Handle.world h)) eq_refl) as Hu. by rewrite Hop in Hu.
  - done.
Qed.

(** A directory has one holder: while a handle lives, whatever its history, opening the directory again fails and changes nothing; and after its death an open holds the directory exactly when it succeeds *)
Theorem directory_has_one_holder b h :
  Reached b h → let w := Handle.world h in
  (∃ e w', open_store sha256 w = (Err e, w') ∧ same_world w w' ∧ World.owned w' = true) ∧
  ∀ faults fates, let v := left_behind faults fates w in
    World.owned (open_store sha256 v).2 = is_ok (open_store sha256 v).1.
Proof.
  intros Hr w. split; [|intros faults fates v; by apply unlocked_open]. by apply locked_open, (reached_owned b).
Qed.
End Main.
(** ** On concrete stores *)

Module Toy.
(** A digest of 32 bytes. *)
Definition sha (l : list Z) : list Z := replicate 31 7 ++ [sum_Z l].
Definition url : list Z := replicate 32 1.
Definition world (fates : list Fate.t) : World.t := World.Make Fs.empty [Some Dir] None false None fates.
Definition identity (expected : option (list Z)) : Identity.t := Identity.Make url url (Some [34; 97; 34]) 4 expected.
(** A download of known length, its second checkpoint carried out and reported as failed. *)
Definition lied_to : Birth.t := Birth.Make (identity None) [111; 117; 116] false
  (world [Fate.Fine; Fate.Fine; Fate.Fine; Fate.Fine; Fate.Fine; Fate.Ambiguous]).
(** One that goes well, of a digest known in advance; one of unknown length. *)
Definition well : Birth.t := Birth.Make (identity (Some (sha [1; 2; 3; 4]))) [111; 117; 116] false (world []).
(** One whose output is linked while the record of it is refused. *)
Definition halfway : Birth.t := Birth.Make (identity (Some (sha [1; 2; 3; 4]))) [111; 117; 116] false
  (world (replicate 7 Fate.Fine ++ [Fate.Refused])).
Definition endless : Birth.t := Birth.Make (identity None) [111; 117; 116] true (world []).
Lemma lied_to_fresh : fresh lied_to.
Proof. split; [done|]. by intros e [=]. Qed.
Lemma well_fresh : fresh well.
Proof. split; [done|]. by intros e [= <-]. Qed.
Lemma halfway_fresh : fresh halfway.
Proof. split; [done|]. by intros e [= <-]. Qed.
Lemma endless_fresh : fresh endless.
Proof. split; [done|]. by intros e [=]. Qed.
Definition before : list StoreOp := [Append [1; 2]; Checkpoint].
Definition after : list StoreOp := [Append [3]; Checkpoint; Append [4]].
Definition whole : list StoreOp := [Append [1; 2]; Append [3; 4]; MarkComplete].
End Toy.

Module Runs.
(** Made and called; then abandoned and opened again. *)
Definition after_calls (b : Birth.t) (ops : list StoreOp) : option Handle.t :=
  match create_as Toy.sha b (Birth.world b) with
  | (Ok s, w) => Some (calls Toy.sha ops (Handle.Make s w))
  | _ => None
  end.
Definition after_death (b : Birth.t) (ops : list StoreOp) : option Handle.t :=
  h ← after_calls b ops;
  match open_store Toy.sha (left_behind [] [] (Handle.world h)) with
  | (Ok s, w) => Some (Handle.Make s w)
  | _ => None
  end.
Definition finalized (h : option Handle.t) : option Name := h ← h; ok (finalize Toy.sha h).1.
Definition reopened_hasher (b : Birth.t) (ops : list StoreOp) : option (bool * list Z) :=
  h ← after_death b ops; Some (Store.unknown_length (Handle.store h), Store.hasher (Handle.store h)).
Lemma after_calls_reached b ops h : after_calls b ops = Some h → Reached Toy.sha b h.
Proof.
  unfold after_calls. destruct (create_as _ _ _) as [[s|e] w] eqn:Hr; [|done]. intros [= <-].
  by apply reached_calls, made.
Qed.
Lemma after_death_reached b ops h : after_death b ops = Some h → Reached Toy.sha b h.
Proof.
  unfold after_death. intros (h0&Hh%after_calls_reached&Ho)%bind_Some.
  destruct (open_store Toy.sha _) as [[s|e] w] eqn:Hop; [|done]. injection Ho as <-. by eapply died.
Qed.
End Runs.

(** The lie is found out: the third byte is on record, the fourth is not. *)
Example lied_to_reopens : Runs.reopened_hasher Toy.lied_to (Toy.before ++ Toy.after) = Some (false, [1; 2; 3]).
Proof. vm_compute. reflexivity. Qed.
Example well_is_published : Runs.finalized (Runs.after_calls Toy.well Toy.whole) = Some (Leaf [111; 117; 116]).
Proof. vm_compute. reflexivity. Qed.
(** The first attempt to publish fails after the link; the next process finishes it. *)
Example halfway_is_finished : Runs.finalized (Runs.after_calls Toy.halfway Toy.whole) = None ∧
  Runs.finalized (Runs.after_death Toy.halfway (Toy.whole ++ [Finalize])) = Some (Leaf [111; 117; 116]).
Proof. vm_compute. done. Qed.
Example endless_is_unknown : Runs.reopened_hasher Toy.endless Toy.before = Some (true, [1; 2]).
Proof. vm_compute. reflexivity. Qed.

Lemma crash_loses_no_checkpoint_witness : ∃ h1,
  Reached Toy.sha Toy.lied_to h1 ∧ let h2 := calls Toy.sha Toy.after h1 in
  ∃ s w, open_store Toy.sha (rested (Handle.world h2)) = (Ok s, w) ∧ Live Toy.sha (Handle.Make s w) ∧
    take (Z.to_nat (Store.committed (Handle.store h1))) (Store.hasher (Handle.store h1)) `prefix_of` Store.hasher s ∧
    Store.hasher s `prefix_of` Store.hasher (Handle.store h2) ∧ content w (Store.part s) = Store.hasher s ∧
    Store.output s = Birth.output Toy.lied_to.
Proof.
  assert (is_Some (Runs.after_death Toy.lied_to Toy.before)) as [h1 Hr%Runs.after_death_reached] by (vm_compute; by eexists).
  exists h1. split; [exact Hr|]. exact (crash_loses_no_checkpoint Toy.sha Toy.lied_to h1 Toy.after Toy.lied_to_fresh Hr).
Defined.
Lemma published_output_is_the_download_witness : ∃ h n h',
  Reached Toy.sha Toy.halfway h ∧ finalize Toy.sha h = (Ok n, h') ∧
  n = Leaf [111; 117; 116] ∧ status (Handle.store h') = Status.Published.
Proof.
  pose proof (proj2 halfway_is_finished) as He. unfold Runs.finalized in He.
  apply bind_Some in He as (h&Hr%Runs.after_death_reached&He).
  destruct (finalize Toy.sha h) as [[n|e] h'] eqn:Hf; [|done].
  exists h, n, h'. split; [exact Hr|]. split; [exact Hf|].
  destruct (published_output_is_the_download Toy.sha Toy.halfway h n h' Toy.halfway_fresh Hr Hf) as (H1&H2&_).
  split; [exact H1|exact H2].
Defined.
Lemma interrupted_unknown_length_is_frozen_witness : ∃ h s w,
  Reached Toy.sha Toy.endless h ∧ open_store Toy.sha (left_behind [] [] (Handle.world h)) = (Ok s, w) ∧
  ∀ op, ∃ e, call Toy.sha op (Handle.Make s w) = (Err e, Handle.Make s w).
Proof.
  pose proof endless_is_unknown as He. unfold Runs.reopened_hasher, Runs.after_death in He.
  apply bind_Some in He as (h'&(h&Hr%Runs.after_calls_reached&Ho)%bind_Some&Hu).
  destruct (open_store Toy.sha _) as [[s|e] w] eqn:Hop; [|done]. injection Ho as <-. injection Hu as Hu _.
  exists h, s, w. split; [exact Hr|]. split; [exact Hop|].
  exact (proj1 (interrupted_unknown_length_is_frozen Toy.sha Toy.endless h [] [] s w Toy.endless_fresh Hr Hop) Hu).
Defined.
Lemma directory_has_one_holder_witness : ∃ h, Reached Toy.sha Toy.well h ∧
  ∃ e w', open_store Toy.sha (Handle.world h) = (Err e, w').
Proof.
  pose proof well_is_published as He. unfold Runs.finalized in He. apply bind_Some in He as (h&Hr%Runs.after_calls_reached&_).
  exists h. split; [exact Hr|].
  destruct (directory_has_one_holder Toy.sha Toy.well h Hr) as ((e&w'&Ho&_)&_). exists e, w'. exact Ho.
Defined.
