(* ===== verification/Protocol.v ===== *)
(** * The wire contract

    [src/crates/protocol/src/lib.rs]: frames of a four-byte length and that many bytes of
    JSON, the messages in them and what is checked of their values.  [serde_json] is a
    parameter ([Codec]) with the laws the contract relies on ([CodecLaws]).  Bytes are
    integers below 256, strings are their UTF-8 bytes. *)

From S2P Require Import Prelude.
From stdpp Require Import strings.
#[local] Open Scope Z_scope.

(** The bytes of an ASCII literal. *)
Definition text (s : string) : list Z := (λ a, Z.of_nat (Ascii.nat_of_ascii a)) <$> String.list_ascii_of_string s.
#[global] Arguments text !_%_string_scope.

Definition MAX_FRAME : Z := 256 * 1024.
Definition VERSION : Z := 1.
Definition MAX_URL : Z := 16384.
Definition MAX_PATH : Z := 32768.
Definition MAX_JOBS_PER_PAGE : Z := 512.
Definition MAX_READ : Z := 64 * 1024.

Module ProtocolError.
Inductive t : Type := TooLarge | Malformed | UnsupportedVersion (v : Z) | Invalid.
#[global] Instance t_eq_dec : EqDecision t.
Proof. solve_decision. Defined.
Definition code (e : t) : list Z :=
  match e with
  | TooLarge => text "IPC-TOO-LARGE"
  | Malformed => text "IPC-MALFORMED"
  | UnsupportedVersion _ => text "IPC-VERSION"
  | Invalid => text "IPC-INVALID"
  end.
End ProtocolError.

(** ** Messages *)

Module AddRequest.
Record t : Type := Make {
  url : list Z;
  destination : list Z;
  sensitive : bool;
  expected_sha256 : option (list Z);
  max_bytes : Z;
  allow_http : bool }.
#[global] Instance t_eq_dec : EqDecision t.
Proof. solve_decision. Defined.
End AddRequest.

Module Request.
Inductive t : Type :=
| Add (add : AddRequest.t) | List (after : option Z) | Pause (job : Z) | Resume (job : Z) | Cancel (job : Z) | Shutdown.
#[global] Instance t_eq_dec : EqDecision t.
Proof. solve_decision. Defined.
End Request.

Module JobSummary.
Record t : Type := Make {
  job : Z; state : list Z; reason : option (list Z); durable_bytes : Z; total : option Z }.
#[global] Instance t_eq_dec : EqDecision t.
Proof. solve_decision. Defined.
End JobSummary.

Module Response.
Inductive t : Type :=
| Accepted (job : Z) | Jobs (jobs : list JobSummary.t) (next : option Z) | Done | Failed (code : list Z).
#[global] Instance t_eq_dec : EqDecision t.
Proof. solve_decision. Defined.
End Response.

Definition len (l : list Z) : Z := Z.of_nat (length l).

(** Values a structurally valid message may still not carry. *)
Class Checked (B : Type) : Type := check : B → result ProtocolError.t unit.
Definition lower_hex (b : Z) : bool := bool_decide (48 ≤ b ≤ 57) || bool_decide (97 ≤ b ≤ 102).
#[global] Instance checked_request : Checked Request.t := λ r,
  match r with
  | Request.Add add =>
      _ ← refuse_if (bool_decide (AddRequest.url add = []) || bool_decide (MAX_URL < len (AddRequest.url add))
          || bool_decide (AddRequest.destination add = []) || bool_decide (MAX_PATH < len (AddRequest.destination add))
          || bool_decide (AddRequest.max_bytes add = 0)) ProtocolError.Invalid;
      refuse_if (is_some_and (λ hex, bool_decide (len hex ≠ 64) || negb (forallb lower_hex hex))
        (AddRequest.expected_sha256 add)) ProtocolError.Invalid
  | Request.Pause job | Request.Resume job | Request.Cancel job => refuse_if (bool_decide (job = 0)) ProtocolError.Invalid
  | Request.List after => refuse_if (bool_decide (after = Some 0)) ProtocolError.Invalid
  | Request.Shutdown => Ok tt
  end.
#[global] Instance checked_response : Checked Response.t := λ r,
  match r with
  | Response.Accepted job => refuse_if (bool_decide (job = 0)) ProtocolError.Invalid
  | Response.Jobs jobs _ =>
      refuse_if (bool_decide (MAX_JOBS_PER_PAGE < Z.of_nat (length jobs))
        || existsb (λ j, bool_decide (JobSummary.job j = 0)) jobs) ProtocolError.Invalid
  | Response.Failed code => refuse_if (bool_decide (code = []) || bool_decide (64 < len code)) ProtocolError.Invalid
  | Response.Done => Ok tt
  end.

Module Envelope.
Record t (B : Type) : Type := Make { v : Z; id : Z; body : B }.
Arguments Make {B}.
Arguments v {B}.
Arguments id {B}.
Arguments body {B}.
End Envelope.

(** ** JSON *)

(** [serde_json::to_vec] and [from_slice] at a message type; the version alone. *)
Class Codec (B : Type) : Type := {
  to_vec : Envelope.t B → option (list Z);
  from_slice : list Z → option (Envelope.t B) }.
Class VersionReader : Type := version_only : list Z → option Z.
(** What is written reads back, whole or for its version; JSON text is never empty. *)
Class CodecLaws (B : Type) `{Codec B, VersionReader} : Prop := {
  from_to e json : to_vec e = Some json → from_slice json = Some e;
  version_to e json : to_vec e = Some json → version_only json = Some (Envelope.v e);
  to_nonempty e json : to_vec e = Some json → json ≠ [] }.

(** [u32::to_be_bytes] and back. *)
Definition be32 (n : Z) : list Z := [n / 16777216 mod 256; n / 65536 mod 256; n / 256 mod 256; n mod 256].
Definition from_be32 (a b c d : Z) : Z := a * 16777216 + b * 65536 + c * 256 + d.

Section Messages.
Context {B : Type} `{Codec B, VersionReader, Checked B}.

Definition encode (id : Z) (body : B) : result ProtocolError.t (list Z) :=
  _ ← check body;
  json ← ok_or (to_vec (Envelope.Make VERSION id body)) ProtocolError.Malformed;
  _ ← refuse_if (bool_decide (MAX_FRAME < len json)) ProtocolError.TooLarge;
  _ ← refuse_if (bool_decide (u32_max < len json)) ProtocolError.TooLarge;
  Ok (be32 (len json) ++ json).
Definition decode (frame : list Z) : result ProtocolError.t (Z * B) :=
  _ ← refuse_if (bool_decide (MAX_FRAME < len frame)) ProtocolError.TooLarge;
  version ← ok_or (version_only frame) ProtocolError.Malformed;
  _ ← refuse_if (bool_decide (version ≠ VERSION)) (ProtocolError.UnsupportedVersion version);
  envelope ← ok_or (from_slice frame) ProtocolError.Malformed;
  _ ← check (Envelope.body envelope);
  Ok (Envelope.id envelope, Envelope.body envelope).
End Messages.
Definition encode_request `{Codec Request.t} (id : Z) (request : Request.t) : result ProtocolError.t (list Z) :=
  encode id request.
Definition decode_request `{Codec Request.t, VersionReader} (frame : list Z) : result ProtocolError.t (Z * Request.t) :=
  decode frame.
Definition encode_response `{Codec Response.t} (id : Z) (response : Response.t) : result ProtocolError.t (list Z) :=
  encode id response.
Definition decode_response `{Codec Response.t, VersionReader} (frame : list Z) : result ProtocolError.t (Z * Response.t) :=
  decode frame.

(** ** Reassembly *)

Module Frames.
Record t : Type := Make { buffer : list Z }.
Definition new : t := Make [].

Definition declared (f : t) : result ProtocolError.t (option Z) :=
  match buffer f with
  | a :: b :: c :: d :: _ =>
      let length := from_be32 a b c d in
      if decide (length = 0) then Err ProtocolError.Malformed
      else if decide (MAX_FRAME < length) then Err ProtocolError.TooLarge
      else Ok (Some length)
  | _ => Ok None
  end.
Definition push (bytes : list Z) : st t ProtocolError.t unit :=
  f ← gets (λ f, f);
  _ ← lift (refuse_if (bool_decide (4 + MAX_FRAME + MAX_READ < saturating_add usize_max (len (buffer f)) (len bytes)))
       ProtocolError.TooLarge);
  _ ← modify (λ f, Make (buffer f ++ bytes));
  f ← gets (λ f, f);
  _ ← lift (declared f);
  mret tt.
Definition next_frame : st t ProtocolError.t (option (list Z)) :=
  f ← gets (λ f, f);
  length ← lift (declared f);
  match length with
  | None => mret None
  | Some length =>
      if decide (len (buffer f) < 4 + length) then mret None else
      _ ← modify (λ f, Make (drop (Z.to_nat (4 + length)) (buffer f)));
      mret (Some (take (Z.to_nat length) (drop 4 (buffer f))))
  end.
End Frames.
