(* ===== verification/ProtocolThm.v ===== *)
(** * Theorems on the wire contract *)

From S2P Require Import Prelude.
From S2P Require Import Protocol.

Lemma len_app l k : len (l ++ k) = len l + len k.
Proof. unfold len. rewrite length_app. lia. Qed.
Lemma len_nonneg l : 0 ≤ len l.
Proof. unfold len. lia. Qed.
Lemma from_to_be32 n : 0 ≤ n ≤ u32_max →
  from_be32 (n / 16777216 mod 256) (n / 65536 mod 256) (n / 256 mod 256) (n mod 256) = n.
Proof. unfold from_be32, u32_max. intros. Z.to_euclidean_division_equations. lia. Qed.

(** ** Frames *)

Definition framed (json : list Z) : list Z := be32 (len json) ++ json.
#[global] Arguments framed : simpl never.
#[global] Arguments len : simpl never.
Definition whole (json : list Z) : Prop := 1 ≤ len json ≤ MAX_FRAME.
(** The bytes of a sequence of messages. *)
Definition wire (jsons : list (list Z)) : list Z := concat (framed <$> jsons).
Lemma len_framed json : len (framed json) = 4 + len json.
Proof. unfold framed. rewrite len_app. unfold be32, len. cbn. lia. Qed.
Lemma wire_app l k : wire (l ++ k) = wire l ++ wire k.
Proof. unfold wire. by rewrite fmap_app, concat_app. Qed.

(** What is announced is what the first message says, as soon as its header is there. *)
Lemma declared_prefix b json rest : whole json → b `prefix_of` framed json ++ rest →
  Frames.declared (Frames.Make b) = Ok (if decide (len b < 4) then None else Some (len json)).
Proof.
  intros [Hlo Hhi] [k Hk]. unfold Frames.declared. cbn. unfold framed, be32 in Hk. cbn in Hk.
  assert (0 ≤ len json ≤ u32_max) as Hb by (unfold MAX_FRAME, u32_max in *; lia).
  destruct b as [|a [|b1 [|c [|d b]]]]; try (by rewrite decide_True by (unfold len; cbn; lia)).
  cbn in Hk. injection Hk as <- <- <- <- _. rewrite from_to_be32 by done.
  rewrite (decide_False (P := len _ < 4)) by (unfold len; cbn; lia). rewrite decide_False by lia. by rewrite decide_False by lia.
Qed.
Lemma next_frame_Ok b json rest : whole json → b `prefix_of` framed json ++ rest →
  (len b < len (framed json) ∧ Frames.next_frame (Frames.Make b) = (Ok None, Frames.Make b)) ∨
  (∃ b', b = framed json ++ b' ∧ b' `prefix_of` rest ∧
    Frames.next_frame (Frames.Make b) = (Ok (Some json), Frames.Make b')).
Proof.
  intros Hw Hp. pose proof (declared_prefix b json rest Hw Hp) as Hd. pose proof (len_framed json) as Hl.
  unfold Frames.next_frame, mbind, st_bind, gets, lift. cbn. rewrite Hd. destruct Hw as [Hw1 Hw2].
  case_decide as H4; [left; by split; [lia|]|]. case_decide as Hs; [left; by split; [lia|]|]. right.
  assert (b = framed json ++ drop (length (framed json)) b) as Hb.
  { destruct Hp as [k Hk]. rewrite <-(take_drop (length (framed json)) b) at 1. f_equal.
    apply (f_equal (take (length (framed json)))) in Hk. rewrite take_app_length in Hk.
    rewrite take_app_le in Hk by (unfold len in *; lia). done. }
  exists (drop (length (framed json)) b). split; [done|]. split.
  { rewrite Hb in Hp. by apply prefix_app_inv in Hp. }
  cbn. assert (Z.to_nat (4 + len json) = length (framed json)) as -> by (unfold len in *; lia).
  assert (take (Z.to_nat (len json)) (drop 4 b) = json) as ->; [|done].
  rewrite Hb. unfold framed, be32. cbn. unfold len. rewrite Nat2Z.id, drop_0.
  by rewrite take_app_length.
Qed.
Lemma next_frame_nil : Frames.next_frame (Frames.Make []) = (Ok None, Frames.Make []).
Proof. done. Qed.

(** A frame is never withheld once it is whole. *)
Definition incomplete (b : list Z) (rest : list (list Z)) : Prop :=
  b `prefix_of` wire rest ∧ match rest with [] => b = [] | json :: _ => len b < len (framed json) end.
Lemma incomplete_small b rest : Forall whole rest → incomplete b rest → len b < 4 + MAX_FRAME.
Proof.
  intros Hw [_ Hb]. destruct Hw as [|json rest [_ Hj] _]; [subst; unfold len; cbn; unfold MAX_FRAME; lia|].
  rewrite len_framed in Hb. lia.
Qed.

(** A receiver: every read is added, then every whole frame taken. *)
Fixpoint drain (fuel : nat) : st Frames.t ProtocolError.t (list (list Z)) :=
  match fuel with
  | O => mret []
  | S fuel =>
      frame ← Frames.next_frame;
      match frame with
      | None => mret []
      | Some frame => frames ← drain fuel; mret (frame :: frames)
      end
  end.
Fixpoint receive (reads : list (list Z)) : st Frames.t ProtocolError.t (list (list Z)) :=
  match reads with
  | [] => mret []
  | bytes :: reads =>
      _ ← Frames.push bytes;
      f ← gets (λ f, f);
      frames ← drain (S (length (Frames.buffer f)));
      rest ← receive reads;
      mret (frames ++ rest)
  end.

Lemma drain_Ok jsons : Forall whole jsons → ∀ fuel b, (length b < fuel)%nat → b `prefix_of` wire jsons → ∃ done rest b',
  jsons = done ++ rest ∧ drain fuel (Frames.Make b) = (Ok done, Frames.Make b') ∧ b = wire done ++ b' ∧ incomplete b' rest.
Proof.
  induction 1 as [|json jsons Hw Hjs IH]; intros fuel b Hf Hp.
  - apply prefix_nil_inv in Hp as ->. exists [], [], []. destruct fuel; [lia|]. split_and!; try done.
  - destruct (next_frame_Ok b json (wire jsons) Hw Hp) as [[Hs Hn]|(b1&->&Hp1&Hn)].
    + exists [], (json :: jsons), b. destruct fuel as [|fuel]; [lia|]. cbn [drain]. unfold mbind, st_bind. rewrite Hn. by split_and!.
    + rewrite length_app in Hf. assert (0 < length (framed json))%nat by (pose proof (len_framed json); destruct Hw; unfold len in *; lia).
      destruct fuel as [|fuel]; [lia|]. destruct (IH fuel b1 ltac:(lia) Hp1) as (dn&rest&b'&->&Hd&->&Hi).
      exists (json :: dn), rest, b'. split; [done|]. cbn [drain]. unfold mbind, st_bind. rewrite Hn, Hd. split_and!; [done| |done].
      unfold wire. cbn. by rewrite <-app_assoc.
Qed.
Lemma push_Ok b bytes jsons : Forall whole jsons → len b < 4 + MAX_FRAME → len bytes ≤ MAX_READ → b ++ bytes `prefix_of` wire jsons →
  Frames.push bytes (Frames.Make b) = (Ok tt, Frames.Make (b ++ bytes)).
Proof.
  intros Hw Hb Hr Hp. unfold Frames.push, mbind, st_bind, gets, lift, modify, refuse_if. cbn.
  rewrite bool_decide_eq_false_2 by (unfold saturating_add; lia). cbn.
  destruct Hw as [|json jsons Hw _]; [by apply prefix_nil_inv in Hp as ->|].
  by rewrite (declared_prefix _ json (wire jsons)).
Qed.
Lemma receive_Ok reads : ∀ b jsons, Forall whole jsons → incomplete b jsons → Forall (λ r, len r ≤ MAX_READ) reads →
  b ++ concat reads `prefix_of` wire jsons → ∃ done rest b',
  jsons = done ++ rest ∧ receive reads (Frames.Make b) = (Ok done, Frames.Make b') ∧
  b ++ concat reads = wire done ++ b' ∧ incomplete b' rest.
Proof.
  induction reads as [|bytes reads IH]; intros b jsons Hw Hi Hr Hp.
  - exists [], jsons, b. rewrite app_nil_r. by split_and!.
  - apply Forall_cons in Hr as [Hb Hr]. cbn [concat] in Hp. rewrite app_assoc in Hp.
    assert (b ++ bytes `prefix_of` wire jsons) as Hp1 by (etrans; [|exact Hp]; by apply prefix_app_r).
    destruct (drain_Ok jsons Hw (S (length (b ++ bytes))) (b ++ bytes) ltac:(lia) Hp1) as (dn&rest&b1&->&Hd&Hbb&Hi1).
    apply Forall_app in Hw as [Hw1 Hw2]. rewrite Hbb, <-app_assoc, wire_app in Hp. apply prefix_app_inv in Hp.
    destruct (IH b1 rest Hw2 Hi1 Hr Hp) as (dn2&rest2&b2&->&Hrec&Hbb2&Hi2).
    exists (dn ++ dn2), rest2, b2. split; [by rewrite app_assoc|]. split.
    + cbn [receive]. unfold mbind, st_bind, gets. rewrite (push_Ok b bytes (dn ++ dn2 ++ rest2));
        [|by apply Forall_app|eapply incomplete_small; [|exact Hi]; by apply Forall_app|done|done]. cbn -[drain]. rewrite Hd, Hrec. done.
    + split; [|done]. cbn [concat]. rewrite app_assoc, Hbb, <-app_assoc, Hbb2, wire_app. by rewrite app_assoc.
Qed.

Lemma frames_split jsons reads :
  Forall whole jsons → Forall (λ r, len r ≤ MAX_READ) reads → concat reads `prefix_of` wire jsons →
  ∃ done rest b, jsons = done ++ rest ∧ receive reads Frames.new = (Ok done, Frames.Make b) ∧
    concat reads = wire done ++ b ∧ incomplete b rest ∧ (concat reads = wire jsons → done = jsons ∧ b = []).
Proof.
  intros Hw Hr Hp. destruct (receive_Ok reads [] jsons Hw) as (dn&rest&b&->&Hrec&Hc&Hi); [|done|done|].
  { split; [apply prefix_nil|]. destruct Hw as [|json ? []]; [done|]. rewrite len_framed. unfold len at 1. cbn. lia. }
  exists dn, rest, b. split_and!; try done. intros He. cbn in Hc. rewrite He, wire_app in Hc. apply app_inv_head in Hc.
  destruct rest as [|json rest]; [by rewrite app_nil_r|]. destruct Hi as [_ Hi]. rewrite <-Hc in Hi. unfold wire in Hi. cbn in Hi.
  rewrite len_app in Hi. pose proof (len_nonneg (concat (framed <$> rest))). lia.
Qed.

(** However a stream of legal frames is split and joined on its way - reads of any size up to 64 KiB - the receiver gets exactly its messages in order: after any part of the stream it has every message that is whole, holds less than one frame of the next, and has refused nothing *)
Theorem frames_are_reassembled jsons reads :
  Forall whole jsons → Forall (λ r, len r ≤ MAX_READ) reads → concat reads `prefix_of` wire jsons →
  ∃ done rest b, jsons = done ++ rest ∧ receive reads Frames.new = (Ok done, Frames.Make b) ∧
    concat reads = wire done ++ b ∧ incomplete b rest ∧ (concat reads = wire jsons → done = jsons ∧ b = []).
Proof. apply frames_split. Qed.

(** ** Hostile peers *)

(** What holds of the reassembly whatever was pushed into it. *)
Record within_bounds (f : Frames.t) : Prop := {
  bd_len : len (Frames.buffer f) ≤ 4 + MAX_FRAME + MAX_READ;
  bd_bytes : Forall (λ x, 0 ≤ x < 256) (Frames.buffer f) }.
Lemma within_bounds_new : within_bounds Frames.new.
Proof. split; [by vm_compute|done]. Qed.

(** Whatever bytes a peer sends in whatever pieces, the reassembly holds at most a frame and a read, before anything is allocated for a length announced, and what it gives back as a frame has between one and the allowed number of bytes *)
Theorem reassembly_is_bounded f bytes :
  within_bounds f → Forall (λ x, 0 ≤ x < 256) bytes → len bytes ≤ usize_max →
  within_bounds (Frames.push bytes f).2 ∧ within_bounds (Frames.next_frame f).2 ∧
  ∀ frame, (Frames.next_frame f).1 = Ok (Some frame) → whole frame.
Proof.
  intros [Hf Hfb] Hbb Hb. split_and!.
  - unfold Frames.push, mbind, st_bind, gets, lift, modify, refuse_if. cbn. case_bool_decide as Hs; cbn; [done|].
    assert (within_bounds (Frames.Make (Frames.buffer f ++ bytes))) as Hbd.
    { split; cbn; [|by apply Forall_app]. rewrite len_app. unfold MAX_FRAME, MAX_READ in *.
      unfold saturating_add, usize_max, u64_max in *. lia. }
    by destruct (Frames.declared _).
  - unfold Frames.next_frame, mbind, st_bind, gets, lift, modify, mret, st_ret. cbn. destruct (Frames.declared f) as [[n|]|e]; cbn; [|done..].
    case_decide; cbn; [done|]. split; cbn; [|by apply Forall_drop]. unfold len in *. rewrite length_drop. lia.
  - intros frame. unfold Frames.next_frame, mbind, st_bind, gets, lift, modify, mret, st_ret. cbn.
    destruct (Frames.declared f) as [[n|]|e] eqn:Hd; cbn; [|done..]. case_decide as Hs; cbn; [done|]. intros [= <-].
    unfold Frames.declared in Hd. destruct (Frames.buffer f) as [|a [|b1 [|c [|d b]]]] eqn:Hbuf; try done.
    case_decide as Hz; [done|]. case_decide as Hm; [done|]. injection Hd as Hd.
    assert (0 ≤ n) by (rewrite !Forall_cons in Hfb; destruct_and!; unfold from_be32 in *; lia).
    assert (len (a :: b1 :: c :: d :: b) = 4 + len b) as Hl by (unfold len; cbn [length]; lia).
    cbn [drop]. unfold whole, len in *. rewrite drop_0, length_take. lia.
Qed.

(** ** Messages *)

Section Codec.
Context {B : Type} `{CodecLaws B, !Checked B}.

Lemma encode_Ok id (body : B) bytes : encode id body = Ok bytes → ∃ json,
  bytes = framed json ∧ whole json ∧ check body = Ok tt ∧ to_vec (Envelope.Make VERSION id body) = Some json.
Proof.
  unfold encode, mbind, result_bind, ok_or, refuse_if. destruct (check body) as [[]|] eqn:Hc; [|done].
  destruct (to_vec _) as [json|] eqn:Hj; [|done]. case_bool_decide as Hm; [done|]. case_bool_decide; [done|]. intros [= <-].
  exists json. split_and!; try done. split; [|lia]. pose proof (to_nonempty _ _ Hj). destruct json; [done|]. unfold len. cbn. lia.
Qed.
Lemma decode_json id (body : B) json : whole json → check body = Ok tt →
  to_vec (Envelope.Make VERSION id body) = Some json → decode json = Ok (id, body).
Proof.
  intros [_ Hw] Hc Hj. unfold decode. rewrite (version_to _ _ Hj), (from_to _ _ Hj). cbn. unfold refuse_if.
  rewrite (bool_decide_eq_false_2 (_ < _)) by lia. cbn [mbind result_bind ok_or Envelope.v].
  rewrite bool_decide_eq_false_2 by (by intros []). cbn. by rewrite Hc.
Qed.

(** C34: what one side encodes, the other decodes: the frames of any messages that encode, sent one after the other and split and joined in any way, come out as the same messages with the same identifiers, in order, and never as anything else *)
Theorem messages_arrive (messages : list (Z * B)) frames reads :
  Forall2 (λ m bytes, encode m.1 m.2 = Ok bytes) messages frames →
  Forall (λ r, len r ≤ MAX_READ) reads → concat reads = concat frames →
  ∃ jsons, receive reads Frames.new = (Ok jsons, Frames.new) ∧
    Forall2 (λ m json, decode json = Ok m) messages jsons.
Proof.
  intros Hm Hr Hc. assert (∃ jsons, Forall whole jsons ∧ concat frames = wire jsons ∧
    Forall2 (λ m json, decode json = Ok m) messages jsons) as (jsons&Hw&Hf&Hd).
  { clear Hr Hc. induction Hm as [|[id body] bytes ms fs He Hm IH]; [by exists []|].
    destruct IH as (jsons&Hw&Hf&Hd). destruct (encode_Ok _ _ _ He) as (json&->&Hj&Hck&Hv).
    exists (json :: jsons). split; [by constructor|]. split; [by cbn; rewrite Hf|]. constructor; [|done].
    by apply decode_json. }
  exists jsons. split; [|done].
  destruct (frames_split jsons reads Hw Hr) as (dn&rest&b&He&Hrec&_&_&Hall); [by rewrite Hc, Hf|].
  destruct Hall as [-> ->]; [by rewrite Hc, Hf|]. done.
Qed.
End Codec.

(** ** What is refused, and how *)

(** Every refusal has an answer that can be sent. *)
Lemma codes_can_be_sent e : check (Response.Failed (ProtocolError.code e)) = Ok tt.
Proof. by destruct e. Qed.
