(* ===== verification/Ipc.v ===== *)
(** * The local control surface

    [src/crates/adapters/ipc/src/lib.rs]: how one client is served, how the command line
    asks, how many clients there are at once.  The stream is a script: what each read
    brings and after how long, what becomes of each write.  The handler is a parameter; its
    state is threaded through.  Sockets, pipes and who may reach them are not modelled.
    Times are milliseconds. *)

From S2P Require Import Prelude.
From S2P Require Import Protocol.
From stdpp Require Import strings.
#[local] Open Scope Z_scope.

Definition FIRST_REQUEST : Z := 5000.
Definition IDLE : Z := 120000.
Definition WRITE : Z := 30000.
Definition HANDLE : Z := 20000.
Definition ANSWER : Z := 60000.
Definition MAX_CLIENTS : Z := 32.
(** The buffer a read fills. *)
Definition READ : Z := 16 * 1024.

Module IoKind.
Inductive t : Type := TimedOut | UnexpectedEof | Other.
End IoKind.
Module IpcError.
Inductive t : Type := Taken | Untrusted | Protocol (e : ProtocolError.t) | Io (kind : IoKind.t).
Definition code (e : t) : list Z :=
  match e with
  | Taken => text "IPC-ENDPOINT-TAKEN"
  | Untrusted => text "IPC-ENDPOINT-UNTRUSTED"
  | Protocol e => ProtocolError.code e
  | Io _ => text "IPC-IO"
  end.
End IpcError.

(** [Endpoint::usable] on Linux. *)
Definition usable (endpoint : list Z) : result IpcError.t unit :=
  refuse_if (bool_decide (108 ≤ len endpoint)) IpcError.Untrusted.

(** ** The stream *)

(** A read that completes after some time: with bytes, none at the end, or with an error. *)
Module ReadEvent.
Record t : Type := Make { after : Z; bytes : option (list Z) }.
End ReadEvent.
(** A write that completes after some time; one that fails, or takes too long, has written
    a part. *)
Module WriteEvent.
Record t : Type := Make { after : Z; failed : bool; part : nat }.
Definition done : t := Make 0 false 0.
End WriteEvent.

(** Why a connection is over. *)
Module Gone.
Inductive t : Type := Expired | TimedOut | Eof | ReadFailed | Refused | Unanswerable | WriteTimedOut.
#[global] Instance t_eq_dec : EqDecision t.
Proof. solve_decision. Defined.
End Gone.

(** What the handler makes of a request: its answer, when, and its state afterwards -
    also when it was given up on. *)
Module Reply.
Record t (H : Type) : Type := Make { took : Z; response : Response.t; state : H }.
Arguments Make {H}.
Arguments took {H}.
Arguments response {H}.
Arguments state {H}.
End Reply.

Module Conn.
Record t (H : Type) : Type := Make {
  frames : Frames.t;
  clock : Z;
  asked : bool;
  out : list Z;
  writes : list WriteEvent.t;
  handler : H }.
Arguments Make {H}.
Arguments frames {H}.
Arguments clock {H}.
Arguments asked {H}.
Arguments out {H}.
Arguments writes {H}.
Arguments handler {H}.
Section Setters.
Context {H : Type}.
Definition set_frames v (c : t H) := Make v (clock c) (asked c) (out c) (writes c) (handler c).
Definition set_asked v (c : t H) := Make (frames c) (clock c) v (out c) (writes c) (handler c).
Definition pass d (c : t H) := Make (frames c) (clock c + d) (asked c) (out c) (writes c) (handler c).
Definition set_handler (v : H) (c : t H) := Make (frames c) (clock c) (asked c) (out c) (writes c) v.
Definition put bytes ws (c : t H) := Make (frames c) (clock c) (asked c) (out c ++ bytes) ws (handler c).
End Setters.
Definition start {H} (writes : list WriteEvent.t) (h : H) : t H := Make Frames.new 0 false [] writes h.
End Conn.

Section Client.
Context {H : Type} (handle : Request.t → H → Reply.t H).
Context `{Codec Request.t, Codec Response.t, VersionReader}.

Definition conn_st (A : Type) : Type := st (Conn.t H) Gone.t A.
(** A step of the reassembly; a refusal ends the connection. *)
Definition on_frames {A} (m : st Frames.t ProtocolError.t A) : conn_st A := λ c,
  let '(r, f) := m (Conn.frames c) in (map_err (λ _, Gone.Refused) r, Conn.set_frames f c).

(** [timeout(patience, stream.read(..))]. *)
Definition read_stream (patience : Z) (e : ReadEvent.t) : conn_st (list Z) :=
  if decide (patience < ReadEvent.after e) then
    _ ← modify (Conn.pass patience); throw Gone.TimedOut
  else
    _ ← modify (Conn.pass (ReadEvent.after e));
    match ReadEvent.bytes e with
    | None => throw Gone.ReadFailed
    | Some [] => throw Gone.Eof
    | Some bytes => mret bytes
    end.
(** [timeout(WRITE, stream.write_all(..))]: only the time-out ends the connection. *)
Definition write_stream (bytes : list Z) : conn_st unit := λ c,
  let e := default WriteEvent.done (head (Conn.writes c)) in
  let ws := tail (Conn.writes c) in
  if decide (WRITE < WriteEvent.after e) then
    (Err Gone.WriteTimedOut, Conn.pass WRITE (Conn.put (take (WriteEvent.part e) bytes) ws c))
  else
    (Ok tt, Conn.pass (WriteEvent.after e)
      (Conn.put (if WriteEvent.failed e then take (WriteEvent.part e) bytes else bytes) ws c)).

(** [timeout(HANDLE, handler.handle(request))]. *)
Definition ask_handler (request : Request.t) : conn_st Response.t := λ c,
  let r := handle request (Conn.handler c) in
  (Ok (if decide (Reply.took r ≤ HANDLE) then Reply.response r else Response.Failed (text "ENGINE-BUSY")),
   Conn.pass (Z.min (Reply.took r) HANDLE) (Conn.set_handler (Reply.state r) c)).
Definition answer_of (frame : list Z) : conn_st (Z * Response.t) :=
  match decode_request frame with
  | Ok (id, request) => response ← ask_handler request; mret (id, response)
  | Err error => mret (0, Response.Failed (ProtocolError.code error))
  end.
Definition answer_bytes (id : Z) (response : Response.t) : result Gone.t (list Z) :=
  match encode_response id response with
  | Ok bytes => Ok bytes
  | Err _ => map_err (λ _, Gone.Unanswerable) (encode_response id (Response.Failed (text "IPC-INTERNAL")))
  end.

Fixpoint answer_frames (fuel : nat) : conn_st unit :=
  match fuel with
  | O => mret tt
  | S fuel =>
      frame ← on_frames Frames.next_frame;
      match frame with
      | None => mret tt
      | Some frame =>
          _ ← modify (Conn.set_asked true);
          a ← answer_of frame;
          bytes ← lift (answer_bytes a.1 a.2);
          _ ← write_stream bytes;
          answer_frames fuel
      end
  end.
Definition patience (c : Conn.t H) : option Z :=
  if Conn.asked c then Some IDLE else checked_sub FIRST_REQUEST (Conn.clock c).
(** One turn of the loop; every frame takes a byte at least. *)
Definition serve_read (e : ReadEvent.t) : conn_st unit :=
  p ← gets patience;
  p ← lift (ok_or p Gone.Expired);
  bytes ← read_stream p e;
  _ ← on_frames (Frames.push bytes);
  c ← gets (λ c, c);
  answer_frames (S (length (Frames.buffer (Conn.frames c)))).
(** After its last event the peer is silent. *)
Fixpoint serve_client (reads : list ReadEvent.t) : conn_st unit :=
  match reads with
  | [] =>
      p ← gets patience;
      p ← lift (ok_or p Gone.Expired);
      _ ← modify (Conn.pass p);
      throw Gone.TimedOut
  | e :: reads => _ ← serve_read e; serve_client reads
  end.

(** ** Asking *)

(** What [ask] sends, before it waits. *)
Definition ask_send (id : Z) (request : Request.t) (e : WriteEvent.t) : result IpcError.t (list Z) :=
  bytes ← map_err IpcError.Protocol (encode_request id request);
  _ ← refuse_if (bool_decide (WRITE < WriteEvent.after e)) (IpcError.Io IoKind.TimedOut);
  _ ← refuse_if (WriteEvent.failed e) (IpcError.Io IoKind.Other);
  Ok bytes.
Fixpoint ask_wait (id : Z) (f : Frames.t) (now : Z) (reads : list ReadEvent.t) : result IpcError.t Response.t :=
  left ← ok_or (checked_sub ANSWER now) (IpcError.Io IoKind.TimedOut);
  match reads with
  | [] => Err (IpcError.Io IoKind.TimedOut)
  | e :: reads =>
      _ ← refuse_if (bool_decide (left < ReadEvent.after e)) (IpcError.Io IoKind.TimedOut);
      read ← ok_or (ReadEvent.bytes e) (IpcError.Io IoKind.Other);
      _ ← refuse_if (bool_decide (read = [])) (IpcError.Io IoKind.UnexpectedEof);
      let '(pushed, f) := Frames.push read f in
      _ ← map_err IpcError.Protocol pushed;
      let '(frame, f) := Frames.next_frame f in
      frame ← map_err IpcError.Protocol frame;
      match frame with
      | None => ask_wait id f (now + ReadEvent.after e) reads
      | Some frame =>
          a ← map_err IpcError.Protocol (decode_response frame);
          if decide (a.1 ≠ id) then Err (IpcError.Protocol ProtocolError.Malformed) else Ok a.2
      end
  end.
Definition ask (id : Z) (request : Request.t) (e : WriteEvent.t) (reads : list ReadEvent.t) : result IpcError.t Response.t :=
  _ ← ask_send id request e;
  ask_wait id Frames.new 0 reads.
End Client.

(** ** The clients *)

(** What the accept loop waits for, and which clients ended meanwhile. *)
Module ServerEvent.
Inductive t : Type := Stop | Joined (client : Z) | Accepted (client : Z) | AcceptFailed.
End ServerEvent.
Definition serve_turn (ended : list Z) (e : ServerEvent.t) (clients : list Z) : bool * list Z :=
  let clients := filter (λ c, c ∉ ended) clients in
  match e with
  | ServerEvent.Stop => (false, [])
  | ServerEvent.Joined c =>
      if decide (MAX_CLIENTS ≤ Z.of_nat (length clients)) then (true, filter (λ d, d ≠ c) clients) else (true, clients)
  | ServerEvent.Accepted c =>
      if decide (MAX_CLIENTS ≤ Z.of_nat (length clients)) then (true, clients) else (true, clients ++ [c])
  | ServerEvent.AcceptFailed => (true, clients)
  end.
Fixpoint serve_all (script : list (list Z * ServerEvent.t)) (clients : list Z) : list Z :=
  match script with
  | [] => clients
  | (ended, e) :: script => let '(on, clients) := serve_turn ended e clients in if on : bool then serve_all script clients else clients
  end.
