(* ===== verification/IpcThm.v ===== *)
(** * Theorems on the local control surface *)

From S2P Require Import Prelude.
From S2P Require Import Protocol.
From S2P Require Import ProtocolThm.
From S2P Require Import Ipc.
From stdpp Require Import strings.
#[local] Open Scope Z_scope.

Section Serving.
Context {H : Type} (handle : Request.t → H → Reply.t H).
Context `{Codec Request.t, Codec Response.t, VersionReader, !CodecLaws Request.t, !CodecLaws Response.t}.
Implicit Types (c : Conn.t H) (h : H).

(** ** What is answered *)

(** The answer to a frame, and the handler afterwards. *)
Definition answer (json : list Z) h : (Z * Response.t) * H :=
  match decode_request json with
  | Ok (id, request) =>
      let r := handle request h in
      ((id, if decide (Reply.took r ≤ HANDLE) then Reply.response r else Response.Failed (text "ENGINE-BUSY")), Reply.state r)
  | Err error => ((0, Response.Failed (ProtocolError.code error)), h)
  end.
Definition reply_bytes (a : Z * Response.t) : list Z := default [] (ok (answer_bytes a.1 a.2)).
(** The bytes of the answers to some frames, one each. *)
Fixpoint replies (jsons : list (list Z)) h : list Z * H :=
  match jsons with
  | [] => ([], h)
  | json :: jsons => let a := answer json h in let rest := replies jsons a.2 in (reply_bytes a.1 ++ rest.1, rest.2)
  end.

(** The last resort can be encoded. *)
Definition answerable : Prop := ∀ id, is_ok (encode_response id (Response.Failed (text "IPC-INTERNAL"))) = true.
Definition healthy (ws : list WriteEvent.t) : Prop := Forall (λ e, WriteEvent.after e ≤ WRITE ∧ WriteEvent.failed e = false) ws.
Definition buffer c : list Z := Frames.buffer (Conn.frames c).

Lemma answer_bytes_Ok a : answerable → answer_bytes a.1 a.2 = Ok (reply_bytes a).
Proof.
  intros Ha. unfold reply_bytes, answer_bytes. destruct (encode_response a.1 a.2) as [b|e]; [done|].
  specialize (Ha a.1). by destruct (encode_response a.1 (Response.Failed _)).
Qed.
Lemma answer_of_run json c : ∃ d, answer_of handle json c =
  (Ok (answer json (Conn.handler c)).1, Conn.pass d (Conn.set_handler (answer json (Conn.handler c)).2 c)).
Proof.
  unfold answer_of, answer. destruct (decode_request json) as [[id request]|e].
  - eexists. unfold mbind, st_bind, ask_handler. cbn. done.
  - exists 0. unfold mret, st_ret, Conn.pass, Conn.set_handler. cbn. rewrite Z.add_0_r. by destruct c.
Qed.
Lemma write_stream_run bytes c : healthy (Conn.writes c) → ∃ d ws, healthy ws ∧
  write_stream bytes c = (Ok tt, Conn.pass d (Conn.put bytes ws c)).
Proof.
  intros Hw. unfold write_stream. destruct (Conn.writes c) as [|e ws] eqn:E; cbn.
  - exists 0, []. by rewrite decide_False by (by vm_compute).
  - apply Forall_cons in Hw as [[Ha Hf] Hw]. rewrite decide_False by lia. rewrite Hf. by exists (WriteEvent.after e), ws.
Qed.

(** What a stretch of a connection does. *)
Record served c c' (dn : list (list Z)) : Prop := {
  sv_out : Conn.out c' = Conn.out c ++ (replies dn (Conn.handler c)).1;
  sv_handler : Conn.handler c' = (replies dn (Conn.handler c)).2;
  sv_asked : Conn.asked c' = Conn.asked c || bool_decide (dn ≠ []);
  sv_clock : dn = [] → Conn.clock c' = Conn.clock c;
  sv_writes : healthy (Conn.writes c') }.

Lemma answer_frames_run jsons : answerable → Forall whole jsons → ∀ fuel c, (length (buffer c) < fuel)%nat →
  buffer c `prefix_of` wire jsons → healthy (Conn.writes c) → ∃ dn rest c',
  jsons = dn ++ rest ∧ answer_frames handle fuel c = (Ok tt, c') ∧ buffer c = wire dn ++ buffer c' ∧
  incomplete (buffer c') rest ∧ served c c' dn.
Proof.
  intros Ha. induction 1 as [|json jsons Hw Hjs IH]; intros fuel c Hf Hp Hh; (destruct fuel as [|fuel]; [lia|]).
  - apply prefix_nil_inv in Hp. exists [], [], c. cbn [answer_frames]. unfold mbind, st_bind, on_frames. unfold buffer in Hp.
    destruct (Conn.frames c) as [b] eqn:E. cbn in Hp. subst b. rewrite next_frame_nil. cbn.
    assert (Conn.set_frames (Frames.Make []) c = c) as -> by (destruct c; cbn in *; by subst).
    unfold buffer. rewrite E. split_and!; try done. split; try done; [by rewrite app_nil_r|by rewrite orb_false_r].
  - unfold buffer in Hp, Hf. destruct (Conn.frames c) as [b] eqn:E. cbn in Hp, Hf.
    destruct (next_frame_Ok b json (wire jsons) Hw Hp) as [[Hs Hn]|(b1&->&Hp1&Hn)].
    + exists [], (json :: jsons), c. cbn [answer_frames]. unfold mbind, st_bind, on_frames. rewrite E, Hn. cbn.
      assert (Conn.set_frames (Frames.Make b) c = c) as -> by (destruct c; cbn in *; by subst).
      unfold buffer. rewrite E. split_and!; try done. split; try done; [by rewrite app_nil_r|by rewrite orb_false_r].
    + rewrite length_app in Hf. assert (0 < length (framed json))%nat by (pose proof (len_framed json); destruct Hw; unfold len in *; lia).
      set (c1 := Conn.set_asked true (Conn.set_frames (Frames.Make b1) c)).
      destruct (answer_of_run json c1) as [d Hd]. set (c2 := Conn.pass d _) in Hd.
      set (a := answer json (Conn.handler c1)) in *.
      destruct (write_stream_run (reply_bytes a.1) c2) as (d3&ws&Hws&Hwr); [done|]. set (c3 := Conn.pass d3 _) in Hwr.
      destruct (IH fuel c3) as (dn&rest&c'&->&Hrun&Hb&Hi&[]); [cbn; lia|done|done|].
      exists (json :: dn), rest, c'. split; [done|]. split.
      { cbn [answer_frames]. unfold mbind, st_bind. unfold on_frames at 1. rewrite E, Hn. cbn [map_err modify]. fold c1. rewrite Hd.
        unfold lift. rewrite answer_bytes_Ok by done. rewrite Hwr. done. }
      assert (buffer c = framed json ++ b1) as -> by (unfold buffer; by rewrite E).
      assert (b1 = wire dn ++ buffer c') as Hb1 by exact Hb.
      split; [rewrite Hb1; unfold wire; cbn; by rewrite app_assoc|]. split; [done|].
      split; cbn in *; try done.
      * rewrite sv_out0. by rewrite app_assoc.
      * by rewrite orb_true_r, sv_asked0.
Qed.

(** ** The whole connection *)

(** Reads that bring something, in time. *)
Definition brings (e : ReadEvent.t) (bytes : list Z) : Prop :=
  ReadEvent.bytes e = Some bytes ∧ 1 ≤ len bytes ≤ READ ∧ 0 ≤ ReadEvent.after e.
Definition total_wait (reads : list ReadEvent.t) : Z := sum_Z (ReadEvent.after <$> reads).

Lemma serve_read_run e bytes c jsons : answerable → Forall whole jsons → brings e bytes → incomplete (buffer c) jsons →
  buffer c ++ bytes `prefix_of` wire jsons → healthy (Conn.writes c) → ReadEvent.after e ≤ FIRST_REQUEST →
  (Conn.asked c = true ∨ 0 ≤ Conn.clock c ∧ Conn.clock c + ReadEvent.after e ≤ FIRST_REQUEST) → ∃ dn rest c',
  jsons = dn ++ rest ∧ serve_read handle e c = (Ok tt, c') ∧ buffer c ++ bytes = wire dn ++ buffer c' ∧
  incomplete (buffer c') rest ∧ Conn.out c' = Conn.out c ++ (replies dn (Conn.handler c)).1 ∧
  Conn.handler c' = (replies dn (Conn.handler c)).2 ∧ healthy (Conn.writes c') ∧
  (Conn.asked c' = true ∨ Conn.asked c = false ∧ Conn.clock c' = Conn.clock c + ReadEvent.after e).
Proof.
  intros Ha Hw (He&[Hlo Hhi]&Hpos) Hi Hp Hh Hfr Ht.
  assert (∃ p, patience c = Some p ∧ ReadEvent.after e ≤ p) as (p&Hpat&Hle).
  { unfold patience. destruct Ht as [->|[Hc Ht]]; [exists IDLE; split; [done|]; unfold IDLE, FIRST_REQUEST in *; lia|].
    destruct (Conn.asked c); [exists IDLE; split; [done|]; unfold IDLE, FIRST_REQUEST in *; lia|].
    unfold checked_sub. rewrite decide_True by lia. eexists. split; [done|]. lia. }
  set (c1 := Conn.set_frames (Frames.Make (buffer c ++ bytes)) (Conn.pass (ReadEvent.after e) c)).
  destruct (answer_frames_run jsons Ha Hw (S (length (buffer c1))) c1) as (dn&rest&c'&->&Hrun&Hb&Hi'&[]); [lia|done|done|].
  exists dn, rest, c'. split; [done|]. split.
  { unfold serve_read, mbind, st_bind, gets, lift. rewrite Hpat. cbn [ok_or]. unfold read_stream.
    rewrite decide_False by lia. unfold mbind, st_bind, modify. rewrite He. destruct bytes as [|x bytes]; [unfold len in Hlo; cbn in Hlo; lia|].
    cbn [mret st_ret]. unfold mret, st_ret. unfold on_frames at 1. cbn [Conn.pass Conn.frames].
    assert (Conn.frames c = Frames.Make (buffer c)) as -> by (unfold buffer; by destruct (Conn.frames c)).
    rewrite (push_Ok _ _ (dn ++ rest)); [exact Hrun|done| |unfold READ, MAX_READ in *; lia|done].
    by eapply incomplete_small. }
  split; [done|]. split; [done|]. split; [done|]. split; [done|]. split; [done|].
  rewrite sv_asked0. cbn. destruct (Conn.asked c); [by left|]. case_bool_decide as Hd; [by left|]. right. split; [done|].
  by rewrite (sv_clock0 Hd).
Qed.
Lemma replies_app l k h : replies (l ++ k) h = ((replies l h).1 ++ (replies k (replies l h).2).1, (replies k (replies l h).2).2).
Proof.
  revert h. induction l as [|json l IH]; intros h; cbn; [by destruct (replies k h)|]. rewrite IH. cbn. by rewrite app_assoc.
Qed.
Lemma serve_client_run reads chunks : Forall2 brings reads chunks → ∀ c jsons, answerable → Forall whole jsons →
  incomplete (buffer c) jsons → buffer c ++ concat chunks = wire jsons → healthy (Conn.writes c) → total_wait reads ≤ FIRST_REQUEST →
  (Conn.asked c = true ∨ 0 ≤ Conn.clock c ∧ Conn.clock c + total_wait reads ≤ FIRST_REQUEST) → ∃ e c',
  serve_client handle reads c = (Err e, c') ∧ Conn.out c' = Conn.out c ++ (replies jsons (Conn.handler c)).1 ∧
  Conn.handler c' = (replies jsons (Conn.handler c)).2.
Proof.
  induction 1 as [|e bytes reads chunks Hb Hbs IH]; intros c jsons Ha Hw Hi Hc Hh Ht0 Ht.
  - cbn in Hc. rewrite app_nil_r in Hc. assert (jsons = []) as ->.
    { destruct jsons as [|json jsons]; [done|]. destruct Hi as [_ Hi]. rewrite Hc in Hi. unfold wire in Hi. cbn in Hi. rewrite len_app in Hi.
      pose proof (len_nonneg (concat (framed <$> jsons))). lia. }
    cbn [serve_client]. unfold mbind, st_bind, gets, lift, ok_or, modify, throw. destruct (patience c) as [p|]; cbn;
      [exists Gone.TimedOut, (Conn.pass p c)|exists Gone.Expired, c]; cbn; by rewrite app_nil_r.
  - assert (0 ≤ total_wait reads) as Hpos.
    { unfold total_wait. apply sum_Z_nonneg. rewrite Forall_fmap. clear -Hbs. induction Hbs as [|? ? ? ? (_&_&?)]; by constructor. }
    unfold total_wait in *. rewrite fmap_cons, sum_Z_cons in *. fold (total_wait reads) in *. destruct Hb as (Hb1&Hb2&Hb3).
    cbn [concat] in Hc. rewrite app_assoc in Hc.
    destruct (serve_read_run e bytes c jsons) as (dn&rest&c1&->&Hrun&Hbuf&Hi1&Ho1&Hh1&Hw1&Ht1); try done.
    { rewrite <-Hc. by apply prefix_app_r. } { lia. } { destruct Ht as [?|[? ?]]; [by left|right; lia]. }
    apply Forall_app in Hw as [_ Hw2].
    assert (buffer c1 ++ concat chunks = wire rest) as Hc1.
    { rewrite Hbuf, <-app_assoc, wire_app in Hc. by apply app_inv_head in Hc. }
    destruct (IH c1 rest Ha Hw2 Hi1 Hc1 Hw1) as (e2&c2&Hrun2&Ho2&Hh2); [lia| |].
    { destruct Ht1 as [?|[? ->]]; [by left|]. destruct Ht as [?|[? ?]]; [congruence|right; lia]. }
    exists e2, c2. split; [|split].
    + cbn [serve_client]. unfold mbind, st_bind. by rewrite Hrun, Hrun2.
    + rewrite Ho2, Ho1, Hh1, replies_app. cbn. by rewrite app_assoc.
    + rewrite Hh2, Hh1, replies_app. done.
Qed.

Lemma frames_are_answered_in_order' reads chunks jsons ws h :
  answerable → Forall whole jsons → Forall2 brings reads chunks → concat chunks = wire jsons →
  healthy ws → total_wait reads ≤ FIRST_REQUEST → ∃ e c',
  serve_client handle reads (Conn.start ws h) = (Err e, c') ∧
  Conn.out c' = (replies jsons h).1 ∧ Conn.handler c' = (replies jsons h).2.
Proof.
  intros Ha Hw Hb Hc Hh Ht. apply (serve_client_run reads chunks Hb (Conn.start ws h) jsons); try done.
  - split; [apply prefix_nil|]. destruct Hw as [|json ? []]; [done|]. rewrite len_framed. unfold buffer, len at 1. cbn. lia.
  - right. cbn. lia.
Qed.

(** C35: a client is answered in order, once per frame and whatever the frame says: with reads that bring its frames in any pieces within the first five seconds, and writes that go through, the bytes sent back are the answers to its frames one after the other - the handler's answer, that it is busy when that took too long, the code of what is wrong with the frame, or that the answer could not be told - and the handler was called for exactly the frames that carry a request *)
Theorem frames_are_answered_in_order reads chunks jsons ws h :
  answerable → Forall whole jsons → Forall2 brings reads chunks → concat chunks = wire jsons →
  healthy ws → total_wait reads ≤ FIRST_REQUEST → ∃ e c',
  serve_client handle reads (Conn.start ws h) = (Err e, c') ∧
  Conn.out c' = (replies jsons h).1 ∧ Conn.handler c' = (replies jsons h).2.
Proof. apply frames_are_answered_in_order'. Qed.

(** ** A peer that asks for nothing *)

Record tame c : Prop := {
  tm_frames : within_bounds (Conn.frames c);
  tm_clock : Conn.asked c = false → 0 ≤ Conn.clock c ≤ FIRST_REQUEST }.
Definition sends_bytes (e : ReadEvent.t) : Prop :=
  0 ≤ ReadEvent.after e ∧ ∀ bytes, ReadEvent.bytes e = Some bytes → Forall (λ x, 0 ≤ x < 256) bytes ∧ len bytes ≤ READ.

Lemma answer_of_asked json c : Conn.asked (answer_of handle json c).2 = Conn.asked c ∧
  Conn.frames (answer_of handle json c).2 = Conn.frames c.
Proof. destruct (answer_of_run json c) as [d ->]. done. Qed.
Lemma write_stream_asked bytes c : Conn.asked (write_stream bytes c).2 = Conn.asked c ∧
  Conn.frames (write_stream bytes c).2 = Conn.frames c.
Proof. unfold write_stream. by case_decide. Qed.
Lemma tame_answer_frames fuel : ∀ c, tame c → tame (answer_frames handle fuel c).2.
Proof.
  induction fuel as [|fuel IH]; intros c [Hf Hc]; [done|]. cbn [answer_frames]. unfold mbind, st_bind, on_frames at 1.
  assert (within_bounds (Frames.next_frame (Conn.frames c)).2) as Hf' by (by apply (reassembly_is_bounded _ []); [split| |by vm_compute]; destruct Hf).
  destruct (Frames.next_frame (Conn.frames c)) as [[[json|]|e] f]; cbn in *; [|by split|by split].
  set (c1 := Conn.set_asked true _). pose proof (answer_of_asked json c1) as [Ha1 Hfr1].
  destruct (answer_of handle json c1) as [[a|e] c2]; cbn in *; [|split; [by rewrite Hfr1|by rewrite Ha1]].
  unfold lift. destruct (answer_bytes a.1 a.2) as [bytes|e]; cbn; [|split; [by rewrite Hfr1|by rewrite Ha1]].
  pose proof (write_stream_asked bytes c2) as [Ha2 Hfr2]. rewrite Ha1 in Ha2. rewrite Hfr1 in Hfr2.
  destruct (write_stream bytes c2) as [[[]|e] c3]; cbn in *; [|split; [by rewrite Hfr2|by rewrite Ha2]].
  apply IH. split; [by rewrite Hfr2|by rewrite Ha2].
Qed.
#[local] Arguments answer_frames : simpl never.
Lemma tame_patience c p : tame c → patience c = Some p → Conn.asked c = false → p = FIRST_REQUEST - Conn.clock c ∧ 0 ≤ p.
Proof.
  intros [_ Hc] Hp Ha. unfold patience in Hp. rewrite Ha in Hp. unfold checked_sub in Hp. specialize (Hc Ha).
  case_decide; [|done]. injection Hp as <-. lia.
Qed.
Lemma tame_serve_read e c : sends_bytes e → tame c → tame (serve_read handle e c).2.
Proof.
  intros [He Hbs] Ht. unfold serve_read, mbind, st_bind, gets, lift. destruct (patience c) as [p|] eqn:Hp; cbn [ok_or]; [|done].
  pose proof (tame_patience c p Ht Hp) as Htp. destruct Ht as [Hf Hc].
  assert (∀ d, 0 ≤ d ≤ p → tame (Conn.pass d c)) as Hpass.
  { intros d Hd. split; [done|]. cbn. intros Ha. destruct (Htp Ha). specialize (Hc Ha). lia. }
  unfold read_stream, mbind, st_bind, modify, throw. case_decide as Hle; cbn.
  { destruct (Conn.asked c) eqn:Ha; [split; [done|cbn; congruence]|]. destruct (Htp eq_refl). apply Hpass. lia. }
  assert (tame (Conn.pass (ReadEvent.after e) c)) as Ht2 by (apply Hpass; lia).
  destruct (ReadEvent.bytes e) as [[|x bytes]|] eqn:Hb; cbn; [done| |done].
  destruct (Hbs _ eq_refl) as [Hx Hlen]. set (read := x :: bytes) in *.
  assert (within_bounds (Frames.push read (Conn.frames c)).2) as Hf'.
  { apply reassembly_is_bounded; [done|done|]. unfold READ, usize_max, u64_max in *. lia. }
  unfold on_frames. cbn -[answer_frames]. destruct (Frames.push read (Conn.frames c)) as [[[]|er] f]; cbn -[answer_frames] in *; [|by split; [|apply Ht2]].
  apply tame_answer_frames. split; [done|]. apply Ht2.
Qed.

(** C37: whatever a peer sends, in whatever pieces and at whatever pace, a connection holds no more than a frame and a read of it, and while no whole frame has come - one byte a minute does not help - it is over five seconds after it was made *)
Theorem squatters_are_dropped reads ws h : Forall sends_bytes reads →
  let '(r, c) := serve_client handle reads (Conn.start ws h) in
  is_ok r = false ∧ within_bounds (Conn.frames c) ∧ (Conn.asked c = false → Conn.clock c ≤ FIRST_REQUEST).
Proof.
  intros Hr. assert (∀ c, tame c → let '(r, c') := serve_client handle reads c in is_ok r = false ∧ tame c') as Hall.
  { induction Hr as [|e reads He Hr IH]; intros c Ht; cbn [serve_client].
    - unfold mbind, st_bind, gets, lift. destruct (patience c) as [p|] eqn:Hp; cbn; [|done]. split; [done|].
      pose proof (tame_patience c p Ht Hp) as Htp. destruct Ht as [Hf Hc]. split; [done|]. cbn. intros Ha.
      destruct (Htp Ha). specialize (Hc Ha). lia.
    - unfold mbind, st_bind. pose proof (tame_serve_read e c He Ht) as Ht1.
      destruct (serve_read handle e c) as [[[]|er] c1]; cbn in *; [by apply IH|done]. }
  specialize (Hall (Conn.start ws h)). destruct (serve_client _ _ _) as [r c]. destruct Hall as (Hx&[]).
  - split; [apply within_bounds_new|]. cbn. unfold FIRST_REQUEST. lia.
  - split_and!; [done..|]. intros Ha. by apply tm_clock0.
Qed.

(** ** Asking *)

Lemma ask_wait_run id resp json reads chunks : Forall2 brings reads chunks → whole json → decode_response json = Ok (id, resp) →
  ∀ b now, b ++ concat chunks = framed json → len b < len (framed json) → 0 ≤ now → now + total_wait reads ≤ ANSWER →
  ask_wait id (Frames.Make b) now reads = Ok resp.
Proof.
  intros Hb Hw Hd. induction Hb as [|e bytes reads chunks (He&[Hlo Hhi]&Hpos) Hbs IH]; intros b now Hc Hlt Hnow Ht.
  { cbn in Hc. rewrite app_nil_r in Hc. subst. lia. }
  assert (0 ≤ total_wait reads) as Htw.
  { unfold total_wait. apply sum_Z_nonneg. rewrite Forall_fmap. clear -Hbs. induction Hbs as [|? ? ? ? (_&_&?)]; by constructor. }
  unfold total_wait in *. rewrite fmap_cons, sum_Z_cons in Ht. fold (total_wait reads) in *. cbn [concat] in Hc. rewrite app_assoc in Hc.
  assert (Forall whole [json]) as Hws by (by constructor).
  assert (b ++ bytes `prefix_of` wire [json]) as Hp.
  { unfold wire. cbn. rewrite app_nil_r. rewrite <-Hc. by apply prefix_app_r. }
  cbn [ask_wait]. unfold mbind, result_bind, checked_sub, refuse_if. rewrite decide_True by lia. cbn [ok_or].
  rewrite bool_decide_eq_false_2 by lia. rewrite He. cbn [ok_or].
  rewrite bool_decide_eq_false_2 by (intros ->; unfold len in Hlo; cbn in Hlo; lia).
  rewrite (push_Ok b bytes [json]); [|done| |unfold READ, MAX_READ in *; lia|done].
  2:{ rewrite len_framed in Hlt. destruct Hw. lia. }
  cbn [map_err]. unfold wire in Hp. cbn in Hp.
  destruct (next_frame_Ok (b ++ bytes) json [] Hw Hp) as [[Hs Hn]|(b1&Hb1&Hp1&Hn)]; rewrite Hn; cbn [map_err].
  - apply IH; [done|done|lia|lia].
  - rewrite Hd. cbn. rewrite decide_False; [done|]. intros Hne. by apply Hne.
Qed.

(** C36: a question gets its answer: when the bytes [ask] sends reach the server in any pieces in time, and the bytes the server sends back reach the client in any pieces within a minute, [ask] answers what the handler made of the request - whenever that can be told on the wire and came in time *)
Theorem ask_gets_the_handlers_answer id request bytes reads chunks ws h sent answers pieces frame :
  answerable → ask_send id request sent = Ok bytes →
  Forall2 brings reads chunks → concat chunks = bytes → healthy ws → total_wait reads ≤ FIRST_REQUEST →
  let r := handle request h in
  Reply.took r ≤ HANDLE → encode_response id (Reply.response r) = Ok frame →
  Forall2 brings answers pieces → concat pieces = Conn.out (serve_client handle reads (Conn.start ws h)).2 → total_wait answers ≤ ANSWER →
  ask id request sent answers = Ok (Reply.response r).
Proof.
  intros Ha Hs Hb Hc Hh Ht r Hr Hf Hbs Hout Hta. unfold ask. rewrite Hs. cbn.
  assert (encode_request id request = Ok bytes) as He.
  { unfold ask_send in Hs. destruct (encode_request id request) as [b|]; cbn in Hs; [|done].
    destruct (refuse_if (bool_decide _) _) as [[]|]; cbn in Hs; [|done].
    destruct (refuse_if (WriteEvent.failed sent) _) as [[]|]; cbn in Hs; [|done]. by injection Hs as <-. }
  destruct (encode_Ok _ _ _ He) as (json&->&Hw&Hck&Hv). pose proof (decode_json _ _ _ Hw Hck Hv) as Hdec.
  destruct (frames_are_answered_in_order' reads chunks [json] ws h) as (e&c'&Hrun&Ho&_); try done.
  { by constructor. } { unfold wire. cbn. by rewrite app_nil_r. }
  rewrite Hrun in Hout. cbn in Hout, Ho. rewrite app_nil_r in Ho.
  assert (reply_bytes (answer json h).1 = frame) as Hrb.
  { unfold answer, decode_request. rewrite Hdec. cbn [fst]. rewrite decide_True by done.
    unfold reply_bytes, answer_bytes. cbn [fst snd]. fold r. by rewrite Hf. }
  rewrite Hrb in Ho. destruct (encode_Ok _ _ _ Hf) as (json'&->&Hw'&Hck'&Hv').
  apply (ask_wait_run id (Reply.response r) json' answers pieces); try done.
  - by apply decode_json.
  - cbn. congruence.
Qed.
End Serving.

(** ** How many clients *)

(** At no time are more clients served than the ceiling, and a stop leaves none *)
Theorem clients_are_capped script : Z.of_nat (length (serve_all script [])) ≤ MAX_CLIENTS ∧
  ∀ ended, serve_all (script ++ [(ended, ServerEvent.Stop)]) [] = [].
Proof.
  assert (∀ clients, Z.of_nat (length clients) ≤ MAX_CLIENTS → Z.of_nat (length (serve_all script clients)) ≤ MAX_CLIENTS ∧
    ∀ ended, serve_all (script ++ [(ended, ServerEvent.Stop)]) clients = []) as Hall; [|apply Hall; by vm_compute].
  induction script as [|[ended e] script IH]; intros clients Hc; [done|]. cbn.
  pose proof (length_filter (λ c, c ∉ ended) clients) as Hf.
  destruct e as [|c|c|]; cbn.
  - split; [cbn; unfold MAX_CLIENTS; lia|done].
  - case_decide; apply IH; [|lia]. pose proof (length_filter (λ d, d ≠ c) (filter (λ c, c ∉ ended) clients)). lia.
  - case_decide; apply IH; [lia|]. rewrite length_app. cbn. lia.
  - apply IH. lia.
Qed.

(** ** On a small language *)

Module ToyWire.
(** Messages as lists of numbers: the version, the identifier, the kind, the value. *)
#[export] Instance request : Codec Request.t := {
  to_vec e := match Envelope.body e with Request.Pause job => Some [Envelope.v e; Envelope.id e; 1; job] | _ => None end;
  from_slice j := match j with [v; id; 1; job] => Some (Envelope.Make v id (Request.Pause job)) | _ => None end }.
#[export] Instance response : Codec Response.t := {
  to_vec e := match Envelope.body e with
    | Response.Accepted job => Some [Envelope.v e; Envelope.id e; 1; job]
    | Response.Failed code => Some (Envelope.v e :: Envelope.id e :: 2 :: code)
    | _ => None end;
  from_slice j := match j with
    | [v; id; 1; job] => Some (Envelope.Make v id (Response.Accepted job))
    | v :: id :: 2 :: code => Some (Envelope.Make v id (Response.Failed code))
    | _ => None end }.
#[export] Instance version : VersionReader := head.
#[export] Instance request_laws : CodecLaws Request.t.
Proof. split; intros [v id []] json [= <-]; done. Qed.
#[export] Instance response_laws : CodecLaws Response.t.
Proof. split; intros [v id []] json [= <-]; done. Qed.
(** Pauses a job and remembers it. *)
Definition handle (r : Request.t) (h : list Z) : Reply.t (list Z) :=
  match r with Request.Pause job => Reply.Make 10 (Response.Accepted job) (h ++ [job]) | _ => Reply.Make 10 Response.Done h end.
Definition question : list Z := [0; 0; 0; 4; 1; 7; 1; 5].
Definition reads : list ReadEvent.t := [ReadEvent.Make 100 (Some [0; 0; 0; 4; 1]); ReadEvent.Make 20 (Some [7; 1; 5])].
Definition pieces : list (list Z) := [[0; 0; 0; 4; 1]; [7; 1; 5]].
Lemma brings_reads : Forall2 brings reads pieces.
Proof. repeat constructor; by vm_compute. Qed.
Lemma answerable_toy : answerable.
Proof. by intros id. Qed.
End ToyWire.
Import ToyWire.

Lemma frames_are_reassembled_witness : ∃ done rest b,
  [[1; 2]; [3]] = done ++ rest ∧ receive [[0; 0; 0]; [2; 1; 2; 0]; [0; 0; 1; 3]] Frames.new = (Ok done, Frames.Make b) ∧
  done = [[1; 2]; [3]].
Proof.
  destruct (frames_are_reassembled [[1; 2]; [3]] [[0; 0; 0]; [2; 1; 2; 0]; [0; 0; 1; 3]]) as (dn&rest&b&He&Hr&_&_&Hall).
  - repeat constructor; by vm_compute.
  - repeat constructor; by vm_compute.
  - by (exists []).
  - exists dn, rest, b. split; [exact He|]. split; [exact Hr|]. apply Hall. vm_compute. reflexivity.
Defined.
Lemma frames_are_answered_in_order_witness : ∃ e c',
  serve_client ToyWire.handle ToyWire.reads (Conn.start [] []) = (Err e, c') ∧
  Conn.out c' = [0; 0; 0; 4; 1; 7; 1; 5] ∧ Conn.handler c' = [5].
Proof.
  destruct (frames_are_answered_in_order ToyWire.handle ToyWire.reads ToyWire.pieces [[1; 7; 1; 5]] [] []) as (e&c'&Hr&Ho&Hh).
  - exact ToyWire.answerable_toy.
  - repeat constructor; by vm_compute.
  - exact ToyWire.brings_reads.
  - reflexivity.
  - constructor.
  - by vm_compute.
  - exists e, c'. split; [exact Hr|]. split; [rewrite Ho; vm_compute; reflexivity|rewrite Hh; vm_compute; reflexivity].
Defined.
Lemma squatters_are_dropped_witness :
  let '(r, c) := serve_client ToyWire.handle [ReadEvent.Make 4000 (Some [0]); ReadEvent.Make 4000 (Some [0])] (Conn.start [] []) in
  is_ok r = false ∧ within_bounds (Conn.frames c) ∧ (Conn.asked c = false → Conn.clock c ≤ FIRST_REQUEST).
Proof.
  apply (squatters_are_dropped ToyWire.handle [ReadEvent.Make 4000 (Some [0]); ReadEvent.Make 4000 (Some [0])] [] []).
  assert (sends_bytes (ReadEvent.Make 4000 (Some [0]))) as He.
  { split; [cbn; lia|]. cbn. intros bytes [= <-]. split; [repeat constructor; lia|by vm_compute]. }
  constructor; [exact He|]. constructor; [exact He|constructor].
Defined.
Lemma ask_gets_the_handlers_answer_witness :
  ask 7 (Request.Pause 5) WriteEvent.done ToyWire.reads = Ok (Response.Accepted 5).
Proof.
  apply (ask_gets_the_handlers_answer ToyWire.handle 7 (Request.Pause 5) ToyWire.question ToyWire.reads ToyWire.pieces [] []
    WriteEvent.done ToyWire.reads ToyWire.pieces ToyWire.question).
  - exact ToyWire.answerable_toy.
  - reflexivity.
  - exact ToyWire.brings_reads.
  - reflexivity.
  - constructor.
  - by vm_compute.
  - by vm_compute.
  - reflexivity.
  - exact ToyWire.brings_reads.
  - vm_compute. reflexivity.
  - by vm_compute.
Defined.
Lemma reassembly_is_bounded_witness : within_bounds (Frames.push [0; 0; 0; 1; 9] Frames.new).2 ∧
  within_bounds (Frames.next_frame Frames.new).2 ∧ ∀ frame, (Frames.next_frame Frames.new).1 = Ok (Some frame) → whole frame.
Proof. apply reassembly_is_bounded; [exact within_bounds_new|repeat constructor; lia|by vm_compute]. Defined.
Lemma messages_arrive_witness : ∃ jsons,
  receive [[0; 0; 0; 4; 1; 7]; [1; 5; 0; 0; 0; 4; 1; 8; 1; 6]] Frames.new = (Ok jsons, Frames.new) ∧
  Forall2 (λ (m : Z * Request.t) json, decode json = Ok m) [(7, Request.Pause 5); (8, Request.Pause 6)] jsons.
Proof.
  apply (messages_arrive _ [ToyWire.question; [0; 0; 0; 4; 1; 8; 1; 6]]).
  - repeat constructor; vm_compute; reflexivity.
  - repeat constructor; by vm_compute.
  - reflexivity.
Defined.

(** A write that fails half way does not end the connection: the next answer follows the
    torn one, and the client reads neither. *)
Example torn_answers_follow_each_other :
  let c := (serve_client ToyWire.handle [ReadEvent.Make 0 (Some ToyWire.question); ReadEvent.Make 0 (Some [0; 0; 0; 4; 1; 8; 1; 6])]
    (Conn.start [WriteEvent.Make 0 true 5; WriteEvent.done] [])).2 in
  Conn.out c = take 5 ToyWire.question ++ [0; 0; 0; 4; 1; 8; 1; 6] ∧ Conn.handler c = [5; 6] ∧
  ask_wait 8 Frames.new 0 [ReadEvent.Make 0 (Some (Conn.out c))] = Err (IpcError.Protocol ProtocolError.Malformed).
Proof. vm_compute. done. Qed.
