(* ===== verification/Options.v ===== *)
(** * What a download of the first engine is asked

    [Options] and [Error] of [src/crates/download-engine/src/lib.rs], the limits of rate.rs, the
    names of files.rs, the credentials of request_policy.rs, and the checks the queue makes
    of them (manager.rs).  Strings are Unicode scalar values; a path may hold a lone surrogate,
    as a Windows path may.  The parser of the url crate and the check of a header value are
    parameters. *)

From S2P Require Import Prelude.
From S2P Require Import Files.
From S2P Require Import StorageFile.

Module DownloadError.
Inductive t : Type :=
| InvalidOptions | InvalidUrl | InsecureHttp | RedirectLimit | RedirectOriginChange | Network | HttpStatus (code : Z)
| ServerBackoff (code : Z) | InvalidHeaders | RepresentationChanged | ResumeUnsupported | ResumeRejected
| LocalStateMismatch | Storage | StorageIo (kind : ErrorKind.t) | StorageLocked | DestinationConflict
| StoredDataCorrupt | ChecksumMismatch | UnsupportedStorageVersion | WorkerFailed | Cancelled | InvalidTransition
| BodyLength | SizeLimit | InsufficientSpace.
#[global] Instance t_eq_dec : EqDecision t.
Proof. solve_decision. Defined.
End DownloadError.

(** ** Text *)

Definition scalar (c : Z) : bool := bool_decide (0 ≤ c < 55296) || bool_decide (57344 ≤ c ≤ 1114111).
Definition utf8_char (c : Z) : list Z :=
  if decide (c < 128) then [c]
  else if decide (c < 2048) then [192 + c / 64; 128 + c mod 64]
  else if decide (c < 65536) then [224 + c / 4096; 128 + c / 64 mod 64; 128 + c mod 64]
  else [240 + c / 262144; 128 + c / 4096 mod 64; 128 + c / 64 mod 64; 128 + c mod 64].
Definition utf8 (s : list Z) : list Z := concat (utf8_char <$> s).
Definition continues (b : Z) : bool := bool_decide (128 ≤ b < 192).
(** [String::from_utf8]: no overlong form, no surrogate, nothing beyond the last plane. *)
Fixpoint from_utf8 (bytes : list Z) : option (list Z) :=
  match bytes with
  | [] => Some []
  | b :: rest =>
      if decide (b < 128) then cons b <$> from_utf8 rest else
      match rest with
      | b1 :: rest1 =>
          if negb (continues b1) then None
          else if decide (192 ≤ b < 224) then
            let c := (b - 192) * 64 + (b1 - 128) in
            if decide (128 ≤ c) then cons c <$> from_utf8 rest1 else None
          else match rest1 with
          | b2 :: rest2 =>
              if negb (continues b2) then None
              else if decide (224 ≤ b < 240) then
                let c := (b - 224) * 4096 + (b1 - 128) * 64 + (b2 - 128) in
                if decide (2048 ≤ c) then if scalar c then cons c <$> from_utf8 rest2 else None else None
              else match rest2 with
              | b3 :: rest3 =>
                  if negb (continues b3) then None
                  else if decide (240 ≤ b < 248) then
                    let c := (b - 240) * 262144 + (b1 - 128) * 4096 + (b2 - 128) * 64 + (b3 - 128) in
                    if decide (65536 ≤ c) then if scalar c then cons c <$> from_utf8 rest3 else None else None
                  else None
              | [] => None
              end
          | [] => None
          end
      | [] => None
      end
  end.
(** [str::len]. *)
Definition text_len (s : list Z) : Z := sum_Z (utf8_len <$> s).
(** [Path::to_str]. *)
Definition to_str (path : list Z) : option (list Z) := if forallb scalar path then Some path else None.

(** ** Links *)

(** What the url crate tells of a parsed link. *)
Module Url.
Record t : Type := Make {
  as_str : list Z; scheme : list Z; host_str : option (list Z); port_or_known_default : option Z;
  username : list Z; password : option (list Z); path : list Z; query : option (list Z); fragment : option (list Z);
  ascii_origin : list Z }.
(** [Url::origin] of an http or https link. *)
Definition origin (u : t) : list Z * option (list Z) * option Z := (scheme u, host_str u, port_or_known_default u).
End Url.
(** http and https. *)
Definition HTTP : list Z := [104; 116; 116; 112].
Definition HTTPS : list Z := HTTP ++ [115].

Module RequestPolicy.
Record t : Type := Make {
  authorization : option (list Z);
  cookie : option (list Z);
  redirect_origins : list (list Z) }.
#[global] Instance t_eq_dec : EqDecision t.
Proof. solve_decision. Defined.
Definition default : t := Make None None [].
End RequestPolicy.

Module Options.
Record t : Type := Make {
  url : list Z;
  job_dir : list Z;
  output_name : list Z;
  expected_sha256 : option (list Z);
  allow_http : bool;
  checkpoint_bytes : Z;
  max_download_bytes : Z;
  bytes_per_second : option Z;
  parallel_connections : Z;
  request_policy : RequestPolicy.t;
  refresh_from : option (list Z) }.
#[global] Instance t_eq_dec : EqDecision t.
Proof. solve_decision. Defined.
Definition set_rate v o := Make (url o) (job_dir o) (output_name o) (expected_sha256 o) (allow_http o) (checkpoint_bytes o)
  (max_download_bytes o) v (parallel_connections o) (request_policy o) (refresh_from o).
Definition set_link u f o := Make u (job_dir o) (output_name o) (expected_sha256 o) (allow_http o) (checkpoint_bytes o)
  (max_download_bytes o) (bytes_per_second o) (parallel_connections o) (request_policy o) f.
Definition set_job_dir d o := Make (url o) d (output_name o) (expected_sha256 o) (allow_http o) (checkpoint_bytes o)
  (max_download_bytes o) (bytes_per_second o) (parallel_connections o) (request_policy o) (refresh_from o).
End Options.

Section Checks.
Context (url_parse : list Z → option Url.t) (header_value : list Z → bool).

Definition parse_url (raw : list Z) (allow_http : bool) : result DownloadError.t Url.t :=
  _ ← refuse_if (bool_decide (16384 < text_len raw) || existsb is_control raw) DownloadError.InvalidUrl;
  url ← ok_or (url_parse raw) DownloadError.InvalidUrl;
  _ ← refuse_if (negb (bool_decide (Url.scheme url ∈ [HTTP; HTTPS])) || bool_decide (Url.host_str url = None)
        || negb (bool_decide (Url.username url = [])) || bool_decide (is_Some (Url.password url))
        || bool_decide (is_Some (Url.fragment url))) DownloadError.InvalidUrl;
  _ ← refuse_if (bool_decide (Url.scheme url = HTTP) && negb allow_http) DownloadError.InsecureHttp;
  Ok url.

(** ** Credentials *)

(** The order of strings, and sorting by it. *)
Fixpoint text_le (a b : list Z) : bool :=
  match a, b with
  | [], _ => true
  | _ :: _, [] => false
  | x :: a, y :: b => if decide (x < y) then true else if decide (x = y) then text_le a b else false
  end.
Fixpoint insert_text (x : list Z) (l : list (list Z)) : list (list Z) :=
  match l with
  | [] => [x]
  | y :: l' => if text_le x y then x :: l else y :: insert_text x l'
  end.
Definition sort_text (l : list (list Z)) : list (list Z) := foldr insert_text [] l.
Fixpoint dedup (l : list (list Z)) : list (list Z) :=
  match l with
  | [] => []
  | x :: rest => match rest with y :: _ => if decide (x = y) then dedup rest else x :: dedup rest | [] => [x] end
  end.

Definition secret_ok (v : list Z) : bool :=
  negb (bool_decide (v = [])) && bool_decide (text_len v ≤ 8192) && forallb (λ c, bool_decide (0 ≤ c < 128)) v
  && negb (existsb (λ c, bool_decide (0 ≤ c < 32) || bool_decide (c = 127)) v) && header_value v.
Definition origin_ok (origin : list Z) : result DownloadError.t unit :=
  url ← parse_url origin true;
  refuse_if (bool_decide (Url.path url ≠ [47]) || bool_decide (is_Some (Url.query url))) DownloadError.InvalidOptions.
Fixpoint all_origins (origins : list (list Z)) : result DownloadError.t unit :=
  match origins with
  | [] => Ok tt
  | origin :: origins => _ ← origin_ok origin; all_origins origins
  end.
Definition validate_policy (p : RequestPolicy.t) : result DownloadError.t unit :=
  _ ← refuse_if (negb (forallb (λ v, default true (secret_ok <$> v)) [RequestPolicy.authorization p; RequestPolicy.cookie p]))
       DownloadError.InvalidOptions;
  _ ← refuse_if (bool_decide (8 < length (RequestPolicy.redirect_origins p))%nat) DownloadError.InvalidOptions;
  all_origins (RequestPolicy.redirect_origins p).
Definition new_policy (authorization cookie : option (list Z)) (origins : list (list Z)) : result DownloadError.t RequestPolicy.t :=
  _ ← validate_policy (RequestPolicy.Make authorization cookie origins);
  normal ← collect (λ origin, Url.ascii_origin <$> parse_url origin true) origins;
  Ok (RequestPolicy.Make authorization cookie (dedup (sort_text normal))).

Definition authorize_redirect (p : RequestPolicy.t) (previous next : Url.t) : result DownloadError.t unit :=
  _ ← refuse_if (bool_decide (Url.scheme previous = HTTPS) && negb (bool_decide (Url.scheme next = HTTPS)))
       DownloadError.InsecureHttp;
  refuse_if (negb (bool_decide (Url.origin previous = Url.origin next))
      && negb (bool_decide (Url.ascii_origin next ∈ RequestPolicy.redirect_origins p))) DownloadError.RedirectOriginChange.
(** The headers put on a request. *)
Inductive SentHeader : Type :=
| AcceptEncoding (v : list Z) | Authorization (v : list Z) | Cookie (v : list Z) | Range (v : list Z) | IfRange (v : list Z).
Definition header_of (make : list Z → SentHeader) (v : option (list Z)) : result DownloadError.t (list SentHeader) :=
  match v with
  | Some v => if header_value v then Ok [make v] else Err DownloadError.InvalidOptions
  | None => Ok []
  end.
Definition apply_policy (p : RequestPolicy.t) (request : list SentHeader) (target initial : Url.t)
    : result DownloadError.t (list SentHeader) :=
  if decide (Url.origin target = Url.origin initial) then
    authorization ← header_of Authorization (RequestPolicy.authorization p);
    cookie ← header_of Cookie (RequestPolicy.cookie p);
    Ok (request ++ authorization ++ cookie)
  else Ok request.

(** ** Options *)

Definition MAX_BYTES_PER_SECOND : Z := 1024 * 1024 * 1024.
Definition valid_limit (value : option Z) : bool :=
  match value with None => true | Some n => bool_decide (1 ≤ n ≤ MAX_BYTES_PER_SECOND) end.
(** [validate_name] of files.rs; its characters are those of a leaf and the backslash. *)
Definition validate_output (name : list Z) : result DownloadError.t unit :=
  refuse_if (bool_decide (name = []) || bool_decide (200 < text_len name) || bool_decide (name ∈ [[46]; [46; 46]])
    || is_some_and (λ c, bool_decide (c ∈ [46; 32])) (last name) || existsb (λ c, bool_decide (c ∈ FORBIDDEN)) name
    || existsb is_control name || reserved (to_ascii_lowercase <$> before_dot name)) DownloadError.InvalidOptions.

(** [validate_options] of manager.rs, with the error it maps every failure to. *)
Definition validate_options {E} (invalid : E) (o : Options.t) : result E unit :=
  _ ← map_err (λ _, invalid) (validate_policy (Options.request_policy o));
  _ ← map_err (λ _, invalid) (validate_output (Options.output_name o));
  refuse_if (bool_decide (16384 < text_len (Options.url o)) || bool_decide (Options.output_name o = [])
    || bool_decide (255 < text_len (Options.output_name o)) || bool_decide (32768 < text_len (Options.job_dir o))
    || bool_decide (Options.checkpoint_bytes o = 0) || bool_decide (64 * 1024 * 1024 < Options.checkpoint_bytes o)
    || bool_decide (Options.max_download_bytes o = 0) || bool_decide (i64_max < Options.max_download_bytes o)
    || negb (bool_decide (1 ≤ Options.parallel_connections o ≤ 8)) || negb (valid_limit (Options.bytes_per_second o))
    || negb (is_ok (parse_url (Options.url o) (Options.allow_http o)))) invalid.
End Checks.
