(* ===== verification/OptionsThm.v ===== *)
(** * Theorems on the options of a download *)

From S2P Require Import Prelude.
From S2P Require Import Files.
From S2P Require Import StorageFile.
From S2P Require Import Options.

(** ** Text *)

Lemma from_utf8_char c rest : scalar c = true → from_utf8 (utf8_char c ++ rest) = cons c <$> from_utf8 rest.
Proof.
  intros Hs. pose proof Hs as Hs'. unfold scalar in Hs'. rewrite orb_true_iff, !bool_decide_eq_true in Hs'.
  unfold utf8_char. repeat case_decide.
  - cbn. by rewrite decide_True.
  - cbn [app from_utf8]. rewrite decide_False by (Z.to_euclidean_division_equations; lia).
    assert (continues (128 + c mod 64) = true) as -> by (apply bool_decide_eq_true; Z.to_euclidean_division_equations; lia). cbn [negb].
    rewrite decide_True by (Z.to_euclidean_division_equations; lia).
    assert ((192 + c / 64 - 192) * 64 + (128 + c mod 64 - 128) = c) as -> by (Z.to_euclidean_division_equations; lia).
    by rewrite decide_True by lia.
  - cbn [app from_utf8]. rewrite decide_False by (Z.to_euclidean_division_equations; lia).
    assert (continues (128 + c / 64 mod 64) = true) as -> by (apply bool_decide_eq_true; Z.to_euclidean_division_equations; lia).
    assert (continues (128 + c mod 64) = true) as -> by (apply bool_decide_eq_true; Z.to_euclidean_division_equations; lia). cbn [negb].
    rewrite decide_False by (Z.to_euclidean_division_equations; lia). rewrite decide_True by (Z.to_euclidean_division_equations; lia).
    assert ((224 + c / 4096 - 224) * 4096 + (128 + c / 64 mod 64 - 128) * 64 + (128 + c mod 64 - 128) = c) as -> by (Z.to_euclidean_division_equations; lia).
    rewrite decide_True by lia. by rewrite Hs.
  - cbn [app from_utf8]. rewrite decide_False by (Z.to_euclidean_division_equations; lia).
    assert (continues (128 + c / 4096 mod 64) = true) as -> by (apply bool_decide_eq_true; Z.to_euclidean_division_equations; lia).
    assert (continues (128 + c / 64 mod 64) = true) as -> by (apply bool_decide_eq_true; Z.to_euclidean_division_equations; lia).
    assert (continues (128 + c mod 64) = true) as -> by (apply bool_decide_eq_true; Z.to_euclidean_division_equations; lia). cbn [negb].
    rewrite !(decide_False (P := _ ∧ _)) by (Z.to_euclidean_division_equations; lia). rewrite decide_True by (Z.to_euclidean_division_equations; lia).
    assert ((240 + c / 262144 - 240) * 262144 + (128 + c / 4096 mod 64 - 128) * 4096 + (128 + c / 64 mod 64 - 128) * 64
      + (128 + c mod 64 - 128) = c) as -> by (Z.to_euclidean_division_equations; lia).
    rewrite decide_True by lia. by rewrite Hs.
Qed.
Lemma from_to_utf8 s : forallb scalar s = true → from_utf8 (utf8 s) = Some s.
Proof.
  unfold utf8. induction s as [|c s IH]; [done|]. cbn [forallb fmap list_fmap concat]. rewrite andb_true_iff. intros [Hc Hs].
  rewrite from_utf8_char by done. by rewrite IH.
Qed.
Lemma utf8_char_length c : Z.of_nat (length (utf8_char c)) = utf8_len c.
Proof. unfold utf8_char, utf8_len. by repeat case_decide. Qed.
Lemma utf8_length s : Z.of_nat (length (utf8 s)) = text_len s.
Proof.
  unfold utf8, text_len. induction s as [|c s IH]; [done|]. cbn [fmap list_fmap concat]. rewrite length_app, sum_Z_cons, Nat2Z.inj_add, IH.
  by rewrite utf8_char_length.
Qed.
Definition is_byte (b : Z) : Prop := 0 ≤ b < 256.
Lemma utf8_back_1 b : 0 ≤ b < 128 → utf8_char b = [b].
Proof. intros ?. unfold utf8_char. by rewrite decide_True by lia. Qed.
Lemma utf8_back_2 b b1 : 192 ≤ b < 224 → 128 ≤ b1 < 192 → 128 ≤ (b - 192) * 64 + (b1 - 128) →
  utf8_char ((b - 192) * 64 + (b1 - 128)) = [b; b1].
Proof.
  intros. unfold utf8_char. rewrite decide_False by lia. rewrite decide_True by lia.
  f_equal; [|f_equal]; Z.to_euclidean_division_equations; lia.
Qed.
Lemma utf8_back_3 b b1 b2 : 224 ≤ b < 240 → 128 ≤ b1 < 192 → 128 ≤ b2 < 192 →
  2048 ≤ (b - 224) * 4096 + (b1 - 128) * 64 + (b2 - 128) →
  utf8_char ((b - 224) * 4096 + (b1 - 128) * 64 + (b2 - 128)) = [b; b1; b2].
Proof.
  intros. unfold utf8_char. rewrite !decide_False by lia. rewrite decide_True by lia.
  f_equal; [|f_equal; [|f_equal]]; Z.to_euclidean_division_equations; lia.
Qed.
Lemma utf8_back_4 b b1 b2 b3 : 240 ≤ b < 248 → 128 ≤ b1 < 192 → 128 ≤ b2 < 192 → 128 ≤ b3 < 192 →
  65536 ≤ (b - 240) * 262144 + (b1 - 128) * 4096 + (b2 - 128) * 64 + (b3 - 128) →
  utf8_char ((b - 240) * 262144 + (b1 - 128) * 4096 + (b2 - 128) * 64 + (b3 - 128)) = [b; b1; b2; b3].
Proof.
  intros. unfold utf8_char. rewrite !decide_False by lia.
  f_equal; [|f_equal; [|f_equal; [|f_equal]]]; Z.to_euclidean_division_equations; lia.
Qed.
Lemma to_from_utf8 b s : Forall is_byte b → from_utf8 b = Some s → utf8 s = b ∧ forallb scalar s = true.
Proof.
  remember (length b) as n eqn:Hn. assert (length b ≤ n)%nat as Hle by lia. clear Hn. revert b s Hle.
  induction n as [|n IH]; intros [|b rest] s Hle Hb H; try (cbn in Hle; lia); try (by injection H as <-).
  apply Forall_cons in Hb as [Hb Hrest]. unfold is_byte in Hb. cbn in Hle, H.
  assert (∀ c tail s, (length tail ≤ n)%nat → Forall is_byte tail → (cons c <$> from_utf8 tail) = Some s → scalar c = true →
    utf8 s = utf8_char c ++ tail ∧ forallb scalar s = true) as Hstep.
  { intros c tail k Hl Ht Hk Hc. destruct (from_utf8 tail) as [k'|] eqn:E; [|done]. injection Hk as <-.
    destruct (IH _ _ Hl Ht E) as [E1 E2]. unfold utf8 in *. cbn. by rewrite E1, Hc. }
  unfold continues in H. case_decide.
  { destruct (Hstep _ rest _ ltac:(lia) Hrest H) as [E1 E2]; [unfold scalar; by rewrite bool_decide_eq_true_2 by lia|].
    by rewrite E1, utf8_back_1 by lia. }
  destruct rest as [|b1 rest]; [done|]. apply Forall_cons in Hrest as [_ Hrest]. cbn in Hle. case_bool_decide; [|done]. cbn in H.
  case_decide.
  { case_decide; [|done]. destruct (Hstep _ rest _ ltac:(lia) Hrest H) as [E1 E2].
    { unfold scalar. rewrite bool_decide_eq_true_2; [done|]. lia. }
    by rewrite E1, utf8_back_2 by done. }
  destruct rest as [|b2 rest]; [done|]. apply Forall_cons in Hrest as [_ Hrest]. cbn in Hle. case_bool_decide; [|done]. cbn in H.
  case_decide.
  { case_decide; [|done]. destruct (scalar _) eqn:Hs; [|done]. destruct (Hstep _ rest _ ltac:(lia) Hrest H Hs) as [E1 E2].
    by rewrite E1, utf8_back_3 by done. }
  destruct rest as [|b3 rest]; [done|]. apply Forall_cons in Hrest as [_ Hrest]. cbn in Hle. case_bool_decide; [|done]. cbn in H.
  case_decide; [|done]. case_decide; [|done]. destruct (scalar _) eqn:Hs; [|done].
  destruct (Hstep _ rest _ ltac:(lia) Hrest H Hs) as [E1 E2]. by rewrite E1, utf8_back_4 by done.
Qed.
Lemma to_str_Some path s : to_str path = Some s → s = path ∧ forallb scalar s = true.
Proof. unfold to_str. destruct (forallb scalar path) eqn:Hs; [|done]. by intros [= <-]. Qed.

(** ** Sorted origins *)

Definition text_lt (a b : list Z) : Prop := text_le a b = true ∧ a ≠ b.
Lemma text_le_refl a : text_le a a = true.
Proof. induction a as [|x a IH]; cbn; [done|]. rewrite decide_False by lia. by rewrite decide_True. Qed.
Lemma text_le_total a b : text_le a b = false → text_le b a = true.
Proof.
  revert b. induction a as [|x a IH]; intros [|y b]; cbn; try done. repeat case_decide; try done; try lia. all: auto.
Qed.
Lemma text_le_trans a b c : text_le a b = true → text_le b c = true → text_le a c = true.
Proof.
  revert b c. induction a as [|x a IH]; intros [|y b] [|z c]; cbn; try done. repeat case_decide; try done; try lia. all: subst; eauto.
Qed.
Lemma text_le_antisym a b : text_le a b = true → text_le b a = true → a = b.
Proof.
  revert b. induction a as [|x a IH]; intros [|y b]; cbn; try done. repeat case_decide; try done; try lia. all: intros; subst; f_equal; auto.
Qed.
Lemma insert_text_in x l y : y ∈ insert_text x l ↔ y = x ∨ y ∈ l.
Proof. induction l as [|z l IH]; cbn; [set_solver|]. destruct (text_le x z); set_solver. Qed.
Lemma sort_text_in l y : y ∈ sort_text l ↔ y ∈ l.
Proof. induction l as [|x l IH]; [done|]. change (sort_text (x :: l)) with (insert_text x (sort_text l)). rewrite insert_text_in. set_solver. Qed.
Lemma sort_text_sorted l : StronglySorted (λ a b, text_le a b = true) (sort_text l).
Proof.
  induction l as [|x l IH]; [constructor|]. change (sort_text (x :: l)) with (insert_text x (sort_text l)).
  induction IH as [|y k Hk IH Hy]; cbn; [by repeat constructor|]. destruct (text_le x y) eqn:Hx.
  - constructor; [by constructor|]. constructor; [done|]. eapply Forall_impl; [exact Hy|]. intros z Hz. by eapply text_le_trans.
  - constructor; [done|]. rewrite Forall_forall in *. intros z [->|Hz]%insert_text_in; [by apply text_le_total|auto].
Qed.
Lemma dedup_in l y : y ∈ dedup l ↔ y ∈ l.
Proof.
  induction l as [|x [|z l] IH]; [done|done|]. change (dedup (x :: z :: l)) with
    (if decide (x = z) then dedup (z :: l) else x :: dedup (z :: l)). case_decide; set_solver.
Qed.
Lemma dedup_strict l : StronglySorted (λ a b, text_le a b = true) l → StronglySorted text_lt (dedup l).
Proof.
  induction 1 as [|x l Hl IH Hx]; [constructor|]. destruct l as [|z l]; [repeat constructor|].
  change (dedup (x :: z :: l)) with (if decide (x = z) then dedup (z :: l) else x :: dedup (z :: l)). case_decide as Hne; [done|].
  constructor; [done|]. rewrite Forall_forall. intros y Hy. rewrite dedup_in in Hy. rewrite Forall_forall in Hx. split; [by apply Hx|intros ->].
  apply elem_of_cons in Hy as [->|Hy]; [done|]. apply StronglySorted_inv in Hl as [_ Hz]. rewrite Forall_forall in Hz.
  apply Hne, text_le_antisym; [apply Hx; by left|by apply Hz].
Qed.
Lemma sort_text_id l : StronglySorted text_lt l → sort_text l = l.
Proof.
  induction 1 as [|x l Hl IH Hx]; [done|]. change (sort_text (x :: l)) with (insert_text x (sort_text l)). rewrite IH.
  destruct l as [|y l]; [done|]. cbn. apply Forall_cons in Hx as [[-> _] _]. done.
Qed.
Lemma dedup_id l : StronglySorted text_lt l → dedup l = l.
Proof.
  induction 1 as [|x l Hl IH Hx]; [done|]. destruct l as [|y l]; [done|].
  change (dedup (x :: y :: l)) with (if decide (x = y) then dedup (y :: l) else x :: dedup (y :: l)). rewrite IH.
  apply Forall_cons in Hx as [[_ Hne] _]. by rewrite decide_False.
Qed.
Lemma dedup_length l : (length (dedup l) ≤ length l)%nat.
Proof.
  induction l as [|x [|z l] IH]; [done|done|]. change (dedup (x :: z :: l)) with
    (if decide (x = z) then dedup (z :: l) else x :: dedup (z :: l)). case_decide; cbn in *; lia.
Qed.
Lemma sort_text_length l : length (sort_text l) = length l.
Proof.
  induction l as [|x l IH]; [done|]. change (sort_text (x :: l)) with (insert_text x (sort_text l)). cbn. rewrite <-IH.
  clear. induction (sort_text l) as [|y k IH]; cbn; [done|]. destruct (text_le x y); cbn; lia.
Qed.

(** ** Policies *)

(** A link of http or https that names a host: what [parse_url] goes on with. *)
Definition web (u : Url.t) : Prop := Url.scheme u ∈ [HTTP; HTTPS] ∧ is_Some (Url.host_str u).

(** What the url crate says of such links.  The origin of one is written "scheme://host", with the
    port when it is not the default one; so links of one origin have one serialisation, and it parses
    as the root of that origin.  It is a string without controls; the crate does not bound its length. *)
Class UrlLaws (url_parse : list Z → option Url.t) : Prop := {
  origin_parses raw u : url_parse raw = Some u → web u →
    ∃ o, url_parse (Url.ascii_origin u) = Some o ∧ Url.origin o = Url.origin u ∧ Url.ascii_origin o = Url.ascii_origin u ∧
      Url.username o = [] ∧ Url.password o = None ∧ Url.path o = [47] ∧ Url.query o = None ∧ Url.fragment o = None;
  origin_is_serialised raw u raw' v : url_parse raw = Some u → url_parse raw' = Some v → web u → web v →
    Url.origin u = Url.origin v → Url.ascii_origin u = Url.ascii_origin v;
  origin_is_text raw u : url_parse raw = Some u → web u →
    forallb scalar (Url.ascii_origin u) = true ∧ existsb is_control (Url.ascii_origin u) = false }.

Section Policy.
Context (url_parse : list Z → option Url.t) (header_value : list Z → bool) `{!UrlLaws url_parse}.

(** A policy that the constructor returned. *)
Definition made (p : RequestPolicy.t) : Prop :=
  ∃ authorization cookie origins, new_policy url_parse header_value authorization cookie origins = Ok p.
(** A policy that its own constructor gives back. *)
Definition settled (p : RequestPolicy.t) : Prop :=
  new_policy url_parse header_value (RequestPolicy.authorization p) (RequestPolicy.cookie p) (RequestPolicy.redirect_origins p) = Ok p.

Lemma parse_url_Ok raw http u : parse_url url_parse raw http = Ok u →
  text_len raw ≤ 16384 ∧ existsb is_control raw = false ∧ url_parse raw = Some u ∧ Url.scheme u ∈ [HTTP; HTTPS] ∧ is_Some (Url.host_str u) ∧
  Url.username u = [] ∧ Url.password u = None ∧ Url.fragment u = None ∧ (Url.scheme u = HTTP → http = true).
Proof.
  unfold parse_url, refuse_if, mbind, result_bind, ok_or. destruct (_ || existsb _ _) eqn:H1; [done|].
  destruct (url_parse raw) as [v|] eqn:Hp; [|done]. destruct (negb _ || _ || _ || _ || _) eqn:H2; [done|].
  destruct (bool_decide _ && negb http) eqn:H3; [done|].
  intros [= ->]. rewrite !orb_false_iff, !negb_false_iff, !bool_decide_eq_false, !bool_decide_eq_true in *.
  apply andb_false_iff in H3. rewrite bool_decide_eq_false, negb_false_iff in H3. destruct_and!.
  split_and!; try done; try lia.
  - by apply not_eq_None_Some.
  - by apply eq_None_not_Some.
  - by apply eq_None_not_Some.
  - intros ?. by destruct H3.
Qed.
Lemma parse_url_web raw http u : parse_url url_parse raw http = Ok u → url_parse raw = Some u ∧ web u.
Proof. intros (_&_&Hp&Hs&Hh&_)%parse_url_Ok. by split. Qed.
Lemma all_origins_Ok l : all_origins url_parse l = Ok tt ↔ Forall (λ o, origin_ok url_parse o = Ok tt) l.
Proof.
  induction l as [|o l IH]; cbn; [by split|]. rewrite Forall_cons, <-IH. unfold mbind, result_bind.
  destruct (origin_ok url_parse o) as [[]|e]; [tauto|]. split; [done|by intros [? _]].
Qed.
Lemma settled_valid p : settled p → validate_policy url_parse header_value p = Ok tt.
Proof.
  unfold settled, new_policy. destruct (validate_policy _ _ _) as [[]|] eqn:Hv; [|done]. intros _. by destruct p.
Qed.
Lemma settled_made p : settled p → made p.
Proof. intros Hp. by do 3 eexists. Qed.
(** The origins of a policy are sorted, and each is the origin of a link. *)
Lemma made_origins p : made p → StronglySorted text_lt (RequestPolicy.redirect_origins p) ∧
  ∀ o, o ∈ RequestPolicy.redirect_origins p → ∃ raw u, url_parse raw = Some u ∧ web u ∧ Url.ascii_origin u = o.
Proof.
  intros (a&c&l&Hp). unfold new_policy in Hp. destruct (validate_policy _ _ _); [|done]. cbn in Hp.
  destruct (collect _ l) as [normal|] eqn:Hn; [|done]. cbn in Hp. injection Hp as <-. apply collect_Ok in Hn. cbn. split.
  - apply dedup_strict, sort_text_sorted.
  - intros o Ho. rewrite dedup_in, sort_text_in in Ho. apply list_elem_of_lookup in Ho as [i Hi].
    destruct (Forall2_lookup_r _ _ _ i o Hn Hi) as (raw&Hin&Hraw).
    destruct (parse_url url_parse raw true) as [u|] eqn:Hu; [|done]. cbn in Hraw. injection Hraw as Eo.
    apply parse_url_web in Hu as [? ?]. by exists raw, u.
Qed.
(** The origins of a policy fit the limit on links. *)
Definition short (p : RequestPolicy.t) : Prop := Forall (λ o, text_len o ≤ 16384) (RequestPolicy.redirect_origins p).
Lemma valid_short p : validate_policy url_parse header_value p = Ok tt → short p.
Proof.
  unfold validate_policy. destruct (refuse_if (negb _) _) as [[]|]; [|done]. cbn. destruct (refuse_if _ _) as [[]|]; [|done]. cbn.
  rewrite all_origins_Ok. unfold short. rewrite !Forall_forall. intros Hok o Ho. specialize (Hok o Ho). unfold origin_ok in Hok.
  destruct (parse_url url_parse o true) eqn:E; [|done]. by apply parse_url_Ok in E as [? _].
Qed.
Lemma origin_again raw u : url_parse raw = Some u → web u → text_len (Url.ascii_origin u) ≤ 16384 → ∃ o,
  parse_url url_parse (Url.ascii_origin u) true = Ok o ∧ Url.ascii_origin o = Url.ascii_origin u ∧ Url.path o = [47] ∧ Url.query o = None.
Proof.
  intros Hp [Hs Hh] Hl. destruct (origin_parses _ _ Hp (conj Hs Hh)) as (o&Ho&Ho1&Ho2&Ho3&Ho4&Ho5&Ho6&Ho7).
  destruct (origin_is_text _ _ Hp (conj Hs Hh)) as (_&Hctl). exists o. split; [|done].
  unfold Url.origin in Ho1. injection Ho1 as E1 E2 E3. unfold parse_url, refuse_if.
  rewrite bool_decide_eq_false_2 by lia. rewrite Hctl. cbn. rewrite Ho. cbn. rewrite E1, E2, Ho3, Ho4, Ho7.
  rewrite (bool_decide_eq_true_2 (Url.scheme u ∈ _)) by done. rewrite (bool_decide_eq_false_2 (Url.host_str u = None)).
  2:{ intros E. rewrite E in Hh. by destruct Hh. }
  cbn. by rewrite andb_false_r.
Qed.
Lemma made_valid p : made p → short p → validate_policy url_parse header_value p = Ok tt.
Proof.
  intros Hm Hshort. destruct (made_origins p Hm) as [_ Hall]. destruct Hm as (a&c&l&Hp). unfold new_policy in Hp.
  destruct (validate_policy _ _ (RequestPolicy.Make a c l)) as [[]|] eqn:Hv; [|done]. cbn in Hp.
  destruct (collect _ l) as [normal|] eqn:Hn; [|done]. cbn in Hp. injection Hp as Hp.
  apply collect_Ok, Forall2_length in Hn. unfold validate_policy in *.
  assert (RequestPolicy.authorization p = a) as -> by (by rewrite <-Hp). assert (RequestPolicy.cookie p = c) as -> by (by rewrite <-Hp).
  assert (length (RequestPolicy.redirect_origins p) ≤ length l)%nat as Hlen.
  { rewrite <-Hp. cbn. pose proof (dedup_length (sort_text normal)). rewrite sort_text_length in *. lia. }
  cbn [RequestPolicy.authorization RequestPolicy.cookie RequestPolicy.redirect_origins] in Hv.
  destruct (refuse_if (negb _) _) as [[]|]; [|done]. cbn in *. unfold refuse_if in *. case_bool_decide; [done|]. cbn in Hv.
  rewrite bool_decide_eq_false_2 by lia. cbn. apply all_origins_Ok. unfold short in Hshort. rewrite Forall_forall in *. intros o Ho.
  destruct (Hall o Ho) as (raw&u&Hu&Hw&<-). destruct (origin_again _ _ Hu Hw (Hshort _ Ho)) as (v&Hv'&_&Hpa&Hq).
  unfold origin_ok. rewrite Hv'. cbn. by rewrite Hpa, Hq.
Qed.
(** A policy the constructor returned is one the constructor gives back, when its origins fit. *)
Lemma made_settled p : made p → short p → settled p.
Proof.
  intros Hm Hshort. pose proof (made_valid p Hm Hshort) as Hv. destruct (made_origins p Hm) as [Hsorted Hall].
  unfold short in Hshort. rewrite Forall_forall in Hshort. unfold settled, new_policy. destruct p as [a c l]. cbn in *. rewrite Hv. cbn.
  assert (collect (λ origin, Url.ascii_origin <$> parse_url url_parse origin true) l = Ok l) as ->.
  { apply collect_Ok, Forall2_same_length_lookup. split; [done|]. intros i x y Hx Hy. rewrite Hx in Hy. injection Hy as <-.
    apply list_elem_of_lookup_2 in Hx. destruct (Hall x Hx) as (raw&u&Hu&Hw&<-).
    destruct (origin_again _ _ Hu Hw (Hshort _ Hx)) as (v&Hv'&Eo&_). rewrite Hv'. cbn. by rewrite Eo. }
  cbn. by rewrite sort_text_id, dedup_id by done.
Qed.
(** What the constructor normalises it does not check again: an origin within the limit may be written
    longer ("https:" and a host becomes "https://" and that host), and the policy is then refused. *)
Lemma new_policy_outgrows_its_check raw u :
  parse_url url_parse raw true = Ok u → Url.path u = [47] → Url.query u = None → 16384 < text_len (Url.ascii_origin u) →
  let p := RequestPolicy.Make None None [Url.ascii_origin u] in
  new_policy url_parse header_value None None [raw] = Ok p ∧ validate_policy url_parse header_value p = Err DownloadError.InvalidUrl.
Proof.
  intros Hu Hp Hq Hl p. split.
  - unfold new_policy, validate_policy, origin_ok. cbn. unfold origin_ok. rewrite Hu. cbn. by rewrite Hp, Hq.
  - unfold validate_policy. cbn. unfold origin_ok, parse_url, refuse_if. by rewrite bool_decide_eq_true_2.
Qed.

End Policy.
