(* ===== verification/Requests.v ===== *)
(** * The requests of the first engine

    [src/crates/download-engine/src/lib.rs]: the header fields of an answer, and the sending of one
    request with the redirects it follows.  The server and the clock are a script: what
    became of each attempt, in turn. *)

From S2P Require Import Prelude.
From S2P Require Import Files.
From S2P Require Import StorageFile.
From S2P Require Import ResumePolicy.
From S2P Require Import Options.

(** ** Header fields *)

(** Names as the client library spells them, in lower case. *)
Definition LOCATION : list Z := [108; 111; 99; 97; 116; 105; 111; 110].
Definition CONTENT : list Z := [99; 111; 110; 116; 101; 110; 116; 45].
Definition CONTENT_LENGTH : list Z := CONTENT ++ [108; 101; 110; 103; 116; 104].
Definition CONTENT_ENCODING : list Z := CONTENT ++ [101; 110; 99; 111; 100; 105; 110; 103].
Definition CONTENT_TYPE : list Z := CONTENT ++ [116; 121; 112; 101].
Definition CONTENT_RANGE : list Z := CONTENT ++ [114; 97; 110; 103; 101].
Definition TRANSFER_ENCODING : list Z :=
  [116; 114; 97; 110; 115; 102; 101; 114; 45; 101; 110; 99; 111; 100; 105; 110; 103].
Definition ETAG : list Z := [101; 116; 97; 103].
Definition RETRY_AFTER : list Z := [114; 101; 116; 114; 121; 45; 97; 102; 116; 101; 114].

(** A [HeaderMap] in the order of its lines. *)
Definition headers_ : Type := list (list Z * list Z).
Definition get_all (headers : headers_) (name : list Z) : list (list Z) := snd <$> filter (λ h, h.1 = name) headers.
Definition contains_key (headers : headers_) (name : list Z) : bool := bool_decide (get_all headers name ≠ []).
Definition field (headers : headers_) (name : list Z) : Field :=
  match get_all headers name with [] => Missing | [value] => Single value | _ => Repeated end.

Fixpoint length_from (n : Z) (value : list Z) : result DownloadError.t Z :=
  match value with
  | [] => Ok n
  | b :: value =>
      _ ← refuse_if (negb (is_digit b)) DownloadError.InvalidHeaders;
      n ← ok_or (n ← checked_mul n 10; checked_add n (b - 48)) DownloadError.InvalidHeaders;
      length_from n value
  end.
(** [length]. *)
Definition length_of (headers : headers_) : result DownloadError.t Z :=
  match field headers CONTENT_LENGTH with
  | Single value =>
      _ ← refuse_if (bool_decide (value = []) || bool_decide (20 < length value)%nat) DownloadError.InvalidHeaders;
      n ← length_from 0 value;
      if decide (n ≤ i64_max) then Ok n else Err DownloadError.InvalidHeaders
  | _ => Err DownloadError.InvalidHeaders
  end.

(** [trim_ascii]. *)
Definition ascii_whitespace (b : Z) : bool := bool_decide (b ∈ [32; 9; 10; 12; 13]).
Fixpoint trim_start (l : list Z) : list Z :=
  match l with b :: l' => if ascii_whitespace b then trim_start l' else l | [] => [] end.
Definition trim_ascii (l : list Z) : list Z := reverse (trim_start (reverse (trim_start l))).
(** [multipart/]. *)
Definition MULTIPART : list Z := [109; 117; 108; 116; 105; 112; 97; 114; 116; 47].
Definition validate_representation (headers : headers_) : result DownloadError.t unit :=
  _ ← match field headers CONTENT_ENCODING with
      | Missing => Ok tt
      | Single value => refuse_if (negb (eq_ignore_ascii_case value identity_)) DownloadError.InvalidHeaders
      | Repeated => Err DownloadError.InvalidHeaders
      end;
  _ ← refuse_if (contains_key headers TRANSFER_ENCODING && contains_key headers CONTENT_LENGTH) DownloadError.InvalidHeaders;
  match field headers CONTENT_TYPE with
  | Repeated => Err DownloadError.InvalidHeaders
  | Single value =>
      refuse_if (bool_decide (MAX_FIELD_BYTES < Z.of_nat (length value))
        || (bool_decide (10 ≤ length (trim_ascii value))%nat && eq_ignore_ascii_case (take 10 (trim_ascii value)) MULTIPART))
        DownloadError.InvalidHeaders
  | Missing => Ok tt
  end.

(** ** One request *)

Inductive Version : Type := Http10 | Http11 | Http2.
Module HttpResponse.
Record t : Type := Make { status : Z; version : Version; headers : headers_; url : Url.t }.
End HttpResponse.
(** What became of an attempt: the cancellation came first, the time was up or the client failed,
    or the server answered. *)
Inductive Sending : Type := Stopped | Unreachable | Answered (status : Z) (version : Version) (headers : headers_).
Module Sent.
Record t : Type := Make { target : Url.t; headers : list SentHeader }.
End Sent.

(** [bytes=]. *)
Definition BYTES : list Z := [98; 121; 116; 101; 115; 61].
Definition range_value (start total : Z) : list Z := BYTES ++ render start ++ [45] ++ render (total - 1).
Definition with_range (range : option (Z * Z * list Z)) (headers : list SentHeader) : list SentHeader :=
  match range with
  | Some (start, total, etag) => headers ++ [Range (range_value start total); IfRange etag]
  | None => headers
  end.
Definition redirects_ (status : Z) : bool := bool_decide (status ∈ [301; 302; 303; 307; 308]).

Section Request.
Context (url_parse : list Z → option Url.t) (header_value : list Z → bool) (url_join : Url.t → list Z → option Url.t).

(** Where a redirect leads. *)
Definition next_location (headers : headers_) (url : Url.t) (allow_http : bool) (policy : RequestPolicy.t)
    : result DownloadError.t Url.t :=
  location ← match field headers LOCATION with Single location => Ok location | _ => Err DownloadError.InvalidHeaders end;
  _ ← refuse_if (bool_decide (16384 < length location)%nat) DownloadError.InvalidHeaders;
  location ← ok_or (from_utf8 location) DownloadError.InvalidHeaders;
  next ← ok_or (url_join url location) DownloadError.InvalidUrl;
  next ← parse_url url_parse (Url.as_str next) allow_http;
  _ ← authorize_redirect policy url next;
  Ok next.

(** The turns [redirects..=5] of the loop; a script that ends leaves the last attempt without answer. *)
Fixpoint request_from (turns : nat) (url initial : Url.t) (range : option (Z * Z * list Z)) (allow_http : bool)
    (policy : RequestPolicy.t) (script : list Sending) : list Sent.t * result DownloadError.t HttpResponse.t :=
  match turns with
  | O => ([], Err DownloadError.RedirectLimit)
  | S turns =>
      match apply_policy header_value policy [AcceptEncoding identity_] url initial with
      | Err e => ([], Err e)
      | Ok headers =>
          let sent := Sent.Make url (with_range range headers) in
          match script with
          | [] | Unreachable :: _ => ([sent], Err DownloadError.Network)
          | Stopped :: _ => ([sent], Err DownloadError.Cancelled)
          | Answered status version fields :: script =>
              if redirects_ status then
                if decide (turns = O) then ([sent], Err DownloadError.RedirectLimit)
                else match next_location fields url allow_http policy with
                | Err e => ([sent], Err e)
                | Ok next =>
                    let '(more, r) := request_from turns next initial range allow_http policy script in (sent :: more, r)
                end
              else ([sent], Ok (HttpResponse.Make status version fields url))
          end
      end
  end.
Definition request (url : Url.t) (range : option (Z * Z * list Z)) (allow_http : bool) (policy : RequestPolicy.t)
    (script : list Sending) : list Sent.t * result DownloadError.t HttpResponse.t :=
  request_from 6 url url range allow_http policy script.
End Request.
