(* ===== verification/RequestsThm.v ===== *)
(** * Theorems on the requests of the first engine *)

From S2P Require Import Prelude.
From S2P Require Import Files.
From S2P Require Import StorageFile.
From S2P Require Import ResumePolicy.
From S2P Require Import Options.
From S2P Require Import OptionsThm.
From S2P Require Import Requests.

Section Redirects.
Context (url_parse : list Z → option Url.t) (header_value : list Z → bool) (url_join : Url.t → list Z → option Url.t).
Context `{!UrlLaws url_parse}.

(** A link that was admitted. *)
Definition admitted (allow_http : bool) (u : Url.t) : Prop := ∃ raw, parse_url url_parse raw allow_http = Ok u.

Lemma authorize_redirect_Ok p u v : authorize_redirect p u v = Ok tt →
  (Url.scheme u = HTTPS → Url.scheme v = HTTPS) ∧ (Url.origin u = Url.origin v ∨ Url.ascii_origin v ∈ RequestPolicy.redirect_origins p).
Proof.
  unfold authorize_redirect, refuse_if. destruct (bool_decide _ && _) eqn:H1; [done|]. cbn. destruct (negb _ && _) eqn:H2; [done|].
  intros _. apply andb_false_iff in H1, H2. rewrite !negb_false_iff, !bool_decide_eq_true, bool_decide_eq_false in *.
  split; [intros Hs; by destruct H1|done].
Qed.
Lemma next_location_Ok fields u http p v : next_location url_parse url_join fields u http p = Ok v →
  admitted http v ∧ (Url.scheme u = HTTPS → Url.scheme v = HTTPS) ∧
  (Url.origin u = Url.origin v ∨ Url.ascii_origin v ∈ RequestPolicy.redirect_origins p).
Proof.
  unfold next_location, mbind, result_bind, ok_or, refuse_if. intros Hv. repeat (case_match; simplify_eq).
  all: split; [by eexists|]; apply authorize_redirect_Ok; by destruct (authorize_redirect p u v) as [[]|].
Qed.

(** What a header tells of the caller's credentials. *)
Definition tells (p : RequestPolicy.t) (h : SentHeader) : Prop :=
  match h with
  | Authorization v => RequestPolicy.authorization p = Some v
  | Cookie v => RequestPolicy.cookie p = Some v
  | _ => False
  end.
Definition is_secret (h : SentHeader) : Prop := match h with Authorization _ | Cookie _ => True | _ => False end.

Lemma apply_policy_Ok p target initial headers h : apply_policy header_value p [AcceptEncoding identity_] target initial = Ok headers →
  h ∈ headers → is_secret h → Url.origin target = Url.origin initial ∧ tells p h.
Proof.
  unfold apply_policy. case_decide as Ho.
  - destruct (header_of _ Authorization _) as [a|] eqn:Ha; [|done]. cbn. destruct (header_of _ Cookie _) as [c|] eqn:Hc; [|done].
    intros [= <-] Hin Hs. split; [done|]. unfold header_of in *.
    destruct (RequestPolicy.authorization p) as [va|] eqn:Ea, (RequestPolicy.cookie p) as [vc|] eqn:Ec;
      repeat case_match; simplify_eq; cbn [app] in Hin; rewrite ?elem_of_cons, ?elem_of_nil in Hin; destruct_or?; by subst.
  - intros [= <-] Hin Hs. apply list_elem_of_singleton in Hin as ->. done.
Qed.
Lemma with_range_in range headers h : h ∈ with_range range headers → is_secret h → h ∈ headers.
Proof.
  destruct range as [[[s t] e]|]; [|done]. cbn. rewrite elem_of_app. intros [?|Hin] Hs; [done|].
  rewrite !elem_of_cons, elem_of_nil in Hin. by destruct Hin as [->|[->|[]]].
Qed.

(** What a request may be, given the link asked for and the one where the walk stands. *)
Record Proper_request (http : bool) (p : RequestPolicy.t) (initial url : Url.t) (s : Sent.t) : Prop := {
  pr_admitted : admitted http (Sent.target s);
  pr_scheme : Url.scheme url = HTTPS → Url.scheme (Sent.target s) = HTTPS;
  pr_origin : Url.ascii_origin (Sent.target s) = Url.ascii_origin url ∨ Url.ascii_origin (Sent.target s) ∈ RequestPolicy.redirect_origins p;
  pr_secret : ∀ h, h ∈ Sent.headers s → is_secret h → Url.origin (Sent.target s) = Url.origin initial ∧ tells p h }.

Lemma request_from_proper turns url initial range http p script sent r :
  admitted http url → request_from url_parse header_value url_join turns url initial range http p script = (sent, r) →
  Forall (Proper_request http p initial url) sent ∧ (length sent ≤ turns)%nat ∧
  (∀ answer, r = Ok answer → redirects_ (HttpResponse.status answer) = false ∧
    Sent.target <$> last sent = Some (HttpResponse.url answer)).
Proof.
  revert url script sent r. induction turns as [|turns IH]; cbn; intros url script sent r Hu Hr; [by simplify_eq|].
  destruct (apply_policy _ _ _ _ _) as [headers|e] eqn:Ha; [|by simplify_eq; split_and!; [|cbn; lia|]].
  set (one := Sent.Make url (with_range range headers)) in *.
  assert (Proper_request http p initial url one) as Hone.
  { split; [done|done|by left|]. intros h Hh Hs. eapply apply_policy_Ok; [exact Ha|by apply (with_range_in range)|done]. }
  assert (Forall (Proper_request http p initial url) [one]) as Hjust by (by constructor).
  destruct script as [|[| |status version fields] script]; try (simplify_eq; split_and!; [done|cbn; lia|done]).
  destruct (redirects_ status) eqn:Hst; [|by simplify_eq; split_and!; [done|cbn; lia|intros ? [= <-]; split; done]].
  case_decide; [by simplify_eq; split_and!; [done|cbn; lia|done]|].
  destruct (next_location _ _ _ _ _ _) as [next|e] eqn:Hn; [|by simplify_eq; split_and!; [done|cbn; lia|done]].
  destruct (request_from _ _ _ turns _ _ _ _ _ _) as [more r'] eqn:Hm. simplify_eq.
  destruct (next_location_Ok _ _ _ _ _ Hn) as (Hnext&Htls&Horig). destruct (IH _ _ _ _ Hnext Hm) as (Hall&Hlen&Hans).
  split_and!; [|cbn; lia|].
  - constructor; [done|]. eapply Forall_impl; [exact Hall|]. intros s [H1 H2 H3 H4]. split; [done|auto| |done].
    destruct H3 as [H3|H3]; [|by right]. destruct Horig as [Ho|Ho]; [left|right; congruence].
    destruct Hu as [raw Hu], Hnext as [raw' Hv]. apply parse_url_web in Hu as [Hu Hwu], Hv as [Hv Hwv].
    rewrite H3. symmetry. by eapply origin_is_serialised.
  - intros answer ->. destruct (Hans _ eq_refl) as [? Hlast]. split; [done|]. destruct more as [|m more]; [done|].
    by rewrite last_cons_cons.
Qed.

(** C38: one request makes at most six attempts; a download asked for over TLS never leaves it, no attempt is unencrypted unless the caller allowed that, every server tried is the one asked for or one whose origin the caller listed, only the one asked for is told a credential, and the answer that is used is no redirect *)
Theorem credentials_stay_home raw url range http p script sent r :
  parse_url url_parse raw http = Ok url → request url_parse header_value url_join url range http p script = (sent, r) →
  (length sent ≤ 6)%nat ∧
  (∀ s, s ∈ sent →
    (Url.scheme url = HTTPS ∨ http = false → Url.scheme (Sent.target s) = HTTPS) ∧
    (Url.ascii_origin (Sent.target s) = Url.ascii_origin url ∨ Url.ascii_origin (Sent.target s) ∈ RequestPolicy.redirect_origins p) ∧
    (∀ h, h ∈ Sent.headers s → is_secret h → Url.origin (Sent.target s) = Url.origin url ∧ tells p h)) ∧
  (∀ answer, r = Ok answer → redirects_ (HttpResponse.status answer) = false ∧ Sent.target <$> last sent = Some (HttpResponse.url answer)).
Proof.
  intros Hu Hr. destruct (request_from_proper _ _ _ _ _ _ _ _ _ (ex_intro _ raw Hu) Hr) as (Hall&Hlen&Hans).
  split; [done|]. split; [|done]. rewrite Forall_forall in Hall. intros s Hs. destruct (Hall s Hs) as [[raw' Ha] H1 H2 H3].
  split; [|done]. intros [?| ->]; [auto|]. apply parse_url_Ok in Ha as (_&_&_&Hsch&_&_&_&_&Hh).
  rewrite elem_of_cons, list_elem_of_singleton in Hsch. destruct Hsch as [E|E]; [|done]. by specialize (Hh E).
Qed.
End Redirects.

(** ** A small web *)

Module ToyWeb.
(** https://a and its file, and https://b. *)
Definition SITE (host : Z) : list Z := HTTPS ++ [58; 47; 47; host].
Definition page (host : Z) (path : list Z) : Url.t :=
  Url.Make (SITE host ++ path) HTTPS (Some [host]) (Some 443) [] None path None None (SITE host).
Definition table : list (list Z * Url.t) :=
  [(SITE 97, page 97 [47]); (SITE 97 ++ [47], page 97 [47]); (SITE 97 ++ [47; 102], page 97 [47; 102]); (SITE 98, page 98 [47]); (SITE 98 ++ [47], page 98 [47])].
Definition parse (raw : list Z) : option Url.t := snd <$> find (λ e, bool_decide (e.1 = raw)) table.
Definition toy_join (base : Url.t) (location : list Z) : option Url.t := parse location.
Lemma parse_in raw u : parse raw = Some u → u ∈ [page 97 [47]; page 97 [47; 102]; page 98 [47]].
Proof.
  unfold parse. destruct (find _ _) as [[r v]|] eqn:H; [|done]. cbn. intros [= <-]. apply find_some in H as [H _].
  cbn in H. destruct H as [[= <- <-]|[[= <- <-]|[[= <- <-]|[[= <- <-]|[[= <- <-]|[]]]]]]; repeat (first [by left|right]).
Qed.
#[global] Instance laws : UrlLaws parse.
Proof.
  split.
  - intros raw u H _. apply parse_in in H. rewrite !elem_of_cons, elem_of_nil in H. destruct H as [->|[->|[->|[]]]];
      eexists; split; first [by vm_compute | done].
  - intros raw u raw' v H H' _ _. apply parse_in in H, H'. rewrite !elem_of_cons, elem_of_nil in H, H'.
    destruct H as [->|[->|[->|[]]]], H' as [->|[->|[->|[]]]]; first [done|by intros [=]].
  - intros raw u H _. apply parse_in in H. rewrite !elem_of_cons, elem_of_nil in H. destruct H as [->|[->|[->|[]]]]; by vm_compute.
Qed.
Definition policy : RequestPolicy.t := RequestPolicy.Make (Some [120]) None [SITE 98].
End ToyWeb.

(** The file is asked for on a, which sends on to b: b is tried, without the credential. *)
Lemma credentials_stay_home_witness :
  let run := request ToyWeb.parse (λ _, true) ToyWeb.toy_join (ToyWeb.page 97 [47; 102]) None false ToyWeb.policy
    [Answered 302 Http11 [(LOCATION, ToyWeb.SITE 98 ++ [47])]; Answered 200 Http11 []] in
  run.1 = [Sent.Make (ToyWeb.page 97 [47; 102]) [AcceptEncoding identity_; Authorization [120]];
    Sent.Make (ToyWeb.page 98 [47]) [AcceptEncoding identity_]] ∧
  (∀ s, s ∈ run.1 → (Url.scheme (ToyWeb.page 97 [47; 102]) = HTTPS ∨ false = false → Url.scheme (Sent.target s) = HTTPS)) ∧
  (∀ answer, run.2 = Ok answer → redirects_ (HttpResponse.status answer) = false).
Proof.
  intros run.
  destruct (credentials_stay_home ToyWeb.parse (λ _, true) ToyWeb.toy_join (ToyWeb.SITE 97 ++ [47; 102]) (ToyWeb.page 97 [47; 102]) None false
    ToyWeb.policy [Answered 302 Http11 [(LOCATION, ToyWeb.SITE 98 ++ [47])]; Answered 200 Http11 []] run.1 run.2) as (_&H2&H3);
    [by vm_compute|by apply surjective_pairing|].
  split; [by vm_compute|]. split; [intros s Hs; by apply H2|intros answer Ha; by apply H3].
Defined.
