(* ===== verification/Downloads.v ===== *)
(** * One download of the first engine

    [src/crates/download-engine/src/lib.rs] ([download_controlled] and what it calls), unknown.rs
    (bodies of unknown length), parallel.rs (ranges fetched side by side), rate.rs (pacing) and
    the space check of files.rs.  A download is a function of its options, of what the network
    does ([Env]), and of the state it leaves changed: the directory, the pacing and the
    cancellation, the checkpoints told to the caller, and whether it holds the directory.  A
    blocking worker that panics is not modelled; a link at the place of the directory is taken
    to lead somewhere. *)

From S2P Require Import Prelude.
From S2P Require Import Files.
From S2P Require Import StorageFile.
From S2P Require Import ResumePolicy.
From S2P Require Import LifeCycle.
From S2P Require Import TransferStore.
From S2P Require Import Options.
From S2P Require Import Requests.

(** ** Pacing *)

(** What ends a wait: the cancellation, a limit that changed, its time, the limit's sender gone. *)
Inductive Wait : Type := Interrupted | LimitChanged | Elapsed | SenderGone.
(** What is read of the cancellation and of the limits, in turn, and the nanoseconds slept:
    whether the cancellation came before a gate opened, whether it was seen by a look, the
    limits read, the ends of the waits.  Scripts that end leave gates open, nothing
    cancelled, no limit, and waits that elapse. *)
Module Pace.
Record t : Type := Make {
  gates : list bool;
  looks : list bool;
  limits : list (option Z);
  waits : list Wait;
  clock : Z }.
Definition set_gates v p := Make v (looks p) (limits p) (waits p) (clock p).
Definition set_looks v p := Make (gates p) v (limits p) (waits p) (clock p).
Definition set_limits v p := Make (gates p) (looks p) v (waits p) (clock p).
Definition set_waits v p := Make (gates p) (looks p) (limits p) v (clock p).
Definition set_clock v p := Make (gates p) (looks p) (limits p) (waits p) v.
Definition calm : t := Make [] [] [] [] 0.
End Pace.
Definition pace_st (A : Type) : Type := st Pace.t DownloadError.t A.

Definition is_cancelled : pace_st bool := λ p,
  (Ok (default false (head (Pace.looks p))), Pace.set_looks (tail (Pace.looks p)) p).
Definition read_limit : pace_st (option Z) := λ p,
  (Ok (default None (head (Pace.limits p))), Pace.set_limits (tail (Pace.limits p)) p).
(** A gate's lock, unless the cancellation comes first. *)
Definition pass_gate : pace_st unit := λ p,
  (refuse_if (default false (head (Pace.gates p))) DownloadError.Cancelled, Pace.set_gates (tail (Pace.gates p)) p).
Definition next_wait : pace_st Wait := λ p,
  (Ok (default Elapsed (head (Pace.waits p))), Pace.set_waits (tail (Pace.waits p)) p).

(** A [Bandwidth] holds a limit; [TrafficControl] the job's and the one all jobs share. *)
Definition new_bandwidth (limit : option Z) : result DownloadError.t (option Z) :=
  _ ← refuse_if (negb (valid_limit limit)) DownloadError.InvalidOptions; Ok limit.
Definition set_limit (limit : option Z) : st (option Z) DownloadError.t unit :=
  _ ← lift (refuse_if (negb (valid_limit limit)) DownloadError.InvalidOptions);
  modify (λ _, limit).
Definition traffic_control (job_rate : option Z) : result DownloadError.t (option Z * option Z) :=
  global ← new_bandwidth None;
  job ← new_bandwidth job_rate;
  Ok (job, global).

Definition MAX_SLICE : Z := 64 * 1024.
Definition slice_bytes : pace_st Z :=
  job ← read_limit;
  global ← read_limit;
  mret (default MAX_SLICE (min_opt ((λ n, Z.max 1 (Z.min (n / 10) MAX_SLICE)) <$> omap (λ l, l) [job; global]))).

(** The loop of [charge]: a wait at the rate read, anew whenever the limit changes; as many turns
    as there are waits left to be disturbed. *)
Definition delay_of (bytes rate : Z) : Z := div_ceil (bytes * 1000000000) rate.
Fixpoint charge_loop (turns : nat) (bytes : Z) : pace_st unit :=
  current ← read_limit;
  stopped ← is_cancelled;
  _ ← lift (refuse_if stopped DownloadError.Cancelled);
  match current with
  | None => mret tt
  | Some rate =>
      wait ← next_wait;
      match wait, turns with
      | Interrupted, _ | SenderGone, _ => throw DownloadError.Cancelled
      | LimitChanged, S turns => charge_loop turns bytes
      | _, _ => modify (λ p, Pace.set_clock (Pace.clock p + delay_of bytes rate) p)
      end
  end.
Definition charge (bytes : Z) : pace_st unit :=
  _ ← pass_gate;
  turns ← gets (λ p, length (Pace.waits p));
  charge_loop turns bytes.
(** [consume]: the job is charged first, then all jobs together. *)
Definition consume (bytes : Z) : pace_st unit :=
  _ ← lift (refuse_if (bool_decide (MAX_SLICE < bytes)) DownloadError.InvalidOptions);
  if decide (bytes = 0) then mret tt else
  _ ← pass_gate;
  _ ← charge bytes;
  _ ← charge bytes;
  stopped ← is_cancelled;
  lift (refuse_if stopped DownloadError.Cancelled).

(** [chunks] of a slice. *)
Fixpoint chunks_from (fuel : nat) (size : Z) (bytes : list Z) : list (list Z) :=
  match fuel, bytes with
  | S fuel, _ :: _ => take (Z.to_nat size) bytes :: chunks_from fuel size (drop (Z.to_nat size) bytes)
  | _, _ => []
  end.
Definition slices (size : Z) (bytes : list Z) : list (list Z) := chunks_from (length bytes) size bytes.

(** ** The network *)

(** One poll of a body: its clean end, bytes, a failure or the time, the cancellation. *)
Inductive Piece : Type := Ended | Chunk (bytes : list Z) | Broken_ | Stopped_.
(** One request with the body of its answer; a worker of a round, when it is joined and whether
    its task is lost; all that a download meets. *)
Module Wire.
Record t : Type := Make { sends : list Sending; pieces : list Piece; pace : Pace.t }.
End Wire.
Module Worker.
Record t : Type := Make { wire : Wire.t; rank : Z; lost : bool }.
Definition silent : t := Make (Wire.Make [] [] Pace.calm) 0 false.
End Worker.
Module Env.
Record t : Type := Make {
  sends : list Sending;
  pieces : list Piece;
  space : result ErrorKind.t Z;
  probe : Wire.t;
  rounds : list (list Worker.t) }.
End Env.

(** ** The state of a download *)

Module Run.
Record t : Type := Make { world : World.t; pace : Pace.t; told : list Z; held : bool }.
Definition set_world v r := Make v (pace r) (told r) (held r).
Definition set_pace v r := Make (world r) v (told r) (held r).
Definition set_told v r := Make (world r) (pace r) v (held r).
Definition set_held v r := Make (world r) (pace r) (told r) v.
End Run.
Definition run_st (A : Type) : Type := st Run.t DownloadError.t A.

Module Outcome.
Record t : Type := Make { bytes : Z; resumed_from : Z; path : Name }.
End Outcome.

Definition storage_error (e : StoreError.t) : DownloadError.t :=
  match e with
  | StoreError.UnsupportedVersion => DownloadError.UnsupportedStorageVersion
  | StoreError.Io kind => DownloadError.StorageIo kind
  | StoreError.Locked => DownloadError.StorageLocked
  | StoreError.Collision => DownloadError.DestinationConflict
  | StoreError.Corrupt => DownloadError.StoredDataCorrupt
  | StoreError.HashMismatch => DownloadError.ChecksumMismatch
  | _ => DownloadError.Storage
  end.
Definition on_pace {A} (m : pace_st A) : run_st A := zoom Run.pace Run.set_pace m.
Definition disk {A} (m : world_st A) : run_st A := λ run,
  let '(r, w) := m (Run.world run) in (map_err storage_error r, Run.set_world w run).
(** The same of a store that is moved into the worker and given back. *)
Definition disk_store {A} (m : handle_st A) (s : Store.t) : run_st (A * Store.t) := λ run,
  let '(r, h) := m (Handle.Make s (Run.world run)) in
  (match r with Ok a => Ok (a, Handle.store h) | Err e => Err (storage_error e) end, Run.set_world (Handle.world h) run).
Definition disk_io {A} (m : fs_st A) : run_st A := disk (on_files m).
Definition claiming (m : world_st Store.t) : run_st Store.t :=
  s ← disk m; _ ← modify (Run.set_held true); mret s.
(** The callback. *)
Definition on_checkpoint (bytes : Z) : run_st unit := modify (λ run, Run.set_told (Run.told run ++ [bytes]) run).
(** What became of a step, errors included. *)
Definition attempt {A} (m : run_st A) : run_st (result DownloadError.t A) := λ run,
  let '(r, run) := m run in (Ok r, run).

(** ** Space *)

Fixpoint private_directory (entries : list (option Node)) : run_st unit :=
  match entries with
  | [] => disk_io access
  | entry :: entries =>
      node ← disk_io (stat_entry entry);
      _ ← lift (refuse_if (bool_decide (node ≠ Dir)) DownloadError.InvalidOptions);
      private_directory entries
  end.
Definition check_space (entries : list (option Node)) (space : result ErrorKind.t Z) (bytes reserve : Z) : run_st unit :=
  _ ← private_directory entries;
  available ← lift (map_err DownloadError.StorageIo space);
  required ← lift (ok_or (checked_add bytes reserve) DownloadError.SizeLimit);
  lift (refuse_if (bool_decide (available < required)) DownloadError.InsufficientSpace).
(** [std::path::absolute], then the check. *)
Definition before_transfer (entries : list (option Node)) (space : result ErrorKind.t Z) (bytes : Z) : run_st unit :=
  _ ← disk_io access; check_space entries space bytes (1024 * 1024).

(** ** The life cycle *)

Definition advance (m : st Download.t TransitionError.t State.t) (job : Download.t) : result DownloadError.t Download.t :=
  match m job with (Ok _, job) => Ok job | (Err _, _) => Err DownloadError.InvalidTransition end.
Definition event (e : Event.t) (job : Download.t) : result DownloadError.t Download.t :=
  advance (Download.event (Download.attempt job) e) job.

(** [Fetch]. *)
Module Fetch.
Record t : Type := Make {
  url : Url.t; allow_http : bool; total : Z; etag : list Z; fingerprint : list Z; request_policy : RequestPolicy.t }.
End Fetch.

Section Download.
Context (sha256 : list Z → list Z).
Context (url_parse : list Z → option Url.t) (header_value : list Z → bool) (url_join : Url.t → list Z → option Url.t).

(** ** What an answer must be *)

Definition accept_status (response : HttpResponse.t) : result DownloadError.t unit :=
  if bool_decide (HttpResponse.status response ∈ [200; 206]) then Ok tt
  else if contains_key (HttpResponse.headers response) RETRY_AFTER
  then Err (DownloadError.ServerBackoff (HttpResponse.status response))
  else Err (DownloadError.HttpStatus (HttpResponse.status response)).
Definition fingerprint_of (url : Url.t) : list Z := url_fingerprint sha256 (Url.as_str url).
Definition response_headers (headers : headers_) : ResponseHeaders.t :=
  ResponseHeaders.Make (field headers CONTENT_RANGE) (field headers CONTENT_LENGTH) (field headers ETAG)
    (field headers CONTENT_ENCODING).
Definition parse_etag (etag : list Z) : result DownloadError.t StrongEtag.t :=
  map_err (λ _, DownloadError.ResumeUnsupported) (StrongEtag.parse (utf8 etag)).
(** The answer to a request for [start..end]. *)
Definition accept_range (start end_ total : Z) (etag : list Z) (response : HttpResponse.t) : result DownloadError.t unit :=
  tag ← parse_etag etag;
  expected ← map_err (λ _, DownloadError.ResumeRejected) (ResumeRequest.new start end_ total tag);
  match evaluate expected (HttpResponse.status response) (response_headers (HttpResponse.headers response)) with
  | ReadRange _ => Ok tt
  | _ => Err DownloadError.ResumeRejected
  end.
(** The tag a new store is given: none, unless it is one strong tag. *)
Definition new_etag (headers : headers_) : result DownloadError.t (option (list Z)) :=
  match field headers ETAG with
  | Missing => Ok None
  | Repeated => Err DownloadError.InvalidHeaders
  | Single v =>
      _ ← refuse_if (bool_decide (MAX_FIELD_BYTES < Z.of_nat (length v))) DownloadError.InvalidHeaders;
      if is_ok (StrongEtag.parse v) then Some <$> ok_or (from_utf8 v) DownloadError.InvalidHeaders else Ok None
  end.

(** ** Stores *)

(** [store.append], with a checkpoint when enough is waiting. *)
Definition append_then_checkpoint (bytes : list Z) (threshold : Z) : handle_st unit :=
  _ ← append_bytes bytes;
  s ← self;
  if decide (threshold ≤ Store.len s - Store.committed s) then checkpoint_store sha256 else mret tt.
Definition checkpointed : handle_st Z := _ ← checkpoint_store sha256; s ← self; mret (Store.committed s).
(** [checkpoint], which drops the store, and the error that follows. *)
Definition stop {A} (e : DownloadError.t) (s : Store.t) : run_st A :=
  p ← disk_store checkpointed s;
  _ ← on_checkpoint p.1;
  throw e.
Definition add (bytes : list Z) (threshold : Z) (s : Store.t) : run_st Store.t :=
  p ← disk_store (append_then_checkpoint bytes threshold) s;
  let s := p.2 in
  _ ← (if decide (Store.len s = Store.committed s) then on_checkpoint (Store.committed s) else mret tt);
  mret s.

(** The slices of a chunk, each paid for before it is appended. *)
Fixpoint add_slices (threshold : Z) (parts : list (list Z)) (s : Store.t) : run_st Store.t :=
  match parts with
  | [] => mret s
  | bytes :: parts =>
      paid ← attempt (on_pace (consume (Z.of_nat (length bytes))));
      stopped ← match paid with
                | Err e => mret (Some e)
                | Ok _ => c ← on_pace is_cancelled; mret (if c : bool then Some DownloadError.Cancelled else None)
                end;
      match stopped with
      | Some e => stop e s
      | None => s ← add bytes threshold s; add_slices threshold parts s
      end
  end.

(** The body of the answer, of [total] bytes; a script that ends is a network that failed. *)
Fixpoint receive (threshold total : Z) (pieces : list Piece) (received : Z) (s : Store.t) : run_st (Z * Store.t) :=
  match pieces with
  | Ended :: _ => mret (received, s)
  | [] | Broken_ :: _ => stop DownloadError.Network s
  | Stopped_ :: _ => stop DownloadError.Cancelled s
  | Chunk bytes :: pieces =>
      received ← lift (ok_or (checked_add received (Z.of_nat (length bytes))) DownloadError.BodyLength);
      _ ← lift (refuse_if (bool_decide (total < received)) DownloadError.BodyLength);
      size ← on_pace slice_bytes;
      s ← add_slices threshold (slices size bytes) s;
      receive threshold total pieces received s
  end.

(** ** Bodies of unknown length *)

(** [chunked]. *)
Definition CHUNKED : list Z := [99; 104; 117; 110; 107; 101; 100].
Definition validate_framing (response : HttpResponse.t) : result DownloadError.t unit :=
  let headers := HttpResponse.headers response in
  _ ← refuse_if (contains_key headers CONTENT_LENGTH) DownloadError.InvalidHeaders;
  match HttpResponse.version response, field headers TRANSFER_ENCODING with
  | Http11, Single value => refuse_if (negb (eq_ignore_ascii_case value CHUNKED)) DownloadError.InvalidHeaders
  | Http2, Missing => Ok tt
  | _, _ => Err DownloadError.InvalidHeaders
  end.
Fixpoint receive_unknown (threshold max : Z) (pieces : list Piece) (s : Store.t) : run_st Store.t :=
  match pieces with
  | Ended :: _ => mret s
  | [] | Broken_ :: _ => stop DownloadError.Network s
  | Stopped_ :: _ => stop DownloadError.Cancelled s
  | Chunk bytes :: pieces =>
      if negb (is_some_and (λ size, bool_decide (size ≤ max)) (checked_add (Store.len s) (Z.of_nat (length bytes))))
      then stop DownloadError.SizeLimit s
      else
        size ← on_pace slice_bytes;
        s ← add_slices threshold (slices size bytes) s;
        receive_unknown threshold max pieces s
  end.
(** The entries of the directories above, [None] where there is no parent. *)
Definition parents : run_st (list (option Node)) :=
  above ← gets (λ run, World.above (Run.world run));
  _ ← lift (refuse_if (bool_decide (above = [])) DownloadError.InvalidOptions);
  mret above.
Definition transfer_unknown (o : Options.t) (env : Env.t) (original : Url.t) (response : HttpResponse.t) : run_st Outcome.t :=
  _ ← lift (validate_framing response);
  strong_etag ← lift (new_etag (HttpResponse.headers response));
  stopped ← on_pace is_cancelled;
  _ ← lift (refuse_if stopped DownloadError.Cancelled);
  let identity := Identity.Make (fingerprint_of original) (fingerprint_of (HttpResponse.url response)) strong_etag
                    (Options.max_download_bytes o) (Options.expected_sha256 o) in
  above ← parents;
  _ ← before_transfer above (Env.space env) 0;
  s ← claiming (create_unknown sha256 identity (Options.output_name o));
  s ← receive_unknown (Options.checkpoint_bytes o) (Options.max_download_bytes o) (Env.pieces env) s;
  stopped ← on_pace is_cancelled;
  if stopped : bool then stop DownloadError.Cancelled s else
  let bytes := Store.len s in
  p ← disk_store (_ ← mark_unknown_transfer_complete sha256; finalize sha256) s;
  _ ← on_checkpoint bytes;
  mret (Outcome.Make bytes 0 p.1).

(** ** Ranges side by side *)

Definition RANGE_BYTES : Z := 256 * 1024.

Fixpoint pay_slices (parts : list (list Z)) : pace_st unit :=
  match parts with
  | [] => mret tt
  | part :: parts => _ ← consume (Z.of_nat (length part)); pay_slices parts
  end.
(** The loop of [range]: at most [left] more bytes. *)
Fixpoint gather (left : Z) (pieces : list Piece) (bytes : list Z) : pace_st (list Z) :=
  match pieces with
  | Ended :: _ => mret bytes
  | [] | Broken_ :: _ => throw DownloadError.Network
  | Stopped_ :: _ => throw DownloadError.Cancelled
  | Chunk chunk :: pieces =>
      _ ← lift (refuse_if (bool_decide (left < Z.of_nat (length chunk))) DownloadError.BodyLength);
      size ← slice_bytes;
      _ ← pay_slices (slices size chunk);
      gather (left - Z.of_nat (length chunk)) pieces (bytes ++ chunk)
  end.
(** [None] where the server answers with the whole. *)
Definition range (f : Fetch.t) (start end_ : Z) (wire : Wire.t) : result DownloadError.t (option (list Z)) :=
  response ← (request url_parse header_value url_join (Fetch.url f) (Some (start, end_, Fetch.etag f)) (Fetch.allow_http f)
                (Fetch.request_policy f) (Wire.sends wire)).2;
  let headers := HttpResponse.headers response in
  _ ← accept_status response;
  _ ← validate_representation headers;
  _ ← refuse_if (negb (bool_decide (fingerprint_of (HttpResponse.url response) = Fetch.fingerprint f)))
        DownloadError.RepresentationChanged;
  _ ← match field headers ETAG with
      | Single v => refuse_if (negb (bool_decide (v = utf8 (Fetch.etag f)))) DownloadError.RepresentationChanged
      | _ => Err DownloadError.RepresentationChanged
      end;
  if decide (HttpResponse.status response = 200) then
    n ← length_of headers;
    _ ← refuse_if (negb (bool_decide (n = Fetch.total f)) || contains_key headers CONTENT_RANGE)
          DownloadError.RepresentationChanged;
    Ok None
  else
    _ ← accept_range start end_ (Fetch.total f) (Fetch.etag f) response;
    bytes ← (gather (end_ - start) (Wire.pieces wire) [] (Wire.pace wire)).1;
    _ ← refuse_if (negb (bool_decide (Z.of_nat (length bytes) = end_ - start))) DownloadError.BodyLength;
    Ok (Some bytes).

(** [append] of parallel.rs. *)
Definition append_range (bytes : list Z) (threshold : Z) (s : Store.t) : run_st Store.t :=
  stopped ← on_pace is_cancelled;
  if stopped : bool then stop DownloadError.Cancelled s else add bytes threshold s.
Fixpoint append_ranges (threshold : Z) (results : list (Z * list Z)) (s : Store.t) : run_st Store.t :=
  match results with
  | [] => mret s
  | (_, bytes) :: results => s ← append_range bytes threshold s; append_ranges threshold results s
  end.

Definition range_end (total offset : Z) : Z := offset + Z.min RANGE_BYTES (total - offset).
(** The ranges of a round: index, start and end. *)
Fixpoint spans (connections : nat) (index offset total : Z) : list (Z * Z * Z) :=
  match connections with
  | O => []
  | S connections =>
      if decide (offset = total) then []
      else (index, offset, range_end total offset) :: spans connections (index + 1) (range_end total offset) total
  end.
(** A task that is joined: its bytes, or the error the round fails with. *)
Definition joined (f : Fetch.t) (task : Z * Z * Z * Worker.t) : result DownloadError.t (Z * list Z) :=
  let '(index, start, end_, worker) := task in
  if Worker.lost worker then Err DownloadError.WorkerFailed else
  bytes ← range f start end_ (Worker.wire worker);
  match bytes with Some bytes => Ok (index, bytes) | None => Err DownloadError.ResumeRejected end.
(** The workers of a round in the order they are joined; the first failure ends it. *)
Definition tasks (ranges : list (Z * Z * Z)) (workers : list Worker.t) : list (Z * Z * Z * Worker.t) :=
  sort_by_key (λ t, Worker.rank t.2)
    (imap (λ i r, (r, default Worker.silent (workers !! i))) ranges).
Fixpoint rounds_loop (f : Fetch.t) (connections : nat) (threshold : Z) (rounds : list (list Worker.t)) (offset : Z)
    (s : Store.t) : run_st Store.t :=
  if decide (Fetch.total f ≤ offset) then mret s else
  match rounds with
  | [] => stop DownloadError.Network s
  | workers :: rounds =>
      let ranges := spans connections 0 offset (Fetch.total f) in
      match collect (joined f) (tasks ranges workers) with
      | Err e => stop e s
      | Ok results =>
          s ← append_ranges threshold (sort_by_key fst results) s;
          rounds_loop f connections threshold rounds (default offset (snd <$> last ranges)) s
      end
  end.
(** [transfer] of parallel.rs: the store, and whether the first answer was dropped. *)
Definition transfer_parallel (o : Options.t) (env : Env.t) (original : Url.t) (s : Store.t) : run_st (bool * Store.t) :=
  etag ← lift (ok_or (Identity.strong_etag (Store.identity s)) DownloadError.ResumeUnsupported);
  let f := Fetch.Make original (Options.allow_http o) (Store.total s) etag
             (Identity.final_url_fingerprint (Store.identity s)) (Options.request_policy o) in
  let offset := Store.len s in
  let end_ := range_end (Fetch.total f) offset in
  first ← lift (range f offset end_ (Env.probe env));
  match first with
  | None => mret (false, s)
  | Some first =>
      s ← append_range first (Options.checkpoint_bytes o) s;
      s ← rounds_loop f (Z.to_nat (Options.parallel_connections o)) (Options.checkpoint_bytes o) (Env.rounds env) end_ s;
      mret (true, s)
  end.

(** ** The download *)

Definition check_options (o : Options.t) : result DownloadError.t Url.t :=
  _ ← refuse_if (negb (valid_limit (Options.bytes_per_second o)) || negb (bool_decide (1 ≤ Options.parallel_connections o ≤ 8))
        || bool_decide (Options.checkpoint_bytes o = 0) || bool_decide (64 * 1024 * 1024 < Options.checkpoint_bytes o)
        || bool_decide (Options.max_download_bytes o = 0) || bool_decide (i64_max < Options.max_download_bytes o))
        DownloadError.InvalidOptions;
  _ ← validate_policy url_parse header_value (Options.request_policy o);
  _ ← refuse_if (bool_decide (is_Some (Options.refresh_from o)) && bool_decide (Options.expected_sha256 o = None))
        DownloadError.InvalidOptions;
  parse_url url_parse (Options.url o) (Options.allow_http o).

(** The store that is already there. *)
Definition open_existing : run_st (option Store.t) :=
  _ ← disk_io access;
  here ← gets (λ run, World.here (Run.world run));
  match here with
  | None => mret None
  | Some _ => s ← claiming (open_store sha256); mret (Some s)
  end.
Definition check_existing (o : Options.t) (original : Url.t) (s : Store.t) : result DownloadError.t unit :=
  let i := Store.identity s in
  _ ← refuse_if ((negb (bool_decide (Identity.original_url_fingerprint i = fingerprint_of original))
                   && negb (bool_decide (Options.refresh_from o = Some (Identity.original_url_fingerprint i))))
        || negb (bool_decide (Identity.expected_sha256 i = Options.expected_sha256 o))
        || negb (bool_decide (Store.output s = Options.output_name o))) DownloadError.LocalStateMismatch;
  refuse_if (bool_decide (Options.max_download_bytes o < Identity.total i)) DownloadError.SizeLimit.
Definition space_existing (env : Env.t) (s : Store.t) : run_st unit :=
  match status s with
  | Status.Downloading =>
      if Store.unknown_length s then mret tt else
      entries ← gets (λ run, World.here (Run.world run) :: World.above (Run.world run));
      before_transfer entries (Env.space env) (saturating_sub (Store.total s) (Store.committed s))
  | _ => mret tt
  end.
(** The answer to a store that is already there. *)
Definition accept_existing (o : Options.t) (s : Store.t) (response : HttpResponse.t) : result DownloadError.t unit :=
  let i := Store.identity s in
  let headers := HttpResponse.headers response in
  _ ← refuse_if (negb (bool_decide (fingerprint_of (HttpResponse.url response) = Identity.final_url_fingerprint i))
        && bool_decide (Options.refresh_from o = None)) DownloadError.RepresentationChanged;
  if decide (0 < Store.committed s) then
    etag ← ok_or (Identity.strong_etag i) DownloadError.ResumeUnsupported;
    accept_range (Store.committed s) (Store.total s) (Store.total s) etag response
  else
    _ ← refuse_if (negb (bool_decide (HttpResponse.status response = 200))) (DownloadError.HttpStatus (HttpResponse.status response));
    _ ← refuse_if (contains_key headers CONTENT_RANGE) DownloadError.InvalidHeaders;
    n ← length_of headers;
    _ ← refuse_if (negb (bool_decide (n = Store.total s))) DownloadError.RepresentationChanged;
    match Identity.strong_etag i with
    | None => Ok tt
    | Some tag =>
        match field headers ETAG with
        | Single v => refuse_if (negb (bool_decide (v = utf8 tag))) DownloadError.RepresentationChanged
        | _ => Err DownloadError.RepresentationChanged
        end
    end.

(** From a store and an accepted answer to the published output. *)
Definition finish (o : Options.t) (env : Env.t) (original : Url.t) (response : HttpResponse.t) (job : Download.t)
    (start : Z) (s : Store.t) : run_st Outcome.t :=
  job ← lift (event Event.ProbeSucceeded job);
  s ← (if decide (is_Some (Options.refresh_from o)) then
         p ← disk_store (rebind_urls (fingerprint_of original) (fingerprint_of (HttpResponse.url response))) s; mret p.2
       else mret s);
  let total := Store.total s in
  p ← (if bool_decide (1 < Options.parallel_connections o) && bool_decide (RANGE_BYTES < total - start)
          && bool_decide (is_Some (Identity.strong_etag (Store.identity s)))
       then p ← transfer_parallel o env original s; mret (p, Store.len p.2)
       else mret (false, s, start));
  let '(taken, s, received) := p in
  p ← (if taken : bool then mret (received, s)
       else receive (Options.checkpoint_bytes o) total (Env.pieces env) received s);
  let s := p.2 in
  _ ← lift (refuse_if (negb (bool_decide (p.1 = total))) DownloadError.BodyLength);
  stopped ← on_pace is_cancelled;
  if stopped : bool then stop DownloadError.Cancelled s else
  job ← lift (event Event.TransferFinished job);
  p ← disk_store (_ ← mark_transfer_complete sha256; finalize sha256) s;
  job ← lift (event Event.Verified job);
  _ ← lift (event Event.PublishSucceeded job);
  mret (Outcome.Make total start p.1).

(** A store whose bytes are all there. *)
Definition publish_existing (start : Z) (s : Store.t) : run_st Outcome.t :=
  let total := Store.total s in
  stopped ← on_pace is_cancelled;
  _ ← lift (refuse_if stopped DownloadError.Cancelled);
  p ← disk_store (finalize sha256) s;
  mret (Outcome.Make total start p.1).
(** The range asked for. *)
Definition resume_range (start : Z) (existing : option Store.t) : result DownloadError.t (option (Z * Z * list Z)) :=
  match existing with
  | Some s =>
      if decide (0 < start) then
        etag ← ok_or (Identity.strong_etag (Store.identity s)) DownloadError.ResumeUnsupported;
        _ ← parse_etag etag;
        Ok (Some (start, Store.total s, etag))
      else Ok None
  | None => Ok None
  end.
(** A store for an answer to the first request. *)
Definition create_for (o : Options.t) (env : Env.t) (original : Url.t) (response : HttpResponse.t) : run_st Store.t :=
  let headers := HttpResponse.headers response in
  total ← lift (length_of headers);
  _ ← lift (refuse_if (bool_decide (Options.max_download_bytes o < total)) DownloadError.SizeLimit);
  above ← parents;
  _ ← before_transfer above (Env.space env) total;
  strong_etag ← lift (new_etag headers);
  let identity := Identity.Make (fingerprint_of original) (fingerprint_of (HttpResponse.url response)) strong_etag
                    total (Options.expected_sha256 o) in
  claiming (create sha256 identity (Options.output_name o)).
(** From the first request on. *)
Definition ask_and_receive (o : Options.t) (env : Env.t) (original : Url.t) (start : Z) (existing : option Store.t)
    : run_st Outcome.t :=
  range ← lift (resume_range start existing);
  response ← lift (request url_parse header_value url_join original range (Options.allow_http o) (Options.request_policy o)
                     (Env.sends env)).2;
  _ ← lift (accept_status response);
  let headers := HttpResponse.headers response in
  _ ← lift (validate_representation headers);
  job ← lift (advance (Download.command Command.Start) (Download.new 1));
  match existing with
  | Some s =>
      _ ← lift (accept_existing o s response);
      finish o env original response job start s
  | None =>
      _ ← lift (refuse_if (negb (bool_decide (HttpResponse.status response = 200)))
                  (DownloadError.HttpStatus (HttpResponse.status response)));
      _ ← lift (refuse_if (contains_key headers CONTENT_RANGE) DownloadError.InvalidHeaders);
      if negb (contains_key headers CONTENT_LENGTH) then transfer_unknown o env original response else
      s ← create_for o env original response;
      finish o env original response job start s
  end.

Definition download_body (o : Options.t) (env : Env.t) : run_st Outcome.t :=
  original ← lift (check_options o);
  stopped ← on_pace is_cancelled;
  _ ← lift (refuse_if stopped DownloadError.Cancelled);
  existing ← open_existing;
  stopped ← on_pace is_cancelled;
  _ ← lift (refuse_if stopped DownloadError.Cancelled);
  match existing with
  | Some s =>
      _ ← lift (check_existing o original s);
      let start := Store.committed s in
      _ ← space_existing env s;
      _ ← (if decide (0 < start) then on_checkpoint start else mret tt);
      match status s with
      | Status.Downloading =>
          _ ← lift (refuse_if (Store.unknown_length s) DownloadError.ResumeUnsupported);
          _ ← lift (refuse_if (bool_decide (start = Store.total s) && bool_decide (0 < start)) DownloadError.ResumeRejected);
          ask_and_receive o env original start (Some s)
      | _ => publish_existing start s
      end
  | None => ask_and_receive o env original 0 None
  end.
(** The store is dropped on every way out. *)
Definition download_controlled (o : Options.t) (env : Env.t) : run_st Outcome.t := λ run,
  let '(r, run) := download_body o env run in
  (r, if Run.held run then Run.set_world (close_store (Run.world run)) run else run).
(** The pacing of [download] starts from the rate of the options. *)
Definition download (o : Options.t) (env : Env.t) : run_st Outcome.t :=
  _ ← lift (traffic_control (Options.bytes_per_second o));
  download_controlled o env.
End Download.
