(* ===== verification/DownloadsThm.v ===== *)
(** * What one download of the first engine promises

    Over any number of attempts, whatever the network, the files and the database do: what
    reaches the output is one representation the server served, and what was reported to the
    caller stays. *)

From S2P Require Import Prelude.
From S2P Require Import Files.
From S2P Require Import FilesInv.
From S2P Require Import StorageFile.
From S2P Require Import ResumePolicy.
From S2P Require Import LifeCycle.
From S2P Require Import TransferStore.
From S2P Require Import TransferStoreInv.
From S2P Require Import TransferStoreOps.
From S2P Require Import TransferStoreOpen.
From S2P Require Import TransferStoreThm.
From S2P Require Import TransferStoreMain.
From S2P Require Import Options.
From S2P Require Import OptionsThm.
From S2P Require Import Requests.
From S2P Require Import RequestsThm.
From S2P Require Import Downloads.

(** ** What the operations of a store leave alone *)

(** The columns that say which representation is stored, and the bytes in hand. *)
Definition fixed_row (r : Row.t) : Z * option (list Z) * Z * Z :=
  (Row.version r, Row.etag r, Row.total r, Row.length_known r).
Definition pinned (h : Handle.t) : option (Z * option (list Z) * Z * Z) * list Z * option (list Z) * Z * bool :=
  (fixed_row <$> World.row (Handle.world h), Store.hasher (Handle.store h), Identity.strong_etag (Store.identity (Handle.store h)),
   Store.total (Handle.store h), Store.unknown_length (Handle.store h)).
Definition pins {A} (m : handle_st A) : Prop := ∀ h, pinned (m h).2 = pinned h.
Definition keeps_row {A} (m : world_st A) : Prop := ∀ w, fixed_row <$> World.row (m w).2 = fixed_row <$> World.row w.

Lemma keeps_row_looks {A} (m : world_st A) : looks m → keeps_row m.
Proof. intros Hm w. destruct (Hm w). congruence. Qed.
Lemma keeps_row_on_files {A} (m : fs_st A) : keeps_row (on_files m).
Proof. intros w. unfold on_files. by destruct (m _). Qed.
Lemma keeps_row_update cond f : (∀ r, fixed_row (f r) = fixed_row r) → keeps_row (update_row cond f).
Proof.
  intros Hf w. unfold update_row, statement. destruct (head _) as [[]|]; cbn; try done;
    destruct (World.row w) as [r|] eqn:Hr; cbn; rewrite ?Hr; try done; destruct (cond r); cbn; rewrite ?Hr; try done;
    destruct (Row.checks (f r)); cbn; rewrite ?Hr; cbn; by rewrite ?Hf.
Qed.
Lemma pins_bind {A B} (m : handle_st A) (k : A → handle_st B) : pins m → (∀ a, pins (k a)) → pins (m ≫= k).
Proof.
  intros Hm Hk h. unfold mbind, st_bind. specialize (Hm h). destruct (m h) as [[a|e] h']; cbn in *; [|done]. by rewrite Hk.
Qed.
Lemma pins_pure {A} (m : handle_st A) : (∀ h, (m h).2 = h) → pins m.
Proof. intros Hm h. by rewrite Hm. Qed.
Lemma pins_on_world {A} (m : world_st A) : keeps_row m → pins (on_world m).
Proof. intros Hm h. unfold on_world. specialize (Hm (Handle.world h)). destruct (m _). unfold pinned. cbn in *. by rewrite Hm. Qed.
Lemma pins_on_store f : (∀ s, Store.hasher (f s) = Store.hasher s ∧ Store.unknown_length (f s) = Store.unknown_length s ∧
    Store.total (f s) = Store.total s ∧ Identity.strong_etag (Store.identity (f s)) = Identity.strong_etag (Store.identity s)) →
  pins (on_store f).
Proof. intros Hf h. unfold pinned. cbn. by destruct (Hf (Handle.store h)) as (->&->&->&->). Qed.
Lemma pins_if {A} (P : Prop) `{base.Decision P} (m m' : handle_st A) : pins m → pins m' → pins (if decide P then m else m').
Proof. by case_decide. Qed.
Lemma pins_occupied : pins occupied.
Proof. intros h. unfold occupied, pinned. destruct (symlink_metadata _ _) as [[?|[]] ?]; done. Qed.
Local Ltac pins_tac := repeat first
  [ apply pins_on_world; first [ apply keeps_row_on_files | by apply keeps_row_update
                               | apply keeps_row_looks; solve [auto using looks_verify_destination with looks keeps] ]
  | by apply pins_on_store | apply pins_occupied | apply pins_if | apply pins_bind; [|intros ?] | by apply pins_pure
  | match goal with |- pins (match ?x with _ => _ end) => destruct x end ].
Lemma pins_checkpoint sha256 : pins (checkpoint_store sha256).
Proof. unfold checkpoint_store, guard, poisoning. pins_tac. Qed.
Lemma pins_mark sha256 : pins (mark_transfer_complete sha256).
Proof. unfold mark_transfer_complete, checkpoint_store, guard, poisoning, set_phase_row. pins_tac. Qed.
Lemma pins_rebind o f : pins (rebind_urls o f).
Proof. unfold rebind_urls, guard, poisoning. pins_tac. Qed.
Lemma pins_finalize sha256 : pins (finalize sha256).
Proof. unfold finalize, intend, publish_part, hash_part, guard, poisoning, set_phase_row, sync_directory. pins_tac. Qed.

(** Appending: the record stays, the bytes in hand grow by these or stay. *)
Definition row_of (h : Handle.t) : option Row.t := World.row (Handle.world h).
Lemma append_any bytes h : let h' := (append_bytes bytes h).2 in
  row_of h' = row_of h ∧ Store.identity (Handle.store h') = Store.identity (Handle.store h) ∧
  (Store.hasher (Handle.store h') = Store.hasher (Handle.store h) ∨
   Store.hasher (Handle.store h') = Store.hasher (Handle.store h) ++ bytes).
Proof.
  unfold append_bytes, guard, self, gets, lift, poisoning, write_part, on_world, on_store, modify, mbind, st_bind, row_of. cbn.
  destruct (refuse_if _ _); cbn; [|by auto]. destruct (ok_or _ _); cbn; [|by auto]. destruct (refuse_if _ _); cbn; [|by auto].
  unfold on_files. destruct (write_all _ _ _ _) as [[[]|e] w']; cbn; auto.
Qed.
Lemma append_Ok bytes h h' : append_bytes bytes h = (Ok tt, h') →
  Store.poisoned (Handle.store h') = false ∧ Store.hasher (Handle.store h') = Store.hasher (Handle.store h) ++ bytes ∧
  Store.committed (Handle.store h') = Store.committed (Handle.store h).
Proof.
  unfold append_bytes, guard, self, gets, lift, poisoning, write_part, on_world, on_store, modify, mbind, st_bind. cbn.
  destruct (refuse_if _ _); cbn; [|done]. destruct (ok_or _ _); cbn; [|done]. destruct (refuse_if _ _); cbn; [|done].
  unfold on_files. destruct (write_all _ _ _ _) as [[[]|e] w']; cbn; [|done]. by intros [= <-].
Qed.
Lemma finalize_ready sha256 h n h' : finalize sha256 h = (Ok n, h') → Store.poisoned (Handle.store h') = false.
Proof. unfold finalize. intros Hr. apply bind_Ok in Hr as ([]&h0&_&Hr). by apply poisoning_store in Hr as (h1&_&->). Qed.

(** The end of a body of unknown length: its length becomes known, or the record stays. *)
Lemma complete_length_row n w : let w' := (complete_length n w).2 in
  World.row w' = World.row w ∨ World.row w' = Row.set_length n 1 1 <$> World.row w.
Proof.
  unfold complete_length, db_call, statement, mbind, st_bind, lift. cbn.
  destruct (World.fates w) as [|[] [|[] [|[] f]]]; cbn; repeat (case_match; cbn); simplify_eq/=; auto.
Qed.
Lemma mark_unknown_any sha256 h : let h' := (mark_unknown_transfer_complete sha256 h).2 in
  Store.hasher (Handle.store h') = Store.hasher (Handle.store h) ∧
  Identity.strong_etag (Store.identity (Handle.store h')) = Identity.strong_etag (Store.identity (Handle.store h)) ∧
  (Store.total (Handle.store h') = Store.total (Handle.store h) ∨
   Store.total (Handle.store h') = Store.len (Handle.store h) ∧ Store.poisoned (Handle.store h) = false) ∧
  (fixed_row <$> row_of h' = fixed_row <$> row_of h ∨
   fixed_row <$> row_of h' = (λ r, (Row.version r, Row.etag r, Store.len (Handle.store h), 1)) <$> row_of h).
Proof.
  unfold mark_unknown_transfer_complete, guard, self, gets, lift, refuse_if, mbind, st_bind. cbn.
  destruct (Store.unknown_length (Handle.store h)); cbn; [|auto 10].
  pose proof (pins_checkpoint sha256 h) as Hp.
  destruct (checkpoint_store sha256 h) as [[[]|e] h1] eqn:Hc; cbn in *.
  2:{ unfold pinned in Hp. injection Hp as Hr Hh He Ht Hu. unfold row_of. auto. }
  assert (Store.len (Handle.store h1) = Store.len (Handle.store h) ∧ Store.poisoned (Handle.store h) = false) as [Hl Hpo]
    by (apply checkpoint_Ok in Hc as (?&_&->); by split).
  unfold pinned in Hp. injection Hp as Hr Hh He Ht Hu.
  unfold poisoning, on_store, modify, self, gets, on_world, mbind, st_bind. cbn.
  pose proof (complete_length_row (Store.len (Handle.store h1)) (Handle.world h1)) as Hrow. cbn in Hrow.
  destruct (complete_length _ _) as [[[]|e] w']; cbn in *; rewrite ?Hh, ?He, ?Hl; split_and!; auto; unfold row_of in *; cbn;
    (destruct Hrow as [-> | ->]; [left; done|right]; rewrite Hl; destruct (World.row (Handle.world h1)), (World.row (Handle.world h)); cbn in *; simplify_eq; unfold fixed_row in *; cbn; congruence).
Qed.

Lemma refuse_open {E} b (e : E) u : refuse_if b e = Ok u → b = false.
Proof. by destruct b. Qed.

(** One call of the engine, and what it meets. *)
Module Attempt.
Record t : Type := Make {
  options : Options.t; env : Env.t; pace : Pace.t; faults : list (option (ErrorKind.t * nat)); fates : list Fate.t }.
End Attempt.

(** ** Representations

    [whole] says of bytes that the server served them as the whole of the resource at some
    time; [version] does so of the bytes that carry a strong entity tag. *)

Definition tag_of_text (e : list Z) : option (list Z) := StrongEtag.tag <$> ok (StrongEtag.parse (utf8 e)).

Section Web.
Context (sha256 : list Z → list Z) (whole : list Z → Prop) (version : list Z → list Z → Prop).
Implicit Types (s : Store.t) (w : World.t) (r : Row.t) (h : Handle.t) (run : Run.t) (o : Options.t).

Definition is_version (t : option (list Z)) (c : list Z) : Prop := match t with Some t => version t c | None => whole c end.
(** Bytes on the way to the representation [c], as the record knows it. *)
Record genuine (c : list Z) r (bytes : list Z) : Prop := {
  ge_version : is_version (Row.etag r ≫= tag_of_text) c;
  ge_prefix : bytes `prefix_of` c;
  ge_total : row_unknown r = false → Row.total r = Z.of_nat (length c) }.
Lemma genuine_fixed c r r' bytes : fixed_row r' = fixed_row r → genuine c r bytes → genuine c r' bytes.
Proof.
  unfold fixed_row. intros [= Hv He Ht Hl] []. split; [congruence|done|]. unfold row_unknown in *. rewrite Hv, Hl, Ht. done.
Qed.
Lemma genuine_prefix c r b b' : b' `prefix_of` b → genuine c r b → genuine c r b'.
Proof. intros Hp []. split; [done|by etrans|done]. Qed.

(** What a directory keeps between two attempts: nothing on record, or [bytes] of a
    representation. *)
Inductive Sound (bytes : list Z) w : Prop :=
| sound_vacant : vacant w → bytes = [] → Sound bytes w
| sound_resting p r c : Resting sha256 w p r → recorded w p r = bytes → genuine c r bytes → Sound bytes w.

(** A handle on the way to [c]: the bytes of an earlier record are kept, what was told is on
    record and within the limit. *)
Record Holding o (c floor : list Z) (told : list Z) h : Prop := {
  ho_live : Live sha256 h;
  ho_genuine : ∃ r, row_of h = Some r ∧ Row.etag r = Identity.strong_etag (Store.identity (Handle.store h)) ∧
    genuine c r (Store.hasher (Handle.store h));
  ho_floor : floor `prefix_of` Store.hasher (Handle.store h);
  ho_kept : Z.of_nat (length floor) ≤ Store.committed (Handle.store h);
  ho_told : Forall (λ n, n ≤ Store.committed (Handle.store h) ∧ n ≤ Options.max_download_bytes o) told;
  ho_output : Store.output (Handle.store h) = Options.output_name o;
  ho_expected : Identity.expected_sha256 (Store.identity (Handle.store h)) = Options.expected_sha256 o;
  ho_total : Store.total (Handle.store h) ≤ Options.max_download_bytes o }.

Section Steps.
Context (o : Options.t) (c floor : list Z).
Abbreviation Holding := (Holding o c floor).

Lemma Holding_moves told h h' : Holding told h → Live sha256 h' → grows (Handle.store h) (Handle.store h') →
  (∃ r, row_of h' = Some r ∧ Row.etag r = Identity.strong_etag (Store.identity (Handle.store h')) ∧
    genuine c r (Store.hasher (Handle.store h'))) →
  Store.total (Handle.store h') ≤ Options.max_download_bytes o → Holding told h'.
Proof.
  intros [] Hl [] Hg Ht. destruct (Live_Core sha256 h ho_live0) as [r0 Hc].
  pose proof (co_committed _ _ _ _ Hc) as Hcm. specialize (gr_committed ltac:(lia)).
  split; [done|done|by etrans|lia| |congruence|congruence|done].
  eapply Forall_impl; [exact ho_told0|]. cbn. lia.
Qed.
Lemma Holding_pinned told h h' : Holding told h → Live sha256 h' → grows (Handle.store h) (Handle.store h') →
  pinned h' = pinned h → Holding told h'.
Proof.
  intros Hh Hl Hg Hp. unfold pinned in Hp. injection Hp as Hr Hx He Ht _. pose proof Hh as [].
  eapply Holding_moves; [done|done|done| |by rewrite Ht]. destruct ho_genuine0 as (r&Hrow&Het&Hge).
  unfold row_of in *. rewrite Hrow in Hr. apply fmap_Some in Hr as (r'&Hr'&Hf). exists r'. split; [done|].
  split; [unfold fixed_row in Hf; congruence|]. rewrite Hx. by eapply genuine_fixed.
Qed.
Lemma Holding_call op told h : pins (call sha256 op) → Holding told h → Holding told (call sha256 op h).2.
Proof.
  intros Hp Hh. eapply Holding_pinned; [exact Hh|apply live_call, Hh|apply grow_call|apply Hp].
Qed.
Lemma Holding_checkpoint told h : Holding told h → Holding told (checkpoint_store sha256 h).2.
Proof. apply (Holding_call Checkpoint), pins_checkpoint. Qed.
Lemma Holding_mark told h : Holding told h → Holding told (mark_transfer_complete sha256 h).2.
Proof. apply (Holding_call MarkComplete), pins_mark. Qed.
Lemma Holding_rebind u f told h : Holding told h → Holding told (rebind_urls u f h).2.
Proof. apply (Holding_call (Rebind u f)), pins_rebind. Qed.
Lemma Holding_finalize told h : Holding told h → Holding told (finalize sha256 h).2.
Proof.
  intros Hh. assert ((finalize sha256 h).2 = (call sha256 Finalize h).2) as ->.
  { cbn. unfold mbind, st_bind. by destruct (finalize sha256 h) as [[]]. }
  apply Holding_call; [|done]. cbn. apply pins_bind; [apply pins_finalize|by intros ? ?].
Qed.
Lemma Holding_append bytes told h : Store.hasher (Handle.store h) ++ bytes `prefix_of` c →
  Holding told h → Holding told (append_bytes bytes h).2.
Proof.
  intros Hb Hh. pose proof Hh as []. destruct ho_genuine0 as (r&Hr&He&Hg).
  destruct (append_any bytes h) as (Hrow&Hi&Hx). eapply Holding_moves; [done|by apply (live_call sha256 (Append bytes))|apply grow_append| |].
  - exists r. rewrite Hrow, Hi. split; [done|]. split; [done|]. destruct Hg. split; [done| |done].
    destruct Hx as [-> | ->]; done.
  - unfold Store.total in *. by rewrite Hi.
Qed.
(** The whole of a body of unknown length. *)
Lemma Holding_mark_unknown told h : Store.hasher (Handle.store h) = c →
  Holding told h → Holding told (mark_unknown_transfer_complete sha256 h).2.
Proof.
  intros Hc Hh. pose proof Hh as []. destruct ho_genuine0 as (r&Hr&He&Hg). destruct (Live_Core sha256 h ho_live0) as [r0 Hcore].
  pose proof (co_len _ _ _ _ Hcore) as Hlen.
  destruct (mark_unknown_any sha256 h) as (Hx&Het&Ht&Hrow). eapply Holding_moves; [done|by apply (live_call sha256 MarkUnknownComplete)|
    apply (grow_call sha256 MarkUnknownComplete)| |].
  - rewrite Hr in Hrow. cbn in Hrow. rewrite Hx, Het. destruct Hrow as [Hrow|Hrow]; apply fmap_Some in Hrow as (r'&Hr'&Hf);
      exists r'; (split; [done|]); unfold fixed_row in Hf; (split; [congruence|]).
    + by eapply genuine_fixed.
    + injection Hf as Hv He' Ht' Hl'. destruct Hg. split; [by rewrite <-He'|done|]. intros _. rewrite <-Ht', Hlen. by rewrite Hc.
  - destruct Ht as [-> | [-> Hpo]]; [done|]. destruct (Live_usable sha256 h ho_live0 Hpo) as (r1&_&Hcl).
    pose proof (cl_bound _ _ _ Hcl). lia.
Qed.
End Steps.

(** What a directory is left with when its handle is dropped. *)
Lemma Holding_sound o c floor told h : Holding o c floor told h →
  ∃ bytes, Sound bytes (Handle.world h) ∧ floor `prefix_of` bytes ∧
    Forall (λ n, n ≤ Z.of_nat (length bytes) ∧ n ≤ Options.max_download_bytes o) told.
Proof.
  intros []. destruct ho_genuine0 as (r&Hr&He&Hg). destruct (Live_Core sha256 h ho_live0) as [r0 Hc].
  pose proof (co_row _ _ _ _ Hc) as Hr0. unfold row_of in Hr. rewrite Hr in Hr0. injection Hr0 as <-.
  pose proof (co_committed _ _ _ _ Hc) as Hcm. pose proof (co_len _ _ _ _ Hc) as Hlen.
  assert (recorded (Handle.world h) (Store.part (Handle.store h)) r =
    take (Z.to_nat (Row.committed r)) (Store.hasher (Handle.store h))) as E.
  { unfold recorded. destruct (co_prefix _ _ _ _ Hc) as [k ->]. apply take_app_le. lia. }
  exists (take (Z.to_nat (Row.committed r)) (Store.hasher (Handle.store h))). split; [|split].
  - eapply sound_resting; [by apply Core_Resting|done|]. eapply genuine_prefix; [apply prefix_take|done].
  - destruct ho_floor0 as [k Hk]. rewrite Hk, take_app_ge by lia. by apply prefix_app_r.
  - eapply Forall_impl; [exact ho_told0|]. cbn. rewrite length_take. lia.
Qed.

(** ** Rules *)

Definition leads {A} (P : Run.t → Prop) (m : run_st A) (Q : A → Run.t → Prop) (X : Run.t → Prop) : Prop :=
  ∀ run, P run → match m run with (Ok a, run') => Q a run' | (Err _, run') => X run' end.
Lemma leads_bind {A B} P (m : run_st A) (k : A → run_st B) Q R X :
  leads P m Q X → (∀ a, leads (Q a) (k a) R X) → leads P (m ≫= k) R X.
Proof. intros Hm Hk run HP. unfold mbind, st_bind. specialize (Hm run HP). destruct (m run) as [[a|e] run']; [by apply Hk|done]. Qed.
Lemma leads_pre {A} (P P' : Run.t → Prop) (m : run_st A) Q X : leads P' m Q X → (∀ run, P run → P' run) → leads P m Q X.
Proof. intros Hm HP run Hr. by apply Hm, HP. Qed.
Lemma leads_post {A} P (m : run_st A) (Q Q' : A → Run.t → Prop) X :
  leads P m Q' X → (∀ a run, Q' a run → Q a run) → leads P m Q X.
Proof. intros Hm HQ run Hr. specialize (Hm run Hr). destruct (m run) as [[a|e] run']; [by apply HQ|done]. Qed.
Lemma leads_ret {A} (P : Run.t → Prop) (a : A) (Q : A → Run.t → Prop) X : (∀ run, P run → Q a run) → leads P (mret a) Q X.
Proof. intros HQ run HP. by apply HQ. Qed.
Lemma leads_lift {A} (P : Run.t → Prop) (x : result DownloadError.t A) (X : Run.t → Prop) :
  (∀ run, P run → X run) → leads P (lift x) (λ a run, x = Ok a ∧ P run) X.
Proof. intros HX run HP. unfold lift. destruct x; [done|by apply HX]. Qed.
(** Pacing changes nothing but itself. *)
Definition blind (P : Run.t → Prop) : Prop := ∀ run p, P run → P (Run.set_pace p run).
Lemma leads_pace {A} P (m : pace_st A) (X : Run.t → Prop) : blind P → (∀ run, P run → X run) →
  leads P (on_pace m) (λ _, P) X.
Proof. intros Hb HX run HP. unfold on_pace, zoom. destruct (m _) as [[a|e] p]; [by apply Hb|by apply HX, Hb]. Qed.

(** A store in use, and the way out of a download. *)
Definition During o c floor s run : Prop :=
  Holding o c floor (Run.told run) (Handle.Make s (Run.world run)) ∧ Store.poisoned s = false ∧ Run.held run = true.
Definition After o floor run : Prop := ∃ bytes, Sound bytes (Run.world run) ∧ floor `prefix_of` bytes ∧
  Forall (λ n, n ≤ Z.of_nat (length bytes) ∧ n ≤ Options.max_download_bytes o) (Run.told run) ∧
  (Run.held run = true ∨ World.owned (Run.world run) = false).
Lemma During_After o c floor s run : During o c floor s run → After o floor run.
Proof. intros (Hh&_&Hd). apply Holding_sound in Hh as (bytes&?&?&?). exists bytes. cbn in *. auto. Qed.
Lemma During_blind o c floor s : blind (During o c floor s).
Proof. by intros run p []. Qed.

Section Loops.
Context (o : Options.t) (c floor : list Z).
Abbreviation Holding := (Holding o c floor).
Abbreviation During := (During o c floor).
Abbreviation After := (After o floor).

Lemma leads_store {A} (m : handle_st A) s (R : A → Store.t → Prop) :
  (∀ told h, Handle.store h = s → Store.poisoned s = false → Holding told h → Holding told (m h).2 ∧
     ∀ a h', m h = (Ok a, h') → Store.poisoned (Handle.store h') = false ∧ R a (Handle.store h')) →
  leads (During s) (disk_store m s) (λ p run, During p.2 run ∧ R p.1 p.2) After.
Proof.
  intros Hm run (Hh&Hp&Hd). unfold disk_store.
  destruct (Hm (Run.told run) (Handle.Make s (Run.world run)) eq_refl Hp Hh) as [Hk Hok].
  destruct (m _) as [[a|e] h']; cbn in *.
  - destruct (Hok _ _ eq_refl) as [? ?]. split; [|done]. split; [|done]. cbn. by destruct h'.
  - apply Holding_sound in Hk as (bytes&?&?&?). exists bytes. cbn. auto.
Qed.
(** Telling what is on record. *)
Lemma leads_tell n s : n ≤ Store.committed s → leads (During s) (on_checkpoint n) (λ _, During s) After.
Proof.
  intros Hn run ([]&Hp&Hd). unfold on_checkpoint, modify. split; [|done]. split; try done. cbn in *.
  apply Forall_app. split; [done|]. constructor; [|done]. split; [done|].
  destruct (Live_usable sha256 _ ho_live0 Hp) as (r&Hc&Hcl). cbn in *.
  pose proof (co_committed _ _ _ _ Hc). pose proof (cl_bound _ _ _ Hcl). lia.
Qed.
Lemma leads_stop {A} e s : leads (During s) (stop sha256 e s : run_st A) (λ _ _, False) After.
Proof.
  unfold stop. eapply leads_bind; [apply (leads_store _ s (λ n s', n = Store.committed s'))|].
  - intros told h <- Hp Hh. unfold checkpointed. pose proof (Holding_checkpoint _ _ _ told h Hh) as Hc.
    unfold self, gets, mbind, st_bind. destruct (checkpoint_store sha256 h) as [[[]|e'] h1] eqn:Hck; cbn in *; [|done].
    split; [done|]. intros a h' [= <- <-]. apply checkpoint_Ok in Hck as (_&_&->). done.
  - intros [n s']. cbn. eapply (leads_bind _ _ _ (λ _, During s')).
    + intros run [Hr ->]. by apply leads_tell.
    + intros [] run Hr. by eapply During_After.
Qed.

Lemma leads_add bytes threshold s : Store.hasher s ++ bytes `prefix_of` c →
  leads (During s) (add sha256 bytes threshold s) (λ s' run, During s' run ∧ Store.hasher s' = Store.hasher s ++ bytes) After.
Proof.
  intros Hb. unfold add. eapply leads_bind; [apply (leads_store _ s (λ _ s', Store.hasher s' = Store.hasher s ++ bytes))|].
  - intros told h <- Hp Hh. unfold append_then_checkpoint, mbind, st_bind.
    pose proof (Holding_append _ _ _ bytes told h Hb Hh) as Ha.
    destruct (append_bytes bytes h) as [[[]|e] h1] eqn:Hr; cbn in *; [|done].
    apply append_Ok in Hr as (Hp1&Hx&Hcm). unfold self, gets. case_decide; [|split; [done|by intros ? ? [= _ <-]]].
    pose proof (Holding_checkpoint _ _ _ told h1 Ha) as Hc. destruct (checkpoint_store sha256 h1) as [[[]|e] h2] eqn:Hck; [|done].
    split; [done|]. intros ? ? [= _ <-]. apply checkpoint_Ok in Hck as (_&_&->). cbn. done.
  - intros [[] s']. cbn. eapply (leads_bind _ _ _ (λ _ run, During s' run ∧ Store.hasher s' = Store.hasher s ++ bytes)).
    + intros run [Hd Hx]. case_decide; [|done]. pose proof (leads_tell (Store.committed s') s' ltac:(lia) run Hd) as Ht.
      by destruct (on_checkpoint _ run) as [[[]|] ?].
    + intros []. by apply leads_ret.
Qed.
Lemma leads_add_slices threshold parts : ∀ s, Store.hasher s ++ concat parts `prefix_of` c →
  leads (During s) (add_slices sha256 threshold parts s)
    (λ s' run, During s' run ∧ Store.hasher s' = Store.hasher s ++ concat parts) After.
Proof.
  induction parts as [|bytes parts IH]; intros s Hc; cbn in *.
  { apply leads_ret. intros run Hd. by rewrite app_nil_r. }
  eapply (leads_bind _ _ _ (λ _, During s)).
  { intros run Hd. unfold attempt. pose proof (leads_pace (During s) (consume (Z.of_nat (length bytes))) After
      (During_blind _ _ _ s) (λ _, During_After _ _ _ s _) run Hd) as Hpc.
    unfold on_pace, zoom in *. destruct (consume _ _) as [[[]|e] p]; [done|]. by apply During_blind. }
  intros paid. eapply (leads_bind _ _ _ (λ _, During s)).
  { destruct paid; [|by apply leads_ret]. eapply leads_bind; [apply leads_pace; [apply During_blind|apply During_After]|].
    intros b. by apply leads_ret. }
  intros [e|].
  { eapply leads_post; [apply leads_stop|]. done. }
  eapply leads_bind; [apply (leads_add bytes)|].
  { etrans; [|exact Hc]. rewrite (assoc_L (++)). by apply prefix_app_r. }
  intros s' run [Hd Hx]. specialize (IH s'). rewrite Hx, <-(assoc_L (++)) in IH. by apply IH.
Qed.

Lemma slice_bytes_positive p n p' : slice_bytes p = (Ok n, p') → 1 ≤ n.
Proof.
  unfold slice_bytes, read_limit, mbind, st_bind. cbn. intros [= <- _].
  destruct (default None (head (Pace.limits p))) as [a|], (default None (head (tail (Pace.limits p)))) as [b|]; cbn; unfold MAX_SLICE; lia.
Qed.
Lemma concat_slices size bytes : 1 ≤ size → concat (slices size bytes) = bytes.
Proof.
  intros Hs. unfold slices. assert (∀ fuel l, (length l ≤ fuel)%nat → concat (chunks_from fuel size l) = l) as H; [|by apply H].
  induction fuel as [|fuel IH]; intros [|b l] Hl; cbn [chunks_from concat] in *; try done; [cbn in Hl; lia|].
  rewrite IH; [apply take_drop|]. rewrite length_drop. cbn in *. lia.
Qed.
(** The bytes of a body up to its first stop. *)
Fixpoint body (pieces : list Piece) : list Z :=
  match pieces with Chunk bytes :: pieces => bytes ++ body pieces | _ => [] end.
Fixpoint ends_well (pieces : list Piece) : bool :=
  match pieces with Chunk _ :: pieces => ends_well pieces | Ended :: _ => true | _ => false end.
(** One chunk. *)
Lemma leads_chunk {B} threshold bytes s (k : Store.t → run_st B) Q :
  Store.hasher s ++ bytes `prefix_of` c →
  (∀ s', Store.hasher s' = Store.hasher s ++ bytes → leads (During s') (k s') Q After) →
  leads (During s) (size ← on_pace slice_bytes; s' ← add_slices sha256 threshold (slices size bytes) s; k s') Q After.
Proof.
  intros Hb Hk. eapply (leads_bind _ _ _ (λ n run, 1 ≤ n ∧ During s run)).
  { intros run Hd. unfold on_pace, zoom. destruct (slice_bytes (Run.pace run)) as [[n|e] p] eqn:Hs.
    - split; [by eapply slice_bytes_positive|by apply During_blind].
    - eapply During_After. by apply During_blind. }
  intros n. apply (leads_bind _ _ _ (λ s' run, During s' run ∧ Store.hasher s' = Store.hasher s ++ bytes)); [|intros s' run [Hd Hx]; by apply Hk].
  intros run [Hn Hd]. pose proof (leads_add_slices threshold (slices n bytes) s) as H.
  rewrite concat_slices in H by done. by apply H.
Qed.
Lemma leads_receive threshold total pieces : ∀ received s, Store.hasher s ++ body pieces `prefix_of` c →
  leads (During s) (receive sha256 threshold total pieces received s) (λ p run, During p.2 run) After.
Proof.
  induction pieces as [|[|bytes| |] pieces IH]; intros received s Hb; cbn [receive body] in *;
    try (eapply leads_post; [apply leads_stop|done]).
  { by apply leads_ret. }
  eapply leads_bind; [apply leads_lift, During_After|]. intros n. eapply leads_bind.
  { apply (leads_pre _ (During s)); [apply leads_lift, During_After|]. by intros run [_ ?]. }
  intros []. apply (leads_pre _ (During s)); [|by intros run [_ Hr]]. apply leads_chunk.
  { etrans; [|exact Hb]. rewrite (assoc_L (++)). by apply prefix_app_r. }
  intros s' Hx. apply IH. by rewrite Hx, <-(assoc_L (++)).
Qed.
Lemma leads_receive_unknown threshold max pieces : ∀ s, Store.hasher s ++ body pieces `prefix_of` c →
  leads (During s) (receive_unknown sha256 threshold max pieces s)
    (λ s' run, During s' run ∧ ends_well pieces = true ∧ Store.hasher s' = Store.hasher s ++ body pieces) After.
Proof.
  induction pieces as [|[|bytes| |] pieces IH]; intros s Hb; cbn [receive_unknown body ends_well] in *;
    try (eapply leads_post; [apply leads_stop|done]).
  { apply leads_ret. intros run Hd. by rewrite app_nil_r. }
  destruct (negb _); [eapply leads_post; [apply leads_stop|done]|]. apply leads_chunk.
  { etrans; [|exact Hb]. rewrite (assoc_L (++)). by apply prefix_app_r. }
  intros s' Hx. eapply leads_post; [apply IH; by rewrite Hx, <-(assoc_L (++))|].
  intros a run (?&?&->). by rewrite Hx, <-(assoc_L (++)).
Qed.
End Loops.

(** ** What an honest server answers *)

(** The strong tag and the range an answer carries. *)
Definition tag_of (headers : headers_) : option (list Z) :=
  match field headers ETAG with Single v => StrongEtag.tag <$> ok (StrongEtag.parse v) | _ => None end.
Definition range_of (headers : headers_) : option (Z * Z) :=
  match (raw ← required (field headers CONTENT_RANGE); ContentRange.parse raw) with
  | Ok (ContentRange.Satisfied a b _) => Some (a, b)
  | _ => None
  end.
(** A 200 brings a representation from its beginning, to its end if it ends well, under its
    own length; a 206 the part it says.  Fields are bytes. *)
Record honest_answer (status : Z) (headers : headers_) (pieces : list Piece) (c : list Z) : Prop := {
  hn_whole : whole c;
  hn_version : ∀ t, tag_of headers = Some t → version t c;
  hn_bytes : ∀ v, field headers ETAG = Single v → Forall is_byte v;
  hn_all : status = 200 → body pieces `prefix_of` c;
  hn_end : status = 200 → ends_well pieces = true → body pieces = c;
  hn_length : status = 200 → ∀ n, length_of headers = Ok n → n = Z.of_nat (length c);
  hn_part : status = 206 → ∀ a b, range_of headers = Some (a, b) → body pieces `prefix_of` slice a (b - a) c }.
Definition honest_sends (sends : list Sending) (pieces : list Piece) : Prop :=
  ∀ status http headers, Answered status http headers ∈ sends → redirects_ status = false →
    ∃ c, honest_answer status headers pieces c.
Definition honest_wire (wire : Wire.t) : Prop := honest_sends (Wire.sends wire) (Wire.pieces wire).
Record honest (env : Env.t) : Prop := {
  he_main : honest_sends (Env.sends env) (Env.pieces env);
  he_probe : honest_wire (Env.probe env);
  he_rounds : ∀ workers worker, workers ∈ Env.rounds env → worker ∈ workers → honest_wire (Worker.wire worker) }.

(** A strong tag names one representation. *)
Context (Hwhole : ∀ t c, version t c → whole c) (Hone : ∀ t c c', version t c → version t c' → c = c').
Lemma is_version_whole t c : is_version t c → whole c.
Proof. destruct t; [apply Hwhole|done]. Qed.

Lemma trim_start_head l b : head (trim_start_ows l) = Some b → is_ows b = false.
Proof. induction l as [|x l IH]; cbn; [done|]. destruct (is_ows x) eqn:Hx; [done|]. cbn. by intros [= <-]. Qed.
Lemma trim_start_suffix l : trim_start_ows l `suffix_of` l.
Proof. induction l as [|x l IH]; cbn; [done|]. destruct (is_ows x); [by apply suffix_cons_r|done]. Qed.
Lemma bounded_again v raw : bounded v = Ok raw → bounded raw = Ok raw.
Proof.
  unfold bounded at 1. case_decide as Hl; [done|]. intros [= <-]. unfold trim_end_ows.
  set (l := trim_start_ows v). pose proof (trim_start_suffix (reverse l)) as [k Hk].
  assert (l = reverse (trim_start_ows (reverse l)) ++ reverse k) as E.
  { rewrite <-(reverse_involutive l) at 1. rewrite Hk at 1. by rewrite reverse_app. }
  apply bounded_noop.
  - pose proof (trim_start_suffix v) as [k' Hk']. fold l in Hk'. rewrite Hk', E, !length_app in Hl. lia.
  - intros b Hb. apply (trim_start_head v). fold l. rewrite E. by destruct (reverse (trim_start_ows _)).
  - intros b Hb. rewrite last_reverse in Hb. by eapply trim_start_head.
Qed.
Lemma parse_trimmed v raw : bounded v = Ok raw → StrongEtag.parse v = StrongEtag.parse raw.
Proof. intros Hb. unfold StrongEtag.parse. by rewrite Hb, (bounded_again _ _ Hb). Qed.

(** An accepted part carries the tag and the range asked for. *)
Lemma accept_range_Ok start end_ total etag response : accept_range start end_ total etag response = Ok tt →
  ∃ t, tag_of_text etag = Some t ∧ HttpResponse.status response = 206 ∧ start < end_ ≤ total ∧
    tag_of (HttpResponse.headers response) = Some t ∧ range_of (HttpResponse.headers response) = Some (start, end_).
Proof.
  unfold accept_range, parse_etag. unfold mbind, result_bind.
  destruct (StrongEtag.parse (utf8 etag)) as [tag|] eqn:Ht; [|done]. cbn.
  unfold ResumeRequest.new. case_decide as Hr; [done|]. cbn. destruct (evaluate _ _ _) as [permit| | |] eqn:He; try done. intros _.
  unfold evaluate in He. repeat (case_decide; [done|]). case_decide as Hs; [|done].
  destruct (check_partial _ _) as [p|] eqn:Hc; [|done]. apply check_partial_Ok in Hc as (_&_&(raw&Hraw&Htag)&(rc&Hrc&Hcr)&_); [|cbn; lia].
  unfold response_headers in *. cbn [ResponseHeaders.etag ResponseHeaders.content_range ResumeRequest.start ResumeRequest.end_exclusive
    ResumeRequest.total ResumeRequest.etag] in *. exists (StrongEtag.tag tag). split; [by unfold tag_of_text; rewrite Ht|]. split; [done|]. split; [lia|]. split.
  - unfold tag_of. destruct (field _ ETAG) as [|v|]; try done. cbn [required] in Hraw. by rewrite (parse_trimmed _ _ Hraw), Htag.
  - unfold range_of, mbind, result_bind. by rewrite Hrc, Hcr.
Qed.
(** The tag a new store is given is the tag of the answer. *)
Lemma new_etag_tag headers e : (∀ v, field headers ETAG = Single v → Forall is_byte v) → new_etag headers = Ok e →
  e = None ∨ e ≫= tag_of_text = tag_of headers.
Proof.
  unfold new_etag, tag_of. destruct (field headers ETAG) as [|v|]; [by intros _ [= <-]; left| |done].
  intros Hb. unfold mbind, result_bind, refuse_if. destruct (bool_decide _); [done|]. destruct (StrongEtag.parse v) as [t|] eqn:Hp; cbn.
  - destruct (from_utf8 v) as [x|] eqn:Hx; [|done]. intros [= <-]. right. cbn. apply to_from_utf8 in Hx as [Hx _]; [|by apply Hb].
    unfold tag_of_text. by rewrite Hx, Hp.
  - intros [= <-]. by left.
Qed.
Lemma answered_version headers e c pieces status : honest_answer status headers pieces c → new_etag headers = Ok e →
  is_version (e ≫= tag_of_text) c.
Proof.
  intros [] He. destruct (new_etag_tag headers e) as [-> | ->]; [done|done|done|].
  destruct (tag_of headers) as [t|] eqn:Ht; [by apply hn_version0|done].
Qed.

Section Fetches.
Context (url_parse : list Z → option Url.t) (header_value : list Z → bool) (url_join : Url.t → list Z → option Url.t).

Lemma request_from_answer turns : ∀ url initial range http p script sent response,
  request_from url_parse header_value url_join turns url initial range http p script = (sent, Ok response) →
  ∃ v, Answered (HttpResponse.status response) v (HttpResponse.headers response) ∈ script ∧
    redirects_ (HttpResponse.status response) = false.
Proof.
  induction turns as [|turns IH]; intros url initial range http p script sent response Hr; [done|]. cbn [request_from] in Hr.
  destruct (apply_policy _ _ _ _ _) as [hs|]; [|done]. destruct script as [|[| |status v fields] script]; try done.
  destruct (redirects_ status) eqn:Hred.
  - case_decide; [done|]. destruct (next_location _ _ _ _ _ _) as [next|]; [|done].
    destruct (request_from _ _ _ turns _ _ _ _ _ _) as [more r] eqn:Hm. injection Hr as _ ->.
    apply IH in Hm as (v'&Hin&Hst). exists v'. split; [by right|done].
  - injection Hr as _ <-. exists v. split; [by left|done].
Qed.
Lemma honest_response sends pieces url range http p response : honest_sends sends pieces →
  (request url_parse header_value url_join url range http p sends).2 = Ok response →
  ∃ c, honest_answer (HttpResponse.status response) (HttpResponse.headers response) pieces c.
Proof.
  intros Hh Hr. unfold request in Hr. destruct (request_from _ _ _ _ _ _ _ _ _ _) as [sent r] eqn:Hq. cbn in Hr. subst r.
  apply request_from_answer in Hq as (v&Hin&Hst). by eapply Hh.
Qed.

Lemma gather_Ok pieces : ∀ left acc p bytes p', gather left pieces acc p = (Ok bytes, p') → bytes = acc ++ body pieces.
Proof.
  induction pieces as [|[|chunk| |] pieces IH]; intros left acc p bytes p' Hr; cbn [gather body] in *; try done.
  - injection Hr as <- _. by rewrite app_nil_r.
  - apply bind_Ok in Hr as ([]&p1&_&Hr). apply bind_Ok in Hr as (size&p2&_&Hr). apply bind_Ok in Hr as ([]&p3&_&Hr).
    apply IH in Hr as ->. by rewrite (assoc_L (++)).
Qed.
(** A fetched range is that range of the representation its tag names. *)
Lemma fetch_range_Ok f start end_ wire bytes t c : honest_wire wire → tag_of_text (Fetch.etag f) = Some t → version t c →
  range sha256 url_parse header_value url_join f start end_ wire = Ok (Some bytes) → bytes = slice start (end_ - start) c.
Proof.
  intros Hw Ht Hc Hr. unfold range in Hr. unfold mbind, result_bind in Hr.
  destruct (request _ _ _ _ _ _ _ _).2 as [response|] eqn:Hq; [|done].
  destruct (accept_status response); [|done]. destruct (validate_representation _); [|done].
  destruct (refuse_if _ _); [|done]. destruct (match field _ ETAG with Single _ => _ | _ => _ end); [|done].
  case_decide as Hst; [destruct (length_of _); [|done]; by destruct (refuse_if _ _)|].
  destruct (accept_range _ _ _ _ _) as [[]|] eqn:Ha; [|done]. destruct (gather _ _ _ _).1 as [got|] eqn:Hg; [|done].
  destruct (refuse_if (negb _) _) eqn:Hlen; [|done]. injection Hr as ->. apply refuse_open in Hlen. open_bools.
  destruct (gather _ _ _ _) as [y p'] eqn:Hgo. cbn in Hg. subst y. apply gather_Ok in Hgo. cbn in Hgo.
  apply accept_range_Ok in Ha as (t'&Ht'&Hs&Hse&Htag&Hran). assert (t' = t) as -> by congruence.
  destruct (honest_response _ _ _ _ _ _ _ Hw Hq) as (c'&[]). assert (c' = c) as -> by eauto.
  specialize (hn_part0 Hs _ _ Hran). rewrite <-Hgo in hn_part0. destruct hn_part0 as [k Hk].
  assert (length (slice start (end_ - start) c) ≤ length bytes)%nat as Hle by (unfold slice; rewrite length_take; lia).
  rewrite Hk, length_app in Hle. destruct k; [by rewrite Hk, app_nil_r|cbn in Hle; lia].
Qed.

(** *** Ranges side by side *)

Lemma take_slice {A} (l : list A) a b : 0 ≤ a ≤ b → take (Z.to_nat a) l ++ slice a (b - a) l = take (Z.to_nat b) l.
Proof.
  intros Hab. unfold slice. rewrite take_drop_commute. replace (Z.to_nat a + Z.to_nat (b - a))%nat with (Z.to_nat b) by lia.
  rewrite <-(take_drop (Z.to_nat a) (take (Z.to_nat b) l)) at 2. f_equal. rewrite take_take. f_equal. lia.
Qed.
Lemma range_end_bounds total offset : offset ≤ total → offset ≤ range_end total offset ≤ total.
Proof. unfold range_end, RANGE_BYTES. lia. Qed.
(** What the ranges of a round bring, in the order of their indices. *)
Definition part_of {A} (l : list A) (r : Z * Z * Z) : Z * list A := (r.1.1, slice r.1.2 (r.2 - r.1.2) l).
Lemma spans_parts (l : list Z) total n : ∀ i offset, 0 ≤ offset ≤ total → let ranges := spans n i offset total in
  let last_ := default offset (snd <$> last ranges) in offset ≤ last_ ≤ total ∧
  take (Z.to_nat offset) l ++ concat (snd <$> (part_of l <$> ranges)) = take (Z.to_nat last_) l.
Proof.
  induction n as [|n IH]; intros i offset Ho; cbn [spans].
  { cbn. rewrite app_nil_r. split; [lia|done]. }
  case_decide as Hd; [cbn; rewrite app_nil_r; split; [lia|done]|].
  pose proof (range_end_bounds total offset ltac:(lia)) as He.
  destruct (IH (i + 1) (range_end total offset)) as [Hl Hc]; [lia|]. cbn [fmap list_fmap concat].
  set (rest := spans n (i + 1) (range_end total offset) total) in *.
  assert (default offset (snd <$> last ((i, offset, range_end total offset) :: rest)) =
    default (range_end total offset) (snd <$> last rest)) as ->.
  { destruct rest as [|x rest]; [done|]. rewrite last_cons_cons. destruct (last (x :: rest)) eqn:E; [done|].
    by apply last_None in E. }
  split; [lia|]. rewrite <-Hc, <-(take_slice l offset (range_end total offset)) by lia. by rewrite (assoc_L (++)).
Qed.
Definition index_of (r : Z * Z * Z) : Z := r.1.1.
Lemma spans_sorted total n : ∀ i offset, StronglySorted Z.lt (index_of <$> spans n i offset total) ∧
  Forall (λ x, i ≤ x) (index_of <$> spans n i offset total).
Proof.
  induction n as [|n IH]; intros i offset; cbn [spans]; [by repeat constructor|]. case_decide; [by repeat constructor|].
  destruct (IH (i + 1) (range_end total offset)) as [Hs Hf]. cbn. split.
  - constructor; [done|]. eapply Forall_impl; [exact Hf|]. cbn. lia.
  - constructor; [lia|]. eapply Forall_impl; [exact Hf|]. cbn. lia.
Qed.
(** One order of distinct keys. *)
Lemma sorted_by_key_unique {A} (key : A → Z) (l k : list A) : StronglySorted (key_le key) l → StronglySorted Z.lt (key <$> k) →
  l ≡ₚ k → l = k.
Proof.
  revert l. induction k as [|y k IH]; intros l Hl Hk Hp; [by apply Permutation_nil_r in Hp|].
  destruct l as [|x l]; [by apply Permutation_nil_l in Hp|]. cbn in Hk.
  apply StronglySorted_inv in Hl as [Hl Hx]. apply StronglySorted_inv in Hk as [Hk Hy]. rewrite Forall_forall in Hx. rewrite Forall_forall in Hy.
  assert (x = y) as ->.
  { assert (x ∈ y :: k) as [->|Hxk]%elem_of_cons by (rewrite <-Hp; by left); [done|].
    assert (y ∈ x :: l) as [->|Hyl]%elem_of_cons by (rewrite Hp; by left); [done|].
    specialize (Hx _ Hyl). specialize (Hy (key x)). unfold key_le in Hx. exfalso.
    assert (key y < key x); [|lia]. apply Hy, list_elem_of_fmap. eauto. }
  f_equal. apply IH; [done|done|]. by apply Permutation_cons_inv in Hp.
Qed.

Section Rounds.
Context (o : Options.t) (c floor : list Z).
Abbreviation During := (During o c floor).
Abbreviation After := (After o floor).
Context (env : Env.t) (Henv : honest env).

Lemma leads_append_range bytes threshold s : Store.hasher s ++ bytes `prefix_of` c →
  leads (During s) (append_range sha256 bytes threshold s) (λ s' run, During s' run ∧ Store.hasher s' = Store.hasher s ++ bytes) After.
Proof.
  intros Hb. unfold append_range. eapply leads_bind; [apply leads_pace; [apply During_blind|apply During_After]|].
  intros [|]; [eapply leads_post; [apply leads_stop|done]|by apply leads_add].
Qed.
Lemma leads_append_ranges threshold results : ∀ s, Store.hasher s ++ concat (snd <$> results) `prefix_of` c →
  leads (During s) (append_ranges sha256 threshold results s)
    (λ s' run, During s' run ∧ Store.hasher s' = Store.hasher s ++ concat (snd <$> results)) After.
Proof.
  induction results as [|[i bytes] results IH]; intros s Hb; cbn in *.
  { apply leads_ret. intros run Hd. by rewrite app_nil_r. }
  eapply leads_bind; [apply (leads_append_range bytes)|].
  { etrans; [|exact Hb]. rewrite (assoc_L (++)). by apply prefix_app_r. }
  intros s' run [Hd Hx]. specialize (IH s'). rewrite Hx, <-(assoc_L (++)) in IH. by apply IH.
Qed.
(** A round whose workers all come back brings its ranges of the representation. *)
Lemma round_results f ranges workers results t : tag_of_text (Fetch.etag f) = Some t → version t c →
  (∀ worker, worker ∈ workers → honest_wire (Worker.wire worker)) → StronglySorted Z.lt (index_of <$> ranges) →
  collect (joined sha256 url_parse header_value url_join f) (tasks ranges workers) = Ok results →
  sort_by_key fst results = part_of c <$> ranges.
Proof.
  intros Ht Hc Hw Hs Hr. apply collect_Ok in Hr.
  assert (results = (λ task, part_of c task.1) <$> tasks ranges workers) as ->.
  { assert (∀ task, task ∈ tasks ranges workers → honest_wire (Worker.wire task.2)) as Hall.
    { intros task Hin. unfold tasks in Hin. rewrite sort_by_key_perm in Hin. apply list_elem_of_lookup in Hin as (i&Hi).
      rewrite list_lookup_imap in Hi. destruct (ranges !! i); [|done]. injection Hi as <-. cbn.
      destruct (workers !! i) as [worker|] eqn:Hwi; cbn; [by eapply Hw, list_elem_of_lookup_2|].
      intros ? ? ? Hin. by apply not_elem_of_nil in Hin. }
    clear Hs. revert Hall. induction Hr as [|task x ts xs Hj _ IH]; intros Hall; [done|]. cbn. f_equal.
    - destruct task as [[[i a] b] worker]. unfold joined in Hj. destruct (Worker.lost worker); [done|].
      unfold mbind, result_bind in Hj. destruct (range _ _ _ _ _ _ _ _) as [[bytes|]|] eqn:Hg; try done. injection Hj as <-.
      unfold part_of. cbn. f_equal. eapply fetch_range_Ok; [|exact Ht|exact Hc|exact Hg]. apply (Hall (i, a, b, worker)). by left.
    - apply IH. intros ? ?. apply Hall. by right. }
  apply (sorted_by_key_unique fst); [apply sort_by_key_sorted| |].
  - by rewrite <-list_fmap_compose.
  - rewrite sort_by_key_perm. unfold tasks. rewrite sort_by_key_perm.
    rewrite fmap_imap. assert (∀ (g : nat → Worker.t) (l : list (Z * Z * Z)),
      imap (λ n, (λ task, part_of c task.1) ∘ (λ x, (x, g n))) l = part_of c <$> l) as Hm; [|by rewrite Hm].
    intros g l. revert g. induction l as [|x l IH]; intros g; [done|]. cbn. f_equal. apply (IH (λ n, g (S n))).
Qed.

Lemma leads_rounds f connections threshold t : tag_of_text (Fetch.etag f) = Some t → version t c → ∀ rounds,
  (∀ workers, workers ∈ rounds → workers ∈ Env.rounds env) → ∀ offset s, 0 ≤ offset ≤ Fetch.total f →
  Store.hasher s = take (Z.to_nat offset) c →
  leads (During s) (rounds_loop sha256 url_parse header_value url_join f connections threshold rounds offset s)
    (λ s' run, During s' run) After.
Proof.
  intros Ht Hc. induction rounds as [|workers rounds IH]; intros Hin offset s Ho Hx; cbn [rounds_loop].
  { case_decide; [by apply leads_ret|]. eapply leads_post; [apply leads_stop|done]. }
  case_decide; [by apply leads_ret|].
  destruct (collect _ _) as [results|e] eqn:Hr; [|eapply leads_post; [apply leads_stop|done]].
  apply (round_results _ _ _ _ t) in Hr as ->; [|done|done| |apply spans_sorted].
  2:{ intros worker Hwk. eapply he_rounds; [exact Henv|apply Hin; by left|done]. }
  destruct (spans_parts c (Fetch.total f) connections 0 offset Ho) as [Hb Hcat]. rewrite <-Hx in Hcat.
  eapply leads_bind; [apply leads_append_ranges; rewrite Hcat; apply prefix_take|].
  intros s' run [Hd Hx']. refine (IH _ _ s' _ _ run Hd).
  - intros ws Hws. apply Hin. by right.
  - lia.
  - by rewrite Hx', Hcat.
Qed.

(** A store in use knows how long what it holds is. *)
Lemma During_facts s run : During s run → 0 ≤ Store.len s ≤ Store.total s ∧ Store.len s = Z.of_nat (length (Store.hasher s)) ∧
  Store.hasher s = take (Z.to_nat (Store.len s)) c ∧
  (∀ e, Identity.strong_etag (Store.identity s) = Some e → is_version (tag_of_text e) c) ∧
  (Store.unknown_length s = false → Store.total s = Z.of_nat (length c)).
Proof.
  intros ([]&Hp&_). destruct ho_genuine0 as (r&Hr&He&[]). destruct (Live_usable sha256 _ ho_live0 Hp) as (r0&Hc&Hcl).
  pose proof (co_row _ _ _ _ Hc) as Hr0. unfold row_of in Hr. rewrite Hr in Hr0. injection Hr0 as <-. cbn in *.
  pose proof (co_len _ _ _ _ Hc). pose proof (cl_bound _ _ _ Hcl). split_and!; [lia|lia|done| | |].
  - destruct ge_prefix0 as [k ->]. rewrite take_app_le by lia. rewrite firstn_all2; [done|lia].
  - intros e Hs. by rewrite He, Hs in ge_version0.
  - intros Hu. rewrite <-(cl_total _ _ _ Hcl). apply ge_total0. by rewrite <-(cl_unknown _ _ _ Hcl).
Qed.
Lemma leads_parallel original s :
  leads (During s) (transfer_parallel sha256 url_parse header_value url_join o env original s)
    (λ p run, During p.2 run ∧ (p.1 = false → p.2 = s)) After.
Proof.
  unfold transfer_parallel. eapply leads_bind; [apply leads_lift, During_After|]. intros etag.
  eapply leads_bind.
  { apply (leads_pre _ (λ run, During s run ∧ Identity.strong_etag (Store.identity s) = Some etag)); [apply leads_lift|].
    - by intros run [?%During_After _].
    - by intros run [He%ok_or_Ok ?]. }
  intros first run (Hfirst&Hd&He). revert run Hd. set (f := Fetch.Make _ _ _ _ _ _) in *. destruct first as [first|]; [|by apply leads_ret].
  intros run Hd. destruct (During_facts s run Hd) as (Hl&_&Hx&Hv&_). specialize (Hv _ He).
  unfold range in Hfirst. fold (range sha256 url_parse header_value url_join f (Store.len s) (range_end (Fetch.total f) (Store.len s)) (Env.probe env)) in Hfirst.
  assert (∃ t, tag_of_text etag = Some t) as [t Ht].
  { unfold range, mbind, result_bind in Hfirst. repeat (case_match; try done). all: simplify_eq.
    all: match goal with H : accept_range _ _ _ _ _ = Ok ?u |- _ => destruct u; apply accept_range_Ok in H as (t&?&_); by exists t end. }
  rewrite Ht in Hv. cbn in Hv. apply (fetch_range_Ok f _ _ _ _ t c) in Hfirst as ->; [|apply Henv|done|done].
  pose proof (range_end_bounds (Fetch.total f) (Store.len s) ltac:(cbn; lia)) as Hb.
  pose proof (take_slice c (Store.len s) (range_end (Fetch.total f) (Store.len s)) ltac:(lia)) as Hcat. rewrite <-Hx in Hcat.
  revert run Hd. eapply leads_bind; [apply leads_append_range; rewrite Hcat; apply prefix_take|].
  intros s1 run [Hd1 Hx1]. revert run Hd1. eapply leads_bind.
  { apply (leads_rounds f _ _ t); [done|done|done|lia|by rewrite Hx1]. }
  intros s2. by apply leads_ret.
Qed.
End Rounds.

(** ** Publishing *)

(** The output is the whole of [c]. *)
Record Published_as o (c : list Z) (out : Outcome.t) w : Prop := {
  pb_whole : whole c;
  pb_bytes : Outcome.bytes out = Z.of_nat (length c);
  pb_limit : Outcome.bytes out ≤ Options.max_download_bytes o;
  pb_path : Outcome.path out = Leaf (Options.output_name o);
  pb_file : ∃ ino, Fs.nodes (World.fs w) !! Outcome.path out = Some (File ino) ∧
    length (content w ino) = length c ∧ sha256 (content w ino) = sha256 c;
  pb_expected : ∀ e, Options.expected_sha256 o = Some e → sha256 c = e }.
Lemma finalized o c floor told h n h' start : Holding o c floor told h → finalize sha256 h = (Ok n, h') →
  Store.committed (Handle.store h') = Z.of_nat (length c) ∧ Store.total (Handle.store h') = Z.of_nat (length c) ∧
  Store.hasher (Handle.store h') = c ∧
  Published_as o c (Outcome.Make (Z.of_nat (length c)) start n) (Handle.world h').
Proof.
  intros Hh Hf. pose proof (Holding_finalize o c floor told h Hh) as Hh'. rewrite Hf in Hh'. cbn in Hh'.
  destruct (finalize_Ok _ _ _ _ (ho_live _ _ _ _ _ Hh) Hf) as ((r&Hc&Hcl)&Hph&->&Hd). destruct Hh' as [].
  destruct ho_genuine0 as (r'&Hr'&_&[]). pose proof (co_row _ _ _ _ Hc) as Hr. unfold row_of in Hr'. rewrite Hr' in Hr. injection Hr as ->.
  pose proof (complete_facts sha256 _ _ r Hc Hcl ltac:(lia)) as (Hlen&Hcm&Ht&Hdg).
  pose proof (cl_phase _ _ _ Hcl) as Hrp. rewrite Hph in Hrp.
  assert (row_unknown r = false) as Hu.
  { pose proof (ro_corrupt _ (co_ok _ _ _ _ Hc)) as Hk. rewrite corrupt_spec in Hk. destruct (row_unknown r); [|done].
    destruct Hk as (_&Hk&_). destruct (Hk eq_refl). lia. }
  specialize (ge_total0 Hu). pose proof (co_len _ _ _ _ Hc) as Hl.
  assert (Store.hasher (Handle.store h') = c) as Hx.
  { destruct ge_prefix0 as [k Hk]. rewrite Hk, length_app in ge_total0. destruct k; [by rewrite Hk, app_nil_r|cbn in ge_total0; lia]. }
  split. { rewrite <-(cl_committed _ _ _ Hcl). lia. } split; [lia|]. split; [done|].
  destruct (pv_published _ _ _ _ (co_proved _ _ _ _ Hc) Hrp) as (ino&Hn&Hlen'&Hsha). split; cbn; try done.
  - by eapply is_version_whole.
  - lia.
  - congruence.
  - exists ino. rewrite (co_output _ _ _ _ Hc) in Hn. split; [done|]. split; [lia|]. by rewrite Hsha, Hdg, Hx.
  - intros e He. unfold wrong_digest, verified_sha256 in Hd. rewrite ho_expected0, He in Hd. cbn in Hd. open_bools. by rewrite <-Hx.
Qed.
Definition Done o floor (out : Outcome.t) run : Prop := After o floor run ∧ ∃ c, Published_as o c out (Run.world run).
Lemma rebind_ready u f h h' : rebind_urls u f h = (Ok tt, h') → Store.poisoned (Handle.store h') = false.
Proof. unfold rebind_urls. intros Hr. apply bind_Ok in Hr as ([]&h0&_&Hr). by apply poisoning_store in Hr as (h1&_&->). Qed.

Section Finish.
Context (o : Options.t) (c floor : list Z) (env : Env.t) (Henv : honest env).
Abbreviation During := (During o c floor).
Abbreviation After := (After o floor).
Abbreviation Done := (Done o floor).

(** A last step that publishes. *)
Lemma leads_publish s (m : handle_st unit) :
  (∀ told h, Handle.store h = s → Store.poisoned s = false → Holding o c floor told h → Holding o c floor told (m h).2) →
  leads (During s) (disk_store (_ ← m; finalize sha256) s) (λ p run, During p.2 run ∧
    Store.committed p.2 = Z.of_nat (length c) ∧
    ∀ start, Published_as o c (Outcome.Make (Z.of_nat (length c)) start p.1) (Run.world run)) After.
Proof.
  intros Hm run (Hh&Hp&Hd). unfold disk_store. set (h := Handle.Make s (Run.world run)) in *.
  pose proof (Hm _ h eq_refl Hp Hh) as Hh1. unfold mbind, st_bind. destruct (m h) as [[[]|e] h1]; cbn in *.
  2:{ apply Holding_sound in Hh1 as (bytes&?&?&?). exists bytes. cbn. auto. }
  pose proof (Holding_finalize _ _ _ _ h1 Hh1) as Hh2. destruct (finalize sha256 h1) as [[n|e] h2] eqn:Hf; cbn in *.
  - pose proof (finalize_ready _ _ _ _ Hf) as Hp2.
    split; [split; [by destruct h2|by split]|]. split; [apply (finalized _ _ _ _ _ _ _ 0 Hh1 Hf)|].
    intros start. apply (finalized _ _ _ _ _ _ _ start Hh1 Hf).
  - apply Holding_sound in Hh2 as (bytes&?&?&?). exists bytes. cbn. auto.
Qed.
Lemma leads_event (P : Run.t → Prop) e job : (∀ run, P run → After run) → leads P (lift (event e job)) (λ _, P) After.
Proof. intros HP. eapply leads_post; [by apply leads_lift|]. by intros ? ? [_ ?]. Qed.
Lemma leads_refuse (P : Run.t → Prop) b e : (∀ run, P run → After run) →
  leads P (lift (refuse_if b e)) (λ _ run, b = false ∧ P run) After.
Proof. intros HP run Hr. unfold lift, refuse_if. destruct b; [by apply HP|done]. Qed.
Lemma leads_finish original response job start s : Store.unknown_length s = false → Store.hasher s ++ body (Env.pieces env) `prefix_of` c →
  leads (During s) (finish sha256 url_parse header_value url_join o env original response job start s) Done After.
Proof.
  intros Hu Hb. unfold finish. eapply leads_bind; [apply leads_event, During_After|]. intros job1.
  eapply (leads_bind _ _ _ (λ s' run, During s' run ∧ Store.hasher s' = Store.hasher s ∧ Store.unknown_length s' = false)).
  { case_decide; [|by apply leads_ret].
    eapply leads_bind; [apply (leads_store _ _ _ _ s (λ _ s', Store.hasher s' = Store.hasher s ∧ Store.unknown_length s' = false))|].
    - intros told h <- Hp Hh. split; [by apply Holding_rebind|]. intros [] h' Hr. split; [by eapply rebind_ready|].
      pose proof (pins_rebind (fingerprint_of sha256 original) (fingerprint_of sha256 (HttpResponse.url response)) h) as Hpin.
      rewrite Hr in Hpin. unfold pinned in Hpin. cbn in Hpin. injection Hpin as _ ? _ _ ?. split; congruence.
    - intros [[] s']. by apply leads_ret. }
  intros s1 run (Hd&Hx&Hu1). rewrite <-Hx in Hb. clear Hx Hu s.
  destruct (During_facts _ _ _ _ _ Hd) as (_&_&_&_&Ht). rewrite Ht by done. revert run Hd.
  eapply (leads_bind _ _ _ (λ p run, During p.1.2 run ∧ (p.1.1 = false → p.1.2 = s1))).
  { destruct (_ && _ && _); [|by apply leads_ret]. eapply leads_bind; [by apply leads_parallel|].
    intros [taken s2]. by apply leads_ret. }
  intros [[taken s2] received]. cbn. eapply (leads_bind _ _ _ (λ p, During p.2)).
  { intros run [Hd Hs]. destruct taken; [done|]. rewrite Hs in * by done. revert run Hd. by apply leads_receive. }
  intros [received' s3]. cbn. eapply leads_bind; [apply leads_refuse, During_After|]. intros [].
  eapply (leads_bind _ _ _ (λ _, During s3)).
  { apply (leads_pre _ (During s3)); [apply leads_pace; [apply During_blind|apply During_After]|by intros run [_ ?]]. }
  intros [|]; [eapply leads_post; [apply leads_stop|done]|].
  eapply leads_bind; [apply leads_event, During_After|]. intros job2.
  eapply leads_bind; [apply leads_publish; intros; by apply Holding_mark|]. intros [n s4]. cbn.
  eapply leads_bind; [apply leads_event; intros run [?%During_After _]; done|]. intros job3.
  eapply leads_bind; [apply leads_event; intros run [?%During_After _]; done|]. intros job4.
  apply leads_ret. intros run (Hd&_&Hp). split; [by eapply During_After|]. exists c. apply Hp.
Qed.
End Finish.

(** ** Before a store is in use *)

Lemma Sound_steady bytes w w' : same_world w w' → Sound bytes w → Sound bytes w'.
Proof.
  intros Hs [[Hr Hn] He|p r c Hw Hb Hg].
  - apply sound_vacant; [|done]. unfold vacant. rewrite (same_world_nodes _ _ Hs). destruct Hs. split; [congruence|].
    intros Hh. apply Hn. congruence.
  - destruct (still_same _ p r _ _ Hs Hw) as [Hw' E]. eapply sound_resting; [done|by rewrite E|done].
Qed.
Lemma Live_same s w w' : same_world w w' → Live sha256 (Handle.Make s w) → Live sha256 (Handle.Make s w').
Proof.
  intros Hs [[Hp (r&Hc)]|[Hp (r&Hc&Hcl)]]; [left|right]; (split; [done|]); exists r; cbn in *; [by eapply Core_same|].
  split; [by eapply Core_same|by eapply Clean_same].
Qed.
Lemma Holding_same o c floor told s w w' : same_world w w' → Holding o c floor told (Handle.Make s w) →
  Holding o c floor told (Handle.Make s w').
Proof.
  intros Hs []. split; try done; [by eapply Live_same|]. destruct ho_genuine0 as (r&Hr&?). exists r. split; [|done].
  unfold row_of in *. cbn in *. by rewrite (sw_row _ _ Hs).
Qed.
(** A property that looking at the disk does not end. *)
Definition lasting (P : Run.t → Prop) : Prop := ∀ run w, same_world (Run.world run) w →
  World.owned w = World.owned (Run.world run) → P run → P (Run.set_world w run).
Lemma leads_disk_io {A} P (m : fs_st A) (X : Run.t → Prop) : keeps m → lasting P → (∀ run, P run → X run) →
  leads P (disk_io m) (λ _, P) X.
Proof.
  intros Hm Hl HX run HP. unfold disk_io, disk. pose proof (looks_on_files m Hm (Run.world run)) as Hs.
  pose proof (steady_on_files m (Run.world run)) as Ho. destruct (on_files m _) as [[a|e] w]; cbn in *; [by apply Hl|by apply HX, Hl].
Qed.
Lemma leads_space P entries space bytes (X : Run.t → Prop) : lasting P → (∀ run, P run → X run) →
  leads P (before_transfer entries space bytes) (λ _, P) X.
Proof.
  intros Hl HX. unfold before_transfer, check_space. eapply leads_bind; [apply leads_disk_io; [apply keeps_access|done|done]|intros []].
  assert (∀ B (x : result DownloadError.t B), leads P (lift x) (λ _, P) X) as Hlift.
  { intros B x. eapply leads_post; [by apply leads_lift|]. by intros ? ? [_ ?]. }
  eapply (leads_bind _ _ _ (λ _, P)).
  { induction entries as [|entry entries IH]; cbn; [apply leads_disk_io; [apply keeps_access|done|done]|].
    eapply leads_bind; [apply leads_disk_io; [apply keeps_stat_entry|done|done]|intros node].
    eapply leads_bind; [apply Hlift|intros ?; exact IH]. }
  intros []. eapply leads_bind; [apply Hlift|intros available]. eapply leads_bind; [apply Hlift|intros required]. apply Hlift.
Qed.

Definition Begin floor run : Prop :=
  Sound floor (Run.world run) ∧ World.owned (Run.world run) = false ∧ Run.held run = false ∧ Run.told run = [].
Lemma Begin_After o floor run : Begin floor run → After o floor run.
Proof. intros (?&?&_&Ht). exists floor. rewrite Ht. auto. Qed.
Lemma Begin_blind floor : blind (Begin floor).
Proof. by intros run p []. Qed.
Lemma Begin_lasting floor : lasting (Begin floor).
Proof. intros run w Hs Ho (?&?&?&?). split_and!; [by eapply Sound_steady|cbn; congruence|done|done]. Qed.

(** *** Opening *)

Record Opened floor s run : Prop := {
  op_sound : Sound floor (Run.world run);
  op_held : Run.held run = true;
  op_told : Run.told run = [];
  op_poisoned : Store.poisoned s = Store.unknown_length s;
  op_hasher : Store.hasher s = floor;
  op_committed : Store.committed s = Z.of_nat (length floor) ∧ Store.committed s ≤ Store.total s;
  op_phase : Store.unknown_length s = true → Store.phase s = 0;
  op_holding : ∃ c, ∀ o, Store.output s = Options.output_name o →
    Identity.expected_sha256 (Store.identity s) = Options.expected_sha256 o → Store.total s ≤ Options.max_download_bytes o →
    Holding o c floor [] (Handle.Make s (Run.world run)) }.
Lemma Opened_After o floor s run : Opened floor s run → After o floor run.
Proof. intros []. exists floor. rewrite op_told0. auto. Qed.
Lemma Opened_blind floor s : blind (Opened floor s).
Proof. by intros run p []. Qed.
Lemma Opened_lasting floor s : lasting (Opened floor s).
Proof.
  intros run w Hs _ []. split; try done; [by eapply Sound_steady|]. destruct op_holding0 as (c&Hc). exists c.
  intros o H1 H2 H3. eapply Holding_same; [exact Hs|by apply Hc].
Qed.
Lemma reopened_live w p r s w' : Resting sha256 w p r → open_store sha256 w = (Ok s, w') →
  Live sha256 (Handle.Make s w') ∧ ∃ i, row_identity r = Ok i ∧ s = reopened w p r i ∧ Resting sha256 w' p r.
Proof.
  intros Hw Ho. destruct (reopen_Ok _ _ _ _ _ _ Hw Ho) as ((i&Hi&->)&Hw'&Hct).
  pose proof (ro_checks _ (re_ok _ _ _ _ Hw)) as Hck. rewrite checks_spec in Hck.
  pose proof (pv_length _ _ _ _ (re_proved _ _ _ _ Hw)) as Hlen.
  pose proof (identity_fields _ _ Hi) as (Hit&Hie&_). split; [|by exists i].
  assert (Core sha256 (reopened w p r i) w' r) as Hc'.
  { destruct Hw'. split; cbn; try done; [by rewrite Hct|rewrite length_take; lia]. }
  destruct (row_unknown r) eqn:Hu; [left|right].
  - split; [done|]. by exists r.
  - split; [done|]. exists r. split; [done|]. split; cbn; try done; unfold Store.total; cbn; try congruence; lia.
Qed.
Lemma leads_claim_open o floor :
  leads (Begin floor) (claiming (open_store sha256)) (λ s run, Opened floor s run) (After o floor).
Proof.
  intros run (Hs&Ho&Hh&Ht). unfold claiming, disk, modify, mret, st_ret, mbind, st_bind.
  pose proof (unlocked_open sha256 (Run.world run) Ho) as Hu.
  destruct (open_store sha256 (Run.world run)) as [[s|e] w] eqn:Hop; cbn in *.
  - destruct Hs as [[Hr _] _|p r c Hw Hb Hg].
    { destruct (fruitless_open sha256 (Run.world run) Hr) as [Hf _]. by rewrite Hop in Hf. }
    destruct (reopened_live _ _ _ _ _ Hw Hop) as (Hl&i&Hi&->&Hw'). pose proof (identity_fields _ _ Hi) as (Hit&Hie&Hig).
    pose proof (ro_checks _ (re_ok _ _ _ _ Hw)) as Hck. rewrite checks_spec in Hck.
    pose proof (pv_length _ _ _ _ (re_proved _ _ _ _ Hw)) as Hlen.
    assert (Row.committed r = Z.of_nat (length floor)) as Hcm by (rewrite <-Hb; unfold recorded; rewrite length_take; lia).
    split; cbn; try done.
    + destruct (rests_open sha256 p r _ Hw) as [_ E]. rewrite Hop in E. cbn in E. eapply sound_resting; [done|by rewrite E|done].
    + unfold Store.total. cbn. rewrite Hit. lia.
    + intros Hun. pose proof (ro_corrupt _ (re_ok _ _ _ _ Hw)) as Hk. rewrite corrupt_spec in Hk.
      destruct Hk as (_&Hk&_). by destruct (Hk Hun).
    + exists c. intros o' H1 H2 H3. split; cbn; try done; [|by rewrite <-Hb|lia].
      exists r. split; [apply Hw'|]. split; [done|]. unfold recorded in Hb; by rewrite Hb.
  - exists floor. split; [|by cbn; rewrite Ht; auto]. destruct Hs as [Hv He|p r c Hw Hb Hg].
    + destruct (fruitless_open sha256 (Run.world run) (proj1 Hv)) as [_ Hf]. rewrite Hop in Hf. eapply Sound_steady; [exact Hf|].
      by apply sound_vacant.
    + destruct (rests_open sha256 p r _ Hw) as [Hw' E]. rewrite Hop in Hw', E. cbn in Hw', E. eapply sound_resting; [done|by etrans|done].
Qed.

(** *** Creating *)

Definition digest_ok o : Prop := ∀ e, Options.expected_sha256 o = Some e → length e = 32%nat.
Lemma leads_claim_create o c i unknown :
  digest_ok o → Identity.expected_sha256 i = Options.expected_sha256 o → Identity.total i ≤ Options.max_download_bytes o →
  (unknown = true → Identity.total i ≠ 0) → is_version (Identity.strong_etag i ≫= tag_of_text) c →
  (unknown = false → Identity.total i = Z.of_nat (length c)) →
  leads (λ run, Begin [] run ∧ World.here (Run.world run) = None) (claiming (create_inner sha256 i (Options.output_name o) unknown))
    (λ s run, During o c [] s run ∧ Store.hasher s = [] ∧ Store.unknown_length s = unknown) (After o []).
Proof.
  intros Hdg Hx Ht Hu Hv Hl run [(Hs&Ho&Hh&Htold) Hhere]. unfold claiming, disk, modify, mret, st_ret, mbind, st_bind.
  assert (vacant (Run.world run)) as Hvac.
  { destruct Hs as [?|p r ? Hw]; [done|]. pose proof (pl_here _ _ (re_placed _ _ _ _ Hw)). congruence. }
  pose proof (takes_create sha256 i (Options.output_name o) unknown (Run.world run) Ho) as Htk.
  destruct (create_inner sha256 i (Options.output_name o) unknown (Run.world run)) as [x w'] eqn:Hr. cbn in Htk.
  apply create_inner_any in Hr; [|done|done|by intros e He; apply Hdg; congruence|done].
  destruct Hr as [[Hno Hvac']|(part&Hhere'&Hus&Hrow&Hst)].
  { destruct x as [s|e]; [done|]. cbn. exists []. split; [by apply sound_vacant|]. cbn. rewrite Htold. auto. }
  assert (Holding o c [] [] (Handle.Make (new_store i (Options.output_name o) unknown part) w')) as Hho.
  { split; cbn; try done; [by right|]. exists (new_row sha256 i (Options.output_name o) unknown). split; [done|]. split; [done|].
    split; [done|apply prefix_nil|]. unfold row_unknown. cbn. destruct unknown; [done|]. auto. }
  destruct x as [s|e]; cbn.
  - rewrite (Hst _ eq_refl). split; [|done]. split; [|done]. cbn. by rewrite Htold.
  - apply Holding_sound in Hho as (bytes&?&?&_). exists bytes. cbn. rewrite Htold. auto.
Qed.

(** ** From the answer on *)

Section Body.
Context (o : Options.t) (env : Env.t) (Henv : honest env).
Abbreviation Fresh := (λ run, Begin [] run ∧ World.here (Run.world run) = None).

Lemma Fresh_lasting : lasting Fresh.
Proof. intros run w Hs Ho [Hb Hh]. split; [by apply Begin_lasting|]. cbn. by rewrite (sw_here _ _ Hs). Qed.
Lemma Fresh_After run : Fresh run → After o [] run.
Proof. intros [? _]. by apply Begin_After. Qed.
Lemma Fresh_blind : blind Fresh.
Proof. intros run p [? ?]. split; [by apply Begin_blind|done]. Qed.
Lemma leads_skip {A} (P : Run.t → Prop) (x : result DownloadError.t A) (X : Run.t → Prop) : (∀ run, P run → X run) →
  leads P (lift x) (λ _, P) X.
Proof. intros HX. eapply leads_post; [by apply leads_lift|]. by intros ? ? [_ ?]. Qed.
(** A look at the cancellation. *)
Lemma leads_look {A} (P : Run.t → Prop) (k : run_st A) Q (X : Run.t → Prop) : blind P → (∀ run, P run → X run) → leads P k Q X →
  leads P (stopped ← on_pace is_cancelled; _ ← lift (refuse_if stopped DownloadError.Cancelled); k) Q X.
Proof.
  intros Hb HX Hk. eapply leads_bind; [by apply leads_pace|intros stopped].
  eapply leads_bind; [by apply leads_skip|intros []; exact Hk].
Qed.
Lemma leads_parents {A} (k : list (option Node) → run_st A) Q : (∀ above, leads Fresh (k above) Q (After o [])) →
  leads Fresh (above ← parents; k above) Q (After o []).
Proof.
  intros Hk run Hr. unfold parents, gets, lift, refuse_if, mbind, st_bind, mret, st_ret. cbn.
  destruct (bool_decide _); [by apply Fresh_After|by apply Hk].
Qed.
Lemma leads_unknown original response c : digest_ok o → HttpResponse.status response = 200 →
  honest_answer (HttpResponse.status response) (HttpResponse.headers response) (Env.pieces env) c →
  leads Fresh (transfer_unknown sha256 o env original response) (Done o []) (After o []).
Proof.
  intros Hdg Hst Hc. unfold transfer_unknown. eapply leads_bind; [apply leads_skip, Fresh_After|intros []].
  eapply leads_bind; [apply leads_lift, Fresh_After|]. intros etag. cbv beta.
  intros run [Het Hr]. pose proof (answered_version _ _ _ _ _ Hc Het) as Hv. revert run Hr.
  apply leads_look; [apply Fresh_blind|apply Fresh_After|]. apply leads_parents. intros above.
  eapply leads_bind; [apply leads_space; [apply Fresh_lasting|apply Fresh_After]|intros []].
  set (i := Identity.Make _ _ _ _ _).
  eapply (leads_bind _ _ _ (λ s run, During o c [] s run ∧ Store.hasher s = [] ∧ Store.unknown_length s = true)).
  { intros run Hr. unfold claiming, disk, create_unknown. unfold lift, refuse_if, mbind, st_bind.
    destruct (bool_decide (Identity.total i = 0)) eqn:Hz; cbn; [apply Fresh_After; by destruct run|]. open_bools.
    exact (leads_claim_create o c i true Hdg eq_refl (Z.le_refl _) (λ _, Hz) Hv ltac:(done) run Hr). }
  intros s run (Hd&Hx&_). destruct Hc. revert run Hd. eapply leads_bind.
  { apply leads_receive_unknown. rewrite Hx. by apply hn_all0. }
  intros s1 run (Hd&He&Hx1). rewrite Hx, hn_end0 in Hx1 by done. cbn in Hx1.
  destruct (During_facts _ _ _ _ _ Hd) as (_&Hlen&_). rewrite Hx1 in Hlen. revert run Hd.
  eapply leads_bind; [apply leads_pace; [apply During_blind|apply During_After]|].
  intros [|]; [eapply leads_post; [apply leads_stop|done]|]. rewrite Hlen.
  eapply leads_bind; [apply leads_publish; intros told h <- _ Hh; by apply Holding_mark_unknown|]. intros [n s2]. cbn.
  intros run (Hd2&Hcm&Hp). unfold on_checkpoint, modify, mbind, st_bind, mret, st_ret.
  pose proof (leads_tell o c [] (Z.of_nat (length c)) s2 ltac:(lia) run Hd2) as Ht. unfold on_checkpoint, modify in Ht.
  split; [by eapply During_After|]. exists c. apply Hp.
Qed.

(** *** A store that was already there *)

Lemma accepted_existing c0 c' floor s response run : During o c0 floor s run → Store.unknown_length s = false →
  Store.hasher s = floor → Store.committed s = Z.of_nat (length floor) →
  honest_answer (HttpResponse.status response) (HttpResponse.headers response) (Env.pieces env) c' →
  accept_existing sha256 o s response = Ok tt →
  ∃ c, During o c floor s run ∧ Store.hasher s ++ body (Env.pieces env) `prefix_of` c.
Proof.
  intros Hd Hu Hx Hcm Hc Ha. pose proof (During_facts _ _ _ _ _ Hd) as (Hl&Hlen&Htake&Htag&Htot). rewrite Hx in Hlen.
  unfold accept_existing, mbind, result_bind in Ha. destruct (refuse_if _ _); [|done]. case_decide as H0.
  - destruct (Identity.strong_etag (Store.identity s)) as [e|] eqn:He; [|done]. cbn in Ha.
    apply accept_range_Ok in Ha as (t&Ht&Hst&_&Htg&Hran). destruct Hc.
    specialize (Htag _ eq_refl). rewrite Ht in Htag. cbn in Htag. assert (c' = c0) as -> by eauto.
    exists c0. split; [done|]. specialize (hn_part0 Hst _ _ Hran).
    rewrite Htake. etrans; [apply prefix_app, hn_part0|].
    replace (Store.len s) with (Store.committed s) by lia. rewrite take_slice by lia. apply prefix_take.
  - assert (floor = []) as -> by (destruct floor; [done|cbn in Hcm; lia]).
    destruct (refuse_if _ _) as [[]|] eqn:Hst; [|done]. apply refuse_open in Hst as Hb. open_bools. clear Hst.
    destruct (refuse_if _ _); [|done]. destruct (length_of _) as [n|] eqn:Hn; [|done].
    destruct (refuse_if (negb _) _) as [[]|] eqn:Hnt; [|done]. apply refuse_open in Hnt. open_bools.
    destruct Hc. specialize (hn_length0 Hb _ Hn). exists c'. rewrite Hx. split; [|by apply hn_all0].
    destruct Hd as (Hh&Hp&Hheld). split; [|done]. destruct Hh. split; try done. destruct ho_genuine0 as (r&Hr&Het&Hg).
    exists r. split; [done|]. split; [done|]. cbn [Handle.store] in *. split; [|rewrite Hx; apply prefix_nil|].
    + rewrite Het. destruct (Identity.strong_etag (Store.identity s)) as [e|] eqn:He; [|done]. cbn.
      destruct (field _ ETAG) as [|v|] eqn:Hf; try done. unfold refuse_if in Ha. destruct (negb _) eqn:Hv; [done|]. open_bools.
      assert (tag_of (HttpResponse.headers response) = tag_of_text e) as E by (unfold tag_of, tag_of_text; by rewrite Hf, Hv).
      rewrite <-E. destruct (tag_of _) as [t|] eqn:Ht; [by apply hn_version0|done].
    + intros _. destruct (Live_usable sha256 _ ho_live0 Hp) as (r0&Hcore&Hcl). pose proof (co_row _ _ _ _ Hcore) as Hr0.
      unfold row_of in Hr. cbn in *. rewrite Hr in Hr0. injection Hr0 as <-. rewrite (cl_total _ _ _ Hcl). lia.
Qed.
Lemma leads_ask_existing original start floor s : Store.unknown_length s = false → Store.hasher s = floor →
  Store.committed s = Z.of_nat (length floor) →
  leads (λ run, ∃ c, During o c floor s run)
    (ask_and_receive sha256 url_parse header_value url_join o env original start (Some s)) (Done o floor) (After o floor).
Proof.
  intros Hu Hx Hcm. set (P := λ run, ∃ c, During o c floor s run).
  assert (∀ run, P run → After o floor run) as HX by (intros run [c Hd]; by eapply During_After).
  unfold ask_and_receive. eapply leads_bind; [apply leads_skip, HX|intros range].
  eapply leads_bind; [apply leads_lift, HX|intros response]. cbv beta. intros run [Hq HP].
  destruct (honest_response _ _ _ _ _ _ _ (he_main _ Henv) Hq) as (c'&Hc). revert run HP.
  eapply leads_bind; [apply leads_skip, HX|intros ?]. eapply leads_bind; [apply leads_skip, HX|intros ?].
  eapply leads_bind; [apply leads_skip, HX|intros job]. eapply leads_bind; [apply leads_lift, HX|]. cbv beta.
  intros [] run [Ha [c0 Hd]]. destruct (accepted_existing _ _ _ _ _ _ Hd Hu Hx Hcm Hc Ha) as (c&Hd'&Hb).
  by apply (leads_finish o c floor env Henv original response job start s Hu Hb run).
Qed.
Lemma leads_ask_fresh original : digest_ok o →
  leads Fresh (ask_and_receive sha256 url_parse header_value url_join o env original 0 None) (Done o []) (After o []).
Proof.
  intros Hdg. unfold ask_and_receive. eapply leads_bind; [apply leads_skip, Fresh_After|intros range].
  eapply leads_bind; [apply leads_lift, Fresh_After|intros response]. cbv beta. intros run [Hq HP].
  destruct (honest_response _ _ _ _ _ _ _ (he_main _ Henv) Hq) as (c&Hc). revert run HP.
  eapply leads_bind; [apply leads_skip, Fresh_After|intros ?]. eapply leads_bind; [apply leads_skip, Fresh_After|intros ?].
  eapply leads_bind; [apply leads_skip, Fresh_After|intros job]. eapply leads_bind; [apply leads_refuse, Fresh_After|]. cbv beta.
  intros [] run [Hst HP]. open_bools. revert run HP.
  eapply leads_bind; [apply leads_skip, Fresh_After|intros ?].
  destruct (negb _); [by eapply leads_unknown|].
  eapply (leads_bind _ _ _ (λ s run, During o c [] s run ∧ Store.hasher s = [] ∧ Store.unknown_length s = false)).
  - unfold create_for. eapply leads_bind; [apply leads_lift, Fresh_After|]. cbv beta. intros total run [Htot HP]. revert run HP.
    eapply leads_bind; [apply leads_refuse, Fresh_After|]. cbv beta. intros [] run [Hmax HP]. open_bools. revert run HP.
    apply leads_parents. intros above.
    eapply leads_bind; [apply leads_space; [apply Fresh_lasting|apply Fresh_After]|intros []].
    eapply leads_bind; [apply leads_lift, Fresh_After|]. cbv beta. intros etag run [Het HP]. revert run HP.
    pose proof (answered_version _ _ _ _ _ Hc Het) as Hv. destruct Hc. specialize (hn_length0 Hst _ Htot).
    apply leads_claim_create; cbn; try done; lia.
  - intros s run (Hd&Hx&Hu). refine (leads_finish o c [] env Henv original response job 0 s Hu _ run Hd). rewrite Hx.
    destruct Hc. by apply hn_all0.
Qed.

(** *** The whole *)

Definition Ready floor s run : Prop := Run.held run = true ∧ ∃ c, Holding o c floor (Run.told run) (Handle.Make s (Run.world run)).
Lemma Ready_After floor s run : Ready floor s run → After o floor run.
Proof. intros (Hh&c&Hc). apply Holding_sound in Hc as (bytes&?&?&?). exists bytes. cbn in *. auto. Qed.
Lemma Ready_lasting floor s : lasting (Ready floor s).
Proof. intros run w Hs _ (Hh&c&Hc). split; [done|]. exists c. by eapply Holding_same. Qed.
Lemma Ready_tell floor s n : n ≤ Store.committed s → n ≤ Options.max_download_bytes o →
  leads (Ready floor s) (on_checkpoint n) (λ _, Ready floor s) (After o floor).
Proof.
  intros H1 H2 run (Hh&c&[]). split; [done|]. exists c. split; try done. cbn. apply Forall_app. split; [done|].
  by constructor.
Qed.
Lemma leads_publish_existing floor start s : Store.unknown_length s = false → Store.poisoned s = false →
  leads (Ready floor s) (publish_existing sha256 start s) (Done o floor) (After o floor).
Proof.
  intros Hu Hp. unfold publish_existing.
  apply leads_look; [by intros run p []|apply Ready_After|].
  intros run (Hh&c&Hc). assert (During o c floor s run) as Hd by done.
  destruct (During_facts _ _ _ _ _ Hd) as (_&_&_&_&Ht). rewrite Ht by done. clear Hc. revert run Hh Hd. intros run _ Hd.
  pose proof (leads_publish o c floor s (mret tt) (λ _ _ _ _ Hh, Hh) run Hd) as Hpub.
  change (disk_store (_ ← mret tt; finalize sha256) s run) with (disk_store (finalize sha256) s run) in Hpub.
  unfold mbind, st_bind.
  destruct (disk_store (finalize sha256) s run) as [[p|e] run']; cbn in *; [|done].
  destruct Hpub as (Hd'&_&Hpb). split; [by eapply During_After|]. exists c. apply Hpb.
Qed.
Lemma leads_body floor : digest_ok o →
  leads (Begin floor) (download_body sha256 url_parse header_value url_join o env) (Done o floor) (After o floor).
Proof.
  intros Hdg. unfold download_body. eapply leads_bind; [apply leads_skip, Begin_After|intros original].
  apply leads_look; [apply Begin_blind|apply Begin_After|].
  eapply (leads_bind _ _ _ (λ e run, match e with
    | Some s => Opened floor s run
    | None => Begin floor run ∧ World.here (Run.world run) = None end)).
  { unfold open_existing. eapply leads_bind; [apply leads_disk_io; [apply keeps_access|apply Begin_lasting|apply Begin_After]|intros []].
    intros run Hb. unfold gets, mbind, st_bind. cbn. destruct (World.here (Run.world run)) eqn:Hh; [|done].
    pose proof (leads_claim_open o floor run Hb) as Ho. destruct (claiming _ run) as [[s|e] run']; done. }
  intros [s|].
  2:{ intros run [Hb Hh]. assert (floor = []) as ->.
      { destruct Hb as ([_ ?|p r ? Hw]&_); [done|]. pose proof (pl_here _ _ (re_placed _ _ _ _ Hw)). congruence. }
      revert run Hb Hh. assert (leads Fresh (ask_and_receive sha256 url_parse header_value url_join o env original 0 None)
        (Done o []) (After o [])) as Ha by (by apply leads_ask_fresh).
      intros run Hb Hh. revert run Hb Hh.
      assert (leads Fresh (stopped ← on_pace is_cancelled; _ ← lift (refuse_if stopped DownloadError.Cancelled);
        ask_and_receive sha256 url_parse header_value url_join o env original 0 None) (Done o []) (After o [])) as Hall
        by (by apply leads_look; [apply Fresh_blind|apply Fresh_After|]).
      intros run Hb Hh. by apply Hall. }
  apply leads_look; [apply Opened_blind|apply Opened_After|].
  eapply leads_bind; [apply leads_lift; intros run; apply Opened_After|]. cbv beta. intros [] run [Hck Hop].
  assert (Ready floor s run ∧ Store.total s ≤ Options.max_download_bytes o) as [Hrd Hmax].
  { unfold check_existing, mbind, result_bind, refuse_if in Hck. destruct (_ || _) eqn:Hb; [done|].
    destruct (bool_decide (Options.max_download_bytes o < _)) eqn:Hm; [done|]. open_bools. destruct Hop.
    unfold Store.total in *. split; [|lia]. split; [done|]. destruct op_holding0 as (c&Hc). exists c. rewrite op_told0. apply Hc; try done. unfold Store.total. lia. }
  destruct Hop. clear op_sound0 op_held0 op_told0 op_holding0 Hck. revert run Hrd.
  apply (leads_bind _ _ _ (λ _, Ready floor s)).
  { unfold space_existing. destruct (status s); [|by apply leads_ret..]. destruct (Store.unknown_length s); [by apply leads_ret|].
    intros run Hr. unfold gets, mbind, st_bind. by apply (leads_space (Ready floor s)); [apply Ready_lasting|apply Ready_After|]. }
  intros []. eapply (leads_bind _ _ _ (λ _, Ready floor s)); [case_decide; [apply Ready_tell; lia|by apply leads_ret]|intros []].
  assert (status s ≠ Status.Downloading → Store.unknown_length s = false) as Hkn.
  { intros Hs. destruct (Store.unknown_length s); [|done]. exfalso. apply Hs. unfold status. by rewrite (op_phase0 eq_refl). }
  destruct (status s).
  - eapply leads_bind; [apply leads_refuse, Ready_After|]. cbv beta. intros [] run [Hu Hr]. revert run Hr.
    eapply leads_bind; [apply leads_skip, Ready_After|intros []].
    eapply leads_pre; [apply leads_ask_existing; [done|done|lia]|]. intros run (Hh&c&Hc). exists c. split; [done|]. split; [congruence|done].
  - apply leads_publish_existing; [by apply Hkn|]. rewrite op_poisoned0. by apply Hkn.
  - apply leads_publish_existing; [by apply Hkn|]. rewrite op_poisoned0. by apply Hkn.
Qed.
End Body.

(** ** Attempts *)

(** A dead process leaves a directory as one does whose calls all failed from some point on,
    so the faults and fates of an attempt include its death. *)
Definition attempted (a : Attempt.t) w : result DownloadError.t Outcome.t * Run.t :=
  download_controlled sha256 url_parse header_value url_join (Attempt.options a) (Attempt.env a)
    (Run.Make (left_behind (Attempt.faults a) (Attempt.fates a) w) (Attempt.pace a) [] false).
Definition fair (a : Attempt.t) : Prop := honest (Attempt.env a) ∧ digest_ok (Attempt.options a).
(** Further attempts in the same directory, and a directory that was not there before them. *)
Inductive Later w : World.t → Prop :=
| later_now : Later w w
| later_again a w' : Later w w' → fair a → Later w (Run.world (attempted a w').2).
Definition untouched w : Prop := World.here w = None ∧ Fs.nodes (World.fs w) = ∅ ∧ World.row w = None.
Definition Tried w : Prop := ∃ w0, untouched w0 ∧ Later w0 w.

Lemma Sound_owned bytes w v : Sound bytes w → Sound bytes (World.set_owned v w).
Proof. intros [Hv He|p r c Hw Hb Hg]; [by apply sound_vacant|]. eapply sound_resting; [by apply Resting_owned|done|done]. Qed.
Lemma attempted_sound a w floor : fair a → Sound floor w → let '(x, run) := attempted a w in
  (∃ bytes, Sound bytes (Run.world run) ∧ floor `prefix_of` bytes ∧ World.owned (Run.world run) = false ∧
    Forall (λ n, n ≤ Z.of_nat (length bytes) ∧ n ≤ Options.max_download_bytes (Attempt.options a)) (Run.told run)) ∧
  ∀ out, x = Ok out → ∃ c, Published_as (Attempt.options a) c out (Run.world run).
Proof.
  intros [Hh Hd] Hs. unfold attempted, download_controlled.
  set (run0 := Run.Make _ _ _ _).
  assert (Begin floor run0) as Hb by (split_and!; [by eapply Sound_steady; [apply left_behind_same|]|done..]).
  pose proof (leads_body (Attempt.options a) (Attempt.env a) Hh floor Hd run0 Hb) as Hl.
  destruct (download_body _ _ _ _ _ _ run0) as [[out|e] run].
  - destruct Hl as ((bytes&Hsb&Hp&Hf&Ho)&c&Hc). destruct (Run.held run) eqn:Hheld.
    + split; [exists bytes; split_and!; [by apply Sound_owned|done..]|]. intros ? [= <-]. exists c. by destruct Hc.
    + destruct Ho as [?|Ho]; [done|]. split; [by exists bytes|]. intros ? [= <-]. by exists c.
  - destruct Hl as (bytes&Hsb&Hp&Hf&Ho). split; [|done]. exists bytes. destruct (Run.held run).
    + split_and!; [by apply Sound_owned|done..].
    + destruct Ho as [?|Ho]; done.
Qed.
Lemma later_sound w w' floor : Later w w' → Sound floor w → ∃ bytes, Sound bytes w' ∧ floor `prefix_of` bytes.
Proof.
  intros Hl Hs. induction Hl as [|a w' _ (bytes&Hs'&Hp) Hf]; [by exists floor|].
  pose proof (attempted_sound a w' bytes Hf Hs') as Ha. destruct (attempted a w') as [x run].
  destruct Ha as [(bytes'&?&?&_) _]. exists bytes'. split; [done|by etrans].
Qed.
Lemma tried_sound w : Tried w → ∃ bytes, Sound bytes w.
Proof.
  intros (w0&(Hh&Hn&Hr)&Hl). destruct (later_sound w0 w [] Hl) as (bytes&Hs&_); [|by exists bytes].
  apply sound_vacant; [|done]. split; [done|by intros].
Qed.

(** C11: in whatever way earlier attempts in this directory were interrupted - by the network, the caller, failing calls or their own death - and whether the bytes come one after the other, in ranges side by side or without a length: when a download succeeds, its output path names a file with the length and the digest of one single representation that the server served as a whole, never of a mixture; it has the length reported, is not longer than the caller allowed, and has the digest the caller asked for *)
Theorem output_is_one_representation a w out run : Tried w → fair a → attempted a w = (Ok out, run) →
  ∃ c, Published_as (Attempt.options a) c out (Run.world run).
Proof.
  intros [floor Hs]%tried_sound Hf Ha. pose proof (attempted_sound a w floor Hf Hs) as Hx. rewrite Ha in Hx. by apply Hx.
Qed.

(** C12: however an attempt ends, it lets go of the directory, and there are bytes that stay: every count it has reported to the caller is at most their number and at most the limit, and after any further attempts, interrupted in any way, the directory opens with these bytes at its beginning *)
Theorem reported_bytes_stay a w : Tried w → fair a → let run := (attempted a w).2 in
  World.owned (Run.world run) = false ∧
  ∃ bytes, (∀ n, n ∈ Run.told run → n ≤ Z.of_nat (length bytes) ∧ n ≤ Options.max_download_bytes (Attempt.options a)) ∧
    ∀ w', Later (Run.world run) w' → bytes ≠ [] →
      ∃ s w'', open_store sha256 (rested w') = (Ok s, w'') ∧ bytes `prefix_of` Store.hasher s.
Proof.
  intros [floor Hs]%tried_sound Hf. pose proof (attempted_sound a w floor Hf Hs) as Hx. destruct (attempted a w) as [x run]. cbn.
  destruct Hx as [(bytes&Hsb&_&Ho&Htold) _]. split; [done|]. exists bytes. split; [by rewrite Forall_forall in Htold|].
  intros w' Hl Hne. destruct (later_sound _ _ _ Hl Hsb) as (bytes'&Hs'&Hp).
  destruct Hs' as [_ ->|p r c Hw Hb _]; [by apply prefix_nil_inv in Hp|].
  assert (Resting sha256 (rested w') p r) as Hw' by (apply (still_same sha256 p r w'); [apply rested_same|done]).
  destruct (opens sha256 (rested w') p r) as (s&w''&Hop); [apply rested_calm|done|done|]. exists s, w''. split; [done|].
  destruct (reopened_live _ _ _ _ _ Hw' Hop) as (_&i&_&->&_). cbn. etrans; [exact Hp|]. rewrite <-Hb. done.
Qed.
End Fetches.
End Web.
(** ** Two attempts at one file *)

Module ToyTransfer.
Definition file : list Z := [1; 2; 3; 4].
Definition tag : list Z := [34; 97; 34].
Definition whole (c : list Z) : Prop := c = file.
Definition version (t c : list Z) : Prop := t = tag ∧ c = file.
Lemma version_whole t c : version t c → whole c.
Proof. by intros [_ ?]. Qed.
Lemma version_one t c c' : version t c → version t c' → c = c'.
Proof. by intros [_ ->] [_ ->]. Qed.

(** The file with its length and tag, and its second half. *)
Definition all_headers : headers_ := [(CONTENT_LENGTH, [52]); (ETAG, tag)].
Definition rest_headers : headers_ :=
  [(CONTENT_LENGTH, [50]); (ETAG, tag); (CONTENT_RANGE, ContentRange.unit_ ++ [50; 45; 51; 47; 52])].
Definition asked (sends : list Sending) (pieces : list Piece) : Env.t :=
  Env.Make sends pieces (Ok 10000000) (Worker.wire Worker.silent) [].
Definition options : Options.t :=
  Options.Make (ToyWeb.SITE 97 ++ [47; 102]) [47; 106] [111; 117; 116] (Some (Toy.sha file)) false 2 100 (Some 30) 1
    (RequestPolicy.Make None None []) None.
(** Stopped by the caller after two bytes; then the rest is asked for. *)
Definition stopped : Attempt.t :=
  Attempt.Make options (asked [Answered 200 Http11 all_headers] [Chunk [1; 2]; Stopped_]) Pace.calm [] [].
Definition resumed : Attempt.t :=
  Attempt.Make options (asked [Answered 206 Http11 rest_headers] [Chunk [3; 4]; Ended]) Pace.calm [] [].
Abbreviation attempted := (attempted Toy.sha ToyWeb.parse (λ _, true) ToyWeb.toy_join).
Abbreviation fair := (fair whole version).
Abbreviation Tried := (Tried Toy.sha whole version ToyWeb.parse (λ _, true) ToyWeb.toy_join).

Lemma silence sends pieces : honest_sends whole version sends pieces → honest whole version (asked sends pieces).
Proof.
  intros Hs. split; [done| |].
  - intros ? ? ? Hin. by apply not_elem_of_nil in Hin.
  - intros workers worker Hin. by apply not_elem_of_nil in Hin.
Qed.
Lemma answers_all pieces : body pieces `prefix_of` file → (ends_well pieces = true → body pieces = file) →
  honest_sends whole version [Answered 200 Http11 all_headers] pieces.
Proof.
  intros Hb He status http headers Hin _. apply list_elem_of_singleton in Hin as [= -> -> ->]. exists file. split; try done.
  - intros t Ht. vm_compute in Ht. by injection Ht as <-.
  - intros v Hv. vm_compute in Hv. injection Hv as <-. unfold is_byte. repeat constructor; lia.
  - intros _ n Hn. vm_compute in Hn. by injection Hn as <-.
Qed.
Lemma answers_rest pieces : body pieces `prefix_of` [3; 4] →
  honest_sends whole version [Answered 206 Http11 rest_headers] pieces.
Proof.
  intros Hb status http headers Hin _. apply list_elem_of_singleton in Hin as [= -> -> ->]. exists file. split; try done.
  - intros t Ht. vm_compute in Ht. by injection Ht as <-.
  - intros v Hv. vm_compute in Hv. injection Hv as <-. unfold is_byte. repeat constructor; lia.
  - intros _ a b Hab. vm_compute in Hab. by injection Hab as <- <-.
Qed.
Lemma options_ok : digest_ok options.
Proof. by intros e [= <-]. Qed.
Lemma stopped_fair : fair stopped.
Proof. split; [|apply options_ok]. apply silence, answers_all; [by exists [3; 4]|done]. Qed.
Lemma resumed_fair : fair resumed.
Proof. split; [|apply options_ok]. by apply silence, answers_rest. Qed.

Definition nothing : World.t := Toy.world [].
Definition halfway : World.t := Run.world (attempted stopped nothing).2.
Lemma nothing_tried : Tried nothing.
Proof. exists nothing. split; [done|apply later_now]. Qed.
Lemma halfway_tried : Tried halfway.
Proof. exists nothing. split; [done|]. apply later_again; [apply later_now|apply stopped_fair]. Qed.
End ToyTransfer.

Example stopped_tells : Run.told (attempted Toy.sha ToyWeb.parse (λ _, true) ToyWeb.toy_join ToyTransfer.stopped ToyTransfer.nothing).2 = [2; 2].
Proof. vm_compute. reflexivity. Qed.
Example resumed_succeeds :
  (attempted Toy.sha ToyWeb.parse (λ _, true) ToyWeb.toy_join ToyTransfer.resumed ToyTransfer.halfway).1 =
  Ok (Outcome.Make 4 2 (Leaf [111; 117; 116])).
Proof. vm_compute. reflexivity. Qed.

Lemma output_is_one_representation_witness : ∃ c,
  Published_as Toy.sha ToyTransfer.whole ToyTransfer.options c (Outcome.Make 4 2 (Leaf [111; 117; 116]))
    (Run.world (attempted Toy.sha ToyWeb.parse (λ _, true) ToyWeb.toy_join ToyTransfer.resumed ToyTransfer.halfway).2).
Proof.
  apply (output_is_one_representation Toy.sha ToyTransfer.whole ToyTransfer.version ToyTransfer.version_whole ToyTransfer.version_one
    ToyWeb.parse (λ _, true) ToyWeb.toy_join ToyTransfer.resumed ToyTransfer.halfway (Outcome.Make 4 2 (Leaf [111; 117; 116])));
    [apply ToyTransfer.halfway_tried|apply ToyTransfer.resumed_fair|].
  exact (eq_trans (surjective_pairing _) (f_equal (λ x, (x, _)) resumed_succeeds)).
Defined.
Lemma reported_bytes_stay_witness :
  let run := (attempted Toy.sha ToyWeb.parse (λ _, true) ToyWeb.toy_join ToyTransfer.stopped ToyTransfer.nothing).2 in
  World.owned (Run.world run) = false ∧
  ∃ bytes, (∀ n, n ∈ Run.told run → n ≤ Z.of_nat (length bytes)) ∧
    ∃ s w, open_store Toy.sha (rested (Run.world run)) = (Ok s, w) ∧ bytes `prefix_of` Store.hasher s.
Proof.
  destruct (reported_bytes_stay Toy.sha ToyTransfer.whole ToyTransfer.version ToyTransfer.version_whole ToyTransfer.version_one
    ToyWeb.parse (λ _, true) ToyWeb.toy_join ToyTransfer.stopped ToyTransfer.nothing ToyTransfer.nothing_tried ToyTransfer.stopped_fair)
    as (Ho&bytes&Htold&Hopen).
  split; [exact Ho|]. exists bytes. split; [intros n Hn; by apply Htold|].
  apply Hopen; [apply later_now|]. intros ->.
  assert (2 ∈ [2; 2]) as Hin by (by left). rewrite <-stopped_tells in Hin. apply Htold in Hin as [Hin _]. cbn in Hin. lia.
Defined.
