(* ===== verification/QueueStore.v ===== *)
(** * The saved queue of the first engine

    [src/crates/download-engine/src/queue_store.rs], with the types of a queue from manager.rs: the
    snapshot, its versioned bytes, and the row of the database that holds them encrypted.
    The hash, the encryption and the parser of links are parameters; bytes are [Z] in 0..255.
    What a database or the provider of the encryption answers is an argument. *)

From S2P Require Import Prelude.
From S2P Require Import Files.
From S2P Require Import StorageFile.
From S2P Require Import Options.

(** ** The queue's types *)

Module ManagerError.
Inductive t : Type :=
| InvalidLimits | NoRuntime | Closed | Capacity | InvalidOptions | InvalidPath | DuplicateJob | UnknownJob
| InvalidTransition | WorkerFailed | Persistence | SecretStorage | QueueLocked | NotDurable | InvalidIdempotencyKey
| IdempotencyConflict | PreviouslyRemoved | ReceiptCapacity.
#[global] Instance t_eq_dec : EqDecision t.
Proof. solve_decision. Defined.
End ManagerError.

(** [JobId] is its number. *)
Module Priority.
Inductive t : Type := Low | Normal | High.
#[global] Instance t_eq_dec : EqDecision t.
Proof. solve_decision. Defined.
Definition rank (p : t) : Z := match p with Low => 0 | Normal => 1 | High => 2 end.
End Priority.

Module TaskState.
Inductive t : Type :=
| Queued | Running | Pausing | Paused | Completed | Failed (error : DownloadError.t) | RetryWaiting.
#[global] Instance t_eq_dec : EqDecision t.
Proof. solve_decision. Defined.
Definition code (s : t) : Z :=
  match s with Queued => 0 | Running => 1 | Pausing => 2 | Paused => 3 | Completed => 4 | Failed _ => 5 | RetryWaiting => 6 end.
End TaskState.

Module RetrySettings.
Record t : Type := Make { max_attempts : Z; initial_delay_ms : Z; max_delay_ms : Z }.
#[global] Instance t_eq_dec : EqDecision t.
Proof. solve_decision. Defined.
Definition disabled : t := Make 1 1000 30000.
(** [delay], in milliseconds. *)
Definition delay (p : t) (attempts : Z) : Z :=
  Z.min (saturating_mul u64_max (initial_delay_ms p) (Z.shiftl 1 (Z.min (saturating_sub attempts 1) 4))) (max_delay_ms p).
End RetrySettings.

Module Config.
Record t : Type := Make {
  max_active : Z; max_jobs : Z; max_per_origin : Z; retry : RetrySettings.t; global_bytes_per_second : option Z }.
#[global] Instance t_eq_dec : EqDecision t.
Proof. solve_decision. Defined.
Definition set_global v c := Make (max_active c) (max_jobs c) (max_per_origin c) (retry c) v.
Definition validate (c : t) : result ManagerError.t unit :=
  refuse_if (negb (bool_decide (1 ≤ max_active c ≤ 32)) || negb (bool_decide (1 ≤ max_jobs c ≤ 1024))
    || bool_decide (max_jobs c < max_active c) || negb (bool_decide (1 ≤ max_per_origin c ≤ max_active c))
    || negb (bool_decide (1 ≤ RetrySettings.max_attempts (retry c) ≤ 5))
    || negb (bool_decide (100 ≤ RetrySettings.initial_delay_ms (retry c) ≤ 60000))
    || negb (bool_decide (RetrySettings.initial_delay_ms (retry c) ≤ RetrySettings.max_delay_ms (retry c) ≤ 300000))
    || negb (valid_limit (global_bytes_per_second c))) ManagerError.InvalidLimits.
End Config.

Module QueueReceipt.
Record t : Type := Make { key_hash : list Z; payload_hash : list Z; job_id : Z; removed : bool }.
#[global] Instance t_eq_dec : EqDecision t.
Proof. solve_decision. Defined.
End QueueReceipt.
Module SavedJob.
Record t : Type := Make {
  id : Z; options : Options.t; priority : Priority.t; state : TaskState.t; progress : Z; attempts : Z }.
End SavedJob.
Module Snapshot.
Record t : Type := Make {
  last_id : Z; receipts : list QueueReceipt.t; config : Config.t; jobs : list SavedJob.t; queue : list Z }.
Definition empty (c : Config.t) : t := Make 0 [] c [] [].
End Snapshot.

(** ** Writing *)

Definition MAX_BLOB : Z := 64 * 1024 * 1024.
Definition MAX_PLAIN : Z := 48 * 1024 * 1024.
Definition MAX_RECEIPTS : Z := 4096.
(** [FHDQUEUE] and a version. *)
Definition magic (version : Z) : list Z := [70; 72; 68; 81; 85; 69; 85; 69; version].
Fixpoint le_octets (k : nat) (n : Z) : list Z := match k with O => [] | S k => n mod 256 :: le_octets k (n / 256) end.
Fixpoint from_le (l : list Z) : Z := match l with [] => 0 | b :: l => b + 256 * from_le l end.
Definition put_u64 (value : Z) : list Z := le_octets 8 value.
Definition put_string (value : list Z) : list Z := put_u64 (text_len value) ++ utf8 value.
Definition put_option (value : option Z) : list Z := put_u64 (default 0 value).
Definition flag (b : bool) : Z := if b then 1 else 0.
Definition put_hash (hash : option (list Z)) : list Z := flag (bool_decide (is_Some hash)) :: default [] hash.

Definition encode_options_v2 (o : Options.t) : result ManagerError.t (list Z) :=
  dir ← ok_or (to_str (Options.job_dir o)) ManagerError.InvalidPath;
  let policy := Options.request_policy o in
  Ok (put_string (Options.url o) ++ put_string dir ++ put_string (Options.output_name o)
    ++ put_hash (Options.expected_sha256 o) ++ [flag (Options.allow_http o)]
    ++ put_u64 (Options.checkpoint_bytes o) ++ put_u64 (Options.max_download_bytes o) ++ put_option (Options.bytes_per_second o)
    ++ [Options.parallel_connections o]
    ++ put_string (default [] (RequestPolicy.authorization policy)) ++ put_string (default [] (RequestPolicy.cookie policy))
    ++ put_u64 (Z.of_nat (length (RequestPolicy.redirect_origins policy)))
    ++ concat (put_string <$> RequestPolicy.redirect_origins policy)
    ++ put_hash (Options.refresh_from o)).
Definition encode_job (j : SavedJob.t) : result ManagerError.t (list Z) :=
  options ← encode_options_v2 (SavedJob.options j);
  Ok (put_u64 (SavedJob.id j) ++ options ++ [Priority.rank (SavedJob.priority j); TaskState.code (SavedJob.state j)]
    ++ put_u64 (SavedJob.progress j) ++ [SavedJob.attempts j]).
Definition encode_receipt (r : QueueReceipt.t) : list Z :=
  QueueReceipt.key_hash r ++ QueueReceipt.payload_hash r ++ put_u64 (QueueReceipt.job_id r) ++ [flag (QueueReceipt.removed r)].
Definition encode_config (c : Config.t) : list Z :=
  put_u64 (Config.max_active c) ++ put_u64 (Config.max_jobs c) ++ put_u64 (Config.max_per_origin c)
  ++ put_u64 (RetrySettings.max_attempts (Config.retry c)) ++ put_u64 (RetrySettings.initial_delay_ms (Config.retry c))
  ++ put_u64 (RetrySettings.max_delay_ms (Config.retry c)) ++ put_option (Config.global_bytes_per_second c).

(** ** Reading *)

Notation reader A := (st (list Z) ManagerError.t A).
Definition take_ (count : Z) : reader (list Z) := λ r,
  if decide (Z.of_nat (length r) < count) then (Err ManagerError.Persistence, r)
  else (Ok (take (Z.to_nat count) r), drop (Z.to_nat count) r).
Definition require (bad : bool) : reader unit := lift (refuse_if bad ManagerError.Persistence).
Definition byte_ : reader Z := b ← take_ 1; mret (default 0 (head b)).
Definition n_ : reader Z := b ← take_ 8; mret (from_le b).
Definition bounded_ (max : Z) : reader Z := n ← n_; _ ← require (bool_decide (max < n)); mret n.
Definition string_ (max : Z) : reader (list Z) :=
  n ← bounded_ max; b ← take_ n; lift (ok_or (from_utf8 b) ManagerError.Persistence).
Definition option_ : reader (option Z) := n ← n_; mret (if decide (n = 0) then None else Some n).
Definition boolean_ : reader bool :=
  b ← byte_; if decide (b = 0) then mret false else if decide (b = 1) then mret true else throw ManagerError.Persistence.
Definition hash_ : reader (option (list Z)) :=
  some ← boolean_; if (some : bool) then (h ← take_ 32; mret (Some h)) else mret None.
(** [for _ in 0..count]. *)
Fixpoint repeat_ {A} (count : nat) (read : reader A) : reader (list A) :=
  match count with O => mret [] | S count => x ← read; xs ← repeat_ count read; mret (x :: xs) end.

Definition read_config : reader Config.t :=
  max_active ← bounded_ 32; max_jobs ← bounded_ 1024; max_per_origin ← bounded_ 32;
  max_attempts ← bounded_ 5; initial_delay_ms ← n_; max_delay_ms ← n_; global ← option_;
  let c := Config.Make max_active max_jobs max_per_origin
    (RetrySettings.Make max_attempts initial_delay_ms max_delay_ms) global in
  _ ← lift (Config.validate c); mret c.
(** [(!value.is_empty()).then_some(value)]. *)
Definition non_empty (v : list Z) : option (list Z) := if decide (v = []) then None else Some v.
Definition read_priority : reader Priority.t :=
  b ← byte_;
  if decide (b = 0) then mret Priority.Low else if decide (b = 1) then mret Priority.Normal
  else if decide (b = 2) then mret Priority.High else throw ManagerError.Persistence.
Definition read_state : reader TaskState.t :=
  b ← byte_;
  match b with
  | 0 => mret TaskState.Queued | 1 => mret TaskState.Running | 2 => mret TaskState.Pausing | 3 => mret TaskState.Paused
  | 4 => mret TaskState.Completed | 5 => mret (TaskState.Failed DownloadError.WorkerFailed)
  | 6 => mret TaskState.RetryWaiting | _ => throw ManagerError.Persistence
  end.

(** The provider of the encryption. *)
Module Secrets.
Record t : Type := Make { protect : list Z → list Z; unprotect : list Z → option (list Z) }.
End Secrets.

Section Codec.
Context (url_parse : list Z → option Url.t) (header_value : list Z → bool) (sha256 : list Z → list Z).

Definition read_policy : reader (RequestPolicy.t * option (list Z)) :=
  auth ← string_ 8192; cookie ← string_ 8192;
  count ← bounded_ 8; origins ← repeat_ (Z.to_nat count) (string_ 16384);
  policy ← lift (map_err (λ _, ManagerError.Persistence)
    (new_policy url_parse header_value (non_empty auth) (non_empty cookie) origins));
  refresh_from ← hash_;
  mret (policy, refresh_from).
Definition read_options (version : Z) : reader Options.t :=
  url ← string_ 16384; job_dir ← string_ 131072; output_name ← string_ 255; expected_sha256 ← hash_;
  allow_http ← boolean_; checkpoint_bytes ← n_; max_download_bytes ← n_; bytes_per_second ← option_;
  parallel_connections ← byte_;
  more ← (if decide (version = 1) then mret (RequestPolicy.default, None) else read_policy);
  mret (Options.Make url job_dir output_name expected_sha256 allow_http checkpoint_bytes max_download_bytes
    bytes_per_second parallel_connections more.1 more.2).
Fixpoint read_jobs (count : nat) (version : Z) (jobs : list SavedJob.t) : reader (list SavedJob.t) :=
  match count with
  | O => mret jobs
  | S count =>
      id ← n_;
      _ ← require (bool_decide (id = 0) || bool_decide (id ∈ SavedJob.id <$> jobs));
      options ← read_options version; priority ← read_priority; state ← read_state; progress ← n_; attempts ← byte_;
      _ ← require (bool_decide (5 < attempts) || bool_decide (Options.max_download_bytes options < progress));
      read_jobs count version (jobs ++ [SavedJob.Make id options priority state progress attempts])
  end.
Fixpoint read_queue (count : nat) (jobs : list SavedJob.t) (queue : list Z) : reader (list Z) :=
  match count with
  | O => mret queue
  | S count =>
      id ← n_;
      _ ← require (bool_decide (id ∈ queue) || negb (bool_decide (id ∈ SavedJob.id <$> jobs)));
      read_queue count jobs (queue ++ [id])
  end.
Fixpoint read_receipts (count : nat) (jobs : list SavedJob.t) (receipts : list QueueReceipt.t) : reader (list QueueReceipt.t) :=
  match count with
  | O => mret receipts
  | S count =>
      key_hash ← take_ 32; payload_hash ← take_ 32; job_id ← n_; removed ← boolean_;
      _ ← require (bool_decide (job_id = 0) || bool_decide (key_hash ∈ QueueReceipt.key_hash <$> receipts)
            || bool_decide (job_id ∈ QueueReceipt.job_id <$> receipts)
            || Bool.eqb removed (bool_decide (job_id ∈ SavedJob.id <$> jobs)));
      read_receipts count jobs (receipts ++ [QueueReceipt.Make key_hash payload_hash job_id removed])
  end.

Definition encode (s : Snapshot.t) : result ManagerError.t (list Z) :=
  jobs ← collect encode_job (Snapshot.jobs s);
  _ ← refuse_if (bool_decide (MAX_RECEIPTS < Z.of_nat (length (Snapshot.receipts s)))) ManagerError.ReceiptCapacity;
  let bytes := magic 3 ++ encode_config (Snapshot.config s) ++ put_u64 (Snapshot.last_id s)
    ++ put_u64 (Z.of_nat (length (Snapshot.jobs s))) ++ concat jobs
    ++ put_u64 (Z.of_nat (length (Snapshot.queue s))) ++ concat (put_u64 <$> Snapshot.queue s)
    ++ put_u64 (Z.of_nat (length (Snapshot.receipts s))) ++ concat (encode_receipt <$> Snapshot.receipts s) in
  _ ← refuse_if (bool_decide (MAX_PLAIN < Z.of_nat (length bytes))) ManagerError.Capacity;
  Ok (bytes ++ sha256 bytes).

Definition read_snapshot : reader Snapshot.t :=
  found ← take_ 9;
  _ ← require (negb (bool_decide (found ∈ [magic 1; magic 2; magic 3])));
  let version := default 0 (last found) in
  config ← read_config;
  saved_last_id ← (if decide (version = 1) then mret None else n ← n_; mret (Some n));
  count ← bounded_ (Config.max_jobs config);
  jobs ← read_jobs (Z.to_nat count) version [];
  count ← bounded_ (Z.of_nat (length jobs));
  queue ← read_queue (Z.to_nat count) jobs [];
  receipts ← (if decide (version = 3) then count ← bounded_ MAX_RECEIPTS; read_receipts (Z.to_nat count) jobs []
              else mret []);
  rest ← gets id;
  _ ← require (negb (bool_decide (rest = [])));
  let maximum := foldr Z.max 0 (SavedJob.id <$> jobs) in
  let last_id := default maximum saved_last_id in
  _ ← require (bool_decide (last_id < maximum) || existsb (λ r, bool_decide (last_id < QueueReceipt.job_id r)) receipts);
  mret (Snapshot.Make last_id receipts config jobs queue).
Definition decode (bytes : list Z) : result ManagerError.t Snapshot.t :=
  let len := Z.of_nat (length bytes) in
  _ ← refuse_if (bool_decide (len < 41) || bool_decide (MAX_PLAIN + 32 < len)) ManagerError.Persistence;
  let plain := take (length bytes - 32) bytes in
  _ ← refuse_if (negb (bool_decide (sha256 plain = drop (length bytes - 32) bytes))) ManagerError.Persistence;
  (read_snapshot plain).1.

(** ** The row *)

(** What the provider of the encryption and the database do for one save: an error of the
    database does not tell whether the row was replaced. *)
Inductive SaveFate : Type := Saved | Denied | Broken (replaced : bool).
Definition save (secrets : Secrets.t) (fate : SaveFate) (row : option (list Z)) (s : Snapshot.t)
    : result ManagerError.t unit * option (list Z) :=
  match encode s with
  | Err e => (Err e, row)
  | Ok bytes =>
      match fate with
      | Denied => (Err ManagerError.SecretStorage, row)
      | Broken false => (Err ManagerError.Persistence, row)
      | Broken true => (Err ManagerError.Persistence, Some (Secrets.protect secrets bytes))
      | Saved => (Ok tt, Some (Secrets.protect secrets bytes))
      end
  end.
(** [load], of a row the database could read. *)
Definition load (secrets : Secrets.t) (row : option (list Z)) : result ManagerError.t (option Snapshot.t) :=
  match row with
  | None => Ok None
  | Some payload =>
      let size := Z.of_nat (length payload) in
      _ ← refuse_if (bool_decide (size ≤ 0) || bool_decide (MAX_BLOB < size)) ManagerError.Persistence;
      plain ← ok_or (Secrets.unprotect secrets payload) ManagerError.SecretStorage;
      Some <$> decode plain
  end.
End Codec.
