(* ===== verification/QueueStoreThm.v ===== *)
(** * Theorems on the saved queue of the first engine *)

From S2P Require Import Prelude.
From S2P Require Import Files.
From S2P Require Import StorageFile.
From S2P Require Import Options.
From S2P Require Import OptionsThm.
From S2P Require Import Requests.
From S2P Require Import RequestsThm.
From S2P Require Import QueueStore.

(** ** Reading back *)

Lemma Ok_inj {E A} (x y : A) : Ok (E := E) x = Ok y → x = y.
Proof. congruence. Qed.

(** A reader that consumes exactly [b] and makes [x] of it. *)
Definition parses {A} (m : reader A) (b : list Z) (x : A) : Prop := ∀ rest, m (b ++ rest) = (Ok x, rest).

Lemma parses_ret {A} (x : A) : parses (mret x) [] x.
Proof. by intros rest. Qed.
Lemma parses_bind {A B} (m : reader A) (k : A → reader B) b c x y : parses m b x → parses (k x) c y → parses (m ≫= k) (b ++ c) y.
Proof. intros Hm Hk rest. unfold mbind, st_bind. rewrite <-app_assoc, Hm. apply Hk. Qed.
Lemma parses_bind_nil {A B} (m : reader A) (k : A → reader B) c x y : parses m [] x → parses (k x) c y → parses (m ≫= k) c y.
Proof. apply (parses_bind m k []). Qed.
Lemma parses_last {A B} (m : reader A) (f : A → B) b x : parses m b x → parses (x ← m; mret (f x)) b (f x).
Proof. intros Hm rest. unfold mbind, st_bind. by rewrite Hm. Qed.
Lemma parses_lift {A} (r : result ManagerError.t A) x : r = Ok x → parses (lift r) [] x.
Proof. by intros -> rest. Qed.
Lemma parses_require b : b = false → parses (require b) [] ().
Proof. by intros -> rest. Qed.

Lemma parses_take n b : Z.of_nat (length b) = n → parses (take_ n) b b.
Proof.
  intros <- rest. unfold take_. rewrite decide_False by (rewrite length_app; lia).
  by rewrite Nat2Z.id, take_app_length, drop_app_length.
Qed.
Lemma parses_byte b : parses byte_ [b] b.
Proof. unfold byte_. apply (parses_last (take_ 1) (λ l, default 0 (head l)) [b] [b]). by apply parses_take. Qed.
Lemma parses_coded {A} b (k : Z → reader A) x : parses (k b) [] x → parses (byte_ ≫= k) [b] x.
Proof. apply (parses_bind byte_ k [b]), parses_byte. Qed.
Lemma le_octets_length k n : length (le_octets k n) = k.
Proof. revert n. induction k as [|k IH]; cbn; auto. Qed.
Lemma from_le_octets k n : 0 ≤ n < 256 ^ Z.of_nat k → from_le (le_octets k n) = n.
Proof.
  revert n. induction k as [|k IH]; cbn [le_octets from_le]; intros n Hn; [change (256 ^ Z.of_nat 0) with 1 in Hn; lia|].
  rewrite Nat2Z.inj_succ, Z.pow_succ_r in Hn by lia.
  rewrite IH; [pose proof (Z.div_mod n 256); lia|]. split; [apply Z.div_pos; lia|apply Z.div_lt_upper_bound; lia].
Qed.
Lemma parses_n n : u64 n → parses n_ (put_u64 n) n.
Proof.
  intros Hn. unfold n_, put_u64. pose proof (from_le_octets 8 n) as H. rewrite <-H at 2.
  - apply parses_last, parses_take. by rewrite le_octets_length.
  - unfold u64, u64_max in Hn. cbn. lia.
Qed.
Lemma parses_bounded max n : u64 n → n ≤ max → parses (bounded_ max) (put_u64 n) n.
Proof.
  intros Hn Hle. unfold bounded_. rewrite <-(app_nil_r (put_u64 n)). eapply parses_bind; [by apply parses_n|].
  eapply parses_bind_nil; [|apply parses_ret]. apply parses_require, bool_decide_eq_false. lia.
Qed.

(** A text that fits its limit. *)
Definition Text (max : Z) (s : list Z) : Prop := forallb scalar s = true ∧ text_len s ≤ max.
Lemma text_len_nonneg s : 0 ≤ text_len s.
Proof. rewrite <-utf8_length. lia. Qed.
Lemma parses_string max s : max ≤ u64_max → Text max s → parses (string_ max) (put_string s) s.
Proof.
  intros Hmax [Hs Hl]. unfold string_, put_string. pose proof (text_len_nonneg s). eapply parses_bind.
  - apply parses_bounded; [unfold u64; lia|done].
  - rewrite <-(app_nil_r (utf8 s)). eapply parses_bind; [apply parses_take, utf8_length|].
    apply parses_lift. by rewrite from_to_utf8.
Qed.
Definition Rate (r : option Z) : Prop := ∀ n, r = Some n → n ≠ 0 ∧ u64 n.
Lemma parses_option r : Rate r → parses option_ (put_option r) r.
Proof.
  intros Hr. unfold option_, put_option. set (f n := if decide (n = 0) then None else Some n).
  assert (f (default 0 r) = r) as E.
  { destruct r as [n|]; cbn; unfold f; [|done]. destruct (Hr n eq_refl). by rewrite decide_False. }
  rewrite <-E at 2. intros rest. unfold mbind, st_bind. rewrite (parses_n (default 0 r)).
  - unfold f. by case_decide.
  - destruct r as [n|]; cbn; [by destruct (Hr n eq_refl)|unfold u64, u64_max; lia].
Qed.
Lemma parses_boolean b : parses boolean_ [flag b] b.
Proof. apply parses_coded. by destruct b. Qed.
Definition Hash (h : option (list Z)) : Prop := ∀ v, h = Some v → length v = 32%nat.
Lemma parses_hash h : Hash h → parses hash_ (put_hash h) h.
Proof.
  intros Hh. unfold hash_, put_hash. change (?x :: ?l) with ([x] ++ l). eapply parses_bind; [apply parses_boolean|].
  destruct h as [v|]; cbn.
  - apply (parses_last (take_ 32) Some). apply parses_take. by rewrite (Hh v).
  - apply parses_ret.
Qed.
Lemma parses_repeat {A} (m : reader A) (enc : A → list Z) l :
  (∀ x, x ∈ l → parses m (enc x) x) → parses (repeat_ (length l) m) (concat (enc <$> l)) l.
Proof.
  induction l as [|x l IH]; intros Hl; cbn; [apply parses_ret|].
  eapply parses_bind; [apply Hl; by left|]. apply (parses_last (repeat_ (length l) m) (cons x)). apply IH. intros y Hy. apply Hl. by right.
Qed.
Lemma parses_priority p : parses read_priority [Priority.rank p] p.
Proof. apply parses_coded. by destruct p. Qed.
(** The cause of a failure is not written. *)
Definition forget_cause (s : TaskState.t) : TaskState.t :=
  match s with TaskState.Failed _ => TaskState.Failed DownloadError.WorkerFailed | s => s end.
Lemma parses_state s : parses read_state [TaskState.code s] (forget_cause s).
Proof. apply parses_coded. by destruct s. Qed.

(** ** Well-formed snapshots *)

Section Codec.
Context (url_parse : list Z → option Url.t) (header_value : list Z → bool) (sha256 : list Z → list Z).
Context `{!UrlLaws url_parse}.

Record OptionsSaved (o : Options.t) : Prop := {
  os_url : Text 16384 (Options.url o);
  os_dir : Text 131072 (Options.job_dir o);
  os_name : Text 255 (Options.output_name o);
  os_expected : Hash (Options.expected_sha256 o);
  os_checkpoint : u64 (Options.checkpoint_bytes o);
  os_max : u64 (Options.max_download_bytes o);
  os_rate : Rate (Options.bytes_per_second o);
  os_policy : made url_parse header_value (Options.request_policy o);
  os_refresh : Hash (Options.refresh_from o) }.
Record JobSaved (j : SavedJob.t) : Prop := {
  js_id : u64 (SavedJob.id j) ∧ SavedJob.id j ≠ 0;
  js_options : OptionsSaved (SavedJob.options j);
  js_progress : 0 ≤ SavedJob.progress j ≤ Options.max_download_bytes (SavedJob.options j);
  js_attempts : 0 ≤ SavedJob.attempts j ≤ 5 }.
Record ReceiptSaved (ids : list Z) (r : QueueReceipt.t) : Prop := {
  rs_key : length (QueueReceipt.key_hash r) = 32%nat;
  rs_payload : length (QueueReceipt.payload_hash r) = 32%nat;
  rs_id : u64 (QueueReceipt.job_id r) ∧ QueueReceipt.job_id r ≠ 0;
  rs_removed : QueueReceipt.removed r = bool_decide (QueueReceipt.job_id r ∉ ids) }.
(** What a snapshot holds that can be read back. *)
Record WellFormed (s : Snapshot.t) : Prop := {
  wf_config : Config.validate (Snapshot.config s) = Ok ();
  wf_last : u64 (Snapshot.last_id s);
  wf_count : Z.of_nat (length (Snapshot.jobs s)) ≤ Config.max_jobs (Snapshot.config s);
  wf_jobs : Forall JobSaved (Snapshot.jobs s);
  wf_ids : NoDup (SavedJob.id <$> Snapshot.jobs s);
  wf_queue : NoDup (Snapshot.queue s) ∧ Snapshot.queue s ⊆ SavedJob.id <$> Snapshot.jobs s;
  wf_receipts : Forall (ReceiptSaved (SavedJob.id <$> Snapshot.jobs s)) (Snapshot.receipts s);
  wf_receipt_count : Z.of_nat (length (Snapshot.receipts s)) ≤ MAX_RECEIPTS;
  wf_keys : NoDup (QueueReceipt.key_hash <$> Snapshot.receipts s);
  wf_receipt_ids : NoDup (QueueReceipt.job_id <$> Snapshot.receipts s);
  wf_bound : Forall (λ id, id ≤ Snapshot.last_id s) ((SavedJob.id <$> Snapshot.jobs s) ++ (QueueReceipt.job_id <$> Snapshot.receipts s)) }.

(** The origins its jobs may be redirected to fit the limit on links. *)
Definition Fits (s : Snapshot.t) : Prop := Forall (λ j, short (Options.request_policy (SavedJob.options j))) (Snapshot.jobs s).

(** ** What is written is read back *)

Lemma secret_text v : secret_ok header_value v = true → v ≠ [] ∧ Text 8192 v.
Proof.
  unfold secret_ok. rewrite !andb_true_iff, negb_true_iff, bool_decide_eq_false, bool_decide_eq_true.
  intros [[[[Hne Hl] Ha] _] _]. split; [done|]. split; [|done]. apply forallb_forall. intros c Hc.
  rewrite forallb_forall in Ha. specialize (Ha c Hc). apply bool_decide_eq_true in Ha. unfold scalar.
  rewrite bool_decide_eq_true_2 by lia. done.
Qed.
Lemma settled_secrets p v : settled url_parse header_value p →
  RequestPolicy.authorization p = Some v ∨ RequestPolicy.cookie p = Some v → v ≠ [] ∧ Text 8192 v.
Proof.
  intros Hp%settled_valid Hv. unfold validate_policy, refuse_if in Hp. destruct (negb _) eqn:Hs; [done|].
  apply negb_false_iff in Hs. cbn in Hs. rewrite !andb_true_iff in Hs. apply secret_text.
  by destruct Hs as [? [? _]], Hv as [E|E]; rewrite E in *.
Qed.
Lemma settled_origins p : settled url_parse header_value p →
  (length (RequestPolicy.redirect_origins p) ≤ 8)%nat ∧ Forall (Text 16384) (RequestPolicy.redirect_origins p).
Proof.
  intros Hp. destruct (made_origins _ _ p (settled_made _ _ _ Hp)) as [_ Hall]. pose proof (settled_valid _ _ _ Hp) as Hv.
  pose proof (valid_short _ _ _ Hv) as Hshort. split.
  - unfold validate_policy in Hv. destruct (refuse_if (negb _) _) as [[]|]; [|done]. cbn in Hv. unfold refuse_if in Hv.
    case_bool_decide; [done|lia].
  - unfold short in Hshort. rewrite Forall_forall in *. intros o Ho. destruct (Hall o Ho) as (raw&u&Hu&Hw&<-).
    split; [by eapply origin_is_text|by apply Hshort].
Qed.
Lemma parses_secret v : (∀ s, v = Some s → s ≠ [] ∧ Text 8192 s) → parses (string_ 8192) (put_string (default [] v)) (default [] v) ∧
  non_empty (default [] v) = v.
Proof.
  intros Hv. split.
  - apply parses_string; [unfold u64_max; lia|]. destruct v as [s|]; [by apply Hv|]. by split.
  - unfold non_empty. destruct v as [s|]; [|done]. cbn. rewrite decide_False; [done|by apply Hv].
Qed.
Lemma parses_policy p r : settled url_parse header_value p → Hash r →
  parses (read_policy url_parse header_value)
    (put_string (default [] (RequestPolicy.authorization p)) ++ put_string (default [] (RequestPolicy.cookie p))
      ++ put_u64 (Z.of_nat (length (RequestPolicy.redirect_origins p))) ++ concat (put_string <$> RequestPolicy.redirect_origins p)
      ++ put_hash r) (p, r).
Proof.
  intros Hp Hr. destruct (settled_origins p Hp) as [Hn Ho]. unfold read_policy.
  destruct (parses_secret (RequestPolicy.authorization p)) as [Ha Ea]; [intros; eapply settled_secrets; eauto|].
  destruct (parses_secret (RequestPolicy.cookie p)) as [Hc Ec]; [intros; eapply settled_secrets; eauto|].
  eapply parses_bind; [exact Ha|]. eapply parses_bind; [exact Hc|].
  eapply parses_bind; [apply parses_bounded; [unfold u64, u64_max|]; lia|]. rewrite Nat2Z.id.
  eapply parses_bind; [apply parses_repeat; intros o Hin; apply parses_string; [unfold u64_max; lia|]; rewrite Forall_forall in Ho; by apply Ho|].
  rewrite Ea, Ec. eapply parses_bind_nil; [apply parses_lift; by rewrite Hp|]. apply (parses_last hash_ (λ r, (p, r))). by apply parses_hash.
Qed.
Lemma parses_options o bytes : OptionsSaved o → short (Options.request_policy o) → encode_options_v2 o = Ok bytes →
  parses (read_options url_parse header_value 3) bytes o.
Proof.
  intros [[Hu1 Hu2] [Hd1 Hd2] [Hn1 Hn2] He Hc Hm Hr Hp Hf] Hs. pose proof (made_settled _ _ _ Hp Hs) as Hp'. unfold encode_options_v2, to_str. rewrite Hd1. cbn [ok_or mbind result_bind].
  intros <-%Ok_inj. unfold read_options.
  do 3 (eapply parses_bind; [apply parses_string; [unfold u64_max; lia|by split]|]).
  eapply parses_bind; [by apply parses_hash|]. eapply parses_bind; [apply parses_boolean|].
  eapply parses_bind; [by apply parses_n|]. eapply parses_bind; [by apply parses_n|]. eapply parses_bind; [by apply parses_option|].
  eapply parses_bind; [apply parses_byte|]. rewrite decide_False by done.
  pose proof (parses_last _ (λ more, Options.Make (Options.url o) (Options.job_dir o) (Options.output_name o) (Options.expected_sha256 o)
    (Options.allow_http o) (Options.checkpoint_bytes o) (Options.max_download_bytes o) (Options.bytes_per_second o)
    (Options.parallel_connections o) more.1 more.2) _ _ (parses_policy _ _ Hp' Hf)) as H.
  assert (∀ o' : Options.t, Options.Make (Options.url o') (Options.job_dir o') (Options.output_name o') (Options.expected_sha256 o')
    (Options.allow_http o') (Options.checkpoint_bytes o') (Options.max_download_bytes o') (Options.bytes_per_second o')
    (Options.parallel_connections o') (Options.request_policy o') (Options.refresh_from o') = o') as E by (by intros []).
  cbv beta in H. cbn [fst snd] in H. rewrite E in H. exact H.
Qed.

(** What a restart makes of a job that was written: the same, but for the cause of a failure. *)
Definition reread_job (j : SavedJob.t) : SavedJob.t :=
  SavedJob.Make (SavedJob.id j) (SavedJob.options j) (SavedJob.priority j) (forget_cause (SavedJob.state j)) (SavedJob.progress j)
    (SavedJob.attempts j).
Definition reread (s : Snapshot.t) : Snapshot.t :=
  Snapshot.Make (Snapshot.last_id s) (Snapshot.receipts s) (Snapshot.config s) (reread_job <$> Snapshot.jobs s) (Snapshot.queue s).

Lemma parses_jobs jobs enc done : Forall JobSaved jobs →
  Forall (λ j, short (Options.request_policy (SavedJob.options j))) jobs → collect encode_job jobs = Ok enc →
  NoDup (SavedJob.id <$> done ++ jobs) →
  parses (read_jobs url_parse header_value (length jobs) 3 done) (concat enc) (done ++ (reread_job <$> jobs)).
Proof.
  revert enc done. induction jobs as [|j jobs IH]; intros enc done Hj Hs Henc Hnd.
  { injection Henc as <-. cbn. rewrite app_nil_r. apply parses_ret. }
  apply Forall_cons in Hj as [[[Hid Hid0] Ho Hpr Hat] Hj]. apply Forall_cons in Hs as [Hjs Hs]. cbn [collect] in Henc.
  destruct (encode_job j) as [bj|] eqn:Hbj; [|done]. cbn [mbind result_bind] in Henc.
  destruct (collect _ jobs) as [be|] eqn:Hbe; [|done]. cbn [mbind result_bind] in Henc. apply Ok_inj in Henc as <-.
  unfold encode_job in Hbj. destruct (encode_options_v2 _) as [bo|] eqn:Hbo; [|done]. cbn [mbind result_bind] in Hbj.
  apply Ok_inj in Hbj as <-. cbn [length concat read_jobs].
  replace (done ++ (reread_job <$> j :: jobs)) with ((done ++ [reread_job j]) ++ (reread_job <$> jobs)) by (by rewrite <-app_assoc).
  rewrite <-!app_assoc. eapply parses_bind; [by apply parses_n|].
  eapply parses_bind_nil.
  { apply parses_require. rewrite orb_false_iff, !bool_decide_eq_false. split; [done|]. rewrite fmap_app in Hnd.
    apply NoDup_app in Hnd as (_&Hnd&_). intros Hin. apply (Hnd _ Hin). by left. }
  eapply parses_bind; [by apply parses_options|]. change ([?a; ?b]) with ([a] ++ [b]). rewrite <-!app_assoc.
  eapply parses_bind; [apply parses_priority|]. eapply parses_bind; [apply parses_state|].
  eapply parses_bind; [apply parses_n; destruct (os_max _ Ho); unfold u64 in *; lia|]. eapply parses_bind; [apply parses_byte|].
  eapply parses_bind_nil; [apply parses_require; rewrite orb_false_iff, !bool_decide_eq_false; lia|].
  change (SavedJob.Make _ _ _ _ _ _) with (reread_job j). rewrite (app_assoc done). apply IH; [done|done|done|]. rewrite <-app_assoc, !fmap_app. by rewrite !fmap_app in Hnd.
Qed.
Lemma parses_queue jobs ids acc : NoDup (acc ++ ids) → Forall u64 ids → ids ⊆ SavedJob.id <$> jobs →
  parses (read_queue (length ids) jobs acc) (concat (put_u64 <$> ids)) (acc ++ ids).
Proof.
  revert acc. induction ids as [|id ids IH]; intros acc Hnd Hu Hin; [rewrite app_nil_r; apply parses_ret|].
  apply Forall_cons in Hu as [Hid Hu]. cbn [length fmap list_fmap concat read_queue]. eapply parses_bind; [by apply parses_n|].
  eapply parses_bind_nil.
  { apply parses_require. rewrite orb_false_iff, negb_false_iff, bool_decide_eq_false, bool_decide_eq_true.
    apply NoDup_app in Hnd as (_&Hnd&_). split; [intros Ha; apply (Hnd _ Ha); by left|apply Hin; by left]. }
  change (id :: ids) with ([id] ++ ids). rewrite (app_assoc acc). apply IH; [by rewrite <-app_assoc|done|]. intros x Hx. apply Hin. by right.
Qed.
Lemma parses_receipts jobs l acc : Forall (ReceiptSaved (SavedJob.id <$> jobs)) l →
  NoDup (QueueReceipt.key_hash <$> acc ++ l) → NoDup (QueueReceipt.job_id <$> acc ++ l) →
  parses (read_receipts (length l) jobs acc) (concat (encode_receipt <$> l)) (acc ++ l).
Proof.
  revert acc. induction l as [|r l IH]; intros acc Hr Hk Hi; [rewrite app_nil_r; apply parses_ret|].
  apply Forall_cons in Hr as [[Hkey Hpay [Hid Hid0] Hrem] Hr]. cbn [length fmap list_fmap concat read_receipts].
  unfold encode_receipt at 1. rewrite <-!app_assoc.
  eapply parses_bind; [apply parses_take; by rewrite Hkey|]. eapply parses_bind; [apply parses_take; by rewrite Hpay|].
  eapply parses_bind; [by apply parses_n|]. eapply parses_bind; [apply parses_boolean|]. eapply parses_bind_nil.
  { apply parses_require. rewrite !orb_false_iff, !bool_decide_eq_false. rewrite fmap_app in Hk. rewrite fmap_app in Hi.
    apply NoDup_app in Hk as (_&Hk&_), Hi as (_&Hi&_). split_and!; [done| | |].
    - intros Ha. apply (Hk _ Ha). by left.
    - intros Ha. apply (Hi _ Ha). by left.
    - rewrite Hrem. by repeat case_bool_decide. }
  assert (QueueReceipt.Make (QueueReceipt.key_hash r) (QueueReceipt.payload_hash r) (QueueReceipt.job_id r) (QueueReceipt.removed r) = r)
    as -> by (by destruct r).
  change (r :: l) with ([r] ++ l). rewrite (app_assoc acc). apply IH; [done|by rewrite <-app_assoc|by rewrite <-app_assoc].
Qed.
Lemma config_bounds c : Config.validate c = Ok () → 1 ≤ Config.max_active c ≤ 32 ∧ 1 ≤ Config.max_jobs c ≤ 1024 ∧
  Config.max_active c ≤ Config.max_jobs c ∧ 1 ≤ Config.max_per_origin c ≤ Config.max_active c ∧
  1 ≤ RetrySettings.max_attempts (Config.retry c) ≤ 5 ∧ 100 ≤ RetrySettings.initial_delay_ms (Config.retry c) ≤ 60000 ∧
  RetrySettings.initial_delay_ms (Config.retry c) ≤ RetrySettings.max_delay_ms (Config.retry c) ≤ 300000 ∧
  valid_limit (Config.global_bytes_per_second c) = true.
Proof.
  unfold Config.validate, refuse_if. destruct (negb _ || _ || _ || _ || _ || _ || _ || _) eqn:H; [done|]. intros _.
  rewrite !orb_false_iff, !negb_false_iff, !bool_decide_eq_true, bool_decide_eq_false in H. destruct_and!. split_and!; try done; lia.
Qed.
Lemma valid_rate r : valid_limit r = true → Rate r.
Proof.
  unfold valid_limit, Rate, MAX_BYTES_PER_SECOND, u64, u64_max. intros H n ->. apply bool_decide_eq_true in H. lia.
Qed.
Lemma parses_config c : Config.validate c = Ok () → parses read_config (encode_config c) c.
Proof.
  intros Hv. pose proof (config_bounds c Hv) as (H1&H2&_&H3&H4&H5&H6&H7). unfold read_config, encode_config.
  do 4 (eapply parses_bind; [apply parses_bounded; [unfold u64, u64_max|]; lia|]).
  do 2 (eapply parses_bind; [apply parses_n; unfold u64, u64_max; lia|]).
  rewrite <-(app_nil_r (put_option _)). eapply parses_bind; [apply parses_option; by apply valid_rate|].
  assert (Config.Make (Config.max_active c) (Config.max_jobs c) (Config.max_per_origin c) (RetrySettings.Make
    (RetrySettings.max_attempts (Config.retry c)) (RetrySettings.initial_delay_ms (Config.retry c))
    (RetrySettings.max_delay_ms (Config.retry c))) (Config.global_bytes_per_second c) = c) as -> by (by destruct c as [? ? ? [] ?]).
  eapply parses_bind_nil; [by apply parses_lift|apply parses_ret].
Qed.

Lemma maximum_le l bound : 0 ≤ bound → Forall (λ x, x ≤ bound) l → foldr Z.max 0 l ≤ bound.
Proof. intros Hb. induction 1; cbn; lia. Qed.
Lemma parses_then {A B} (m : reader A) (k : A → reader B) b c x r : parses m b x → k x c = r → (m ≫= k) (b ++ c) = r.
Proof. intros Hm <-. unfold mbind, st_bind. by rewrite Hm. Qed.
Lemma parses_then_nil {A B} (m : reader A) (k : A → reader B) c x r : parses m [] x → k x c = r → (m ≫= k) c = r.
Proof. apply (parses_then m k []). Qed.
Lemma gets_then {A B} (f : list Z → A) (k : A → reader B) c r : k (f c) c = r → (gets f ≫= k) c = r.
Proof. done. Qed.
Lemma reread_ids (l : list SavedJob.t) : SavedJob.id <$> (reread_job <$> l) = SavedJob.id <$> l.
Proof. rewrite <-list_fmap_compose. by apply list_fmap_ext. Qed.
Lemma wf_u64_ids s : WellFormed s → Forall u64 (SavedJob.id <$> Snapshot.jobs s).
Proof. intros Hs. rewrite Forall_fmap. eapply Forall_impl; [apply (wf_jobs _ Hs)|]. by intros j [[? _]]. Qed.
Lemma read_back s jobs : WellFormed s → Fits s → collect encode_job (Snapshot.jobs s) = Ok jobs →
  read_snapshot url_parse header_value
    (magic 3 ++ encode_config (Snapshot.config s) ++ put_u64 (Snapshot.last_id s)
      ++ put_u64 (Z.of_nat (length (Snapshot.jobs s))) ++ concat jobs
      ++ put_u64 (Z.of_nat (length (Snapshot.queue s))) ++ concat (put_u64 <$> Snapshot.queue s)
      ++ put_u64 (Z.of_nat (length (Snapshot.receipts s))) ++ concat (encode_receipt <$> Snapshot.receipts s)) = (Ok (reread s), []).
Proof.
  intros Hs Hfit Hjobs. pose proof Hs as [Hc Hl Hn Hj Hids [Hq Hqi] Hr Hrn Hk Hri Hb].
  pose proof (config_bounds _ Hc) as (_&Hmax&_). pose proof (wf_u64_ids s Hs) as Hu. unfold read_snapshot.
  eapply parses_then; [by apply parses_take|]. eapply parses_then_nil; [apply parses_require, negb_false_iff, bool_decide_eq_true; set_solver|].
  eapply parses_then; [by apply parses_config|]. cbn [last magic default from_option]. rewrite decide_False by done.
  eapply parses_then; [by apply (parses_last n_ Some), parses_n|].
  eapply parses_then; [apply parses_bounded; [unfold u64, u64_max|]; lia|]. rewrite Nat2Z.id.
  eapply parses_then; [by apply parses_jobs|]. cbn [app].
  assert (Forall u64 (Snapshot.queue s)) as Hqu by (rewrite Forall_forall in *; auto).
  assert (length (Snapshot.queue s) ≤ length (Snapshot.jobs s))%nat as Hqn.
  { rewrite <-(length_fmap SavedJob.id (Snapshot.jobs s)). by apply submseteq_length, NoDup_submseteq. }
  eapply parses_then; [apply parses_bounded; [unfold u64, u64_max|rewrite length_fmap]; lia|]. rewrite Nat2Z.id.
  eapply parses_then; [apply parses_queue; [done|done|by rewrite reread_ids]|]. rewrite decide_True by done. cbn [app].
  rewrite <-(app_nil_r (put_u64 (Z.of_nat (length (Snapshot.receipts s))) ++ _)).
  eapply parses_then.
  { eapply parses_bind; [apply parses_bounded; [unfold u64, u64_max, MAX_RECEIPTS in *|]; lia|]. rewrite Nat2Z.id.
    apply parses_receipts; [by rewrite reread_ids|done|done]. }
  cbn [app].
  apply gets_then.
  eapply parses_then_nil; [by apply parses_require; rewrite bool_decide_eq_true_2|]. rewrite reread_ids.
  eapply parses_then_nil; [|done]. apply parses_require. rewrite orb_false_iff, bool_decide_eq_false. apply Forall_app in Hb as [Hb Hb'].
  split; [pose proof (maximum_le _ (Snapshot.last_id s) ltac:(unfold u64 in Hl; lia) Hb); cbn; lia|].
  apply existsb_false. intros r Hin. rewrite Forall_fmap, Forall_forall in Hb'. specialize (Hb' r Hin). cbn in *.
  apply bool_decide_eq_false. lia.
Qed.

Lemma encode_job_total j : JobSaved j → ∃ b, encode_job j = Ok b.
Proof.
  intros [_ Ho _ _]. unfold encode_job, encode_options_v2, to_str. destruct (os_dir _ Ho) as [-> _].
  cbn [ok_or mbind result_bind]. by eexists.
Qed.
Lemma encode_jobs_total jobs : Forall JobSaved jobs → ∃ enc, collect encode_job jobs = Ok enc.
Proof.
  induction 1 as [|j jobs Hj _ [enc IH]]; [by eexists|]. destruct (encode_job_total j Hj) as [b Hb].
  cbn [collect]. rewrite Hb, IH. by eexists.
Qed.
Lemma decode_encode s bytes : (∀ b, length (sha256 b) = 32%nat) → WellFormed s → Fits s → encode sha256 s = Ok bytes →
  decode url_parse header_value sha256 bytes = Ok (reread s).
Proof.
  intros Hsha Hs Hfit. unfold encode. destruct (collect _ _) as [jobs|] eqn:Hj; [|done]. cbn [mbind result_bind].
  destruct (refuse_if _ ManagerError.ReceiptCapacity) as [[]|]; [|done]. cbn [mbind result_bind].
  pose proof (read_back s jobs Hs Hfit Hj) as Hread. set (plain := magic 3 ++ _) in *.
  unfold refuse_if. case_bool_decide as Hle; [done|]. cbn [mbind result_bind]. intros <-%Ok_inj.
  unfold decode. rewrite !length_app, Hsha.
  replace (length plain + 32 - 32)%nat with (length plain) by lia. rewrite take_app_length, drop_app_length, Hread.
  rewrite bool_decide_eq_true_2 by done. unfold refuse_if.
  assert (41 ≤ length plain + 32)%nat by (unfold plain; rewrite length_app; cbn; lia).
  rewrite !bool_decide_eq_false_2 by lia. done.
Qed.
(** Encoding a well-formed snapshot fails only when it is too large. *)
Lemma encode_total s : WellFormed s → (∃ bytes, encode sha256 s = Ok bytes) ∨ encode sha256 s = Err ManagerError.Capacity.
Proof.
  intros Hs. unfold encode. destruct (encode_jobs_total _ (wf_jobs _ Hs)) as [jobs ->]. cbn [mbind result_bind].
  pose proof (wf_receipt_count _ Hs). unfold refuse_if. rewrite (bool_decide_eq_false_2 (MAX_RECEIPTS < _)) by lia. cbn [mbind result_bind].
  case_bool_decide; [by right|left; by eexists].
Qed.
Lemma encode_length s bytes : (∀ b, length (sha256 b) = 32%nat) → encode sha256 s = Ok bytes → Z.of_nat (length bytes) ≤ MAX_PLAIN + 32.
Proof.
  intros Hsha. unfold encode. destruct (collect _ _) as [jobs|] eqn:Hj; [|done]. cbn [mbind result_bind].
  destruct (refuse_if _ ManagerError.ReceiptCapacity) as [[]|]; [|done]. cbn [mbind result_bind].
  unfold refuse_if. case_bool_decide as Hle; [done|]. cbn [mbind result_bind]. intros <-%Ok_inj. rewrite length_app, Hsha. lia.
Qed.
End Codec.

(** The encryption gives back what it was given, and adds a bounded header to it. *)
Class SecretsLaws (secrets : Secrets.t) : Prop := {
  unprotect_protect b : Secrets.unprotect secrets (Secrets.protect secrets b) = Some b;
  protect_size b : Z.of_nat (length b) ≤ MAX_PLAIN + 32 → 0 < Z.of_nat (length (Secrets.protect secrets b)) ≤ MAX_BLOB }.

Section Row.
Context (url_parse : list Z → option Url.t) (header_value : list Z → bool) (sha256 : list Z → list Z) (secrets : Secrets.t).
Context `{!UrlLaws url_parse} `{!SecretsLaws secrets} (sha256_length : ∀ b, length (sha256 b) = 32%nat).

Lemma save_reads_back s fate row r row' :
  WellFormed url_parse header_value s → Fits s → save sha256 secrets fate row s = (r, row') →
  (row' = row ∨ load url_parse header_value sha256 secrets row' = Ok (Some (reread s))) ∧
  (r = Ok () → load url_parse header_value sha256 secrets row' = Ok (Some (reread s))).
Proof.
  intros Hs Hfit. unfold save. destruct (encode_total url_parse header_value sha256 s Hs) as [[bytes He]|He]; rewrite He.
  2:{ intros [= <- <-]. split; [by left|done]. }
  assert (load url_parse header_value sha256 secrets (Some (Secrets.protect secrets bytes)) = Ok (Some (reread s))) as Hl.
  { unfold load. pose proof (protect_size bytes (encode_length _ _ _ sha256_length He)) as Hsize. unfold refuse_if.
    rewrite !bool_decide_eq_false_2 by lia. cbn [orb mbind result_bind ok_or]. rewrite unprotect_protect. cbn [mbind result_bind ok_or].
    by rewrite (decode_encode _ _ _ _ _ sha256_length Hs Hfit He). }
  destruct fate as [| |[]]; intros [= <- <-]; split; first [done|by left|by right].
Qed.
(** C39: saving a well-formed queue whose redirect origins fit the limit on links either leaves what was saved before or replaces it by a row that a restart parses back as that queue, with its jobs, order, receipts and settings; it reports success only in the second case, and it refuses a queue only when the provider, the database or the size limit does *)
Theorem saved_queue_is_read_back s fate row r row' :
  WellFormed url_parse header_value s → Fits s → save sha256 secrets fate row s = (r, row') →
  (row' = row ∨ load url_parse header_value sha256 secrets row' = Ok (Some (reread s))) ∧
  (r = Ok () → load url_parse header_value sha256 secrets row' = Ok (Some (reread s))) ∧
  (fate = Saved → r = Ok () ∨ r = Err ManagerError.Capacity ∧ encode sha256 s = Err ManagerError.Capacity ∧ row' = row).
Proof.
  intros Hs Hfit Hsave. destruct (save_reads_back s fate row r row' Hs Hfit Hsave) as [H1 H2]. split_and!; [done|done|]. intros ->.
  unfold save in Hsave. destruct (encode_total url_parse header_value sha256 s Hs) as [[bytes He]|He]; rewrite He in Hsave; simplify_eq; auto.
Qed.
End Row.

(** ** A small queue *)

Module ToyQueue.
Definition digest (b : list Z) : list Z := repeat 7 31 ++ [Z.of_nat (length b) mod 256].
Definition secrets : Secrets.t := Secrets.Make (cons 1) (λ b, match b with [] => None | _ :: b => Some b end).
#[global] Instance secrets_laws : SecretsLaws secrets.
Proof. split; [done|]. intros b Hb. unfold secrets, MAX_PLAIN, MAX_BLOB in *. cbn. lia. Qed.
Definition options (host : Z) (p : RequestPolicy.t) : Options.t :=
  Options.Make (ToyWeb.SITE host) [47; 233; 128512] [102] (Some (repeat 9 32)) false 65536 1000 (Some 2048) 4 p None.
Definition job (id : Z) (p : RequestPolicy.t) (s : TaskState.t) : SavedJob.t :=
  SavedJob.Make id (options 97 p) Priority.High s 12 3.
(** Two jobs, one with a credential, one failed; a receipt of the first and one of a job that is gone. *)
Definition snapshot : Snapshot.t :=
  Snapshot.Make 9 [QueueReceipt.Make (repeat 1 32) (repeat 2 32) 4 false; QueueReceipt.Make (repeat 3 32) (repeat 4 32) 7 true]
    (Config.Make 3 10 2 RetrySettings.disabled (Some 5000))
    [job 4 ToyWeb.policy TaskState.Running; job 6 RequestPolicy.default (TaskState.Failed DownloadError.Network)] [6; 4].
Lemma options_saved p : made ToyWeb.parse (λ _, true) p → OptionsSaved ToyWeb.parse (λ _, true) (options 97 p).
Proof.
  intros Hp. split; try done; try (intros v [= <-]; done).
  all: by vm_compute.
Qed.
Lemma job_saved id p s : u64 id ∧ id ≠ 0 → made ToyWeb.parse (λ _, true) p → JobSaved ToyWeb.parse (λ _, true) (job id p s).
Proof. intros Hid Hp. split; [done|by apply options_saved|by vm_compute|by vm_compute]. Qed.
Lemma well_formed : WellFormed ToyWeb.parse (λ _, true) snapshot.
Proof.
  split; try done.
  - assert (∀ p, settled ToyWeb.parse (λ _, true) p → made ToyWeb.parse (λ _, true) p) as Hm by (intros p; apply settled_made).
    repeat (apply Forall_cons; split; [apply job_saved; [done|by apply Hm]|]). constructor.
  - apply (bool_decide_unpack _). by vm_compute.
  - split; [apply (bool_decide_unpack _); by vm_compute|]. intros x. cbn. set_solver.
  - repeat constructor; done.
  - apply (bool_decide_unpack _). by vm_compute.
  - apply (bool_decide_unpack _). by vm_compute.
  - repeat constructor; done.
Qed.
Lemma fits : Fits snapshot.
Proof. apply (bool_decide_unpack _). by vm_compute. Qed.
End ToyQueue.

Lemma saved_queue_is_read_back_witness :
  let run := save ToyQueue.digest ToyQueue.secrets Saved None ToyQueue.snapshot in
  run.1 = Ok () ∧ load ToyWeb.parse (λ _, true) ToyQueue.digest ToyQueue.secrets run.2 = Ok (Some (reread ToyQueue.snapshot)).
Proof.
  intros run. assert (run.1 = Ok ()) as Hok by (by vm_compute). split; [exact Hok|].
  destruct (saved_queue_is_read_back ToyWeb.parse (λ _, true) ToyQueue.digest ToyQueue.secrets (λ b, eq_refl) ToyQueue.snapshot Saved None
    run.1 run.2 ToyQueue.well_formed ToyQueue.fits (surjective_pairing run)) as (_&Hread&_).
  by apply Hread.
Defined.
