(* ===== verification/QueueStoreType.v ===== *)
(** * What the saved queue parses is well formed

    Every snapshot the decoder of queue_store.rs accepts, of whatever version and from whatever bytes,
    satisfies the conditions the manager starts from. *)

From S2P Require Import Prelude.
From S2P Require Import Files.
From S2P Require Import StorageFile.
From S2P Require Import Options.
From S2P Require Import OptionsThm.
From S2P Require Import Requests.
From S2P Require Import RequestsThm.
From S2P Require Import QueueStore.
From S2P Require Import QueueStoreThm.

(** A reader whose results satisfy [P], on bytes. *)
Definition yields {A} (m : reader A) (P : A → Prop) : Prop :=
  ∀ r x r', Forall is_byte r → m r = (Ok x, r') → P x ∧ Forall is_byte r'.

Lemma yields_ret {A} (x : A) P : P x → yields (mret x) P.
Proof. by intros HP r y r' Hr [= <- <-]. Qed.
Lemma yields_bind {A B} (m : reader A) (k : A → reader B) P Q : yields m P → (∀ x, P x → yields (k x) Q) → yields (m ≫= k) Q.
Proof.
  intros Hm Hk r y r'' Hr. unfold mbind, st_bind. destruct (m r) as [[x|e] r'] eqn:E; [|done].
  destruct (Hm _ _ _ Hr E) as [Hx Hr']. by apply Hk.
Qed.
Lemma yields_weaken {A} (m : reader A) (P Q : A → Prop) : yields m P → (∀ x, P x → Q x) → yields m Q.
Proof. intros Hm HPQ r x r' Hr Hx. destruct (Hm _ _ _ Hr Hx). auto. Qed.
Lemma yields_lift {A} (r : result ManagerError.t A) : yields (lift r) (λ x, r = Ok x).
Proof. intros l x l' Hl. unfold lift. by intros [= -> <-]. Qed.
Lemma yields_require b : yields (require b) (λ _, b = false).
Proof. intros l x l' Hl. unfold require, lift, refuse_if. by destruct b; intros [= <- <-]. Qed.
Lemma yields_throw {A} e (P : A → Prop) : yields (throw e) P.
Proof. by intros l x l' Hl [=]. Qed.
Lemma yields_take n : 0 ≤ n → yields (take_ n) (λ b, Z.of_nat (length b) = n ∧ Forall is_byte b).
Proof.
  intros Hn r x r' Hr. unfold take_. case_decide; [done|]. intros [= <- <-]. rewrite length_take.
  split_and!; [lia|by apply Forall_take|by apply Forall_drop].
Qed.
Lemma from_le_bound l : Forall is_byte l → 0 ≤ from_le l < 256 ^ Z.of_nat (length l).
Proof.
  induction 1 as [|b l Hb _ IH]; cbn [from_le length]; [done|]. rewrite Nat2Z.inj_succ, Z.pow_succ_r by lia. unfold is_byte in Hb. lia.
Qed.
Lemma yields_n : yields n_ u64.
Proof.
  unfold n_. eapply yields_bind; [apply yields_take; lia|]. intros b [Hl Hb]. apply yields_ret. apply from_le_bound in Hb.
  rewrite Hl in Hb. unfold u64, u64_max. change (256 ^ 8) with 18446744073709551616 in Hb. lia.
Qed.
Lemma yields_byte : yields byte_ is_byte.
Proof.
  unfold byte_. eapply yields_bind; [apply yields_take; lia|]. intros b [Hl Hb]. apply yields_ret.
  destruct b as [|c b]; [done|]. by apply Forall_cons in Hb as [? _].
Qed.
Lemma yields_bounded max : yields (bounded_ max) (λ n, u64 n ∧ n ≤ max).
Proof.
  unfold bounded_. eapply yields_bind; [apply yields_n|]. intros n Hn. eapply yields_bind; [apply yields_require|].
  intros _ Hc%bool_decide_eq_false. apply yields_ret. split; [done|lia].
Qed.
Lemma yields_string max : yields (string_ max) (Text max).
Proof.
  unfold string_. eapply yields_bind; [apply yields_bounded|]. intros n [Hn Hle]. eapply yields_bind; [apply yields_take; unfold u64 in Hn; lia|].
  intros b [Hl Hb]. eapply yields_weaken; [apply yields_lift|]. intros s Hs%ok_or_Ok. destruct (to_from_utf8 _ _ Hb Hs) as [E Hscalar].
  split; [done|]. rewrite <-utf8_length, E. lia.
Qed.
Lemma yields_option : yields option_ Rate.
Proof.
  unfold option_. eapply yields_bind; [apply yields_n|]. intros n Hn. apply yields_ret. intros m. case_decide; [done|]. by intros [= <-].
Qed.
Lemma yields_boolean : yields boolean_ (λ _, True).
Proof.
  unfold boolean_. eapply yields_bind; [apply yields_byte|]. intros b _.
  repeat case_decide; [by apply yields_ret|by apply yields_ret|apply yields_throw].
Qed.
Lemma yields_hash : yields hash_ Hash.
Proof.
  unfold hash_. eapply yields_bind; [apply yields_boolean|]. intros [] _.
  - eapply yields_bind; [apply yields_take; lia|]. intros b [Hl _]. apply yields_ret. intros v [= <-]. lia.
  - by apply yields_ret.
Qed.
Lemma yields_repeat {A} (m : reader A) P n : yields m P → yields (repeat_ n m) (λ l, length l = n ∧ Forall P l).
Proof.
  intros Hm. induction n as [|n IH]; cbn; [by apply yields_ret|]. eapply yields_bind; [exact Hm|]. intros x Hx.
  eapply yields_bind; [exact IH|]. intros l [Hl HP]. apply yields_ret. cbn. auto.
Qed.
Lemma yields_priority : yields read_priority (λ _, True).
Proof.
  unfold read_priority. eapply yields_bind; [apply yields_byte|]. intros b _.
  repeat case_decide; first [apply yields_throw|by apply yields_ret].
Qed.
Lemma yields_state : yields read_state (λ s, forget_cause s = s).
Proof.
  unfold read_state. eapply yields_bind; [apply yields_byte|]. intros b _.
  destruct b as [|p|p]; [by apply yields_ret| |apply yields_throw].
  do 3 (destruct p as [p|p|]; try apply yields_throw; try by apply yields_ret).
Qed.
Lemma yields_config : yields read_config (λ c, Config.validate c = Ok ()).
Proof.
  unfold read_config. do 4 (eapply yields_bind; [apply yields_bounded|]; intros ? _).
  do 2 (eapply yields_bind; [apply yields_n|]; intros ? _). eapply yields_bind; [apply yields_option|]. intros ? _.
  eapply yields_bind; [apply yields_lift|]. intros [] Hv. by apply yields_ret.
Qed.

Section Typed.
Context (url_parse : list Z → option Url.t) (header_value : list Z → bool) (sha256 : list Z → list Z).
Notation JobSaved := (JobSaved url_parse header_value).

Lemma yields_policy : yields (read_policy url_parse header_value) (λ x, made url_parse header_value x.1 ∧ Hash x.2).
Proof.
  unfold read_policy. do 2 (eapply yields_bind; [apply yields_string|]; intros ? _).
  eapply yields_bind; [apply yields_bounded|]; intros ? _. eapply yields_bind; [apply yields_repeat, yields_string|]. intros ? _.
  eapply yields_bind; [apply yields_lift|]. intros p Hp. eapply yields_bind; [apply yields_hash|]. intros h Hh. apply yields_ret.
  split; [|done]. cbn. destruct (new_policy _ _ _ _ _) as [p'|] eqn:E; [|done]. cbn in Hp. injection Hp as <-. by do 3 eexists.
Qed.
Lemma made_default : made url_parse header_value RequestPolicy.default.
Proof. by exists None, None, []. Qed.
Lemma yields_options version : yields (read_options url_parse header_value version) (OptionsSaved url_parse header_value).
Proof.
  unfold read_options. eapply yields_bind; [apply yields_string|]; intros url Hurl. eapply yields_bind; [apply yields_string|]; intros dir Hdir.
  eapply yields_bind; [apply yields_string|]; intros name Hname. eapply yields_bind; [apply yields_hash|]; intros sha Hsha.
  eapply yields_bind; [apply yields_boolean|]; intros http _. eapply yields_bind; [apply yields_n|]; intros checkpoint Hck.
  eapply yields_bind; [apply yields_n|]; intros max Hmax. eapply yields_bind; [apply yields_option|]; intros rate Hrate.
  eapply yields_bind; [apply yields_byte|]; intros parallel _.
  eapply (yields_bind _ _ (λ x, made url_parse header_value x.1 ∧ Hash x.2)).
  { case_decide; [|apply yields_policy]. apply yields_ret. split; [apply made_default|done]. }
  intros more [Hp Hh]. apply yields_ret. by split.
Qed.

Definition jobs_read (l : list SavedJob.t) : Prop :=
  Forall JobSaved l ∧ NoDup (SavedJob.id <$> l) ∧ Forall (λ j, forget_cause (SavedJob.state j) = SavedJob.state j) l.
Lemma yields_jobs n version acc : jobs_read acc →
  yields (read_jobs url_parse header_value n version acc) (λ l, length l = (length acc + n)%nat ∧ jobs_read l).
Proof.
  revert acc. induction n as [|n IH]; intros acc (Ha&Hnd&Hs); cbn [read_jobs]; [apply yields_ret; split; [lia|done]|].
  eapply yields_bind; [apply yields_n|]; intros id Hid. eapply yields_bind; [apply yields_require|]; intros [] Hc.
  eapply yields_bind; [apply yields_options|]; intros o Ho. eapply yields_bind; [apply yields_priority|]; intros p _.
  eapply yields_bind; [apply yields_state|]; intros s Hstate. eapply yields_bind; [apply yields_n|]; intros progress Hpr.
  eapply yields_bind; [apply yields_byte|]; intros attempts Hbyte. eapply yields_bind; [apply yields_require|]; intros [] Hc'.
  rewrite orb_false_iff, !bool_decide_eq_false in Hc, Hc'.
  eapply yields_weaken; [apply IH|intros l; rewrite length_app; cbn; intros [? ?]; split; [lia|done]].
  split_and!.
  - apply Forall_app. split; [done|]. constructor; [|done]. split; cbn; [tauto|done|unfold u64 in *; lia|unfold is_byte in Hbyte; lia].
  - rewrite fmap_app. apply NoDup_app. split; [done|]. split; [|apply NoDup_singleton]. intros x Hx Hx'.
    apply list_elem_of_singleton in Hx' as ->. cbn in Hx. by destruct Hc.
  - apply Forall_app. split; [done|]. by constructor.
Qed.
Lemma yields_queue n jobs acc : NoDup acc → acc ⊆ SavedJob.id <$> jobs →
  yields (read_queue n jobs acc) (λ q, NoDup q ∧ q ⊆ SavedJob.id <$> jobs).
Proof.
  revert acc. induction n as [|n IH]; intros acc Hnd Hsub; cbn [read_queue]; [by apply yields_ret|].
  eapply yields_bind; [apply yields_n|]; intros id _. eapply yields_bind; [apply yields_require|]; intros [] Hc.
  rewrite orb_false_iff, negb_false_iff, bool_decide_eq_false, bool_decide_eq_true in Hc. destruct Hc as [Hc1 Hc2]. apply IH.
  - apply NoDup_app. split; [done|]. split; [set_solver|apply NoDup_singleton].
  - intros x. rewrite elem_of_app, list_elem_of_singleton. intros [?| ->]; auto.
Qed.
Definition receipts_read (ids : list Z) (l : list QueueReceipt.t) : Prop :=
  Forall (ReceiptSaved ids) l ∧ NoDup (QueueReceipt.key_hash <$> l) ∧ NoDup (QueueReceipt.job_id <$> l).
Lemma NoDup_fmap_snoc {A B} (f : A → B) l x : NoDup (f <$> l) → f x ∉ f <$> l → NoDup (f <$> l ++ [x]).
Proof.
  intros Hl Hx. rewrite fmap_app. apply NoDup_app. split; [done|]. split; [|apply NoDup_singleton].
  intros y Hy Hy'. apply list_elem_of_singleton in Hy' as ->. done.
Qed.
Lemma yields_receipts n jobs acc : receipts_read (SavedJob.id <$> jobs) acc →
  yields (read_receipts n jobs acc) (λ l, length l = (length acc + n)%nat ∧ receipts_read (SavedJob.id <$> jobs) l).
Proof.
  revert acc. induction n as [|n IH]; intros acc (Ha&Hk&Hi); cbn [read_receipts]; [apply yields_ret; split; [lia|done]|].
  eapply yields_bind; [apply yields_take; lia|]; intros key [Hkey _]. eapply yields_bind; [apply yields_take; lia|]; intros pay [Hpay _].
  eapply yields_bind; [apply yields_n|]; intros id Hid. eapply yields_bind; [apply yields_boolean|]; intros removed _.
  eapply yields_bind; [apply yields_require|]; intros [] Hc. rewrite !orb_false_iff, !bool_decide_eq_false in Hc.
  destruct Hc as [[[Hc1 Hc2] Hc3] Hc4].
  eapply yields_weaken; [apply IH|intros l; rewrite length_app; cbn; intros [? ?]; split; [lia|done]].
  split_and!; [|by apply NoDup_fmap_snoc|by apply NoDup_fmap_snoc].
  apply Forall_app. split; [done|]. constructor; [|done]. split; cbn; [lia|lia|done|].
  destruct removed; repeat case_bool_decide; done.
Qed.
Lemma maximum_in l x : x ∈ l → x ≤ foldr Z.max 0 l.
Proof. induction 1 as [x l|x y l _ IH]; cbn; lia. Qed.
Lemma reread_id s : Forall (λ j, forget_cause (SavedJob.state j) = SavedJob.state j) (Snapshot.jobs s) → reread s = s.
Proof.
  intros H. destruct s as [last receipts config jobs queue]. unfold reread. cbn in *. f_equal.
  induction H as [|j jobs Hj _ IH]; cbn; [done|]. rewrite IH. f_equal. unfold reread_job. rewrite Hj. by destruct j.
Qed.
Lemma yields_snapshot : yields (read_snapshot url_parse header_value) (λ s, WellFormed url_parse header_value s ∧ reread s = s).
Proof.
  unfold read_snapshot. eapply yields_bind; [apply yields_take; lia|]; intros found _. eapply yields_bind; [apply yields_require|]; intros [] _.
  eapply yields_bind; [apply yields_config|]; intros c Hc.
  eapply (yields_bind _ _ (λ o, ∀ n, o = Some n → u64 n)).
  { case_decide; [by apply yields_ret|]. eapply yields_bind; [apply yields_n|]. intros n Hn. apply yields_ret. by intros m [= <-]. }
  intros saved Hsaved. eapply yields_bind; [apply yields_bounded|]; intros count [Hcu Hcount].
  eapply yields_bind; [apply yields_jobs; split_and!; [done|apply NoDup_nil_2|done]|]; intros jobs (Hlen&Hj&Hids&Hstates).
  eapply yields_bind; [apply yields_bounded|]; intros qcount _.
  eapply yields_bind; [apply yields_queue; [apply NoDup_nil_2|set_solver]|]; intros queue Hq.
  eapply (yields_bind _ _ (λ l, Z.of_nat (length l) ≤ MAX_RECEIPTS ∧ receipts_read (SavedJob.id <$> jobs) l)).
  { assert (receipts_read (SavedJob.id <$> jobs) []) as H0 by (split_and!; [done|apply NoDup_nil_2|apply NoDup_nil_2]). case_decide.
    - eapply yields_bind; [apply yields_bounded|]; intros n [Hn Hle]. eapply yields_weaken; [by apply yields_receipts|].
      cbn. intros l [Hl ?]. split; [unfold u64 in Hn; lia|done].
    - by apply yields_ret. }
  intros receipts (Hrn&Hr&Hk&Hri). eapply (yields_bind _ _ (λ _, True)); [by intros r x r' Hr' [= <- <-]|]. intros rest _.
  eapply yields_bind; [apply yields_require|]; intros [] _. eapply yields_bind; [apply yields_require|]; intros [] Hb. apply yields_ret.
  split; [|by apply reread_id].
  rewrite orb_false_iff, bool_decide_eq_false, existsb_false in Hb. destruct Hb as [Hb1 Hb2]. cbn in Hlen.
  assert (0 ≤ foldr Z.max 0 (SavedJob.id <$> jobs)) as Hpos by (clear; induction jobs; cbn; lia).
  split; cbn; try done; [..|unfold u64 in Hcu; lia|].
  - destruct saved as [n|]; cbn; [by apply Hsaved|]. split; [done|]. apply maximum_le; [by unfold u64_max|].
    rewrite Forall_fmap. eapply Forall_impl; [exact Hj|]. intros j [[[_ ?] _] _ _ _]. cbn. lia.
  - apply Forall_app. split.
    + rewrite Forall_forall. intros x Hx%maximum_in. lia.
    + rewrite Forall_fmap, Forall_forall. intros r Hr'. specialize (Hb2 r Hr'). apply bool_decide_eq_false in Hb2. cbn. lia.
Qed.

Lemma decode_typed bytes s : Forall is_byte bytes → decode url_parse header_value sha256 bytes = Ok s →
  WellFormed url_parse header_value s ∧ reread s = s.
Proof.
  intros Hb. unfold decode. destruct (refuse_if (_ || _) _) as [[]|]; [|done]. cbn [mbind result_bind].
  destruct (refuse_if (negb _) _) as [[]|]; [|done]. cbn [mbind result_bind].
  destruct (read_snapshot _ _ _) as [r rest] eqn:E. cbn. intros ->.
  by destruct (yields_snapshot _ _ _ (Forall_take _ (length bytes - 32) _ Hb) E) as [? _].
Qed.
Context `{!UrlLaws url_parse}.
(** C40: whatever bytes are presented, of any of the three versions, a snapshot that is accepted has valid limits, at most the jobs its limits allow, distinct identifiers that are never zero nor above the last one issued, progress within each job's size limit, an order of distinct known jobs, credentials as the constructor of a policy returns them, and receipts of distinct keys and jobs that are marked removed exactly when their job is gone; and writing it again loses nothing as long as no redirect origin grew beyond the limit on links when it was normalised *)
Theorem decoded_queue_is_well_formed bytes s : (∀ b, length (sha256 b) = 32%nat) → Forall is_byte bytes →
  decode url_parse header_value sha256 bytes = Ok s →
  WellFormed url_parse header_value s ∧ reread s = s ∧
  (Fits s → ∀ again, encode sha256 s = Ok again → decode url_parse header_value sha256 again = Ok s).
Proof.
  intros Hsha Hb Hd. destruct (decode_typed bytes s Hb Hd) as [Hs Hsame]. split_and!; [done|done|].
  intros Hfit again Ha. rewrite <-Hsame. by apply decode_encode.
Qed.
End Typed.

(** A queue of the first version, from before credentials and receipts. *)
Definition old_bytes : list Z :=
  let plain := magic 1 ++ encode_config (Config.Make 3 10 2 RetrySettings.disabled None) ++ put_u64 0 ++ put_u64 0 in
  plain ++ ToyQueue.digest plain.
Lemma decoded_queue_is_well_formed_witness :
  decode ToyWeb.parse (λ _, true) ToyQueue.digest old_bytes = Ok (Snapshot.empty (Config.Make 3 10 2 RetrySettings.disabled None)) ∧
  WellFormed ToyWeb.parse (λ _, true) (Snapshot.empty (Config.Make 3 10 2 RetrySettings.disabled None)).
Proof.
  split; [by vm_compute|].
  eapply (decoded_queue_is_well_formed ToyWeb.parse (λ _, true) ToyQueue.digest old_bytes); [done| |by vm_compute].
  apply (bool_decide_unpack (Forall (λ b, 0 ≤ b < 256) old_bytes)). by vm_compute.
Defined.

(** ** A link that grows

    The url crate adds what a link may leave out, so that the normal form of a link within the limit
    may be longer than the limit. *)
Module LongHost.
(** https:aa...a, within the limit, and https://aa...a, beyond it. *)
Definition host : list Z := repeat 97 16378.
Definition raw : list Z := HTTPS ++ 58 :: host.
Definition site : list Z := HTTPS ++ [58; 47; 47] ++ host.
Definition link : Url.t := Url.Make (site ++ [47]) HTTPS (Some host) (Some 443) [] None [47] None None site.
Definition parse (text : list Z) : option Url.t := if bool_decide (text ∈ [raw; site; site ++ [47]]) then Some link else None.
#[global] Instance laws : UrlLaws parse.
Proof.
  assert (∀ text u, parse text = Some u → u = link) as Hall by (intros text u; unfold parse; case_bool_decide; [by intros [= <-]|done]).
  split.
  - intros text u ->%Hall _. exists link. split; [unfold parse; rewrite bool_decide_eq_true_2; [done|right; by left]|done].
  - by intros text u text' v ->%Hall ->%Hall.
  - intros text u ->%Hall _. by vm_compute.
Qed.
Definition snapshot (o : Options.t) : Snapshot.t :=
  Snapshot.Make 1 [] (Config.Make 3 10 2 RetrySettings.disabled None) [SavedJob.Make 1 o Priority.Normal TaskState.Paused 0 0] [1].
Definition encoded (s : Snapshot.t) : list Z := match encode ToyQueue.digest s with Ok b => b | Err _ => [] end.
Definition read (bytes : list Z) : result ManagerError.t Snapshot.t := decode parse (λ _, true) ToyQueue.digest bytes.
End LongHost.

(** A row that lists the short form of such an origin is read; what is written of it is not. *)
Lemma grown_origin_is_lost : ∃ row s, LongHost.read row = Ok s ∧ is_ok (encode ToyQueue.digest s) = true ∧
  is_ok (LongHost.read (LongHost.encoded s)) = false.
Proof.
  exists (LongHost.encoded (LongHost.snapshot (ToyQueue.options 97 (RequestPolicy.Make None None [LongHost.raw])))).
  eexists. split; [vm_compute; reflexivity|]. split; vm_compute; reflexivity.
Qed.
