(* ===== verification/Manager.v ===== *)
(** * The queue of the first engine

    [src/crates/download-engine/src/manager.rs]: the actor that owns the jobs, and the calls that
    reach it.  A turn of its loop is one function; what the outside decides in a turn - whether
    the callers are gone, what becomes of each save, which worker ended or which command came, what the
    operating system says of a path - is the [Turn] it is given.  What happens is also written to a
    trace, so that a crash is a point of the trace. *)

From S2P Require Import Prelude.
From S2P Require Import Files.
From S2P Require Import StorageFile.
From S2P Require Import ResumePolicy.
From S2P Require Import TransferStore.
From S2P Require Import Options.
From S2P Require Import QueueStore.

(** ** Data *)

Module AdmissionHashes.
Record t : Type := Make { key : list Z; payload : list Z }.
End AdmissionHashes.

Module QueueCommand.
Inductive t : Type :=
| Enqueue (options : Options.t) (priority : Priority.t) (admission : option AdmissionHashes.t)
| SetPriority (id : Z) (priority : Priority.t)
| Pause (id : Z)
| Resume (id : Z)
| GlobalRate (rate : option Z)
| JobRate (id : Z) (rate : option Z)
| ResumeAll
| Refresh (id : Z) (url : list Z)
| Forget (id : Z).
End QueueCommand.

(** What a reply carries when it is no error. *)
Inductive Answer : Type := Done | Given (id : Z).
(** What happens that others can see: a row is in the database, a caller is answered, a command is
    taken, a worker is started, the actor is started again. *)
Inductive Moment : Type :=
| Wrote (row : option (list Z))
| Answered (ticket : Z) (r : result ManagerError.t Answer)
| Heard (ticket : Z) (c : QueueCommand.t)
| Spawned (task id : Z)
| Opened.
(** The row at the end of a trace. *)
Fixpoint last_row (trace : list Moment) : option (list Z) :=
  match trace with [] => None | Wrote row :: _ => row | _ :: trace => last_row trace end.

(** What becomes of a save: the fates of [QueueStore], or the blocking task is lost with the store. *)
Inductive StoreFate : Type := Fated (f : SaveFate) | Lost (replaced : bool).

(** A job of the actor.  [origin] is scheme, host and port; [cancel] is the channel to the worker
    and what was sent on it; [job_rate] is the live limit of its traffic control. *)
Module QueueJob.
Record t : Type := Make {
  options : Options.t;
  origin : list Z * list Z * Z;
  priority : Priority.t;
  key : list Z;
  state : TaskState.t;
  progress : Z;
  cancel : option bool;
  pause_reply : option Z;
  attempts : Z;
  retry_at : option Z;
  job_rate : option Z }.
Definition set_options (v : Options.t) (r : t) : t := Make v (origin r) (priority r) (key r) (state r) (progress r) (cancel r) (pause_reply r) (attempts r) (retry_at r) (job_rate r).
Definition set_origin (v : list Z * list Z * Z) (r : t) : t := Make (options r) v (priority r) (key r) (state r) (progress r) (cancel r) (pause_reply r) (attempts r) (retry_at r) (job_rate r).
Definition set_priority (v : Priority.t) (r : t) : t := Make (options r) (origin r) v (key r) (state r) (progress r) (cancel r) (pause_reply r) (attempts r) (retry_at r) (job_rate r).
Definition set_key (v : list Z) (r : t) : t := Make (options r) (origin r) (priority r) v (state r) (progress r) (cancel r) (pause_reply r) (attempts r) (retry_at r) (job_rate r).
Definition set_state (v : TaskState.t) (r : t) : t := Make (options r) (origin r) (priority r) (key r) v (progress r) (cancel r) (pause_reply r) (attempts r) (retry_at r) (job_rate r).
Definition set_progress (v : Z) (r : t) : t := Make (options r) (origin r) (priority r) (key r) (state r) v (cancel r) (pause_reply r) (attempts r) (retry_at r) (job_rate r).
Definition set_cancel (v : option bool) (r : t) : t := Make (options r) (origin r) (priority r) (key r) (state r) (progress r) v (pause_reply r) (attempts r) (retry_at r) (job_rate r).
Definition set_pause_reply (v : option Z) (r : t) : t := Make (options r) (origin r) (priority r) (key r) (state r) (progress r) (cancel r) v (attempts r) (retry_at r) (job_rate r).
Definition set_attempts (v : Z) (r : t) : t := Make (options r) (origin r) (priority r) (key r) (state r) (progress r) (cancel r) (pause_reply r) v (retry_at r) (job_rate r).
Definition set_retry_at (v : option Z) (r : t) : t := Make (options r) (origin r) (priority r) (key r) (state r) (progress r) (cancel r) (pause_reply r) (attempts r) v (job_rate r).
Definition set_job_rate (v : option Z) (r : t) : t := Make (options r) (origin r) (priority r) (key r) (state r) (progress r) (cancel r) (pause_reply r) (attempts r) (retry_at r) v.
End QueueJob.

(** What [subscribe] shows. *)
Module JobSnapshot.
Record t : Type := Make {
  id : Z; priority : Priority.t; state : TaskState.t; committed_bytes : Z; attempts : Z;
  bytes_per_second : option Z; parallel_connections : Z }.
End JobSnapshot.

(** The locals of [run], newest moment of [trace] first.  [workers] is the JoinSet with the owners of
    its tasks, which are changed together; [held] says that the store was not lost, the row is in
    the trace; [polls] and [fates] are what the current turn's outside still decides. *)
Module Actor.
Record t : Type := Make {
  config : Config.t;
  jobs : list (Z * QueueJob.t);
  queue : list Z;
  last_id : Z;
  receipts : list QueueReceipt.t;
  held : bool;
  workers : list (Z * Z);
  next_task : Z;
  global_rate : option Z;
  closing : bool;
  closed : bool;
  failure : option ManagerError.t;
  dirty : bool;
  acks : list (Z * Answer);
  polls : list bool;
  fates : list StoreFate;
  view : list JobSnapshot.t;
  ended : option (result ManagerError.t unit);
  trace : list Moment }.
Definition set_config (v : Config.t) (r : t) : t := Make v (jobs r) (queue r) (last_id r) (receipts r) (held r) (workers r) (next_task r) (global_rate r) (closing r) (closed r) (failure r) (dirty r) (acks r) (polls r) (fates r) (view r) (ended r) (trace r).
Definition set_jobs (v : list (Z * QueueJob.t)) (r : t) : t := Make (config r) v (queue r) (last_id r) (receipts r) (held r) (workers r) (next_task r) (global_rate r) (closing r) (closed r) (failure r) (dirty r) (acks r) (polls r) (fates r) (view r) (ended r) (trace r).
Definition set_queue (v : list Z) (r : t) : t := Make (config r) (jobs r) v (last_id r) (receipts r) (held r) (workers r) (next_task r) (global_rate r) (closing r) (closed r) (failure r) (dirty r) (acks r) (polls r) (fates r) (view r) (ended r) (trace r).
Definition set_last_id (v : Z) (r : t) : t := Make (config r) (jobs r) (queue r) v (receipts r) (held r) (workers r) (next_task r) (global_rate r) (closing r) (closed r) (failure r) (dirty r) (acks r) (polls r) (fates r) (view r) (ended r) (trace r).
Definition set_receipts (v : list QueueReceipt.t) (r : t) : t := Make (config r) (jobs r) (queue r) (last_id r) v (held r) (workers r) (next_task r) (global_rate r) (closing r) (closed r) (failure r) (dirty r) (acks r) (polls r) (fates r) (view r) (ended r) (trace r).
Definition set_held (v : bool) (r : t) : t := Make (config r) (jobs r) (queue r) (last_id r) (receipts r) v (workers r) (next_task r) (global_rate r) (closing r) (closed r) (failure r) (dirty r) (acks r) (polls r) (fates r) (view r) (ended r) (trace r).
Definition set_workers (v : list (Z * Z)) (r : t) : t := Make (config r) (jobs r) (queue r) (last_id r) (receipts r) (held r) v (next_task r) (global_rate r) (closing r) (closed r) (failure r) (dirty r) (acks r) (polls r) (fates r) (view r) (ended r) (trace r).
Definition set_next_task (v : Z) (r : t) : t := Make (config r) (jobs r) (queue r) (last_id r) (receipts r) (held r) (workers r) v (global_rate r) (closing r) (closed r) (failure r) (dirty r) (acks r) (polls r) (fates r) (view r) (ended r) (trace r).
Definition set_global_rate (v : option Z) (r : t) : t := Make (config r) (jobs r) (queue r) (last_id r) (receipts r) (held r) (workers r) (next_task r) v (closing r) (closed r) (failure r) (dirty r) (acks r) (polls r) (fates r) (view r) (ended r) (trace r).
Definition set_closing (v : bool) (r : t) : t := Make (config r) (jobs r) (queue r) (last_id r) (receipts r) (held r) (workers r) (next_task r) (global_rate r) v (closed r) (failure r) (dirty r) (acks r) (polls r) (fates r) (view r) (ended r) (trace r).
Definition set_closed (v : bool) (r : t) : t := Make (config r) (jobs r) (queue r) (last_id r) (receipts r) (held r) (workers r) (next_task r) (global_rate r) (closing r) v (failure r) (dirty r) (acks r) (polls r) (fates r) (view r) (ended r) (trace r).
Definition set_failure (v : option ManagerError.t) (r : t) : t := Make (config r) (jobs r) (queue r) (last_id r) (receipts r) (held r) (workers r) (next_task r) (global_rate r) (closing r) (closed r) v (dirty r) (acks r) (polls r) (fates r) (view r) (ended r) (trace r).
Definition set_dirty (v : bool) (r : t) : t := Make (config r) (jobs r) (queue r) (last_id r) (receipts r) (held r) (workers r) (next_task r) (global_rate r) (closing r) (closed r) (failure r) v (acks r) (polls r) (fates r) (view r) (ended r) (trace r).
Definition set_acks (v : list (Z * Answer)) (r : t) : t := Make (config r) (jobs r) (queue r) (last_id r) (receipts r) (held r) (workers r) (next_task r) (global_rate r) (closing r) (closed r) (failure r) (dirty r) v (polls r) (fates r) (view r) (ended r) (trace r).
Definition set_polls (v : list bool) (r : t) : t := Make (config r) (jobs r) (queue r) (last_id r) (receipts r) (held r) (workers r) (next_task r) (global_rate r) (closing r) (closed r) (failure r) (dirty r) (acks r) v (fates r) (view r) (ended r) (trace r).
Definition set_fates (v : list StoreFate) (r : t) : t := Make (config r) (jobs r) (queue r) (last_id r) (receipts r) (held r) (workers r) (next_task r) (global_rate r) (closing r) (closed r) (failure r) (dirty r) (acks r) (polls r) v (view r) (ended r) (trace r).
Definition set_view (v : list JobSnapshot.t) (r : t) : t := Make (config r) (jobs r) (queue r) (last_id r) (receipts r) (held r) (workers r) (next_task r) (global_rate r) (closing r) (closed r) (failure r) (dirty r) (acks r) (polls r) (fates r) v (ended r) (trace r).
Definition set_ended (v : option (result ManagerError.t unit)) (r : t) : t := Make (config r) (jobs r) (queue r) (last_id r) (receipts r) (held r) (workers r) (next_task r) (global_rate r) (closing r) (closed r) (failure r) (dirty r) (acks r) (polls r) (fates r) (view r) v (trace r).
Definition set_trace (v : list Moment) (r : t) : t := Make (config r) (jobs r) (queue r) (last_id r) (receipts r) (held r) (workers r) (next_task r) (global_rate r) (closing r) (closed r) (failure r) (dirty r) (acks r) (polls r) (fates r) (view r) (ended r) v.
End Actor.

(** What the file system says of the directory of a job: its key, that it may not be used, or the
    task that asked was lost. *)
Inductive PathAnswer : Type := PathKey (key : list Z) | PathRefused | PathLost.
(** What a refresh finds there. *)
Inductive Binding : Type :=
| Absent | Unreadable | NotOpened | Bound (identity : Identity.t) (status : Status.t) (unknown : bool) | BindingLost.
Inductive Event : Type :=
| Joined (task : Z) (outcome : option (result DownloadError.t Z))
| Received (ticket : Z) (c : QueueCommand.t) (path : PathAnswer) (binding : Binding)
| NoMore
| Tick.
Module Turn.
Record t : Type := Make {
  now : Z; reports : list (Z * Z); polls : list bool; fates : list StoreFate; later : Z; event : Event }.
End Turn.

(** ** Jobs *)

Fixpoint find_job (id : Z) (jobs : list (Z * QueueJob.t)) : option QueueJob.t :=
  match jobs with [] => None | (key, job) :: jobs => if decide (key = id) then Some job else find_job id jobs end.
Fixpoint alter_job (id : Z) (f : QueueJob.t → QueueJob.t) (jobs : list (Z * QueueJob.t)) : list (Z * QueueJob.t) :=
  match jobs with
  | [] => []
  | (key, job) :: jobs => if decide (key = id) then (key, f job) :: jobs else (key, job) :: alter_job id f jobs
  end.
Fixpoint remove_job (id : Z) (jobs : list (Z * QueueJob.t)) : list (Z * QueueJob.t) :=
  match jobs with [] => [] | (key, job) :: jobs => if decide (key = id) then jobs else (key, job) :: remove_job id jobs end.
Definition on_job (id : Z) (f : QueueJob.t → QueueJob.t) (s : Actor.t) : Actor.t :=
  Actor.set_jobs (alter_job id f (Actor.jobs s)) s.
Definition busy (s : TaskState.t) : bool := bool_decide (s ∈ [TaskState.Running; TaskState.Pausing]).
(** Paused or failed. *)
Definition resumable (s : TaskState.t) : bool :=
  match s with TaskState.Paused | TaskState.Failed _ => true | _ => false end.

(** [publish]. *)
Definition publish (s : Actor.t) : Actor.t :=
  Actor.set_view ((λ '(id, job), JobSnapshot.Make id (QueueJob.priority job) (QueueJob.state job) (QueueJob.progress job)
    (QueueJob.attempts job) (Options.bytes_per_second (QueueJob.options job)) (Options.parallel_connections (QueueJob.options job)))
    <$> Actor.jobs s) s.

Definition stop_job (job : QueueJob.t) : QueueJob.t :=
  match QueueJob.state job with
  | TaskState.Queued | TaskState.RetryWaiting => QueueJob.set_retry_at None (QueueJob.set_state TaskState.Paused job)
  | TaskState.Running => QueueJob.set_cancel ((λ _, true) <$> QueueJob.cancel job) (QueueJob.set_state TaskState.Pausing job)
  | _ => job
  end.
Definition stop (s : Actor.t) : Actor.t := Actor.set_jobs (prod_map id stop_job <$> Actor.jobs s) s.

Definition finish (outcome : result DownloadError.t Z) (job : QueueJob.t) : QueueJob.t :=
  let job := QueueJob.set_cancel None job in
  match outcome with
  | Ok bytes => QueueJob.set_state TaskState.Completed (QueueJob.set_progress bytes job)
  | Err e =>
      if decide (e = DownloadError.Cancelled ∧ QueueJob.state job = TaskState.Pausing)
      then QueueJob.set_state TaskState.Paused job else QueueJob.set_state (TaskState.Failed e) job
  end.

Definition active_on (jobs : list (Z * QueueJob.t)) (origin : list Z * list Z * Z) : Z :=
  Z.of_nat (length (filter (λ j : Z * QueueJob.t, QueueJob.origin j.2 = origin ∧ busy (QueueJob.state j.2) = true) jobs)).
(** The loop of [next_eligible], from [index] on. *)
Fixpoint next_from (jobs : list (Z * QueueJob.t)) (max_per_origin : Z) (index : nat) (queue : list Z)
    (selected : option (nat * Priority.t)) : option (nat * Priority.t) :=
  match queue with
  | [] => selected
  | id :: queue =>
      next_from jobs max_per_origin (S index) queue
        (match find_job id jobs with
         | None => selected
         | Some candidate =>
             if decide (QueueJob.state candidate ≠ TaskState.Queued) then selected
             else if decide (max_per_origin ≤ active_on jobs (QueueJob.origin candidate)) then selected
             else match selected with
                  | None => Some (index, QueueJob.priority candidate)
                  | Some (_, p) => if decide (Priority.rank p < Priority.rank (QueueJob.priority candidate))
                                   then Some (index, QueueJob.priority candidate) else selected
                  end
         end)
  end.
Definition next_eligible (jobs : list (Z * QueueJob.t)) (queue : list Z) (max_per_origin : Z) : option nat :=
  fst <$> next_from jobs max_per_origin 0 queue None.

Definition retryable (e : DownloadError.t) : bool :=
  match e with
  | DownloadError.Network => true
  | DownloadError.HttpStatus code => bool_decide (code ∈ [408; 500; 502; 503; 504])
  | _ => false
  end.

(** ** Saving *)

Definition saved_job (j : Z * QueueJob.t) : SavedJob.t :=
  SavedJob.Make j.1 (QueueJob.options j.2) (QueueJob.priority j.2) (QueueJob.state j.2) (QueueJob.progress j.2) (QueueJob.attempts j.2).
Definition snapshot_of (s : Actor.t) : Snapshot.t :=
  Snapshot.Make (Actor.last_id s) (Actor.receipts s) (Actor.config s) (saved_job <$> Actor.jobs s) (Actor.queue s).
Definition record (m : Moment) (s : Actor.t) : Actor.t := Actor.set_trace (m :: Actor.trace s) s.
Definition poll (s : Actor.t) : bool * Actor.t :=
  let b := default false (head (Actor.polls s)) || Actor.closed s in
  (b, Actor.set_closed b (Actor.set_polls (drop 1 (Actor.polls s)) s)).

Section Queue.
Context (url_parse : list Z → option Url.t) (header_value : list Z → bool) (sha256 : list Z → list Z) (secrets : Secrets.t).

Definition save_state (s : Actor.t) : result ManagerError.t unit * Actor.t :=
  if negb (Actor.held s) then (Ok (), s)
  else
    let fate := default (Fated Saved) (head (Actor.fates s)) in
    let s := Actor.set_fates (drop 1 (Actor.fates s)) s in
    match fate with
    | Fated f => let '(r, row) := save sha256 secrets f (last_row (Actor.trace s)) (snapshot_of s) in (r, record (Wrote row) s)
    | Lost replaced =>
        let '(_, row) := save sha256 secrets (Broken replaced) (last_row (Actor.trace s)) (snapshot_of s) in
        (Err ManagerError.WorkerFailed, Actor.set_held false (record (Wrote row) s))
    end.

(** ** The top of a turn *)

(** After a save failed: no new work, and the workers are cancelled. *)
Definition abandon (e : ManagerError.t) (s : Actor.t) : Actor.t :=
  stop (Actor.set_closed true (Actor.set_closing true (Actor.set_failure (Some e) s))).
Definition retry_is_due (now : Z) (job : QueueJob.t) : bool :=
  bool_decide (QueueJob.state job = TaskState.RetryWaiting) && is_some_and (λ at_, bool_decide (at_ ≤ now)) (QueueJob.retry_at job).
Definition requeue (now : Z) (job : QueueJob.t) : QueueJob.t :=
  if retry_is_due now job then QueueJob.set_retry_at None (QueueJob.set_state TaskState.Queued job) else job.
Definition retry_due (now : Z) (s : Actor.t) : Actor.t :=
  let due := fst <$> filter (λ j : Z * QueueJob.t, retry_is_due now j.2 = true) (Actor.jobs s) in
  Actor.set_dirty (Actor.dirty s || negb (bool_decide (due = [])))
    (Actor.set_queue (Actor.queue s ++ due) (Actor.set_jobs (prod_map id (requeue now) <$> Actor.jobs s) s)).
Definition begin_turn (now : Z) (s : Actor.t) : Actor.t :=
  let '(gone, s) := poll s in
  let s := if gone && negb (Actor.closing s) then Actor.set_dirty true (stop (Actor.set_closed true (Actor.set_closing true s))) else s in
  if Actor.closing s then s else retry_due now s.
(** Settings become live. *)
Definition limit_to (rate live : option Z) : option Z := if valid_limit rate then rate else live.
Definition go_live (s : Actor.t) : Actor.t :=
  Actor.set_global_rate (limit_to (Config.global_bytes_per_second (Actor.config s)) (Actor.global_rate s))
    (Actor.set_jobs (prod_map id (λ job, QueueJob.set_job_rate
        (limit_to (Options.bytes_per_second (QueueJob.options job)) (QueueJob.job_rate job)) job) <$> Actor.jobs s) s).
Definition save_phase (s : Actor.t) : Actor.t :=
  if Actor.dirty s && bool_decide (Actor.failure s = None) then
    let '(r, s) := save_state s in
    Actor.set_dirty false (match r with Err e => abandon e s | Ok _ => go_live s end)
  else s.
Definition answer (ticket : Z) (r : result ManagerError.t Answer) (s : Actor.t) : Actor.t := record (Answered ticket r) s.
Definition drain_acks (s : Actor.t) : Actor.t :=
  Actor.set_acks [] (foldl (λ s '(ticket, a), answer ticket (match Actor.failure s with Some e => Err e | None => Ok a end) s)
    s (Actor.acks s)).

(** ** Starting workers *)

Definition spawn (id : Z) (s : Actor.t) : Actor.t :=
  let task := Actor.next_task s in
  record (Spawned task id) (Actor.set_next_task (task + 1) (Actor.set_workers (Actor.workers s ++ [(task, id)])
    (on_job id (QueueJob.set_cancel (Some false)) s))).
Definition prepare (job : QueueJob.t) : QueueJob.t :=
  QueueJob.set_attempts (saturating_add u8_max (QueueJob.attempts job) 1) (QueueJob.set_state TaskState.Running job).
(** A turn of the loop takes one identifier out of the queue. *)
Fixpoint start_workers (fuel : nat) (s : Actor.t) : Actor.t :=
  match fuel with
  | O => s
  | S fuel =>
      if Actor.closing s || bool_decide (Config.max_active (Actor.config s) ≤ Z.of_nat (length (Actor.workers s))) then s
      else match next_eligible (Actor.jobs s) (Actor.queue s) (Config.max_per_origin (Actor.config s)) with
      | None => s
      | Some index =>
          match Actor.queue s !! index with
          | None => s
          | Some id =>
              let s := Actor.set_queue (delete index (Actor.queue s)) s in
              match find_job id (Actor.jobs s) with
              | None => start_workers fuel s
              | Some job =>
                  if decide (QueueJob.state job ≠ TaskState.Queued) then start_workers fuel s
                  else
                    let '(r, s) := save_state (on_job id prepare s) in
                    match r with
                    | Err e => on_job id (QueueJob.set_state TaskState.Paused) (abandon e s)
                    | Ok _ =>
                        let '(gone, s) := poll s in
                        if gone then
                          on_job id (QueueJob.set_state TaskState.Paused) (Actor.set_dirty true (stop (Actor.set_closing true s)))
                        else match find_job id (Actor.jobs s) with
                        | None => start_workers fuel s
                        | Some _ => start_workers fuel (spawn id s)
                        end
                    end
              end
          end
      end
  end.

(** ** A worker ends *)

Fixpoint take_worker (task : Z) (workers : list (Z * Z)) : option (Z * list (Z * Z)) :=
  match workers with
  | [] => None
  | (t, id) :: workers =>
      if decide (t = task) then Some (id, workers) else (λ '(o, rest), (o, (t, id) :: rest)) <$> take_worker task workers
  end.
Definition on_joined (later task : Z) (outcome : option (result DownloadError.t Z)) (s : Actor.t) : Actor.t :=
  match take_worker task (Actor.workers s) with
  | None => s
  | Some (id, workers) =>
      let s := Actor.set_workers workers s in
      let outcome := default (Err DownloadError.WorkerFailed) outcome in
      match find_job id (Actor.jobs s) with
      | None => s
      | Some job =>
          let settings := Config.retry (Actor.config s) in
          let retry := negb (Actor.closing s) && bool_decide (QueueJob.state job = TaskState.Running)
            && bool_decide (QueueJob.attempts job < RetrySettings.max_attempts settings)
            && match outcome with Err e => retryable e | Ok _ => false end in
          let job := finish outcome job in
          let job := if retry then QueueJob.set_retry_at (Some (later + RetrySettings.delay settings (QueueJob.attempts job)))
            (QueueJob.set_state TaskState.RetryWaiting job) else job in
          let s := Actor.set_dirty true (on_job id (λ _, QueueJob.set_pause_reply None job) s) in
          match QueueJob.pause_reply job with
          | None => s
          | Some ticket =>
              match QueueJob.state job with
              | TaskState.Failed _ => answer ticket (Err ManagerError.WorkerFailed) s
              | _ => Actor.set_acks (Actor.acks s ++ [(ticket, Done)]) s
              end
          end
      end
  end.

(** ** Commands *)

(** [acknowledgements.push(...); dirty = true]. *)
Definition acknowledge (ticket : Z) (a : Answer) (s : Actor.t) : Actor.t :=
  Actor.set_dirty true (Actor.set_acks (Actor.acks s ++ [(ticket, a)]) s).
Definition origin_of (o : Options.t) : result ManagerError.t (list Z * list Z * Z) :=
  url ← map_err (λ _, ManagerError.InvalidOptions) (parse_url url_parse (Options.url o) (Options.allow_http o));
  host ← ok_or (Url.host_str url) ManagerError.InvalidOptions;
  port ← ok_or (Url.port_or_known_default url) ManagerError.InvalidOptions;
  Ok (Url.scheme url, host, port).

Definition new_job (o : Options.t) (origin : list Z * list Z * Z) (priority : Priority.t) (key : list Z) : QueueJob.t :=
  QueueJob.Make o origin priority key TaskState.Queued 0 None None 0 None (Options.bytes_per_second o).
Definition enqueue_new (ticket : Z) (o : Options.t) (priority : Priority.t) (admission : option AdmissionHashes.t)
    (path : PathAnswer) (s : Actor.t) : Actor.t :=
  let refuse e := answer ticket (Err e) s in
  if decide (Config.max_jobs (Actor.config s) ≤ Z.of_nat (length (Actor.jobs s))) then refuse ManagerError.Capacity else
  match origin_of o with
  | Err e => refuse e
  | Ok origin =>
      match path with
      | PathRefused => refuse ManagerError.InvalidPath
      | PathLost => refuse ManagerError.WorkerFailed
      | PathKey key =>
          if existsb (λ j : Z * QueueJob.t, bool_decide (QueueJob.key j.2 = key)) (Actor.jobs s)
          then refuse ManagerError.DuplicateJob else
          match checked_add (Actor.last_id s) 1 with
          | None => refuse ManagerError.Capacity
          | Some id =>
              let s := Actor.set_last_id id s in
              if negb (valid_limit (Options.bytes_per_second o)) then answer ticket (Err ManagerError.InvalidOptions) s else
              let s := Actor.set_jobs (Actor.jobs s ++ [(id, new_job o origin priority key)]) s in
              let s := Actor.set_queue (Actor.queue s ++ [id]) s in
              let s := match admission with
                | Some h => Actor.set_receipts (Actor.receipts s
                    ++ [QueueReceipt.Make (AdmissionHashes.key h) (AdmissionHashes.payload h) id false]) s
                | None => s
                end in
              acknowledge ticket (Given id) s
          end
      end
  end.
Definition on_enqueue (ticket : Z) (o : Options.t) (priority : Priority.t) (admission : option AdmissionHashes.t)
    (path : PathAnswer) (s : Actor.t) : Actor.t :=
  match admission with
  | None => enqueue_new ticket o priority None path s
  | Some h =>
      if negb (Actor.held s) then answer ticket (Err ManagerError.NotDurable) s else
      match find (λ r, bool_decide (QueueReceipt.key_hash r = AdmissionHashes.key h)) (Actor.receipts s) with
      | Some r =>
          answer ticket
            (if decide (QueueReceipt.payload_hash r ≠ AdmissionHashes.payload h) then Err ManagerError.IdempotencyConflict
             else if QueueReceipt.removed r then Err ManagerError.PreviouslyRemoved
             else Ok (Given (QueueReceipt.job_id r))) s
      | None =>
          if decide (MAX_RECEIPTS ≤ Z.of_nat (length (Actor.receipts s))) then answer ticket (Err ManagerError.ReceiptCapacity) s
          else enqueue_new ticket o priority (Some h) path s
      end
  end.

(** What the refresh makes of the directory it found: the identity the next download may rebind from. *)
Definition bind_refresh (o : Options.t) (current : list Z) (b : Binding) : result ManagerError.t (option (list Z)) :=
  match b with
  | Absent => Ok None
  | Unreadable => Err ManagerError.InvalidPath
  | NotOpened | BindingLost => Err ManagerError.WorkerFailed
  | Bound i status unknown =>
      let original := Identity.original_url_fingerprint i in
      _ ← refuse_if (negb (match status with Status.Downloading => true | _ => false end) || unknown
            || bool_decide (Identity.strong_etag i = None)
            || negb (bool_decide (Identity.expected_sha256 i = Options.expected_sha256 o))
            || (negb (bool_decide (original = current)) && negb (bool_decide (Some original = Options.refresh_from o))))
            ManagerError.InvalidOptions;
      Ok (Some original)
  end.
(** The new link and the binding, or the refusal. *)
Definition refreshed (job : QueueJob.t) (link : list Z) (b : Binding) : result ManagerError.t Options.t :=
  let o := QueueJob.options job in
  _ ← refuse_if (negb (resumable (QueueJob.state job))) ManagerError.InvalidTransition;
  _ ← refuse_if (bool_decide (Options.expected_sha256 o = None)) ManagerError.InvalidOptions;
  old ← map_err (λ _, ManagerError.InvalidOptions) (parse_url url_parse (Options.url o) (Options.allow_http o));
  new ← map_err (λ _, ManagerError.InvalidOptions) (parse_url url_parse link (Options.allow_http o));
  _ ← refuse_if (negb (bool_decide (Url.origin old = Url.origin new)) || negb (bool_decide (Url.path old = Url.path new)))
        ManagerError.InvalidOptions;
  from ← bind_refresh o (url_fingerprint sha256 (utf8 (Url.as_str old))) b;
  Ok (Options.set_link (Url.as_str new) from o).
Definition resumed (job : QueueJob.t) : QueueJob.t :=
  QueueJob.set_retry_at None (QueueJob.set_attempts 0 (QueueJob.set_state TaskState.Queued job)).
Definition without (id : Z) (queue : list Z) : list Z := filter (λ key, key ≠ id) queue.
(** The loop of resume-all over the queue and the jobs that are not in it. *)
Fixpoint resume_each (ids : list Z) (s : Actor.t) : Actor.t :=
  match ids with
  | [] => s
  | id :: ids =>
      resume_each ids
        match find_job id (Actor.jobs s) with
        | Some job =>
            if resumable (QueueJob.state job) then
              let s := on_job id resumed s in
              if decide (id ∈ Actor.queue s) then s else Actor.set_queue (Actor.queue s ++ [id]) s
            else s
        | None => s
        end
  end.
Definition resume_order (s : Actor.t) : list Z :=
  foldl (λ ordered id, if decide (id ∈ ordered) then ordered else ordered ++ [id]) (Actor.queue s) (fst <$> Actor.jobs s).

(** A job that exists, or the refusal. *)
Definition with_job (ticket id : Z) (k : QueueJob.t → Actor.t → Actor.t) (s : Actor.t) : Actor.t :=
  match find_job id (Actor.jobs s) with Some job => k job s | None => answer ticket (Err ManagerError.UnknownJob) s end.
Definition on_command (ticket : Z) (c : QueueCommand.t) (path : PathAnswer) (binding : Binding) (s : Actor.t) : Actor.t :=
  let refuse e := answer ticket (Err e) in
  match c with
  | QueueCommand.Enqueue o priority admission => on_enqueue ticket o priority admission path s
  | QueueCommand.Refresh id link => with_job ticket id (λ job s,
      match refreshed job link binding with
      | Err e => refuse e s
      | Ok o => acknowledge ticket Done (on_job id (λ job, QueueJob.set_state TaskState.Paused (QueueJob.set_options o job)) s)
      end) s
  | QueueCommand.Forget id => with_job ticket id (λ job s,
      if busy (QueueJob.state job) then refuse ManagerError.InvalidTransition s else
      let s := Actor.set_queue (without id (Actor.queue s)) (Actor.set_jobs (remove_job id (Actor.jobs s)) s) in
      acknowledge ticket Done (Actor.set_receipts ((λ r, if decide (QueueReceipt.job_id r = id)
        then QueueReceipt.Make (QueueReceipt.key_hash r) (QueueReceipt.payload_hash r) (QueueReceipt.job_id r) true else r)
        <$> Actor.receipts s) s)) s
  | QueueCommand.SetPriority id priority => with_job ticket id (λ job s,
      match QueueJob.state job with
      | TaskState.Queued | TaskState.Paused | TaskState.Failed _ | TaskState.RetryWaiting =>
          acknowledge ticket Done (on_job id (QueueJob.set_priority priority) s)
      | _ => refuse ManagerError.InvalidTransition s
      end) s
  | QueueCommand.Pause id => with_job ticket id (λ job s,
      match QueueJob.state job with
      | TaskState.Queued | TaskState.RetryWaiting =>
          acknowledge ticket Done (on_job id (λ job, QueueJob.set_retry_at None (QueueJob.set_state TaskState.Paused job))
            (Actor.set_queue (without id (Actor.queue s)) s))
      | TaskState.Running =>
          Actor.set_dirty true (on_job id (λ job, QueueJob.set_cancel ((λ _, true) <$> QueueJob.cancel job)
            (QueueJob.set_pause_reply (Some ticket) (QueueJob.set_state TaskState.Pausing job))) s)
      | TaskState.Paused => acknowledge ticket Done s
      | _ => refuse ManagerError.InvalidTransition s
      end) s
  | QueueCommand.Resume id => with_job ticket id (λ job s,
      if resumable (QueueJob.state job) then
        acknowledge ticket Done (Actor.set_queue (without id (Actor.queue s) ++ [id]) (on_job id resumed s))
      else refuse ManagerError.InvalidTransition s) s
  | QueueCommand.ResumeAll => acknowledge ticket Done (resume_each (resume_order s) s)
  | QueueCommand.GlobalRate rate => acknowledge ticket Done (Actor.set_config (Config.set_global rate (Actor.config s)) s)
  | QueueCommand.JobRate id rate => with_job ticket id (λ job s,
      acknowledge ticket Done (on_job id (λ job, QueueJob.set_options (Options.set_rate rate (QueueJob.options job)) job) s)) s
  end.

(** ** A turn *)

(** The [select!]: a branch that is disabled, or a task that is none, is a tick. *)
Definition select (later : Z) (e : Event) (s : Actor.t) : Actor.t :=
  match e with
  | Joined task outcome => on_joined later task outcome s
  | Received ticket c path binding =>
      if Actor.closing s then s else on_command ticket c path binding (record (Heard ticket c) s)
  | NoMore =>
      if Actor.closing s then s else Actor.set_dirty true (stop (Actor.set_closed true (Actor.set_closing true s)))
  | Tick => s
  end.
(** What the workers reported of their progress. *)
Definition reported (s : Actor.t) (report : Z * Z) : Actor.t :=
  match take_worker report.1 (Actor.workers s) with
  | Some (id, _) => on_job id (QueueJob.set_progress report.2) s
  | None => s
  end.
(** The end of [run]. *)
Definition finish_run (s : Actor.t) : Actor.t :=
  let s := if Actor.dirty s && bool_decide (Actor.failure s = None) then
      let '(r, s) := save_state s in match r with Err e => Actor.set_failure (Some e) s | Ok _ => s end
    else s in
  let s := publish s in
  Actor.set_ended (Some (match Actor.failure s with Some e => Err e | None => Ok () end)) s.
Definition turn (t : Turn.t) (s : Actor.t) : Actor.t :=
  if bool_decide (Actor.ended s ≠ None) then s else
  let s := Actor.set_fates (Turn.fates t) (Actor.set_polls (Turn.polls t) (foldl reported s (Turn.reports t))) in
  let s := drain_acks (save_phase (begin_turn (Turn.now t) s)) in
  let s := publish (start_workers (S (length (Actor.queue s))) s) in
  if Actor.closing s && bool_decide (Actor.workers s = []) then finish_run s
  else select (Turn.later t) (Turn.event t) s.

(** ** Starting the actor *)

Definition launch (c : Config.t) (jobs : list (Z * QueueJob.t)) (last_id : Z) (receipts : list QueueReceipt.t) (held : bool)
    (trace : list Moment) : Actor.t :=
  publish (Actor.Make c jobs (fst <$> jobs) last_id receipts held [] 0 (Config.global_bytes_per_second c) false false None true [] [] [] []
    None (Opened :: trace)).
(** [start_configured]. *)
Definition start_configured (c : Config.t) : result ManagerError.t Actor.t :=
  _ ← Config.validate c; Ok (launch c [] 0 [] false []).
Definition recovered_state (s : TaskState.t) : TaskState.t :=
  match s with TaskState.Completed | TaskState.Failed _ | TaskState.Paused => s | _ => TaskState.Paused end.
Fixpoint open_jobs (saved : list SavedJob.t) (paths : list PathAnswer) (jobs : list (Z * QueueJob.t))
    : result ManagerError.t (list (Z * QueueJob.t)) :=
  match saved with
  | [] => Ok jobs
  | j :: saved =>
      let o := SavedJob.options j in
      _ ← validate_options url_parse header_value ManagerError.InvalidOptions o;
      key ← match default PathLost (head paths) with
            | PathKey key => Ok key | PathRefused => Err ManagerError.InvalidPath | PathLost => Err ManagerError.WorkerFailed
            end;
      _ ← refuse_if (existsb (λ j : Z * QueueJob.t, bool_decide (QueueJob.key j.2 = key)) jobs) ManagerError.DuplicateJob;
      _ ← refuse_if (negb (valid_limit (Options.bytes_per_second o))) ManagerError.InvalidOptions;
      origin ← origin_of o;
      open_jobs saved (drop 1 paths) (jobs ++ [(SavedJob.id j, QueueJob.Make o origin (SavedJob.priority j) key
        (recovered_state (SavedJob.state j)) (SavedJob.progress j) None None (SavedJob.attempts j) None (Options.bytes_per_second o))])
  end.
(** The place in the queue, [usize::MAX] for none. *)
Definition rank (queue : list Z) (id : Z) : Z :=
  match list_find (eq id) queue with Some (i, _) => Z.of_nat i | None => usize_max end.
(** [Manager::open] over a row and the trace that led to it; [fate] is that of the first save. *)
Definition open_queue (config : Config.t) (fate : SaveFate) (paths : list PathAnswer) (trace : list Moment)
    : result ManagerError.t Actor.t :=
  _ ← Config.validate config;
  found ← load url_parse header_value sha256 secrets (last_row trace);
  start ← match found with
    | Some saved => Ok (saved, trace)
    | None =>
        let '(r, row) := save sha256 secrets fate (last_row trace) (Snapshot.empty config) in
        _ ← r; Ok (Snapshot.empty config, Wrote row :: trace)
    end;
  let '(saved, trace) := start in
  _ ← refuse_if (negb (valid_limit (Config.global_bytes_per_second (Snapshot.config saved)))) ManagerError.InvalidLimits;
  jobs ← open_jobs (Snapshot.jobs saved) paths [];
  let jobs := sort_by_key (λ j : Z * QueueJob.t, rank (Snapshot.queue saved) j.1) jobs in
  Ok (launch (Snapshot.config saved) jobs (Snapshot.last_id saved) (Snapshot.receipts saved) true trace).
End Queue.
