(* ===== verification/ManagerCalls.v ===== *)
(** * The calls of the queue of the first engine

    The methods of [Manager] (manager.rs): what each checks before its command is sent, and the
    hashes that make an admission idempotent.  Paths are those of Unix: absolute from the slash,
    components between slashes. *)

From S2P Require Import Prelude.
From S2P Require Import Files.
From S2P Require Import StorageFile.
From S2P Require Import ResumePolicy.
From S2P Require Import Options.
From S2P Require Import QueueStore.
From S2P Require Import Manager.

(** ** Paths *)

Definition is_absolute (path : list Z) : bool := bool_decide (head path = Some 47).
(** [components]: empty ones and inner dots are not seen. *)
Definition components (path : list Z) : list (list Z) :=
  filter (λ c, c ≠ [] ∧ c ≠ [46]) (split_on 47 path).
(** An absolute path put together from its components. *)
Definition from_components (l : list (list Z)) : list Z :=
  match l with [] => [47] | _ => concat (cons 47 <$> l) end.

(** ** Idempotent admission *)

(** [FHD.admission.payload.v1] and [FHD.admission.key.v1], each ended by a zero byte. *)
Definition ADMISSION : list Z := [70; 72; 68; 46; 97; 100; 109; 105; 115; 115; 105; 111; 110; 46].
Definition PAYLOAD_PREFIX : list Z := ADMISSION ++ [112; 97; 121; 108; 111; 97; 100; 46; 118; 49; 0].
Definition KEY_PREFIX : list Z := ADMISSION ++ [107; 101; 121; 46; 118; 49; 0].

Inductive Call : Type :=
| CallEnqueue (options : Options.t) (priority : Priority.t)
| CallEnqueueOnce (key : list Z) (options : Options.t) (priority : Priority.t)
| CallSetGlobalRate (rate : option Z)
| CallSetJobRate (id : Z) (rate : option Z)
| CallSetPriority (id : Z) (priority : Priority.t)
| CallPause (id : Z)
| CallResume (id : Z)
| CallResumeAll
| CallRefresh (id : Z) (url : list Z)
| CallForget (id : Z).

Section Calls.
Context (url_parse : list Z → option Url.t) (header_value : list Z → bool) (sha256 : list Z → list Z).

(** What is hashed of an admission. *)
Definition admission_payload (o : Options.t) (priority : Priority.t) : result ManagerError.t (list Z) :=
  _ ← refuse_if (negb (is_absolute (Options.job_dir o)) || bool_decide ([46; 46] ∈ components (Options.job_dir o)))
        ManagerError.InvalidPath;
  url ← map_err (λ _, ManagerError.InvalidOptions) (parse_url url_parse (Options.url o) (Options.allow_http o));
  let canonical := Options.set_job_dir (from_components (components (Options.job_dir o)))
    (Options.set_link (Url.as_str url) (Options.refresh_from o) o) in
  bytes ← encode_options_v2 canonical;
  Ok (PAYLOAD_PREFIX ++ bytes ++ [Priority.rank priority]).
Definition admission_key (key : list Z) : list Z := KEY_PREFIX ++ put_u64 (text_len key) ++ utf8 key.
Definition admission_hashes (key : list Z) (o : Options.t) (priority : Priority.t) : result ManagerError.t AdmissionHashes.t :=
  _ ← refuse_if (bool_decide (key = []) || bool_decide (128 < text_len key)
        || negb (forallb (λ c, bool_decide (33 ≤ c ≤ 126)) key)) ManagerError.InvalidIdempotencyKey;
  _ ← validate_options url_parse header_value ManagerError.InvalidOptions o;
  payload ← admission_payload o priority;
  Ok (AdmissionHashes.Make (sha256 (admission_key key)) (sha256 payload)).

(** The command a call sends, or its refusal.  A caller of a closed queue is told so when the command cannot be sent. *)
Definition submit (durable : bool) (c : Call) : result ManagerError.t QueueCommand.t :=
  match c with
  | CallEnqueue o priority =>
      _ ← validate_options url_parse header_value ManagerError.InvalidOptions o;
      Ok (QueueCommand.Enqueue o priority None)
  | CallEnqueueOnce key o priority =>
      _ ← refuse_if (negb durable) ManagerError.NotDurable;
      hashes ← admission_hashes key o priority;
      Ok (QueueCommand.Enqueue o priority (Some hashes))
  | CallSetGlobalRate rate =>
      _ ← refuse_if (negb (valid_limit rate)) ManagerError.InvalidOptions; Ok (QueueCommand.GlobalRate rate)
  | CallSetJobRate id rate =>
      _ ← refuse_if (negb (valid_limit rate)) ManagerError.InvalidOptions; Ok (QueueCommand.JobRate id rate)
  | CallSetPriority id priority => Ok (QueueCommand.SetPriority id priority)
  | CallPause id => Ok (QueueCommand.Pause id)
  | CallResume id => Ok (QueueCommand.Resume id)
  | CallResumeAll => Ok QueueCommand.ResumeAll
  | CallRefresh id url =>
      _ ← map_err (λ _, ManagerError.InvalidOptions) (parse_url url_parse url true); Ok (QueueCommand.Refresh id url)
  | CallForget id => Ok (QueueCommand.Forget id)
  end.
End Calls.
