(* ===== verification/ManagerInv.v ===== *)
(** * The books of the queue of the first engine

    What holds of the actor of [Manager] at every point: its jobs one by one, its order, its receipts and
    its workers; and that stopping, requeueing, going live and changing one job keep it. *)

From S2P Require Import Prelude.
From S2P Require Import Files.
From S2P Require Import StorageFile.
From S2P Require Import ResumePolicy.
From S2P Require Import TransferStore.
From S2P Require Import Options.
From S2P Require Import OptionsThm.
From S2P Require Import QueueStore.
From S2P Require Import QueueStoreThm.
From S2P Require Import Manager.

(** ** Jobs by identifier *)

Notation ids jobs := (fst <$> jobs).
Section Lists.
Implicit Types (jobs : list (Z * QueueJob.t)) (id : Z).

Lemma find_job_in id jobs job : find_job id jobs = Some job → (id, job) ∈ jobs.
Proof. induction jobs as [|[k j] jobs IH]; cbn; [done|]. case_decide; [intros [= ->]; subst; by left|right; auto]. Qed.
Lemma find_job_None id jobs : find_job id jobs = None ↔ id ∉ ids jobs.
Proof.
  induction jobs as [|[k j] jobs IH]; cbn; [set_solver|]. case_decide as E; [subst; split; [done|set_solver]|].
  rewrite IH. set_solver.
Qed.
Lemma in_find_job id jobs job : NoDup (ids jobs) → (id, job) ∈ jobs → find_job id jobs = Some job.
Proof.
  induction jobs as [|[k j] jobs IH]; cbn; [set_solver|]. intros [Hk Hnd]%NoDup_cons [[= -> ->]|Hin]%elem_of_cons; [by rewrite decide_True|].
  rewrite decide_False; [auto|]. intros ->. apply Hk. by apply (list_elem_of_fmap_2 fst) in Hin.
Qed.
Lemma ids_map (f : QueueJob.t → QueueJob.t) jobs : ids (prod_map (@id Z) f <$> jobs) = ids jobs.
Proof. rewrite <-list_fmap_compose. by apply list_fmap_ext. Qed.
Lemma ids_alter id f jobs : ids (alter_job id f jobs) = ids jobs.
Proof. induction jobs as [|[k j] jobs IH]; cbn; [done|]. case_decide; cbn; [done|by rewrite IH]. Qed.
Lemma find_job_map id (f : QueueJob.t → QueueJob.t) jobs : find_job id (prod_map (@Datatypes.id Z) f <$> jobs) = f <$> find_job id jobs.
Proof. induction jobs as [|[k j] jobs IH]; cbn; [done|]. case_decide; done. Qed.
Lemma find_job_alter id f jobs : find_job id (alter_job id f jobs) = f <$> find_job id jobs.
Proof. induction jobs as [|[k j] jobs IH]; cbn; [done|]. case_decide; cbn; [by rewrite decide_True|by rewrite decide_False]. Qed.
Lemma find_job_alter_ne id id' f jobs : id' ≠ id → find_job id' (alter_job id f jobs) = find_job id' jobs.
Proof.
  intros Hne. induction jobs as [|[k j] jobs IH]; cbn; [done|]. case_decide as E; cbn; [subst; by rewrite !decide_False|]. by rewrite IH.
Qed.
Lemma alter_job_ext id f g jobs : (∀ job, find_job id jobs = Some job → f job = g job) → alter_job id f jobs = alter_job id g jobs.
Proof.
  induction jobs as [|[k j] jobs IH]; cbn; [done|]. case_decide as E; intros H; [by rewrite H|]. by rewrite IH.
Qed.
Lemma find_job_app id jobs k job : find_job id (jobs ++ [(k, job)]) =
  match find_job id jobs with Some j => Some j | None => if decide (k = id) then Some job else None end.
Proof. induction jobs as [|[k' j] jobs IH]; cbn; [done|]. destruct (decide (k' = id)); [done|exact IH]. Qed.
Lemma remove_job_in id jobs k job : NoDup (ids jobs) → (k, job) ∈ remove_job id jobs ↔ (k, job) ∈ jobs ∧ k ≠ id.
Proof.
  induction jobs as [|[k' j] jobs IH]; cbn; [set_solver|]. intros [Hk Hnd]%NoDup_cons. case_decide as E.
  - subst. split; [|intros [[[= -> ->]|?]%elem_of_cons ?]; done]. intros Hin. split; [by right|]. intros ->.
    apply Hk. by apply (list_elem_of_fmap_2 fst) in Hin.
  - rewrite !elem_of_cons, IH by done. split; [intros [[= -> ->]|?]; [auto|tauto]|tauto].
Qed.
Lemma remove_job_ids id jobs : NoDup (ids jobs) → NoDup (ids (remove_job id jobs)) ∧
  ∀ k, k ∈ ids (remove_job id jobs) ↔ k ∈ ids jobs ∧ k ≠ id.
Proof.
  intros Hnd. split.
  - induction jobs as [|[k' j] jobs IH]; cbn; [done|]. apply NoDup_cons in Hnd as [Hk Hnd]. case_decide; [done|].
    cbn. apply NoDup_cons. split; [|auto]. intros Hin. apply Hk. apply list_elem_of_fmap in Hin as ([k j']&->&Hin).
    apply remove_job_in in Hin as [Hin _]; [|done]. by apply (list_elem_of_fmap_2 fst) in Hin.
  - intros k. rewrite !list_elem_of_fmap. split.
    + intros ([k' j]&->&Hin). apply remove_job_in in Hin as [Hin Hne]; [|done]. split; [|done]. by eexists (k', j).
    + intros [([k' j]&->&Hin) Hne]. exists (k', j). split; [done|]. by apply remove_job_in.
Qed.
Lemma remove_job_length id jobs : (length (remove_job id jobs) ≤ length jobs)%nat.
Proof. induction jobs as [|[k j] jobs IH]; cbn; [done|]. case_decide; cbn; lia. Qed.
Lemma Forall_alter (P : Z * QueueJob.t → Prop) id f jobs : Forall P jobs →
  (∀ job, find_job id jobs = Some job → P (id, job) → P (id, f job)) → Forall P (alter_job id f jobs).
Proof.
  induction 1 as [|[k j] jobs Hj Hjobs IH]; cbn; [done|]. case_decide as E; intros H; constructor; subst; try done; eauto.
Qed.
Lemma Forall_remove (P : Z * QueueJob.t → Prop) id jobs : Forall P jobs → Forall P (remove_job id jobs).
Proof. induction 1 as [|[k j] jobs Hj Hjobs IH]; cbn; [done|]. case_decide; [done|by constructor]. Qed.
Lemma Forall_prod_map (P : Z * QueueJob.t → Prop) (f : QueueJob.t → QueueJob.t) jobs : Forall P jobs →
  (∀ id job, P (id, job) → P (id, f job)) → Forall P (prod_map (@Datatypes.id Z) f <$> jobs).
Proof. intros Hj Hf. rewrite Forall_fmap. eapply Forall_impl; [exact Hj|]. intros [id job]. apply Hf. Qed.

(** How many jobs are busy on an origin. *)
Lemma active_on_nil o : active_on [] o = 0.
Proof. done. Qed.
Lemma active_on_cons k job jobs o : active_on ((k, job) :: jobs) o =
  (if decide (QueueJob.origin job = o ∧ busy (QueueJob.state job) = true) then 1 else 0) + active_on jobs o.
Proof. unfold active_on. rewrite filter_cons. cbn. case_decide; cbn; lia. Qed.
Lemma active_on_app jobs jobs' o : active_on (jobs ++ jobs') o = active_on jobs o + active_on jobs' o.
Proof. unfold active_on. rewrite filter_app, length_app. lia. Qed.
Lemma active_on_nonneg jobs o : 0 ≤ active_on jobs o.
Proof. unfold active_on. lia. Qed.
Definition calmer (f : QueueJob.t → QueueJob.t) (job : QueueJob.t) : Prop :=
  QueueJob.origin (f job) = QueueJob.origin job ∧ (busy (QueueJob.state (f job)) = true → busy (QueueJob.state job) = true).
Lemma active_on_map f jobs o : Forall (λ j : Z * QueueJob.t, calmer f j.2) jobs →
  active_on (prod_map (@Datatypes.id Z) f <$> jobs) o ≤ active_on jobs o.
Proof.
  induction 1 as [|[k j] jobs [Ho Hb] _ IH]; [done|]. change (prod_map (@Datatypes.id Z) f <$> (k, j) :: jobs) with ((k, f j) :: (prod_map (@Datatypes.id Z) f <$> jobs)). cbn in Ho, Hb. rewrite !active_on_cons, Ho.
  repeat case_decide; try lia. exfalso. naive_solver.
Qed.
Lemma active_on_alter id f jobs o : (∀ job, find_job id jobs = Some job → calmer f job) →
  active_on (alter_job id f jobs) o ≤ active_on jobs o.
Proof.
  induction jobs as [|[k j] jobs IH]; cbn [alter_job find_job]; [done|]. case_decide as E; intros H.
  - destruct (H _ eq_refl) as [Ho Hb]. rewrite !active_on_cons, Ho. repeat case_decide; try lia. exfalso. naive_solver.
  - rewrite !active_on_cons. specialize (IH H). lia.
Qed.
Lemma active_on_alter_one id f jobs o : (∀ job, find_job id jobs = Some job → QueueJob.origin (f job) = QueueJob.origin job) →
  active_on (alter_job id f jobs) o ≤ active_on jobs o + 1 ∧
  (QueueJob.origin <$> find_job id jobs ≠ Some o → active_on (alter_job id f jobs) o = active_on jobs o).
Proof.
  induction jobs as [|[k j] jobs IH]; cbn [alter_job find_job]; [lia|]. case_decide as E; intros H.
  - specialize (H _ eq_refl). rewrite !active_on_cons, H. split; [repeat case_decide; lia|]. cbn. intros Hne.
    repeat case_decide; try lia; exfalso; naive_solver.
  - rewrite !active_on_cons. destruct (IH H) as [IH1 IH2]. split; [lia|]. intros Hne. rewrite (IH2 Hne). lia.
Qed.
Lemma active_on_remove id jobs o : active_on (remove_job id jobs) o ≤ active_on jobs o.
Proof.
  induction jobs as [|[k j] jobs IH]; cbn [remove_job]; [done|]. case_decide; rewrite !active_on_cons; [|lia].
  case_decide; lia.
Qed.
Lemma alter_job_in id f jobs k job : NoDup (ids jobs) → (k, job) ∈ alter_job id f jobs →
  (k ≠ id ∧ (k, job) ∈ jobs) ∨ (k = id ∧ ∃ job', find_job id jobs = Some job' ∧ job = f job').
Proof.
  intros Hnd Hin. apply in_find_job in Hin; [|by rewrite ids_alter]. destruct (decide (k = id)) as [->|Hne].
  - right. split; [done|]. rewrite find_job_alter in Hin. destruct (find_job id jobs) as [j|]; [|done]. exists j. split; [done|].
    by injection Hin.
  - left. split; [done|]. rewrite find_job_alter_ne in Hin by done. by apply find_job_in.
Qed.
End Lists.

(** ** One job *)

Section Books.
Context (url_parse : list Z → option Url.t) (header_value : list Z → bool).

(** Options that were checked, by a caller whose values are of their types. *)
Record OptionsHeld (o : Options.t) : Prop := {
  oh_valid : validate_options url_parse header_value ManagerError.InvalidOptions o = Ok ();
  oh_policy : settled url_parse header_value (Options.request_policy o);
  oh_url : forallb scalar (Options.url o) = true;
  oh_name : forallb scalar (Options.output_name o) = true;
  oh_checkpoint : 0 ≤ Options.checkpoint_bytes o;
  oh_max : 0 ≤ Options.max_download_bytes o;
  oh_expected : Hash (Options.expected_sha256 o);
  oh_refresh : Hash (Options.refresh_from o) }.

(** Taken out of the queue and not back in it. *)
Definition off_queue (s : TaskState.t) : bool := busy s || bool_decide (s = TaskState.RetryWaiting).
(** [hot] is the job that is being started: it runs, and has no worker yet. *)
Definition cold (hot : option Z) (id : Z) (job : QueueJob.t) : Prop :=
  Some id ≠ hot ∧ QueueJob.cancel job = None ∧ QueueJob.pause_reply job = None.
Definition told (hot : option Z) (id : Z) (b : bool) : option bool := if decide (Some id = hot) then None else Some b.
(** What goes with a state: a worker that can be told to stop, and was told when the job pauses; a
    caller who waits for that; a time to try again, and a try that is left. *)
Definition StateHeld (hot : option Z) (c : Config.t) (id : Z) (job : QueueJob.t) : Prop :=
  match QueueJob.state job with
  | TaskState.Queued => cold hot id job ∧ QueueJob.retry_at job = None ∧ QueueJob.attempts job < RetrySettings.max_attempts (Config.retry c)
  | TaskState.Running => QueueJob.cancel job = told hot id false ∧ QueueJob.pause_reply job = None ∧ QueueJob.retry_at job = None
  | TaskState.Pausing =>
      QueueJob.cancel job = told hot id true ∧ (Some id = hot → QueueJob.pause_reply job = None) ∧ QueueJob.retry_at job = None
  | TaskState.Paused | TaskState.Completed | TaskState.Failed _ => cold hot id job ∧ QueueJob.retry_at job = None
  | TaskState.RetryWaiting =>
      cold hot id job ∧ is_Some (QueueJob.retry_at job) ∧ QueueJob.attempts job < RetrySettings.max_attempts (Config.retry c)
  end.
Record JobHeld (hot : option Z) (c : Config.t) (j : Z * QueueJob.t) : Prop := {
  jh_options : OptionsHeld (QueueJob.options j.2);
  jh_origin : origin_of url_parse (QueueJob.options j.2) = Ok (QueueJob.origin j.2);
  jh_progress : 0 ≤ QueueJob.progress j.2 ≤ Options.max_download_bytes (QueueJob.options j.2);
  jh_attempts : 0 ≤ QueueJob.attempts j.2 ≤ 5;
  jh_state : StateHeld hot c j.1 j.2 }.

Record BooksOf (hot : option Z) (c : Config.t) (jobs : list (Z * QueueJob.t)) (queue : list Z) (last_id : Z)
    (receipts : list QueueReceipt.t) (workers : list (Z * Z)) (next_task : Z) : Prop := {
  bk_config : Config.validate c = Ok ();
  bk_last : u64 last_id;
  bk_ids : NoDup (ids jobs);
  bk_bound : Forall (λ id, 0 < id ≤ last_id) (ids jobs);
  bk_count : Z.of_nat (length jobs) ≤ Config.max_jobs c;
  bk_keys : NoDup ((λ j, QueueJob.key j.2) <$> jobs);
  bk_jobs : Forall (JobHeld hot c) jobs;
  bk_queue : NoDup queue ∧ queue ⊆ ids jobs;
  bk_off : ∀ id job, (id, job) ∈ jobs → off_queue (QueueJob.state job) = true → id ∉ queue;
  bk_receipts : Forall (ReceiptSaved (ids jobs)) receipts;
  bk_receipt_count : Z.of_nat (length receipts) ≤ MAX_RECEIPTS;
  bk_receipt_keys : NoDup (QueueReceipt.key_hash <$> receipts);
  bk_receipt_ids : NoDup (QueueReceipt.job_id <$> receipts);
  bk_receipt_bound : Forall (λ r, QueueReceipt.job_id r ≤ last_id) receipts;
  bk_tasks : NoDup workers.*1 ∧ Forall (λ t, t < next_task) workers.*1;
  bk_owners : NoDup workers.*2;
  bk_worked : ∀ id, id ∈ workers.*2 ↔ ∃ job, (id, job) ∈ jobs ∧ busy (QueueJob.state job) = true ∧ Some id ≠ hot;
  bk_active : Z.of_nat (length workers) ≤ Config.max_active c;
  bk_origin : ∀ o, active_on jobs o ≤ Config.max_per_origin c }.
Definition Books (hot : option Z) (s : Actor.t) : Prop :=
  BooksOf hot (Actor.config s) (Actor.jobs s) (Actor.queue s) (Actor.last_id s) (Actor.receipts s) (Actor.workers s) (Actor.next_task s).

(** ** Changes of the jobs that keep the books *)

(** A change of one job that starts or ends no work. *)
Record Steady (hot : option Z) (c : Config.t) (id : Z) (job job' : QueueJob.t) : Prop := {
  st_held : JobHeld hot c (id, job) → JobHeld hot c (id, job');
  st_busy : busy (QueueJob.state job') = busy (QueueJob.state job);
  st_off : off_queue (QueueJob.state job') = true → off_queue (QueueJob.state job) = true;
  st_key : QueueJob.key job' = QueueJob.key job;
  st_origin : QueueJob.origin job' = QueueJob.origin job }.

Lemma books_map hot c jobs queue last receipts workers next f :
  (∀ id job, JobHeld hot c (id, job) → Steady hot c id job (f job)) →
  BooksOf hot c jobs queue last receipts workers next →
  BooksOf hot c (prod_map id f <$> jobs) queue last receipts workers next.
Proof.
  intros Hf [H1 H2 H3 H4 H5 H6 H7 H8 H9 H10 H11 H12 H13 H14 H15 H16 H17 H18 H19].
  assert (∀ id job, (id, job) ∈ jobs → Steady hot c id job (f job)) as Hsteady by (intros ? ? Hin; rewrite Forall_forall in H7; auto).
  assert (∀ id job, (id, job) ∈ prod_map Datatypes.id f <$> jobs ↔ ∃ job', job = f job' ∧ (id, job') ∈ jobs) as Hin.
  { intros id job. rewrite list_elem_of_fmap. split; [intros ([k j]&[= -> ->]&?); eauto|intros (j&->&?); by exists (id, j)]. }
  split; rewrite ?ids_map, ?length_fmap; try done.
  - rewrite <-list_fmap_compose. erewrite list_fmap_ext; [exact H6|]. intros i [k j] Hi. cbn.
    apply (st_key _ _ _ _ _ (Hsteady k j ltac:(by eapply list_elem_of_lookup_2))).
  - rewrite Forall_fmap. eapply Forall_impl; [exact H7|]. intros [k j] Hj. by apply (st_held _ _ _ _ _ (Hf _ _ Hj)).
  - intros id job (job'&->&Hj)%Hin Hoff. eapply H9; [exact Hj|]. by apply (st_off _ _ _ _ _ (Hsteady _ _ Hj)).
  - intros id. rewrite H17. split.
    + intros (job&Hj&Hb&Hne). exists (f job). rewrite Hin, (st_busy _ _ _ _ _ (Hsteady _ _ Hj)). eauto.
    + intros (job&(job'&->&Hj)%Hin&Hb&Hne). rewrite (st_busy _ _ _ _ _ (Hsteady _ _ Hj)) in Hb. eauto.
  - intros o. etransitivity; [apply active_on_map|apply H19]. eapply Forall_impl; [exact H7|]. intros [k j] Hj. cbn.
    split; [apply (st_origin _ _ _ _ _ (Hf _ _ Hj))|]. by rewrite (st_busy _ _ _ _ _ (Hf _ _ Hj)).
Qed.

Lemma books_alter hot c jobs queue last receipts workers next id f :
  (∀ job, (id, job) ∈ jobs → Steady hot c id job (f job)) →
  BooksOf hot c jobs queue last receipts workers next →
  BooksOf hot c (alter_job id f jobs) queue last receipts workers next.
Proof.
  intros Hf Hb. destruct (find_job id jobs) as [job|] eqn:Hfind.
  2:{ assert (alter_job id f jobs = jobs) as ->; [|done]. clear Hb Hf. induction jobs as [|[k j] jobs IH]; cbn in *; [done|].
      case_decide; [done|]. by rewrite IH. }
  pose proof (find_job_in _ _ _ Hfind) as Hjob. pose proof (Hf _ Hjob) as [Hheld Hbusy Hoff Hkey Horigin].
  destruct Hb as [H1 H2 H3 H4 H5 H6 H7 H8 H9 H10 H11 H12 H13 H14 H15 H16 H17 H18 H19].
  assert (length (alter_job id f jobs) = length jobs) as Hlen by (rewrite <-(length_fmap fst), ids_alter; apply length_fmap).
  assert (∀ j, find_job id jobs = Some j → j = job) as Hone by congruence.
  split; rewrite ?ids_alter, ?Hlen; try done.
  - assert ((λ j : Z * QueueJob.t, QueueJob.key j.2) <$> alter_job id f jobs = (λ j, QueueJob.key j.2) <$> jobs) as ->; [|done].
    clear -Hkey Hone. induction jobs as [|[k j] jobs IH]; cbn in *; [done|]. case_decide; cbn.
    + by rewrite (Hone j eq_refl), Hkey.
    + by rewrite IH.
  - apply Forall_alter; [done|]. by intros j ->%Hone.
  - intros k j [[? ?]|(->&j'&->%Hone&->)]%alter_job_in Ho; eauto.
  - intros k. rewrite H17. split.
    + intros (j&Hj&Hjb&Hne). destruct (decide (k = id)) as [->|Hk].
      * exists (f j). apply in_find_job in Hj as Hj'; [|done]. apply Hone in Hj' as ->. rewrite Hbusy. split; [|done].
        apply find_job_in. by rewrite find_job_alter, Hfind.
      * exists j. split; [|done]. apply find_job_in. rewrite find_job_alter_ne by done. by apply in_find_job.
    + intros (j&[[? ?]|(->&j'&->%Hone&->)]%alter_job_in&Hjb&Hne); [eauto| |done]. exists job. rewrite Hbusy in Hjb. auto.
  - intros o. etransitivity; [apply active_on_alter|apply H19]. intros j ->%Hone. split; [done|]. by rewrite Hbusy.
Qed.

(** *** One job changes, with its place in the queue and its worker *)

Lemma held_elsewhere hot hot' c id j : j.1 ≠ id → (∀ k, k ≠ id → (Some k = hot ↔ Some k = hot')) → JobHeld hot c j → JobHeld hot' c j.
Proof.
  intros Hne Hhot [? ? ? ? Hs]. specialize (Hhot _ Hne). split; try done. unfold StateHeld, cold, told in *.
  destruct (decide (Some j.1 = hot)) as [E|E], (decide (Some j.1 = hot')) as [E'|E']; try tauto.
  all: destruct (QueueJob.state j.2); tauto.
Qed.

Record Change (hot : option Z) (c : Config.t) (jobs : list (Z * QueueJob.t)) (queue : list Z) (workers : list (Z * Z)) (next : Z)
    (id : Z) (job job' : QueueJob.t) (hot' : option Z) (queue' : list Z) (workers' : list (Z * Z)) (next' : Z) : Prop := {
  ch_job : find_job id jobs = Some job;
  ch_held : JobHeld hot' c (id, job');
  ch_hot : ∀ k, k ≠ id → (Some k = hot ↔ Some k = hot');
  ch_key : QueueJob.key job' = QueueJob.key job;
  ch_origin : QueueJob.origin job' = QueueJob.origin job;
  ch_queue : NoDup queue' ∧ (∀ k, k ∈ queue' → k ∈ queue ∨ k = id);
  ch_off : off_queue (QueueJob.state job') = true → id ∉ queue';
  ch_tasks : NoDup workers'.*1 ∧ Forall (λ t, t < next') workers'.*1;
  ch_owners : NoDup workers'.*2;
  ch_others : ∀ k, k ≠ id → (k ∈ workers'.*2 ↔ k ∈ workers.*2);
  ch_worked : id ∈ workers'.*2 ↔ busy (QueueJob.state job') = true ∧ Some id ≠ hot';
  ch_active : Z.of_nat (length workers') ≤ Config.max_active c;
  ch_room : busy (QueueJob.state job') = true → busy (QueueJob.state job) = true ∨ active_on jobs (QueueJob.origin job) < Config.max_per_origin c }.

Lemma books_change hot c jobs queue last receipts workers next id job job' hot' queue' workers' next' :
  BooksOf hot c jobs queue last receipts workers next →
  Change hot c jobs queue workers next id job job' hot' queue' workers' next' →
  BooksOf hot' c (alter_job id (λ _, job') jobs) queue' last receipts workers' next'.
Proof.
  intros [H1 H2 H3 H4 H5 H6 H7 H8 H9 H10 H11 H12 H13 H14 H15 H16 H17 H18 H19] [Hjob Hheld Hhot Hkey Horigin [Hq Hqi] Hoff Ht Ho Hothers Hw Ha Hroom].
  pose proof (find_job_in _ _ _ Hjob) as Hin.
  assert (length (alter_job id (λ _, job') jobs) = length jobs) as Hlen by (rewrite <-(length_fmap fst), ids_alter; apply length_fmap).
  assert (∀ k j, (k, j) ∈ alter_job id (λ _, job') jobs ↔ (k ≠ id ∧ (k, j) ∈ jobs) ∨ (k = id ∧ j = job')) as Hmem.
  { intros k j. split; [intros [?|(->&?&_&->)]%alter_job_in; auto|]. intros [[Hne Hj]|[-> ->]].
    - apply find_job_in. rewrite find_job_alter_ne by done. by apply in_find_job.
    - apply find_job_in. by rewrite find_job_alter, Hjob. }
  split; rewrite ?ids_alter, ?Hlen; try done.
  - assert ((λ j : Z * QueueJob.t, QueueJob.key j.2) <$> alter_job id (λ _, job') jobs = (λ j, QueueJob.key j.2) <$> jobs) as ->; [|done].
    clear -Hkey Hjob. induction jobs as [|[k j] jobs IH]; cbn in *; [done|]. case_decide; cbn; [by simplify_eq; rewrite Hkey|by rewrite IH].
  - rewrite Forall_forall. intros [k j] [[Hne Hj]|[-> ->]]%Hmem; [|done]. rewrite Forall_forall in H7. eapply (held_elsewhere hot); eauto.
  - split; [done|]. destruct H8 as [_ H8]. intros k Hk. destruct (Hqi k Hk) as [?| ->]; [auto|]. by apply (list_elem_of_fmap_2 fst) in Hin.
  - intros k j [[Hne Hj]|[-> ->]]%Hmem Hof Hk; [|by apply Hoff]. destruct (Hqi k Hk) as [?|?]; [by eapply H9|done].
  - intros k. destruct (decide (k = id)) as [->|Hne].
    + rewrite Hw. split; [intros ?; exists job'; rewrite Hmem; auto|]. intros (j&[[? ?]|[_ ->]]%Hmem&?&?); done.
    + rewrite Hothers, H17 by done. split; intros (j&Hj&?&?); exists j; [rewrite Hmem|apply Hmem in Hj as [[? ?]|[? ?]]];
        rewrite ?Hhot in * by done; auto. by rewrite <-Hhot in *.
  - intros o. specialize (H19 o). destruct (active_on_alter_one id (λ _, job') jobs o) as [Hone Hsame]; [by rewrite Hjob; intros ? [= <-]|].
    destruct (decide (QueueJob.origin job = o)) as [<-|Hne]; [|rewrite Hsame; [done|rewrite Hjob; cbn; congruence]].
    destruct (busy (QueueJob.state job')) eqn:Hb.
    + destruct (Hroom eq_refl) as [Hb'|Hlt]; [|lia]. etransitivity; [apply active_on_alter|exact H19]. rewrite Hjob. by intros ? [= <-].
    + etransitivity; [apply active_on_alter|exact H19]. rewrite Hjob. intros ? [= <-]. by split; [|rewrite Hb].
Qed.
End Books.
