(* ===== verification/ManagerSteps.v ===== *)
(** * The phases of a turn keep the books

    Stopping, requeueing, saving and starting workers, in the order of the loop of [run] (manager.rs). *)

From S2P Require Import Prelude.
From S2P Require Import Files.
From S2P Require Import StorageFile.
From S2P Require Import ResumePolicy.
From S2P Require Import TransferStore.
From S2P Require Import Options.
From S2P Require Import OptionsThm.
From S2P Require Import QueueStore.
From S2P Require Import QueueStoreThm.
From S2P Require Import Manager.
From S2P Require Import ManagerInv.

Section Steps.
Context (url_parse : list Z → option Url.t) (header_value : list Z → bool) (sha256 : list Z → list Z) (secrets : Secrets.t).
Notation Books := (Books url_parse header_value).
Notation BooksOf := (BooksOf url_parse header_value).
Notation JobHeld := (JobHeld url_parse header_value).
Notation Steady := (Steady url_parse header_value).
Notation save_state := (save_state sha256 secrets).

(** ** Changes of all jobs *)

Ltac by_state := unfold StateHeld, cold, told in *; cbn in *; repeat case_decide; simplify_eq/=; try done; try lia; try tauto.

Lemma stop_steady hot c id job : JobHeld hot c (id, job) → Steady hot c id job (stop_job job).
Proof.
  intros [H1 H2 H3 H4 H5]. unfold stop_job. cbn in *. unfold StateHeld in H5. destruct (QueueJob.state job) eqn:Hs;
    split; cbn in *; rewrite ?Hs; try done; intros _; split; cbn; try done; unfold StateHeld; cbn; rewrite ?Hs; try done.
  - destruct H5 as [[? ?] [? ?]]. done.
  - destruct H5 as (->&->&?). by_state.
  - destruct H5 as [[? ?] [? ?]]. done.
Qed.
Lemma stop_books hot s : Books hot s → Books hot (stop s).
Proof. intros Hb. apply books_map; [|exact Hb]. intros id job Hj. by apply stop_steady. Qed.
Lemma go_live_books hot s : Books hot s → Books hot (go_live s).
Proof. intros Hb. apply books_map; [|exact Hb]. intros id job [H1 H2 H3 H4 H5]. split; cbn; try done. Qed.
Lemma reported_books s r :
  (∀ id rest job, take_worker r.1 (Actor.workers s) = Some (id, rest) → find_job id (Actor.jobs s) = Some job →
    0 ≤ r.2 ≤ Options.max_download_bytes (QueueJob.options job)) →
  Books None s → Books None (reported s r).
Proof.
  intros Hr Hb. unfold reported. destruct (take_worker _ _) as [[id rest]|] eqn:Ht; [|done].
  apply books_alter; [|exact Hb]. intros job Hjob%in_find_job; [|apply Hb]. specialize (Hr _ _ _ eq_refl Hjob).
  split; cbn; try done. intros [H1 H2 H3 H4 H5]. by split.
Qed.

Lemma retry_due_books now s : Books None s → Books None (retry_due now s).
Proof.
  intros Hb. unfold retry_due. set (due := ids (filter _ _)).
  assert (∀ k, k ∈ due ↔ ∃ job, (k, job) ∈ Actor.jobs s ∧ retry_is_due now job = true) as Hdue.
  { intros k. unfold due. rewrite list_elem_of_fmap. split.
    - intros ([k' job]&->&[Hd Hin]%list_elem_of_filter). eauto.
    - intros (job&Hin&Hd). exists (k, job). split; [done|]. by apply list_elem_of_filter. }
  assert (∀ job, retry_is_due now job = true → QueueJob.state job = TaskState.RetryWaiting) as Hwait.
  { intros job. unfold retry_is_due. rewrite andb_true_iff, bool_decide_eq_true. tauto. }
  assert (Books None (Actor.set_jobs (prod_map id (requeue now) <$> Actor.jobs s) s)) as Hb'.
  { apply books_map; [|exact Hb]. intros id job [H1 H2 H3 H4 H5]. unfold requeue. destruct (retry_is_due now job) eqn:E; [|done].
    unfold StateHeld in H5. cbn in H5. rewrite (Hwait _ E) in H5. destruct H5 as ([? [? ?]]&?&?).
    split; cbn; rewrite ?(Hwait _ E); try done. }
  destruct Hb as [_ _ Hnd _ _ _ _ [Hq Hsub] Hoff _ _ _ _ _ _ _ _ _ _].
  destruct Hb' as [H1 H2 H3 H4 H5 H6 H7 H8 H9 H10 H11 H12 H13 H14 H15 H16 H17 H18 H19]. cbn in *. split; try done; cbn.
  - split.
    + apply NoDup_app. split; [done|]. split; [|by apply NoDup_fmap_filter]. intros k Hk (job&Hin&Hd)%Hdue.
      apply (Hoff _ _ Hin); [|done]. by rewrite (Hwait _ Hd).
    + rewrite ids_map. intros k. rewrite elem_of_app, Hdue. intros [?|(job&Hin&_)]; [auto|]. by apply (list_elem_of_fmap_2 fst) in Hin.
  - intros k job Hin Ho. apply list_elem_of_fmap in Hin as ([k' job']&[= -> ->]&Hin). rewrite elem_of_app, Hdue.
    unfold requeue in Ho. destruct (retry_is_due now job') eqn:E; [done|]. intros [Hk|(job''&Hin'&Hd)]; [by eapply Hoff|].
    apply in_find_job in Hin, Hin'; [|done..]. congruence.
Qed.

(** ** Saving changes no books *)

Lemma save_state_frame s r s' : save_state s = (r, s') →
  ∃ h f tr, s' = Actor.set_held h (Actor.set_fates f (Actor.set_trace tr s)).
Proof.
  unfold save_state, record. destruct (negb _).
  - intros [= _ <-]. exists (Actor.held s), (Actor.fates s), (Actor.trace s). by destruct s.
  - destruct (default _ _) as [f|b].
    + destruct (save _ _ _ _ _) as [r' row]. intros [= _ <-].
      exists (Actor.held s), (drop 1 (Actor.fates s)), (Wrote row :: Actor.trace s). by destruct s.
    + destruct (save _ _ _ _ _) as [r' row]. intros [= _ <-].
      exists false, (drop 1 (Actor.fates s)), (Wrote row :: Actor.trace s). by destruct s.
Qed.
Lemma save_state_books hot s r s' : save_state s = (r, s') → Books hot s → Books hot s'.
Proof. intros (h&f&tr&->)%save_state_frame Hb. exact Hb. Qed.
Lemma abandon_books hot e s : Books hot s → Books hot (abandon e s).
Proof. intros Hb. apply stop_books. exact Hb. Qed.
Lemma poll_frame s b s' : poll s = (b, s') → s' = Actor.set_closed b (Actor.set_polls (drop 1 (Actor.polls s)) s).
Proof. by intros [= <- <-]. Qed.
Lemma begin_turn_books now s : Books None s → Books None (begin_turn now s).
Proof.
  intros Hb. unfold begin_turn. destruct (poll s) as [gone s'] eqn:Hp. apply poll_frame in Hp as ->.
  assert (∀ s1, Books None s1 → Books None (if Actor.closing s1 then s1 else retry_due now s1)) as H.
  { intros s1 Hs1. destruct (Actor.closing s1); [done|]. by apply retry_due_books. }
  apply H. destruct (_ && _); [|exact Hb]. by apply (stop_books None (Actor.set_closed true (Actor.set_closing true s))).
Qed.
Lemma save_phase_books s : Books None s → Books None (save_phase sha256 secrets s).
Proof.
  intros Hb. unfold save_phase. destruct (_ && _); [|done]. destruct (save_state s) as [r s'] eqn:Hs.
  pose proof (save_state_books _ _ _ _ Hs Hb) as Hb'. destruct r as [[]|e]; [exact (go_live_books _ _ Hb')|exact (abandon_books _ e _ Hb')].
Qed.
Lemma drain_acks_frame s : ∃ tr, drain_acks s = Actor.set_acks [] (Actor.set_trace (tr ++ Actor.trace s) s) ∧
  tr = reverse ((λ '(ticket, a), Answered ticket (match Actor.failure s with Some e => Err e | None => Ok a end)) <$> Actor.acks s).
Proof.
  unfold drain_acks. eexists. split; [|reflexivity]. f_equal. generalize (Actor.acks s) as l.
  assert (∀ l σ, Actor.failure σ = Actor.failure s →
    foldl (λ σ '(ticket, a), answer ticket (match Actor.failure σ with Some e => Err e | None => Ok a end) σ) σ l =
    Actor.set_trace (reverse ((λ '(ticket, a), Answered ticket (match Actor.failure s with Some e => Err e | None => Ok a end)) <$> l)
      ++ Actor.trace σ) σ) as Hfold.
  { induction l as [|[t a] l IH]; intros σ Hσ; [by destruct σ|]. cbn [foldl]. rewrite fmap_cons, reverse_cons, <-app_assoc.
    rewrite IH by done. rewrite Hσ. by destruct σ. }
  intros l. by apply Hfold.
Qed.
Lemma drain_acks_books s : Books None s → Books None (drain_acks s).
Proof. destruct (drain_acks_frame s) as (tr&->&_). intros Hb. exact Hb. Qed.

(** ** Starting *)

Lemma next_from_spec jobs m queue : ∀ index selected i p, next_from jobs m index queue selected = Some (i, p) →
  selected = Some (i, p) ∨ ∃ k id job, i = (index + k)%nat ∧ queue !! k = Some id ∧ find_job id jobs = Some job ∧
    QueueJob.state job = TaskState.Queued ∧ active_on jobs (QueueJob.origin job) < m ∧ QueueJob.priority job = p.
Proof.
  induction queue as [|id queue IH]; intros index selected i p; cbn; [by left|]. intros [Hsel|H]%IH.
  - destruct (find_job id jobs) as [job|] eqn:Hj; [|by left]. case_decide as Hst; [by left|]. case_decide as Ha; [by left|].
    assert (active_on jobs (QueueJob.origin job) < m) by lia.
    destruct selected as [[i' p']|]; [case_decide; [|by left]|]; injection Hsel as <- <-; right; exists 0%nat, id, job; split_and!; try done; lia.
  - destruct H as (k&id'&job&->&Hk&Hrest). right. exists (S k), id', job. split; [lia|done].
Qed.
Lemma next_eligible_spec jobs queue m i : next_eligible jobs queue m = Some i → ∃ id job, queue !! i = Some id ∧
  find_job id jobs = Some job ∧ QueueJob.state job = TaskState.Queued ∧ active_on jobs (QueueJob.origin job) < m.
Proof.
  unfold next_eligible. destruct (next_from _ _ _ _ _) as [[i' p]|] eqn:E; [|done]. intros [= <-].
  apply next_from_spec in E as [?|(k&id&job&->&?&?&?&?&?)]; [done|]. exists id, job. by cbn.
Qed.
Lemma alter_alter id f g jobs : alter_job id f (alter_job id g jobs) = alter_job id (f ∘ g) jobs.
Proof. induction jobs as [|[k j] jobs IH]; cbn; [done|]. case_decide; cbn; [by rewrite decide_True|by rewrite decide_False, IH]. Qed.
Lemma alter_const id f jobs job : find_job id jobs = Some job → alter_job id f jobs = alter_job id (λ _, f job) jobs.
Proof. intros H. apply alter_job_ext. intros ? ?. congruence. Qed.

Lemma queue_without_index i queue id : NoDup queue → queue !! i = Some id → NoDup (delete i queue : list Z) ∧ id ∉ (delete i queue : list Z) ∧
  delete i queue ⊆ queue ∧ (∀ k, k ∈ queue → k = id ∨ k ∈ (delete i queue : list Z)).
Proof.
  intros Hnd Hi. rewrite delete_take_drop. pose proof (take_drop_middle _ _ _ Hi) as E. symmetry in E.
  set (front := take i queue) in *. set (back := drop (S i) queue) in *. clearbody front back. subst queue. clear Hi.
  apply NoDup_app in Hnd as (H1&H2&[H3 H4]%NoDup_cons). split_and!.
  - apply NoDup_app. split; [done|]. split; [|done]. intros x Hx Hx'. apply (H2 x Hx). by right.
  - rewrite elem_of_app. intros [Hx|Hx]; [|done]. apply (H2 id Hx). by left.
  - intros x. rewrite !elem_of_app, elem_of_cons. tauto.
  - intros x. rewrite !elem_of_app, elem_of_cons. tauto.
Qed.

(** The job taken out of the queue is prepared; it is the hot one until it has a worker. *)
Lemma prepare_books s i id job : Books None s → Actor.queue s !! i = Some id → find_job id (Actor.jobs s) = Some job →
  QueueJob.state job = TaskState.Queued → active_on (Actor.jobs s) (QueueJob.origin job) < Config.max_per_origin (Actor.config s) →
  Books (Some id) (on_job id prepare (Actor.set_queue (delete i (Actor.queue s)) s)).
Proof.
  intros Hb Hi Hj Hst Hact. unfold on_job, Manager.on_job. cbn. rewrite (alter_const id prepare _ job Hj).
  pose proof (bk_queue _ _ _ _ _ _ _ _ _ _ Hb) as [Hq _]. destruct (queue_without_index _ _ _ Hq Hi) as (Hq1&Hq2&Hq3&_).
  pose proof (bk_jobs _ _ _ _ _ _ _ _ _ _ Hb) as Hjobs. rewrite Forall_forall in Hjobs.
  destruct (Hjobs _ (find_job_in _ _ _ Hj)) as [H1 H2 H3 H4 H5]. unfold StateHeld, cold in H5. cbn in *. rewrite Hst in H5.
  destruct H5 as ((_&Hcancel&Hreply)&Hretry&Hatt). pose proof (config_bounds _ (bk_config _ _ _ _ _ _ _ _ _ _ Hb)) as (_&_&_&_&Hmax&_).
  eapply books_change; [exact Hb|]. split; cbn; try done.
  - split; cbn; try done; [unfold saturating_add, u8_max; lia|]. unfold StateHeld, told. cbn. by rewrite decide_True.
  - intros k Hk. split; [done|]. by intros [= ->].
  - split; [done|]. intros k Hk. left. by apply Hq3.
  - apply Hb.
  - apply Hb.
  - split; [|tauto]. intros Hin. apply (bk_worked _ _ _ _ _ _ _ _ _ _ Hb) in Hin as (j&Hin&Hbusy&_).
    apply in_find_job in Hin; [|apply Hb]. simplify_eq. by rewrite Hst in Hbusy.
  - apply Hb.
  - by right.
Qed.
(** It is paused instead when the save fails or the callers are gone. *)
Lemma unprepare_books s id job : Books (Some id) s → find_job id (Actor.jobs s) = Some job → Actor.queue s ⊆ ids (Actor.jobs s) →
  id ∉ Actor.queue s → Books None (on_job id (QueueJob.set_state TaskState.Paused) s).
Proof.
  intros Hb Hj Hsub Hnot. unfold Manager.on_job. cbn. rewrite (alter_const id _ _ job Hj).
  pose proof (bk_jobs _ _ _ _ _ _ _ _ _ _ Hb) as Hjobs. rewrite Forall_forall in Hjobs.
  destruct (Hjobs _ (find_job_in _ _ _ Hj)) as [H1 H2 H3 H4 H5]. cbn in *.
  eapply books_change; [exact Hb|]. split; cbn; try done.
  - split; cbn; try done. unfold StateHeld, cold, told in *. cbn in *. assert (Some id ≠ None) by done.
    destruct (QueueJob.state job); rewrite ?decide_True in H5 by done; tauto.
  - intros k Hk. split; [|done]. by intros [= ->].
  - split; [apply Hb|auto].
  - apply Hb.
  - apply Hb.
  - rewrite (bk_worked _ _ _ _ _ _ _ _ _ _ Hb). naive_solver.
  - apply Hb.
Qed.
Lemma spawn_books s id job : Books (Some id) s → find_job id (Actor.jobs s) = Some job → QueueJob.state job = TaskState.Running →
  Z.of_nat (length (Actor.workers s)) < Config.max_active (Actor.config s) → id ∉ Actor.queue s → Books None (spawn id s).
Proof.
  intros Hb Hj Hst Hroom Hnot. unfold spawn, record, Manager.on_job. unfold ManagerInv.Books. cbn. rewrite (alter_const id _ _ job Hj).
  pose proof (bk_jobs _ _ _ _ _ _ _ _ _ _ Hb) as Hjobs. rewrite Forall_forall in Hjobs.
  destruct (Hjobs _ (find_job_in _ _ _ Hj)) as [H1 H2 H3 H4 H5]. unfold StateHeld in H5. cbn in *. rewrite Hst in H5.
  pose proof (bk_tasks _ _ _ _ _ _ _ _ _ _ Hb) as [Ht1 Ht2].
  assert (id ∉ (Actor.workers s).*2) as Hw by (rewrite (bk_worked _ _ _ _ _ _ _ _ _ _ Hb); naive_solver).
  eapply books_change; [exact Hb|]. split; cbn; rewrite ?Hst; try done.
  - split; cbn; try done. unfold StateHeld, told. cbn. rewrite Hst. by destruct H5 as (_&?&?).
  - intros k Hk. split; [|done]. by intros [= ->].
  - split; [apply Hb|auto].
  - rewrite fmap_app. split.
    + apply NoDup_app. split; [done|]. split; [|apply NoDup_singleton]. intros t Ht Ht'. apply list_elem_of_singleton in Ht' as ->.
      rewrite Forall_forall in Ht2. specialize (Ht2 _ Ht). cbn in Ht2. lia.
    + apply Forall_app. split; [eapply Forall_impl; [exact Ht2|cbn; lia]|]. constructor; [cbn; lia|done].
  - rewrite fmap_app. apply NoDup_app. split; [apply Hb|]. split; [|apply NoDup_singleton]. intros t Hin Ht'.
    by apply list_elem_of_singleton in Ht' as ->.
  - intros k Hk. rewrite fmap_app, elem_of_app. cbn. rewrite list_elem_of_singleton. naive_solver.
  - rewrite fmap_app, elem_of_app. cbn. rewrite list_elem_of_singleton. split; [done|auto].
  - rewrite length_app. cbn. lia.
  - by left.
Qed.

(** *** The loop that starts workers, as a relation *)

Record Pick (s : Actor.t) (i : nat) (id : Z) (job : QueueJob.t) : Prop := {
  pk_open : Actor.closing s = false;
  pk_room : Z.of_nat (length (Actor.workers s)) < Config.max_active (Actor.config s);
  pk_next : next_eligible (Actor.jobs s) (Actor.queue s) (Config.max_per_origin (Actor.config s)) = Some i;
  pk_queue : Actor.queue s !! i = Some id;
  pk_job : find_job id (Actor.jobs s) = Some job;
  pk_state : QueueJob.state job = TaskState.Queued;
  pk_origin : active_on (Actor.jobs s) (QueueJob.origin job) < Config.max_per_origin (Actor.config s) }.
Definition picked (s : Actor.t) (i : nat) (id : Z) : Actor.t := on_job id prepare (Actor.set_queue (delete i (Actor.queue s)) s).
Definition unpicked (id : Z) (s : Actor.t) : Actor.t := on_job id (QueueJob.set_state TaskState.Paused) s.
Inductive Starts : Actor.t → Actor.t → Prop :=
| starts_done s : Starts s s
| starts_failed s i id job e s3 : Pick s i id job → save_state (picked s i id) = (Err e, s3) → Starts s (unpicked id (abandon e s3))
| starts_gone s i id job s3 s4 : Pick s i id job → save_state (picked s i id) = (Ok (), s3) → poll s3 = (true, s4) →
    Starts s (unpicked id (Actor.set_dirty true (stop (Actor.set_closing true s4))))
| starts_spawned s i id job s3 s4 s' : Pick s i id job → save_state (picked s i id) = (Ok (), s3) → poll s3 = (false, s4) →
    Starts (spawn id s4) s' → Starts s s'.

Lemma start_workers_starts fuel s : Starts s (start_workers sha256 secrets fuel s).
Proof.
  revert s. induction fuel as [|fuel IH]; intros s; cbn [start_workers]; [constructor|].
  destruct (Actor.closing s || _) eqn:Hc; [constructor|]. apply orb_false_iff in Hc as [Hc Hroom]. apply bool_decide_eq_false in Hroom.
  destruct (next_eligible _ _ _) as [i|] eqn:Hn; [|constructor].
  destruct (next_eligible_spec _ _ _ _ Hn) as (id&job&Hi&Hj&Hst&Ha). rewrite Hi. cbn [Actor.jobs Actor.set_queue]. rewrite Hj.
  rewrite decide_False by (intros H; by apply H).
  assert (Pick s i id job) as Hp by (split; try done; lia). fold (picked s i id).
  destruct (save_state (picked s i id)) as [[[]|e] s3] eqn:Hs; [|by eapply starts_failed].
  destruct (poll s3) as [gone s4] eqn:Hpoll. destruct gone; [by eapply starts_gone|].
  assert (∃ job', find_job id (Actor.jobs s4) = Some job') as [job' ->].
  { apply poll_frame in Hpoll as ->. apply save_state_frame in Hs as (h&f&tr&->). cbn. rewrite find_job_alter, Hj. by eexists. }
  eapply starts_spawned; eauto.
Qed.

(** What is known between the save of a picked job and its worker. *)
Lemma picked_saved s i id job r s3 : Books None s → Pick s i id job → save_state (picked s i id) = (r, s3) →
  Books (Some id) s3 ∧ find_job id (Actor.jobs s3) = Some (prepare job) ∧ id ∉ Actor.queue s3 ∧
  Actor.workers s3 = Actor.workers s ∧ Actor.config s3 = Actor.config s.
Proof.
  intros Hb [Hc Hroom _ Hi Hj Hst Ha] (h&f&tr&->)%save_state_frame.
  pose proof (prepare_books _ _ _ _ Hb Hi Hj Hst Ha) as Hb'. split; [exact Hb'|].
  pose proof (bk_queue _ _ _ _ _ _ _ _ _ _ Hb) as [Hq _]. destruct (queue_without_index _ _ _ Hq Hi) as (_&Hq2&_).
  split_and!; [|exact Hq2|done|done]. cbn. by rewrite find_job_alter, Hj.
Qed.
Lemma unpicked_books s id job : Books (Some id) s → find_job id (Actor.jobs s) = Some job → id ∉ Actor.queue s →
  Books None (unpicked id s).
Proof. intros Hb Hj Hq. eapply unprepare_books; [done|done|apply Hb|done]. Qed.
Lemma spawned_books s i id job s3 b s4 : Books None s → Pick s i id job → save_state (picked s i id) = (Ok (), s3) → poll s3 = (b, s4) →
  Books None (spawn id s4).
Proof.
  intros Hb Hp Hs Hpoll. destruct (picked_saved _ _ _ _ _ _ Hb Hp Hs) as (Hb3&Hj3&Hq3&Hw3&Hc3).
  apply poll_frame in Hpoll as ->. eapply spawn_books; [exact Hb3|exact Hj3|done| |done]. cbn. rewrite Hw3, Hc3. apply Hp.
Qed.
Lemma starts_books s s' : Starts s s' → Books None s → Books None s'.
Proof.
  induction 1 as [s|s i id job e s3 Hp Hs|s i id job s3 s4 Hp Hs Hpoll|s i id job s3 s4 s' Hp Hs Hpoll _ IH]; intros Hb; [done|..];
    destruct (picked_saved _ _ _ _ _ _ Hb Hp Hs) as (Hb3&Hj3&Hq3&Hw3&Hc3).
  - eapply unpicked_books; [by apply abandon_books| |done]. cbn. by rewrite find_job_map, Hj3.
  - apply poll_frame in Hpoll as ->. eapply unpicked_books; [|cbn; by rewrite find_job_map, Hj3|done].
    by apply (stop_books _ (Actor.set_closing true _)).
  - apply IH. by eapply spawned_books.
Qed.

(** The fuel is enough: when the loop ends, it is closing, or full, or nothing in the queue may start. *)
Lemma start_workers_exhausts fuel s : (length (Actor.queue s) < fuel)%nat →
  let s' := start_workers sha256 secrets fuel s in
  Actor.closing s' = true ∨ Config.max_active (Actor.config s') ≤ Z.of_nat (length (Actor.workers s')) ∨
  next_eligible (Actor.jobs s') (Actor.queue s') (Config.max_per_origin (Actor.config s')) = None.
Proof.
  revert s. induction fuel as [|fuel IH]; intros s Hf; [lia|]. cbn [start_workers].
  destruct (Actor.closing s || _) eqn:Hc; [apply orb_true_iff in Hc as [?|?%bool_decide_eq_true]; tauto|].
  destruct (next_eligible _ _ _) as [i|] eqn:Hn; [|auto].
  destruct (next_eligible_spec _ _ _ _ Hn) as (id&job&Hi&Hj&Hst&Ha). rewrite Hi. cbn [Actor.jobs Actor.set_queue]. rewrite Hj.
  rewrite decide_False by (intros H; by apply H). fold (picked s i id).
  assert (length (delete i (Actor.queue s)) < fuel)%nat as Hlen.
  { rewrite length_delete by (by eexists). apply lookup_lt_Some in Hi. lia. }
  destruct (save_state (picked s i id)) as [[[]|e] s3] eqn:Hs; apply save_state_frame in Hs as (h&f&tr&->); [|by left].
  destruct (poll _) as [gone s4] eqn:Hpoll. apply poll_frame in Hpoll as ->. destruct gone; [by left|].
  match goal with |- context [match find_job id ?l with _ => _ end] => destruct (find_job id l) end; apply IH; exact Hlen.
Qed.
End Steps.
