(* ===== verification/ManagerCommands.v ===== *)
(** * Commands and ended workers keep the books

    The branches of the [select!] in [run] (manager.rs). *)

From S2P Require Import Prelude.
From S2P Require Import Files.
From S2P Require Import StorageFile.
From S2P Require Import ResumePolicy.
From S2P Require Import TransferStore.
From S2P Require Import Options.
From S2P Require Import OptionsThm.
From S2P Require Import QueueStore.
From S2P Require Import QueueStoreThm.
From S2P Require Import Manager.
From S2P Require Import ManagerCalls.
From S2P Require Import ManagerInv.
From S2P Require Import ManagerSteps.

(** The normal form of a link of http or https is its own normal form, and a text. *)
Class UrlNormal (url_parse : list Z → option Url.t) : Prop := {
  normal_parses raw u : url_parse raw = Some u → web u → url_parse (Url.as_str u) = Some u;
  normal_is_text raw u : url_parse raw = Some u → web u → forallb scalar (Url.as_str u) = true ∧ existsb is_control (Url.as_str u) = false }.

Section Commands.
Context (url_parse : list Z → option Url.t) (header_value : list Z → bool) (sha256 : list Z → list Z).
Context `{!UrlNormal url_parse} (sha256_length : ∀ b, length (sha256 b) = 32%nat).
Notation Books := (Books url_parse header_value).
Notation BooksOf := (BooksOf url_parse header_value).
Notation JobHeld := (JobHeld url_parse header_value).
Notation Steady := (Steady url_parse header_value).
Notation OptionsHeld := (OptionsHeld url_parse header_value).
Notation validate := (validate_options url_parse header_value ManagerError.InvalidOptions).

(** ** Options *)

Lemma validate_options_Ok o : validate o = Ok () ↔
  validate_policy url_parse header_value (Options.request_policy o) = Ok () ∧ validate_output (Options.output_name o) = Ok () ∧
  text_len (Options.url o) ≤ 16384 ∧ Options.output_name o ≠ [] ∧ text_len (Options.output_name o) ≤ 255 ∧
  text_len (Options.job_dir o) ≤ 32768 ∧ Options.checkpoint_bytes o ≠ 0 ∧ Options.checkpoint_bytes o ≤ 64 * 1024 * 1024 ∧
  Options.max_download_bytes o ≠ 0 ∧ Options.max_download_bytes o ≤ i64_max ∧ 1 ≤ Options.parallel_connections o ≤ 8 ∧
  valid_limit (Options.bytes_per_second o) = true ∧ is_ok (parse_url url_parse (Options.url o) (Options.allow_http o)) = true.
Proof.
  unfold validate_options. destruct (validate_policy _ _ _) as [[]|]; cbn; [|split; [done|by intros [? _]]].
  destruct (validate_output _) as [[]|]; cbn; [|split; [done|by intros (_&?&_)]].
  unfold refuse_if. destruct (bool_decide _ || _ || _ || _ || _ || _ || _ || _ || _ || _ || _) eqn:E.
  - split; [done|]. intros (_&_&?&?&?&?&?&?&?&?&?&Hl&Hp). rewrite Hl, Hp in E.
    rewrite !orb_true_iff, !bool_decide_eq_true, !negb_true_iff, bool_decide_eq_false in E. exfalso. destruct_or?; try lia; done.
  - rewrite !orb_false_iff, !negb_false_iff, !bool_decide_eq_false, !bool_decide_eq_true in E. split; [|done]. intros _. destruct_and!.
    split_and!; try done; lia.
Qed.
Lemma held_rate rate o : valid_limit rate = true → OptionsHeld o → OptionsHeld (Options.set_rate rate o).
Proof.
  intros Hr [H1 H2 H3 H4 H5 H6 H7 H8]. split; try done. apply validate_options_Ok. apply validate_options_Ok in H1. cbn. naive_solver.
Qed.
Lemma held_link raw u from o : parse_url url_parse raw (Options.allow_http o) = Ok u → text_len (Url.as_str u) ≤ 16384 → Hash from →
  OptionsHeld o → OptionsHeld (Options.set_link (Url.as_str u) from o) ∧
  parse_url url_parse (Url.as_str u) (Options.allow_http o) = Ok u.
Proof.
  intros Hu Hlen Hfrom [H1 H2 H3 H4 H5 H6 H7 H8]. pose proof (parse_url_Ok _ _ _ _ Hu) as (_&_&Hp&Hs&Hh&Hun&Hpw&Hf&Hhttp).
  destruct (normal_is_text _ _ Hp (conj Hs Hh)) as [Hsc Hctl].
  assert (parse_url url_parse (Url.as_str u) (Options.allow_http o) = Ok u) as Hu'.
  { unfold parse_url, refuse_if. rewrite bool_decide_eq_false_2 by lia. rewrite Hctl. cbn. rewrite (normal_parses _ _ Hp (conj Hs Hh)). cbn.
    rewrite Hun, Hpw, Hf. rewrite (bool_decide_eq_true_2 (Url.scheme u ∈ _)) by done.
    rewrite (bool_decide_eq_false_2 (Url.host_str u = None)) by (by intros E; rewrite E in Hh; destruct Hh). cbn.
    case_bool_decide as E; [|done]. by rewrite (Hhttp E). }
  split; [|done]. split; try done. apply validate_options_Ok. apply validate_options_Ok in H1. cbn. rewrite Hu'.
  destruct_and!. split_and!; try done; lia.
Qed.
Lemma held_saved o : OptionsHeld o → forallb scalar (Options.job_dir o) = true → OptionsSaved url_parse header_value o.
Proof.
  intros [H1 H2 H3 H4 H5 H6 H7 H8] Hd. apply validate_options_Ok in H1. destruct_and!. unfold i64_max in *.
  split; try done; try (split; [done|lia]); try (unfold u64, u64_max; lia); [by apply valid_rate|by apply settled_made].
Qed.

(** ** What is asked of a command *)

(** The conditions under which the methods of the manager send it, and those of the types of its
    values.  One is more than the code checks: the link of a refresh must stay within the limit once it is
    normal ([long_refresh_is_lost] of [ManagerThm.v] shows what becomes of the queue when it does not). *)
Definition Sound (c : QueueCommand.t) : Prop :=
  match c with
  | QueueCommand.Enqueue o _ admission => OptionsHeld o ∧
      ∀ h, admission = Some h → length (AdmissionHashes.key h) = 32%nat ∧ length (AdmissionHashes.payload h) = 32%nat
  | QueueCommand.GlobalRate rate | QueueCommand.JobRate _ rate => valid_limit rate = true
  | QueueCommand.Refresh _ link => ∀ http u, parse_url url_parse link http = Ok u → text_len (Url.as_str u) ≤ 16384
  | _ => True
  end.
Definition SoundBinding (b : Binding) : Prop :=
  match b with Bound i _ _ => length (Identity.original_url_fingerprint i) = 32%nat | _ => True end.
(** The values a call is made with are of their types. *)
Definition TypedOptions (o : Options.t) : Prop :=
  made url_parse header_value (Options.request_policy o) ∧ forallb scalar (Options.url o) = true ∧
  forallb scalar (Options.output_name o) = true ∧ 0 ≤ Options.checkpoint_bytes o ∧ 0 ≤ Options.max_download_bytes o ∧
  Hash (Options.expected_sha256 o) ∧ Hash (Options.refresh_from o).
Definition TypedCall (c : Call) : Prop :=
  match c with
  | CallEnqueue o _ | CallEnqueueOnce _ o _ => TypedOptions o
  | CallRefresh _ link => ∀ http u, parse_url url_parse link http = Ok u → text_len (Url.as_str u) ≤ 16384
  | _ => True
  end.
Context `{!UrlLaws url_parse}.
Lemma typed_held o : TypedOptions o → validate o = Ok () → OptionsHeld o.
Proof.
  intros (Hm&?&?&?&?&?&?) Hv. pose proof Hv as [Hpv _]%validate_options_Ok. split; try done.
  pose proof (made_settled _ _ _ Hm) as Hs. apply Hs. by eapply valid_short.
Qed.
Lemma submit_sound durable call c : TypedCall call → submit url_parse header_value sha256 durable call = Ok c → Sound c.
Proof.
  destruct call as [o p|key o p|rate|id rate|id p|id|id| |id link|id]; cbn [submit TypedCall]; intros Ht.
  - destruct (validate o) as [[]|] eqn:Hv; [|done]. intros [= <-]. split; [by apply typed_held|done].
  - destruct (refuse_if _ _) as [[]|]; [|done]. cbn. destruct (admission_hashes _ _ _ _ _ _) as [h|] eqn:Hh; [|done].
    intros [= <-]. unfold admission_hashes in Hh. destruct (refuse_if _ _) as [[]|]; [|done]. cbn in Hh.
    destruct (validate o) as [[]|] eqn:Hv; [|done]. cbn in Hh. destruct (admission_payload _ _ _) as [b|]; [|done]. injection Hh as <-.
    split; [by apply typed_held|]. intros h [= <-]. cbn. by rewrite !sha256_length.
  - unfold refuse_if. destruct (valid_limit rate) eqn:E; [|done]. by intros [= <-].
  - unfold refuse_if. destruct (valid_limit rate) eqn:E; [|done]. by intros [= <-].
  - by intros [= <-].
  - by intros [= <-].
  - by intros [= <-].
  - by intros [= <-].
  - destruct (parse_url _ _ _); [|done]. by intros [= <-].
  - by intros [= <-].
Qed.

(** ** Changes of one job *)

Lemma change_books s id job job' queue' :
  Books None s → find_job id (Actor.jobs s) = Some job → busy (QueueJob.state job) = false →
  JobHeld None (Actor.config s) (id, job') → busy (QueueJob.state job') = false →
  QueueJob.key job' = QueueJob.key job → QueueJob.origin job' = QueueJob.origin job →
  NoDup queue' → (∀ k, k ∈ queue' → k ∈ Actor.queue s ∨ k = id) → (off_queue (QueueJob.state job') = true → id ∉ queue') →
  BooksOf None (Actor.config s) (alter_job id (λ _, job') (Actor.jobs s)) queue' (Actor.last_id s) (Actor.receipts s)
    (Actor.workers s) (Actor.next_task s).
Proof.
  intros Hb Hj Hcalm Hheld Hcalm' Hkey Horigin Hq Hqi Hoff. eapply books_change; [exact Hb|]. split; try done.
  - apply Hb.
  - apply Hb.
  - rewrite Hcalm'. split; [|by intros [? _]]. intros Hin. apply (bk_worked _ _ _ _ _ _ _ _ _ _ Hb) in Hin as (j&Hin&Hbusy&_).
    apply in_find_job in Hin; [|apply Hb]. congruence.
  - apply Hb.
  - by rewrite Hcalm'.
Qed.
Lemma held_job s id job : Books None s → find_job id (Actor.jobs s) = Some job → JobHeld None (Actor.config s) (id, job).
Proof.
  intros Hb Hj%find_job_in. pose proof (bk_jobs _ _ _ _ _ _ _ _ _ _ Hb) as H. rewrite Forall_forall in H. by apply H.
Qed.
Lemma queue_held s : Books None s → NoDup (Actor.queue s) ∧ Actor.queue s ⊆ ids (Actor.jobs s).
Proof. intros Hb. apply Hb. Qed.
Lemma resumable_calm st : resumable st = true → busy st = false ∧ off_queue st = false.
Proof. by destruct st. Qed.
Lemma resumed_held c id job : Config.validate c = Ok () → resumable (QueueJob.state job) = true → JobHeld None c (id, job) →
  JobHeld None c (id, resumed job).
Proof.
  intros (_&_&_&_&Hm&_)%config_bounds Hr [H1 H2 H3 H4 H5]. split; cbn; try done. unfold StateHeld, cold in *. cbn in *.
  destruct (QueueJob.state job); try done; destruct H5 as [(_&?&?) ?]; split_and!; try done; lia.
Qed.
Lemma without_in id queue k : k ∈ without id queue ↔ k ∈ queue ∧ k ≠ id.
Proof. unfold without. rewrite list_elem_of_filter. tauto. Qed.
Lemma without_NoDup id queue : NoDup queue → NoDup (without id queue).
Proof. apply NoDup_filter. Qed.
Lemma NoDup_snoc (l : list Z) x : NoDup l → x ∉ l → NoDup (l ++ [x]).
Proof.
  intros Hl Hx. apply NoDup_app. split; [done|]. split; [|apply NoDup_singleton]. intros y Hy Hy'.
  by apply list_elem_of_singleton in Hy' as ->.
Qed.

(** *** One command at a time *)

Lemma set_priority_books s id p : Books None s → Books None (on_job id (QueueJob.set_priority p) s).
Proof. intros Hb. apply books_alter; [|exact Hb]. intros job _. split; try done. by intros [? ? ? ? ?]. Qed.
Lemma job_rate_books s id rate : valid_limit rate = true → Books None s →
  Books None (on_job id (λ job, QueueJob.set_options (Options.set_rate rate (QueueJob.options job)) job) s).
Proof.
  intros Hr Hb. apply books_alter; [|exact Hb]. intros job _. split; try done. intros [? ? ? ? ?]. split; cbn; try done. by apply held_rate.
Qed.
Lemma global_rate_books s rate : valid_limit rate = true → Books None s → Books None (Actor.set_config (Config.set_global rate (Actor.config s)) s).
Proof.
  intros Hr [H1 H2 H3 H4 H5 H6 H7 H8 H9 H10 H11 H12 H13 H14 H15 H16 H17 H18 H19]. split; try done.
  - apply config_bounds in H1 as (?&?&?&?&?&?&?&?). unfold Config.validate, refuse_if. cbn. rewrite Hr.
    rewrite (bool_decide_eq_false_2 (Config.max_jobs _ < _)) by lia. by rewrite !bool_decide_eq_true_2 by done.
  - eapply Forall_impl; [exact H7|]. intros j [? ? ? ? Hs]. split; try done.
Qed.
Lemma resume_books s id job queue' : Books None s → find_job id (Actor.jobs s) = Some job → resumable (QueueJob.state job) = true →
  NoDup queue' → (∀ k, k ∈ queue' → k ∈ Actor.queue s ∨ k = id) → Books None (Actor.set_queue queue' (on_job id resumed s)).
Proof.
  intros Hb Hj Hr Hq Hqi. unfold ManagerInv.Books. cbn. rewrite (alter_const id resumed _ job Hj).
  apply (change_books s id job); try done; [by apply resumable_calm|].
  apply resumed_held; [apply Hb|done|by apply held_job].
Qed.
Lemma resume_each_books l s : Books None s → Books None (resume_each l s).
Proof.
  revert s. induction l as [|id l IH]; intros s Hb; cbn; [done|]. apply IH.
  destruct (find_job id (Actor.jobs s)) as [job|] eqn:Hj; [|done]. destruct (resumable _) eqn:Hr; [|done].
  destruct (queue_held s Hb) as [Hq _]. cbn. case_decide as Hin.
  - assert (Books None (Actor.set_queue (Actor.queue s) (on_job id resumed s))) as H; [|exact H]. apply (resume_books s id job); auto.
  - apply (resume_books s id job); [done..|by apply NoDup_snoc|]. intros k. rewrite elem_of_app, list_elem_of_singleton. tauto.
Qed.
Lemma pause_waiting_books s id job : Books None s → find_job id (Actor.jobs s) = Some job → QueueJob.state job = TaskState.Queued ∨ QueueJob.state job = TaskState.RetryWaiting →
  Books None (on_job id (λ job, QueueJob.set_retry_at None (QueueJob.set_state TaskState.Paused job))
    (Actor.set_queue (without id (Actor.queue s)) s)).
Proof.
  intros Hb Hj Hw. unfold ManagerInv.Books. cbn. rewrite (alter_const id _ _ job Hj). destruct (queue_held s Hb) as [Hq _].
  apply (change_books s id job); try done.
  - by destruct Hw as [-> | ->].
  - destruct (held_job s id job Hb Hj) as [? ? ? ? H5]. split; cbn; try done. unfold StateHeld, cold in *. cbn in *.
    destruct Hw as [E|E]; rewrite E in H5; by destruct H5 as [[_ [? ?]] _].
  - by apply without_NoDup.
  - intros k [? _]%without_in. by left.
Qed.
Lemma pause_running_books s id job ticket : Books None s → find_job id (Actor.jobs s) = Some job → QueueJob.state job = TaskState.Running →
  Books None (on_job id (λ job, QueueJob.set_cancel ((λ _, true) <$> QueueJob.cancel job)
    (QueueJob.set_pause_reply (Some ticket) (QueueJob.set_state TaskState.Pausing job))) s).
Proof.
  intros Hb Hj Hst. apply books_alter; [|exact Hb]. intros job' Hj'%in_find_job; [|apply Hb]. simplify_eq.
  split; cbn; rewrite ?Hst; try done. intros [? ? ? ? H5]. split; cbn; try done. unfold StateHeld, told in *. cbn in *. rewrite Hst in H5.
  destruct H5 as (->&_&?). by split_and!.
Qed.
Lemma forget_books s id job : Books None s → find_job id (Actor.jobs s) = Some job → busy (QueueJob.state job) = false →
  BooksOf None (Actor.config s) (remove_job id (Actor.jobs s)) (without id (Actor.queue s)) (Actor.last_id s)
    ((λ r, if decide (QueueReceipt.job_id r = id)
      then QueueReceipt.Make (QueueReceipt.key_hash r) (QueueReceipt.payload_hash r) (QueueReceipt.job_id r) true else r) <$> Actor.receipts s)
    (Actor.workers s) (Actor.next_task s).
Proof.
  intros [H1 H2 H3 H4 H5 H6 H7 [Hq Hqi] H9 H10 H11 H12 H13 H14 H15 H16 H17 H18 H19] Hj Hcalm.
  destruct (remove_job_ids id _ H3) as [Hnd Hids]. set (mark := λ r, if decide _ then _ else _).
  assert (∀ r, QueueReceipt.key_hash (mark r) = QueueReceipt.key_hash r ∧ QueueReceipt.payload_hash (mark r) = QueueReceipt.payload_hash r ∧
    QueueReceipt.job_id (mark r) = QueueReceipt.job_id r) as Hmark by (intros r; unfold mark; by case_decide).
  assert (∀ l : list QueueReceipt.t, QueueReceipt.job_id <$> (mark <$> l) = QueueReceipt.job_id <$> l) as Hmi.
  { intros l. rewrite <-list_fmap_compose. apply list_fmap_ext. intros ? r _. apply Hmark. }
  assert (∀ l : list QueueReceipt.t, QueueReceipt.key_hash <$> (mark <$> l) = QueueReceipt.key_hash <$> l) as Hmk.
  { intros l. rewrite <-list_fmap_compose. apply list_fmap_ext. intros ? r _. apply Hmark. }
  split; rewrite ?Hmi, ?Hmk, ?length_fmap; try done.
  - rewrite Forall_forall in *. intros k [Hk _]%Hids. auto.
  - pose proof (remove_job_length id (Actor.jobs s)). lia.
  - clear -H6. induction (Actor.jobs s) as [|[k j] jobs IH]; cbn in *; [done|]. apply NoDup_cons in H6 as [Hn H6].
    case_decide; [done|]. cbn. apply NoDup_cons. split; [|auto]. intros Hin. apply Hn. clear -Hin.
    induction jobs as [|[k' j'] jobs IH]; cbn in *; [done|]. case_decide; [by right|]. cbn in Hin.
    apply elem_of_cons in Hin as [->|Hin]; [by left|right; auto].
  - by apply Forall_remove.
  - split; [by apply without_NoDup|]. intros k [Hk Hne]%without_in. apply Hids. auto.
  - intros k j [Hin Hne]%remove_job_in Hoff [Hk _]%without_in; [|done]. by eapply H9.
  - rewrite Forall_fmap. eapply Forall_impl; [exact H10|]. intros r [Hk Hp Hi Hr]. cbn. destruct (Hmark r) as (E1&E2&E3).
    split; rewrite ?E1, ?E2, ?E3; try done. unfold mark. destruct (decide (QueueReceipt.job_id r = id)) as [E|E]; cbn.
    + symmetry. apply bool_decide_eq_true. rewrite E, Hids. tauto.
    + rewrite Hr. apply bool_decide_ext. rewrite Hids. tauto.
  - rewrite Forall_fmap. eapply Forall_impl; [exact H14|]. intros r Hr. cbn. destruct (Hmark r) as (_&_&->). done.
  - intros k. rewrite H17. split.
    + intros (j&Hin&Hbusy&_). exists j. split; [|done]. apply remove_job_in; [done|]. split; [done|]. intros ->.
      apply in_find_job in Hin; [|done]. congruence.
    + intros (j&[Hin _]%remove_job_in&Hbusy&_); [|done]. eauto.
  - intros o. etransitivity; [apply active_on_remove|apply H19].
Qed.
Lemma fresh_id s id : Books None s → checked_add (Actor.last_id s) 1 = Some id →
  id = Actor.last_id s + 1 ∧ u64 id ∧ 0 < id ∧ id ∉ ids (Actor.jobs s) ∧ id ∉ Actor.queue s ∧ id ∉ QueueReceipt.job_id <$> Actor.receipts s.
Proof.
  intros Hb Hid. pose proof (bk_last _ _ _ _ _ _ _ _ _ _ Hb) as Hl. unfold u64 in *.
  apply checked_add_Some in Hid. pose proof (bk_bound _ _ _ _ _ _ _ _ _ _ Hb) as Hbound.
  pose proof (bk_receipt_bound _ _ _ _ _ _ _ _ _ _ Hb) as Hrb. rewrite Forall_forall in Hbound. rewrite Forall_forall in Hrb.
  assert (id ∉ ids (Actor.jobs s)) as Hn by (intros Hin%Hbound; lia).
  split_and!; try lia; try done.
  - intros Hin. apply Hn. by apply (queue_held s Hb).
  - intros (r&->&Hin%Hrb)%list_elem_of_fmap. lia.
Qed.
Lemma find_receipt_None k l : find (λ r, bool_decide (QueueReceipt.key_hash r = k)) l = None → k ∉ QueueReceipt.key_hash <$> l.
Proof.
  intros Hf (r&->&Hin)%list_elem_of_fmap. apply find_none with (x := r) in Hf; [|by apply list_elem_of_In].
  by apply bool_decide_eq_false in Hf.
Qed.

Lemma enqueue_books s o p admission origin key id :
  Books None s → OptionsHeld o → origin_of url_parse o = Ok origin →
  (∀ h, admission = Some h → length (AdmissionHashes.key h) = 32%nat ∧ length (AdmissionHashes.payload h) = 32%nat ∧
    AdmissionHashes.key h ∉ QueueReceipt.key_hash <$> Actor.receipts s ∧ Z.of_nat (length (Actor.receipts s)) < MAX_RECEIPTS) →
  Z.of_nat (length (Actor.jobs s)) < Config.max_jobs (Actor.config s) →
  key ∉ (λ j, QueueJob.key j.2) <$> Actor.jobs s → checked_add (Actor.last_id s) 1 = Some id →
  BooksOf None (Actor.config s) (Actor.jobs s ++ [(id, new_job o origin p key)]) (Actor.queue s ++ [id]) id
    (Actor.receipts s ++ match admission with
      | Some h => [QueueReceipt.Make (AdmissionHashes.key h) (AdmissionHashes.payload h) id false] | None => [] end)
    (Actor.workers s) (Actor.next_task s).
Proof.
  intros Hb Ho Horigin Hadm Hroom Hkey Hid. destruct (fresh_id s id Hb Hid) as (E&Hu&Hpos&Hnew&Hnq&Hnr).
  destruct Hb as [H1 H2 H3 H4 H5 H6 H7 [Hq Hqi] H9 H10 H11 H12 H13 H14 H15 H16 H17 H18 H19].
  assert (∀ (P : QueueReceipt.t → Prop), Forall P (Actor.receipts s) → (∀ h, admission = Some h → P (QueueReceipt.Make (AdmissionHashes.key h)
    (AdmissionHashes.payload h) id false)) → Forall P (Actor.receipts s ++ match admission with
      | Some h => [QueueReceipt.Make (AdmissionHashes.key h) (AdmissionHashes.payload h) id false] | None => [] end)) as Hall.
  { intros P HP HP'. apply Forall_app. split; [done|]. destruct admission as [h|]; [|done]. constructor; [by apply HP'|done]. }
  split; try done.
  - rewrite fmap_app. apply NoDup_app. split; [done|]. split; [|apply NoDup_singleton]. intros k Hk Hk'.
    cbn in Hk'. by apply list_elem_of_singleton in Hk' as ->.
  - rewrite fmap_app. apply Forall_app. split; [eapply Forall_impl; [exact H4|cbn; lia]|]. constructor; [cbn; lia|done].
  - rewrite length_app. cbn. lia.
  - rewrite fmap_app. apply NoDup_app. split; [done|]. split; [|apply NoDup_singleton]. intros k Hk Hk'.
    cbn in Hk'. by apply list_elem_of_singleton in Hk' as ->.
  - apply Forall_app. split; [done|]. constructor; [|done]. apply config_bounds in H1 as (_&_&_&_&Hm&_).
    split; cbn; try done; [split; [done|apply Ho]|]. unfold StateHeld, cold. cbn. split_and!; try done. lia.
  - split; [by apply NoDup_snoc|]. rewrite fmap_app. intros k. rewrite !elem_of_app. intros [?|?]; auto.
  - intros k j Hin Hoff. rewrite elem_of_app in Hin. rewrite elem_of_app, list_elem_of_singleton.
    destruct Hin as [Hin|Hin]; [|by apply list_elem_of_singleton in Hin as [= -> ->]].
    intros [Hk| ->]; [by eapply H9|]. apply Hnew. by apply (list_elem_of_fmap_2 fst) in Hin.
  - apply Hall; [|intros h Hh; destruct (Hadm h Hh) as (Hk&Hp&_)].
    + rewrite Forall_forall in *. intros r Hr. destruct (H10 r Hr) as [Hk Hp Hi Hrem]. split; try done. rewrite Hrem.
      apply bool_decide_ext. rewrite fmap_app, elem_of_app. cbn. rewrite list_elem_of_singleton. specialize (H14 r Hr). cbn in H14.
      split; [intros ? [?| ?]; [done|lia]|tauto].
    + split; cbn; try done; [split; [done|lia]|]. symmetry. apply bool_decide_eq_false. rewrite fmap_app, elem_of_app. cbn.
      rewrite list_elem_of_singleton. tauto.
  - rewrite length_app. destruct admission as [h|]; cbn; [destruct (Hadm h eq_refl) as (_&_&_&?)|]; lia.
  - rewrite fmap_app. destruct admission as [h|]; cbn; [|by rewrite app_nil_r]. destruct (Hadm h eq_refl) as (_&_&Hk&_).
    apply NoDup_app. split; [done|]. split; [|apply NoDup_singleton]. intros k Hin Hin'. by apply list_elem_of_singleton in Hin' as ->.
  - rewrite fmap_app. destruct admission as [h|]; cbn; [|by rewrite app_nil_r]. by apply NoDup_snoc.
  - apply Hall; [eapply Forall_impl; [exact H14|cbn; lia]|cbn; lia].
  - intros k. rewrite H17. split.
    + intros (j&Hin&?). exists j. rewrite elem_of_app. auto.
    + intros (j&[Hin|Hin]%elem_of_app&Hbusy&?); [eauto|]. apply list_elem_of_singleton in Hin as [= -> ->]. done.
  - intros o'. rewrite active_on_app. unfold active_on at 2. cbn. specialize (H19 o'). rewrite decide_False by (by intros []). cbn. lia.
Qed.
Lemma enqueue_new_books ticket o p admission path s : Books None s → OptionsHeld o →
  (∀ h, admission = Some h → length (AdmissionHashes.key h) = 32%nat ∧ length (AdmissionHashes.payload h) = 32%nat ∧
    AdmissionHashes.key h ∉ QueueReceipt.key_hash <$> Actor.receipts s ∧ Z.of_nat (length (Actor.receipts s)) < MAX_RECEIPTS) →
  Books None (enqueue_new url_parse ticket o p admission path s).
Proof.
  intros Hb Ho Hadm. unfold enqueue_new. case_decide as Hroom; [exact Hb|].
  destruct (origin_of _ o) as [origin|e] eqn:Horigin; [|exact Hb]. destruct path as [key| |]; [|exact Hb|exact Hb].
  destruct (existsb _ _) eqn:Hdup; [exact Hb|]. destruct (checked_add _ _) as [id|] eqn:Hid; [|exact Hb].
  pose proof (oh_valid _ _ _ Ho) as Hv. apply validate_options_Ok in Hv as (_&_&_&_&_&_&_&_&_&_&_&Hrate&_). rewrite Hrate. cbn [negb].
  assert (key ∉ (λ j : Z * QueueJob.t, QueueJob.key j.2) <$> Actor.jobs s) as Hkey.
  { intros (j&->&Hin)%list_elem_of_fmap. rewrite existsb_false in Hdup. specialize (Hdup j Hin). cbn in Hdup. by apply bool_decide_eq_false in Hdup. }
  pose proof (enqueue_books s o p admission origin key id Hb Ho Horigin Hadm ltac:(lia) Hkey Hid) as Hnew.
  destruct admission as [h|]; [exact Hnew|]. rewrite app_nil_r in Hnew. exact Hnew.
Qed.
Lemma on_enqueue_books ticket o p admission path s : Books None s → Sound (QueueCommand.Enqueue o p admission) →
  Books None (on_enqueue url_parse ticket o p admission path s).
Proof.
  intros Hb [Ho Hadm]. unfold on_enqueue. destruct admission as [h|]; [|by apply enqueue_new_books].
  destruct (negb _); [exact Hb|]. destruct (find _ _) as [r|] eqn:Hf; [exact Hb|]. case_decide as Hm; [exact Hb|].
  apply enqueue_new_books; [done|done|]. intros h' [= <-]. destruct (Hadm h eq_refl). split_and!; try done; [|lia]. by apply find_receipt_None.
Qed.

Lemma refreshed_held s id job link b o : Books None s → find_job id (Actor.jobs s) = Some job → Sound (QueueCommand.Refresh id link) →
  SoundBinding b → refreshed url_parse sha256 job link b = Ok o →
  resumable (QueueJob.state job) = true ∧ JobHeld None (Actor.config s) (id, QueueJob.set_state TaskState.Paused (QueueJob.set_options o job)).
Proof.
  intros Hb Hj Hlink Hbind. destruct (held_job s id job Hb Hj) as [H1 H2 H3 H4 H5]. cbn in *. unfold refreshed.
  destruct (resumable (QueueJob.state job)) eqn:Hr; [|done]. cbn [negb refuse_if mbind result_bind].
  destruct (refuse_if (bool_decide _) _) as [[]|]; [|done]. cbn [mbind result_bind].
  destruct (parse_url _ (Options.url _) _) as [old|] eqn:Hold; [|done]. cbn [map_err mbind result_bind].
  destruct (parse_url _ link _) as [new|] eqn:Hnew; [|done]. cbn [map_err mbind result_bind].
  destruct (refuse_if (negb _ || _) _) as [[]|] eqn:Hsame; [|done]. cbn [mbind result_bind].
  destruct (bind_refresh _ _ _) as [from|] eqn:Hfrom; [|done]. cbn [mbind result_bind]. intros [= <-]. split; [done|].
  unfold refuse_if in Hsame. destruct (_ || _) eqn:E; [done|]. rewrite orb_false_iff, !negb_false_iff, !bool_decide_eq_true in E.
  destruct E as [Eo _].
  assert (Hash from) as Hhash.
  { unfold bind_refresh in Hfrom. destruct b as [| | |i st unknown|]; try done; [by injection Hfrom as <-|].
    destruct (refuse_if _ _) as [[]|]; [|done]. injection Hfrom as <-. intros v [= <-]. apply Hbind. }
  destruct (held_link link new from (QueueJob.options job) Hnew (Hlink _ _ Hnew) Hhash H1) as [Hheld Hparse].
  split; cbn; try done.
  - revert H2. unfold origin_of. cbn [Options.url Options.allow_http Options.set_link]. rewrite Hold, Hparse. cbn [map_err mbind result_bind].
    unfold Url.origin in Eo. injection Eo as -> -> ->. done.
  - unfold StateHeld, cold in *. cbn in *. destruct (QueueJob.state job); try done; tauto.
Qed.

Lemma on_command_books ticket c path b s : Books None s → Sound c → SoundBinding b →
  Books None (on_command url_parse sha256 ticket c path b s).
Proof.
  intros Hb Hc Hbind. destruct c as [o p admission|id p|id|id|rate|id rate| |id link|id]; cbn [on_command]; unfold with_job;
    try (destruct (find_job id (Actor.jobs s)) as [job|] eqn:Hj; [|exact Hb]).
  - by apply on_enqueue_books.
  - destruct (QueueJob.state job); first [exact Hb|exact (set_priority_books s id p Hb)].
  - destruct (QueueJob.state job) eqn:Hst; try exact Hb.
    + by apply (pause_waiting_books s id job); auto.
    + by apply (pause_running_books s id job ticket).
    + by apply (pause_waiting_books s id job); auto.
  - destruct (resumable _) eqn:Hr; [|exact Hb]. apply (resume_books s id job (without id (Actor.queue s) ++ [id])); try done.
    + apply NoDup_snoc; [by apply without_NoDup, queue_held|]. rewrite without_in. tauto.
    + intros k. rewrite elem_of_app, without_in, list_elem_of_singleton. tauto.
  - by apply global_rate_books.
  - by apply job_rate_books.
  - by apply resume_each_books.
  - destruct (refreshed _ _ job link b) as [o|e] eqn:Ho; [|exact Hb].
    destruct (refreshed_held s id job link b o Hb Hj Hc Hbind Ho) as [Hr Hheld].
    unfold acknowledge, ManagerInv.Books, on_job. cbn. rewrite (alter_const id _ _ job Hj).
    apply (change_books s id job); try done; [by apply resumable_calm| |auto].
    by apply queue_held.
  - destruct (busy _) eqn:Hbusy; [exact Hb|]. by apply (forget_books s id job).
Qed.
End Commands.

(** * Every turn keeps the books

    The turns of the loop of [run] (manager.rs) put together, and opening the queue again. *)

Lemma take_worker_spec task workers id rest : take_worker task workers = Some (id, rest) →
  ∃ front back, workers = front ++ (task, id) :: back ∧ rest = front ++ back.
Proof.
  revert id rest. induction workers as [|[t o] workers IH]; intros id rest; cbn; [done|]. case_decide as E.
  - intros [= <- <-]. subst. by exists [], workers.
  - destruct (take_worker task workers) as [[o' rest']|]; [|done]. intros [= <- <-].
    destruct (IH _ _ eq_refl) as (front&back&->&->). by exists ((t, o) :: front), back.
Qed.

Section Turns.
Context (url_parse : list Z → option Url.t) (header_value : list Z → bool) (sha256 : list Z → list Z) (secrets : Secrets.t).
Context `{!UrlNormal url_parse} (sha256_length : ∀ b, length (sha256 b) = 32%nat).
Notation Books := (Books url_parse header_value).
Notation BooksOf := (BooksOf url_parse header_value).
Notation JobHeld := (JobHeld url_parse header_value).

(** ** A worker ends *)

(** Bytes that a worker may report of the job it works for. *)
Definition within (s : Actor.t) (task bytes : Z) : Prop := ∀ id rest job,
  take_worker task (Actor.workers s) = Some (id, rest) → find_job id (Actor.jobs s) = Some job →
  0 ≤ bytes ≤ Options.max_download_bytes (QueueJob.options job).

(** What a job becomes when its worker ended. *)
Definition after_work (s : Actor.t) (later : Z) (outcome : result DownloadError.t Z) (job : QueueJob.t) : QueueJob.t :=
  let settings := Config.retry (Actor.config s) in
  let retry := negb (Actor.closing s) && bool_decide (QueueJob.state job = TaskState.Running)
    && bool_decide (QueueJob.attempts job < RetrySettings.max_attempts settings)
    && match outcome with Err e => retryable e | Ok _ => false end in
  let job := finish outcome job in
  if retry then QueueJob.set_retry_at (Some (later + RetrySettings.delay settings (QueueJob.attempts job)))
    (QueueJob.set_state TaskState.RetryWaiting job) else job.
Lemma after_work_frame s later outcome job : let job' := after_work s later outcome job in
  QueueJob.options job' = QueueJob.options job ∧ QueueJob.key job' = QueueJob.key job ∧ QueueJob.origin job' = QueueJob.origin job ∧
  QueueJob.attempts job' = QueueJob.attempts job ∧ QueueJob.pause_reply job' = QueueJob.pause_reply job ∧
  busy (QueueJob.state job') = false ∧ QueueJob.state job' ≠ TaskState.Queued ∧
  QueueJob.progress job' = match outcome with Ok bytes => bytes | Err _ => QueueJob.progress job end.
Proof.
  unfold after_work, finish. destruct (negb _ && _ && _ && _) eqn:E; destruct outcome as [b|e]; cbn;
    try destruct (decide (e = DownloadError.Cancelled ∧ QueueJob.state job = TaskState.Pausing)); cbn; split_and!; done.
Qed.
Lemma after_work_held s id later outcome job : JobHeld None (Actor.config s) (id, job) → busy (QueueJob.state job) = true →
  (∀ b, outcome = Ok b → 0 ≤ b ≤ Options.max_download_bytes (QueueJob.options job)) →
  JobHeld None (Actor.config s) (id, QueueJob.set_pause_reply None (after_work s later outcome job)).
Proof.
  intros [H1 H2 H3 H4 H5] Hbusy Hok. cbn in *. destruct (after_work_frame s later outcome job) as (E1&E2&E3&E4&E5&E6&E7&E8).
  split; cbn; rewrite ?E1, ?E3, ?E4; try done; [rewrite E8; destruct outcome; auto|].
  unfold StateHeld, cold, after_work, finish, told in *. cbn in *.
  destruct (negb _ && _ && _ && _) eqn:E.
  - rewrite !andb_true_iff, !bool_decide_eq_true in E. destruct outcome as [b|e]; cbn; [by destruct E|].
    destruct (decide (e = DownloadError.Cancelled ∧ QueueJob.state job = TaskState.Pausing)); cbn; split_and!; try done; tauto.
  - assert (QueueJob.retry_at job = None) by (destruct (QueueJob.state job); try done; tauto).
    destruct outcome as [b|e]; cbn; [done|].
    by destruct (decide (e = DownloadError.Cancelled ∧ QueueJob.state job = TaskState.Pausing)).
Qed.
Lemma on_joined_books later task outcome s : Books None s → (∀ b, outcome = Some (Ok b) → within s task b) →
  Books None (on_joined later task outcome s).
Proof.
  intros Hb Hok. unfold on_joined. destruct (take_worker task (Actor.workers s)) as [[id rest]|] eqn:Ht; [|exact Hb].
  pose proof (bk_worked _ _ _ _ _ _ _ _ _ _ Hb) as Hworked. pose proof (bk_ids _ _ _ _ _ _ _ _ _ _ Hb) as Hnd.
  destruct (take_worker_spec _ _ _ _ Ht) as (front&back&Ew&->).
  assert (id ∈ (Actor.workers s).*2) as Hin by (rewrite Ew, fmap_app, elem_of_app; right; by left).
  apply Hworked in Hin as (job&Hin&Hbusy&_). apply in_find_job in Hin as Hj; [|done]. cbn [Actor.jobs Actor.set_workers]. rewrite Hj.
  pose proof (held_job _ _ s id job Hb Hj) as Hheld.
  set (out := default (Err DownloadError.WorkerFailed) outcome).
  assert (∀ b, out = Ok b → 0 ≤ b ≤ Options.max_download_bytes (QueueJob.options job)) as Hbytes.
  { intros b Eb. unfold out in Eb. destruct outcome as [r|]; [|done]. cbn in Eb. subst r. by apply (Hok b eq_refl id _ job Ht Hj). }
  pose proof (after_work_held s id later out job Hheld Hbusy Hbytes) as Hnew.
  pose proof (after_work_frame s later out job) as (E1&E2&E3&E4&E5&E6&E7&E8).
  pose proof (bk_tasks _ _ _ _ _ _ _ _ _ _ Hb) as [Ht1 Ht2]. pose proof (bk_owners _ _ _ _ _ _ _ _ _ _ Hb) as Ho.
  rewrite Ew, fmap_app in Ht1, Ht2, Ho. cbn in Ht1, Ht2, Ho.
  rewrite <-Permutation_middle in Ht1. rewrite <-Permutation_middle in Ho. apply NoDup_cons in Ht1 as [_ Ht1], Ho as [Hout Ho].
  assert (Books None (on_job id (λ _, QueueJob.set_pause_reply None (after_work s later out job)) (Actor.set_workers (front ++ back) s))) as Hb'.
  { unfold ManagerInv.Books, on_job. cbn. eapply books_change with (job := job); [exact Hb|]. split; cbn; rewrite ?E2, ?E3, ?E6; try done.
    - split; [apply Hb|auto].
    - intros _. eapply (bk_off _ _ _ _ _ _ _ _ _ _ Hb); [exact Hin|]. unfold off_queue. by rewrite Hbusy.
    - rewrite fmap_app. split; [done|]. apply Forall_app in Ht2 as [? Ht2]. apply Forall_cons in Ht2 as [_ ?].
      by apply Forall_app.
    - by rewrite fmap_app.
    - intros k Hk. rewrite Ew, !fmap_app, !elem_of_app. cbn. rewrite elem_of_cons. tauto.
    - split; [|by intros [? _]]. rewrite fmap_app. by intros Hin'.
    - pose proof (bk_active _ _ _ _ _ _ _ _ _ _ Hb) as Ha. rewrite Ew in Ha. rewrite length_app in *. cbn in Ha. lia. }
  fold out. change (Books None (match QueueJob.pause_reply (after_work s later out job) with
    | None => Actor.set_dirty true (on_job id (λ _, QueueJob.set_pause_reply None (after_work s later out job)) (Actor.set_workers (front ++ back) s))
    | Some ticket => match QueueJob.state (after_work s later out job) with
      | TaskState.Failed _ => answer ticket (Err ManagerError.WorkerFailed) (Actor.set_dirty true (on_job id
          (λ _, QueueJob.set_pause_reply None (after_work s later out job)) (Actor.set_workers (front ++ back) s)))
      | _ => Actor.set_acks (Actor.acks s ++ [(ticket, Done)]) (Actor.set_dirty true (on_job id
          (λ _, QueueJob.set_pause_reply None (after_work s later out job)) (Actor.set_workers (front ++ back) s)))
      end end)).
  destruct (QueueJob.pause_reply (after_work s later out job)); [|exact Hb'].
  destruct (QueueJob.state (after_work s later out job)); exact Hb'.
Qed.

(** ** A turn *)

Definition before_select (t : Turn.t) (s : Actor.t) : Actor.t :=
  let s := Actor.set_fates (Turn.fates t) (Actor.set_polls (Turn.polls t) (foldl reported s (Turn.reports t))) in
  let s := drain_acks (save_phase sha256 secrets (begin_turn (Turn.now t) s)) in
  publish (start_workers sha256 secrets (S (length (Actor.queue s))) s).
Lemma turn_unfold t s : turn url_parse sha256 secrets t s =
  if bool_decide (Actor.ended s ≠ None) then s else
  let s' := before_select t s in
  if Actor.closing s' && bool_decide (Actor.workers s' = []) then finish_run sha256 secrets s'
  else select url_parse sha256 (Turn.later t) (Turn.event t) s'.
Proof. done. Qed.

(** What the outside may do in a turn: workers report no more than the limit of their job, commands
    come from the methods of the manager, and fingerprints are hashes. *)
Definition SoundEvent (s : Actor.t) (e : Event) : Prop :=
  match e with
  | Joined task outcome => ∀ b, outcome = Some (Ok b) → within s task b
  | Received _ c _ b => Sound url_parse header_value c ∧ SoundBinding b
  | _ => True
  end.
Record SoundTurn (s : Actor.t) (t : Turn.t) : Prop := {
  so_reports : Forall (λ r, within s r.1 r.2) (Turn.reports t);
  so_event : SoundEvent (before_select t s) (Turn.event t) }.

Lemma reported_frame s r : Actor.workers (reported s r) = Actor.workers s ∧
  ∀ id job, find_job id (Actor.jobs (reported s r)) = Some job → ∃ job', find_job id (Actor.jobs s) = Some job' ∧
    QueueJob.options job = QueueJob.options job'.
Proof.
  unfold reported. destruct (take_worker _ _) as [[id rest]|]; [|split; [done|eauto]]. split; [done|]. intros k job. cbn.
  destruct (decide (k = id)) as [->|Hne]; [rewrite find_job_alter|rewrite find_job_alter_ne by done; eauto].
  destruct (find_job id _) as [j|]; [|done]. intros [= <-]. by exists j.
Qed.
Lemma all_reported_books l s : Forall (λ r, within s r.1 r.2) l → Books None s → Books None (foldl reported s l).
Proof.
  revert s. induction l as [|r l IH]; intros s Hl Hb; [done|]. apply Forall_cons in Hl as [Hr Hl]. cbn. apply IH.
  - destruct (reported_frame s r) as [Hw Hf]. eapply Forall_impl; [exact Hl|]. intros r' Hin id rest job Ht Hj. rewrite Hw in Ht.
    destruct (Hf _ _ Hj) as (job'&Hj'&->). eauto.
  - by apply reported_books.
Qed.
Lemma publish_books hot s : Books hot s → Books hot (publish s).
Proof. done. Qed.
Lemma outside_books hot f p s : Books hot s → Books hot (Actor.set_fates f (Actor.set_polls p s)).
Proof. done. Qed.
Lemma before_select_books t s : Forall (λ r, within s r.1 r.2) (Turn.reports t) → Books None s → Books None (before_select t s).
Proof.
  intros Hr Hb. unfold before_select. apply publish_books.
  eapply starts_books; [apply start_workers_starts|]. by apply drain_acks_books, save_phase_books, begin_turn_books, outside_books, all_reported_books.
Qed.
Lemma finish_run_books s : Books None s → Books None (finish_run sha256 secrets s).
Proof.
  intros Hb. unfold finish_run. destruct (_ && _); [|exact Hb]. destruct (save_state _ _ s) as [r s'] eqn:Hs.
  pose proof (save_state_books _ _ _ _ _ _ _ _ Hs Hb) as Hb'. by destruct r.
Qed.
Lemma select_books later e s : Books None s → SoundEvent s e → Books None (select url_parse sha256 later e s).
Proof.
  intros Hb He. destruct e as [task outcome|ticket c path b| |]; cbn [select].
  - by apply on_joined_books.
  - destruct (Actor.closing s); [done|]. destruct He. by apply (on_command_books url_parse header_value sha256).
  - destruct (Actor.closing s); [done|]. by apply (stop_books _ _ _ (Actor.set_closed true (Actor.set_closing true s))).
  - done.
Qed.
Lemma turn_books t s : Books None s → SoundTurn s t → Books None (turn url_parse sha256 secrets t s).
Proof.
  intros Hb [Hr He]. rewrite turn_unfold. destruct (bool_decide _); [done|]. pose proof (before_select_books t s Hr Hb) as Hb'. cbn zeta.
  destruct (_ && _); [by apply finish_run_books|by apply select_books].
Qed.
End Turns.
