(* ===== verification/ManagerRows.v ===== *)
(** * What the queue writes and what a start makes of it

    Saving the books of the actor (manager.rs) writes a row that loads as those books, and opening
    such a row gives books again: every job is back, and the unfinished ones are paused. *)

From S2P Require Import Prelude.
From S2P Require Import Files.
From S2P Require Import StorageFile.
From S2P Require Import ResumePolicy.
From S2P Require Import TransferStore.
From S2P Require Import Options.
From S2P Require Import OptionsThm.
From S2P Require Import QueueStore.
From S2P Require Import QueueStoreThm.
From S2P Require Import QueueStoreType.
From S2P Require Import Manager.
From S2P Require Import ManagerCalls.
From S2P Require Import ManagerInv.
From S2P Require Import ManagerSteps.
From S2P Require Import ManagerCommands.

Section Rows.
Context (url_parse : list Z → option Url.t) (header_value : list Z → bool) (sha256 : list Z → list Z) (secrets : Secrets.t).
Context `{!UrlLaws url_parse} `{!UrlNormal url_parse} `{!SecretsLaws secrets} (sha256_length : ∀ b, length (sha256 b) = 32%nat).
Notation Books := (Books url_parse header_value).
Notation load_row := (load url_parse header_value sha256 secrets).

(** ** Saving *)

Lemma encoded_dirs s bytes : encode sha256 s = Ok bytes →
  Forall (λ j, forallb scalar (Options.job_dir (SavedJob.options j)) = true) (Snapshot.jobs s).
Proof.
  unfold encode. destruct (collect _ _) as [jobs|] eqn:Hj; [|done]. intros _. revert jobs Hj.
  induction (Snapshot.jobs s) as [|j l IH]; intros jobs; [done|]. cbn [collect].
  destruct (encode_job j) as [b|] eqn:Hb; [|done]. cbn [mbind result_bind]. destruct (collect _ l) as [bs|]; [|done]. intros _.
  constructor; [|by eapply IH]. unfold encode_job, encode_options_v2, to_str in Hb. by destruct (forallb scalar _).
Qed.
Lemma saved_ids (jobs : list (Z * QueueJob.t)) : SavedJob.id <$> (saved_job <$> jobs) = ids jobs.
Proof. rewrite <-list_fmap_compose. by apply list_fmap_ext. Qed.
Lemma books_well_formed hot s bytes : Books hot s → encode sha256 (snapshot_of s) = Ok bytes →
  WellFormed url_parse header_value (snapshot_of s).
Proof.
  intros [H1 H2 H3 H4 H5 H6 H7 H8 H9 H10 H11 H12 H13 H14 H15 H16 H17 H18 H19] He%encoded_dirs. cbn in He.
  split; cbn; rewrite ?saved_ids, ?length_fmap; try done.
  - rewrite Forall_fmap in *. rewrite Forall_forall in H4. rewrite Forall_forall in H7. rewrite Forall_forall in He. rewrite Forall_forall. intros [id job] Hin. destruct (H7 _ Hin) as [Ho _ Hp Ha _].
    specialize (He _ Hin). cbn in *. assert (id ∈ ids (Actor.jobs s)) as Hid%H4 by (by apply (list_elem_of_fmap_2 fst) in Hin).
    split; cbn; [split; [unfold u64 in *; lia|lia]|by apply held_saved|done|lia].
  - apply Forall_app. split; [eapply Forall_impl; [exact H4|cbn; lia]|]. by rewrite Forall_fmap.
Qed.

Lemma held_short o : OptionsHeld url_parse header_value o → short (Options.request_policy o).
Proof. intros Ho. eapply valid_short, settled_valid, (oh_policy _ _ _ Ho). Qed.
Lemma books_fit hot s : Books hot s → Fits (snapshot_of s).
Proof.
  intros Hb. pose proof (bk_jobs _ _ _ _ _ _ _ _ _ _ Hb) as Hj. unfold Fits. cbn. rewrite Forall_fmap.
  eapply Forall_impl; [exact Hj|]. intros j [Ho _ _ _ _]. by apply held_short.
Qed.
(** A snapshot but for the bytes its jobs count. *)
Definition still_job (j : SavedJob.t) : SavedJob.t :=
  SavedJob.Make (SavedJob.id j) (SavedJob.options j) (SavedJob.priority j) (SavedJob.state j) 0 (SavedJob.attempts j).
Definition still (s : Snapshot.t) : Snapshot.t :=
  Snapshot.Make (Snapshot.last_id s) (Snapshot.receipts s) (Snapshot.config s) (still_job <$> Snapshot.jobs s) (Snapshot.queue s).
(** The row that a start would load is the books of the actor. *)
Definition on_disk (row : option (list Z)) (s : Actor.t) : Prop :=
  ∃ saved, load_row row = Ok (Some saved) ∧ still saved = still (reread (snapshot_of s)).
(** A row that can be opened. *)
Definition good_job (j : SavedJob.t) : Prop :=
  OptionsHeld url_parse header_value (SavedJob.options j) ∧ is_ok (origin_of url_parse (SavedJob.options j)) = true.
Definition good_row (row : option (list Z)) : Prop :=
  ∃ saved, load_row row = Ok (Some saved) ∧ WellFormed url_parse header_value saved ∧ Forall good_job (Snapshot.jobs saved).
Lemma books_good_jobs hot s : Books hot s → Forall good_job (Snapshot.jobs (reread (snapshot_of s))).
Proof.
  intros Hb. pose proof (bk_jobs _ _ _ _ _ _ _ _ _ _ Hb) as Hj. cbn. rewrite !Forall_fmap. eapply Forall_impl; [exact Hj|].
  intros j [Ho Hor _ _ _]. cbn. split; [done|]. cbn. by rewrite Hor.
Qed.
Lemma reread_well_formed s : WellFormed url_parse header_value s → WellFormed url_parse header_value (reread s).
Proof.
  intros [H1 H2 H3 H4 H5 H6 H7 H8 H9 H10 H11]. split; cbn; rewrite ?reread_ids, ?length_fmap; try done.
  rewrite Forall_fmap. eapply Forall_impl; [exact H4|]. by intros j [? ? ? ?].
Qed.
(** A save either leaves the row or replaces it by one that loads as the books. *)
Lemma save_state_row hot s r s' : Books hot s → save_state sha256 secrets s = (r, s') →
  (Actor.held s = false ∧ r = Ok () ∧ s' = s) ∨
  (∃ row h f, s' = Actor.set_held h (Actor.set_fates f (record (Wrote row) s)) ∧ (r = Ok () → h = true) ∧
    (row = last_row (Actor.trace s) ∨ good_row row ∧ on_disk row s) ∧ (r = Ok () → good_row row ∧ on_disk row s)).
Proof.
  intros Hb. unfold save_state.
  assert (∀ f r' row, save sha256 secrets f (last_row (Actor.trace s)) (snapshot_of s) = (r', row) →
    (row = last_row (Actor.trace s) ∨ good_row row ∧ on_disk row s) ∧ (r' = Ok () → good_row row ∧ on_disk row s)) as Hrow.
  { intros f r' row Hsave. destruct (encode sha256 (snapshot_of s)) as [bytes|e] eqn:He.
    - pose proof (books_well_formed _ _ _ Hb He) as Hw.
      destruct (save_reads_back _ _ _ _ sha256_length _ _ _ _ _ Hw (books_fit _ _ Hb) Hsave) as [H1 H2].
      assert (load_row row = Ok (Some (reread (snapshot_of s))) → good_row row ∧ on_disk row s) as Hl.
      { intros Hl. split; [|by eexists]. eexists. split; [exact Hl|]. split; [by apply reread_well_formed|by eapply books_good_jobs]. }
      split; [destruct H1; auto|auto].
    - unfold save in Hsave. rewrite He in Hsave. injection Hsave as <- <-. split; [by left|done]. }
  destruct (Actor.held s) eqn:Hh; cbn [negb]; [|intros [= <- <-]; by left]. intros Hrun. right.
  destruct (default _ _) as [f|b].
  - destruct (save _ _ f _ _) as [r' row] eqn:Hsave. injection Hrun as <- <-. destruct (Hrow _ _ _ Hsave) as [H1 H2].
    exists row, true, (drop 1 (Actor.fates s)). split; [destruct s; cbn in Hh; by subst|done].
  - destruct (save _ _ (Broken b) _ _) as [r' row] eqn:Hsave. injection Hrun as <- <-. destruct (Hrow _ _ _ Hsave) as [H1 H2].
    exists row, false, (drop 1 (Actor.fates s)). by split; [by destruct s|].
Qed.

(** ** Opening *)

(** The job a saved one comes back as. *)
Definition reopened (j : SavedJob.t) (origin : list Z * list Z * Z) (key : list Z) : Z * QueueJob.t :=
  (SavedJob.id j, QueueJob.Make (SavedJob.options j) origin (SavedJob.priority j) key (recovered_state (SavedJob.state j))
    (SavedJob.progress j) None None (SavedJob.attempts j) None (Options.bytes_per_second (SavedJob.options j))).
Definition came_back (j : SavedJob.t) (q : Z * QueueJob.t) : Prop :=
  ∃ origin key, q = reopened j origin key ∧ origin_of url_parse (SavedJob.options j) = Ok origin ∧
    validate_options url_parse header_value ManagerError.InvalidOptions (SavedJob.options j) = Ok ().
Lemma open_jobs_Ok saved paths acc jobs : open_jobs url_parse header_value saved paths acc = Ok jobs →
  NoDup ((λ j : Z * QueueJob.t, QueueJob.key j.2) <$> acc) →
  ∃ new, jobs = acc ++ new ∧ Forall2 came_back saved new ∧ NoDup ((λ j : Z * QueueJob.t, QueueJob.key j.2) <$> jobs).
Proof.
  revert paths acc. induction saved as [|j saved IH]; intros paths acc; cbn [open_jobs].
  { intros [= <-] Hk. exists []. by rewrite app_nil_r. }
  destruct (validate_options _ _ _ _) as [[]|] eqn:Hv; [|done]. cbn [mbind result_bind].
  destruct (match default PathLost (head paths) with PathKey _ => _ | _ => _ end) as [key|] eqn:Hkey; [|done]. cbn [mbind result_bind].
  unfold refuse_if. destruct (existsb _ _) eqn:Hdup; [done|]. cbn [mbind result_bind].
  destruct (negb _); [done|]. cbn [mbind result_bind]. destruct (origin_of _ _) as [origin|] eqn:Ho; [|done].
  cbn [mbind result_bind]. intros Hopen Hk. destruct (IH _ _ Hopen) as (new&->&Hnew&Hkeys).
  - rewrite fmap_app. apply NoDup_app. split; [done|]. split; [|apply NoDup_singleton]. intros k Hin Hin'. cbn in Hin'.
    apply list_elem_of_singleton in Hin' as ->. apply list_elem_of_fmap in Hin as (q&->&Hin). rewrite existsb_false in Hdup.
    specialize (Hdup q Hin). by apply bool_decide_eq_false in Hdup.
  - exists (reopened j origin key :: new). rewrite <-app_assoc in *. split; [done|]. split; [|done]. constructor; [|done].
    by exists origin, key.
Qed.
Lemma open_jobs_good saved keys acc : Forall good_job saved → length keys = length saved →
  NoDup (((λ j : Z * QueueJob.t, QueueJob.key j.2) <$> acc) ++ keys) →
  ∃ jobs, open_jobs url_parse header_value saved (PathKey <$> keys) acc = Ok jobs.
Proof.
  revert keys acc. induction saved as [|j saved IH]; intros [|key keys] acc Hj Hl Hk; try done; [by eexists|].
  apply Forall_cons in Hj as [[Hheld Ho] Hj]. cbn [open_jobs fmap list_fmap head default from_option drop].
  pose proof (oh_valid _ _ _ Hheld) as Hv. rewrite Hv. apply validate_options_Ok in Hv as (_&_&_&_&_&_&_&_&_&_&_&Hr&_).
  cbn [mbind result_bind]. unfold refuse_if. cbn [Datatypes.id]. cbn [mbind result_bind].
  assert (existsb (λ q : Z * QueueJob.t, bool_decide (QueueJob.key q.2 = key)) acc = false) as ->.
  { apply existsb_false. intros q Hin. apply bool_decide_eq_false. intros E. apply NoDup_app in Hk as (_&Hk&_). apply (Hk key); [|by left].
    rewrite <-E. by apply (list_elem_of_fmap_2 (λ j : Z * QueueJob.t, QueueJob.key j.2)). }
  cbn [mbind result_bind]. rewrite Hr. cbn [negb mbind result_bind]. destruct (origin_of _ _) as [origin|]; [|done].
  cbn [mbind result_bind]. apply IH; [done|by injection Hl|]. rewrite fmap_app, <-app_assoc. exact Hk.
Qed.

Lemma came_back_ids saved new : Forall2 came_back saved new → ids new = SavedJob.id <$> saved.
Proof. induction 1 as [|j q saved new (origin&key&->&_) _ IH]; [done|]. cbn. by rewrite IH. Qed.
Lemma recovered_calm s : busy (recovered_state s) = false ∧ off_queue (recovered_state s) = false.
Proof. by destruct s. Qed.
Lemma saved_held o : OptionsSaved url_parse header_value o →
  validate_options url_parse header_value ManagerError.InvalidOptions o = Ok () → OptionsHeld url_parse header_value o.
Proof.
  intros [[? ?] ? [? ?] ? ? ? ? Hp ?] Hv. pose proof Hv as [Hpv _]%validate_options_Ok. unfold u64 in *. split; try done; try lia.
  pose proof (made_settled _ _ _ Hp) as Hs. apply Hs. by eapply valid_short.
Qed.
(** A launch of well-formed jobs has its books in order, and waits for the first save. *)
Lemma launch_books saved jobs paths trace : WellFormed url_parse header_value saved →
  open_jobs url_parse header_value (Snapshot.jobs saved) paths [] = Ok jobs →
  let s := launch (Snapshot.config saved) (sort_by_key (λ j : Z * QueueJob.t, rank (Snapshot.queue saved) j.1) jobs) (Snapshot.last_id saved)
    (Snapshot.receipts saved) true trace in
  Books None s ∧ ids (Actor.jobs s) ≡ₚ SavedJob.id <$> Snapshot.jobs saved.
Proof.
  intros [H1 H2 H3 H4 H5 H6 H7 H8 H9 H10 H11] Hopen s. destruct (open_jobs_Ok _ _ _ _ Hopen) as (new&->&Hnew&Hkeys); [apply NoDup_nil_2|].
  cbn [app] in *. subst s. set (sorted := sort_by_key _ new). assert (sorted ≡ₚ new) as Hp by apply sort_by_key_perm.
  assert (ids sorted ≡ₚ SavedJob.id <$> Snapshot.jobs saved) as Hids by (by rewrite Hp, (came_back_ids _ _ Hnew)).
  assert (Forall (λ q : Z * QueueJob.t, JobHeld url_parse header_value None (Snapshot.config saved) q ∧ busy (QueueJob.state q.2) = false ∧
    off_queue (QueueJob.state q.2) = false) sorted) as Hall.
  { rewrite Hp. pose proof saved_held as Hkeep. clear -Hnew H4 Hkeep. induction Hnew as [|j q saved' new (origin&key&->&Ho&Hv) _ IH]; [done|].
    apply Forall_cons in H4 as [[Hid Hopt Hpr Hat] H4]. constructor; [|by apply IH]. cbn. split; [|apply recovered_calm].
    split; cbn; try done; [by apply Hkeep|]. unfold StateHeld, cold. cbn. by destruct (SavedJob.state j). }
  split; [|exact Hids]. unfold ManagerInv.Books. cbn. fold sorted. split; rewrite ?Hids; try done.
  - rewrite Forall_fmap. rewrite Forall_forall in H4. rewrite Forall_forall in H11. rewrite Forall_forall. intros j Hin. cbn.
    destruct (H4 j Hin) as [[Hid Hid0] _ _ _]. specialize (H11 (SavedJob.id j)). unfold u64 in Hid.
    rewrite elem_of_app in H11. pose proof (H11 ltac:(left; by apply (list_elem_of_fmap_2 SavedJob.id))). lia.
  - rewrite <-(length_fmap fst), Hids, length_fmap. done.
  - by rewrite Hp.
  - eapply Forall_impl; [exact Hall|tauto].
  - intros id job Hin Hoff. rewrite Forall_forall in Hall. destruct (Hall _ Hin) as (_&_&Hcalm). cbn in Hcalm. by rewrite Hcalm in Hoff.
  - eapply Forall_impl; [exact H7|]. intros r [? ? ? Hr]. split; try done. rewrite Hr. apply bool_decide_ext. by rewrite Hids.
  - rewrite Forall_app in H11. destruct H11 as [_ H11]. by rewrite Forall_fmap in H11.
  - split; [apply NoDup_nil_2|constructor].
  - apply NoDup_nil_2.
  - intros id. cbn. split; [set_solver|]. intros (job&Hin&Hbusy&_). rewrite Forall_forall in Hall. destruct (Hall _ Hin) as (_&Hcalm&_).
    cbn in Hcalm. congruence.
  - cbn. apply config_bounds in H1 as (?&_). lia.
  - intros o. apply config_bounds in H1 as (_&_&_&?&_). assert (active_on sorted o = 0) as ->; [|lia]. unfold active_on.
    clear -Hall. induction Hall as [|q l (_&Hcalm&_) _ IH]; [done|]. rewrite filter_cons, decide_False by (intros [_ ?]; congruence). done.
Qed.

Lemma empty_well_formed c : Config.validate c = Ok () → WellFormed url_parse header_value (Snapshot.empty c).
Proof.
  intros Hc. pose proof (config_bounds c Hc) as (_&?&_). split; cbn; try done; try apply NoDup_nil_2; try lia.
  split; [apply NoDup_nil_2|set_solver].
Qed.
(** The actor that was just started. *)
Record Started (s : Actor.t) : Prop := {
  sd_books : Books None s;
  sd_held : Actor.held s = true;
  sd_acks : Actor.acks s = [];
  sd_dirty : Actor.dirty s = true;
  sd_failure : Actor.failure s = None;
  sd_ended : Actor.ended s = None;
  sd_workers : Actor.workers s = [] }.
Lemma open_queue_Ok config fate paths p s :
  (∀ saved, load_row (last_row p) = Ok (Some saved) → WellFormed url_parse header_value saved) →
  open_queue url_parse header_value sha256 secrets config fate paths p = Ok s →
  Started s ∧ ∃ p' saved, Actor.trace s = Opened :: p' ∧ (p' = p ∨ load_row (last_row p) = Ok None ∧ ∃ row, p' = Wrote row :: p) ∧
    load_row (last_row p') = Ok (Some saved) ∧ good_row (last_row p') ∧ ids (Actor.jobs s) ≡ₚ SavedJob.id <$> Snapshot.jobs saved ∧
    Actor.receipts s = Snapshot.receipts saved ∧ Actor.last_id s = Snapshot.last_id saved.
Proof.
  intros Hgood. unfold open_queue. destruct (Config.validate config) as [[]|] eqn:Hc; [|done]. cbn [mbind result_bind].
  destruct (load_row (last_row p)) as [found|] eqn:Hload; [|done]. cbn [mbind result_bind].
  set (start := match found with Some _ => _ | None => _ end).
  assert (∀ saved p', start = Ok (saved, p') → WellFormed url_parse header_value saved ∧ load_row (last_row p') = Ok (Some saved) ∧
    (p' = p ∨ Ok (E := ManagerError.t) found = Ok None ∧ ∃ row, p' = Wrote row :: p)) as Hstart.
  { unfold start. destruct found as [saved0|]; intros saved p'.
    - intros [= <- <-]. rewrite Hload. auto.
    - destruct (save _ _ _ _ _) as [r row] eqn:Hsave. destruct r as [[]|]; [|done]. cbn [mbind result_bind]. intros [= <- <-].
      destruct (save_reads_back _ _ _ _ sha256_length _ _ _ _ _ (empty_well_formed _ Hc) (Forall_nil_2 _) Hsave) as [_ Hl].
      split; [by apply empty_well_formed|]. split; [by apply Hl|eauto]. }
  destruct start as [[saved p']|]; [|done]. cbn [mbind result_bind]. destruct (Hstart _ _ eq_refl) as (Hw&Hl&Hp). clear Hstart.
  destruct (refuse_if _ _) as [[]|]; [|done]. cbn [mbind result_bind].
  destruct (open_jobs _ _ _ _ _) as [jobs|] eqn:Hopen; [|done]. cbn [mbind result_bind]. intros [= <-].
  destruct (launch_books saved jobs paths p' Hw Hopen) as [Hb Hids]. split; [by split|]. exists p', saved. split_and!; try done.
  exists saved. split_and!; [done|done|]. destruct (open_jobs_Ok _ _ _ _ Hopen) as (new&_&Hnew&_); [apply NoDup_nil_2|].
  pose proof (wf_jobs _ _ _ Hw) as Hj. pose proof saved_held as Hkeep. clear -Hnew Hj Hkeep. induction Hnew as [|j q l new (origin&key&_&Ho&Hv) _ IH]; [done|].
  apply Forall_cons in Hj as [[_ Hopt _ _] Hj]. constructor; [|by apply IH]. split; [by apply Hkeep|by rewrite Ho].
Qed.
(** A good row opens, with whatever settings it is asked for, once its directories have keys that differ. *)
Lemma good_row_opens config fate keys p : Config.validate config = Ok () → good_row (last_row p) →
  (∀ saved, load_row (last_row p) = Ok (Some saved) → length keys = length (Snapshot.jobs saved)) → NoDup keys →
  ∃ s, open_queue url_parse header_value sha256 secrets config fate (PathKey <$> keys) p = Ok s.
Proof.
  intros Hc (saved&Hl&Hw&Hj) Hlen Hk. unfold open_queue. rewrite Hc, Hl. cbn [mbind result_bind].
  pose proof (config_bounds _ (wf_config _ _ _ Hw)) as (_&_&_&_&_&_&_&Hr). rewrite Hr. cbn [negb refuse_if mbind result_bind].
  destruct (open_jobs_good (Snapshot.jobs saved) keys [] Hj (Hlen _ Hl)) as [jobs ->]; [done|]. cbn [mbind result_bind]. by eexists.
Qed.
End Rows.
