(* ===== verification/ManagerTrace.v ===== *)
(** * What the queue promised is on disk

    The ledger of the actor of manager.rs: at every moment of its trace the row in the database can
    be opened and holds every job a caller was given and did not forget, with the receipt of its key. *)

From S2P Require Import Prelude.
From S2P Require Import Files.
From S2P Require Import StorageFile.
From S2P Require Import ResumePolicy.
From S2P Require Import TransferStore.
From S2P Require Import Options.
From S2P Require Import OptionsThm.
From S2P Require Import QueueStore.
From S2P Require Import QueueStoreThm.
From S2P Require Import Manager.
From S2P Require Import ManagerCalls.
From S2P Require Import ManagerInv.
From S2P Require Import ManagerSteps.
From S2P Require Import ManagerCommands.
From S2P Require Import ManagerRows.

(** At every moment: of a trace, newest first, and of all that came before. *)
Inductive Always (P : list Moment → Prop) : list Moment → Prop :=
| always_nil : Always P []
| always_cons m p : P (m :: p) → Always P p → Always P (m :: p).
Lemma always_tail P front p : Always P (front ++ p) → Always P p.
Proof. induction front as [|m front IH]; [done|]. cbn. intros H. apply IH. by inversion H. Qed.
Lemma always_now P p : Always P p → p ≠ [] → P p.
Proof. by inversion 1. Qed.

(** The actor was started over a database. *)
Definition lived (p : list Moment) : Prop := Opened ∈ p ∧ ∃ row, Wrote row ∈ p.
Definition forgotten (p : list Moment) (id : Z) : Prop := ∃ t, Heard t (QueueCommand.Forget id) ∈ p.
Definition asked (p : list Moment) (t : Z) : Prop := ∃ c, Heard t c ∈ p.
Definition given (p : list Moment) (t id : Z) : Prop := Answered t (Ok (Given id)) ∈ p.
(** The jobs and receipts hold what was answered, or is about to be, in [pending]. *)
Definition receipt_of (receipts : list QueueReceipt.t) (h : AdmissionHashes.t) (id : Z) : Prop :=
  ∃ r, r ∈ receipts ∧ QueueReceipt.key_hash r = AdmissionHashes.key h ∧ QueueReceipt.payload_hash r = AdmissionHashes.payload h ∧
    QueueReceipt.job_id r = id.
Definition owes (p : list Moment) (ids : list Z) (receipts : list QueueReceipt.t) (t id : Z) : Prop :=
  asked p t ∧ (id ∈ ids ∨ forgotten p id) ∧
  (∀ o priority h, Heard t (QueueCommand.Enqueue o priority (Some h)) ∈ p → receipt_of receipts h id).

Lemma owes_later m p ids receipts t id : owes p ids receipts t id → (∀ c, m ≠ Heard t c) → owes (m :: p) ids receipts t id.
Proof.
  intros ([c Hc]&Hid&Hr) Hm. split; [exists c; by right|]. split; [destruct Hid as [?|[t' ?]]; [by left|right; exists t'; by right]|].
  intros o pr h [Heq|Hin]%elem_of_cons; [by destruct (Hm _ (eq_sym Heq))|eauto].
Qed.
Lemma lived_later m p : Opened ∈ p → (∀ row, m ≠ Wrote row) → lived (m :: p) ↔ lived p.
Proof.
  intros Ho Hm. unfold lived. split; intros [_ [row Hr]].
  - split; [done|]. apply elem_of_cons in Hr as [E|?]; [by destruct (Hm row)|eauto].
  - split; [by right|]. exists row. by right.
Qed.

Section Ledger.
Context (url_parse : list Z → option Url.t) (header_value : list Z → bool) (sha256 : list Z → list Z) (secrets : Secrets.t).
Context `{!UrlLaws url_parse} `{!UrlNormal url_parse} `{!SecretsLaws secrets} (sha256_length : ∀ b, length (sha256 b) = 32%nat).
Notation Books := (Books url_parse header_value).
Notation load_row := (load url_parse header_value sha256 secrets).
Notation good_row := (good_row url_parse header_value sha256 secrets).

Definition kept (p : list Moment) : Prop := lived p → good_row (last_row p) ∧ ∃ saved, load_row (last_row p) = Ok (Some saved) ∧
  ∀ t id, given p t id → owes p (SavedJob.id <$> Snapshot.jobs saved) (Snapshot.receipts saved) t id.
Definition row_is (p : list Moment) (s : Snapshot.t) : Prop :=
  ∃ saved, load_row (last_row p) = Ok (Some saved) ∧ still saved = still (reread s).

Record LedgerOf (p : list Moment) (acks : list (Z * Answer)) (s : Snapshot.t) (failure : option ManagerError.t)
    (dirty held closing : bool) : Prop := {
  lg_always : Always kept p;
  lg_opened : Opened ∈ p;
  lg_owes : ∀ t id, given p t id ∨ (t, Given id) ∈ acks → owes p (SavedJob.id <$> Snapshot.jobs s) (Snapshot.receipts s) t id;
  lg_disk : lived p → failure = None → dirty = false → row_is p s;
  lg_held : lived p → failure = None → held = true;
  lg_plain : held = true → lived p;
  lg_failed : failure ≠ None → closing = true }.
Definition Ledger (s : Actor.t) : Prop :=
  LedgerOf (Actor.trace s) (Actor.acks s) (snapshot_of s) (Actor.failure s) (Actor.dirty s) (Actor.held s) (Actor.closing s).

Lemma still_ids s s' : still s = still s' → SavedJob.id <$> Snapshot.jobs s = SavedJob.id <$> Snapshot.jobs s' ∧
  Snapshot.receipts s = Snapshot.receipts s'.
Proof.
  intros E. injection E as _ E2 _ E4 _. split; [|done].
  assert (∀ l : list SavedJob.t, SavedJob.id <$> (still_job <$> l) = SavedJob.id <$> l) as Hs.
  { intros l. rewrite <-list_fmap_compose. by apply list_fmap_ext. }
  by rewrite <-Hs, E4, Hs.
Qed.
Lemma row_is_facts p s : row_is p s → ∃ saved, load_row (last_row p) = Ok (Some saved) ∧
  SavedJob.id <$> Snapshot.jobs saved = SavedJob.id <$> Snapshot.jobs s ∧ Snapshot.receipts saved = Snapshot.receipts s.
Proof.
  intros (saved&Hl&E). exists saved. split; [done|]. destruct (still_ids _ _ E) as [Ei Er]. split; [|done].
  rewrite Ei. apply reread_ids.
Qed.

(** ** Moments *)

(** The books change and are to be saved. *)
Record Moved (s s' : Snapshot.t) (acks acks' : list (Z * Answer)) : Prop := {
  mv_ids : SavedJob.id <$> Snapshot.jobs s' = SavedJob.id <$> Snapshot.jobs s;
  mv_receipts : Snapshot.receipts s' = Snapshot.receipts s;
  mv_acks : ∀ t id, (t, Given id) ∈ acks' → (t, Given id) ∈ acks }.
Lemma ledger_moved p acks acks' s s' failure failure' dirty dirty' held closing closing' : Moved s s' acks acks' →
  (lived p → failure' = None → failure = None ∧ dirty' = true) → (failure' ≠ None → closing' = true) →
  LedgerOf p acks s failure dirty held closing → LedgerOf p acks' s' failure' dirty' held closing'.
Proof.
  intros [Hi Hr Ha] Hd Hc [H1 H2 H3 H4 H5 H6 H7]. split; try done.
  - intros t id H. rewrite Hi, Hr. apply H3. destruct H; auto.
  - intros Hl Hf Hn. destruct (Hd Hl Hf). congruence.
  - intros Hl Hf. destruct (Hd Hl Hf). auto.
Qed.
(** Nothing changes that a start would see. *)
Lemma still_reread s s' : still s = still s' → still (reread s) = still (reread s').
Proof.
  assert (∀ s, still (reread s) = reread (still s)) as E.
  { intros []. unfold still, reread. cbn. f_equal. rewrite <-!list_fmap_compose. by apply list_fmap_ext. }
  rewrite !E. by intros ->.
Qed.
Lemma ledger_still p acks s s' failure dirty held closing : still s = still s' →
  LedgerOf p acks s failure dirty held closing → LedgerOf p acks s' failure dirty held closing.
Proof.
  intros E [H1 H2 H3 H4 H5 H6 H7]. destruct (still_ids _ _ E) as [Ei Er]. split; try done.
  - by rewrite <-Ei, <-Er.
  - intros Hl Hf Hd. destruct (H4 Hl Hf Hd) as (saved&Hs&E'). exists saved. split; [done|]. rewrite E'. by apply still_reread.
Qed.
(** Whatever is not a row, a command or a grant changes nothing. *)
Lemma kept_later m p : Opened ∈ p → (∀ row, m ≠ Wrote row) → (∀ t c, m ≠ Heard t c) → (∀ t id, m ≠ Answered t (Ok (Given id))) →
  kept p → kept (m :: p).
Proof.
  intros Ho Hw Hh Ha Hk Hl. apply lived_later in Hl; [|done..]. destruct (Hk Hl) as (Hg&saved&Hs&Hall).
  assert (last_row (m :: p) = last_row p) as E by (destruct m; try done; by destruct (Hw row)). rewrite E. split; [done|].
  exists saved. split; [done|]. intros t id [Heq|Hin]%elem_of_cons; [by destruct (Ha t id)|]. apply owes_later; [by apply Hall|]. intros c. apply Hh.
Qed.
Lemma ledger_silent m p acks s failure dirty held closing :
  (∀ row, m ≠ Wrote row) → (∀ t c, m ≠ Heard t c) → (∀ t id, m ≠ Answered t (Ok (Given id))) →
  LedgerOf p acks s failure dirty held closing → LedgerOf (m :: p) acks s failure dirty held closing.
Proof.
  intros Hw Hh Ha [H1 H2 H3 H4 H5 H6 H7].
  assert (last_row (m :: p) = last_row p) as E by (destruct m; try done; by destruct (Hw row)).
  split; try done.
  - constructor; [|done]. apply kept_later; try done. inversion H1; subst; [by apply not_elem_of_nil in H2|done].
  - by right.
  - intros t id [[Heq|Hin]%elem_of_cons|Hin]; [by destruct (Ha t id)|apply owes_later; [apply H3; by left|intros; apply Hh]|].
    apply owes_later; [apply H3; by right|intros; apply Hh].
  - rewrite lived_later by done. intros Hl Hf Hd. unfold row_is. rewrite E. by apply H4.
  - by rewrite lived_later.
  - by rewrite lived_later.
Qed.
Lemma ledger_heard t c p acks s failure dirty held closing : ¬ asked p t →
  LedgerOf p acks s failure dirty held closing → LedgerOf (Heard t c :: p) acks s failure dirty held closing.
Proof.
  intros Hfresh [H1 H2 H3 H4 H5 H6 H7].
  assert (∀ t' id ids receipts, owes p ids receipts t' id → owes (Heard t c :: p) ids receipts t' id) as Howes.
  { intros t' id l receipts Ho. apply owes_later; [done|]. intros c' [= <- <-]. apply Hfresh, Ho. }
  assert (lived (Heard t c :: p) ↔ lived p) as Hlived by (by apply lived_later).
  split; try done.
  - constructor; [|done]. intros Hl%Hlived. inversion H1 as [|m q Hk Hq]; subst; [by apply not_elem_of_nil in H2|].
    destruct (Hk Hl) as (Hg&saved&Hs&Hall). split; [done|]. exists saved. split; [done|].
    intros t' id [Heq|Hin]%elem_of_cons; [done|]. by apply Howes, Hall.
  - by right.
  - intros t' id [[Heq|Hin]%elem_of_cons|Hin]; [done|apply Howes, H3; by left|apply Howes, H3; by right].
  - rewrite Hlived. exact H4.
  - by rewrite Hlived.
  - by rewrite Hlived.
Qed.
(** A grant is answered when the row holds it. *)
Lemma ledger_granted t id p acks s failure dirty held closing :
  (lived p → row_is p s) → owes p (SavedJob.id <$> Snapshot.jobs s) (Snapshot.receipts s) t id →
  LedgerOf p acks s failure dirty held closing → LedgerOf (Answered t (Ok (Given id)) :: p) acks s failure dirty held closing.
Proof.
  intros Hrow Ho [H1 H2 H3 H4 H5 H6 H7].
  assert (lived (Answered t (Ok (Given id)) :: p) ↔ lived p) as Hlived by (by apply lived_later).
  split; try done.
  - constructor; [|done]. intros Hl%Hlived. inversion H1 as [|m q Hk Hq]; subst; [by apply not_elem_of_nil in H2|].
    destruct (Hk Hl) as (Hg&saved&Hs&Hall). split; [done|]. exists saved. split; [done|].
    intros t' id' [[= <- <-]|Hin]%elem_of_cons; apply owes_later; try done; [|by apply Hall].
    destruct (row_is_facts _ _ (Hrow Hl)) as (saved'&Hs'&Ei&Er). rewrite Hs in Hs'. injection Hs' as <-. by rewrite Ei, Er.
  - by right.
  - intros t' id' [[[= <- <-]|Hin]%elem_of_cons|Hin]; apply owes_later; try done; [apply H3; by left|apply H3; by right].
  - rewrite Hlived. exact H4.
  - by rewrite Hlived.
  - by rewrite Hlived.
Qed.
(** A row is written. *)
Lemma ledger_wrote row p acks s failure dirty held closing failure' dirty' held' closing' :
  lived p → (row = last_row p ∨ good_row row ∧ row_is (Wrote row :: p) s) →
  (failure' = None → dirty' = false → row_is (Wrote row :: p) s) → (failure' = None → held' = true) →
  (failure' ≠ None → closing' = true) →
  LedgerOf p acks s failure dirty held closing → LedgerOf (Wrote row :: p) acks s failure' dirty' held' closing'.
Proof.
  intros Hl Hrow Hdisk Hheld Hfail [H1 H2 H3 H4 H5 H6 H7].
  assert (lived (Wrote row :: p)) as Hl' by (split; [by right|exists row; by left]).
  assert (∀ t id, given (Wrote row :: p) t id → given p t id) as Hgiven by (by intros t id [?|?]%elem_of_cons).
  constructor; auto.
  - constructor; [|done]. intros _. inversion H1 as [|m q Hk Hq]; subst; [by apply not_elem_of_nil in H2|].
    destruct Hrow as [->|[Hg Hr]].
    + destruct (Hk Hl) as (Hg&saved&Hs&Hall). split; [done|]. exists saved. split; [done|]. intros t id Hin%Hgiven.
      apply owes_later; [by apply Hall|done].
    + destruct (row_is_facts _ _ Hr) as (saved&Hs&Ei&Er). split; [done|]. exists saved. split; [done|]. intros t id Hin%Hgiven.
      apply owes_later; [|done]. rewrite Ei, Er. apply H3. by left.
  - by right.
  - intros t id H. apply owes_later; [|done]. apply H3. destruct H as [H%Hgiven|H]; auto.
Qed.
End Ledger.

(** * Every turn keeps what the queue promised

    The ledger of [ManagerTrace] through the phases of a turn of the loop of [run] (manager.rs). *)

(** What a snapshot shows of a job, its progress apart, is not changed. *)
Definition quiet (f : QueueJob.t → QueueJob.t) : Prop :=
  ∀ id job, still_job (saved_job (id, f job)) = still_job (saved_job (id, job)).
Lemma still_alter id f (jobs : list (Z * QueueJob.t)) : quiet f → still_job <$> (saved_job <$> alter_job id f jobs) = still_job <$> (saved_job <$> jobs).
Proof.
  intros Hf. induction jobs as [|[k j] jobs IH]; cbn; [done|]. case_decide; cbn; [by rewrite (Hf k j)|]. f_equal. exact IH.
Qed.
Lemma still_map f (jobs : list (Z * QueueJob.t)) : quiet f → still_job <$> (saved_job <$> (prod_map (@id Z) f <$> jobs)) = still_job <$> (saved_job <$> jobs).
Proof. intros Hf. induction jobs as [|[k j] jobs IH]; cbn; [done|]. rewrite (Hf k j). f_equal. exact IH. Qed.

Section Phases.
Context (url_parse : list Z → option Url.t) (header_value : list Z → bool) (sha256 : list Z → list Z) (secrets : Secrets.t).
Context `{!UrlLaws url_parse} `{!UrlNormal url_parse} `{!SecretsLaws secrets} (sha256_length : ∀ b, length (sha256 b) = 32%nat).
Notation Books := (Books url_parse header_value).
Notation LedgerOf := (LedgerOf url_parse header_value sha256 secrets).
Notation Ledger := (Ledger url_parse header_value sha256 secrets).
Notation row_is := (row_is url_parse header_value sha256 secrets).
Notation good_row := (good_row url_parse header_value sha256 secrets).

(** The same trace, jobs and receipts; the change is to be saved, or the actor has failed. *)
Lemma ledger_change s s' : Ledger s → ids (Actor.jobs s') = ids (Actor.jobs s) → Actor.receipts s' = Actor.receipts s →
  (∀ t id, (t, Given id) ∈ Actor.acks s' → (t, Given id) ∈ Actor.acks s) → Actor.trace s' = Actor.trace s → Actor.held s' = Actor.held s →
  (Actor.failure s' = None → Actor.failure s = None ∧ Actor.dirty s' = true) →
  (Actor.failure s' ≠ None → Actor.closing s' = true) → Ledger s'.
Proof.
  intros H Hi Hr Ha Ht Hh Hd Hc. unfold ManagerTrace.Ledger. rewrite Ht, Hh. eapply ledger_moved; [|intros _; exact Hd|exact Hc|exact H].
  split; cbn; rewrite ?saved_ids; done.
Qed.
Lemma ledger_stop s : Ledger s → Actor.failure s = None → Actor.closing s = true → Ledger (Actor.set_dirty true (stop s)).
Proof. intros H Hf Hc. eapply ledger_change; [exact H|apply ids_map|done..|]. intros _. exact Hc. Qed.
Lemma ledger_failed e s : Ledger s → Ledger (abandon e s).
Proof. intros H. by eapply ledger_change; [exact H|apply ids_map|..]. Qed.
Lemma ledger_closing s c d : Ledger s → Actor.failure s = None → Ledger (Actor.set_closing c (Actor.set_closed d s)).
Proof. intros [H1 H2 H3 H4 H5 H6 H7] Hf. by split. Qed.
Lemma ledger_quiet s jobs : still_job <$> (saved_job <$> jobs) = still_job <$> (saved_job <$> Actor.jobs s) → Ledger s → Ledger (Actor.set_jobs jobs s).
Proof. intros E. apply ledger_still. unfold still. cbn. by rewrite E. Qed.

Lemma ledger_reports l s : Ledger s → Ledger (foldl reported s l).
Proof.
  revert s. induction l as [|r l IH]; intros s H; [done|]. cbn. apply IH. unfold reported. destruct (take_worker _ _) as [[id ?]|]; [|done].
  apply ledger_quiet; [|done]. by apply still_alter.
Qed.
Lemma retry_due_nothing now jobs : filter (λ j : Z * QueueJob.t, retry_is_due now j.2 = true) jobs = [] →
  prod_map (@id Z) (requeue now) <$> jobs = jobs.
Proof.
  induction jobs as [|[k j] jobs IH]; [done|]. rewrite filter_cons. cbn. case_decide as E; [done|]. intros Hn.
  unfold requeue at 1. destruct (retry_is_due now j); [done|]. f_equal. by apply IH.
Qed.
Lemma ledger_open s : Ledger s → Actor.closing s = false → Actor.failure s = None.
Proof.
  intros [_ _ _ _ _ _ Hf] Hc. destruct (Actor.failure s) as [e|]; [|done]. rewrite Hf in Hc by done. done.
Qed.
Lemma ledger_retry now s : Ledger s → Actor.closing s = false → Ledger (retry_due now s).
Proof.
  intros H Hc. pose proof (ledger_open _ H Hc) as Hf. unfold retry_due. set (due := filter _ _). destruct due as [|j l] eqn:E; subst due.
  - unfold ManagerTrace.Ledger, snapshot_of. cbn. rewrite orb_false_r, app_nil_r, retry_due_nothing by exact E. exact H.
  - eapply ledger_change; [exact H|apply ids_map|try done..]. cbn. intros _. by rewrite orb_true_r.
Qed.
Lemma ledger_begin now s : Ledger s → Ledger (begin_turn now s).
Proof.
  intros H. unfold begin_turn. destruct (poll s) as [gone s'] eqn:Hp. apply poll_frame in Hp as ->.
  assert (∀ s1, Ledger s1 → Ledger (if Actor.closing s1 then s1 else retry_due now s1)) as Hdue.
  { intros s1 H1. destruct (Actor.closing s1) eqn:Hc; [done|]. by apply ledger_retry. }
  apply Hdue. destruct (gone && _) eqn:E; [|exact H]. apply andb_true_iff in E as [_ Hc]. apply negb_true_iff in Hc.
  pose proof (ledger_open _ H Hc) as Hf. apply ledger_stop; try done.
  exact (ledger_closing (Actor.set_closed gone (Actor.set_polls _ s)) true true H Hf).
Qed.

(** *** A save, and what follows from how it ends *)

(** Only a save that did not fail leaves an actor that has not. *)
Lemma ledger_saved hot s r s1 closing failure' dirty' closing' : Books hot s →
  LedgerOf (Actor.trace s) (Actor.acks s) (snapshot_of s) None true (Actor.held s) closing → save_state sha256 secrets s = (r, s1) →
  (failure' = None → r = Ok ()) → (failure' ≠ None → closing' = true) →
  LedgerOf (Actor.trace s1) (Actor.acks s1) (snapshot_of s1) failure' dirty' (Actor.held s1) closing'.
Proof.
  intros Hb H Hs Herr Hc. destruct (save_state_row _ _ _ _ sha256_length _ _ _ _ Hb Hs) as [(Hh&->&->)|(row&h&f&->&Hh&Hrow&Hok)].
  - assert (¬ lived (Actor.trace s)) as Hn by (intros Hl; pose proof (lg_held _ _ _ _ _ _ _ _ _ _ _ H Hl eq_refl); congruence).
    eapply ledger_moved; [done| |exact Hc|exact H]. intros Hl. by destruct Hn.
  - cbn.
    assert (Actor.held s = true) as Hheld.
    { destruct (Actor.held s) eqn:E; [done|]. unfold save_state in Hs. rewrite E in Hs. cbn in Hs. exfalso. injection Hs as _ Hs.
      apply (f_equal Actor.trace) in Hs. cbn in Hs. by apply (f_equal length) in Hs; cbn in Hs; lia. }
    eapply ledger_wrote; [by apply H|destruct Hrow as [?|[? ?]]; [by left|by right]|..|exact Hc|exact H].
    + intros Hf _. by apply Hok, Herr.
    + intros Hf. by apply Hh, Herr.
Qed.

Lemma ledger_save s : Books None s → Ledger s → Ledger (save_phase sha256 secrets s) ∧
  (Actor.failure (save_phase sha256 secrets s) = None → Actor.dirty (save_phase sha256 secrets s) = false).
Proof.
  intros Hb H. unfold save_phase. destruct (Actor.dirty s) eqn:Hd; cbn [andb]; [|done].
  destruct (Actor.failure s) as [e|] eqn:Hf; [rewrite bool_decide_false by done; by rewrite Hf|]. rewrite bool_decide_true by done.
  destruct (save_state _ _ s) as [r s1] eqn:Hs. split; [|done].
  unfold ManagerTrace.Ledger in H. rewrite Hd, Hf in H. pose proof (ledger_saved None s r s1 _ None false (Actor.closing s1) Hb H Hs) as Hok.
  pose proof (ledger_saved None s r s1 _ (Some ManagerError.WorkerFailed) true true Hb H Hs) as Herr.
  destruct r as [[]|e].
  - apply (ledger_quiet (Actor.set_dirty false s1)); [by apply still_map|]. unfold ManagerTrace.Ledger.
    apply save_state_frame in Hs as (h&f&tr&->). cbn in *. rewrite Hf. by apply Hok.
  - apply (ledger_change (Actor.set_failure (Some ManagerError.WorkerFailed) (Actor.set_closing true (Actor.set_dirty true s1))));
      [by apply Herr|apply ids_map|done..].
Qed.

(** ** Answers *)

Lemma ledger_answer ticket a s : Ledger s → (Actor.failure s = None → Actor.dirty s = false) → (ticket, a) ∈ Actor.acks s →
  Ledger (answer ticket (match Actor.failure s with Some e => Err e | None => Ok a end) s).
Proof.
  intros H Hd Hin. unfold answer. destruct (Actor.failure s) as [e|] eqn:Hf; [by apply ledger_silent|].
  destruct a as [|id]; [by apply ledger_silent|]. apply ledger_granted; [| |exact H].
  - intros Hl. eapply lg_disk; [exact H|done|done|auto].
  - eapply lg_owes; [exact H|by right].
Qed.
Lemma ledger_drain s : Ledger s → (Actor.failure s = None → Actor.dirty s = false) → Ledger (drain_acks s).
Proof.
  intros H Hd. unfold drain_acks.
  assert (∀ l σ, Ledger σ → (Actor.failure σ = None → Actor.dirty σ = false) → l ⊆ Actor.acks σ →
    Ledger (foldl (λ s '(ticket, a), answer ticket (match Actor.failure s with Some e => Err e | None => Ok a end) s) σ l)) as Hfold.
  { induction l as [|[t a] l IH]; intros σ Hσ Hdirty Hin; [done|]. cbn [foldl]. apply IH; [|done|cbn; set_solver].
    apply ledger_answer; [done|done|set_solver]. }
  destruct (Hfold _ _ H Hd (reflexivity _)) as [H1 H2 H3 H4 H5 H6 H7]. split; try done.
  intros t id [Hg|Hin]; [apply H3; by left|by apply not_elem_of_nil in Hin].
Qed.

(** ** Starting workers *)

Lemma picked_ledger s i id job r s3 failure' dirty' closing' : Books None s → Ledger s → Pick s i id job →
  save_state sha256 secrets (picked s i id) = (r, s3) → (failure' = None → r = Ok ()) → (failure' ≠ None → closing' = true) →
  LedgerOf (Actor.trace s3) (Actor.acks s3) (snapshot_of s3) failure' dirty' (Actor.held s3) closing'.
Proof.
  intros Hb H Hp Hs Hr Hc. pose proof (ledger_open _ H (pk_open _ _ _ _ Hp)) as Hf.
  assert (Books (Some id) (picked s i id)) as Hb'.
  { destruct Hp as [? ? ? ? ? ? ?]. by eapply prepare_books. }
  eapply ledger_saved; [exact Hb'| |exact Hs|exact Hr|exact Hc].
  eapply (ledger_moved _ _ _ _ _ _ (Actor.acks s)); [| |done|exact H]; [|done].
  split; [|done|done]. cbn. by rewrite !saved_ids, ids_alter.
Qed.
Lemma starts_ledger s s' : Starts sha256 secrets s s' → Books None s → Ledger s → (Actor.failure s = None → Actor.dirty s = false) →
  Ledger s' ∧ (Actor.closing s' = false → Actor.dirty s' = false).
Proof.
  induction 1 as [s|s i id job e s3 Hp Hs|s i id job s3 s4 Hp Hs Hpoll|s i id job s3 s4 s' Hp Hs Hpoll _ IH]; intros Hb H Hd.
  - split; [done|]. intros Hc. by apply Hd, ledger_open.
  - split; [|done]. pose proof (picked_ledger _ _ _ _ _ _ (Some e) true true Hb H Hp Hs ltac:(done) ltac:(done)) as H3.
    apply (ledger_change (Actor.set_failure (Some e) (Actor.set_closing true (Actor.set_dirty true s3)))); [exact H3| |done..].
    cbn. by rewrite ids_alter, ids_map.
  - split; [|done]. pose proof (picked_ledger _ _ _ _ _ _ None true true Hb H Hp Hs ltac:(done) ltac:(done)) as H3.
    apply poll_frame in Hpoll as ->.
    assert (Actor.failure s3 = None) as Hf by (apply save_state_frame in Hs as (h&f&tr&->); exact (ledger_open _ H (pk_open _ _ _ _ Hp))).
    apply (ledger_change (Actor.set_failure None (Actor.set_closing true (Actor.set_dirty true s3)))); [exact H3| |done..].
    cbn. by rewrite ids_alter, ids_map.
  - pose proof (ledger_open _ H (pk_open _ _ _ _ Hp)) as Hf.
    pose proof (picked_ledger _ _ _ _ _ _ None false (Actor.closing s) Hb H Hp Hs ltac:(done) ltac:(done)) as H3.
    assert (Actor.failure s3 = None ∧ Actor.dirty s3 = Actor.dirty s ∧ Actor.closing s3 = Actor.closing s) as (Hf3&Hd3&Hc3)
      by (apply save_state_frame in Hs as (h&f&tr&->); done).
    apply IH; [by eapply spawned_books| |].
    + apply poll_frame in Hpoll as ->. apply ledger_silent; [done..|].
      apply (ledger_quiet s3); [by apply still_alter|]. unfold ManagerTrace.Ledger. by rewrite Hf3, Hd3, Hc3, Hd.
    + apply poll_frame in Hpoll as ->. intros _. cbn. rewrite Hd3. by apply Hd.
Qed.
Lemma starts_acks s s' : Starts sha256 secrets s s' → Actor.acks s' = Actor.acks s.
Proof.
  induction 1 as [s|s i id job e s3 Hp Hs|s i id job s3 s4 Hp Hs Hpoll|s i id job s3 s4 s' Hp Hs Hpoll _ IH]; [done|..];
    try apply poll_frame in Hpoll as ->; apply save_state_frame in Hs as (h&f&tr&->); done.
Qed.

(** ** The turn up to its event *)

Lemma ledger_before t s : Forall (λ r, within s r.1 r.2) (Turn.reports t) → Books None s → Ledger s →
  let s' := before_select sha256 secrets t s in
  Ledger s' ∧ (Actor.closing s' = false → Actor.dirty s' = false) ∧ Actor.acks s' = [].
Proof.
  intros Hr Hb H s'. subst s'. unfold before_select. cbv zeta. set (s0 := Actor.set_fates _ _).
  assert (Books None s0 ∧ Ledger s0) as [Hb0 H0] by (split; [by apply outside_books, all_reported_books|by apply (ledger_reports _ s)]).
  clearbody s0. clear Hb H. set (s1 := begin_turn _ s0).
  assert (Books None s1 ∧ Ledger s1) as [Hb1 H1] by (split; [by apply begin_turn_books|by apply ledger_begin]). clearbody s1.
  destruct (ledger_save s1 Hb1 H1) as [H2 Hd2]. pose proof (save_phase_books _ _ sha256 secrets s1 Hb1) as Hb2. set (s2 := save_phase _ _ s1) in *.
  pose proof (ledger_drain _ H2 Hd2) as H3. pose proof (drain_acks_books _ _ _ Hb2) as Hb3.
  pose proof (start_workers_starts sha256 secrets (S (length (Actor.queue (drain_acks s2)))) (drain_acks s2)) as Hs.
  destruct (starts_ledger _ _ Hs Hb3 H3) as [H4 Hd4].
  - destruct (drain_acks_frame s2) as (tr&->&_). exact Hd2.
  - split; [exact H4|]. split; [exact Hd4|]. exact (starts_acks _ _ Hs).
Qed.
Lemma ledger_finish s : Books None s → Ledger s → Actor.closing s = true → Ledger (finish_run sha256 secrets s).
Proof.
  intros Hb H Hc. unfold finish_run. destruct (Actor.dirty s) eqn:Hd; cbn [andb]; [|exact H].
  destruct (Actor.failure s) as [e|] eqn:Hf; [rewrite bool_decide_false by done; exact H|]. rewrite bool_decide_true by done.
  destruct (save_state _ _ s) as [r s1] eqn:Hs. unfold ManagerTrace.Ledger in H. rewrite Hd, Hf in H.
  pose proof (λ f Hr, ledger_saved None s r s1 _ f true true Hb H Hs Hr (λ _, eq_refl)) as H1.
  assert (Actor.failure s1 = None ∧ Actor.dirty s1 = true ∧ Actor.closing s1 = true) as (Hf1&Hd1&Hc1)
    by (apply save_state_frame in Hs as (h&f&tr&->); done).
  unfold ManagerTrace.Ledger. destruct r as [[]|e]; cbn; rewrite ?Hf1, Hd1, Hc1; by apply H1.
Qed.
End Phases.

(** * Commands keep what the queue promised

    The ledger of [ManagerTrace] through the event of a turn, and so through whole turns. *)

Section Promises.
Context (url_parse : list Z → option Url.t) (header_value : list Z → bool) (sha256 : list Z → list Z) (secrets : Secrets.t).
Context `{!UrlLaws url_parse} `{!UrlNormal url_parse} `{!SecretsLaws secrets} (sha256_length : ∀ b, length (sha256 b) = 32%nat).
Notation Books := (Books url_parse header_value).
Notation Ledger := (Ledger url_parse header_value sha256 secrets).

Lemma owes_grows p ids ids' receipts receipts' t id : owes p ids receipts t id → (id ∈ ids → id ∈ ids' ∨ forgotten p id) →
  (∀ h, receipt_of receipts h id → receipt_of receipts' h id) → owes p ids' receipts' t id.
Proof. intros (Ha&Hid&Hr) Hids Hrec. split; [done|]. split; [|eauto]. destruct Hid; auto. Qed.
(** The jobs and the receipts change; the change is to be saved, and the actor has not failed. *)
Lemma ledger_grown s s' : Ledger s → Actor.trace s' = Actor.trace s → Actor.held s' = Actor.held s →
  Actor.failure s = None → Actor.failure s' = None → Actor.dirty s' = true →
  (∀ id, id ∈ ids (Actor.jobs s) → id ∈ ids (Actor.jobs s') ∨ forgotten (Actor.trace s) id) →
  (∀ k id, receipt_of (Actor.receipts s) k id → receipt_of (Actor.receipts s') k id) →
  (∀ t id, (t, Given id) ∈ Actor.acks s' → (t, Given id) ∈ Actor.acks s ∨
    owes (Actor.trace s) (ids (Actor.jobs s')) (Actor.receipts s') t id) → Ledger s'.
Proof.
  intros [H1 H2 H3 H4 H5 H6 H7] Ht Hh Hf Hf' Hd Hids Hrec Hacks. split; rewrite ?Ht, ?Hh, ?Hf', ?Hd in *; try done; [|by auto].
  intros t id H. cbn in *. rewrite saved_ids in *.
  assert (owes (Actor.trace s) (ids (Actor.jobs s)) (Actor.receipts s) t id → owes (Actor.trace s) (ids (Actor.jobs s')) (Actor.receipts s') t id) as Hg.
  { intros Ho. eapply owes_grows; [exact Ho|auto|auto]. }
  destruct H as [H|[H|H]%Hacks]; auto.
Qed.
(** The actor before it handles a command. *)
Record Open (s : Actor.t) : Prop := {
  op_ledger : Ledger s; op_failure : Actor.failure s = None; op_dirty : Actor.dirty s = false; op_acks : Actor.acks s = [] }.
Lemma ledger_refuse ticket e s : Open s → Ledger (answer ticket (Err e) s).
Proof. intros H. by apply ledger_silent, H. Qed.
Lemma ledger_done ticket s s' : Open s → ids (Actor.jobs s') = ids (Actor.jobs s) → Actor.receipts s' = Actor.receipts s →
  Actor.acks s' = [] → Actor.trace s' = Actor.trace s → Actor.held s' = Actor.held s → Actor.failure s' = None →
  Ledger (acknowledge ticket Done s').
Proof.
  intros [H Hf Hd Ha] Hi Hr Ha' Ht Hh Hf'. eapply ledger_change; [exact H|done|done| |done|done| |]; cbn; rewrite ?Hf', ?Ha'; try done.
  intros t id Hin. by apply list_elem_of_singleton in Hin.
Qed.

Lemma resume_each_frame l s : ids (Actor.jobs (resume_each l s)) = ids (Actor.jobs s) ∧ Actor.receipts (resume_each l s) = Actor.receipts s ∧
  Actor.acks (resume_each l s) = Actor.acks s ∧ Actor.trace (resume_each l s) = Actor.trace s ∧
  Actor.held (resume_each l s) = Actor.held s ∧ Actor.failure (resume_each l s) = Actor.failure s.
Proof.
  revert s. induction l as [|id l IH]; intros s; [done|]. cbn [resume_each].
  match goal with |- context [resume_each l ?x] => destruct (IH x) as (->&->&->&->&->&->) end. clear IH.
  destruct (find_job id (Actor.jobs s)) as [job|]; [|done]. destruct (resumable _); [|done].
  case_decide; cbn; by rewrite ids_alter.
Qed.
Lemma ledger_working s s' : Ledger s → ids (Actor.jobs s') = ids (Actor.jobs s) → Actor.receipts s' = Actor.receipts s →
  (∀ t id, (t, Given id) ∈ Actor.acks s' → (t, Given id) ∈ Actor.acks s) → Actor.trace s' = Actor.trace s → Actor.held s' = Actor.held s →
  Actor.failure s' = Actor.failure s → Actor.closing s' = Actor.closing s → Actor.dirty s' = true → Ledger s'.
Proof.
  intros H Hi Hr Ha Ht Hh Hf Hc Hd. eapply ledger_change; [exact H|done..| |].
  - by rewrite Hf, Hd.
  - rewrite Hf, Hc. intros Hn. by eapply lg_failed.
Qed.
Lemma joined_ledger later task outcome s : Ledger s → Ledger (on_joined later task outcome s).
Proof.
  intros H. unfold on_joined. destruct (take_worker _ _) as [[id rest]|]; [|done]. cbn [Actor.jobs Actor.set_workers].
  destruct (find_job id _) as [job|]; [|exact H].
  set (job' := if (_ && _ : bool) then _ else _). set (s' := Actor.set_dirty true _).
  assert (Ledger s') as H' by (eapply ledger_working; [exact H|apply ids_alter|done..]).
  destruct (QueueJob.pause_reply job') as [ticket|]; [|exact H'].
  assert (Ledger (Actor.set_acks (Actor.acks s' ++ [(ticket, Done)]) s')) as Hd.
  { eapply ledger_working; [exact H'|done..| |done|done|done|done|done].
    intros t k [?|Hin]%elem_of_app; [done|]. by apply list_elem_of_singleton in Hin. }
  destruct (QueueJob.state job'); try exact Hd. by apply ledger_silent.
Qed.

(** ** Commands *)

Lemma receipt_in s h r : find (λ r, bool_decide (QueueReceipt.key_hash r = h)) (Actor.receipts s) = Some r →
  r ∈ Actor.receipts s ∧ QueueReceipt.key_hash r = h.
Proof. intros [Hin Hk]%find_some. apply bool_decide_eq_true in Hk. split; [by apply list_elem_of_In|done]. Qed.
(** A new download is granted: [p] is its command, heard for the first time. *)
Lemma enqueue_new_ledger ticket o priority admission path s : Open s → Books None s → OptionsHeld url_parse header_value o →
  Heard ticket (QueueCommand.Enqueue o priority admission) ∈ Actor.trace s →
  (∀ c, Heard ticket c ∈ Actor.trace s → c = QueueCommand.Enqueue o priority admission) →
  Ledger (enqueue_new url_parse ticket o priority admission path s).
Proof.
  intros Hs Hb Ho Hheard Honly. unfold enqueue_new. case_decide as Hroom; [by apply ledger_refuse|].
  destruct (origin_of _ o) as [origin|e]; [|by apply ledger_refuse]. destruct path as [key| |]; [|by apply ledger_refuse..].
  destruct (existsb _ _); [by apply ledger_refuse|]. destruct (checked_add _ _) as [id|] eqn:Hid; [|by apply ledger_refuse].
  pose proof (oh_valid _ _ _ Ho) as Hv. apply validate_options_Ok in Hv as (_&_&_&_&_&_&_&_&_&_&_&Hrate&_). rewrite Hrate. cbn [negb].
  destruct Hs as [H Hf Hd Ha]. eapply ledger_grown; [exact H|by destruct admission|by destruct admission|done|by destruct admission|done|..].
  - intros k Hk. left. destruct admission; cbn; rewrite fmap_app, elem_of_app; by left.
  - intros k i (r&Hr&?&?). exists r. split; [|done]. destruct admission; cbn; [|done]. rewrite elem_of_app. by left.
  - intros t k Hin. assert ((t, Given k) ∈ [(ticket, Given id)]) as Hnew by (destruct admission; cbn in Hin; by rewrite Ha in Hin).
    apply list_elem_of_singleton in Hnew as [= -> ->]. right. split; [by eexists|]. split.
    + left. destruct admission; cbn; rewrite fmap_app, elem_of_app; right; by left.
    + intros o' p' h [= <- <- <-]%Honly. eexists. cbn. rewrite elem_of_app. split; [right; by left|done].
Qed.
Lemma on_enqueue_ledger ticket o priority admission path s : Open s → Books None s → OptionsHeld url_parse header_value o →
  Heard ticket (QueueCommand.Enqueue o priority admission) ∈ Actor.trace s →
  (∀ c, Heard ticket c ∈ Actor.trace s → c = QueueCommand.Enqueue o priority admission) →
  Ledger (on_enqueue url_parse ticket o priority admission path s).
Proof.
  intros Hs Hb Ho Hheard Honly. unfold on_enqueue. destruct admission as [h|]; [|by apply enqueue_new_ledger].
  destruct (negb _); [by apply ledger_refuse|]. destruct (find _ _) as [r|] eqn:Hfind.
  - case_decide as Hsame; [by apply ledger_refuse|]. destruct (QueueReceipt.removed r) eqn:Hrem; [by apply ledger_refuse|].
    apply receipt_in in Hfind as [Hin Hk]. pose proof (bk_receipts _ _ _ _ _ _ _ _ _ _ Hb) as Hr. rewrite Forall_forall in Hr.
    destruct (Hr r Hin) as [_ _ _ Hr']. rewrite Hrem in Hr'. symmetry in Hr'. apply bool_decide_eq_false in Hr'.
    destruct Hs as [H Hf Hd Ha]. apply ledger_granted; [| |exact H].
    + intros Hl. by eapply lg_disk.
    + cbn. rewrite saved_ids. split; [by eexists|]. split; [left; by destruct (decide (QueueReceipt.job_id r ∈ ids (Actor.jobs s)))|].
      intros o' p' h' [= -> -> ->]%Honly. by exists r.
  - case_decide; [by apply ledger_refuse|]. by apply enqueue_new_ledger.
Qed.
Ltac done_with H := eapply ledger_done; [eassumption|apply H|assumption || done..].
Lemma on_command_ledger ticket c path b s : Open s → Books None s → Sound url_parse header_value c →
  Heard ticket c ∈ Actor.trace s → (∀ c', Heard ticket c' ∈ Actor.trace s → c' = c) →
  Ledger (on_command url_parse sha256 ticket c path b s).
Proof.
  intros Hs Hb Hc Hheard Honly. pose proof (op_acks _ Hs) as Ha. pose proof (op_failure _ Hs) as Hf.
  destruct c as [o p admission|id p|id|id|rate|id rate| |id link|id]; cbn [on_command]; unfold with_job;
    try (destruct (find_job id (Actor.jobs s)) as [job|] eqn:Hj; [|by apply ledger_refuse]).
  - apply on_enqueue_ledger; try done. apply Hc.
  - destruct (QueueJob.state job); first [by apply ledger_refuse|by done_with ids_alter].
  - destruct (QueueJob.state job) eqn:Hst; try by apply ledger_refuse.
    + by done_with ids_alter.
    + eapply ledger_working; [apply Hs|apply ids_alter|done..].
    + by eapply ledger_done; [exact Hs|done..].
    + by done_with ids_alter.
  - destruct (resumable _) eqn:Hr; [|by apply ledger_refuse]. by done_with ids_alter.
  - by eapply ledger_done; [exact Hs|done..].
  - by done_with ids_alter.
  - destruct (resume_each_frame (resume_order s) s) as (E1&E2&E3&E4&E5&E6). apply (ledger_done _ _ _ Hs); congruence.
  - destruct (refreshed _ _ job link b) as [o|e] eqn:Ho; [|by apply ledger_refuse]. by done_with ids_alter.
  - destruct (busy _) eqn:Hbusy; [by apply ledger_refuse|].
    eapply ledger_grown; [apply Hs|try done..]; cbn.
    + intros k Hk. destruct (decide (k = id)) as [->|Hne]; [right; by eexists|left]. apply remove_job_ids; [apply Hb|done].
    + intros k i (r&Hr&Hk&Hpay&Hi). eexists. split; [apply list_elem_of_fmap; exists r; split; [reflexivity|done]|]. by case_decide.
    + rewrite Ha. intros t k Hin. by apply list_elem_of_singleton in Hin.
Qed.
End Promises.
