(* ===== verification/ManagerGrowth.v ===== *)
(** * What a turn adds to the trace

    The trace of the actor of manager.rs only grows; and every command that is heard in a life of the
    actor is answered, waits to be answered after the next save, or waits for a worker to end. *)

From S2P Require Import Prelude.
From S2P Require Import Files.
From S2P Require Import StorageFile.
From S2P Require Import ResumePolicy.
From S2P Require Import TransferStore.
From S2P Require Import Options.
From S2P Require Import OptionsThm.
From S2P Require Import QueueStore.
From S2P Require Import QueueStoreThm.
From S2P Require Import Manager.
From S2P Require Import ManagerCalls.
From S2P Require Import ManagerInv.
From S2P Require Import ManagerSteps.
From S2P Require Import ManagerCommands.
From S2P Require Import ManagerRows.
From S2P Require Import ManagerTrace.

(** The calls heard and those answered since the actor was started. *)
Fixpoint heard (trace : list Moment) : list Z :=
  match trace with [] | Opened :: _ => [] | Heard ticket _ :: trace => ticket :: heard trace | _ :: trace => heard trace end.
Fixpoint answered (trace : list Moment) : list Z :=
  match trace with [] | Opened :: _ => [] | Answered ticket _ :: trace => ticket :: answered trace | _ :: trace => answered trace end.
(** The calls a pause waits with for the worker of its job. *)
Definition waiting (jobs : list (Z * QueueJob.t)) : list Z := omap (λ j : Z * QueueJob.t, QueueJob.pause_reply j.2) jobs.
(** Calls that have yet to be answered. *)
Definition pending (s : Actor.t) : list Z := (Actor.acks s).*1 ++ waiting (Actor.jobs s).
(** The step adds to the trace, hears [new] and leaves every call answered or pending. *)
Record Grew (new : list Z) (s s' : Actor.t) : Prop := {
  gr_trace : ∃ front, Actor.trace s' = front ++ Actor.trace s ∧ Opened ∉ front;
  gr_heard : heard (Actor.trace s') = new ++ heard (Actor.trace s);
  gr_account : answered (Actor.trace s') ++ pending s' ≡ₚ new ++ answered (Actor.trace s) ++ pending s }.
Lemma grew_refl s : Grew [] s s.
Proof. split; [exists []; split; [done|apply not_elem_of_nil]|done|done]. Qed.
Lemma grew_trans new new' s1 s2 s3 : Grew new s1 s2 → Grew new' s2 s3 → Grew (new' ++ new) s1 s3.
Proof.
  intros [(f1&E1&N1) H1 A1] [(f2&E2&N2) H2 A2]. split.
  - exists (f2 ++ f1). rewrite E2, E1, app_assoc. split; [done|]. rewrite elem_of_app. tauto.
  - by rewrite H2, H1, app_assoc.
  - by rewrite A2, A1, app_assoc.
Qed.
(** Only the jobs change, and none comes or stops to wait. *)
Lemma grew_same s s' : Actor.trace s' = Actor.trace s → Actor.acks s' = Actor.acks s →
  waiting (Actor.jobs s') = waiting (Actor.jobs s) → Grew [] s s'.
Proof. intros Ht Ha Hw. split; [exists []; split; [done|apply not_elem_of_nil]|by rewrite Ht|]. unfold pending. by rewrite Ht, Ha, Hw. Qed.
Lemma grew_silent m s s' : (∀ t c, m ≠ Heard t c) → (∀ t r, m ≠ Answered t r) → m ≠ Opened → Grew [] s s' → Grew [] s (record m s').
Proof.
  intros Hh Ha Ho [(f&E&N) H A]. split.
  - exists (m :: f). cbn. rewrite E. split; [done|]. rewrite not_elem_of_cons. split; [congruence|done].
  - cbn. destruct m; first [done|by destruct Ho|by edestruct Hh].
  - cbn. destruct m; first [done|by destruct Ho|by edestruct Ha].
Qed.
Lemma grew_then new s s1 s2 : Grew new s s1 → Actor.trace s2 = Actor.trace s1 → Actor.acks s2 = Actor.acks s1 →
  waiting (Actor.jobs s2) = waiting (Actor.jobs s1) → Grew new s s2.
Proof. intros H Ht Ha Hw. eapply (grew_trans new []); [exact H|by apply grew_same]. Qed.
Lemma waiting_alter id f jobs : (∀ job, QueueJob.pause_reply (f job) = QueueJob.pause_reply job) → waiting (alter_job id f jobs) = waiting jobs.
Proof.
  intros Hf. unfold waiting. induction jobs as [|[k j] jobs IH]; [done|]. cbn [alter_job]. case_decide; cbn; by rewrite ?Hf, ?IH.
Qed.
Lemma waiting_map f jobs : (∀ job, QueueJob.pause_reply (f job) = QueueJob.pause_reply job) → waiting (prod_map id f <$> jobs) = waiting jobs.
Proof. intros Hf. unfold waiting. induction jobs as [|[k j] jobs IH]; [done|]. cbn. by rewrite Hf, IH. Qed.

Section Growth.
Context (url_parse : list Z → option Url.t) (header_value : list Z → bool) (sha256 : list Z → list Z) (secrets : Secrets.t).
Notation Books := (Books url_parse header_value).

Lemma waiting_stop jobs : waiting (prod_map id stop_job <$> jobs) = waiting jobs.
Proof. apply waiting_map. intros job. unfold stop_job. by destruct (QueueJob.state job). Qed.
Lemma grew_save s r s' : save_state sha256 secrets s = (r, s') → Grew [] s s'.
Proof.
  unfold save_state. destruct (Actor.held s); cbn [negb]; [|intros [= _ <-]; apply grew_refl].
  destruct (default _ _) as [f|b]; destruct (save _ _ _ _ _) as [r' row]; intros [= _ <-].
  - by apply (grew_silent (Wrote row) s (Actor.set_fates (drop 1 (Actor.fates s)) s)); [..|apply grew_same].
  - by apply (grew_silent (Wrote row) s (Actor.set_held false (Actor.set_fates (drop 1 (Actor.fates s)) s))); [..|apply grew_same].
Qed.
Lemma grew_reports l s : Grew [] s (foldl reported s l).
Proof.
  revert s. induction l as [|r l IH]; intros s; [apply grew_refl|]. cbn. eapply (grew_trans [] []); [|apply IH]. unfold reported.
  destruct (take_worker _ _) as [[id ?]|]; [|apply grew_refl]. apply grew_same; [done|done|by apply waiting_alter].
Qed.
Lemma grew_begin now s : Grew [] s (begin_turn now s).
Proof.
  unfold begin_turn. destruct (poll s) as [gone s'] eqn:Hp. apply poll_frame in Hp as ->.
  assert (∀ s1, Grew [] s s1 → Grew [] s (if Actor.closing s1 then s1 else retry_due now s1)) as Hdue.
  { intros s1 H1. destruct (Actor.closing s1); [done|]. eapply grew_then; [exact H1|done..|]. apply waiting_map.
    intros job. unfold requeue. by destruct (retry_is_due now job). }
  apply Hdue. destruct (gone && _); apply grew_same; try done. apply waiting_stop.
Qed.
Lemma grew_phase s : Grew [] s (save_phase sha256 secrets s).
Proof.
  unfold save_phase. destruct (_ && _); [|apply grew_refl]. destruct (save_state _ _ s) as [r s'] eqn:Hs. apply grew_save in Hs.
  destruct r as [[]|e]; (eapply grew_then; [exact Hs|done..|]); [by apply waiting_map|apply waiting_stop].
Qed.
Lemma grew_drain s : Grew [] s (drain_acks s) ∧ Actor.acks (drain_acks s) = [].
Proof.
  destruct (drain_acks_frame s) as (tr&->&->). split; [|done]. set (g := λ '(ticket, a), _).
  assert (∀ l p, heard (reverse (g <$> l) ++ p) = heard p ∧ answered (reverse (g <$> l) ++ p) ≡ₚ l.*1 ++ answered p ∧ Opened ∉ reverse (g <$> l)) as Hl.
  { induction l as [|[t a] l IH]; intros p; [split_and!; [done|done|apply not_elem_of_nil]|]. rewrite fmap_cons, reverse_cons, <-app_assoc.
    destruct (IH ([g (t, a)] ++ p)) as (->&->&E3). split_and!; [done|cbn; by rewrite Permutation_middle|].
    rewrite elem_of_app. intros [?|H%list_elem_of_singleton]; done. }
  destruct (Hl (Actor.acks s) (Actor.trace s)) as (E1&E2&E3). split; cbn; [by eexists|done|]. rewrite E2.
  unfold pending. cbn. rewrite <-app_assoc. apply Permutation_app_swap_app.
Qed.
Lemma grew_starts s s' : Starts sha256 secrets s s' → Grew [] s s'.
Proof.
  assert (∀ s i id, Grew [] s (picked s i id)) as Hpick by (intros; apply grew_same; [done|done|by apply waiting_alter]).
  assert (∀ s i id r s3, save_state sha256 secrets (picked s i id) = (r, s3) → Grew [] s s3) as Hsaved.
  { intros s0 i id r s3 Hs%grew_save. by eapply (grew_trans [] []). }
  induction 1 as [s|s i id job e s3 Hp Hs|s i id job s3 s4 Hp Hs Hpoll|s i id job s3 s4 s' Hp Hs Hpoll _ IH]; [apply grew_refl|..];
    apply Hsaved in Hs; try apply poll_frame in Hpoll as ->.
  - eapply grew_then; [exact Hs|done..|]. cbn. by rewrite waiting_alter, waiting_stop.
  - eapply grew_then; [exact Hs|done..|]. cbn. by rewrite waiting_alter, waiting_stop.
  - eapply (grew_trans [] []); [|exact IH]. unfold spawn. apply grew_silent; [done..|]. eapply grew_then; [exact Hs|done..|].
    by apply waiting_alter.
Qed.
Lemma grew_before t s : Grew [] s (before_select sha256 secrets t s).
Proof.
  unfold before_select. pose proof (grew_reports (Turn.reports t) s) as H0. set (s0 := foldl reported s _) in *.
  set (s1 := Actor.set_fates _ _). assert (Grew [] s s1) as H1 by (by eapply grew_then). clearbody s1. clear s0 H0.
  match goal with |- Grew [] s (publish ?x) => apply (grew_then [] s x); [|done..] end.
  eapply (grew_trans [] []); [|apply grew_starts, start_workers_starts].
  eapply (grew_trans [] []); [|apply grew_drain]. eapply (grew_trans [] []); [|apply grew_phase].
  eapply (grew_trans [] []); [exact H1|apply grew_begin].
Qed.
Lemma grew_finish s : Grew [] s (finish_run sha256 secrets s).
Proof.
  unfold finish_run. destruct (_ && _); [|by apply grew_same]. destruct (save_state _ _ s) as [r s'] eqn:Hs. apply grew_save in Hs.
  by destruct r; eapply grew_then.
Qed.

(** ** The event of a turn *)

(** The call [ticket] is answered, or is pending now. *)
Record Settles (ticket : Z) (s s' : Actor.t) : Prop := {
  se_trace : ∃ front, Actor.trace s' = front ++ Actor.trace s ∧ Opened ∉ front ∧ heard (Actor.trace s') = heard (Actor.trace s);
  se_account : answered (Actor.trace s') ++ pending s' ≡ₚ ticket :: answered (Actor.trace s) ++ pending s }.
Lemma settles_grew ticket c s s' : Settles ticket (record (Heard ticket c) s) s' → Grew [ticket] s s'.
Proof.
  intros [(front&Et&Ho&Eh) Ha]. split; [|by rewrite Eh|exact Ha]. exists (front ++ [Heard ticket c]). rewrite <-app_assoc.
  split; [done|]. rewrite elem_of_app. intros [?|H%list_elem_of_singleton]; done.
Qed.
Lemma settles_answer ticket r s s' : Actor.trace s' = Actor.trace s → pending s' = pending s → Settles ticket s (answer ticket r s').
Proof.
  intros Ht Hp. split; cbn; [|by rewrite <-Hp, Ht]. exists [Answered ticket r]. rewrite Ht. split; [done|]. split; [|done].
  apply not_elem_of_cons. split; [done|apply not_elem_of_nil].
Qed.
Lemma settles_pending ticket s s' : Actor.trace s' = Actor.trace s → pending s' ≡ₚ ticket :: pending s → Settles ticket s s'.
Proof.
  intros Ht Hp. split; rewrite Ht.
  - exists []. split; [done|]. split; [apply not_elem_of_nil|done].
  - by rewrite Hp, Permutation_middle.
Qed.
Lemma settles_done ticket a s s' : Actor.trace s' = Actor.trace s → Actor.acks s' = Actor.acks s →
  waiting (Actor.jobs s') = waiting (Actor.jobs s) → Settles ticket s (acknowledge ticket a s').
Proof.
  intros Ht Ha Hw. apply settles_pending; [done|]. change ((Actor.acks s' ++ [(ticket, a)]).*1 ++ waiting (Actor.jobs s') ≡ₚ ticket :: pending s).
  unfold pending. rewrite Ha, Hw, fmap_app, <-app_assoc. cbn [fmap list_fmap fst app]. by rewrite Permutation_middle.
Qed.
Lemma waiting_one id f jobs job : find_job id jobs = Some job → waiting (alter_job id f jobs) ++ option_list (QueueJob.pause_reply job) ≡ₚ
  waiting jobs ++ option_list (QueueJob.pause_reply (f job)).
Proof.
  induction jobs as [|[k j] jobs IH]; cbn [find_job alter_job]; [done|]. unfold waiting in *. case_decide as E.
  - intros [= ->]. cbn. destruct (QueueJob.pause_reply job), (QueueJob.pause_reply (f job)); cbn; rewrite ?app_nil_r; try done;
      rewrite <-?Permutation_cons_append; [apply perm_swap|done..].
  - intros Hj%IH. cbn. destruct (QueueJob.pause_reply j); cbn; by rewrite Hj.
Qed.
Lemma waiting_remove id jobs : (∀ job, find_job id jobs = Some job → QueueJob.pause_reply job = None) →
  waiting (remove_job id jobs) = waiting jobs.
Proof.
  unfold waiting. induction jobs as [|[k j] jobs IH]; cbn [find_job remove_job]; [done|]. case_decide as E; intros H.
  - cbn. by rewrite H.
  - cbn. by rewrite IH.
Qed.
End Growth.

(** * Every call is answered once

    What the event of a turn (manager.rs) does to the calls: the one that comes is answered or pending,
    and the one that waits for a worker is answered when that ends. *)

Section Answers.
Context (url_parse : list Z → option Url.t) (header_value : list Z → bool) (sha256 : list Z → list Z) (secrets : Secrets.t).
Notation Books := (Books url_parse header_value).

(** Only a job that works lets a call wait. *)
Lemma calm_waits_not s id job : Books None s → find_job id (Actor.jobs s) = Some job → QueueJob.state job ≠ TaskState.Pausing →
  QueueJob.pause_reply job = None.
Proof.
  intros Hb Hj Hst. destruct (held_job _ _ s id job Hb Hj) as [_ _ _ _ H]. unfold StateHeld, cold in H. cbn in H.
  destruct (QueueJob.state job); tauto.
Qed.

Lemma waiting_resume l s : waiting (Actor.jobs (resume_each l s)) = waiting (Actor.jobs s).
Proof.
  revert s. induction l as [|id l IH]; intros s; [done|]. cbn [resume_each]. rewrite IH.
  destruct (find_job id (Actor.jobs s)) as [job|]; [|done]. destruct (resumable _); [|done].
  case_decide; cbn; by apply waiting_alter.
Qed.
Lemma enqueue_settles ticket o priority admission path s :
  Settles ticket s (on_enqueue url_parse ticket o priority admission path s).
Proof.
  assert (∀ adm, Settles ticket s (enqueue_new url_parse ticket o priority adm path s)) as Hnew.
  { intros adm. unfold enqueue_new. case_decide; [by apply settles_answer|]. destruct (origin_of _ o); [|by apply settles_answer].
    destruct path; [|by apply settles_answer..]. destruct (existsb _ _); [by apply settles_answer|].
    destruct (checked_add _ _); [|by apply settles_answer]. destruct (negb _); [by apply settles_answer|].
    apply settles_done; [by destruct adm..|].
    destruct adm; unfold waiting; cbn; by rewrite omap_app, app_nil_r. }
  unfold on_enqueue. destruct admission as [h|]; [|done]. destruct (negb _); [by apply settles_answer|].
  destruct (find _ _); [by apply settles_answer|]. case_decide; [by apply settles_answer|done].
Qed.
Lemma on_command_settles ticket c path b s : Books None s → Settles ticket s (on_command url_parse sha256 ticket c path b s).
Proof.
  intros Hb. destruct c as [o p admission|id p|id|id|rate|id rate| |id link|id]; cbn [on_command]; unfold with_job;
    try (destruct (find_job id (Actor.jobs s)) as [job|] eqn:Hj; [|by apply settles_answer]).
  - apply enqueue_settles.
  - destruct (QueueJob.state job); first [by apply settles_answer|by apply settles_done; [..|apply waiting_alter]].
  - destruct (QueueJob.state job) eqn:Hst; first [by apply settles_answer|by apply settles_done; [..|apply waiting_alter]|idtac].
    + apply settles_pending; [done|]. unfold pending. cbn. pose proof (waiting_one id (λ job, QueueJob.set_cancel ((λ _, true) <$> QueueJob.cancel job)
        (QueueJob.set_pause_reply (Some ticket) (QueueJob.set_state TaskState.Pausing job))) _ job Hj) as H.
      rewrite (calm_waits_not s id job Hb Hj) in H by congruence. cbn in H. rewrite app_nil_r in H.
      rewrite H. by rewrite <-Permutation_cons_append, Permutation_middle.
    + by apply settles_done.
  - destruct (resumable _); [|by apply settles_answer]. by apply settles_done; [..|apply waiting_alter].
  - by apply settles_done.
  - by apply settles_done; [..|apply waiting_alter].
  - destruct (resume_each_frame (resume_order s) s) as (_&_&Ea&Et&_). apply settles_done; [done|done|apply waiting_resume].
  - destruct (refreshed _ _ job link b); [|by apply settles_answer]. by apply settles_done; [..|apply waiting_alter].
  - destruct (busy _) eqn:Hbusy; [by apply settles_answer|]. apply settles_done; [done..|]. apply waiting_remove. intros job' Hj'.
    simplify_eq. eapply calm_waits_not; [done..|]. intros E. by rewrite E in Hbusy.
Qed.

Lemma grew_joined later task outcome s : Books None s → Grew [] s (on_joined later task outcome s).
Proof.
  intros Hb. unfold on_joined. destruct (take_worker _ _) as [[id rest]|]; [|apply grew_refl]. cbn [Actor.jobs Actor.set_workers].
  destruct (find_job id (Actor.jobs s)) as [job|] eqn:Hj; [|by apply grew_same].
  set (outcome' := default _ outcome). set (job' := if (_ && _ : bool) then _ else _).
  assert (QueueJob.pause_reply job' = QueueJob.pause_reply job) as Hp by (destruct (after_work_frame s later outcome' job) as (_&_&_&_&E&_); exact E).
  pose proof (waiting_one id (λ _, QueueJob.set_pause_reply None job') _ job Hj) as Hw. cbn in Hw. rewrite app_nil_r in Hw.
  set (s' := Actor.set_dirty true _). change (waiting (Actor.jobs s') ++ option_list (QueueJob.pause_reply job) ≡ₚ waiting (Actor.jobs s)) in Hw.
  assert (Actor.trace s' = Actor.trace s ∧ Actor.acks s' = Actor.acks s) as [Ht Ha] by done. clearbody s'. rewrite Hp. clear Hp.
  destruct (QueueJob.pause_reply job) as [ticket|]; cbn in Hw.
  - rewrite <-Permutation_cons_append in Hw.
    assert (Grew [] s (Actor.set_acks (Actor.acks s' ++ [(ticket, Done)]) s')) as Hack.
    { split; cbn; rewrite ?Ht; [exists []; split; [done|apply not_elem_of_nil]|done|]. unfold pending. cbn.
      rewrite Ha, fmap_app, <-Hw, <-app_assoc. done. }
    destruct (QueueJob.state job'); try exact Hack. split; cbn; rewrite ?Ht; [eexists [_]; split; [done|]| |].
    + apply not_elem_of_cons. split; [done|apply not_elem_of_nil].
    + done.
    + unfold pending. cbn. rewrite Ha, <-Hw. by rewrite !Permutation_middle.
  - rewrite app_nil_r in Hw. split; cbn; rewrite ?Ht; [exists []; split; [done|apply not_elem_of_nil]|done|].
    unfold pending. by rewrite Ha, Hw.
Qed.

(** ** A turn *)

(** The call that an event brings, if the actor takes it. *)
Definition taken (e : Event) (s : Actor.t) : list Z :=
  match e with Received ticket _ _ _ => if Actor.closing s then [] else [ticket] | _ => [] end.
Lemma grew_select later e s : Books None s → Grew (taken e s) s (select url_parse sha256 later e s).
Proof.
  intros Hb. destruct e as [task outcome|ticket c path b| |]; cbn [select taken].
  - by apply grew_joined.
  - destruct (Actor.closing s); [apply grew_refl|]. by eapply settles_grew, on_command_settles.
  - destruct (Actor.closing s); [apply grew_refl|]. apply grew_same; [done|done|]. apply waiting_stop.
  - apply grew_refl.
Qed.
Lemma grew_turn t s : Books None s → SoundTurn url_parse header_value sha256 secrets s t →
  Grew [] s (turn url_parse sha256 secrets t s) ∨
  Grew (taken (Turn.event t) (before_select sha256 secrets t s)) s (turn url_parse sha256 secrets t s).
Proof.
  intros Hb Ht. rewrite turn_unfold. case_bool_decide as He; [left; apply grew_refl|].
  pose proof (grew_before sha256 secrets t s) as Hg. pose proof (before_select_books _ _ sha256 secrets t s (so_reports _ _ _ _ _ _ Ht) Hb) as Hb'.
  revert Hg Hb'. generalize (before_select sha256 secrets t s) as s'. intros s' Hg Hb'. cbn zeta. case_match; [left|right].
  - eapply (grew_trans [] []); [exact Hg|apply grew_finish].
  - rewrite <-(app_nil_r (taken _ _)). eapply grew_trans; [exact Hg|]. by apply grew_select.
Qed.

(** *** The end of a run *)

Lemma ended_save s r s' : save_state sha256 secrets s = (r, s') → Actor.ended s' = Actor.ended s ∧ Actor.workers s' = Actor.workers s ∧
  Actor.acks s' = Actor.acks s ∧ Actor.jobs s' = Actor.jobs s.
Proof. by intros (h&f&tr&->)%save_state_frame. Qed.
Lemma ended_reports l s : Actor.ended (foldl reported s l) = Actor.ended s.
Proof. revert s. induction l as [|r l IH]; intros s; [done|]. cbn. rewrite IH. unfold reported. by destruct (take_worker _ _) as [[]|]. Qed.
Lemma ended_before t s : Actor.ended (before_select sha256 secrets t s) = Actor.ended s.
Proof.
  unfold before_select. set (s0 := Actor.set_fates _ _). assert (Actor.ended s0 = Actor.ended s) as <- by apply ended_reports. clearbody s0. clear s.
  assert (Actor.ended (begin_turn (Turn.now t) s0) = Actor.ended s0) as <-.
  { unfold begin_turn. destruct (poll s0) as [gone s'] eqn:Hp. apply poll_frame in Hp as ->. destruct (gone && _); by case_match. }
  generalize (begin_turn (Turn.now t) s0) as s1. intros s1.
  assert (Actor.ended (drain_acks (save_phase sha256 secrets s1)) = Actor.ended s1) as <-.
  { destruct (drain_acks_frame (save_phase sha256 secrets s1)) as (tr&->&_). cbn. unfold save_phase. destruct (_ && _); [|done].
    destruct (save_state _ _ s1) as [[[]|e] s'] eqn:Hs; by apply ended_save in Hs as (E&_). }
  generalize (drain_acks (save_phase sha256 secrets s1)) as s2. intros s2.
  pose proof (start_workers_starts sha256 secrets (S (length (Actor.queue s2))) s2) as Hs. cbn zeta. change (Actor.ended (publish ?x)) with (Actor.ended x).
  induction Hs as [s|s i id job e s3 Hp Hs|s i id job s3 s4 Hp Hs Hpoll|s i id job s3 s4 s' Hp Hs Hpoll _ IH]; [done|..];
    apply ended_save in Hs as (E&_); try apply poll_frame in Hpoll as ->; [done..|by rewrite IH].
Qed.
Lemma ended_select later e s : Actor.ended (select url_parse sha256 later e s) = Actor.ended s.
Proof.
  destruct e as [task outcome|ticket c path b| |]; cbn [select]; [|destruct (Actor.closing s); [done|]|by destruct (Actor.closing s)|done].
  - unfold on_joined. by repeat case_match.
  - assert (∀ l s, Actor.ended (resume_each l s) = Actor.ended s) as Hresume.
    { clear. induction l as [|id l IH]; intros s; [done|]. cbn [resume_each]. rewrite IH. by repeat case_match. }
    destruct c; cbn [on_command]; unfold with_job, on_enqueue, enqueue_new; [by repeat case_match..| |by repeat case_match|by repeat case_match].
    exact (Hresume _ (record (Heard ticket QueueCommand.ResumeAll) s)).
Qed.
End Answers.
