(* ===== verification/ManagerRuns.v ===== *)
(** * Lives of the queue of the first engine

    The actor of manager.rs started with or without a database, its turns, and its start after the
    process ended at any moment of a turn: what holds in all of them. *)

From S2P Require Import Prelude.
From S2P Require Import Files.
From S2P Require Import StorageFile.
From S2P Require Import ResumePolicy.
From S2P Require Import TransferStore.
From S2P Require Import Options.
From S2P Require Import OptionsThm.
From S2P Require Import QueueStore.
From S2P Require Import QueueStoreThm.
From S2P Require Import QueueStoreType.
From S2P Require Import Manager.
From S2P Require Import ManagerCalls.
From S2P Require Import ManagerInv.
From S2P Require Import ManagerSteps.
From S2P Require Import ManagerCommands.
From S2P Require Import ManagerRows.
From S2P Require Import ManagerTrace.
From S2P Require Import ManagerGrowth.

(** Nothing heard is new when no call was. *)
Lemma heard_front front p : Opened ∉ front → ∃ new, heard (front ++ p) = new ++ heard p ∧ ∀ t c, Heard t c ∈ front → t ∈ new.
Proof.
  induction front as [|m front IH]; [exists []; split; [done|set_solver]|]. intros [Hm Ho]%not_elem_of_cons. destruct (IH Ho) as (new&E&Hin). cbn.
  assert (∀ t c, Heard t c ∈ m :: front → (∀ t' c', m ≠ Heard t' c') → t ∈ new) as Hother.
  { intros t c [<-|?]%elem_of_cons Hne; [by destruct (Hne t c)|eauto]. }
  destruct m as [row|t r|t c|a b|]; [| | | |done]; rewrite E; [by exists new; eauto..| |by exists new; eauto].
  exists (t :: new). split; [done|]. intros t' c' [[= -> ->]|?]%elem_of_cons; [by left|right; eauto].
Qed.
Lemma grew_asked new s s' t : Grew new s s' → asked (Actor.trace s') t → asked (Actor.trace s) t ∨ t ∈ new.
Proof.
  intros [(front&E&Ho) Hh _] [c Hc]. rewrite E in Hc, Hh. apply elem_of_app in Hc as [Hc|Hc]; [right|left; by exists c].
  destruct (heard_front front (Actor.trace s) Ho) as (new'&E'&Hin). rewrite E' in Hh. apply app_inv_tail in Hh as ->. eauto.
Qed.
Lemma heard_asked p t : t ∈ heard p → asked p t.
Proof.
  induction p as [|m p IH]; cbn; [by intros ?%not_elem_of_nil|]. intros Hin.
  assert (t ∈ heard p → asked (m :: p) t) as Hp by (intros [c ?]%IH; exists c; by right).
  destruct m; try done; [by apply Hp..| |by apply Hp|by apply not_elem_of_nil in Hin].
  apply elem_of_cons in Hin as [->|?]; [eexists; by left|auto].
Qed.

Section Runs.
Context (url_parse : list Z → option Url.t) (header_value : list Z → bool) (sha256 : list Z → list Z) (secrets : Secrets.t).
Notation SoundTurn := (SoundTurn url_parse header_value sha256 secrets).
Notation turn := (turn url_parse sha256 secrets).
Notation open_queue := (open_queue url_parse header_value sha256 secrets).
Notation load_row := (load url_parse header_value sha256 secrets).
Notation Books := (Books url_parse header_value).
Notation Ledger := (Ledger url_parse header_value sha256 secrets).
Notation kept := (kept url_parse header_value sha256 secrets).

(** The call that comes in a turn has not come before. *)
Definition Fresh (s : Actor.t) (t : Turn.t) : Prop :=
  match Turn.event t with Received ticket _ _ _ => ¬ asked (Actor.trace s) ticket | _ => True end.
(** What the database holds at first: what the system decrypts of it are bytes. *)
Definition FirstRow (row : option (list Z)) : Prop :=
  ∀ b plain, row = Some b → Secrets.unprotect secrets b = Some plain → Forall is_byte plain.
(** A turn from [s] came as far as [p], at least; the process may have ended there. *)
Definition Within (s : Actor.t) (t : Turn.t) (p : list Moment) : Prop :=
  p `suffix_of` Actor.trace (turn t s) ∧ Actor.trace s `suffix_of` p.
(** The actors that a process can come to have, with a database or without. *)
Inductive Reached : bool → Actor.t → Prop :=
| reached_start c s : start_configured c = Ok s → Reached false s
| reached_open config fate paths row s : FirstRow row → open_queue config fate paths [Wrote row] = Ok s → Reached true s
| reached_turn durable s t : Reached durable s → SoundTurn s t → Fresh s t → Reached durable (turn t s)
| reached_again s t p config fate paths s' : Reached true s → SoundTurn s t → Fresh s t → Within s t p →
    open_queue config fate paths p = Ok s' → Reached true s'.

Context `{!UrlLaws url_parse} `{!UrlNormal url_parse} `{!SecretsLaws secrets} (sha256_length : ∀ b, length (sha256 b) = 32%nat).

(** ** A turn keeps the ledger *)

Lemma ledger_turn t s : Books None s → Ledger s → SoundTurn s t → Fresh s t → Ledger (turn t s).
Proof.
  intros Hb H [Hr He] Hfresh. rewrite turn_unfold. case_bool_decide as Hend; [done|].
  assert (match Turn.event t with Received ticket _ _ _ => ¬ asked (Actor.trace (before_select sha256 secrets t s)) ticket | _ => True end) as Hnew.
  { unfold Fresh in Hfresh. destruct (Turn.event t); try done. intros Ha. apply Hfresh.
    destruct (grew_asked [] _ _ _ (grew_before sha256 secrets t s) Ha) as [?|?%not_elem_of_nil]; done. }
  pose proof (before_select_books _ _ sha256 secrets t s Hr Hb) as Hb'.
  destruct (ledger_before _ _ sha256 secrets sha256_length t s Hr Hb H) as (H'&Hd&Ha). clear Hb H Hr Hfresh.
  revert He Hnew Hb' H' Hd Ha. generalize (before_select sha256 secrets t s) as s'. intros s' He Hnew Hb H Hd Ha. cbn zeta.
  destruct (Actor.closing s') eqn:Hc; cbn [andb]; [case_bool_decide; [by apply ledger_finish|]|].
  - destruct (Turn.event t); cbn [select]; rewrite ?Hc; try done. by apply joined_ledger.
  - pose proof (ledger_open _ _ _ _ _ H Hc) as Hf.
    destruct (Turn.event t) as [task outcome|ticket c path b| |]; cbn [select]; rewrite ?Hc.
    + by apply joined_ledger.
    + assert (Ledger (record (Heard ticket c) s')) as H1 by (by apply ledger_heard). destruct He as [Hs Hbind].
      apply (on_command_ledger url_parse header_value); try done.
      * by split; [exact H1|..|by apply Hd|].
      * by left.
      * intros c' [[= ->]|Hin]%elem_of_cons; [done|]. destruct Hnew. by exists c'.
    + apply ledger_stop; [|done|done]. by apply (ledger_closing _ _ _ _ s' true true).
    + done.
Qed.

(** ** A start *)

Lemma first_row_typed row : FirstRow row → ∀ saved, load_row row = Ok (Some saved) → WellFormed url_parse header_value saved.
Proof.
  intros Hrow saved. unfold load. destruct row as [b|]; [|done]. destruct (refuse_if _ _) as [[]|]; [|done]. cbn [mbind result_bind].
  destruct (Secrets.unprotect secrets b) as [plain|] eqn:Hp; [|done]. cbn. destruct (decode _ _ _ plain) as [s|] eqn:Hd; [|done].
  intros [= <-]. by destruct (decode_typed _ _ _ _ _ (Hrow _ _ eq_refl Hp) Hd).
Qed.
Lemma last_row_written p row : last_row p = Some row → Wrote (Some row) ∈ p.
Proof. induction p as [|m p IH]; [done|]. destruct m; cbn; try (intros; right; auto; done). intros ->. by left. Qed.

(** What a start needs of the trace: a row that is well formed, and that keeps the promises of earlier lives. *)
Record Startable (p : list Moment) : Prop := {
  sb_always : Always kept p;
  sb_row : ∀ saved, load_row (last_row p) = Ok (Some saved) → WellFormed url_parse header_value saved;
  sb_lived : Opened ∈ p → lived p;
  sb_given : ∀ t id, given p t id → Opened ∈ p }.
Lemma open_ledger config fate paths p s : Startable p → open_queue config fate paths p = Ok s →
  Started url_parse header_value s ∧ Ledger s ∧ lived (Actor.trace s) ∧ (∃ p', Actor.trace s = Opened :: p') ∧
  (∀ t id, given p t id → owes p (ids (Actor.jobs s)) (Actor.receipts s) t id).
Proof.
  intros [Hk Hrow Hlived Hgiven] Hopen.
  destruct (open_queue_Ok _ _ _ _ sha256_length _ _ _ _ _ Hrow Hopen) as (Hst&p'&saved&Et&Hp&Hload&Hgood&Hids&Hrec&_).
  assert (lived (Actor.trace s)) as Hl.
  { rewrite Et. split; [by left|]. destruct (last_row p') as [row|] eqn:E; [|done]. exists (Some row). right. by apply last_row_written. }
  assert (Opened ∈ p → ∃ saved', load_row (last_row p) = Ok (Some saved') ∧
    ∀ t id, given p t id → owes p (SavedJob.id <$> Snapshot.jobs saved') (Snapshot.receipts saved') t id) as Hkept.
  { intros Ho. destruct (always_now _ _ Hk ltac:(by intros ->; apply not_elem_of_nil in Ho) (Hlived Ho)) as (_&saved'&?&?). eauto. }
  assert (∀ t id, given p' t id → owes p' (SavedJob.id <$> Snapshot.jobs saved) (Snapshot.receipts saved) t id ∧ p' = p) as Howes.
  { intros t id Hg. destruct Hp as [->|(Hn&row&->)].
    - split; [|done]. destruct (Hkept (Hgiven _ _ Hg)) as (saved'&Hs'&Hall). rewrite Hload in Hs'. injection Hs' as <-. by apply Hall.
    - apply elem_of_cons in Hg as [?|Hg]; [done|]. destruct (Hkept (Hgiven _ _ Hg)) as (saved'&Hs'&_). congruence. }
  assert (Always kept p') as Halways.
  { destruct Hp as [->|(Hn&row&->)]; [done|]. constructor; [|done]. intros [Ho _]. apply elem_of_cons in Ho as [?|Ho]; [done|].
    destruct (Hkept Ho) as (saved'&Hs'&_). congruence. }
  assert (∀ t id l, SavedJob.id <$> Snapshot.jobs saved ≡ₚ l → given (Opened :: p') t id → owes (Opened :: p') l (Snapshot.receipts saved) t id) as Hlater.
  { intros t id l Hperm [?|Hg]%elem_of_cons; [done|]. apply owes_later; [|done]. destruct (Howes _ _ Hg) as [Ho _].
    eapply owes_grows; [exact Ho| |auto]. intros Hin. left. by rewrite <-Hperm. }
  split; [done|]. split; [|split; [done|split; [by eexists|]]].
  - destruct Hst as [_ Hheld Hacks Hdirty Hfail _ _]. unfold ManagerTrace.Ledger. rewrite Hheld, Hacks, Hdirty, Hfail, Et in *. split; try done.
    + constructor; [|done]. intros _. split; [done|]. exists saved. split; [done|]. intros t id. by apply Hlater.
    + by left.
    + intros t id [Hg|Hin]; [|by apply not_elem_of_nil in Hin]. cbn. rewrite saved_ids, Hrec. by apply Hlater.
  - intros t id Hg. destruct Hp as [->|(Hn&row&->)].
    + destruct (Howes _ _ Hg) as [Ho _]. rewrite Hrec. eapply owes_grows; [exact Ho| |auto]. left. by rewrite Hids.
    + destruct (Hkept (Hgiven _ _ Hg)) as (saved'&Hs'&_). congruence.
Qed.

(** ** All lives *)

Record Life (durable : bool) (s : Actor.t) : Prop := {
  lf_books : Books None s;
  lf_ledger : Ledger s;
  lf_lived : durable = true → lived (Actor.trace s);
  lf_account : answered (Actor.trace s) ++ pending s ≡ₚ heard (Actor.trace s);
  lf_once : NoDup (heard (Actor.trace s));
  lf_ended : Actor.ended s ≠ None → Actor.workers s = [] ∧ Actor.acks s = [] }.
Lemma suffix_in (m : Moment) (p q : list Moment) : p `suffix_of` q → m ∈ p → m ∈ q.
Proof. intros [k ->]. rewrite elem_of_app. auto. Qed.
Lemma turn_grew s t : Books None s → SoundTurn s t →
  ∃ new, Grew new s (turn t s) ∧ (new = [] ∨ ∃ ticket c path b, Turn.event t = Received ticket c path b ∧ new = [ticket]).
Proof.
  intros Hb Ht. destruct (grew_turn _ _ _ _ t s Hb Ht) as [H|H]; [by exists []; auto|]. eexists. split; [exact H|].
  unfold taken. destruct (Turn.event t) as [|ticket c path b| |]; auto. destruct (Actor.closing _); [auto|]. right. by exists ticket, c, path, b.
Qed.
Lemma turn_ended s t : Books None s → Ledger s → Forall (λ r, within s r.1 r.2) (Turn.reports t) →
  (Actor.ended s ≠ None → Actor.workers s = [] ∧ Actor.acks s = []) →
  Actor.ended (turn t s) ≠ None → Actor.workers (turn t s) = [] ∧ Actor.acks (turn t s) = [].
Proof.
  intros Hb H Hr He. rewrite turn_unfold. case_bool_decide as Hend; [done|]. cbn zeta.
  destruct (ledger_before _ _ sha256 secrets sha256_length t s Hr Hb H) as (_&_&Ha). pose proof (ended_before sha256 secrets t s) as E.
  destruct (_ && _) eqn:Hfin; [|by rewrite ended_select, E]. apply andb_true_iff in Hfin as [_ Hw]. apply bool_decide_eq_true in Hw. intros _.
  revert Ha Hw. generalize (before_select sha256 secrets t s) as s'. intros s' Ha Hw. unfold finish_run. destruct (_ && _); [|done].
  destruct (save_state _ _ s') as [[[]|e] s1] eqn:Hs; apply ended_save in Hs as (_&E1&E2&_); cbn; by rewrite E1, E2.
Qed.
Lemma turn_life durable s t : Life durable s → SoundTurn s t → Fresh s t → Life durable (turn t s).
Proof.
  intros [Hb H Hl Ha Hn He] Ht Hfresh. destruct (turn_grew s t Hb Ht) as (new&[(front&Et&Ho) Eh Hacc]&Hnew). split.
  - by apply turn_books.
  - by apply ledger_turn.
  - intros Hd. destruct (Hl Hd) as [? [row ?]]. rewrite Et. split; [rewrite elem_of_app; auto|]. exists row. rewrite elem_of_app. auto.
  - by rewrite Hacc, Eh, Ha.
  - rewrite Eh. destruct Hnew as [->|(ticket&c&path&b&Ee&->)]; [done|]. apply NoDup_cons. split; [|done].
    intros Hin%heard_asked. unfold Fresh in Hfresh. by rewrite Ee in Hfresh.
  - by apply turn_ended; [..|apply Ht|].
Qed.
(** What a start after the end of the process needs. *)
Lemma within_startable s t p : Life true s → SoundTurn s t → Fresh s t → Within s t p → Startable p ∧ lived p.
Proof.
  intros Hs Ht Hfresh [[front Hp] Hsuf]. pose proof (turn_life _ _ _ Hs Ht Hfresh) as Hs'.
  pose proof (lg_always _ _ _ _ _ _ _ _ _ _ _ (lf_ledger _ _ Hs')) as Halways. rewrite Hp in Halways. apply always_tail in Halways.
  destruct (lf_lived _ _ Hs eq_refl) as [Ho [row Hrow]].
  assert (lived p) as Hl by (split; [by eapply suffix_in|exists row; by eapply suffix_in]).
  split; [|done]. assert (kept p) as Hk by (apply always_now; [done|intros ->; destruct Hl as [?%not_elem_of_nil _]; done]).
  split; try done; [|by destruct Hl].
  intros saved Hsaved. destruct (Hk Hl) as ((saved'&Hs1&Hw&_)&_). rewrite Hsaved in Hs1. by injection Hs1 as <-.
Qed.
(** Without a worker no call waits for one. *)
Lemma nobody_waits s : Books None s → Actor.workers s = [] → waiting (Actor.jobs s) = [].
Proof.
  intros Hb Hw. assert (∀ id job, (id, job) ∈ Actor.jobs s → QueueJob.pause_reply job = None) as Hnone.
  { intros id job Hin. pose proof (in_find_job _ _ _ (bk_ids _ _ _ _ _ _ _ _ _ _ Hb) Hin) as Hj. eapply calm_waits_not; [done..|].
    intros Hst. assert (id ∈ (Actor.workers s).*2) as Hwin; [|rewrite Hw in Hwin; by apply not_elem_of_nil in Hwin].
    apply (bk_worked _ _ _ _ _ _ _ _ _ _ Hb). exists job. split; [done|]. by rewrite Hst. }
  revert Hnone. unfold waiting. induction (Actor.jobs s) as [|[k j] l IH]; intros Hnone; [done|]. cbn. rewrite (Hnone k j) by (by left).
  apply IH. intros id job Hin. apply (Hnone id). by right.
Qed.
Lemma open_life config fate paths p s : Startable p → open_queue config fate paths p = Ok s → Life true s.
Proof.
  intros Hp Hopen. destruct (open_ledger _ _ _ _ _ Hp Hopen) as ([Hb _ Ha _ _ He Hw]&H&Hl&(p'&Et)&_).
  pose proof (nobody_waits s Hb Hw) as Hwait.
  split; try done; rewrite ?Et; cbn; [|apply NoDup_nil_2]. unfold pending. by rewrite Ha, Hwait.
Qed.
Lemma first_startable row : FirstRow row → Startable [Wrote row].
Proof.
  intros Hrow. split; [|by apply first_row_typed|..].
  - constructor; [|constructor]. intros [Ho _]. by apply list_elem_of_singleton in Ho.
  - intros Ho. by apply list_elem_of_singleton in Ho.
  - intros t id Hg. by apply list_elem_of_singleton in Hg.
Qed.
Lemma start_life c s : start_configured c = Ok s → Life false s.
Proof.
  unfold start_configured. destruct (Config.validate c) as [[]|] eqn:Hc; [|done]. intros [= <-].
  pose proof (launch_books _ header_value sha256 secrets sha256_length (Snapshot.empty c) [] [] [] (empty_well_formed url_parse header_value c Hc) eq_refl) as [Hb _].
  assert (¬ lived [Opened]) as Hn by (intros [_ [row Hrow%list_elem_of_singleton]]; done).
  split; [exact Hb| |done|done|apply NoDup_nil_2|done]. split; try done; [|by left|].
  - constructor; [|constructor]. by intros ?%Hn.
  - intros t id [Hg|Hg]; [by apply list_elem_of_singleton in Hg|by apply not_elem_of_nil in Hg].
Qed.
Lemma reached_life durable s : Reached durable s → Life durable s.
Proof.
  induction 1 as [c s Hc|config fate paths row s Hrow Hopen|durable s t _ IH Ht Hfresh|s t p config fate paths s' _ IH Ht Hfresh Hp Hopen].
  - by eapply start_life.
  - eapply open_life; [|exact Hopen]. by apply first_startable.
  - by apply turn_life.
  - eapply open_life; [|exact Hopen]. by eapply within_startable.
Qed.
End Runs.
