(* ===== verification/ManagerThm.v ===== *)
(** * What the queue of the first engine guarantees

    The theorems about the actor of manager.rs over all its lives: how much works at once, what is
    started first, that no call is left without an answer, and what crashes cannot take away. *)

From S2P Require Import Prelude.
From S2P Require Import Files.
From S2P Require Import StorageFile.
From S2P Require Import ResumePolicy.
From S2P Require Import TransferStore.
From S2P Require Import Options.
From S2P Require Import OptionsThm.
From S2P Require Import Requests.
From S2P Require Import RequestsThm.
From S2P Require Import QueueStore.
From S2P Require Import QueueStoreThm.
From S2P Require Import QueueStoreType.
From S2P Require Import Manager.
From S2P Require Import ManagerCalls.
From S2P Require Import ManagerInv.
From S2P Require Import ManagerSteps.
From S2P Require Import ManagerCommands.
From S2P Require Import ManagerRows.
From S2P Require Import ManagerTrace.
From S2P Require Import ManagerGrowth.
From S2P Require Import ManagerRuns.

Lemma one_of_key {A B} (f : A → B) l x y : NoDup (f <$> l) → x ∈ l → y ∈ l → f x = f y → x = y.
Proof.
  induction l as [|z l IH]; cbn; [by intros _ ?%not_elem_of_nil|]. intros [Hz Hn]%NoDup_cons [->|Hx]%elem_of_cons [->|Hy]%elem_of_cons E; auto.
  - destruct Hz. rewrite E. by apply list_elem_of_fmap_2.
  - destruct Hz. rewrite <-E. by apply list_elem_of_fmap_2.
Qed.

(** ** The next job *)

(** A job that may be started now. *)
Definition startable (jobs : list (Z * QueueJob.t)) (max_per_origin id : Z) (job : QueueJob.t) : Prop :=
  find_job id jobs = Some job ∧ QueueJob.state job = TaskState.Queued ∧ active_on jobs (QueueJob.origin job) < max_per_origin.
(** [i] is the first place in the queue, from [index] on, of a job with the highest priority. *)
Definition best (jobs : list (Z * QueueJob.t)) (m : Z) (queue : list Z) (i : nat) (p : Priority.t) : Prop :=
  (∃ id job, queue !! i = Some id ∧ startable jobs m id job ∧ QueueJob.priority job = p) ∧
  ∀ k id job, queue !! k = Some id → startable jobs m id job →
    Priority.rank (QueueJob.priority job) ≤ Priority.rank p ∧ ((k < i)%nat → Priority.rank (QueueJob.priority job) < Priority.rank p).
Definition chosen (jobs : list (Z * QueueJob.t)) (m : Z) (queue : list Z) (selected : option (nat * Priority.t)) : Prop :=
  match selected with
  | Some (i, p) => best jobs m queue i p
  | None => ∀ k id job, queue !! k = Some id → ¬ startable jobs m id job
  end.
Lemma lookup_end {A} (l : list A) x k y : (l ++ [x]) !! k = Some y → l !! k = Some y ∨ k = length l ∧ y = x.
Proof.
  intros [H|(Hl&H)]%lookup_app_Some; [by left|right]. apply list_lookup_singleton_Some in H as [Hk ->]. split; [lia|done].
Qed.
Lemma next_from_best jobs m queue : ∀ before selected, chosen jobs m before selected →
  chosen jobs m (before ++ queue) (next_from jobs m (length before) queue selected).
Proof.
  induction queue as [|id queue IH]; intros before selected Hsel; cbn [next_from]; [by rewrite app_nil_r|].
  replace (before ++ id :: queue) with ((before ++ [id]) ++ queue) by (by rewrite <-app_assoc).
  replace (S (length before)) with (length (before ++ [id])) by (rewrite length_app; cbn; lia). apply IH. clear IH queue.
  assert ((∀ job, ¬ startable jobs m id job) → chosen jobs m (before ++ [id]) selected) as Hkeep.
  { intros Hno. destruct selected as [[i p]|]; cbn in *.
    - destruct Hsel as [(id'&job&Hi&?) Hall]. split; [exists id', job; split; [by apply lookup_app_l_Some|done]|].
      intros k id1 job1 [Hk|[-> ->]]%lookup_end Hst; [by eapply Hall|by destruct (Hno job1)].
    - intros k id1 job1 [Hk|[-> ->]]%lookup_end; [by eapply Hsel|done]. }
  destruct (find_job id jobs) as [job|] eqn:Hj; [|apply Hkeep; intros job (?&_); congruence].
  case_decide as Hst; [apply Hkeep; intros job' (?&?&_); congruence|].
  case_decide as Ha; [apply Hkeep; intros job' (?&_&?); simplify_eq; lia|].
  assert (startable jobs m id job) as Hstart by (split; [done|split; [done|lia]]).
  assert (∀ job', startable jobs m id job' → job' = job) as Hone by (intros job' (?&_); congruence).
  assert ((before ++ [id]) !! length before = Some id) as Hlast by (by rewrite list_lookup_middle).
  assert ((∀ k id' job', before !! k = Some id' → startable jobs m id' job' → Priority.rank (QueueJob.priority job') < Priority.rank (QueueJob.priority job)) →
    best jobs m (before ++ [id]) (length before) (QueueJob.priority job)) as Hnew.
  { intros Hless. split; [by exists id, job|]. intros k id' job' [Hk|[-> ->]]%lookup_end Hs'.
    - pose proof (Hless _ _ _ Hk Hs'). lia.
    - rewrite (Hone _ Hs'). split; lia. }
  destruct selected as [[i p]|]; cbn in Hsel.
  - destruct Hsel as [(id0&job0&Hi&Hs0&Hp) Hall]. case_decide as Hlt.
    + apply Hnew. intros k id' job' Hk Hs'. destruct (Hall _ _ _ Hk Hs'). lia.
    + split; [exists id0, job0; split; [by apply lookup_app_l_Some|done]|]. intros k id' job' [Hk|[-> ->]]%lookup_end Hs'; [by eapply Hall|].
      rewrite (Hone _ Hs'). split; [lia|]. apply lookup_lt_Some in Hi. lia.
  - apply Hnew. intros k id' job' Hk Hs'. exfalso. by eapply Hsel.
Qed.
Lemma nothing_chosen jobs m : chosen jobs m [] None.
Proof. intros k id job Hk. by rewrite lookup_nil in Hk. Qed.
Lemma next_eligible_None jobs queue m : next_eligible jobs queue m = None → ∀ id job, id ∈ queue → ¬ startable jobs m id job.
Proof.
  unfold next_eligible. pose proof (next_from_best jobs m queue [] None (nothing_chosen _ _)) as H. cbn in H.
  destruct (next_from _ _ _ _ _); [done|]. intros _ id job [k Hk]%list_elem_of_lookup. by eapply H.
Qed.
(** C17: [next_eligible] chooses, among the queued jobs whose origin has room, the first of the highest
    priority, and finds none exactly when there is none. *)
Theorem next_eligible_is_the_best jobs queue max_per_origin :
  match next_eligible jobs queue max_per_origin with
  | Some i => ∃ id job, queue !! i = Some id ∧ startable jobs max_per_origin id job ∧
      ∀ k id' job', queue !! k = Some id' → startable jobs max_per_origin id' job' →
        Priority.rank (QueueJob.priority job') ≤ Priority.rank (QueueJob.priority job) ∧
        ((k < i)%nat → Priority.rank (QueueJob.priority job') < Priority.rank (QueueJob.priority job))
  | None => ∀ id job, id ∈ queue → ¬ startable jobs max_per_origin id job
  end.
Proof.
  pose proof (next_eligible_None jobs queue max_per_origin) as Hnone. unfold next_eligible in *.
  pose proof (next_from_best jobs max_per_origin queue [] None (nothing_chosen _ _)) as H. cbn in H.
  destruct (next_from _ _ _ _ _) as [[i p]|]; cbn in *; [|auto]. destruct H as [(id&job&Hi&Hs&<-) Hall]. by exists id, job.
Qed.

Section Lives.
Context (url_parse : list Z → option Url.t) (header_value : list Z → bool) (sha256 : list Z → list Z) (secrets : Secrets.t).
Notation SoundTurn := (SoundTurn url_parse header_value sha256 secrets).
Notation turn := (turn url_parse sha256 secrets).
Notation open_queue := (open_queue url_parse header_value sha256 secrets).
Notation load_row := (load url_parse header_value sha256 secrets).
Notation Reached := (Reached url_parse header_value sha256 secrets).
Notation Within := (Within url_parse sha256 secrets).

(** C18: before a turn waits, every startable job was started: the actor is closing, or as many work as
    may, or nothing in the queue may be started. *)
Theorem no_startable_job_waits t s : let s' := before_select sha256 secrets t s in
  Actor.closing s' = true ∨ Config.max_active (Actor.config s') ≤ Z.of_nat (length (Actor.workers s')) ∨
  ∀ id job, id ∈ Actor.queue s' → ¬ startable (Actor.jobs s') (Config.max_per_origin (Actor.config s')) id job.
Proof.
  intros s'. subst s'. unfold before_select. set (s1 := drain_acks _). pose proof (start_workers_exhausts sha256 secrets (S (length (Actor.queue s1))) s1 ltac:(lia)) as H.
  cbn zeta in *. destruct H as [H|[H|H]]; [by left|right; by left|right; right].
  by eapply next_eligible_None.
Qed.

Context `{!UrlLaws url_parse} `{!UrlNormal url_parse} `{!SecretsLaws secrets} (sha256_length : ∀ b, length (sha256 b) = 32%nat).

(** The workers that work for an origin. *)
Definition workers_on (s : Actor.t) (origin : list Z * list Z * Z) : list (Z * Z) :=
  filter (λ w : Z * Z, QueueJob.origin <$> find_job w.2 (Actor.jobs s) = Some origin) (Actor.workers s).
Lemma workers_are_active s origin : Books url_parse header_value None s → Z.of_nat (length (workers_on s origin)) ≤ active_on (Actor.jobs s) origin.
Proof.
  intros Hb. unfold active_on, workers_on. set (p := λ w : Z * Z, _ : Prop). set (q := λ j : Z * QueueJob.t, _ : Prop).
  assert ((filter p (Actor.workers s)).*2 ⊆+ (filter q (Actor.jobs s)).*1) as Hsub.
  { apply NoDup_submseteq.
    - eapply sublist_NoDup; [apply (bk_owners _ _ _ _ _ _ _ _ _ _ Hb)|]. apply fmap_sublist, sublist_filter.
    - intros id (w&->&[Hp Hw]%list_elem_of_filter)%list_elem_of_fmap.
      assert (w.2 ∈ (Actor.workers s).*2) as Hin by (by apply list_elem_of_fmap_2).
      apply (bk_worked _ _ _ _ _ _ _ _ _ _ Hb) in Hin as (job&Hin&Hbusy&_). apply list_elem_of_fmap. exists (w.2, job). split; [done|].
      apply list_elem_of_filter. split; [|done]. unfold p, q in *. rewrite (in_find_job _ _ _ (bk_ids _ _ _ _ _ _ _ _ _ _ Hb) Hin) in Hp.
      injection Hp as Hp. done. }
  apply submseteq_length in Hsub. rewrite !length_fmap in Hsub. lia.
Qed.
(** C15: in every life of the actor, with calls as the methods of the manager check them, workers that report no
    more bytes than their download may have, and refreshed links that stay within 16384 bytes in their normal
    form ([SoundTurn]), no more workers are at work than the settings allow, in all and for
    each origin; every worker works for one job, and the jobs that are busy are those with a worker. *)
Theorem workers_are_capped durable s : Reached durable s →
  Z.of_nat (length (Actor.workers s)) ≤ Config.max_active (Actor.config s) ∧
  (∀ origin, Z.of_nat (length (workers_on s origin)) ≤ Config.max_per_origin (Actor.config s)) ∧
  NoDup (Actor.workers s).*1 ∧ NoDup (Actor.workers s).*2 ∧
  ∀ id, id ∈ (Actor.workers s).*2 ↔ ∃ job, find_job id (Actor.jobs s) = Some job ∧ busy (QueueJob.state job) = true.
Proof.
  intros Hs%(reached_life _ _ _ _ sha256_length). destruct Hs as [Hb _ _ _ _ _]. split_and!.
  - apply Hb.
  - intros origin. etransitivity; [by apply workers_are_active|apply (bk_origin _ _ _ _ _ _ _ _ _ _ Hb)].
  - apply Hb.
  - apply Hb.
  - intros id. rewrite (bk_worked _ _ _ _ _ _ _ _ _ _ Hb). split.
    + intros (job&Hin&Hbusy&_). exists job. split; [|done]. apply in_find_job; [apply Hb|done].
    + intros (job&Hj&Hbusy). exists job. split; [by apply find_job_in|done].
Qed.
(** C16: in every life of the actor, with calls as the methods of the manager check them, workers that report no
    more bytes than their download may have, and refreshed links that stay within 16384 bytes in their normal
    form ([SoundTurn]), each call that was heard is answered exactly once, or still waits
    for the next save or for a worker; when the run has ended, every one was answered and no worker is left. *)
Theorem every_call_is_answered_once durable s : Reached durable s →
  NoDup (heard (Actor.trace s)) ∧ answered (Actor.trace s) ++ pending s ≡ₚ heard (Actor.trace s) ∧
  (Actor.ended s ≠ None → answered (Actor.trace s) ≡ₚ heard (Actor.trace s) ∧ Actor.workers s = []).
Proof.
  intros Hs%(reached_life _ _ _ _ sha256_length). destruct Hs as [Hb _ _ Ha Hn He]. split; [done|]. split; [done|].
  intros [Hw Hk]%He. split; [|done]. rewrite <-Ha. unfold pending. by rewrite Hk, (nobody_waits _ _ s Hb Hw), app_nil_r.
Qed.

(** ** Crashes *)

(** C13: when calls are as the methods of the manager check them, workers report no more bytes than their
    download may have, and refreshed links stay within 16384 bytes in their normal form ([SoundTurn]): wherever in a turn the process ends, the queue opens again, provided
    that every saved directory then has a path key and those keys differ; it then holds every download
    whose identifier a caller was ever given, unless a call asked to forget it, and the receipt of its
    key, so that asking again with the key finds it. *)
Theorem accepted_downloads_survive_crashes s t p config fate keys :
  Reached true s → SoundTurn s t → Fresh s t → Within s t p → Config.validate config = Ok () → NoDup keys →
  (∀ saved, load_row (last_row p) = Ok (Some saved) → length keys = length (Snapshot.jobs saved)) →
  ∃ s', open_queue config fate (PathKey <$> keys) p = Ok s' ∧ Reached true s' ∧ Actor.workers s' = [] ∧
    ∀ ticket id, given p ticket id → (id ∈ ids (Actor.jobs s') ∨ forgotten p id) ∧
      ∀ o priority h, Heard ticket (QueueCommand.Enqueue o priority (Some h)) ∈ p → receipt_of (Actor.receipts s') h id.
Proof.
  intros Hs Ht Hfresh Hp Hc Hk Hlen. pose proof (reached_life _ _ _ _ sha256_length _ _ Hs) as Hlife.
  destruct (within_startable _ _ _ _ sha256_length s t p Hlife Ht Hfresh Hp) as [Hstart Hl].
  assert (good_row url_parse header_value sha256 secrets (last_row p)) as Hgood.
  { apply (always_now _ _ (sb_always _ _ _ _ _ Hstart)); [|done]. intros ->. by destruct Hl as [?%not_elem_of_nil _]. }
  destruct (good_row_opens _ _ _ _ config fate keys p Hc Hgood Hlen Hk) as [s' Hopen]. exists s'. split; [done|].
  destruct (open_ledger _ _ _ _ sha256_length _ _ _ _ _ Hstart Hopen) as ([_ _ _ _ _ _ Hw]&_&_&_&Howes).
  split; [by eapply reached_again|]. split; [done|]. intros ticket id Hg. destruct (Howes _ _ Hg) as (_&Hid&Hr). by split.
Qed.
(** C14: over all lives and crashes, with calls as the methods of the manager check them, workers that report no
    more bytes than their download may have, and refreshed links that stay within 16384 bytes in their normal
    form ([SoundTurn]), two calls that were given a download under the same key were given the
    same one, and asked for the same thing. *)
Theorem one_download_per_key s t p ticket id o priority h ticket' id' o' priority' h' :
  Reached true s → SoundTurn s t → Fresh s t → Within s t p →
  Heard ticket (QueueCommand.Enqueue o priority (Some h)) ∈ p → given p ticket id →
  Heard ticket' (QueueCommand.Enqueue o' priority' (Some h')) ∈ p → given p ticket' id' →
  AdmissionHashes.key h = AdmissionHashes.key h' → id = id' ∧ AdmissionHashes.payload h = AdmissionHashes.payload h'.
Proof.
  intros Hs Ht Hfresh Hp Hh Hg Hh' Hg' Hkey. pose proof (reached_life _ _ _ _ sha256_length _ _ Hs) as Hlife.
  destruct (within_startable _ _ _ _ sha256_length s t p Hlife Ht Hfresh Hp) as [Hstart Hl].
  assert (kept url_parse header_value sha256 secrets p) as Hk.
  { apply (always_now _ _ (sb_always _ _ _ _ _ Hstart)). intros ->. by destruct Hl as [?%not_elem_of_nil _]. }
  destruct (Hk Hl) as (_&saved&Hload&Howes). pose proof (sb_row _ _ _ _ _ Hstart _ Hload) as Hw.
  destruct (Howes _ _ Hg) as (_&_&Hr). destruct (Hr _ _ _ Hh) as (r&Hin&Hk1&Hp1&<-).
  destruct (Howes _ _ Hg') as (_&_&Hr'). destruct (Hr' _ _ _ Hh') as (r'&Hin'&Hk2&Hp2&<-).
  assert (r = r') as ->; [|split; congruence]. apply (one_of_key _ _ _ _ (wf_keys _ _ _ Hw)); [done|done|congruence].
Qed.
End Lives.

(** ** A small life *)

Module ToyLife.
#[global] Instance normal : UrlNormal ToyWeb.parse.
Proof.
  split; intros raw u H _; apply ToyWeb.parse_in in H; rewrite !elem_of_cons, elem_of_nil in H; destruct H as [->|[->|[->|[]]]]; by vm_compute.
Qed.
Definition fields (_ : list Z) : bool := true.
Notation Reached := (Reached ToyWeb.parse fields ToyQueue.digest ToyQueue.secrets).
Notation SoundTurn := (SoundTurn ToyWeb.parse fields ToyQueue.digest ToyQueue.secrets).
Notation turn := (turn ToyWeb.parse ToyQueue.digest ToyQueue.secrets).
Definition config : Config.t := Config.Make 1 10 1 RetrySettings.disabled None.
Definition hashes : AdmissionHashes.t := AdmissionHashes.Make (repeat 1 32) (repeat 2 32).
Definition ask : QueueCommand.t := QueueCommand.Enqueue (ToyQueue.options 97 ToyWeb.policy) Priority.High (Some hashes).
Definition started (r : result ManagerError.t Actor.t) : Actor.t :=
  match r with Ok s => s | Err _ => launch config [] 0 [] false [] end.
Definition opened : Actor.t :=
  started (open_queue ToyWeb.parse fields ToyQueue.digest ToyQueue.secrets config Saved [] [Wrote None]).
Definition hears (ticket : Z) : Turn.t := Turn.Make 0 [] [] [] 0 (Received ticket ask (PathKey [1]) Absent).
Definition rests : Turn.t := Turn.Make 0 [] [] [] 0 Tick.
Definition ends : Turn.t := Turn.Make 0 [] [] [] 0 NoMore.
Definition fails : Turn.t := Turn.Make 0 [] [] [] 0 (Joined 0 (Some (Err DownloadError.Network))).
(** The download is asked for, saved, granted and started; asked for again with the same key. *)
Definition asked_twice : Actor.t := turn (hears 2) (turn rests (turn (hears 1) opened)).
(** The callers go, the worker ends, and so does the run. *)
Definition over : Actor.t := turn rests (turn fails (turn ends asked_twice)).

Lemma ask_sound : Sound ToyWeb.parse fields ask.
Proof.
  split; [|by intros h [= <-]]. split; try done; try (intros v [= <-]; done); by vm_compute.
Qed.
Lemma not_asked p ticket : forallb (λ m, match m with Heard t _ => negb (bool_decide (t = ticket)) | _ => true end) p = true → ¬ asked p ticket.
Proof.
  rewrite forallb_forall. intros H [c Hin%list_elem_of_In]. specialize (H _ Hin). cbn in H. by rewrite bool_decide_eq_true_2 in H.
Qed.
Lemma hears_reached ticket durable s : Reached durable s → ¬ asked (Actor.trace s) ticket → Reached durable (turn (hears ticket) s).
Proof. intros H Ha. apply reached_turn; [done| |done]. split; [constructor|]. split; [apply ask_sound|done]. Qed.
Lemma rests_sound s : SoundTurn s rests.
Proof. split; [constructor|exact I]. Qed.
Lemma opened_reached : Reached true opened.
Proof. eapply (reached_open _ _ _ _ config Saved [] None); [by intros b plain|by vm_compute]. Qed.
Lemma asked_reached : Reached true asked_twice.
Proof.
  apply hears_reached; [|apply not_asked; by vm_compute]. apply reached_turn; [|apply rests_sound|exact I].
  apply hears_reached; [apply opened_reached|apply not_asked; by vm_compute].
Qed.
Lemma over_reached : Reached true over.
Proof.
  assert (∀ s, SoundTurn s ends) as Hends by (intros s; split; [constructor|exact I]).
  assert (∀ s, SoundTurn s fails) as Hfails by (intros s; split; [constructor|]; intros b Hb; discriminate Hb).
  assert (Reached true (turn ends asked_twice)) as H1 by (apply reached_turn; [exact asked_reached|apply Hends|exact I]).
  assert (Reached true (turn fails (turn ends asked_twice))) as H2 by (apply reached_turn; [exact H1|apply Hfails|exact I]).
  apply reached_turn; [exact H2|apply rests_sound|exact I].
Qed.
(** What the process may leave behind. *)
Definition seen : list Moment := Actor.trace (turn rests asked_twice).
Lemma seen_within : Within ToyWeb.parse ToyQueue.digest ToyQueue.secrets asked_twice rests seen.
Proof. split; [done|]. exists []. by vm_compute. Qed.
Lemma seen_given : given seen 1 1 ∧ given seen 2 1.
Proof. split; [apply (list_elem_of_lookup_2 seen 4)|apply (list_elem_of_lookup_2 seen 0)]; by vm_compute. Qed.
Lemma seen_heard : Heard 1 ask ∈ seen ∧ Heard 2 ask ∈ seen.
Proof. split; [apply (list_elem_of_lookup_2 seen 6)|apply (list_elem_of_lookup_2 seen 1)]; by vm_compute. Qed.
Lemma seen_jobs saved : load ToyWeb.parse fields ToyQueue.digest ToyQueue.secrets (last_row seen) = Ok (Some saved) → length (Snapshot.jobs saved) = 1%nat.
Proof. vm_compute. by intros [= <-]. Qed.
End ToyLife.

Lemma workers_are_capped_witness :
  length (Actor.workers ToyLife.asked_twice) = 1%nat ∧ Z.of_nat (length (Actor.workers ToyLife.asked_twice)) ≤ 1.
Proof.
  split; [by vm_compute|].
  exact (proj1 (workers_are_capped ToyWeb.parse ToyLife.fields ToyQueue.digest ToyQueue.secrets (λ b, eq_refl) true _ ToyLife.asked_reached)).
Defined.
Lemma every_call_is_answered_once_witness :
  Actor.ended ToyLife.over = Some (Ok ()) ∧ heard (Actor.trace ToyLife.over) = [2; 1] ∧ answered (Actor.trace ToyLife.over) ≡ₚ [2; 1].
Proof.
  assert (Actor.ended ToyLife.over = Some (Ok ())) as He by (by vm_compute).
  assert (heard (Actor.trace ToyLife.over) = [2; 1]) as Hh by (by vm_compute). split; [exact He|]. split; [exact Hh|]. rewrite <-Hh.
  apply (every_call_is_answered_once ToyWeb.parse ToyLife.fields ToyQueue.digest ToyQueue.secrets (λ b, eq_refl) true _ ToyLife.over_reached).
  by rewrite He.
Defined.
Lemma accepted_downloads_survive_crashes_witness :
  given ToyLife.seen 1 1 ∧ ∃ s', open_queue ToyWeb.parse ToyLife.fields ToyQueue.digest ToyQueue.secrets ToyLife.config Saved
    (PathKey <$> [[1]]) ToyLife.seen = Ok s' ∧ (1 ∈ ids (Actor.jobs s') ∨ forgotten ToyLife.seen 1) ∧ receipt_of (Actor.receipts s') ToyLife.hashes 1.
Proof.
  split; [apply ToyLife.seen_given|].
  destruct (accepted_downloads_survive_crashes ToyWeb.parse ToyLife.fields ToyQueue.digest ToyQueue.secrets (λ b, eq_refl) ToyLife.asked_twice
    ToyLife.rests ToyLife.seen ToyLife.config Saved [[1]] ToyLife.asked_reached (ToyLife.rests_sound _) I ToyLife.seen_within eq_refl
    (NoDup_singleton _)) as (s'&Hopen&_&_&Hall).
  - intros saved Hs%ToyLife.seen_jobs. by rewrite Hs.
  - exists s'. split; [exact Hopen|]. destruct (Hall 1 1 (proj1 ToyLife.seen_given)) as [Hid Hr]. split; [exact Hid|].
    exact (Hr _ _ _ (proj1 ToyLife.seen_heard)).
Defined.
Lemma one_download_per_key_witness : given ToyLife.seen 1 1 ∧ given ToyLife.seen 2 1 ∧ 1 = 1 ∧ repeat 2 32 = repeat 2 32.
Proof.
  split; [apply ToyLife.seen_given|]. split; [apply ToyLife.seen_given|].
  exact (one_download_per_key ToyWeb.parse ToyLife.fields ToyQueue.digest ToyQueue.secrets (λ b, eq_refl) ToyLife.asked_twice
    ToyLife.rests ToyLife.seen 1 1 _ _ ToyLife.hashes 2 1 _ _ ToyLife.hashes ToyLife.asked_reached (ToyLife.rests_sound _) I ToyLife.seen_within
    (proj1 ToyLife.seen_heard) (proj1 ToyLife.seen_given) (proj2 ToyLife.seen_heard) (proj2 ToyLife.seen_given) eq_refl).
Defined.

(** A refresh is taken whose normal form exceeds the limit on links: what is written of the queue then is
    not read back, so that the queue does not open any more.  ([Sound] excludes such a refresh.) *)
Definition long_job : QueueJob.t :=
  QueueJob.Make (ToyQueue.options 97 RequestPolicy.default) ([], [], 0) Priority.Normal [] TaskState.Paused 0 None None 0 None None.
Definition long_link : QueueJob.t :=
  QueueJob.set_options (Options.set_link LongHost.raw None (QueueJob.options long_job)) long_job.
Lemma long_refresh_is_lost : ∃ o, refreshed LongHost.parse ToyQueue.digest long_link LongHost.raw Absent = Ok o ∧
  is_ok (encode ToyQueue.digest (LongHost.snapshot o)) = true ∧
  is_ok (LongHost.read (LongHost.encoded (LongHost.snapshot (QueueJob.options long_link)))) = true ∧
  is_ok (LongHost.read (LongHost.encoded (LongHost.snapshot o))) = false.
Proof. eexists. split; [vm_compute; reflexivity|]. split_and!; vm_compute; reflexivity. Qed.
